(* ===== verification/_CoqProject ===== *)
-Q . S2P
Prelude.v
GoTime.v
GoFloat.v
GoHash.v
GoSort.v
GoString.v
Wire.v
FlowModel.v
Templates.v
IE.v
NetFlow5.v
NetFlow9.v
Ipfix.v
SFlow.v
Decode.v
Breaker.v
Buffer.v
Abac.v
Limiter.v
Fairness.v
Lifecycle.v
Paris.v
PathMerge.v
Quality.v
PromSelector.v
PromEval.v
AlertRule.v
Maintenance.v
Alert.v
GoProg.v
BgpBase.v
AsPath.v
BgpPrefix.v
BgpUpdate.v
BgpOpen.v
BgpPeer.v
BgpChanges.v
BgpBook.v
BgpStreams.v
BgpMonitor.v
BgpFeed.v
BgpAdmission.v
GoNet.v
ClientIP.v
Incident.v
Correlator.v
Outage.v
Bfs.v
TopoIdentity.v
Topology.v
TopoBuilder.v
TopoStore.v
WhatIf.v
WriterFence.v
TsdbBatch.v
