(* ===== verification/Prelude.v ===== *)
(** * probectl: verification of the core decision and ingest logic

    probectl is a network observability platform.  Agents run probes and keep their
    results in an on-disk buffer until the control plane acknowledges them; collectors
    decode NetFlow, IPFIX and sFlow datagrams sent by routers; the control plane decides
    who may do what, bounds what each tenant may consume, shields itself from failing
    upstreams and from login brute force, traces network paths, rolls agent upgrades
    out in stages, answers metric queries, raises alerts, follows the BGP routes that
    monitored routers report over BMP, correlates signals into incidents, watches for
    outages, keeps a graph of the network in which failures can be simulated, and fences the
    writes of tenants that are being erased.  This library models the code that makes those
    decisions, as executable functions and step relations translated from the Go sources under
    src/internal, and proves what makes it correct.

    ** Files and the code they model

    - [Prelude], [GoTime], [GoFloat], [GoHash], [GoSort], [GoString]: what the code uses
      of Go itself - w-bit integers as [Z] with explicit wrap-around, bytes and slices,
      time.Time and saturating durations, float64 (IEEE 754 binary64 of the Standard
      Library's SpecFloat), FNV-1a, sorting, strings as bytes with the functions of
      package strings and strconv - with a state monad, record update notation and
      tactics.
    - [Wire] (wire/wire.go): the bounds-checked reader over untrusted bytes, in the
      state monad; the class [Reads] states what a read does on an encoding and is what
      the decoders' round trips are proved from, the class [Safe] what it never does.
    - [FlowModel] (flow/model.go), [Templates] (flow/templates.go), [IE] (flow/ie.go):
      the flow record and its export form, the template cache and the learned sampling
      rates, the information elements.  The clock and Go's map iteration order are the
      class [Runtime].
    - [NetFlow5], [NetFlow9], [Ipfix], [SFlow], [Decode] (flow/netflow5.go, netflow9.go,
      ipfix.go, sflow.go, decode.go): the four decoders and the dispatch over them.
    - [Breaker] (breaker/breaker.go): the circuit breaker; a call is two steps, before
      and after the callback, so concurrent calls are interleavings of a step relation.
    - [Buffer] (agent/buffer.go, agent/agent.go): the agent's store-and-forward log, with
      the file contents and every I/O fault explicit, and the drain cycle over it; frame
      conversion and the result stream are parameters.
    - [Abac] (auth/abac.go, auth/auth.go): scoped RBAC grants, ABAC policies and the one
      decision function.
    - [Limiter] (auth/ratelimit.go): the login limiter, its map and intrusive LRU list as
      pointers into a heap.
    - [Fairness] (fairness/fairness.go): the per-tenant gate - token buckets, query
      guard, policy cache - with the release closures and refresh goroutines it leaves
      behind as part of the state.
    - [Lifecycle] (lifecycle/version.go, fleet.go): version strings, the skew policy and
      staged rollouts.
    - [Paris], [PathMerge] (path/paris.go, parse.go, model.go, merge.go): probe packets
      and their recovery from quoted datagrams, and the merge of traces.
    - [Quality] (flow/quality_collector.go, quality.go): the collector's per-exporter
      quality windows and the receipts drained from and restored to them.
    - [PromSelector], [PromEval] (promapi/selector.go, eval.go): metric selectors, the
      tenant pin put on every forwarded query, and query evaluation over a snapshot.
      The regular expression engine and sort.Slice are parameters.
    - [AlertRule], [Maintenance], [Alert] (alert/rule.go, maintenance.go, engine.go,
      state.go, eval.go, evaluation.go, active.go; control/alerteval.go): alert rules and
      the query built from one, maintenance windows, and the engine that evaluates rules
      into notifications.  Hooks, sinks and channels are a log of effects; metric and trap
      sources, hashing, number formatting, the clock and map order are parameters.
    - [GoProg], [BgpBase]: functions that poll a context.Context, return joined sentinel
      errors and could panic, as a monad of trees of polls; the classes [Settles] (returns
      a result or an error, no panic, fuel enough) and [Cancels] (a context replaces the
      result by its error, nothing else) are what callers rely on.
    - [AsPath] (bgp/as_path_segments.go, as_path_reconstruction.go,
      routing_path_fields.go), [BgpPrefix] (route_prefixes.go, multiprotocol_routes.go),
      [BgpUpdate] (route_attributes.go, end_of_rib.go, update_frame.go, route_as_path.go),
      [BgpOpen] (routing_source_profile.go, route_add_path.go, route_next_hop.go,
      bmp_route_view.go): AS paths and their reconstruction from AS4_PATH, prefixes and
      multiprotocol attributes, UPDATE frames, and the capabilities two OPENs negotiate.
    - [BgpPeer] (bgp/peer_up.go, peer_down.go, route_lifecycle.go), [BgpChanges]
      (bgp/route_extended.go, route_source_message.go, route_source_changes.go,
      bmp_routing_family.go): the BMP messages that start, report on and end the
      monitoring of a peer, and its route messages as groups of changes.
    - [BgpBook], [BgpStreams] (bgp/bmp_routing_book.go, bmp_routing_cohorts.go,
      bmp_routing_stream.go): the worker that turns queued evidence into ordered streams
      of messages per peer and address family, and its theorems.  The services it calls,
      the clock and map order are parameters; what it sends is a log of effects.
    - [BgpMonitor] (bgp/bmp.go): the listener's own reader of Route Monitoring messages.
    - [BgpFeed] (bgp/bmp.go, bmp_routing_stream.go, bmp_routing_staging.go,
      bmp_entity_evidence.go): what one frame of a session does - origin baselines, repeat
      suppression, peer inventory, routing evidence and its loss - and the interleaving
      of sessions, liveness sweep and worker.
    - [BgpAdmission] (bgp/bmp.go): the admission pools connections pass through.
    - [GoNet]: net and net/netip - addresses with zones, prefixes, host:port - as far as
      the following files use them.
    - [ClientIP] (auth/clientip.go): the address the login limiter keys on.
    - [Incident] (incident/incident.go, correlate.go), [Correlator]
      (incident/correlator.go): signals, their fingerprints and the relatedness rule;
      ingest as a program over the operations of a store, the class [IncidentStore] of what
      the correlator relies on, and concurrent ingests as interleavings of store calls under
      the tenants' locks with operators who resolve, reopen and ungroup incidents without
      them (control/incidents.go, store/incidents.go).  A store lists all open incidents or
      the latest page of them, as the SQL store does with its limit of 200; the in-memory
      store is the instance without a page, and [pg_OpenIncidents] states the page of the
      SQL one.  The hash, UUID parsing and map order are parameters.
    - [Outage] (outage/outage.go, engine.go): shared outage events, per-tenant windows of
      test outcomes, the episodes and alerts derived from them, and the tenant's view.  Map
      order and scope resolution are parameters.
    - [Bfs]: the breadth-first searches of the topology package over a graph's successor
      function, and what they compute.
    - [TopoIdentity] (topology/identity.go), [Topology] (topology/model.go, graph.go,
      subject.go), [TopoBuilder] (topology/builder.go, physical_snapshot.go, indexed.go),
      [TopoStore] (topology/store.go), [WhatIf] (topology/whatif.go): identity claims, the
      observed graph with its caps and snapshots, the builder that feeds it and the indexes
      beside it, the tenants' stores and the simulation of failures.  The class [Engine]
      states what a store's engine does to a graph; the scanning and the indexed engine
      are its instances.  Map order, case folding, the formatting of times, the clock and
      the source of service objectives are parameters.
    - [WriterFence] (tenancy/writefence.go, fenceadapter.go, tenancy.go;
      topology/write_fence.go; tenantlife/tenantlife.go, fenceTenantAuditWrites; the trigger
      of migrations/0083): the leases that writers of external stores hold and erasure
      waits for, as programs of database calls whose interleavings make a history.  The
      class [Postgres] states the documented behaviour of the database that the fence
      relies on.
    - [TsdbBatch] (store/tsdb/batching.go, write_fence.go, tsdb.go): the writer that coalesces
      concurrent time-series writes, as goroutines that interleave under its two mutexes,
      over the fenced writer.

    ** What the theorems show

    - Untrusted input: the reader refines "split a prefix or fail for good" and frames
      nest; every decoder returns on every input, with bounded output, every field in
      its Go type, a bounded cache, and no effect on other exporters; and encodings
      decode to exactly what they encode ([decoder_run_safe], [nf9_decode_safe],
      [ipfix_roundtrip], [sflow_roundtrip], [decode5_roundtrip], ...).
    - Nothing is lost: while the disk answers, frames are at most 8 MiB and acknowledgements
      are in range, the buffer refines a bounded FIFO queue and a drain cycle removes
      only what was acknowledged or quarantined; and reopening recovers every complete
      frame ([buffer_refines], [drainOnce_at_least_once], [open_recovers_torn_tail]).
    - Isolation and authorization: a request is allowed exactly if the resource is of the
      principal's tenant, the permission is held as the check's mode asks and no deny policy
      matches that no other outranks, and a refusal names the layer that refused; no tenant's traffic touches another
      tenant's fairness state; stale policies are never installed; a metric query or an
      alert rule reads its own tenant's series only, whatever its text ([Decide_layers],
      [gate_isolation], [tenant_pinned], [query_isolated], [rule_query_pinned]).
    - Alerts: a series fires after exactly the required breaches in a row, one episode is
      notified once per renotify interval of its rule whatever happens around it, an engine
      that takes over from rows that are up to date decides as the old one would have, and maintenance windows suppress exactly when their preview says
      ([debounce_exact], [notifications_paced], [notify_iff], [failover_transparent],
      [preview_exact], [suppression_exact]).
    - Metrics and accounting: selectors other than the empty one survive printing and parsing, queries equal their
      grouping, failed quality reports lose nothing ([selector_roundtrip],
      [collect_exact], [quality_restore_exact]).
    - Protection: the breaker's and the limiter's behaviour in every interleaving and
      sequence ([breaker_invariants], [limiter_refines], [limiter_lockout]).
    - Routes: a decoder accepts exactly the encodings of what it returns and settles on
      every input, whatever the context does; reconstruction brings back the hops old
      speakers could not carry; negotiated capabilities decide the encoding of routes
      ([as_path_exact], [update_frame_exact], [prefixes_canonical], [as4_roundtrip],
      [reconstruct_sound], [open_capabilities_exact], [add_path_negotiated]); route
      changes are only accepted whole, from the peer they are bound to, and are
      dispatched to exactly the families they change ([changes_source_bound],
      [changes_total], [dispatch_agrees], [peer_up_exact], [lifecycle_exact]).
    - Route streams: each generation is numbered without gaps and ends with its first
      reset or refusal, sessions do not touch each other, the end of a session retires
      everything of it, and the state is bounded by its byte limit ([streams_ordered],
      [session_isolated], [session_end_retires], [routing_state_bounded]); evidence that
      was dropped is never papered over ([loss_is_final]).
    - The BMP listener: its reader agrees with the strict decoder where both apply and
      is bounded ([monitor_agrees], [monitor_bounded]), origin changes and suppression
      are truthful ([origin_changes_truthful], [suppression_truthful]), and its pools
      count connections exactly and drain ([admission_exact], [admission_drains]).
    - Incidents: concurrent ingests are atomic per tenant but for what operators do in
      between, events are placed exactly as the rule says among the incidents the store
      lists, re-delivery of a signal that was attached changes nothing while the page
      reaches its incident, timelines stay consistent
      ([ingest_serializable], [related_exact], [redelivery_idempotent],
      [timelines_consistent], [memory_ingest_total]).
    - Outages: a tenant's view depends on its own observations and the shared feeds only,
      episodes open and close exactly at their thresholds, memory is bounded
      ([outage_isolated], [vantage_exact], [outage_bounded]).
    - Topology: the indexed engine answers as the scanning one - neighbour and route
      questions if no name that starts an edge has the separator in it, the rest always -, a traversal
      gives a shortest route or there is none, graphs stay within their caps, and what a
      simulated failure reports is true of the graph, all of it when not partial
      ([indexed_transparent], [traverse_shortest], [topology_bounded], [whatif_exact]).
    - Erasure: once the mark of a tenant's erasure is committed no write of that tenant is
      under way or starts any more, in every interleaving ([erasure_barrier]); callers that
      share a batch are told the truth about their own series, and a caller is refused for
      its own tenant, a database or backend failure or a malformed tenant id in the batch,
      never for another tenant's erasure; no caller is stranded and nothing reaches a closed backend
      ([batching_exact], [cobatched_isolated], [batching_progress]).
    - Client addresses: the headers of a peer that is no trusted proxy are ignored, and behind
      trusted proxies what a client prepends does not decide the address it is limited by ([client_unspoofable], [trusted_exact]).
    - Upgrades and paths: the skew check and rollout as arithmetic on versions and
      buckets, forced checksums that still verify, merges that are exact
      ([Check_policy], [rollout_monotone], [paris_probe_valid], [mergeTraces_exact]).

    A few theorems state undesirable behaviour the code does have, such as
    [panicked_probe_wedges], [hostile_ack_panics], [stale_row_mutes_new_episode],
    [two_octet_path_misread], [fingerprint_collision], [mapped_prefix_never_trusts],
    [agent_budget_simulates_none], [partial_overstates], [plain_engine_leaks],
    [erasure_leaves_claims], [broken_lease_leaks], [dropped_mutation_lands],
    [malformed_id_fails_batch], [barred_names_diverge] and [origin_flap_held_back].

    ** Granularity

    Interleavings are of critical sections and calls, and some steps hold a little more than one
    of the code's atomic operations.  [BgpAdmission] takes a slot and updates the counter next to
    it in one step.  A turn of the evidence worker in [BgpStreams] and [BgpFeed] is one step that
    reads the loss flags as it starts, so a message decided on before a loss counts as submitted before
    it.  The goroutine [Alert] starts for onResolve is an entry of the log where it starts,
    without what it does.  The breaker's count of short circuits is added inside the critical
    section that precedes it.  [Outage] reads the store of external events once per
    evaluation.

    ** Bounds and fuel

    Loops that are not structural take fuel: the set, template and record loops of the
    v9 and IPFIX decoders get one more unit than the input has bytes and their results
    are proved to be [Some] (every round consumes at least one byte, or the record cap
    ends it); the frame reader gets the length of the file; checksum folding four rounds
    (two suffice); decimal printing 20 digits; the matcher parser one more unit than the
    text has bytes, proved never to run out; the two occurrence loops of a maintenance
    window [turns], the number of periods between their ends, proved enough; the loops of
    the BGP decoders the length of their input, proved enough by [Settles]; the topology
    searches one more unit than there are edges, or nodes with an incoming edge, proved
    enough to empty their queues.  Datagrams are assumed shorter than 2^62 bytes so that offsets do not overflow int; the gate's theorems are for runs of fewer
    than 2^62 events so that int64 counts of live closures are exact.

    ** Not modelled

    Sockets, HTTP, SQL stores, the bus and process wiring; cryptography and identity providers;
    protobuf and JSON (parameters where a component needs them); metrics and logs; the
    web UI, the analyzer and build files.  Float products that Go may fuse with an
    addition on some processors are rounded separately here.  In the modelled packages
    read-only surfaces without decisions are left out (the gate's SnapshotAll, the
    buffer's NearFull, the topology stores' exports).

    ** Next

    The pacing of BMP peer claims, validation and emission of quality receipts, alert
    delivery, the outage feeds. *)

From stdpp Require Export base tactics list gmap strings.
From Stdlib Require Export ZArith Lia.
From Stdlib Require Export Strings.Byte.

(** ** Hint databases of the development *)

Create HintDb go discriminated.
Create HintDb wire discriminated.

#[local] Open Scope Z_scope.

(** ** Record update

    [r <| f := v |>] is [r] with field [f] set to [v].  A record type opts in with
    an [Eta] instance (its eta-expansion); the update function of a field is then
    found by replacing that projection in the expansion. *)
Class Eta (R : Type) := eta : R → R.

Class Update {R T : Type} (f : R → T) := update : T → R → R.

Ltac build_update f :=
  match type of f with
  | ?R → ?T =>
      unfold Update;
      let v := fresh "v" in
      let r := fresh "r" in
      intros v r;
      let i := constr:(_ : Eta R) in
      let t := eval red in i in
      let t := eval cbv beta in (t r) in
      match t with
      | context C [f r] => let t' := context C [v] in exact t'
      end
  end.

#[export] Hint Extern 0 (Update ?f) => build_update f : typeclass_instances.

Notation "r <| f := v |>" := (update (f := f) v r)
  (at level 1, left associativity, f constr at level 0, v at level 200,
   format "r <| f  :=  v |>").

(** ** State passing

    Code that threads a mutable object through calls is written in the state monad
    [ST S]: an operation takes the object and gives its result and the object as it
    is afterwards.  The notations are stdpp's ([x ← m; k] and [m ;; k]). *)
Definition ST (S A : Type) : Type := S → A * S.

#[export] Instance st_ret {S} : MRet (ST S) := λ A a s, (a, s).
#[export] Instance st_bind {S} : MBind (ST S) :=
  λ A B k m s, let p := m s in k p.1 p.2.

Lemma run_bind {S A B} (m : ST S A) (k : A → ST S B) s :
  (m ≫= k) s = k (m s).1 (m s).2.
Proof. done. Qed.

Lemma run_ret {S A} (a : A) (s : S) : (mret a : ST S A) s = (a, s).
Proof. done. Qed.

Create Rewrite HintDb st.
#[export] Hint Rewrite @run_bind @run_ret : st.

(** ** Machine integers

    A w-bit Go integer is a [Z]; conversions and overflowing operations wrap
    explicitly.  [int] is 64 bits wide. *)
Definition u8 (z : Z) : Z := z mod 2 ^ 8.
Definition u16 (z : Z) : Z := z mod 2 ^ 16.
Definition u32 (z : Z) : Z := z mod 2 ^ 32.
Definition u64 (z : Z) : Z := z mod 2 ^ 64.
Definition i64 (z : Z) : Z := (z + 2 ^ 63) mod 2 ^ 64 - 2 ^ 63.

Lemma u8_range z : 0 ≤ u8 z < 2 ^ 8.
Proof. apply Z.mod_pos_bound; lia. Qed.
Lemma u16_range z : 0 ≤ u16 z < 2 ^ 16.
Proof. apply Z.mod_pos_bound; lia. Qed.
Lemma u32_range z : 0 ≤ u32 z < 2 ^ 32.
Proof. apply Z.mod_pos_bound; lia. Qed.
Lemma u64_range z : 0 ≤ u64 z < 2 ^ 64.
Proof. apply Z.mod_pos_bound; lia. Qed.
Lemma i64_range z : - 2 ^ 63 ≤ i64 z < 2 ^ 63.
Proof. unfold i64. pose proof (Z.mod_pos_bound (z + 2 ^ 63) (2 ^ 64)). lia. Qed.

Lemma u16_small z : 0 ≤ z < 2 ^ 16 → u16 z = z.
Proof. apply Z.mod_small. Qed.
Lemma u32_small z : 0 ≤ z < 2 ^ 32 → u32 z = z.
Proof. apply Z.mod_small. Qed.
Lemma u64_small z : 0 ≤ z < 2 ^ 64 → u64 z = z.
Proof. apply Z.mod_small. Qed.
Lemma i64_small z : - 2 ^ 63 ≤ z < 2 ^ 63 → i64 z = z.
Proof. intros. unfold i64. rewrite Z.mod_small; lia. Qed.

#[export] Hint Resolve u8_range u16_range u32_range u64_range i64_range : go.

(** ** Bytes and big-endian integers *)

Definition byteZ (b : byte) : Z := Z.of_N (Byte.to_N b).

Definition Zbyte (z : Z) : byte := default x00 (Byte.of_N (Z.to_N (u8 z))).

(** Literal buffers in examples and witnesses. *)
Definition bytes (l : list Z) : list byte := Zbyte <$> l.

#[export] Instance byte_eq_dec : EqDecision byte := Byte.byte_eq_dec.

Lemma byteZ_range b : 0 ≤ byteZ b < 256.
Proof. unfold byteZ. pose proof (Byte.to_N_bounded b). lia. Qed.

Lemma byteZ_Zbyte z : byteZ (Zbyte z) = u8 z.
Proof.
  unfold byteZ, Zbyte. pose proof (u8_range z) as H.
  destruct (Byte.of_N (Z.to_N (u8 z))) as [b|] eqn:E; simpl.
  - apply Byte.to_of_N in E. rewrite E. lia.
  - apply Byte.of_N_None_iff in E. lia.
Qed.

Lemma Zbyte_byteZ b : Zbyte (byteZ b) = b.
Proof.
  unfold Zbyte, byteZ. pose proof (Byte.to_N_bounded b) as H.
  unfold u8. rewrite Z.mod_small by lia. rewrite N2Z.id, Byte.of_to_N. done.
Qed.

#[export] Instance byteZ_inj : Inj (=) (=) byteZ.
Proof. intros a b E. rewrite <- (Zbyte_byteZ a), E. apply Zbyte_byteZ. Qed.

#[export] Hint Resolve byteZ_range : go.

(** The value of a big-endian byte string (encoding/binary's BigEndian.UintN on
    exactly N/8 bytes). *)
Fixpoint be_acc (acc : Z) (l : list byte) : Z :=
  match l with
  | [] => acc
  | x :: l => be_acc (acc * 256 + byteZ x) l
  end.
Definition be_uint (l : list byte) : Z := be_acc 0 l.

(** The [n]-byte big-endian encoding (BigEndian.PutUintN). *)
Fixpoint be_bytes (n : nat) (z : Z) : list byte :=
  match n with
  | O => []
  | S n' => be_bytes n' (z / 256) ++ [Zbyte z]
  end.

Lemma be_acc_app acc l1 l2 : be_acc acc (l1 ++ l2) = be_acc (be_acc acc l1) l2.
Proof. revert acc. induction l1; simpl; auto. Qed.

Lemma be_acc_bound acc l :
  0 ≤ acc → acc * 256 ^ Z.of_nat (length l) ≤ be_acc acc l < (acc + 1) * 256 ^ Z.of_nat (length l).
Proof.
  revert acc. induction l as [|x l IH]; intros acc Hacc; [simpl; lia|].
  cbn [be_acc length]. pose proof (byteZ_range x) as Hx.
  destruct (IH (acc * 256 + byteZ x)) as [H1 H2]; [lia|].
  rewrite Nat2Z.inj_succ, Z.pow_succ_r by lia.
  set (p := 256 ^ Z.of_nat (length l)) in *. assert (0 < p) by (apply Z.pow_pos_nonneg; lia). nia.
Qed.

Lemma be_uint_range l : 0 ≤ be_uint l < 256 ^ Z.of_nat (length l).
Proof. pose proof (be_acc_bound 0 l). unfold be_uint. lia. Qed.

Lemma length_be_bytes n z : length (be_bytes n z) = n.
Proof.
  revert z. induction n as [|n IH]; intros z; simpl; [done|].
  rewrite length_app, IH. simpl. lia.
Qed.

Lemma be_uint_be_bytes n z : be_uint (be_bytes n z) = z mod 256 ^ Z.of_nat n.
Proof.
  revert z. induction n as [|n IH]; intros z.
  - simpl. unfold be_uint. simpl. rewrite Z.mod_1_r. done.
  - simpl be_bytes. unfold be_uint in *. rewrite be_acc_app, IH. simpl.
    rewrite byteZ_Zbyte. unfold u8. rewrite Nat2Z.inj_succ, Z.pow_succ_r by lia.
    assert (0 < 256 ^ Z.of_nat n) by (apply Z.pow_pos_nonneg; lia).
    rewrite Z.rem_mul_r by lia. change (2 ^ 8) with 256. lia.
Qed.

Lemma be_uint_be_bytes_small n z : 0 ≤ z < 256 ^ Z.of_nat n → be_uint (be_bytes n z) = z.
Proof. intros. rewrite be_uint_be_bytes. by apply Z.mod_small. Qed.

Lemma be_bytes_be_acc l acc :
  0 ≤ acc → be_bytes (length l) (be_acc acc l) = l.
Proof.
  revert acc. induction l as [|x l IH] using rev_ind; intros acc Hacc; [done|].
  rewrite length_app, be_acc_app. simpl length. replace (length l + 1)%nat with (S (length l)) by lia.
  simpl. pose proof (be_acc_bound acc l Hacc) as Hb. pose proof (byteZ_range x) as Hx.
  assert (0 ≤ be_acc acc l).
  { assert (0 < 256 ^ Z.of_nat (length l)) by (apply Z.pow_pos_nonneg; lia). nia. }
  replace ((be_acc acc l * 256 + byteZ x) / 256) with (be_acc acc l)
    by (rewrite Z.div_add_l by lia; rewrite Z.div_small; lia).
  rewrite IH by done. do 2 f_equal. apply (inj byteZ). rewrite byteZ_Zbyte. unfold u8.
  change (2 ^ 8) with 256. rewrite Z.add_comm, Z.mod_add by lia. by apply Z.mod_small.
Qed.

Lemma be_bytes_be_uint l : be_bytes (length l) (be_uint l) = l.
Proof. by apply be_bytes_be_acc. Qed.

(** Every long enough buffer starts with the encoding of some [n]-byte integer. *)
Lemma split_be n (l : list byte) :
  (n ≤ length l)%nat → ∃ z rest, 0 ≤ z < 256 ^ Z.of_nat n ∧ l = be_bytes n z ++ rest.
Proof.
  intros Hn. exists (be_uint (firstn n l)), (skipn n l).
  assert (Hl : length (firstn n l) = n) by (rewrite length_firstn; lia).
  split; [rewrite <- Hl at 3; apply be_uint_range|].
  rewrite <- Hl at 1. rewrite be_bytes_be_uint. by rewrite firstn_skipn.
Qed.

(** Shifting left by [n] and or-ing in an [n]-bit value is addition. *)
Lemma lor_shiftl_add a b n :
  0 ≤ n → 0 ≤ b < 2 ^ n → Z.lor (Z.shiftl a n) b = a * 2 ^ n + b.
Proof.
  intros Hn Hb. rewrite <- Z.shiftl_mul_pow2 by done.
  destruct (Z.eq_dec b 0) as [->|]; [by rewrite Z.lor_0_r, Z.add_0_r|].
  rewrite <- Z.add_lor_land.
  replace (Z.land (Z.shiftl a n) b) with 0; [lia|].
  symmetry. apply Z.bits_inj'. intros k Hk. rewrite Z.land_spec, Z.bits_0.
  destruct (Z.lt_ge_cases k n).
  - by rewrite Z.shiftl_spec_low.
  - rewrite (Z.bits_above_log2 b); [apply andb_false_r | lia |].
    apply Z.log2_lt_pow2; [lia|].
    assert (2 ^ n ≤ 2 ^ k) by (apply Z.pow_le_mono_r; lia). lia.
Qed.

(** ** Slices

    [len b] is Go's len; [slice b i j] is [b[i:j]] for 0 <= i <= j <= len(b). *)
Definition len {A} (b : list A) : Z := Z.of_nat (length b).
Definition slice {A} (b : list A) (i j : Z) : list A :=
  take (Z.to_nat (j - i)) (drop (Z.to_nat i) b).
(** [b[i]] for an index the code has checked against len(b). *)
Definition at_ (b : list byte) (i : Z) : Z := byteZ (nth (Z.to_nat i) b x00).

Lemma len_nonneg {A} (b : list A) : 0 ≤ len b.
Proof. unfold len. lia. Qed.
Lemma len_app {A} (a b : list A) : len (a ++ b) = len a + len b.
Proof. unfold len. rewrite length_app. lia. Qed.
Lemma len_cons {A} (x : A) b : len (x :: b) = 1 + len b.
Proof. unfold len. simpl length. lia. Qed.
Lemma len_slice {A} (b : list A) i j :
  0 ≤ i → i ≤ j → j ≤ len b → len (slice b i j) = j - i.
Proof.
  intros. unfold slice, len in *. rewrite length_take, length_drop. lia.
Qed.
Lemma slice_full {A} (b : list A) : slice b 0 (len b) = b.
Proof. unfold slice, len. rewrite drop_0, firstn_all2; [done | lia]. Qed.
Lemma slice_app_l {A} (a b : list A) : slice (a ++ b) 0 (len a) = a.
Proof.
  unfold slice, len. rewrite drop_0. replace (Z.to_nat _) with (length a) by lia.
  apply take_app_length.
Qed.
Lemma len_be_bytes n z : len (be_bytes n z) = Z.of_nat n.
Proof. unfold len. by rewrite length_be_bytes. Qed.
Lemma slice_app_r {A} (a b : list A) : slice (a ++ b) (len a) (len (a ++ b)) = b.
Proof.
  rewrite len_app. unfold slice, len. rewrite Nat2Z.id, drop_app_length.
  apply take_ge. lia.
Qed.
Lemma at_range b i : 0 ≤ at_ b i < 256.
Proof. apply byteZ_range. Qed.

#[export] Hint Resolve len_nonneg at_range : go.

(** Case analysis on the boolean tests and matches of a translated function. *)
Ltac go_cases :=
  repeat match goal with
  | |- context [if ?b then _ else _] => destruct b eqn:?
  | |- context [match ?x with Some _ => _ | None => _ end] => destruct x eqn:?
  end.

(** Turn boolean comparisons in the context into arithmetic. *)
Ltac zbool :=
  repeat match goal with
  | H : (_ && _) = true |- _ => apply andb_true_iff in H as [? ?]
  | H : (_ && _) = false |- _ => apply andb_false_iff in H
  | H : (_ || _) = true |- _ => apply orb_true_iff in H
  | H : (_ || _) = false |- _ => apply orb_false_iff in H as [? ?]
  | H : negb _ = true |- _ => apply negb_true_iff in H
  | H : negb _ = false |- _ => apply negb_false_iff in H
  | H : (_ <? _) = true |- _ => apply Z.ltb_lt in H
  | H : (_ <? _) = false |- _ => apply Z.ltb_ge in H
  | H : (_ <=? _) = true |- _ => apply Z.leb_le in H
  | H : (_ <=? _) = false |- _ => apply Z.leb_gt in H
  | H : (_ =? _) = true |- _ => apply Z.eqb_eq in H
  | H : (_ =? _) = false |- _ => apply Z.eqb_neq in H
  end.
