(* ===== verification/GoTime.v ===== *)
(** * Go's wall-clock [time.Time], as far as the decoders use it

    A wall time is the pair (seconds since 1 January of year 1 UTC as an int64,
    nanoseconds in [0, 10^9)).  [Unix], [UnixMilli], [Add], [IsZero] and [UnixNano]
    follow package time: int64 seconds wrap in [Unix], [Add] saturates.

    Components that only compare readings of the process clock (circuit breaker,
    template cache TTL, rate limiter) use plain [Z] nanosecond instants instead. *)

From S2P Require Import Prelude.
#[local] Open Scope Z_scope.

Record Time := mkTime { t_sec : Z; t_nsec : Z }.

#[export] Instance Time_eq_dec : EqDecision Time.
Proof. solve_decision. Defined.

Definition zero_time : Time := mkTime 0 0.
Definition IsZero (t : Time) : bool := (t_sec t =? 0) && (t_nsec t =? 0).

(** Durations, in nanoseconds. *)
Definition Millisecond : Z := 1000000.
Definition Second : Z := 1000000000.
Definition Minute : Z := 60 * Second.
Definition Hour : Z := 60 * Minute.

(** Time.Sub on nanosecond instants: the difference saturates at the range of a
    Duration. *)
Definition satSub (a b : Z) : Z := Z.max (- 2 ^ 63) (Z.min (2 ^ 63 - 1) (a - b)).

Definition unixToInternal : Z := 62135596800.

Definition Unix (sec nsec : Z) : Time :=
  if (nsec <? 0) || (1000000000 <=? nsec) then
    let n := Z.quot nsec 1000000000 in
    let sec := i64 (sec + n) in
    let nsec := nsec - n * 1000000000 in
    if nsec <? 0
    then mkTime (i64 (i64 (sec - 1) + unixToInternal)) (nsec + 1000000000)
    else mkTime (i64 (sec + unixToInternal)) nsec
  else mkTime (i64 (sec + unixToInternal)) nsec.

Definition UnixMilli (msec : Z) : Time :=
  Unix (Z.quot msec 1000) (Z.rem msec 1000 * 1000000).

(** [addSec]: saturating addition on the int64 seconds. *)
Definition addSec (s d : Z) : Z :=
  let sum := i64 (s + d) in
  if Bool.eqb (s <? sum) (0 <? d) then sum
  else if 0 <? d then 2 ^ 63 - 1 else - (2 ^ 63 - 1).

Definition Add (t : Time) (d : Z) : Time :=
  let dsec := Z.quot d 1000000000 in
  let nsec := t_nsec t + Z.rem d 1000000000 in
  if 1000000000 <=? nsec then mkTime (addSec (t_sec t) (dsec + 1)) (nsec - 1000000000)
  else if nsec <? 0 then mkTime (addSec (t_sec t) (dsec - 1)) (nsec + 1000000000)
  else mkTime (addSec (t_sec t) dsec) nsec.

Definition UnixNano (t : Time) : Z :=
  i64 (i64 ((t_sec t - unixToInternal)) * 1000000000 + t_nsec t).

Definition time_wf (t : Time) : Prop :=
  - 2 ^ 63 ≤ t_sec t < 2 ^ 63 ∧ 0 ≤ t_nsec t < 1000000000.

Lemma Unix_wf s n : time_wf (Unix s n).
Proof.
  unfold Unix, time_wf.
  repeat match goal with |- context [i64 ?z] =>
    let H := fresh in pose proof (i64_range z) as H; generalize dependent (i64 z) end.
  intros. go_cases; simpl; zbool; split; try done; Z.to_euclidean_division_equations; lia.
Qed.

Lemma Add_wf t d : time_wf t → time_wf (Add t d).
Proof.
  intros [Hs Hn]. unfold Add, time_wf, addSec.
  repeat match goal with |- context [i64 ?z] =>
    let H := fresh in pose proof (i64_range z) as H; generalize dependent (i64 z) end.
  intros. go_cases; simpl; zbool; split; try lia; Z.to_euclidean_division_equations; lia.
Qed.

(** Adding a duration moves the instant by exactly that many nanoseconds when the
    seconds stay inside int64. *)
Definition nanos (t : Time) : Z := t_sec t * 1000000000 + t_nsec t.

Lemma Add_nanos t d :
  time_wf t → - 2 ^ 62 ≤ t_sec t < 2 ^ 62 → - 2 ^ 63 ≤ d < 2 ^ 63 →
  nanos (Add t d) = nanos t + d.
Proof.
  intros [Hs Hn] Hr Hd. unfold Add, nanos.
  assert (Hadd : ∀ k, - 2 ^ 40 ≤ k < 2 ^ 40 → addSec (t_sec t) k = t_sec t + k).
  { intros k Hk. unfold addSec. rewrite i64_small by lia.
    destruct (t_sec t <? t_sec t + k) eqn:?, (0 <? k) eqn:?; simpl; zbool; lia. }
  assert (- 2 ^ 39 ≤ Z.quot d 1000000000 < 2 ^ 39)
    by (Z.to_euclidean_division_equations; lia).
  pose proof (Z.quot_rem' d 1000000000).
  go_cases; cbn [t_sec t_nsec]; rewrite Hadd by lia; zbool; lia.
Qed.
