(* ===== verification/GoFloat.v ===== *)
(** * float64

    Go's float64 as the Standard Library's executable specification of IEEE 754
    binary64 (53-bit significand, exponents below 1024, round to nearest even), with
    the conversions and comparisons the modelled code uses.  A product that is added
    to is rounded first: no fused multiply-add. *)
From Stdlib Require Import Floats.SpecFloat.
From S2P Require Import Prelude GoTime.

#[local] Open Scope Z_scope.

Definition float64 : Type := spec_float.

#[export] Instance float64_eq_dec : EqDecision float64.
Proof. unfold float64. solve_decision. Defined.

Definition fadd : float64 → float64 → float64 := SFadd 53 1024.
Definition fsub : float64 → float64 → float64 := SFsub 53 1024.
Definition fmul : float64 → float64 → float64 := SFmul 53 1024.
Definition fdiv : float64 → float64 → float64 := SFdiv 53 1024.

(** [==], [<] and [<=]; all false on NaN. *)
Definition feqb : float64 → float64 → bool := SFeqb.
Definition fltb : float64 → float64 → bool := SFltb.
Definition fleb : float64 → float64 → bool := SFleb.

(** float64(n) of an integer, correctly rounded. *)
Definition f64 (n : Z) : float64 := binary_normalize 53 1024 n 0 false.

(** time.Duration's Seconds: whole seconds and the remaining nanoseconds apart. *)
Definition Seconds (d : Z) : float64 :=
  fadd (f64 (Z.quot d Second)) (fdiv (f64 (Z.rem d Second)) (f64 1000000000)).

Example seconds_half : Seconds 1500000000 = fdiv (f64 3) (f64 2).
Proof. reflexivity. Qed.

Example tenth_rounds : feqb (fadd (fdiv (f64 1) (f64 10)) (fdiv (f64 2) (f64 10)))
  (fdiv (f64 3) (f64 10)) = false.
Proof. reflexivity. Qed.

(** math.Round: to the nearest integer, halves away from zero, the sign of zero kept.
    Below the binary point a finite value has at most 53 integer bits, so the result is
    exact. *)
Definition fround (x : float64) : float64 :=
  match x with
  | S754_finite s m e =>
      if 0 <=? e then x else
      let q := Z.shiftr (Zpos m) (- e) in
      let q := if Z.testbit (Zpos m) (- e - 1) then q + 1 else q in
      if q =? 0 then S754_zero s else binary_normalize 53 1024 (cond_Zopp s q) 0 s
  | _ => x
  end.

Example fround_half : fround (fdiv (f64 5) (f64 2)) = f64 3.
Proof. reflexivity. Qed.
Example fround_neg_half : fround (fdiv (f64 (-5)) (f64 2)) = f64 (-3).
Proof. reflexivity. Qed.
Example fround_small : fround (fdiv (f64 1) (f64 3)) = f64 0.
Proof. reflexivity. Qed.
