(* ===== verification/GoHash.v ===== *)
(** * FNV-1a

    The 32-bit FNV-1a hash (hash/fnv's New32a), which the fairness gate writes out to
    pick a tenant's shard and the fleet rollout uses to pick an agent's bucket. *)
From S2P Require Import Prelude.

#[local] Open Scope Z_scope.

(** The bytes of a Go string. *)
Definition string_bytes (s : string) : list byte := String.list_byte_of_string s.

Definition fnv1a32 (b : list byte) : Z :=
  foldl (λ h x, u32 (Z.lxor h (byteZ x) * 16777619)) 2166136261 b.

Lemma fnv1a32_range b : 0 ≤ fnv1a32 b < 2 ^ 32.
Proof.
  unfold fnv1a32. destruct b as [|x b] using rev_ind; [simpl; lia|].
  rewrite foldl_app. apply u32_range.
Qed.

#[export] Hint Resolve fnv1a32_range : go.

(** Published test vectors. *)
Example fnv_empty : fnv1a32 (string_bytes "") = 0x811c9dc5.
Proof. reflexivity. Qed.
Example fnv_foobar : fnv1a32 (string_bytes "foobar") = 0xbf9cf968.
Proof. reflexivity. Qed.
