(* ===== verification/GoSort.v ===== *)
(** * Sorting strings

    Go compares strings bytewise; sort.Strings and sort.Slice are a merge sort here, which
    is the same list whenever the order separates the elements. *)
From stdpp Require Export sorting.
From S2P Require Import Prelude.

Definition string_le (a b : string) : Prop := String.leb a b = true.
#[export] Instance string_le_dec : RelDecision string_le := λ a b, decide (String.leb a b = true).

#[export] Instance string_le_total : Total string_le.
Proof. intros a b. unfold string_le. destruct (String.leb_total a b); auto. Qed.
