(* ===== verification/GoString.v ===== *)
(** * Go strings as their bytes

    The functions of packages strings and strconv that the modelled code uses, on
    [list byte]: trimming of Unicode white space, cutting and splitting at a byte,
    decimal printing and parsing, and the byte order of sort.Strings. *)
From stdpp Require Export sorting.
From S2P Require Import Prelude GoHash.

#[local] Open Scope Z_scope.

#[export] Instance byte_countable : Countable byte.
Proof.
  refine (inj_countable Byte.to_N Byte.of_N _). intros b. by destruct b.
Defined.

Definition gostring : Type := list byte.
Definition str (s : string) : gostring := string_bytes s.

(** ** Trimming, cutting and splitting *)

Fixpoint strip_prefix (p l : gostring) : option gostring :=
  match p, l with
  | [], l => Some l
  | x :: p, y :: l => if bool_decide (x = y) then strip_prefix p l else None
  | _, [] => None
  end.

(** The first alternative that is a prefix is removed. *)
Fixpoint strip_any (ps : list gostring) (l : gostring) : option gostring :=
  match ps with
  | [] => None
  | p :: ps => match strip_prefix p l with Some r => Some r | None => strip_any ps l end
  end.

(** The UTF-8 encodings of Unicode white space. *)
Definition spaces : list gostring :=
  map bytes ([[9]; [10]; [11]; [12]; [13]; [32]; [0xC2; 0x85]; [0xC2; 0xA0]; [0xE1; 0x9A; 0x80];
              [0xE2; 0x80; 0xA8]; [0xE2; 0x80; 0xA9]; [0xE2; 0x80; 0xAF]; [0xE2; 0x81; 0x9F];
              [0xE3; 0x80; 0x80]]
             ++ map (λ k, [0xE2; 0x80; 0x80 + Z.of_nat k]) (seq 0 11)).

Fixpoint trim_loop (fuel : nat) (ps : list gostring) (l : gostring) : gostring :=
  match fuel with
  | O => l
  | S fuel => match strip_any ps l with Some r => trim_loop fuel ps r | None => l end
  end.

(** strings.TrimSpace: runes are stripped from the left, then from the right. *)
Definition TrimSpace (l : gostring) : gostring :=
  let l := trim_loop (length l) spaces l in
  rev (trim_loop (length l) (map (@rev byte) spaces) (rev l)).

(** The string before the first [c], and after it when there is one. *)
Fixpoint cut (c : byte) (l : gostring) : gostring * option gostring :=
  match l with
  | [] => ([], None)
  | x :: l =>
      if bool_decide (x = c) then ([], Some l)
      else let '(a, r) := cut c l in (x :: a, r)
  end.

(** strings.SplitN(l, c, n) for n >= 1. *)
Fixpoint SplitN (n : nat) (c : byte) (l : gostring) : list gostring :=
  match n with
  | O => []
  | S O => [l]
  | S n => match cut c l with
           | (a, Some r) => a :: SplitN n c r
           | (a, None) => [a]
           end
  end.

Definition is_digit (b : byte) : bool := (48 <=? byteZ b) && (byteZ b <=? 57).

Definition digits_val (l : gostring) : Z := foldl (λ a b, a * 10 + (byteZ b - 48)) 0 l.

(** strconv.Atoi; [None] is its error. *)
Definition Atoi (l : gostring) : option Z :=
  let '(neg, ds) :=
    match l with
    | x :: r => if bool_decide (x = x2d) then (true, r)
                else if bool_decide (x = x2b) then (false, r) else (false, l)
    | [] => (false, l)
    end in
  if bool_decide (ds = []) || negb (forallb is_digit ds) then None else
  let n := digits_val ds in
  if neg then if n <=? 2 ^ 63 then Some (- n) else None
  else if n <? 2 ^ 63 then Some n else None.

(** The decimal digits of a non-negative int (at most 19 of them). *)
Fixpoint dec_loop (fuel : nat) (z : Z) (acc : gostring) : gostring :=
  match fuel with
  | O => acc
  | S fuel =>
      let acc := Zbyte (48 + z mod 10) :: acc in
      if z <? 10 then acc else dec_loop fuel (z / 10) acc
  end.
Definition dec (z : Z) : gostring := if z <? 0 then x2d :: dec_loop 20 (- z) [] else dec_loop 20 z [].

(** ** Lemmas: decimal printing and parsing *)

Lemma digits_val_acc l a :
  foldl (λ a b, a * 10 + (byteZ b - 48)) a l = a * 10 ^ len l + digits_val l.
Proof.
  unfold digits_val. revert a. induction l as [|b l IH]; intros a; cbn [foldl].
  - unfold len; cbn. lia.
  - rewrite IH. rewrite (IH (0 * 10 + _)). unfold len. cbn [length].
    rewrite Nat2Z.inj_succ, Z.pow_succ_r by lia. ring.
Qed.

Lemma digits_val_cons b l : digits_val (b :: l) = (byteZ b - 48) * 10 ^ len l + digits_val l.
Proof. unfold digits_val at 1. cbn [foldl]. rewrite digits_val_acc. ring. Qed.

Lemma digit_byte d : 0 ≤ d < 10 → byteZ (Zbyte (48 + d)) = 48 + d.
Proof. intros. rewrite byteZ_Zbyte. unfold u8. rewrite Z.mod_small; lia. Qed.

Lemma dec_loop_spec fuel z acc :
  0 ≤ z < 10 ^ Z.of_nat fuel → (0 < fuel)%nat → forallb is_digit acc = true →
  digits_val (dec_loop fuel z acc) = z * 10 ^ len acc + digits_val acc ∧
  forallb is_digit (dec_loop fuel z acc) = true ∧ dec_loop fuel z acc ≠ [].
Proof.
  revert z acc. induction fuel as [|fuel IH]; intros z acc Hz Hf Ha; [lia|]. cbn [dec_loop].
  pose proof (Z.mod_pos_bound z 10). pose proof (Z.div_mod z 10).
  assert (Hd : is_digit (Zbyte (48 + z mod 10)) = true).
  { unfold is_digit. rewrite digit_byte by lia. apply andb_true_intro. split; apply Z.leb_le; lia. }
  assert (Hl : len (Zbyte (48 + z mod 10) :: acc) = 1 + len acc) by (unfold len; cbn [length]; lia).
  assert (0 ≤ len acc) by (unfold len; lia).
  destruct (z <? 10) eqn:E; zbool.
  - rewrite Z.mod_small in * by lia. rewrite digits_val_cons, digit_byte by lia.
    split; [ring|]. split; [|done]. cbn. by rewrite Hd.
  - rewrite Nat2Z.inj_succ, Z.pow_succ_r in Hz by lia.
    assert (0 < fuel)%nat. { destruct fuel; [cbn in Hz; lia|lia]. }
    assert (0 ≤ z / 10 < 10 ^ Z.of_nat fuel).
    { split; [apply Z.div_pos; lia|apply Z.div_lt_upper_bound; lia]. }
    destruct (IH (z / 10) (Zbyte (48 + z mod 10) :: acc)) as (E1 & E2 & E3);
      [done|done|cbn; by rewrite Hd|].
    split; [|done]. rewrite E1, digits_val_cons, digit_byte, Hl by lia.
    rewrite (Z.pow_add_r 10 1) by lia. lia.
Qed.

Lemma dec_spec z :
  0 ≤ z < 2 ^ 63 →
  digits_val (dec z) = z ∧ forallb is_digit (dec z) = true ∧ dec z ≠ [].
Proof.
  intros Hz. unfold dec. rewrite (proj2 (Z.ltb_ge z 0)) by lia.
  destruct (dec_loop_spec 20 z []) as (E1 & E2 & E3); [lia|lia|done|].
  split; [|done]. rewrite E1. unfold len, digits_val; cbn. lia.
Qed.

(** ASCII bytes other than white space and control characters. *)
Definition plain (b : byte) : bool := (0x21 <=? byteZ b) && (byteZ b <? 0x80).

Lemma digit_plain b : is_digit b = true → plain b = true.
Proof.
  unfold is_digit, plain. intros [H1 H2]%andb_prop. zbool. apply andb_true_intro.
  split; [apply Z.leb_le | apply Z.ltb_lt]; lia.
Qed.

Lemma digit_not b c : is_digit b = true → is_digit c = false → b ≠ c.
Proof. congruence. Qed.

Lemma Atoi_digits l :
  l ≠ [] → forallb is_digit l = true → digits_val l < 2 ^ 63 → Atoi l = Some (digits_val l).
Proof.
  intros Hn Hd Hv. destruct l as [|b l]; [done|]. unfold Atoi.
  pose proof Hd as Hb. cbn in Hb. apply andb_prop in Hb as [Hb _].
  rewrite !bool_decide_false by (by apply digit_not). rewrite bool_decide_false by done.
  rewrite Hd. cbn [negb orb]. by rewrite (proj2 (Z.ltb_lt _ _)).
Qed.

Lemma Atoi_dec z : 0 ≤ z < 2 ^ 63 → Atoi (dec z) = Some z.
Proof.
  intros Hz. destruct (dec_spec z Hz) as (E1 & E2 & E3).
  rewrite Atoi_digits, E1; [done|done|done|lia].
Qed.

Lemma digits_val_nonneg l : forallb is_digit l = true → 0 ≤ digits_val l.
Proof.
  induction l as [|b l IH]; [done|]. cbn [forallb]. intros [H1 H2]%andb_prop.
  rewrite digits_val_cons. unfold is_digit in H1. apply andb_prop in H1 as [H1 _]. zbool.
  specialize (IH H2). assert (0 ≤ 10 ^ len l) by (apply Z.pow_nonneg; lia). nia.
Qed.

Lemma Atoi_range l n : x2d ∉ l → Atoi l = Some n → 0 ≤ n < 2 ^ 63.
Proof.
  intros Hm. unfold Atoi.
  assert (∃ ds, (match l with
    | x :: r => if bool_decide (x = x2d) then (true, r)
                else if bool_decide (x = x2b) then (false, r) else (false, l)
    | [] => (false, l)
    end) = (false, ds)) as [ds ->].
  { destruct l as [|x r]; [by eauto|]. rewrite bool_decide_false by set_solver.
    destruct (bool_decide _); eauto. }
  destruct (bool_decide (ds = []) || negb (forallb is_digit ds)) eqn:E; [done|].
  apply orb_false_iff in E as [_ E]. apply negb_false_iff in E.
  pose proof (digits_val_nonneg ds E). destruct (digits_val ds <? 2 ^ 63) eqn:E2; [|done].
  zbool. intros [= <-]. lia.
Qed.

(** ** Lemmas: the string functions *)

Lemma strip_any_head ps x l :
  forallb (λ p, match p with y :: _ => negb (plain y) | [] => false end) ps = true →
  plain x = true → strip_any ps (x :: l) = None.
Proof.
  intros Hp Hx. induction ps as [|p ps IH]; [done|]. cbn [forallb] in Hp.
  apply andb_prop in Hp as [H1 H2]. cbn [strip_any].
  destruct p as [|y p]; [done|]. cbn [strip_prefix].
  rewrite bool_decide_false; [by apply IH|]. intros ->. by rewrite Hx in H1.
Qed.

Lemma trim_plain ps l :
  forallb (λ p, match p with y :: _ => negb (plain y) | [] => false end) ps = true →
  forallb plain l = true → trim_loop (length l) ps l = l.
Proof.
  intros Hp Hl. destruct l as [|x l]; [done|]. cbn [length trim_loop].
  cbn in Hl. apply andb_prop in Hl as [Hx _]. by rewrite strip_any_head.
Qed.

Lemma forallb_rev {A} (f : A → bool) l : forallb f (rev l) = forallb f l.
Proof.
  induction l as [|x l IH]; [done|]. cbn. rewrite forallb_app, IH. cbn.
  rewrite andb_true_r. apply andb_comm.
Qed.

Lemma TrimSpace_plain l : forallb plain l = true → TrimSpace l = l.
Proof.
  intros H. unfold TrimSpace. rewrite trim_plain by done. rewrite <- (length_rev l).
  rewrite trim_plain; [apply rev_involutive|by vm_compute|]. by rewrite forallb_rev.
Qed.

Lemma cut_none c l : c ∉ l → cut c l = (l, None).
Proof.
  induction l as [|x l IH]; [done|]. intros H. cbn. rewrite bool_decide_false by set_solver.
  by rewrite IH by set_solver.
Qed.

Lemma cut_some c a b : c ∉ a → cut c (a ++ c :: b) = (a, Some b).
Proof.
  induction a as [|x a IH]; intros H; cbn.
  - by rewrite bool_decide_true.
  - rewrite bool_decide_false by set_solver. by rewrite IH by set_solver.
Qed.

Lemma cut_subset c l : (c ∉ (cut c l).1) ∧ (∀ x, x ∈ (cut c l).1 → x ∈ l).
Proof.
  induction l as [|y l IH]; cbn; [set_solver|].
  destruct (bool_decide_reflect (y = c)); cbn; [set_solver|].
  destruct (cut c l) as [a r]. cbn in *. set_solver.
Qed.

Lemma cut_rest_subset c l r x : (cut c l).2 = Some r → x ∈ r → x ∈ l.
Proof.
  revert r. induction l as [|y l IH]; intros r; [done|]. cbn.
  destruct (bool_decide_reflect (y = c)); cbn; [intros [= <-]; set_solver|].
  destruct (cut c l) as [a q]. cbn in *. set_solver.
Qed.

Lemma SplitN_subset n c l p x : p ∈ SplitN n c l → x ∈ p → x ∈ l.
Proof.
  revert l. induction n as [|n IH]; intros l; [cbn; set_solver|]. cbn [SplitN].
  destruct n as [|n]; [set_solver|]. pose proof (cut_subset c l) as [_ H1].
  pose proof (cut_rest_subset c l) as H2. destruct (cut c l) as [a [r|]]; cbn in H1, H2.
  - rewrite elem_of_cons. intros [-> | Hp] Hx; [by apply H1|]. by apply (H2 r), (IH r).
  - rewrite list_elem_of_singleton. intros ->. apply H1.
Qed.

Lemma forallb_imp {A} (f h : A → bool) l :
  (∀ x, f x = true → h x = true) → forallb f l = true → forallb h l = true.
Proof. intros H. rewrite !forallb_forall. auto. Qed.

Lemma not_digit_elem c l : is_digit c = false → forallb is_digit l = true → c ∉ l.
Proof.
  rewrite forallb_forall. intros Hc H Hin. apply list_elem_of_In in Hin.
  specialize (H c Hin). congruence.
Qed.

(** ** Prefixes, splitting and the byte order *)

Definition HasPrefix (l p : gostring) : bool :=
  match strip_prefix p l with Some _ => true | None => false end.
Definition TrimPrefix (l p : gostring) : gostring := default l (strip_prefix p l).

(** strings.Split at a one-byte separator. *)
Fixpoint Split (c : byte) (l : gostring) : list gostring :=
  match l with
  | [] => [[]]
  | x :: l =>
      if bool_decide (x = c) then [] :: Split c l
      else match Split c l with a :: r => (x :: a) :: r | [] => [[x]] end
  end.

Fixpoint bytes_leb (a b : gostring) : bool :=
  match a, b with
  | [], _ => true
  | _, [] => false
  | x :: a, y :: b => if byteZ x =? byteZ y then bytes_leb a b else byteZ x <? byteZ y
  end.

Definition bytes_le (a b : gostring) : Prop := bytes_leb a b = true.
#[export] Instance bytes_le_dec : RelDecision bytes_le := λ a b, decide (bytes_leb a b = true).

Lemma byteZ_inj a b : byteZ a = byteZ b → a = b.
Proof. intros H. by rewrite <- (Zbyte_byteZ a), H, Zbyte_byteZ. Qed.

#[export] Instance bytes_le_total : Total bytes_le.
Proof.
  unfold bytes_le. intros a. induction a as [|x a IH]; intros [|y b]; cbn; auto.
  destruct (Z.eqb_spec (byteZ x) (byteZ y)) as [->|]; [rewrite Z.eqb_refl; apply IH|].
  destruct (Z.eqb_spec (byteZ y) (byteZ x)); [lia|]. rewrite !Z.ltb_lt. lia.
Qed.

#[export] Instance bytes_le_trans : Transitive bytes_le.
Proof.
  unfold bytes_le. intros a. induction a as [|x a IH]; intros [|y b] [|z c]; cbn; try done.
  destruct (Z.eqb_spec (byteZ x) (byteZ y)) as [->|].
  - destruct (_ =? _); [apply IH|done].
  - destruct (Z.eqb_spec (byteZ y) (byteZ z)) as [->|].
    + destruct (Z.eqb_spec (byteZ x) (byteZ z)); [lia|done].
    + rewrite !Z.ltb_lt. intros. destruct (Z.eqb_spec (byteZ x) (byteZ z)); [lia|]. apply Z.ltb_lt. lia.
Qed.

#[export] Instance bytes_le_antisymm : AntiSymm (=) bytes_le.
Proof.
  unfold bytes_le. intros a. induction a as [|x a IH]; intros [|y b]; cbn; try done.
  destruct (Z.eqb_spec (byteZ x) (byteZ y)) as [E|].
  - rewrite E, Z.eqb_refl. intros. apply byteZ_inj in E as ->. f_equal. by apply IH.
  - destruct (Z.eqb_spec (byteZ y) (byteZ x)); [lia|]. rewrite !Z.ltb_lt. lia.
Qed.

Lemma strip_prefix_app p l : strip_prefix p (p ++ l) = Some l.
Proof. induction p as [|x p IH]; [done|]. cbn. by rewrite bool_decide_true. Qed.

Lemma TrimPrefix_app p l : TrimPrefix (p ++ l) p = l.
Proof. unfold TrimPrefix. by rewrite strip_prefix_app. Qed.

Lemma Split_app c a l : c ∉ a → Split c (a ++ c :: l) = a :: Split c l.
Proof.
  induction a as [|x a IH]; intros H; cbn.
  - by rewrite bool_decide_true.
  - rewrite bool_decide_false by set_solver. by rewrite IH by set_solver.
Qed.
