(* ===== verification/Wire.v ===== *)
(** * internal/wire: the bounds-checked cursor over untrusted bytes

    [Reader] is the Go struct {b, off, err}; each method is an operation in the
    state monad over the reader.  Byte buffers are non-nil slices.  The abstract
    view of a reader is the unread suffix, or nothing once an error has latched;
    [rtake_refines] shows that [take] - the only primitive that advances - is
    "split off n bytes or fail for good" on that view.  The classes [Safe] and
    [Reads] are the interface the protocol decoders are proved against. *)

From S2P Require Import Prelude.
#[local] Open Scope Z_scope.

(** ** The reader *)

(** What the latched error says.  [SlicePanic] stands for the run-time panic of
    [r.b[r.off:r.off+n]] when [r.off+n] overflows int. *)
Inductive wire_err :=
| NegativeRead (n : Z)
| Overrun (n off blen : Z)
| SubUnavailable (n : Z)
| SlicePanic.

Record Reader := mkReader { r_b : list byte; r_off : Z; r_err : option wire_err }.

#[export] Instance Reader_eta : Eta Reader := λ r, mkReader (r_b r) (r_off r) (r_err r).

Abbreviation RM := (ST Reader).

Definition New (b : list byte) : Reader := mkReader b 0 None.

Definition Err (r : Reader) : option wire_err := r_err r.

Definition Remaining (r : Reader) : Z :=
  match r_err r with Some _ => 0 | None => len (r_b r) - r_off r end.

Definition Offset (r : Reader) : Z := r_off r.

Definition Empty (r : Reader) : bool := Remaining r =? 0.

Definition failf (e : wire_err) (r : Reader) : Reader :=
  match r_err r with None => r <| r_err := Some e |> | Some _ => r end.

(** [take]; [None] is the nil slice. *)
Definition rtake (n : Z) : RM (option (list byte)) := λ r,
  match r_err r with
  | Some _ => (None, r)
  | None =>
      if n <? 0 then (None, failf (NegativeRead n) r)
      else
        let e := i64 (r_off r + n) in
        if len (r_b r) <? e then (None, failf (Overrun n (r_off r) (len (r_b r))) r)
        else if e <? r_off r then (None, failf SlicePanic r)
        else (Some (slice (r_b r) (r_off r) e), r <| r_off := e |>)
  end.

Definition U8 : RM Z :=
  v ← rtake 1;
  mret (match v with None => 0 | Some v => at_ v 0 end).

Definition U16 : RM Z :=
  v ← rtake 2;
  mret (match v with None => 0 | Some v => be_uint v end).

Definition U32 : RM Z :=
  v ← rtake 4;
  mret (match v with None => 0 | Some v => be_uint v end).

(** [Bytes]: the nil slice of a failed read is an empty slice to every caller. *)
Definition ReadBytes (n : Z) : RM (list byte) :=
  v ← rtake n; mret (default [] v).

Definition Array4 : RM (list byte) :=
  v ← rtake 4;
  mret (match v with None => replicate 4 x00 | Some v => v end).

(** Only called with a small positive [align]. *)
Definition BytesAligned (n align : Z) : RM (list byte) := λ r,
  match rtake n r with
  | (None, r) => ([], r)
  | (Some v, r) =>
      if align <=? 1 then (v, r)
      else
        let pad := Z.rem (align - Z.rem n align) align in
        if (0 <? pad) && (r_off r + pad <=? len (r_b r))
        then (v, r <| r_off := r_off r + pad |>)
        else (v, r)
  end.

Definition Skip (n : Z) : RM () := _ ← rtake n; mret tt.

Definition Sub (n : Z) : RM Reader :=
  v ← rtake n;
  mret (match v with
        | None => failf (SubUnavailable n) (mkReader [] 0 None)
        | Some v => New v
        end).

#[global] Arguments rtake : simpl never.
#[global] Arguments U8 : simpl never.
#[global] Arguments U16 : simpl never.
#[global] Arguments U32 : simpl never.
#[global] Arguments ReadBytes : simpl never.
#[global] Arguments Array4 : simpl never.
#[global] Arguments BytesAligned : simpl never.
#[global] Arguments Skip : simpl never.
#[global] Arguments Sub : simpl never.

(** ** Invariant and abstract view *)

Definition wf (r : Reader) : Prop :=
  0 ≤ r_off r ≤ len (r_b r) ∧ len (r_b r) < 2 ^ 62.

(** The unread bytes; nothing once an error has latched. *)
Definition view (r : Reader) : option (list byte) :=
  match r_err r with
  | Some _ => None
  | None => Some (drop (Z.to_nat (r_off r)) (r_b r))
  end.

(** The reference meaning of [take]: split the unread bytes, or fail for good. *)
Definition spec_take (n : Z) (v : option (list byte)) : option (list byte) * option (list byte) :=
  match v with
  | None => (None, None)
  | Some l =>
      if (0 <=? n) && (n <=? len l)
      then (Some (firstn (Z.to_nat n) l), Some (skipn (Z.to_nat n) l))
      else (None, None)
  end.

Lemma New_wf b : len b < 2 ^ 62 → wf (New b).
Proof. intros. unfold wf, New; simpl. pose proof (len_nonneg b). lia. Qed.

Lemma New_view b : view (New b) = Some b.
Proof. done. Qed.

Lemma view_Remaining r : wf r → Remaining r = len (default [] (view r)).
Proof.
  intros [H _]. unfold Remaining, view. destruct (r_err r); simpl; [done|].
  unfold len in *. rewrite length_drop. lia.
Qed.

Lemma view_Err r l : view r = Some l → Err r = None.
Proof. unfold view, Err. by destruct (r_err r). Qed.

Lemma rtake_refines_aux n r :
  wf r → n < 2 ^ 62 →
  ((rtake n r).1, view (rtake n r).2) = spec_take n (view r).
Proof.
  intros [Hoff Hlen] Hn. unfold rtake, spec_take, view.
  destruct (r_err r) eqn:E; simpl; [by rewrite E|].
  assert (Hl : len (drop (Z.to_nat (r_off r)) (r_b r)) = len (r_b r) - r_off r).
  { unfold len in *. rewrite length_drop. lia. }
  rewrite Hl. destruct (n <? 0) eqn:Hneg; zbool.
  { replace (0 <=? n) with false by (symmetry; apply Z.leb_gt; lia).
    simpl. unfold failf. rewrite E. done. }
  replace (0 <=? n) with true by (symmetry; apply Z.leb_le; lia). simpl.
  rewrite i64_small by lia.
  destruct (len (r_b r) <? r_off r + n) eqn:Hov; zbool.
  - replace (n <=? len (r_b r) - r_off r) with false by (symmetry; apply Z.leb_gt; lia).
    simpl. unfold failf. rewrite E. done.
  - replace (n <=? len (r_b r) - r_off r) with true by (symmetry; apply Z.leb_le; lia).
    destruct (r_off r + n <? r_off r) eqn:Hp; zbool; [lia|]. simpl. rewrite E.
    unfold slice. rewrite drop_drop.
    repeat f_equal; lia.
Qed.

(** ** The interface the decoders rely on

    A safe operation keeps the invariant and the buffer, never moves back, and does
    nothing at all on a failed reader - so the first error is the one reported. *)
Class Safe {A} (m : RM A) : Prop := safe r :
  wf r →
  wf (m r).2 ∧ r_b (m r).2 = r_b r ∧ r_off r ≤ r_off (m r).2 ∧
  (r_err r ≠ None → (m r).2 = r).

#[export] Instance ret_safe {A} (a : A) : Safe (mret a).
Proof. intros r Hr. simpl. repeat split; try done; apply Hr. Qed.

#[export] Instance bind_safe {A B} (m : RM A) (k : A → RM B) :
  Safe m → (∀ a, Safe (k a)) → Safe (m ≫= k).
Proof.
  intros Hm Hk r Hr. destruct (Hm r Hr) as (W1 & B1 & O1 & E1).
  destruct (Hk (m r).1 (m r).2 W1) as (W2 & B2 & O2 & E2). rewrite run_bind.
  split_and!; [done | congruence | lia |].
  intros He. rewrite E2; [by apply E1|]. by rewrite E1.
Qed.

#[export] Instance rtake_safe n : Safe (rtake n).
Proof.
  intros r Hr. pose proof Hr as [Ho Hl]. unfold rtake. destruct (r_err r) eqn:E.
  { simpl. repeat split; try done; apply Hr. }
  unfold failf. rewrite E.
  destruct (n <? 0) eqn:?; simpl; [by repeat split; simpl; try lia|].
  destruct (len (r_b r) <? _) eqn:?; simpl; [by repeat split; simpl; try lia|].
  destruct (_ <? r_off r) eqn:?; simpl; [by repeat split; simpl; try lia|].
  zbool. by repeat split; simpl; try lia.
Qed.

#[export] Instance U8_safe : Safe U8.
Proof. apply _. Qed.
#[export] Instance U16_safe : Safe U16.
Proof. apply _. Qed.
#[export] Instance U32_safe : Safe U32.
Proof. apply _. Qed.
#[export] Instance ReadBytes_safe n : Safe (ReadBytes n).
Proof. apply _. Qed.
#[export] Instance Array4_safe : Safe Array4.
Proof. apply _. Qed.
#[export] Instance Skip_safe n : Safe (Skip n).
Proof. apply _. Qed.
#[export] Instance Sub_safe n : Safe (Sub n).
Proof. apply _. Qed.

#[export] Instance BytesAligned_safe n a : Safe (BytesAligned n a).
Proof.
  intros r Hr. destruct (rtake_safe n r Hr) as (W & B & O & E).
  unfold BytesAligned. destruct (rtake n r) as [[v|] r'] eqn:Ev; simpl in *; [|by split_and!].
  destruct (a <=? 1); [by split_and!|].
  destruct (_ && _) eqn:Hp; [|by split_and!]. simpl. zbool.
  destruct W as [[W1 W2] W3].
  split_and!; [by split; simpl; lia | done | lia |].
  - intros He. exfalso. unfold rtake in Ev. destruct (r_err r); done.
Qed.

#[export] Hint Resolve New_wf : wire.

(** ** Exact behaviour in range and out of range *)

Lemma rtake_ok n r l1 l2 :
  wf r → view r = Some (l1 ++ l2) → n = len l1 →
  ∃ r', rtake n r = (Some l1, r') ∧ wf r' ∧ view r' = Some l2 ∧ r_b r' = r_b r ∧
        r_off r' = r_off r + n.
Proof.
  intros Hr Hv ->. pose proof Hr as [Ho Hl].
  assert (Hlen : len (l1 ++ l2) = Remaining r) by (rewrite view_Remaining, Hv; done).
  rewrite len_app in Hlen. pose proof (len_nonneg l1). pose proof (len_nonneg l2).
  unfold Remaining in Hlen. unfold view in Hv. unfold rtake.
  destruct (r_err r) eqn:E; [done|]. injection Hv as Hv.
  rewrite i64_small by lia.
  destruct (_ <? 0) eqn:?; zbool; [lia|]. destruct (len (r_b r) <? _) eqn:?; zbool; [lia|].
  destruct (_ <? r_off r) eqn:?; zbool; [lia|].
  eexists. split_and!.
  - f_equal. f_equal. unfold slice. rewrite Hv.
    replace (Z.to_nat _) with (length l1) by (unfold len; lia). apply take_app_length.
  - split; simpl; lia.
  - unfold view. simpl. rewrite E. f_equal. rewrite Z2Nat.inj_add by lia.
    rewrite <- drop_drop, Hv. unfold len. rewrite Nat2Z.id. apply drop_app_length.
  - done.
  - done.
Qed.

Lemma rtake_in n r :
  wf r → Err r = None → 0 ≤ n ≤ Remaining r →
  ∃ l1 l2 r', rtake n r = (Some l1, r') ∧ wf r' ∧ len l1 = n ∧
    view r = Some (l1 ++ l2) ∧ view r' = Some l2 ∧ Err r' = None ∧
    Remaining r' = Remaining r - n.
Proof.
  intros Hr He Hn. rewrite view_Remaining in Hn by done.
  destruct (view r) as [l|] eqn:Hv; [|unfold view, Err in *; destruct (r_err r); done].
  simpl in Hn. set (l1 := firstn (Z.to_nat n) l). set (l2 := skipn (Z.to_nat n) l).
  assert (Hl1 : len l1 = n).
  { unfold l1, len in *. rewrite length_firstn. lia. }
  destruct (rtake_ok n r l1 l2) as (r' & Hr' & W' & V' & _ & _);
    [done | by rewrite Hv; unfold l1, l2; rewrite firstn_skipn | done |].
  exists l1, l2, r'. split_and!; try done.
  - by unfold l1, l2; rewrite firstn_skipn.
  - by eapply view_Err.
  - rewrite !view_Remaining, V', Hv by done. simpl.
    rewrite <- (firstn_skipn (Z.to_nat n) l). fold l1 l2. rewrite len_app. lia.
Qed.

Lemma rtake_out n r :
  wf r → n < 2 ^ 62 → Err r = None → n < 0 ∨ Remaining r < n →
  ∃ e, rtake n r = (None, r <| r_err := Some e |>) ∧ e ≠ SlicePanic.
Proof.
  intros [Ho Hl] Hb He Hn. unfold rtake, Remaining, Err, failf in *.
  destruct (r_err r) eqn:E; [done|].
  destruct (n <? 0) eqn:?; zbool; [by eexists|].
  rewrite i64_small by lia.
  destruct (len (r_b r) <? _) eqn:?; zbool; [by eexists | lia].
Qed.

Lemma rtake_dead n r : Err r ≠ None → rtake n r = (None, r).
Proof. unfold Err, rtake. by destruct (r_err r). Qed.

(** Integer reads stay inside their width. *)
Lemma rtake_length n r l :
  wf r → (rtake n r).1 = Some l → (length l ≤ Z.to_nat n)%nat.
Proof.
  intros [Ho Hl]. unfold rtake. destruct (r_err r); [done|].
  destruct (n <? 0) eqn:Hn; [done|].
  destruct (_ <? i64 _); [done|]. destruct (_ <? r_off r) eqn:Hp; [done|].
  simpl. intros [= <-]. zbool. unfold slice. rewrite length_take.
  unfold i64 in *. pose proof (Z.mod_le (r_off r + n + 2 ^ 63) (2 ^ 64)). lia.
Qed.

Lemma be_uint_lt l n : (length l ≤ n)%nat → 0 ≤ be_uint l < 256 ^ Z.of_nat n.
Proof.
  intros H. pose proof (be_uint_range l).
  assert (256 ^ Z.of_nat (length l) ≤ 256 ^ Z.of_nat n) by (apply Z.pow_le_mono_r; lia).
  lia.
Qed.

Lemma U8_range r : 0 ≤ (U8 r).1 < 2 ^ 8.
Proof.
  unfold U8. rewrite run_bind, run_ret. simpl.
  destruct ((rtake 1 r).1) as [l|]; [apply at_range | lia].
Qed.

Lemma U16_range r : wf r → 0 ≤ (U16 r).1 < 2 ^ 16.
Proof.
  intros W. unfold U16. rewrite run_bind, run_ret. simpl.
  destruct ((rtake 2 r).1) as [l|] eqn:E; [|lia].
  apply (be_uint_lt l 2). by apply (rtake_length 2 r).
Qed.

Lemma U32_range r : wf r → 0 ≤ (U32 r).1 < 2 ^ 32.
Proof.
  intros W. unfold U32. rewrite run_bind, run_ret. simpl.
  destruct ((rtake 4 r).1) as [l|] eqn:E; [|lia].
  apply (be_uint_lt l 4). by apply (rtake_length 4 r).
Qed.

(** Reads that fit: their value is in range and exactly their bytes are consumed. *)
Lemma Remaining_pos_Err r : 0 < Remaining r → Err r = None.
Proof. unfold Remaining, Err. destruct (r_err r); [lia | done]. Qed.

Lemma Remaining_nonneg r : wf r → 0 ≤ Remaining r.
Proof. intros [? ?]. unfold Remaining. destruct (r_err r); lia. Qed.

Lemma safe_Remaining {A} (m : RM A) `{!Safe m} r : wf r → Remaining (m r).2 ≤ Remaining r.
Proof.
  intros W. destruct (safe r W) as (W' & B & O & D). pose proof (Remaining_nonneg _ W).
  unfold Remaining in *. destruct (r_err r) eqn:E.
  - rewrite D by done. by rewrite E.
  - destruct (r_err (m r).2); [lia | rewrite B; lia].
Qed.

Lemma U16_in r :
  wf r → 2 ≤ Remaining r →
  ∃ z r', U16 r = (z, r') ∧ 0 ≤ z < 2 ^ 16 ∧ wf r' ∧ Err r' = None ∧ Remaining r' = Remaining r - 2.
Proof.
  intros W H. pose proof (U16_range r W) as Hz. unfold U16 in *. rewrite run_bind, run_ret in *.
  destruct (rtake_in 2 r W) as (l1 & l2 & r' & E & W' & _ & _ & _ & He & Hr);
    [apply Remaining_pos_Err; lia | lia |].
  rewrite E in *. eauto 10.
Qed.

Lemma U8_in r :
  wf r → 1 ≤ Remaining r →
  ∃ z r', U8 r = (z, r') ∧ 0 ≤ z < 2 ^ 8 ∧ wf r' ∧ Err r' = None ∧ Remaining r' = Remaining r - 1.
Proof.
  intros W H. pose proof (U8_range r) as Hz. unfold U8 in *. rewrite run_bind, run_ret in *.
  destruct (rtake_in 1 r W) as (l1 & l2 & r' & E & W' & _ & _ & _ & He & Hr);
    [apply Remaining_pos_Err; lia | lia |].
  rewrite E in *. eauto 10.
Qed.

Lemma U32_in r :
  wf r → 4 ≤ Remaining r →
  ∃ z r', U32 r = (z, r') ∧ 0 ≤ z < 2 ^ 32 ∧ wf r' ∧ Err r' = None ∧ Remaining r' = Remaining r - 4.
Proof.
  intros W H. pose proof (U32_range r W) as Hz. unfold U32 in *. rewrite run_bind, run_ret in *.
  destruct (rtake_in 4 r W) as (l1 & l2 & r' & E & W' & _ & _ & _ & He & Hr);
    [apply Remaining_pos_Err; lia | lia |].
  rewrite E in *. eauto 10.
Qed.

Lemma Skip_in n r :
  wf r → 0 < n ≤ Remaining r →
  ∃ r', Skip n r = (tt, r') ∧ wf r' ∧ Err r' = None ∧ Remaining r' = Remaining r - n.
Proof.
  intros W H. unfold Skip. rewrite run_bind, run_ret.
  destruct (rtake_in n r W) as (l1 & l2 & r' & E & W' & _ & _ & _ & He & Hr);
    [apply Remaining_pos_Err; lia | lia |].
  rewrite E. eauto.
Qed.

Lemma ReadBytes_in n r :
  wf r → Err r = None → 0 ≤ n ≤ Remaining r →
  ∃ l l2 r', ReadBytes n r = (l, r') ∧ len l = n ∧ wf r' ∧ Err r' = None ∧
    Remaining r' = Remaining r - n ∧ view r = Some (l ++ l2) ∧ view r' = Some l2.
Proof.
  intros W He H. unfold ReadBytes. rewrite run_bind, run_ret.
  destruct (rtake_in n r W He H) as (l1 & l2 & r' & E & W' & Hl & V & V' & He' & Hr).
  rewrite E. eauto 12.
Qed.

Lemma Sub_in n r :
  wf r → 0 < n ≤ Remaining r →
  ∃ l l2 r', Sub n r = (New l, r') ∧ len l = n ∧ wf (New l) ∧ wf r' ∧ Err r' = None ∧
    Remaining r' = Remaining r - n ∧ view r = Some (l ++ l2) ∧ view r' = Some l2.
Proof.
  intros W H. unfold Sub. rewrite run_bind, run_ret.
  destruct (rtake_in n r W) as (l1 & l2 & r' & E & W' & Hl & V & V' & He & Hr);
    [apply Remaining_pos_Err; lia | lia |].
  rewrite E. exists l1, l2, r'. split_and!; try done.
  apply New_wf. pose proof W as [Ho Hb]. unfold Remaining in H. destruct (r_err r); lia.
Qed.

(** Step a translated decoder through a read that fits. *)
Ltac in_step L :=
  let r' := fresh "r" in let E := fresh "E" in let W' := fresh "W" in
  let He := fresh "He" in let Hr := fresh "Hr" in let z := fresh "z" in let Hz := fresh "Hz" in
  destruct L as (z & r' & E & Hz & W' & He & Hr); [assumption | lia |]; rewrite E;
  cbv beta iota zeta.

(** ** Reading back what was written

    [Reads m enc a]: on a reader whose unread bytes start with [enc], [m] returns
    [a] and consumes exactly [enc]. *)
Class Reads {A} (m : RM A) (enc : list byte) (a : A) : Prop := reads r rest :
  wf r → view r = Some (enc ++ rest) →
  ∃ r', m r = (a, r') ∧ wf r' ∧ view r' = Some rest.

Lemma reads_ret {A} (a : A) : Reads (mret a) [] a.
Proof. intros r rest W V. by exists r. Qed.

Lemma reads_bind {A B} (m : RM A) (k : A → RM B) e1 e2 a b :
  Reads m e1 a → Reads (k a) e2 b → Reads (m ≫= k) (e1 ++ e2) b.
Proof.
  intros Hm Hk r rest W V. rewrite <- app_assoc in V.
  destruct (Hm r _ W V) as (r1 & E1 & W1 & V1).
  destruct (Hk r1 _ W1 V1) as (r2 & E2 & W2 & V2).
  exists r2. by rewrite run_bind, E1.
Qed.

Lemma reads_rtake n enc : n = len enc → Reads (rtake n) enc (Some enc).
Proof.
  intros -> r rest W V. destruct (rtake_ok (len enc) r enc rest) as (r' & E & W' & V' & _);
    [done..|]. by exists r'.
Qed.

Lemma reads_take {B} n (f : option (list byte) → B) enc b :
  n = len enc → f (Some enc) = b → Reads (v ← rtake n; mret (f v)) enc b.
Proof.
  intros Hn <-. rewrite <- (app_nil_r enc) at 1.
  eapply reads_bind; [by apply reads_rtake | apply reads_ret].
Qed.

Lemma reads_U8 z : 0 ≤ z < 2 ^ 8 → Reads U8 (be_bytes 1 z) z.
Proof.
  intros Hz. apply (reads_take 1 (λ v, match v with None => 0 | Some v => at_ v 0 end));
    [done|]. unfold at_; simpl. rewrite byteZ_Zbyte. by apply Z.mod_small.
Qed.

Lemma reads_U16 z : 0 ≤ z < 2 ^ 16 → Reads U16 (be_bytes 2 z) z.
Proof.
  intros Hz. apply (reads_take 2 (λ v, match v with None => 0 | Some v => be_uint v end));
    [done|]. by apply be_uint_be_bytes_small.
Qed.

Lemma reads_U32 z : 0 ≤ z < 2 ^ 32 → Reads U32 (be_bytes 4 z) z.
Proof.
  intros Hz. apply (reads_take 4 (λ v, match v with None => 0 | Some v => be_uint v end));
    [done|]. by apply be_uint_be_bytes_small.
Qed.

Lemma reads_Array4 l : length l = 4%nat → Reads Array4 l l.
Proof.
  intros Hl.
  apply (reads_take 4 (λ v, match v with None => replicate 4 x00 | Some v => v end));
    [unfold len; lia | done].
Qed.

Lemma reads_Skip n l : n = len l → Reads (Skip n) l tt.
Proof. intros Hn. by apply (reads_take n (λ _, tt)). Qed.

Lemma reads_ReadBytes n l : n = len l → Reads (ReadBytes n) l l.
Proof. intros Hn. by apply (reads_take n (default [])). Qed.

Lemma reads_Sub n l : n = len l → Reads (Sub n) l (New l).
Proof.
  intros Hn. by apply (reads_take n (λ v, match v with
    | None => failf (SubUnavailable n) (mkReader [] 0 None) | Some v => New v end)).
Qed.

Lemma reads_last {A B} (m : RM A) (k : A → RM B) e a b :
  Reads m e a → k a = mret b → Reads (m ≫= k) e b.
Proof.
  intros Hm Hk. rewrite <- (app_nil_r e). eapply reads_bind; [done|].
  rewrite Hk. apply reads_ret.
Qed.

(** ** What a read that did not fail has done *)

Lemma rtake_ok_inv n r :
  wf r → n < 2 ^ 62 → Err (rtake n r).2 = None →
  0 ≤ n ≤ Remaining r ∧
  ∃ l r', rtake n r = (Some l, r') ∧ len l = n ∧ wf r' ∧ Remaining r' = Remaining r - n.
Proof.
  intros W Hn He.
  assert (He0 : Err r = None).
  { destruct (rtake_safe n r W) as (_ & _ & _ & D). unfold Err in *.
    destruct (r_err r) eqn:E; [|done]. rewrite D in He by done. congruence. }
  destruct (decide (0 ≤ n ≤ Remaining r)) as [Hin|Hout].
  - split; [done|]. destruct (rtake_in n r W He0 Hin) as (l & ? & r' & E & W' & Hl & _ & _ & _ & Hr).
    eauto 10.
  - destruct (rtake_out n r W Hn He0) as (e & E & _); [lia|]. by rewrite E in He.
Qed.

Lemma U32_ok_inv r :
  wf r → Err (U32 r).2 = None → Err r = None ∧ Remaining (U32 r).2 = Remaining r - 4.
Proof.
  intros W He. unfold U32 in *. rewrite run_bind, run_ret in *. cbn [snd] in *.
  destruct (rtake_ok_inv 4 r W ltac:(lia) He) as (Hin & l & r' & E & _ & _ & Hr).
  rewrite E. split; [|done]. apply Remaining_pos_Err. lia.
Qed.

Lemma BytesAligned_ok_inv n a r :
  wf r → n < 2 ^ 62 → Err (BytesAligned n a r).2 = None →
  Err r = None ∧ 0 ≤ n ∧ len (BytesAligned n a r).1 = n ∧
  Remaining (BytesAligned n a r).2 ≤ Remaining r - n.
Proof.
  intros W Hn He. pose proof (rtake_ok_inv n r W Hn) as I.
  assert (He0 : Err r = None).
  { destruct (BytesAligned_safe n a r W) as (_ & _ & _ & D). unfold Err in *.
    destruct (r_err r) eqn:E; [|done]. rewrite D in He by done. congruence. }
  unfold BytesAligned in *. destruct (rtake n r) as [v r1]. cbn [snd] in I.
  assert (He1 : Err r1 = None).
  { destruct v; [|done]. destruct (a <=? 1); [done|]. by destruct (_ && _). }
  destruct (I He1) as (Hin & l & r' & [= -> ->] & Hl & W' & Hr).
  destruct (a <=? 1); [cbn; split_and!; (done || lia)|].
  destruct (_ && _) eqn:Hp; [|cbn; split_and!; (done || lia)].
  zbool. cbn [fst snd]. split_and!; [done | lia | done |].
  unfold Remaining, Err in *. cbn. rewrite He1 in *. lia.
Qed.

(** The padding [BytesAligned n a] consumes after [n] bytes. *)
Definition padding (n a : Z) : Z := Z.rem (a - Z.rem n a) a.

Lemma reads_BytesAligned n l p :
  n = len l → len p = padding n 4 → Reads (BytesAligned n 4) (l ++ p) l.
Proof.
  intros Hn Hp r rest W V. rewrite <- app_assoc in V. unfold BytesAligned.
  destruct (rtake_ok n r l (p ++ rest) W V Hn) as (r1 & E & W1 & V1 & Hb & Ho).
  rewrite E. cbn [Z.leb Z.compare Pos.compare Pos.compare_cont]. fold (padding n 4). rewrite <- Hp.
  pose proof (len_nonneg p) as H0. pose proof (len_nonneg rest) as H1.
  assert (Hrem : len (r_b r1) - r_off r1 = len p + len rest).
  { pose proof (view_Remaining r1 W1) as Hv. rewrite V1 in Hv. cbn in Hv. rewrite len_app in Hv.
    unfold Remaining in Hv. unfold view in V1. by destruct (r_err r1). }
  destruct (Z.ltb_spec 0 (len p)) as [Hpos|Hz]; cbn [andb].
  - rewrite (proj2 (Z.leb_le _ _)) by lia. eexists. split; [done|].
    unfold view in *. cbn. destruct (r_err r1); [done|]. injection V1 as V1.
    destruct W1 as [W1 W2]. split; [split; cbn; lia|]. f_equal.
    rewrite Z2Nat.inj_add by lia. rewrite <- drop_drop, V1. unfold len.
    rewrite Nat2Z.id. apply drop_app_length.
  - assert (p = []) as -> by (destruct p; [done | rewrite len_cons in Hz; pose proof (len_nonneg p); lia]).
    eauto.
Qed.

(** One step of a translated decoder on a reader known to hold an encoding. *)
Ltac read_step L :=
  match goal with
  | W : wf ?r, V : view ?r = Some _ |- _ =>
      let r' := fresh "r" in let E := fresh "E" in
      let W' := fresh "W" in let V' := fresh "V" in
      destruct (L r _ W V) as (r' & E & W' & V'); rewrite E; clear E W V; rename W' into W; rename V' into V; try clear r;
      cbv beta iota zeta
  end.

(** Close [Reads op enc ?a] for one primitive read. *)
Ltac reads_prim :=
  first
  [ apply reads_U16; lia | apply reads_U32; lia | apply reads_U8; lia
  | apply reads_Array4; first [assumption | lia]
  | apply reads_Skip; rewrite ?len_be_bytes; first [done | lia] ].

(** ** The API as one alphabet of calls *)

Inductive op :=
| OU8 | OU16 | OU32 | OBytes (n : Z) | OArray4 | OAligned (n align : Z) | OSkip (n : Z)
| OSub (n : Z).

(** What a call returns: a number, bytes, nothing, or a sub-reader. *)
Inductive ret := RNum (z : Z) | RBytes (l : list byte) | RUnit | RSub (r : Reader).

Definition run_op (o : op) : RM ret :=
  match o with
  | OU8 => z ← U8; mret (RNum z)
  | OU16 => z ← U16; mret (RNum z)
  | OU32 => z ← U32; mret (RNum z)
  | OBytes n => l ← ReadBytes n; mret (RBytes l)
  | OArray4 => l ← Array4; mret (RBytes l)
  | OAligned n a => l ← BytesAligned n a; mret (RBytes l)
  | OSkip n => _ ← Skip n; mret RUnit
  | OSub n => s ← Sub n; mret (RSub s)
  end.

Fixpoint run_ops (os : list op) : RM (list ret) :=
  match os with
  | [] => mret []
  | o :: os => x ← run_op o; xs ← run_ops os; mret (x :: xs)
  end.

(** The value a call gives on a failed reader. *)
Definition zero_ret (o : op) : ret :=
  match o with
  | OU8 | OU16 | OU32 => RNum 0
  | OBytes _ | OAligned _ _ => RBytes []
  | OArray4 => RBytes (replicate 4 x00)
  | OSkip _ => RUnit
  | OSub n => RSub (mkReader [] 0 (Some (SubUnavailable n)))
  end.

#[export] Instance run_op_safe o : Safe (run_op o).
Proof. destruct o; simpl; apply _. Qed.

#[export] Instance run_ops_safe os : Safe (run_ops os).
Proof. induction os; simpl; apply _. Qed.

Lemma run_op_dead o r : Err r ≠ None → run_op o r = (zero_ret o, r).
Proof.
  intros He. destruct o; simpl; unfold BytesAligned;
    rewrite ?run_bind; unfold U8, U16, U32, ReadBytes, Array4, Skip, Sub;
    rewrite ?run_bind, ?run_ret; rewrite (rtake_dead _ _ He); done.
Qed.

Lemma run_ops_dead os r : Err r ≠ None → run_ops os r = (zero_ret <$> os, r).
Proof.
  intros He. induction os as [|o os IH]; [done|].
  simpl. rewrite !run_bind, (run_op_dead o r He). simpl. by rewrite IH.
Qed.

(** ** Properties *)

(** [Reader.take] refines "split n bytes off the unread suffix, or fail for
    good": its result and the view of the reader afterwards are those of the
    reference operation, and the slice expression never panics. *)
Theorem rtake_refines (n : Z) (r : Reader) :
  wf r → n < 2 ^ 62 →
  ((rtake n r).1, view (rtake n r).2) = spec_take n (view r) ∧
  wf (rtake n r).2 ∧
  (Err r = None → Err (rtake n r).2 ≠ Some SlicePanic).
Proof.
  intros W Hn. split_and!; [by apply rtake_refines_aux | by apply safe |].
  intros He. destruct (decide (0 ≤ n ≤ Remaining r)) as [Hin|Hout].
  - destruct (rtake_in n r W He Hin) as (l1 & l2 & r' & E & _ & _ & _ & _ & He' & _).
    rewrite E. simpl. by rewrite He'.
  - destruct (rtake_out n r W Hn He) as (e & E & Hne); [lia|]. rewrite E. simpl. congruence.
Qed.

Lemma rtake_refines_witness :
  ((rtake 2 (New (bytes [1;2;3]))).1, view (rtake 2 (New (bytes [1;2;3]))).2)
    = (Some (bytes [1;2]), Some (bytes [3])).
Proof.
  destruct (rtake_refines 2 (New (bytes [1;2;3]))) as [E _];
    [split; vm_compute; split; done | lia | exact E].
Defined.

(** For every sequence of reader calls: the invariant (offset inside the
    buffer) and the buffer are kept, the offset never moves back; and once an
    error has latched every later call returns its zero value, [Remaining] is 0
    and the reader (so also the first error) does not change. *)
Theorem reader_sticky (os : list op) (r : Reader) :
  wf r →
  wf (run_ops os r).2 ∧ r_b (run_ops os r).2 = r_b r ∧ r_off r ≤ r_off (run_ops os r).2 ∧
  (Err r ≠ None → run_ops os r = (zero_ret <$> os, r) ∧ Remaining r = 0).
Proof.
  intros W. destruct (run_ops_safe os r W) as (W' & B & O & _). split_and!; try done.
  intros He. split; [by apply run_ops_dead|].
  unfold Remaining, Err in *. by destruct (r_err r).
Qed.

Lemma reader_sticky_witness :
  run_ops [OU16; OU32; OSkip 1; OU8] (New (bytes [1;2;3])) =
    ([RNum 258; RNum 0; RUnit; RNum 0], mkReader (bytes [1;2;3]) 2 (Some (Overrun 4 2 3)))
  ∧ Remaining (run_ops [OU16; OU32] (New (bytes [1;2;3]))).2 = 0.
Proof.
  split; [vm_compute; reflexivity|].
  destruct (reader_sticky [OU8] (run_ops [OU16; OU32] (New (bytes [1;2;3]))).2)
    as (_ & _ & _ & H).
  - split; vm_compute; split; done.
  - apply H. vm_compute. discriminate.
Defined.

(** Nested framing: [Sub n] hands out a reader over exactly the next [n]
    bytes; no sequence of calls on it, however long its inner lengths claim to be,
    can see other bytes, and the parent goes on right after those [n] bytes. *)
Theorem sub_framing (n : Z) (r : Reader) (l1 l2 : list byte) (os : list op) :
  wf r → view r = Some (l1 ++ l2) → n = len l1 →
  ∃ child r', Sub n r = (child, r') ∧ view r' = Some l2 ∧
    r_b (run_ops os child).2 = l1 ∧ r_off (run_ops os child).2 ≤ n ∧
    run_ops os child = run_ops os (New l1).
Proof.
  intros W V Hn. destruct (reads_Sub n l1 Hn r l2 W V) as (r' & E & W' & V').
  exists (New l1), r'. pose proof W as [Ho Hl].
  assert (Wc : wf (New l1)).
  { apply New_wf. apply (f_equal (λ v, len (default [] v))) in V.
    rewrite <- view_Remaining in V by done. simpl in V. rewrite len_app in V.
    unfold Remaining in V. destruct (r_err r); pose proof (len_nonneg l2); lia. }
  destruct (run_ops_safe os _ Wc) as ((Hc & _) & B & _). rewrite B in Hc. simpl in *.
  split_and!; try done. lia.
Qed.

Lemma sub_framing_witness :
  ∃ child r', Sub 2 (New (bytes [1;2;3])) = (child, r') ∧ view r' = Some (bytes [3]) ∧
    r_b (run_ops [OU32] child).2 = bytes [1;2] ∧ r_off (run_ops [OU32] child).2 ≤ 2 ∧
    run_ops [OU32] child = run_ops [OU32] (New (bytes [1;2])).
Proof.
  apply (sub_framing 2 (New (bytes [1;2;3])) (bytes [1;2]) (bytes [3]) [OU32]);
    [split; vm_compute; split; done | reflexivity | reflexivity].
Defined.
