(* ===== verification/FlowModel.v ===== *)
(** * internal/flow/model.go: the normalized flow record

    Addresses ([net/netip]), the record every decoder produces, and its mapping
    onto the bus schema with the sampling correction. *)

From stdpp Require Import pretty.
From S2P Require Import Prelude GoTime.
#[local] Open Scope Z_scope.

(** ** net/netip *)

Inductive Addr := AddrNone | Addr4 (b : list byte) | Addr16 (b : list byte).

#[export] Instance Addr_eq_dec : EqDecision Addr.
Proof. solve_decision. Defined.

Definition AddrFrom4 (b : list byte) : Addr := Addr4 b.
Definition AddrFrom16 (b : list byte) : Addr := Addr16 b.

Definition IsValid (a : Addr) : bool := match a with AddrNone => false | _ => true end.
Definition Is4 (a : Addr) : bool := match a with Addr4 _ => true | _ => false end.
Definition Is4In6 (a : Addr) : bool :=
  match a with
  | Addr16 b => bool_decide (firstn 12 b = replicate 10 x00 ++ [xff; xff])
  | _ => false
  end.
Definition Unmap (a : Addr) : Addr :=
  match a with
  | Addr16 b => if Is4In6 a then Addr4 (skipn 12 b) else a
  | _ => a
  end.
Definition IsUnspecified (a : Addr) : bool :=
  match a with
  | AddrNone => false
  | Addr4 b => bool_decide (b = replicate 4 x00)
  | Addr16 b => bool_decide (b = replicate 16 x00)
  end.

(** strconv.FormatUint(v, 10). *)
Definition FormatUint (v : Z) : string := pretty (Z.to_N v).

Definition string4 (b : list byte) : string :=
  (FormatUint (at_ b 0) ++ "." ++ FormatUint (at_ b 1) ++ "." ++
   FormatUint (at_ b 2) ++ "." ++ FormatUint (at_ b 3))%string.

(** The i-th 16-bit group of an IPv6 address. *)
Definition v6u16 (b : list byte) (i : nat) : Z :=
  at_ b (2 * Z.of_nat i) * 256 + at_ b (2 * Z.of_nat i + 1).

Definition hex_digit (z : Z) : string :=
  match String.get (Z.to_nat z) "0123456789abcdef" with
  | Some c => String c EmptyString
  | None => EmptyString
  end.
Definition hex16 (z : Z) : string :=
  let d k := hex_digit (Z.land (Z.shiftr z (4 * k)) 15) in
  if 0x1000 <=? z then (d 3 ++ d 2 ++ d 1 ++ d 0)%string
  else if 0x100 <=? z then (d 2 ++ d 1 ++ d 0)%string
  else if 0x10 <=? z then (d 1 ++ d 0)%string
  else d 0.

Fixpoint zero_run (b : list byte) (fuel i : nat) : nat :=
  match fuel with
  | O => O
  | S f => if v6u16 b i =? 0 then S (zero_run b f (S i)) else O
  end.

(** The first longest run of at least two zero groups: (start, end). *)
Definition zero_span (b : list byte) : nat * nat :=
  foldl (λ '(s, e) i,
    let l := zero_run b (8 - i) i in
    if (2 <=? l)%nat && (e - s <? l)%nat then (i, i + l)%nat else (s, e))
    (255, 255)%nat (seq 0 8).

Fixpoint string6_from (b : list byte) (span : nat * nat) (fuel i : nat) : string :=
  match fuel with
  | O => EmptyString
  | S f =>
      if (8 <=? i)%nat then EmptyString
      else if (i =? span.1)%nat then
        if (8 <=? span.2)%nat then "::"%string
        else ("::" ++ hex16 (v6u16 b span.2) ++ string6_from b span f (S span.2))%string
      else ((if (0 <? i)%nat then ":" else "") ++ hex16 (v6u16 b i) ++
            string6_from b span f (S i))%string
  end.
Definition string6 (b : list byte) : string := string6_from b (zero_span b) 9 0.

(** Addr.String; the zero Addr prints as "invalid IP", an IPv4-mapped one in its
    "::ffff:" form. *)
Definition Addr_String (a : Addr) : string :=
  match a with
  | AddrNone => "invalid IP"
  | Addr4 b => string4 b
  | Addr16 b => if Is4In6 a then ("::ffff:" ++ string4 (skipn 12 b))%string else string6 b
  end.

(** ** The record *)

Definition ProtoNetFlow5 : string := "netflow5".
Definition ProtoNetFlow9 : string := "netflow9".
Definition ProtoIPFIX : string := "ipfix".
Definition ProtoSFlow5 : string := "sflow5".

Record FRecord := mkFRecord {
  f_TenantID : string;
  f_AgentID : string;
  f_Exporter : string;
  f_ObservationDomain : Z;
  f_Protocol : string;
  f_ObservedAt : Time;
  f_Start : Time;
  f_End : Time;
  f_SrcAddr : Addr;
  f_DstAddr : Addr;
  f_SrcPort : Z;
  f_DstPort : Z;
  f_Transport : Z;
  f_InIf : Z;
  f_OutIf : Z;
  f_VLAN : Z;
  f_ToS : Z;
  f_TCPFlags : Z;
  f_NextHop : Addr;
  f_Bytes : Z;
  f_Packets : Z;
  f_SamplingRate : Z;
  f_SrcAS : Z;
  f_DstAS : Z
}.

#[export] Instance FRecord_eta : Eta FRecord := λ r,
  mkFRecord (f_TenantID r) (f_AgentID r) (f_Exporter r) (f_ObservationDomain r)
    (f_Protocol r) (f_ObservedAt r) (f_Start r) (f_End r) (f_SrcAddr r) (f_DstAddr r)
    (f_SrcPort r) (f_DstPort r) (f_Transport r) (f_InIf r) (f_OutIf r) (f_VLAN r)
    (f_ToS r) (f_TCPFlags r) (f_NextHop r) (f_Bytes r) (f_Packets r)
    (f_SamplingRate r) (f_SrcAS r) (f_DstAS r).

(** [Record{}]. *)
Definition zero_record : FRecord :=
  mkFRecord "" "" "" 0 "" zero_time zero_time zero_time AddrNone AddrNone
    0 0 0 0 0 0 0 0 AddrNone 0 0 0 0 0.

(** Every integer field is inside its Go type. *)
Definition record_wf (r : FRecord) : Prop :=
  0 ≤ f_ObservationDomain r < 2 ^ 32 ∧
  0 ≤ f_SrcPort r < 2 ^ 16 ∧ 0 ≤ f_DstPort r < 2 ^ 16 ∧ 0 ≤ f_Transport r < 2 ^ 8 ∧
  0 ≤ f_InIf r < 2 ^ 32 ∧ 0 ≤ f_OutIf r < 2 ^ 32 ∧ 0 ≤ f_VLAN r < 2 ^ 16 ∧
  0 ≤ f_ToS r < 2 ^ 8 ∧ 0 ≤ f_TCPFlags r < 2 ^ 8 ∧
  0 ≤ f_Bytes r < 2 ^ 64 ∧ 0 ≤ f_Packets r < 2 ^ 64 ∧ 0 ≤ f_SamplingRate r < 2 ^ 64 ∧
  0 ≤ f_SrcAS r < 2 ^ 32 ∧ 0 ≤ f_DstAS r < 2 ^ 32.

Lemma zero_record_wf : record_wf zero_record.
Proof. unfold record_wf; simpl; lia. Qed.

#[export] Hint Resolve zero_record_wf : go.

(** ** Mapping onto the bus schema *)

Definition transportName (p : Z) : string :=
  if p =? 6 then "tcp"
  else if p =? 17 then "udp"
  else if (p =? 1) || (p =? 58) then "icmp"
  else FormatUint p.

Definition networkType (a : Addr) : string :=
  if negb (IsValid a) then ""
  else if Is4 a || Is4In6 a then "ipv4"
  else "ipv6".

Definition rate (r : FRecord) : Z :=
  if f_SamplingRate r =? 0 then 1 else f_SamplingRate r.

Definition unixNano (t : Time) : Z := if IsZero t then 0 else UnixNano t.

(** flowv1.FlowRecord, less the enrichment names the control plane fills later. *)
Record ProtoFlow := mkProtoFlow {
  p_TenantId : string;
  p_AgentId : string;
  p_ExporterAddress : string;
  p_ObservationDomain : Z;
  p_FlowProtocol : string;
  p_ObservedAtUnixNano : Z;
  p_StartUnixNano : Z;
  p_EndUnixNano : Z;
  p_SourceAddress : string;
  p_SourcePort : Z;
  p_DestinationAddress : string;
  p_DestinationPort : Z;
  p_NetworkTransport : string;
  p_NetworkType : string;
  p_InputInterface : Z;
  p_OutputInterface : Z;
  p_Vlan : Z;
  p_Tos : Z;
  p_TcpFlags : Z;
  p_NextHop : string;
  p_Bytes : Z;
  p_Packets : Z;
  p_SamplingRate : Z;
  p_BytesScaled : Z;
  p_PacketsScaled : Z;
  p_SourceAsn : Z;
  p_DestinationAsn : Z
}.

Definition ToProto (r : FRecord) : ProtoFlow :=
  mkProtoFlow (f_TenantID r) (f_AgentID r) (f_Exporter r) (f_ObservationDomain r)
    (f_Protocol r) (unixNano (f_ObservedAt r)) (unixNano (f_Start r)) (unixNano (f_End r))
    (if IsValid (f_SrcAddr r) then Addr_String (Unmap (f_SrcAddr r)) else "")
    (u32 (f_SrcPort r))
    (if IsValid (f_DstAddr r) then Addr_String (Unmap (f_DstAddr r)) else "")
    (u32 (f_DstPort r))
    (transportName (f_Transport r)) (networkType (f_SrcAddr r))
    (f_InIf r) (f_OutIf r) (u32 (f_VLAN r)) (u32 (f_ToS r)) (u32 (f_TCPFlags r))
    (if IsValid (f_NextHop r) && negb (IsUnspecified (f_NextHop r))
     then Addr_String (Unmap (f_NextHop r)) else "")
    (f_Bytes r) (f_Packets r) (rate r)
    (u64 (f_Bytes r * rate r)) (u64 (f_Packets r * rate r))
    (f_SrcAS r) (f_DstAS r).

(** ** Properties *)

Lemma rate_pos r : record_wf r → 1 ≤ rate r < 2 ^ 64.
Proof.
  unfold record_wf, rate. intros H. destruct (f_SamplingRate r =? 0) eqn:?; zbool; lia.
Qed.

(** Sampling correction: the scaled counters are raw times the effective rate
    (1 when the record carries no rate, so never a multiplication by zero) as long
    as the product fits uint64; and a record is never scaled down. *)
Theorem ToProto_scaling (r : FRecord) :
  record_wf r → f_Bytes r * rate r < 2 ^ 64 → f_Packets r * rate r < 2 ^ 64 →
  let p := ToProto r in
  p_BytesScaled p = p_Bytes p * p_SamplingRate p ∧
  p_PacketsScaled p = p_Packets p * p_SamplingRate p ∧
  1 ≤ p_SamplingRate p ∧
  p_Bytes p ≤ p_BytesScaled p ∧ p_Packets p ≤ p_PacketsScaled p ∧
  (f_SamplingRate r ≠ 0 → p_SamplingRate p = f_SamplingRate r).
Proof.
  intros W Hb Hp. pose proof (rate_pos r W) as Hr. unfold record_wf in W. cbn.
  rewrite !u64_small by nia. split_and!; try nia.
  intros H. unfold rate. by rewrite (proj2 (Z.eqb_neq _ _) H).
Qed.

Definition sample_record : FRecord :=
  zero_record <| f_Bytes := 1500 |> <| f_Packets := 2 |> <| f_SamplingRate := 1000 |>.

Lemma ToProto_scaling_witness :
  p_BytesScaled (ToProto sample_record) = 1500000 ∧ p_PacketsScaled (ToProto sample_record) = 2000.
Proof.
  destruct (ToProto_scaling sample_record) as (E1 & E2 & _);
    [unfold record_wf; simpl; lia | reflexivity | reflexivity |].
  rewrite E1, E2. split; reflexivity.
Defined.

Example ipv6_print :
  Addr_String (Addr16 (bytes [0x20;0x01;0x0d;0xb8;0;0;0;0;0;0;0;0;0;0;0;1])) = "2001:db8::1"%string.
Proof. vm_compute. reflexivity. Qed.
Example ipv6_print_zero : Addr_String (Addr16 (replicate 16 x00)) = "::"%string.
Proof. vm_compute. reflexivity. Qed.
Example ipv6_print_mid :
  Addr_String (Addr16 (bytes [0xfe;0x80;0;0;0;0;0;0;0;0;0x0;0x1;0;0;0xab;0xcd])) = "fe80::1:0:abcd"%string.
Proof. vm_compute. reflexivity. Qed.
