(* ===== verification/Templates.v ===== *)
(** * internal/flow/templates.go: template cache and sampling state

    The cache maps (exporter, observation domain, template id) to a template with a
    TTL and a size cap; the sampling state maps an "exporter|domain" string to a
    rate.  [Runtime] holds what the code takes from the Go run time: the readings of
    the process clock and the (unspecified) iteration order of a map. *)

From Stdlib Require Import Ascii.
From stdpp Require Import pretty.
From S2P Require Import Prelude GoTime.
#[local] Open Scope Z_scope.

(** ** Data *)

Record templateField := mkField { tf_ID : Z; tf_Length : Z; tf_Enterprise : Z }.

Record templateRecord := mkTemplate {
  tr_Fields : list templateField;
  tr_Options : bool;
  tr_ScopeLen : Z;
  tr_variable : bool;
  tr_width : Z;
  tr_added : Z
}.

#[export] Instance templateRecord_eta : Eta templateRecord := λ t,
  mkTemplate (tr_Fields t) (tr_Options t) (tr_ScopeLen t) (tr_variable t) (tr_width t)
    (tr_added t).

Record templateKey := mkKey { k_exporter : string; k_domain : Z; k_id : Z }.

#[export] Instance templateKey_eq_dec : EqDecision templateKey.
Proof. solve_decision. Defined.
#[export] Instance templateKey_countable : Countable templateKey :=
  inj_countable' (λ k, (k_exporter k, k_domain k, k_id k))
    (λ '(e, d, i), mkKey e d i) ltac:(by intros []).

(** What the run time decides.  [Now n] is the n-th reading of the process clock
    (nanoseconds), [Range n m] the order the n-th range over the map takes. *)
Class Runtime := {
  Now : nat → Z;
  Range : nat → gmap templateKey templateRecord → list (templateKey * templateRecord);
  Range_perm n m : Range n m ≡ₚ map_to_list m
}.

(** [tc_ticks] counts the run-time decisions consumed so far. *)
Record templateCache := mkCache {
  tc_ttl : Z;
  tc_max : Z;
  tc_m : gmap templateKey templateRecord;
  tc_ticks : nat
}.

#[export] Instance templateCache_eta : Eta templateCache := λ c,
  mkCache (tc_ttl c) (tc_max c) (tc_m c) (tc_ticks c).

Definition fixedWidth (t : templateRecord) : Z := if tr_variable t then 0 else tr_width t.

Definition newTemplateCache (ttl maxEntries : Z) : templateCache :=
  mkCache (if ttl <=? 0 then 30 * Minute else ttl)
    (if maxEntries <=? 0 then 4096 else maxEntries) ∅ 0.

(** ** Operations *)

Section ops.
Context `{Runtime}.

(** The loop of [put] that recomputes [variable] and [width]. *)
Definition measure (fs : list templateField) : bool * Z :=
  foldl (λ '(v, w) f,
    if tf_Length f =? 0xFFFF then (true, w) else (v, i64 (w + tf_Length f)))
    (false, 0) fs.

(** The scan of [evictOldestLocked]. *)
Definition oldest (l : list (templateKey * templateRecord)) : option (templateKey * Z) :=
  foldl (λ acc '(k, t),
    match acc with
    | None => Some (k, tr_added t)
    | Some (_, at') => if tr_added t <? at' then Some (k, tr_added t) else acc
    end) None l.

Definition evictOldestLocked (c : templateCache) : templateCache :=
  match oldest (Range (tc_ticks c) (tc_m c)) with
  | None => c <| tc_ticks := S (tc_ticks c) |>
  | Some (k, _) => c <| tc_m := delete k (tc_m c) |> <| tc_ticks := S (tc_ticks c) |>
  end.

Definition put (k : templateKey) (t : templateRecord) (c : templateCache) : templateCache :=
  let now := Now (tc_ticks c) in
  let c := c <| tc_ticks := S (tc_ticks c) |> in
  let '(variable, width) := measure (tr_Fields t) in
  let t := t <| tr_added := now |> <| tr_variable := variable |> <| tr_width := width |> in
  if (width =? 0) && negb variable then c
  else
    let c :=
      match tc_m c !! k with
      | Some _ => c
      | None => if tc_max c <=? Z.of_nat (size (tc_m c)) then evictOldestLocked c else c
      end in
    c <| tc_m := <[k := t]> (tc_m c) |>.

Definition get (k : templateKey) (c : templateCache) : option templateRecord * templateCache :=
  match tc_m c !! k with
  | None => (None, c)
  | Some t =>
      let now := Now (tc_ticks c) in
      let c := c <| tc_ticks := S (tc_ticks c) |> in
      if tc_ttl c <? now - tr_added t
      then (None, c <| tc_m := delete k (tc_m c) |>)
      else (Some t, c)
  end.
End ops.

#[global] Arguments measure : simpl never.

(** len. *)
Definition cache_len (c : templateCache) : Z := Z.of_nat (size (tc_m c)).

(** ** Sampling state *)

Record samplingState := mkSampling { ss_m : gmap string Z }.

Definition newSamplingState : samplingState := mkSampling ∅.

(** itoa32: digits are written backwards into a [10]byte. *)
Fixpoint itoa_loop (n : nat) (v : Z) (acc : string) : string :=
  match n with
  | O => acc
  | S n' =>
      if 0 <? v
      then itoa_loop n' (v / 10) (String (Ascii.ascii_of_N (Z.to_N (48 + v mod 10))) acc)
      else acc
  end.
Definition itoa32 (v : Z) : string := if v =? 0 then "0" else itoa_loop 10 v "".

Definition samplingKey (exporter : string) (domain : Z) : string :=
  (exporter ++ "|" ++ itoa32 domain)%string.

Definition sampling_set (exporter : string) (domain rate : Z) (s : samplingState) : samplingState :=
  if rate =? 0 then s
  else
    let m := if 65536 <? Z.of_nat (size (ss_m s)) then ∅ else ss_m s in
    mkSampling (<[samplingKey exporter domain := rate]> m).

Definition sampling_get (exporter : string) (domain : Z) (s : samplingState) : Z :=
  default 0 (ss_m s !! samplingKey exporter domain).

(** The state the v9 and IPFIX decoders share: both hold pointers to one cache and
    one sampling state. *)
Record flowState := mkFlowState { fs_templates : templateCache; fs_sampling : samplingState }.

#[export] Instance flowState_eta : Eta flowState := λ d,
  mkFlowState (fs_templates d) (fs_sampling d).

(** ** Invariants *)

(** A cached template consumes at least one byte per data record, its width is the
    sum of its fixed field lengths, and no more than 512 fields were accepted. *)
Definition field_wf (f : templateField) : Prop := 0 ≤ tf_Length f < 2 ^ 16.

Definition template_wf (t : templateRecord) : Prop :=
  Forall field_wf (tr_Fields t) ∧ (length (tr_Fields t) ≤ 512)%nat ∧
  (tr_variable t, tr_width t) = measure (tr_Fields t) ∧
  (tr_variable t = true ∨ 0 < tr_width t).

Definition cache_wf (c : templateCache) : Prop :=
  0 < tc_max c ∧ cache_len c ≤ tc_max c ∧
  map_Forall (λ _ t, template_wf t) (tc_m c).

Definition sampling_wf (s : samplingState) : Prop :=
  Z.of_nat (size (ss_m s)) ≤ 65537 ∧ map_Forall (λ _ r, 1 ≤ r < 2 ^ 64) (ss_m s).

Definition state_wf (d : flowState) : Prop :=
  cache_wf (fs_templates d) ∧ sampling_wf (fs_sampling d).

Lemma newTemplateCache_wf ttl n : cache_wf (newTemplateCache ttl n).
Proof.
  unfold cache_wf, newTemplateCache, cache_len; simpl.
  rewrite map_size_empty. split_and!; [| |apply map_Forall_empty];
    destruct (n <=? 0) eqn:?; zbool; lia.
Qed.

(** ** Width computation *)

Lemma measure_acc fs v w :
  Forall field_wf fs → 0 ≤ w → w + 65536 * Z.of_nat (length fs) < 2 ^ 63 →
  let p := foldl (λ '(v, w) f,
      if tf_Length f =? 0xFFFF then (true, w) else (v, i64 (w + tf_Length f))) (v, w) fs in
  w ≤ p.2 ≤ w + 65536 * Z.of_nat (length fs).
Proof.
  revert v w. induction fs as [|f fs IH]; intros v w Hf Hw Hb; [simpl; lia|].
  inversion Hf as [|? ? Hf1 Hf2]; subst. unfold field_wf in Hf1. simpl length in *.
  cbn [foldl]. destruct (tf_Length f =? 0xFFFF).
  - specialize (IH true w Hf2). cbv zeta in *. lia.
  - rewrite i64_small by lia. specialize (IH v (w + tf_Length f) Hf2). cbv zeta in *. lia.
Qed.

Lemma measure_nonneg fs :
  Forall field_wf fs → (length fs ≤ 512)%nat → 0 ≤ (measure fs).2 ≤ 65536 * 512.
Proof. intros Hf Hl. pose proof (measure_acc fs false 0 Hf). unfold measure. cbv zeta in *. lia. Qed.

(** ** Eviction picks an oldest entry *)

Definition oldest_ok (l : list (templateKey * templateRecord)) (o : option (templateKey * Z)) : Prop :=
  match o with
  | None => l = []
  | Some (k, a) =>
      ∃ t, (k, t) ∈ l ∧ tr_added t = a ∧ Forall (λ p, a ≤ tr_added p.2) l
  end.

Lemma oldest_snoc l p o :
  oldest_ok l o →
  oldest_ok (l ++ [p])
    (match o with
     | None => Some (p.1, tr_added p.2)
     | Some (_, a) => if tr_added p.2 <? a then Some (p.1, tr_added p.2) else o
     end).
Proof.
  destruct p as [k t], o as [[k0 a]|]; simpl.
  - intros (t0 & Hin & Ha & Hall).
    destruct (tr_added t <? a) eqn:E; zbool; simpl.
    + exists t. split_and!; [set_solver | done |].
      apply Forall_app; split; [|by repeat constructor].
      eapply Forall_impl; [done|]. simpl. intros; lia.
    + exists t0. split_and!; [set_solver | done |].
      apply Forall_app; split; [done | repeat constructor; simpl; lia].
  - intros ->. exists t. split_and!; [set_solver | done | repeat constructor; simpl; lia].
Qed.

Lemma oldest_spec l : oldest_ok l (oldest l).
Proof.
  unfold oldest. induction l as [|[k t] l IH] using rev_ind; [done|].
  rewrite foldl_snoc. by apply (oldest_snoc l (k, t)).
Qed.

Section cache_lemmas.
Context `{Runtime}.

Lemma Range_elem n m k t : (k, t) ∈ Range n m ↔ m !! k = Some t.
Proof. rewrite (Range_perm n m). apply elem_of_map_to_list. Qed.

Lemma evict_spec c :
  tc_m c ≠ ∅ →
  ∃ k t, tc_m c !! k = Some t ∧
    (∀ k' t', tc_m c !! k' = Some t' → tr_added t ≤ tr_added t') ∧
    tc_m (evictOldestLocked c) = delete k (tc_m c) ∧
    tc_max (evictOldestLocked c) = tc_max c ∧ tc_ttl (evictOldestLocked c) = tc_ttl c.
Proof.
  intros Hne. pose proof (oldest_spec (Range (tc_ticks c) (tc_m c))) as Ho.
  unfold evictOldestLocked. destruct (oldest _) as [[k a]|]; simpl in Ho.
  - destruct Ho as (t & Hin & Ha & Hall). exists k, t.
    apply Range_elem in Hin. split_and!; try done.
    intros k' t' Hk'. apply (Range_elem (tc_ticks c)) in Hk'.
    rewrite Forall_forall in Hall. specialize (Hall _ Hk'). simpl in Hall. lia.
  - exfalso. apply Hne. apply map_to_list_empty_iff, Permutation_nil_r.
    rewrite <- Ho. symmetry. apply Range_perm.
Qed.

Lemma evict_size c :
  tc_m c ≠ ∅ → cache_len (evictOldestLocked c) = cache_len c - 1.
Proof.
  intros Hne. destruct (evict_spec c Hne) as (k & t & Hk & _ & E & _).
  unfold cache_len. rewrite E, map_size_delete_Some by eauto.
  assert (size (tc_m c) ≠ 0%nat) by (rewrite map_size_ne_0_lookup; eauto). lia.
Qed.

(** The template as [put] stores it. *)
Definition stored (now : Z) (t : templateRecord) : templateRecord :=
  t <| tr_added := now |> <| tr_variable := (measure (tr_Fields t)).1 |>
    <| tr_width := (measure (tr_Fields t)).2 |>.

Definition usable (t : templateRecord) : Prop :=
  (measure (tr_Fields t)).1 = true ∨ (measure (tr_Fields t)).2 ≠ 0.

Lemma stored_wf now t :
  Forall field_wf (tr_Fields t) → (length (tr_Fields t) ≤ 512)%nat → usable t →
  template_wf (stored now t).
Proof.
  intros Hf Hl Hu. pose proof (measure_nonneg _ Hf Hl).
  unfold template_wf, stored; simpl. split_and!; try done.
  - by destruct (measure _).
  - destruct Hu; [by left | right; lia].
Qed.

(** [put] in closed form: an unusable template is refused; otherwise it replaces
    the entry under its key, after evicting an oldest entry when the key is new
    and the cache is full. *)
Lemma put_spec k t c :
  cache_wf c →
  let c' := put k t c in
  tc_max c' = tc_max c ∧ tc_ttl c' = tc_ttl c ∧
  ((¬ usable t ∧ tc_m c' = tc_m c) ∨
   (usable t ∧
    ((is_Some (tc_m c !! k) ∨ cache_len c < tc_max c) ∧
     tc_m c' = <[k := stored (Now (tc_ticks c)) t]> (tc_m c)
     ∨ tc_m c !! k = None ∧ cache_len c = tc_max c ∧
       ∃ k0 t0, tc_m c !! k0 = Some t0 ∧
         (∀ k' t', tc_m c !! k' = Some t' → tr_added t0 ≤ tr_added t') ∧
         tc_m c' = <[k := stored (Now (tc_ticks c)) t]> (delete k0 (tc_m c))))).
Proof.
  intros (Hmax & Hlen & _). unfold put, usable, stored.
  destruct (measure (tr_Fields t)) as [v w]. simpl.
  destruct ((w =? 0) && negb v) eqn:Hu.
  { split_and!; try done. left. split; [|done]. zbool. by intros [?|?]; subst. }
  assert (v = true ∨ w ≠ 0) by (zbool; destruct Hu; zbool; auto).
  destruct (tc_m c !! k) as [t0|] eqn:Hk; simpl.
  { split_and!; try done. right. split; [done|]. left. eauto. }
  destruct (tc_max c <=? Z.of_nat (size (tc_m c))) eqn:Hfull; zbool.
  2:{ split_and!; try done. right. split; [done|]. left. split; [right; unfold cache_len; lia | done]. }
  set (c1 := c <| tc_ticks := S (tc_ticks c) |>).
  assert (Hne : tc_m c1 ≠ ∅).
  { simpl. intros E. rewrite E, map_size_empty in Hfull. simpl in Hfull. lia. }
  destruct (evict_spec c1 Hne) as (k0 & t0 & Hk0 & Hmin & E & Em & Et).
  change (tc_m c1) with (tc_m c) in *. simpl in Em, Et. simpl.
  split_and!; try done. right. split; [done|]. right.
  split_and!; [done | unfold cache_len in *; lia |]. exists k0, t0. by rewrite E.
Qed.

Lemma put_wf k t c :
  Forall field_wf (tr_Fields t) → (length (tr_Fields t) ≤ 512)%nat →
  cache_wf c → cache_wf (put k t c).
Proof.
  intros Hf Hl W. pose proof W as (Hmax & Hlen & Hall).
  destruct (put_spec k t c W) as (Em & _ & [[_ E]|[Hu [[Hroom E]|(Hk & Hfull & k0 & t0 & Hk0 & _ & E)]]]).
  - by unfold cache_wf, cache_len; rewrite Em, E.
  - unfold cache_wf, cache_len in *. rewrite Em, E. split_and!; [done | |].
    + destruct (tc_m c !! k) eqn:Hk.
      * rewrite map_size_insert_Some by eauto. lia.
      * rewrite map_size_insert_None by done. destruct Hroom as [[? ?]|?]; [congruence | lia].
    + apply map_Forall_insert_2; [by apply stored_wf | done].
  - unfold cache_wf, cache_len in *. rewrite Em, E.
    assert (size (tc_m c) ≠ 0%nat) by (rewrite map_size_ne_0_lookup; eauto).
    split_and!; [done | |].
    + rewrite map_size_insert_None by (rewrite lookup_delete_ne by congruence; done).
      rewrite map_size_delete_Some by eauto. lia.
    + apply map_Forall_insert_2; [by apply stored_wf | by apply map_Forall_delete].
Qed.

Lemma get_spec k c :
  let '(o, c') := get k c in
  tc_max c' = tc_max c ∧ tc_ttl c' = tc_ttl c ∧
  match o with
  | Some t => tc_m c !! k = Some t ∧ tc_m c' = tc_m c ∧ Now (tc_ticks c) - tr_added t ≤ tc_ttl c
  | None => tc_m c' = delete k (tc_m c)
  end.
Proof.
  unfold get. destruct (tc_m c !! k) as [t|] eqn:Hk; simpl.
  - destruct (_ <? _) eqn:E; simpl; zbool; split_and!; try done.
  - split_and!; try done. by rewrite delete_id.
Qed.

Lemma get_fresh k c t :
  tc_m c !! k = Some t → Now (tc_ticks c) - tr_added t ≤ tc_ttl c →
  get k c = (Some t, c <| tc_ticks := S (tc_ticks c) |>).
Proof.
  intros Hk Hf. unfold get. rewrite Hk. cbn. by rewrite (proj2 (Z.ltb_ge _ _)).
Qed.

Lemma get_wf k c o c' :
  cache_wf c → get k c = (o, c') →
  cache_wf c' ∧ ∀ t, o = Some t → template_wf t.
Proof.
  intros (Hmax & Hlen & Hall) E. pose proof (get_spec k c) as G. rewrite E in G.
  destruct G as (Em & _ & G). unfold cache_wf, cache_len in *. rewrite Em.
  destruct o as [t|].
  - destruct G as (Hk & -> & _). split; [done|]. intros ? [= <-]. by eapply Hall.
  - rewrite G. split; [|done]. split_and!; [done | | by apply map_Forall_delete].
    rewrite map_size_delete. destruct (tc_m c !! k); simpl; lia.
Qed.
End cache_lemmas.

(** ** Decimal keys *)

Lemma itoa_char d : 0 ≤ d < 10 →
  Ascii.ascii_of_N (Z.to_N (48 + d)) = pretty_N_char (Z.to_N d).
Proof.
  intros H.
  assert (d = 0 ∨ d = 1 ∨ d = 2 ∨ d = 3 ∨ d = 4 ∨ d = 5 ∨ d = 6 ∨ d = 7 ∨ d = 8 ∨ d = 9)
    by lia.
  destruct_or!; subst; done.
Qed.

Lemma itoa_loop_spec n v acc :
  0 ≤ v < 10 ^ Z.of_nat n → itoa_loop n v acc = pretty_N_go (Z.to_N v) acc.
Proof.
  revert v acc. induction n as [|n IH]; intros v acc Hv.
  { simpl in Hv. assert (v = 0) as -> by lia. done. }
  simpl. rewrite Nat2Z.inj_succ, Z.pow_succ_r in Hv by lia.
  destruct (0 <? v) eqn:E; zbool.
  - rewrite IH by (Z.to_euclidean_division_equations; lia).
    rewrite (pretty_N_go_step (Z.to_N v)) by lia.
    rewrite itoa_char by (apply Z.mod_pos_bound; lia).
    rewrite Z2N.inj_div, Z2N.inj_mod by lia. done.
  - assert (v = 0) as -> by lia. done.
Qed.

Lemma itoa32_pretty v : 0 ≤ v < 2 ^ 32 → itoa32 v = pretty (Z.to_N v).
Proof.
  intros Hv. unfold itoa32, pretty, pretty_N.
  destruct (v =? 0) eqn:E; zbool; [by subst|].
  rewrite decide_False by lia. by apply itoa_loop_spec; lia.
Qed.

Fixpoint has_char (c : Ascii.ascii) (s : string) : bool :=
  match s with
  | EmptyString => false
  | String d s => if decide (c = d) then true else has_char c s
  end.

Lemma has_char_app c a s : has_char c (a ++ String c s)%string = true.
Proof. induction a; simpl; [by rewrite decide_True | by destruct (decide _)]. Qed.

Lemma split_at_last c a b s t :
  has_char c s = false → has_char c t = false →
  (a ++ String c s)%string = (b ++ String c t)%string → a = b ∧ s = t.
Proof.
  intros Hs Ht. revert b. induction a as [|d a IH]; intros [|e b] E.
  - by injection E as ->.
  - injection E as _ E. rewrite E in Hs. by rewrite has_char_app in Hs.
  - injection E as _ E. rewrite <- E in Ht. by rewrite has_char_app in Ht.
  - injection E as -> E. destruct (IH b E) as [-> ->]; done.
Qed.

Lemma itoa_loop_no_bar n v acc :
  0 ≤ v → has_char "|"%char acc = false → has_char "|"%char (itoa_loop n v acc) = false.
Proof.
  revert v acc. induction n as [|n IH]; intros v acc Hv Hacc; simpl; [done|].
  destruct (0 <? v); [|done]. apply IH; [apply Z.div_pos; lia|].
  simpl. rewrite decide_False; [done|].
  rewrite itoa_char by (apply Z.mod_pos_bound; lia).
  unfold pretty_N_char. by repeat case_match.
Qed.

Lemma itoa32_no_bar v : 0 ≤ v → has_char "|"%char (itoa32 v) = false.
Proof.
  intros. unfold itoa32. destruct (v =? 0); [done | by apply itoa_loop_no_bar].
Qed.

Lemma itoa32_inj v w : 0 ≤ v < 2 ^ 32 → 0 ≤ w < 2 ^ 32 → itoa32 v = itoa32 w → v = w.
Proof.
  intros Hv Hw. rewrite !itoa32_pretty by done. intros E.
  apply (inj pretty) in E. lia.
Qed.

Lemma samplingKey_inj_aux e d e' d' :
  0 ≤ d < 2 ^ 32 → 0 ≤ d' < 2 ^ 32 → samplingKey e d = samplingKey e' d' → e = e' ∧ d = d'.
Proof.
  intros Hd Hd' E. unfold samplingKey in E.
  destruct (split_at_last "|"%char e e' (itoa32 d) (itoa32 d')) as [-> Hi].
  - apply itoa32_no_bar; lia.
  - apply itoa32_no_bar; lia.
  - exact E.
  - split; [done | by apply itoa32_inj].
Qed.

Lemma sampling_set_wf e d rate s :
  0 ≤ rate < 2 ^ 64 → sampling_wf s → sampling_wf (sampling_set e d rate s).
Proof.
  intros Hr [Hs Hall]. unfold sampling_set. destruct (rate =? 0) eqn:E; zbool; [done|].
  unfold sampling_wf; simpl. destruct (65536 <? _) eqn:Hbig; zbool.
  - split; [rewrite map_size_insert_None by done; rewrite map_size_empty; lia|].
    apply map_Forall_insert_2; [lia | apply map_Forall_empty].
  - split; [|apply map_Forall_insert_2; [lia | done]].
    rewrite map_size_insert. destruct (ss_m s !! _); simpl; lia.
Qed.

Lemma sampling_get_range e d s : sampling_wf s → 0 ≤ sampling_get e d s < 2 ^ 64.
Proof.
  intros [_ Hall]. unfold sampling_get. destruct (ss_m s !! _) as [r|] eqn:E; simpl; [|lia].
  apply Hall in E. lia.
Qed.

#[export] Hint Resolve put_wf sampling_set_wf sampling_get_range : go.

(** ** Isolation between exporters and observation domains

    [kept e dom d d']: from [d] to [d'], templates and rates of every other
    (exporter, domain) are either untouched or gone - never installed or changed -
    and the cache's cap is the same. *)
Definition kept (e : string) (dom : Z) (d d' : flowState) : Prop :=
  (∀ k, (k_exporter k, k_domain k) ≠ (e, dom) →
    tc_m (fs_templates d') !! k = tc_m (fs_templates d) !! k ∨
    tc_m (fs_templates d') !! k = None) ∧
  (∀ e' dom', 0 ≤ dom' < 2 ^ 32 → (e', dom') ≠ (e, dom) →
    sampling_get e' dom' (fs_sampling d') = sampling_get e' dom' (fs_sampling d) ∨
    sampling_get e' dom' (fs_sampling d') = 0) ∧
  tc_max (fs_templates d') = tc_max (fs_templates d).

Lemma kept_refl e dom d : kept e dom d d.
Proof. split_and!; auto. Qed.

Lemma kept_trans e dom d1 d2 d3 : kept e dom d1 d2 → kept e dom d2 d3 → kept e dom d1 d3.
Proof.
  intros (A1 & B1 & C1) (A2 & B2 & C2). split_and!; [| |congruence].
  - intros k Hk. destruct (A2 k Hk) as [-> | ->]; auto.
  - intros e' dom' Hd Hne. destruct (B2 e' dom' Hd Hne) as [-> | ->]; auto.
Qed.

Lemma put_kept `{Runtime} k t d :
  cache_wf (fs_templates d) →
  kept (k_exporter k) (k_domain k) d (d <| fs_templates := put k t (fs_templates d) |>).
Proof.
  intros W. split_and!; [|auto | by apply put_spec]. intros k' Hk'. cbn.
  assert (Hne : k' ≠ k) by (by intros ->).
  destruct (put_spec k t _ W) as
    (_ & _ & [[_ E]|[_ [[_ E]|(_ & _ & k0 & t0 & _ & _ & E)]]]); rewrite E; [by left | |].
  - left. by rewrite lookup_insert_ne.
  - rewrite lookup_insert_ne by done.
    destruct (decide (k' = k0)) as [->|]; [right; apply lookup_delete_eq|].
    left. by rewrite lookup_delete_ne.
Qed.

Lemma get_kept `{Runtime} k d :
  kept (k_exporter k) (k_domain k) d (d <| fs_templates := (get k (fs_templates d)).2 |>).
Proof.
  split_and!; [|auto|].
  2:{ cbn. unfold get. repeat case_match; by simplify_eq. }
  intros k' Hk'. cbn. pose proof (get_spec k (fs_templates d)) as G.
  destruct (get k (fs_templates d)) as [[t|] c]; destruct G as (_ & _ & G); cbn.
  - left. by destruct G as (_ & -> & _).
  - rewrite G. left. apply lookup_delete_ne. by intros ->.
Qed.

Lemma sampling_set_kept e dom r d :
  0 ≤ dom < 2 ^ 32 → kept e dom d (d <| fs_sampling := sampling_set e dom r (fs_sampling d) |>).
Proof.
  intros Hd. split_and!; [auto | | done]. intros e' dom' Hd' Hne. cbn. unfold sampling_set, sampling_get.
  destruct (r =? 0); [auto|]. cbn. rewrite lookup_insert_ne.
  - destruct (65536 <? _); [right | left]; done.
  - intros E. apply samplingKey_inj_aux in E as [-> ->]; done.
Qed.

(** ** Properties *)

(** Template cache: whatever is put (templates of up to 512 fields), the cache
    stays within its cap and every entry consumes at least one byte per record; a
    usable template is found again under its key until its TTL runs out; every
    other key keeps its template, except that an insertion into a full cache may
    evict one entry, and that one is an oldest. *)
Theorem put_get_roundtrip `{Runtime} (k : templateKey) (t : templateRecord) (c : templateCache) :
  cache_wf c → Forall field_wf (tr_Fields t) → (length (tr_Fields t) ≤ 512)%nat →
  let c' := put k t c in
  cache_wf c' ∧
  (usable t → Now (tc_ticks c') - Now (tc_ticks c) ≤ tc_ttl c →
    (get k c').1 = Some (stored (Now (tc_ticks c)) t)) ∧
  (∀ k' t', k' ≠ k → tc_m c !! k' = Some t' →
    tc_m c' !! k' = Some t' ∨
    (tc_m c' !! k' = None ∧ cache_len c = tc_max c ∧
     ∀ k2 t2, tc_m c !! k2 = Some t2 → tr_added t' ≤ tr_added t2)).
Proof.
  intros W Hf Hl c'. split; [by apply put_wf|].
  destruct (put_spec k t c W) as
    (_ & Et & [[Hn E]|[Hu [[Hroom E]|(Hk & Hfull & k0 & t0 & Hk0 & Hmin & E)]]]);
    fold c' in Et, E; (split; [intros Hu' Hfresh|intros k' t' Hne Hk']).
  - done.
  - left. by rewrite E.
  - unfold get. rewrite E, lookup_insert_eq. simpl. rewrite Et.
    replace (tc_ttl c <? _) with false by (symmetry; apply Z.ltb_ge; lia). done.
  - left. by rewrite E, lookup_insert_ne.
  - unfold get. rewrite E, lookup_insert_eq. simpl. rewrite Et.
    replace (tc_ttl c <? _) with false by (symmetry; apply Z.ltb_ge; lia). done.
  - rewrite E, lookup_insert_ne by done. destruct (decide (k' = k0)) as [->|Hne0].
    + right. rewrite lookup_delete_eq. split_and!; try done. naive_solver.
    + left. by rewrite lookup_delete_ne.
Qed.

#[export] Instance demo_runtime : Runtime :=
  {| Now n := Z.of_nat n; Range _ m := map_to_list m; Range_perm _ _ := Permutation_refl _ |}.

Definition demo_template : templateRecord :=
  mkTemplate [mkField 8 4 0; mkField 12 4 0] false 0 false 0 0.

Lemma put_get_roundtrip_witness :
  (get (mkKey "10.0.0.1" 7 256) (put (mkKey "10.0.0.1" 7 256) demo_template (newTemplateCache 0 1))).1
    = Some (mkTemplate [mkField 8 4 0; mkField 12 4 0] false 0 false 8 0).
Proof.
  destruct (put_get_roundtrip (mkKey "10.0.0.1" 7 256) demo_template (newTemplateCache 0 1))
    as (_ & G & _).
  - apply newTemplateCache_wf.
  - repeat constructor; simpl; lia.
  - simpl; lia.
  - apply G; [right; vm_compute; discriminate | vm_compute; discriminate].
Defined.

(** Sampling state: a learned non-zero rate is read back for exactly its
    (exporter, domain) - no other pair collides with its map key - and the state
    never holds more than 65537 rates, all non-zero. *)
Theorem sampling_set_get (e : string) (d r : Z) (s : samplingState) :
  sampling_wf s → 1 ≤ r < 2 ^ 64 → 0 ≤ d < 2 ^ 32 →
  sampling_wf (sampling_set e d r s) ∧
  sampling_get e d (sampling_set e d r s) = r ∧
  (Z.of_nat (size (ss_m s)) ≤ 65536 →
   ∀ e' d', 0 ≤ d' < 2 ^ 32 → (e', d') ≠ (e, d) →
     sampling_get e' d' (sampling_set e d r s) = sampling_get e' d' s).
Proof.
  intros W Hr Hd. split; [apply sampling_set_wf; [lia | done]|].
  unfold sampling_set, sampling_get.
  replace (r =? 0) with false by (symmetry; apply Z.eqb_neq; lia). simpl.
  split; [by rewrite lookup_insert_eq|].
  intros Hs e' d' Hd' Hne.
  replace (65536 <? _) with false by (symmetry; apply Z.ltb_ge; lia).
  rewrite lookup_insert_ne; [done|]. intros E.
  apply samplingKey_inj_aux in E as [-> ->]; done.
Qed.

Lemma sampling_set_get_witness :
  sampling_get "10.0.0.1" 7 (sampling_set "10.0.0.1" 7 1000 newSamplingState) = 1000.
Proof.
  apply (sampling_set_get "10.0.0.1" 7 1000 newSamplingState); [|lia|lia].
  split; [vm_compute; discriminate | apply map_Forall_empty].
Defined.
