(* ===== verification/IE.v ===== *)
(** * internal/flow/ie.go: information elements of NetFlow v9 and IPFIX *)

From S2P Require Import Prelude GoTime FlowModel.
#[local] Open Scope Z_scope.

(** ** Element numbers *)

Definition ieInBytes := 1.
Definition ieInPackets := 2.
Definition ieProtocol := 4.
Definition ieTOS := 5.
Definition ieTCPFlags := 6.
Definition ieSrcPort := 7.
Definition ieIPv4Src := 8.
Definition ieIngressIf := 10.
Definition ieDstPort := 11.
Definition ieIPv4Dst := 12.
Definition ieEgressIf := 14.
Definition ieIPv4NextHop := 15.
Definition ieSrcAS := 16.
Definition ieDstAS := 17.
Definition ieLastSwitched := 21.
Definition ieFirstSwitched := 22.
Definition ieOutBytes := 23.
Definition ieOutPackets := 24.
Definition ieIPv6Src := 27.
Definition ieIPv6Dst := 28.
Definition ieSamplingIvl := 34.
Definition ieVLAN := 58.
Definition ieIPv6NextHop := 62.
Definition ieFlowStartSec := 150.
Definition ieFlowEndSec := 151.
Definition ieFlowStartMs := 152.
Definition ieFlowEndMs := 153.
Definition ieSamplerRandIvl := 50.
Definition ieSamplingPktIvl := 305.

(** ** Reduced-size integers *)

Definition shift_or (v : Z) (x : byte) : Z := Z.lor (u64 (Z.shiftl v 8)) (byteZ x).

Definition readUint (b : list byte) : Z :=
  match length b with
  | 1%nat => at_ b 0
  | 2%nat => be_uint b
  | 4%nat => be_uint b
  | 8%nat => be_uint b
  | 3%nat | 5%nat | 6%nat | 7%nat => foldl shift_or 0 b
  | _ => 0
  end.

(** ** The per-datagram clock *)

Record ieClock := mkClock { ck_boot : Time; ck_export : Time }.

Definition fromUptimeMS (c : ieClock) (ms : Z) : Time :=
  if IsZero (ck_boot c) then ck_export c
  else Add (ck_boot c) (i64 (i64 ms * Millisecond)).

(** ** Folding one element into a record *)

Definition isSamplingIE (id : Z) : bool :=
  (id =? ieSamplingIvl) || (id =? ieSamplerRandIvl) || (id =? ieSamplingPktIvl).

Definition applyIE (rec : FRecord) (id : Z) (val : list byte) (clk : ieClock) : FRecord * Z :=
  if id =? ieInBytes then (rec <| f_Bytes := u64 (f_Bytes rec + readUint val) |>, 0)
  else if id =? ieOutBytes then (rec <| f_Bytes := u64 (f_Bytes rec + readUint val) |>, 0)
  else if id =? ieInPackets then (rec <| f_Packets := u64 (f_Packets rec + readUint val) |>, 0)
  else if id =? ieOutPackets then (rec <| f_Packets := u64 (f_Packets rec + readUint val) |>, 0)
  else if id =? ieProtocol then (rec <| f_Transport := u8 (readUint val) |>, 0)
  else if id =? ieTOS then (rec <| f_ToS := u8 (readUint val) |>, 0)
  else if id =? ieTCPFlags then (rec <| f_TCPFlags := u8 (readUint val) |>, 0)
  else if id =? ieSrcPort then (rec <| f_SrcPort := u16 (readUint val) |>, 0)
  else if id =? ieDstPort then (rec <| f_DstPort := u16 (readUint val) |>, 0)
  else if id =? ieIngressIf then (rec <| f_InIf := u32 (readUint val) |>, 0)
  else if id =? ieEgressIf then (rec <| f_OutIf := u32 (readUint val) |>, 0)
  else if id =? ieVLAN then (rec <| f_VLAN := u16 (readUint val) |>, 0)
  else if id =? ieSrcAS then (rec <| f_SrcAS := u32 (readUint val) |>, 0)
  else if id =? ieDstAS then (rec <| f_DstAS := u32 (readUint val) |>, 0)
  else if id =? ieIPv4Src then
    (if len val =? 4 then rec <| f_SrcAddr := AddrFrom4 val |> else rec, 0)
  else if id =? ieIPv4Dst then
    (if len val =? 4 then rec <| f_DstAddr := AddrFrom4 val |> else rec, 0)
  else if id =? ieIPv4NextHop then
    (if len val =? 4 then rec <| f_NextHop := AddrFrom4 val |> else rec, 0)
  else if id =? ieIPv6Src then
    (if len val =? 16 then rec <| f_SrcAddr := AddrFrom16 val |> else rec, 0)
  else if id =? ieIPv6Dst then
    (if len val =? 16 then rec <| f_DstAddr := AddrFrom16 val |> else rec, 0)
  else if id =? ieIPv6NextHop then
    (if len val =? 16 then rec <| f_NextHop := AddrFrom16 val |> else rec, 0)
  else if id =? ieFirstSwitched then (rec <| f_Start := fromUptimeMS clk (readUint val) |>, 0)
  else if id =? ieLastSwitched then (rec <| f_End := fromUptimeMS clk (readUint val) |>, 0)
  else if id =? ieFlowStartSec then (rec <| f_Start := Unix (i64 (readUint val)) 0 |>, 0)
  else if id =? ieFlowEndSec then (rec <| f_End := Unix (i64 (readUint val)) 0 |>, 0)
  else if id =? ieFlowStartMs then (rec <| f_Start := UnixMilli (i64 (readUint val)) |>, 0)
  else if id =? ieFlowEndMs then (rec <| f_End := UnixMilli (i64 (readUint val)) |>, 0)
  else if isSamplingIE id then (rec, readUint val)
  else (rec, 0).

Definition optionsSamplingRate (id : Z) (val : list byte) : Z :=
  if isSamplingIE id then readUint val else 0.

(** ** Lemmas *)

Lemma shift_or_step v x : 0 ≤ v < 2 ^ 56 → shift_or v x = v * 256 + byteZ x.
Proof.
  intros Hv. unfold shift_or. pose proof (byteZ_range x) as Hx.
  rewrite Z.shiftl_mul_pow2 by lia. change (2 ^ 8) with 256. rewrite u64_small by lia.
  replace (v * 256) with (Z.shiftl v 8) by (rewrite Z.shiftl_mul_pow2; lia).
  rewrite lor_shiftl_add, Z.shiftl_mul_pow2 by lia. lia.
Qed.

Lemma shift_or_be k b v :
  0 ≤ v < 256 ^ k → 0 ≤ k → k + Z.of_nat (length b) ≤ 7 →
  foldl shift_or v b = be_acc v b.
Proof.
  revert k v. induction b as [|x b IH]; intros k v Hv Hk Hl; [done|].
  cbn [foldl be_acc length] in *.
  assert (256 ^ k ≤ 256 ^ 6) by (apply Z.pow_le_mono_r; lia).
  assert (256 ^ (k + 1) = 256 * 256 ^ k) by (rewrite Z.pow_add_r; lia).
  pose proof (byteZ_range x).
  rewrite shift_or_step by lia. apply (IH (k + 1)); lia.
Qed.

Lemma readUint_range b : 0 ≤ readUint b < 2 ^ 64.
Proof.
  assert (H8 : (length b ≤ 8)%nat → 0 ≤ be_uint b < 2 ^ 64).
  { intros Hl. pose proof (be_uint_range b).
    assert (256 ^ Z.of_nat (length b) ≤ 256 ^ 8) by (apply Z.pow_le_mono_r; lia). lia. }
  unfold readUint. pose proof (at_range b 0).
  pose proof (shift_or_be 0 b 0 ltac:(lia) ltac:(lia)) as Hs. fold (be_uint b) in Hs.
  destruct (length b) as [|[|[|[|[|[|[|[|[|n]]]]]]]]] eqn:E; try rewrite Hs by lia;
    try (apply H8; lia); lia.
Qed.

#[export] Hint Resolve readUint_range : go.

Lemma applyIE_wf rec id val clk :
  record_wf rec → record_wf (applyIE rec id val clk).1.
Proof.
  intros W. unfold applyIE. unfold record_wf in *.
  pose proof (u8_range (readUint val)). pose proof (u16_range (readUint val)).
  pose proof (u32_range (readUint val)).
  pose proof (u64_range (f_Bytes rec + readUint val)).
  pose proof (u64_range (f_Packets rec + readUint val)).
  go_cases; cbn; lia.
Qed.

Lemma applyIE_rate_range rec id val clk : 0 ≤ (applyIE rec id val clk).2 < 2 ^ 64.
Proof.
  unfold applyIE. pose proof (readUint_range val).
  go_cases; cbn; lia.
Qed.

Lemma optionsSamplingRate_range id val : 0 ≤ optionsSamplingRate id val < 2 ^ 64.
Proof.
  unfold optionsSamplingRate. pose proof (readUint_range val). destruct (isSamplingIE id); lia.
Qed.

(** The element never changes who exported the record or how it was decoded. *)
Lemma applyIE_identity rec id val clk :
  let r := (applyIE rec id val clk).1 in
  f_Exporter r = f_Exporter rec ∧ f_ObservationDomain r = f_ObservationDomain rec ∧
  f_Protocol r = f_Protocol rec ∧ f_ObservedAt r = f_ObservedAt rec ∧
  f_TenantID r = f_TenantID rec ∧ f_AgentID r = f_AgentID rec ∧
  f_SamplingRate r = f_SamplingRate rec.
Proof.
  unfold applyIE. go_cases; cbn; done.
Qed.

#[export] Hint Resolve applyIE_wf applyIE_rate_range optionsSamplingRate_range : go.

(** ** Properties *)

(** [readUint] is the big-endian value for encodings of 1 to 8 bytes - its
    shift-or loop agrees with the fixed-width reads - and 0 for every other length. *)
Theorem readUint_big_endian (b : list byte) :
  readUint b = if (1 <=? len b) && (len b <=? 8) then be_uint b else 0.
Proof.
  unfold readUint, len.
  pose proof (shift_or_be 0 b 0 ltac:(lia) ltac:(lia)) as Hs. fold (be_uint b) in Hs.
  destruct (length b) as [|[|[|[|[|[|[|[|[|n]]]]]]]]] eqn:E; try rewrite Hs by lia; try done.
  - by destruct b as [|x [|]].
  - rewrite (proj2 (Z.leb_gt _ 8)) by lia. by rewrite andb_false_r.
Qed.
