(* ===== verification/NetFlow5.v ===== *)
(** * internal/flow/netflow5.go: the NetFlow v5 decoder

    One datagram is a 24-byte header and [count] 48-byte records.  The decoder is
    proved total on its accepted inputs (header and record errors past the length
    check cannot happen) and to invert a reference encoder field by field. *)

From S2P Require Import Prelude GoTime Wire FlowModel.
#[local] Open Scope Z_scope.

Definition nf5HeaderLen : Z := 24.
Definition nf5RecordLen : Z := 48.
Definition nf5MaxCount : Z := 30.

Inductive nf5_err :=
| TooShort (n : Z)
| BadVersion (v : Z)
| BadCount (count : Z)
| Truncated (count n : Z)
| HeaderErr (e : wire_err)
| RecordErr (i : Z) (e : wire_err).

(** The field reads of one record and the record they build. *)
Definition nf5Record (exporter : string) (domain : Z) (now bootTime : Time) (rate : Z) : RM FRecord :=
  src ← Array4; dst ← Array4; nextHop ← Array4;
  inIf ← U16; outIf ← U16;
  packets ← U32; bytesCount ← U32;
  first ← U32; last ← U32;
  srcPort ← U16; dstPort ← U16;
  _ ← Skip 1;
  tcpFlags ← U8; transport ← U8; tos ← U8;
  srcAS ← U16; dstAS ← U16;
  mret {|
    f_TenantID := ""; f_AgentID := "";
    f_Exporter := exporter;
    f_ObservationDomain := domain;
    f_Protocol := ProtoNetFlow5;
    f_ObservedAt := now;
    f_Start := Add bootTime (first * Millisecond);
    f_End := Add bootTime (last * Millisecond);
    f_SrcAddr := AddrFrom4 src;
    f_DstAddr := AddrFrom4 dst;
    f_NextHop := AddrFrom4 nextHop;
    f_InIf := inIf; f_OutIf := outIf;
    f_VLAN := 0;
    f_Packets := packets; f_Bytes := bytesCount;
    f_SrcPort := srcPort; f_DstPort := dstPort;
    f_TCPFlags := tcpFlags; f_Transport := transport; f_ToS := tos;
    f_SrcAS := srcAS; f_DstAS := dstAS;
    f_SamplingRate := rate |}.

(** The record loop: [n] records are left, [i] is the loop variable. *)
Fixpoint nf5Loop (one : RM FRecord) (n : nat) (i : Z) (body : Reader) (out : list FRecord)
    : nf5_err + list FRecord :=
  match n with
  | O => inr out
  | S n =>
      let '(r, body) := Sub nf5RecordLen body in
      let '(rec, r) := one r in
      match Err r with
      | Some e => inl (RecordErr i e)
      | None => nf5Loop one n (i + 1) body (out ++ [rec])
      end
  end.

Definition decodeNetFlow5 (pkt : list byte) (exporter : string) (now : Time)
    : nf5_err + list FRecord :=
  if len pkt <? nf5HeaderLen then inl (TooShort (len pkt)) else
  let hdr := New (slice pkt 0 nf5HeaderLen) in
  let '(v, hdr) := U16 hdr in
  if negb (v =? 5) then inl (BadVersion v) else
  let '(count, hdr) := U16 hdr in
  if (count =? 0) || (nf5MaxCount <? count) then inl (BadCount count) else
  if len pkt <? nf5HeaderLen + count * nf5RecordLen then inl (Truncated count (len pkt)) else
  let '(sysUptimeMS, hdr) := U32 hdr in
  let '(unixSecs, hdr) := U32 hdr in
  let '(unixNsecs, hdr) := U32 hdr in
  let '(_, hdr) := Skip 4 hdr in
  let '(engineType, hdr) := U8 hdr in
  let '(engineID, hdr) := U8 hdr in
  let domain := Z.lor (Z.shiftl engineType 8) engineID in
  let '(sampling, hdr) := U16 hdr in
  match Err hdr with
  | Some e => inl (HeaderErr e)
  | None =>
      let rate := Z.land sampling 0x3FFF in
      let rate := if rate =? 0 then 1 else rate in
      let exportTime := Unix unixSecs unixNsecs in
      let bootTime := Add exportTime (- (sysUptimeMS * Millisecond)) in
      let body := New (slice pkt nf5HeaderLen (len pkt)) in
      nf5Loop (nf5Record exporter domain now bootTime rate) (Z.to_nat count) 0 body []
  end.

(** ** A reference encoder *)

Record nf5Header := mkNf5Header {
  h5_uptime : Z; h5_secs : Z; h5_nsecs : Z; h5_seq : Z;
  h5_engineType : Z; h5_engineID : Z; h5_sampling : Z
}.

Record nf5Flow := mkNf5Flow {
  w5_src : list byte; w5_dst : list byte; w5_nextHop : list byte;
  w5_in : Z; w5_out : Z; w5_packets : Z; w5_bytes : Z; w5_first : Z; w5_last : Z;
  w5_sport : Z; w5_dport : Z; w5_pad1 : Z; w5_flags : Z; w5_proto : Z; w5_tos : Z;
  w5_srcAS : Z; w5_dstAS : Z; w5_masks : Z; w5_pad2 : Z
}.

Definition header5_ok (h : nf5Header) : Prop :=
  0 ≤ h5_uptime h < 2 ^ 32 ∧ 0 ≤ h5_secs h < 2 ^ 32 ∧ 0 ≤ h5_nsecs h < 2 ^ 32 ∧
  0 ≤ h5_engineType h < 2 ^ 8 ∧ 0 ≤ h5_engineID h < 2 ^ 8 ∧ 0 ≤ h5_sampling h < 2 ^ 16.

Definition flow5_ok (w : nf5Flow) : Prop :=
  length (w5_src w) = 4%nat ∧ length (w5_dst w) = 4%nat ∧ length (w5_nextHop w) = 4%nat ∧
  0 ≤ w5_in w < 2 ^ 16 ∧ 0 ≤ w5_out w < 2 ^ 16 ∧
  0 ≤ w5_packets w < 2 ^ 32 ∧ 0 ≤ w5_bytes w < 2 ^ 32 ∧
  0 ≤ w5_first w < 2 ^ 32 ∧ 0 ≤ w5_last w < 2 ^ 32 ∧
  0 ≤ w5_sport w < 2 ^ 16 ∧ 0 ≤ w5_dport w < 2 ^ 16 ∧
  0 ≤ w5_flags w < 2 ^ 8 ∧ 0 ≤ w5_proto w < 2 ^ 8 ∧ 0 ≤ w5_tos w < 2 ^ 8 ∧
  0 ≤ w5_srcAS w < 2 ^ 16 ∧ 0 ≤ w5_dstAS w < 2 ^ 16.

Definition encodeTail5 (h : nf5Header) : list byte :=
  be_bytes 4 (h5_uptime h) ++ be_bytes 4 (h5_secs h) ++
  be_bytes 4 (h5_nsecs h) ++ be_bytes 4 (h5_seq h) ++ be_bytes 1 (h5_engineType h) ++
  be_bytes 1 (h5_engineID h) ++ be_bytes 2 (h5_sampling h).

Definition encodeHeader5 (count : Z) (h : nf5Header) : list byte :=
  be_bytes 2 5 ++ be_bytes 2 count ++ encodeTail5 h.

(** The fields the decoder reads (44 bytes), then masks and padding. *)
Definition encodeFields5 (w : nf5Flow) : list byte :=
  w5_src w ++ w5_dst w ++ w5_nextHop w ++ be_bytes 2 (w5_in w) ++ be_bytes 2 (w5_out w) ++
  be_bytes 4 (w5_packets w) ++ be_bytes 4 (w5_bytes w) ++ be_bytes 4 (w5_first w) ++
  be_bytes 4 (w5_last w) ++ be_bytes 2 (w5_sport w) ++ be_bytes 2 (w5_dport w) ++
  be_bytes 1 (w5_pad1 w) ++ be_bytes 1 (w5_flags w) ++ be_bytes 1 (w5_proto w) ++
  be_bytes 1 (w5_tos w) ++ be_bytes 2 (w5_srcAS w) ++ be_bytes 2 (w5_dstAS w).

Definition encodeFlow5 (w : nf5Flow) : list byte :=
  encodeFields5 w ++ be_bytes 2 (w5_masks w) ++ be_bytes 2 (w5_pad2 w).

Definition encode5 (h : nf5Header) (ws : list nf5Flow) : list byte :=
  encodeHeader5 (len ws) h ++ (ws ≫= encodeFlow5).

(** What a v5 flow means: uptimes are milliseconds after exporter boot, the domain
    is engine type and id, the low 14 sampling bits are the rate (0 = unsampled). *)
Definition meaning5 (exporter : string) (now : Time) (h : nf5Header) (w : nf5Flow) : FRecord :=
  let boot := Add (Unix (h5_secs h) (h5_nsecs h)) (- (h5_uptime h * Millisecond)) in
  {| f_TenantID := ""; f_AgentID := ""; f_Exporter := exporter;
     f_ObservationDomain := h5_engineType h * 256 + h5_engineID h;
     f_Protocol := ProtoNetFlow5; f_ObservedAt := now;
     f_Start := Add boot (w5_first w * Millisecond);
     f_End := Add boot (w5_last w * Millisecond);
     f_SrcAddr := Addr4 (w5_src w); f_DstAddr := Addr4 (w5_dst w);
     f_NextHop := Addr4 (w5_nextHop w);
     f_InIf := w5_in w; f_OutIf := w5_out w; f_VLAN := 0;
     f_Packets := w5_packets w; f_Bytes := w5_bytes w;
     f_SrcPort := w5_sport w; f_DstPort := w5_dport w;
     f_TCPFlags := w5_flags w; f_Transport := w5_proto w; f_ToS := w5_tos w;
     f_SrcAS := w5_srcAS w; f_DstAS := w5_dstAS w;
     f_SamplingRate :=
       if h5_sampling h mod 2 ^ 14 =? 0 then 1 else h5_sampling h mod 2 ^ 14 |}.

(** ** Lemmas *)

Lemma reads_nf5Record exporter domain now boot rate w :
  flow5_ok w →
  Reads (nf5Record exporter domain now boot rate) (encodeFields5 w)
    {| f_TenantID := ""; f_AgentID := ""; f_Exporter := exporter;
       f_ObservationDomain := domain; f_Protocol := ProtoNetFlow5; f_ObservedAt := now;
       f_Start := Add boot (w5_first w * Millisecond);
       f_End := Add boot (w5_last w * Millisecond);
       f_SrcAddr := Addr4 (w5_src w); f_DstAddr := Addr4 (w5_dst w);
       f_NextHop := Addr4 (w5_nextHop w);
       f_InIf := w5_in w; f_OutIf := w5_out w; f_VLAN := 0;
       f_Packets := w5_packets w; f_Bytes := w5_bytes w;
       f_SrcPort := w5_sport w; f_DstPort := w5_dport w;
       f_TCPFlags := w5_flags w; f_Transport := w5_proto w; f_ToS := w5_tos w;
       f_SrcAS := w5_srcAS w; f_DstAS := w5_dstAS w; f_SamplingRate := rate |}.
Proof.
  intros (H1 & H2 & H3 & H). unfold nf5Record, encodeFields5.
  do 16 (eapply reads_bind; [reads_prim|]).
  eapply reads_last; [reads_prim | done].
Qed.

Lemma len_encodeHeader5 c h : len (encodeHeader5 c h) = 24.
Proof. unfold encodeHeader5, encodeTail5. rewrite !len_app, !len_be_bytes. done. Qed.

Lemma len_encodeFlow5 w : flow5_ok w → len (encodeFlow5 w) = 48.
Proof.
  intros (H1 & H2 & H3 & _). unfold encodeFlow5, encodeFields5.
  rewrite !len_app, !len_be_bytes. unfold len. rewrite H1, H2, H3. done.
Qed.

Lemma len_flows5 ws : Forall flow5_ok ws → len (ws ≫= encodeFlow5) = 48 * len ws.
Proof.
  induction 1 as [|w ws Hw _ IH]; [done|].
  rewrite bind_cons, len_app, len_cons, IH, len_encodeFlow5 by done. lia.
Qed.

Lemma nf5Loop_encoded exporter domain now boot rate mean ws i body out extra :
  (∀ w, flow5_ok w →
    Reads (nf5Record exporter domain now boot rate) (encodeFields5 w) (mean w)) →
  Forall flow5_ok ws → wf body → view body = Some ((ws ≫= encodeFlow5) ++ extra) →
  nf5Loop (nf5Record exporter domain now boot rate) (length ws) i body out
    = inr (out ++ (mean <$> ws)).
Proof.
  intros Hm Hws. revert i body out. induction Hws as [|w ws Hw _ IH]; intros i body out W V.
  { simpl. by rewrite app_nil_r. }
  rewrite bind_cons, <- app_assoc in V. cbn [nf5Loop length].
  assert (Wc : wf (New (encodeFlow5 w))) by (apply New_wf; rewrite len_encodeFlow5; done).
  destruct (reads_Sub 48 (encodeFlow5 w) ltac:(by rewrite len_encodeFlow5) body _ W V)
    as (body' & E & W' & V').
  unfold nf5RecordLen. rewrite E. cbv beta iota.
  destruct (Hm w Hw (New (encodeFlow5 w)) _ Wc (New_view _)) as (r & Er & _ & Vr).
  rewrite Er. cbv beta iota. rewrite (view_Err _ _ Vr).
  rewrite (IH (i + 1) body' _ W' V'), <- app_assoc. done.
Qed.

Lemma meaning5_reads exporter now h w :
  header5_ok h → flow5_ok w →
  let s := Z.land (h5_sampling h) 0x3FFF in
  Reads (nf5Record exporter (Z.lor (Z.shiftl (h5_engineType h) 8) (h5_engineID h)) now
           (Add (Unix (h5_secs h) (h5_nsecs h)) (- (h5_uptime h * Millisecond)))
           (if s =? 0 then 1 else s))
    (encodeFields5 w) (meaning5 exporter now h w).
Proof.
  intros Hh Hw s. pose proof (reads_nf5Record exporter
    (Z.lor (Z.shiftl (h5_engineType h) 8) (h5_engineID h)) now
    (Add (Unix (h5_secs h) (h5_nsecs h)) (- (h5_uptime h * Millisecond)))
    (if s =? 0 then 1 else s) w Hw) as H.
  unfold meaning5. unfold header5_ok in Hh.
  rewrite lor_shiftl_add in * by lia.
  assert (Es : s = h5_sampling h mod 2 ^ 14).
  { unfold s. change 0x3FFF with (Z.ones 14). apply Z.land_ones. lia. }
  rewrite Es in *. exact H.
Qed.

Lemma decode5_encode5_aux exporter now h ws extra :
  header5_ok h → Forall flow5_ok ws → 1 ≤ len ws ≤ 30 → len extra < 2 ^ 61 →
  decodeNetFlow5 (encode5 h ws ++ extra) exporter now = inr (meaning5 exporter now h <$> ws).
Proof.
  intros Hh Hws Hn Hx. pose proof (len_flows5 ws Hws) as Hlen. pose proof (len_nonneg extra).
  set (pkt := encode5 h ws ++ extra).
  assert (Hpkt : len pkt = 24 + 48 * len ws + len extra).
  { unfold pkt, encode5. rewrite !len_app, len_encodeHeader5, Hlen. lia. }
  assert (Hh24 : slice pkt 0 24 = encodeHeader5 (len ws) h).
  { unfold pkt, encode5. rewrite <- app_assoc. rewrite <- (len_encodeHeader5 (len ws) h).
    apply slice_app_l. }
  assert (Hbody : slice pkt 24 (len pkt) = (ws ≫= encodeFlow5) ++ extra).
  { unfold pkt, encode5. rewrite <- app_assoc. rewrite <- (len_encodeHeader5 (len ws) h) at 1.
    apply slice_app_r. }
  unfold decodeNetFlow5, nf5HeaderLen, nf5RecordLen, nf5MaxCount.
  rewrite (proj2 (Z.ltb_ge _ _)) by lia. rewrite Hh24.
  pose proof (New_wf (encodeHeader5 (len ws) h) ltac:(rewrite len_encodeHeader5; lia)) as W.
  pose proof (New_view (encodeHeader5 (len ws) h)) as V. unfold encodeHeader5 in V at 2. unfold encodeTail5 in V.
  rewrite <- (app_nil_r (be_bytes 2 (h5_sampling h))) in V.
  unfold header5_ok in Hh.
  read_step (reads_U16 5 ltac:(lia)). cbn [negb Z.eqb Pos.eqb].
  read_step (reads_U16 (len ws) ltac:(lia)).
  rewrite (proj2 (Z.eqb_neq _ _)) by lia. rewrite (proj2 (Z.ltb_ge _ (len ws))) by lia.
  cbn [orb]. rewrite (proj2 (Z.ltb_ge (len pkt) _)) by lia.
  read_step (reads_U32 (h5_uptime h) ltac:(lia)).
  read_step (reads_U32 (h5_secs h) ltac:(lia)).
  read_step (reads_U32 (h5_nsecs h) ltac:(lia)).
  read_step (reads_Skip 4 (be_bytes 4 (h5_seq h)) ltac:(by rewrite len_be_bytes)).
  read_step (reads_U8 (h5_engineType h) ltac:(lia)).
  read_step (reads_U8 (h5_engineID h) ltac:(lia)).
  read_step (reads_U16 (h5_sampling h) ltac:(lia)).
  rewrite (view_Err _ _ ltac:(eassumption)). rewrite Hbody.
  replace (Z.to_nat (len ws)) with (length ws) by (unfold len; lia).
  rewrite (nf5Loop_encoded _ _ _ _ _ (meaning5 exporter now h) ws 0 _ [] extra); try done.
  - intros w Hw. by apply meaning5_reads.
  - apply New_wf. rewrite len_app, Hlen. lia.
Qed.

(** Every 24-byte prefix is a header and every 48-byte block is a flow. *)
Lemma split_header5 l :
  24 ≤ len l →
  ∃ v c h rest, 0 ≤ v < 2 ^ 16 ∧ 0 ≤ c < 2 ^ 16 ∧ header5_ok h ∧
    l = be_bytes 2 v ++ be_bytes 2 c ++ encodeTail5 h ++ rest.
Proof.
  unfold len. intros Hl.
  destruct (split_be 2 l) as (v & l1 & ? & ->); [lia|]. rewrite length_app, length_be_bytes in Hl.
  destruct (split_be 2 l1) as (c & l2 & ? & ->); [lia|]. rewrite length_app, length_be_bytes in Hl.
  destruct (split_be 4 l2) as (up & l3 & ? & ->); [lia|]. rewrite length_app, length_be_bytes in Hl.
  destruct (split_be 4 l3) as (se & l4 & ? & ->); [lia|]. rewrite length_app, length_be_bytes in Hl.
  destruct (split_be 4 l4) as (ns & l5 & ? & ->); [lia|]. rewrite length_app, length_be_bytes in Hl.
  destruct (split_be 4 l5) as (sq & l6 & ? & ->); [lia|]. rewrite length_app, length_be_bytes in Hl.
  destruct (split_be 1 l6) as (et & l7 & ? & ->); [lia|]. rewrite length_app, length_be_bytes in Hl.
  destruct (split_be 1 l7) as (ei & l8 & ? & ->); [lia|]. rewrite length_app, length_be_bytes in Hl.
  destruct (split_be 2 l8) as (sa & l9 & ? & ->); [lia|].
  exists v, c, (mkNf5Header up se ns sq et ei sa), l9.
  split_and!; [lia.. | split_and!; simpl; lia |].
  unfold encodeTail5. cbn [h5_uptime h5_secs h5_nsecs h5_seq h5_engineType h5_engineID
    h5_sampling]. by rewrite <- !app_assoc.
Qed.

Lemma split_addr (l : list byte) :
  (4 ≤ length l)%nat → ∃ a rest, length a = 4%nat ∧ l = a ++ rest.
Proof.
  intros. exists (firstn 4 l), (skipn 4 l). rewrite length_firstn, firstn_skipn.
  split; [lia | done].
Qed.

(** Split the [n]-byte integer [z] off [l]. *)
Ltac next n l z l' Hl :=
  destruct (split_be n l) as (z & l' & ? & ->); [lia|];
  rewrite length_app, length_be_bytes in Hl.

Lemma split_flow5 l : 48 ≤ len l → ∃ w rest, flow5_ok w ∧ l = encodeFlow5 w ++ rest.
Proof.
  unfold len. intros Hl.
  destruct (split_addr l) as (a1 & l1 & ? & ->); [lia|]. rewrite length_app in Hl.
  destruct (split_addr l1) as (a2 & l2 & ? & ->); [lia|]. rewrite length_app in Hl.
  destruct (split_addr l2) as (a3 & l3 & ? & ->); [lia|]. rewrite length_app in Hl.
  next 2%nat l3 b1 l4 Hl. next 2%nat l4 b2 l5 Hl. next 4%nat l5 b3 l6 Hl.
  next 4%nat l6 b4 l7 Hl. next 4%nat l7 b5 l8 Hl. next 4%nat l8 b6 l9 Hl.
  next 2%nat l9 b7 m1 Hl. next 2%nat m1 b8 m2 Hl. next 1%nat m2 b9 m3 Hl.
  next 1%nat m3 c1 m4 Hl. next 1%nat m4 c2 m5 Hl. next 1%nat m5 c3 m6 Hl.
  next 2%nat m6 c4 m7 Hl. next 2%nat m7 c5 m8 Hl. next 2%nat m8 c6 m9 Hl.
  next 2%nat m9 c7 n1 Hl.
  exists (mkNf5Flow a1 a2 a3 b1 b2 b3 b4 b5 b6 b7 b8 b9 c1 c2 c3 c4 c5 c6 c7), n1.
  split; [unfold flow5_ok; cbn; split_and!; (done || lia) |].
  unfold encodeFlow5, encodeFields5. cbn -[be_bytes]. by rewrite <- !app_assoc.
Qed.

Lemma split_flows5 n l :
  48 * Z.of_nat n ≤ len l →
  ∃ ws rest, length ws = n ∧ Forall flow5_ok ws ∧ l = (ws ≫= encodeFlow5) ++ rest.
Proof.
  revert l. induction n as [|n IH]; intros l Hl; [by exists [], l|].
  destruct (split_flow5 l) as (w & l' & Hw & ->); [lia|].
  rewrite len_app, len_encodeFlow5 in Hl by done.
  destruct (IH l') as (ws & rest & <- & Hws & ->); [lia|].
  exists (w :: ws), rest. split_and!; [done | by constructor |].
  by rewrite bind_cons, <- app_assoc.
Qed.

Definition is_datagram5 (pkt : list byte) (h : nf5Header) (ws : list nf5Flow) : Prop :=
  header5_ok h ∧ Forall flow5_ok ws ∧ 1 ≤ len ws ≤ 30 ∧ ∃ extra, pkt = encode5 h ws ++ extra.

(** Errors that the up-front checks rule out. *)
Definition internal_error (e : nf5_err) : bool :=
  match e with HeaderErr _ | RecordErr _ _ => true | _ => false end.

Lemma decode5_cases exporter now pkt :
  len pkt < 2 ^ 61 →
  (∃ e, decodeNetFlow5 pkt exporter now = inl e ∧ internal_error e = false) ∨
  (∃ h ws, is_datagram5 pkt h ws).
Proof.
  intros Hlen. destruct (len pkt <? 24) eqn:H24.
  { left. unfold decodeNetFlow5, nf5HeaderLen. rewrite H24. eauto. }
  zbool. destruct (split_header5 pkt H24) as (v & c & h & rest & Hv & Hc & Hh & Hpkt).
  set (hb := be_bytes 2 v ++ be_bytes 2 c ++ encodeTail5 h).
  assert (Hl : len hb = 24).
  { unfold hb, encodeTail5. by rewrite !len_app, !len_be_bytes. }
  assert (Hhb : pkt = hb ++ rest) by (unfold hb; rewrite <- !app_assoc; exact Hpkt).
  unfold decodeNetFlow5, nf5HeaderLen, nf5RecordLen, nf5MaxCount.
  rewrite (proj2 (Z.ltb_ge _ _)) by lia.
  replace (slice pkt 0 24) with hb by (rewrite Hhb, <- Hl; symmetry; apply slice_app_l).
  pose proof (New_wf hb ltac:(lia)) as W. pose proof (New_view hb) as V. unfold hb in V at 2.
  read_step (reads_U16 v Hv).
  destruct (v =? 5) eqn:Ev; cbn [negb]; [|left; eauto].
  read_step (reads_U16 c Hc).
  destruct ((c =? 0) || (30 <? c)) eqn:Ec; [left; eauto|].
  destruct (len pkt <? 24 + c * 48) eqn:Et; [left; eauto|].
  zbool. right. subst v.
  destruct (split_flows5 (Z.to_nat c) rest) as (ws & extra & Hn & Hws & ->).
  { rewrite Hhb, len_app in Et. lia. }
  exists h, ws. unfold is_datagram5. split_and!; try done; try (unfold len; lia).
  exists extra. unfold encode5. rewrite Hpkt, <- app_assoc.
  replace (len ws) with c by (unfold len; lia).
  unfold encodeHeader5. by rewrite <- !app_assoc.
Qed.

(** ** Properties *)

(** NetFlow v5 round trip: decoding the encoding of a header and 1 to 30 flows
    (with any trailing bytes) returns exactly their meanings, in order. *)
Theorem decode5_roundtrip (exporter : string) (now : Time) (h : nf5Header)
    (ws : list nf5Flow) (extra : list byte) :
  header5_ok h → Forall flow5_ok ws → 1 ≤ len ws ≤ 30 → len extra < 2 ^ 61 →
  decodeNetFlow5 (encode5 h ws ++ extra) exporter now = inr (meaning5 exporter now h <$> ws).
Proof. apply decode5_encode5_aux. Qed.

Definition demo_header5 : nf5Header := mkNf5Header 60000 1700000000 5 0 1 2 0x4064.
Definition demo_flow5 : nf5Flow :=
  mkNf5Flow (bytes [10;0;0;1]) (bytes [10;0;0;2]) (bytes [0;0;0;0]) 3 4 10 1500 1000 2000
    443 51515 0 0x18 6 0 64512 64513 0 0.

Lemma decode5_roundtrip_witness :
  decodeNetFlow5 (encode5 demo_header5 [demo_flow5] ++ []) "192.0.2.1" zero_time
    = inr [meaning5 "192.0.2.1" zero_time demo_header5 demo_flow5]
  ∧ f_SamplingRate (meaning5 "192.0.2.1" zero_time demo_header5 demo_flow5) = 100.
Proof.
  split; [|vm_compute; reflexivity].
  apply (decode5_roundtrip "192.0.2.1" zero_time demo_header5 [demo_flow5] []).
  - unfold header5_ok; cbn; lia.
  - repeat constructor; cbn; lia.
  - vm_compute; split; discriminate.
  - vm_compute; reflexivity.
Defined.

(** The decoder accepts exactly the v5 datagrams: it returns records precisely
    for encodings of a header and 1 to 30 flows, and on any other input fails with
    one of the up-front checks - a bounds error inside a header or record is
    impossible. *)
Theorem decode5_accepts (exporter : string) (now : Time) (pkt : list byte) :
  len pkt < 2 ^ 61 →
  match decodeNetFlow5 pkt exporter now with
  | inr recs => ∃ h ws, is_datagram5 pkt h ws ∧ recs = (meaning5 exporter now h <$> ws)
  | inl e => internal_error e = false ∧ ∀ h ws, ¬ is_datagram5 pkt h ws
  end.
Proof.
  intros Hlen.
  assert (Hok : ∀ h ws, is_datagram5 pkt h ws →
    decodeNetFlow5 pkt exporter now = inr (meaning5 exporter now h <$> ws)).
  { intros h ws (Hh & Hws & Hn & extra & ->). rewrite len_app in Hlen.
    pose proof (len_nonneg (encode5 h ws)). apply decode5_encode5_aux; auto with lia. }
  destruct (decode5_cases exporter now pkt Hlen) as [(e & E & He)|(h & ws & Hd)].
  - rewrite E. split; [done|]. intros h ws Hd. rewrite (Hok h ws Hd) in E. done.
  - rewrite (Hok h ws Hd). by exists h, ws.
Qed.

Lemma decode5_accepts_witness :
  match decodeNetFlow5 (bytes [0;9;0;1]) "192.0.2.1" zero_time with
  | inr recs => ∃ h ws, is_datagram5 (bytes [0;9;0;1]) h ws ∧
                  recs = (meaning5 "192.0.2.1" zero_time h <$> ws)
  | inl e => internal_error e = false ∧ ∀ h ws, ¬ is_datagram5 (bytes [0;9;0;1]) h ws
  end.
Proof.
  apply (decode5_accepts "192.0.2.1" zero_time (bytes [0;9;0;1])). vm_compute; reflexivity.
Defined.
