(* ===== verification/NetFlow9.v ===== *)
(** * internal/flow/netflow9.go: the NetFlow v9 decoder

    The flowset walk, the two template parsers and the data decoder, over the shared
    [flowState].  Loops of the source that run "while bytes remain" carry fuel and
    give [None] when it runs out; the fuel the callers pass (one more than the bytes
    at hand) is proved to be enough. *)

From S2P Require Import Prelude GoTime Wire FlowModel Templates IE.
#[local] Open Scope Z_scope.

Definition nf9HeaderLen : Z := 20.
Definition nf9MaxRecordsPerPacket : Z := 4096.

Inductive nf9_err :=
| N9TooShort (n : Z)
| N9BadVersion (v : Z)
| N9Header (e : wire_err)
| N9BadSetLength (setLen setOffset : Z)
| N9RecordBound
| N9Reader (e : wire_err).

(** ** Templates *)

(** [fc] field specs: (type, length) pairs. *)
Fixpoint readFields (fc : nat) : RM (list templateField) :=
  match fc with
  | O => mret []
  | S fc => id ← U16; l ← U16; fs ← readFields fc; mret (mkField id l 0 :: fs)
  end.

Section decoder.
Context `{Runtime}.

Definition put_template (k : templateKey) (t : templateRecord) (d : flowState) : flowState :=
  d <| fs_templates := put k t (fs_templates d) |>.

Fixpoint parseTemplates_loop (fuel : nat) (exporter : string) (domain : Z) (r : Reader)
    (d : flowState) : option flowState :=
  match fuel with
  | O => None
  | S fuel =>
      if Remaining r <? 4 then Some d else
      let '(tid, r) := U16 r in
      let '(fc, r) := U16 r in
      if (tid <? 256) || (fc <=? 0) || (512 <? fc) || (Remaining r <? fc * 4) then Some d else
      let '(fields, r) := readFields (Z.to_nat fc) r in
      match Err r with
      | Some _ => Some d
      | None =>
          parseTemplates_loop fuel exporter domain r
            (put_template (mkKey exporter domain tid) (mkTemplate fields false 0 false 0 0) d)
      end
  end.

Definition parseTemplates (b : list byte) (exporter : string) (domain : Z) (d : flowState)
    : option flowState :=
  parseTemplates_loop (S (length b)) exporter domain (New b) d.

Fixpoint parseOptionsTemplates_loop (fuel : nat) (exporter : string) (domain : Z) (r : Reader)
    (d : flowState) : option flowState :=
  match fuel with
  | O => None
  | S fuel =>
      if Remaining r <? 6 then Some d else
      let '(tid, r) := U16 r in
      let '(scopeBytes, r) := U16 r in
      let '(optionBytes, r) := U16 r in
      if (tid <? 256) || (scopeBytes <? 0) || (optionBytes <? 0) ||
         (Remaining r <? scopeBytes + optionBytes) || (scopeBytes + optionBytes =? 0) ||
         negb (Z.rem scopeBytes 4 =? 0) || negb (Z.rem optionBytes 4 =? 0) then Some d else
      let nScope := Z.quot scopeBytes 4 in
      let nOpt := Z.quot optionBytes 4 in
      if 512 <? nScope + nOpt then Some d else
      let '(fields, r) := readFields (Z.to_nat (nScope + nOpt)) r in
      match Err r with
      | Some _ => Some d
      | None =>
          parseOptionsTemplates_loop fuel exporter domain r
            (put_template (mkKey exporter domain tid) (mkTemplate fields true nScope false 0 0) d)
      end
  end.

Definition parseOptionsTemplates (b : list byte) (exporter : string) (domain : Z)
    (d : flowState) : option flowState :=
  parseOptionsTemplates_loop (S (length b)) exporter domain (New b) d.

(** ** Data *)

(** One field of an options row: (row, sampling state, exporterRate). *)
Definition optionField (exporter : string) (domain : Z) (st : Reader * samplingState * Z)
    (f : templateField) : Reader * samplingState * Z :=
  let '(row, ss, exporterRate) := st in
  let '(v, row) := ReadBytes (tf_Length f) row in
  let rate := optionsSamplingRate (tf_ID f) v in
  if 0 <? rate then (row, sampling_set exporter domain rate ss, rate) else (row, ss, exporterRate).

(** One field of a flow row: (row, record, inline rate). *)
Definition flowField (clk : ieClock) (st : Reader * FRecord * Z) (f : templateField)
    : Reader * FRecord * Z :=
  let '(row, rec, inline) := st in
  let '(v, row) := ReadBytes (tf_Length f) row in
  let '(rec, r) := applyIE rec (tf_ID f) v clk in
  (row, rec, if 0 <? r then r else inline).

(** What follows the field loop: inline rate and default times. *)
Definition finishRecord (clk : ieClock) (rec : FRecord) (inline : Z) : FRecord :=
  let rec := if 0 <? inline then rec <| f_SamplingRate := inline |> else rec in
  let rec := if IsZero (f_Start rec) then rec <| f_Start := ck_export clk |> else rec in
  if IsZero (f_End rec) then rec <| f_End := ck_export clk |> else rec.

Definition newRecord9 (exporter : string) (domain : Z) (now : Time) (exporterRate : Z) : FRecord :=
  zero_record <| f_Exporter := exporter |> <| f_ObservationDomain := domain |>
    <| f_Protocol := ProtoNetFlow9 |> <| f_ObservedAt := now |>
    <| f_SamplingRate := exporterRate |>.

Fixpoint decodeData_loop (fuel : nat) (tmpl : templateRecord) (width : Z) (exporter : string)
    (domain : Z) (now : Time) (clk : ieClock) (set : Reader) (n exporterRate : Z)
    (ss : samplingState) (out : list FRecord) : option (Z * samplingState * list FRecord) :=
  match fuel with
  | O => None
  | S fuel =>
      if (width <=? Remaining set) && (len out <? nf9MaxRecordsPerPacket) then
        let '(row, set) := Sub width set in
        let n := n + 1 in
        if tr_Options tmpl then
          let '(_, ss, exporterRate) :=
            foldl (optionField exporter domain) (row, ss, exporterRate) (tr_Fields tmpl) in
          decodeData_loop fuel tmpl width exporter domain now clk set n exporterRate ss out
        else
          let '(_, rec, inline) :=
            foldl (flowField clk) (row, newRecord9 exporter domain now exporterRate, 0)
              (tr_Fields tmpl) in
          decodeData_loop fuel tmpl width exporter domain now clk set n exporterRate ss
            (out ++ [finishRecord clk rec inline])
      else Some (n, ss, out)
  end.

(** Returns (n, templateMisses, state, out). *)
Definition decodeData (b : list byte) (tid : Z) (exporter : string) (domain : Z) (now : Time)
    (clk : ieClock) (d : flowState) (out : list FRecord)
    : option (Z * Z * flowState * list FRecord) :=
  let '(o, c) := get (mkKey exporter domain tid) (fs_templates d) in
  let d := d <| fs_templates := c |> in
  match o with
  | None => Some (0, 1, d, out)
  | Some tmpl =>
      let width := fixedWidth tmpl in
      if width <=? 0 then Some (0, 0, d, out) else
      let exporterRate := sampling_get exporter domain (fs_sampling d) in
      '(n, ss, out) ← decodeData_loop (S (length b)) tmpl width exporter domain now clk (New b) 0
                        exporterRate (fs_sampling d) out;
      Some (n, 0, d <| fs_sampling := ss |>, out)
  end.

(** ** The flowset walk *)

(** (records, templateMisses, error). *)
Definition result9 : Type := list FRecord * Z * option nf9_err.

Fixpoint decode_loop (fuel : nat) (exporter : string) (domain : Z) (now : Time) (clk : ieClock)
    (r : Reader) (d : flowState) (recs : list FRecord) (misses : Z)
    : option (result9 * flowState) :=
  match fuel with
  | O => None
  | S fuel =>
      if 4 <=? Remaining r then
        let setOffset := Offset r in
        let '(setID, r) := U16 r in
        let '(setLen, r) := U16 r in
        if (setLen <? 4) || (Remaining r <? setLen - 4)
        then Some (recs, misses, Some (N9BadSetLength setLen setOffset), d) else
        let '(body, r) := ReadBytes (setLen - 4) r in
        if setID =? 0 then
          d ← parseTemplates body exporter domain d;
          decode_loop fuel exporter domain now clk r d recs misses
        else if setID =? 1 then
          d ← parseOptionsTemplates body exporter domain d;
          decode_loop fuel exporter domain now clk r d recs misses
        else if 255 <? setID then
          '(n, miss, d, recs) ← decodeData body setID exporter domain now clk d recs;
          if nf9MaxRecordsPerPacket <? n
          then Some (recs, misses + miss, Some N9RecordBound, d)
          else decode_loop fuel exporter domain now clk r d recs (misses + miss)
        else decode_loop fuel exporter domain now clk r d recs misses
      else
        match Err r with
        | Some e => Some (recs, misses, Some (N9Reader e), d)
        | None => Some (recs, misses, None, d)
        end
  end.

Definition decode (pkt : list byte) (exporter : string) (now : Time) (d : flowState)
    : option (result9 * flowState) :=
  if len pkt <? nf9HeaderLen then Some ([], 0, Some (N9TooShort (len pkt)), d) else
  let '(v, r) := U16 (New pkt) in
  if negb (v =? 9) then Some ([], 0, Some (N9BadVersion v), d) else
  let '(_, r) := Skip 2 r in
  let '(sysUptimeMS, r) := U32 r in
  let '(unixSecs, r) := U32 r in
  let '(_, r) := Skip 4 r in
  let '(domain, r) := U32 r in
  match Err r with
  | Some e => Some ([], 0, Some (N9Header e), d)
  | None =>
      let export := Unix unixSecs 0 in
      let clk := mkClock (Add export (- (sysUptimeMS * Millisecond))) export in
      decode_loop (S (length pkt)) exporter domain now clk r d [] 0
  end.
End decoder.

(** ** Lemmas: field and row loops *)

#[export] Instance readFields_safe n : Safe (readFields n).
Proof. induction n; simpl; apply _. Qed.

Lemma readFields_spec n r :
  wf r →
  Forall field_wf (readFields n r).1 ∧ length (readFields n r).1 = n ∧
  wf (readFields n r).2 ∧ Remaining (readFields n r).2 ≤ Remaining r.
Proof.
  intros W. split_and!; [| | by apply safe | by apply safe_Remaining; [apply _|]].
  - revert r W. induction n as [|n IH]; intros r W; cbn [readFields]; [constructor|].
    rewrite !run_bind, run_ret. cbn [fst snd].
    destruct (U16_safe r W) as (W1 & _). destruct (U16_safe _ W1) as (W2 & _).
    constructor; [by apply U16_range | by apply IH].
  - revert r W. induction n as [|n IH]; intros r W; cbn [readFields]; [done|].
    rewrite !run_bind, run_ret. cbn [fst snd length]. f_equal. apply IH.
    by repeat apply U16_safe.
Qed.

(** A record a decoder of [proto] may emit for [exporter]/[domain] at [now]. *)
Definition emitted (proto exporter : string) (domain : Z) (now : Time) (rec : FRecord) : Prop :=
  record_wf rec ∧ f_Exporter rec = exporter ∧ f_ObservationDomain rec = domain ∧
  f_Protocol rec = proto ∧ f_ObservedAt rec = now.

Abbreviation good9 := (emitted ProtoNetFlow9).

(** What an options field leaves true of the state, for any property [P] that
    learning a rate preserves. *)
Lemma optionField_inv (P : samplingState → Prop) exporter domain fs st :
  (∀ r ss, 0 ≤ r < 2 ^ 64 → P ss → P (sampling_set exporter domain r ss)) →
  P st.1.2 → 0 ≤ st.2 < 2 ^ 64 →
  let st' := foldl (optionField exporter domain) st fs in
  P st'.1.2 ∧ 0 ≤ st'.2 < 2 ^ 64.
Proof.
  intros HP. revert st. induction fs as [|f fs IH]; intros [[row ss] rate] Hs Hr; [done|].
  cbn [foldl]. apply IH; unfold optionField; destruct (ReadBytes _ row) as [v row'];
    pose proof (optionsSamplingRate_range (tf_ID f) v);
    destruct (0 <? optionsSamplingRate _ _); cbn in *; auto.
Qed.

Lemma flowField_inv P clk fs st :
  (∀ rec id v, P rec → P (applyIE rec id v clk).1) →
  P st.1.2 → 0 ≤ st.2 < 2 ^ 64 →
  let st' := foldl (flowField clk) st fs in P st'.1.2 ∧ 0 ≤ st'.2 < 2 ^ 64.
Proof.
  intros HP. revert st. induction fs as [|f fs IH]; intros [[row rec] inl] Hs Hr; [done|].
  cbn [foldl]. apply IH; unfold flowField; destruct (ReadBytes _ row) as [v row'];
    pose proof (applyIE_rate_range rec (tf_ID f) v clk);
    pose proof (HP rec (tf_ID f) v Hs);
    destruct (applyIE rec (tf_ID f) v clk) as [rec' r']; cbn in *; [done|].
  destruct (0 <? r'); lia.
Qed.

Lemma emitted_applyIE proto exporter domain now rec id v clk :
  emitted proto exporter domain now rec →
  emitted proto exporter domain now (applyIE rec id v clk).1.
Proof.
  intros (W & He & Hd & Hp & Ho). pose proof (applyIE_identity rec id v clk) as I. cbv zeta in I.
  unfold emitted. destruct I as (-> & -> & -> & -> & _). split_and!; auto with go.
Qed.

Lemma finishRecord_emitted proto exporter domain now clk rec inline :
  emitted proto exporter domain now rec → 0 ≤ inline < 2 ^ 64 →
  emitted proto exporter domain now (finishRecord clk rec inline).
Proof.
  intros (W & He & Hd & Hp & Ho) Hi. unfold finishRecord, emitted, record_wf in *.
  repeat (destruct (_ : bool); cbn -[Z.pow] in *); split_and!; cbn -[Z.pow]; try done; lia.
Qed.

Lemma newRecord9_good exporter domain now rate :
  0 ≤ domain < 2 ^ 32 → 0 ≤ rate < 2 ^ 64 →
  good9 exporter domain now (newRecord9 exporter domain now rate).
Proof.
  intros Hd Hr. unfold emitted, record_wf, newRecord9. cbn -[Z.pow]. split_and!; try done; lia.
Qed.

(** What the data loop guarantees, and that its fuel is enough.  [P] is any property
    of the sampling state that learning a rate for this exporter preserves. *)
Lemma decodeData_loop_spec (P : samplingState → Prop) tmpl width exporter domain now clk
    fuel set n rate ss out :
  (∀ r ss, 0 ≤ r < 2 ^ 64 → P ss → P (sampling_set exporter domain r ss)) →
  0 < width → wf set → Remaining set < Z.of_nat fuel →
  0 ≤ domain < 2 ^ 32 → 0 ≤ rate < 2 ^ 64 → P ss →
  len out ≤ 4096 → Forall (good9 exporter domain now) out →
  ∃ n' ss' new,
    decodeData_loop fuel tmpl width exporter domain now clk set n rate ss out
      = Some (n', ss', out ++ new) ∧
    P ss' ∧ len (out ++ new) ≤ 4096 ∧ Forall (good9 exporter domain now) (out ++ new) ∧
    n ≤ n' ∧
    (if tr_Options tmpl then new = [] else ss' = ss ∧ n' = n + len new).
Proof.
  intros HP Hw W Hfuel Hd. revert set n rate ss out W Hfuel.
  induction fuel as [|fuel IH]; intros set n rate ss out W Hfuel Hr Hs Hlen Hgood.
  { pose proof (Remaining_nonneg _ W). lia. }
  cbn [decodeData_loop].
  destruct ((width <=? Remaining set) && (len out <? nf9MaxRecordsPerPacket)) eqn:Hc.
  2:{ exists n, ss, []. rewrite app_nil_r. split_and!; try done.
      destruct (tr_Options tmpl); [done|]. split; [done | unfold len; simpl; lia]. }
  zbool. unfold nf9MaxRecordsPerPacket in *.
  destruct (Sub_in width set W) as (l & l2 & set' & E & Hl & Wl & W' & _ & Hrem & _); [lia|].
  rewrite E. cbv beta iota zeta. destruct (tr_Options tmpl) eqn:Ho.
  - pose proof (optionField_inv P exporter domain (tr_Fields tmpl) (New l, ss, rate) HP Hs Hr)
      as Hinv.
    destruct (foldl _ _ _) as [[row ss1] rate1]. cbn in Hinv. destruct Hinv as [Hs1 Hr1].
    destruct (IH set' (n + 1) rate1 ss1 out W' ltac:(lia) Hr1 Hs1 Hlen Hgood)
      as (n' & ss' & new & Hres & H1 & H2 & H3 & H4 & H5).
    exists n', ss', new. split_and!; try done. lia.
  - pose proof (flowField_inv (good9 exporter domain now) clk (tr_Fields tmpl)
      (New l, newRecord9 exporter domain now rate, 0)
      (λ rec id v, emitted_applyIE ProtoNetFlow9 exporter domain now rec id v clk)
      (newRecord9_good exporter domain now rate Hd Hr) ltac:(cbn; lia)) as Hinv.
    destruct (foldl _ _ _) as [[row rec] inl]. cbn in Hinv. destruct Hinv as [Hg Hi].
    pose proof (finishRecord_emitted _ _ _ _ clk _ _ Hg Hi) as Hf.
    destruct (IH set' (n + 1) rate ss (out ++ [finishRecord clk rec inl]) W' ltac:(lia) Hr Hs)
      as (n' & ss' & new & Hres & H1 & H2 & H3 & H4 & -> & ->).
    { rewrite len_app. unfold len at 2. simpl. lia. }
    { apply Forall_app. auto. }
    exists (n + 1 + len new), ss, (finishRecord clk rec inl :: new).
    rewrite <- app_assoc in *. pose proof (len_nonneg new).
    split_and!; try done; rewrite ?len_cons; lia.
Qed.

(** ** Lemmas: sets *)

Section sets.
Context `{Runtime}.

(** One flowset moves the state from [d] to [d']. *)
Definition set_step (exporter : string) (domain : Z) (d d' : flowState) : Prop :=
  state_wf d' ∧ kept exporter domain d d'.

Lemma set_step_refl exporter domain d : state_wf d → set_step exporter domain d d.
Proof. split; [done | apply kept_refl]. Qed.

Lemma set_step_trans exporter domain d1 d2 d3 :
  set_step exporter domain d1 d2 → set_step exporter domain d2 d3 →
  set_step exporter domain d1 d3.
Proof. intros [_ K1] [W2 K2]. split; [done | by eapply kept_trans]. Qed.

Lemma put_template_step exporter domain tid t d :
  state_wf d → Forall field_wf (tr_Fields t) → (length (tr_Fields t) ≤ 512)%nat →
  set_step exporter domain d (put_template (mkKey exporter domain tid) t d).
Proof.
  intros [Wc Ws] Hf Hl. split; [split; cbn; [by apply put_wf | done]|].
  by apply (put_kept (mkKey exporter domain tid)).
Qed.

Lemma parseTemplates_loop_spec exporter domain fuel r d :
  wf r → Remaining r < Z.of_nat fuel → state_wf d →
  ∃ d', parseTemplates_loop fuel exporter domain r d = Some d' ∧ set_step exporter domain d d'.
Proof.
  revert r d. induction fuel as [|fuel IH]; intros r d W Hfuel Wd.
  { pose proof (Remaining_nonneg _ W). lia. }
  cbn [parseTemplates_loop].
  destruct (Remaining r <? 4) eqn:H4; [eauto using set_step_refl|]. zbool.
  in_step (U16_in r). in_step (U16_in r0).
  destruct (_ || _) eqn:Hbad; [eauto using set_step_refl|]. zbool.
  pose proof (readFields_spec (Z.to_nat z0) r1 W1) as (Hf & Hl & W' & Hrem).
  destruct (readFields (Z.to_nat z0) r1) as [fields r2]. cbn in *.
  destruct (Err r2); [eauto using set_step_refl|].
  destruct (IH r2 (put_template (mkKey exporter domain z)
    (mkTemplate fields false 0 false 0 0) d)) as (d' & E' & S'); [done | lia | |].
  { apply (put_template_step exporter domain); cbn; [done | done | lia]. }
  exists d'. split; [done|]. eapply set_step_trans; [|done].
  apply put_template_step; cbn; [done | done | lia].
Qed.

Lemma parseOptionsTemplates_loop_spec exporter domain fuel r d :
  wf r → Remaining r < Z.of_nat fuel → state_wf d →
  ∃ d', parseOptionsTemplates_loop fuel exporter domain r d = Some d' ∧
    set_step exporter domain d d'.
Proof.
  revert r d. induction fuel as [|fuel IH]; intros r d W Hfuel Wd.
  { pose proof (Remaining_nonneg _ W). lia. }
  cbn [parseOptionsTemplates_loop].
  destruct (Remaining r <? 6) eqn:H6; [eauto using set_step_refl|]. zbool.
  in_step (U16_in r). in_step (U16_in r0). in_step (U16_in r1).
  destruct (_ || _) eqn:Hbad; [eauto using set_step_refl|].
  destruct (512 <? _) eqn:H512; [eauto using set_step_refl|]. zbool.
  set (nf := Z.quot z0 4 + Z.quot z1 4) in *.
  pose proof (readFields_spec (Z.to_nat nf) r2 W2) as (Hf & Hl & W' & Hrem).
  destruct (readFields (Z.to_nat nf) r2) as [fields r3]. cbn in *.
  destruct (Err r3); [eauto using set_step_refl|].
  destruct (IH r3 (put_template (mkKey exporter domain z)
    (mkTemplate fields true (Z.quot z0 4) false 0 0) d)) as (d' & E' & S'); [done | lia | |].
  { apply (put_template_step exporter domain); cbn; [done | done | lia]. }
  exists d'. split; [done|]. eapply set_step_trans; [|done].
  apply put_template_step; cbn; [done | done | lia].
Qed.

Lemma body_wf b : len b < 2 ^ 62 → wf (New b) ∧ Remaining (New b) < Z.of_nat (S (length b)).
Proof.
  intros Hb. split; [by apply New_wf|]. unfold Remaining, New, len; cbn. lia.
Qed.

(** The rate of another (exporter, domain) in a sampling state, compared to [ss0]. *)
Definition ss_kept (exporter : string) (domain : Z) (d : flowState) (ss : samplingState) : Prop :=
  sampling_wf ss ∧ kept exporter domain d (d <| fs_sampling := ss |>).

Lemma ss_kept_set exporter domain d r ss :
  0 ≤ domain < 2 ^ 32 → 0 ≤ r < 2 ^ 64 →
  ss_kept exporter domain d ss → ss_kept exporter domain d (sampling_set exporter domain r ss).
Proof.
  intros Hd Hr [Ws K]. split; [by apply sampling_set_wf|].
  eapply kept_trans; [done|].
  exact (sampling_set_kept exporter domain r (d <| fs_sampling := ss |>) Hd).
Qed.

Lemma decodeData_spec b tid exporter domain now clk d out :
  len b < 2 ^ 62 → state_wf d → 0 ≤ domain < 2 ^ 32 →
  len out ≤ 4096 → Forall (good9 exporter domain now) out →
  ∃ n miss d' new, decodeData b tid exporter domain now clk d out
      = Some (n, miss, d', out ++ new) ∧
    set_step exporter domain d d' ∧ len (out ++ new) ≤ 4096 ∧
    Forall (good9 exporter domain now) (out ++ new) ∧ 0 ≤ miss ≤ 1 ∧ 0 ≤ n ∧
    (4096 < n → new = []).
Proof.
  intros Hb [Wc Ws] Hd Hlen Hgood. unfold decodeData.
  pose proof (get_wf (mkKey exporter domain tid) (fs_templates d)) as Hg.
  pose proof (get_kept (mkKey exporter domain tid) d) as Hk. cbn in Hk.
  destruct (get _ (fs_templates d)) as [o c]. cbn in Hk.
  destruct (Hg o c Wc eq_refl) as [Wc' Ht].
  set (d1 := d <| fs_templates := c |>) in *.
  assert (S1 : set_step exporter domain d d1) by (split; [split|]; done).
  assert (Hnil : ∀ n miss, 0 ≤ miss ≤ 1 → 0 ≤ n ≤ 0 →
    ∃ n0 miss0 d' new, Some (n, miss, d1, out) = Some (n0, miss0, d', out ++ new) ∧
    set_step exporter domain d d' ∧ len (out ++ new) ≤ 4096 ∧
    Forall (good9 exporter domain now) (out ++ new) ∧ 0 ≤ miss0 ≤ 1 ∧ 0 ≤ n0 ∧
    (4096 < n0 → new = [])).
  { intros n miss Hm Hn. exists n, miss, d1, []. rewrite app_nil_r. split_and!; try done; lia. }
  destruct o as [tmpl|]; [|by apply Hnil].
  destruct (fixedWidth tmpl <=? 0) eqn:Hw; [by apply Hnil|]. zbool.
  destruct (body_wf b Hb) as [Wb Hf].
  destruct (decodeData_loop_spec (ss_kept exporter domain d1) tmpl (fixedWidth tmpl) exporter domain
    now clk (S (length b)) (New b) 0 (sampling_get exporter domain (fs_sampling d1))
    (fs_sampling d1) out) as (n' & ss' & new & E & Hs & H2 & H3 & H4 & H5); try done.
  { intros r ss. by apply ss_kept_set. }
  { by apply sampling_get_range. }
  { split; [done|]. by apply (kept_refl exporter domain d1). }
  cbv zeta. rewrite E. cbn. exists n', 0, (d1 <| fs_sampling := ss' |>), new.
  destruct Hs as [Ws' K']. split_and!; try done; try lia.
  - split; [split; done|]. by eapply kept_trans; [apply S1|].
  - intros Hn. destruct (tr_Options tmpl); [done|]. destruct H5 as [_ ->].
    rewrite len_app in H2. pose proof (len_nonneg out). lia.
Qed.
End sets.

(** ** Lemmas: the whole datagram *)

(** Errors the length checks rule out. *)
Definition internal_err9 (e : option nf9_err) : bool :=
  match e with Some (N9Header _) | Some (N9Reader _) => true | _ => false end.

Section datagram.
Context `{Runtime}.

(** What a decoded datagram may be: the answer and the state change. *)
Definition outcome_ok (exporter : string) (domain : Z) (now : Time) (d : flowState)
    (o : result9 * flowState) : Prop :=
  let '(recs, misses, err, d') := o in
  set_step exporter domain d d' ∧ len recs ≤ 4096 ∧
  Forall (good9 exporter domain now) recs ∧ 0 ≤ misses ∧ internal_err9 err = false.

Lemma decode_loop_spec exporter domain now clk fuel r d0 d recs misses :
  0 ≤ domain < 2 ^ 32 → wf r → Err r = None → Remaining r < Z.of_nat fuel →
  set_step exporter domain d0 d → len recs ≤ 4096 →
  Forall (good9 exporter domain now) recs → 0 ≤ misses →
  ∃ o, decode_loop fuel exporter domain now clk r d recs misses = Some o ∧
    outcome_ok exporter domain now d0 o.
Proof.
  intros Hdom. revert r d recs misses.
  induction fuel as [|fuel IH]; intros r d recs misses W He Hfuel S0 Hlen Hgood Hm.
  { pose proof (Remaining_nonneg _ W). lia. }
  cbn [decode_loop]. destruct (4 <=? Remaining r) eqn:H4; zbool.
  2:{ rewrite He. eexists. split; [done|]. by split_and!. }
  in_step (U16_in r). in_step (U16_in r0).
  destruct ((z0 <? 4) || (Remaining r1 <? z0 - 4)) eqn:Hbad.
  { eexists. split; [done|]. by split_and!. }
  zbool.
  destruct (ReadBytes_in (z0 - 4) r1) as (body & l2 & r2 & E2 & Hl & W2 & He2 & Hr2 & _);
    [done | done | lia |].
  rewrite E2. cbv beta iota zeta. destruct S0 as [Wd K0].
  destruct (body_wf body ltac:(lia)) as [Wb Hf].
  destruct (z =? 0).
  { destruct (parseTemplates_loop_spec exporter domain _ _ d Wb Hf Wd) as (d1 & E1 & S1).
    unfold parseTemplates. rewrite E1. cbn. apply IH; try done; [lia|].
    by eapply set_step_trans; [split|]. }
  destruct (z =? 1).
  { destruct (parseOptionsTemplates_loop_spec exporter domain _ _ d Wb Hf Wd) as (d1 & E1 & S1).
    unfold parseOptionsTemplates. rewrite E1. cbn. apply IH; try done; [lia|].
    by eapply set_step_trans; [split|]. }
  destruct (255 <? z); [|apply IH; try done; lia].
  destruct (decodeData_spec body z exporter domain now clk d recs ltac:(lia) Wd Hdom Hlen Hgood)
    as (n & miss & d1 & new & E1 & S1 & Hlen1 & Hgood1 & Hmiss & Hn & _).
  rewrite E1. cbn.
  assert (set_step exporter domain d0 d1) by (by eapply set_step_trans; [split|]).
  destruct (nf9MaxRecordsPerPacket <? n).
  - eexists. split; [done|]. split_and!; try done. lia.
  - apply IH; try done; lia.
Qed.

Lemma decode_spec pkt exporter now d :
  len pkt < 2 ^ 62 → state_wf d →
  ∃ o domain, decode pkt exporter now d = Some o ∧ 0 ≤ domain < 2 ^ 32 ∧
    outcome_ok exporter domain now d o.
Proof.
  intros Hlen Wd. unfold decode, nf9HeaderLen.
  assert (Hearly : ∀ e, internal_err9 (Some e) = false →
    ∃ o domain, Some ([], 0, Some e, d) = Some o ∧ 0 ≤ domain < 2 ^ 32 ∧
    outcome_ok exporter domain now d o).
  { intros e He. eexists _, 0. split; [done|]. split; [lia|].
    split_and!; try done. by apply set_step_refl. }
  destruct (len pkt <? 20) eqn:H20; [by apply Hearly|]. zbool.
  assert (W : wf (New pkt)) by (by apply New_wf).
  assert (Hr0 : Remaining (New pkt) = len pkt) by (unfold Remaining, New; cbn; lia).
  in_step (U16_in (New pkt)).
  destruct (z =? 9); cbn [negb]; [|by apply Hearly].
  destruct (Skip_in 2 r) as (r1 & E1 & W1 & He1 & Hr1); [done | lia |].
  rewrite E1. cbv beta iota zeta.
  in_step (U32_in r1). in_step (U32_in r0).
  destruct (Skip_in 4 r2) as (r3 & E4 & W4 & He4 & Hr4); [done | lia |].
  rewrite E4. cbv beta iota zeta. in_step (U32_in r3).
  rewrite He3.
  destruct (decode_loop_spec exporter z2 now (mkClock (Add (Unix z1 0) (- (z0 * Millisecond)))
    (Unix z1 0)) (S (length pkt)) r4 d d [] 0) as (o & Eo & Ho); try done.
  - unfold len in *. lia.
  - by apply set_step_refl.
  - exists o, z2. split; [exact Eo|]. split; [lia | exact Ho].
Qed.
End datagram.

(** ** Reference meaning of a data set

    A fixed-width template cuts the set into rows of [width] bytes and each row into
    its fields, in order; every field is folded into the record. *)

Fixpoint cut (fs : list templateField) (row : list byte) : list (templateField * list byte) :=
  match fs with
  | [] => []
  | f :: fs =>
      (f, firstn (Z.to_nat (tf_Length f)) row) :: cut fs (skipn (Z.to_nat (tf_Length f)) row)
  end.

Fixpoint rows (fuel : nat) (w : Z) (b : list byte) : list (list byte) :=
  match fuel with
  | O => []
  | S fuel =>
      if len b <? w then []
      else firstn (Z.to_nat w) b :: rows fuel w (skipn (Z.to_nat w) b)
  end.

Definition apply_value (clk : ieClock) (st : FRecord * Z) (fv : templateField * list byte)
    : FRecord * Z :=
  let '(rec, r) := applyIE st.1 (tf_ID fv.1) fv.2 clk in
  (rec, if 0 <? r then r else st.2).

Definition row_record (clk : ieClock) (base : FRecord) (fs : list templateField) (row : list byte)
    : FRecord :=
  let st := foldl (apply_value clk) (base, 0) (cut fs row) in
  finishRecord clk st.1 st.2.

Definition total_length (fs : list templateField) : Z :=
  foldr (λ f n, tf_Length f + n) 0 fs.

Lemma total_length_nonneg fs : Forall field_wf fs → 0 ≤ total_length fs.
Proof.
  induction 1 as [|f fs Hf Hfs IH]; simpl; unfold field_wf in *; lia.
Qed.

Lemma measure_fixed fs v w :
  Forall field_wf fs → 0 ≤ w → w + 65536 * Z.of_nat (length fs) < 2 ^ 63 →
  let p := foldl (λ '(v, w) f,
      if tf_Length f =? 0xFFFF then (true, w) else (v, i64 (w + tf_Length f))) (v, w) fs in
  (v = true → p.1 = true) ∧ (p.1 = false → p.2 = w + total_length fs).
Proof.
  revert v w. induction fs as [|f fs IH]; intros v w Hf Hw Hb; [simpl; split; [done | lia]|].
  inversion Hf as [|? ? Hf1 Hf2]; subst. unfold field_wf in Hf1. cbn [length] in *.
  cbn [foldl total_length foldr]. destruct (tf_Length f =? 0xFFFF).
  - destruct (IH true w Hf2) as [I1 I2]; [lia | lia |]. cbv zeta in *.
    split; [by intros; apply I1|]. intros E. rewrite I1 in E; done.
  - rewrite i64_small by lia.
    destruct (IH v (w + tf_Length f) Hf2) as [I1 I2]; [lia | lia |]. cbv zeta in *.
    split; [done|]. intros E. rewrite I2 by done. unfold total_length. lia.
Qed.

Lemma fixedWidth_total t :
  template_wf t → 0 < fixedWidth t → fixedWidth t = total_length (tr_Fields t).
Proof.
  intros (Hf & Hl & Hm & _) Hw. unfold fixedWidth in *.
  destruct (tr_variable t) eqn:Hv; [lia|].
  destruct (measure_fixed (tr_Fields t) false 0 Hf) as [_ I]; [lia | lia |].
  cbv zeta in I. fold (measure (tr_Fields t)) in I. rewrite <- Hm in I. cbn in I.
  rewrite I; done.
Qed.

Lemma flowField_cut clk fs row rec inl l :
  Forall field_wf fs → wf row → view row = Some l → total_length fs ≤ len l →
  (foldl (flowField clk) (row, rec, inl) fs).1.2
    = (foldl (apply_value clk) (rec, inl) (cut fs l)).1 ∧
  (foldl (flowField clk) (row, rec, inl) fs).2
    = (foldl (apply_value clk) (rec, inl) (cut fs l)).2.
Proof.
  revert row rec inl l. induction fs as [|f fs IH]; intros row rec inl l Hf W V Hl; [done|].
  inversion Hf as [|? ? Hf1 Hf2]; subst. unfold field_wf in Hf1.
  pose proof (total_length_nonneg fs Hf2). cbn [total_length foldr] in Hl.
  fold (total_length fs) in Hl. cbn [foldl cut].
  destruct (ReadBytes_in (tf_Length f) row) as (v & l2 & row' & E & Hv & W' & _ & _ & V1 & V2).
  { done. } { by eapply view_Err. } { rewrite view_Remaining, V by done. cbn. lia. }
  rewrite V in V1. injection V1 as ->. rewrite len_app in Hl.
  assert (Hn : Z.to_nat (tf_Length f) = length v) by (unfold len in Hv; lia).
  rewrite Hn, take_app_length, drop_app_length.
  unfold flowField at 2 4. rewrite E. unfold apply_value at 2 4. cbn [fst snd].
  destruct (applyIE rec (tf_ID f) v clk) as [rec' r']. cbn [fst snd].
  apply IH; try done. lia.
Qed.

(** The data loop computes the reference rows, up to the record bound. *)
Lemma decodeData_loop_rows tmpl exporter domain now clk fuel set n rate ss out l :
  template_wf tmpl → 0 < fixedWidth tmpl → tr_Options tmpl = false →
  wf set → view set = Some l → len l < Z.of_nat fuel → len out ≤ 4096 →
  let new := firstn (4096 - length out)
    (row_record clk (newRecord9 exporter domain now rate) (tr_Fields tmpl)
       <$> rows fuel (fixedWidth tmpl) l) in
  decodeData_loop fuel tmpl (fixedWidth tmpl) exporter domain now clk set n rate ss out
    = Some (n + len new, ss, out ++ new).
Proof.
  intros Wt Hw Ho. pose proof (fixedWidth_total tmpl Wt Hw) as Ht. destruct Wt as (Hf & _).
  revert set n out l. induction fuel as [|fuel IH]; intros set n out l W V Hfuel Hlen.
  { pose proof (len_nonneg l). lia. }
  cbn [decodeData_loop rows]. rewrite view_Remaining, V by done. cbn [default from_option id].
  unfold nf9MaxRecordsPerPacket.
  destruct (Z.leb_spec (fixedWidth tmpl) (len l)) as [Hle|Hgt].
  2:{ cbn [andb]. rewrite (proj2 (Z.ltb_lt (len l) _)) by lia. rewrite fmap_nil, firstn_nil.
      rewrite app_nil_r. do 2 f_equal. f_equal. unfold len; simpl; lia. }
  rewrite (proj2 (Z.ltb_ge (len l) _)) by lia. cbn [andb]. rewrite fmap_cons.
  destruct (Z.ltb_spec (len out) 4096) as [Hlt|Hge].
  2:{ replace (4096 - length out)%nat with 0%nat by (unfold len in *; lia).
      cbn [firstn]. rewrite app_nil_r. do 2 f_equal. f_equal. unfold len; simpl; lia. }
  destruct (Sub_in (fixedWidth tmpl) set W) as (v & l2 & set' & E & Hv & Wv & W' & _ & _ & V1 & V2).
  { rewrite view_Remaining, V by done. cbn. lia. }
  rewrite V in V1. injection V1 as ->. rewrite len_app in *.
  assert (Hn : Z.to_nat (fixedWidth tmpl) = length v) by (unfold len in Hv; lia).
  rewrite Hn, take_app_length, drop_app_length.
  rewrite E, Ho. cbv beta iota zeta.
  destruct (flowField_cut clk (tr_Fields tmpl) (New v) (newRecord9 exporter domain now rate) 0 v)
    as [R1 R2]; try done; [lia|].
  destruct (foldl (flowField clk) _ _) as [[row rec] inl]. cbn [fst snd] in R1, R2.
  assert (Hrow : row_record clk (newRecord9 exporter domain now rate) (tr_Fields tmpl) v
    = finishRecord clk rec inl) by (unfold row_record; cbv zeta; by rewrite <- R1, <- R2).
  rewrite Hrow.
  replace (4096 - length out)%nat with (S (4096 - length (out ++ [finishRecord clk rec inl])))
    by (rewrite length_app; unfold len in *; simpl; lia).
  cbn [firstn]. rewrite (IH set' (n + 1) _ l2); try done.
  - rewrite len_cons, <- app_assoc.
    cbn [app]. by rewrite Z.add_assoc.
  - lia.
  - rewrite len_app. unfold len at 2. simpl. lia.
Qed.

(** ** Reference encoder for template sets *)

Definition encodeField (f : templateField) : list byte :=
  be_bytes 2 (tf_ID f) ++ be_bytes 2 (tf_Length f).

Definition encodeTemplate (t : Z * list templateField) : list byte :=
  be_bytes 2 t.1 ++ be_bytes 2 (len t.2) ++ (t.2 ≫= encodeField).

(** A field spec v9 can carry (no enterprise number). *)
Definition field9_ok (f : templateField) : Prop :=
  0 ≤ tf_ID f < 2 ^ 16 ∧ field_wf f ∧ tf_Enterprise f = 0.

Definition template9_ok (t : Z * list templateField) : Prop :=
  256 ≤ t.1 < 2 ^ 16 ∧ 1 ≤ len t.2 ≤ 512 ∧ Forall field9_ok t.2.

Lemma len_fields fs : len (fs ≫= encodeField) = 4 * len fs.
Proof.
  induction fs as [|f fs IH]; [done|].
  rewrite bind_cons, len_app, IH, len_cons. unfold encodeField.
  rewrite len_app, !len_be_bytes. lia.
Qed.

Lemma reads_readFields fs :
  Forall field9_ok fs → Reads (readFields (length fs)) (fs ≫= encodeField) fs.
Proof.
  induction 1 as [|f fs (Hid & Hlen & Hent) Hfs IH]; cbn [readFields length].
  - apply reads_ret.
  - rewrite bind_cons. unfold encodeField at 1. unfold field_wf in *. rewrite <- app_assoc.
    eapply reads_bind; [reads_prim|]. eapply reads_bind; [reads_prim|].
    eapply reads_last; [exact IH|]. destruct f as [i l e]. cbn in *. by subst.
Qed.

Section template_sets.
Context `{Runtime}.

Definition put_all (exporter : string) (domain : Z) (ts : list (Z * list templateField))
    (d : flowState) : flowState :=
  foldl (λ d t, put_template (mkKey exporter domain t.1)
                  (mkTemplate t.2 false 0 false 0 0) d) d ts.

Lemma parseTemplates_loop_encoded exporter domain ts fuel r d :
  Forall template9_ok ts → wf r → view r = Some (ts ≫= encodeTemplate) →
  Remaining r < Z.of_nat fuel →
  parseTemplates_loop fuel exporter domain r d = Some (put_all exporter domain ts d).
Proof.
  intros Hts. revert fuel r d. induction Hts as [|[tid fs] ts (Htid & Hn & Hfs) Hts IH];
    intros [|fuel] r d W V Hfuel; try (pose proof (Remaining_nonneg _ W); lia).
  { cbn [parseTemplates_loop]. rewrite view_Remaining, V by done. done. }
  cbn [fst snd] in Htid, Hn, Hfs. cbn [parseTemplates_loop].
  rewrite bind_cons in V. unfold encodeTemplate at 1 in V. cbn [fst snd] in V.
  rewrite <- !app_assoc in V.
  assert (Hlen : Remaining r = 4 + 4 * len fs + len (ts ≫= encodeTemplate)).
  { rewrite view_Remaining, V by done. cbn [default from_option id].
    rewrite !len_app, !len_be_bytes, len_fields. lia. }
  rewrite (proj2 (Z.ltb_ge _ 4)) by (pose proof (len_nonneg (ts ≫= encodeTemplate)); lia).
  read_step (reads_U16 tid ltac:(lia)). read_step (reads_U16 (len fs) ltac:(lia)).
  rewrite (proj2 (Z.ltb_ge tid _)), (proj2 (Z.leb_gt (len fs) _)),
    (proj2 (Z.ltb_ge _ (len fs))) by lia.
  rewrite view_Remaining, V by done. cbn [default from_option id orb].
  rewrite len_app, len_fields.
  rewrite (proj2 (Z.ltb_ge _ _)) by (pose proof (len_nonneg (ts ≫= encodeTemplate)); lia).
  replace (Z.to_nat (len fs)) with (length fs) by (unfold len; lia).
  destruct (reads_readFields fs Hfs _ _ W V) as (r3 & E3 & W3 & V3).
  rewrite E3. cbv beta iota. rewrite (view_Err _ _ V3).
  rewrite IH; [done | done | done |].
  rewrite view_Remaining, V3 by done. cbn [default from_option id]. lia.
Qed.
End template_sets.

(** ** Template and data in one datagram *)

Definition encodeHeader9 (count uptime secs seqno domain : Z) : list byte :=
  be_bytes 2 9 ++ be_bytes 2 count ++ be_bytes 4 uptime ++ be_bytes 4 secs ++
  be_bytes 4 seqno ++ be_bytes 4 domain.

Definition encodeSet (id : Z) (body : list byte) : list byte :=
  be_bytes 2 id ++ be_bytes 2 (4 + len body) ++ body.

Definition clock9 (uptime secs : Z) : ieClock :=
  mkClock (Add (Unix secs 0) (- (uptime * Millisecond))) (Unix secs 0).

(** A template whose data records have a fixed, positive width. *)
Definition fixed_fields (fs : list templateField) : Prop :=
  Forall (λ f, tf_Length f ≠ 0xFFFF) fs ∧ 0 < total_length fs.

Lemma measure_fixed_fields fs v w :
  Forall field_wf fs → Forall (λ f, tf_Length f ≠ 0xFFFF) fs → 0 ≤ w →
  w + 65536 * Z.of_nat (length fs) < 2 ^ 63 →
  foldl (λ '(v, w) f,
      if tf_Length f =? 0xFFFF then (true, w) else (v, i64 (w + tf_Length f))) (v, w) fs
  = (v, w + total_length fs).
Proof.
  revert w. induction fs as [|f fs IH]; intros w Hf Hx Hw Hb.
  { cbn. by rewrite Z.add_0_r. }
  inversion Hf as [|? ? Hf1 Hf2]; inversion Hx as [|? ? Hx1 Hx2]; subst.
  unfold field_wf in Hf1. cbn [length] in Hb. cbn [foldl total_length foldr].
  rewrite (proj2 (Z.eqb_neq _ _)) by done. rewrite i64_small by lia.
  rewrite IH by (done || lia). f_equal. unfold total_length. lia.
Qed.

Section one_datagram.
Context `{Runtime}.

Lemma decode_loop_set sid body rest fuel exporter domain now clk r d recs misses :
  0 ≤ sid < 2 ^ 16 → 4 + len body < 2 ^ 16 → wf r → view r = Some (encodeSet sid body ++ rest) →
  ∃ r', wf r' ∧ view r' = Some rest ∧
    decode_loop (S fuel) exporter domain now clk r d recs misses =
      (if sid =? 0 then
         d ← parseTemplates body exporter domain d;
         decode_loop fuel exporter domain now clk r' d recs misses
       else if sid =? 1 then
         d ← parseOptionsTemplates body exporter domain d;
         decode_loop fuel exporter domain now clk r' d recs misses
       else if 255 <? sid then
         '(n, miss, d, recs) ← decodeData body sid exporter domain now clk d recs;
         if nf9MaxRecordsPerPacket <? n
         then Some (recs, misses + miss, Some N9RecordBound, d)
         else decode_loop fuel exporter domain now clk r' d recs (misses + miss)
       else decode_loop fuel exporter domain now clk r' d recs misses).
Proof.
  intros Hid Hb W V. cbn [decode_loop]. pose proof (len_nonneg rest). pose proof (len_nonneg body).
  rewrite view_Remaining, V by done. cbn [default from_option Datatypes.id].
  rewrite len_app. unfold encodeSet at 1. rewrite !len_app, !len_be_bytes.
  rewrite (proj2 (Z.leb_le 4 _)) by lia.
  unfold encodeSet in V. rewrite <- !app_assoc in V.
  read_step (reads_U16 sid Hid). read_step (reads_U16 (4 + len body) ltac:(lia)).
  rewrite (proj2 (Z.ltb_ge (4 + len body) 4)) by lia.
  rewrite view_Remaining, V by done. cbn [default from_option Datatypes.id orb]. rewrite len_app.
  rewrite (proj2 (Z.ltb_ge _ _)) by lia.
  read_step (reads_ReadBytes (4 + len body - 4) body ltac:(lia)).
  eexists. split_and!; [eassumption.. | done].
Qed.

(** A usable template just put is what the next get returns, unless the clock
    jumps past the TTL in between. *)
Lemma put_template_get_usable k t d :
  state_wf d → usable t →
  let c := fs_templates d in
  (∀ n, (tc_ticks c < n ≤ tc_ticks c + 2)%nat → Now n - Now (tc_ticks c) ≤ tc_ttl c) →
  ∃ c', get k (fs_templates (put_template k t d)) = (Some (stored (Now (tc_ticks c)) t), c').
Proof.
  intros [Wc _] Hus c Hfresh. set (d1 := put_template k t d).
  assert (Hlook : tc_m (fs_templates d1) !! k = Some (stored (Now (tc_ticks c)) t)).
  { unfold d1, put_template. cbn. fold c.
    destruct (put_spec k t c Wc)
      as (_ & _ & [[Hu _]|[_ [[_ E]|(_ & _ & k0 & t1 & _ & _ & E)]]]); [by destruct Hu| |];
      rewrite E; apply lookup_insert_eq. }
  assert (Httl : tc_ttl (fs_templates d1) = tc_ttl c ∧
    (tc_ticks c < tc_ticks (fs_templates d1) ≤ tc_ticks c + 2)%nat).
  { unfold d1, put_template, put. cbn. fold c.
    assert (Hz : ((measure (tr_Fields t)).2 =? 0) && negb (measure (tr_Fields t)).1 = false).
    { destruct Hus as [-> | Hpos]; [apply andb_false_r|].
      by rewrite (proj2 (Z.eqb_neq _ 0)) by lia. }
    destruct (measure (tr_Fields t)) as [v w]. cbn in *. rewrite Hz.
    destruct (tc_m c !! _); [cbn; lia|].
    destruct (tc_max c <=? _); [|cbn; lia].
    unfold evictOldestLocked. cbn. destruct (oldest _) as [[? ?]|]; cbn; lia. }
  destruct Httl as [Ettl Hticks]. eexists. apply get_fresh; [exact Hlook|].
  rewrite Ettl. apply Hfresh. lia.
Qed.

Lemma put_template_get exporter domain tid fs d :
  state_wf d → template9_ok (tid, fs) → fixed_fields fs →
  let c := fs_templates d in
  let d1 := put_template (mkKey exporter domain tid) (mkTemplate fs false 0 false 0 0) d in
  (∀ n, (tc_ticks c < n ≤ tc_ticks c + 2)%nat → Now n - Now (tc_ticks c) ≤ tc_ttl c) →
  ∃ c', get (mkKey exporter domain tid) (fs_templates d1)
    = (Some (mkTemplate fs false 0 false (total_length fs) (Now (tc_ticks c))), c').
Proof.
  intros Wd (Htid & Hn & Hfs) [Hx Ht] c d1 Hfresh. cbn [fst snd] in *.
  assert (Hf : Forall field_wf fs) by (eapply Forall_impl; [exact Hfs|]; by intros ? (_ & ? & _)).
  assert (Hm : measure fs = (false, total_length fs)).
  { unfold measure. rewrite measure_fixed_fields; try done; unfold len in Hn; lia. }
  destruct (put_template_get_usable (mkKey exporter domain tid) (mkTemplate fs false 0 false 0 0) d
    Wd) as [c' E]; [right; cbn; rewrite Hm; cbn; lia | done |].
  exists c'. unfold d1. rewrite E. unfold stored. cbn. by rewrite Hm.
Qed.

Lemma decode_header9 count uptime secs seqno domain sets exporter now d :
  0 ≤ uptime < 2 ^ 32 → 0 ≤ secs < 2 ^ 32 → 0 ≤ domain < 2 ^ 32 → len sets < 2 ^ 61 →
  let pkt := encodeHeader9 count uptime secs seqno domain ++ sets in
  ∃ r, wf r ∧ view r = Some sets ∧
    decode pkt exporter now d =
    decode_loop (S (length pkt)) exporter domain now (clock9 uptime secs) r d [] 0.
Proof.
  intros Hu Hs Hd Hl pkt. pose proof (len_nonneg sets).
  assert (Hpkt : len pkt = 20 + len sets).
  { unfold pkt, encodeHeader9. rewrite !len_app, !len_be_bytes. lia. }
  unfold decode, nf9HeaderLen. rewrite (proj2 (Z.ltb_ge _ _)) by lia.
  pose proof (New_wf pkt ltac:(lia)) as W. pose proof (New_view pkt) as V.
  unfold pkt at 2 in V. unfold encodeHeader9 in V. rewrite <- !app_assoc in V.
  read_step (reads_U16 9 ltac:(lia)). cbn [negb Z.eqb Pos.eqb].
  read_step (reads_Skip 2 (be_bytes 2 count) ltac:(done)).
  read_step (reads_U32 uptime Hu). read_step (reads_U32 secs Hs).
  read_step (reads_Skip 4 (be_bytes 4 seqno) ltac:(done)).
  read_step (reads_U32 domain Hd). rewrite (view_Err _ _ V).
  eexists. split; [exact W|]. split; [exact V|]. reflexivity.
Qed.

(** A data set against the template just stored. *)
Lemma decodeData_stored exporter domain tid fs data now clk d :
  state_wf d → template9_ok (tid, fs) → fixed_fields fs → len data < 2 ^ 16 →
  (∀ n, (tc_ticks (fs_templates d) < n ≤ tc_ticks (fs_templates d) + 2)%nat →
    Now n - Now (tc_ticks (fs_templates d)) ≤ tc_ttl (fs_templates d)) →
  let new := firstn 4096 (row_record clk
    (newRecord9 exporter domain now (sampling_get exporter domain (fs_sampling d))) fs
    <$> rows (S (length data)) (total_length fs) data) in
  ∃ d', decodeData data tid exporter domain now clk
    (put_template (mkKey exporter domain tid) (mkTemplate fs false 0 false 0 0) d) []
    = Some (len new, 0, d', new).
Proof.
  intros Wd Ht Hx Hdata Hfresh new. pose proof (len_nonneg data).
  destruct (put_template_get exporter domain tid fs d Wd Ht Hx Hfresh) as [c' Eg].
  set (d1 := put_template _ _ d) in *. destruct Ht as (Htid & Hn & Hfs). cbn [fst snd] in Htid, Hn, Hfs.
  set (tmpl := mkTemplate fs false 0 false (total_length fs) (Now (tc_ticks (fs_templates d)))) in *.
  assert (Hw : fixedWidth tmpl = total_length fs) by done. destruct Hx as [Hx Hpos].
  assert (Wt : template_wf tmpl).
  { pose proof (get_wf (mkKey exporter domain tid) (fs_templates d1) (Some tmpl) c') as [_ I];
      [|done|by apply I].
    apply put_wf; [| |apply Wd]; cbn.
    - eapply Forall_impl; [exact Hfs|]. by intros ? (_ & ? & _).
    - unfold len in Hn. lia. }
  unfold decodeData. rewrite Eg. cbv zeta. rewrite Hw.
  rewrite (proj2 (Z.leb_gt (total_length fs) 0)) by lia.
  rewrite <- Hw.
  rewrite (decodeData_loop_rows tmpl exporter domain now clk _ (New data) 0 _ _ [] data Wt);
    [|lia | done | apply New_wf; lia | done | unfold len; lia | unfold len; cbn; lia].
  eexists. rewrite Hw. cbn [length]. rewrite Nat.sub_0_r, app_nil_l. reflexivity.
Qed.
End one_datagram.

(** ** Properties *)

(** For every datagram and every well-formed decoder state, v9 decoding
    returns (the fuel is enough); the cache stays within its cap with only usable
    templates of at most 512 fields; at most 4096 records come out, every integer
    field inside its Go type and stamped with this exporter and domain; templates
    and rates of other exporters or domains are never installed or changed; and a
    reader error past the explicit length checks is impossible. *)
Theorem nf9_decode_safe `{Runtime} (pkt : list byte) (exporter : string) (now : Time) (d : flowState) :
  len pkt < 2 ^ 62 → state_wf d →
  ∃ recs misses err d' domain,
    decode pkt exporter now d = Some (recs, misses, err, d') ∧
    state_wf d' ∧ kept exporter domain d d' ∧ 0 ≤ domain < 2 ^ 32 ∧
    len recs ≤ 4096 ∧ Forall (good9 exporter domain now) recs ∧ internal_err9 err = false.
Proof.
  intros Hlen Wd. destruct (decode_spec pkt exporter now d Hlen Wd)
    as ([[[recs misses] err] d'] & domain & E & Hdom & (S1 & K1) & Hl & Hg & Hm & He).
  exists recs, misses, err, d', domain. repeat (split; [done|]). done.
Qed.

Definition empty_state : flowState := mkFlowState (newTemplateCache 0 0) newSamplingState.

Lemma empty_state_wf : state_wf empty_state.
Proof.
  split; [apply newTemplateCache_wf|].
  split; [vm_compute; discriminate | apply map_Forall_empty].
Qed.

Lemma nf9_decode_safe_witness :
  ∃ recs misses err d' domain,
    decode (bytes [0;9;0;1]) "10.0.0.1" zero_time empty_state = Some (recs, misses, err, d') ∧
    state_wf d' ∧ kept "10.0.0.1" domain empty_state d' ∧ 0 ≤ domain < 2 ^ 32 ∧
    len recs ≤ 4096 ∧ Forall (good9 "10.0.0.1" domain zero_time) recs ∧ internal_err9 err = false.
Proof.
  apply (nf9_decode_safe (bytes [0;9;0;1]) "10.0.0.1" zero_time empty_state);
    [vm_compute; reflexivity | apply empty_state_wf].
Defined.

(** A datagram that carries a fixed-width template and then a data set for it
    decodes to exactly the reference rows of that set - cut into rows of the
    template's width, each row into its fields in order - in order and up to the
    4096-record bound, with no template miss and no error. *)
Theorem nf9_template_then_data `{Runtime} (exporter : string) (now : Time) (d : flowState)
    (count uptime secs seqno domain tid : Z) (fs : list templateField) (data : list byte) :
  state_wf d → 0 ≤ count < 2 ^ 16 → 0 ≤ uptime < 2 ^ 32 → 0 ≤ secs < 2 ^ 32 →
  0 ≤ domain < 2 ^ 32 → template9_ok (tid, fs) → fixed_fields fs → 4 + len data < 2 ^ 16 →
  (∀ n, (tc_ticks (fs_templates d) < n ≤ tc_ticks (fs_templates d) + 2)%nat →
    Now n - Now (tc_ticks (fs_templates d)) ≤ tc_ttl (fs_templates d)) →
  ∃ d', decode (encodeHeader9 count uptime secs seqno domain ++
                encodeSet 0 (encodeTemplate (tid, fs)) ++ encodeSet tid data) exporter now d
    = Some (firstn 4096 (row_record (clock9 uptime secs)
              (newRecord9 exporter domain now (sampling_get exporter domain (fs_sampling d))) fs
              <$> rows (S (length data)) (total_length fs) data), 0, None, d').
Proof.
  intros Wd Hc Hu Hs Hd Ht Hx Hdata Hfresh. pose proof Ht as (Htid & Hn & _). cbn [fst snd] in Htid, Hn.
  set (body := encodeTemplate (tid, fs)).
  assert (Htl : len body = 4 + 4 * len fs).
  { unfold body, encodeTemplate. cbn [fst snd]. rewrite !len_app, !len_be_bytes, len_fields. lia. }
  assert (Hsl : ∀ i b, len (encodeSet i b) = 4 + len b).
  { intros. unfold encodeSet. rewrite !len_app, !len_be_bytes. lia. }
  pose proof (len_nonneg data).
  destruct (decode_header9 count uptime secs seqno domain (encodeSet 0 body ++ encodeSet tid data)
    exporter now d Hu Hs Hd) as (r & W & V & ->); [rewrite len_app, !Hsl; lia|].
  set (pkt := _ ++ encodeSet 0 body ++ encodeSet tid data). set (clk := clock9 uptime secs).
  assert (exists fuel, length pkt = S (S fuel)) as [fuel ->].
  { assert (8 ≤ len pkt) by (unfold pkt; rewrite !len_app, !Hsl; pose proof (len_nonneg (encodeHeader9
      count uptime secs seqno domain)); lia). exists (length pkt - 2)%nat. unfold len in *. lia. }
  destruct (decode_loop_set 0 body (encodeSet tid data) (S (S fuel)) exporter domain now clk r d [] 0)
    as (r1 & W1 & V1 & ->); [lia | lia | done | done |].
  cbn [Z.eqb]. unfold parseTemplates.
  rewrite (parseTemplates_loop_encoded exporter domain [(tid, fs)]);
    [|by apply Forall_singleton | apply New_wf; lia | by rewrite New_view, bind_cons, app_nil_r
     | unfold Remaining, New, len; cbn; lia].
  cbn [mbind option_bind put_all foldl fst snd].
  rewrite <- (app_nil_r (encodeSet tid data)) in V1.
  destruct (decode_loop_set tid data [] (S fuel) exporter domain now clk r1
    (put_template (mkKey exporter domain tid) (mkTemplate fs false 0 false 0 0) d) [] 0)
    as (r2 & W2 & V2 & ->); [lia | lia | done | done |].
  rewrite (proj2 (Z.eqb_neq tid 0)), (proj2 (Z.eqb_neq tid 1)), (proj2 (Z.ltb_lt 255 tid)) by lia.
  destruct (decodeData_stored exporter domain tid fs data now clk d Wd Ht Hx ltac:(lia) Hfresh)
    as [d' ->]. cbn [mbind option_bind]. unfold nf9MaxRecordsPerPacket.
  rewrite (proj2 (Z.ltb_ge 4096 _)) by (unfold len; rewrite length_firstn; lia).
  cbn [decode_loop]. rewrite view_Remaining, V2 by done.
  cbn [default from_option Datatypes.id len length Z.of_nat Z.leb Z.compare].
  rewrite (view_Err _ _ V2). eexists. reflexivity.
Qed.

Definition demo_fields : list templateField :=
  [mkField ieSrcPort 2 0; mkField ieInBytes 4 0].

Lemma nf9_template_then_data_witness :
  ∃ d', decode
      (encodeHeader9 2 1000 1700000000 1 7 ++ encodeSet 0 (encodeTemplate (256, demo_fields)) ++
       encodeSet 256 (bytes [0;80;0;0;1;0; 1;187;0;0;2;0; 0])) "10.0.0.1" zero_time empty_state
    = Some (firstn 4096 (row_record (clock9 1000 1700000000)
              (newRecord9 "10.0.0.1" 7 zero_time
                 (sampling_get "10.0.0.1" 7 (fs_sampling empty_state))) demo_fields
              <$> rows 14 (total_length demo_fields) (bytes [0;80;0;0;1;0; 1;187;0;0;2;0; 0])),
            0, None, d').
Proof.
  apply (nf9_template_then_data (H := demo_runtime) "10.0.0.1" zero_time empty_state 2 1000 1700000000 1 7 256
    demo_fields (bytes [0;80;0;0;1;0; 1;187;0;0;2;0; 0])).
  - apply empty_state_wf.
  - lia.
  - lia.
  - lia.
  - lia.
  - split; [cbn; lia|]. split; [vm_compute; split; discriminate|].
    repeat (apply List.Forall_cons || apply List.Forall_nil);
      split_and!; unfold field_wf; cbn; try lia; done.
  - split; [|vm_compute; reflexivity].
    repeat (apply List.Forall_cons || apply List.Forall_nil); cbn; lia.
  - vm_compute; reflexivity.
  - intros n Hn. change (Z.of_nat n - 0 ≤ 1800000000000). change (0 < n ≤ 2)%nat in Hn. lia.
Defined.
