(* ===== verification/Ipfix.v ===== *)
(** * internal/flow/ipfix.go: the IPFIX (RFC 7011) decoder

    Same state as v9 ([flowState], shared with it), with enterprise elements and
    variable-length fields.  [split_row] is the reference meaning of one data record
    on the bytes that remain; the decoder's reader-based loop is proved to follow it
    and to read back every message of the reference encoder. *)

From S2P Require Import Prelude GoTime Wire FlowModel Templates IE NetFlow9.
#[local] Open Scope Z_scope.

Definition ipfixHeaderLen : Z := 16.
Definition ipfixMaxRecordsPerPacket : Z := 4096.

Inductive ipfix_err :=
| IxTooShort (n : Z)
| IxBadVersion (v : Z)
| IxBadMessageLength (msgLen have : Z)
| IxHeader (e : wire_err)
| IxBadSetLength (setLen setOffset : Z)
| IxReader (e : wire_err).

(** [fc] field specs; [None] is the early return on a truncated spec. *)
Fixpoint readSpecs (fc : nat) (r : Reader) : option (list templateField) * Reader :=
  match fc with
  | O => (Some [], r)
  | S fc =>
      if Remaining r <? 4 then (None, r) else
      let '(typ, r) := U16 r in
      let '(length, r) := U16 r in
      let id := Z.land typ 0x7FFF in
      if negb (Z.land typ 0x8000 =? 0) then
        if Remaining r <? 4 then (None, r) else
        let '(ent, r) := U32 r in
        let '(fs, r) := readSpecs fc r in ((mkField id length ent ::.) <$> fs, r)
      else
        let '(fs, r) := readSpecs fc r in ((mkField id length 0 ::.) <$> fs, r)
  end.

Section decoder.
Context `{Runtime}.

Fixpoint parseTemplates_loop (fuel : nat) (exporter : string) (domain : Z) (options : bool)
    (r : Reader) (d : flowState) : option flowState :=
  match fuel with
  | O => None
  | S fuel =>
      let hdr := if options then 6 else 4 in
      if Remaining r <? hdr then Some d else
      let '(tid, r) := U16 r in
      let '(fc, r) := U16 r in
      let '(scope, r) := if options then U16 r else (0, r) in
      if (tid <? 256) || (fc <=? 0) || (512 <? fc) || (scope <? 0) || (fc <? scope)
      then Some d else
      match readSpecs (Z.to_nat fc) r with
      | (None, _) => Some d
      | (Some fields, r) =>
          match Err r with
          | Some _ => Some d
          | None =>
              parseTemplates_loop fuel exporter domain options r
                (put_template (mkKey exporter domain tid)
                   (mkTemplate fields options scope false 0 0) d)
          end
      end
  end.

Definition parseTemplates (b : list byte) (exporter : string) (domain : Z) (options : bool)
    (d : flowState) : option flowState :=
  parseTemplates_loop (S (length b)) exporter domain options (New b) d.

(** The length of the next value; [None] is [bad = true]. *)
Definition fieldLen (f : templateField) (set : Reader) : option Z * Reader :=
  if tf_Length f =? 0xFFFF then
    if Empty set then (None, set) else
    let '(flen, set) := U8 set in
    if flen =? 255 then
      if Remaining set <? 2 then (None, set) else
      let '(flen, set) := U16 set in (Some flen, set)
    else (Some flen, set)
  else (Some (tf_Length f), set).

(** What the field loop carries: the set reader, the sampling state, exporterRate,
    the record and the inline rate. *)
Record rowState := mkRow {
  rw_set : Reader; rw_ss : samplingState; rw_rate : Z; rw_rec : FRecord; rw_inline : Z }.

(** The loop over the template's fields; the flag is [bad]. *)
Fixpoint rowFields (options : bool) (exporter : string) (domain : Z) (clk : ieClock)
    (fs : list templateField) (st : rowState) : bool * rowState :=
  match fs with
  | [] => (false, st)
  | f :: fs =>
      match fieldLen f (rw_set st) with
      | (None, set) => (true, mkRow set (rw_ss st) (rw_rate st) (rw_rec st) (rw_inline st))
      | (Some flen, set) =>
          if Remaining set <? flen
          then (true, mkRow set (rw_ss st) (rw_rate st) (rw_rec st) (rw_inline st))
          else
            let '(val, set) := ReadBytes flen set in
            if negb (tf_Enterprise f =? 0) then
              rowFields options exporter domain clk fs
                (mkRow set (rw_ss st) (rw_rate st) (rw_rec st) (rw_inline st))
            else if options then
              let rate := optionsSamplingRate (tf_ID f) val in
              if 0 <? rate then
                rowFields options exporter domain clk fs
                  (mkRow set (sampling_set exporter domain rate (rw_ss st)) rate (rw_rec st)
                     (rw_inline st))
              else
                rowFields options exporter domain clk fs
                  (mkRow set (rw_ss st) (rw_rate st) (rw_rec st) (rw_inline st))
            else
              let '(rec, r) := applyIE (rw_rec st) (tf_ID f) val clk in
              rowFields options exporter domain clk fs
                (mkRow set (rw_ss st) (rw_rate st) rec (if 0 <? r then r else rw_inline st))
      end
  end.

Definition newRecordX (exporter : string) (domain : Z) (now : Time) (exporterRate : Z) : FRecord :=
  zero_record <| f_Exporter := exporter |> <| f_ObservationDomain := domain |>
    <| f_Protocol := ProtoIPFIX |> <| f_ObservedAt := now |>
    <| f_SamplingRate := exporterRate |>.

Fixpoint decodeData_loop (fuel : nat) (tmpl : templateRecord) (exporter : string) (domain : Z)
    (now : Time) (clk : ieClock) (set : Reader) (exporterRate : Z) (ss : samplingState)
    (out : list FRecord) : option (samplingState * list FRecord) :=
  match fuel with
  | O => None
  | S fuel =>
      if negb (len out <? ipfixMaxRecordsPerPacket) then Some (ss, out) else
      let minW := fixedWidth tmpl in
      if (0 <? minW) && (Remaining set <? minW) then Some (ss, out) else
      if Empty set || (Remaining set <? len (tr_Fields tmpl)) then Some (ss, out) else
      let before := Remaining set in
      let '(bad, st) :=
        rowFields (tr_Options tmpl) exporter domain clk (tr_Fields tmpl)
          (mkRow set ss exporterRate (newRecordX exporter domain now exporterRate) 0) in
      if bad then Some (rw_ss st, out) else
      if Remaining (rw_set st) =? before then Some (rw_ss st, out) else
      if tr_Options tmpl then
        decodeData_loop fuel tmpl exporter domain now clk (rw_set st) (rw_rate st) (rw_ss st) out
      else
        decodeData_loop fuel tmpl exporter domain now clk (rw_set st) (rw_rate st) (rw_ss st)
          (out ++ [finishRecord clk (rw_rec st) (rw_inline st)])
  end.

(** Returns (templateMisses, state, out). *)
Definition decodeData (b : list byte) (tid : Z) (exporter : string) (domain : Z) (now : Time)
    (clk : ieClock) (d : flowState) (out : list FRecord)
    : option (Z * flowState * list FRecord) :=
  let '(o, c) := get (mkKey exporter domain tid) (fs_templates d) in
  let d := d <| fs_templates := c |> in
  match o with
  | None => Some (1, d, out)
  | Some tmpl =>
      let exporterRate := sampling_get exporter domain (fs_sampling d) in
      '(ss, out) ← decodeData_loop (S (length b)) tmpl exporter domain now clk (New b)
                     exporterRate (fs_sampling d) out;
      Some (0, d <| fs_sampling := ss |>, out)
  end.

Definition resultX : Type := list FRecord * Z * option ipfix_err.

Fixpoint decode_loop (fuel : nat) (exporter : string) (domain : Z) (now : Time) (clk : ieClock)
    (msg : Reader) (d : flowState) (recs : list FRecord) (misses : Z)
    : option (resultX * flowState) :=
  match fuel with
  | O => None
  | S fuel =>
      if 4 <=? Remaining msg then
        let setOffset := ipfixHeaderLen + Offset msg in
        let '(setID, msg) := U16 msg in
        let '(setLen, msg) := U16 msg in
        if (setLen <? 4) || (Remaining msg <? setLen - 4)
        then Some (recs, misses, Some (IxBadSetLength setLen setOffset), d) else
        let '(body, msg) := ReadBytes (setLen - 4) msg in
        if setID =? 2 then
          d ← parseTemplates body exporter domain false d;
          decode_loop fuel exporter domain now clk msg d recs misses
        else if setID =? 3 then
          d ← parseTemplates body exporter domain true d;
          decode_loop fuel exporter domain now clk msg d recs misses
        else if 256 <=? setID then
          '(miss, d, recs) ← decodeData body setID exporter domain now clk d recs;
          decode_loop fuel exporter domain now clk msg d recs (misses + miss)
        else decode_loop fuel exporter domain now clk msg d recs misses
      else
        match Err msg with
        | Some e => Some (recs, misses, Some (IxReader e), d)
        | None => Some (recs, misses, None, d)
        end
  end.

Definition decode (pkt : list byte) (exporter : string) (now : Time) (d : flowState)
    : option (resultX * flowState) :=
  if len pkt <? ipfixHeaderLen then Some ([], 0, Some (IxTooShort (len pkt)), d) else
  let '(v, r) := U16 (New pkt) in
  if negb (v =? 10) then Some ([], 0, Some (IxBadVersion v), d) else
  let '(msgLen, r) := U16 r in
  if (msgLen <? ipfixHeaderLen) || (len pkt <? msgLen)
  then Some ([], 0, Some (IxBadMessageLength msgLen (len pkt)), d) else
  let '(exportSecs, r) := U32 r in
  let '(_, r) := Skip 4 r in
  let '(domain, r) := U32 r in
  match Err r with
  | Some e => Some ([], 0, Some (IxHeader e), d)
  | None =>
      let clk := mkClock zero_time (Unix exportSecs 0) in
      decode_loop (S (length pkt)) exporter domain now clk
        (New (slice pkt ipfixHeaderLen msgLen)) d [] 0
  end.
End decoder.

(** ** Reference meaning of one data record *)

(** The length of the next value and the bytes after the length prefix. *)
Definition field_len (f : templateField) (l : list byte) : option (Z * list byte) :=
  if tf_Length f =? 0xFFFF then
    match l with
    | [] => None
    | b :: l =>
        if byteZ b =? 255 then
          match l with h :: o :: l => Some (be_uint [h; o], l) | _ => None end
        else Some (byteZ b, l)
    end
  else Some (tf_Length f, l).

Definition split_field (f : templateField) (l : list byte) : option (list byte * list byte) :=
  '(n, l) ← field_len f l;
  if len l <? n then None else Some (firstn (Z.to_nat n) l, skipn (Z.to_nat n) l).

(** One record: the value of every field, and what is left. *)
Fixpoint split_row (fs : list templateField) (l : list byte)
    : option (list (templateField * list byte) * list byte) :=
  match fs with
  | [] => Some ([], l)
  | f :: fs =>
      '(v, l) ← split_field f l;
      '(vs, l) ← split_row fs l;
      Some ((f, v) :: vs, l)
  end.

(** Vendor elements are skipped; the others are folded into the record. *)
Definition mapped (fv : templateField * list byte) : bool := tf_Enterprise fv.1 =? 0.

Definition row_recordX (clk : ieClock) (base : FRecord) (vs : list (templateField * list byte))
    : FRecord :=
  let st := foldl (apply_value clk) (base, 0) (List.filter mapped vs) in
  finishRecord clk st.1 st.2.

(** ** Lemmas: one record *)

Lemma reads_U8_byte b : Reads U8 [b] (byteZ b).
Proof.
  pose proof (byteZ_range b). pose proof (reads_U8 (byteZ b) ltac:(lia)) as R.
  simpl in R. by rewrite Zbyte_byteZ in R.
Qed.

Lemma reads_U16_bytes h o : Reads U16 [h; o] (be_uint [h; o]).
Proof.
  pose proof (be_uint_range [h; o]) as Hr. cbn [length] in Hr.
  change (256 ^ Z.of_nat 2) with (2 ^ 16) in Hr.
  pose proof (reads_U16 _ Hr) as R. pose proof (be_bytes_be_uint [h; o]) as E.
  cbn [length] in E. by rewrite E in R.
Qed.

Lemma fieldLen_spec f set l :
  field_wf f → wf set → view set = Some l →
  match field_len f l with
  | Some (n, l') => 0 ≤ n < 2 ^ 16 ∧
      ∃ set', fieldLen f set = (Some n, set') ∧ wf set' ∧ view set' = Some l'
  | None => ∃ set', fieldLen f set = (None, set') ∧ wf set'
  end.
Proof.
  intros Hf W V. unfold field_len, fieldLen, Empty. rewrite view_Remaining, V by done.
  destruct (tf_Length f =? 0xFFFF); [|split; [done | eauto]].
  destruct l as [|b l]; [eauto|]. cbn [default from_option id].
  rewrite len_cons, (proj2 (Z.eqb_neq _ 0)) by (pose proof (len_nonneg l); lia).
  destruct (reads_U8_byte b set l W V) as (r1 & E1 & W1 & V1). rewrite E1.
  pose proof (byteZ_range b) as Hb. destruct (byteZ b =? 255); [|split; [lia | eauto]].
  rewrite view_Remaining, V1 by done. cbn [default from_option id].
  destruct l as [|h [|o l]]; [eauto | eauto |]. rewrite !len_cons.
  rewrite (proj2 (Z.ltb_ge _ 2)) by (pose proof (len_nonneg l); lia).
  destruct (reads_U16_bytes h o r1 l W1 V1) as (r2 & E2 & W2 & V2). rewrite E2.
  split; [exact (be_uint_range [h; o]) | eauto].
Qed.

Lemma rowFields_bad options exporter domain clk fs st l :
  Forall field_wf fs → wf (rw_set st) → view (rw_set st) = Some l → split_row fs l = None →
  (rowFields options exporter domain clk fs st).1 = true.
Proof.
  revert st l. induction fs as [|f fs IH]; intros st l Hf W V Hs; [done|].
  inversion Hf as [|? ? Hf1 Hf2]; subst. cbn [rowFields split_row] in *.
  pose proof (fieldLen_spec f (rw_set st) l Hf1 W V) as Hl. unfold split_field in Hs.
  destruct (field_len f l) as [[n l']|]; [|by destruct Hl as (set' & -> & _)].
  destruct Hl as (Hn & set' & -> & W' & V'). cbn in Hs.
  rewrite view_Remaining, V' by done. cbn [default from_option id].
  destruct (len l' <? n) eqn:Hlt; [done|]. zbool. cbn in Hs.
  destruct (ReadBytes_in n set' W') as (v & l2 & s2 & E & Hv & W2 & _ & _ & V1 & V2);
    [by eapply view_Err | rewrite view_Remaining, V' by done; cbn; lia |].
  rewrite E. rewrite V' in V1. injection V1 as ->.
  replace (Z.to_nat n) with (length v) in Hs by (unfold len in Hv; lia).
  rewrite drop_app_length in Hs.
  destruct (split_row fs l2) as [[vs l3]|] eqn:Er; [done|].
  destruct (negb _); [by eapply IH|].
  destruct options; [destruct (0 <? _); by eapply IH|].
  destruct (applyIE _ _ _ _). by eapply IH.
Qed.

(** A record that parses: the reader is past it, and a flow record has collected
    exactly its mapped values. *)
Lemma rowFields_ok options exporter domain clk fs st l vs l' :
  Forall field_wf fs → wf (rw_set st) → view (rw_set st) = Some l →
  split_row fs l = Some (vs, l') →
  ∃ st', rowFields options exporter domain clk fs st = (false, st') ∧
    wf (rw_set st') ∧ view (rw_set st') = Some l' ∧
    (options = false → rw_ss st' = rw_ss st ∧ rw_rate st' = rw_rate st ∧
      (rw_rec st', rw_inline st')
        = foldl (apply_value clk) (rw_rec st, rw_inline st) (List.filter mapped vs)).
Proof.
  revert st l vs. induction fs as [|f fs IH]; intros st l vs Hf W V Hs.
  { injection Hs as <- <-. by exists st. }
  inversion Hf as [|? ? Hf1 Hf2]; subst. cbn [rowFields split_row] in *.
  pose proof (fieldLen_spec f (rw_set st) l Hf1 W V) as Hl. unfold split_field in Hs.
  destruct (field_len f l) as [[n l1]|]; [|done].
  destruct Hl as (Hn & set' & -> & W' & V'). cbn in Hs.
  rewrite view_Remaining, V' by done. cbn [default from_option id].
  destruct (len l1 <? n) eqn:Hlt; [done|]. zbool. cbn in Hs.
  destruct (ReadBytes_in n set' W') as (v & l2 & s2 & E & Hv & W2 & _ & _ & V1 & V2);
    [by eapply view_Err | rewrite view_Remaining, V' by done; cbn; lia |].
  rewrite E. rewrite V' in V1. injection V1 as ->.
  replace (Z.to_nat n) with (length v) in Hs by (unfold len in Hv; lia).
  rewrite drop_app_length, take_app_length in Hs.
  destruct (split_row fs l2) as [[vs' l3]|] eqn:Er; [|done]. injection Hs as <- <-.
  cbn [List.filter]. unfold mapped at 1. cbn [fst].
  assert (step : ∀ ss rate rec inline, ∃ st',
    rowFields options exporter domain clk fs (mkRow s2 ss rate rec inline) = (false, st') ∧
    wf (rw_set st') ∧ view (rw_set st') = Some l3 ∧
    (options = false → rw_ss st' = ss ∧ rw_rate st' = rate ∧
      (rw_rec st', rw_inline st') = foldl (apply_value clk) (rec, inline) (List.filter mapped vs'))).
  { intros. by apply (IH (mkRow s2 ss rate rec inline) l2). }
  destruct (tf_Enterprise f =? 0); cbn [negb]; [|by apply step].
  destruct options.
  { destruct (0 <? _); edestruct step as (st' & E' & W3 & V3 & _); eexists;
      (split_and!; [exact E' | done | done | done]). }
  cbn [foldl]. unfold apply_value at 2. cbn [fst snd].
  destruct (applyIE (rw_rec st) (tf_ID f) v clk) as [rec r]. apply step.
Qed.

Lemma split_row_cases options exporter domain clk fs st l :
  Forall field_wf fs → wf (rw_set st) → view (rw_set st) = Some l →
  (rowFields options exporter domain clk fs st).1 = false →
  wf (rw_set (rowFields options exporter domain clk fs st).2) ∧
  ∃ vs l', split_row fs l = Some (vs, l') ∧
    view (rw_set (rowFields options exporter domain clk fs st).2) = Some l'.
Proof.
  intros Hf W V Hb. destruct (split_row fs l) as [[vs l']|] eqn:E.
  - destruct (rowFields_ok options exporter domain clk fs st l vs l' Hf W V E)
      as (st' & -> & W' & V' & _). eauto.
  - rewrite (rowFields_bad options exporter domain clk fs st l Hf W V E) in Hb. done.
Qed.

Lemma split_row_shorter fs l vs l' :
  Forall field_wf fs → split_row fs l = Some (vs, l') → len l' ≤ len l.
Proof.
  intros Hf. revert l vs. induction fs as [|f fs IH]; intros l vs Hs.
  { injection Hs as _ <-. lia. }
  inversion Hf as [|? ? Hf1 Hf2]; subst. cbn [split_row] in Hs.
  destruct (split_field f l) as [[v l1]|] eqn:E; [|done]. cbn in Hs.
  destruct (split_row fs l1) as [[vs1 l2]|] eqn:E2; [|done]. injection Hs as _ <-.
  apply IH in E2; [|done]. unfold split_field, field_len in E.
  assert (len l1 ≤ len l); [|lia]. clear E2.
  destruct (tf_Length f =? 0xFFFF); cbn in E.
  2:{ destruct (_ <? _); [done|]. injection E as _ <-. unfold len. rewrite length_skipn. lia. }
  destruct l as [|b l]; [done|]. destruct (byteZ b =? 255).
  - destruct l as [|h [|o l]]; [done | done |]. cbn in E. destruct (_ <? _); [done|].
    injection E as _ <-. unfold len. rewrite length_skipn. cbn. lia.
  - cbn in E. destruct (_ <? _); [done|].
    injection E as _ <-. unfold len. rewrite length_skipn. cbn. lia.
Qed.

Abbreviation goodX := (emitted ProtoIPFIX).

(** What the field loop preserves, whether or not the record is complete. *)
Definition row_inv (P : samplingState → Prop) (exporter : string) (domain : Z) (now : Time)
    (st : rowState) : Prop :=
  P (rw_ss st) ∧ 0 ≤ rw_rate st < 2 ^ 64 ∧ goodX exporter domain now (rw_rec st) ∧
  0 ≤ rw_inline st < 2 ^ 64.

Lemma rowFields_inv (P : samplingState → Prop) options exporter domain now clk fs st :
  (∀ r ss, 0 ≤ r < 2 ^ 64 → P ss → P (sampling_set exporter domain r ss)) →
  row_inv P exporter domain now st →
  row_inv P exporter domain now (rowFields options exporter domain clk fs st).2.
Proof.
  intros HP. revert st. induction fs as [|f fs IH]; intros st (Hs & Hr & Hg & Hi); [done|].
  cbn [rowFields]. destruct (fieldLen f (rw_set st)) as [[n|] set]; [|done].
  destruct (Remaining set <? n); [done|]. destruct (ReadBytes n set) as [v set'].
  destruct (negb _); [by apply IH|].
  pose proof (optionsSamplingRate_range (tf_ID f) v).
  destruct options; [destruct (0 <? _); apply IH; split_and!; cbn; auto; lia|].
  pose proof (applyIE_rate_range (rw_rec st) (tf_ID f) v clk).
  pose proof (emitted_applyIE _ _ _ _ (rw_rec st) (tf_ID f) v clk Hg).
  destruct (applyIE _ _ _ _) as [rec r]. cbn in *. apply IH.
  unfold row_inv. cbn. split; [done|]. split; [done|]. split; [done|]. destruct (0 <? r); lia.
Qed.

Lemma rowFields_ss options exporter domain clk fs st :
  options = false → rw_ss (rowFields options exporter domain clk fs st).2 = rw_ss st.
Proof.
  intros ->. revert st. induction fs as [|f fs IH]; intros st; [done|].
  cbn [rowFields]. destruct (fieldLen f (rw_set st)) as [[n|] set]; [|done].
  destruct (Remaining set <? n); [done|]. destruct (ReadBytes n set) as [v set'].
  destruct (negb _); [by rewrite IH|]. destruct (applyIE _ _ _ _) as [rec r]. by rewrite IH.
Qed.

Lemma newRecordX_good exporter domain now rate :
  0 ≤ domain < 2 ^ 32 → 0 ≤ rate < 2 ^ 64 →
  goodX exporter domain now (newRecordX exporter domain now rate).
Proof.
  intros Hd Hr. unfold emitted, record_wf, newRecordX. cbn -[Z.pow]. split_and!; try done; lia.
Qed.

(** The data loop: its fuel is enough, and what it leaves true. *)
Lemma decodeData_loop_specX (P : samplingState → Prop) tmpl exporter domain now clk
    fuel set rate ss out :
  (∀ r ss, 0 ≤ r < 2 ^ 64 → P ss → P (sampling_set exporter domain r ss)) →
  Forall field_wf (tr_Fields tmpl) → wf set → Err set = None → Remaining set < Z.of_nat fuel →
  0 ≤ domain < 2 ^ 32 → 0 ≤ rate < 2 ^ 64 → P ss →
  len out ≤ 4096 → Forall (goodX exporter domain now) out →
  ∃ ss' new,
    decodeData_loop fuel tmpl exporter domain now clk set rate ss out = Some (ss', out ++ new) ∧
    P ss' ∧ len (out ++ new) ≤ 4096 ∧ Forall (goodX exporter domain now) (out ++ new) ∧
    (if tr_Options tmpl then new = [] else ss' = ss).
Proof.
  intros HP Hf W He Hfuel Hd. revert set rate ss out W He Hfuel.
  induction fuel as [|fuel IH]; intros set rate ss out W He Hfuel Hr Hs Hlen Hgood.
  { pose proof (Remaining_nonneg _ W). lia. }
  assert (Hstop : ∀ ss1, P ss1 → (tr_Options tmpl = false → ss1 = ss) → ∃ ss' new,
    Some (ss1, out) = Some (ss', out ++ new) ∧
    P ss' ∧ len (out ++ new) ≤ 4096 ∧ Forall (goodX exporter domain now) (out ++ new) ∧
    (if tr_Options tmpl then new = [] else ss' = ss)).
  { intros ss1 Hs1 Ho. exists ss1, []. rewrite app_nil_r. split_and!; try done.
    destruct (tr_Options tmpl); [done | by apply Ho]. }
  cbn [decodeData_loop]. unfold ipfixMaxRecordsPerPacket.
  destruct (negb _) eqn:Hmax; [by apply Hstop|].
  destruct (_ && _) eqn:Hmin; [by apply Hstop|]. clear Hmin.
  destruct (_ || _) eqn:Hemp; [by apply Hstop|]. clear Hemp. zbool.
  set (st0 := mkRow set ss rate (newRecordX exporter domain now rate) 0).
  assert (Hinv : row_inv P exporter domain now st0).
  { unfold row_inv, st0. cbn. repeat split; try done; try lia; by apply newRecordX_good. }
  apply (rowFields_inv P (tr_Options tmpl) exporter domain now clk (tr_Fields tmpl)) in Hinv;
    [|done].
  pose proof (rowFields_ss (tr_Options tmpl) exporter domain clk (tr_Fields tmpl) st0) as Hss.
  destruct (view set) as [l|] eqn:V; [|unfold view, Err in *; destruct (r_err set); done].
  pose proof (split_row_cases (tr_Options tmpl) exporter domain clk (tr_Fields tmpl) st0 l Hf W V)
    as Hrow.
  destruct (rowFields _ _ _ _ _ st0) as [bad st]. cbn [fst snd] in *.
  destruct Hinv as (Hs' & Hr' & Hg' & Hi').
  destruct bad; [by apply Hstop|].
  destruct Hrow as (W' & vs & l' & Erow & V'); [done|].
  destruct (_ =? Remaining set) eqn:Hadv; [by apply Hstop|]. zbool.
  apply split_row_shorter in Erow; [|done].
  assert (Hrem : Remaining (rw_set st) < Remaining set).
  { rewrite !view_Remaining, V, V' in Hadv by done.
    rewrite !view_Remaining, V, V' by done. cbn in *. lia. }
  assert (He' : Err (rw_set st) = None) by (by eapply view_Err).
  destruct (tr_Options tmpl) eqn:Ho.
  - destruct (IH (rw_set st) (rw_rate st) (rw_ss st) out) as (ss' & new & E & H1 & H2 & H3 & H4);
      try done; [lia|]. exists ss', new. by split_and!.
  - pose proof (finishRecord_emitted _ _ _ _ clk _ _ Hg' Hi') as Hfin.
    destruct (IH (rw_set st) (rw_rate st) (rw_ss st)
      (out ++ [finishRecord clk (rw_rec st) (rw_inline st)])) as (ss' & new & E & H1 & H2 & H3 & H4);
      try done; [lia | | |].
    { rewrite len_app. unfold len at 2. cbn. lia. }
    { apply Forall_app. auto. }
    rewrite <- app_assoc in *. exists ss', (finishRecord clk (rw_rec st) (rw_inline st) :: new).
    split_and!; try done. rewrite H4. by apply Hss.
Qed.

(** ** Lemmas: sets and messages *)

Lemma readSpecs_spec n r :
  wf r →
  wf (readSpecs n r).2 ∧ Remaining (readSpecs n r).2 ≤ Remaining r ∧
  ∀ fs, (readSpecs n r).1 = Some fs → Forall field_wf fs ∧ length fs = n.
Proof.
  revert r. induction n as [|n IH]; intros r W; cbn [readSpecs].
  { split_and!; try done. by intros fs [= <-]. }
  destruct (Remaining r <? 4) eqn:H4; [by split_and!|]. zbool.
  in_step (U16_in r). in_step (U16_in r0).
  assert (step : ∀ id ent r2, wf r2 → Remaining r2 ≤ Remaining r →
    let p := let '(fs, r3) := readSpecs n r2 in ((mkField id z0 ent ::.) <$> fs, r3) in
    wf p.2 ∧ Remaining p.2 ≤ Remaining r ∧
    ∀ fs, p.1 = Some fs → Forall field_wf fs ∧ length fs = S n).
  { intros id ent r2 Wr2 Hrem. destruct (IH r2 Wr2) as (A & B & C).
    destruct (readSpecs n r2) as [[fs|] r3]; cbn in *; (split_and!; [done | lia |]); [|done].
    intros ? [= <-]. destruct (C fs) as [C1 C2]; [done|]. split; [by constructor | cbn; lia]. }
  destruct (negb _); [|apply step; [done | lia]].
  destruct (Remaining r1 <? 4) eqn:H41; [split_and!; cbn; try done; lia|]. zbool.
  in_step (U32_in r1). apply step; [done | lia].
Qed.

Section messages.
Context `{Runtime}.

Lemma parseTemplates_loop_specX exporter domain options fuel r d :
  wf r → Remaining r < Z.of_nat fuel → state_wf d →
  ∃ d', parseTemplates_loop fuel exporter domain options r d = Some d' ∧
    set_step exporter domain d d'.
Proof.
  revert r d. induction fuel as [|fuel IH]; intros r d W Hfuel Wd.
  { pose proof (Remaining_nonneg _ W). lia. }
  cbn [parseTemplates_loop].
  destruct (Remaining r <? _) eqn:Hh; [eauto using set_step_refl|]. zbool.
  assert (H4 : 4 ≤ Remaining r ∧ (options = true → 6 ≤ Remaining r)).
  { destruct options; cbn in Hh; lia. }
  destruct H4 as [H4 H6]. in_step (U16_in r). in_step (U16_in r0).
  assert (∃ scope r2, (if options then U16 r1 else (0, r1)) = (scope, r2) ∧ wf r2 ∧
    Remaining r2 ≤ Remaining r1) as (scope & r2 & -> & W2 & Hr2).
  { destruct options; [|by eexists _, _]. destruct (U16_in r1) as (s & r2 & ? & ? & ? & ? & ?);
      [done | specialize (H6 eq_refl); lia |]. exists s, r2. split_and!; try done. lia. }
  destruct (_ || _) eqn:Hbad; [eauto using set_step_refl|]. zbool.
  pose proof (readSpecs_spec (Z.to_nat z0) r2 W2) as (W3 & Hr3 & Hfs).
  destruct (readSpecs (Z.to_nat z0) r2) as [[fields|] r3]; [|eauto using set_step_refl].
  cbn [fst snd] in *. destruct (Hfs fields eq_refl) as [Hf Hl].
  destruct (Err r3); [eauto using set_step_refl|].
  assert (S1 : set_step exporter domain d (put_template (mkKey exporter domain z)
    (mkTemplate fields options scope false 0 0) d)).
  { apply put_template_step; cbn; [done | done | lia]. }
  destruct (IH r3 _ W3 ltac:(lia) (proj1 S1)) as (d' & E' & S').
  exists d'. split; [done|]. by eapply set_step_trans.
Qed.

Lemma decodeData_specX b tid exporter domain now clk d out :
  len b < 2 ^ 62 → state_wf d → 0 ≤ domain < 2 ^ 32 →
  len out ≤ 4096 → Forall (goodX exporter domain now) out →
  ∃ miss d' new, decodeData b tid exporter domain now clk d out = Some (miss, d', out ++ new) ∧
    set_step exporter domain d d' ∧ len (out ++ new) ≤ 4096 ∧
    Forall (goodX exporter domain now) (out ++ new) ∧ 0 ≤ miss ≤ 1.
Proof.
  intros Hb [Wc Ws] Hd Hlen Hgood. unfold decodeData.
  pose proof (get_wf (mkKey exporter domain tid) (fs_templates d)) as Hg.
  pose proof (get_kept (mkKey exporter domain tid) d) as Hk. cbn in Hk.
  destruct (get _ (fs_templates d)) as [o c]. cbn in Hk.
  destruct (Hg o c Wc eq_refl) as [Wc' Ht].
  set (d1 := d <| fs_templates := c |>) in *.
  assert (S1 : set_step exporter domain d d1) by (split; [split|]; done).
  destruct o as [tmpl|].
  2:{ exists 1, d1, []. rewrite app_nil_r. by split_and!. }
  destruct (body_wf b Hb) as [Wb Hf]. destruct (Ht tmpl eq_refl) as (Hfs & _).
  destruct (decodeData_loop_specX (ss_kept exporter domain d1) tmpl exporter domain
    now clk (S (length b)) (New b) (sampling_get exporter domain (fs_sampling d1))
    (fs_sampling d1) out) as (ss' & new & E & Hs & H2 & H3 & _); try done.
  { intros r ss. by apply ss_kept_set. }
  { by apply sampling_get_range. }
  { split; [done|]. by apply (kept_refl exporter domain d1). }
  cbv zeta. rewrite E. cbn. exists 0, (d1 <| fs_sampling := ss' |>), new.
  destruct Hs as [Ws' K']. split_and!; try done; try lia.
  split; [split; done|]. by eapply kept_trans; [apply S1|].
Qed.

(** Errors the length checks rule out. *)
Definition internal_errX (e : option ipfix_err) : bool :=
  match e with Some (IxHeader _) | Some (IxReader _) => true | _ => false end.

Definition outcome_okX (exporter : string) (domain : Z) (now : Time) (d : flowState)
    (o : resultX * flowState) : Prop :=
  let '(recs, misses, err, d') := o in
  set_step exporter domain d d' ∧ len recs ≤ 4096 ∧
  Forall (goodX exporter domain now) recs ∧ 0 ≤ misses ∧ internal_errX err = false.

Lemma decode_loop_specX exporter domain now clk fuel r d0 d recs misses :
  0 ≤ domain < 2 ^ 32 → wf r → Err r = None → Remaining r < Z.of_nat fuel →
  set_step exporter domain d0 d → len recs ≤ 4096 →
  Forall (goodX exporter domain now) recs → 0 ≤ misses →
  ∃ o, decode_loop fuel exporter domain now clk r d recs misses = Some o ∧
    outcome_okX exporter domain now d0 o.
Proof.
  intros Hdom. revert r d recs misses.
  induction fuel as [|fuel IH]; intros r d recs misses W He Hfuel S0 Hlen Hgood Hm.
  { pose proof (Remaining_nonneg _ W). lia. }
  cbn [decode_loop]. destruct (4 <=? Remaining r) eqn:H4; zbool.
  2:{ rewrite He. eexists. split; [done|]. by split_and!. }
  in_step (U16_in r). in_step (U16_in r0).
  destruct ((z0 <? 4) || (Remaining r1 <? z0 - 4)) eqn:Hbad.
  { eexists. split; [done|]. by split_and!. }
  zbool.
  destruct (ReadBytes_in (z0 - 4) r1) as (body & l2 & r2 & E2 & Hl & W2 & He2 & Hr2 & _);
    [done | done | lia |].
  rewrite E2. cbv beta iota zeta. pose proof S0 as [Wd _].
  destruct (body_wf body ltac:(lia)) as [Wb Hf].
  assert (Htmpl : ∀ options, ∃ o,
    (d ← parseTemplates body exporter domain options d;
     decode_loop fuel exporter domain now clk r2 d recs misses) = Some o ∧
    outcome_okX exporter domain now d0 o).
  { intros options.
    destruct (parseTemplates_loop_specX exporter domain options _ _ d Wb Hf Wd) as (d1 & E1 & S1).
    unfold parseTemplates. rewrite E1. cbn. apply IH; try done; [lia|].
    by eapply set_step_trans. }
  destruct (z =? 2); [apply Htmpl|]. destruct (z =? 3); [apply Htmpl|].
  destruct (256 <=? z); [|apply IH; try done; lia].
  destruct (decodeData_specX body z exporter domain now clk d recs ltac:(lia) Wd Hdom Hlen Hgood)
    as (miss & d1 & new & E1 & S1 & Hlen1 & Hgood1 & Hmiss).
  rewrite E1. cbn. apply IH; try done; [lia | | lia]. by eapply set_step_trans.
Qed.

Lemma decode_specX pkt exporter now d :
  len pkt < 2 ^ 62 → state_wf d →
  ∃ o domain, decode pkt exporter now d = Some o ∧ 0 ≤ domain < 2 ^ 32 ∧
    outcome_okX exporter domain now d o.
Proof.
  intros Hlen Wd. unfold decode, ipfixHeaderLen.
  assert (Hearly : ∀ e, internal_errX (Some e) = false →
    ∃ o domain, Some ([], 0, Some e, d) = Some o ∧ 0 ≤ domain < 2 ^ 32 ∧
    outcome_okX exporter domain now d o).
  { intros e He. eexists _, 0. split; [done|]. split; [lia|].
    split_and!; try done. by apply set_step_refl. }
  destruct (len pkt <? 16) eqn:H16; [by apply Hearly|]. zbool.
  assert (W : wf (New pkt)) by (by apply New_wf).
  assert (Hr0 : Remaining (New pkt) = len pkt) by (unfold Remaining, New; cbn; lia).
  in_step (U16_in (New pkt)).
  destruct (z =? 10); cbn [negb]; [|by apply Hearly].
  in_step (U16_in r).
  destruct (_ || _) eqn:Hml; [by apply Hearly|]. zbool.
  in_step (U32_in r0).
  destruct (Skip_in 4 r1) as (r3 & E4 & W4 & He4 & Hr4); [done | lia |].
  rewrite E4. cbv beta iota zeta. in_step (U32_in r3).
  rewrite He2.
  assert (Hsl : len (slice pkt 16 z0) = z0 - 16) by (apply len_slice; lia).
  destruct (decode_loop_specX exporter z2 now (mkClock zero_time (Unix z1 0))
    (S (length pkt)) (New (slice pkt 16 z0)) d d [] 0) as (o & Eo & Ho); try done.
  - apply New_wf. lia.
  - unfold Remaining, New. cbn [r_err r_b r_off]. unfold len in *. lia.
  - by apply set_step_refl.
  - exists o, z2. split; [exact Eo|]. split; [lia | exact Ho].
Qed.
End messages.

(** ** Reference encoder *)

Definition encodeSpec (f : templateField) : list byte :=
  if tf_Enterprise f =? 0
  then be_bytes 2 (tf_ID f) ++ be_bytes 2 (tf_Length f)
  else be_bytes 2 (tf_ID f + 0x8000) ++ be_bytes 2 (tf_Length f) ++ be_bytes 4 (tf_Enterprise f).

Definition encodeTemplateX (t : Z * list templateField) : list byte :=
  be_bytes 2 t.1 ++ be_bytes 2 (len t.2) ++ (t.2 ≫= encodeSpec).

(** Variable-length values carry a 1-byte or a 3-byte length prefix. *)
Definition encodeValue (f : templateField) (v : list byte) : list byte :=
  if tf_Length f =? 0xFFFF then
    if len v <? 255 then be_bytes 1 (len v) ++ v else [xff] ++ be_bytes 2 (len v) ++ v
  else v.

Definition encodeRow (fs : list templateField) (vs : list (list byte)) : list byte :=
  concat (zip_with encodeValue fs vs).

Definition value_ok (f : templateField) (v : list byte) : Prop :=
  if tf_Length f =? 0xFFFF then len v < 2 ^ 16 else len v = tf_Length f.

Definition specX_ok (f : templateField) : Prop :=
  0 ≤ tf_ID f < 2 ^ 15 ∧ 1 ≤ tf_Length f < 2 ^ 16 ∧ 0 ≤ tf_Enterprise f < 2 ^ 32.

Definition templateX_ok (t : Z * list templateField) : Prop :=
  256 ≤ t.1 < 2 ^ 16 ∧ 1 ≤ len t.2 ≤ 512 ∧ Forall specX_ok t.2.

(** The whole message: header (with the authoritative length), then the sets. *)
Definition encodeMessage (secs seqno domain : Z) (sets : list byte) : list byte :=
  be_bytes 2 10 ++ be_bytes 2 (16 + len sets) ++ be_bytes 4 secs ++ be_bytes 4 seqno ++
  be_bytes 4 domain ++ sets.

Lemma specX_field fs : Forall specX_ok fs → Forall field_wf fs.
Proof.
  intros H. eapply Forall_impl; [exact H|]. intros f (_ & ? & _). unfold field_wf. lia.
Qed.

Lemma split_field_encode f v rest :
  value_ok f v → split_field f (encodeValue f v ++ rest) = Some (v, rest).
Proof.
  unfold value_ok, split_field, encodeValue, field_len.
  assert (Hcut : ∀ n, n = len v →
    (if len (v ++ rest) <? n then None
     else Some (firstn (Z.to_nat n) (v ++ rest), skipn (Z.to_nat n) (v ++ rest)))
    = Some (v, rest)).
  { intros n ->. rewrite len_app, (proj2 (Z.ltb_ge _ _)) by (pose proof (len_nonneg rest); lia).
    unfold len. rewrite Nat2Z.id, take_app_length, drop_app_length. done. }
  destruct (tf_Length f =? 0xFFFF); [|intros Hv; cbn; by apply Hcut].
  intros Hv. pose proof (len_nonneg v). destruct (len v <? 255) eqn:H255; zbool.
  - cbn [be_bytes app]. rewrite byteZ_Zbyte. unfold u8. rewrite Z.mod_small by lia.
    rewrite (proj2 (Z.eqb_neq _ _)) by lia. cbn. by apply Hcut.
  - cbn [app]. change (byteZ xff =? 255) with true. cbv iota.
    pose proof (be_uint_be_bytes_small 2 (len v) ltac:(lia)) as Hbe.
    cbn [be_bytes app] in Hbe |- *. cbn [mbind option_bind]. rewrite Hbe. by apply Hcut.
Qed.

Lemma split_row_encode fs vs rest :
  Forall2 value_ok fs vs → split_row fs (encodeRow fs vs ++ rest) = Some (zip fs vs, rest).
Proof.
  induction 1 as [|f v fs vs Hv Hvs IH]; [done|].
  unfold encodeRow in *. cbn [zip_with concat split_row]. rewrite <- app_assoc.
  rewrite split_field_encode by done. cbn [mbind option_bind]. by rewrite IH.
Qed.

Lemma encodeValue_len f v : value_ok f v → 1 ≤ tf_Length f → 1 ≤ len (encodeValue f v).
Proof.
  unfold value_ok, encodeValue. pose proof (len_nonneg v).
  destruct (_ =? _); [|lia]. destruct (len v <? 255); rewrite !len_app; unfold len; cbn; lia.
Qed.

Lemma encodeRow_len fs vs :
  Forall specX_ok fs → Forall2 value_ok fs vs → len fs ≤ len (encodeRow fs vs).
Proof.
  intros Hs Hv. induction Hv as [|f v fs vs Hv Hvs IH]; [done|].
  inversion Hs as [|? ? (_ & Hl & _) Hs2]; subst. specialize (IH Hs2).
  pose proof (encodeValue_len f v Hv ltac:(lia)).
  unfold encodeRow in *. cbn [zip_with concat]. rewrite len_app, len_cons. lia.
Qed.

Lemma measure_not_variable fs v w :
  (foldl (λ '(v, w) f,
      if tf_Length f =? 0xFFFF then (true, w) else (v, i64 (w + tf_Length f))) (v, w) fs).1 = false →
  v = false ∧ Forall (λ f, (tf_Length f =? 0xFFFF) = false) fs.
Proof.
  revert v w. induction fs as [|f fs IH]; intros v w Hm; [done|]. cbn [foldl] in Hm.
  destruct (tf_Length f =? 0xFFFF) eqn:E; apply IH in Hm as [Hv Hf]; [done|].
  split; [done | by constructor].
Qed.

(** A record of a fixed-width template has that width. *)
Lemma encodeRow_fixed tmpl vs :
  template_wf tmpl → 0 < fixedWidth tmpl → Forall2 value_ok (tr_Fields tmpl) vs →
  len (encodeRow (tr_Fields tmpl) vs) = fixedWidth tmpl.
Proof.
  intros Wt Hw Hv. rewrite (fixedWidth_total _ Wt Hw).
  destruct Wt as (_ & _ & Hm & _). unfold fixedWidth in Hw.
  destruct (tr_variable tmpl) eqn:Hvar; [lia|].
  destruct (measure_not_variable (tr_Fields tmpl) false 0) as [_ Hf].
  { unfold measure in Hm. by rewrite <- Hm. }
  clear Hw Hm Hvar. induction Hv as [|f v fs vs Hv Hvs IH]; [done|].
  inversion Hf as [|? ? Hf1 Hf2]; subst. unfold encodeRow in *.
  cbn [zip_with concat total_length foldr]. rewrite len_app, (IH Hf2).
  unfold value_ok, encodeValue, total_length in *. rewrite Hf1 in *. lia.
Qed.

(** The data loop reads back every encoded record, up to the record bound. *)
Lemma decodeData_loop_rowsX tmpl exporter domain now clk rowss fuel set rate ss out :
  template_wf tmpl → Forall specX_ok (tr_Fields tmpl) → 1 ≤ len (tr_Fields tmpl) →
  tr_Options tmpl = false → Forall (Forall2 value_ok (tr_Fields tmpl)) rowss →
  wf set → view set = Some (rowss ≫= encodeRow (tr_Fields tmpl)) →
  Remaining set < Z.of_nat fuel → len out ≤ 4096 →
  decodeData_loop fuel tmpl exporter domain now clk set rate ss out
    = Some (ss, out ++ firstn (4096 - length out)
        ((λ vs, row_recordX clk (newRecordX exporter domain now rate) (zip (tr_Fields tmpl) vs))
           <$> rowss)).
Proof.
  intros Wt Hspec Hne Ho Hrows. pose proof (specX_field _ Hspec) as Hf.
  revert fuel set out.
  induction Hrows as [|vs rowss Hv Hrows IH]; intros [|fuel] set out W V Hfuel Hlen;
    try (pose proof (Remaining_nonneg _ W); lia);
    cbn [decodeData_loop]; unfold ipfixMaxRecordsPerPacket, Empty; rewrite view_Remaining, V by done.
  { rewrite fmap_nil, firstn_nil, app_nil_r. cbn [mbind list_bind default from_option id len length
      Z.of_nat Z.eqb orb]. destruct (negb _); [done|]. by destruct (_ && _). }
  cbn [default from_option id]. rewrite bind_cons in *.
  pose proof (encodeRow_len _ _ Hspec Hv) as Hrl.
  pose proof (len_nonneg (rowss ≫= encodeRow (tr_Fields tmpl))) as Hrest.
  destruct (Z.ltb_spec (len out) 4096) as [Hlt|Hge]; cbn [negb].
  2:{ replace (4096 - length out)%nat with 0%nat by (unfold len in *; lia). by rewrite app_nil_r. }
  rewrite !len_app. replace (_ && _) with false.
  2:{ symmetry. destruct (Z.ltb_spec 0 (fixedWidth tmpl)) as [Hw|]; [|done].
      apply Z.ltb_ge. rewrite (encodeRow_fixed tmpl vs Wt Hw Hv). lia. }
  rewrite (proj2 (Z.eqb_neq _ 0)), (proj2 (Z.ltb_ge _ _)) by lia. cbn [orb].
  destruct (rowFields_ok (tr_Options tmpl) exporter domain clk (tr_Fields tmpl)
    (mkRow set ss rate (newRecordX exporter domain now rate) 0) _ _ _ Hf W V
    (split_row_encode _ _ _ Hv)) as (st & E & W' & V' & Hst).
  rewrite E. destruct (Hst Ho) as (Ess & Erate & Erec). cbn [rw_ss rw_rate rw_rec rw_inline] in *.
  rewrite view_Remaining, V' by done. cbn [default from_option id].
  rewrite (proj2 (Z.eqb_neq _ _)) by lia. rewrite Ho.
  assert (Efin : finishRecord clk (rw_rec st) (rw_inline st)
    = row_recordX clk (newRecordX exporter domain now rate) (zip (tr_Fields tmpl) vs)).
  { unfold row_recordX. by rewrite <- Erec. }
  rewrite Efin, Ess, Erate, fmap_cons. rewrite IH; [| done | done | |].
  - rewrite <- app_assoc. do 2 f_equal. f_equal. rewrite length_app. cbn [length].
    replace (4096 - length out)%nat with (S (4096 - (length out + 1)))
      by (unfold len in *; lia). done.
  - rewrite view_Remaining, V' by done. rewrite view_Remaining, V in Hfuel by done.
    cbn [default from_option id] in *. rewrite len_app in Hfuel. lia.
  - rewrite len_app. unfold len at 2. cbn. lia.
Qed.

(** The enterprise bit of a field type. *)
Lemma enterprise_bit id :
  0 ≤ id < 2 ^ 15 →
  Z.land id 0x7FFF = id ∧ Z.land id 0x8000 = 0 ∧
  Z.land (id + 0x8000) 0x7FFF = id ∧ Z.land (id + 0x8000) 0x8000 ≠ 0.
Proof.
  intros Hid. change 0x7FFF with (Z.ones 15). rewrite !Z.land_ones by lia.
  assert (Hl : Z.land id 0x8000 = 0).
  { apply Z.bits_inj'. intros n Hn. rewrite Z.land_spec, Z.bits_0.
    change 0x8000 with (2 ^ 15). rewrite Z.pow2_bits_eqb by lia.
    destruct (Z.eqb_spec 15 n) as [<-|]; [|apply andb_false_r].
    destruct (Z.eq_dec id 0) as [->|]; [done|].
    by rewrite (Z.bits_above_log2 id) by (lia || (apply Z.log2_lt_pow2; lia)). }
  split_and!.
  - apply Z.mod_small; lia.
  - exact Hl.
  - change 0x8000 with (1 * 2 ^ 15). rewrite Z.mod_add by lia. apply Z.mod_small; lia.
  - rewrite Z.add_nocarry_lxor by done.
    intros E. assert (Ht : Z.testbit (Z.land (Z.lxor id 0x8000) 0x8000) 15 = false)
      by (rewrite E; apply Z.bits_0).
    rewrite Z.land_spec, Z.lxor_spec in Ht. change 0x8000 with (2 ^ 15) in Ht.
    rewrite Z.pow2_bits_eqb in Ht by lia.
    assert (Z.testbit id 15 = false) as Hb.
    { destruct (Z.eq_dec id 0) as [->|]; [done|].
      apply Z.bits_above_log2; [lia|]. apply Z.log2_lt_pow2; lia. }
    rewrite Hb in Ht. done.
Qed.

Lemma readSpecs_encoded fs r rest :
  Forall specX_ok fs → wf r → view r = Some ((fs ≫= encodeSpec) ++ rest) →
  ∃ r', readSpecs (length fs) r = (Some fs, r') ∧ wf r' ∧ view r' = Some rest.
Proof.
  intros Hs. revert r. induction Hs as [|f fs (Hid & Hl & He) Hs IH]; intros r W V.
  { by exists r. }
  destruct (enterprise_bit (tf_ID f) Hid) as (B1 & B2 & B3 & B4).
  cbn [length readSpecs]. rewrite bind_cons, <- app_assoc in V. unfold encodeSpec at 1 in V.
  rewrite view_Remaining, V by done. cbn [default from_option id].
  pose proof (len_nonneg ((fs ≫= encodeSpec) ++ rest)).
  destruct (Z.eqb_spec (tf_Enterprise f) 0) as [He0|He0]; rewrite <- !app_assoc in V;
    rewrite !len_app, !len_be_bytes.
  - rewrite (proj2 (Z.ltb_ge _ 4)) by (rewrite !len_app in *; lia).
    read_step (reads_U16 (tf_ID f) ltac:(lia)). read_step (reads_U16 (tf_Length f) ltac:(lia)).
    rewrite B1, B2. cbn [Z.eqb negb]. destruct (IH _ W V) as (r' & E & W' & V').
    rewrite E. exists r'. split_and!; try done. cbn. destruct f. cbn in *. by subst.
  - rewrite (proj2 (Z.ltb_ge _ 4)) by (rewrite !len_app in *; lia).
    read_step (reads_U16 (tf_ID f + 0x8000) ltac:(lia)).
    read_step (reads_U16 (tf_Length f) ltac:(lia)).
    rewrite B3, (proj2 (Z.eqb_neq _ _) B4). cbn [negb].
    rewrite view_Remaining, V by done. cbn [default from_option id].
    rewrite len_app, len_be_bytes, (proj2 (Z.ltb_ge _ 4)) by lia.
    read_step (reads_U32 (tf_Enterprise f) He). destruct (IH _ W V) as (r' & E & W' & V').
    rewrite E. exists r'. split_and!; try done. cbn. by destruct f.
Qed.

Lemma specs_len fs : 4 * len fs ≤ len (fs ≫= encodeSpec) ≤ 8 * len fs.
Proof.
  induction fs as [|f fs IH]; [done|]. rewrite bind_cons, len_app, len_cons.
  unfold encodeSpec at 1 3. destruct (_ =? 0); rewrite !len_app, !len_be_bytes; lia.
Qed.

(** A template with a field of positive length is usable. *)
Lemma usable_positive t :
  Forall field_wf (tr_Fields t) → (length (tr_Fields t) ≤ 512)%nat → tr_Fields t ≠ [] →
  Forall (λ f, 1 ≤ tf_Length f) (tr_Fields t) → usable t.
Proof.
  intros Hf Hl Hne Hp. unfold usable.
  destruct (measure_fixed (tr_Fields t) false 0 Hf) as [_ I]; [lia | lia |].
  cbv zeta in I. fold (measure (tr_Fields t)) in I.
  destruct (measure (tr_Fields t)).1; [by left|]. right. rewrite I by done.
  destruct (tr_Fields t) as [|f fs]; [done|].
  inversion Hp as [|? ? Hp1 _]; inversion Hf as [|? ? _ Hf2]; subst.
  pose proof (total_length_nonneg fs Hf2). cbn [total_length foldr] in *.
  unfold total_length in *. lia.
Qed.

Section one_message.
Context `{Runtime}.

Lemma parseTemplates_encoded exporter domain tid fs d :
  templateX_ok (tid, fs) →
  parseTemplates (encodeTemplateX (tid, fs)) exporter domain false d
    = Some (put_template (mkKey exporter domain tid) (mkTemplate fs false 0 false 0 0) d).
Proof.
  intros (Htid & Hn & Hfs). cbn [fst snd] in *. unfold parseTemplates.
  set (b := encodeTemplateX (tid, fs)). pose proof (specs_len fs) as Hsl.
  assert (Hlen : len b = 4 + len (fs ≫= encodeSpec)).
  { unfold b, encodeTemplateX. cbn [fst snd]. rewrite !len_app, !len_be_bytes. lia. }
  pose proof (New_wf b ltac:(lia)) as W. pose proof (New_view b) as V.
  unfold b at 2 in V. unfold encodeTemplateX in V. cbn [fst snd] in V.
  destruct (length b) as [|m] eqn:Em; [unfold len in Hlen; lia|].
  cbn [parseTemplates_loop].
  rewrite (proj2 (Z.ltb_ge (Remaining (New b)) 4)) by (unfold Remaining, New; cbn [r_err r_b r_off]; lia).
  read_step (reads_U16 tid ltac:(lia)). read_step (reads_U16 (len fs) ltac:(lia)).
  rewrite (proj2 (Z.ltb_ge tid _)), (proj2 (Z.leb_gt (len fs) _)),
    (proj2 (Z.ltb_ge _ (len fs))), (proj2 (Z.ltb_ge (len fs) 0)) by lia. cbn [orb Z.ltb Z.compare].
  replace (Z.to_nat (len fs)) with (length fs) by (unfold len; lia).
  rewrite <- (app_nil_r (fs ≫= encodeSpec)) in V.
  destruct (readSpecs_encoded fs _ [] Hfs W V) as (r' & -> & W' & V').
  rewrite (view_Err _ _ V'). cbn [parseTemplates_loop].
  by rewrite view_Remaining, V' by done.
Qed.

Lemma decode_loop_setX sid body rest fuel exporter domain now clk r d recs misses :
  0 ≤ sid < 2 ^ 16 → 4 + len body < 2 ^ 16 → wf r → view r = Some (encodeSet sid body ++ rest) →
  ∃ r', wf r' ∧ view r' = Some rest ∧
    decode_loop (S fuel) exporter domain now clk r d recs misses =
      (if sid =? 2 then
         d ← parseTemplates body exporter domain false d;
         decode_loop fuel exporter domain now clk r' d recs misses
       else if sid =? 3 then
         d ← parseTemplates body exporter domain true d;
         decode_loop fuel exporter domain now clk r' d recs misses
       else if 256 <=? sid then
         '(miss, d, recs) ← decodeData body sid exporter domain now clk d recs;
         decode_loop fuel exporter domain now clk r' d recs (misses + miss)
       else decode_loop fuel exporter domain now clk r' d recs misses).
Proof.
  intros Hid Hb W V. cbn [decode_loop]. pose proof (len_nonneg rest). pose proof (len_nonneg body).
  rewrite view_Remaining, V by done. cbn [default from_option Datatypes.id].
  rewrite len_app. unfold encodeSet at 1. rewrite !len_app, !len_be_bytes.
  rewrite (proj2 (Z.leb_le 4 _)) by lia.
  unfold encodeSet in V. rewrite <- !app_assoc in V.
  read_step (reads_U16 sid Hid). read_step (reads_U16 (4 + len body) ltac:(lia)).
  rewrite (proj2 (Z.ltb_ge (4 + len body) 4)) by lia.
  rewrite view_Remaining, V by done. cbn [default from_option Datatypes.id orb]. rewrite len_app.
  rewrite (proj2 (Z.ltb_ge _ _)) by lia.
  read_step (reads_ReadBytes (4 + len body - 4) body ltac:(lia)).
  eexists. split_and!; [eassumption.. | done].
Qed.

(** The header of an encoded message selects exactly its sets. *)
Lemma decode_headerX secs seqno domain sets trailing exporter now d :
  0 ≤ secs < 2 ^ 32 → 0 ≤ domain < 2 ^ 32 → 16 + len sets < 2 ^ 16 → len trailing < 2 ^ 61 →
  decode (encodeMessage secs seqno domain sets ++ trailing) exporter now d
    = decode_loop (S (length (encodeMessage secs seqno domain sets ++ trailing))) exporter domain
        now (mkClock zero_time (Unix secs 0)) (New sets) d [] 0.
Proof.
  intros Hs Hd Hlen Htr. pose proof (len_nonneg sets). pose proof (len_nonneg trailing).
  set (hdr := be_bytes 2 10 ++ be_bytes 2 (16 + len sets) ++ be_bytes 4 secs ++
    be_bytes 4 seqno ++ be_bytes 4 domain).
  assert (Hpkt : encodeMessage secs seqno domain sets ++ trailing = hdr ++ sets ++ trailing).
  { unfold encodeMessage, hdr. by rewrite <- !app_assoc. }
  assert (Hh : len hdr = 16) by (unfold hdr; rewrite !len_app, !len_be_bytes; lia).
  rewrite Hpkt. set (pkt := hdr ++ sets ++ trailing).
  assert (Hl : len pkt = 16 + len sets + len trailing) by (unfold pkt; rewrite !len_app; lia).
  unfold decode, ipfixHeaderLen. rewrite (proj2 (Z.ltb_ge _ _)) by lia.
  pose proof (New_wf pkt ltac:(lia)) as W. pose proof (New_view pkt) as V.
  unfold pkt at 2 in V. unfold hdr in V. rewrite <- !app_assoc in V.
  read_step (reads_U16 10 ltac:(lia)). cbn [negb Z.eqb Pos.eqb].
  read_step (reads_U16 (16 + len sets) ltac:(lia)).
  rewrite (proj2 (Z.ltb_ge _ 16)), (proj2 (Z.ltb_ge (len pkt) _)) by lia. cbn [orb].
  read_step (reads_U32 secs Hs). read_step (reads_Skip 4 (be_bytes 4 seqno) ltac:(done)).
  read_step (reads_U32 domain Hd). rewrite (view_Err _ _ V).
  replace (slice pkt 16 (16 + len sets)) with sets; [done|].
  unfold slice, pkt. replace (Z.to_nat 16) with (length hdr) by (unfold len in Hh; lia).
  rewrite drop_app_length. replace (Z.to_nat _) with (length sets) by (unfold len; lia).
  by rewrite take_app_length.
Qed.
End one_message.

(** ** Properties *)

(** C37. For every datagram and every well-formed decoder state, IPFIX decoding
    returns (the fuel is enough, variable-length and zero-width records included);
    the cache stays within its cap; at most 4096 records come out, every integer
    field inside its Go type and stamped with this exporter and domain; templates
    and rates of other exporters or domains are never installed or changed; and a
    reader error past the explicit length checks is impossible. *)
Theorem ipfix_decode_safe `{Runtime} (pkt : list byte) (exporter : string) (now : Time)
    (d : flowState) :
  len pkt < 2 ^ 62 → state_wf d →
  ∃ recs misses err d' domain,
    decode pkt exporter now d = Some (recs, misses, err, d') ∧
    state_wf d' ∧ kept exporter domain d d' ∧ 0 ≤ domain < 2 ^ 32 ∧
    len recs ≤ 4096 ∧ Forall (goodX exporter domain now) recs ∧ internal_errX err = false.
Proof.
  intros Hlen Wd. destruct (decode_specX pkt exporter now d Hlen Wd)
    as ([[[recs misses] err] d'] & domain & E & Hdom & (S1 & K1) & Hl & Hg & Hm & He).
  exists recs, misses, err, d', domain. repeat (split; [done|]). done.
Qed.

Lemma ipfix_decode_safe_witness :
  ∃ recs misses err d' domain,
    decode (bytes [0;10;0;16]) "10.0.0.1" zero_time empty_state = Some (recs, misses, err, d') ∧
    state_wf d' ∧ kept "10.0.0.1" domain empty_state d' ∧ 0 ≤ domain < 2 ^ 32 ∧
    len recs ≤ 4096 ∧ Forall (goodX "10.0.0.1" domain zero_time) recs ∧ internal_errX err = false.
Proof.
  apply (ipfix_decode_safe (bytes [0;10;0;16]) "10.0.0.1" zero_time empty_state);
    [vm_compute; reflexivity | apply empty_state_wf].
Defined.

(** C38. Round trip: a message that carries a template (enterprise and
    variable-length elements included) and a data set of records encoded against it
    decodes to exactly those records - vendor values skipped, the others folded in
    field order - in order, up to the 4096-record bound, with no miss and no error,
    whatever bytes follow the message length in the datagram. *)
Theorem ipfix_roundtrip `{Runtime} (exporter : string) (now : Time) (d : flowState)
    (secs seqno domain tid : Z) (fs : list templateField) (rowss : list (list (list byte)))
    (trailing : list byte) :
  let sets := encodeSet 2 (encodeTemplateX (tid, fs)) ++ encodeSet tid (rowss ≫= encodeRow fs) in
  let clk := mkClock zero_time (Unix secs 0) in
  state_wf d → 0 ≤ secs < 2 ^ 32 → 0 ≤ domain < 2 ^ 32 → templateX_ok (tid, fs) →
  Forall (Forall2 value_ok fs) rowss → 16 + len sets < 2 ^ 16 → len trailing < 2 ^ 61 →
  (∀ n, (tc_ticks (fs_templates d) < n ≤ tc_ticks (fs_templates d) + 2)%nat →
    Now n - Now (tc_ticks (fs_templates d)) ≤ tc_ttl (fs_templates d)) →
  ∃ d', decode (encodeMessage secs seqno domain sets ++ trailing) exporter now d
    = Some (firstn 4096 ((λ vs, row_recordX clk
              (newRecordX exporter domain now (sampling_get exporter domain (fs_sampling d)))
              (zip fs vs)) <$> rowss), 0, None, d').
Proof.
  intros sets clk Wd Hs Hd Ht Hrows Hlen Htr Hfresh.
  rewrite decode_headerX by done. fold clk.
  pose proof Ht as (Htid & Hn & Hfs). cbn [fst snd] in Htid, Hn, Hfs.
  set (pkt := encodeMessage secs seqno domain sets ++ trailing).
  assert (Hsets : len sets = 8 + len (encodeTemplateX (tid, fs)) + len (rowss ≫= encodeRow fs)).
  { unfold sets, encodeSet. rewrite !len_app, !len_be_bytes. lia. }
  pose proof (len_nonneg (encodeTemplateX (tid, fs))).
  pose proof (len_nonneg (rowss ≫= encodeRow fs)).
  assert (∃ fuel, length pkt = S (S fuel)) as [fuel ->].
  { exists (length pkt - 2)%nat. unfold pkt, encodeMessage. rewrite !length_app, !length_be_bytes.
    lia. }
  destruct (decode_loop_setX 2 (encodeTemplateX (tid, fs)) (encodeSet tid (rowss ≫= encodeRow fs))
    (S (S fuel)) exporter domain now clk (New sets) d [] 0) as (r1 & W1 & V1 & ->);
    [lia | lia | apply New_wf; lia | done |].
  cbn [Z.eqb Pos.eqb]. rewrite parseTemplates_encoded by done. cbn [mbind option_bind].
  set (t := mkTemplate fs false 0 false 0 0). set (d1 := put_template _ _ d).
  rewrite <- (app_nil_r (encodeSet tid _)) in V1.
  destruct (decode_loop_setX tid (rowss ≫= encodeRow fs) [] (S fuel) exporter domain now clk r1 d1
    [] 0) as (r2 & W2 & V2 & ->); [lia | lia | exact W1 | exact V1 |].
  rewrite (proj2 (Z.eqb_neq tid 2)), (proj2 (Z.eqb_neq tid 3)), (proj2 (Z.leb_le 256 tid)) by lia.
  assert (Hus : usable t).
  { apply usable_positive; [by apply specX_field | change (length fs ≤ 512)%nat; unfold len in Hn; lia
      | |].
    - destruct fs; [unfold len in Hn; cbn in Hn; lia | done].
    - eapply Forall_impl; [exact Hfs|]. intros f (_ & ? & _). lia. }
  destruct (put_template_get_usable (mkKey exporter domain tid) t d Wd Hus Hfresh) as [c' Eg].
  fold d1 in Eg. unfold decodeData. rewrite Eg. cbv zeta.
  set (tmpl := stored _ t) in *.
  assert (Wt : template_wf tmpl).
  { apply stored_wf; [by apply specX_field | change (length fs ≤ 512)%nat; unfold len in Hn; lia
      | done]. }
  rewrite (decodeData_loop_rowsX tmpl exporter domain now clk rowss);
    [| exact Wt | exact Hfs | exact (proj1 Hn) | done | exact Hrows | apply New_wf; lia | done
     | apply body_wf; lia | done].
  cbn [mbind option_bind length app]. rewrite Nat.sub_0_r. cbn [decode_loop].
  rewrite view_Remaining, V2 by done. cbn [default from_option Datatypes.id len length Z.of_nat
    Z.leb Z.compare]. rewrite (view_Err _ _ V2). eexists. reflexivity.
Qed.

(** Source port, a vendor element, and a variable-length byte count. *)
Definition demo_specs : list templateField :=
  [mkField ieSrcPort 2 0; mkField 12 0xFFFF 9; mkField ieInBytes 0xFFFF 0].

Definition demo_rows : list (list (list byte)) :=
  [[bytes [0;80]; bytes [1;2;3]; bytes [1;0]]; [bytes [1;187]; []; bytes [9]]].

Lemma ipfix_roundtrip_witness :
  ∃ d', decode (encodeMessage 1700000000 1 7
      (encodeSet 2 (encodeTemplateX (256, demo_specs)) ++
       encodeSet 256 (demo_rows ≫= encodeRow demo_specs)) ++ bytes [1;2;3]) "10.0.0.1" zero_time
      empty_state
    = Some (firstn 4096 ((λ vs, row_recordX (mkClock zero_time (Unix 1700000000 0))
              (newRecordX "10.0.0.1" 7 zero_time
                 (sampling_get "10.0.0.1" 7 (fs_sampling empty_state)))
              (zip demo_specs vs)) <$> demo_rows), 0, None, d').
Proof.
  apply (ipfix_roundtrip "10.0.0.1" zero_time empty_state 1700000000 1 7 256 demo_specs demo_rows
    (bytes [1;2;3])).
  - apply empty_state_wf.
  - lia.
  - lia.
  - split; [cbn; lia|]. split; [vm_compute; split; discriminate|].
    repeat (apply List.Forall_cons || apply List.Forall_nil); split_and!; cbn; try lia; done.
  - repeat (apply List.Forall_cons || apply List.Forall_nil || apply List.Forall2_cons ||
      apply List.Forall2_nil); vm_compute; reflexivity.
  - vm_compute; reflexivity.
  - vm_compute; reflexivity.
  - intros n Hn. change (Z.of_nat n - 0 ≤ 1800000000000). change (0 < n ≤ 2)%nat in Hn. lia.
Defined.
