(* ===== verification/SFlow.v ===== *)
(** * internal/flow/sflow.go: the sFlow v5 decoder

    Samples, records and the sampled packet header (Ethernet, 802.1Q, IPv4, IPv6,
    TCP, UDP).  The parsers that fill a record through a pointer take the record and
    give it back with their boolean answer. *)

From S2P Require Import Prelude GoTime Wire FlowModel.
#[local] Open Scope Z_scope.

Definition sflowMaxSamples : Z := 256.
Definition sflowMaxRecords : Z := 64.

Inductive sflow_err :=
| SfBadVersion (v : Z)
| SfBadAgentType (t : Z)
| SfTruncatedHeader
| SfSampleCount (n : Z)
| SfTruncatedSample (i : Z).

(** BigEndian.Uint16(h[i:i+2]) *)
Definition u16at (h : list byte) (i : Z) : Z := be_uint (slice h i (i + 2)).

Definition parseL4 (h : list byte) (rec : FRecord) : FRecord :=
  if f_Transport rec =? 6 then
    if 14 <=? len h then
      rec <| f_SrcPort := u16at h 0 |> <| f_DstPort := u16at h 2 |> <| f_TCPFlags := at_ h 13 |>
    else if 4 <=? len h then
      rec <| f_SrcPort := u16at h 0 |> <| f_DstPort := u16at h 2 |>
    else rec
  else if f_Transport rec =? 17 then
    if 4 <=? len h then rec <| f_SrcPort := u16at h 0 |> <| f_DstPort := u16at h 2 |>
    else rec
  else rec.

Definition parseIPv4 (h : list byte) (rec : FRecord) : FRecord * bool :=
  if (len h <? 20) || negb (Z.shiftr (at_ h 0) 4 =? 4) then (rec, false) else
  let ihl := Z.land (at_ h 0) 0x0F * 4 in
  if (ihl <? 20) || (len h <? ihl) then (rec, false) else
  let rec := rec <| f_ToS := at_ h 1 |> <| f_Transport := at_ h 9 |>
    <| f_SrcAddr := AddrFrom4 (slice h 12 16) |> <| f_DstAddr := AddrFrom4 (slice h 16 20) |> in
  (parseL4 (slice h ihl (len h)) rec, true).

Definition parseIPv6 (h : list byte) (rec : FRecord) : FRecord * bool :=
  if (len h <? 40) || negb (Z.shiftr (at_ h 0) 4 =? 6) then (rec, false) else
  let rec := rec
    <| f_ToS := Z.lor (u8 (Z.shiftl (Z.land (at_ h 0) 0x0F) 4)) (Z.shiftr (at_ h 1) 4) |>
    <| f_Transport := at_ h 6 |>
    <| f_SrcAddr := AddrFrom16 (slice h 8 24) |> <| f_DstAddr := AddrFrom16 (slice h 24 40) |> in
  (parseL4 (slice h 40 (len h)) rec, true).

Definition parseEthernet (h : list byte) (rec : FRecord) : FRecord * bool :=
  if len h <? 14 then (rec, false) else
  let dispatch (etherType off : Z) (rec : FRecord) :=
    if etherType =? 0x0800 then parseIPv4 (slice h off (len h)) rec
    else if etherType =? 0x86DD then parseIPv6 (slice h off (len h)) rec
    else (rec, false) in
  let etherType := u16at h 12 in
  if etherType =? 0x8100 then
    if len h <? 18 then (rec, false)
    else dispatch (u16at h 16) 18 (rec <| f_VLAN := Z.land (u16at h 14) 0x0FFF |>)
  else dispatch etherType 14 rec.

(** [None] is [Record{}, false]. *)
Definition parseRawPacketHeader (b : list byte) : option FRecord :=
  let '(proto, r) := U32 (New b) in
  let '(frameLen, r) := U32 r in
  let '(_, r) := Skip 4 r in
  let '(hdrLen, r) := U32 r in
  let '(hdr, r) := BytesAligned hdrLen 4 r in
  if bool_decide (Err r ≠ None) || negb (proto =? 1) then None else
  let '(rec, ok) := parseEthernet hdr (zero_record <| f_Bytes := frameLen |>) in
  if ok then Some rec else None.

(** The record loop: [n] iterations are left; [rate] is normalized in place. *)
Fixpoint records_loop (n : nat) (r : Reader) (exporter : string) (subAgent rate inIf outIf : Z)
    (now : Time) (out : list FRecord) : list FRecord :=
  match n with
  | O => out
  | S n =>
      if bool_decide (Err r ≠ None) then out else
      let '(recType, r) := U32 r in
      let '(recLen, r) := U32 r in
      let '(body, r) := BytesAligned recLen 4 r in
      if bool_decide (Err r ≠ None) then out else
      if negb (Z.land recType 0xFFF =? 1) || negb (Z.shiftr recType 12 =? 0)
      then records_loop n r exporter subAgent rate inIf outIf now out else
      match parseRawPacketHeader body with
      | None => records_loop n r exporter subAgent rate inIf outIf now out
      | Some rec =>
          let rec := rec <| f_Exporter := exporter |> <| f_ObservationDomain := subAgent |>
            <| f_Protocol := ProtoSFlow5 |> <| f_ObservedAt := now |>
            <| f_Start := now |> <| f_End := now |>
            <| f_InIf := inIf |> <| f_OutIf := outIf |> in
          let rate := if rate =? 0 then 1 else rate in
          let rec := rec <| f_SamplingRate := rate |> <| f_Packets := 1 |> in
          records_loop n r exporter subAgent rate inIf outIf now (out ++ [rec])
      end
  end.

Definition decodeSFlowRecords (r : Reader) (exporter : string) (subAgent rate inIf outIf : Z)
    (now : Time) (out : list FRecord) : list FRecord :=
  let '(n, r) := U32 r in
  if (n <=? 0) || (sflowMaxRecords <? n) || bool_decide (Err r ≠ None) then out
  else records_loop (Z.to_nat n) r exporter subAgent rate inIf outIf now out.

Definition decodeSFlowSample (b : list byte) (expanded : bool) (exporter : string) (subAgent : Z)
    (now : Time) (out : list FRecord) : list FRecord :=
  let '(_, r) := Skip 4 (New b) in
  if expanded then
    let '(_, r) := Skip 8 r in
    let '(rate, r) := U32 r in
    let '(_, r) := Skip 8 r in
    let '(_, r) := Skip 4 r in
    let '(inIf, r) := U32 r in
    let '(_, r) := Skip 4 r in
    let '(outIf, r) := U32 r in
    decodeSFlowRecords r exporter subAgent rate inIf outIf now out
  else
    let '(_, r) := Skip 4 r in
    let '(rate, r) := U32 r in
    let '(_, r) := Skip 8 r in
    let '(inIf, r) := U32 r in
    let '(outIf, r) := U32 r in
    decodeSFlowRecords r exporter subAgent rate inIf outIf now out.

(** The sample loop: [n] iterations are left, the next has index [i]. *)
Fixpoint samples_loop (n : nat) (i : Z) (r : Reader) (exporter : string) (subAgent : Z) (now : Time)
    (out : list FRecord) : list FRecord * option sflow_err :=
  match n with
  | O => (out, None)
  | S n =>
      if bool_decide (Err r ≠ None) then (out, None) else
      let '(sampleType, r) := U32 r in
      let '(sampleLen, r) := U32 r in
      let '(body, r) := BytesAligned sampleLen 4 r in
      if bool_decide (Err r ≠ None) then (out, Some (SfTruncatedSample i)) else
      let format := Z.land sampleType 0xFFF in
      if negb (Z.shiftr sampleType 12 =? 0)
      then samples_loop n (i + 1) r exporter subAgent now out
      else if format =? 1 then
        samples_loop n (i + 1) r exporter subAgent now
          (decodeSFlowSample body false exporter subAgent now out)
      else if format =? 3 then
        samples_loop n (i + 1) r exporter subAgent now
          (decodeSFlowSample body true exporter subAgent now out)
      else samples_loop n (i + 1) r exporter subAgent now out
  end.

(** What follows the agent address. *)
Definition afterAgent (r : Reader) (exporter : string) (now : Time)
    : list FRecord * option sflow_err :=
  let '(subAgent, r) := U32 r in
  let '(_, r) := Skip 4 r in
  let '(_, r) := Skip 4 r in
  let '(n, r) := U32 r in
  if bool_decide (Err r ≠ None) then ([], Some SfTruncatedHeader) else
  if (n <=? 0) || (sflowMaxSamples <? n) then ([], Some (SfSampleCount n)) else
  samples_loop (Z.to_nat n) 0 r exporter subAgent now [].

Definition decodeSFlow (pkt : list byte) (exporter : string) (now : Time)
    : list FRecord * option sflow_err :=
  let '(v, r) := U32 (New pkt) in
  if negb (v =? 5) then ([], Some (SfBadVersion v)) else
  let '(addrType, r) := U32 r in
  if addrType =? 1 then afterAgent (Skip 4 r).2 exporter now
  else if addrType =? 2 then afterAgent (Skip 16 r).2 exporter now
  else ([], Some (SfBadAgentType addrType)).

(** ** Lemmas: the packet header parsers stay in range *)

Lemma u16at_range h i : 0 ≤ u16at h i < 2 ^ 16.
Proof.
  unfold u16at. apply (be_uint_lt _ 2). unfold slice. rewrite length_take. lia.
Qed.

Lemma nibble_range x : 0 ≤ Z.land x 0x0F < 16.
Proof. change 0x0F with (Z.ones 4). rewrite Z.land_ones by lia. apply Z.mod_pos_bound. lia. Qed.

(** The traffic class spans two bytes. *)
Lemma traffic_class a b :
  0 ≤ b < 256 →
  Z.lor (u8 (Z.shiftl (Z.land a 0x0F) 4)) (Z.shiftr b 4) = (a mod 16) * 16 + b / 16.
Proof.
  intros Hb. change 0x0F with (Z.ones 4). rewrite Z.land_ones by lia. change (2 ^ 4) with 16.
  pose proof (Z.mod_pos_bound a 16 ltac:(lia)) as Ha.
  rewrite Z.shiftr_div_pow2 by lia. change (2 ^ 4) with 16.
  assert (0 ≤ b / 16 < 16) by (split; [apply Z.div_pos; lia | apply Z.div_lt_upper_bound; lia]).
  assert (Hu : u8 (Z.shiftl (a mod 16) 4) = Z.shiftl (a mod 16) 4).
  { apply Z.mod_small. rewrite Z.shiftl_mul_pow2 by lia. change (2 ^ 4) with 16. lia. }
  rewrite Hu, lor_shiftl_add by lia. done.
Qed.

Lemma parseL4_wf h rec : record_wf rec → record_wf (parseL4 h rec).
Proof.
  intros W. pose proof (u16at_range h 0). pose proof (u16at_range h 2). pose proof (at_range h 13).
  unfold parseL4. go_cases; try done; unfold record_wf in *; cbn -[Z.pow]; split_and!; lia.
Qed.

(** A header that parses is long enough and gives a record in range. *)
Definition parsed_ok (minlen : Z) (h : list byte) (p : FRecord * bool) : Prop :=
  p.2 = true → minlen ≤ len h ∧ record_wf p.1.

Lemma parseIPv4_ok h rec : record_wf rec → parsed_ok 20 h (parseIPv4 h rec).
Proof.
  intros W. unfold parseIPv4, parsed_ok. destruct ((len h <? 20) || _) eqn:Hh; [done|].
  zbool. cbv zeta. destruct (_ || _); [done|]. intros _. split; [lia|]. cbn [fst]. apply parseL4_wf.
  pose proof (at_range h 1). pose proof (at_range h 9).
  unfold record_wf in *. cbn -[Z.pow]. split_and!; lia.
Qed.

Lemma parseIPv6_ok h rec : record_wf rec → parsed_ok 40 h (parseIPv6 h rec).
Proof.
  intros W. unfold parseIPv6, parsed_ok. destruct (_ || _) eqn:Hh; [done|].
  intros _. zbool. split; [lia|]. cbn [fst]. apply parseL4_wf.
  pose proof (at_range h 0). pose proof (at_range h 1) as Hb. pose proof (at_range h 6).
  rewrite (traffic_class (at_ h 0) (at_ h 1) Hb).
  pose proof (Z.mod_pos_bound (at_ h 0) 16 ltac:(lia)).
  assert (0 ≤ at_ h 1 / 16 < 16)
    by (split; [apply Z.div_pos; lia | apply Z.div_lt_upper_bound; lia]).
  unfold record_wf in *. cbn -[Z.pow]. split_and!; lia.
Qed.

Lemma slice_tail_len (h : list byte) off :
  0 ≤ off → off ≤ len h → len (slice h off (len h)) = len h - off.
Proof. intros. apply len_slice; lia. Qed.

Lemma parseEthernet_ok h rec : record_wf rec → parsed_ok 34 h (parseEthernet h rec).
Proof.
  intros W. unfold parseEthernet, parsed_ok. destruct (len h <? 14) eqn:H14; [done|]. zbool.
  assert (Hd : ∀ etherType off rec, record_wf rec → 14 ≤ off ≤ len h →
    let p := if etherType =? 0x0800 then parseIPv4 (slice h off (len h)) rec
             else if etherType =? 0x86DD then parseIPv6 (slice h off (len h)) rec
             else (rec, false) in
    p.2 = true → 34 ≤ len h ∧ record_wf p.1).
  { intros et off rec0 W0 Hoff. cbv zeta.
    destruct (et =? 0x0800); [|destruct (et =? 0x86DD); [|done]]; intros Hok.
    - destruct (parseIPv4_ok (slice h off (len h)) rec0 W0 Hok) as [Hl Hw].
      rewrite slice_tail_len in Hl by lia. split; [lia | done].
    - destruct (parseIPv6_ok (slice h off (len h)) rec0 W0 Hok) as [Hl Hw].
      rewrite slice_tail_len in Hl by lia. split; [lia | done]. }
  destruct (u16at h 12 =? 0x8100); [|apply Hd; [done | lia]].
  destruct (len h <? 18) eqn:H18; [done|]. zbool. apply Hd; [|lia].
  pose proof (Z.mod_pos_bound (u16at h 14) (2 ^ 12) ltac:(lia)).
  change 0x0FFF with (Z.ones 12). rewrite Z.land_ones by lia.
  unfold record_wf in *. cbn -[Z.pow Z.modulo]. split_and!; lia.
Qed.

(** Every emitted record costs at least 50 bytes of record body. *)
Lemma parseRawPacketHeader_ok b rec :
  len b < 2 ^ 62 → parseRawPacketHeader b = Some rec → 50 ≤ len b ∧ record_wf rec.
Proof.
  intros Hb. unfold parseRawPacketHeader. pose proof (New_wf b Hb) as W0.
  assert (Hr0 : Remaining (New b) = len b) by (unfold Remaining, New; cbn; lia).
  destruct (U32 (New b)) as [proto r1] eqn:E1.
  destruct (U32 r1) as [frameLen r2] eqn:E2. destruct (Skip 4 r2) as [[] r3] eqn:E3.
  destruct (U32 r3) as [hdrLen r4] eqn:E4. destruct (BytesAligned hdrLen 4 r4) as [hdr r5] eqn:E5.
  destruct (bool_decide _) eqn:He; [done|]. cbn [orb].
  apply bool_decide_eq_false, dec_stable in He.
  destruct (negb _); [done|].
  pose proof (U32_safe _ W0) as (W1 & _). rewrite E1 in W1. cbn [snd] in W1.
  pose proof (U32_safe _ W1) as (W2 & _). rewrite E2 in W2. cbn [snd] in W2.
  pose proof (Skip_safe 4 _ W2) as (W3 & _). rewrite E3 in W3. cbn [snd] in W3.
  pose proof (U32_range r1 W1) as Hf. rewrite E2 in Hf. cbn [fst] in Hf.
  pose proof (U32_range r3 W3) as Hh. rewrite E4 in Hh. cbn [fst] in Hh.
  pose proof (U32_safe _ W3) as (W4 & _). rewrite E4 in W4. cbn [snd] in W4.
  destruct (BytesAligned_ok_inv hdrLen 4 r4 W4 ltac:(lia)) as (He4 & _ & Hl & Hr); rewrite ?E5; [done|].
  rewrite E5 in Hl, Hr. cbn [fst snd] in Hl, Hr.
  destruct (U32_ok_inv r3 W3) as (He3 & Hr3); rewrite ?E4; [done|]. rewrite E4 in Hr3. cbn in Hr3.
  assert (Hr2 : Remaining r3 = Remaining r2 - 4).
  { unfold Skip in E3. rewrite run_bind, run_ret in E3.
    destruct (rtake_ok_inv 4 r2 W2 ltac:(lia)) as (_ & l & r' & Et & _ & _ & Hrem).
    { injection E3 as E3. by rewrite E3. }
    rewrite Et in E3. injection E3 as <-. exact Hrem. }
  assert (He2 : Err r2 = None).
  { destruct (Skip_safe 4 r2 W2) as (_ & _ & _ & D). rewrite E3 in D. cbn in D. unfold Err in *.
    destruct (r_err r2) eqn:E; [|done]. rewrite D in He3 by done. congruence. }
  destruct (U32_ok_inv r1 W1) as (He1 & Hr1); rewrite ?E2; [done|]. rewrite E2 in Hr1. cbn in Hr1.
  destruct (U32_ok_inv (New b) W0) as (_ & Hr0'); rewrite ?E1; [done|]. rewrite E1 in Hr0'. cbn in Hr0'.
  pose proof (BytesAligned_safe hdrLen 4 _ W4) as (W5 & _). rewrite E5 in W5.
  pose proof (Remaining_nonneg _ W5) as Hnn. cbn in Hnn.
  assert (Hz : record_wf (zero_record <| f_Bytes := frameLen |>)).
  { unfold record_wf. cbn -[Z.pow]. lia. }
  pose proof (parseEthernet_ok hdr _ Hz) as Hp. unfold parsed_ok in Hp.
  destruct (parseEthernet hdr _) as [rec' ok]. destruct ok; [|done]. intros [= <-].
  destruct (Hp eq_refl) as [H34 Hw]. split; [lia | exact Hw].
Qed.

(** ** Lemmas: records and samples *)

(** A record the sFlow decoder may emit. *)
Definition goodS (exporter : string) (subAgent : Z) (now : Time) (rec : FRecord) : Prop :=
  record_wf rec ∧ f_Exporter rec = exporter ∧ f_ObservationDomain rec = subAgent ∧
  f_Protocol rec = ProtoSFlow5 ∧ f_ObservedAt rec = now ∧ f_Start rec = now ∧ f_End rec = now ∧
  f_Packets rec = 1 ∧ 1 ≤ f_SamplingRate rec.

(** [new] was produced from at most [budget] input bytes, at most [k] records. *)
Definition produced (exporter : string) (subAgent : Z) (now : Time) (budget k : Z)
    (new : list FRecord) : Prop :=
  Forall (goodS exporter subAgent now) new ∧ 58 * len new ≤ budget ∧ len new ≤ k.

Lemma produced_nil exporter subAgent now budget k :
  0 ≤ budget → 0 ≤ k → produced exporter subAgent now budget k [].
Proof. intros. split_and!; [constructor | unfold len; cbn; lia | unfold len; cbn; lia]. Qed.

Lemma produced_app exporter subAgent now b1 b2 b k1 k2 k new1 new2 :
  produced exporter subAgent now b1 k1 new1 → produced exporter subAgent now b2 k2 new2 →
  b1 + b2 ≤ b → k1 + k2 ≤ k → produced exporter subAgent now b k (new1 ++ new2).
Proof.
  intros (G1 & B1 & K1) (G2 & B2 & K2) Hb Hk.
  split_and!; [by apply Forall_app | rewrite len_app; lia..].
Qed.

(** The reads of one XDR-opaque item: type, length, aligned body. *)
Lemma item_ok r body r' ty n r1 r2 :
  wf r → U32 r = (ty, r1) → U32 r1 = (n, r2) → BytesAligned n 4 r2 = (body, r') →
  wf r' ∧ 0 ≤ ty < 2 ^ 32 ∧
  (Err r' = None → len body = n ∧ len body < 2 ^ 62 ∧ Remaining r' ≤ Remaining r - 8 - len body).
Proof.
  intros W E1 E2 E3. pose proof (U32_range r W) as Ht. rewrite E1 in Ht.
  destruct (U32_safe r W) as (W1 & _). rewrite E1 in W1. cbn in W1.
  pose proof (U32_range r1 W1) as Hn. rewrite E2 in Hn. cbn [fst] in Hn.
  destruct (U32_safe r1 W1) as (W2 & _). rewrite E2 in W2. cbn in W2.
  destruct (BytesAligned_safe n 4 r2 W2) as (W3 & _). rewrite E3 in W3. cbn in W3.
  split; [done|]. split; [exact Ht|]. intros He.
  destruct (BytesAligned_ok_inv n 4 r2 W2 ltac:(lia)) as (He2 & _ & Hl & Hr); rewrite ?E3; [done|].
  rewrite E3 in Hl, Hr. cbn [fst snd] in Hl, Hr.
  destruct (U32_ok_inv r1 W1) as (He1 & Hr1); rewrite ?E2; [done|]. rewrite E2 in Hr1. cbn in Hr1.
  destruct (U32_ok_inv r W) as (He0 & Hr0); rewrite ?E1; [done|]. rewrite E1 in Hr0. cbn in Hr0.
  split_and!; [done | lia | lia].
Qed.

Lemma records_loop_spec n r exporter subAgent rate inIf outIf now out :
  wf r → 0 ≤ subAgent < 2 ^ 32 → 0 ≤ rate < 2 ^ 32 → 0 ≤ inIf < 2 ^ 32 → 0 ≤ outIf < 2 ^ 32 →
  ∃ new, records_loop n r exporter subAgent rate inIf outIf now out = out ++ new ∧
    produced exporter subAgent now (Remaining r) (Z.of_nat n) new.
Proof.
  intros W Hs Hr Hi Ho. revert r rate out W Hr.
  induction n as [|n IH]; intros r rate out W Hr; cbn [records_loop];
    pose proof (Remaining_nonneg _ W) as Hnn.
  { exists []. rewrite app_nil_r. split; [done|]. by apply produced_nil. }
  assert (Hstop : ∃ new, out = out ++ new ∧
    produced exporter subAgent now (Remaining r) (Z.of_nat (S n)) new).
  { exists []. rewrite app_nil_r. split; [done|]. apply produced_nil; lia. }
  destruct (bool_decide (Err r ≠ None)); [exact Hstop|].
  destruct (U32 r) as [recType r1] eqn:E1. destruct (U32 r1) as [recLen r2] eqn:E2.
  destruct (BytesAligned recLen 4 r2) as [body r3] eqn:E3.
  destruct (item_ok _ _ _ _ _ _ _ W E1 E2 E3) as (W3 & _ & Hitem).
  destruct (bool_decide (Err r3 ≠ None)) eqn:He; [exact Hstop|].
  apply bool_decide_eq_false, dec_stable in He.
  destruct (Hitem He) as (Hl & Hb & Hrem). pose proof (len_nonneg body).
  assert (Hskip : ∃ new, records_loop n r3 exporter subAgent rate inIf outIf now out = out ++ new ∧
    produced exporter subAgent now (Remaining r) (Z.of_nat (S n)) new).
  { destruct (IH r3 rate out W3 Hr) as (new & E & P1 & P2 & P3). exists new. split; [done|].
    split_and!; [done | lia | lia]. }
  destruct (_ || _); [exact Hskip|].
  destruct (parseRawPacketHeader body) as [rec|] eqn:Ep; [|exact Hskip].
  destruct (parseRawPacketHeader_ok body rec Hb Ep) as [H50 Hw].
  set (rate' := if rate =? 0 then 1 else rate).
  assert (Hr' : 1 ≤ rate' < 2 ^ 32).
  { unfold rate'. destruct (rate =? 0) eqn:?; zbool; lia. }
  match goal with |- context [out ++ [?x]] => set (rec1 := x) end.
  destruct (IH r3 rate' (out ++ [rec1]) W3 ltac:(lia)) as (new & E & P).
  exists (rec1 :: new). rewrite E, <- app_assoc. split; [done|].
  apply (produced_app _ _ _ 58 (Remaining r3) _ 1 (Z.of_nat n) _ [rec1] new);
    [|exact P | lia | lia].
  split_and!; [|unfold len; cbn; lia | unfold len; cbn; lia].
  apply Forall_singleton. unfold goodS, rec1, record_wf in *. cbn -[Z.pow] in *.
  split_and!; try done; lia.
Qed.

Lemma decodeSFlowRecords_spec r exporter subAgent rate inIf outIf now out :
  wf r → 0 ≤ subAgent < 2 ^ 32 → 0 ≤ rate < 2 ^ 32 → 0 ≤ inIf < 2 ^ 32 → 0 ≤ outIf < 2 ^ 32 →
  ∃ new, decodeSFlowRecords r exporter subAgent rate inIf outIf now out = out ++ new ∧
    produced exporter subAgent now (Remaining r) 64 new.
Proof.
  intros W Hs Hr Hi Ho. unfold decodeSFlowRecords, sflowMaxRecords.
  pose proof (safe_Remaining U32 r W) as Hm. destruct (U32_safe r W) as (W1 & _).
  destruct (U32 r) as [n r1]. cbn [snd] in *. pose proof (Remaining_nonneg _ W).
  destruct (_ || _) eqn:Hb.
  { exists []. rewrite app_nil_r. split; [done|]. by apply produced_nil. }
  zbool. destruct (records_loop_spec (Z.to_nat n) r1 exporter subAgent rate inIf outIf now out)
    as (new & E & P1 & P2 & P3); try done.
  exists new. split; [done|]. split_and!; [done | lia | lia].
Qed.

(** Step a translated decoder through one read, whether or not it fits. *)
Ltac read_any m r W :=
  let W' := fresh "W" in let Hm := fresh "Hm" in
  pose proof (safe_Remaining m r W) as Hm;
  assert (W' : wf (m r).2) by (by apply safe);
  try pose proof (U32_range r W);
  destruct (m r) as [? ?]; cbn [fst snd] in *.

Lemma decodeSFlowSample_spec b expanded exporter subAgent now out :
  len b < 2 ^ 62 → 0 ≤ subAgent < 2 ^ 32 →
  ∃ new, decodeSFlowSample b expanded exporter subAgent now out = out ++ new ∧
    produced exporter subAgent now (len b) 64 new.
Proof.
  intros Hb Hs. unfold decodeSFlowSample. pose proof (New_wf b Hb) as W.
  assert (Hr : Remaining (New b) = len b) by (unfold Remaining, New; cbn; lia).
  assert (Hfin : ∀ r rate inIf outIf, wf r → Remaining r ≤ len b → 0 ≤ rate < 2 ^ 32 →
    0 ≤ inIf < 2 ^ 32 → 0 ≤ outIf < 2 ^ 32 →
    ∃ new, decodeSFlowRecords r exporter subAgent rate inIf outIf now out = out ++ new ∧
      produced exporter subAgent now (len b) 64 new).
  { intros r rate inIf outIf Wr Hrr H1 H2 H3.
    destruct (decodeSFlowRecords_spec r exporter subAgent rate inIf outIf now out Wr Hs H1 H2 H3)
      as (new & E & P1 & P2 & P3).
    exists new. split; [done|]. split_and!; [done | lia | done]. }
  read_any (Skip 4) (New b) W. destruct expanded.
  - read_any (Skip 8) r W0. read_any U32 r0 W1. read_any (Skip 8) r1 W2. read_any (Skip 4) r2 W3.
    read_any U32 r3 W4. read_any (Skip 4) r4 W5. read_any U32 r5 W6. apply Hfin; try done; lia.
  - read_any (Skip 4) r W0. read_any U32 r0 W1. read_any (Skip 8) r1 W2. read_any U32 r2 W3.
    read_any U32 r3 W4. apply Hfin; try done; lia.
Qed.

Lemma samples_loop_spec n i r exporter subAgent now out :
  wf r → 0 ≤ subAgent < 2 ^ 32 →
  ∃ new err, samples_loop n i r exporter subAgent now out = (out ++ new, err) ∧
    produced exporter subAgent now (Remaining r) (64 * Z.of_nat n) new.
Proof.
  intros W Hs. revert i r out W.
  induction n as [|n IH]; intros i r out W; cbn [samples_loop];
    pose proof (Remaining_nonneg _ W) as Hnn.
  { exists [], None. rewrite app_nil_r. split; [done|]. by apply produced_nil. }
  assert (Hstop : ∀ e : option sflow_err, ∃ new err, (out, e) = (out ++ new, err) ∧
    produced exporter subAgent now (Remaining r) (64 * Z.of_nat (S n)) new).
  { intros e. exists [], e. rewrite app_nil_r. split; [done|]. apply produced_nil; lia. }
  destruct (bool_decide (Err r ≠ None)); [apply Hstop|].
  destruct (U32 r) as [ty r1] eqn:E1. destruct (U32 r1) as [sl r2] eqn:E2.
  destruct (BytesAligned sl 4 r2) as [body r3] eqn:E3.
  destruct (item_ok _ _ _ _ _ _ _ W E1 E2 E3) as (W3 & _ & Hitem).
  destruct (bool_decide (Err r3 ≠ None)) eqn:He; [apply Hstop|].
  apply bool_decide_eq_false, dec_stable in He.
  destruct (Hitem He) as (Hl & Hb & Hrem). pose proof (len_nonneg body).
  assert (Hgo : ∀ out1 new1, out1 = out ++ new1 → produced exporter subAgent now (len body) 64 new1 →
    ∃ new err, samples_loop n (i + 1) r3 exporter subAgent now out1 = (out ++ new, err) ∧
      produced exporter subAgent now (Remaining r) (64 * Z.of_nat (S n)) new).
  { intros out1 new1 -> P1. destruct (IH (i + 1) r3 (out ++ new1) W3) as (new & err & E & P2).
    exists (new1 ++ new), err. rewrite app_assoc. split; [done|].
    eapply produced_app; [exact P1 | exact P2 | lia | lia]. }
  assert (Hnone : ∃ new err, samples_loop n (i + 1) r3 exporter subAgent now out = (out ++ new, err) ∧
      produced exporter subAgent now (Remaining r) (64 * Z.of_nat (S n)) new).
  { apply (Hgo out []); [by rewrite app_nil_r | by apply produced_nil]. }
  destruct (negb _); [exact Hnone|].
  destruct (_ =? 1); [|destruct (_ =? 3); [|exact Hnone]];
    edestruct decodeSFlowSample_spec as (new1 & En & Pn); [exact Hb | exact Hs | | exact Hb | exact Hs |];
    by eapply Hgo; [exact En|].
Qed.

Lemma decodeSFlow_spec pkt exporter now :
  len pkt < 2 ^ 62 →
  ∃ subAgent, 0 ≤ subAgent < 2 ^ 32 ∧
    produced exporter subAgent now (len pkt) (256 * 64) (decodeSFlow pkt exporter now).1.
Proof.
  intros Hlen. unfold decodeSFlow. pose proof (New_wf pkt Hlen) as W.
  assert (Hr : Remaining (New pkt) = len pkt) by (unfold Remaining, New; cbn; lia).
  pose proof (len_nonneg pkt).
  assert (Hnone : ∃ subAgent, 0 ≤ subAgent < 2 ^ 32 ∧
    produced exporter subAgent now (len pkt) (256 * 64) (@nil FRecord)).
  { exists 0. split; [lia|]. by apply produced_nil. }
  read_any U32 (New pkt) W. destruct (negb _); [exact Hnone|]. read_any U32 r W0.
  assert (Hafter : ∀ r, wf r → Remaining r ≤ len pkt → ∃ subAgent, 0 ≤ subAgent < 2 ^ 32 ∧
    produced exporter subAgent now (len pkt) (256 * 64) (afterAgent r exporter now).1).
  { clear dependent r0. intros r0 Wr Hrr. unfold afterAgent, sflowMaxSamples. read_any U32 r0 Wr. read_any (Skip 4) r1 W1.
    read_any (Skip 4) r2 W2. read_any U32 r3 W3.
    destruct (bool_decide _); [exact Hnone|]. destruct (_ || _) eqn:Hn; [exact Hnone|]. zbool.
    destruct (samples_loop_spec (Z.to_nat z2) 0 r4 exporter z1 now [] W4 ltac:(lia))
      as (new & err & E & P1 & P2 & P3).
    exists z1. split; [lia|]. rewrite E. split_and!; cbn [fst app]; [done | lia | lia]. }
  destruct (z0 =? 1); [|destruct (z0 =? 2); [|exact Hnone]]; apply Hafter; try (by apply safe).
  - pose proof (safe_Remaining (Skip 4) r0 W1). lia.
  - pose proof (safe_Remaining (Skip 16) r0 W1). lia.
Qed.

(** ** Reference encoder *)

(** The transport header of a sampled packet: what the 5-tuple needs of it. *)
Inductive l4 :=
| TCP (sp dp : Z) (mid : list byte) (flags : byte) (tail : list byte)
| UDP (sp dp : Z) (tail : list byte)
| OtherL4 (proto : byte) (payload : list byte).

Definition l4_proto (t : l4) : Z :=
  match t with TCP _ _ _ _ _ => 6 | UDP _ _ _ => 17 | OtherL4 p _ => byteZ p end.

Definition encodeL4 (t : l4) : list byte :=
  match t with
  | TCP sp dp mid flags tail => be_bytes 2 sp ++ be_bytes 2 dp ++ mid ++ [flags] ++ tail
  | UDP sp dp tail => be_bytes 2 sp ++ be_bytes 2 dp ++ tail
  | OtherL4 _ payload => payload
  end.

Definition l4_ok (t : l4) : Prop :=
  match t with
  | TCP sp dp mid _ _ => 0 ≤ sp < 2 ^ 16 ∧ 0 ≤ dp < 2 ^ 16 ∧ length mid = 9%nat
  | UDP sp dp _ => 0 ≤ sp < 2 ^ 16 ∧ 0 ≤ dp < 2 ^ 16
  | OtherL4 p _ => byteZ p ≠ 6 ∧ byteZ p ≠ 17
  end.

Definition with_l4 (t : l4) (rec : FRecord) : FRecord :=
  let rec := rec <| f_Transport := l4_proto t |> in
  match t with
  | TCP sp dp _ flags _ =>
      rec <| f_SrcPort := sp |> <| f_DstPort := dp |> <| f_TCPFlags := byteZ flags |>
  | UDP sp dp _ => rec <| f_SrcPort := sp |> <| f_DstPort := dp |>
  | OtherL4 _ _ => rec
  end.

(** The network header; fields that decoding ignores are kept as raw bytes. *)
Inductive l3 :=
| IPv4 (tos : byte) (mid : list byte) (cksum src dst options : list byte)
| IPv6 (tc : byte) (label : list byte) (plen : list byte) (hops : byte) (src dst : list byte).

Definition encodeL3 (n : l3) (proto : Z) : list byte :=
  match n with
  | IPv4 tos mid cksum src dst options =>
      [Zbyte (0x40 + 5 + len options / 4); tos] ++ mid ++ [Zbyte proto] ++ cksum ++ src ++ dst ++
      options
  | IPv6 tc label plen hops src dst =>
      [Zbyte (0x60 + byteZ tc / 16); Zbyte (byteZ tc mod 16 * 16)] ++ label ++ plen ++
      [Zbyte proto; hops] ++ src ++ dst
  end.

Definition l3_ok (n : l3) : Prop :=
  match n with
  | IPv4 _ mid cksum src dst options =>
      length mid = 7%nat ∧ length cksum = 2%nat ∧ length src = 4%nat ∧ length dst = 4%nat ∧
      len options mod 4 = 0 ∧ len options ≤ 40
  | IPv6 _ label plen _ src dst =>
      length label = 2%nat ∧ length plen = 2%nat ∧ length src = 16%nat ∧ length dst = 16%nat
  end.

Definition with_l3 (n : l3) (rec : FRecord) : FRecord :=
  match n with
  | IPv4 tos _ _ src dst _ =>
      rec <| f_ToS := byteZ tos |> <| f_SrcAddr := AddrFrom4 src |> <| f_DstAddr := AddrFrom4 dst |>
  | IPv6 tc _ _ _ src dst =>
      rec <| f_ToS := byteZ tc |> <| f_SrcAddr := AddrFrom16 src |> <| f_DstAddr := AddrFrom16 dst |>
  end.

Record frame := mkFrame { fr_macs : list byte; fr_tag : option Z; fr_l3 : l3; fr_l4 : l4 }.

Definition frame_ok (f : frame) : Prop :=
  length (fr_macs f) = 12%nat ∧ (∀ t, fr_tag f = Some t → 0 ≤ t < 2 ^ 16) ∧
  l3_ok (fr_l3 f) ∧ l4_ok (fr_l4 f).

Definition etherTypeOf (n : l3) : Z :=
  match n with IPv4 _ _ _ _ _ _ => 0x0800 | IPv6 _ _ _ _ _ _ => 0x86DD end.

Definition encodeFrame (f : frame) : list byte :=
  fr_macs f ++ match fr_tag f with Some t => be_bytes 2 0x8100 ++ be_bytes 2 t | None => [] end ++
  be_bytes 2 (etherTypeOf (fr_l3 f)) ++
  encodeL3 (fr_l3 f) (l4_proto (fr_l4 f)) ++ encodeL4 (fr_l4 f).

(** The record a frame means. *)
Definition with_frame (f : frame) (rec : FRecord) : FRecord :=
  let rec := match fr_tag f with Some t => rec <| f_VLAN := t mod 2 ^ 12 |> | None => rec end in
  with_l4 (fr_l4 f) (with_l3 (fr_l3 f) rec).

(** Reads at a known offset of a concatenation. *)
Lemma slice_at {A} (a b c : list A) i j :
  i = len a → j = len a + len b → slice (a ++ b ++ c) i j = b.
Proof.
  intros -> ->. unfold slice, len. rewrite Nat2Z.id, drop_app_length.
  replace (Z.to_nat _) with (length b) by lia. apply take_app_length.
Qed.

Lemma at_at a x c i : i = len a → at_ (a ++ x :: c) i = byteZ x.
Proof.
  intros ->. unfold at_, len. rewrite Nat2Z.id, app_nth2 by lia. by rewrite Nat.sub_diag.
Qed.

Lemma u16at_at a z c i : i = len a → 0 ≤ z < 2 ^ 16 → u16at (a ++ be_bytes 2 z ++ c) i = z.
Proof.
  intros -> Hz. unfold u16at. rewrite slice_at by (rewrite ?len_be_bytes; done).
  by apply be_uint_be_bytes_small.
Qed.

Lemma slice_tail_at {A} (a b : list A) i : i = len a → slice (a ++ b) i (len (a ++ b)) = b.
Proof. intros ->. apply slice_app_r. Qed.

Lemma parseL4_encode t rec :
  l4_ok t → f_Transport rec = l4_proto t → parseL4 (encodeL4 t) rec = with_l4 t rec.
Proof.
  intros Hok Ht. unfold parseL4, with_l4. rewrite Ht.
  assert (Hsame : rec <| f_Transport := l4_proto t |> = rec) by (rewrite <- Ht; by destruct rec).
  rewrite Hsame. destruct t as [sp dp mid flags tail|sp dp tail|p payload]; cbn [l4_proto l4_ok] in *.
  - destruct Hok as (Hsp & Hdp & Hm). cbn [Z.eqb Pos.eqb encodeL4].
    pose proof (len_nonneg tail).
    rewrite (proj2 (Z.leb_le 14 _))
      by (rewrite !len_app, !len_be_bytes; unfold len at 1 2; rewrite Hm; cbn; lia).
    pose proof (u16at_at [] sp (be_bytes 2 dp ++ mid ++ [flags] ++ tail) 0 eq_refl Hsp) as E1.
    cbn [app] in E1 |- *. rewrite E1, (u16at_at (be_bytes 2 sp) dp) by (done || lia).
    rewrite 2!app_assoc, (at_at _ flags)
      by (rewrite !len_app, !len_be_bytes; unfold len; rewrite Hm; done). done.
  - destruct Hok as (Hsp & Hdp). cbn [Z.eqb Pos.eqb encodeL4]. pose proof (len_nonneg tail).
    rewrite (proj2 (Z.leb_le 4 _)) by (rewrite !len_app, !len_be_bytes; lia).
    pose proof (u16at_at [] sp (be_bytes 2 dp ++ tail) 0 eq_refl Hsp) as E1.
    cbn [app] in E1. rewrite E1, (u16at_at (be_bytes 2 sp) dp) by (done || lia). done.
  - destruct Hok as (H6 & H17). by rewrite (proj2 (Z.eqb_neq _ 6)), (proj2 (Z.eqb_neq _ 17)).
Qed.

(** Equality of concatenations up to association. *)
Ltac flat_app := repeat (progress cbn [app] || rewrite <- app_assoc); reflexivity.

Lemma version_ihl o :
  0 ≤ o ≤ 10 →
  let b := byteZ (Zbyte (0x40 + 5 + o)) in Z.shiftr b 4 = 4 ∧ Z.land b 0x0F = 5 + o.
Proof.
  intros Ho. cbv zeta. rewrite byteZ_Zbyte. unfold u8. rewrite Z.mod_small by lia.
  rewrite Z.shiftr_div_pow2 by lia. change 0x0F with (Z.ones 4). rewrite Z.land_ones by lia.
  change (2 ^ 4) with 16. change 0x40 with (4 * 16).
  replace (4 * 16 + 5 + o) with (5 + o + 4 * 16) by lia. split.
  - rewrite Z.div_add by lia. rewrite Z.div_small; lia.
  - rewrite Z.mod_add by lia. apply Z.mod_small. lia.
Qed.

Lemma parseIPv4_encode tos mid cksum src dst options t rec :
  l3_ok (IPv4 tos mid cksum src dst options) → l4_ok t →
  parseIPv4 (encodeL3 (IPv4 tos mid cksum src dst options) (l4_proto t) ++ encodeL4 t) rec
    = (with_l4 t (with_l3 (IPv4 tos mid cksum src dst options) rec), true).
Proof.
  intros (Hm & Hc & Hs & Hd & Ho4 & Ho) Ht.
  assert (Hp : byteZ (Zbyte (l4_proto t)) = l4_proto t).
  { rewrite byteZ_Zbyte. apply Z.mod_small. destruct t as [| |p ?]; cbn; [lia | lia |].
    pose proof (byteZ_range p). lia. }
  pose proof (len_nonneg options) as Hnn. set (o := len options / 4) in *.
  assert (Hod : len options = 4 * o) by (unfold o; pose proof (Z.div_mod (len options) 4); lia).
  destruct (version_ihl o ltac:(lia)) as [V1 V2]. cbv zeta in V1, V2.
  set (h := encodeL3 _ _ ++ encodeL4 t). unfold encodeL3 in h. fold o in h.
  set (b0 := Zbyte (0x40 + 5 + o)) in *.
  assert (Eh : h = b0 :: tos :: mid ++ Zbyte (l4_proto t) :: cksum ++ src ++ dst ++ options ++ encodeL4 t)
    by (unfold h; flat_app).
  assert (E0 : at_ h 0 = byteZ b0) by (rewrite Eh; apply (at_at [] b0); done).
  assert (E1 : at_ h 1 = byteZ tos) by (rewrite Eh; apply (at_at [b0] tos); done).
  assert (E9 : at_ h 9 = l4_proto t).
  { transitivity (byteZ (Zbyte (l4_proto t))); [|exact Hp]. rewrite Eh. apply (at_at (b0 :: tos :: mid) (Zbyte (l4_proto t))). unfold len. cbn. lia. }
  set (pre := b0 :: tos :: mid ++ [Zbyte (l4_proto t)]).
  assert (Eh2 : h = pre ++ cksum ++ src ++ dst ++ options ++ encodeL4 t)
    by (rewrite Eh; unfold pre; flat_app).
  assert (Hpre : len pre = 10) by (unfold pre, len; cbn; rewrite length_app, Hm; done).
  assert (Hlen : len h = 20 + len options + len (encodeL4 t)).
  { rewrite Eh2, !len_app, Hpre. unfold len at 1 2 3. rewrite Hc, Hs, Hd. lia. }
  assert (Es : slice h 12 16 = src).
  { rewrite Eh2, app_assoc. apply slice_at; rewrite len_app, Hpre; unfold len; lia. }
  assert (Ed : slice h 16 20 = dst).
  { rewrite Eh2, 2!app_assoc. apply slice_at; rewrite !len_app, Hpre; unfold len; lia. }
  pose proof (len_nonneg (encodeL4 t)).
  unfold parseIPv4. rewrite E0, V1, V2, E1, E9, Es, Ed. cbn [Z.eqb Pos.eqb negb].
  rewrite (proj2 (Z.ltb_ge (len h) 20)), (proj2 (Z.ltb_ge ((5 + o) * 4) 20)),
    (proj2 (Z.ltb_ge (len h) _)) by lia. cbn [orb].
  replace (slice h ((5 + o) * 4) (len h)) with (encodeL4 t).
  2:{ rewrite Eh2, !app_assoc. symmetry. apply slice_tail_at.
      rewrite !len_app, Hpre. unfold len at 1 2 3. rewrite Hc, Hs, Hd. lia. }
  rewrite parseL4_encode by done. done.
Qed.

Lemma parseIPv6_encode tc label plen hops src dst t rec :
  l3_ok (IPv6 tc label plen hops src dst) → l4_ok t →
  parseIPv6 (encodeL3 (IPv6 tc label plen hops src dst) (l4_proto t) ++ encodeL4 t) rec
    = (with_l4 t (with_l3 (IPv6 tc label plen hops src dst) rec), true).
Proof.
  intros (Hla & Hpl & Hs & Hd) Ht.
  assert (Hp : byteZ (Zbyte (l4_proto t)) = l4_proto t).
  { rewrite byteZ_Zbyte. apply Z.mod_small. destruct t as [| |p ?]; cbn; [lia | lia |].
    pose proof (byteZ_range p). lia. }
  pose proof (byteZ_range tc) as Htc.
  pose proof (Z.div_mod (byteZ tc) 16 ltac:(lia)) as Hdm.
  assert (H16 : 0 ≤ byteZ tc / 16 < 16)
    by (split; [apply Z.div_pos; lia | apply Z.div_lt_upper_bound; lia]).
  pose proof (Z.mod_pos_bound (byteZ tc) 16 ltac:(lia)) as Hmod.
  set (hi := byteZ tc / 16) in *. set (lo := byteZ tc mod 16) in *.
  assert (B0 : byteZ (Zbyte (0x60 + hi)) = 0x60 + hi)
    by (rewrite byteZ_Zbyte; apply Z.mod_small; lia).
  assert (B1 : byteZ (Zbyte (lo * 16)) = lo * 16)
    by (rewrite byteZ_Zbyte; apply Z.mod_small; lia).
  set (h := encodeL3 _ _ ++ encodeL4 t). unfold encodeL3 in h. fold hi lo in h.
  set (b0 := Zbyte (0x60 + hi)) in *. set (b1 := Zbyte (lo * 16)) in *.
  set (pre := b0 :: b1 :: label ++ plen ++ [Zbyte (l4_proto t); hops]).
  assert (Eh : h = pre ++ src ++ dst ++ encodeL4 t)
    by (unfold h, pre; flat_app).
  assert (Hpre : len pre = 8) by (unfold pre, len; cbn; rewrite !length_app, Hla, Hpl; done).
  assert (Hlen : len h = 40 + len (encodeL4 t)).
  { rewrite Eh, !len_app, Hpre. unfold len at 1 2. rewrite Hs, Hd. lia. }
  assert (E0 : at_ h 0 = 0x60 + hi) by (rewrite <- B0; rewrite Eh; apply (at_at [] b0); done).
  assert (E1 : at_ h 1 = lo * 16) by (rewrite <- B1; rewrite Eh; apply (at_at [b0] b1); done).
  assert (E6 : at_ h 6 = l4_proto t).
  { transitivity (byteZ (Zbyte (l4_proto t))); [|exact Hp]. rewrite Eh. unfold pre.
    replace ((b0 :: b1 :: label ++ plen ++ [Zbyte (l4_proto t); hops]) ++ src ++ dst ++ encodeL4 t)
      with ((b0 :: b1 :: label ++ plen) ++ Zbyte (l4_proto t) :: hops :: src ++ dst ++ encodeL4 t)
      by flat_app.
    apply at_at. unfold len. cbn. rewrite length_app. lia. }
  assert (Es : slice h 8 24 = src) by (rewrite Eh; apply slice_at; unfold len in *; lia).
  assert (Ed : slice h 24 40 = dst).
  { rewrite Eh, app_assoc. apply slice_at; rewrite len_app, Hpre; unfold len; lia. }
  pose proof (len_nonneg (encodeL4 t)).
  unfold parseIPv6. rewrite traffic_class by (rewrite E1; lia). rewrite E0, E1, E6, Es, Ed.
  replace (Z.shiftr (0x60 + hi) 4) with 6.
  2:{ rewrite Z.shiftr_div_pow2 by lia. change (2 ^ 4) with 16. change 0x60 with (6 * 16).
      rewrite Z.div_add_l by lia. rewrite Z.div_small; lia. }
  rewrite (proj2 (Z.ltb_ge (len h) 40)) by lia. cbn [Z.eqb Pos.eqb negb orb].
  replace ((0x60 + hi) mod 16 * 16 + lo * 16 / 16) with (byteZ tc).
  2:{ replace (0x60 + hi) with (hi + 6 * 16) by lia.
      rewrite Z.mod_add, Z.mod_small, Z.div_mul by lia. lia. }
  replace (slice h 40 (len h)) with (encodeL4 t).
  2:{ rewrite Eh, !app_assoc. symmetry. apply slice_tail_at.
      rewrite !len_app, Hpre. unfold len. rewrite Hs, Hd. lia. }
  rewrite parseL4_encode by done. done.
Qed.

Lemma parseEthernet_encode f rec :
  frame_ok f → parseEthernet (encodeFrame f) rec = (with_frame f rec, true).
Proof.
  intros (Hm & Htag & H3 & H4). unfold parseEthernet, encodeFrame, with_frame.
  set (ip := encodeL3 (fr_l3 f) (l4_proto (fr_l4 f)) ++ encodeL4 (fr_l4 f)).
  assert (Hip : ∀ rec, (if etherTypeOf (fr_l3 f) =? 0x0800 then parseIPv4 ip rec
    else if etherTypeOf (fr_l3 f) =? 0x86DD then parseIPv6 ip rec else (rec, false))
    = (with_l4 (fr_l4 f) (with_l3 (fr_l3 f) rec), true)).
  { intros rec0. unfold ip. destruct (fr_l3 f) eqn:E.
    - by apply parseIPv4_encode.
    - by apply parseIPv6_encode. }
  assert (Het : 0 ≤ etherTypeOf (fr_l3 f) < 2 ^ 16 ∧ etherTypeOf (fr_l3 f) ≠ 0x8100)
    by (destruct (fr_l3 f); cbn; lia).
  set (et := etherTypeOf (fr_l3 f)) in *. set (macs := fr_macs f) in *.
  assert (Hml : len macs = 12) by (unfold len; rewrite Hm; done).
  pose proof (len_nonneg ip). destruct (fr_tag f) as [t|].
  - specialize (Htag t eq_refl). set (h := macs ++ _).
    assert (Eh : h = macs ++ be_bytes 2 0x8100 ++ be_bytes 2 t ++ be_bytes 2 et ++ ip)
      by (unfold h; by rewrite <- app_assoc).
    assert (Hl : len h = 18 + len ip) by (rewrite Eh, !len_app, !len_be_bytes, Hml; lia).
    assert (E12 : u16at h 12 = 0x8100) by (rewrite Eh; apply u16at_at; lia).
    assert (E14 : u16at h 14 = t).
    { rewrite Eh, app_assoc. apply u16at_at; [rewrite len_app, len_be_bytes; lia | done]. }
    assert (E16 : u16at h 16 = et).
    { rewrite Eh, 2!app_assoc. apply u16at_at; [rewrite !len_app, !len_be_bytes; lia | lia]. }
    assert (Es : slice h 18 (len h) = ip).
    { rewrite Eh, 3!app_assoc. apply slice_tail_at. rewrite !len_app, !len_be_bytes. lia. }
    rewrite E12, E14, E16, Es, !(proj2 (Z.ltb_ge (len h) _)) by lia. rewrite Z.eqb_refl.
    change 0x0FFF with (Z.ones 12). rewrite Z.land_ones by lia. apply Hip.
  - cbn [app]. set (h := macs ++ _).
    assert (Hl : len h = 14 + len ip) by (unfold h; rewrite !len_app, !len_be_bytes, Hml; lia).
    assert (E12 : u16at h 12 = et) by (unfold h; apply u16at_at; lia).
    assert (Es : slice h 14 (len h) = ip).
    { unfold h. rewrite app_assoc. apply slice_tail_at. rewrite !len_app, !len_be_bytes. lia. }
    rewrite E12, Es, (proj2 (Z.ltb_ge (len h) _)) by lia.
    rewrite (proj2 (Z.eqb_neq et 0x8100)) by lia. apply Hip.
Qed.

(** XDR opaque data: length, bytes, zero padding to 4. *)
Definition encodeOpaque (b : list byte) : list byte :=
  be_bytes 4 (len b) ++ b ++ replicate (Z.to_nat (padding (len b) 4)) x00.

Inductive srec :=
| RawHeader (frameLen stripped : Z) (f : frame)
| OtherRecord (ty : Z) (body : list byte).

Definition rawBody (frameLen stripped : Z) (f : frame) : list byte :=
  be_bytes 4 1 ++ be_bytes 4 frameLen ++ be_bytes 4 stripped ++ encodeOpaque (encodeFrame f).

Definition encodeRecord (x : srec) : list byte :=
  match x with
  | RawHeader frameLen stripped f => be_bytes 4 1 ++ encodeOpaque (rawBody frameLen stripped f)
  | OtherRecord ty body => be_bytes 4 ty ++ encodeOpaque body
  end.

Definition srec_ok (x : srec) : Prop :=
  match x with
  | RawHeader frameLen stripped f =>
      0 ≤ frameLen < 2 ^ 32 ∧ frame_ok f ∧ len (rawBody frameLen stripped f) < 2 ^ 32
  | OtherRecord ty body => 0 ≤ ty < 2 ^ 32 ∧ ty ≠ 1 ∧ len body < 2 ^ 32
  end.

Record fsample := mkFSample {
  s_expanded : bool; s_seq : Z; s_src : Z; s_rate : Z; s_pool : Z;
  s_infmt : Z; s_in : Z; s_outfmt : Z; s_out : Z; s_recs : list srec }.

Definition encodeFlow (s : fsample) : list byte :=
  be_bytes 4 (s_seq s) ++
  (if s_expanded s
   then be_bytes 8 (s_src s) ++ be_bytes 4 (s_rate s) ++ be_bytes 8 (s_pool s) ++
        be_bytes 4 (s_infmt s) ++ be_bytes 4 (s_in s) ++ be_bytes 4 (s_outfmt s) ++
        be_bytes 4 (s_out s)
   else be_bytes 4 (s_src s) ++ be_bytes 4 (s_rate s) ++ be_bytes 8 (s_pool s) ++
        be_bytes 4 (s_in s) ++ be_bytes 4 (s_out s)) ++
  be_bytes 4 (len (s_recs s)) ++ (s_recs s ≫= encodeRecord).

Inductive sample := Flow (s : fsample) | OtherSample (ty : Z) (body : list byte).

Definition encodeSample (x : sample) : list byte :=
  match x with
  | Flow s => be_bytes 4 (if s_expanded s then 3 else 1) ++ encodeOpaque (encodeFlow s)
  | OtherSample ty body => be_bytes 4 ty ++ encodeOpaque body
  end.

Definition sample_ok (x : sample) : Prop :=
  match x with
  | Flow s =>
      0 ≤ s_rate s < 2 ^ 32 ∧ 0 ≤ s_in s < 2 ^ 32 ∧ 0 ≤ s_out s < 2 ^ 32 ∧
      1 ≤ len (s_recs s) ≤ 64 ∧ Forall srec_ok (s_recs s) ∧ len (encodeFlow s) < 2 ^ 32
  | OtherSample ty body => 0 ≤ ty < 2 ^ 32 ∧ ty ≠ 1 ∧ ty ≠ 3 ∧ len body < 2 ^ 32
  end.

(** An agent address is 4 or 16 bytes. *)
Definition encodeDatagramS (agent : list byte) (subAgent seqno uptime : Z) (ss : list sample)
    : list byte :=
  be_bytes 4 5 ++ be_bytes 4 (if (len agent =? 4) then 1 else 2) ++ agent ++ be_bytes 4 subAgent ++
  be_bytes 4 seqno ++ be_bytes 4 uptime ++ be_bytes 4 (len ss) ++ (ss ≫= encodeSample).

(** What they mean. *)
Definition stamp (exporter : string) (subAgent rate inIf outIf : Z) (now : Time) (rec : FRecord)
    : FRecord :=
  rec <| f_Exporter := exporter |> <| f_ObservationDomain := subAgent |>
    <| f_Protocol := ProtoSFlow5 |> <| f_ObservedAt := now |> <| f_Start := now |> <| f_End := now |>
    <| f_InIf := inIf |> <| f_OutIf := outIf |>
    <| f_SamplingRate := (if rate =? 0 then 1 else rate) |> <| f_Packets := 1 |>.

Definition meaning_srec (exporter : string) (subAgent rate inIf outIf : Z) (now : Time) (x : srec)
    : list FRecord :=
  match x with
  | RawHeader frameLen _ f =>
      [stamp exporter subAgent rate inIf outIf now
         (with_frame f (zero_record <| f_Bytes := frameLen |>))]
  | OtherRecord _ _ => []
  end.

Definition meaning_sample (exporter : string) (subAgent : Z) (now : Time) (x : sample)
    : list FRecord :=
  match x with
  | Flow s => s_recs s ≫= meaning_srec exporter subAgent (s_rate s) (s_in s) (s_out s) now
  | OtherSample _ _ => []
  end.

(** ** The decoder reads the reference encoding back *)

Lemma padding_range n : 0 ≤ n → 0 ≤ padding n 4 < 4.
Proof.
  intros Hn. unfold padding. pose proof (Z.rem_bound_pos n 4 Hn ltac:(lia)).
  apply Z.rem_bound_pos; lia.
Qed.

Lemma reads_opaque b : len b < 2 ^ 32 → Reads (n ← U32; BytesAligned n 4) (encodeOpaque b) b.
Proof.
  intros Hb. pose proof (len_nonneg b). unfold encodeOpaque.
  eapply reads_bind; [apply reads_U32; lia|]. apply reads_BytesAligned; [done|].
  unfold len at 1. rewrite length_replicate. pose proof (padding_range (len b)). lia.
Qed.

Lemma read_opaque b r rest :
  len b < 2 ^ 32 → wf r → view r = Some (encodeOpaque b ++ rest) →
  ∃ n r1 r2, U32 r = (n, r1) ∧ BytesAligned n 4 r1 = (b, r2) ∧ wf r2 ∧ view r2 = Some rest.
Proof.
  intros Hb W V. destruct (reads_opaque b Hb r rest W V) as (r2 & E & W2 & V2).
  rewrite run_bind in E. destruct (U32 r) as [n r1]. eauto 10.
Qed.

Lemma no_err r l : view r = Some l → bool_decide (Err r ≠ None) = false.
Proof. intros V. apply bool_decide_eq_false. rewrite (view_Err _ _ V). tauto. Qed.

(** The 12 low bits and the rest determine a type. *)
Lemma type_split ty k :
  0 ≤ ty → 0 ≤ k < 2 ^ 12 → Z.shiftr ty 12 = 0 → Z.land ty 0xFFF = k → ty = k.
Proof.
  intros Ht Hk Hs Hl. change 0xFFF with (Z.ones 12) in Hl. rewrite Z.land_ones in Hl by lia.
  rewrite Z.shiftr_div_pow2 in Hs by lia. pose proof (Z.div_mod ty (2 ^ 12) ltac:(lia)). lia.
Qed.

Lemma parseRaw_encode frameLen stripped f :
  srec_ok (RawHeader frameLen stripped f) →
  parseRawPacketHeader (rawBody frameLen stripped f)
    = Some (with_frame f (zero_record <| f_Bytes := frameLen |>)).
Proof.
  intros (Hf & Hok & Hlen). unfold parseRawPacketHeader.
  set (b := rawBody frameLen stripped f) in *.
  pose proof (New_wf b ltac:(lia)) as W. pose proof (New_view b) as V.
  unfold b at 2 in V. unfold rawBody in V.
  assert (Hfr : len (encodeFrame f) < 2 ^ 32).
  { unfold b, rawBody, encodeOpaque in Hlen. rewrite !len_app in Hlen.
    pose proof (len_nonneg (be_bytes 4 1)). pose proof (len_nonneg (be_bytes 4 frameLen)).
    pose proof (len_nonneg (be_bytes 4 stripped)).
    pose proof (len_nonneg (be_bytes 4 (len (encodeFrame f)))).
    pose proof (len_nonneg (replicate (Z.to_nat (padding (len (encodeFrame f)) 4)) x00)). lia. }
  rewrite <- (app_nil_r (encodeOpaque _)) in V.
  read_step (reads_U32 1 ltac:(lia)). read_step (reads_U32 frameLen Hf).
  read_step (reads_Skip 4 (be_bytes 4 stripped) ltac:(done)).
  destruct (read_opaque _ _ _ Hfr W V) as (n & r1 & r2 & -> & -> & W2 & V2).
  rewrite (no_err _ _ V2). cbn [orb negb Z.eqb Pos.eqb].
  by rewrite parseEthernet_encode.
Qed.

Lemma rate_idem rate :
  (if (if rate =? 0 then 1 else rate) =? 0 then 1 else (if rate =? 0 then 1 else rate))
    = if rate =? 0 then 1 else rate.
Proof. destruct (Z.eqb_spec rate 0); [done|]. by rewrite (proj2 (Z.eqb_neq rate 0)). Qed.

Lemma meaning_rate_idem exporter subAgent rate inIf outIf now recs :
  (recs ≫= meaning_srec exporter subAgent (if rate =? 0 then 1 else rate) inIf outIf now)
    = (recs ≫= meaning_srec exporter subAgent rate inIf outIf now).
Proof.
  induction recs as [|x recs IH]; [done|]. rewrite !bind_cons, IH. f_equal.
  destruct x; [|done]. unfold meaning_srec, stamp. by rewrite rate_idem.
Qed.

Lemma records_loop_encoded recs r exporter subAgent rate inIf outIf now out :
  Forall srec_ok recs → wf r → view r = Some (recs ≫= encodeRecord) →
  records_loop (length recs) r exporter subAgent rate inIf outIf now out
    = out ++ (recs ≫= meaning_srec exporter subAgent rate inIf outIf now).
Proof.
  intros Hok. revert r rate out. induction Hok as [|x recs Hx Hok IH]; intros r rate out W V.
  { by rewrite app_nil_r. }
  cbn [length records_loop]. rewrite bind_cons in V. rewrite bind_cons, (no_err _ _ V).
  destruct x as [frameLen stripped f|ty body]; unfold encodeRecord at 1 in V;
    rewrite <- app_assoc in V.
  - pose proof Hx as (_ & _ & Hlen). read_step (reads_U32 1 ltac:(lia)).
    destruct (read_opaque _ _ _ Hlen W V) as (n & r1 & r2 & -> & -> & W2 & V2).
    rewrite (no_err _ _ V2). change (negb (Z.land 1 0xFFF =? 1) || negb (Z.shiftr 1 12 =? 0)) with false.
    cbv iota. rewrite parseRaw_encode by done. rewrite IH by done.
    rewrite meaning_rate_idem, <- app_assoc. done.
  - destruct Hx as (Hty & Hne & Hlen). read_step (reads_U32 ty Hty).
    destruct (read_opaque _ _ _ Hlen W V) as (n & r1 & r2 & -> & -> & W2 & V2).
    rewrite (no_err _ _ V2).
    destruct (negb (Z.land ty 0xFFF =? 1) || negb (Z.shiftr ty 12 =? 0)) eqn:Hb; [by apply IH|].
    zbool. exfalso. apply Hne. apply type_split; lia.
Qed.

Lemma decodeSFlowSample_encoded s exporter subAgent now out :
  sample_ok (Flow s) →
  decodeSFlowSample (encodeFlow s) (s_expanded s) exporter subAgent now out
    = out ++ meaning_sample exporter subAgent now (Flow s).
Proof.
  intros (Hr & Hi & Ho & Hn & Hrecs & Hlen). unfold decodeSFlowSample.
  pose proof (New_wf (encodeFlow s) ltac:(lia)) as W. pose proof (New_view (encodeFlow s)) as V.
  unfold encodeFlow at 2 in V.
  assert (Hfin : ∀ r, wf r → view r = Some (be_bytes 4 (len (s_recs s)) ++ (s_recs s ≫= encodeRecord)) →
    decodeSFlowRecords r exporter subAgent (s_rate s) (s_in s) (s_out s) now out
      = out ++ meaning_sample exporter subAgent now (Flow s)).
  { clear W V. intros r W V. unfold decodeSFlowRecords, sflowMaxRecords.
    read_step (reads_U32 (len (s_recs s)) ltac:(lia)).
    rewrite (proj2 (Z.leb_gt _ 0)), (proj2 (Z.ltb_ge 64 _)), (no_err _ _ V) by lia. cbn [orb].
    replace (Z.to_nat (len (s_recs s))) with (length (s_recs s)) by (unfold len; lia).
    by apply records_loop_encoded. }
  read_step (reads_Skip 4 (be_bytes 4 (s_seq s)) ltac:(done)).
  destruct (s_expanded s); rewrite <- !app_assoc in V.
  - read_step (reads_Skip 8 (be_bytes 8 (s_src s)) ltac:(done)). read_step (reads_U32 (s_rate s) Hr).
    read_step (reads_Skip 8 (be_bytes 8 (s_pool s)) ltac:(done)).
    read_step (reads_Skip 4 (be_bytes 4 (s_infmt s)) ltac:(done)). read_step (reads_U32 (s_in s) Hi).
    read_step (reads_Skip 4 (be_bytes 4 (s_outfmt s)) ltac:(done)). read_step (reads_U32 (s_out s) Ho).
    by apply Hfin.
  - read_step (reads_Skip 4 (be_bytes 4 (s_src s)) ltac:(done)). read_step (reads_U32 (s_rate s) Hr).
    read_step (reads_Skip 8 (be_bytes 8 (s_pool s)) ltac:(done)). read_step (reads_U32 (s_in s) Hi).
    read_step (reads_U32 (s_out s) Ho). by apply Hfin.
Qed.

Lemma samples_loop_encoded ss i r exporter subAgent now out :
  Forall sample_ok ss → wf r → view r = Some (ss ≫= encodeSample) →
  samples_loop (length ss) i r exporter subAgent now out
    = (out ++ (ss ≫= meaning_sample exporter subAgent now), None).
Proof.
  intros Hok. revert i r out. induction Hok as [|x ss Hx Hok IH]; intros i r out W V.
  { by rewrite app_nil_r. }
  cbn [length samples_loop]. rewrite bind_cons in V. rewrite bind_cons, (no_err _ _ V).
  destruct x as [s|ty body]; unfold encodeSample at 1 in V; rewrite <- app_assoc in V.
  - pose proof Hx as (_ & _ & _ & _ & _ & Hlen). pose proof (decodeSFlowSample_encoded s exporter
      subAgent now out Hx) as Hs. destruct (s_expanded s).
    + read_step (reads_U32 3 ltac:(lia)).
      destruct (read_opaque _ _ _ Hlen W V) as (n & r1 & r2 & -> & -> & W2 & V2).
      rewrite (no_err _ _ V2). change (negb (Z.shiftr 3 12 =? 0)) with false.
      change (Z.land 3 0xFFF =? 1) with false. change (Z.land 3 0xFFF =? 3) with true. cbv iota zeta.
      rewrite Hs, IH by done. by rewrite <- app_assoc.
    + read_step (reads_U32 1 ltac:(lia)).
      destruct (read_opaque _ _ _ Hlen W V) as (n & r1 & r2 & -> & -> & W2 & V2).
      rewrite (no_err _ _ V2). change (negb (Z.shiftr 1 12 =? 0)) with false.
      change (Z.land 1 0xFFF =? 1) with true. cbv iota zeta.
      rewrite Hs, IH by done. by rewrite <- app_assoc.
  - destruct Hx as (Hty & H1 & H3 & Hlen). read_step (reads_U32 ty Hty).
    destruct (read_opaque _ _ _ Hlen W V) as (n & r1 & r2 & -> & -> & W2 & V2).
    rewrite (no_err _ _ V2). cbn [meaning_sample app].
    destruct (negb _) eqn:Hent; [by apply IH|]. zbool.
    destruct (_ =? 1) eqn:E1; zbool; [exfalso; apply H1, type_split; lia|].
    destruct (_ =? 3) eqn:E3; zbool; [exfalso; apply H3, type_split; lia|].
    by apply IH.
Qed.

(** ** Properties *)

(** Any datagram decodes (no fuel is involved) to at most 256 * 64 records, and
    to no more than one record per 58 input bytes, so a hostile datagram cannot
    amplify; every record has its integers in range, stands for one packet, carries
    a sampling rate of at least 1, and is stamped with the exporter and with the
    arrival time as its start and end. *)
Theorem sflow_decode_bounds (pkt : list byte) (exporter : string) (now : Time) :
  len pkt < 2 ^ 62 →
  let recs := (decodeSFlow pkt exporter now).1 in
  len recs ≤ 256 * 64 ∧ 58 * len recs ≤ len pkt ∧
  ∃ subAgent, 0 ≤ subAgent < 2 ^ 32 ∧ Forall (goodS exporter subAgent now) recs.
Proof.
  intros Hlen recs. destruct (decodeSFlow_spec pkt exporter now Hlen) as (sa & Hsa & P1 & P2 & P3).
  split; [exact P3|]. split; [exact P2|]. by exists sa.
Qed.

Lemma sflow_decode_bounds_witness :
  let recs := (decodeSFlow (bytes [0;0;0;5;0;0;0;1]) "10.0.0.1" zero_time).1 in
  len recs ≤ 256 * 64 ∧ 58 * len recs ≤ len (bytes [0;0;0;5;0;0;0;1]) ∧
  ∃ subAgent, 0 ≤ subAgent < 2 ^ 32 ∧ Forall (goodS "10.0.0.1" subAgent zero_time) recs.
Proof.
  apply (sflow_decode_bounds (bytes [0;0;0;5;0;0;0;1]) "10.0.0.1" zero_time).
  vm_compute; reflexivity.
Defined.

(** Round trip: a datagram of up to 256 samples - plain and expanded flow
    samples with up to 64 records each, sampled Ethernet frames with or without an
    802.1Q tag carrying IPv4 (options included) or IPv6 and TCP, UDP or another
    transport, mixed with samples and records of other types - decodes without
    error to exactly the 5-tuples, flags, VLANs, interfaces and rates it encodes, in
    order. *)
Theorem sflow_roundtrip (agent : list byte) (subAgent seqno uptime : Z) (ss : list sample)
    (exporter : string) (now : Time) :
  length agent = 4%nat ∨ length agent = 16%nat → 0 ≤ subAgent < 2 ^ 32 →
  1 ≤ len ss ≤ 256 → Forall sample_ok ss →
  len (encodeDatagramS agent subAgent seqno uptime ss) < 2 ^ 62 →
  decodeSFlow (encodeDatagramS agent subAgent seqno uptime ss) exporter now
    = (ss ≫= meaning_sample exporter subAgent now, None).
Proof.
  intros Ha Hs Hn Hok Hlen. unfold decodeSFlow. set (pkt := encodeDatagramS _ _ _ _ _) in *.
  pose proof (New_wf pkt Hlen) as W. pose proof (New_view pkt) as V.
  unfold pkt at 2 in V. unfold encodeDatagramS in V.
  assert (Hafter : ∀ r, wf r → view r = Some (be_bytes 4 subAgent ++ be_bytes 4 seqno ++
      be_bytes 4 uptime ++ be_bytes 4 (len ss) ++ (ss ≫= encodeSample)) →
    afterAgent r exporter now = (ss ≫= meaning_sample exporter subAgent now, None)).
  { clear W V. intros r W V. unfold afterAgent, sflowMaxSamples.
    read_step (reads_U32 subAgent Hs). read_step (reads_Skip 4 (be_bytes 4 seqno) ltac:(done)).
    read_step (reads_Skip 4 (be_bytes 4 uptime) ltac:(done)).
    read_step (reads_U32 (len ss) ltac:(lia)).
    rewrite (no_err _ _ V), (proj2 (Z.leb_gt _ 0)), (proj2 (Z.ltb_ge 256 _)) by lia. cbn [orb].
    replace (Z.to_nat (len ss)) with (length ss) by (unfold len; lia).
    by apply samples_loop_encoded. }
  read_step (reads_U32 5 ltac:(lia)). cbn [negb Z.eqb Pos.eqb].
  destruct Ha as [Ha|Ha]; assert (Hal : len agent = Z.of_nat (length agent)) by done; rewrite Ha in Hal.
  - rewrite Hal in V. cbn [Z.of_nat Z.eqb Pos.of_succ_nat Pos.succ Pos.eqb] in V.
    read_step (reads_U32 1 ltac:(lia)). cbn [Z.eqb Pos.eqb].
    read_step (reads_Skip 4 agent ltac:(done)). by apply Hafter.
  - rewrite Hal in V. cbn [Z.of_nat Z.eqb Pos.of_succ_nat Pos.succ Pos.eqb] in V.
    read_step (reads_U32 2 ltac:(lia)). cbn [Z.eqb Pos.eqb].
    read_step (reads_Skip 16 agent ltac:(done)). by apply Hafter.
Qed.

Definition demo_frame : frame :=
  mkFrame (replicate 12 x00) (Some 0x2007)
    (IPv4 (Zbyte 8) (replicate 7 x00) (replicate 2 x00) (bytes [10;0;0;1]) (bytes [10;0;0;2])
       (replicate 4 x01))
    (TCP 443 50000 (replicate 9 x00) (Zbyte 18) (replicate 6 x00)).

Definition demo_samples : list sample :=
  [OtherSample 2 (bytes [1;2;3]);
   Flow (mkFSample true 1 0 512 0 0 3 0 4 [OtherRecord 1001 []; RawHeader 1518 4 demo_frame])].

Lemma demo_samples_ok : Forall sample_ok demo_samples.
Proof.
  assert (Hfr : frame_ok demo_frame).
  { split; [reflexivity|]. split; [intros t [= <-]; lia|]. split.
    - split_and!; vm_compute; (reflexivity || discriminate).
    - split; [lia|]. split; [lia | reflexivity]. }
  apply Forall_cons; split.
  { split; [lia|]. split; [lia|]. split; [lia|]. vm_compute; reflexivity. }
  apply Forall_singleton. split; [cbn; lia|]. split; [cbn; lia|]. split; [cbn; lia|].
  split; [vm_compute; split; discriminate|]. split; [|vm_compute; reflexivity].
  apply Forall_cons; split.
  { split; [lia|]. split; [lia|]. vm_compute; reflexivity. }
  apply Forall_singleton. split; [lia|]. split; [exact Hfr|]. vm_compute; reflexivity.
Qed.

Lemma sflow_roundtrip_witness :
  decodeSFlow (encodeDatagramS (bytes [192;0;2;1]) 7 1 2 demo_samples) "10.0.0.1" zero_time
    = (demo_samples ≫= meaning_sample "10.0.0.1" 7 zero_time, None).
Proof.
  apply (sflow_roundtrip (bytes [192;0;2;1]) 7 1 2 demo_samples "10.0.0.1" zero_time).
  - by left.
  - lia.
  - vm_compute; split; discriminate.
  - apply demo_samples_ok.
  - vm_compute; reflexivity.
Defined.
