(* ===== verification/Decode.v ===== *)
(** * internal/flow/decode.go: the format dispatcher

    [Decoder] holds an nf9 and an ipfix decoder that point at the same template
    cache and sampling state, so its state is one [flowState].  [run] feeds it a
    sequence of datagrams, the order the listeners' calls happen to take. *)

From S2P Require Import Prelude GoTime Wire FlowModel Templates IE NetFlow5 NetFlow9 Ipfix SFlow.
#[local] Open Scope Z_scope.

Inductive flow_err :=
| FTooShort (n : Z)
| FUnrecognized (first : list byte)
| FNetFlow5 (e : nf5_err)
| FNetFlow9 (e : nf9_err)
| FIpfix (e : ipfix_err)
| FSFlow (e : sflow_err).

(** Records, template misses, error. *)
Definition answer : Type := list FRecord * Z * option flow_err.

Definition NewDecoder (templateTTL maxTemplates : Z) : flowState :=
  mkFlowState (newTemplateCache templateTTL maxTemplates) newSamplingState.

Definition Decode `{Runtime} (pkt : list byte) (exporter : string) (now : Time) (d : flowState)
    : option (answer * flowState) :=
  if len pkt <? 4 then Some ([], 0, Some (FTooShort (len pkt)), d) else
  let v := be_uint (slice pkt 0 2) in
  let unrecognized := Some ([], 0, Some (FUnrecognized (slice pkt 0 4)), d) in
  if v =? 5 then
    match decodeNetFlow5 pkt exporter now with
    | inl e => Some ([], 0, Some (FNetFlow5 e), d)
    | inr recs => Some (recs, 0, None, d)
    end
  else if v =? 9 then
    '(recs, misses, err, d) ← NetFlow9.decode pkt exporter now d;
    Some (recs, misses, option_map FNetFlow9 err, d)
  else if v =? 10 then
    '(recs, misses, err, d) ← Ipfix.decode pkt exporter now d;
    Some (recs, misses, option_map FIpfix err, d)
  else if v =? 0 then
    if be_uint (slice pkt 0 4) =? 5 then
      let '(recs, err) := decodeSFlow pkt exporter now in Some (recs, 0, option_map FSFlow err, d)
    else unrecognized
  else unrecognized.

Definition TemplateCount (d : flowState) : Z := cache_len (fs_templates d).

(** ** Sequences of datagrams *)

Record datagram := mkDatagram { dg_pkt : list byte; dg_exporter : string; dg_now : Time }.

Fixpoint run `{Runtime} (dgs : list datagram) (d : flowState) : option (list answer * flowState) :=
  match dgs with
  | [] => Some ([], d)
  | g :: dgs =>
      '(a, d) ← Decode (dg_pkt g) (dg_exporter g) (dg_now g) d;
      '(l, d) ← run dgs d;
      Some (a :: l, d)
  end.

(** What an answer may be: bounded, every record in range and from this exporter. *)
Definition answer_ok (exporter : string) (a : answer) : Prop :=
  len a.1.1 ≤ 256 * 64 ∧ 0 ≤ a.1.2 ∧
  Forall (λ rec, record_wf rec ∧ f_Exporter rec = exporter) a.1.1.

(** The templates and rates of exporter [e] are as they were, or gone. *)
Definition untouched (e : string) (d d' : flowState) : Prop :=
  (∀ k, k_exporter k = e →
    tc_m (fs_templates d') !! k = tc_m (fs_templates d) !! k ∨
    tc_m (fs_templates d') !! k = None) ∧
  (∀ dom, 0 ≤ dom < 2 ^ 32 →
    sampling_get e dom (fs_sampling d') = sampling_get e dom (fs_sampling d) ∨
    sampling_get e dom (fs_sampling d') = 0).

Lemma untouched_refl e d : untouched e d d.
Proof. split; auto. Qed.

Lemma untouched_trans e d1 d2 d3 : untouched e d1 d2 → untouched e d2 d3 → untouched e d1 d3.
Proof.
  intros [A1 B1] [A2 B2]. split.
  - intros k Hk. destruct (A2 k Hk) as [-> | ->]; auto.
  - intros dom Hd. destruct (B2 dom Hd) as [-> | ->]; auto.
Qed.

(** One datagram of [exporter]: the state invariant, the cap, the other exporters. *)
Definition step_ok (exporter : string) (d d' : flowState) : Prop :=
  state_wf d' ∧ tc_max (fs_templates d') = tc_max (fs_templates d) ∧
  ∀ e, e ≠ exporter → untouched e d d'.

Lemma step_ok_refl exporter d : state_wf d → step_ok exporter d d.
Proof. intros W. split_and!; auto using untouched_refl. Qed.

Lemma step_ok_kept exporter dom d d' : state_wf d' → kept exporter dom d d' → step_ok exporter d d'.
Proof.
  intros W (A & B & C). split_and!; [done | done |]. intros e He. split.
  - intros k Hk. apply A. by intros [= ? ?]; subst.
  - intros dom' Hd. apply B; [done|]. by intros [= ? ?].
Qed.

Lemma meaning5_wf exporter now h w :
  header5_ok h → flow5_ok w → record_wf (meaning5 exporter now h w).
Proof.
  intros Hh Hw. unfold header5_ok, flow5_ok in *.
  pose proof (Z.mod_pos_bound (h5_sampling h) (2 ^ 14) ltac:(lia)).
  unfold record_wf, meaning5. cbn -[Z.pow Z.modulo].
  assert (0 ≤ (if h5_sampling h mod 2 ^ 14 =? 0 then 1 else h5_sampling h mod 2 ^ 14) < 2 ^ 64)
    by (destruct (_ =? 0); lia).
  split_and!; lia.
Qed.

Lemma decode5_ok exporter now pkt recs :
  len pkt < 2 ^ 61 → decodeNetFlow5 pkt exporter now = inr recs →
  len recs ≤ 30 ∧ Forall (λ rec, record_wf rec ∧ f_Exporter rec = exporter) recs.
Proof.
  intros Hlen E. destruct (decode5_cases exporter now pkt Hlen) as [(e & E' & _)|(h & ws & Hd)].
  { congruence. }
  pose proof Hd as (Hh & Hws & Hn & extra & Hpkt). rewrite Hpkt, len_app in Hlen.
  pose proof (len_nonneg (encode5 h ws)).
  rewrite Hpkt, (decode5_encode5_aux exporter now h ws extra) in E by auto with lia.
  injection E as <-. split; [unfold len in *; rewrite length_fmap; lia|].
  apply Forall_fmap. eapply Forall_impl; [exact Hws|].
  intros w Hw. split; [by apply meaning5_wf | done].
Qed.

(** Dispatch on a well-formed state. *)
Lemma Decode_spec `{Runtime} pkt exporter now d :
  len pkt < 2 ^ 61 → state_wf d →
  ∃ a d', Decode pkt exporter now d = Some (a, d') ∧ answer_ok exporter a ∧
    step_ok exporter d d'.
Proof.
  intros Hlen Wd. unfold Decode.
  assert (Hsame : ∀ recs e, len recs ≤ 256 * 64 →
    Forall (λ rec, record_wf rec ∧ f_Exporter rec = exporter) recs →
    ∃ a d', Some ((recs, 0, e) : answer, d) = Some (a, d') ∧ answer_ok exporter a ∧
      step_ok exporter d d').
  { intros recs e Hl Hf. exists (recs, 0, e), d.
    split; [done|]. split; [by split_and!|]. by apply step_ok_refl. }
  assert (Hnone : ∀ e, ∃ a d', Some (([], 0, e) : answer, d) = Some (a, d') ∧ answer_ok exporter a ∧
      step_ok exporter d d').
  { intros e. apply Hsame; [done | constructor]. }
  destruct (len pkt <? 4); [apply Hnone|].
  destruct (_ =? 5).
  { destruct (decodeNetFlow5 pkt exporter now) as [e|recs] eqn:E; [apply Hnone|].
    destruct (decode5_ok exporter now pkt recs Hlen E) as [Hl Hf]. apply Hsame; [lia | done]. }
  destruct (_ =? 9).
  { destruct (NetFlow9.decode_spec pkt exporter now d ltac:(lia) Wd)
      as ([[[recs misses] err] d'] & dom & -> & Hdom & (S1 & K1) & Hl & Hg & Hm & _).
    cbn. eexists _, d'. split; [done|]. split; [|by eapply step_ok_kept].
    split; [cbn; lia|]. split; [done|]. eapply Forall_impl; [exact Hg|]. by intros rec (? & ? & _). }
  destruct (_ =? 10).
  { destruct (Ipfix.decode_specX pkt exporter now d ltac:(lia) Wd)
      as ([[[recs misses] err] d'] & dom & -> & Hdom & (S1 & K1) & Hl & Hg & Hm & _).
    cbn. eexists _, d'. split; [done|]. split; [|by eapply step_ok_kept].
    split; [cbn; lia|]. split; [done|]. eapply Forall_impl; [exact Hg|]. by intros rec (? & ? & _). }
  destruct (_ =? 0); [|apply Hnone]. destruct (_ =? 5); [|apply Hnone].
  destruct (decodeSFlow_spec pkt exporter now ltac:(lia)) as (sa & Hsa & P1 & P2 & P3).
  destruct (decodeSFlow pkt exporter now) as [recs err]. cbn in P1, P3. apply Hsame; [done|].
  eapply Forall_impl; [exact P1|]. by intros rec (? & ? & _).
Qed.

Lemma run_spec `{Runtime} dgs d :
  Forall (λ g, len (dg_pkt g) < 2 ^ 61) dgs → state_wf d →
  ∃ l d', run dgs d = Some (l, d') ∧
    Forall2 (λ g a, answer_ok (dg_exporter g) a) dgs l ∧ state_wf d' ∧
    tc_max (fs_templates d') = tc_max (fs_templates d) ∧
    ∀ e, Forall (λ g, e ≠ dg_exporter g) dgs → untouched e d d'.
Proof.
  intros Hl. revert d. induction Hl as [|g dgs Hg Hl IH]; intros d Wd; cbn [run].
  { exists [], d. split_and!; auto using untouched_refl. }
  destruct (Decode_spec (dg_pkt g) (dg_exporter g) (dg_now g) d Hg Wd)
    as (a & d1 & -> & Ha & W1 & M1 & U1).
  destruct (IH d1 W1) as (l & d' & E & Hall & W' & M' & U'). cbn [mbind option_bind].
  rewrite E. cbn. exists (a :: l), d'. split_and!; try done; [by constructor | congruence |].
  intros e He. inversion He; subst. eapply untouched_trans; [by apply U1 | by apply U'].
Qed.

(** ** Properties *)

(** C1. Any sequence of datagrams, of any formats and from any exporters, fed to a
    fresh decoder is processed to the end: every datagram gets an answer of at most
    16384 in-range records stamped with its own exporter, the template count never
    exceeds the configured cap, and the templates and sampling rates of an exporter
    that sent nothing are still absent. *)
Theorem decoder_run_safe `{Runtime} (ttl maxTemplates : Z) (dgs : list datagram) :
  Forall (λ g, len (dg_pkt g) < 2 ^ 61) dgs →
  ∃ l d', run dgs (NewDecoder ttl maxTemplates) = Some (l, d') ∧
    Forall2 (λ g a, answer_ok (dg_exporter g) a) dgs l ∧ state_wf d' ∧
    TemplateCount d' ≤ (if maxTemplates <=? 0 then 4096 else maxTemplates) ∧
    ∀ e, Forall (λ g, e ≠ dg_exporter g) dgs →
      (∀ k, k_exporter k = e → tc_m (fs_templates d') !! k = None) ∧
      (∀ dom, 0 ≤ dom < 2 ^ 32 → sampling_get e dom (fs_sampling d') = 0).
Proof.
  intros Hl. assert (W0 : state_wf (NewDecoder ttl maxTemplates)).
  { split; [apply newTemplateCache_wf|]. split; [vm_compute; discriminate | apply map_Forall_empty]. }
  destruct (run_spec dgs _ Hl W0) as (l & d' & E & Hall & W' & M' & U').
  exists l, d'. split_and!; try done.
  - destruct W' as [(_ & Hcap & _) _]. unfold TemplateCount. rewrite M' in Hcap. exact Hcap.
  - intros e He. destruct (U' e He) as [A B]. split.
    + intros k Hk. destruct (A k Hk) as [-> | ->]; [|done]. apply lookup_empty.
    + intros dom Hd. by destruct (B dom Hd) as [-> | ->].
Qed.

Lemma decoder_run_safe_witness :
  ∃ l d', run [mkDatagram (bytes [0;9;0;1]) "10.0.0.1" zero_time;
               mkDatagram (bytes [0;0;0;5]) "10.0.0.2" zero_time] (NewDecoder 0 0) = Some (l, d') ∧
    Forall2 (λ g a, answer_ok (dg_exporter g) a)
      [mkDatagram (bytes [0;9;0;1]) "10.0.0.1" zero_time;
       mkDatagram (bytes [0;0;0;5]) "10.0.0.2" zero_time] l ∧ state_wf d' ∧
    TemplateCount d' ≤ 4096 ∧
    ∀ e, Forall (λ g, e ≠ dg_exporter g)
      [mkDatagram (bytes [0;9;0;1]) "10.0.0.1" zero_time;
       mkDatagram (bytes [0;0;0;5]) "10.0.0.2" zero_time] →
      (∀ k, k_exporter k = e → tc_m (fs_templates d') !! k = None) ∧
      (∀ dom, 0 ≤ dom < 2 ^ 32 → sampling_get e dom (fs_sampling d') = 0).
Proof.
  apply (decoder_run_safe 0 0 [mkDatagram (bytes [0;9;0;1]) "10.0.0.1" zero_time;
    mkDatagram (bytes [0;0;0;5]) "10.0.0.2" zero_time]).
  repeat (apply List.Forall_cons || apply List.Forall_nil); vm_compute; reflexivity.
Defined.
