(* ===== verification/Breaker.v ===== *)
(** * internal/breaker: the circuit breaker

    [DoWithOutcome] holds the mutex twice, around the callback but not during it, so
    a call is two atomic steps: [admission] and [settle].  [sys] is a breaker with the
    calls in flight and [step] one atomic step of any of them; a run is an arbitrary
    interleaving.  Instants are nanoseconds of the monotonic clock; the zero
    time.Time a closed breaker stores in openUntil is never read.  The count of short circuits,
    which the code adds atomically just outside the critical section, is part of [admission]; no
    decision reads it, and additions commute. *)

From S2P Require Import Prelude.
#[local] Open Scope Z_scope.

Module Breaker.

(** Outcome values; any other uint8 is invalid. *)
Definition OutcomeSuccess : Z := 1.
Definition OutcomeFailure : Z := 2.
Definition OutcomeNeutral : Z := 3.

Inductive State := StateClosed | StateOpen | StateHalfOpen.

#[export] Instance State_eq_dec : EqDecision State.
Proof. solve_decision. Defined.

Record t := mk {
  threshold : Z;
  cooldown : Z;
  consec : Z;
  opened : bool;
  openUntil : Z;
  probing : bool;
  trips : Z;
  shortCircuits : Z
}.

#[export] Instance t_eta : Eta t := λ b,
  mk (threshold b) (cooldown b) (consec b) (opened b) (openUntil b) (probing b) (trips b)
    (shortCircuits b).

Definition New (threshold cooldown : Z) : t :=
  let threshold := if threshold <=? 0 then 5 else threshold in
  let cooldown := if cooldown <=? 0 then 5 * 1000000000 else cooldown in
  mk threshold cooldown 0 false 0 false 0 0.

(** The first critical section: [Some probe] admits the call, [None] is ErrOpen
    (with the short circuit counted). *)
Definition admission (now : Z) (b : t) : option bool * t :=
  if opened b then
    if now <? openUntil b then (None, b <| shortCircuits := u64 (shortCircuits b + 1) |>)
    else if probing b then (None, b <| shortCircuits := u64 (shortCircuits b + 1) |>)
    else (Some true, b <| probing := true |>)
  else (Some false, b).

(** What the call returns to its caller. *)
Inductive result := ErrOpen | Returned (err : option string) | InvalidOutcome (err : option string).

(** The second critical section. *)
Definition settle (probe : bool) (outcome : Z) (err : option string) (now : Z) (b : t)
    : result * t :=
  let b := if probe then b <| probing := false |> else b in
  let invalid := negb (outcome =? OutcomeSuccess) && negb (outcome =? OutcomeFailure) &&
    negb (outcome =? OutcomeNeutral) in
  let ret := if invalid then InvalidOutcome err else Returned err in
  let outcome := if invalid then OutcomeFailure else outcome in
  if outcome =? OutcomeNeutral then (ret, b)
  else if outcome =? OutcomeFailure then
    let b := b <| consec := i64 (consec b + 1) |> in
    let b := if negb (opened b) && (threshold b <=? consec b)
             then b <| opened := true |> <| trips := u64 (trips b + 1) |> else b in
    let b := if opened b then b <| openUntil := now + cooldown b |> else b in
    (ret, b)
  else (ret, b <| consec := 0 |> <| opened := false |> <| openUntil := 0 |>).

Record stats := mkStats {
  st_State : State; st_Trips : Z; st_ShortCircuits : Z; st_ConsecFailures : Z }.

Definition Stats (now : Z) (b : t) : stats :=
  let st := if opened b then if negb (now <? openUntil b) then StateHalfOpen else StateOpen
            else StateClosed in
  mkStats st (trips b) (shortCircuits b) (consec b).

(** ** Concurrent calls *)

(** [Call id now]: a goroutine enters; [Return id outcome err now]: its callback
    came back. *)
Inductive event :=
| Call (id : nat) (now : Z)
| Return (id : nat) (outcome : Z) (err : option string) (now : Z).

(** The breaker and, for each call in flight, whether it holds the probe. *)
Record sys := mkSys { br : t; inflight : gmap nat bool }.

Inductive step : sys → event → option result → sys → Prop :=
| step_admitted id now s probe b' :
    inflight s !! id = None → admission now (br s) = (Some probe, b') →
    step s (Call id now) None (mkSys b' (<[id := probe]> (inflight s)))
| step_short id now s b' :
    inflight s !! id = None → admission now (br s) = (None, b') →
    step s (Call id now) (Some ErrOpen) (mkSys b' (inflight s))
| step_return id outcome err now s probe r b' :
    inflight s !! id = Some probe → settle probe outcome err now (br s) = (r, b') →
    step s (Return id outcome err now) (Some r) (mkSys b' (delete id (inflight s))).

(** Runs: events with their answers, oldest first, and the breakers after each. *)
Inductive run (s0 : sys) : list (event * option result) → sys → Prop :=
| run_nil : run s0 [] s0
| run_snoc tr s e a s' : run s0 tr s → step s e a s' → run s0 (tr ++ [(e, a)]) s'.

(** ** What a trace determines *)

Definition short_circuited (ea : event * option result) : bool :=
  match ea.2 with Some ErrOpen => true | _ => false end.

Definition countb {A} (f : A → bool) (l : list A) : Z := len (List.filter f l).

(** Failures (invalid outcomes included) settled since the last success. *)
Definition streak (tr : list (event * option result)) : Z :=
  foldl (λ n ea,
    match ea.1 with
    | Call _ _ => n
    | Return _ o _ _ =>
        if o =? OutcomeSuccess then 0 else if o =? OutcomeNeutral then n else n + 1
    end) 0 tr.

Lemma countb_snoc {A} (f : A → bool) l x : countb f (l ++ [x]) = countb f l + (if f x then 1 else 0).
Proof.
  unfold countb. rewrite List.filter_app, len_app. cbn. by destruct (f x).
Qed.

Lemma countb_bound {A} (f : A → bool) l : 0 ≤ countb f l ≤ len l.
Proof.
  induction l as [|x l IH] using rev_ind; [done|]. rewrite countb_snoc, len_app.
  unfold len at 2. cbn. destruct (f x); lia.
Qed.

Lemma streak_snoc tr e a :
  streak (tr ++ [(e, a)]) =
    match e with
    | Call _ _ => streak tr
    | Return _ o _ _ =>
        if o =? OutcomeSuccess then 0 else if o =? OutcomeNeutral then streak tr else streak tr + 1
    end.
Proof. unfold streak. by rewrite foldl_app. Qed.

Lemma streak_bound tr : 0 ≤ streak tr ≤ len tr.
Proof.
  induction tr as [|[e a] tr IH] using rev_ind; [done|].
  rewrite streak_snoc, len_app. unfold len at 2. cbn.
  destruct e; [lia|]. destruct (_ =? _); [lia|]. destruct (_ =? _); lia.
Qed.

(** ** Invariant *)

(** One probe at most, held exactly when [probing]; the failure streak and the short
    circuit counter are those of the trace; open exactly when the streak has reached
    the threshold. *)
Record inv (tr : list (event * option result)) (s : sys) : Prop := mkInv {
  inv_threshold : 1 ≤ threshold (br s);
  inv_cooldown : 0 < cooldown (br s);
  inv_consec : consec (br s) = streak tr;
  inv_open : opened (br s) = (threshold (br s) <=? streak tr);
  inv_probe : ∀ id, inflight s !! id = Some true →
    probing (br s) = true ∧ ∀ id', inflight s !! id' = Some true → id' = id;
  inv_probing : probing (br s) = true → ∃ id, inflight s !! id = Some true;
  inv_short : shortCircuits (br s) = countb short_circuited tr
}.

Lemma New_inv threshold cooldown : inv [] (mkSys (New threshold cooldown) ∅).
Proof.
  unfold New. destruct (threshold <=? 0) eqn:E1, (cooldown <=? 0) eqn:E2; zbool;
    constructor; cbn; try lia; try done; try (symmetry; apply Z.leb_gt; lia);
    intros id Hid; by rewrite lookup_empty in Hid.
Qed.

(** A refused call changes only the counter; an admitted one at most [probing]. *)
Lemma admission_cases now b :
  (opened b = false ∧ admission now b = (Some false, b)) ∨
  (opened b = true ∧ openUntil b ≤ now ∧ probing b = false ∧
     admission now b = (Some true, b <| probing := true |>)) ∨
  (opened b = true ∧ (now < openUntil b ∨ probing b = true) ∧
     admission now b = (None, b <| shortCircuits := u64 (shortCircuits b + 1) |>)).
Proof.
  unfold admission. destruct (opened b); [|auto]. destruct (now <? openUntil b) eqn:E; zbool; [auto 10|].
  destruct (probing b); auto 10.
Qed.

(** The breaker after a failure was recorded. *)
Definition failed (now : Z) (b : t) : t :=
  let b := b <| consec := i64 (consec b + 1) |> in
  let b := if negb (opened b) && (threshold b <=? consec b)
           then b <| opened := true |> <| trips := u64 (trips b + 1) |> else b in
  if opened b then b <| openUntil := now + cooldown b |> else b.

Definition released (probe : bool) (b : t) : t := if probe then b <| probing := false |> else b.

Lemma settle_cases probe outcome err now b :
  (outcome = OutcomeNeutral ∧ settle probe outcome err now b = (Returned err, released probe b)) ∨
  (outcome = OutcomeSuccess ∧ settle probe outcome err now b =
     (Returned err,
      (released probe b) <| consec := 0 |> <| opened := false |> <| openUntil := 0 |>)) ∨
  (outcome ≠ OutcomeNeutral ∧ outcome ≠ OutcomeSuccess ∧ settle probe outcome err now b =
     (if outcome =? OutcomeFailure then Returned err else InvalidOutcome err,
      failed now (released probe b))).
Proof.
  unfold settle, OutcomeNeutral, OutcomeSuccess, OutcomeFailure. fold (released probe b).
  destruct (Z.eqb_spec outcome 1) as [->|H1]; [right; left; by split|].
  destruct (Z.eqb_spec outcome 2) as [->|H2]; [right; right; by split_and!|].
  destruct (Z.eqb_spec outcome 3) as [->|H3]; [left; by split|].
  right. right. split_and!; try done.
Qed.

Lemma failed_spec now b :
  -2 ^ 63 ≤ consec b + 1 < 2 ^ 63 → opened b = (threshold b <=? consec b) →
  let b' := failed now b in
  threshold b' = threshold b ∧ cooldown b' = cooldown b ∧ probing b' = probing b ∧
  shortCircuits b' = shortCircuits b ∧ consec b' = consec b + 1 ∧
  opened b' = (threshold b <=? consec b + 1) ∧
  trips b' = (if opened b' && negb (opened b) then u64 (trips b + 1) else trips b) ∧
  (opened b' = true → openUntil b' = now + cooldown b).
Proof.
  intros Hc Ho. unfold failed. cbn. rewrite i64_small by done.
  destruct (opened b) eqn:Eo; cbn.
  - rewrite Eo. cbn. symmetry in Ho. zbool.
    rewrite (proj2 (Z.leb_le _ (consec b + 1))) by lia. split_and!; cbn; rewrite ?Eo; done.
  - destruct (threshold b <=? consec b + 1); cbn; [by split_and!|].
    rewrite Eo. split_and!; cbn; rewrite ?Eo; done.
Qed.

(** ** Every step preserves the invariant *)

Lemma inv_settled tr e a s b' id probe :
  inv tr s → inflight s !! id = Some probe → short_circuited (e, a) = false →
  threshold b' = threshold (br s) → cooldown b' = cooldown (br s) →
  probing b' = probing (released probe (br s)) → shortCircuits b' = shortCircuits (br s) →
  consec b' = streak (tr ++ [(e, a)]) →
  opened b' = (threshold (br s) <=? streak (tr ++ [(e, a)])) →
  inv (tr ++ [(e, a)]) (mkSys b' (delete id (inflight s))).
Proof.
  intros I Hid Ha Ht Hcd Hp Hs Hc Ho. destruct I as [I1 I2 I3 I4 I5 I6 I7].
  constructor; cbn; rewrite ?Ht, ?Hcd, ?Hs; try done.
  - intros id1 H1. rewrite lookup_delete_Some in H1. destruct H1 as [Hne H1].
    destruct (I5 _ H1) as [P U]. split.
    + rewrite Hp. destruct probe; [|done]. specialize (U _ Hid). done.
    + intros id2 H2. rewrite lookup_delete_Some in H2. apply U, H2.
  - rewrite Hp. destruct probe; cbn; [done|]. intros P. destruct (I6 P) as [id1 H1].
    exists id1. apply lookup_delete_Some. split; [|done]. intros ->. congruence.
  - rewrite countb_snoc, Ha. lia.
Qed.

Lemma step_inv tr s e a s' :
  len tr < 2 ^ 62 → inv tr s → step s e a s' → inv (tr ++ [(e, a)]) s'.
Proof.
  intros Hlen I Hstep. pose proof (streak_bound tr) as Hsb.
  pose proof (countb_bound short_circuited tr) as Hcb. pose proof I as [I1 I2 I3 I4 I5 I6 I7].
  destruct Hstep as [id now s probe b' Hid Had|id now s b' Hid Had
    |id outcome err now s probe r b' Hid Hst].
  - destruct (admission_cases now (br s)) as [[Ho E]|[(Ho & Hu & Hp & E)|(Ho & _ & E)]];
      rewrite E in Had; [| |done]; injection Had as <- <-.
    + constructor; cbn; rewrite ?streak_snoc; try done.
      * intros id1. rewrite lookup_insert_Some. intros [[_ ?]|[Hne H1]]; [done|].
        destruct (I5 _ H1) as [P U]. split; [done|]. intros id2.
        rewrite lookup_insert_Some. intros [[_ ?]|[_ H2]]; [done | by apply U].
      * intros P. destruct (I6 P) as [id1 H1]. exists id1. rewrite lookup_insert_ne; [done|].
        intros ->. congruence.
      * rewrite countb_snoc. cbn. lia.
    + constructor; cbn; rewrite ?streak_snoc; try done.
      * intros id1. rewrite lookup_insert_Some. intros [[<- _]|[Hne H1]].
        -- split; [done|]. intros id2. rewrite lookup_insert_Some.
           intros [[<- _]|[_ H2]]; [done|]. destruct (I5 _ H2). congruence.
        -- destruct (I5 _ H1). congruence.
      * intros _. exists id. apply lookup_insert_eq.
      * rewrite countb_snoc. cbn. lia.
  - destruct (admission_cases now (br s)) as [[Ho E]|[(Ho & Hu & Hp & E)|(Ho & _ & E)]];
      rewrite E in Had; [done | done |]. injection Had as <-.
    constructor; cbn; rewrite ?streak_snoc; try done.
    rewrite countb_snoc, I7. cbn. apply u64_small. lia.
  - assert (Hsc : short_circuited (Return id outcome err now, Some r) = false).
    { destruct (settle_cases probe outcome err now (br s)) as [[_ E]|[[_ E]|(_ & _ & E)]];
        rewrite E in Hst; injection Hst as <- _; [done | done |]. by destruct (_ =? _). }
    destruct (settle_cases probe outcome err now (br s)) as [[Hk E]|[[Hk E]|(Hk1 & Hk2 & E)]];
      rewrite E in Hst; injection Hst as Hr <-.
    + apply inv_settled with (probe := probe); try done; try (by destruct probe);
        rewrite streak_snoc, Hk; cbn; [|]; by destruct probe.
    + apply inv_settled with (probe := probe); try done; try (by destruct probe);
        rewrite streak_snoc, Hk; cbn; [done|]. symmetry. apply Z.leb_gt. lia.
    + destruct (failed_spec now (released probe (br s))) as (F1 & F2 & F3 & F4 & F5 & F6 & _).
      { destruct probe; cbn; rewrite I3; lia. }
      { destruct probe; cbn; by rewrite I3. }
      assert (Hst : streak (tr ++ [(Return id outcome err now, Some r)]) = streak tr + 1).
      { rewrite streak_snoc, (proj2 (Z.eqb_neq _ _) Hk2), (proj2 (Z.eqb_neq _ _) Hk1). done. }
      apply inv_settled with (probe := probe); try done; rewrite ?F1, ?F2, ?F3, ?F4, ?F5, ?F6;
        try (by destruct probe); rewrite Hst.
      * destruct probe; cbn; lia.
      * destruct probe; cbn; by rewrite I3.
Qed.

Lemma run_inv thr cd tr s :
  run (mkSys (New thr cd) ∅) tr s → len tr < 2 ^ 62 → inv tr s.
Proof.
  induction 1 as [|tr s e a s' Hrun IH Hstep]; intros Hlen; [apply New_inv|].
  rewrite len_app in Hlen. unfold len at 2 in Hlen. cbn in Hlen.
  apply (step_inv tr s); [lia | apply IH; lia | done].
Qed.

(** ** Sequential use *)

(** One whole call, entered at [t0], its callback back at [t1]. *)
Definition DoWithOutcome (b : t) (t0 outcome : Z) (err : option string) (t1 : Z) : result * t :=
  match admission t0 b with
  | (None, b) => (ErrOpen, b)
  | (Some probe, b) => settle probe outcome err t1 b
  end.

(** A run of failing calls: their entry and return instants. *)
Definition fail_all (ts : list (Z * Z)) (b : t) : t :=
  foldl (λ b '(t0, t1), (DoWithOutcome b t0 OutcomeFailure (Some "down"%string) t1).2) b ts.

Lemma fail_all_closed ts thr cd :
  0 < thr < 2 ^ 62 → 0 < cd → len ts < thr →
  fail_all ts (New thr cd) = (New thr cd) <| consec := len ts |>.
Proof.
  intros Ht Hc. induction ts as [|[t0 t1] ts IH] using rev_ind; intros Hl; [done|].
  rewrite len_app in Hl |- *. change (len [(t0, t1)]) with 1 in *.
  unfold fail_all in *. rewrite foldl_app, IH by lia. cbn.
  unfold DoWithOutcome, admission, settle, New.
  rewrite (proj2 (Z.leb_gt thr 0)), (proj2 (Z.leb_gt cd 0)) by lia. cbn.
  pose proof (len_nonneg ts). rewrite i64_small by lia.
  by rewrite (proj2 (Z.leb_gt thr _)) by lia.
Qed.

(** ** Properties *)

(** C20. In every interleaving of concurrent calls: at most one half-open probe is in
    flight; the breaker is open exactly when the failures settled since the last
    success have reached the threshold (neutral outcomes count neither way); and the
    short circuit counter is exactly the number of refused calls. *)
Theorem breaker_invariants (thr cd : Z) (tr : list (event * option result)) (s : sys) :
  run (mkSys (New thr cd) ∅) tr s → len tr < 2 ^ 62 →
  (∀ id id', inflight s !! id = Some true → inflight s !! id' = Some true → id' = id) ∧
  (opened (br s) = true ↔ threshold (br s) ≤ streak tr) ∧
  consec (br s) = streak tr ∧
  shortCircuits (br s) = countb short_circuited tr.
Proof.
  intros Hrun Hlen. destruct (run_inv thr cd tr s Hrun Hlen) as [I1 I2 I3 I4 I5 I6 I7].
  split_and!; try done.
  - intros id id' H1 H2. by apply (I5 id).
  - rewrite I4. apply Z.leb_le.
Qed.

Lemma step_return_eq id outcome err now s probe r b' m :
  inflight s !! id = Some probe → settle probe outcome err now (br s) = (r, b') →
  m = delete id (inflight s) → step s (Return id outcome err now) (Some r) (mkSys b' m).
Proof. intros H1 H2 ->. by eapply step_return. Qed.

Lemma demo_failure : run (mkSys (New 1 10) ∅)
    [(Call 0 5, None); (Return 0 OutcomeFailure None 6, Some (Returned None));
     (Call 1 7, Some ErrOpen); (Call 2 16, None)]
    (mkSys (mk 1 10 1 true 16 true 1 1) {[2%nat := true]}).
Proof.
  apply (run_snoc _ [_; _; _] (mkSys (mk 1 10 1 true 16 false 1 1) ∅)).
  2:{ apply (step_admitted 2 16 (mkSys (mk 1 10 1 true 16 false 1 1) ∅) true); reflexivity. }
  apply (run_snoc _ [_; _] (mkSys (mk 1 10 1 true 16 false 1 0) ∅)).
  2:{ apply (step_short 1 7 (mkSys (mk 1 10 1 true 16 false 1 0) ∅)); reflexivity. }
  apply (run_snoc _ [_] (mkSys (New 1 10) {[0%nat := false]})).
  2:{ apply (step_return_eq 0 OutcomeFailure None 6 (mkSys (New 1 10) {[0%nat := false]}) false);
      reflexivity. }
  apply (run_snoc _ [] (mkSys (New 1 10) ∅)); [constructor|].
  apply (step_admitted 0 5 (mkSys (New 1 10) ∅) false); reflexivity.
Qed.

Lemma breaker_invariants_witness :
  let tr := [(Call 0 5, None); (Return 0 OutcomeFailure None 6, Some (Returned None));
     (Call 1 7, Some ErrOpen); (Call 2 16, None)] in
  let s := mkSys (mk 1 10 1 true 16 true 1 1) {[2%nat := true]} in
  (∀ id id', inflight s !! id = Some true → inflight s !! id' = Some true → id' = id) ∧
  (opened (br s) = true ↔ threshold (br s) ≤ streak tr) ∧
  consec (br s) = streak tr ∧
  shortCircuits (br s) = countb short_circuited tr.
Proof.
  apply (breaker_invariants 1 10); [exact demo_failure | vm_compute; reflexivity].
Defined.

(** Admission in any reachable state: an open breaker refuses every call before
    the cooldown ends, and after it for as long as a probe is in flight, without
    reaching the upstream and changing nothing but the counter; otherwise the call
    goes through, as the probe exactly when the breaker is open. *)
Theorem breaker_admission (thr cd : Z) (tr : list (event * option result)) (s : sys)
    (id : nat) (now : Z) (a : option result) (s' : sys) :
  run (mkSys (New thr cd) ∅) tr s → len tr < 2 ^ 62 → step s (Call id now) a s' →
  if opened (br s) && (bool_decide (now < openUntil (br s)) ||
       bool_decide (map_Exists (λ _ p, p = true) (inflight s)))
  then a = Some ErrOpen ∧
       s' = mkSys ((br s) <| shortCircuits := u64 (shortCircuits (br s) + 1) |>) (inflight s)
  else a = None ∧ inflight s' = <[id := opened (br s)]> (inflight s) ∧
       br s' = (br s) <| probing := (opened (br s) || probing (br s)) |>.
Proof.
  intros Hrun Hlen Hstep. destruct (run_inv thr cd tr s Hrun Hlen) as [_ _ _ _ I5 I6 _].
  assert (Hex : probing (br s) = bool_decide (map_Exists (λ _ p, p = true) (inflight s))).
  { destruct (probing (br s)).
    - destruct I6 as [i Hi]; [done|]. symmetry. apply bool_decide_eq_true.
      by exists i, true.
    - symmetry. apply bool_decide_eq_false. intros (i & p & Hi & ->). by destruct (I5 _ Hi). }
  rewrite <- Hex.
  destruct (admission_cases now (br s)) as [[Ho E]|[(Ho & Hu & Hp & E)|(Ho & Hu & E)]]; rewrite Ho; cbn.
  - inversion Hstep as [? ? ? ? ? Hid Had|? ? ? ? Hid Had|]; subst; rewrite E in Had; [|done].
    injection Had as <- <-. cbn. split_and!; try done. by destruct (br s).
  - rewrite Hp, (bool_decide_eq_false_2 (now < _)) by lia. cbn.
    inversion Hstep as [? ? ? ? ? Hid Had|? ? ? ? Hid Had|]; subst; rewrite E in Had; [|done].
    by injection Had as <- <-.
  - replace (_ || _) with true.
    2:{ symmetry. destruct Hu as [Hu| ->]; [by rewrite bool_decide_eq_true_2 | apply orb_true_r]. }
    inversion Hstep as [? ? ? ? ? Hid Had|? ? ? ? Hid Had|]; subst; rewrite E in Had; [done|].
    by injection Had as <-.
Qed.

Lemma breaker_admission_witness :
  let s := mkSys (mk 1 10 1 true 16 true 1 1) {[2%nat := true]} in
  let s' := mkSys (mk 1 10 1 true 16 true 1 2) {[2%nat := true]} in
  if opened (br s) && (bool_decide (20 < openUntil (br s)) ||
       bool_decide (map_Exists (λ _ p, p = true) (inflight s)))
  then Some ErrOpen = Some ErrOpen ∧
       s' = mkSys ((br s) <| shortCircuits := u64 (shortCircuits (br s) + 1) |>) (inflight s)
  else Some ErrOpen = None ∧ inflight s' = <[3%nat := opened (br s)]> (inflight s) ∧
       br s' = (br s) <| probing := (opened (br s) || probing (br s)) |>.
Proof.
  apply (breaker_admission 1 10 _ _ 3 20 (Some ErrOpen) _ demo_failure).
  - vm_compute; reflexivity.
  - exact (step_short 3 20 (mkSys (mk 1 10 1 true 16 true 1 1) {[2%nat := true]})
      (mk 1 10 1 true 16 true 1 2) eq_refl eq_refl).
Defined.

(** Trip and recovery, sequentially: fewer failures than the threshold leave the
    breaker closed; exactly at the threshold it trips, once, until the last failure's
    return plus the cooldown; calls before that are refused; the first call after it
    reaches the upstream, and its success closes the breaker with a clean streak
    while its failure re-arms the cooldown from its own return without counting
    another trip. *)
Theorem breaker_trip_and_recover (thr cd : Z) (ts : list (Z * Z)) (t0 t1 t2 t3 : Z) :
  0 < thr < 2 ^ 62 → 0 < cd → len ts + 1 = thr →
  let b1 := fail_all ts (New thr cd) in
  let b2 := fail_all (ts ++ [(t0, t1)]) (New thr cd) in
  (∀ now, st_State (Stats now b1) = StateClosed) ∧
  trips b1 = 0 ∧ trips b2 = 1 ∧
  (∀ now, st_State (Stats now b2) = if now <? t1 + cd then StateOpen else StateHalfOpen) ∧
  (t2 < t1 + cd → ∀ o e, (DoWithOutcome b2 t2 o e t3).1 = ErrOpen) ∧
  (t1 + cd ≤ t2 →
    DoWithOutcome b2 t2 OutcomeSuccess None t3 = (Returned None, (New thr cd) <| trips := 1 |>) ∧
    DoWithOutcome b2 t2 OutcomeFailure None t3
      = (Returned None, b2 <| consec := thr + 1 |> <| openUntil := t3 + cd |>)).
Proof.
  intros Ht Hc Hl b1 b2. assert (E1 : b1 = (New thr cd) <| consec := len ts |>).
  { apply fail_all_closed; lia. }
  assert (E2 : b2 = mk thr cd thr true (t1 + cd) false 1 0).
  { unfold b2, fail_all. rewrite foldl_app. fold (fail_all ts (New thr cd)). fold b1.
    rewrite E1. cbn. unfold DoWithOutcome, admission, settle, New.
    rewrite (proj2 (Z.leb_gt thr 0)), (proj2 (Z.leb_gt cd 0)) by lia. cbn.
    pose proof (len_nonneg ts). rewrite i64_small by lia.
    rewrite Hl, Z.leb_refl. reflexivity. }
  rewrite E1, E2. unfold New, Stats, DoWithOutcome, admission.
  rewrite (proj2 (Z.leb_gt thr 0)), (proj2 (Z.leb_gt cd 0)) by lia. cbn.
  split; [done|]. split; [done|]. split; [done|].
  split; [intros now; by destruct (now <? _)|].
  split; [intros H o e; by rewrite (proj2 (Z.ltb_lt _ _) H)|].
  intros H. rewrite (proj2 (Z.ltb_ge _ _) H). cbn. split; [done|].
  by rewrite i64_small by lia.
Qed.

Lemma breaker_trip_and_recover_witness :
  let b1 := fail_all [(1, 2)] (New 2 10) in
  let b2 := fail_all ([(1, 2)] ++ [(3, 4)]) (New 2 10) in
  (∀ now, st_State (Stats now b1) = StateClosed) ∧
  trips b1 = 0 ∧ trips b2 = 1 ∧
  (∀ now, st_State (Stats now b2) = if now <? 4 + 10 then StateOpen else StateHalfOpen) ∧
  (20 < 4 + 10 → ∀ o e, (DoWithOutcome b2 20 o e 21).1 = ErrOpen) ∧
  (4 + 10 ≤ 20 →
    DoWithOutcome b2 20 OutcomeSuccess None 21 = (Returned None, (New 2 10) <| trips := 1 |>) ∧
    DoWithOutcome b2 20 OutcomeFailure None 21
      = (Returned None, b2 <| consec := 2 + 1 |> <| openUntil := 21 + 10 |>)).
Proof. apply (breaker_trip_and_recover 2 10 [(1, 2)] 3 4 20 21); [lia | lia | reflexivity]. Defined.

(** The probe is released only by the code after the callback, so a probe whose
    callback panics leaves [probing] set with no call in flight; from such a state
    every later call is refused, however long after the cooldown. *)
Theorem panicked_probe_wedges (s s' : sys) (tr : list (event * option result)) :
  opened (br s) = true → probing (br s) = true → inflight s = ∅ → run s tr s' →
  opened (br s') = true ∧ probing (br s') = true ∧ inflight s' = ∅ ∧
  Forall (λ ea, ea.2 = Some ErrOpen) tr.
Proof.
  intros Ho Hp Hi. induction 1 as [|tr s1 e a s2 Hrun (Ho1 & Hp1 & Hi1 & Hf) Hstep]; [done|].
  destruct Hstep as [id now s1 probe b' Hid Had|id now s1 b' Hid Had
    |id outcome err now s1 probe r b' Hid Hst].
  - unfold admission in Had. rewrite Ho1, Hp1 in Had. by destruct (now <? _).
  - assert (b' = (br s1) <| shortCircuits := u64 (shortCircuits (br s1) + 1) |>) as ->.
    { unfold admission in Had. rewrite Ho1, Hp1 in Had. destruct (now <? _); by injection Had as <-. }
    cbn. split_and!; try done. apply Forall_app. split; [done|]. by apply Forall_singleton.
  - by rewrite Hi1, lookup_empty in Hid.
Qed.

Lemma panicked_probe_wedges_witness :
  let s := mkSys (mk 1 10 1 true 16 true 1 1) ∅ in
  let s' := mkSys (mk 1 10 1 true 16 true 1 2) ∅ in
  opened (br s') = true ∧ probing (br s') = true ∧ inflight s' = ∅ ∧
  Forall (λ ea, ea.2 = Some ErrOpen) [(Call 9 1000000, Some ErrOpen)].
Proof.
  apply (panicked_probe_wedges (mkSys (mk 1 10 1 true 16 true 1 1) ∅)); try reflexivity.
  apply (run_snoc _ [] (mkSys (mk 1 10 1 true 16 true 1 1) ∅)); [constructor|].
  by apply (step_short 9 1000000 (mkSys (mk 1 10 1 true 16 true 1 1) ∅)).
Defined.

End Breaker.
