(* ===== verification/Buffer.v ===== *)
(** * internal/agent/buffer.go: the store-and-forward buffer

    The disk is explicit: the bytes of buffer.log and of the quarantine sidecar.
    What the operating system does to a write, a read or a rewrite is an argument of
    each operation ([wfault], [rfault], [rwfault]), so error paths - torn appends
    included - are values.  The abstract queue is a list of payloads; [rep] relates
    it to the disk and the counters. *)

From S2P Require Import Prelude.
#[local] Open Scope Z_scope.

Module Buffer.

Abbreviation payload := (list byte).

Definition maxFrameLen : Z := 8 * 2 ^ 20.
Definition frameOverhead : Z := 4.
Definition defaultMaxBytes : Z := 256 * 2 ^ 20.

Inductive err :=
| ErrBufferFull | EOpen | EWriteHeader | EWritePayload | ESync | ERead | ERewrite
| ESend (e : string) | ECanceled
| Panic. (** a slice expression out of range *)

(** ** Frames *)

Definition frame (p : payload) : list byte := be_bytes 4 (u32 (len p)) ++ p.

(** readFrame: [None] on io.EOF, a short read, or a length over the cap. *)
Definition readFrame (l : list byte) : option (payload * list byte) :=
  if len l <? 4 then None else
  let n := be_uint (firstn 4 l) in
  let rest := skipn 4 l in
  if maxFrameLen <? n then None
  else if len rest <? n then None
  else Some (firstn (Z.to_nat n) rest, skipn (Z.to_nat n) rest).

Fixpoint readFrames (fuel : nat) (l : list byte) : list payload :=
  match fuel with
  | O => []
  | S fuel =>
      match readFrame l with
      | None => []
      | Some (p, l) => p :: readFrames fuel l
      end
  end.

(** ** State *)

Record t := mk {
  maxRecords : Z;
  maxBytes : Z;   (** 0: no byte bound *)
  count : Z;
  bytes_ : Z;
  dropped : Z;
  quarantined : Z;
  log : option (list byte);   (** buffer.log; [None] when the file does not exist *)
  quar : option (list byte)   (** quarantine.log *)
}.

#[export] Instance t_eta : Eta t := λ b,
  mk (maxRecords b) (maxBytes b) (count b) (bytes_ b) (dropped b) (quarantined b) (log b) (quar b).

(** ** What the operating system may do *)

(** An append: it works, or the open, the header write, the payload write (after
    [k] bytes) or the sync fails. *)
Inductive wfault := WOk | WOpen | WHeader (k : nat) | WPayload (k : nat) | WSync.

(** A read of the log: it works, the open fails, or reads fail from byte [k] on. *)
Inductive rfault := RdOk | RdOpen | RdStop (k : nat).

(** A rewrite through the temporary file: any failure before the rename. *)
Inductive rwfault := RwOk | RwFail.

(** Open for append, write the frame, sync. *)
Definition appendFrame (f : wfault) (file : option (list byte)) (p : payload)
    : option err * option (list byte) :=
  let content := default [] file in
  match f with
  | WOk => (None, Some (content ++ frame p))
  | WOpen => (Some EOpen, file)
  | WHeader k => (Some EWriteHeader, Some (content ++ firstn k (be_bytes 4 (u32 (len p)))))
  | WPayload k =>
      (Some EWritePayload, Some (content ++ be_bytes 4 (u32 (len p)) ++ firstn k p))
  | WSync => (Some ESync, Some (content ++ frame p))
  end.

(** readAll: every read error, not only the end of file, ends the log. *)
Definition readAll (f : rfault) (b : t) : err + list payload :=
  match log b, f with
  | _, RdOpen => inl ERead
  | None, _ => inr []
  | Some l, RdOk => inr (readFrames (S (length l)) l)
  | Some l, RdStop k => inr (readFrames (S (length l)) (firstn k l))
  end.

Definition frames_bytes (fs : list payload) : Z :=
  foldr (λ p n, frameOverhead + len p + n) 0 fs.

Definition rewriteLocked (f : rwfault) (fs : list payload) (b : t) : option err * t :=
  match f with
  | RwFail => (Some ERewrite, b)
  | RwOk =>
      (None, b <| log := Some (fs ≫= frame) |> <| count := len fs |>
               <| bytes_ := frames_bytes fs |>)
  end.

(** ** Operations *)

(** OpenBufferWithBytes on the files a previous process left. *)
Definition OpenBufferWithBytes (rf : rfault) (wf : rwfault) (maxRecords maxBytes : Z)
    (log0 quar0 : option (list byte)) : err + t :=
  let maxRecords := if maxRecords <=? 0 then 10000 else maxRecords in
  let maxBytes := if maxBytes =? 0 then defaultMaxBytes else if maxBytes <? 0 then 0 else maxBytes in
  let b := mk maxRecords maxBytes 0 0 0 0 log0 quar0 in
  match readAll rf b with
  | inl e => inl e
  | inr fs =>
      match rewriteLocked wf fs b with
      | (Some e, _) => inl e
      | (None, b) => inr b
      end
  end.

Definition Enqueue (f : wfault) (p : payload) (b : t) : option err * t :=
  let frameSize := frameOverhead + len p in
  if (maxRecords b <=? count b) || ((0 <? maxBytes b) && (maxBytes b <? bytes_ b + frameSize))
  then (Some ErrBufferFull, b <| dropped := u64 (dropped b + 1) |>)
  else
    let '(e, l) := appendFrame f (log b) p in
    let b := b <| log := l |> in
    match e with
    | Some e => (Some e, b)
    | None => (None, b <| count := count b + 1 |> <| bytes_ := bytes_ b + frameSize |>)
    end.

(** The lock-free send phase of Drain: each answer is the context's and send's error
    for the next frame. *)
Fixpoint sendLoop (fs : list payload) (answers : list (option err)) : nat * option err :=
  match fs, answers with
  | [], _ => (O, None)
  | _ :: fs, Some e :: _ => (O, Some e)
  | _ :: fs, None :: answers => let '(n, e) := sendLoop fs answers in (S n, e)
  | _ :: _, [] => (O, Some ECanceled)
  end.

(** The last critical section of Drain. *)
Definition drainEnd (rf : rfault) (wf : rwfault) (sent : nat) (sendErr : option err) (b : t)
    : Z * option err * t :=
  match readAll rf b with
  | inl e => (Z.of_nat sent, Some e, b)
  | inr cur =>
      let sent := Nat.min sent (length cur) in
      let '(e, b) := rewriteLocked wf (skipn sent cur) b in
      match e with
      | Some e => (Z.of_nat sent, Some e, b)
      | None => (Z.of_nat sent, sendErr, b)
      end
  end.

(** Drain, with the enqueues that ran during the send phase. *)
Definition Drain (rf1 rf2 : rfault) (wf : rwfault) (answers : list (option err))
    (concurrent : list payload) (b : t) : Z * option err * t :=
  match readAll rf1 b with
  | inl e => (0, Some e, b)
  | inr fs =>
      let '(sent, sendErr) := sendLoop fs answers in
      let b := foldl (λ b p, (Enqueue WOk p b).2) b concurrent in
      drainEnd rf2 wf sent sendErr b
  end.

(** The loop of PeekBatch; [n] frames taken so far, [total] bytes. *)
Fixpoint peekLoop (fuel : nat) (maxRecords maxBytes n total : Z) (l : list byte) : list payload :=
  match fuel with
  | O => []
  | S fuel =>
      if negb ((maxRecords <=? 0) || (n <? maxRecords)) then [] else
      match readFrame l with
      | None => []
      | Some (p, l) =>
          let frameSize := frameOverhead + len p in
          if (0 <? maxBytes) && (0 <? n) && (maxBytes <? total + frameSize) then []
          else p :: peekLoop fuel maxRecords maxBytes (n + 1) (total + frameSize) l
      end
  end.

Definition PeekBatch (f : rfault) (maxRecords maxBytes : Z) (b : t) : err + list payload :=
  if (maxRecords <=? 0) && (maxBytes <=? 0) then readAll f b else
  match log b, f with
  | _, RdOpen => inl ERead
  | None, _ => inr []
  | Some l, RdOk => inr (peekLoop (S (length l)) maxRecords maxBytes 0 0 l)
  | Some l, RdStop k => inr (peekLoop (S (length l)) maxRecords maxBytes 0 0 (firstn k l))
  end.

(** [cur[n:]] panics for a negative [n]. *)
Definition Remove (rf : rfault) (wf : rwfault) (n : Z) (b : t) : option err * t :=
  match readAll rf b with
  | inl e => (Some e, b)
  | inr cur =>
      let n := if len cur <? n then len cur else n in
      if n <? 0 then (Some Panic, b) else rewriteLocked wf (skipn (Z.to_nat n) cur) b
  end.

Definition appendQuarantineLocked (f : wfault) (p : payload) (b : t) : option err * t :=
  let '(e, q) := appendFrame f (quar b) p in (e, b <| quar := q |>).

Definition QuarantineHead (rf : rfault) (qf : wfault) (wf : rwfault) (b : t) : Z * option err * t :=
  match readAll rf b with
  | inl e => (0, Some e, b)
  | inr [] => (0, None, b)
  | inr (head :: rest) =>
      match appendQuarantineLocked qf head b with
      | (Some e, b) => (0, Some e, b)
      | (None, b) =>
          match rewriteLocked wf rest b with
          | (Some e, b) => (0, Some e, b)
          | (None, b) => (len head, None, b <| quarantined := u64 (quarantined b + 1) |>)
          end
      end
  end.

Definition Len (b : t) : Z := count b.
Definition Dropped (b : t) : Z := dropped b.
Definition Bytes (b : t) : Z := bytes_ b.
Definition Quarantined (b : t) : Z := quarantined b.
Definition peekAll (f : rfault) (b : t) : err + list payload := readAll f b.

(** ** One drain cycle of the agent (agent.go: drainOnce)

    frameToRequest is JSON and protobuf decoding: a parameter that accepts a frame,
    or rejects it as an envelope of an unsupported version or as undecodable. *)

Inductive convert_res := Converted | Unsupported | Undecodable.

(** The converted prefix, and why it ended. *)
Fixpoint frameRequestsPrefix (convert : payload → convert_res) (fs : list payload)
    : list payload * option convert_res :=
  match fs with
  | [] => ([], None)
  | p :: fs =>
      match convert p with
      | Converted => let '(rs, bad) := frameRequestsPrefix convert fs in (p :: rs, bad)
      | bad => ([], Some bad)
      end
  end.

(** What the stream did: an error (open, send or receive), or an acknowledgement of
    [accepted] (uint64) records. *)
Inductive stream := StreamErr (e : string) | Ack (accepted : Z).

(** The enqueues that run between peeking and removing are [concurrent]. *)
Definition drainOnce (convert : payload → convert_res) (rf1 rf2 : rfault) (qf : wfault)
    (wf : rwfault) (maxRecords maxBytes : Z) (s : stream) (concurrent : list payload) (b : t)
    : option err * t :=
  match PeekBatch rf1 maxRecords maxBytes b with
  | inl e => (Some e, b)
  | inr fs =>
      let b := foldl (λ b p, (Enqueue WOk p b).2) b concurrent in
      if len fs =? 0 then (None, b) else
      let '(requests, bad) := frameRequestsPrefix convert fs in
      match requests, bad with
      | [], Some Undecodable =>
          let '(_, e, b) := QuarantineHead rf2 qf wf b in (e, b)
      | [], _ => (None, b)
      | _ :: _, _ =>
          match s with
          | StreamErr e => (Some (ESend e), b)
          | Ack accepted =>
              let acked := i64 accepted in
              let acked := if len requests <? acked then len requests else acked in
              Remove rf2 wf acked b
          end
      end
  end.

(** ** Lemmas: frames *)

Definition frame_ok (p : payload) : Prop := len p ≤ maxFrameLen.

Lemma len_frame p : len (frame p) = 4 + len p.
Proof. unfold frame. by rewrite len_app, len_be_bytes. Qed.

Lemma firstn4_be z (l : list byte) :
  firstn 4 (be_bytes 4 z ++ l) = be_bytes 4 z ∧ skipn 4 (be_bytes 4 z ++ l) = l.
Proof.
  pose proof (length_be_bytes 4 z) as H.
  split; [rewrite <- H at 1; apply take_app_length | rewrite <- H at 1; apply drop_app_length].
Qed.

(** A header and what follows it. *)
Lemma readFrame_header n l :
  0 ≤ n < 2 ^ 32 →
  readFrame (be_bytes 4 n ++ l) =
    if maxFrameLen <? n then None
    else if len l <? n then None else Some (firstn (Z.to_nat n) l, skipn (Z.to_nat n) l).
Proof.
  intros Hn. unfold readFrame. rewrite len_app, len_be_bytes.
  rewrite (proj2 (Z.ltb_ge _ 4)) by (pose proof (len_nonneg l); lia).
  destruct (firstn4_be n l) as [-> ->]. by rewrite (be_uint_be_bytes_small 4 n) by lia.
Qed.

Lemma readFrame_frame p rest : frame_ok p → readFrame (frame p ++ rest) = Some (p, rest).
Proof.
  intros Hp. unfold frame_ok, maxFrameLen in Hp. pose proof (len_nonneg p).
  unfold frame. rewrite <- app_assoc, u32_small by lia. rewrite readFrame_header by lia.
  unfold maxFrameLen. rewrite (proj2 (Z.ltb_ge _ (len p))) by lia.
  rewrite len_app, (proj2 (Z.ltb_ge _ (len p))) by (pose proof (len_nonneg rest); lia).
  unfold len. by rewrite Nat2Z.id, take_app_length, drop_app_length.
Qed.

Lemma readFrame_oversize p rest :
  maxFrameLen < len p → len p < 2 ^ 32 → readFrame (frame p ++ rest) = None.
Proof.
  intros Hp H32. unfold frame. rewrite <- app_assoc, u32_small by (unfold maxFrameLen in *; lia).
  rewrite readFrame_header by (unfold maxFrameLen in *; lia).
  by rewrite (proj2 (Z.ltb_lt _ _)).
Qed.

(** A torn frame is unreadable. *)
Lemma readFrame_torn p k :
  len p < 2 ^ 32 → (k < length (frame p))%nat → readFrame (firstn k (frame p)) = None.
Proof.
  intros Hp Hk. pose proof (len_nonneg p). unfold frame in *. rewrite u32_small in * by lia.
  destruct (decide (k < 4)%nat) as [H4|H4].
  { unfold readFrame. rewrite (proj2 (Z.ltb_lt _ 4)); [done|].
    unfold len. rewrite length_firstn. lia. }
  rewrite length_app, length_be_bytes in Hk.
  rewrite firstn_app, length_be_bytes, (firstn_all2 (be_bytes _ _)) by (rewrite length_be_bytes; lia).
  rewrite readFrame_header by lia. destruct (maxFrameLen <? len p); [done|].
  rewrite (proj2 (Z.ltb_lt _ _)); [done|]. unfold len. rewrite length_firstn. lia.
Qed.

Lemma readFrames_encoded q tail fuel :
  Forall frame_ok q → readFrame tail = None → (length q < fuel)%nat →
  readFrames fuel ((q ≫= frame) ++ tail) = q.
Proof.
  intros Hq Ht. revert fuel. induction Hq as [|p q Hp Hq IH]; intros [|fuel] Hf; cbn in Hf; try lia.
  { cbn [readFrames]. cbn. by rewrite Ht. }
  rewrite bind_cons, <- app_assoc. cbn [readFrames]. rewrite readFrame_frame by done.
  by rewrite IH by lia.
Qed.

Lemma length_frames q : (length q ≤ length (q ≫= frame))%nat.
Proof.
  induction q as [|p q IH]; [done|]. rewrite bind_cons, length_app. cbn [length].
  unfold frame at 1. rewrite length_app, length_be_bytes. lia.
Qed.

Lemma readLog_encoded q tail :
  Forall frame_ok q → readFrame tail = None →
  readFrames (S (length ((q ≫= frame) ++ tail))) ((q ≫= frame) ++ tail) = q.
Proof.
  intros Hq Ht. apply readFrames_encoded; [done | done |].
  pose proof (length_frames q). rewrite length_app. lia.
Qed.

Lemma frames_bytes_cons p q : frames_bytes (p :: q) = 4 + len p + frames_bytes q.
Proof. done. Qed.

Lemma frames_bytes_app a b : frames_bytes (a ++ b) = frames_bytes a + frames_bytes b.
Proof. induction a as [|p a IH]; cbn [app]; rewrite ?frames_bytes_cons; [done | lia]. Qed.

Lemma frames_bytes_skipn n q : frames_bytes (skipn n q) ≤ frames_bytes q.
Proof.
  rewrite <- (firstn_skipn n q) at 2. rewrite frames_bytes_app.
  assert (H : ∀ l, 0 ≤ frames_bytes l); [|specialize (H (firstn n q)); lia].
  induction l as [|p l IH]; [done|]. rewrite frames_bytes_cons. pose proof (len_nonneg p). lia.
Qed.

(** ** The abstract queue *)

(** Undrained payloads, quarantined payloads, and how many were shed. *)
Record queue := mkQueue { a_q : list payload; a_quar : list payload; a_dropped : Z }.

(** The on-disk and in-memory state represents [a]. *)
Record rep (a : queue) (b : t) : Prop := mkRep {
  rep_log : default [] (log b) = a_q a ≫= frame;
  rep_quar : default [] (quar b) = a_quar a ≫= frame;
  rep_ok : Forall frame_ok (a_q a);
  rep_quar_ok : Forall frame_ok (a_quar a);
  rep_count : count b = len (a_q a);
  rep_bytes : bytes_ b = frames_bytes (a_q a);
  rep_dropped : dropped b = a_dropped a
}.

Definition full (maxR maxB : Z) (p : payload) (q : list payload) : bool :=
  (maxR <=? len q) || ((0 <? maxB) && (maxB <? frames_bytes q + (4 + len p))).

Definition aEnqueue (maxR maxB : Z) (p : payload) (a : queue) : option err * queue :=
  if full maxR maxB p (a_q a)
  then (Some ErrBufferFull, mkQueue (a_q a) (a_quar a) (u64 (a_dropped a + 1)))
  else (None, mkQueue (a_q a ++ [p]) (a_quar a) (a_dropped a)).

Definition aRemove (n : Z) (a : queue) : queue :=
  mkQueue (skipn (Z.to_nat n) (a_q a)) (a_quar a) (a_dropped a).

Definition aQuarantine (a : queue) : queue :=
  match a_q a with
  | [] => a
  | p :: q => mkQueue q (a_quar a ++ [p]) (a_dropped a)
  end.

Definition aEnqueues (maxR maxB : Z) (ps : list payload) (a : queue) : queue :=
  foldl (λ a p, (aEnqueue maxR maxB p a).2) a ps.

(** ** Each operation refines the queue *)

Lemma readAll_rep a b : rep a b → readAll RdOk b = inr (a_q a).
Proof.
  intros R. unfold readAll. destruct R as [R1 _ R3 _ _ _ _]. destruct (log b) as [l|]; cbn in R1.
  - rewrite R1, <- (app_nil_r (a_q a ≫= frame)). by rewrite readLog_encoded.
  - destruct (a_q a) as [|p q]; [done|]. rewrite bind_cons in R1. by apply (f_equal length) in R1.
Qed.

Lemma Enqueue_rep a b p :
  rep a b → frame_ok p →
  (Enqueue WOk p b).1 = (aEnqueue (maxRecords b) (maxBytes b) p a).1 ∧
  rep (aEnqueue (maxRecords b) (maxBytes b) p a).2 (Enqueue WOk p b).2.
Proof.
  intros R Hp. pose proof R as [R1 R2 R3 R4 R5 R6 R7].
  unfold Enqueue, aEnqueue, full, frameOverhead. rewrite R5, R6.
  destruct (_ || _); cbn.
  - split; [done|]. constructor; cbn; try done. by rewrite R7.
  - split; [done|]. constructor; cbn; try done.
    + rewrite R1, bind_app, bind_cons. by rewrite app_nil_r.
    + apply Forall_app. split; [done | by apply Forall_singleton].
    + rewrite len_app. unfold len at 2. cbn. lia.
    + rewrite frames_bytes_app, frames_bytes_cons. cbn. lia.
Qed.

(** Room in the abstract queue is room in the buffer. *)
Lemma room_false a b p :
  rep a b → full (maxRecords b) (maxBytes b) p (a_q a) = false →
  (maxRecords b <=? count b) || ((0 <? maxBytes b) && (maxBytes b <? bytes_ b + (4 + len p))) = false.
Proof. intros [_ _ _ _ R5 R6 _] F. by rewrite R5, R6. Qed.

Lemma Enqueue_room a b p :
  rep a b → full (maxRecords b) (maxBytes b) p (a_q a) = false →
  Enqueue WOk p b = (None, b <| log := Some (default [] (log b) ++ frame p) |>
    <| count := count b + 1 |> <| bytes_ := bytes_ b + (4 + len p) |>).
Proof. intros R F. unfold Enqueue, frameOverhead. by rewrite (room_false a b p R F). Qed.

Lemma Enqueue_caps f p b :
  maxRecords (Enqueue f p b).2 = maxRecords b ∧ maxBytes (Enqueue f p b).2 = maxBytes b ∧
  quarantined (Enqueue f p b).2 = quarantined b.
Proof.
  unfold Enqueue. destruct (_ || _); [done|]. destruct (appendFrame f (log b) p) as [[e|] l]; done.
Qed.

Lemma Enqueues_rep a b ps :
  rep a b → Forall frame_ok ps →
  let b' := foldl (λ b p, (Enqueue WOk p b).2) b ps in
  rep (aEnqueues (maxRecords b) (maxBytes b) ps a) b' ∧
  maxRecords b' = maxRecords b ∧ maxBytes b' = maxBytes b.
Proof.
  intros R Hps. revert a b R. induction Hps as [|p ps Hp Hps IH]; intros a b R; [done|].
  cbn [foldl]. destruct (Enqueue_caps WOk p b) as (E1 & E2 & _).
  destruct (Enqueue_rep a b p R Hp) as [_ R1].
  destruct (IH _ _ R1) as (I1 & I2 & I3). unfold aEnqueues in *. cbn [foldl].
  rewrite E1, E2 in I1. by rewrite I2, I3, E1, E2.
Qed.

Lemma rewrite_rep a b n :
  rep a b →
  rep (mkQueue (skipn n (a_q a)) (a_quar a) (a_dropped a))
    (rewriteLocked RwOk (skipn n (a_q a)) b).2.
Proof.
  intros [R1 R2 R3 R4 R5 R6 R7]. constructor; cbn; try done. by apply Forall_drop.
Qed.

Lemma Remove_rep a b n :
  rep a b → 0 ≤ n →
  (Remove RdOk RwOk n b).1 = None ∧ rep (aRemove n a) (Remove RdOk RwOk n b).2.
Proof.
  intros R Hn. unfold Remove. rewrite (readAll_rep a b R).
  pose proof (len_nonneg (a_q a)).
  assert (Hn' : 0 ≤ (if len (a_q a) <? n then len (a_q a) else n)) by (destruct (_ <? _); lia).
  rewrite (proj2 (Z.ltb_ge _ 0) Hn').
  split; [done|]. unfold aRemove.
  replace (skipn (Z.to_nat n) (a_q a))
    with (skipn (Z.to_nat (if len (a_q a) <? n then len (a_q a) else n)) (a_q a)).
  { by apply rewrite_rep. }
  destruct (len (a_q a) <? n) eqn:E; [|done]. zbool. unfold len in *.
  rewrite !drop_ge by lia. done.
Qed.

Lemma Quarantine_rep a b :
  rep a b →
  (QuarantineHead RdOk WOk RwOk b).1.2 = None ∧
  rep (aQuarantine a) (QuarantineHead RdOk WOk RwOk b).2.
Proof.
  intros R. unfold QuarantineHead. rewrite (readAll_rep a b R). unfold aQuarantine.
  destruct R as [R1 R2 R3 R4 R5 R6 R7]. destruct (a_q a) as [|p q] eqn:Eq; cbn.
  - split; [done|]. constructor; rewrite ?Eq; done.
  - inversion R3 as [|? ? Hp Hq]; subst. split; [done|]. constructor; cbn; try done.
    + rewrite R2, bind_app, bind_cons. by rewrite app_nil_r.
    + apply Forall_app. split; [done | by apply Forall_singleton].
Qed.

(** Drain removes from the head exactly what was sent; enqueues that ran meanwhile
    are kept behind. *)
Definition aDrain (maxR maxB : Z) (answers : list (option err)) (concurrent : list payload)
    (a : queue) : option err * queue :=
  let '(sent, e) := sendLoop (a_q a) answers in
  (e, aRemove (Z.of_nat sent) (aEnqueues maxR maxB concurrent a)).

Lemma sendLoop_le fs answers : ((sendLoop fs answers).1 ≤ length fs)%nat.
Proof.
  revert answers. induction fs as [|p fs IH]; intros [|[e|] answers]; cbn; try lia.
  specialize (IH answers). destruct (sendLoop fs answers). cbn in *. lia.
Qed.

Lemma sendLoop_spec fs answers :
  let '(sent, e) := sendLoop fs answers in
  Forall (λ x, x = None) (firstn sent answers) ∧
  (e = None → sent = length fs) ∧
  (∀ x, e = Some x → (sent < length fs)%nat ∧
     (answers !! sent = Some (Some x) ∨ (answers !! sent = None ∧ x = ECanceled))).
Proof.
  revert answers. induction fs as [|p fs IH]; intros answers; cbn [sendLoop].
  { split_and!; [constructor | done | done]. }
  destruct answers as [|[e|] answers].
  - split_and!; [constructor | done |]. intros x [= <-]. split; [cbn; lia|]. right. done.
  - split_and!; [constructor | done |]. intros x [= <-]. split; [cbn; lia|]. left. done.
  - specialize (IH answers). destruct (sendLoop fs answers) as [n e].
    destruct IH as (I1 & I2 & I3). cbn.
    split_and!; [by constructor | intros He; f_equal; by apply I2 |].
    intros x Hx. destruct (I3 x Hx). split; [lia | done].
Qed.

(** Enqueues only ever extend the queue. *)
Lemma aEnqueues_extends maxR maxB ps a :
  ∃ more, a_q (aEnqueues maxR maxB ps a) = a_q a ++ more ∧ more `sublist_of` ps ∧
    a_quar (aEnqueues maxR maxB ps a) = a_quar a.
Proof.
  revert a. induction ps as [|p ps IH]; intros a.
  { exists []. rewrite app_nil_r. split; [done|]. split; [constructor | done]. }
  unfold aEnqueues in *. cbn [foldl]. unfold aEnqueue at 2 4. destruct (full _ _ _ _); cbn [snd].
  - destruct (IH (mkQueue (a_q a) (a_quar a) (u64 (a_dropped a + 1)))) as (more & E & S & Q).
    exists more. split; [done|]. split; [by constructor | done].
  - destruct (IH (mkQueue (a_q a ++ [p]) (a_quar a) (a_dropped a))) as (more & E & S & Q).
    exists (p :: more). rewrite E. cbn. rewrite <- app_assoc. split; [done|].
    split; [by constructor | done].
Qed.

Lemma Drain_rep a b answers concurrent :
  rep a b → Forall frame_ok concurrent →
  (Drain RdOk RdOk RwOk answers concurrent b).1.2
    = (aDrain (maxRecords b) (maxBytes b) answers concurrent a).1 ∧
  rep (aDrain (maxRecords b) (maxBytes b) answers concurrent a).2
    (Drain RdOk RdOk RwOk answers concurrent b).2.
Proof.
  intros R Hc. unfold Drain, aDrain. rewrite (readAll_rep a b R).
  pose proof (sendLoop_le (a_q a) answers) as Hle.
  destruct (sendLoop (a_q a) answers) as [sent e]. cbn in Hle.
  destruct (Enqueues_rep a b concurrent R Hc) as (R' & _).
  destruct (aEnqueues_extends (maxRecords b) (maxBytes b) concurrent a) as (more & E & _ & _).
  unfold drainEnd. rewrite (readAll_rep _ _ R'). cbn [fst snd rewriteLocked].
  split; [done|]. unfold aRemove. rewrite Nat2Z.id.
  replace (Nat.min sent _) with sent; [by apply rewrite_rep|].
  rewrite E, length_app. lia.
Qed.

(** ** Sequences of operations *)

Inductive op :=
| OEnqueue (p : payload)
| ODrain (answers : list (option err)) (concurrent : list payload)
| ORemove (n : Z)
| OQuarantine.

Definition op_ok (o : op) : Prop :=
  match o with
  | OEnqueue p => frame_ok p
  | ODrain _ concurrent => Forall frame_ok concurrent
  | ORemove n => 0 ≤ n
  | OQuarantine => True
  end.

Definition exec (o : op) (b : t) : option err * t :=
  match o with
  | OEnqueue p => Enqueue WOk p b
  | ODrain answers concurrent =>
      let '(_, e, b) := Drain RdOk RdOk RwOk answers concurrent b in (e, b)
  | ORemove n => Remove RdOk RwOk n b
  | OQuarantine => let '(_, e, b) := QuarantineHead RdOk WOk RwOk b in (e, b)
  end.

Definition aexec (maxR maxB : Z) (o : op) (a : queue) : option err * queue :=
  match o with
  | OEnqueue p => aEnqueue maxR maxB p a
  | ODrain answers concurrent => aDrain maxR maxB answers concurrent a
  | ORemove n => (None, aRemove n a)
  | OQuarantine => (None, aQuarantine a)
  end.

(** Run a sequence, collecting the errors returned. *)
Definition runs {S} (f : op → S → option err * S) (ops : list op) (s : S)
    : list (option err) * S :=
  foldl (λ '(es, s) o, let '(e, s) := f o s in (es ++ [e], s)) ([], s) ops.

Lemma rewrite_caps f fs b :
  maxRecords (rewriteLocked f fs b).2 = maxRecords b ∧ maxBytes (rewriteLocked f fs b).2 = maxBytes b.
Proof. by destruct f. Qed.

Lemma exec_rep a b o :
  rep a b → op_ok o →
  (exec o b).1 = (aexec (maxRecords b) (maxBytes b) o a).1 ∧
  rep (aexec (maxRecords b) (maxBytes b) o a).2 (exec o b).2 ∧
  maxRecords (exec o b).2 = maxRecords b ∧ maxBytes (exec o b).2 = maxBytes b.
Proof.
  intros R Hok. destruct o as [p|answers concurrent|n|]; cbn [exec aexec op_ok] in *.
  - destruct (Enqueue_rep a b p R Hok) as [E R']. destruct (Enqueue_caps WOk p b) as (C1 & C2 & _).
    by split_and!.
  - destruct (Drain_rep a b answers concurrent R Hok) as [E R'].
    destruct (Enqueues_rep a b concurrent R Hok) as (R1 & C1 & C2).
    unfold Drain, drainEnd in *. rewrite (readAll_rep a b R) in *.
    destruct (sendLoop (a_q a) answers) as [sent e0]. rewrite (readAll_rep _ _ R1) in *.
    cbn in *. by split_and!.
  - destruct (Remove_rep a b n R Hok) as [E R']. split; [done|]. split; [done|].
    unfold Remove in *. rewrite (readAll_rep a b R) in *.
    by destruct (_ <? 0).
  - destruct (Quarantine_rep a b R) as [E R'].
    unfold QuarantineHead in *. rewrite (readAll_rep a b R) in *.
    destruct (a_q a) as [|p q]; cbn in *; by split_and!.
Qed.

Lemma runs_snoc {S} (f : op → S → option err * S) ops o s :
  runs f (ops ++ [o]) s =
    ((runs f ops s).1 ++ [(f o (runs f ops s).2).1], (f o (runs f ops s).2).2).
Proof.
  unfold runs. rewrite foldl_app. cbn. destruct (foldl _ _ ops) as [es s']. cbn.
  by destruct (f o s').
Qed.

Lemma runs_rep a b ops :
  rep a b → Forall op_ok ops →
  (runs exec ops b).1 = (runs (aexec (maxRecords b) (maxBytes b)) ops a).1 ∧
  rep (runs (aexec (maxRecords b) (maxBytes b)) ops a).2 (runs exec ops b).2 ∧
  maxRecords (runs exec ops b).2 = maxRecords b ∧ maxBytes (runs exec ops b).2 = maxBytes b.
Proof.
  intros R. induction ops as [|o ops IH] using rev_ind; intros Hok; [done|].
  rewrite Forall_app, Forall_singleton in Hok. destruct Hok as [Hops Ho].
  destruct (IH Hops) as (I1 & I2 & I3 & I4). rewrite !runs_snoc. cbn [fst snd].
  destruct (exec_rep _ _ o I2 Ho) as (E1 & E2 & E3 & E4). rewrite I3, I4 in *.
  rewrite E3, E4, I1, E1. by split_and!.
Qed.

(** The caps hold of the abstract queue and stay so. *)
Definition within (maxR maxB : Z) (q : list payload) : Prop :=
  len q ≤ maxR ∧ (0 < maxB → frames_bytes q ≤ maxB).

Lemma within_skipn maxR maxB n q : within maxR maxB q → within maxR maxB (skipn n q).
Proof.
  intros [H1 H2]. pose proof (frames_bytes_skipn n q). split; [|intros; lia].
  unfold len in *. rewrite length_skipn. lia.
Qed.

Lemma aEnqueue_within maxR maxB p a :
  within maxR maxB (a_q a) → within maxR maxB (a_q (aEnqueue maxR maxB p a).2).
Proof.
  intros W. unfold aEnqueue. destruct (full maxR maxB p (a_q a)) eqn:F; cbn; [done|].
  unfold full in F. zbool. destruct W as [W1 W2]. split.
  - rewrite len_app. unfold len at 2. cbn. lia.
  - intros Hb. rewrite frames_bytes_app, frames_bytes_cons.
    match goal with H : _ ∨ _ |- _ => destruct H; zbool end; [lia|]. cbn. lia.
Qed.

Lemma aEnqueues_within maxR maxB ps a :
  within maxR maxB (a_q a) → within maxR maxB (a_q (aEnqueues maxR maxB ps a)).
Proof.
  revert a. induction ps as [|p ps IH]; intros a W; [done|].
  apply IH. by apply aEnqueue_within.
Qed.

Lemma aexec_within maxR maxB o a :
  within maxR maxB (a_q a) → within maxR maxB (a_q (aexec maxR maxB o a).2).
Proof.
  intros W. destruct o as [p|answers concurrent|n|]; cbn [aexec].
  - by apply aEnqueue_within.
  - unfold aDrain. destruct (sendLoop _ _). cbn. apply within_skipn. by apply aEnqueues_within.
  - cbn. by apply within_skipn.
  - unfold aQuarantine. destruct (a_q a) as [|p q] eqn:E; cbn; [by rewrite E|].
    by apply (within_skipn maxR maxB 1) in W.
Qed.

Lemma runs_within maxR maxB ops a :
  within maxR maxB (a_q a) → within maxR maxB (a_q (runs (aexec maxR maxB) ops a).2).
Proof.
  intros W. induction ops as [|o ops IH] using rev_ind; [done|].
  rewrite runs_snoc. by apply aexec_within.
Qed.

(** ** PeekBatch *)

(** The batch the caps allow of queue [q], [n] frames and [total] bytes taken. *)
Fixpoint batch (maxR maxB n total : Z) (q : list payload) : list payload :=
  match q with
  | [] => []
  | p :: q =>
      if negb ((maxR <=? 0) || (n <? maxR)) then [] else
      if (0 <? maxB) && (0 <? n) && (maxB <? total + (4 + len p)) then []
      else p :: batch maxR maxB (n + 1) (total + (4 + len p)) q
  end.

Lemma peekLoop_encoded q maxR maxB n total fuel :
  Forall frame_ok q → (length q < fuel)%nat →
  peekLoop fuel maxR maxB n total (q ≫= frame) = batch maxR maxB n total q.
Proof.
  intros Hq. revert n total fuel.
  induction Hq as [|p q Hp Hq IH]; intros n total [|fuel] Hf; cbn in Hf; try lia;
    cbn [peekLoop batch].
  { by destruct (negb _). }
  rewrite bind_cons, readFrame_frame by done. destruct (negb _); [done|].
  unfold frameOverhead. destruct (_ && _); [done|]. by rewrite IH by lia.
Qed.

Lemma PeekBatch_rep a b maxR maxB :
  rep a b →
  PeekBatch RdOk maxR maxB b =
    inr (if (maxR <=? 0) && (maxB <=? 0) then a_q a else batch maxR maxB 0 0 (a_q a)).
Proof.
  intros R. unfold PeekBatch. destruct (_ && _); [by apply readAll_rep|].
  destruct R as [R1 _ R3 _ _ _ _]. destruct (log b) as [l|]; cbn in R1.
  - rewrite R1, peekLoop_encoded; [done | done |]. pose proof (length_frames (a_q a)). lia.
  - destruct (a_q a) as [|p q]; [done|]. rewrite bind_cons in R1. by apply (f_equal length) in R1.
Qed.

(** A batch is a prefix within the caps (a first frame is always let through), and
    the next frame would break them. *)
Lemma batch_spec maxR maxB n total q :
  0 ≤ n →
  let bt := batch maxR maxB n total q in
  ∃ rest, q = bt ++ rest ∧
    (0 < maxR → n ≤ maxR → n + len bt ≤ maxR) ∧
    (0 < maxB → bt = [] ∨ total + frames_bytes bt ≤ maxB ∨ (n = 0 ∧ len bt = 1)) ∧
    match rest with
    | [] => True
    | p :: _ => (0 < maxR ∧ maxR ≤ n + len bt) ∨
        (0 < maxB ∧ 0 < n + len bt ∧ maxB < total + frames_bytes bt + (4 + len p))
    end.
Proof.
  revert n total. induction q as [|p q IH]; intros n total Hn; cbn [batch].
  { exists []. split_and!; try done; [|by left]. intros. unfold len; cbn. lia. }
  destruct (negb _) eqn:E1; zbool.
  { exists (p :: q). split_and!; try done; [|by left|]; unfold len; cbn; lia. }
  destruct (_ && _) eqn:E2; zbool.
  { exists (p :: q). split_and!; try done; [|by left|].
    - unfold len; cbn; lia.
    - right. unfold len at 1. cbn. lia. }
  destruct (IH (n + 1) (total + (4 + len p)) ltac:(lia)) as (rest & Eq & H1 & H2 & H3).
  set (bt := batch maxR maxB (n + 1) (total + (4 + len p)) q) in *.
  exists rest. cbn [app]. rewrite len_cons, frames_bytes_cons.
  split_and!; [by rewrite <- Eq| | |].
  - intros Hm Hnm. specialize (H1 Hm). destruct E1; zbool; lia.
  - intros Hm. right. destruct (H2 Hm) as [H0|[H0|[H0 _]]]; [|lia|lia]. rewrite H0.
    change (frames_bytes []) with 0. change (len []) with 0.
    repeat match goal with H : _ ∨ _ |- _ => destruct H; zbool end; lia.
  - destruct rest; [done|]. lia.
Qed.

(** ** The drain cycle *)

Lemma frameRequestsPrefix_spec convert fs :
  let '(rs, bad) := frameRequestsPrefix convert fs in
  ∃ rest, fs = rs ++ rest ∧ Forall (λ p, convert p = Converted) rs ∧
    match bad with
    | None => rest = []
    | Some x => x ≠ Converted ∧ ∃ p rest', rest = p :: rest' ∧ convert p = x
    end.
Proof.
  induction fs as [|p fs IH]; cbn [frameRequestsPrefix]; [by exists []|].
  destruct (convert p) eqn:E.
  - destruct (frameRequestsPrefix convert fs) as [rs bad]. destruct IH as (rest & -> & H1 & H2).
    exists rest. split_and!; [done | by constructor | done].
  - exists (p :: fs). split_and!; [done | constructor | done | eauto].
  - exists (p :: fs). split_and!; [done | constructor | done | eauto].
Qed.

(** What is peeked is a prefix of the queue, empty only when the queue is. *)
Lemma peeked_prefix a b maxR maxB :
  rep a b →
  ∃ fs rest, PeekBatch RdOk maxR maxB b = inr fs ∧ a_q a = fs ++ rest ∧ (fs = [] → a_q a = []).
Proof.
  intros R. rewrite (PeekBatch_rep a b maxR maxB R). destruct (_ && _).
  { exists (a_q a), []. by rewrite app_nil_r. }
  destruct (batch_spec maxR maxB 0 0 (a_q a) ltac:(lia)) as (rest & Eq & _ & _ & H3).
  exists (batch maxR maxB 0 0 (a_q a)), rest. split_and!; try done. intros Hn. rewrite Hn in *.
  destruct rest as [|p rest]; [done|]. cbv zeta in H3. unfold len in H3. cbn in H3. lia.
Qed.

(** ** Properties *)

Definition empty_queue : queue := mkQueue [] [] 0.

Lemma Open_rep maxR maxB q quar0 tail qs :
  Forall frame_ok q → Forall frame_ok qs → readFrame tail = None →
  default [] quar0 = qs ≫= frame →
  ∃ b, OpenBufferWithBytes RdOk RwOk maxR maxB (Some ((q ≫= frame) ++ tail)) quar0 = inr b ∧
    rep (mkQueue q qs 0) b ∧ log b = Some (q ≫= frame).
Proof.
  intros Hq Hqs Ht Hquar. unfold OpenBufferWithBytes, readAll.
  cbn [log]. rewrite readLog_encoded by done. cbn. eexists. split; [done|].
  split; [constructor; cbn; done | done].
Qed.

(** C18. Refinement: from a fresh buffer and with files whose reads and writes succeed, any
    sequence of Enqueue, Drain (with enqueues running during its send phase), Remove of a
    count that is not negative and QuarantineHead, with payloads of at most 8 MiB, returns the same errors as a plain bounded FIFO queue, the
    disk holds exactly the queue's frames and the sidecar exactly the quarantined
    ones, the counters are exact, and neither cap is ever exceeded.  Enqueue accepts larger
    payloads and goes on after a failed write, and then this fails
    (oversize_frame_hides_tail, failed_append_swallows_next). *)
Theorem buffer_refines (maxR maxB : Z) (ops : list op) :
  Forall op_ok ops →
  ∃ b, OpenBufferWithBytes RdOk RwOk maxR maxB None None = inr b ∧
    let b' := (runs exec ops b).2 in
    let a' := (runs (aexec (maxRecords b) (maxBytes b)) ops empty_queue).2 in
    (runs exec ops b).1 = (runs (aexec (maxRecords b) (maxBytes b)) ops empty_queue).1 ∧
    rep a' b' ∧ readAll RdOk b' = inr (a_q a') ∧
    Len b' ≤ maxRecords b ∧ (0 < maxBytes b → Bytes b' ≤ maxBytes b).
Proof.
  intros Hok. set (b := mk (if maxR <=? 0 then 10000 else maxR)
    (if maxB =? 0 then defaultMaxBytes else if maxB <? 0 then 0 else maxB) 0 0 0 0 (Some []) None).
  exists b. split; [done|]. cbv zeta.
  assert (R : rep empty_queue b) by (constructor; done).
  destruct (runs_rep empty_queue b ops R Hok) as (E & R' & _ & _).
  split; [exact E|]. split; [exact R'|]. split; [by apply readAll_rep|].
  destruct (runs_within (maxRecords b) (maxBytes b) ops empty_queue) as [W1 W2].
  { split; [|intros Hb; change (0 ≤ maxBytes b); lia].
    change (0 ≤ (if maxR <=? 0 then 10000 else maxR)). destruct (maxR <=? 0) eqn:E1; zbool; lia. }
  unfold Len, Bytes. rewrite (rep_count _ _ R'), (rep_bytes _ _ R'). done.
Qed.

Definition demo_ops : list op :=
  [OEnqueue (bytes [1;2]); OEnqueue (bytes [3]); OEnqueue (bytes [4]);
   ODrain [None; Some (ESend "down")] [bytes [5]]; OQuarantine; ORemove 1].

Lemma buffer_refines_witness :
  ∃ b, OpenBufferWithBytes RdOk RwOk 3 0 None None = inr b ∧
    let b' := (runs exec demo_ops b).2 in
    let a' := (runs (aexec (maxRecords b) (maxBytes b)) demo_ops empty_queue).2 in
    (runs exec demo_ops b).1 = (runs (aexec (maxRecords b) (maxBytes b)) demo_ops empty_queue).1 ∧
    rep a' b' ∧ readAll RdOk b' = inr (a_q a') ∧
    Len b' ≤ maxRecords b ∧ (0 < maxBytes b → Bytes b' ≤ maxBytes b).
Proof.
  apply (buffer_refines 3 0 demo_ops).
  repeat (apply List.Forall_cons || apply List.Forall_nil);
    try (vm_compute; discriminate); try (cbn; lia); try done.
Defined.

(** Drain is FIFO and loses nothing: what it sent is a prefix of the queue, and
    that prefix followed by what remains is the old queue followed by the enqueues
    accepted meanwhile; it stops at the first send error, which it returns. *)
Theorem drain_fifo (a : queue) (b : t) (answers : list (option err)) (concurrent : list payload) :
  rep a b → Forall frame_ok concurrent →
  ∃ sent e b' a' accepted,
    Drain RdOk RdOk RwOk answers concurrent b = (Z.of_nat sent, e, b') ∧ rep a' b' ∧
    accepted `sublist_of` concurrent ∧
    firstn sent (a_q a) ++ a_q a' = a_q a ++ accepted ∧
    Forall (λ x, x = None) (firstn sent answers) ∧
    (e = None → sent = length (a_q a)) ∧
    (∀ x, e = Some x → (sent < length (a_q a))%nat ∧
       (answers !! sent = Some (Some x) ∨ (answers !! sent = None ∧ x = ECanceled))).
Proof.
  intros R Hc. destruct (Drain_rep a b answers concurrent R Hc) as [E R'].
  destruct (Enqueues_rep a b concurrent R Hc) as (R1 & _).
  destruct (aEnqueues_extends (maxRecords b) (maxBytes b) concurrent a) as (more & Em & Hs & _).
  unfold Drain, drainEnd, aDrain in *. rewrite (readAll_rep a b R) in *.
  pose proof (sendLoop_le (a_q a) answers) as Hle.
  pose proof (sendLoop_spec (a_q a) answers) as Hsl.
  destruct (sendLoop (a_q a) answers) as [sent e]. cbn [fst snd] in *.
  rewrite (readAll_rep _ _ R1) in *. cbn [rewriteLocked fst snd] in *.
  assert (Hmin : Nat.min sent (length (a_q (aEnqueues (maxRecords b) (maxBytes b) concurrent a))) = sent)
    by (rewrite Em, length_app; lia).
  eexists sent, e, _, _, more. split_and!.
  - by rewrite Hmin.
  - rewrite Hmin in R'. exact R'.
  - exact Hs.
  - cbn. rewrite Nat2Z.id, Em. rewrite skipn_app.
    replace (sent - length (a_q a))%nat with 0%nat by lia. rewrite drop_0, app_assoc.
    by rewrite firstn_skipn.
  - apply Hsl.
  - apply Hsl.
  - apply Hsl.
Qed.

Definition demo_queue : queue := mkQueue [bytes [1;2]; bytes [3]] [] 0.

Definition demo_buffer : t :=
  mk 3 0 2 11 0 0 (Some (bytes [0;0;0;2;1;2;0;0;0;1;3])) None.

Lemma demo_rep : rep demo_queue demo_buffer.
Proof.
  constructor; try reflexivity; [|constructor].
  repeat (apply List.Forall_cons || apply List.Forall_nil); vm_compute; discriminate.
Qed.

Lemma drain_fifo_witness :
  ∃ sent e b' a' accepted,
    Drain RdOk RdOk RwOk [None; Some (ESend "down")] [bytes [5]] demo_buffer
      = (Z.of_nat sent, e, b') ∧ rep a' b' ∧
    accepted `sublist_of` [bytes [5]] ∧
    firstn sent (a_q demo_queue) ++ a_q a' = a_q demo_queue ++ accepted ∧
    Forall (λ x, x = None) (firstn sent [None; Some (ESend "down")]) ∧
    (e = None → sent = length (a_q demo_queue)) ∧
    (∀ x, e = Some x → (sent < length (a_q demo_queue))%nat ∧
       ([None; Some (ESend "down")] !! sent = Some (Some x) ∨
        ([None; Some (ESend "down")] !! sent = None ∧ x = ECanceled))).
Proof.
  apply (drain_fifo demo_queue demo_buffer); [apply demo_rep|].
  apply List.Forall_cons; [vm_compute; discriminate | apply List.Forall_nil].
Defined.

(** Crash recovery: whatever part of a last append reached the disk before a
    crash, reopening finds exactly the frames appended before it, rewrites the log to
    just those and restores the counters. *)
Theorem open_recovers_torn_tail (maxR maxB : Z) (q qs : list payload) (p : payload) (k : nat)
    (quar0 : option (list byte)) :
  Forall frame_ok q → Forall frame_ok qs → default [] quar0 = qs ≫= frame →
  len p < 2 ^ 32 → (k < length (frame p))%nat →
  ∃ b, OpenBufferWithBytes RdOk RwOk maxR maxB (Some ((q ≫= frame) ++ firstn k (frame p))) quar0
      = inr b ∧ rep (mkQueue q qs 0) b ∧ log b = Some (q ≫= frame).
Proof. intros Hq Hqs Hquar Hp Hk. apply Open_rep; try done. by apply readFrame_torn. Qed.

Lemma open_recovers_torn_tail_witness :
  ∃ b, OpenBufferWithBytes RdOk RwOk 0 0
      (Some (([bytes [1;2]] ≫= frame) ++ firstn 5 (frame (bytes [7;8;9])))) None
      = inr b ∧ rep (mkQueue [bytes [1;2]] [] 0) b ∧ log b = Some ([bytes [1;2]] ≫= frame).
Proof.
  apply (open_recovers_torn_tail 0 0 [bytes [1;2]] [] (bytes [7;8;9]) 5 None).
  - apply List.Forall_cons; [vm_compute; discriminate | apply List.Forall_nil].
  - apply List.Forall_nil.
  - reflexivity.
  - vm_compute; reflexivity.
  - vm_compute; lia.
Defined.

(** PeekBatch returns a prefix of the queue within the record cap and within the
    byte cap unless it is a single frame, is never empty on a non-empty queue, and
    stops only where the next frame would break a cap. *)
Theorem PeekBatch_batches (a : queue) (b : t) (maxR maxB : Z) :
  rep a b →
  ∃ bt rest, PeekBatch RdOk maxR maxB b = inr bt ∧ a_q a = bt ++ rest ∧
    (0 < maxR → len bt ≤ maxR) ∧
    (0 < maxB → frames_bytes bt ≤ maxB ∨ len bt = 1) ∧
    (a_q a ≠ [] → bt ≠ []) ∧
    match rest with
    | [] => True
    | p :: _ => (0 < maxR ∧ len bt = maxR) ∨ (0 < maxB ∧ maxB < frames_bytes (bt ++ [p]))
    end.
Proof.
  intros R. rewrite (PeekBatch_rep a b maxR maxB R).
  destruct ((maxR <=? 0) && (maxB <=? 0)) eqn:E; zbool.
  { exists (a_q a), []. rewrite app_nil_r. split_and!; try done; lia. }
  destruct (batch_spec maxR maxB 0 0 (a_q a) ltac:(lia)) as (rest & Eq & H1 & H2 & H3).
  set (bt := batch maxR maxB 0 0 (a_q a)) in *. cbv zeta in H1, H2, H3.
  exists bt, rest. split; [done|]. split; [done|]. split; [lia|]. split; [|split].
  - intros Hm. destruct (H2 Hm) as [-> | [?|[_ ?]]]; [left; cbn; lia | left; lia | by right].
  - intros Hne Hbt. rewrite Hbt in *. destruct rest as [|p rest]; [done|].
    unfold len in H3; cbn in H3. lia.
  - destruct rest as [|p rest]; [done|]. rewrite frames_bytes_app, frames_bytes_cons.
    change (frames_bytes []) with 0. lia.
Qed.

Lemma PeekBatch_batches_witness :
  ∃ bt rest, PeekBatch RdOk 1 0 demo_buffer = inr bt ∧ a_q demo_queue = bt ++ rest ∧
    (0 < 1 → len bt ≤ 1) ∧ (0 < 0 → frames_bytes bt ≤ 0 ∨ len bt = 1) ∧
    (a_q demo_queue ≠ [] → bt ≠ []) ∧
    match rest with
    | [] => True
    | p :: _ => (0 < 1 ∧ len bt = 1) ∨ (0 < 0 ∧ 0 < frames_bytes (bt ++ [p]))
    end.
Proof. apply (PeekBatch_batches demo_queue demo_buffer 1 0), demo_rep. Defined.

(** What a drain cycle may do to the queue [a]: end with the queue of [b'] after
    removing acknowledged converted frames or one quarantined head, and accepting some
    of the concurrent enqueues. *)
Definition drained (convert : payload → convert_res) (s : stream) (concurrent : list payload)
    (a : queue) (b' : t) : Prop :=
  ∃ a' removed accepted, rep a' b' ∧ accepted `sublist_of` concurrent ∧
    removed ++ a_q a' = a_q a ++ accepted ∧
    ((a_quar a' = a_quar a ∧ Forall (λ p, convert p = Converted) removed ∧
      (removed ≠ [] → ∃ n, s = Ack n ∧ len removed ≤ n)) ∨
     (∃ head, removed = [head] ∧ convert head = Undecodable ∧ a_quar a' = a_quar a ++ [head])) ∧
    (∀ head q, a_q a = head :: q → convert head = Undecodable → removed = [head]).

Section drain_cycle.
Context (convert : payload → convert_res) (concurrent : list payload).
Context (a a1 : queue) (b1 : t) (more : list payload).
Context (R1 : rep a1 b1) (Em : a_q a1 = a_q a ++ more) (Hs : more `sublist_of` concurrent)
  (Hq : a_quar a1 = a_quar a).

Lemma drained_nothing s :
  (∀ head q, a_q a = head :: q → convert head ≠ Undecodable) → drained convert s concurrent a b1.
Proof.
  intros Hh. exists a1, [], more. split_and!; try done; [by left|].
  intros head q E1 E2. by destruct (Hh head q E1).
Qed.

Lemma drained_quarantine s p q :
  a_q a = p :: q → convert p = Undecodable →
  drained convert s concurrent a (QuarantineHead RdOk WOk RwOk b1).2.
Proof.
  intros Hf Hx. destruct (Quarantine_rep a1 b1 R1) as [_ R2].
  unfold aQuarantine in R2. rewrite Em, Hf in R2. cbn [app] in R2.
  eexists _, [p], more. split; [exact R2|]. split; [done|]. cbn [a_q a_quar]. rewrite Hf, Hq.
  split; [done|]. split; [right; by exists p|]. by intros ? ? [= <- _].
Qed.

Lemma drained_acked n rs rest :
  a_q a = rs ++ rest → rs ≠ [] → Forall (λ p, convert p = Converted) rs → 0 ≤ n →
  drained convert (Ack n) concurrent a
    (Remove RdOk RwOk (if len rs <? n then len rs else n) b1).2.
Proof.
  intros Hf Hne Hconv Hn. set (acked := if len rs <? n then len rs else n).
  pose proof (len_nonneg rs) as Hnn.
  assert (Hak : 0 ≤ acked ≤ len rs ∧ acked ≤ n) by (unfold acked; destruct (_ <? _) eqn:?; zbool; lia).
  destruct (Remove_rep a1 b1 acked R1) as [_ R2]; [lia|].
  exists (aRemove acked a1), (firstn (Z.to_nat acked) rs), more.
  split; [exact R2|]. split; [done|]. split.
  { unfold aRemove. cbn [a_q]. rewrite Em, Hf, <- !app_assoc.
    rewrite skipn_app. replace (Z.to_nat acked - length rs)%nat with 0%nat by (unfold len in *; lia).
    rewrite drop_0, app_assoc, firstn_skipn. done. }
  split.
  - left. split; [done|]. split; [by apply Forall_take|]. intros _. exists n. split; [done|].
    unfold len. rewrite length_firstn. lia.
  - intros head q E1 E2. rewrite Hf in E1. destruct rs as [|p rs]; [done|]. injection E1 as <- _.
    inversion Hconv; subst. congruence.
Qed.
End drain_cycle.

(** C17. One drain cycle, with any chunk caps, stream outcome and concurrent enqueues, when the
    reads and writes of the files succeed, every frame is at most 8 MiB and an acknowledged
    count is below 2^63 (each is needed: read_error_truncates, oversize_frame_hides_tail,
    hostile_ack_panics):
    nothing is lost or reordered - what was removed followed by what remains is the
    old queue followed by the accepted enqueues; frames are removed only when the
    control plane acknowledged them, at most as many as it acknowledged and only
    decodable ones, or as a single undecodable head moved verbatim to the sidecar;
    and an undecodable head is always moved, so it cannot wedge the queue. *)
Theorem drainOnce_at_least_once (convert : payload → convert_res) (maxR maxB : Z) (s : stream)
    (concurrent : list payload) (a : queue) (b : t) :
  rep a b → Forall frame_ok concurrent → (∀ n, s = Ack n → 0 ≤ n < 2 ^ 63) →
  let b' := (drainOnce convert RdOk RdOk WOk RwOk maxR maxB s concurrent b).2 in
  ∃ a' removed accepted, rep a' b' ∧ accepted `sublist_of` concurrent ∧
    removed ++ a_q a' = a_q a ++ accepted ∧
    ((a_quar a' = a_quar a ∧ Forall (λ p, convert p = Converted) removed ∧
      (removed ≠ [] → ∃ n, s = Ack n ∧ len removed ≤ n)) ∨
     (∃ head, removed = [head] ∧ convert head = Undecodable ∧ a_quar a' = a_quar a ++ [head])) ∧
    (∀ head q, a_q a = head :: q → convert head = Undecodable → removed = [head]).
Proof.
  intros R Hc Hack. change (drained convert s concurrent a
    (drainOnce convert RdOk RdOk WOk RwOk maxR maxB s concurrent b).2). unfold drainOnce.
  destruct (peeked_prefix a b maxR maxB R) as (fs & rest & -> & Hfs & Hempty).
  destruct (Enqueues_rep a b concurrent R Hc) as (R1 & _ & _). cbv zeta.
  destruct (aEnqueues_extends (maxRecords b) (maxBytes b) concurrent a) as (more & Em & Hs & Hq).
  set (b1 := foldl _ b concurrent) in *.
  pose proof (drained_nothing convert concurrent a _ b1 more R1 Em Hs Hq s) as Hnone.
  destruct (len fs =? 0) eqn:E0; zbool.
  { apply Hnone. intros head q E1. rewrite Hempty in E1; [done|].
    destruct fs; [done|]. rewrite len_cons in E0. pose proof (len_nonneg fs). lia. }
  pose proof (frameRequestsPrefix_spec convert fs) as Hfr.
  destruct (frameRequestsPrefix convert fs) as [rs bad]. destruct Hfr as (rest' & Hrs & Hconv & Hbad).
  rewrite Hrs, <- app_assoc in Hfs. destruct rs as [|p rs].
  - destruct bad as [x|]; [|subst; done]. destruct Hbad as (_ & p & rest2 & -> & Hx). cbn [app] in Hfs.
    destruct x; [by apply Hnone; intros ? ? E; rewrite Hfs in E; injection E as <- _; congruence..|].
    pose proof (drained_quarantine convert concurrent a _ b1 more R1 Em Hs Hq s _ _ Hfs Hx) as D.
    by destruct (QuarantineHead RdOk WOk RwOk b1) as [[n e] b2].
  - destruct s as [e|n].
    + apply Hnone. intros head q E. rewrite Hfs in E. injection E as <- _.
      inversion Hconv; subst. congruence.
    + specialize (Hack n eq_refl). rewrite i64_small by lia.
      by apply (drained_acked convert concurrent a _ b1 more R1 Em Hs Hq n (p :: rs) (rest' ++ rest));
        [..|lia].
Qed.

Lemma drainOnce_at_least_once_witness :
  let b' := (drainOnce (λ _, Undecodable) RdOk RdOk WOk RwOk 10 0 (Ack 1) [bytes [5]] demo_buffer).2 in
  ∃ a' removed accepted, rep a' b' ∧ accepted `sublist_of` [bytes [5]] ∧
    removed ++ a_q a' = a_q demo_queue ++ accepted ∧
    ((a_quar a' = a_quar demo_queue ∧ Forall (λ p, Undecodable = Converted) removed ∧
      (removed ≠ [] → ∃ n, Ack 1 = Ack n ∧ len removed ≤ n)) ∨
     (∃ head, removed = [head] ∧ Undecodable = Undecodable ∧
        a_quar a' = a_quar demo_queue ++ [head])) ∧
    (∀ head q, a_q demo_queue = head :: q → Undecodable = Undecodable → removed = [head]).
Proof.
  apply (drainOnce_at_least_once (λ _, Undecodable) 10 0 (Ack 1) [bytes [5]] demo_queue demo_buffer).
  - apply demo_rep.
  - apply List.Forall_cons; [vm_compute; discriminate | apply List.Forall_nil].
  - intros n [= <-]. lia.
Defined.

(** The acknowledged count is a uint64 converted to int: an acknowledgement of
    2^63 or more becomes negative, passes the upper clamp, and makes Remove slice out
    of range, so the agent panics whenever it had a decodable batch to send. *)
Theorem hostile_ack_panics (convert : payload → convert_res) (maxR maxB n : Z) (a : queue) (b : t)
    (p : payload) (q : list payload) :
  rep a b → a_q a = p :: q → convert p = Converted → 2 ^ 63 ≤ n < 2 ^ 64 →
  (drainOnce convert RdOk RdOk WOk RwOk maxR maxB (Ack n) [] b).1 = Some Panic.
Proof.
  intros R Hq Hp Hn. unfold drainOnce.
  destruct (peeked_prefix a b maxR maxB R) as (fs & rest & -> & Hfs & Hempty). cbn [foldl].
  destruct fs as [|p' fs]; [rewrite Hempty in Hq; done|].
  rewrite Hq in Hfs. injection Hfs as <- _.
  rewrite len_cons, (proj2 (Z.eqb_neq _ 0)) by (pose proof (len_nonneg fs); lia).
  cbn [frameRequestsPrefix]. rewrite Hp. destruct (frameRequestsPrefix convert fs) as [rs bad].
  assert (Hi : i64 n = n - 2 ^ 64).
  { unfold i64. replace (n + 2 ^ 63) with ((n - 2 ^ 63) + 1 * 2 ^ 64) by lia.
    rewrite Z.mod_add, Z.mod_small by lia. lia. }
  rewrite Hi, (proj2 (Z.ltb_ge _ (n - 2 ^ 64))) by (pose proof (len_nonneg (p :: rs)); lia).
  unfold Remove. rewrite (readAll_rep a b R).
  rewrite (proj2 (Z.ltb_ge _ (n - 2 ^ 64))) by (pose proof (len_nonneg (a_q a)); lia).
  by rewrite (proj2 (Z.ltb_lt _ 0)) by lia.
Qed.

Lemma hostile_ack_panics_witness :
  (drainOnce (λ _, Converted) RdOk RdOk WOk RwOk 10 0 (Ack (2 ^ 64 - 1)) [] demo_buffer).1
    = Some Panic.
Proof.
  apply (hostile_ack_panics (λ _, Converted) 10 0 (2 ^ 64 - 1) demo_queue demo_buffer
    (bytes [1;2]) [bytes [3]] demo_rep); [reflexivity | reflexivity | lia].
Defined.

(** Enqueue does not check the frame cap readers enforce: a payload over 8 MiB is
    accepted and counted, but neither it nor anything appended after it can be read
    again, and the next rewrite drops them all without an error. *)
Theorem oversize_frame_hides_tail (a : queue) (b : t) (p : payload) (rest : list byte) :
  rep a b → maxFrameLen < len p → len p < 2 ^ 32 →
  full (maxRecords b) (maxBytes b) p (a_q a) = false →
  let b1 := (Enqueue WOk p b).2 in
  let b2 := b1 <| log := Some (default [] (log b1) ++ rest) |> in
  (Enqueue WOk p b).1 = None ∧ Len b1 = len (a_q a) + 1 ∧
  readAll RdOk b2 = inr (a_q a) ∧
  (Remove RdOk RwOk 0 b2).1 = None ∧ log (Remove RdOk RwOk 0 b2).2 = Some (a_q a ≫= frame).
Proof.
  intros R Hp H32 Hfull. pose proof R as [R1 R2 R3 R4 R5 R6 R7].
  assert (E : Enqueue WOk p b = (None, b <| log := Some (default [] (log b) ++ frame p) |>
    <| count := count b + 1 |> <| bytes_ := bytes_ b + (4 + len p) |>)).
  { by apply Enqueue_room with (a := a). }
  rewrite E. cbv zeta. cbn [fst snd]. set (b1 := b <| log := _ |> <| count := _ |> <| bytes_ := _ |>).
  set (b2 := b1 <| log := _ |>).
  assert (Hread : readAll RdOk b2 = inr (a_q a)).
  { change (readAll RdOk b2) with (@inr err (list payload) (readFrames
      (S (length ((default [] (log b) ++ frame p) ++ rest))) ((default [] (log b) ++ frame p) ++ rest))).
    rewrite R1, <- app_assoc. f_equal. apply readLog_encoded; [done|]. by apply readFrame_oversize. }
  split; [done|]. split; [change (count b + 1 = len (a_q a) + 1); lia|]. split; [exact Hread|].
  unfold Remove. rewrite Hread.
  rewrite (proj2 (Z.ltb_ge (len (a_q a)) 0)) by (pose proof (len_nonneg (a_q a)); lia).
  by rewrite drop_0.
Qed.

Definition big_payload : payload := replicate (Z.to_nat (maxFrameLen + 1)) x00.

Lemma len_big_payload : len big_payload = maxFrameLen + 1.
Proof. unfold big_payload, len. rewrite length_replicate. unfold maxFrameLen. lia. Qed.

Lemma oversize_frame_hides_tail_witness :
  let b1 := (Enqueue WOk big_payload demo_buffer).2 in
  let b2 := b1 <| log := Some (default [] (log b1) ++ frame (bytes [7])) |> in
  (Enqueue WOk big_payload demo_buffer).1 = None ∧ Len b1 = len (a_q demo_queue) + 1 ∧
  readAll RdOk b2 = inr (a_q demo_queue) ∧
  (Remove RdOk RwOk 0 b2).1 = None ∧
  log (Remove RdOk RwOk 0 b2).2 = Some (a_q demo_queue ≫= frame).
Proof.
  apply (oversize_frame_hides_tail demo_queue demo_buffer big_payload (frame (bytes [7]))).
  - apply demo_rep.
  - rewrite len_big_payload. lia.
  - rewrite len_big_payload. unfold maxFrameLen. lia.
  - reflexivity.
Defined.

(** Any read error, not only a torn tail, ends the log that is read: if reading
    buffer.log fails from some frame on, Remove (and likewise a Drain or a reopen)
    succeeds and rewrites the log without the unread frames. *)
Theorem read_error_truncates (a : queue) (b : t) (q1 q2 : list payload) :
  rep a b → a_q a = q1 ++ q2 → log b ≠ None →
  (Remove (RdStop (length (q1 ≫= frame))) RwOk 0 b).1 = None ∧
  rep (mkQueue q1 (a_quar a) (a_dropped a)) (Remove (RdStop (length (q1 ≫= frame))) RwOk 0 b).2.
Proof.
  intros [R1 R2 R3 R4 R5 R6 R7] Hq Hl. destruct (log b) as [l|] eqn:El; [|done]. cbn in R1.
  rewrite Hq in *. rewrite Forall_app in R3. destruct R3 as [R3 _]. rewrite bind_app in R1.
  assert (E : readAll (RdStop (length (q1 ≫= frame))) b = inr q1).
  { unfold readAll. rewrite El, R1, take_app_length.
    rewrite <- (app_nil_r (q1 ≫= frame)) at 2. f_equal. apply readFrames_encoded; [done | done |].
    pose proof (length_frames q1). rewrite length_app. lia. }
  unfold Remove. rewrite E.
  rewrite (proj2 (Z.ltb_ge (len q1) 0)) by (pose proof (len_nonneg q1); lia). cbn.
  split; [done|]. rewrite drop_0. by constructor.
Qed.

Lemma read_error_truncates_witness :
  (Remove (RdStop (length ([bytes [1;2]] ≫= frame))) RwOk 0 demo_buffer).1 = None ∧
  rep (mkQueue [bytes [1;2]] [] 0)
    (Remove (RdStop (length ([bytes [1;2]] ≫= frame))) RwOk 0 demo_buffer).2.
Proof.
  apply (read_error_truncates demo_queue demo_buffer [bytes [1;2]] [bytes [3]] demo_rep);
    [reflexivity | discriminate].
Defined.

(** A failed payload write (disk full, for instance) leaves its torn bytes in
    place and later appends go behind them: a following Enqueue that fits inside the
    torn frame's missing part reports success, yet its payload can never be read. *)
Theorem failed_append_swallows_next (a : queue) (b : t) (p1 p2 : payload) (k : nat) :
  rep a b → frame_ok p1 → 4 + len p2 < len p1 - Z.of_nat k →
  full (maxRecords b) (maxBytes b) p1 (a_q a) = false →
  full (maxRecords b) (maxBytes b) p2 (a_q a) = false →
  let b1 := (Enqueue (WPayload k) p1 b).2 in
  (Enqueue (WPayload k) p1 b).1 = Some EWritePayload ∧
  (Enqueue WOk p2 b1).1 = None ∧
  readAll RdOk (Enqueue WOk p2 b1).2 = inr (a_q a).
Proof.
  intros R Hok Hlen F1 F2. pose proof R as [R1 R2 R3 R4 R5 R6 R7].
  unfold frame_ok, maxFrameLen in Hok. pose proof (len_nonneg p2).
  set (torn := default [] (log b) ++ be_bytes 4 (u32 (len p1)) ++ firstn k p1).
  set (b0 := b <| log := Some torn |>).
  assert (E1 : Enqueue (WPayload k) p1 b = (Some EWritePayload, b0)).
  { unfold Enqueue, frameOverhead. by rewrite (room_false a b p1 R F1). }
  assert (E2 : Enqueue WOk p2 b0 = (None, b0 <| log := Some (torn ++ frame p2) |>
    <| count := count b + 1 |> <| bytes_ := bytes_ b + (4 + len p2) |>)).
  { assert (Hr : (maxRecords b0 <=? count b0) ||
      ((0 <? maxBytes b0) && (maxBytes b0 <? bytes_ b0 + (4 + len p2))) = false)
      by exact (room_false a b p2 R F2).
    unfold Enqueue, frameOverhead. by rewrite Hr. }
  rewrite E1. cbv zeta. cbn [snd fst]. rewrite E2. split; [done|]. split; [done|]. cbn [snd].
  match goal with |- readAll RdOk ?x = _ => change (readAll RdOk x) with
    (@inr err (list payload) (readFrames (S (length (torn ++ frame p2))) (torn ++ frame p2))) end.
  f_equal. unfold torn. rewrite R1, u32_small by lia. rewrite <- !app_assoc.
  apply readLog_encoded; [done|].
  rewrite readFrame_header by lia. destruct (_ <? len p1); [done|].
  rewrite (proj2 (Z.ltb_lt _ _)); [done|].
  rewrite len_app, len_frame. unfold len in *. rewrite length_firstn. lia.
Qed.

Lemma failed_append_swallows_next_witness :
  let b1 := (Enqueue (WPayload 1) (replicate 20 x07) demo_buffer).2 in
  (Enqueue (WPayload 1) (replicate 20 x07) demo_buffer).1 = Some EWritePayload ∧
  (Enqueue WOk (bytes [8]) b1).1 = None ∧
  readAll RdOk (Enqueue WOk (bytes [8]) b1).2 = inr (a_q demo_queue).
Proof.
  apply (failed_append_swallows_next demo_queue demo_buffer (replicate 20 x07) (bytes [8]) 1 demo_rep);
    vm_compute; (reflexivity || discriminate).
Defined.

End Buffer.
