(* ===== verification/Abac.v ===== *)
(** * internal/auth/abac.go, auth.go: the authorization decision

    Tenant boundary, then RBAC, then ABAC deny-override.  Go maps are finite maps; a
    missing key of a map[string]string reads as the empty string.  A nil *Principal
    is [None]. *)

From S2P Require Import Prelude.
#[local] Open Scope Z_scope.

Module Auth.

(** ** Data *)

Abbreviation attrs := (gmap string string).

(** PolicyEffect is a string: "allow", "deny", and "" for no decision. *)
Definition PolicyAllow : string := "allow".
Definition PolicyDeny : string := "deny".

Record Policy := mkPolicy {
  pol_Effect : string;
  pol_Permission : string;
  pol_Subject : attrs;
  pol_Resource : attrs;
  pol_Priority : Z;
  pol_Enabled : bool
}.

Definition ScopeTenant : string := "tenant".
Definition ScopeOrganization : string := "org".
Definition ScopeTeam : string := "team".
Definition ScopeProject : string := "project".

Record PermissionGrant := mkGrant {
  g_Permission : string; g_ScopeType : string; g_ScopeID : string }.

Record ResourceLineage := mkLineage {
  l_OrganizationID : string; l_TeamID : string; l_ProjectID : string }.

(** The fields of Principal the decision reads. *)
Record Principal := mkPrincipal {
  p_TenantID : string;
  p_Permissions : gmap string bool;
  p_PermissionGrants : list PermissionGrant;
  p_Attributes : attrs
}.

Definition streq (a b : string) : bool := bool_decide (a = b).

(** ** RBAC *)

Definition validPermissionGrant (g : PermissionGrant) : bool :=
  if streq (g_Permission g) "" then false
  else if streq (g_ScopeType g) ScopeTenant then streq (g_ScopeID g) ""
  else if streq (g_ScopeType g) ScopeOrganization || streq (g_ScopeType g) ScopeTeam ||
          streq (g_ScopeType g) ScopeProject
  then negb (streq (g_ScopeID g) "")
  else false.

Definition HasScopedGrants (p : option Principal) : bool :=
  match p with
  | None => false
  | Some p =>
      existsb (λ g, negb (streq (g_ScopeType g) ScopeTenant) && validPermissionGrant g)
        (p_PermissionGrants p)
  end.

Definition Has (p : option Principal) (key : string) : bool :=
  match p with
  | None => false
  | Some p =>
      if default false (p_Permissions p !! key) then true
      else existsb (λ g, streq (g_Permission g) key && validPermissionGrant g &&
                         streq (g_ScopeType g) ScopeTenant) (p_PermissionGrants p)
  end.

Definition HasAny (p : option Principal) (key : string) : bool :=
  match p with
  | None => false
  | Some q =>
      if Has p key then true
      else existsb (λ g, streq (g_Permission g) key && validPermissionGrant g)
             (p_PermissionGrants q)
  end.

Definition HasAt (p : option Principal) (key : string) (lineage : ResourceLineage) : bool :=
  match p with
  | None => false
  | Some q =>
      if Has p key then true
      else existsb (λ g,
        if negb (streq (g_Permission g) key) || negb (validPermissionGrant g) then false
        else if streq (g_ScopeType g) ScopeOrganization then
          negb (streq (l_OrganizationID lineage) "") && streq (g_ScopeID g) (l_OrganizationID lineage)
        else if streq (g_ScopeType g) ScopeTeam then
          negb (streq (l_TeamID lineage) "") && streq (g_ScopeID g) (l_TeamID lineage)
        else if streq (g_ScopeType g) ScopeProject then
          negb (streq (l_ProjectID lineage) "") && streq (g_ScopeID g) (l_ProjectID lineage)
        else false) (p_PermissionGrants q)
  end.

(** ** ABAC *)

(** [actual[k] != v] with Go's zero value for a missing key. *)
Definition attrsSubset (required actual : attrs) : bool :=
  forallb (λ kv, streq (default "" (actual !! kv.1)) kv.2) (map_to_list required).

Definition applies (permission : string) (subject resource : attrs) (p : Policy) : bool :=
  pol_Enabled p &&
  (streq (pol_Permission p) "*" || streq (pol_Permission p) permission) &&
  attrsSubset (pol_Subject p) subject && attrsSubset (pol_Resource p) resource.

Definition consider (permission : string) (subject resource : attrs) (st : string * Z) (p : Policy)
    : string * Z :=
  let '(decided, bestPriority) := st in
  if negb (pol_Enabled p) then st
  else if negb (streq (pol_Permission p) "*") && negb (streq (pol_Permission p) permission) then st
  else if negb (attrsSubset (pol_Subject p) subject) || negb (attrsSubset (pol_Resource p) resource)
  then st
  else if streq decided "" || (bestPriority <? pol_Priority p)
  then (pol_Effect p, pol_Priority p)
  else if (pol_Priority p =? bestPriority) && streq (pol_Effect p) PolicyDeny
  then (PolicyDeny, bestPriority)
  else st.

Definition Evaluate (policies : list Policy) (permission : string) (subject resource : attrs)
    : string :=
  (foldl (consider permission subject resource) ("", 0) policies).1.

(** ** The decision *)

Definition ResourceTenantKey : string := "tenant".

Inductive RBACCheck := RBACGlobal | RBACAnyScope | RBACPreverified.

Inductive DecisionReason :=
| DecisionAllowed | DecisionUnauthenticated | DecisionTenantBoundary | DecisionRBAC
| DecisionPolicyDeny.

#[export] Instance DecisionReason_eq_dec : EqDecision DecisionReason.
Proof. solve_decision. Defined.

Definition attrsOf (p : option Principal) : attrs :=
  match p with None => ∅ | Some p => p_Attributes p end.

Definition Decide (p : option Principal) (permission : string) (mode : RBACCheck)
    (policies : list Policy) (resource : attrs) : DecisionReason :=
  match p with
  | None => DecisionUnauthenticated
  | Some q =>
      if match resource !! ResourceTenantKey with
         | Some rt => negb (streq rt "") && negb (streq rt (p_TenantID q))
         | None => false
         end
      then DecisionTenantBoundary
      else
        let rbac := match mode with
                    | RBACGlobal => Has p permission
                    | RBACAnyScope => HasAny p permission
                    | RBACPreverified => true
                    end in
        if negb rbac then DecisionRBAC
        else if streq (Evaluate policies permission (attrsOf p) resource) PolicyDeny
        then DecisionPolicyDeny
        else DecisionAllowed
  end.

Definition Authorize (p : option Principal) (permission : string) (policies : list Policy)
    (resource : attrs) : bool :=
  bool_decide (Decide p permission RBACGlobal policies resource = DecisionAllowed).

(** ** Lemmas *)

Lemma streq_true a b : streq a b = true ↔ a = b.
Proof. apply bool_decide_eq_true. Qed.

Lemma streq_false a b : a ≠ b → streq a b = false.
Proof. apply bool_decide_eq_false. Qed.

(** Policies the stores accept: allow or deny. *)
Definition effect_ok (p : Policy) : Prop := pol_Effect p = PolicyAllow ∨ pol_Effect p = PolicyDeny.

(** The state after the policies [ps]: silent exactly when none applies; otherwise
    [bestPriority] is the highest priority that applies, and the decision is deny
    exactly when a deny of that priority applies. *)
Definition decided_ok (permission : string) (subject resource : attrs) (ps : list Policy)
    (st : string * Z) : Prop :=
  let app p := applies permission subject resource p = true in
  (st.1 = "" ∧ ∀ p, p ∈ ps → ¬ app p) ∨
  ((st.1 = PolicyAllow ∨ st.1 = PolicyDeny) ∧
   (∃ p, p ∈ ps ∧ app p ∧ pol_Priority p = st.2) ∧
   (∀ p, p ∈ ps → app p → pol_Priority p ≤ st.2) ∧
   (st.1 = PolicyDeny ↔ ∃ p, p ∈ ps ∧ app p ∧ pol_Priority p = st.2 ∧ pol_Effect p = PolicyDeny)).

(** [consider] skips what does not apply, and otherwise compares. *)
Lemma consider_spec permission subject resource st p :
  consider permission subject resource st p =
    if applies permission subject resource p then
      if streq st.1 "" || (st.2 <? pol_Priority p) then (pol_Effect p, pol_Priority p)
      else if (pol_Priority p =? st.2) && streq (pol_Effect p) PolicyDeny then (PolicyDeny, st.2)
      else st
    else st.
Proof.
  destruct st as [d b]. unfold consider, applies.
  destruct (pol_Enabled p), (streq (pol_Permission p) "*"), (streq (pol_Permission p) permission),
    (attrsSubset (pol_Subject p) subject), (attrsSubset (pol_Resource p) resource); done.
Qed.

Lemma elem_snoc {A} (x : A) l y : x ∈ l ++ [y] ↔ x ∈ l ∨ x = y.
Proof. rewrite elem_of_app, list_elem_of_singleton. done. Qed.

Lemma effect_nonempty p : effect_ok p → pol_Effect p ≠ "".
Proof. by intros [-> | ->]. Qed.

(** A policy that applies and is strictly above everything before it decides. *)
Lemma decided_top permission subject resource ps p :
  effect_ok p → applies permission subject resource p = true →
  (∀ q, q ∈ ps → applies permission subject resource q = true → pol_Priority q < pol_Priority p) →
  decided_ok permission subject resource (ps ++ [p]) (pol_Effect p, pol_Priority p).
Proof.
  intros Hp Ha Hlt. right. cbn. split; [exact Hp|]. split.
  { exists p. rewrite elem_snoc. auto. }
  split.
  { intros q Hq Hq2. rewrite elem_snoc in Hq. destruct Hq as [Hq| ->]; [|lia].
    specialize (Hlt q Hq Hq2). lia. }
  split.
  - intros E. exists p. rewrite elem_snoc. auto.
  - intros (q & Hq & Hq2 & Hq3 & Hq4). rewrite elem_snoc in Hq. destruct Hq as [Hq| ->]; [|done].
    specialize (Hlt q Hq Hq2). lia.
Qed.

Lemma consider_ok permission subject resource ps p st :
  effect_ok p → decided_ok permission subject resource ps st →
  decided_ok permission subject resource (ps ++ [p]) (consider permission subject resource st p).
Proof.
  intros Hp Hst. rewrite consider_spec. destruct st as [d best].
  destruct (applies permission subject resource p) eqn:Ha.
  2:{ destruct Hst as [[E Hn]|(He & (q & Hq & Hq2 & Hq3) & Hmax & Hd)].
      - left. split; [done|]. intros q Hq. rewrite elem_snoc in Hq.
        destruct Hq as [Hq| ->]; [by apply Hn | congruence].
      - right. cbn in *. split; [done|]. split; [exists q; rewrite elem_snoc; auto|]. split.
        + intros q' Hq'. rewrite elem_snoc in Hq'. destruct Hq' as [Hq'| ->]; [auto | congruence].
        + rewrite Hd. split; intros (q' & H1 & H2 & H3); exists q'; rewrite elem_snoc in *; [auto|].
          destruct H1 as [H1| ->]; [auto | congruence]. }
  destruct Hst as [[E Hn]|(He & (q & Hq & Hq2 & Hq3) & Hmax & Hd)]; cbn [fst snd] in *.
  { rewrite E. cbn. apply decided_top; [done | done |]. intros q Hq Hq2. by destruct (Hn q Hq). }
  assert (Hne : streq d "" = false) by (destruct He as [-> | ->]; done).
  rewrite Hne. cbn [orb]. destruct (best <? pol_Priority p) eqn:Hlt; zbool.
  { apply decided_top; [done | done |]. intros q' H1 H2. specialize (Hmax q' H1 H2). lia. }
  assert (Hex : ∃ q, q ∈ ps ++ [p] ∧ applies permission subject resource q = true ∧
    pol_Priority q = best) by (exists q; rewrite elem_snoc; auto).
  assert (Hmax' : ∀ q, q ∈ ps ++ [p] → applies permission subject resource q = true →
    pol_Priority q ≤ best).
  { intros q' H1 H2. rewrite elem_snoc in H1. destruct H1 as [H1| ->]; [auto | lia]. }
  destruct ((pol_Priority p =? best) && streq (pol_Effect p) PolicyDeny) eqn:Htie.
  - zbool. right. cbn. split; [by right|]. split; [done|]. split; [done|].
    split; [|done]. intros _. exists p. rewrite elem_snoc.
    match goal with H : streq _ _ = true |- _ => apply streq_true in H end. auto.
  - right. cbn. split; [done|]. split; [done|]. split; [done|]. rewrite Hd.
    split; intros (q' & H1 & H2 & H3 & H4); exists q'; rewrite elem_snoc in *; [auto|].
    destruct H1 as [H1| ->]; [auto|]. exfalso.
    rewrite H3, Z.eqb_refl in Htie. cbn in Htie.
    rewrite (proj2 (streq_true _ _) H4) in Htie. done.
Qed.

Lemma foldl_consider_ok permission subject resource ps :
  Forall effect_ok ps →
  decided_ok permission subject resource ps (foldl (consider permission subject resource) ("", 0) ps).
Proof.
  induction ps as [|p ps IH] using rev_ind; intros Hok.
  { left. split; [done|]. intros p Hp. by apply not_elem_of_nil in Hp. }
  rewrite Forall_app, Forall_singleton in Hok. destruct Hok as [H1 H2].
  rewrite foldl_app. cbn [foldl]. apply consider_ok; auto.
Qed.

(** A grant reaches a lineage through its own scope only. *)
Definition reaches (g : PermissionGrant) (key : string) (lin : ResourceLineage) : Prop :=
  g_Permission g = key ∧ key ≠ "" ∧ g_ScopeID g ≠ "" ∧
  (g_ScopeType g = ScopeOrganization ∧ g_ScopeID g = l_OrganizationID lin ∨
   g_ScopeType g = ScopeTeam ∧ g_ScopeID g = l_TeamID lin ∨
   g_ScopeType g = ScopeProject ∧ g_ScopeID g = l_ProjectID lin).

Lemma existsb_elem {A} (f : A → bool) l : existsb f l = true ↔ ∃ x, x ∈ l ∧ f x = true.
Proof.
  rewrite List.existsb_exists. split; intros (x & H1 & H2); exists x; split; try done;
    by apply list_elem_of_In.
Qed.

(** Case analysis on string comparisons. *)
Ltac str_cases :=
  repeat match goal with
  | |- context [streq ?a ?b] =>
      let E := fresh "E" in destruct (streq a b) eqn:E;
      [apply streq_true in E | apply (bool_decide_eq_false (a = b)) in E]
  end.

Lemma reaches_valid g key lin :
  reaches g key lin → streq (g_Permission g) key && validPermissionGrant g = true.
Proof.
  intros (H1 & H2 & H3 & H4). rewrite (proj2 (streq_true _ _) H1). unfold validPermissionGrant.
  rewrite H1, (streq_false key ""), (streq_false (g_ScopeID g) "") by done.
  by destruct H4 as [[-> _]|[[-> _]|[-> _]]].
Qed.

Lemma grant_tenant g key :
  streq (g_Permission g) key && validPermissionGrant g && streq (g_ScopeType g) ScopeTenant = true ↔
  key ≠ "" ∧ g = mkGrant key ScopeTenant "".
Proof.
  destruct g as [perm ty id]. unfold validPermissionGrant. cbn.
  str_cases; cbn; split; try done; try (intros [? [= -> -> ->]]; congruence).
  intros _. split; congruence.
Qed.

Lemma grant_reaches g key lin :
  (if negb (streq (g_Permission g) key) || negb (validPermissionGrant g) then false
   else if streq (g_ScopeType g) ScopeOrganization then
     negb (streq (l_OrganizationID lin) "") && streq (g_ScopeID g) (l_OrganizationID lin)
   else if streq (g_ScopeType g) ScopeTeam then
     negb (streq (l_TeamID lin) "") && streq (g_ScopeID g) (l_TeamID lin)
   else if streq (g_ScopeType g) ScopeProject then
     negb (streq (l_ProjectID lin) "") && streq (g_ScopeID g) (l_ProjectID lin)
   else false) = true ↔ reaches g key lin.
Proof.
  split.
  - destruct g as [perm ty id], lin as [o tm pr]. unfold validPermissionGrant, reaches. cbn.
    str_cases; cbn; try done; intros _; subst; naive_solver.
  - intros Hr. pose proof (reaches_valid _ _ _ Hr) as Hv. zbool.
    match goal with H1 : streq _ _ = true, H2 : validPermissionGrant _ = true |- _ =>
      rewrite H1, H2 end. cbn [negb orb].
    destruct Hr as (H1 & H2 & H3 & H4).
    destruct H4 as [[H4 H5]|[[H4 H5]|[H4 H5]]]; rewrite H4; cbn;
      rewrite <- H5; str_cases; cbn; done.
Qed.

(** ** Properties *)

(** The ABAC evaluation is exactly "highest priority decides, deny wins ties":
    silent when no enabled policy matches; deny when a deny policy matches and no
    matching policy outranks it; allow otherwise - whatever the order of the list. *)
Theorem Evaluate_deny_override (policies : list Policy) (permission : string)
    (subject resource : attrs) :
  Forall effect_ok policies →
  let app p := p ∈ policies ∧ applies permission subject resource p = true in
  (Evaluate policies permission subject resource = "" ↔ ∀ p, ¬ app p) ∧
  (Evaluate policies permission subject resource = PolicyDeny ↔
     ∃ p, app p ∧ pol_Effect p = PolicyDeny ∧ ∀ q, app q → pol_Priority q ≤ pol_Priority p) ∧
  (∀ policies', policies' ≡ₚ policies →
     Evaluate policies' permission subject resource = Evaluate policies permission subject resource).
Proof.
  intros Hok app.
  assert (Hchar : ∀ ps, Forall effect_ok ps →
    let ap p := p ∈ ps ∧ applies permission subject resource p = true in
    let r := Evaluate ps permission subject resource in
    (r = "" ∨ r = PolicyAllow ∨ r = PolicyDeny) ∧
    (r = "" ↔ ∀ p, ¬ ap p) ∧
    (r = PolicyDeny ↔
     ∃ p, ap p ∧ pol_Effect p = PolicyDeny ∧ ∀ q, ap q → pol_Priority q ≤ pol_Priority p)).
  { intros ps Hps ap r. unfold r, Evaluate.
    destruct (foldl_consider_ok permission subject resource ps Hps)
      as [[E Hn]|(He & (q & Hq & Hq2 & Hq3) & Hmax & Hd)].
    - split; [by left|]. rewrite E. split; split; [by intros _ p [Hp Ha]; apply (Hn p) | done | done |].
      intros (p & [Hp Ha] & _). by destruct (Hn p Hp).
    - split; [by right|]. split; split.
      + intros E. by destruct He as [He|He]; rewrite He in E.
      + intros Hn. by destruct (Hn q).
      + intros E. destruct (proj1 Hd E) as (p & H1 & H2 & H3 & H4). exists p.
        split; [done|]. split; [done|]. intros q' [H5 H6]. rewrite H3. auto.
      + intros (p & [H1 H2] & H3 & H4). apply Hd. exists p. split_and!; try done.
        specialize (H4 q (conj Hq Hq2)). specialize (Hmax p H1 H2). lia. }
  destruct (Hchar policies Hok) as (H0 & H1 & H2). split; [exact H1|]. split; [exact H2|].
  intros ps' Hperm. assert (Hok' : Forall effect_ok ps') by (by rewrite Hperm).
  destruct (Hchar ps' Hok') as (G0 & G1 & G2). cbv zeta in *.
  assert (Hsame : ∀ p, p ∈ ps' ↔ p ∈ policies) by (intros p; by rewrite Hperm).
  setoid_rewrite Hsame in G1. setoid_rewrite Hsame in G2.
  rewrite <- H1 in G1. rewrite <- H2 in G2.
  destruct H0 as [E|[E|E]]; rewrite E in *; [by apply G1 | | by apply G2].
  destruct G0 as [F|[F|F]]; [by apply G1 in F | done | by apply G2 in F].
Qed.

Definition demo_policies : list Policy :=
  [mkPolicy PolicyAllow "*" ∅ ∅ 5 true;
   mkPolicy PolicyDeny "tests.write" {["dept" := "ops"]} ∅ 5 true].

Lemma demo_policies_ok : Forall effect_ok demo_policies.
Proof.
  apply List.Forall_cons; [by left|]. apply List.Forall_cons; [by right | apply List.Forall_nil].
Qed.

Lemma Evaluate_deny_override_witness :
  let app p := p ∈ demo_policies ∧ applies "tests.write" {["dept" := "ops"]} ∅ p = true in
  (Evaluate demo_policies "tests.write" {["dept" := "ops"]} ∅ = "" ↔ ∀ p, ¬ app p) ∧
  (Evaluate demo_policies "tests.write" {["dept" := "ops"]} ∅ = PolicyDeny ↔
     ∃ p, app p ∧ pol_Effect p = PolicyDeny ∧ ∀ q, app q → pol_Priority q ≤ pol_Priority p) ∧
  (∀ policies', policies' ≡ₚ demo_policies →
     Evaluate policies' "tests.write" {["dept" := "ops"]} ∅
       = Evaluate demo_policies "tests.write" {["dept" := "ops"]} ∅).
Proof.
  apply (Evaluate_deny_override demo_policies "tests.write" {["dept" := "ops"]} ∅).
  apply demo_policies_ok.
Defined.

(** ** The decision, spelled out *)

(** A policy matches: enabled, for the permission or for all, and every attribute it asks
    for has the value it asks for. *)
Definition matches (permission : string) (subject resource : attrs) (pol : Policy) : Prop :=
  pol_Enabled pol = true ∧ (pol_Permission pol = "*" ∨ pol_Permission pol = permission) ∧
  (∀ k v, pol_Subject pol !! k = Some v → default "" (subject !! k) = v) ∧
  (∀ k v, pol_Resource pol !! k = Some v → default "" (resource !! k) = v).

(** A deny matches and nothing that matches outranks it. *)
Definition denied (policies : list Policy) (permission : string) (subject resource : attrs) : Prop :=
  ∃ pol, pol ∈ policies ∧ matches permission subject resource pol ∧ pol_Effect pol = PolicyDeny ∧
    ∀ other, other ∈ policies → matches permission subject resource other → pol_Priority other ≤ pol_Priority pol.

(** The resource is of the principal's tenant, or of none. *)
Definition own_tenant (q : Principal) (resource : attrs) : Prop :=
  ∀ rt, resource !! ResourceTenantKey = Some rt → rt = "" ∨ rt = p_TenantID q.

Definition tenant_wide (q : Principal) (permission : string) : Prop :=
  p_Permissions q !! permission = Some true ∨
  (permission ≠ "" ∧ mkGrant permission ScopeTenant "" ∈ p_PermissionGrants q).

Definition scoped (q : Principal) (permission : string) : Prop :=
  ∃ ty id, ty ∈ [ScopeOrganization; ScopeTeam; ScopeProject] ∧ permission ≠ "" ∧ id ≠ "" ∧
    mkGrant permission ty id ∈ p_PermissionGrants q.

Definition granted (mode : RBACCheck) (q : Principal) (permission : string) : Prop :=
  match mode with
  | RBACGlobal => tenant_wide q permission
  | RBACAnyScope => tenant_wide q permission ∨ scoped q permission
  | RBACPreverified => True
  end.

Lemma attrsSubset_spec required actual :
  attrsSubset required actual = true ↔ ∀ k v, required !! k = Some v → default "" (actual !! k) = v.
Proof.
  unfold attrsSubset. rewrite forallb_forall. split.
  - intros H k v Hk. apply streq_true. apply (H (k, v)), list_elem_of_In. by apply elem_of_map_to_list.
  - intros H [k v] Hin. apply list_elem_of_In, elem_of_map_to_list in Hin. cbn. apply streq_true. by apply H.
Qed.

Lemma applies_matches permission subject resource pol :
  applies permission subject resource pol = true ↔ matches permission subject resource pol.
Proof.
  unfold applies, matches. rewrite !andb_true_iff, orb_true_iff, !streq_true, !attrsSubset_spec. tauto.
Qed.

Lemma Has_tenant_wide q permission : Has (Some q) permission = true ↔ tenant_wide q permission.
Proof.
  unfold Has, tenant_wide. destruct (p_Permissions q !! permission) as [[]|] eqn:Ep; cbn [default from_option id].
  { by split; [left|]. }
  all: rewrite existsb_elem; split;
    [intros (g & Hg & E); right; apply grant_tenant in E as [? ->]; auto
    |intros [?|[Hk Hg]]; [congruence|]; exists (mkGrant permission ScopeTenant "");
     split; [done | by apply grant_tenant]].
Qed.

Lemma grant_any g permission :
  streq (g_Permission g) permission && validPermissionGrant g = true ↔
  permission ≠ "" ∧ (g = mkGrant permission ScopeTenant "" ∨
    ∃ ty id, ty ∈ [ScopeOrganization; ScopeTeam; ScopeProject] ∧ id ≠ "" ∧ g = mkGrant permission ty id).
Proof.
  destruct g as [perm ty id]. unfold validPermissionGrant. cbn. split.
  - intros H. assert (permission ≠ "" ∧ (ty = ScopeTenant ∧ id = "" ∨ (ty = ScopeOrganization ∨ ty = ScopeTeam ∨ ty = ScopeProject) ∧ id ≠ "") ∧ perm = permission)
      as (Hp & Hty & ->) by (revert H; str_cases; cbn; intros; try done; subst; tauto).
    split; [done|]. destruct Hty as [[-> ->]|[Hty Hid]]; [by left|]. right. exists ty, id. split_and!; [|done|done].
    rewrite !elem_of_cons. tauto.
  - intros [Hp [[= -> -> ->]|(ty' & id' & Hty & Hid & [= -> -> ->])]].
    + by rewrite (proj2 (streq_true _ _) eq_refl), (streq_false permission "").
    + rewrite (proj2 (streq_true _ _) eq_refl), (streq_false permission ""), (streq_false id' "") by done.
      rewrite !elem_of_cons, elem_of_nil in Hty. by destruct Hty as [-> |[-> |[-> |[]]]].
Qed.

Lemma HasAny_granted q permission : HasAny (Some q) permission = true ↔ tenant_wide q permission ∨ scoped q permission.
Proof.
  unfold HasAny. destruct (Has (Some q) permission) eqn:E; [apply Has_tenant_wide in E; split; auto|].
  rewrite existsb_elem. split.
  - intros (g & Hg & [Hp [-> |(ty & id & Hty & Hid & ->)]]%grant_any); [left; by right|right]. by exists ty, id.
  - intros [Ht|(ty & id & Hty & Hp & Hid & Hg)]; [apply Has_tenant_wide in Ht; congruence|].
    exists (mkGrant permission ty id). split; [done|]. apply grant_any. split; [done|]. right. by exists ty, id.
Qed.

Lemma Evaluate_denied policies permission subject resource :
  Forall effect_ok policies → streq (Evaluate policies permission subject resource) PolicyDeny = true ↔ denied policies permission subject resource.
Proof.
  intros Hok. rewrite streq_true. destruct (Evaluate_deny_override policies permission subject resource Hok) as (_ & Hd & _). rewrite Hd.
  unfold denied. setoid_rewrite applies_matches. naive_solver.
Qed.

Lemma boundary_spec q (resource : attrs) :
  match resource !! ResourceTenantKey with
  | Some rt => negb (streq rt "") && negb (streq rt (p_TenantID q))
  | None => false
  end = false ↔ own_tenant q resource.
Proof.
  unfold own_tenant. destruct (resource !! ResourceTenantKey) as [rt|]; [|done].
  rewrite andb_false_iff, !negb_false_iff, !streq_true. split; [by intros H ? [= <-]|]. auto.
Qed.

Lemma rbac_spec mode q permission :
  match mode with
  | RBACGlobal => Has (Some q) permission
  | RBACAnyScope => HasAny (Some q) permission
  | RBACPreverified => true
  end = true ↔ granted mode q permission.
Proof. destruct mode; [apply Has_tenant_wide|apply HasAny_granted|done]. Qed.

(** What each reason says. *)
Definition reason_holds (r : DecisionReason) (p : option Principal) (permission : string) (mode : RBACCheck)
    (policies : list Policy) (resource : attrs) : Prop :=
  match p, r with
  | None, _ => r = DecisionUnauthenticated
  | Some _, DecisionUnauthenticated => False
  | Some q, DecisionTenantBoundary => ¬ own_tenant q resource
  | Some q, DecisionRBAC => own_tenant q resource ∧ ¬ granted mode q permission
  | Some q, DecisionPolicyDeny => own_tenant q resource ∧ granted mode q permission ∧ denied policies permission (p_Attributes q) resource
  | Some q, DecisionAllowed => own_tenant q resource ∧ granted mode q permission ∧ ¬ denied policies permission (p_Attributes q) resource
  end.

Lemma Decide_reason p permission mode policies resource :
  Forall effect_ok policies → reason_holds (Decide p permission mode policies resource) p permission mode policies resource.
Proof.
  intros Hok. destruct p as [q|]; [|done]. unfold Decide. cbn [attrsOf].
  pose proof (boundary_spec q resource) as Hb. destruct (match resource !! ResourceTenantKey with
    Some rt => negb (streq rt "") && negb (streq rt (p_TenantID q)) | None => false end); [cbn; intros H; by apply Hb in H|].
  pose proof (rbac_spec mode q permission) as Hr. destruct (match mode with
    RBACGlobal => Has (Some q) permission | RBACAnyScope => HasAny (Some q) permission | RBACPreverified => true end); cbn [negb].
  2:{ cbn. split; [by apply Hb|]. intros H. by apply Hr in H. }
  pose proof (Evaluate_denied policies permission (p_Attributes q) resource Hok) as He.
  destruct (streq _ PolicyDeny); cbn; (split; [by apply Hb|]); (split; [by apply Hr|]); [by apply He|]. intros H. by apply He in H.
Qed.

(** The reasons exclude each other. *)
Lemma reason_unique r r' p permission mode policies resource :
  reason_holds r p permission mode policies resource → reason_holds r' p permission mode policies resource → r = r'.
Proof. destruct p as [q|]; [|by intros -> ->]. destruct r, r'; cbn; tauto. Qed.

(** C4. An authorization decision is exactly its layers, with the policies' effects allow or deny
    as the stores accept them: it allows exactly a principal whose tenant is the resource's
    (or the resource names none), who holds the permission - tenant-wide (an explicit
    permission or a tenant grant), through any well-formed scoped grant when the mode asks for
    any scope, or as verified before - unless a deny policy matches that no matching policy
    outranks; otherwise the reason names the first layer that fails.  Authorize is the
    tenant-wide case.  Policies, whatever they are, never widen what RBAC alone grants. *)
Theorem Decide_layers (p : option Principal) (permission : string) (mode : RBACCheck)
    (policies : list Policy) (resource : attrs) :
  Forall effect_ok policies →
  (∀ r, Decide p permission mode policies resource = r ↔ reason_holds r p permission mode policies resource) ∧
  (Authorize p permission policies resource = true ↔
    ∃ q, p = Some q ∧ own_tenant q resource ∧ tenant_wide q permission ∧ ¬ denied policies permission (p_Attributes q) resource) ∧
  (Decide p permission mode policies resource = DecisionAllowed → Decide p permission mode [] resource = DecisionAllowed).
Proof.
  intros Hok.
  assert (H : ∀ mode ps r, Forall effect_ok ps → Decide p permission mode ps resource = r ↔ reason_holds r p permission mode ps resource).
  { intros md ps r Hps. pose proof (Decide_reason p permission md ps resource Hps) as Hr. split; [by intros <-|by apply reason_unique]. }
  split; [intros r; by apply H|]. split.
  - unfold Authorize. rewrite bool_decide_eq_true, H by done. destruct p as [q|]; cbn; naive_solver.
  - rewrite !H by (done || constructor). destruct p as [q|]; [|done]. intros (H1 & H2 & _). split_and!; [done|done|].
    intros (pol & Hin & _). by apply elem_of_nil in Hin.
Qed.

(** An operator of ops who may write tests is kept from it by the deny, which outranks the
    allow of the same priority. *)
Lemma Decide_layers_witness :
  Decide (Some (mkPrincipal "t1" {["tests.write" := true]} [] {["dept" := "ops"]})) "tests.write" RBACGlobal demo_policies ∅ = DecisionPolicyDeny ∧
  reason_holds DecisionPolicyDeny (Some (mkPrincipal "t1" {["tests.write" := true]} [] {["dept" := "ops"]})) "tests.write" RBACGlobal demo_policies ∅.
Proof.
  split; [vm_compute; reflexivity|].
  apply (proj1 (Decide_layers (Some (mkPrincipal "t1" {["tests.write" := true]} [] {["dept" := "ops"]})) "tests.write" RBACGlobal demo_policies ∅
    demo_policies_ok)). vm_compute. reflexivity.
Defined.

(** Scoped RBAC: HasAt holds exactly for a tenant-wide grant or a well-formed
    scoped grant of that permission whose scope id is the lineage's own (non-empty)
    id at that level; a resource-scoped grant never makes Has true, and HasAt implies
    the route-edge check HasAny. *)
Theorem HasAt_scoped (q : Principal) (key : string) (lin : ResourceLineage) :
  (HasAt (Some q) key lin = true ↔
     Has (Some q) key = true ∨ ∃ g, g ∈ p_PermissionGrants q ∧ reaches g key lin) ∧
  (Has (Some q) key = true ↔
     p_Permissions q !! key = Some true ∨
     (key ≠ "" ∧ mkGrant key ScopeTenant "" ∈ p_PermissionGrants q)) ∧
  (HasAt (Some q) key lin = true → HasAny (Some q) key = true).
Proof.
  assert (Hat : HasAt (Some q) key lin = true ↔
     Has (Some q) key = true ∨ ∃ g, g ∈ p_PermissionGrants q ∧ reaches g key lin).
  { unfold HasAt. destruct (Has (Some q) key); [by split; [left|]|].
    rewrite existsb_elem. split.
    - intros (g & Hg & E). right. exists g. split; [done|]. by apply grant_reaches.
    - intros [?|(g & Hg & E)]; [done|]. exists g. split; [done|]. by apply grant_reaches. }
  split; [exact Hat|]. split; [apply Has_tenant_wide|].
  rewrite Hat. unfold HasAny. destruct (Has (Some q) key); [done|].
  intros [?|(g & Hg & Hr)]; [done|]. apply existsb_elem. exists g. split; [done|].
  by eapply reaches_valid.
Qed.

End Auth.
