(* ===== verification/Limiter.v ===== *)
(** * internal/auth/ratelimit.go: the brute-force limiter

    Entries live in a heap and are linked by prev/next pointers into the intrusive
    LRU list, exactly as in the code; [dll] says that the pointers spell a list.  The
    abstract limiter is that list of entry data, most recently used first, and every
    operation is proved to refine it.  Instants are nanoseconds of the monotonic
    clock; the zero time.Time is [None]. *)

From S2P Require Import Prelude.
#[local] Open Scope Z_scope.

Module Limiter.

Abbreviation loc := nat.

(** The fields of [entry] other than its list pointers. *)
Record edata := mkData {
  d_key : string;
  d_failures : Z;
  d_windowStart : Z;
  d_lockedUntil : option Z;
  d_lockouts : Z;
  d_lastSeen : Z
}.

#[export] Instance edata_eta : Eta edata := λ d,
  mkData (d_key d) (d_failures d) (d_windowStart d) (d_lockedUntil d) (d_lockouts d) (d_lastSeen d).

Record entry := mkEntry { e_data : edata; e_prev : option loc; e_next : option loc }.

#[export] Instance entry_eta : Eta entry := λ e, mkEntry (e_data e) (e_prev e) (e_next e).

Record t := mk {
  maxFailures : Z;
  window : Z;
  lockout : Z;
  maxLockout : Z;
  entries : gmap string loc;
  hd : option loc;   (** head *)
  tl : option loc;   (** tail *)
  heap : gmap loc entry
}.

#[export] Instance t_eta : Eta t := λ l,
  mk (maxFailures l) (window l) (lockout l) (maxLockout l) (entries l) (hd l) (tl l) (heap l).

Definition maxEntries : Z := 100000.

Definition minute : Z := 60 * 1000000000.
Definition hour : Z := 3600 * 1000000000.

Definition NewLimiter (maxFailures window lockout : Z) : t :=
  mk (if maxFailures <=? 0 then 5 else maxFailures) (if window <=? 0 then minute else window)
    (if lockout <=? 0 then minute else lockout) hour ∅ None None ∅.

(** [now.Before(until)] *)
Definition locked (now : Z) (until : option Z) : bool :=
  match until with None => false | Some u => now <? u end.

(** ** The intrusive list *)

(** [p.f = v] through a pointer. *)
Definition set_next (p : loc) (v : option loc) (h : gmap loc entry) : gmap loc entry :=
  alter (λ e, e <| e_next := v |>) p h.
Definition set_prev (p : loc) (v : option loc) (h : gmap loc entry) : gmap loc entry :=
  alter (λ e, e <| e_prev := v |>) p h.
Definition set_data (p : loc) (f : edata → edata) (h : gmap loc entry) : gmap loc entry :=
  alter (λ e, e <| e_data := f (e_data e) |>) p h.

Definition pushFrontLocked (e : loc) (l : t) : t :=
  let h := set_next e (hd l) (set_prev e None (heap l)) in
  let h := match hd l with Some x => set_prev x (Some e) h | None => h end in
  let tl' := match tl l with None => Some e | Some x => Some x end in
  l <| heap := h |> <| hd := Some e |> <| tl := tl' |>.

Definition unlinkLocked (e : loc) (l : t) : t :=
  match heap l !! e with
  | None => l
  | Some en =>
      let l := match e_prev en with
               | Some p => l <| heap := set_next p (e_next en) (heap l) |>
               | None => if bool_decide (hd l = Some e) then l <| hd := e_next en |> else l
               end in
      let l := match e_next en with
               | Some n => l <| heap := set_prev n (e_prev en) (heap l) |>
               | None => if bool_decide (tl l = Some e) then l <| tl := e_prev en |> else l
               end in
      l <| heap := set_next e None (set_prev e None (heap l)) |>
  end.

Definition touchLocked (e : loc) (l : t) : t :=
  if bool_decide (hd l = Some e) then l else pushFrontLocked e (unlinkLocked e l).

Definition removeLocked (e : loc) (l : t) : t :=
  let key := match heap l !! e with Some en => d_key (e_data en) | None => ""%string end in
  let l := unlinkLocked e l in
  l <| entries := delete key (entries l) |>.

(** The scan from the tail: [i] steps left, [victim] so far. *)
Fixpoint scanTail (i : nat) (now : Z) (h : gmap loc entry) (e : option loc) (victim : option loc)
    : option loc :=
  match i, e with
  | S i, Some x =>
      match h !! x with
      | Some en =>
          if negb (locked now (d_lockedUntil (e_data en))) then Some x
          else scanTail i now h (e_prev en) victim
      | None => victim
      end
  | _, _ => victim
  end.

Definition evictLocked (now : Z) (l : t) : t :=
  match scanTail 8 now (heap l) (tl l) (tl l) with
  | Some v => removeLocked v l
  | None => l
  end.

(** A new entry is allocated at an address that is not in use. *)
Definition insertLocked (key : string) (now : Z) (l : t) : loc * t :=
  let l := if maxEntries <=? Z.of_nat (size (entries l)) then evictLocked now l else l in
  let e := fresh (dom (heap l)) in
  let l := l <| heap := <[e := mkEntry (mkData key 0 now None 0 now) None None]> (heap l) |>
             <| entries := <[key := e]> (entries l) |> in
  (e, pushFrontLocked e l).

(** ** Operations *)

Definition Allow (key : string) (now : Z) (l : t) : bool * Z * t :=
  match entries l !! key with
  | None => (true, 0, l)
  | Some e =>
      let l := l <| heap := set_data e (λ d, d <| d_lastSeen := now |>) (heap l) |> in
      let l := touchLocked e l in
      match heap l !! e with
      | None => (true, 0, l)
      | Some en =>
          match d_lockedUntil (e_data en) with
          | Some u => if now <? u then (false, u - now, l) else (true, 0, l)
          | None => (true, 0, l)
          end
      end
  end.

(** What one attempt does to the entry it hits, with the answer and the OnLockout
    event (key, failures, lockout). *)
Definition backoff (lockout maxLockout lockouts : Z) : Z :=
  let d := i64 (Z.shiftl lockout lockouts) in
  if (maxLockout <? d) || (d <=? 0) then maxLockout else d.

(** The rest of an attempt on an entry that is not locked. *)
Definition attemptOpen (l : t) (now : Z) (d : edata) : bool * Z * option (string * Z * Z) * edata :=
  let d := if window l <? now - d_windowStart d
           then d <| d_windowStart := now |> <| d_failures := 0 |> else d in
  let d := d <| d_failures := d_failures d + 1 |> in
  if d_failures d <? maxFailures l then (true, 0, None, d)
  else
    let dur := backoff (lockout l) (maxLockout l) (d_lockouts d) in
    let d := d <| d_lockedUntil := Some (now + dur) |> <| d_lockouts := d_lockouts d + 1 |>
               <| d_failures := 0 |> <| d_windowStart := now |> in
    (false, dur, Some (d_key d, maxFailures l, dur), d).

Definition attemptEntry (l : t) (now : Z) (d : edata)
    : bool * Z * option (string * Z * Z) * edata :=
  let d := d <| d_lastSeen := now |> in
  match d_lockedUntil d with
  | Some u => if now <? u then (false, u - now, None, d) else attemptOpen l now d
  | None => attemptOpen l now d
  end.

Definition Attempt (key : string) (now : Z) (l : t) : bool * Z * option (string * Z * Z) * t :=
  let '(e, l) := match entries l !! key with
                 | None => insertLocked key now l
                 | Some e => (e, touchLocked e l)
                 end in
  match heap l !! e with
  | None => (true, 0, None, l)
  | Some en =>
      let '(ok, retry, hook, d) := attemptEntry l now (e_data en) in
      (ok, retry, hook, l <| heap := set_data e (λ _, d) (heap l) |>)
  end.

Definition Fail (key : string) (now : Z) (l : t) : t := (Attempt key now l).2.

Definition Success (key : string) (l : t) : t :=
  match entries l !! key with Some e => removeLocked e l | None => l end.

(** ** The abstract limiter: entry data, most recently used first *)

(** The entry of [key] and the others, in order. *)
Fixpoint pick (key : string) (ds : list edata) : option (edata * list edata) :=
  match ds with
  | [] => None
  | d :: ds =>
      if bool_decide (d_key d = key) then Some (d, ds)
      else '(e, r) ← pick key ds; Some (e, d :: r)
  end.

(** The least recently used unlocked entry among the last eight, or the last. *)
Fixpoint aScan (i : nat) (now : Z) (rds : list edata) : option edata :=
  match i, rds with
  | S i, d :: rds => if negb (locked now (d_lockedUntil d)) then Some d else aScan i now rds
  | _, _ => None
  end.

Definition aEvict (now : Z) (ds : list edata) : list edata :=
  match match aScan 8 now (reverse ds) with Some d => Some d | None => last ds end with
  | Some d => from_option snd ds (pick (d_key d) ds)
  | None => ds
  end.

Definition aAllow (key : string) (now : Z) (ds : list edata) : bool * Z * list edata :=
  match pick key ds with
  | None => (true, 0, ds)
  | Some (d, r) =>
      let d := d <| d_lastSeen := now |> in
      match d_lockedUntil d with
      | Some u => if now <? u then (false, u - now, d :: r) else (true, 0, d :: r)
      | None => (true, 0, d :: r)
      end
  end.

Definition aAttempt (l : t) (key : string) (now : Z) (ds : list edata)
    : bool * Z * option (string * Z * Z) * list edata :=
  let '(d, r) := match pick key ds with
                 | Some (d, r) => (d, r)
                 | None =>
                     (mkData key 0 now None 0 now,
                      if maxEntries <=? len ds then aEvict now ds else ds)
                 end in
  let '(ok, retry, hook, d) := attemptEntry l now d in (ok, retry, hook, d :: r).

Definition aSuccess (key : string) (ds : list edata) : list edata :=
  match pick key ds with Some (_, r) => r | None => ds end.

(** ** The pointers spell a list *)

Definition hdl (ps : list (loc * edata)) (n : option loc) : option loc :=
  match ps with [] => n | (x, _) :: _ => Some x end.

Fixpoint lastl (p : option loc) (ps : list (loc * edata)) : option loc :=
  match ps with [] => p | (x, _) :: ps => lastl (Some x) ps end.

Fixpoint dll (h : gmap loc entry) (p : option loc) (ps : list (loc * edata)) (n : option loc) : Prop :=
  match ps with
  | [] => True
  | (x, d) :: ps => h !! x = Some (mkEntry d p (hdl ps n)) ∧ dll h (Some x) ps n
  end.

Lemma hdl_app a b n : hdl (a ++ b) n = hdl a (hdl b n).
Proof. by destruct a as [|[x d] a]. Qed.

Lemma lastl_app p a b : lastl p (a ++ b) = lastl (lastl p a) b.
Proof. revert p. induction a as [|[x d] a IH]; intros p; [done|]. apply IH. Qed.

Lemma dll_app h p a b n : dll h p (a ++ b) n ↔ dll h p a (hdl b n) ∧ dll h (lastl p a) b n.
Proof.
  revert p. induction a as [|[x d] a IH]; intros p; cbn [app dll lastl]; [tauto|].
  rewrite IH, hdl_app. tauto.
Qed.

Lemma dll_frame h h' p ps n :
  (∀ x, x ∈ ps.*1 → h' !! x = h !! x) → dll h p ps n → dll h' p ps n.
Proof.
  revert p. induction ps as [|[x d] ps IH]; intros p Hf; [done|].
  intros [H1 H2]. split.
  - rewrite Hf; [done|]. cbn. left.
  - apply IH; [|done]. intros y Hy. apply Hf. cbn. by right.
Qed.

Lemma dll_alter f x h p ps n : x ∉ ps.*1 → dll h p ps n → dll (alter f x h) p ps n.
Proof.
  intros Hx. apply dll_frame. intros y Hy. apply lookup_alter_ne. by intros ->.
Qed.

(** Redirecting the last entry's next, and the first entry's prev. *)
Lemma dll_set_next h p a y d n v :
  NoDup (a ++ [(y, d)]).*1 → dll h p (a ++ [(y, d)]) n → dll (set_next y v h) p (a ++ [(y, d)]) v.
Proof.
  rewrite fmap_app, NoDup_app. intros (_ & Hy & _). rewrite !dll_app. intros [H1 [H2 _]].
  split; [|split; [|done]].
  - apply dll_alter; [|done]. intros Hin. apply (Hy y Hin). cbn. left.
  - unfold set_next. rewrite lookup_alter_eq, H2. done.
Qed.

Lemma dll_set_prev h p z d b n v :
  z ∉ b.*1 → dll h p ((z, d) :: b) n → dll (set_prev z v h) v ((z, d) :: b) n.
Proof.
  intros Hz [H1 H2]. split.
  - unfold set_prev. rewrite lookup_alter_eq, H1. done.
  - by apply dll_alter.
Qed.

(** The list part of the representation. *)
Record core (l : t) (ps : list (loc * edata)) : Prop := mkCore {
  core_dll : dll (heap l) None ps None;
  core_nodup : NoDup ps.*1;
  core_hd : hd l = hdl ps None;
  core_tl : tl l = lastl None ps
}.

Lemma lastl_nonempty p q ps : ps ≠ [] → lastl p ps = lastl q ps.
Proof. by destruct ps as [|[x d] ps]. Qed.

Lemma core_entry l a x d b :
  core l (a ++ (x, d) :: b) → heap l !! x = Some (mkEntry d (lastl None a) (hdl b None)).
Proof. intros [H _ _ _]. apply dll_app in H as [_ [H _]]. done. Qed.

Lemma core_distinct l a x d b :
  core l (a ++ (x, d) :: b) → (x ∉ (a ++ b).*1) ∧ NoDup ((a ++ b).*1) ∧
    (∀ y, y ∈ a.*1 → y ∉ b.*1).
Proof.
  intros [_ H _ _]. rewrite fmap_app in H. cbn in H. rewrite fmap_app.
  assert (Hp : ((a.*1) ++ x :: (b.*1)) ≡ₚ (x :: ((a.*1) ++ (b.*1)))) by (by rewrite Permutation_middle).
  rewrite Hp, NoDup_cons in H. destruct H as [H1 H2]. split; [done|]. split; [done|].
  apply NoDup_app in H2 as (_ & H2 & _). done.
Qed.

(** Detaching the entry at [x]: first its neighbour before it (or the head) ... *)
Lemma unlink_left l a x d b :
  core l (a ++ (x, d) :: b) →
  let l1 := match lastl None a with
            | Some p => l <| heap := set_next p (hdl b None) (heap l) |>
            | None => if bool_decide (hd l = Some x) then l <| hd := hdl b None |> else l
            end in
  dll (heap l1) None a (hdl b None) ∧ dll (heap l1) (Some x) b None ∧
  heap l1 !! x = heap l !! x ∧ hd l1 = hdl (a ++ b) None ∧ tl l1 = tl l ∧ entries l1 = entries l.
Proof.
  intros C. destruct (core_distinct _ _ _ _ _ C) as (Hx & Hnd & Hab).
  destruct C as [H _ Hhd _]. apply dll_app in H as (HA & HX & HB). cbn [hdl] in HA.
  induction a as [|[y dy] a _] using rev_ind.
  - cbn in *. rewrite Hhd, bool_decide_eq_true_2 by done. done.
  - rewrite lastl_app. cbn [lastl]. cbv zeta. cbn [heap hd tl update].
    rewrite fmap_app in Hx, Hnd, Hab. rewrite fmap_app in Hx, Hnd.
    assert (Hyx : y ≠ x) by (intros ->; apply Hx; clear; set_solver).
    assert (Hyb : y ∉ b.*1) by (apply Hab; clear; set_solver).
    split; [|split; [by apply dll_alter|split; [by apply lookup_alter_ne|split; [|by split]]]].
    + apply (dll_set_next _ _ a y dy (Some x)); [|done]. rewrite fmap_app.
      by apply NoDup_app in Hnd as (? & _ & _).
    + rewrite Hhd, <- !app_assoc, !hdl_app. done.
Qed.

(** ... then its neighbour after it (or the tail). *)
Lemma unlink_right l1 l a x d b :
  core l (a ++ (x, d) :: b) →
  dll (heap l1) None a (hdl b None) → dll (heap l1) (Some x) b None →
  heap l1 !! x = heap l !! x → tl l1 = tl l →
  let l2 := match hdl b None with
            | Some n => l1 <| heap := set_prev n (lastl None a) (heap l1) |>
            | None => if bool_decide (tl l1 = Some x) then l1 <| tl := lastl None a |> else l1
            end in
  dll (heap l2) None (a ++ b) None ∧ heap l2 !! x = heap l !! x ∧ hd l2 = hd l1 ∧
  tl l2 = lastl None (a ++ b) ∧ entries l2 = entries l1.
Proof.
  intros C HA HB HX Htl0. destruct (core_distinct _ _ _ _ _ C) as (Hx & Hnd & Hab).
  pose proof (core_tl _ _ C) as Htl. rewrite lastl_app in Htl. cbn [lastl] in Htl.
  destruct b as [|[z dz] b]; cbn [hdl].
  - cbn in Htl. rewrite Htl0, Htl, bool_decide_eq_true_2, app_nil_r by done.
    cbn. done.
  - cbv zeta. cbn [heap hd tl update]. rewrite fmap_app in Hx, Hnd. cbn in Hx, Hnd.
    assert (Hzx : z ≠ x) by (intros ->; apply Hx; clear; set_solver).
    assert (Hza : z ∉ a.*1) by (intros Hin; apply (Hab z Hin); left).
    assert (Hzb : z ∉ b.*1).
    { apply NoDup_app in Hnd as (_ & _ & Hnd). by apply NoDup_cons in Hnd as [? _]. }
    split; [|split; [by rewrite <- HX; apply lookup_alter_ne|split; [done|]]].
    + apply dll_app. split; [by apply dll_alter|]. by apply dll_set_prev with (p := Some x).
    + rewrite Htl0, Htl, lastl_app. done.
Qed.

Lemma unlink_core l a x d b :
  core l (a ++ (x, d) :: b) →
  core (unlinkLocked x l) (a ++ b) ∧ heap (unlinkLocked x l) !! x = Some (mkEntry d None None) ∧
  entries (unlinkLocked x l) = entries l.
Proof.
  intros C. destruct (core_distinct _ _ _ _ _ C) as (Hx & Hnd & Hab).
  pose proof (core_entry _ _ _ _ _ C) as He. unfold unlinkLocked. rewrite He. cbn [e_prev e_next].
  destruct (unlink_left l a x d b C) as (A1 & A2 & A3 & A4 & A5 & A6).
  set (l1 := match lastl None a with Some p => _ | None => _ end) in *.
  destruct (unlink_right l1 l a x d b C A1 A2 A3 A5) as (B1 & B2 & B3 & B4 & B5).
  set (l2 := match hdl b None with Some n => _ | None => _ end) in *.
  split; [|split; [|cbn; congruence]].
  - constructor; cbn; [|done | congruence | done]. repeat (apply dll_alter; [done|]). done.
  - cbn. unfold set_next, set_prev. rewrite !lookup_alter_eq, B2, He. done.
Qed.

Lemma pushFront_core l ps x d p n :
  core l ps → x ∉ ps.*1 → heap l !! x = Some (mkEntry d p n) →
  core (pushFrontLocked x l) ((x, d) :: ps) ∧ entries (pushFrontLocked x l) = entries l.
Proof.
  intros [H1 H2 H3 H4] Hx He. split; [|done]. unfold pushFrontLocked. rewrite H3, H4.
  constructor; cbn; [|by apply NoDup_cons | done |].
  - destruct ps as [|[y dy] ps]; cbn [hdl].
    + split; [|done]. unfold set_next, set_prev. by rewrite !lookup_alter_eq, He.
    + cbn in Hx. assert (Hxy : y ≠ x) by (intros ->; apply Hx; left). split.
      * unfold set_next, set_prev. rewrite lookup_alter_ne by done.
        by rewrite !lookup_alter_eq, He.
      * apply dll_set_prev with (p := None); [by apply NoDup_cons in H2 as [? _]|].
        repeat (apply dll_alter; [done|]). done.
  - destruct ps as [|[y dy] ps]; [done|]. cbn [lastl].
    destruct (lastl (Some y) ps) eqn:E; [done|]. exfalso. clear -E. revert y E.
    induction ps as [|[z dz] ps IH]; intros y E; [done|]. by apply (IH z).
Qed.

Lemma touch_core l a x d b :
  core l (a ++ (x, d) :: b) →
  core (touchLocked x l) ((x, d) :: a ++ b) ∧ entries (touchLocked x l) = entries l.
Proof.
  intros C. unfold touchLocked. destruct (core_distinct _ _ _ _ _ C) as (Hx & _ & _).
  case_bool_decide as Hhd.
  - destruct a as [|[y dy] a]; [done|]. rewrite (core_hd _ _ C) in Hhd. cbn in Hhd.
    injection Hhd as ->. cbn in Hx. exfalso. apply Hx. left.
  - destruct (unlink_core l a x d b C) as (C1 & E1 & Ee).
    destruct (pushFront_core _ _ x d None None C1 Hx E1) as [C2 Ee2]. split; [done | congruence].
Qed.

Lemma set_data_core l a x d b f :
  core l (a ++ (x, d) :: b) →
  core (l <| heap := set_data x f (heap l) |>) (a ++ (x, f d) :: b).
Proof.
  intros C. destruct (core_distinct _ _ _ _ _ C) as (Hx & _ & _).
  rewrite fmap_app in Hx. destruct C as [H1 H2 H3 H4].
  constructor; cbn.
  - apply dll_app in H1 as (HA & HX & HB). apply dll_app. split; [apply dll_alter; [clear -Hx; set_solver | done]|].
    split; [|apply dll_alter; [clear -Hx; set_solver | done]]. unfold set_data. by rewrite lookup_alter_eq, HX.
  - by rewrite fmap_app in *.
  - rewrite H3, !hdl_app. done.
  - rewrite H4, !lastl_app. done.
Qed.

(** ** The whole representation *)

Definition dataof (ps : list (loc * edata)) : list edata := snd <$> ps.
Definition keysof (ps : list (loc * edata)) : list string := (λ y, d_key y.2) <$> ps.

Definition keyed (ps : list (loc * edata)) : list (string * loc) :=
  (λ y, (d_key y.2, y.1)) <$> ps.

(** The list is spelled by the pointers and the map is its index. *)
Record rep (l : t) (ps : list (loc * edata)) : Prop := mkRep {
  rep_core : core l ps;
  rep_keys : NoDup (keysof ps);
  rep_index : entries l = list_to_map (keyed ps)
}.

Lemma keyed_keys ps : fst <$> keyed ps = keysof ps.
Proof. unfold keyed, keysof. by rewrite <- list_fmap_compose. Qed.

Lemma keyed_app a b : keyed (a ++ b) = keyed a ++ keyed b.
Proof. apply fmap_app. Qed.

Lemma rep_nodup l ps : rep l ps → NoDup (fst <$> keyed ps).
Proof. intros R. rewrite keyed_keys. apply R. Qed.

Lemma rep_size l ps : rep l ps → Z.of_nat (size (entries l)) = len ps.
Proof.
  intros R. rewrite (rep_index _ _ R), map_size_list_to_map by (by eapply rep_nodup).
  unfold keyed, len. by rewrite length_fmap.
Qed.

Lemma keys_perm a x d b :
  NoDup (keysof (a ++ (x, d) :: b)) → (d_key d ∉ keysof (a ++ b)) ∧ NoDup (keysof (a ++ b)).
Proof.
  intros H. assert (Hp : (a ++ (x, d) :: b) ≡ₚ ((x, d) :: a ++ b)) by (by rewrite Permutation_middle).
  unfold keysof in *. rewrite Hp in H. cbn in H. by apply NoDup_cons in H.
Qed.

(** Looking a key up in the index and picking it from the list agree. *)
Lemma lookup_pick l ps key :
  rep l ps →
  match pick key (dataof ps) with
  | Some (d, r) => ∃ a x b, ps = a ++ (x, d) :: b ∧ r = dataof (a ++ b) ∧ d_key d = key ∧
      entries l !! key = Some x
  | None => entries l !! key = None ∧ (key ∉ keysof ps)
  end.
Proof.
  intros R. rewrite (rep_index _ _ R). pose proof (rep_nodup _ _ R) as Hnd. clear R.
  induction ps as [|[x d] ps IH].
  { split; [apply lookup_empty | apply not_elem_of_nil]. }
  change (dataof ((x, d) :: ps)) with (d :: dataof ps). cbn [pick]. case_bool_decide as Hk.
  - exists [], x, ps. split_and!; try done. cbn. rewrite <- Hk. apply lookup_insert_eq.
  - cbn in Hnd. apply NoDup_cons in Hnd as [Hd Hnd]. specialize (IH Hnd).
    change (list_to_map (keyed ((x, d) :: ps)) : gmap string loc)
      with (<[d_key d := x]> (list_to_map (keyed ps) : gmap string loc)).
    destruct (pick key (dataof ps)) as [[d' r]|]; cbn [mbind option_bind].
    + destruct IH as (a & x' & b & -> & -> & Hk' & Hl).
      exists ((x, d) :: a), x', b. split_and!; try done. by rewrite lookup_insert_ne.
    + destruct IH as [Hl Hn]. split; [by rewrite lookup_insert_ne|].
      change (keysof ((x, d) :: ps)) with (d_key d :: keysof ps).
      rewrite not_elem_of_cons. split; [congruence | done].
Qed.

(** Moving an entry to the front and changing its data. *)
Lemma rep_touch l l' a x d b d' :
  rep l (a ++ (x, d) :: b) → core l' ((x, d') :: a ++ b) → entries l' = entries l →
  d_key d' = d_key d → rep l' ((x, d') :: a ++ b).
Proof.
  intros [R1 R2 R3] C E Hk. destruct (keys_perm _ _ _ _ R2) as [H1 H2].
  constructor; [done | |].
  - cbn. rewrite Hk. by apply NoDup_cons.
  - rewrite E, R3. apply list_to_map_proper.
    + by rewrite keyed_keys.
    + rewrite keyed_app. unfold keyed at 2. cbn. fold (keyed b). rewrite Hk.
      unfold keyed. cbn. rewrite fmap_app. by rewrite Permutation_middle.
Qed.

Lemma remove_rep l a x d b :
  rep l (a ++ (x, d) :: b) → rep (removeLocked x l) (a ++ b).
Proof.
  intros [C R2 R3]. destruct (keys_perm _ _ _ _ R2) as [H1 H2].
  destruct (unlink_core _ _ _ _ _ C) as (C' & _ & E).
  unfold removeLocked. rewrite (core_entry _ _ _ _ _ C). cbn [e_data].
  constructor; [by destruct C'; constructor | done |].
  cbn [entries update]. rewrite E, R3, !keyed_app.
  assert (Hp : (list_to_map (keyed a ++ keyed ((x, d) :: b)) : gmap string loc)
    = <[d_key d := x]> (list_to_map (keyed a ++ keyed b))).
  { rewrite <- list_to_map_cons. apply list_to_map_proper.
    - rewrite <- keyed_app, keyed_keys. done.
    - change (keyed ((x, d) :: b)) with ((d_key d, x) :: keyed b). by rewrite Permutation_middle. }
  rewrite Hp. apply delete_insert_id, not_elem_of_list_to_map.
  by rewrite <- keyed_app, keyed_keys.
Qed.

(** The scan from the tail finds the abstract victim. *)
Fixpoint pScan (i : nat) (now : Z) (rps : list (loc * edata)) : option (loc * edata) :=
  match i, rps with
  | S i, y :: rps => if negb (locked now (d_lockedUntil y.2)) then Some y else pScan i now rps
  | _, _ => None
  end.

Lemma pScan_data i now rps : aScan i now (dataof rps) = snd <$> pScan i now rps.
Proof.
  revert i. induction rps as [|[x d] rps IH]; intros [|i]; try done.
  change (dataof ((x, d) :: rps)) with (d :: dataof rps). cbn [aScan pScan snd].
  destruct (negb _); [done | apply IH].
Qed.

Lemma pScan_elem i now rps y : pScan i now rps = Some y → y ∈ rps.
Proof.
  revert i. induction rps as [|z rps IH]; intros [|i]; cbn; try done.
  destruct (negb _); [intros [= ->]; left|]. intros H. right. by eapply IH.
Qed.

Lemma scanTail_spec i now h ps n v :
  dll h None ps n →
  scanTail i now h (lastl None ps) v = from_option (λ y, Some y.1) v (pScan i now (reverse ps)).
Proof.
  revert i n. induction ps as [|[x d] ps IH] using rev_ind; intros [|i] n Hd; try done.
  apply dll_app in Hd as (H1 & H2 & _). rewrite lastl_app, reverse_app. cbn [lastl scanTail].
  rewrite H2. cbn [reverse rev_append app pScan e_data snd e_prev].
  destruct (negb _); [done|]. by eapply IH.
Qed.

Lemma lastl_last ps : lastl None ps = fst <$> last ps.
Proof.
  induction ps as [|[x d] ps _] using rev_ind; [done|].
  rewrite lastl_app, last_snoc. done.
Qed.

(** Picking the key of an element of the list finds that element. *)
Lemma pick_elem ps x d :
  NoDup (keysof ps) → (x, d) ∈ ps →
  ∃ a b, ps = a ++ (x, d) :: b ∧ pick (d_key d) (dataof ps) = Some (d, dataof (a ++ b)).
Proof.
  induction ps as [|[y e] ps IH]; intros Hnd Hin; [by apply not_elem_of_nil in Hin|].
  change (keysof ((y, e) :: ps)) with (d_key e :: keysof ps) in Hnd.
  apply NoDup_cons in Hnd as [He Hnd].
  change (dataof ((y, e) :: ps)) with (e :: dataof ps). cbn [pick].
  apply elem_of_cons in Hin as [[= <- <-]|Hin].
  - exists [], ps. by rewrite bool_decide_eq_true_2.
  - destruct (IH Hnd Hin) as (a & b & -> & Ep). exists ((y, e) :: a), b. split; [done|].
    rewrite bool_decide_eq_false_2, Ep; [done|]. intros Hk. apply He. rewrite Hk.
    unfold keysof. apply list_elem_of_fmap. exists (x, d). split; [done|]. clear. set_solver.
Qed.

Lemma dataof_reverse ps : reverse (dataof ps) = dataof (reverse ps).
Proof. unfold dataof. by rewrite fmap_reverse. Qed.

Lemma remove_elem_rep l ps x d :
  rep l ps → (x, d) ∈ ps →
  ∃ ps', rep (removeLocked x l) ps' ∧ from_option snd (dataof ps) (pick (d_key d) (dataof ps))
      = dataof ps' ∧ len ps' = len ps - 1 ∧ (∀ k, k ∈ keysof ps' → k ∈ keysof ps).
Proof.
  intros R Hin. destruct (pick_elem ps x d (rep_keys _ _ R) Hin) as (a & b & -> & Ep).
  exists (a ++ b). split; [by eapply remove_rep|]. split; [by rewrite Ep|]. split.
  - rewrite !len_app, len_cons. lia.
  - intros k. unfold keysof. rewrite !fmap_app. cbn. clear. set_solver.
Qed.

Lemma evict_rep l ps now :
  rep l ps → ps ≠ [] →
  ∃ ps', rep (evictLocked now l) ps' ∧ dataof ps' = aEvict now (dataof ps) ∧
    len ps' = len ps - 1 ∧ (∀ k, k ∈ keysof ps' → k ∈ keysof ps).
Proof.
  intros R Hne. unfold evictLocked, aEvict. destruct (rep_core _ _ R) as [Hd _ _ Htl].
  rewrite Htl, (scanTail_spec _ _ _ _ _ _ Hd), dataof_reverse, pScan_data.
  destruct (pScan 8 now (reverse ps)) as [[x d]|] eqn:Es; cbn [from_option fmap option_fmap option_map fst snd].
  - apply pScan_elem in Es. rewrite elem_of_reverse in Es.
    destruct (remove_elem_rep l ps x d R Es) as (ps' & R' & E & Hl & Hk). eauto 10.
  - rewrite lastl_last. destruct ps as [|[x d] ps _] using rev_ind; [done|].
    rewrite last_snoc. cbn [fmap option_fmap option_map fst].
    assert (Hlast : last (dataof (ps ++ [(x, d)])) = Some d)
      by (unfold dataof; rewrite fmap_app; apply last_snoc).
    rewrite Hlast.
    destruct (remove_elem_rep l (ps ++ [(x, d)]) x d R) as (ps' & R' & E & Hl & Hk); [set_solver|].
    eauto 10.
Qed.

Lemma dll_in_heap h p ps n x : dll h p ps n → x ∈ ps.*1 → is_Some (h !! x).
Proof.
  revert p. induction ps as [|[y d] ps IH]; intros p; cbn; [by rewrite elem_of_nil|].
  intros [H1 H2]. rewrite elem_of_cons. intros [-> |Hx]; [rewrite H1; eauto | by eapply IH].
Qed.

(** Linking a freshly allocated entry. *)
Lemma alloc_rep l ps key d :
  rep l ps → d_key d = key → key ∉ keysof ps →
  let e := fresh (dom (heap l)) in
  let l1 := l <| heap := <[e := mkEntry d None None]> (heap l) |>
              <| entries := <[key := e]> (entries l) |> in
  rep (pushFrontLocked e l1) ((e, d) :: ps).
Proof.
  intros [C R2 R3] Hk Hn e l1. destruct C as [C1 C2 C3 C4].
  assert (He : e ∉ dom (heap l)) by apply is_fresh.
  assert (Hx : e ∉ ps.*1).
  { intros Hin. apply He. apply elem_of_dom. by eapply dll_in_heap. }
  assert (C' : core l1 ps).
  { constructor; cbn; try done. eapply dll_frame; [|exact C1].
    intros x Hx'. apply lookup_insert_ne. by intros <-. }
  destruct (pushFront_core l1 ps e d None None C' Hx) as [C2' E]; [apply lookup_insert_eq|].
  constructor; [done | |].
  - change (keysof ((e, d) :: ps)) with (d_key d :: keysof ps). rewrite Hk. by apply NoDup_cons.
  - rewrite E. cbn. rewrite R3, Hk. done.
Qed.

(** The configuration never changes. *)
Definition cfg (l : t) : Z * Z * Z * Z := (maxFailures l, window l, lockout l, maxLockout l).

Lemma unlink_cfg x l : cfg (unlinkLocked x l) = cfg l.
Proof.
  unfold unlinkLocked. destruct (heap l !! x) as [en|]; [|done].
  destruct (e_prev en), (e_next en); repeat case_bool_decide; done.
Qed.

Lemma touch_cfg x l : cfg (touchLocked x l) = cfg l.
Proof.
  unfold touchLocked. case_bool_decide; [done|]. transitivity (cfg (unlinkLocked x l)); [done|].
  apply unlink_cfg.
Qed.

Lemma remove_cfg x l : cfg (removeLocked x l) = cfg l.
Proof. transitivity (cfg (unlinkLocked x l)); [done|]. apply unlink_cfg. Qed.

Lemma evict_cfg now l : cfg (evictLocked now l) = cfg l.
Proof. unfold evictLocked. destruct (scanTail _ _ _ _ _); [apply remove_cfg | done]. Qed.

Lemma insert_cfg key now l : cfg (insertLocked key now l).2 = cfg l.
Proof.
  unfold insertLocked. destruct (maxEntries <=? _); [|done].
  transitivity (cfg (evictLocked now l)); [done|]. apply evict_cfg.
Qed.

Lemma attemptEntry_cfg l l' now d : cfg l = cfg l' → attemptEntry l now d = attemptEntry l' now d.
Proof. intros [= H1 H2 H3 H4]. unfold attemptEntry, attemptOpen. by rewrite H1, H2, H3, H4. Qed.

Lemma attemptEntry_key l now d : d_key (attemptEntry l now d).2 = d_key d.
Proof.
  unfold attemptEntry, attemptOpen. cbn.
  destruct (d_lockedUntil d) as [u|]; [destruct (now <? u); [done|]|];
    destruct (window l <? _); cbn; destruct (_ <? maxFailures l); done.
Qed.

(** ** Each operation refines the abstract limiter *)

Lemma insert_rep l ps key now :
  rep l ps → key ∉ keysof ps →
  let '(e, l') := insertLocked key now l in
  ∃ ps', rep l' ((e, mkData key 0 now None 0 now) :: ps') ∧
    dataof ps' = (if maxEntries <=? len (dataof ps) then aEvict now (dataof ps) else dataof ps) ∧
    len ps' = (if maxEntries <=? len (dataof ps) then len ps - 1 else len ps).
Proof.
  intros R Hk. unfold insertLocked. rewrite (rep_size _ _ R).
  assert (Hlen : len (dataof ps) = len ps) by (unfold len, dataof; by rewrite length_fmap).
  rewrite Hlen. destruct (maxEntries <=? len ps) eqn:Hm; zbool.
  - destruct (evict_rep l ps now R) as (ps' & R' & Ed & El & Hks).
    { intros ->. unfold len, maxEntries in Hm. cbn in Hm. lia. }
    exists ps'. split; [|done]. apply (alloc_rep _ ps' key (mkData key 0 now None 0 now)); [done | done |].
    intros Hin. by apply Hk, Hks.
  - exists ps. split; [|done]. by apply (alloc_rep _ ps key (mkData key 0 now None 0 now)).
Qed.

Lemma set_head_rep l x d ps f :
  rep l ((x, d) :: ps) → d_key (f d) = d_key d →
  rep (l <| heap := set_data x f (heap l) |>) ((x, f d) :: ps).
Proof.
  intros R Hk. apply (rep_touch l _ [] x d ps (f d)); [done | | done | done].
  apply (set_data_core l [] x d ps f), R.
Qed.

Lemma Success_rep l ps key :
  rep l ps → ∃ ps', rep (Success key l) ps' ∧ dataof ps' = aSuccess key (dataof ps) ∧
    len ps' ≤ len ps.
Proof.
  intros R. pose proof (lookup_pick l ps key R) as Hp. unfold Success, aSuccess.
  destruct (pick key (dataof ps)) as [[d r]|].
  - destruct Hp as (a & x & b & -> & -> & Hk & ->). exists (a ++ b).
    split; [by eapply remove_rep|]. split; [done|]. rewrite !len_app, len_cons. lia.
  - destruct Hp as [-> _]. exists ps. split_and!; [done | done | lia].
Qed.

Lemma Allow_rep l ps key now :
  rep l ps →
  ∃ ps', rep (Allow key now l).2 ps' ∧
    ((Allow key now l).1, dataof ps') = aAllow key now (dataof ps) ∧ len ps' = len ps.
Proof.
  intros R. pose proof (lookup_pick l ps key R) as Hp. unfold Allow, aAllow.
  destruct (pick key (dataof ps)) as [[d r]|]; [|destruct Hp as [-> _]; by exists ps].
  destruct Hp as (a & x & b & -> & -> & Hk & ->).
  set (f := λ d : edata, d <| d_lastSeen := now |>).
  set (l1 := l <| heap := set_data x f (heap l) |>).
  pose proof (set_data_core l a x d b f (rep_core _ _ R)) as C1. fold l1 in C1.
  destruct (touch_core l1 a x (f d) b C1) as [C2 E2].
  assert (R2 : rep (touchLocked x l1) ((x, f d) :: a ++ b)).
  { by apply (rep_touch l _ a x d b (f d)). }
  rewrite (core_entry (touchLocked x l1) [] x (f d) (a ++ b) C2). cbn [e_data].
  change (d_lockedUntil (f d)) with (d_lockedUntil d).
  assert (Hl : len ((x, f d) :: a ++ b) = len (a ++ (x, d) :: b))
    by (rewrite len_cons, !len_app, len_cons; lia).
  exists ((x, f d) :: a ++ b).
  destruct (d_lockedUntil d) as [u|] eqn:Eu; cbn [update d_lockedUntil]; rewrite ?Eu;
    [destruct (now <? u)|]; done.
Qed.

Lemma Attempt_rep l ps key now :
  rep l ps →
  ∃ ps', rep (Attempt key now l).2 ps' ∧
    ((Attempt key now l).1, dataof ps') = aAttempt l key now (dataof ps) ∧
    (len ps ≤ maxEntries → len ps' ≤ maxEntries).
Proof.
  intros R. pose proof (lookup_pick l ps key R) as Hp. unfold Attempt, aAttempt.
  assert (Hfin : ∀ l1 x d ps1, rep l1 ((x, d) :: ps1) → cfg l1 = cfg l →
    let p := match heap l1 !! x with
             | Some en => let '(ok, retry, hook, d) := attemptEntry l1 now (e_data en) in
                 (ok, retry, hook, l1 <| heap := set_data x (λ _, d) (heap l1) |>)
             | None => (true, 0, None, l1)
             end in
    ∃ d', rep p.2 ((x, d') :: ps1) ∧ (p.1, d') = attemptEntry l now d).
  { intros l1 x d ps1 R1 Hc.
    rewrite (core_entry l1 [] x d ps1 (rep_core _ _ R1)). cbn [e_data].
    rewrite (attemptEntry_cfg l1 l now d Hc). pose proof (attemptEntry_key l now d) as Hk.
    destruct (attemptEntry l now d) as [[[ok retry] hook] d']. exists d'. split; [|done].
    by apply (set_head_rep l1 x d ps1 (λ _, d')). }
  destruct (pick key (dataof ps)) as [[d r]|].
  - destruct Hp as (a & x & b & -> & -> & Hk & ->).
    destruct (touch_core l a x d b (rep_core _ _ R)) as [C2 E2].
    destruct (Hfin (touchLocked x l) x d (a ++ b)) as (d' & R' & E').
    { by apply (rep_touch l _ a x d b d). } { apply touch_cfg. }
    rewrite <- E'. exists ((x, d') :: a ++ b). split; [exact R'|].
    destruct (match heap (touchLocked x l) !! x with Some _ => _ | None => _ end)
      as [[[ok retry] hook] l2]. split; [done|].
    rewrite len_cons, !len_app, len_cons. lia.
  - destruct Hp as [-> Hk]. pose proof (insert_rep l ps key now R Hk) as Hi.
    pose proof (insert_cfg key now l) as Hc. destruct (insertLocked key now l) as [e l1].
    destruct Hi as (ps1 & R1 & Ed & El). cbn [snd] in Hc.
    destruct (Hfin l1 e _ ps1 R1 Hc) as (d' & R' & E'). rewrite <- E', <- Ed.
    exists ((e, d') :: ps1). split; [exact R'|].
    destruct (match heap l1 !! e with Some _ => _ | None => _ end) as [[[ok retry] hook] l2].
    split; [done|]. assert (Hl : len (dataof ps) = len ps) by (unfold len, dataof; by rewrite length_fmap).
    rewrite len_cons, El, Hl. destruct (maxEntries <=? len ps) eqn:Hm; zbool; lia.
Qed.

(** ** Sequences of operations *)

Inductive op := OAttempt (key : string) (now : Z) | OAllow (key : string) (now : Z) | OSuccess (key : string).

(** (may proceed, retry after, OnLockout event) *)
Definition answer : Type := bool * Z * option (string * Z * Z).

Definition exec (o : op) (l : t) : answer * t :=
  match o with
  | OAttempt key now => let '(ok, retry, hook, l) := Attempt key now l in (ok, retry, hook, l)
  | OAllow key now => let '(ok, retry, l) := Allow key now l in (ok, retry, None, l)
  | OSuccess key => (true, 0, None, Success key l)
  end.

Definition aexec (l : t) (o : op) (ds : list edata) : answer * list edata :=
  match o with
  | OAttempt key now => let '(ok, retry, hook, ds) := aAttempt l key now ds in (ok, retry, hook, ds)
  | OAllow key now => let '(ok, retry, ds) := aAllow key now ds in (ok, retry, None, ds)
  | OSuccess key => (true, 0, None, aSuccess key ds)
  end.

Fixpoint runs {S} (f : op → S → answer * S) (ops : list op) (s : S) : list answer * S :=
  match ops with
  | [] => ([], s)
  | o :: ops => let '(a, s) := f o s in let '(l, s) := runs f ops s in (a :: l, s)
  end.

Lemma Allow_cfg key now l : cfg (Allow key now l).2 = cfg l.
Proof.
  unfold Allow. destruct (entries l !! key) as [e|]; [|done].
  set (l1 := l <| heap := _ |>). pose proof (touch_cfg e l1) as H.
  destruct (heap (touchLocked e l1) !! e) as [en|]; [|done].
  destruct (d_lockedUntil (e_data en)) as [u|]; [destruct (now <? u)|]; done.
Qed.

Lemma Attempt_cfg key now l : cfg (Attempt key now l).2 = cfg l.
Proof.
  unfold Attempt. destruct (entries l !! key) as [e|].
  - pose proof (touch_cfg e l) as H. destruct (heap (touchLocked e l) !! e); [|done].
    by destruct (attemptEntry _ _ _) as [[[? ?] ?] ?].
  - pose proof (insert_cfg key now l) as H. destruct (insertLocked key now l) as [e l1].
    destruct (heap l1 !! e); [|done]. by destruct (attemptEntry _ _ _) as [[[? ?] ?] ?].
Qed.

Lemma Success_cfg key l : cfg (Success key l) = cfg l.
Proof. unfold Success. destruct (entries l !! key); [apply remove_cfg | done]. Qed.

Lemma aAttempt_cfg l l' key now ds : cfg l = cfg l' → aAttempt l key now ds = aAttempt l' key now ds.
Proof.
  intros Hc. unfold aAttempt. destruct (pick key ds) as [[d r]|];
    by rewrite (attemptEntry_cfg l l' now _ Hc).
Qed.

Lemma limiter_exec_rep l0 l ps o :
  rep l ps → cfg l = cfg l0 → len ps ≤ maxEntries →
  ∃ ps', rep (exec o l).2 ps' ∧ ((exec o l).1, dataof ps') = aexec l0 o (dataof ps) ∧
    len ps' ≤ maxEntries ∧ cfg (exec o l).2 = cfg l0.
Proof.
  intros R Hc Hm. destruct o as [key now|key now|key]; cbn [exec aexec].
  - destruct (Attempt_rep l ps key now R) as (ps' & R' & E & Hl).
    rewrite <- (aAttempt_cfg l l0 key now (dataof ps) Hc), <- E.
    pose proof (Attempt_cfg key now l) as Hc'.
    destruct (Attempt key now l) as [[[ok retry] hook] l']. exists ps'. cbn in *.
    split_and!; [done | done | by apply Hl | congruence].
  - destruct (Allow_rep l ps key now R) as (ps' & R' & E & Hl). rewrite <- E.
    pose proof (Allow_cfg key now l) as Hc'.
    destruct (Allow key now l) as [[ok retry] l']. exists ps'. cbn in *.
    split_and!; [done | done | lia | congruence].
  - destruct (Success_rep l ps key R) as (ps' & R' & E & Hl). exists ps'. cbn.
    split_and!; [done | by rewrite E | lia | by rewrite Success_cfg].
Qed.

Lemma limiter_runs_rep l0 ops l ps :
  rep l ps → cfg l = cfg l0 → len ps ≤ maxEntries →
  ∃ ps', rep (runs exec ops l).2 ps' ∧
    ((runs exec ops l).1, dataof ps') = runs (aexec l0) ops (dataof ps) ∧ len ps' ≤ maxEntries.
Proof.
  revert l ps. induction ops as [|o ops IH]; intros l ps R Hc Hm; [by exists ps|].
  destruct (limiter_exec_rep l0 l ps o R Hc Hm) as (ps1 & R1 & E1 & M1 & C1). cbn [runs].
  rewrite <- E1. destruct (exec o l) as [a l1]. cbn [fst snd] in *.
  destruct (IH l1 ps1 R1 C1 M1) as (ps2 & R2 & E2 & M2). rewrite <- E2.
  destruct (runs exec ops l1) as [as2 l2]. by exists ps2.
Qed.

Lemma NewLimiter_rep f w o : rep (NewLimiter f w o) [].
Proof. constructor; [constructor | | done]; try done; apply NoDup_nil_2. Qed.

(** ** Lockout *)

(** Repeated attempts on one entry. *)
Fixpoint attempts (l : t) (ts : list Z) (d : edata) : list answer * edata :=
  match ts with
  | [] => ([], d)
  | now :: ts =>
      let '(ok, retry, hook, d) := attemptEntry l now d in
      let '(as_, d) := attempts l ts d in ((ok, retry, hook) :: as_, d)
  end.

(** Attempts on one key only touch its entry. *)
Lemma runs_attempts l0 key ts d r :
  d_key d = key →
  runs (aexec l0) (OAttempt key <$> ts) (d :: r)
    = ((attempts l0 ts d).1, (attempts l0 ts d).2 :: r).
Proof.
  revert d. induction ts as [|now ts IH]; intros d Hk; [done|].
  rewrite fmap_cons. cbn [runs aexec attempts]. unfold aAttempt. cbn [pick].
  rewrite bool_decide_eq_true_2 by done. pose proof (attemptEntry_key l0 now d) as Hk'.
  destruct (attemptEntry l0 now d) as [[[ok retry] hook] d']. cbn in Hk'.
  rewrite IH by congruence. by destruct (attempts l0 ts d').
Qed.


(** The entry the first attempt at [now] finds or creates. *)
Definition entry_at (key : string) (now : Z) (ds : list edata) : edata :=
  match pick key ds with Some (d, _) => d | None => mkData key 0 now None 0 now end.

Lemma pick_key key ds d r : pick key ds = Some (d, r) → d_key d = key.
Proof.
  revert r. induction ds as [|e ds IH]; intros r; cbn [pick]; [done|].
  case_bool_decide; [by intros [= <- _]|].
  destruct (pick key ds) as [[d' r']|]; cbn; [|done]. intros [= <- _]. by eapply IH.
Qed.

Lemma runs_attempts_any l0 key now ts ds :
  let d := entry_at key now ds in
  ∃ r, runs (aexec l0) (OAttempt key <$> now :: ts) ds
    = ((attempts l0 (now :: ts) d).1, (attempts l0 (now :: ts) d).2 :: r).
Proof.
  unfold entry_at. rewrite fmap_cons. cbn [runs aexec attempts]. unfold aAttempt.
  assert (Hd : ∀ d r, d_key d = key → ∃ r0,
    (let '(a, s) := let '(ok, retry, hook, ds0) :=
        let '(ok, retry, hook, d0) := attemptEntry l0 now d in (ok, retry, hook, d0 :: r) in
        (ok, retry, hook, ds0) in
     let '(l, s0) := runs (aexec l0) (OAttempt key <$> ts) s in (a :: l, s0)) =
    ((let '(ok, retry, hook, d0) := attemptEntry l0 now d in
      let '(as_, d1) := attempts l0 ts d0 in ((ok, retry, hook) :: as_, d1)).1,
     (let '(ok, retry, hook, d0) := attemptEntry l0 now d in
      let '(as_, d1) := attempts l0 ts d0 in ((ok, retry, hook) :: as_, d1)).2 :: r0)).
  { intros d r Hk. exists r. pose proof (attemptEntry_key l0 now d) as Hk'.
    destruct (attemptEntry l0 now d) as [[[ok retry] hook] d']. cbn in Hk'.
    rewrite runs_attempts by congruence. by destruct (attempts l0 ts d'). }
  destruct (pick key ds) as [[d r]|] eqn:Ep; [|by apply Hd].
  apply Hd. by eapply pick_key.
Qed.

(** Attempts that neither find the entry locked nor close its window. *)
Definition quiet (l : t) (d : edata) (now : Z) : Prop :=
  locked now (d_lockedUntil d) = false ∧ now - d_windowStart d ≤ window l.

Lemma attemptEntry_quiet l d now :
  quiet l d now → attemptEntry l now d = attemptOpen l now (d <| d_lastSeen := now |>).
Proof.
  intros [Hu _]. unfold attemptEntry. cbn. unfold locked in Hu.
  destruct (d_lockedUntil d) as [u|]; [by rewrite Hu | done].
Qed.

Lemma attempts_pass l ts d :
  Forall (quiet l d) ts → d_failures d + len ts < maxFailures l →
  (attempts l ts d).1 = replicate (length ts) (true, 0, None) ∧
  d_failures (attempts l ts d).2 = d_failures d + len ts ∧
  d_key (attempts l ts d).2 = d_key d ∧
  d_windowStart (attempts l ts d).2 = d_windowStart d ∧
  d_lockedUntil (attempts l ts d).2 = d_lockedUntil d ∧
  d_lockouts (attempts l ts d).2 = d_lockouts d.
Proof.
  revert d. induction ts as [|now ts IH]; intros d Hq Hf.
  { cbn. rewrite Z.add_0_r. done. }
  inversion Hq as [|? ? Hq1 Hq2]; subst. rewrite len_cons in *. pose proof (len_nonneg ts).
  cbn [attempts]. rewrite (attemptEntry_quiet l d now Hq1). unfold attemptOpen. cbn.
  destruct Hq1 as [_ Hw]. rewrite (proj2 (Z.ltb_ge _ _) Hw). cbn.
  rewrite (proj2 (Z.ltb_lt _ (maxFailures l))) by lia.
  match goal with |- context [attempts l ts ?x] => set (d1 := x) end.
  destruct (IH d1) as (I1 & I2 & I3 & I4 & I5 & I6).
  { eapply Forall_impl; [exact Hq2|]. by intros x [? ?]. }
  { cbn. lia. }
  destruct (attempts l ts d1) as [as_ d2]. cbn in *.
  split_and!; try done; [by f_equal | lia].
Qed.

Lemma attempts_app l ts1 ts2 d :
  attempts l (ts1 ++ ts2) d =
    ((attempts l ts1 d).1 ++ (attempts l ts2 (attempts l ts1 d).2).1,
     (attempts l ts2 (attempts l ts1 d).2).2).
Proof.
  revert d. induction ts1 as [|now ts1 IH]; intros d; cbn [app attempts].
  { cbn [fst snd app]. by destruct (attempts l ts2 d). }
  destruct (attemptEntry l now d) as [[[ok retry] hook] d']. rewrite IH.
  by destruct (attempts l ts1 d') as [as_ d1].
Qed.

(** ... and the one that reaches the limit locks the entry. *)
Lemma attempts_lock l ts d tlast :
  Forall (quiet l d) (ts ++ [tlast]) → d_failures d = 0 → len ts + 1 = maxFailures l →
  let D := backoff (lockout l) (maxLockout l) (d_lockouts d) in
  (attempts l (ts ++ [tlast]) d).1
    = replicate (length ts) (true, 0, None) ++ [(false, D, Some (d_key d, maxFailures l, D))] ∧
  (attempts l (ts ++ [tlast]) d).2
    = mkData (d_key d) 0 tlast (Some (tlast + D)) (d_lockouts d + 1) tlast.
Proof.
  rewrite Forall_app, Forall_singleton. intros [Hq1 Hq2] Hf Hlen D. rewrite attempts_app.
  destruct (attempts_pass l ts d Hq1) as (I1 & I2 & I3 & I4 & I5 & I6); [lia|].
  destruct (attempts l ts d) as [as_ d1]. cbn [fst snd] in *. subst as_.
  cbn [attempts]. destruct Hq2 as [Hu Hw].
  rewrite attemptEntry_quiet by (split; [by rewrite I5 | by rewrite I4]).
  unfold attemptOpen. cbn. rewrite I4, (proj2 (Z.ltb_ge _ _) Hw). cbn.
  rewrite (proj2 (Z.ltb_ge _ (maxFailures l))) by lia. cbn. rewrite I3, I6. split; [done|].
  rewrite <- I3. reflexivity.
Qed.

(** While nothing overflows, the backoff doubles up to the cap. *)
Lemma backoff_doubles lo mx k :
  0 < lo → 0 ≤ k → lo * 2 ^ k < 2 ^ 63 → backoff lo mx k = Z.min (lo * 2 ^ k) mx.
Proof.
  intros Hlo Hk Hb. unfold backoff. rewrite Z.shiftl_mul_pow2 by done.
  assert (0 < 2 ^ k) by (apply Z.pow_pos_nonneg; lia).
  assert (0 < lo * 2 ^ k) by (apply Z.mul_pos_pos; lia).
  rewrite i64_small by lia. rewrite (proj2 (Z.leb_gt _ 0)) by lia. rewrite orb_false_r.
  destruct (Z.ltb_spec mx (lo * 2 ^ k)); lia.
Qed.

(** ** Properties *)

(** C19. Refinement: any sequence of attempts, checks and successes on a fresh limiter
    gives the answers and lockout events of the abstract limiter - a list of entries,
    most recently used first, where a new key at the 100000-entry cap replaces the
    least recently used entry, preferring an unlocked one among the last eight - with
    the pointers spelling exactly that list, the map indexing it, and never more than
    100000 entries. *)
Theorem limiter_refines (maxFailures window lockout : Z) (ops : list op) :
  let l0 := NewLimiter maxFailures window lockout in
  ∃ ps, rep (runs exec ops l0).2 ps ∧
    ((runs exec ops l0).1, dataof ps) = runs (aexec l0) ops [] ∧
    Z.of_nat (size (entries (runs exec ops l0).2)) ≤ maxEntries.
Proof.
  intros l0. destruct (limiter_runs_rep l0 ops l0 []) as (ps & R & E & Hl);
    [apply NewLimiter_rep | done | done |].
  exists ps. split; [done|]. split; [done|]. by rewrite (rep_size _ _ R).
Qed.

(** Lockout: in any limiter state, a burst of maxFailures attempts on a key - the
    last at [tlast], none while it is locked or after its window - is allowed except
    for the last, which locks the key and fires the lockout event once; from then on
    every attempt and every check before the lockout ends is refused with exactly the
    time left.  The lockout is the base doubled per consecutive lockout and capped, as
    long as the doubling fits in 63 bits. *)
Theorem limiter_lockout (l : t) (ps : list (loc * edata)) (key : string) (t1 : Z) (ts : list Z)
    (tlast now : Z) :
  rep l ps → len ps ≤ maxEntries →
  let d := entry_at key t1 (dataof ps) in
  let D := backoff (lockout l) (maxLockout l) (d_lockouts d) in
  Forall (quiet l d) (t1 :: ts ++ [tlast]) → d_failures d = 0 → len ts + 2 = maxFailures l →
  now < tlast + D →
  let '(answers, l') := runs exec (OAttempt key <$> (t1 :: ts ++ [tlast])) l in
  answers = replicate (S (length ts)) (true, 0, None)
              ++ [(false, D, Some (key, maxFailures l, D))] ∧
  (Attempt key now l').1 = (false, tlast + D - now, None) ∧
  (Allow key now l').1 = (false, tlast + D - now) ∧
  (0 < lockout l → 0 ≤ d_lockouts d → lockout l * 2 ^ d_lockouts d < 2 ^ 63 →
    D = Z.min (lockout l * 2 ^ d_lockouts d) (maxLockout l)).
Proof.
  intros R Hm d D Hq Hf Hlen Hnow.
  destruct (limiter_runs_rep l (OAttempt key <$> (t1 :: ts ++ [tlast])) l ps R eq_refl Hm) as (ps' & R' & E & _).
  destruct (runs_attempts_any l key t1 (ts ++ [tlast]) (dataof ps)) as [r Er]. fold d in Er.
  destruct (attempts_lock l (t1 :: ts) d tlast) as [A1 A2]; [done | done | rewrite len_cons; lia |].
  cbn [app] in A1, A2. fold D in A1, A2. rewrite A1, A2 in Er. rewrite Er in E.
  assert (Hk : d_key d = key).
  { unfold d, entry_at. destruct (pick key (dataof ps)) as [[d0 r0]|] eqn:Ep; [|done].
    by eapply pick_key. }
  rewrite Hk in E. destruct (runs exec _ l) as [answers l']. cbn [fst snd] in *.
  injection E as -> Ed.
  set (d' := mkData key 0 tlast (Some (tlast + D)) (d_lockouts d + 1) tlast) in *.
  assert (Hpick : pick key (dataof ps') = Some (d', r)).
  { rewrite Ed. cbn [pick]. by rewrite bool_decide_eq_true_2. }
  split; [done|]. split; [|split].
  - destruct (Attempt_rep l' ps' key now R') as (ps2 & _ & E2 & _).
    unfold aAttempt in E2. rewrite Hpick in E2. unfold attemptEntry in E2. cbn in E2.
    rewrite (proj2 (Z.ltb_lt _ _) Hnow) in E2. by injection E2.
  - destruct (Allow_rep l' ps' key now R') as (ps2 & _ & E2 & _).
    unfold aAllow in E2. rewrite Hpick in E2. cbn in E2.
    rewrite (proj2 (Z.ltb_lt _ _) Hnow) in E2. by injection E2.
  - intros H1 H2 H3. by apply backoff_doubles.
Qed.

Lemma limiter_lockout_witness :
  let '(answers, l') := runs exec (OAttempt "ip:203.0.113.9" <$> (0 :: [1] ++ [2])) (NewLimiter 3 100 10) in
  answers = replicate 2 (true, 0, None) ++ [(false, 10, Some ("ip:203.0.113.9"%string, 3, 10))] ∧
  (Attempt "ip:203.0.113.9" 5 l').1 = (false, 2 + 10 - 5, None) ∧
  (Allow "ip:203.0.113.9" 5 l').1 = (false, 2 + 10 - 5) ∧
  (0 < 10 → 0 ≤ 0 → 10 * 2 ^ 0 < 2 ^ 63 → 10 = Z.min (10 * 2 ^ 0) hour).
Proof.
  apply (limiter_lockout (NewLimiter 3 100 10) [] "ip:203.0.113.9" 0 [1] 2 5).
  - apply NewLimiter_rep.
  - done.
  - repeat (apply List.Forall_cons || apply List.Forall_nil); split; vm_compute; (reflexivity || discriminate).
  - done.
  - done.
  - vm_compute; reflexivity.
Defined.

(** The doubling is an int64 shift guarded only against a non-positive result, so
    it can wrap to a small positive duration: with a base of 2^34 + 1 ns the
    thirtieth consecutive lockout lasts one hour and the next about one second. *)
Theorem lockout_shift_wraps :
  backoff (2 ^ 34 + 1) hour 29 = hour ∧ backoff (2 ^ 34 + 1) hour 30 = 2 ^ 30.
Proof. split; vm_compute; reflexivity. Qed.

End Limiter.
