(* ===== verification/Fairness.v ===== *)
(** * Per-tenant fairness gate (internal/fairness/fairness.go)

    The Gate bounds what each tenant may ingest (token buckets that may run a
    deficit) and query (an in-flight cap and a budget).  Its per-tenant states are
    heap objects reached from the maps of 32 shards; the closure BeginQuery returns
    and the goroutine policyFor starts keep referring to them, so both are part of the
    modelled state and every interleaving of them is a sequence of [event]s.  An
    instant is a number of nanoseconds; [clk i] is the i-th reading of the clock in a
    call. *)
From S2P Require Import Prelude GoTime GoFloat GoHash.

Module Fairness.

#[local] Open Scope string_scope.
#[local] Open Scope Z_scope.

(** ** Policies *)

Definition MeterResults := "results_ingested".
Definition MeterEntityEvidence := "entity_evidence".
Definition MeterEntityEvidenceBytes := "entity_evidence_bytes".
Definition MeterFlowEvents := "flow_events".
Definition MeterNDRFlowEvents := "ndr_flow_events".
Definition MeterBytes := "ingest_bytes".
Definition MeterDeviceMetrics := "device_metrics".
Definition MeterOTLPSeries := "otlp_series".
Definition meterQueries := "queries".

Record Policy := mkPolicy {
  ResultsPerSec : float64;
  FlowEventsPerSec : float64;
  IngestBytesPerSec : float64;
  DeviceMetricsPerSec : float64;
  OTLPSeriesPerSec : float64;
  BurstSeconds : float64;
  QueryConcurrency : Z;
  QueriesPerMin : float64;
  Weight : Z
}.

#[export] Instance Policy_eq_dec : EqDecision Policy.
Proof. solve_decision. Defined.

Definition zero_policy : Policy :=
  mkPolicy (f64 0) (f64 0) (f64 0) (f64 0) (f64 0) (f64 0) 0 (f64 0) 0.

Definition DefaultPolicy : Policy :=
  mkPolicy (f64 1000) (f64 10000) (f64 (Z.shiftl 2 20)) (f64 2000) (f64 5000) (f64 10)
    0 (f64 0) 0.

Definition merged (p def : Policy) : Policy :=
  let orF (x d : float64) := if feqb x (f64 0) then d else x in
  let orZ (x d : Z) := if x =? 0 then d else x in
  let burst := orF (BurstSeconds p) (BurstSeconds def) in
  mkPolicy
    (orF (ResultsPerSec p) (ResultsPerSec def))
    (orF (FlowEventsPerSec p) (FlowEventsPerSec def))
    (orF (IngestBytesPerSec p) (IngestBytesPerSec def))
    (orF (DeviceMetricsPerSec p) (DeviceMetricsPerSec def))
    (orF (OTLPSeriesPerSec p) (OTLPSeriesPerSec def))
    (if fleb burst (f64 0) then f64 10 else burst)
    (orZ (QueryConcurrency p) (QueryConcurrency def))
    (orF (QueriesPerMin p) (QueriesPerMin def))
    (orZ (Weight p) (Weight def)).

Definition meter_in (meter : string) (l : list string) : bool := bool_decide (meter ∈ l).

Definition rateFor (p : Policy) (meter : string) : float64 :=
  if meter_in meter [MeterResults; MeterEntityEvidence] then ResultsPerSec p
  else if meter_in meter [MeterFlowEvents; MeterNDRFlowEvents] then FlowEventsPerSec p
  else if meter_in meter [MeterBytes; MeterEntityEvidenceBytes] then IngestBytesPerSec p
  else if meter_in meter [MeterDeviceMetrics] then DeviceMetricsPerSec p
  else if meter_in meter [MeterOTLPSeries] then OTLPSeriesPerSec p
  else if meter_in meter [meterQueries] then fdiv (QueriesPerMin p) (f64 60)
  else f64 0.

(** ** State *)

Record Counters := mkCounters {
  AdmittedCalls : Z; AdmittedUnits : Z; ShedCalls : Z; ShedUnits : Z }.

Record QueryCounters := mkQueries {
  Allowed : Z; RejectedConcurrency : Z; RejectedBudget : Z; InFlight : Z }.

Record bucket := mkBucket { tokens : float64; last : Z }.

(** [policyFetched] is [None] for the zero time. *)
Record tenantState := mkTenant {
  buckets : gmap string bucket;
  ingest : gmap string Counters;
  queries : QueryCounters;
  policy : Policy;
  policyFetched : option Z;
  policyKnown : bool;
  policyFetching : bool;
  policyFetchInvalidated : bool;
  lastSeen : Z
}.

#[export] Instance Counters_eta : Eta Counters := λ c,
  mkCounters (AdmittedCalls c) (AdmittedUnits c) (ShedCalls c) (ShedUnits c).
#[export] Instance QueryCounters_eta : Eta QueryCounters := λ q,
  mkQueries (Allowed q) (RejectedConcurrency q) (RejectedBudget q) (InFlight q).
#[export] Instance tenantState_eta : Eta tenantState := λ s,
  mkTenant (buckets s) (ingest s) (queries s) (policy s) (policyFetched s) (policyKnown s)
    (policyFetching s) (policyFetchInvalidated s) (lastSeen s).

Definition gateShards : nat := 32.
Definition DefaultGateIdleTTL : Z := 24 * Hour.
Definition gateSweepInterval : Z := Minute.

(** Pointers to tenant states. *)
Definition loc : Type := positive.

Record gateShard := mkShard { tenants : gmap string loc; lastSweep : option Z }.

(** [source]: whether a policy source is configured.  [heap] holds the tenant states,
    evicted ones included while something still points at them. *)
Record Gate := mkGate {
  defaults : Policy;
  source : bool;
  policyTTL : Z;
  idleTTL : Z;
  shards : list gateShard;
  evicted : Z;
  heap : gmap loc tenantState
}.

#[export] Instance gateShard_eta : Eta gateShard := λ s, mkShard (tenants s) (lastSweep s).
#[export] Instance Gate_eta : Eta Gate := λ g,
  mkGate (defaults g) (source g) (policyTTL g) (idleTTL g) (shards g) (evicted g) (heap g).

Definition NewGate (defs : Policy) (src : bool) : Gate :=
  mkGate (merged defs zero_policy) src Minute DefaultGateIdleTTL
    (replicate gateShards (mkShard ∅ None)) 0 ∅.

Definition WithIdleTTL (d : Z) (g : Gate) : Gate := if 0 <? d then g <| idleTTL := d |> else g.

Definition WithPolicyTTL (d : Z) (g : Gate) : Gate := if 0 <? d then g <| policyTTL := d |> else g.

(** The FNV-1a hash of the id picks the shard. *)
Definition shardFor (tenantID : string) : nat :=
  Z.to_nat (fnv1a32 (string_bytes tenantID) mod Z.of_nat gateShards).

(** [a.Sub(b)] saturates. *)
Definition satSub (a b : Z) : Z := Z.max (- 2 ^ 63) (Z.min (2 ^ 63 - 1) (a - b)).
Definition since (now : Z) (t : option Z) : Z :=
  match t with Some u => satSub now u | None => 2 ^ 63 - 1 end.

Definition shard_at (g : Gate) (i : nat) : gateShard := default (mkShard ∅ None) (shards g !! i).

Definition newTenant (now : Z) : tenantState :=
  mkTenant ∅ ∅ (mkQueries 0 0 0 0) zero_policy None false false false now.

(** A new state is allocated at an address that is not in use. *)
Definition state (i : nat) (tenantID : string) (now : Z) (g : Gate) : loc * Gate :=
  match tenants (shard_at g i) !! tenantID with
  | Some p => (p, g)
  | None =>
      let p := fresh (dom (heap g)) in
      let sh := shard_at g i in
      (p, g <| heap := <[p := newTenant now]> (heap g) |>
            <| shards := <[i := sh <| tenants := <[tenantID := p]> (tenants sh) |>]> (shards g) |>)
  end.

(** Reading and writing through a state pointer. *)
Definition load (p : loc) (g : Gate) : tenantState := default (newTenant 0) (heap g !! p).
Definition store (p : loc) (st : tenantState) (g : Gate) : Gate :=
  g <| heap := <[p := st]> (heap g) |>.

Definition idle (ttl now : Z) (st : tenantState) : bool :=
  negb (policyFetching st || (0 <? InFlight (queries st))) && (lastSeen st <? now - ttl).

Definition sweepShardLocked (i : nat) (now : Z) (g : Gate) : Gate :=
  let sh := shard_at g i in
  if since now (lastSweep sh) <? gateSweepInterval then g else
  let keep := filter (λ kv : string * loc, idle (idleTTL g) now (load kv.2 g) = false)
                (tenants sh) in
  g <| shards := <[i := mkShard keep (Some now)]> (shards g) |>
    <| evicted := u64 (evicted g + (Z.of_nat (size (tenants sh)) - Z.of_nat (size keep))) |>.

(** ** Policy cache

    The returned flag says that a refresh goroutine was started. *)
Definition policyFor (g : Gate) (now1 now2 now3 : Z) (st : tenantState)
    : Policy * bool * tenantState :=
  if policyKnown st && (since now1 (policyFetched st) <? policyTTL g)
  then (policy st, false, st) else
  let st :=
    if policyKnown st then st
    else st <| policy := defaults g |> <| policyKnown := true |> <| policyFetched := Some now2 |> in
  if source g && negb (policyFetching st)
  then (policy st, true, st <| policyFetching := true |>)
  else if negb (source g)
  then (policy st, false, st <| policyFetched := Some now3 |>)
  else (policy st, false, st).

(** The part of refresh under the lock; [over] is the override the source returned,
    [None] when it had none or failed. *)
Definition refresh (tenantID : string) (over : option Policy) (clk : nat → Z) (g : Gate) : Gate :=
  let eff := match over with Some p => merged p (defaults g) | None => defaults g end in
  let '(p, g) := state (shardFor tenantID) tenantID (clk 0%nat) g in
  let st := (load p g) <| policyFetching := false |> in
  if policyFetchInvalidated st
  then store p (st <| policyFetchInvalidated := false |> <| policyKnown := false |>) g
  else store p (st <| policy := eff |> <| policyKnown := true |>
                  <| policyFetched := Some (clk 1%nat) |>) g.

Definition EffectivePolicy (tenantID : string) (clk : nat → Z) (g : Gate)
    : Policy * bool * Gate :=
  let '(p, g) := state (shardFor tenantID) tenantID (clk 0%nat) g in
  let '(pol, spawn, st) := policyFor g (clk 1%nat) (clk 2%nat) (clk 3%nat) (load p g) in
  (pol, spawn, store p st g).

Definition Invalidate (tenantID : string) (g : Gate) : Gate :=
  match tenants (shard_at g (shardFor tenantID)) !! tenantID with
  | None => g
  | Some p =>
      let st := (load p g) <| policyKnown := false |> in
      store p (if policyFetching st then st <| policyFetchInvalidated := true |> else st) g
  end.

(** ** Buckets *)

Definition takeWithDeficit (meter : string) (rate capacity : float64) (n : Z)
    (allowDeficit : bool) (now : Z) (st : tenantState) : bool * tenantState :=
  if fleb rate (f64 0) then (true, st) else
  let b := default (mkBucket capacity now) (buckets st !! meter) in
  let tk := fadd (tokens b) (fmul (Seconds (satSub now (last b))) rate) in
  let tk := if fltb capacity tk then capacity else tk in
  if (negb allowDeficit && fltb tk (f64 n)) || (allowDeficit && fleb tk (f64 0))
  then (false, st <| buckets := <[meter := mkBucket tk now]> (buckets st) |>)
  else (true, st <| buckets := <[meter := mkBucket (fsub tk (f64 n)) now]> (buckets st) |>).

Definition take (meter : string) (rate capacity : float64) (n : Z) (now : Z) (st : tenantState)
    : bool * tenantState :=
  takeWithDeficit meter rate capacity n false now st.

(** ** Admission of ingest *)

(** The work of AdmitN on the tenant's state. *)
Definition admitState (g : Gate) (meter : string) (n : Z) (clk : nat → Z) (st : tenantState)
    : bool * bool * tenantState :=
  let st := st <| lastSeen := clk 0%nat |> in
  let '(pol, spawn, st) := policyFor g (clk 2%nat) (clk 3%nat) (clk 4%nat) st in
  let rate := rateFor pol meter in
  let c := default (mkCounters 0 0 0 0) (ingest st !! meter) in
  let '(ok, st) := takeWithDeficit meter rate (fmul rate (BurstSeconds pol)) n true (clk 5%nat) st in
  let c :=
    if ok
    then c <| AdmittedCalls := i64 (AdmittedCalls c + 1) |> <| AdmittedUnits := i64 (AdmittedUnits c + n) |>
    else c <| ShedCalls := i64 (ShedCalls c + 1) |> <| ShedUnits := i64 (ShedUnits c + n) |> in
  (ok, spawn, st <| ingest := <[meter := c]> (ingest st) |>).

Definition AdmitN (tenantID meter : string) (n : Z) (clk : nat → Z) (g : Gate)
    : bool * bool * Gate :=
  if bool_decide (tenantID = "") then (true, false, g) else
  let i := shardFor tenantID in
  let g := sweepShardLocked i (clk 0%nat) g in
  let '(p, g) := state i tenantID (clk 1%nat) g in
  let '(ok, spawn, st) := admitState g meter n clk (load p g) in
  (ok, spawn, store p st g).

(** ** Admission of queries *)

Inductive query_err := ErrQueryConcurrency | ErrQueryBudget.

(** The work of BeginQuery on the tenant's state. *)
Definition beginState (g : Gate) (clk : nat → Z) (st : tenantState)
    : option query_err * bool * tenantState :=
  let st := st <| lastSeen := clk 0%nat |> in
  let '(pol, spawn, st) := policyFor g (clk 2%nat) (clk 3%nat) (clk 4%nat) st in
  if (0 <? QueryConcurrency pol) && (QueryConcurrency pol <=? InFlight (queries st))
  then let q := queries st in
       (Some ErrQueryConcurrency, spawn,
        st <| queries := q <| RejectedConcurrency := i64 (RejectedConcurrency q + 1) |> |>)
  else
  let rate := rateFor pol meterQueries in
  let '(ok, st) := take meterQueries rate (fmul rate (f64 60)) 1 (clk 5%nat) st in
  let q := queries st in
  if negb ok
  then (Some ErrQueryBudget, spawn,
        st <| queries := q <| RejectedBudget := i64 (RejectedBudget q + 1) |> |>)
  else (None, spawn,
        st <| queries := q <| Allowed := i64 (Allowed q + 1) |> <| InFlight := i64 (InFlight q + 1) |> |>).

(** On success the release closure captures the state pointer, which is returned. *)
Definition BeginQuery (tenantID : string) (clk : nat → Z) (g : Gate)
    : (query_err + option loc) * bool * Gate :=
  if bool_decide (tenantID = "") then (inr None, false, g) else
  let i := shardFor tenantID in
  let g := sweepShardLocked i (clk 0%nat) g in
  let '(p, g) := state i tenantID (clk 1%nat) g in
  let '(r, spawn, st) := beginState g clk (load p g) in
  (match r with Some e => inl e | None => inr (Some p) end, spawn, store p st g).

(** The body of the release closure behind its [done] flag. *)
Definition endQuery (p : loc) (g : Gate) : Gate :=
  let st := load p g in
  let q := queries st in
  store p (st <| queries := q <| InFlight := i64 (InFlight q - 1) |> |>) g.

(** ** Snapshots *)

Record Snapshot := mkSnapshot {
  s_TenantID : string; s_Policy : Policy; s_Ingest : gmap string Counters; s_Queries : QueryCounters }.

Definition snapshotLocked (tenantID : string) (st : tenantState) (pol : Policy) : Snapshot :=
  mkSnapshot tenantID pol (ingest st) (queries st).

Definition SnapshotTenant (tenantID : string) (clk : nat → Z) (g : Gate) : Snapshot * bool * Gate :=
  let '(p, g) := state (shardFor tenantID) tenantID (clk 0%nat) g in
  let st0 := load p g in
  let '(pol, spawn, st) := policyFor g (clk 1%nat) (clk 2%nat) (clk 3%nat) st0 in
  (snapshotLocked tenantID st pol, spawn, store p st g).

(** ** The running system

    The gate with its refresh goroutines and release closures.  [f_stale] records
    whether the tenant's policy was invalidated since the goroutine started. *)

Record fetch := mkFetch { f_tenant : string; f_stale : bool }.
Record closure := mkClosure { c_tenant : string; c_state : loc; c_done : bool }.

Record sys := mkSys {
  gate : Gate;
  fetches : gmap nat fetch;
  closures : gmap nat closure
}.

#[export] Instance sys_eta : Eta sys := λ s, mkSys (gate s) (fetches s) (closures s).

Inductive event :=
| EAdmit (tenant meter : string) (n : Z) (clk : nat → Z)
| EBegin (tenant : string) (clk : nat → Z)
| ERelease (id : nat)
| EEffective (tenant : string) (clk : nat → Z)
| ESnapshot (tenant : string) (clk : nat → Z)
| EInvalidate (tenant : string)
| EFetched (id : nat) (over : option Policy) (clk : nat → Z).

Inductive answer :=
| AAdmit (ok : bool)
| ABegin (r : query_err + option nat)
| APolicy (p : Policy)
| ASnapshot (s : Snapshot)
| ANone.

(** [go g.refresh(tenantID)] *)
Definition spawned (spawn : bool) (tenant : string) (g : Gate) (s : sys) : sys :=
  let s := s <| gate := g |> in
  if spawn then s <| fetches := <[fresh (dom (fetches s)) := mkFetch tenant false]> (fetches s) |>
  else s.

Definition exec (e : event) (s : sys) : answer * sys :=
  match e with
  | EAdmit t m n clk =>
      let '(ok, sp, g) := AdmitN t m n clk (gate s) in (AAdmit ok, spawned sp t g s)
  | EBegin t clk =>
      let '(r, sp, g) := BeginQuery t clk (gate s) in
      let s := spawned sp t g s in
      match r with
      | inl e => (ABegin (inl e), s)
      | inr None => (ABegin (inr None), s)
      | inr (Some p) =>
          let id := fresh (dom (closures s)) in
          (ABegin (inr (Some id)), s <| closures := <[id := mkClosure t p false]> (closures s) |>)
      end
  | ERelease id =>
      match closures s !! id with
      | Some c =>
          if c_done c then (ANone, s)
          else (ANone, s <| closures := <[id := mkClosure (c_tenant c) (c_state c) true]> (closures s) |>
                         <| gate := endQuery (c_state c) (gate s) |>)
      | None => (ANone, s)
      end
  | EEffective t clk =>
      let '(p, sp, g) := EffectivePolicy t clk (gate s) in (APolicy p, spawned sp t g s)
  | ESnapshot t clk =>
      let '(p, sp, g) := SnapshotTenant t clk (gate s) in (ASnapshot p, spawned sp t g s)
  | EInvalidate t =>
      (ANone, s <| gate := Invalidate t (gate s) |>
                <| fetches := (λ f, if bool_decide (f_tenant f = t) then mkFetch t true else f)
                              <$> fetches s |>)
  | EFetched id over clk =>
      match fetches s !! id with
      | Some f =>
          (ANone, s <| gate := refresh (f_tenant f) over clk (gate s) |>
                    <| fetches := delete id (fetches s) |>)
      | None => (ANone, s)
      end
  end.

Definition start (g : Gate) : sys := mkSys g ∅ ∅.

Definition run (es : list event) (s : sys) : sys := foldl (λ s e, (exec e s).2) s es.

(** ** Lemmas: reaching a tenant's state *)

Definition ptr (g : Gate) (T : string) : option loc := tenants (shard_at g (shardFor T)) !! T.
Definition look (g : Gate) (T : string) : option tenantState := ptr g T ≫= λ p, heap g !! p.

Definition cfg (g : Gate) : Policy * bool * Z * Z := (defaults g, source g, policyTTL g, idleTTL g).

Record gwf (g : Gate) : Prop := mkGwf {
  gwf_len : length (shards g) = gateShards;
  gwf_heap T p : ptr g T = Some p → is_Some (heap g !! p);
  gwf_inj T1 T2 p : ptr g T1 = Some p → ptr g T2 = Some p → T1 = T2
}.

(** [T]'s state is as before, or it was idle at [now] and is gone. *)
Definition kept (now : Z) (g g' : Gate) (T : string) : Prop :=
  (ptr g' T = ptr g T ∧ look g' T = look g T) ∨
  (ptr g' T = None ∧ look g' T = None ∧
   ∃ st, look g T = Some st ∧ idle (idleTTL g) now st = true).

Lemma shardFor_lt T : (shardFor T < gateShards)%nat.
Proof.
  unfold shardFor, gateShards.
  pose proof (Z.mod_pos_bound (fnv1a32 (string_bytes T)) (Z.of_nat 32)). lia.
Qed.

Lemma shard_at_insert g i j sh :
  (i < length (shards g))%nat →
  shard_at (g <| shards := <[i := sh]> (shards g) |>) j = if decide (i = j) then sh else shard_at g j.
Proof.
  intros Hi. unfold shard_at; cbn. destruct (decide (i = j)) as [<-|Hne].
  - by rewrite list_lookup_insert_eq.
  - by rewrite list_lookup_insert_ne.
Qed.

Lemma look_ptr g T p : ptr g T = Some p → look g T = heap g !! p.
Proof. unfold look. by intros ->. Qed.

Lemma look_inv g T st : look g T = Some st → ∃ p, ptr g T = Some p ∧ heap g !! p = Some st.
Proof. unfold look. destruct (ptr g T) as [p|]; [|done]. intros. by exists p. Qed.

Lemma look_None g T : gwf g → look g T = None → ptr g T = None.
Proof.
  intros W E. destruct (ptr g T) as [p|] eqn:P; [|done].
  destruct (gwf_heap g W T p P) as [st Hst]. rewrite (look_ptr _ _ _ P) in E. congruence.
Qed.

Lemma load_look g T p st : ptr g T = Some p → look g T = Some st → load p g = st.
Proof. unfold load. intros P. rewrite (look_ptr _ _ _ P). by intros ->. Qed.

Lemma store_wf g T p st : gwf g → ptr g T = Some p → gwf (store p st g).
Proof.
  intros W P. split.
  - apply (gwf_len g W).
  - intros T' p' P'. cbn. destruct (decide (p = p')) as [<-|Hne].
    + by rewrite lookup_insert_eq.
    + rewrite lookup_insert_ne by done. apply (gwf_heap g W T' p' P').
  - apply (gwf_inj g W).
Qed.

Lemma store_look g T p st T' :
  gwf g → ptr g T = Some p →
  look (store p st g) T' = if decide (T' = T) then Some st else look g T'.
Proof.
  intros W P. unfold look. change (ptr (store p st g) T') with (ptr g T'). cbn.
  destruct (decide (T' = T)) as [->|Hne].
  - rewrite P; cbn. apply lookup_insert_eq.
  - destruct (ptr g T') as [p'|] eqn:P'; [|done]. cbn.
    apply lookup_insert_ne. intros <-. by apply Hne, (gwf_inj g W T' T p).
Qed.

Lemma sweep_spec g i now :
  gwf g → (i < gateShards)%nat →
  gwf (sweepShardLocked i now g) ∧ cfg (sweepShardLocked i now g) = cfg g ∧
  heap (sweepShardLocked i now g) = heap g ∧
  ∀ T, kept now g (sweepShardLocked i now g) T.
Proof.
  intros W Hi. unfold sweepShardLocked. set (sh := shard_at g i).
  destruct (since now (lastSweep sh) <? gateSweepInterval).
  { split; [done|]. split; [done|]. split; [done|]. intros T. by left. }
  set (keep := filter _ (tenants sh)). set (g' := _ <| evicted := _ |>).
  assert (Hp : ∀ T, ptr g' T = ptr g T ∨
    (ptr g' T = None ∧ ∃ st, look g T = Some st ∧ idle (idleTTL g) now st = true)).
  { intros T. unfold ptr. change (shard_at g' (shardFor T)) with
      (shard_at (g <| shards := <[i := mkShard keep (Some now)]> (shards g) |>) (shardFor T)).
    rewrite shard_at_insert by (rewrite (gwf_len g W); done).
    destruct (decide (i = shardFor T)) as [->|]; [|by left]. cbn. unfold keep.
    destruct (tenants sh !! T) as [p|] eqn:P; [|left; rewrite map_lookup_filter_None_2; [done|by left]].
    destruct (idle (idleTTL g) now (load p g)) eqn:E.
    - right. split; [apply map_lookup_filter_None_2; right; intros q Hq; cbn; congruence|].
      destruct (gwf_heap g W T p P) as [st Hst]. exists st.
      unfold load in E. rewrite Hst in E. split; [by rewrite (look_ptr _ _ _ P)|done].
    - left. fold sh. rewrite P. by apply map_lookup_filter_Some_2. }
  assert (Hw : gwf g').
  { split.
    - cbn. rewrite length_insert. apply (gwf_len g W).
    - intros T p P. destruct (Hp T) as [E|[E _]]; [|congruence].
      rewrite E in P. apply (gwf_heap g W T p P).
    - intros T1 T2 p P1 P2. destruct (Hp T1) as [E1|[E1 _]]; [|congruence].
      destruct (Hp T2) as [E2|[E2 _]]; [|congruence].
      rewrite E1 in P1. rewrite E2 in P2. by apply (gwf_inj g W T1 T2 p). }
  split; [done|]. split; [done|]. split; [done|]. intros T.
  destruct (Hp T) as [E|[E Hst]]; [left | right].
  - split; [done|]. unfold look. by rewrite E.
  - split; [done|]. split; [unfold look; by rewrite E|done].
Qed.

Lemma state_spec g T now p g' :
  gwf g → state (shardFor T) T now g = (p, g') →
  gwf g' ∧ cfg g' = cfg g ∧ ptr g' T = Some p ∧
  look g' T = Some (default (newTenant now) (look g T)) ∧
  (is_Some (ptr g T) → ptr g T = Some p) ∧
  (∀ T', T' ≠ T → ptr g' T' = ptr g T' ∧ look g' T' = look g T').
Proof.
  intros W. unfold state. change (tenants (shard_at g (shardFor T)) !! T) with (ptr g T).
  destruct (ptr g T) as [q|] eqn:P; intros [= <- <-].
  { destruct (gwf_heap g W T q P) as [st Hst].
    assert (L : look g T = Some st) by by rewrite (look_ptr _ _ _ P).
    rewrite L. cbn. naive_solver. }
  set (p := fresh (dom (heap g))). set (sh := shard_at g (shardFor T)). set (g' := _ <| shards := _ |>).
  assert (Hf : heap g !! p = None) by (apply not_elem_of_dom, is_fresh).
  assert (Hp : ∀ T', ptr g' T' = if decide (T' = T) then Some p else ptr g T').
  { intros T'. unfold ptr. change (shard_at g' (shardFor T')) with
      (shard_at (g <| shards := <[shardFor T := sh <| tenants := <[T := p]> (tenants sh) |>]> (shards g) |>)
         (shardFor T')).
    rewrite shard_at_insert by (rewrite (gwf_len g W); apply shardFor_lt).
    destruct (decide (T' = T)) as [->|Hne].
    - rewrite decide_True by done. apply lookup_insert_eq.
    - destruct (decide (shardFor T = shardFor T')) as [E|]; [|done]. cbn.
      rewrite lookup_insert_ne by done. unfold sh. by rewrite E. }
  assert (Hl : ∀ T' q, T' ≠ T → ptr g T' = Some q → p ≠ q).
  { intros T' q _ Hq <-. destruct (gwf_heap g W T' p Hq). congruence. }
  assert (Ho : ∀ T', T' ≠ T → ptr g' T' = ptr g T' ∧ look g' T' = look g T').
  { intros T' Hne. rewrite Hp, decide_False by done. split; [done|].
    unfold look. rewrite Hp, decide_False by done.
    destruct (ptr g T') as [q|] eqn:Q; [|done]. cbn. by rewrite lookup_insert_ne by eauto. }
  split; [split|].
  - cbn. rewrite length_insert. apply (gwf_len g W).
  - intros T' q. rewrite Hp. cbn. destruct (decide (T' = T)) as [->|Hne].
    + intros [= <-]. by rewrite lookup_insert_eq.
    + intros Q. rewrite lookup_insert_ne by eauto. apply (gwf_heap g W T' q Q).
  - intros T1 T2 q. rewrite !Hp. destruct (decide (T1 = T)) as [->|H1], (decide (T2 = T)) as [->|H2];
      [done| | |apply (gwf_inj g W)].
    + intros [= <-] Q. by destruct (Hl T2 p H2 Q).
    + intros Q [= <-]. by destruct (Hl T1 p H1 Q).
  - split; [done|]. split; [rewrite Hp; by rewrite decide_True|].
    split; [|split; [by intros [? ?]|done]].
    unfold look at 1. rewrite Hp, decide_True by done. cbn. rewrite lookup_insert_eq.
    unfold look. by rewrite P.
Qed.

(** [g'] is [g] after a call on tenant [T] that found its state [st0] at [p] (the
    state it had, or a new one if it had none or an idle one) and left [st1] there;
    the other tenants kept theirs. *)
Record touched (now : Z) (g g' : Gate) (T : string) (p : loc) (st0 st1 : tenantState) : Prop :=
  mkTouched {
    to_wf : gwf g';
    to_cfg : cfg g' = cfg g;
    to_ptr : ptr g' T = Some p;
    to_look : look g' T = Some st1;
    to_own : (ptr g T = Some p ∧ look g T = Some st0) ∨
      ((∃ t0, st0 = newTenant t0) ∧
       (look g T = None ∨ ∃ st, look g T = Some st ∧ idle (idleTTL g) now st = true));
    to_others T' : T' ≠ T → kept now g g' T'
  }.

Lemma touched_store now g g' T p st0 st1 st2 :
  touched now g g' T p st0 st1 → touched now g (store p st2 g') T p st0 st2.
Proof.
  intros [W C P L O K]. split; try done.
  - by apply (store_wf _ T).
  - rewrite (store_look _ T) by done. by rewrite decide_True.
  - intros T' Hne. unfold kept. rewrite (store_look _ T), decide_False by done. apply (K T' Hne).
Qed.

Lemma touched_load now g g' T p st0 st1 : touched now g g' T p st0 st1 → load p g' = st1.
Proof. intros [W C P L O K]. by apply (load_look _ T). Qed.

Lemma touched_state now t0 g T p g' :
  gwf g → state (shardFor T) T t0 g = (p, g') →
  ∃ st0, touched now g g' T p st0 st0 ∧ (look g T = None → st0 = newTenant t0).
Proof.
  intros W E. destruct (state_spec _ _ _ _ _ W E) as (W' & C & P & L & Hp & Ho).
  exists (default (newTenant t0) (look g T)). split; [|by intros ->].
  split; try done.
  - destruct (look g T) as [st|] eqn:Hl; [left | right; by eauto].
    destruct (look_inv _ _ _ Hl) as (q & Hq & _). split; [|done]. apply Hp. by rewrite Hq.
  - intros T' Hne. left. by apply Ho.
Qed.

Lemma touched_sweep now t0 g T p g' :
  gwf g → state (shardFor T) T t0 (sweepShardLocked (shardFor T) now g) = (p, g') →
  ∃ st0, touched now g g' T p st0 st0 ∧ (look g T = None → st0 = newTenant t0).
Proof.
  intros W E. destruct (sweep_spec g _ now W (shardFor_lt T)) as (W1 & C1 & H1 & K1).
  destruct (touched_state now _ _ _ _ _ W1 E) as (st0 & [W' C P L O K] & Hn). exists st0.
  assert (HT : idleTTL (sweepShardLocked (shardFor T) now g) = idleTTL g) by (injection C1; done).
  split.
  - split; try done.
    + by rewrite C.
    + destruct (K1 T) as [[E1 E2]|(E1 & E2 & E3)].
      * rewrite <- E1, <- E2, <- HT. done.
      * right. destruct O as [[O _]|[O _]]; [congruence|]. split; [done|by right].
    + intros T' Hne. destruct (K T' Hne) as [[E1 E2]|(E1 & E2 & st & E3 & E4)].
      * destruct (K1 T') as [[E3 E4]|(E3 & E4 & E5)].
        { left. split; congruence. }
        right. rewrite E1, E2. done.
      * right. split; [done|]. split; [done|].
        destruct (K1 T') as [[E5 E6]|(E5 & E6 & E7)]; [|congruence].
        exists st. rewrite <- E6, <- HT. done.
  - intros HN. apply Hn. destruct (K1 T) as [[_ E2]|(_ & E2 & _)]; congruence.
Qed.

(** What the calls do on the tenant's own state, as far as the goroutines and the
    closures are concerned. *)
Definition fetch_step (spawn : bool) (st st' : tenantState) : Prop :=
  policyFetchInvalidated st' = policyFetchInvalidated st ∧
  if spawn then policyFetching st = false ∧ policyFetching st' = true
  else policyFetching st' = policyFetching st.

Lemma policyFor_step g n1 n2 n3 st :
  fetch_step (policyFor g n1 n2 n3 st).1.2 st (policyFor g n1 n2 n3 st).2 ∧
  queries (policyFor g n1 n2 n3 st).2 = queries st.
Proof.
  unfold policyFor, fetch_step. destruct st; cbn. repeat (case_match; cbn; try done).
  all: destruct policyFetching0; cbn in *; rewrite ?andb_false_r in *; done.
Qed.

Lemma takeWithDeficit_frame meter rate cap n d now st :
  ∃ bs, (takeWithDeficit meter rate cap n d now st).2 = st <| buckets := bs |>.
Proof.
  unfold takeWithDeficit. destruct (fleb rate (f64 0)); [by exists (buckets st); destruct st|].
  destruct ((negb d && _) || _); eauto.
Qed.

Lemma admit_step g meter n clk st :
  fetch_step (admitState g meter n clk st).1.2 st (admitState g meter n clk st).2 ∧
  queries (admitState g meter n clk st).2 = queries st.
Proof.
  unfold admitState. set (st1 := st <| lastSeen := _ |>).
  destruct (policyFor_step g (clk 2%nat) (clk 3%nat) (clk 4%nat) st1) as [F Q].
  destruct (policyFor g _ _ _ st1) as [[pol sp] st2]. cbn in F, Q |- *.
  destruct (takeWithDeficit_frame meter (rateFor pol meter)
    (fmul (rateFor pol meter) (BurstSeconds pol)) n true (clk 5%nat) st2) as [bs E].
  destruct (takeWithDeficit _ _ _ _ _ _ _) as [ok st3]. cbn in E |- *. subst st3. done.
Qed.

Lemma begin_step g clk st :
  fetch_step (beginState g clk st).1.2 st (beginState g clk st).2 ∧
  InFlight (queries (beginState g clk st).2) =
    match (beginState g clk st).1.1 with
    | None => i64 (InFlight (queries st) + 1)
    | Some _ => InFlight (queries st)
    end.
Proof.
  unfold beginState. set (st1 := st <| lastSeen := _ |>).
  destruct (policyFor_step g (clk 2%nat) (clk 3%nat) (clk 4%nat) st1) as [F Q].
  destruct (policyFor g _ _ _ st1) as [[pol sp] st2]. cbn in F, Q |- *.
  destruct (_ && _); [cbn; by rewrite Q|]. unfold take.
  destruct (takeWithDeficit_frame meterQueries (rateFor pol meterQueries)
    (fmul (rateFor pol meterQueries) (f64 60)) 1 false (clk 5%nat) st2) as [bs E].
  destruct (takeWithDeficit _ _ _ _ _ _ _) as [[] st3]; cbn in E |- *; subst st3; cbn; by rewrite Q.
Qed.

(** ** Lemmas: the invariant of the running system *)

(** The refresh goroutines of a tenant, and its release closures not called yet. *)
Definition pend (T : string) (s : sys) : gmap nat fetch :=
  filter (λ kv : nat * fetch, f_tenant kv.2 = T) (fetches s).
Definition live (T : string) (s : sys) : gmap nat closure :=
  filter (λ kv : nat * closure, c_tenant kv.2 = T ∧ c_done kv.2 = false) (closures s).

Record tenant_ok (T : string) (op : option loc) (ol : option tenantState)
    (pm : gmap nat fetch) (lm : gmap nat closure) : Prop := mkTenantOk {
  ok_fetch : match ol with
    | Some st =>
        if policyFetching st then ∃ id, pm = {[id := mkFetch T (policyFetchInvalidated st)]}
        else pm = ∅ ∧ policyFetchInvalidated st = false
    | None => pm = ∅
    end;
  ok_count : match ol with
    | Some st => InFlight (queries st) = Z.of_nat (size lm)
    | None => lm = ∅
    end;
  ok_ptr id c : lm !! id = Some c → op = Some (c_state c)
}.

Record inv (s : sys) : Prop := mkInv {
  inv_wf : gwf (gate s);
  inv_tenant T : tenant_ok T (ptr (gate s) T) (look (gate s) T) (pend T s) (live T s)
}.

Lemma live_empty (lm : gmap nat closure) : Z.of_nat (size lm) ≤ 0 → lm = ∅.
Proof. intros H. apply map_size_empty_inv. lia. Qed.

Lemma idle_ok T op ttl now st pm lm :
  tenant_ok T op (Some st) pm lm → idle ttl now st = true →
  pm = ∅ ∧ lm = ∅.
Proof.
  intros [F N _] I. unfold idle in I. apply andb_prop in I as [I _].
  apply negb_true_iff, orb_false_iff in I as [I1 I2]. rewrite I1 in F. zbool.
  split; [apply F|]. apply live_empty. lia.
Qed.

Lemma absent_ok T op : tenant_ok T op None ∅ ∅.
Proof. split; [done|done|]. intros id c. by rewrite lookup_empty. Qed.

Lemma new_ok T op t0 : tenant_ok T op (Some (newTenant t0)) ∅ ∅.
Proof. split; [done|by rewrite map_size_empty|]. intros id c. by rewrite lookup_empty. Qed.

Lemma kept_ok now g g' T pm lm :
  tenant_ok T (ptr g T) (look g T) pm lm → kept now g g' T →
  tenant_ok T (ptr g' T) (look g' T) pm lm.
Proof.
  intros O [[-> ->]|(-> & -> & st & E & I)]; [done|].
  rewrite E in O. destruct (idle_ok _ _ _ _ _ _ _ O I) as [-> ->]. apply absent_ok.
Qed.

Lemma own_ok now g g' T p st0 st1 pm lm :
  tenant_ok T (ptr g T) (look g T) pm lm → touched now g g' T p st0 st1 →
  tenant_ok T (Some p) (Some st0) pm lm.
Proof.
  intros O [_ _ _ _ [[E1 E2]|[[t0 ->] [E|(st & E & I)]]] _].
  - by rewrite E1, E2 in O.
  - rewrite E in O. destruct O as [-> -> _]. apply new_ok.
  - rewrite E in O. destruct (idle_ok _ _ _ _ _ _ _ O I) as [-> ->]. apply new_ok.
Qed.

(** Starting a refresh goroutine. *)
Lemma spawn_ok T p st0 st1 pm lm id spawn :
  tenant_ok T (Some p) (Some st0) pm lm → fetch_step spawn st0 st1 →
  InFlight (queries st1) = InFlight (queries st0) →
  tenant_ok T (Some p) (Some st1) (if spawn then <[id := mkFetch T false]> pm else pm) lm.
Proof.
  intros [F N P] [E1 E2] E3. split; [|by rewrite E3|done].
  destruct spawn.
  - destruct E2 as [E2 ->]. rewrite E2 in F. destruct F as [-> F]. exists id. by rewrite E1, F.
  - by rewrite E1, E2.
Qed.

Lemma spawned_fields spawn T g s :
  gate (spawned spawn T g s) = g ∧ closures (spawned spawn T g s) = closures s ∧
  ∃ id, fetches s !! id = None ∧
    fetches (spawned spawn T g s) = if spawn then <[id := mkFetch T false]> (fetches s) else fetches s.
Proof.
  unfold spawned. destruct spawn; (split; [done|split; [done|]]).
  all: exists (fresh (dom (fetches s))); split; [apply not_elem_of_dom, is_fresh|done].
Qed.

Lemma pend_spawned spawn T T' g s :
  ∃ id, pend T' (spawned spawn T g s) =
    if decide (T' = T) then if spawn then <[id := mkFetch T false]> (pend T' s) else pend T' s
    else pend T' s.
Proof.
  destruct (spawned_fields spawn T g s) as (_ & _ & id & Hid & E). exists id. unfold pend.
  rewrite E. destruct spawn; [|by destruct (decide _)].
  destruct (decide (T' = T)) as [->|Hne].
  - by rewrite map_filter_insert_True.
  - rewrite map_filter_insert_False by (intros E'; by apply Hne). by rewrite delete_id.
Qed.

Lemma call_inv s T p st0 st1 now g' spawn :
  inv s → touched now (gate s) g' T p st0 st1 → fetch_step spawn st0 st1 →
  InFlight (queries st1) = InFlight (queries st0) →
  inv (spawned spawn T g' s).
Proof.
  intros [W I] To F N. destruct (spawned_fields spawn T g' s) as (Eg & Ec & _).
  split; rewrite Eg; [by eapply to_wf|]. intros T'.
  assert (El : live T' (spawned spawn T g' s) = live T' s) by (unfold live; by rewrite Ec).
  rewrite El. destruct (pend_spawned spawn T T' g' s) as [id ->].
  destruct (decide (T' = T)) as [->|Hne].
  - rewrite (to_ptr _ _ _ _ _ _ _ To), (to_look _ _ _ _ _ _ _ To).
    apply (spawn_ok T p st0); [by eapply own_ok|done|done].
  - eapply kept_ok; [apply I|]. by eapply to_others.
Qed.

(** Registering the closure of an admitted query. *)
Lemma closure_added s T p st1 id :
  gwf (gate s) → ptr (gate s) T = Some p → look (gate s) T = Some st1 → closures s !! id = None →
  (∀ T', T' ≠ T → tenant_ok T' (ptr (gate s) T') (look (gate s) T') (pend T' s) (live T' s)) →
  tenant_ok T (Some p) (Some (st1 <| queries := (queries st1) <| InFlight := InFlight (queries st1) - 1 |> |>))
    (pend T s) (live T s) →
  inv (s <| closures := <[id := mkClosure T p false]> (closures s) |>).
Proof.
  intros W P L Hid Ho [F N Q]. split; [done|]. intros T'.
  change (pend T' (s <| closures := _ |>)) with (pend T' s).
  change (ptr (gate (s <| closures := _ |>)) T') with (ptr (gate s) T').
  change (look (gate (s <| closures := _ |>)) T') with (look (gate s) T').
  destruct (decide (T' = T)) as [->|Hne].
  - assert (E : live T (s <| closures := <[id := mkClosure T p false]> (closures s) |>)
      = <[id := mkClosure T p false]> (live T s)) by (unfold live; by apply map_filter_insert_True).
    assert (Hl : live T s !! id = None) by (apply map_lookup_filter_None_2; by left).
    rewrite E, P, L. split; [apply F| |].
    + rewrite map_size_insert_None by done. cbn in N. lia.
    + intros id' c. destruct (decide (id = id')) as [<-|Hi].
      * rewrite lookup_insert_eq. by intros [= <-].
      * rewrite lookup_insert_ne by done. apply Q.
  - assert (E : live T' (s <| closures := <[id := mkClosure T p false]> (closures s) |>) = live T' s).
    { unfold live; cbn. rewrite map_filter_insert_False by (intros [E _]; by apply Hne).
      by rewrite delete_id. }
    rewrite E. by apply Ho.
Qed.

(** Calling a release closure for the first time. *)
Lemma live_released s T T' p id :
  closures s !! id = Some (mkClosure T p false) →
  live T' (s <| closures := <[id := mkClosure T p true]> (closures s) |>) = delete id (live T' s) ∧
  (T' ≠ T → live T' s !! id = None) ∧ live T s !! id = Some (mkClosure T p false).
Proof.
  intros Hid. split; [|split].
  - unfold live; cbn. rewrite map_filter_insert_False by (by intros [_ ?]).
    by rewrite map_filter_delete.
  - intros Hne. apply map_lookup_filter_None_2. right. intros c. rewrite Hid.
    intros [= <-] [E _]. by apply Hne.
  - by apply map_lookup_filter_Some_2.
Qed.

(** A pending goroutine is the one its tenant's state announces. *)
Lemma pend_lookup T pm ol op lm id f :
  tenant_ok T op ol pm lm → pm !! id = Some f →
  ∃ st, ol = Some st ∧ policyFetching st = true ∧ f = mkFetch T (policyFetchInvalidated st) ∧
    pm = {[id := f]}.
Proof.
  intros [F _ _] E. destruct ol as [st|]; [|subst; by rewrite lookup_empty in E].
  destruct (policyFetching st) eqn:B; [|destruct F as [-> _]; by rewrite lookup_empty in E].
  destruct F as [id' ->]. apply lookup_singleton_Some in E as [-> <-]. by exists st.
Qed.

(** ** Lemmas: each call as a step on its tenant's state *)

Lemma policyFor_cfg g g' n1 n2 n3 st :
  cfg g' = cfg g → policyFor g' n1 n2 n3 st = policyFor g n1 n2 n3 st.
Proof. intros [= E1 E2 E3 _]. unfold policyFor. by rewrite E1, E2, E3. Qed.

Lemma admit_cfg g g' meter n clk st : cfg g' = cfg g → admitState g' meter n clk st = admitState g meter n clk st.
Proof. intros E. unfold admitState. by rewrite (policyFor_cfg g g') by done. Qed.

Lemma begin_cfg g g' clk st : cfg g' = cfg g → beginState g' clk st = beginState g clk st.
Proof. intros E. unfold beginState. by rewrite (policyFor_cfg g g') by done. Qed.

(** Follow a call that finds the tenant's state, computes on it and stores it. *)
Ltac follow W lem g1 :=
  match goal with |- context [state ?i ?t ?n ?x] =>
    let E := fresh "E" in
    destruct (state i t n x) as [p g1] eqn:E;
    destruct (lem _ _ _ _ _ W E) as (st0 & To & Hn)
  end.

Lemma AdmitN_touched g T meter n clk :
  gwf g → T ≠ "" →
  ∃ p st0, touched (clk 0%nat) g (AdmitN T meter n clk g).2 T p st0 (admitState g meter n clk st0).2 ∧
    (AdmitN T meter n clk g).1 = (admitState g meter n clk st0).1 ∧
    (look g T = None → st0 = newTenant (clk 1%nat)).
Proof.
  intros W HT. unfold AdmitN. rewrite bool_decide_false by done. cbv zeta.
  follow W (touched_sweep (clk 0%nat)) g1. exists p, st0.
  rewrite (touched_load _ _ _ _ _ _ _ To), (admit_cfg g) by apply To.
  destruct (admitState g meter n clk st0) as [[ok sp] st1]. split; [by eapply touched_store|done].
Qed.

Lemma BeginQuery_touched g T clk :
  gwf g → T ≠ "" →
  ∃ p st0, touched (clk 0%nat) g (BeginQuery T clk g).2 T p st0 (beginState g clk st0).2 ∧
    (BeginQuery T clk g).1 =
      (match (beginState g clk st0).1.1 with Some e => inl e | None => inr (Some p) end,
       (beginState g clk st0).1.2) ∧
    (look g T = None → st0 = newTenant (clk 1%nat)).
Proof.
  intros W HT. unfold BeginQuery. rewrite bool_decide_false by done. cbv zeta.
  follow W (touched_sweep (clk 0%nat)) g1. exists p, st0.
  rewrite (touched_load _ _ _ _ _ _ _ To), (begin_cfg g) by apply To.
  destruct (beginState g clk st0) as [[ok sp] st1]. split; [by eapply touched_store|done].
Qed.

Lemma EffectivePolicy_touched g T clk now :
  gwf g →
  ∃ p st0, let q := policyFor g (clk 1%nat) (clk 2%nat) (clk 3%nat) st0 in
    touched now g (EffectivePolicy T clk g).2 T p st0 q.2 ∧
    (EffectivePolicy T clk g).1 = q.1.
Proof.
  intros W. unfold EffectivePolicy. follow W (touched_state now) g1. exists p, st0.
  rewrite (touched_load _ _ _ _ _ _ _ To), (policyFor_cfg g) by apply To.
  destruct (policyFor g _ _ _ st0) as [[pol sp] st1]. split; [by eapply touched_store|done].
Qed.

Lemma SnapshotTenant_touched g T clk now :
  gwf g →
  ∃ p st0, let q := policyFor g (clk 1%nat) (clk 2%nat) (clk 3%nat) st0 in
    touched now g (SnapshotTenant T clk g).2 T p st0 q.2 ∧
    (SnapshotTenant T clk g).1 = (snapshotLocked T q.2 q.1.1, q.1.2).
Proof.
  intros W. unfold SnapshotTenant. follow W (touched_state now) g1. exists p, st0.
  rewrite (touched_load _ _ _ _ _ _ _ To), (policyFor_cfg g) by apply To.
  destruct (policyFor g _ _ _ st0) as [[pol sp] st1]. split; [by eapply touched_store|done].
Qed.

(** What a finished fetch leaves in the state. *)
Definition landed (over : option Policy) (defs : Policy) (now : Z) (st : tenantState) : tenantState :=
  if policyFetchInvalidated st
  then st <| policyFetching := false |> <| policyFetchInvalidated := false |> <| policyKnown := false |>
  else st <| policyFetching := false |>
          <| policy := match over with Some p => merged p defs | None => defs end |>
          <| policyKnown := true |> <| policyFetched := Some now |>.

Lemma refresh_touched g T over clk now :
  gwf g →
  ∃ p st0, touched now g (refresh T over clk g) T p st0 (landed over (defaults g) (clk 1%nat) st0).
Proof.
  intros W. unfold refresh. follow W (touched_state now) g1. exists p, st0.
  rewrite (touched_load _ _ _ _ _ _ _ To).
  change (policyFetchInvalidated (st0 <| policyFetching := false |>)) with (policyFetchInvalidated st0).
  unfold landed. destruct (policyFetchInvalidated st0); by eapply touched_store.
Qed.

Definition invalidated (st : tenantState) : tenantState :=
  let st := st <| policyKnown := false |> in
  if policyFetching st then st <| policyFetchInvalidated := true |> else st.

Lemma Invalidate_touched g T now :
  gwf g →
  match look g T with
  | Some st => ∃ p, touched now g (Invalidate T g) T p st (invalidated st)
  | None => Invalidate T g = g
  end.
Proof.
  intros W. unfold Invalidate. fold (ptr g T). destruct (look g T) as [st|] eqn:L.
  - destruct (look_inv _ _ _ L) as (p & P & _). rewrite P. exists p.
    rewrite (load_look _ _ _ _ P L). apply (touched_store _ _ _ _ _ _ st).
    split; try done; [by left|]. intros. by left.
  - by rewrite (look_None _ _ W L).
Qed.

(** ** Lemmas: every event keeps the invariant *)

Lemma exec_admit_inv s T meter n clk : inv s → inv (exec (EAdmit T meter n clk) s).2.
Proof.
  intros I. cbn. destruct (decide (T = "")) as [->|HT].
  { unfold AdmitN. cbn. by destruct s. }
  destruct (AdmitN_touched (gate s) T meter n clk (inv_wf s I) HT) as (p & st0 & To & E & _).
  destruct (admit_step (gate s) meter n clk st0) as [F Q].
  destruct (AdmitN T meter n clk (gate s)) as [[ok sp] g']. cbn in E, To |- *.
  rewrite <- E in F. eapply call_inv; [done..|by rewrite Q].
Qed.

Lemma exec_policy_inv s T p st0 now g' n1 n2 n3 sp :
  inv s → let q := policyFor (gate s) n1 n2 n3 st0 in
  touched now (gate s) g' T p st0 q.2 → q.1.2 = sp → inv (spawned sp T g' s).
Proof.
  cbv zeta. intros I To <-. destruct (policyFor_step (gate s) n1 n2 n3 st0) as [F Q].
  eapply call_inv; [done..|by rewrite Q].
Qed.

Lemma inflight_bound s T st :
  inv s → look (gate s) T = Some st →
  0 ≤ InFlight (queries st) ≤ Z.of_nat (size (closures s)).
Proof.
  intros I L. destruct (inv_tenant s I T) as [_ N _]. rewrite L in N. rewrite N.
  pose proof (map_subseteq_size (live T s) (closures s) (map_filter_subseteq _ _)). lia.
Qed.

Lemma exec_begin_inv s T clk :
  inv s → Z.of_nat (size (closures s)) < 2 ^ 63 - 1 → inv (exec (EBegin T clk) s).2.
Proof.
  intros I HB. cbn. destruct (decide (T = "")) as [->|HT].
  { unfold BeginQuery. cbn. by destruct s. }
  destruct (BeginQuery_touched (gate s) T clk (inv_wf s I) HT) as (p & st0 & To & E & _).
  destruct (begin_step (gate s) clk st0) as [F Q].
  pose proof (own_ok _ _ _ _ _ _ _ _ _ (inv_tenant s I T) To) as O.
  destruct (BeginQuery T clk (gate s)) as [[r sp] g']. cbn in E, To |- *.
  destruct (beginState (gate s) clk st0) as [[[e|] sp'] st1] eqn:Eb; injection E as -> ->; cbn in F, Q |- *.
  { by eapply call_inv. }
  destruct (spawned_fields sp' T g' s) as (Eg & Ec & _).
  set (s1 := spawned sp' T g' s). fold s1 in Eg, Ec.
  assert (Hc : Z.of_nat (size (live T s)) ≤ Z.of_nat (size (closures s))).
  { pose proof (map_subseteq_size (live T s) (closures s) (map_filter_subseteq _ _)). lia. }
  assert (Hq : InFlight (queries st1) = InFlight (queries st0) + 1).
  { rewrite Q. apply i64_small. destruct O as [_ N _]. rewrite N. lia. }
  apply (closure_added s1 T p st1).
  - rewrite Eg. apply To.
  - rewrite Eg. apply To.
  - rewrite Eg. apply To.
  - apply not_elem_of_dom, is_fresh.
  - intros T' Hne. rewrite Eg.
    assert (live T' s1 = live T' s) as -> by (unfold live; by rewrite Ec).
    destruct (pend_spawned sp' T T' g' s) as [id Ep]. fold s1 in Ep. rewrite Ep, decide_False by done.
    eapply kept_ok; [apply I|]. by eapply to_others.
  - assert (live T s1 = live T s) as -> by (unfold live; by rewrite Ec).
    destruct (pend_spawned sp' T T g' s) as [id Ep]. fold s1 in Ep. rewrite Ep, decide_True by done.
    apply (spawn_ok T p st0); [done|done|]. cbn. lia.
Qed.

Lemma exec_release_inv s id :
  inv s → Z.of_nat (size (closures s)) < 2 ^ 63 - 1 → inv (exec (ERelease id) s).2.
Proof.
  intros I HB. cbn. destruct (closures s !! id) as [[T p []]|] eqn:E; [done| |done]. cbn.
  destruct (live_released s T T p id E) as (El & _ & Hid).
  destruct (inv_tenant s I T) as [F N P]. pose proof (P _ _ Hid) as Hp. cbn in Hp.
  destruct (gwf_heap _ (inv_wf s I) T p Hp) as [st Hst].
  assert (L : look (gate s) T = Some st) by by rewrite (look_ptr _ _ _ Hp).
  unfold endQuery. rewrite (load_look _ _ _ _ Hp L). rewrite L in F, N.
  pose proof (inflight_bound s T st I L) as Hb.
  assert (Hs : Z.of_nat (size (live T s)) = 1 + Z.of_nat (size (delete id (live T s)))).
  { rewrite map_size_delete_Some by eauto.
    assert (size (live T s) ≠ 0%nat) by (intros Z0; apply map_size_empty_inv in Z0;
      rewrite Z0, lookup_empty in Hid; done). lia. }
  split; [by apply (store_wf _ T), Hp; apply I|]. intros T'.
  change (pend T' (s <| closures := _ |> <| gate := _ |>)) with (pend T' s).
  change (live T' (s <| closures := ?c |> <| gate := _ |>)) with (live T' (s <| closures := c |>)).
  cbn [gate update]. change (ptr (store p ?x (gate s)) T') with (ptr (gate s) T').
  destruct (live_released s T T' p id E) as (El' & Hne' & _). rewrite El'.
  rewrite (store_look _ T) by (done || apply I). destruct (decide (T' = T)) as [->|Hne].
  - split; [done| |].
    + cbn. rewrite i64_small; lia.
    + intros id' c [_ Hc]%lookup_delete_Some. by apply (P id').
  - rewrite delete_id by auto. apply I.
Qed.

Lemma exec_fetched_inv s id over clk : inv s → inv (exec (EFetched id over clk) s).2.
Proof.
  intros I. cbn. destruct (fetches s !! id) as [f|] eqn:E; [|done]. set (T := f_tenant f). cbn.
  assert (Hid : pend T s !! id = Some f) by by apply map_lookup_filter_Some_2.
  destruct (refresh_touched (gate s) T over clk 0 (inv_wf s I)) as (p & st0 & To).
  pose proof (own_ok _ _ _ _ _ _ _ _ _ (inv_tenant s I T) To) as O.
  destruct (pend_lookup _ _ _ _ _ _ _ O Hid) as (st & [= <-] & B & Ef & Ep).
  split; [apply To|]. intros T'.
  change (live T' (s <| gate := _ |> <| fetches := _ |>)) with (live T' s).
  cbn [gate update]. assert (Ed : pend T' (s <| gate := refresh T over clk (gate s) |>
    <| fetches := delete id (fetches s) |>) = delete id (pend T' s)) by apply map_filter_delete.
  rewrite Ed. destruct (decide (T' = T)) as [->|Hne].
  - rewrite (to_ptr _ _ _ _ _ _ _ To), (to_look _ _ _ _ _ _ _ To), Ep, delete_singleton_eq.
    destruct O as [_ N P]. unfold landed. by destruct (policyFetchInvalidated st0) eqn:V.
  - rewrite delete_id; [|apply map_lookup_filter_None_2; right; intros f'; rewrite E; intros [= <-]; cbn; naive_solver].
    eapply kept_ok; [apply I|]. by eapply to_others.
Qed.

Lemma pend_invalidated s T T' g :
  pend T' (s <| gate := g |> <| fetches := (λ f, if bool_decide (f_tenant f = T) then mkFetch T true else f)
             <$> fetches s |>) =
  if decide (T' = T) then (λ _, mkFetch T true) <$> pend T s else pend T' s.
Proof.
  unfold pend; cbn. rewrite map_filter_fmap.
  etrans; [apply (f_equal (fmap _)), (map_filter_ext _ (λ kv : nat * fetch, f_tenant kv.2 = T'))|].
  { intros i f _; cbn. destruct (bool_decide_reflect (f_tenant f = T)); [by subst|done]. }
  destruct (decide (T' = T)) as [->|Hne].
  - apply map_fmap_ext. intros i f [_ Ef]%map_lookup_filter_Some. cbn in Ef. by rewrite bool_decide_true.
  - etrans; [|apply map_fmap_id]. apply map_fmap_ext. intros i f [_ Ef]%map_lookup_filter_Some.
    cbn in Ef. rewrite bool_decide_false; [done|congruence].
Qed.

Lemma exec_invalidate_inv s T : inv s → inv (exec (EInvalidate T) s).2.
Proof.
  intros I. cbn [exec snd]. pose proof (Invalidate_touched (gate s) T 0 (inv_wf s I)) as To.
  pose proof (inv_tenant s I T) as O. destruct (look (gate s) T) as [st|] eqn:L.
  - destruct To as [p To]. pose proof (own_ok _ _ _ _ _ _ _ _ _ (inv_tenant s I T) To) as [F N P].
    split; [apply To|]. intros T'. rewrite pend_invalidated.
    change (live T' (s <| gate := _ |> <| fetches := _ |>)) with (live T' s). cbn [gate update].
    destruct (decide (T' = T)) as [->|Hne]; [|eapply kept_ok; [apply I|]; by eapply to_others].
    rewrite (to_ptr _ _ _ _ _ _ _ To), (to_look _ _ _ _ _ _ _ To). unfold invalidated.
    destruct (policyFetching st) eqn:B; cbn; rewrite B; cbn; split; try done; cbn; rewrite B.
    + destruct F as [id ->]. exists id. by rewrite map_fmap_singleton.
    + destruct F as [-> F]. by rewrite fmap_empty.
  - rewrite To. split; [apply I|]. intros T'. rewrite pend_invalidated.
    change (live T' (s <| gate := _ |> <| fetches := _ |>)) with (live T' s). cbn [gate update].
    destruct (decide (T' = T)) as [->|Hne]; [|apply I].
    rewrite L. destruct O as [-> N P]. rewrite fmap_empty. by split.
Qed.

Lemma exec_inv e s : inv s → Z.of_nat (size (closures s)) < 2 ^ 63 - 1 → inv (exec e s).2.
Proof.
  intros I HB. destruct e.
  - by apply exec_admit_inv.
  - by apply exec_begin_inv.
  - by apply exec_release_inv.
  - cbn. destruct (EffectivePolicy_touched (gate s) tenant clk 0 (inv_wf s I)) as (p & st0 & To & E).
    destruct (EffectivePolicy tenant clk (gate s)) as [[q sp] g']. eapply exec_policy_inv; [done..|].
    cbn in E. by rewrite <- E.
  - cbn. destruct (SnapshotTenant_touched (gate s) tenant clk 0 (inv_wf s I)) as (p & st0 & To & E).
    destruct (SnapshotTenant tenant clk (gate s)) as [[q sp] g']. eapply exec_policy_inv; [done..|].
    cbn in E. by injection E.
  - by apply exec_invalidate_inv.
  - by apply exec_fetched_inv.
Qed.

Lemma exec_closures e s : (size (closures (exec e s).2) ≤ S (size (closures s)))%nat.
Proof.
  assert (Hs : ∀ sp t g, closures (spawned sp t g s) = closures s)
    by (intros; by destruct (spawned_fields sp t g s) as (_ & -> & _)).
  destruct e; cbn -[spawned]; repeat (case_match; cbn -[spawned]; rewrite ?Hs; try lia).
  all: try lia. all: rewrite map_size_insert; repeat case_match; cbn; lia.
Qed.

Lemma run_app es1 es2 s : run (es1 ++ es2) s = run es2 (run es1 s).
Proof. apply foldl_app. Qed.

Lemma sys_run_inv es s :
  inv s → Z.of_nat (size (closures s) + length es) < 2 ^ 63 - 1 →
  inv (run es s) ∧ (size (closures (run es s)) ≤ size (closures s) + length es)%nat.
Proof.
  revert s. induction es as [|e es IH]; intros s I HB; cbn in HB |- *; [split; [done|lia]|].
  pose proof (exec_closures e s) as Hc.
  destruct (IH (exec e s).2) as [I' B']; [apply exec_inv; [done|lia]|lia|].
  split; [done|]. etrans; [exact B'|lia].
Qed.

(** A gate as a deployment builds it. *)
Definition built (defs : Policy) (src : bool) (idle_ttl policy_ttl : Z) : Gate :=
  WithPolicyTTL policy_ttl (WithIdleTTL idle_ttl (NewGate defs src)).

Lemma built_start defs src d1 d2 : inv (start (built defs src d1 d2)).
Proof.
  assert (Hs : shards (built defs src d1 d2) = replicate gateShards (mkShard ∅ None)).
  { unfold built, WithPolicyTTL, WithIdleTTL. by destruct (0 <? d2), (0 <? d1). }
  assert (Hp : ∀ T, ptr (built defs src d1 d2) T = None).
  { intros T. unfold ptr, shard_at. rewrite Hs, lookup_replicate_2 by apply shardFor_lt. done. }
  split.
  - split; [cbn; by rewrite Hs|..]; cbn; intros *; rewrite Hp; done.
  - intros T. unfold look. cbn [gate start]. rewrite Hp. apply absent_ok.
Qed.

(** The states reachable from a new gate. *)
Definition reached (defs : Policy) (src : bool) (d1 d2 : Z) (es : list event) : sys :=
  run es (start (built defs src d1 d2)).

Lemma reached_inv defs src d1 d2 es :
  Z.of_nat (length es) < 2 ^ 62 →
  inv (reached defs src d1 d2 es) ∧
  (size (closures (reached defs src d1 d2 es)) ≤ length es)%nat.
Proof.
  intros HB. assert (E : size (closures (start (built defs src d1 d2))) = 0%nat) by apply map_size_empty.
  destruct (sys_run_inv es _ (built_start defs src d1 d2)) as [I B]; rewrite E in *; [lia|].
  by split.
Qed.

Lemma spawned_gate sp T g s : gate (spawned sp T g s) = g.
Proof. apply spawned_fields. Qed.

(** The tenant an event is about, and the time of the sweep it may run. *)
Definition subject (e : event) (s : sys) : option string :=
  match e with
  | EAdmit t _ _ _ | EBegin t _ | EEffective t _ | ESnapshot t _ | EInvalidate t => Some t
  | ERelease id => c_tenant <$> closures s !! id
  | EFetched id _ _ => f_tenant <$> fetches s !! id
  end.

Definition sweep_time (e : event) : option Z :=
  match e with EAdmit _ _ _ clk | EBegin _ clk => Some (clk 0%nat) | _ => None end.

(** Every event of the run is about another tenant. *)
Fixpoint others (T : string) (es : list event) (s : sys) : Prop :=
  match es with
  | [] => True
  | e :: es => subject e s ≠ Some T ∧ others T es (exec e s).2
  end.

(** The gate after an event is a gate touched at the event's subject, or as it was. *)
Lemma exec_touched e s now :
  inv s → sweep_time e = None ∨ sweep_time e = Some now →
  gate (exec e s).2 = gate s ∨
  ∃ T p st0 st1, subject e s = Some T ∧ touched now (gate s) (gate (exec e s).2) T p st0 st1.
Proof.
  intros I. destruct e as [T m n clk|T clk|id|T clk|T clk|T|id over clk]; cbn [sweep_time subject].
  - intros [?|[= <-]]; [done|]. cbn. destruct (decide (T = "")) as [->|HT]; [by left|].
    destruct (AdmitN_touched (gate s) T m n clk (inv_wf s I) HT) as (p & st0 & To & E & _).
    destruct (AdmitN T m n clk (gate s)) as [[ok sp] g']. cbn -[spawned]. rewrite spawned_gate. eauto 10.
  - intros [?|[= <-]]; [done|]. cbn. destruct (decide (T = "")) as [->|HT]; [by left|].
    destruct (BeginQuery_touched (gate s) T clk (inv_wf s I) HT) as (p & st0 & To & E & _).
    destruct (BeginQuery T clk (gate s)) as [[r sp] g'].
    destruct r as [?|[?|]]; cbn -[spawned]; rewrite spawned_gate; eauto 10.
  - intros _. cbn. destruct (closures s !! id) as [[T p []]|] eqn:E; [by left| |by left]. right.
    destruct (live_released s T T p id E) as (_ & _ & Hid).
    pose proof (ok_ptr _ _ _ _ _ (inv_tenant s I T) _ _ Hid) as Hp. cbn in Hp.
    destruct (gwf_heap _ (inv_wf s I) T p Hp) as [st Hst].
    assert (L : look (gate s) T = Some st) by by rewrite (look_ptr _ _ _ Hp).
    eexists T, p, st, _. split; [done|]. cbn. apply (touched_store _ _ _ _ _ _ st).
    split; [apply I|done..|by left|]. intros. by left.
  - intros _. right. cbn. destruct (EffectivePolicy_touched (gate s) T clk now (inv_wf s I)) as (p & st0 & To & _).
    destruct (EffectivePolicy T clk (gate s)) as [[q sp] g']. cbn -[spawned]. rewrite spawned_gate. eauto 10.
  - intros _. right. cbn. destruct (SnapshotTenant_touched (gate s) T clk now (inv_wf s I)) as (p & st0 & To & _).
    destruct (SnapshotTenant T clk (gate s)) as [[q sp] g']. cbn -[spawned]. rewrite spawned_gate. eauto 10.
  - intros _. cbn. pose proof (Invalidate_touched (gate s) T now (inv_wf s I)) as To.
    destruct (look (gate s) T) as [st|]; [|by left]. destruct To as [p To]. eauto 10.
  - intros _. cbn. destruct (fetches s !! id) as [f|] eqn:E; [|by left]. right.
    destruct (refresh_touched (gate s) (f_tenant f) over clk now (inv_wf s I)) as (p & st0 & To).
    cbn. eauto 10.
Qed.

Lemma exec_cfg e s : inv s → cfg (gate (exec e s).2) = cfg (gate s).
Proof.
  intros I. assert (Ht : sweep_time e = None ∨ sweep_time e = Some (default 0 (sweep_time e)))
    by (destruct (sweep_time e); auto).
  destruct (exec_touched e s _ I Ht) as [->|(T & p & st0 & st1 & _ & To)]; [done|apply To].
Qed.

Lemma exec_others e s T :
  inv s → subject e s ≠ Some T →
  look (gate (exec e s).2) T = look (gate s) T ∨
  (look (gate (exec e s).2) T = None ∧
   ∃ st now, sweep_time e = Some now ∧ look (gate s) T = Some st ∧
     idle (idleTTL (gate s)) now st = true).
Proof.
  intros I Hs.
  set (now := match sweep_time e with
              | Some now => now
              | None => match look (gate s) T with Some st => lastSeen st + idleTTL (gate s) | None => 0 end
              end).
  assert (Ht : sweep_time e = None ∨ sweep_time e = Some now)
    by (unfold now; destruct (sweep_time e); auto).
  destruct (exec_touched e s now I Ht) as [->|(T' & p & st0 & st1 & E & To)]; [by left|].
  destruct (to_others _ _ _ _ _ _ _ To T) as [[_ K]|(_ & K & st & L & Id)]; [congruence|by left|].
  destruct (sweep_time e) as [t|]; [right; split; [done|]; by exists st, t|].
  exfalso. unfold now in Id. rewrite L in Id. unfold idle in Id.
  apply andb_prop in Id as [_ Id]. zbool. lia.
Qed.

Lemma run_others es s T :
  inv s → Z.of_nat (size (closures s) + length es) < 2 ^ 63 - 1 → others T es s →
  look (gate (run es s)) T = look (gate s) T ∨
  (look (gate (run es s)) T = None ∧
   ∃ st e now, e ∈ es ∧ sweep_time e = Some now ∧ look (gate s) T = Some st ∧
     idle (idleTTL (gate s)) now st = true).
Proof.
  revert s. induction es as [|e es IH]; intros s I HB Ho; [by left|]. cbn in HB, Ho |- *.
  destruct Ho as [Hs Ho]. pose proof (exec_closures e s) as Hc.
  assert (HT : idleTTL (gate (exec e s).2) = idleTTL (gate s)) by (injection (exec_cfg e s I); done).
  destruct (IH (exec e s).2) as [E|(E & st & e' & now & He & Ht & L & Id)];
    [apply exec_inv; [done|lia]|lia|done| |].
  - fold (run es (exec e s).2). rewrite E. destruct (exec_others e s T I Hs) as [->|(-> & st & now & Ht & L & Id)];
      [by left|right]. split; [done|]. exists st, e, now. split; [apply elem_of_cons; by left|done].
  - fold (run es (exec e s).2). right. split; [done|]. exists st, e', now.
    split; [apply elem_of_cons; by right|]. split; [done|].
    destruct (exec_others e s T I Hs) as [E1|(E1 & _)]; [|congruence].
    rewrite <- HT, <- E1. done.
Qed.

Lemma begin_cap g clk st :
  let r := beginState g clk st in
  match r.1.1 with
  | None => 0 < QueryConcurrency (policy r.2) → InFlight (queries st) < QueryConcurrency (policy r.2)
  | Some ErrQueryConcurrency => 0 < QueryConcurrency (policy r.2) ≤ InFlight (queries st)
  | Some ErrQueryBudget => True
  end.
Proof.
  assert (Hp : ∀ n1 n2 n3 st, policy (policyFor g n1 n2 n3 st).2 = (policyFor g n1 n2 n3 st).1.1).
  { intros. unfold policyFor. by repeat case_match. }
  unfold beginState. set (st1 := st <| lastSeen := _ |>). specialize (Hp (clk 2%nat) (clk 3%nat) (clk 4%nat) st1).
  destruct (policyFor_step g (clk 2%nat) (clk 3%nat) (clk 4%nat) st1) as [_ Q].
  destruct (policyFor g _ _ _ st1) as [[pol sp] st2]. cbn in Q, Hp |- *. subst pol.
  destruct (_ && _) eqn:E.
  { apply andb_prop in E as [E1 E2]. zbool. cbn. rewrite Q in E2. cbn in E2. lia. }
  apply andb_false_iff in E. unfold take.
  destruct (takeWithDeficit_frame meterQueries (rateFor (policy st2) meterQueries)
    (fmul (rateFor (policy st2) meterQueries) (f64 60)) 1 false (clk 5%nat) st2) as [bs Et].
  destruct (takeWithDeficit _ _ _ _ _ _ _) as [[] st3]; cbn in Et |- *; subst st3; cbn; [|done].
  rewrite Q in E. cbn in E. destruct E; zbool; lia.
Qed.

Lemma exec_begin_cap s T clk :
  inv s → T ≠ "" →
  ∃ st, look (gate (exec (EBegin T clk) s).2) T = Some st ∧
  match (exec (EBegin T clk) s).1 with
  | ABegin (inr _) => 0 < QueryConcurrency (policy st) →
      Z.of_nat (size (live T s)) < QueryConcurrency (policy st)
  | ABegin (inl ErrQueryConcurrency) =>
      0 < QueryConcurrency (policy st) ≤ Z.of_nat (size (live T s))
  | _ => True
  end.
Proof.
  intros I HT. destruct (BeginQuery_touched (gate s) T clk (inv_wf s I) HT) as (p & st0 & To & E & _).
  destruct (own_ok _ _ _ _ _ _ _ _ _ (inv_tenant s I T) To) as [_ N _].
  pose proof (begin_cap (gate s) clk st0) as C. cbv zeta in C. rewrite N in C.
  exists (beginState (gate s) clk st0).2. cbn -[spawned].
  destruct (BeginQuery T clk (gate s)) as [[r sp] g']. cbn in E, To.
  destruct (beginState (gate s) clk st0) as [[[[]|] sp'] st1]; injection E as -> ->; cbn -[spawned] in C |- *;
    rewrite spawned_gate; by split; [apply To|].
Qed.

Definition demo_clk (t : Z) : nat → Z := λ _, t.
Definition demo_first : list event :=
  [EAdmit "a" MeterResults 5 (demo_clk 0); EBegin "a" (demo_clk 1)].
Definition demo_noise : list event :=
  [EAdmit "b" MeterResults 1000000 (demo_clk 2); EBegin "b" (demo_clk 3); EInvalidate "b"].

(** ** Theorems *)

(** C3. Tenant isolation: in any reachable system, whatever events of other tenants
    happen - admissions, queries, releases, invalidations, policy fetches landing - a
    tenant's buckets, counters, policy and in-flight count are untouched, except that a
    state idle past the TTL, with no fetch or query outstanding, may be reclaimed by
    the sweep of an admission.  And an admission is decided by, and charged to, the
    tenant's own state alone: the one it has, or a new one. *)
Theorem gate_isolation (defs : Policy) (src : bool) (d1 d2 : Z) (es0 es : list event) (T : string) :
  Z.of_nat (length es0 + length es) < 2 ^ 62 →
  let s := reached defs src d1 d2 es0 in
  others T es s →
  (look (gate (run es s)) T = look (gate s) T ∨
   (look (gate (run es s)) T = None ∧
    ∃ st e now, e ∈ es ∧ sweep_time e = Some now ∧ look (gate s) T = Some st ∧
      idle (idleTTL (gate s)) now st = true)) ∧
  (∀ meter n clk, T ≠ "" → ∃ st0,
    (look (gate s) T = Some st0 ∨
     (∃ t0, st0 = newTenant t0) ∧
     (look (gate s) T = None ∨
      ∃ st, look (gate s) T = Some st ∧ idle (idleTTL (gate s)) (clk 0%nat) st = true)) ∧
    (AdmitN T meter n clk (gate s)).1 = (admitState (gate s) meter n clk st0).1 ∧
    look (AdmitN T meter n clk (gate s)).2 T = Some (admitState (gate s) meter n clk st0).2).
Proof.
  intros HB s Ho. destruct (reached_inv defs src d1 d2 es0) as [I B]; [lia|]. fold s in I, B.
  split; [apply run_others; [done|lia|done]|]. intros meter n clk HT.
  destruct (AdmitN_touched (gate s) T meter n clk (inv_wf s I) HT) as (p & st0 & [_ _ _ L O _] & E & _).
  exists st0. split; [|done]. destruct O as [[_ O]|O]; [by left|by right].
Qed.

Lemma gate_isolation_witness :
  let s := reached DefaultPolicy true 0 0 demo_first in
  InFlight ∘ queries <$> look (gate s) "a" = Some 1 ∧
  (look (gate (run demo_noise s)) "a" = look (gate s) "a" ∨
   (look (gate (run demo_noise s)) "a" = None ∧
    ∃ st e now, e ∈ demo_noise ∧ sweep_time e = Some now ∧ look (gate s) "a" = Some st ∧
      idle (idleTTL (gate s)) now st = true)).
Proof.
  cbv zeta. split; [by vm_compute|].
  apply (gate_isolation DefaultPolicy true 0 0 demo_first demo_noise "a"); [vm_compute; done|].
  split; [done|]. split; [done|]. split; [done|]. exact Logic.I.
Defined.

(** Query guard: in any reachable system a tenant's in-flight count is exactly the
    number of its admitted queries whose release was not called yet, and those closures
    all hold its current state, so no release is ever lost to an eviction; a query is
    admitted only below the concurrency cap of the policy in force and refused for
    concurrency only at it; releasing again changes nothing. *)
Theorem query_accounting (defs : Policy) (src : bool) (d1 d2 : Z) (es : list event) :
  Z.of_nat (length es) < 2 ^ 62 →
  let s := reached defs src d1 d2 es in
  (∀ T st, look (gate s) T = Some st → InFlight (queries st) = Z.of_nat (size (live T s))) ∧
  (∀ T, look (gate s) T = None → live T s = ∅) ∧
  (∀ T id c, live T s !! id = Some c → ptr (gate s) T = Some (c_state c)) ∧
  (∀ T clk, T ≠ "" → ∃ st, look (gate (exec (EBegin T clk) s).2) T = Some st ∧
    match (exec (EBegin T clk) s).1 with
    | ABegin (inr _) => 0 < QueryConcurrency (policy st) →
        Z.of_nat (size (live T s)) < QueryConcurrency (policy st)
    | ABegin (inl ErrQueryConcurrency) =>
        0 < QueryConcurrency (policy st) ≤ Z.of_nat (size (live T s))
    | _ => True
    end) ∧
  (∀ id, exec (ERelease id) (exec (ERelease id) s).2 = (ANone, (exec (ERelease id) s).2)).
Proof.
  intros HB s. destruct (reached_inv defs src d1 d2 es HB) as [I B]. fold s in I, B.
  split; [|split; [|split; [|split]]].
  - intros T st L. destruct (inv_tenant s I T) as [_ N _]. by rewrite L in N.
  - intros T L. destruct (inv_tenant s I T) as [_ N _]. by rewrite L in N.
  - intros T id c E. by eapply (ok_ptr _ _ _ _ _ (inv_tenant s I T)).
  - intros T clk. by apply exec_begin_cap.
  - intros id. cbn. destruct (closures s !! id) as [[T p []]|] eqn:E; cbn; [by rewrite E| |by rewrite E].
    by rewrite lookup_insert_eq.
Qed.

Lemma query_accounting_witness :
  let s := reached (DefaultPolicy) false 0 0 demo_first in
  size (live "a" s) = 1%nat ∧
  (∀ T st, look (gate s) T = Some st → InFlight (queries st) = Z.of_nat (size (live T s))).
Proof.
  cbv zeta. split; [by vm_compute|].
  apply (query_accounting DefaultPolicy false 0 0 demo_first). vm_compute. done.
Defined.

(** No stale policy: a tenant never has two policy fetches in flight, and the one
    it has landing after an Invalidate that came while it ran installs nothing - the
    cached policy is dropped, so the next call enforces the deployment defaults and
    fetches again - while an uninterrupted fetch installs the stored override merged
    with the defaults, or the defaults when the source had none or failed. *)
Theorem stale_policy_not_installed (defs : Policy) (src : bool) (d1 d2 : Z) (es : list event)
    (id : nat) (f : fetch) (over : option Policy) (clk : nat → Z) :
  Z.of_nat (length es) < 2 ^ 62 →
  let s := reached defs src d1 d2 es in
  fetches s !! id = Some f →
  let g' := gate (exec (EFetched id over clk) s).2 in
  (∀ id' f', fetches s !! id' = Some f' → f_tenant f' = f_tenant f → id' = id) ∧
  ∃ st st', look (gate s) (f_tenant f) = Some st ∧ look g' (f_tenant f) = Some st' ∧
    policyFetching st = true ∧ policyFetching st' = false ∧
    if f_stale f
    then policyKnown st' = false ∧
         ∀ n1 n2 n3, (policyFor g' n1 n2 n3 st').1 = (defaults g', source g')
    else policyKnown st' = true ∧ policyFetched st' = Some (clk 1%nat) ∧
         policy st' = match over with
                      | Some p => merged p (defaults g')
                      | None => defaults g'
                      end.
Proof.
  intros HB s Hf g'. destruct (reached_inv defs src d1 d2 es HB) as [I B]. fold s in I, B.
  set (T := f_tenant f) in *.
  assert (Hid : pend T s !! id = Some f) by by apply map_lookup_filter_Some_2.
  destruct (pend_lookup _ _ _ _ _ _ _ (inv_tenant s I T) Hid) as (st & L & Bf & Ef & Ep).
  split.
  { intros id' f' E' Et. assert (Hid' : pend T s !! id' = Some f') by by apply map_lookup_filter_Some_2.
    rewrite Ep in Hid'. by apply lookup_singleton_Some in Hid' as [-> _]. }
  assert (Eg : g' = refresh T over clk (gate s)) by (unfold g'; cbn; rewrite Hf; done).
  destruct (refresh_touched (gate s) T over clk 0 (inv_wf s I)) as (p & st0 & To). rewrite <- Eg in To.
  assert (st0 = st) as ->.
  { destruct (to_own _ _ _ _ _ _ _ To) as [[_ O]|[_ [O|(st2 & O & Id)]]]; [congruence..|].
    rewrite L in O. injection O as <-. unfold idle in Id. by rewrite Bf in Id. }
  assert (ED : defaults g' = defaults (gate s)) by (injection (to_cfg _ _ _ _ _ _ _ To); done).
  exists st, (landed over (defaults (gate s)) (clk 1%nat) st). rewrite ED.
  split; [done|]. split; [apply To|]. split; [done|].
  rewrite Ef. unfold landed; cbn. destruct (policyFetchInvalidated st); cbn; [|done].
  split; [done|]. split; [done|]. intros. unfold policyFor; cbn. rewrite ED.
  by destruct (source g').
Qed.

Lemma stale_policy_not_installed_witness :
  let s := reached DefaultPolicy true 0 5 [EAdmit "a" MeterResults 5 (demo_clk 0);
     EAdmit "a" MeterResults 5 (demo_clk 10); EInvalidate "a"] in
  (∃ f, fetches s !! 0%nat = Some f ∧ f_stale f = true) ∧
  ∃ st', look (gate (exec (EFetched 0 (Some zero_policy) (demo_clk 20)) s).2) "a" = Some st' ∧
    policyKnown st' = false.
Proof.
  cbv zeta. split; [exists (mkFetch "a" true); by vm_compute|].
  destruct (stale_policy_not_installed DefaultPolicy true 0 5 [EAdmit "a" MeterResults 5 (demo_clk 0);
     EAdmit "a" MeterResults 5 (demo_clk 10); EInvalidate "a"] 0 (mkFetch "a" true)
     (Some zero_policy) (demo_clk 20)) as (_ & st & st' & _ & L & _ & _ & K & _).
  - vm_compute. done.
  - vm_compute. reflexivity.
  - exists st'. split; [exact L|exact K].
Defined.

End Fairness.
