(* ===== verification/Lifecycle.v ===== *)
(** * Upgrades: version skew policy and staged rollout (internal/lifecycle)

    version.go: parsing, printing and comparing versions, and the N/N-1 policy checked
    when an agent connects.  fleet.go: the assignment of agents to rollout rings and
    the version a rollout wants an agent to run.  Go strings are their bytes. *)
From S2P Require Import Prelude GoHash GoString.

Module Lifecycle.

#[local] Open Scope Z_scope.

(** ** The string functions version.go uses beside GoString's *)

(** strings.EqualFold against "unknown"; K also folds to the Kelvin sign. *)
Fixpoint match_fold (pat : list (list gostring)) (l : gostring) : bool :=
  match pat with
  | [] => bool_decide (l = [])
  | alts :: pat => match strip_any alts l with Some r => match_fold pat r | None => false end
  end.

Definition unknown_fold : list (list gostring) :=
  [[str "u"; str "U"]; [str "n"; str "N"]; [str "k"; str "K"; bytes [0xE2; 0x84; 0xAA]];
   [str "n"; str "N"]; [str "o"; str "O"]; [str "w"; str "W"]; [str "n"; str "N"]].

(** strings.Contains(strings.ToLower(l), "dev"): no other rune lowers to an ASCII
    d, e or v. *)
Fixpoint contains_dev (l : gostring) : bool :=
  match strip_any [str "d"; str "D"] l with
  | Some l1 =>
      match strip_any [str "e"; str "E"] l1 with
      | Some l2 => match strip_any [str "v"; str "V"] l2 with Some _ => true | None => false end
      | None => false
      end
  | None => false
  end || match l with [] => false | _ :: l => contains_dev l end.

(** ** version.go *)

Record Version := mkVersion { Major : Z; Minor : Z; Patch : Z; Pre : gostring; Dev : bool }.

(** The loop over the parts: missing parts stay 0. *)
Fixpoint parse_parts (parts : list gostring) (nums : list Z) : option (list Z) :=
  match parts, nums with
  | p :: parts, _ :: nums =>
      match Atoi p with
      | Some n => match parse_parts parts nums with Some r => Some (n :: r) | None => None end
      | None => None
      end
  | _, _ => Some nums
  end.

Definition Parse (s : gostring) : option Version :=
  let raw := TrimSpace s in
  if bool_decide (raw = []) || match_fold unknown_fold raw
  then Some (mkVersion 0 0 0 (str "dev") true) else
  let v := default raw (strip_prefix (str "v") raw) in
  let v := (cut x2b v).1 in
  let '(v, pre) := match cut x2d v with (a, Some p) => (a, p) | (a, None) => (a, []) end in
  match parse_parts (SplitN 3 x2e v) [0; 0; 0] with
  | Some [a; b; c] =>
      Some (mkVersion a b c pre (((a =? 0) && (b =? 0) && (c =? 0)) || contains_dev pre))
  | _ => None
  end.

Definition String (v : Version) : gostring :=
  dec (Major v) ++ str "." ++ dec (Minor v) ++ str "." ++ dec (Patch v) ++
  (if bool_decide (Pre v = []) then [] else str "-" ++ Pre v).

Definition sign (n : Z) : Z := if n <? 0 then -1 else if 0 <? n then 1 else 0.

Definition Compare (v o : Version) : Z :=
  if negb (Major v =? Major o) then sign (i64 (Major v - Major o))
  else if negb (Minor v =? Minor o) then sign (i64 (Minor v - Minor o))
  else if negb (Patch v =? Patch o) then sign (i64 (Patch v - Patch o))
  else 0.

Definition DefaultSkewWindow : Z := 1.

Record Policy := mkPolicy { Window : Z; Min : gostring }.

Definition DefaultPolicy : Policy := mkPolicy DefaultSkewWindow [].

Definition window (p : Policy) : Z := if Window p <=? 0 then DefaultSkewWindow else Window p.

(** The reason returned beside the verdict. *)
Inductive reason :=
| ControlUnparseable | AgentUnparseable | DevBuild
| BelowMinimum (agent floor : Version)
| MajorMismatch (control agent : Version)
| SkewExceeded (skew : Z) (control agent : Version)
| NoReason.

Definition Check (p : Policy) (controlVer agentVer : gostring) : bool * reason :=
  match Parse controlVer with
  | None => (true, ControlUnparseable)
  | Some cv =>
  match Parse agentVer with
  | None => (false, AgentUnparseable)
  | Some av =>
  if Dev cv || Dev av then (true, DevBuild) else
  match (if bool_decide (Min p = []) then None
         else match Parse (Min p) with
              | Some floor => if Compare av floor <? 0 then Some floor else None
              | None => None
              end) with
  | Some floor => (false, BelowMinimum av floor)
  | None =>
  if negb (Major cv =? Major av) then (false, MajorMismatch cv av) else
  let skew := i64 (Minor cv - Minor av) in
  let skew := if skew <? 0 then i64 (- skew) else skew in
  if window p <? skew then (false, SkewExceeded skew cv av)
  else (true, NoReason)
  end end end.

(** ** fleet.go *)

(** The three values of the string type that the code uses. *)
Inductive Cohort := CohortCanary | CohortEarly | CohortMain.

#[export] Instance Cohort_eq_dec : EqDecision Cohort.
Proof. solve_decision. Defined.

Definition stageOrder : list Cohort := [CohortCanary; CohortEarly; CohortMain].

Record Split := mkSplit { CanaryPercent : Z; EarlyPercent : Z }.

Definition DefaultSplit : Split := mkSplit 5 20.

Definition clamp (n lo hi : Z) : Z := if n <? lo then lo else if hi <? n then hi else n.

Definition normalized (s : Split) : Split :=
  let c := clamp (CanaryPercent s) 0 100 in
  mkSplit c (clamp (EarlyPercent s) 0 (100 - c)).

Definition stableBucket (agentID : gostring) : Z := fnv1a32 agentID mod 100.

Definition CohortOf (agentID : gostring) (split : Split) : Cohort :=
  let s := normalized split in
  let bucket := stableBucket agentID in
  if bucket <? CanaryPercent s then CohortCanary
  else if bucket <? CanaryPercent s + EarlyPercent s then CohortEarly
  else CohortMain.

Record Rollout := mkRollout { TargetVersion : gostring; Stage : Z; rsplit : Split }.

Definition Active (r : Rollout) : bool :=
  negb (bool_decide (TargetVersion r = [])) && (0 <? Stage r).

Fixpoint released_loop (i : Z) (order : list Cohort) (stage : Z) (c : Cohort) : bool :=
  match order with
  | [] => false
  | sc :: order => if bool_decide (sc = c) then i <? stage else released_loop (i + 1) order stage c
  end.

Definition Released (r : Rollout) (c : Cohort) : bool := released_loop 0 stageOrder (Stage r) c.

Definition desiredVersion (r : Rollout) (agentID current : gostring) : gostring :=
  if negb (Active r) then current
  else if Released r (CohortOf agentID (rsplit r)) then TargetVersion r
  else current.

Example parse_ex : Parse (str " v1.12-rc1+b7") = Some (mkVersion 1 12 0 (str "rc1") false).
Proof. reflexivity. Qed.
Example parse_bad : Parse (str "1.2.3.4") = None.
Proof. reflexivity. Qed.
Example parse_kelvin : Parse (bytes [0x55; 0x4e; 0xE2; 0x84; 0xAA; 0x6e; 0x6f; 0x77; 0x4e])
  = Some (mkVersion 0 0 0 (str "dev") true).
Proof. reflexivity. Qed.
Example check_ex : Check DefaultPolicy (str "1.5.0") (str "1.4.9") = (true, NoReason).
Proof. reflexivity. Qed.

Lemma parse_parts_range parts nums r :
  (∀ p, p ∈ parts → x2d ∉ p) → Forall (λ n, 0 ≤ n < 2 ^ 63) nums →
  parse_parts parts nums = Some r → Forall (λ n, 0 ≤ n < 2 ^ 63) r ∧ length r = length nums.
Proof.
  revert nums r. induction parts as [|p parts IH]; intros nums r Hp Hn E.
  - cbn in E. by destruct nums; injection E as <-.
  - destruct nums as [|m nums]; [by injection E as <-|]. cbn in E.
    destruct (Atoi p) as [n|] eqn:En; [|done]. apply Atoi_range in En; [|apply Hp; set_solver].
    destruct (parse_parts parts nums) as [r'|] eqn:Er; [|done]. injection E as <-.
    inversion Hn; subst. destruct (IH nums r') as [Hr Hl]; [set_solver|done|done|].
    split; [by constructor|]. cbn. by rewrite Hl.
Qed.

(** ** Lemmas: versions *)

(** The characters of a semver pre-release tag. *)
Definition pre_char (b : byte) : bool :=
  is_digit b || ((65 <=? byteZ b) && (byteZ b <=? 90)) || ((97 <=? byteZ b) && (byteZ b <=? 122))
  || bool_decide (b = x2e) || bool_decide (b = x2d).

Definition is_dev (v : Version) : bool :=
  ((Major v =? 0) && (Minor v =? 0) && (Patch v =? 0)) || contains_dev (Pre v).

Record version_ok (v : Version) : Prop := mkVersionOk {
  vo_major : 0 ≤ Major v < 2 ^ 63;
  vo_minor : 0 ≤ Minor v < 2 ^ 63;
  vo_patch : 0 ≤ Patch v < 2 ^ 63;
  vo_pre : forallb pre_char (Pre v) = true;
  vo_dev : Dev v = is_dev v
}.

Lemma pre_char_plain b : pre_char b = true → plain b = true ∧ b ≠ x2b.
Proof.
  intros H. split; [|by intros ->]. unfold pre_char, is_digit, plain in *.
  destruct (bool_decide_reflect (b = x2e)) as [E|]; [by rewrite E|].
  destruct (bool_decide_reflect (b = x2d)) as [E|]; [by rewrite E|].
  rewrite !orb_false_r in H. apply orb_prop in H as [[H|H]%orb_prop|H];
    apply andb_prop in H as [H1 H2]; zbool; apply andb_true_intro;
    (split; [apply Z.leb_le | apply Z.ltb_lt]); lia.
Qed.

Lemma parse_core a b c :
  0 ≤ a < 2 ^ 63 → 0 ≤ b < 2 ^ 63 → 0 ≤ c < 2 ^ 63 →
  parse_parts (SplitN 3 x2e (dec a ++ str "." ++ dec b ++ str "." ++ dec c)) [0; 0; 0]
  = Some [a; b; c].
Proof.
  intros Ha Hb Hc. assert (Hdot : ∀ z, 0 ≤ z < 2 ^ 63 → x2e ∉ dec z).
  { intros z Hz. apply not_digit_elem; [done|]. by apply dec_spec. }
  cbn [SplitN]. change (str ".") with [x2e]. cbn [app].
  rewrite cut_some by auto. rewrite cut_some by auto. cbn [parse_parts].
  by rewrite !Atoi_dec.
Qed.

Lemma Parse_String v : version_ok v → Parse (String v) = Some v.
Proof.
  intros [Ha Hb Hc Hp Hd]. unfold Parse.
  destruct (dec_spec _ Ha) as (_ & D1 & N1). destruct (dec_spec _ Hb) as (_ & D2 & _).
  destruct (dec_spec _ Hc) as (_ & D3 & _).
  set (core := dec (Major v) ++ str "." ++ dec (Minor v) ++ str "." ++ dec (Patch v)).
  set (tail := if bool_decide (Pre v = []) then [] else str "-" ++ Pre v).
  assert (ES : String v = core ++ tail).
  { unfold String, core. by rewrite <- !app_assoc. }
  assert (Pt : forallb plain tail = true ∧ x2b ∉ tail).
  { unfold tail. destruct (bool_decide_reflect (Pre v = [])); [split; [done|set_solver]|]. split.
    - cbn. eapply forallb_imp; [|exact Hp]. intros x Hx. by apply pre_char_plain.
    - change (str "-") with [x2d]. rewrite forallb_forall in Hp. intros Hin.
      apply elem_of_app in Hin as [Hin | Hin]; [set_solver|].
      apply list_elem_of_In in Hin. apply Hp, pre_char_plain in Hin. naive_solver. }
  assert (Cc : ∀ x, x ∈ core → is_digit x = true ∨ x = x2e).
  { intros x. unfold core. change (str ".") with [x2e]. rewrite !elem_of_app, !list_elem_of_singleton.
    rewrite forallb_forall in D1, D2, D3. setoid_rewrite <- list_elem_of_In in D1.
    setoid_rewrite <- list_elem_of_In in D2. setoid_rewrite <- list_elem_of_In in D3.
    intros [H|[H|[H|[H|H]]]]; [left; by apply D1|by right|left; by apply D2|by right|left; by apply D3]. }
  assert (Pc : forallb plain core = true).
  { apply forallb_forall. intros x Hx. apply list_elem_of_In, Cc in Hx as [Hx | ->]; [|done].
    by apply digit_plain. }
  rewrite ES, TrimSpace_plain by (rewrite forallb_app; by rewrite Pc, (proj1 Pt)).
  assert (∃ x r, core = x :: r ∧ is_digit x = true) as (x & r & Ecore & Hx).
  { unfold core. destruct (dec (Major v)) as [|y l]; [done|]. eexists y, _. split; [done|].
    cbn in D1. by apply andb_prop in D1 as [-> _]. }
  rewrite Ecore.
  rewrite bool_decide_false by done.
  assert (match_fold unknown_fold ((x :: r) ++ tail) = false) as ->.
  { cbn. rewrite !bool_decide_false by (by intros <-). done. }
  assert (strip_prefix (str "v") ((x :: r) ++ tail) = None) as ->.
  { cbn. by rewrite bool_decide_false by (by intros <-). }
  cbn [orb]. change (default ?l None) with l. rewrite <- Ecore.
  rewrite (cut_none x2b); [cbn [fst]|].
  2: { rewrite elem_of_app. intros [H|H]; [|by apply Pt]. by apply Cc in H as [H|H]. }
  assert (Hdash : x2d ∉ core) by (intros H; by apply Cc in H as [H|H]).
  unfold tail. destruct (bool_decide_reflect (Pre v = [])) as [E|E].
  - rewrite app_nil_r, cut_none by done. unfold core. rewrite parse_core by done.
    unfold is_dev in Hd. rewrite E in Hd. rewrite <- Hd. clear -E. destruct v; cbn in E. by subst.
  - change (str "-" ++ Pre v) with (x2d :: Pre v). rewrite cut_some by done.
    unfold core. rewrite parse_core by done. unfold is_dev in Hd. rewrite <- Hd. by destruct v.
Qed.

Lemma Parse_range s v :
  Parse s = Some v →
  0 ≤ Major v < 2 ^ 63 ∧ 0 ≤ Minor v < 2 ^ 63 ∧ 0 ≤ Patch v < 2 ^ 63 ∧
  (is_dev v = true → Dev v = true).
Proof.
  unfold Parse. set (raw := TrimSpace s). destruct (_ || _).
  { intros [= <-]. cbn. repeat split; lia. }
  set (w := (cut x2b _).1).
  assert (H : x2d ∉ (match cut x2d w with (a, Some p) => (a, p) | (a, None) => (a, []) end).1).
  { pose proof (cut_subset x2d w) as [H _]. by destruct (cut x2d w) as [a [p|]]. }
  destruct (match cut x2d w with (a, Some p) => (a, p) | (a, None) => (a, []) end) as [core pre].
  cbn [fst] in H. destruct (parse_parts _ _) as [[|a [|b [|c [|]]]]|] eqn:E; try done.
  intros [= <-]. apply parse_parts_range in E as [E _].
  - inversion E as [|? ? ? E2]; subst. inversion E2 as [|? ? ? E3]; subst. inversion E3; subst.
    cbn. unfold is_dev; cbn. auto.
  - intros p Hp Hx. by apply H, (SplitN_subset 3 x2e core p).
  - repeat (apply List.Forall_cons || apply List.Forall_nil); lia.
Qed.

(** ** Lemmas: ordering, the skew check and rollouts *)

Definition in_range (v : Version) : Prop :=
  0 ≤ Major v < 2 ^ 63 ∧ 0 ≤ Minor v < 2 ^ 63 ∧ 0 ≤ Patch v < 2 ^ 63.

Definition older (v o : Version) : Prop :=
  Major v < Major o ∨
  (Major v = Major o ∧ (Minor v < Minor o ∨ (Minor v = Minor o ∧ Patch v < Patch o))).

Lemma i64_diff a b : 0 ≤ a < 2 ^ 63 → 0 ≤ b < 2 ^ 63 → i64 (a - b) = a - b.
Proof. intros. apply i64_small. lia. Qed.

Lemma sign_cases n : (sign n = -1 ∧ n < 0) ∨ (sign n = 1 ∧ 0 < n) ∨ (sign n = 0 ∧ n = 0).
Proof. unfold sign. destruct (n <? 0) eqn:E1, (0 <? n) eqn:E2; zbool; lia. Qed.

Lemma Compare_spec v o :
  in_range v → in_range o →
  (Compare v o < 0 ↔ older v o) ∧
  (Compare v o = 0 ↔ Major v = Major o ∧ Minor v = Minor o ∧ Patch v = Patch o) ∧
  Compare o v = - Compare v o.
Proof.
  intros (H1 & H2 & H3) (K1 & K2 & K3). unfold Compare, older. rewrite !i64_diff by done.
  pose proof (sign_cases (Major v - Major o)). pose proof (sign_cases (Major o - Major v)).
  pose proof (sign_cases (Minor v - Minor o)). pose proof (sign_cases (Minor o - Minor v)).
  pose proof (sign_cases (Patch v - Patch o)). pose proof (sign_cases (Patch o - Patch v)).
  rewrite (Z.eqb_sym (Major o)), (Z.eqb_sym (Minor o)), (Z.eqb_sym (Patch o)).
  destruct (Major v =? Major o) eqn:E1; cbn [negb]; zbool; [|lia].
  destruct (Minor v =? Minor o) eqn:E2; cbn [negb]; zbool; [|lia].
  destruct (Patch v =? Patch o) eqn:E3; cbn [negb]; zbool; lia.
Qed.

Lemma window_pos p : 0 < window p.
Proof. unfold window, DefaultSkewWindow. destruct (Window p <=? 0) eqn:E; zbool; lia. Qed.

Lemma skew_abs a b :
  0 ≤ a < 2 ^ 63 → 0 ≤ b < 2 ^ 63 →
  (if i64 (a - b) <? 0 then i64 (- i64 (a - b)) else i64 (a - b)) = Z.abs (a - b).
Proof.
  intros. rewrite i64_diff by done. destruct (a - b <? 0) eqn:E; zbool; [|lia].
  rewrite i64_small; lia.
Qed.

(** The floor in force, if any, that the agent is older than. *)
Definition below_floor (p : Policy) (av : Version) : Prop :=
  Min p ≠ [] ∧ ∃ floor, Parse (Min p) = Some floor ∧ older av floor.

Lemma Check_verdict p c a cv av :
  Parse c = Some cv → Parse a = Some av →
  (Check p c a).1 = true ↔
  Dev cv = true ∨ Dev av = true ∨
  (Major cv = Major av ∧ Z.abs (Minor cv - Minor av) ≤ window p ∧ ¬ below_floor p av).
Proof.
  intros Ec Ea. unfold Check. rewrite Ec, Ea.
  destruct (Parse_range _ _ Ec) as (C1 & C2 & C3 & _). destruct (Parse_range _ _ Ea) as (A1 & A2 & A3 & _).
  destruct (Dev cv) eqn:D1; [naive_solver|]. destruct (Dev av) eqn:D2; [naive_solver|]. cbn [orb].
  match goal with |- context [match ?x with Some floor => (false, BelowMinimum av floor) | None => _ end] =>
    set (fl := x) end.
  assert (Hf : match fl with Some _ => below_floor p av | None => ¬ below_floor p av end).
  { unfold fl, below_floor. destruct (bool_decide_reflect (Min p = [])); [naive_solver|].
    destruct (Parse (Min p)) as [floor|] eqn:Em; [|naive_solver].
    destruct (Parse_range _ _ Em) as (F1 & F2 & F3 & _).
    destruct (Compare_spec av floor) as (L & _ & _); [done|done|].
    destruct (Compare av floor <? 0) eqn:E; zbool.
    - split; [done|]. exists floor. split; [done|]. by apply L.
    - intros (_ & f & [= <-] & O). apply L in O. lia. }
  clearbody fl. destruct fl as [floor|]; [cbn; naive_solver|].
  rewrite skew_abs by done.
  destruct (Major cv =? Major av) eqn:E1; cbn [negb]; zbool; [|naive_solver].
  destruct (window p <? _) eqn:E2; zbool; cbn [fst]; split; try done; [|naive_solver].
  intros [?|[?|(_ & ? & _)]]; [done|done|lia].
Qed.

Lemma bucket_range id : 0 ≤ stableBucket id < 100.
Proof. apply Z.mod_pos_bound. lia. Qed.

Lemma normalized_range s :
  0 ≤ CanaryPercent (normalized s) ∧ 0 ≤ EarlyPercent (normalized s) ∧
  CanaryPercent (normalized s) + EarlyPercent (normalized s) ≤ 100.
Proof.
  unfold normalized, clamp; cbn.
  repeat match goal with |- context [?a <? ?b] => destruct (a <? b) eqn:?; zbool end; lia.
Qed.

(** The share of the fleet a stage releases, in buckets. *)
Definition released_below (r : Rollout) : Z :=
  let s := normalized (rsplit r) in
  if Stage r <=? 0 then 0
  else if Stage r =? 1 then CanaryPercent s
  else if Stage r =? 2 then CanaryPercent s + EarlyPercent s
  else 100.

Lemma Released_spec r c :
  Released r c =
  match c with CohortCanary => 0 <? Stage r | CohortEarly => 1 <? Stage r | CohortMain => 2 <? Stage r end.
Proof. by destruct c. Qed.

(** Case analysis on comparisons whose operands are not themselves conditionals. *)
Ltac z_cases :=
  repeat match goal with
  | |- context [?a <=? ?b] => destruct (a <=? b) eqn:?; zbool
  end;
  repeat match goal with
  | |- context [?a =? ?b] => destruct (a =? b) eqn:?; zbool
  end;
  repeat match goal with
  | |- context [?a <? ?b] => destruct (a <? b) eqn:?; zbool
  end.

Lemma desired_spec r id cur :
  desiredVersion r id cur =
  if negb (bool_decide (TargetVersion r = [])) && (stableBucket id <? released_below r)
  then TargetVersion r else cur.
Proof.
  pose proof (bucket_range id). pose proof (normalized_range (rsplit r)).
  unfold desiredVersion, Active. rewrite Released_spec. unfold CohortOf, released_below.
  destruct (bool_decide (TargetVersion r = [])); [done|]. cbn [negb andb].
  set (s := normalized (rsplit r)) in *.
  destruct (stableBucket id <? CanaryPercent s) eqn:E1;
    [|destruct (stableBucket id <? CanaryPercent s + EarlyPercent s) eqn:E2]; zbool;
    z_cases; cbn [negb]; first [done | exfalso; lia].
Qed.

(** ** Theorems *)

(** Version strings: parsing what String prints gives the version back (for
    components that fit int and a pre-release tag of semver characters), whatever the
    components and tag; and every string that parses gives non-negative components,
    flagged Dev when the core is 0.0.0 or the tag mentions dev. *)
Theorem version_roundtrip (v : Version) (s : gostring) (w : Version) :
  version_ok v → Parse s = Some w →
  Parse (String v) = Some v ∧ in_range w ∧ (is_dev w = true → Dev w = true).
Proof.
  intros Hv Hw. split; [by apply Parse_String|]. unfold in_range.
  destruct (Parse_range s w Hw) as (H1 & H2 & H3 & H4). auto.
Qed.

Lemma version_roundtrip_witness :
  Parse (String (mkVersion 12 0 345 (str "rc-1.2") false)) = Some (mkVersion 12 0 345 (str "rc-1.2") false).
Proof.
  apply (version_roundtrip (mkVersion 12 0 345 (str "rc-1.2") false) (str "1.2") (mkVersion 1 2 0 [] false)).
  - by split.
  - reflexivity.
Defined.

(** The skew check, on any two version strings: an unparseable control version
    accepts, an unparseable agent version refuses; otherwise a connection is accepted
    exactly when a side is a development build, or the majors agree, the minors differ
    by at most the window and the agent is not older (in the order of major, minor,
    patch) than a configured floor.  Without a floor the verdict is the same with the
    versions swapped, so either side may be upgraded first. *)
Theorem Check_policy (p : Policy) (c a : gostring) :
  match Parse c, Parse a with
  | None, _ => (Check p c a).1 = true
  | Some _, None => (Check p c a).1 = false
  | Some cv, Some av =>
      ((Check p c a).1 = true ↔
       Dev cv = true ∨ Dev av = true ∨
       (Major cv = Major av ∧ Z.abs (Minor cv - Minor av) ≤ window p ∧ ¬ below_floor p av)) ∧
      (Min p = [] → (Check p c a).1 = (Check p a c).1)
  end.
Proof.
  destruct (Parse c) as [cv|] eqn:Ec; [|unfold Check; by rewrite Ec].
  destruct (Parse a) as [av|] eqn:Ea; [|unfold Check; by rewrite Ec, Ea].
  pose proof (Check_verdict p c a cv av Ec Ea) as V. pose proof (Check_verdict p a c av cv Ea Ec) as V'.
  split; [done|]. intros HM. assert (Hb : ∀ v, ¬ below_floor p v) by (intros v [? _]; done).
  apply Bool.eq_iff_eq_true. rewrite V, V'. pose proof (Hb av). pose proof (Hb cv).
  replace (Minor av - Minor cv) with (- (Minor cv - Minor av)) by lia. rewrite Z.abs_opp. naive_solver.
Qed.

(** Staged rollout: an agent's cohort is a fixed bucket in 0..99 against the
    split, and a rollout asks for the target exactly below the released share, which is
    nothing before stage 1, the canary ring, canary and early, and the whole fleet from
    stage 3 on.  Hence advancing the stage, or widening the canary and the combined
    rings, never takes the target away from an agent that had it. *)
Theorem rollout_monotone (r r' : Rollout) (id cur : gostring) :
  TargetVersion r = TargetVersion r' → TargetVersion r ≠ [] → Stage r ≤ Stage r' →
  CanaryPercent (normalized (rsplit r)) ≤ CanaryPercent (normalized (rsplit r')) →
  CanaryPercent (normalized (rsplit r)) + EarlyPercent (normalized (rsplit r)) ≤
  CanaryPercent (normalized (rsplit r')) + EarlyPercent (normalized (rsplit r')) →
  (desiredVersion r id cur =
     if stableBucket id <? released_below r then TargetVersion r else cur) ∧
  (stableBucket id < released_below r → desiredVersion r' id cur = TargetVersion r) ∧
  (Stage r ≤ 0 → desiredVersion r id cur = cur) ∧
  (3 ≤ Stage r → desiredVersion r id cur = TargetVersion r).
Proof.
  intros ET HT HS HC HE. rewrite !desired_spec, <- ET. rewrite !bool_decide_false by done.
  cbn [negb andb]. split; [done|]. pose proof (bucket_range id).
  pose proof (normalized_range (rsplit r)). pose proof (normalized_range (rsplit r')).
  unfold released_below.
  z_cases; repeat split; intros; first [done | exfalso; lia].
Qed.

Lemma rollout_monotone_witness :
  stableBucket (str "agent-7") < 100 ∧
  desiredVersion (mkRollout (str "1.5.0") 3 DefaultSplit) (str "agent-7") (str "1.4.0") = str "1.5.0".
Proof.
  split; [reflexivity|].
  apply (rollout_monotone (mkRollout (str "1.5.0") 3 DefaultSplit)
    (mkRollout (str "1.5.0") 4 (mkSplit 10 20)) (str "agent-7") (str "1.4.0"));
    cbn; first [done | lia].
Defined.

End Lifecycle.
