(* ===== verification/Paris.v ===== *)
(** * Paris traceroute probes (internal/path: paris.go, parse.go)

    The ICMP echo whose checksum field is forced to a flow identifier, and the
    recovery of that identifier, with the probe's id and sequence number, from the
    datagram a router quotes back.  The ICMP message parser itself is
    golang.org/x/net/icmp: the parameter [ParseMessage]. *)
From S2P Require Import Prelude.

Module Paris.

#[local] Open Scope Z_scope.

(** ** Ones' complement arithmetic *)

(** [for s>>16 != 0 { s = (s & 0xffff) + (s >> 16) }]: two rounds are enough for a
    32-bit value ([fold_small]). *)
Fixpoint fold (fuel : nat) (s : Z) : Z :=
  match fuel with
  | O => s
  | S fuel =>
      if negb (Z.shiftr s 16 =? 0)
      then fold fuel (u32 (Z.land s 0xffff + Z.shiftr s 16))
      else s
  end.

(** The loop over 16-bit words and the odd last byte. *)
Fixpoint sum_words (s : Z) (b : list byte) : Z :=
  match b with
  | x :: y :: b => sum_words (u32 (s + Z.lor (Z.shiftl (byteZ x) 8) (byteZ y))) b
  | [x] => u32 (s + Z.shiftl (byteZ x) 8)
  | [] => s
  end.

(** [^x] on uint16 *)
Definition not16 (x : Z) : Z := 0xffff - x.

Definition internetChecksum (b : list byte) : Z := not16 (u16 (fold 4 (sum_words 0 b))).

Definition onesAdd (a b : Z) : Z := u16 (fold 4 (u32 (a + b))).

Definition onesSub (a b : Z) : Z := onesAdd a (not16 b).

(** ** The probe *)

Definition icmpEchoType : Z := 8.

(** binary.BigEndian.PutUint16(b[off:off+2], v) *)
Definition put16 (off : nat) (v : Z) (b : list byte) : list byte :=
  firstn off b ++ be_bytes 2 v ++ skipn (off + 2) b.

(** [for i := 10; i < len(b); i++ { b[i] = byte(i) }] *)
Fixpoint pattern (i : Z) (rest : list byte) : list byte :=
  match rest with
  | [] => []
  | _ :: rest => Zbyte i :: pattern (i + 1) rest
  end.

Definition craftParisEcho (id seq flowID payloadLen : Z) : list byte :=
  let payloadLen := if payloadLen <? 2 then 2 else payloadLen in
  let b := replicate (Z.to_nat (8 + payloadLen)) x00 in
  let b := <[0%nat := Zbyte icmpEchoType]> b in
  let b := <[1%nat := Zbyte 0]> b in
  let b := put16 4 id b in
  let b := put16 6 seq b in
  let b := firstn 10 b ++ pattern 10 (skipn 10 b) in
  let cur := internetChecksum b in
  let balance := onesSub (not16 flowID) (not16 cur) in
  let b := put16 8 balance b in
  put16 2 flowID b.

Definition echoChecksumField (b : list byte) : Z :=
  if len b <? 4 then 0 else be_uint (slice b 2 4).

(** ** Responses *)

Record MPLSLabel := mkMPLS { ml_Label : Z; ml_TC : Z; ml_S : bool; ml_TTL : Z }.

(** The library's view of a message: labels are ints there. *)
Record rawLabel := mkRaw { rl_Label : Z; rl_TC : Z; rl_S : bool; rl_TTL : Z }.
Inductive Extension := MPLSLabelStack (labels : list rawLabel) | OtherExtension.
Inductive Body :=
| TimeExceeded (data : list byte) (exts : list Extension)
| DstUnreach (data : list byte) (exts : list Extension)
| Echo (reply : bool) (id seq : Z)
| OtherBody.

Fixpoint mplsFromExtensions (exts : list Extension) : list MPLSLabel :=
  match exts with
  | [] => []
  | MPLSLabelStack ls :: exts =>
      ((λ l, mkMPLS (u32 (rl_Label l)) (u8 (rl_TC l)) (rl_S l) (u8 (rl_TTL l))) <$> ls)
      ++ mplsFromExtensions exts
  | OtherExtension :: exts => mplsFromExtensions exts
  end.

Definition embeddedEcho (data : list byte) : Z * Z * Z * bool :=
  if (len data <? 1) || negb (Z.shiftr (at_ data 0) 4 =? 4) then (0, 0, 0, false) else
  let ihl := Z.land (at_ data 0) 0x0f * 4 in
  if (ihl <? 20) || (len data <? ihl + 8) then (0, 0, 0, false) else
  let inner := slice data ihl (len data) in
  let flow := be_uint (slice inner 2 4) in
  let id := be_uint (slice inner 4 6) in
  let seq := be_uint (slice inner 6 8) in
  (id, seq, flow, true).

Definition embeddedTCP (data : list byte) : Z * Z * bool :=
  if (len data <? 1) || negb (Z.shiftr (at_ data 0) 4 =? 4) then (0, 0, false) else
  let ihl := Z.land (at_ data 0) 0x0f * 4 in
  if (ihl <? 20) || (len data <? ihl + 4) then (0, 0, false) else
  let tcp := slice data ihl (len data) in
  (be_uint (slice tcp 0 2), be_uint (slice tcp 2 4), true).

Inductive responseKind := respOther | respTimeExceeded | respEchoReply | respDstUnreach.

Record icmpResponse := mkResponse {
  ir_kind : responseKind;
  origID : Z; origSeq : Z; origFlow : Z;
  echoID : Z; echoSeq : Z;
  ir_mpls : list MPLSLabel
}.

Section parser.
Context (ParseMessage : list byte → option Body).

Definition parseICMPv4 (b : list byte) : icmpResponse * bool :=
  match ParseMessage b with
  | None => (mkResponse respOther 0 0 0 0 0 [], false)
  | Some (TimeExceeded data exts) =>
      let '(id, seq, flow, _) := embeddedEcho data in
      (mkResponse respTimeExceeded id seq flow 0 0 (mplsFromExtensions exts), true)
  | Some (DstUnreach data exts) =>
      let '(id, seq, flow, _) := embeddedEcho data in
      (mkResponse respDstUnreach id seq flow 0 0 (mplsFromExtensions exts), true)
  | Some (Echo reply id seq) =>
      if reply then (mkResponse respEchoReply 0 0 0 (u16 id) (u16 seq) [], true)
      else (mkResponse respOther 0 0 0 0 0 [], false)
  | Some OtherBody => (mkResponse respOther 0 0 0 0 0 [], false)
  end.

Definition parseTimeExceeded (b : list byte) : list byte * list MPLSLabel * bool :=
  match ParseMessage b with
  | Some (TimeExceeded data exts) => (data, mplsFromExtensions exts, true)
  | _ => ([], [], false)
  end.

End parser.

Example craft_ex : internetChecksum (craftParisEcho 0x1234 7 0xbeef 20) = 0.
Proof. reflexivity. Qed.

(** ** Lemmas: the checksum *)

(** The sum of the words, unbounded. *)
Fixpoint wsum (b : list byte) : Z :=
  match b with
  | x :: y :: b => byteZ x * 256 + byteZ y + wsum b
  | [x] => byteZ x * 256
  | [] => 0
  end.

Lemma two_ind {A} (P : list A → Prop) :
  P [] → (∀ x, P [x]) → (∀ x y l, P l → P (x :: y :: l)) → ∀ l, P l.
Proof.
  intros H0 H1 H2 l. assert (P l ∧ ∀ x, P (x :: l)) as [? _]; [|done].
  induction l as [|x l [IH1 IH2]]; [by split|]. split; [apply IH2|]. intros y. by apply H2.
Qed.

Lemma word_or x y : Z.lor (Z.shiftl (byteZ x) 8) (byteZ y) = byteZ x * 256 + byteZ y.
Proof.
  pose proof (byteZ_range y). rewrite lor_shiftl_add by lia. done.
Qed.

Lemma wsum_range b : 0 ≤ wsum b ≤ 0xffff * ((len b + 1) / 2).
Proof.
  induction b as [|x|x y b IH] using two_ind.
  - change ((len (@nil byte) + 1) / 2) with 0. cbn [wsum]. lia.
  - pose proof (byteZ_range x). cbn [wsum]. change ((len [x] + 1) / 2) with 1. lia.
  - pose proof (byteZ_range x). pose proof (byteZ_range y). cbn [wsum].
    assert (len (x :: y :: b) + 1 = len b + 1 + 1 * 2) as -> by (unfold len; cbn [length]; lia).
    rewrite Z.div_add by lia. lia.
Qed.

Lemma sum_words_spec s b :
  0 ≤ s → s + wsum b < 2 ^ 32 → sum_words s b = s + wsum b.
Proof.
  revert s. induction b as [|x|x y b IH] using two_ind; intros s Hs HB; cbn [sum_words wsum] in *.
  - lia.
  - rewrite Z.shiftl_mul_pow2 by lia. rewrite u32_small; [done|].
    pose proof (byteZ_range x). lia.
  - rewrite word_or. pose proof (byteZ_range x). pose proof (byteZ_range y).
    pose proof (wsum_range b) as [W _]. rewrite u32_small by lia. rewrite IH; lia.
Qed.

Lemma fold_step s : Z.land s 0xffff + Z.shiftr s 16 = s mod 2 ^ 16 + s / 2 ^ 16.
Proof. change 0xffff with (Z.ones 16). by rewrite Z.land_ones, Z.shiftr_div_pow2 by lia. Qed.

Lemma fold_unfold fuel s :
  0 ≤ s < 2 ^ 32 →
  fold (S fuel) s = if s <? 2 ^ 16 then s else fold fuel (s mod 2 ^ 16 + s / 2 ^ 16).
Proof.
  intros Hs. cbn [fold]. rewrite fold_step, Z.shiftr_div_pow2 by lia.
  pose proof (Z.mod_pos_bound s (2 ^ 16)). pose proof (Z.div_mod s (2 ^ 16)).
  assert (s / 2 ^ 16 < 2 ^ 16) by (apply Z.div_lt_upper_bound; lia).
  assert (0 ≤ s / 2 ^ 16) by (apply Z.div_pos; lia).
  rewrite u32_small by lia.
  destruct (s <? 2 ^ 16) eqn:E; zbool.
  - by rewrite Z.div_small by lia.
  - rewrite (proj2 (Z.eqb_neq _ 0)); [done|]. nia.
Qed.

(** Folding is reduction modulo 65535, with representatives 1..65535 for non-zero
    sums; the fuel is enough. *)
Lemma fold_spec s :
  0 ≤ s < 2 ^ 32 →
  0 ≤ fold 4 s < 2 ^ 16 ∧ fold 4 s mod 0xffff = s mod 0xffff ∧ (0 < s → 0 < fold 4 s).
Proof.
  assert (Hstep : ∀ t, 0 ≤ t → (t mod 2 ^ 16 + t / 2 ^ 16) mod 0xffff = t mod 0xffff).
  { intros t Ht. pose proof (Z.div_mod t (2 ^ 16)).
    assert (t = t mod 2 ^ 16 + t / 2 ^ 16 + (t / 2 ^ 16) * 0xffff) as Et by lia.
    rewrite Et at 3. by rewrite Z.mod_add. }
  intros Hs. rewrite fold_unfold by done. destruct (s <? 2 ^ 16) eqn:E1; zbool; [lia|].
  pose proof (Z.mod_pos_bound s (2 ^ 16)). pose proof (Z.div_mod s (2 ^ 16)).
  assert (0 < s / 2 ^ 16 < 2 ^ 16) by (split; [apply Z.div_str_pos; lia|apply Z.div_lt_upper_bound; lia]).
  rewrite <- (Hstep s) by lia. set (t := s mod 2 ^ 16 + s / 2 ^ 16) in *.
  rewrite fold_unfold by lia. destruct (t <? 2 ^ 16) eqn:E2; zbool; [lia|].
  pose proof (Z.mod_pos_bound t (2 ^ 16)). pose proof (Z.div_mod t (2 ^ 16)).
  assert (0 < t / 2 ^ 16 < 2) by (split; [apply Z.div_str_pos; lia|apply Z.div_lt_upper_bound; lia]).
  rewrite <- (Hstep t) by lia. rewrite fold_unfold by lia.
  rewrite (proj2 (Z.ltb_lt _ _)) by lia. lia.
Qed.

(** A non-zero sum divisible by 65535 folds to 0xffff. *)
Lemma fold_full s : 0 < s < 2 ^ 32 → s mod 0xffff = 0 → fold 4 s = 0xffff.
Proof.
  intros Hs Hm. destruct (fold_spec s) as (R & M & P); [lia|]. rewrite Hm in M.
  apply Z.mod_divide in M as [k Hk]; [|lia]. specialize (P ltac:(lia)). nia.
Qed.

Lemma fold_residue s r : 0 < s < 2 ^ 32 → 0 < r < 0xffff → s mod 0xffff = r → fold 4 s = r.
Proof.
  intros Hs Hr Hm. destruct (fold_spec s) as (R & M & P); [lia|].
  destruct (Z.eq_dec (fold 4 s) 0xffff) as [E|E]; [rewrite E, Z.mod_same in M; lia|].
  rewrite Z.mod_small in M; lia.
Qed.

Lemma checksum_spec b :
  0 ≤ wsum b < 2 ^ 32 → internetChecksum b = 0xffff - fold 4 (wsum b).
Proof.
  intros H. unfold internetChecksum, not16. rewrite sum_words_spec by lia.
  rewrite Z.add_0_l. destruct (fold_spec (wsum b) H) as (R & _). by rewrite u16_small.
Qed.

(** ** Lemmas: the probe *)

(** The probe as its fields. *)
Definition echo (csum id seq bal : Z) (pad : list byte) : list byte :=
  bytes [8; 0] ++ be_bytes 2 csum ++ be_bytes 2 id ++ be_bytes 2 seq ++ be_bytes 2 bal ++ pad.

Lemma be2 z : be_bytes 2 z = [Zbyte (z / 256); Zbyte z].
Proof. reflexivity. Qed.

Lemma craft_fields id seq flow n :
  let pad := pattern 10 (replicate (Z.to_nat (Z.max 2 n) - 2) x00) in
  craftParisEcho id seq flow n =
  echo flow id seq (onesSub (not16 flow) (not16 (internetChecksum (echo 0 id seq 0 pad)))) pad.
Proof.
  cbv zeta. unfold craftParisEcho.
  assert (E : (if n <? 2 then 2 else n) = Z.max 2 n) by (destruct (n <? 2) eqn:?; zbool; lia).
  rewrite E. set (m := (Z.to_nat (Z.max 2 n) - 2)%nat).
  assert (Z.to_nat (8 + Z.max 2 n) = (10 + m)%nat) as -> by lia.
  rewrite replicate_add. unfold echo. rewrite !be2. cbn [replicate Nat.add]. unfold put16. rewrite !be2.
  reflexivity.
Qed.

Lemma word_be z : 0 ≤ z < 2 ^ 16 → byteZ (Zbyte (z / 256)) * 256 + byteZ (Zbyte z) = z.
Proof.
  intros Hz. rewrite !byteZ_Zbyte. unfold u8. change (2 ^ 8) with 256.
  pose proof (Z.div_mod z 256). rewrite (Z.mod_small (z / 256)); [lia|].
  split; [apply Z.div_pos; lia|apply Z.div_lt_upper_bound; lia].
Qed.

Lemma wsum_echo csum id seq bal pad :
  0 ≤ csum < 2 ^ 16 → 0 ≤ id < 2 ^ 16 → 0 ≤ seq < 2 ^ 16 → 0 ≤ bal < 2 ^ 16 →
  wsum (echo csum id seq bal pad) = 2048 + csum + id + seq + bal + wsum pad.
Proof.
  intros. unfold echo. rewrite !be2. change (bytes [8; 0]) with [x08; x00]. cbn [app wsum].
  rewrite !word_be by done. change (byteZ x08 * 256 + byteZ x00) with 2048. lia.
Qed.

Lemma be_uint_word z : 0 ≤ z < 2 ^ 16 → be_uint [Zbyte (z / 256); Zbyte z] = z.
Proof. intros. unfold be_uint. cbn [be_acc]. rewrite Z.mul_0_l, Z.add_0_l. by apply word_be. Qed.

Lemma pattern_length i l : length (pattern i l) = length l.
Proof. revert i. induction l as [|x l IH]; intros i; [done|]. cbn. by rewrite IH. Qed.

(** Solving for the balance word makes the sum of the words a multiple of 65535. *)
Lemma balance_spec id seq flow pad :
  0 ≤ id < 2 ^ 16 → 0 ≤ seq < 2 ^ 16 → 0 ≤ flow < 2 ^ 16 → len pad ≤ 2 ^ 16 →
  let bal := onesSub (not16 flow) (not16 (internetChecksum (echo 0 id seq 0 pad))) in
  0 ≤ bal < 2 ^ 16 ∧ 0 ≤ wsum pad < 2 ^ 32 - 2 ^ 20 ∧
  (2048 + id + seq + bal + wsum pad + flow) mod 0xffff = 0.
Proof.
  intros Hi Hs Hf Hp. cbv zeta.
  pose proof (wsum_range pad) as W.
  assert (Hw : (len pad + 1) / 2 ≤ 2 ^ 15).
  { apply Z.lt_succ_r, Z.div_lt_upper_bound; lia. }
  pose proof (wsum_echo 0 id seq 0 pad) as E. rewrite checksum_spec by (rewrite E; lia).
  rewrite E by lia. set (S := 2048 + 0 + id + seq + 0 + wsum pad).
  destruct (fold_spec S) as (R & M & _); [unfold S; lia|].
  unfold onesSub, onesAdd, not16. rewrite u32_small by lia.
  set (x := 0xffff - flow + (0xffff - (0xffff - (0xffff - fold 4 S)))).
  destruct (fold_spec x) as (Rx & Mx & _); [unfold x; lia|]. rewrite u16_small by lia.
  split; [lia|]. split; [lia|].
  assert (Ex : (x + fold 4 S + flow) mod 0xffff = 0).
  { replace (x + fold 4 S + flow) with (2 * 0xffff) by (unfold x; lia). done. }
  replace (2048 + id + seq + fold 4 x + wsum pad + flow) with (fold 4 x + S + flow) by (unfold S; lia).
  rewrite <- Ex. rewrite <- !Z.add_assoc, (Z.add_mod (fold 4 x)), (Z.add_mod x), Mx by lia.
  rewrite (Z.add_mod S), (Z.add_mod (fold 4 S)), M by lia. done.
Qed.

(** The datagram quoted by a router: an IPv4 header and the start of the probe. *)
Definition ipv4_header (hdr : list byte) : Prop :=
  20 ≤ len hdr ∧ Z.shiftr (at_ hdr 0) 4 = 4 ∧ Z.land (at_ hdr 0) 0x0f * 4 = len hdr.

Lemma at_head {h rest : list byte} : 1 ≤ len h → at_ (h ++ rest) 0 = at_ h 0.
Proof. destruct h as [|x h]; [unfold len; cbn; lia|done]. Qed.

Lemma embeddedEcho_quoted hdr csum id seq bal pad k :
  ipv4_header hdr → 0 ≤ csum < 2 ^ 16 → 0 ≤ id < 2 ^ 16 → 0 ≤ seq < 2 ^ 16 → (8 ≤ k)%nat →
  embeddedEcho (hdr ++ firstn k (echo csum id seq bal pad)) = (id, seq, csum, true).
Proof.
  intros (H1 & H2 & H3) Hc Hi Hs Hk.
  assert (∃ rest, firstn k (echo csum id seq bal pad) =
    [x08; x00] ++ be_bytes 2 csum ++ be_bytes 2 id ++ be_bytes 2 seq ++ rest) as [rest ->].
  { do 8 (destruct k as [|k]; [lia|]). unfold echo. rewrite !be2.
    change (bytes [8; 0]) with [x08; x00]. cbn. eauto. }
  rewrite !be2. unfold embeddedEcho. rewrite !(at_head (h := hdr)) by lia.
  set (probe := _ ++ _ ++ _ ++ _ ++ rest).
  pose proof (len_app hdr probe) as HL.
  assert (8 ≤ len probe) by (unfold probe, len; cbn [app length]; lia).
  rewrite H3. rewrite (proj2 (Z.ltb_ge _ 1)), (proj2 (Z.eqb_eq _ 4) H2) by lia. cbn [negb orb].
  rewrite (proj2 (Z.ltb_ge _ 20)), (proj2 (Z.ltb_ge _ (len hdr + 8))) by lia. cbn [orb].
  rewrite slice_app_r.
  change (slice probe 2 4) with [Zbyte (csum / 256); Zbyte csum].
  change (slice probe 4 6) with [Zbyte (id / 256); Zbyte id].
  change (slice probe 6 8) with [Zbyte (seq / 256); Zbyte seq].
  by rewrite !be_uint_word.
Qed.

(** ** Theorems *)

(** The forced checksum: for every id, sequence number, flow and payload length a
    datagram can carry, the crafted packet is an echo request of the requested length
    that carries that id and sequence number and the flow in its checksum field, and a
    verifier still computes 0 over it.  For every flow but 0xffff the field is moreover
    the very checksum a sender would compute. *)
Theorem paris_probe_valid (id seq flow n : Z) :
  0 ≤ id < 2 ^ 16 → 0 ≤ seq < 2 ^ 16 → 0 ≤ flow < 2 ^ 16 → n ≤ 65507 →
  let b := craftParisEcho id seq flow n in
  len b = 8 + Z.max 2 n ∧ firstn 2 b = bytes [icmpEchoType; 0] ∧
  be_uint (slice b 4 6) = id ∧ be_uint (slice b 6 8) = seq ∧
  echoChecksumField b = flow ∧ internetChecksum b = 0 ∧
  (flow ≠ 0xffff → internetChecksum (put16 2 0 b) = flow).
Proof.
  intros Hi Hs Hf Hn. cbv zeta. rewrite craft_fields. set (pad := pattern 10 _).
  assert (Hp : len pad = Z.max 2 n - 2).
  { unfold len, pad. rewrite pattern_length, length_replicate. lia. }
  destruct (balance_spec id seq flow pad Hi Hs Hf ltac:(lia)) as (Hb & Hw & Hm).
  set (bal := onesSub _ _) in *. clearbody bal.
  assert (E0 : put16 2 0 (echo flow id seq bal pad) = echo 0 id seq bal pad) by done.
  assert (El : len (echo flow id seq bal pad) = 10 + len pad).
  { unfold echo. rewrite !len_app, !len_be_bytes. change (len (bytes [8; 0])) with 2. lia. }
  split; [lia|]. split; [done|].
  split; [exact (be_uint_word id Hi)|]. split; [exact (be_uint_word seq Hs)|].
  split; [unfold echoChecksumField; rewrite (proj2 (Z.ltb_ge _ 4)) by lia; exact (be_uint_word flow Hf)|].
  rewrite E0, !checksum_spec, !wsum_echo by (rewrite ?wsum_echo; lia). split.
  - rewrite fold_full; [lia|lia|]. rewrite <- Hm. f_equal. lia.
  - intros Hne. set (S := 2048 + 0 + id + seq + bal + wsum pad).
    assert (HS : (S + flow) mod 0xffff = 0) by (rewrite <- Hm; f_equal; unfold S; lia).
    destruct (Z.eq_dec flow 0) as [->|H0].
    + rewrite Z.add_0_r in HS. rewrite fold_full; [lia|unfold S; lia|done].
    + rewrite (fold_residue S (0xffff - flow)); [lia|unfold S; lia|lia|].
      apply Z.mod_divide in HS as [q Hq]; [|lia].
      replace S with (0xffff - flow + (q - 1) * 0xffff) by lia. rewrite Z.mod_add by lia.
      apply Z.mod_small. lia.
Qed.

Lemma paris_probe_valid_witness :
  internetChecksum (craftParisEcho 4660 7 0xbeef 32) = 0 ∧
  echoChecksumField (craftParisEcho 4660 7 0xbeef 32) = 0xbeef.
Proof.
  destruct (paris_probe_valid 4660 7 0xbeef 32) as (_ & _ & _ & _ & E1 & E2 & _); [lia..|].
  split; [exact E2|exact E1].
Defined.

(** Matching a response to its probe: whenever the ICMP library finds a Time
    Exceeded (or Destination Unreachable) message quoting any IPv4 header, options
    included, followed by at least the first 8 bytes of a crafted probe, the parsed
    response carries that probe's id, sequence number and flow. *)
Theorem quoted_probe_recovered (ParseMessage : list byte → option Body) (msg hdr : list byte)
    (exts : list Extension) (id seq flow n : Z) (k : nat) :
  0 ≤ id < 2 ^ 16 → 0 ≤ seq < 2 ^ 16 → 0 ≤ flow < 2 ^ 16 → (8 ≤ k)%nat → ipv4_header hdr →
  let data := hdr ++ firstn k (craftParisEcho id seq flow n) in
  (ParseMessage msg = Some (TimeExceeded data exts) →
   parseICMPv4 ParseMessage msg =
     (mkResponse respTimeExceeded id seq flow 0 0 (mplsFromExtensions exts), true)) ∧
  (ParseMessage msg = Some (DstUnreach data exts) →
   parseICMPv4 ParseMessage msg =
     (mkResponse respDstUnreach id seq flow 0 0 (mplsFromExtensions exts), true)).
Proof.
  intros Hi Hs Hf Hk Hh. cbv zeta. rewrite craft_fields.
  split; intros E; unfold parseICMPv4; rewrite E, embeddedEcho_quoted; done.
Qed.

Lemma quoted_probe_recovered_witness :
  let hdr := bytes [0x45; 0; 0; 60; 0; 0; 0; 0; 1; 1; 0; 0; 10; 0; 0; 1; 10; 0; 0; 2] in
  let data := hdr ++ firstn 8 (craftParisEcho 4660 7 0xbeef 32) in
  parseICMPv4 (λ _, Some (TimeExceeded data [])) [] =
    (mkResponse respTimeExceeded 4660 7 0xbeef 0 0 [], true).
Proof.
  cbv zeta. apply (quoted_probe_recovered (λ _, Some (TimeExceeded
    (bytes [0x45; 0; 0; 60; 0; 0; 0; 0; 1; 1; 0; 0; 10; 0; 0; 1; 10; 0; 0; 2] ++
     firstn 8 (craftParisEcho 4660 7 0xbeef 32)) [])) []
    (bytes [0x45; 0; 0; 60; 0; 0; 0; 0; 1; 1; 0; 0; 10; 0; 0; 1; 10; 0; 0; 2]) [] 4660 7 0xbeef 32 8);
    try lia; try reflexivity.
  split; [vm_compute; discriminate|]. split; reflexivity.
Defined.

End Paris.
