(* ===== verification/PathMerge.v ===== *)
(** * Merging per-flow traces into a multi-path view (internal/path: model.go, merge.go)

    The configuration checks, the merge of single-flow traces into ECMP branches,
    links and aggregates, and the merge of their fidelity receipts. *)
From S2P Require Import Prelude GoTime GoFloat GoSort Paris.

Module PathMerge.
Import Paris.

#[local] Open Scope string_scope.
#[local] Open Scope list_scope.
#[local] Open Scope Z_scope.

(** ** model.go *)

Record MeasurementFidelity := mkFidelity {
  mf_Version : Z;
  ProbeTransport : string;
  AcquisitionMode : string;
  TimingSource : string;
  HopVisibility : string;
  KernelTimestamping : bool;
  HardwareTimestamping : bool
}.

Record HopNode := mkNode {
  n_IP : string; n_Sent : Z; n_Received : Z; n_LossRatio : float64;
  n_RTTMinMs : float64; n_RTTAvgMs : float64; n_RTTMaxMs : float64; n_MPLS : list MPLSLabel }.

Record Hop := mkHop { h_TTL : Z; h_Nodes : list HopNode }.

Record Link := mkLink { l_TTL : Z; l_From : string; l_To : string }.

#[export] Instance Link_eq_dec : EqDecision Link.
Proof. solve_decision. Defined.
#[export] Instance Link_countable : Countable Link :=
  inj_countable' (λ l, (l_TTL l, l_From l, l_To l)) (λ '(a, b, c), mkLink a b c) (λ '(mkLink _ _ _), eq_refl).

Record Path := mkPath {
  p_Target : string; p_TargetIP : string; p_Mode : string; p_MaxHops : Z; p_TraceCount : Z;
  p_DestinationReached : bool; p_Fidelity : option MeasurementFidelity;
  p_Hops : list Hop; p_Links : list Link }.

Record Config := mkConfig {
  c_Target : string; c_Mode : string; c_Port : Z; c_TraceCount : Z; c_MaxHops : Z;
  c_ProbesPerHop : Z; c_PerHopTimeout : Z; c_Privileged : bool }.

Inductive config_err := NoTarget | UnknownMode | BadPort | BadTraceCount | BadMaxHops | BadProbes.

Definition orDefault (x d : Z) : Z := if x =? 0 then d else x.

Definition normalize (c : Config) : config_err + Config :=
  if bool_decide (c_Target c = "") then inl NoTarget else
  let mode := if bool_decide (c_Mode c = "") then "icmp" else c_Mode c in
  if negb (bool_decide (mode = "icmp")) && negb (bool_decide (mode = "tcp")) then inl UnknownMode else
  if bool_decide (mode = "tcp") && ((c_Port c <? 1) || (65535 <? c_Port c)) then inl BadPort else
  let tc := orDefault (c_TraceCount c) 3 in
  if (tc <? 1) || (16 <? tc) then inl BadTraceCount else
  let mh := orDefault (c_MaxHops c) 30 in
  if (mh <? 1) || (64 <? mh) then inl BadMaxHops else
  let pp := orDefault (c_ProbesPerHop c) 1 in
  if (pp <? 1) || (10 <? pp) then inl BadProbes else
  inr (mkConfig (c_Target c) mode (c_Port c) tc mh pp (orDefault (c_PerHopTimeout c) Second)
         (c_Privileged c)).

Record hopObservation := mkObs {
  o_ttl : Z; o_ip : string; o_sent : Z; o_received : Z; o_rtts : list Z; o_mpls : list MPLSLabel;
  o_final : bool }.

Record flowTrace := mkTrace { t_flowID : Z; t_hops : list hopObservation; t_fidelity : MeasurementFidelity }.

(** ** merge.go *)

Definition round (v : float64) (p : Z) : float64 := fdiv (fround (fmul v (f64 p))) (f64 p).

(** [ms(d)] *)
Definition millis (d : Z) : float64 := fdiv (f64 d) (f64 Millisecond).

(** One pass for minimum, maximum and sum, from the first value; Durations wrap. *)
Definition rttStats (rtts : list Z) : float64 * float64 * float64 :=
  let d0 := hd 0 rtts in
  let '(mn, mx, sum) :=
    foldl (λ '(mn, mx, sum) d,
      (if d <? mn then d else mn, if mx <? d then d else mx, i64 (sum + d))) (d0, d0, 0) rtts in
  (round (millis mn) 1000, round (millis (i64 (Z.quot sum (len rtts)))) 1000, round (millis mx) 1000).

Definition sortedKeys {V} (m : gmap string V) : list string :=
  merge_sort string_le (elements (dom m)).

Record agg := mkAgg { a_sent : Z; a_received : Z; a_rtts : list Z; a_mpls : list MPLSLabel }.

(** The variables of the loop over the observations. *)
Record acc := mkAcc {
  byTTL : gmap Z (gmap string agg);
  linkSet : gset Link;
  maxTTL : Z;
  reached : bool
}.

Definition observe (targetIP : string) (ob : hopObservation) (next : option hopObservation) (s : acc)
    : acc :=
  if bool_decide (o_ip ob = "") then s else
  let maxTTL' := if maxTTL s <? o_ttl ob then o_ttl ob else maxTTL s in
  let ips := default ∅ (byTTL s !! o_ttl ob) in
  let a := default (mkAgg 0 0 [] []) (ips !! o_ip ob) in
  let a := mkAgg (i64 (a_sent a + o_sent ob)) (i64 (a_received a + o_received ob))
             (a_rtts a ++ o_rtts ob)
             (if (0 <? len (o_mpls ob)) && (len (a_mpls a) =? 0) then o_mpls ob else a_mpls a) in
  let reached' := if bool_decide (o_ip ob = targetIP) then true else reached s in
  let linkSet' :=
    match next with
    | Some nx => if bool_decide (o_ip nx = "") then linkSet s
                 else {[mkLink (o_ttl ob) (o_ip ob) (o_ip nx)]} ∪ linkSet s
    | None => linkSet s
    end in
  mkAcc (<[o_ttl ob := <[o_ip ob := a]> ips]> (byTTL s)) linkSet' maxTTL' reached'.

Fixpoint hops_loop (targetIP : string) (hops : list hopObservation) (s : acc) : acc :=
  match hops with
  | [] => s
  | ob :: rest => hops_loop targetIP rest (observe targetIP ob (head rest) s)
  end.

Definition hopNode (ip : string) (a : agg) : HopNode :=
  let loss := if 0 <? a_sent a
              then round (fdiv (f64 (i64 (a_sent a - a_received a))) (f64 (a_sent a))) 10000
              else f64 0 in
  let '(mn, av, mx) := if 0 <? len (a_rtts a) then rttStats (a_rtts a) else (f64 0, f64 0, f64 0) in
  mkNode ip (a_sent a) (a_received a) loss mn av mx (a_mpls a).

(** [for ttl := 1; ttl <= maxTTL; ttl++] from [ttl], [n] rounds left. *)
Fixpoint ttl_loop (n : nat) (ttl : Z) (m : gmap Z (gmap string agg)) : list Hop :=
  match n with
  | O => []
  | S n =>
      let ips := default ∅ (m !! ttl) in
      (if Z.of_nat (size ips) =? 0 then []
       else [mkHop ttl ((λ ip, hopNode ip (default (mkAgg 0 0 [] []) (ips !! ip))) <$> sortedKeys ips)])
      ++ ttl_loop n (ttl + 1) m
  end.

Definition link_le (a b : Link) : Prop :=
  (if negb (l_TTL a =? l_TTL b) then l_TTL a <? l_TTL b
   else if negb (bool_decide (l_From a = l_From b)) then String.leb (l_From a) (l_From b)
   else String.leb (l_To a) (l_To b)) = true.
#[export] Instance link_le_dec : RelDecision link_le := λ a b, decide (_ = true).

Fixpoint scan_receipts (traces : list flowTrace) : option (list MeasurementFidelity) :=
  match traces with
  | [] => Some []
  | tr :: traces =>
      let r := t_fidelity tr in
      if negb (mf_Version r =? 1) || bool_decide (ProbeTransport r = "") ||
         bool_decide (AcquisitionMode r = "") || bool_decide (TimingSource r = "") ||
         bool_decide (HopVisibility r = "")
      then None
      else match scan_receipts traces with Some rs => Some (r :: rs) | None => None end
  end.

Definition mix (out r : string) : string := if negb (bool_decide (r = out)) then "mixed" else out.

Definition mergeFidelity (traces : list flowTrace) : option MeasurementFidelity :=
  if len traces =? 0 then None else
  match scan_receipts traces with
  | None | Some [] => None
  | Some (first :: rest) =>
      Some (foldl (λ out r,
        mkFidelity (mf_Version out) (mix (ProbeTransport out) (ProbeTransport r))
          (mix (AcquisitionMode out) (AcquisitionMode r)) (mix (TimingSource out) (TimingSource r))
          (mix (HopVisibility out) (HopVisibility r))
          (KernelTimestamping out && KernelTimestamping r)
          (HardwareTimestamping out && HardwareTimestamping r)) first rest)
  end.

Definition mergeTraces (cfg : Config) (targetIP : string) (traces : list flowTrace) : Path :=
  let s := foldl (λ s tr, hops_loop targetIP (t_hops tr) s) (mkAcc ∅ ∅ 0 false) traces in
  mkPath (c_Target cfg) targetIP (c_Mode cfg) (c_MaxHops cfg) (len traces)
    (reached s) (mergeFidelity traces)
    (ttl_loop (Z.to_nat (maxTTL s)) 1 (byTTL s))
    (merge_sort link_le (elements (linkSet s))).

(** ** Lemmas: the loop over the observations *)

(** Every observation with the one that follows it in its trace. *)
Fixpoint pairs (hops : list hopObservation) : list (hopObservation * option hopObservation) :=
  match hops with
  | [] => []
  | ob :: rest => (ob, head rest) :: pairs rest
  end.
Definition steps (traces : list flowTrace) : list (hopObservation * option hopObservation) :=
  traces ≫= λ tr, pairs (t_hops tr).

Definition run (targetIP : string) (l : list (hopObservation * option hopObservation)) : acc :=
  foldl (λ s p, observe targetIP p.1 p.2 s) (mkAcc ∅ ∅ 0 false) l.

Lemma hops_loop_steps targetIP hops s :
  hops_loop targetIP hops s = foldl (λ s p, observe targetIP p.1 p.2 s) s (pairs hops).
Proof. revert s. induction hops as [|ob rest IH]; intros s; [done|]. apply IH. Qed.

Lemma merge_run targetIP traces :
  foldl (λ s tr, hops_loop targetIP (t_hops tr) s) (mkAcc ∅ ∅ 0 false) traces =
  run targetIP (steps traces).
Proof.
  unfold run. generalize (mkAcc ∅ ∅ 0 false). induction traces as [|tr traces IH]; intros s; [done|].
  cbn [foldl steps mbind list_bind]. rewrite hops_loop_steps, IH. symmetry. apply foldl_app.
Qed.

(** The observations of a responder at a distance. *)
Definition at_hop (ttl : Z) (ip : string) (l : list (hopObservation * option hopObservation))
    : list hopObservation :=
  filter (λ ob, o_ttl ob = ttl ∧ o_ip ob = ip) (l.*1).

Definition sum (f : hopObservation → Z) (obs : list hopObservation) : Z :=
  foldr (λ ob z, f ob + z) 0 obs.

(** What is aggregated of them. *)
Definition agg_of (obs : list hopObservation) : agg :=
  mkAgg (i64 (sum o_sent obs)) (i64 (sum o_received obs)) (obs ≫= o_rtts)
    (default [] (head (filter (λ l, l ≠ []) (o_mpls <$> obs)))).

Lemma at_hop_snoc ttl ip l p :
  at_hop ttl ip (l ++ [p]) =
  at_hop ttl ip l ++ if decide (o_ttl p.1 = ttl ∧ o_ip p.1 = ip) then [p.1] else [].
Proof.
  unfold at_hop. rewrite fmap_app, filter_app. done.
Qed.

Lemma sum_snoc f obs ob : sum f (obs ++ [ob]) = sum f obs + f ob.
Proof. unfold sum. induction obs as [|x obs IH]; cbn [app foldr] in *; lia. Qed.

Lemma i64_add_l a b : i64 (i64 a + b) = i64 (a + b).
Proof.
  unfold i64. f_equal.
  replace ((a + 2 ^ 63) mod 2 ^ 64 - 2 ^ 63 + b + 2 ^ 63) with ((a + 2 ^ 63) mod 2 ^ 64 + b) by lia.
  rewrite Zplus_mod_idemp_l. f_equal. lia.
Qed.

Lemma agg_snoc obs ob :
  agg_of (obs ++ [ob]) =
  mkAgg (i64 (a_sent (agg_of obs) + o_sent ob)) (i64 (a_received (agg_of obs) + o_received ob))
    (a_rtts (agg_of obs) ++ o_rtts ob)
    (if (0 <? len (o_mpls ob)) && (len (a_mpls (agg_of obs)) =? 0) then o_mpls ob
     else a_mpls (agg_of obs)).
Proof.
  unfold agg_of. cbn [a_sent a_received a_rtts a_mpls]. rewrite !sum_snoc, !i64_add_l. f_equal.
  - by rewrite bind_app; cbn; rewrite app_nil_r.
  - rewrite fmap_app, filter_app. cbn [fmap list_fmap].
    assert (Hne : ∀ l, l ∈ filter (λ l : list MPLSLabel, l ≠ []) (o_mpls <$> obs) → l ≠ []).
    { intros l Hl. by apply list_elem_of_filter in Hl as [? _]. }
    destruct (filter _ (o_mpls <$> obs)) as [|x r]; cbn.
    + destruct (o_mpls ob) as [|y r] eqn:E; cbn; [done|]. by unfold len.
    + destruct x as [|y x]; [by destruct (Hne []); [left|]|].
      unfold len. cbn. by rewrite andb_false_r.
Qed.

(** [k] links an observation to the responding one right after it. *)
Definition adjacent (a : hopObservation) (n : option hopObservation) (k : Link) : Prop :=
  match n with
  | Some b => o_ip a ≠ "" ∧ o_ip b ≠ "" ∧ k = mkLink (o_ttl a) (o_ip a) (o_ip b)
  | None => False
  end.

Lemma adjacent_snoc l a n k :
  (∃ a' n', (a', n') ∈ l ++ [(a, n)] ∧ adjacent a' n' k) ↔
  (∃ a' n', (a', n') ∈ l ∧ adjacent a' n' k) ∨ adjacent a n k.
Proof.
  split.
  - intros (a' & n' & H & K). rewrite elem_of_app, list_elem_of_singleton in H.
    destruct H as [H|[= -> ->]]; [left; eauto|by right].
  - intros [(a' & n' & H & K)|K]; [exists a', n' | exists a, n]; (split; [|done]); set_solver.
Qed.

(** The state of the loop after any list of observations. *)
Record run_ok (targetIP : string) (l : list (hopObservation * option hopObservation)) (s : acc) : Prop := {
  ro_agg ttl ip : (m ← byTTL s !! ttl; m !! ip) =
    if decide (ip = "" ∨ at_hop ttl ip l = []) then None else Some (agg_of (at_hop ttl ip l));
  ro_links k : k ∈ linkSet s ↔ ∃ a n, (a, n) ∈ l ∧ adjacent a n k;
  ro_max a n : (a, n) ∈ l → o_ip a ≠ "" → o_ttl a ≤ maxTTL s;
  ro_reached : reached s = true ↔ ∃ a n, (a, n) ∈ l ∧ o_ip a ≠ "" ∧ o_ip a = targetIP
}.

Lemma observe_ok targetIP l s a n :
  run_ok targetIP l s → run_ok targetIP (l ++ [(a, n)]) (observe targetIP a n s).
Proof.
  intros [A L M R]. unfold observe. destruct (bool_decide_reflect (o_ip a = "")) as [E|E].
  - split.
    + intros ttl ip. rewrite A, at_hop_snoc. cbn [fst].
      destruct (decide (o_ttl a = ttl ∧ o_ip a = ip)) as [[_ <-]|]; [|by rewrite app_nil_r].
      rewrite !decide_True by auto. done.
    + intros k. rewrite adjacent_snoc, <- L. unfold adjacent. split; [by left|].
      intros [?|?]; [done|]. by destruct n as [nx|]; [destruct H|].
    + intros b m. rewrite elem_of_app, list_elem_of_singleton. intros [H|[= -> ->]] Hb; [by eapply M|done].
    + clear A M L. rewrite R. setoid_rewrite elem_of_app. setoid_rewrite list_elem_of_singleton.
      naive_solver.
  - assert (Ha : default (mkAgg 0 0 [] []) (default ∅ (byTTL s !! o_ttl a) !! o_ip a) =
                 agg_of (at_hop (o_ttl a) (o_ip a) l)).
    { pose proof (A (o_ttl a) (o_ip a)) as Aa.
      assert (default ∅ (byTTL s !! o_ttl a) !! o_ip a = (m ← byTTL s !! o_ttl a; m !! o_ip a)) as ->
        by by destruct (byTTL s !! o_ttl a).
      rewrite Aa. destruct (decide _) as [[?|Eh]|]; [done|by rewrite Eh|done]. }
    split; cbn [byTTL linkSet maxTTL reached].
    + intros ttl ip. rewrite at_hop_snoc. cbn [fst]. specialize (A ttl ip).
      destruct (decide (o_ttl a = ttl)) as [<-|Ht].
      * rewrite lookup_insert_eq. cbn [mbind option_bind].
        destruct (decide (o_ip a = ip)) as [<-|Hi].
        { rewrite lookup_insert_eq, (decide_True _ _ (conj eq_refl eq_refl)).
          rewrite decide_False by (intros [H|H]; [done|by apply app_nil in H as [_ H]]).
          by rewrite agg_snoc, Ha. }
        rewrite lookup_insert_ne by done.
        rewrite (decide_False (P := o_ttl a = o_ttl a ∧ o_ip a = ip)) by (by intros [_ ?]).
        rewrite app_nil_r, <- A.
        by destruct (byTTL s !! o_ttl a).
      * rewrite lookup_insert_ne by done.
        rewrite (decide_False (P := o_ttl a = ttl ∧ o_ip a = ip)) by (by intros [? _]).
        by rewrite app_nil_r.
    + intros k. rewrite adjacent_snoc, <- L. unfold adjacent.
      destruct n as [nx|]; [destruct (bool_decide_reflect (o_ip nx = "")) as [En|En]|].
      * split; [by left|]. intros [?|(_ & ? & _)]; done.
      * rewrite elem_of_union, elem_of_singleton.
        split; [intros [H|H]; [by right|by left]|intros [H|(_ & _ & H)]; [by right|by left]].
      * split; [by left|]. by intros [?|?].
    + intros b m. rewrite elem_of_app, list_elem_of_singleton.
      destruct (maxTTL s <? o_ttl a) eqn:Em; zbool; intros [H|[= -> ->]] Hb; try lia;
        specialize (M _ _ H Hb); lia.
    + clear A M L Ha. setoid_rewrite elem_of_app. setoid_rewrite list_elem_of_singleton.
      destruct (bool_decide_reflect (o_ip a = targetIP)) as [Ea|Ea]; [naive_solver|].
      rewrite R. naive_solver.
Qed.

Lemma run_run_ok targetIP l : run_ok targetIP l (run targetIP l).
Proof.
  induction l as [|[a n] l IH] using rev_ind.
  - split; cbn.
    + intros ttl ip. rewrite lookup_empty, decide_True by by right. done.
    + set_solver.
    + set_solver.
    + naive_solver set_solver.
  - unfold run. rewrite foldl_app. by apply observe_ok.
Qed.

(** ** Lemmas: the output *)

#[export] Instance link_le_total : Total link_le.
Proof.
  intros a b. unfold link_le. rewrite (Z.eqb_sym (l_TTL b)).
  destruct (l_TTL a =? l_TTL b) eqn:E; cbn [negb]; zbool.
  - rewrite (bool_decide_ext (l_From b = l_From a) (l_From a = l_From b)) by done.
    destruct (bool_decide _); cbn [negb]; [destruct (String.leb_total (l_To a) (l_To b)) |
      destruct (String.leb_total (l_From a) (l_From b))]; auto.
  - destruct (l_TTL a <? l_TTL b) eqn:E1; [by left|]. zbool. right. apply Z.ltb_lt. lia.
Qed.

Lemma sortedKeys_spec {V} (m : gmap string V) :
  Sorted string_le (sortedKeys m) ∧ NoDup (sortedKeys m) ∧ (∀ k, k ∈ sortedKeys m ↔ is_Some (m !! k)).
Proof.
  unfold sortedKeys. pose proof (merge_sort_Permutation string_le (elements (dom m))) as P.
  split; [apply Sorted_merge_sort; apply _|]. split.
  - rewrite P. apply NoDup_elements.
  - intros k. by rewrite P, elem_of_elements, elem_of_dom.
Qed.

(** The hop at a distance. *)
Definition hop_at (ttl : Z) (m : gmap Z (gmap string agg)) : Hop :=
  let ips := default ∅ (m !! ttl) in
  mkHop ttl ((λ ip, hopNode ip (default (mkAgg 0 0 [] []) (ips !! ip))) <$> sortedKeys ips).

Lemma ttl_loop_elem n ttl m h :
  h ∈ ttl_loop n ttl m ↔
  ∃ t, ttl ≤ t < ttl + Z.of_nat n ∧ default ∅ (m !! t) ≠ ∅ ∧ h = hop_at t m.
Proof.
  revert ttl. induction n as [|n IH]; intros ttl; cbn [ttl_loop].
  - split; [set_solver|]. intros (t & ? & _). lia.
  - rewrite elem_of_app, IH. split.
    + intros [H|(t & Ht & H)]; [|exists t; split; [lia|done]].
      destruct (Z.of_nat (size _) =? 0) eqn:E; [set_solver|]. zbool.
      apply list_elem_of_singleton in H. exists ttl. split; [lia|]. split; [|done].
      intros H0. rewrite H0, map_size_empty in E. lia.
    + intros (t & Ht & Hn & ->). destruct (Z.eq_dec t ttl) as [->|].
      * left. rewrite (proj2 (Z.eqb_neq _ 0)); [by left|]. intros H0. apply Hn, map_size_empty_inv. lia.
      * right. exists t. split; [lia|done].
Qed.

Lemma ttl_loop_sorted n ttl m : StronglySorted Z.lt (h_TTL <$> ttl_loop n ttl m).
Proof.
  revert ttl. induction n as [|n IH]; intros ttl; cbn [ttl_loop]; [constructor|].
  destruct (Z.of_nat (size _) =? 0); [apply IH|]. cbn. constructor; [apply IH|].
  apply Forall_fmap, Forall_forall. intros h H. apply ttl_loop_elem in H as (t & Ht & _ & ->). cbn. lia.
Qed.

Lemma hopNode_IP ip a : n_IP (hopNode ip a) = ip.
Proof. unfold hopNode. by destruct (if 0 <? len (a_rtts a) then _ else _) as [[??]?]. Qed.

Lemma hop_at_IPs ttl m : n_IP <$> h_Nodes (hop_at ttl m) = sortedKeys (default ∅ (m !! ttl)).
Proof.
  cbn. rewrite <- list_fmap_compose. rewrite <- (list_fmap_id (sortedKeys _)) at 2.
  apply list_fmap_ext. intros i ip _. apply hopNode_IP.
Qed.

Lemma at_hop_elem ttl ip l : at_hop ttl ip l ≠ [] → ∃ a n, (a, n) ∈ l ∧ o_ttl a = ttl ∧ o_ip a = ip.
Proof.
  intros H. destruct (at_hop ttl ip l) as [|a r] eqn:E; [done|].
  assert (Ha : a ∈ at_hop ttl ip l) by (rewrite E; by left).
  apply list_elem_of_filter in Ha as [[H1 H2] Ha]. apply list_elem_of_fmap in Ha as ([a' n] & -> & Ha).
  by exists a', n.
Qed.

Lemma node_iff targetIP l s ttl ip :
  run_ok targetIP l s →
  ip ∈ sortedKeys (default ∅ (byTTL s !! ttl)) ↔ ip ≠ "" ∧ at_hop ttl ip l ≠ [].
Proof.
  intros [A _ _ _]. rewrite (proj2 (proj2 (sortedKeys_spec _))). specialize (A ttl ip).
  assert (E : default ∅ (byTTL s !! ttl) !! ip = (m ← byTTL s !! ttl; m !! ip))
    by by destruct (byTTL s !! ttl).
  rewrite E, A. destruct (decide _) as [[H|H]|H].
  - split; [by intros [? ?]|]. by intros [? _].
  - split; [by intros [? ?]|]. by intros [_ ?].
  - split; [|by eauto]. intros _. split; intros H1; apply H; auto.
Qed.

Lemma node_agg targetIP l s ttl ip :
  run_ok targetIP l s → ip ≠ "" → at_hop ttl ip l ≠ [] →
  default (mkAgg 0 0 [] []) (default ∅ (byTTL s !! ttl) !! ip) = agg_of (at_hop ttl ip l).
Proof.
  intros [A _ _ _] H1 H2. specialize (A ttl ip).
  assert (E : default ∅ (byTTL s !! ttl) !! ip = (m ← byTTL s !! ttl; m !! ip))
    by by destruct (byTTL s !! ttl).
  rewrite E, A, decide_False by (by intros [?|?]). done.
Qed.

(** ** Lemmas: fidelity receipts *)

Definition complete (r : MeasurementFidelity) : Prop :=
  mf_Version r = 1 ∧ ProbeTransport r ≠ "" ∧ AcquisitionMode r ≠ "" ∧ TimingSource r ≠ "" ∧
  HopVisibility r ≠ "".

Lemma scan_receipts_spec traces :
  match scan_receipts traces with
  | Some rs => rs = t_fidelity <$> traces ∧ Forall complete rs
  | None => ¬ Forall complete (t_fidelity <$> traces)
  end.
Proof.
  induction traces as [|tr traces IH]; [by split; [|constructor]|]. cbn [scan_receipts fmap list_fmap].
  set (r := t_fidelity tr).
  assert (Hc : (negb (mf_Version r =? 1) || bool_decide (ProbeTransport r = "") ||
         bool_decide (AcquisitionMode r = "") || bool_decide (TimingSource r = "") ||
         bool_decide (HopVisibility r = "")) = false ↔ complete r).
  { unfold complete. rewrite !orb_false_iff, negb_false_iff, Z.eqb_eq, !bool_decide_eq_false. tauto. }
  destruct (_ || bool_decide (HopVisibility r = "")).
  - intros H. apply Forall_cons in H as [H _]. by apply Hc in H.
  - destruct (scan_receipts traces) as [rs|].
    + destruct IH as [-> IH]. split; [done|]. constructor; [by apply Hc|done].
    + intros H. apply Forall_cons in H as [_ H]. done.
Qed.

(** The common value of a field, or "mixed". *)
Definition common (f : MeasurementFidelity → string) (first : MeasurementFidelity)
    (rest : list MeasurementFidelity) : string :=
  if decide (Forall (λ r, f r = f first) rest) then f first else "mixed".

Lemma mix_fold f first rest :
  foldl (λ out r, mix out (f r)) (f first) rest = common f first rest.
Proof.
  assert (H : ∀ out, foldl (λ out r, mix out (f r)) out rest =
    if decide (Forall (λ r, f r = out) rest) then out else "mixed"); [|apply H].
  induction rest as [|r rest IH]; intros out; [done|]. cbn [foldl]. rewrite IH. unfold mix.
  destruct (bool_decide_reflect (f r = out)) as [E|E]; cbn [negb].
  - apply decide_ext. rewrite Forall_cons. naive_solver.
  - rewrite (decide_False (P := Forall (λ r, f r = out) (r :: rest))) by (by intros [? _]%Forall_cons).
    by destruct (decide _).
Qed.

Lemma fidelity_fold rest : ∀ out,
  foldl (λ out r,
    mkFidelity (mf_Version out) (mix (ProbeTransport out) (ProbeTransport r))
      (mix (AcquisitionMode out) (AcquisitionMode r)) (mix (TimingSource out) (TimingSource r))
      (mix (HopVisibility out) (HopVisibility r))
      (KernelTimestamping out && KernelTimestamping r)
      (HardwareTimestamping out && HardwareTimestamping r)) out rest =
  mkFidelity (mf_Version out)
    (foldl (λ o r, mix o (ProbeTransport r)) (ProbeTransport out) rest)
    (foldl (λ o r, mix o (AcquisitionMode r)) (AcquisitionMode out) rest)
    (foldl (λ o r, mix o (TimingSource r)) (TimingSource out) rest)
    (foldl (λ o r, mix o (HopVisibility r)) (HopVisibility out) rest)
    (KernelTimestamping out && forallb KernelTimestamping rest)
    (HardwareTimestamping out && forallb HardwareTimestamping rest).
Proof.
  induction rest as [|r rest IH]; intros out; cbn [foldl forallb].
  - rewrite !andb_true_r. by destruct out.
  - rewrite IH. cbn. by rewrite !andb_assoc.
Qed.

(** ** Theorems *)

(** The merge is exact, for any traces: the nodes of the hops are exactly the
    responders seen at each distance from 1 on, each carrying the totals of its own
    observations (loss and RTTs computed from those); hops come in strictly ascending
    TTL without empty ones, nodes in ascending address order without repeats; the links
    are exactly the adjacencies of consecutive responding observations of one flow,
    sorted and without repeats; and the destination is reached exactly when some
    responder is the target. *)
Theorem mergeTraces_exact (cfg : Config) (targetIP : string) (traces : list flowTrace) :
  let p := mergeTraces cfg targetIP traces in
  let l := steps traces in
  (∀ ttl ip, (∃ h nd, h ∈ p_Hops p ∧ h_TTL h = ttl ∧ nd ∈ h_Nodes h ∧ n_IP nd = ip) ↔
     1 ≤ ttl ∧ ip ≠ "" ∧ at_hop ttl ip l ≠ []) ∧
  (∀ h nd, h ∈ p_Hops p → nd ∈ h_Nodes h →
     nd = hopNode (n_IP nd) (agg_of (at_hop (h_TTL h) (n_IP nd) l))) ∧
  StronglySorted Z.lt (h_TTL <$> p_Hops p) ∧
  (∀ h, h ∈ p_Hops p → Sorted string_le (n_IP <$> h_Nodes h) ∧ NoDup (n_IP <$> h_Nodes h) ∧
     h_Nodes h ≠ []) ∧
  (∀ k, k ∈ p_Links p ↔ ∃ a n, (a, n) ∈ l ∧ adjacent a n k) ∧
  Sorted link_le (p_Links p) ∧ NoDup (p_Links p) ∧
  (p_DestinationReached p = true ↔ ∃ a n, (a, n) ∈ l ∧ o_ip a ≠ "" ∧ o_ip a = targetIP).
Proof.
  cbv zeta. unfold mergeTraces. rewrite merge_run. set (l := steps traces).
  pose proof (run_run_ok targetIP l) as RO. set (s := run targetIP l) in *.
  cbn [p_Hops p_Links p_DestinationReached].
  assert (Hh : ∀ h, h ∈ ttl_loop (Z.to_nat (maxTTL s)) 1 (byTTL s) → ∃ ttl, 1 ≤ ttl ∧
    default ∅ (byTTL s !! ttl) ≠ ∅ ∧ h = hop_at ttl (byTTL s)).
  { intros h H. apply ttl_loop_elem in H as (t & Ht & Hn & ->). exists t. split; [lia|done]. }
  split; [|split; [|split; [apply ttl_loop_sorted|split; [|split; [|split; [|split]]]]]].
  - intros ttl ip. split.
    + intros (h & nd & H & <- & Hnd & <-). destruct (Hh h H) as (t & Ht & _ & ->). split; [done|].
      apply (node_iff targetIP l s); [done|]. cbn [h_TTL hop_at]. rewrite <- hop_at_IPs.
      by apply list_elem_of_fmap_2.
    + intros (H1 & H2 & H3). destruct (at_hop_elem _ _ _ H3) as (a & n & Ha & Ht & Hip).
      pose proof (ro_max _ _ _ RO a n Ha ltac:(congruence)) as Hmax.
      pose proof (proj2 (node_iff targetIP l s ttl ip RO) (conj H2 H3)) as Hk.
      rewrite <- hop_at_IPs in Hk. apply list_elem_of_fmap in Hk as (nd & -> & Hnd).
      exists (hop_at ttl (byTTL s)), nd. split; [|done]. apply ttl_loop_elem. exists ttl.
      split; [lia|]. split; [|done]. intros E. cbn in Hnd. rewrite E in Hnd.
      apply list_elem_of_fmap in Hnd as (ip & _ & Hip').
      apply (proj2 (proj2 (sortedKeys_spec _))) in Hip'. rewrite lookup_empty in Hip'. by destruct Hip'.
  - intros h nd H Hnd. destruct (Hh h H) as (t & Ht & _ & ->). cbn in Hnd |- *.
    apply list_elem_of_fmap in Hnd as (ip & -> & Hip). rewrite hopNode_IP.
    apply (node_iff targetIP l s t ip RO) in Hip as [H1 H2]. by rewrite (node_agg targetIP l s).
  - intros h H. destruct (Hh h H) as (t & Ht & Hn & ->). rewrite hop_at_IPs.
    destruct (sortedKeys_spec (default ∅ (byTTL s !! t))) as (S1 & S2 & S3). split; [done|]. split; [done|].
    intros E. apply map_choose in Hn as (ip & a & Hip).
    assert (Hin : ip ∈ n_IP <$> h_Nodes (hop_at t (byTTL s))) by (rewrite hop_at_IPs; apply S3; by rewrite Hip).
    rewrite E in Hin. by apply not_elem_of_nil in Hin.
  - intros k. rewrite merge_sort_Permutation, elem_of_elements. apply RO.
  - apply Sorted_merge_sort. apply _.
  - rewrite merge_sort_Permutation. apply NoDup_elements.
  - apply RO.
Qed.

(** A merged fidelity receipt never claims more than every trace supports: there
    is one exactly when there are traces and every receipt is complete and of version 1;
    each descriptive field is the value all traces share, or "mixed"; and a timestamping
    capability is claimed exactly when every trace used it. *)
Theorem mergeFidelity_honest (traces : list flowTrace) :
  match mergeFidelity traces with
  | None => traces = [] ∨ ¬ Forall complete (t_fidelity <$> traces)
  | Some out =>
      Forall complete (t_fidelity <$> traces) ∧
      ∃ first rest, t_fidelity <$> traces = first :: rest ∧ mf_Version out = 1 ∧
        ProbeTransport out = common ProbeTransport first rest ∧
        AcquisitionMode out = common AcquisitionMode first rest ∧
        TimingSource out = common TimingSource first rest ∧
        HopVisibility out = common HopVisibility first rest ∧
        KernelTimestamping out = forallb KernelTimestamping (first :: rest) ∧
        HardwareTimestamping out = forallb HardwareTimestamping (first :: rest)
  end.
Proof.
  unfold mergeFidelity. destruct traces as [|tr traces]; [by left|].
  rewrite (proj2 (Z.eqb_neq _ 0)) by (unfold len; cbn; lia).
  pose proof (scan_receipts_spec (tr :: traces)) as Sc.
  destruct (scan_receipts (tr :: traces)) as [[|first rest]|]; [by destruct Sc| |by right].
  destruct Sc as [E C]. rewrite <- E. split; [done|]. exists first, rest. rewrite fidelity_fold.
  cbn. rewrite !mix_fold. apply Forall_cons in C as [[C _] _]. done.
Qed.

(** A configuration that passes normalize is within its bounds - mode icmp or tcp,
    a valid port in tcp mode, 1 to 16 flows, 1 to 64 hops, 1 to 10 probes - so a trace
    sends at most 10240 probes, and normalizing it again changes nothing. *)
Theorem normalize_bounds (c c' : Config) :
  normalize c = inr c' →
  c_Target c' = c_Target c ∧ c_Target c' ≠ "" ∧ (c_Mode c' = "icmp" ∨ c_Mode c' = "tcp") ∧
  (c_Mode c' = "tcp" → 1 ≤ c_Port c' ≤ 65535) ∧
  1 ≤ c_TraceCount c' ≤ 16 ∧ 1 ≤ c_MaxHops c' ≤ 64 ∧ 1 ≤ c_ProbesPerHop c' ≤ 10 ∧
  c_TraceCount c' * c_MaxHops c' * c_ProbesPerHop c' ≤ 10240 ∧ normalize c' = inr c'.
Proof.
  unfold normalize. destruct (bool_decide_reflect (c_Target c = "")) as [|HT]; [done|].
  set (mode := if bool_decide (c_Mode c = "") then _ else _).
  destruct (negb _ && negb _) eqn:EM; [done|].
  destruct (bool_decide (mode = "tcp") && _) eqn:EP; [done|].
  destruct ((_ <? 1) || (16 <? _)) eqn:E1; [done|]. destruct ((_ <? 1) || (64 <? _)) eqn:E2; [done|].
  destruct ((_ <? 1) || (10 <? _)) eqn:E3; [done|]. intros [= <-].
  cbn [c_Target c_Mode c_Port c_TraceCount c_MaxHops c_ProbesPerHop c_PerHopTimeout c_Privileged].
  set (tc := orDefault (c_TraceCount c) 3) in *. set (mh := orDefault (c_MaxHops c) 30) in *.
  set (pp := orDefault (c_ProbesPerHop c) 1) in *.
  assert (Hm : mode = "icmp" ∨ mode = "tcp").
  { apply andb_false_iff in EM as [EM|EM]; apply negb_false_iff, bool_decide_eq_true in EM; auto. }
  assert (Hd : ∀ x d, d ≠ 0 → orDefault (orDefault x d) d = orDefault x d).
  { intros x d Hd. unfold orDefault. destruct (x =? 0) eqn:E; zbool; [|by rewrite (proj2 (Z.eqb_neq x 0))].
    by rewrite (proj2 (Z.eqb_neq d 0)). }
  split; [done|]. split; [done|]. split; [done|]. split.
  { intros Hx. rewrite bool_decide_true in EP by done. cbn in EP. apply orb_false_iff in EP as [? ?].
    zbool. lia. }
  rewrite bool_decide_false by done.
  assert (bool_decide (mode = "") = false) as ->.
  { apply bool_decide_eq_false. intros E. rewrite E in Hm. naive_solver. }
  rewrite EM, EP. unfold tc, mh, pp. rewrite !Hd by done. fold tc mh pp. rewrite E1, E2, E3.
  apply orb_false_iff in E1 as [? ?], E2 as [? ?], E3 as [? ?]. zbool.
  split; [lia|]. split; [lia|]. split; [lia|]. split; [|done].
  assert (tc * mh ≤ 1024) by nia. assert (0 ≤ tc * mh) by nia. nia.
Qed.

Lemma normalize_bounds_witness :
  normalize (mkConfig "h" "" 0 0 0 0 0 false) = inr (mkConfig "h" "icmp" 0 3 30 1 Second false) ∧
  normalize (mkConfig "h" "icmp" 0 3 30 1 Second false) = inr (mkConfig "h" "icmp" 0 3 30 1 Second false).
Proof.
  split; [reflexivity|].
  apply (normalize_bounds (mkConfig "h" "" 0 0 0 0 0 false)). reflexivity.
Defined.

End PathMerge.
