(* ===== verification/Quality.v ===== *)
(** * Ingest quality windows of the flow collector (internal/flow: quality_collector.go,
      quality.go)

    Per (exporter, protocol) the collector accounts packets, records, decode errors,
    template misses and drops in a bounded table, turns the windows into receipts at
    every report and puts them back when reporting fails.  An instant is a number of
    nanoseconds; a zero time is [None].  The order a range over the table takes is the
    parameter [Range], indexed by the call. *)
From S2P Require Import Prelude GoTime GoSort FlowModel.

Module Quality.

#[local] Open Scope string_scope.
#[local] Open Scope list_scope.
#[local] Open Scope Z_scope.

(** ** quality.go *)

Definition QualityStateHealthy := "healthy".
Definition QualityStateDegraded := "degraded".
Definition QualityStateStale := "stale".

Definition QualityTemplateNotApplicable := "not_applicable".
Definition QualityTemplateUnknown := "unknown".
Definition QualityTemplateLearning := "learning".
Definition QualityTemplateReady := "ready".
Definition QualityTemplateMissing := "missing".

Definition QualitySamplingUnknown := "unknown".
Definition QualitySamplingUnsampled := "unsampled".
Definition QualitySamplingSampled := "sampled".
Definition QualitySamplingMixed := "mixed".

Definition MaxQualityReceiptsPerAgent : Z := 1024.
Definition MaxQualityCounter : Z := 2 ^ 63 - 1.
Definition QualityStaleAfter : Z := 3 * Minute.

(** The six counters of a window. *)
Record counts := mkCounts {
  packetsReceived : Z;
  recordsDecoded : Z;
  decodeErrorPackets : Z;
  templateMisses : Z;
  queueDroppedRecords : Z;
  emitDroppedRecords : Z
}.

#[export] Instance counts_eta : Eta counts := λ c,
  mkCounts (packetsReceived c) (recordsDecoded c) (decodeErrorPackets c) (templateMisses c)
    (queueDroppedRecords c) (emitDroppedRecords c).

Record QualityReceipt := mkReceipt {
  r_TenantID : string; r_AgentID : string; r_ExporterAddress : string; r_Protocol : string;
  r_WindowStartedAt : Z; r_WindowEndedAt : Z; r_LastPacketAt : Z; r_LastValidRecordAt : option Z;
  r_counts : counts;
  r_TemplateState : string; r_SamplingState : string;
  r_State : string; r_Reason : string; r_NextAction : string
}.

#[export] Instance QualityReceipt_eta : Eta QualityReceipt := λ r,
  mkReceipt (r_TenantID r) (r_AgentID r) (r_ExporterAddress r) (r_Protocol r) (r_WindowStartedAt r)
    (r_WindowEndedAt r) (r_LastPacketAt r) (r_LastValidRecordAt r) (r_counts r) (r_TemplateState r)
    (r_SamplingState r) (r_State r) (r_Reason r) (r_NextAction r).

Definition EvaluateQualityState (r : QualityReceipt) (asOf : Z) : QualityReceipt :=
  let verdict (s reason action : string) :=
    r <| r_State := s |> <| r_Reason := reason |> <| r_NextAction := action |> in
  let c := r_counts r in
  if QualityStaleAfter <? satSub asOf (r_LastPacketAt r)
  then verdict QualityStateStale "no_recent_packets" "verify_exporter_delivery"
  else if 0 <? emitDroppedRecords c
  then verdict QualityStateDegraded "emit_loss" "verify_local_bus_delivery"
  else if 0 <? queueDroppedRecords c
  then verdict QualityStateDegraded "queue_loss" "reduce_local_ingest_pressure"
  else if 0 <? decodeErrorPackets c
  then verdict QualityStateDegraded "decode_errors" "verify_exporter_protocol"
  else if (0 <? templateMisses c) || bool_decide (r_TemplateState r = QualityTemplateMissing)
  then verdict QualityStateDegraded "template_missing" "verify_exporter_templates"
  else match r_LastValidRecordAt r with
  | None =>
      if bool_decide (r_TemplateState r = QualityTemplateLearning)
      then verdict QualityStateDegraded "waiting_for_templates" "verify_exporter_templates"
      else verdict QualityStateDegraded "no_valid_records" "verify_exporter_protocol"
  | Some _ => verdict QualityStateHealthy "receiving_valid_records" "continue_monitoring"
  end.

(** ** quality_collector.go *)

Record qualityKey := mkKey { k_exporter : string; k_protocol : string }.

#[export] Instance qualityKey_eq_dec : EqDecision qualityKey.
Proof. solve_decision. Defined.
#[export] Instance qualityKey_countable : Countable qualityKey :=
  inj_countable' (λ k, (k_exporter k, k_protocol k)) (λ '(a, b), mkKey a b) (λ '(mkKey _ _), eq_refl).

Record qualityWindow := mkWindow {
  windowStartedAt : Z;
  lastPacketAt : Z;
  lastValidRecordAt : option Z;
  w_counts : counts;
  templateState : string;
  samplingState : string;
  sawSampled : bool;
  sawUnsampled : bool
}.

#[export] Instance qualityWindow_eta : Eta qualityWindow := λ w,
  mkWindow (windowStartedAt w) (lastPacketAt w) (lastValidRecordAt w) (w_counts w) (templateState w)
    (samplingState w) (sawSampled w) (sawUnsampled w).

(** The table, and when it last evicted a window. *)
Record Collector := mkCollector {
  quality : gmap qualityKey qualityWindow;
  qualityEvictedAt : option Z
}.

#[export] Instance Collector_eta : Eta Collector := λ c, mkCollector (quality c) (qualityEvictedAt c).

Definition qualityProtocol (listener : string) (pkt : list byte) : string :=
  if bool_decide (listener = "ipfix") then ProtoIPFIX
  else if bool_decide (listener = "sflow") then ProtoSFlow5
  else if bool_decide (listener = "netflow") && (2 <=? len pkt) then
    let v := be_uint (slice pkt 0 2) in
    if v =? 5 then ProtoNetFlow5 else if v =? 9 then ProtoNetFlow9 else "netflow"
  else "netflow".

Definition templateStateForProtocol (protocol : string) : string :=
  if bool_decide (protocol = ProtoNetFlow5) || bool_decide (protocol = ProtoSFlow5)
  then QualityTemplateNotApplicable
  else if bool_decide (protocol = ProtoNetFlow9) || bool_decide (protocol = ProtoIPFIX)
  then QualityTemplateLearning
  else QualityTemplateUnknown.

Definition saturatingQualityAdd (current delta : Z) : Z :=
  if (MaxQualityCounter <=? current) || (MaxQualityCounter - current <? delta)
  then MaxQualityCounter
  else current + delta.

(** One candidate of the scan for the window with the oldest last packet. *)
Definition older (o : option (qualityKey * Z)) (kw : qualityKey * qualityWindow) : option (qualityKey * Z) :=
  let '(k, w) := kw in
  match o with
  | None => Some (k, lastPacketAt w)
  | Some (_, oldestAt) => if lastPacketAt w <? oldestAt then Some (k, lastPacketAt w) else o
  end.

Definition oldestWindow (l : list (qualityKey * qualityWindow)) : option (qualityKey * Z) :=
  foldl older None l.

Definition newWindow (protocol : string) (at_time : Z) : qualityWindow :=
  mkWindow at_time at_time None (mkCounts 0 0 0 0 0 0) (templateStateForProtocol protocol)
    QualitySamplingUnknown false false.

(** The updates of the window a packet belongs to. *)
Definition observeRow (protocol : string) (at_time : Z) (recs : list FRecord) (misses : Z)
    (decodeFailed : bool) (w : qualityWindow) : qualityWindow :=
  let w := w <| lastPacketAt := at_time |> in
  let c := w_counts w in
  let c := c <| packetsReceived := saturatingQualityAdd (packetsReceived c) 1 |>
             <| recordsDecoded := saturatingQualityAdd (recordsDecoded c) (len recs) |> in
  let c := if decodeFailed
           then c <| decodeErrorPackets := saturatingQualityAdd (decodeErrorPackets c) 1 |> else c in
  let c := if 0 <? misses
           then c <| templateMisses := saturatingQualityAdd (templateMisses c) misses |> else c in
  let w := w <| w_counts := c |> in
  let w := if 0 <? misses then w <| templateState := QualityTemplateMissing |>
           else if (0 <? len recs) &&
                   (bool_decide (protocol = ProtoNetFlow9) || bool_decide (protocol = ProtoIPFIX))
           then w <| templateState := QualityTemplateReady |> else w in
  if 0 <? len recs then
    let w := w <| lastValidRecordAt := Some at_time |> in
    let w := foldl (λ w rec, if 1 <? f_SamplingRate rec then w <| sawSampled := true |>
                             else w <| sawUnsampled := true |>) w recs in
    w <| samplingState :=
      if sawSampled w && sawUnsampled w then QualitySamplingMixed
      else if sawSampled w then QualitySamplingSampled
      else QualitySamplingUnsampled |>
  else w.

Section collector.
Context (Range : nat → gmap qualityKey qualityWindow → list (qualityKey * qualityWindow)).

Definition observeQualityPacket (tick : nat) (exporter protocol : string) (at_time : Z)
    (recs : list FRecord) (misses : Z) (decodeFailed : bool) (c : Collector) : qualityKey * Collector :=
  let key := mkKey exporter protocol in
  let c :=
    match quality c !! key with
    | Some _ => c
    | None =>
        let c :=
          if MaxQualityReceiptsPerAgent <=? Z.of_nat (size (quality c)) then
            match oldestWindow (Range tick (quality c)) with
            | Some (k, _) => c <| quality := delete k (quality c) |> <| qualityEvictedAt := Some at_time |>
            | None => c
            end
          else c in
        c <| quality := <[key := newWindow protocol at_time]> (quality c) |>
    end in
  (key, c <| quality := alter (observeRow protocol at_time recs misses decodeFailed) key (quality c) |>).

Definition observeQualityQueueDrop (key : qualityKey) (c : Collector) : Collector :=
  c <| quality := alter (λ w, w <| w_counts := (w_counts w) <| queueDroppedRecords :=
         saturatingQualityAdd (queueDroppedRecords (w_counts w)) 1 |> |>) key (quality c) |>.

(** The counts per key of a batch; each key occurs once in the range that follows. *)
Definition batchCounts (batch : list FRecord) : gmap qualityKey Z :=
  foldl (λ m rec, let k := mkKey (f_Exporter rec) (f_Protocol rec) in
                  <[k := default 0 (m !! k) + 1]> m) ∅ batch.

Definition observeQualityEmitDrops (batch : list FRecord) (c : Collector) : Collector :=
  let counts := batchCounts batch in
  c <| quality := map_imap (λ k w,
         match counts !! k with
         | Some n => Some (w <| w_counts := (w_counts w) <| emitDroppedRecords :=
                       saturatingQualityAdd (emitDroppedRecords (w_counts w)) n |> |>)
         | None => Some w
         end) (quality c) |>.

Definition receiptFromQualityWindow (tenant agent : string) (key : qualityKey) (w : qualityWindow)
    (at_time : Z) : QualityReceipt :=
  EvaluateQualityState
    (mkReceipt tenant agent (k_exporter key) (k_protocol key) (windowStartedAt w) at_time
       (lastPacketAt w) (lastValidRecordAt w) (w_counts w) (templateState w) (samplingState w) "" "" "")
    at_time.

Definition receipt_le (a b : QualityReceipt) : Prop :=
  (if negb (bool_decide (r_ExporterAddress a = r_ExporterAddress b))
   then String.leb (r_ExporterAddress a) (r_ExporterAddress b)
   else String.leb (r_Protocol a) (r_Protocol b)) = true.
#[local] Instance receipt_le_dec : RelDecision receipt_le := λ a b, decide (_ = true).

Definition drainQuality (tenant agent : string) (at_time : Z) (c : Collector)
    : list QualityReceipt * Collector :=
  (merge_sort receipt_le
     ((λ '(k, w), receiptFromQualityWindow tenant agent k w at_time) <$> map_to_list (quality c)),
   c <| quality := (λ w, w <| windowStartedAt := at_time |> <| w_counts := mkCounts 0 0 0 0 0 0 |>)
                   <$> quality c |>).

Definition qualitySnapshot (tenant agent : string) (at_time : Z) (c : Collector) : list QualityReceipt :=
  (drainQuality tenant agent at_time c).1.

(** One receipt put back into its window. *)
Definition restoreRow (r : QualityReceipt) (w : qualityWindow) : qualityWindow :=
  let w := if r_WindowStartedAt r <? windowStartedAt w
           then w <| windowStartedAt := r_WindowStartedAt r |> else w in
  let c := w_counts w in
  let d := r_counts r in
  w <| w_counts := mkCounts
    (saturatingQualityAdd (packetsReceived c) (packetsReceived d))
    (saturatingQualityAdd (recordsDecoded c) (recordsDecoded d))
    (saturatingQualityAdd (decodeErrorPackets c) (decodeErrorPackets d))
    (saturatingQualityAdd (templateMisses c) (templateMisses d))
    (saturatingQualityAdd (queueDroppedRecords c) (queueDroppedRecords d))
    (saturatingQualityAdd (emitDroppedRecords c) (emitDroppedRecords d)) |>.

Definition receiptKey (r : QualityReceipt) : qualityKey := mkKey (r_ExporterAddress r) (r_Protocol r).

Definition restoreQuality (receipts : list QualityReceipt) (c : Collector) : Collector :=
  foldl (λ c r, c <| quality := alter (restoreRow r) (receiptKey r) (quality c) |>) c receipts.

(** ** Events *)

Inductive event :=
| EPacket (tick : nat) (exporter protocol : string) (at_time : Z) (recs : list FRecord) (misses : Z)
    (decodeFailed : bool)
| EQueueDrop (key : qualityKey)
| EEmitDrops (batch : list FRecord).

Definition exec (e : event) (c : Collector) : Collector :=
  match e with
  | EPacket tick ex pr t recs misses failed => (observeQualityPacket tick ex pr t recs misses failed c).2
  | EQueueDrop key => observeQualityQueueDrop key c
  | EEmitDrops batch => observeQualityEmitDrops batch c
  end.

Definition run (es : list event) (c : Collector) : Collector := foldl (λ c e, exec e c) c es.

Definition empty : Collector := mkCollector ∅ None.

(** ** Lemmas: saturating counters *)

Lemma sat_min a b : 0 ≤ b → saturatingQualityAdd a b = Z.min MaxQualityCounter (a + b).
Proof.
  intros Hb. unfold saturatingQualityAdd.
  destruct (_ <=? a) eqn:E1; cbn [orb]; zbool; [lia|].
  destruct (_ <? b) eqn:E2; zbool; lia.
Qed.

Lemma sat_comm a b c :
  0 ≤ b → 0 ≤ c →
  saturatingQualityAdd (saturatingQualityAdd a b) c = saturatingQualityAdd (saturatingQualityAdd a c) b.
Proof. intros. rewrite !sat_min by done. lia. Qed.

Definition counts_ok (c : counts) : Prop :=
  0 ≤ packetsReceived c ≤ MaxQualityCounter ∧ 0 ≤ recordsDecoded c ≤ MaxQualityCounter ∧
  0 ≤ decodeErrorPackets c ≤ MaxQualityCounter ∧ 0 ≤ templateMisses c ≤ MaxQualityCounter ∧
  0 ≤ queueDroppedRecords c ≤ MaxQualityCounter ∧ 0 ≤ emitDroppedRecords c ≤ MaxQualityCounter.

Lemma sat_range a b : 0 ≤ a → 0 ≤ b → 0 ≤ saturatingQualityAdd a b ≤ MaxQualityCounter.
Proof. intros. rewrite sat_min by done. unfold MaxQualityCounter. lia. Qed.

(** ** Lemmas: restoring commutes with accounting *)

Lemma saw_fold recs : ∀ w,
  foldl (λ w rec, if 1 <? f_SamplingRate rec then w <| sawSampled := true |>
                  else w <| sawUnsampled := true |>) w recs =
  w <| sawSampled := sawSampled w || existsb (λ r, 1 <? f_SamplingRate r) recs |>
    <| sawUnsampled := sawUnsampled w || existsb (λ r, negb (1 <? f_SamplingRate r)) recs |>.
Proof.
  induction recs as [|r recs IH]; intros w; cbn [foldl existsb].
  - rewrite !orb_false_r. by destruct w.
  - rewrite IH. by destruct (1 <? f_SamplingRate r); cbn; rewrite ?orb_true_r.
Qed.

Lemma restore_observe r pr t recs misses failed w :
  counts_ok (r_counts r) →
  restoreRow r (observeRow pr t recs misses failed w) = observeRow pr t recs misses failed (restoreRow r w).
Proof.
  intros (H1 & H2 & H3 & H4 & H5 & H6). pose proof (len_nonneg recs).
  destruct w as [ws lp lv [c1 c2 c3 c4 c5 c6] ts ss a b]. unfold observeRow. rewrite !saw_fold.
  unfold restoreRow.
  destruct (0 <? misses) eqn:Em; zbool; destruct failed; destruct (0 <? len recs);
    destruct (bool_decide (pr = ProtoNetFlow9) || bool_decide (pr = ProtoIPFIX)); cbn;
    destruct (_ <? ws); cbn;
    rewrite (sat_comm c1 1), (sat_comm c2 (len recs)), ?(sat_comm c3 1), ?(sat_comm c4 misses) by lia; done.
Qed.

(** All the receipts of a key put back. *)
Definition restoreAll (rs : list QualityReceipt) (k : qualityKey) (w : qualityWindow) : qualityWindow :=
  foldl (λ w r, if decide (receiptKey r = k) then restoreRow r w else w) w rs.

Lemma restore_lookup rs c k :
  quality (restoreQuality rs c) !! k = restoreAll rs k <$> quality c !! k.
Proof.
  unfold restoreQuality, restoreAll. revert c. induction rs as [|r rs IH]; intros c; cbn [foldl].
  - by destruct (quality c !! k).
  - rewrite IH. cbn. destruct (decide (receiptKey r = k)) as [<-|Hne].
    + rewrite lookup_alter_eq. by destruct (quality c !! _).
    + by rewrite lookup_alter_ne.
Qed.

Lemma restore_evicted rs c : qualityEvictedAt (restoreQuality rs c) = qualityEvictedAt c.
Proof. unfold restoreQuality. revert c. induction rs as [|r rs IH]; intros c; [done|]. cbn. by rewrite IH. Qed.

Lemma restoreAll_commute rs k f w :
  (∀ r w, r ∈ rs → restoreRow r (f w) = f (restoreRow r w)) →
  restoreAll rs k (f w) = f (restoreAll rs k w).
Proof.
  unfold restoreAll. revert w. induction rs as [|r rs IH]; intros w H; [done|]. cbn [foldl].
  destruct (decide _).
  - rewrite H by set_solver. apply IH. set_solver.
  - apply IH. set_solver.
Qed.

Lemma batchCounts_pos batch k n : batchCounts batch !! k = Some n → 0 ≤ n.
Proof.
  unfold batchCounts. assert (H : ∀ m : gmap qualityKey Z, (∀ k n, m !! k = Some n → 0 ≤ n) →
    ∀ k n, foldl (λ m rec, let k := mkKey (f_Exporter rec) (f_Protocol rec) in
                  <[k := default 0 (m !! k) + 1]> m) m batch !! k = Some n → 0 ≤ n).
  2: { apply H. intros. by rewrite lookup_empty in *. }
  induction batch as [|r batch IH]; intros m Hm; [exact Hm|]. cbn [foldl]. apply IH.
  intros k' n' E. apply lookup_insert_Some in E as [[<- <-]|[_ E]]; [|by eapply Hm].
  destruct (m !! _) as [z|] eqn:Ez; cbn; [|lia]. specialize (Hm _ _ Ez). lia.
Qed.

(** The windows the events account to exist already. *)
Definition known (c : Collector) (e : event) : Prop :=
  match e with EPacket _ ex pr _ _ _ _ => is_Some (quality c !! mkKey ex pr) | _ => True end.

Lemma collector_ext c1 c2 :
  (∀ k, quality c1 !! k = quality c2 !! k) → qualityEvictedAt c1 = qualityEvictedAt c2 → c1 = c2.
Proof. destruct c1, c2; cbn. intros H ->. f_equal. by apply map_eq. Qed.

Lemma exec_restore e rs c :
  known c e → (∀ r, r ∈ rs → counts_ok (r_counts r)) →
  restoreQuality rs (exec e c) = exec e (restoreQuality rs c).
Proof.
  intros K Hr. destruct e as [tick ex pr t recs misses failed|key|batch].
  - destruct K as [w Hw]. cbn [exec]. unfold observeQualityPacket.
    assert (Hw' : quality (restoreQuality rs c) !! mkKey ex pr = Some (restoreAll rs (mkKey ex pr) w))
      by by rewrite restore_lookup, Hw.
    rewrite Hw, Hw'. cbn [snd]. apply collector_ext; [|rewrite !restore_evicted; cbn; by rewrite restore_evicted].
    intros k. rewrite restore_lookup. cbn [quality update].
    destruct (decide (mkKey ex pr = k)) as [<-|Hne].
    + rewrite !lookup_alter_eq, Hw, Hw'. cbn. f_equal. apply restoreAll_commute.
      intros r w' H. by apply restore_observe, Hr.
    + by rewrite !lookup_alter_ne, restore_lookup by done.
  - apply collector_ext; [|cbn; by rewrite !restore_evicted].
    intros k. cbn. rewrite restore_lookup. cbn. destruct (decide (key = k)) as [<-|Hne].
    + rewrite !lookup_alter_eq, restore_lookup. destruct (quality c !! key) as [w|]; [|done]. cbn. f_equal.
      apply (restoreAll_commute rs key (λ w, w <| w_counts := (w_counts w) <| queueDroppedRecords :=
         saturatingQualityAdd (queueDroppedRecords (w_counts w)) 1 |> |>)).
      intros r w' H. destruct (Hr r H) as (_ & _ & _ & _ & ? & _). unfold restoreRow. cbn.
      by destruct (_ <? windowStartedAt w'); cbn; rewrite (sat_comm _ 1) by lia.
    + by rewrite !lookup_alter_ne, restore_lookup by done.
  - apply collector_ext; [|cbn; by rewrite !restore_evicted].
    intros k. cbn. rewrite restore_lookup. cbn. rewrite !map_lookup_imap, restore_lookup.
    destruct (quality c !! k) as [w|]; [|done]. cbn.
    destruct (batchCounts batch !! k) as [n|] eqn:En; cbn; [|done]. f_equal.
    apply batchCounts_pos in En.
    apply (restoreAll_commute rs k (λ w, w <| w_counts := (w_counts w) <| emitDroppedRecords :=
       saturatingQualityAdd (emitDroppedRecords (w_counts w)) n |> |>)).
    intros r w' H. destruct (Hr r H) as (_ & _ & _ & _ & _ & ?). unfold restoreRow. cbn.
    by destruct (_ <? windowStartedAt w'); cbn; rewrite (sat_comm _ n) by lia.
Qed.

Lemma known_exec c e e' : known c e → known c e' → known (exec e c) e'.
Proof.
  destruct e' as [tick ex pr t recs misses failed| |]; [|done..]. cbn [known]. intros K [w' Hw'].
  destruct e as [tick0 ex0 pr0 t0 recs0 misses0 failed0|key|batch]; cbn [exec].
  - destruct K as [w Hw]. unfold observeQualityPacket. rewrite Hw. cbn.
    destruct (decide (mkKey ex0 pr0 = mkKey ex pr)) as [E|E].
    + rewrite E, lookup_alter_eq, Hw'. by eexists.
    + rewrite lookup_alter_ne by done. by eexists.
  - cbn. destruct (decide (key = mkKey ex pr)) as [->|E].
    + rewrite lookup_alter_eq, Hw'. by eexists.
    + rewrite lookup_alter_ne by done. by eexists.
  - cbn. rewrite map_lookup_imap, Hw'. cbn. case_match; by eexists.
Qed.

Lemma run_restore es : ∀ rs c,
  Forall (known c) es → (∀ r, r ∈ rs → counts_ok (r_counts r)) →
  restoreQuality rs (run es c) = run es (restoreQuality rs c).
Proof.
  induction es as [|e es IH]; intros rs c K Hr; [done|]. cbn [run foldl].
  apply Forall_cons in K as [K Ks]. rewrite <- exec_restore by done. apply IH; [|done].
  eapply Forall_impl; [exact Ks|]. intros e' K'. by apply known_exec.
Qed.

(** ** Lemmas: the drained receipts *)

Lemma receipt_fields tenant agent k w t :
  let r := receiptFromQualityWindow tenant agent k w t in
  receiptKey r = k ∧ r_counts r = w_counts w ∧ r_WindowStartedAt r = windowStartedAt w.
Proof.
  destruct k. unfold receiptFromQualityWindow, EvaluateQualityState. cbn.
  repeat case_match; cbn; done.
Qed.

Lemma restoreAll_none rs k w : k ∉ receiptKey <$> rs → restoreAll rs k w = w.
Proof.
  unfold restoreAll. induction rs as [|r rs IH]; [done|]. cbn [foldl fmap list_fmap].
  intros H. rewrite decide_False by set_solver. apply IH. set_solver.
Qed.

Lemma restoreAll_unique rs r k w :
  NoDup (receiptKey <$> rs) → r ∈ rs → receiptKey r = k → restoreAll rs k w = restoreRow r w.
Proof.
  induction rs as [|r' rs IH]; [set_solver|]. rewrite fmap_cons, NoDup_cons.
  intros [Hn Hd] [->|Hr]%elem_of_cons Hk; unfold restoreAll; cbn [foldl].
  - rewrite decide_True by done. apply restoreAll_none. by rewrite <- Hk.
  - rewrite decide_False; [by apply IH|]. intros <-. apply Hn.
    rewrite <- Hk. by apply list_elem_of_fmap_2.
Qed.

Definition drained (tenant agent : string) (t : Z) (c : Collector) : list QualityReceipt :=
  (drainQuality tenant agent t c).1.

Lemma drained_elem tenant agent t c r :
  r ∈ drained tenant agent t c ↔
  ∃ k w, quality c !! k = Some w ∧ r = receiptFromQualityWindow tenant agent k w t.
Proof.
  unfold drained, drainQuality. cbn [fst]. rewrite merge_sort_Permutation, list_elem_of_fmap. split.
  - intros ([k w] & -> & H%elem_of_map_to_list). eauto.
  - intros (k & w & H & ->). exists (k, w). by rewrite elem_of_map_to_list.
Qed.

Lemma drained_keys tenant agent t c : NoDup (receiptKey <$> drained tenant agent t c).
Proof.
  unfold drained, drainQuality. cbn [fst]. rewrite merge_sort_Permutation, <- list_fmap_compose.
  assert (E : (receiptKey ∘ (λ '(k, w), receiptFromQualityWindow tenant agent k w t)) <$> map_to_list (quality c)
              = (map_to_list (quality c)).*1).
  { apply list_fmap_ext. intros i [k w] _. cbn. apply receipt_fields. }
  rewrite E. apply NoDup_fst_map_to_list.
Qed.

(** ** The invariant of the table *)

(** The counters stay in range, and no window starts after [t]. *)
Definition row_ok (t : Z) (w : qualityWindow) : Prop := counts_ok (w_counts w) ∧ windowStartedAt w ≤ t.

Definition before (t : Z) (e : event) : Prop :=
  match e with EPacket _ _ _ t' _ _ _ => t' ≤ t | _ => True end.

Lemma observeRow_ok t pr t' recs misses failed w :
  row_ok t w → row_ok t (observeRow pr t' recs misses failed w).
Proof.
  intros [(H1 & H2 & H3 & H4 & H5 & H6) Hs]. pose proof (len_nonneg recs).
  destruct w as [ws lp lv [c1 c2 c3 c4 c5 c6] ts ss a b]. unfold observeRow. rewrite saw_fold.
  cbn in *. unfold row_ok, counts_ok.
  destruct (0 <? misses) eqn:Em; zbool; destruct failed; destruct (0 <? len recs);
    destruct (bool_decide (pr = ProtoNetFlow9) || bool_decide (pr = ProtoIPFIX)); cbn;
    repeat split; try apply sat_range; lia.
Qed.

Lemma newWindow_ok t pr t' : t' ≤ t → row_ok t (newWindow pr t').
Proof. unfold row_ok, counts_ok, MaxQualityCounter. cbn. lia. Qed.

Lemma alter_ok t f k (m : gmap qualityKey qualityWindow) :
  (∀ w, row_ok t w → row_ok t (f w)) → map_Forall (λ _, row_ok t) m → map_Forall (λ _, row_ok t) (alter f k m).
Proof. intros Hf Hm j w [(? & ? & ? & ->)|[_ E]]%lookup_alter_Some; [apply Hf|]; by eapply Hm. Qed.

Lemma exec_ok t e c :
  before t e → map_Forall (λ _, row_ok t) (quality c) → map_Forall (λ _, row_ok t) (quality (exec e c)).
Proof.
  intros B H. destruct e as [tick ex pr t' recs misses failed|key|batch]; cbn [exec].
  - unfold observeQualityPacket. cbn [snd quality update]. apply alter_ok; [intros; by apply observeRow_ok|].
    destruct (quality c !! _); [done|]. cbn. apply map_Forall_insert_2; [by apply newWindow_ok|].
    destruct (_ <=? _); [|done]. destruct (oldestWindow _) as [[k a]|]; [|done]. cbn.
    by apply map_Forall_delete.
  - cbn. apply alter_ok; [|done]. intros w [(?&?&?&?&?&?) ?].
    unfold row_ok, counts_ok. cbn. repeat split; try apply sat_range; lia.
  - cbn. intros k w. rewrite map_lookup_imap. destruct (quality c !! k) as [w0|] eqn:Ew; [|done]. cbn.
    specialize (H _ _ Ew). destruct (batchCounts batch !! k) as [n|] eqn:En; intros [= <-]; [|done].
    apply batchCounts_pos in En. destruct H as [(?&?&?&?&?&?) ?].
    unfold row_ok, counts_ok. cbn. repeat split; try apply sat_range; lia.
Qed.

Lemma run_ok t es : ∀ c,
  Forall (before t) es → map_Forall (λ _, row_ok t) (quality c) → map_Forall (λ _, row_ok t) (quality (run es c)).
Proof.
  induction es as [|e es IH]; intros c B H; [done|]. apply Forall_cons in B as [B Bs].
  cbn [run foldl]. apply IH; [done|]. by apply exec_ok.
Qed.

Lemma restore_drain tenant agent t c :
  map_Forall (λ _, row_ok t) (quality c) →
  restoreQuality (drained tenant agent t c) (drainQuality tenant agent t c).2 = c.
Proof.
  intros H. apply collector_ext; [|by rewrite restore_evicted].
  intros k. rewrite restore_lookup. cbn. rewrite lookup_fmap.
  destruct (quality c !! k) as [w|] eqn:Ew; [|done]. cbn. f_equal.
  destruct (receipt_fields tenant agent k w t) as (Hk & Hc & Hs).
  rewrite (restoreAll_unique _ (receiptFromQualityWindow tenant agent k w t)) by
    first [apply drained_keys | done | apply drained_elem; eauto].
  destruct (H _ _ Ew) as [(?&?&?&?&?&?) ?]. unfold restoreRow. cbn. rewrite Hs, Hc.
  rewrite !sat_min by lia. destruct w as [ws lp lv [c1 c2 c3 c4 c5 c6] ts ss a b]. cbn in *.
  destruct (ws <? t) eqn:E; zbool; unfold update; cbn; repeat f_equal; lia.
Qed.

(** ** Lemmas: the bound of the table *)

Lemma oldest_min l : ∀ k w,
  ∃ k' w', foldl older (Some (k, lastPacketAt w)) l = Some (k', lastPacketAt w') ∧ (k', w') ∈ (k, w) :: l ∧
    ∀ j v, (j, v) ∈ (k, w) :: l → lastPacketAt w' ≤ lastPacketAt v.
Proof.
  induction l as [|[k1 w1] l IH]; intros k w.
  - exists k, w. split_and!; [done|set_solver|]. intros j v [[= -> ->]|H]%elem_of_cons; [lia|set_solver].
  - cbn [foldl older]. destruct (lastPacketAt w1 <? lastPacketAt w) eqn:E; zbool.
    + destruct (IH k1 w1) as (k' & w' & -> & Hin & Hmin). exists k', w'.
      split_and!; [done|set_solver|]. intros j v [[= -> ->]|H]%elem_of_cons; [|by apply (Hmin j)].
      pose proof (Hmin k1 w1 ltac:(set_solver)). lia.
    + destruct (IH k w) as (k' & w' & -> & Hin & Hmin). exists k', w'.
      split_and!; [done|set_solver|]. intros j v [Ej|[[= -> ->]|H]%elem_of_cons]%elem_of_cons.
      * apply (Hmin j). set_solver.
      * pose proof (Hmin k w ltac:(set_solver)). lia.
      * apply (Hmin j). set_solver.
Qed.

Context (Range_all : ∀ tick m, Range tick m ≡ₚ map_to_list m).

Lemma oldestWindow_spec tick (m : gmap qualityKey qualityWindow) :
  m ≠ ∅ →
  ∃ k w, oldestWindow (Range tick m) = Some (k, lastPacketAt w) ∧ m !! k = Some w ∧
    ∀ j v, m !! j = Some v → lastPacketAt w ≤ lastPacketAt v.
Proof.
  intros Hm. assert (In : ∀ j v, (j, v) ∈ Range tick m ↔ m !! j = Some v).
  { intros. by rewrite Range_all, elem_of_map_to_list. }
  destruct (Range tick m) as [|[k0 w0] l] eqn:E.
  { exfalso. apply Hm, map_empty. intros j. destruct (m !! j) eqn:Ej; [|done].
    apply In in Ej. set_solver. }
  destruct (oldest_min l k0 w0) as (k & w & Ho & Hin & Hmin).
  exists k, w. split_and!; [exact Ho|by apply In|]. intros j v Hj. apply (Hmin j). by apply In.
Qed.

(** What a packet does to the set of windows. *)
Lemma observe_windows tick ex pr t recs misses failed c :
  let key := mkKey ex pr in
  let c' := (observeQualityPacket tick ex pr t recs misses failed c).2 in
  (is_Some (quality c !! key) ∧ dom (quality c') = dom (quality c)) ∨
  (quality c !! key = None ∧ Z.of_nat (size (quality c)) < MaxQualityReceiptsPerAgent ∧
   dom (quality c') = {[key]} ∪ dom (quality c) ∧ qualityEvictedAt c' = qualityEvictedAt c) ∨
  (quality c !! key = None ∧ MaxQualityReceiptsPerAgent ≤ Z.of_nat (size (quality c)) ∧
   ∃ k w, quality c !! k = Some w ∧ (∀ j v, quality c !! j = Some v → lastPacketAt w ≤ lastPacketAt v) ∧
     dom (quality c') = {[key]} ∪ (dom (quality c) ∖ {[k]}) ∧ qualityEvictedAt c' = Some t).
Proof.
  intros key c'. subst c'. unfold observeQualityPacket. fold key.
  cbn [snd quality qualityEvictedAt update]. rewrite dom_alter_L.
  destruct (quality c !! key) as [w|] eqn:E; [left; eauto|right].
  destruct (_ <=? _) eqn:Es; zbool; [right|left; cbn; by rewrite dom_insert_L].
  assert (quality c ≠ ∅) as Hne.
  { intros H. rewrite H, map_size_empty in Es. unfold MaxQualityReceiptsPerAgent in Es. lia. }
  destruct (oldestWindow_spec tick _ Hne) as (k & w & Ho & Hk & Hmin). rewrite Ho.
  split_and!; [done|done|]. exists k, w. split_and!; [done|done| |done].
  cbn. by rewrite dom_insert_L, dom_delete_L.
Qed.

Lemma exec_size e c :
  Z.of_nat (size (quality c)) ≤ MaxQualityReceiptsPerAgent →
  Z.of_nat (size (quality (exec e c))) ≤ MaxQualityReceiptsPerAgent.
Proof.
  intros H. destruct e as [tick ex pr t recs misses failed|key|batch]; cbn [exec].
  - rewrite <- size_dom in *.
    destruct (observe_windows tick ex pr t recs misses failed c)
      as [[_ ->]|[(_ & Hlt & -> & _)|(Hn & _ & k & w & Hk & _ & -> & _)]]; [done| |].
    + rewrite <- size_dom in Hlt. rewrite size_union_alt, size_singleton.
      pose proof (subseteq_size (dom (quality c) ∖ {[mkKey ex pr]}) (dom (quality c)) ltac:(set_solver)). lia.
    + rewrite size_union_alt, size_singleton.
      pose proof (subseteq_size ((dom (quality c) ∖ {[k]}) ∖ {[mkKey ex pr]}) (dom (quality c) ∖ {[k]})
        ltac:(set_solver)).
      pose proof (size_difference (dom (quality c)) {[k]} ltac:(by apply singleton_subseteq_l, elem_of_dom_2 with w)) as Hd.
      rewrite size_singleton in Hd.
      assert (size (dom (quality c)) ≠ 0%nat) by (apply size_non_empty_iff; apply elem_of_dom_2 in Hk; set_solver).
      lia.
  - cbn. rewrite <- size_dom, dom_alter_L, size_dom. done.
  - cbn. rewrite <- size_dom in *. erewrite dom_imap_L; [exact H|].
    intros k. rewrite elem_of_dom. split; [intros [w Hw]; exists w; split; [done|]; case_match; by eexists|].
    intros (w & Hw & _). by exists w.
Qed.

Lemma run_size es : ∀ c,
  Z.of_nat (size (quality c)) ≤ MaxQualityReceiptsPerAgent →
  Z.of_nat (size (quality (run es c))) ≤ MaxQualityReceiptsPerAgent.
Proof. induction es as [|e es IH]; intros c H; [done|]. cbn [run foldl]. by apply IH, exec_size. Qed.

Lemma latest es : ∃ t, Forall (before t) es.
Proof.
  induction es as [|e es [t IH]]; [by exists 0|].
  exists (match e with EPacket _ _ _ t' _ _ _ => Z.max t t' | _ => t end).
  constructor; [destruct e; cbn; lia|]. eapply Forall_impl; [exact IH|].
  intros [] ; cbn; [|done..]. destruct e; lia.
Qed.

(** ** Theorems *)

(** Failed reports lose nothing.  Take any history [es] of packets, queue drops and
    emit drops whose packets are no later than [t], drain the windows into receipts at
    [t], account any further events [es'] on windows that exist, and put the receipts
    back because the emit failed: the collector is the one that never drained, counters,
    window starts, template and sampling states and eviction mark included. *)
Theorem quality_restore_exact es es' t tenant agent :
  Forall (before t) es → Forall (known (run es empty)) es' →
  let '(receipts, drainedC) := drainQuality tenant agent t (run es empty) in
  restoreQuality receipts (run es' drainedC) = run es' (run es empty).
Proof.
  intros B K. assert (map_Forall (λ _, row_ok t) (quality (run es empty))) as H
    by (apply run_ok; [done|apply map_Forall_empty]).
  change (restoreQuality (drained tenant agent t (run es empty))
            (run es' (drainQuality tenant agent t (run es empty)).2) = run es' (run es empty)).
  rewrite run_restore.
  - by rewrite restore_drain.
  - eapply Forall_impl; [exact K|]. intros [tick ex pr t' recs misses failed| |]; [|done..].
    cbn. rewrite lookup_fmap. intros [w ->]. by eexists.
  - intros r (k & w & Hw & ->)%drained_elem.
    destruct (receipt_fields tenant agent k w t) as (_ & -> & _). by destruct (H _ _ Hw).
Qed.

(** The window table is bounded and evicts the stalest exporter: after any history
    it holds at most 1024 windows with every counter between 0 and 2^63-1, and the next
    packet either updates its window in place, adds one window below the bound, or at the
    bound replaces exactly one window whose last packet is the oldest and marks the
    eviction at the packet's time. *)
Theorem quality_table_bounded es tick ex pr t recs misses failed :
  let c := run es empty in
  let key := mkKey ex pr in
  let c' := (observeQualityPacket tick ex pr t recs misses failed c).2 in
  Z.of_nat (size (quality c)) ≤ MaxQualityReceiptsPerAgent ∧
  map_Forall (λ _ w, counts_ok (w_counts w)) (quality c) ∧
  ((is_Some (quality c !! key) ∧ dom (quality c') = dom (quality c)) ∨
   (quality c !! key = None ∧ Z.of_nat (size (quality c)) < MaxQualityReceiptsPerAgent ∧
    dom (quality c') = {[key]} ∪ dom (quality c) ∧ qualityEvictedAt c' = qualityEvictedAt c) ∨
   (quality c !! key = None ∧ Z.of_nat (size (quality c)) = MaxQualityReceiptsPerAgent ∧
    ∃ k w, quality c !! k = Some w ∧ (∀ j v, quality c !! j = Some v → lastPacketAt w ≤ lastPacketAt v) ∧
      dom (quality c') = {[key]} ∪ (dom (quality c) ∖ {[k]}) ∧ qualityEvictedAt c' = Some t)).
Proof.
  intros c key c'. assert (Z.of_nat (size (quality c)) ≤ MaxQualityReceiptsPerAgent) as Hs
    by (apply run_size; cbn; rewrite map_size_empty; unfold MaxQualityReceiptsPerAgent; lia).
  split_and!; [done| |].
  - destruct (latest es) as [t0 Ht0]. intros k w Hw.
    by destruct (run_ok t0 es empty Ht0 (map_Forall_empty _) k w Hw).
  - destruct (observe_windows tick ex pr t recs misses failed c) as [H|[H|(H1 & H2 & H3)]]; [by left|by right; left|].
    right; right. split_and!; [done|lia|done].
Qed.

End collector.

Lemma quality_restore_exact_witness :
  let rec := zero_record <| f_SamplingRate := 8 |> in
  let es := [EPacket 0 "192.0.2.1" ProtoIPFIX 5 [rec] 0 false; EQueueDrop (mkKey "192.0.2.1" ProtoIPFIX)] in
  let es' := [EPacket 1 "192.0.2.1" ProtoIPFIX 20 [] 2 true] in
  let Range := λ _ m, map_to_list m in
  let c := run Range es empty in
  restoreQuality (drainQuality "t" "a" 10 c).1 (run Range es' (drainQuality "t" "a" 10 c).2) = run Range es' c ∧
  map_to_list (quality (run Range es' c)) =
    [(mkKey "192.0.2.1" ProtoIPFIX,
      mkWindow 5 20 (Some 5) (mkCounts 2 1 1 2 1 0) QualityTemplateMissing QualitySamplingSampled true false)].
Proof.
  intros rec es es' Range c. split; [|vm_compute; reflexivity].
  apply (quality_restore_exact Range es es' 10 "t" "a").
  - subst es. repeat constructor; cbn; lia.
  - subst es'. repeat constructor. vm_compute. by eexists.
Defined.

Lemma quality_table_bounded_witness :
  let Range := λ (_ : nat) (m : gmap qualityKey qualityWindow), map_to_list m in
  Z.of_nat (size (quality (run Range [EPacket 0 "192.0.2.1" ProtoSFlow5 5 [] 0 true] empty))) ≤ 1024.
Proof.
  intros Range.
  exact (proj1 (quality_table_bounded Range (λ _ _, Permutation_refl _)
    [EPacket 0 "192.0.2.1" ProtoSFlow5 5 [] 0 true] 1 "192.0.2.2" ProtoSFlow5 6 [] 0 false)).
Defined.

End Quality.
