(* ===== verification/PromSelector.v ===== *)
(** * Series selectors of the metrics API (internal/promapi/selector.go)

    The parser of the only query shape the metrics API accepts, its canonical printer,
    and the injection of the tenant matcher.  Go's regexp is the parameter pair
    [Compiles] (does the pattern compile) and [MatchString]; a compiled matcher keeps its
    pattern.  sort.Slice is the parameter [sortSlice]: a sorted permutation, no more. *)
From S2P Require Import Prelude GoHash GoString.

Module PromSelector.

#[local] Open Scope list_scope.
#[local] Open Scope Z_scope.

Definition TenantLabel : gostring := str "tenant_id".
Definition maxRegexLen : Z := 256.

(** The operators a matcher may have. *)
Inductive Op := OpEq | OpNe | OpRe | OpNre.

#[export] Instance Op_eq_dec : EqDecision Op.
Proof. solve_decision. Defined.

Definition op_str (o : Op) : gostring :=
  match o with OpEq => str "=" | OpNe => str "!=" | OpRe => str "=~" | OpNre => str "!~" end.

Definition is_regex (o : Op) : bool := match o with OpRe | OpNre => true | _ => false end.

Record Matcher := mkMatcher { m_Name : gostring; m_Op : Op; m_Value : gostring; m_re : option gostring }.

#[export] Instance Matcher_eq_dec : EqDecision Matcher.
Proof. solve_decision. Defined.

Record Selector := mkSelector { s_Metric : gostring; s_Matchers : list Matcher }.

(** The error returns of the parser; [OutOfFuel] is the model's own. *)
Inductive sel_error :=
| EmptyQuery | NotSelector (s : gostring) | UnterminatedSelector
| InvalidLabel (at_text : gostring) | ExpectedOperator (name : gostring)
| ExpectedQuoted (name : gostring) | UnterminatedValue (name : gostring)
| RegexTooLong (name : gostring) | InvalidRegex (name : gostring)
| OutOfFuel.

(** ** Characters *)

Definition isLetter (c : byte) : bool :=
  ((97 <=? byteZ c) && (byteZ c <=? 122)) || ((65 <=? byteZ c) && (byteZ c <=? 90)).
Definition isAlnum (c : byte) : bool := isLetter c || is_digit c.
Definition isUnderscore (c : byte) : bool := bool_decide (c = x5f).
Definition isColon (c : byte) : bool := bool_decide (c = x3a).

(** [metricRe] and [labelRe]: one leading character, then any of the tail class. *)
Definition metric_match (s : gostring) : bool :=
  match s with
  | [] => false
  | c :: s => (isLetter c || isUnderscore c || isColon c) &&
              forallb (λ c, isAlnum c || isUnderscore c || isColon c) s
  end.

Definition label_match (s : gostring) : bool :=
  match s with
  | [] => false
  | c :: s => (isLetter c || isUnderscore c) && forallb (λ c, isAlnum c || isUnderscore c) s
  end.

Definition ValidMetricName : gostring → bool := metric_match.
Definition ValidLabelName : gostring → bool := label_match.

Definition isBlank (c : byte) : bool := bool_decide (c = x20) || bool_decide (c = x09).
Definition isSep (c : byte) : bool := isBlank c || bool_decide (c = x2c).

(** The longest prefix of characters in a class, and what follows it. *)
Fixpoint span (p : byte → bool) (l : gostring) : gostring * gostring :=
  match l with
  | c :: l' => if p c then let '(a, r) := span p l' in (c :: a, r) else ([], l)
  | [] => ([], [])
  end.

Definition truncate (s : gostring) (n : nat) : gostring :=
  if (length s <=? n)%nat then s else take n s ++ str "...".

(** ** Parsing *)

Definition unescape (n : byte) : gostring :=
  if bool_decide (n = x5c) || bool_decide (n = x22) || bool_decide (n = x27) then [n]
  else if bool_decide (n = x6e) then [x0a]
  else if bool_decide (n = x74) then [x09]
  else [x5c; n].

(** The loop over a quoted value: the value and the text behind the closing quote. *)
Fixpoint parseValue (quote : byte) (l : gostring) : option (gostring * gostring) :=
  match l with
  | [] => None
  | c :: l =>
      if bool_decide (c = x5c) then
        match l with
        | n :: l => '(v, r) ← parseValue quote l; Some (unescape n ++ v, r)
        | [] => None
        end
      else if bool_decide (c = quote) then Some ([], l)
      else '(v, r) ← parseValue quote l; Some (c :: v, r)
  end.

Definition parseOp (l : gostring) : option (Op * gostring) :=
  match strip_prefix (str "=~") l with Some r => Some (OpRe, r) | None =>
  match strip_prefix (str "!~") l with Some r => Some (OpNre, r) | None =>
  match strip_prefix (str "!=") l with Some r => Some (OpNe, r) | None =>
  match strip_prefix (str "=") l with Some r => Some (OpEq, r) | None => None
  end end end end.

Definition anchored (v : gostring) : gostring := str "^(?:" ++ v ++ str ")$".

Section selector.
Context (Compiles : gostring → bool).
Context (MatchString : gostring → gostring → bool).
Context (sortSlice : list Matcher → list Matcher).

(** The matcher built from one parsed condition. *)
Definition buildMatcher (name : gostring) (op : Op) (v : gostring) : sel_error + Matcher :=
  if is_regex op then
    if maxRegexLen <? len v then inl (RegexTooLong name)
    else if negb (Compiles (anchored v)) then inl (InvalidRegex name)
    else inr (mkMatcher name op v (Some (anchored v)))
  else inr (mkMatcher name op v None).

(** One turn of the loop, from the first character of a label name: a matcher and the
    rest of the body. *)
Definition parseOne (body : gostring) : sel_error + (Matcher * gostring) :=
  let '(name, l) := span (λ c, isAlnum c || isUnderscore c) body in
  if negb (label_match name) then inl (InvalidLabel (truncate body 30)) else
  match parseOp (span isBlank l).2 with
  | None => inl (ExpectedOperator name)
  | Some (op, l) =>
  match (span isBlank l).2 with
  | quote :: l =>
      if bool_decide (quote = x22) || bool_decide (quote = x27) then
        match parseValue quote l with
        | None => inl (UnterminatedValue name)
        | Some (v, rest) =>
            match buildMatcher name op v with
            | inl e => inl e
            | inr m => inr (m, rest)
            end
        end
      else inl (ExpectedQuoted name)
  | [] => inl (ExpectedQuoted name)
  end end.

Fixpoint parseMatchers (fuel : nat) (body : gostring) : sel_error + list Matcher :=
  match fuel with
  | O => inl OutOfFuel
  | S fuel =>
      match (span isSep body).2 with
      | [] => inr []
      | l => match parseOne l with
             | inl e => inl e
             | inr (m, rest) =>
                 match parseMatchers fuel rest with
                 | inl e => inl e
                 | inr ms => inr (m :: ms)
                 end
             end
      end
  end.

Definition last_is (c : byte) (s : gostring) : bool := bool_decide (last s = Some c).

(** The body is the text between the first brace and the last character. *)
Definition ParseSelector (expr : gostring) : sel_error + Selector :=
  let s := TrimSpace expr in
  if bool_decide (s = []) then inl EmptyQuery else
  match cut x7b s with
  | (_, None) => if metric_match s then inr (mkSelector s []) else inl (NotSelector (truncate s 80))
  | (before, Some after) =>
      let name := TrimSpace before in
      if negb (bool_decide (name = [])) && negb (metric_match name)
      then inl (NotSelector (truncate s 80))
      else if negb (last_is x7d s) then inl UnterminatedSelector
      else let body := take (length after - 1) after in
           match parseMatchers (S (length body)) body with
           | inl e => inl e
           | inr ms => inr (mkSelector name ms)
           end
  end.

(** ** The tenant boundary *)

Definition tenantMatcher (tenant : gostring) : Matcher := mkMatcher TenantLabel OpEq tenant None.

Definition ForceTenant (sel : Selector) (tenant : gostring) : Selector :=
  mkSelector (s_Metric sel)
    (filter (λ m, m_Name m ≠ TenantLabel) (s_Matchers sel) ++ [tenantMatcher tenant]).

(** The loop of TenantScoped: the count and the tenant so far. *)
Fixpoint scoped_loop (ms : list Matcher) (n : Z) (tenant : gostring) : option gostring :=
  match ms with
  | [] => if n =? 1 then Some tenant else None
  | m :: ms =>
      if bool_decide (m_Name m ≠ TenantLabel) then scoped_loop ms n tenant
      else if negb (bool_decide (m_Op m = OpEq)) || bool_decide (m_Value m = []) then None
      else scoped_loop ms (n + 1) (m_Value m)
  end.

Definition TenantScoped (s : Selector) : option gostring := scoped_loop (s_Matchers s) 0 [].

(** ** Printing *)

Definition escape (c : byte) : gostring :=
  if bool_decide (c = x5c) then [x5c; x5c]
  else if bool_decide (c = x22) then [x5c; x22]
  else if bool_decide (c = x0a) then [x5c; x6e]
  else [c].

Definition quoteValue (v : gostring) : gostring := x22 :: concat (map escape v) ++ [x22].

Definition matcher_str (m : Matcher) : gostring := m_Name m ++ op_str (m_Op m) ++ quoteValue (m_Value m).

(** The matchers, separated by commas. *)
Fixpoint join (ms : list Matcher) : gostring :=
  match ms with
  | [] => []
  | [m] => matcher_str m
  | m :: ms => matcher_str m ++ x2c :: join ms
  end.

Definition matcher_le (a b : Matcher) : Prop :=
  (if bool_decide (m_Name a = m_Name b) then bytes_leb (op_str (m_Op a)) (op_str (m_Op b))
   else bytes_leb (m_Name a) (m_Name b)) = true.

Definition String (s : Selector) : gostring :=
  let ms := sortSlice (s_Matchers s) in
  s_Metric s ++ (if bool_decide (ms = []) then [] else x7b :: join ms ++ [x7d]).

(** ** Matching a series *)

Definition matches1 (metric : gostring) (labels : gmap gostring gostring) (m : Matcher) : bool :=
  let v := if bool_decide (m_Name m = str "__name__") then metric
           else default [] (labels !! m_Name m) in
  match m_Op m with
  | OpEq => bool_decide (v = m_Value m)
  | OpNe => negb (bool_decide (v = m_Value m))
  | OpRe => match m_re m with Some p => MatchString p v | None => false end
  | OpNre => match m_re m with Some p => negb (MatchString p v) | None => true end
  end.

Definition Matches (s : Selector) (metric : gostring) (labels : gmap gostring gostring) : bool :=
  (bool_decide (s_Metric s = []) || bool_decide (metric = s_Metric s)) &&
  forallb (matches1 metric labels) (s_Matchers s).

(** ** Lemmas: the character classes *)

Lemma span_app p a r :
  forallb p a = true → match r with c :: _ => p c = false | [] => True end → span p (a ++ r) = (a, r).
Proof.
  induction a as [|c a IH]; intros Ha Hr; cbn.
  - destruct r as [|c r]; [done|]. cbn. by rewrite Hr.
  - cbn in Ha. apply andb_prop in Ha as [-> Ha]. by rewrite IH.
Qed.

Lemma span_length p l : (length (span p l).2 ≤ length l)%nat.
Proof. induction l as [|c l IH]; cbn; [lia|]. destruct (p c); [|done]. destruct (span p l). cbn in *. lia. Qed.

Lemma span_split p l : l = (span p l).1 ++ (span p l).2.
Proof.
  induction l as [|c l IH]; cbn; [done|]. destruct (p c); [|done].
  destruct (span p l) as [a r]. cbn in *. by rewrite IH at 1.
Qed.

Lemma label_tail name : label_match name = true → forallb (λ c, isAlnum c || isUnderscore c) name = true.
Proof.
  destruct name as [|c name]; [done|]. cbn. intros [H1 ->]%andb_prop. unfold isAlnum.
  apply orb_prop in H1 as [->| ->]; [done|]. by rewrite orb_true_r.
Qed.

(** Characters of metric and label names are printable ASCII. *)
Lemma name_char_plain c : isAlnum c || isUnderscore c || isColon c = true → plain c = true.
Proof.
  unfold isAlnum, isLetter, is_digit, isUnderscore, isColon, plain. intros H.
  destruct (bool_decide_reflect (c = x5f)) as [E|]; [by rewrite E|].
  destruct (bool_decide_reflect (c = x3a)) as [E|]; [by rewrite E|].
  rewrite !orb_false_r in H. apply orb_prop in H as [[H|H]%orb_prop|H];
    apply andb_prop in H as [H1 H2]; zbool; apply andb_true_intro;
    (split; [apply Z.leb_le | apply Z.ltb_lt]); lia.
Qed.

Lemma metric_plain s : metric_match s = true → forallb plain s = true ∧ x7b ∉ s ∧ s ≠ [].
Proof.
  intros H. assert (forallb (λ c, isAlnum c || isUnderscore c || isColon c) s = true) as Ha.
  { destruct s as [|c s]; [done|]. cbn in *. apply andb_prop in H as [H ->]. unfold isAlnum.
    rewrite andb_true_r. apply orb_prop in H as [[->| ->]%orb_prop| ->]; [done| |]; by rewrite !orb_true_r. }
  split_and!; [eapply forallb_imp; [apply name_char_plain|done]| |by intros ->].
  intros Hin%list_elem_of_In. rewrite forallb_forall in Ha. by specialize (Ha _ Hin).
Qed.

(** Trimming leaves a text alone that starts and ends with a plain character. *)
Lemma TrimSpace_ends s a b : head s = Some a → last s = Some b → plain a = true → plain b = true → TrimSpace s = s.
Proof.
  intros Hh Hl Ha Hb. unfold TrimSpace. destruct s as [|c s]; [done|]. injection Hh as ->.
  cbn [length trim_loop]. rewrite strip_any_head by done.
  rewrite <- head_reverse in Hl. destruct (rev (a :: s)) as [|d r] eqn:E.
  { apply (f_equal length) in E. by rewrite length_rev in E. }
  unfold reverse in Hl. rewrite <- rev_alt, E in Hl. injection Hl as ->.
  cbn [length trim_loop]. rewrite strip_any_head by done. rewrite <- E. apply rev_involutive.
Qed.

(** ** Lemmas: printing and parsing *)

Lemma parse_escape quote c v r l :
  quote = x22 → parseValue quote l = Some (v, r) → parseValue quote (escape c ++ l) = Some (c :: v, r).
Proof.
  intros -> H. unfold escape.
  destruct (bool_decide_reflect (c = x5c)) as [E|]; [rewrite E; cbn; by rewrite H|].
  destruct (bool_decide_reflect (c = x22)) as [E|]; [rewrite E; cbn; by rewrite H|].
  destruct (bool_decide_reflect (c = x0a)) as [E|]; [rewrite E; cbn; by rewrite H|].
  cbn [app parseValue]. rewrite !bool_decide_false by done. by rewrite H.
Qed.

Lemma parse_quoted v r : parseValue x22 (concat (map escape v) ++ [x22] ++ r) = Some (v, r).
Proof.
  induction v as [|c v IH]; [done|]. cbn [map concat]. rewrite <- app_assoc. by apply parse_escape.
Qed.

Definition matcher_ok (m : Matcher) : Prop :=
  label_match (m_Name m) = true ∧ buildMatcher (m_Name m) (m_Op m) (m_Value m) = inr m.

Definition sel_ok (s : Selector) : Prop :=
  (s_Metric s = [] ∨ metric_match (s_Metric s) = true) ∧ Forall matcher_ok (s_Matchers s).

Lemma parseOp_print o q l : q = x22 → parseOp (op_str o ++ q :: l) = Some (o, q :: l).
Proof. intros ->. by destruct o. Qed.

Lemma parseOne_print m rest : matcher_ok m → parseOne (matcher_str m ++ rest) = inr (m, rest).
Proof.
  intros [Hn Hb]. unfold parseOne, matcher_str, quoteValue.
  rewrite <- !app_assoc. rewrite span_app; [|by apply label_tail|by destruct (m_Op m)].
  rewrite Hn. cbn [negb].
  assert (span isBlank (op_str (m_Op m) ++ (x22 :: concat (map escape (m_Value m)) ++ [x22]) ++ rest) =
          ([], op_str (m_Op m) ++ (x22 :: concat (map escape (m_Value m)) ++ [x22]) ++ rest)) as ->
    by by destruct (m_Op m).
  cbn [snd app]. rewrite parseOp_print by done. cbn [span isBlank].
  change (isBlank x22) with false. cbn [snd]. rewrite <- app_assoc, parse_quoted. cbn. by rewrite Hb.
Qed.

Lemma matcher_str_sep m r : matcher_ok m → (span isSep (matcher_str m ++ r)).2 = matcher_str m ++ r.
Proof.
  intros [Hn _]. unfold matcher_str. destruct (m_Name m) as [|c name]; [done|]. cbn in *.
  apply andb_prop in Hn as [Hc _]. assert (isSep c = false) as ->; [|done].
  unfold isSep, isBlank. destruct (bool_decide_reflect (c = x20)) as [E|]; [by rewrite E in Hc|].
  destruct (bool_decide_reflect (c = x09)) as [E|]; [by rewrite E in Hc|].
  destruct (bool_decide_reflect (c = x2c)) as [E|]; [by rewrite E in Hc|done].
Qed.

Lemma matcher_str_cons m r : ∃ c l, matcher_str m ++ r = c :: l.
Proof. unfold matcher_str. destruct (m_Name m); [destruct (m_Op m)|]; cbn; eauto. Qed.

Lemma parse_join fuel ms : (length ms < fuel)%nat → Forall matcher_ok ms → parseMatchers fuel (join ms) = inr ms.
Proof.
  revert fuel. induction ms as [|m ms IH]; intros fuel Hf Hm; (destruct fuel as [|fuel]; [cbn in Hf; lia|]); [done|].
  apply Forall_cons in Hm as [H1 Hm]. cbn [parseMatchers].
  assert (∃ r, join (m :: ms) = matcher_str m ++ r ∧ parseMatchers fuel r = inr ms) as (r & -> & Er).
  { destruct ms as [|m2 ms].
    - exists []. rewrite app_nil_r. split; [done|]. destruct fuel; [cbn in Hf; lia|done].
    - exists (x2c :: join (m2 :: ms)). split; [done|]. cbn in Hf.
      destruct fuel as [|fuel]; [lia|]. specialize (IH (S fuel) ltac:(cbn; lia) Hm).
      cbn [parseMatchers] in *. by change (span isSep (x2c :: join (m2 :: ms))).2
        with (let '(a, r) := span isSep (join (m2 :: ms)) in (x2c :: a, r)).2;
        destruct (span isSep (join (m2 :: ms))). }
  rewrite matcher_str_sep by done. destruct (matcher_str_cons m r) as (c & l & E). rewrite E, <- E.
  by rewrite parseOne_print, Er.
Qed.

Lemma join_length ms : (length ms ≤ length (join ms))%nat.
Proof.
  induction ms as [|m ms IH]; [done|]. destruct ms as [|m2 ms].
  - cbn. destruct (matcher_str_cons m []) as (c & l & E). rewrite app_nil_r in E. rewrite E. cbn. lia.
  - change (join (m :: m2 :: ms)) with (matcher_str m ++ x2c :: join (m2 :: ms)).
    rewrite length_app. cbn [length] in *. lia.
Qed.

Lemma last_snoc_app (a : gostring) b : last (a ++ [b]) = Some b.
Proof. apply last_snoc. Qed.

(** The text of a selector with matchers, around its body. *)
Lemma parse_braced metric ms :
  (metric = [] ∨ metric_match metric = true) → Forall matcher_ok ms →
  ParseSelector (metric ++ x7b :: join ms ++ [x7d]) = inr (mkSelector metric ms).
Proof.
  intros Hm Hms. unfold ParseSelector.
  set (s := metric ++ x7b :: join ms ++ [x7d]).
  assert (Hlast : last s = Some x7d).
  { unfold s. rewrite app_comm_cons, app_assoc. apply last_snoc. }
  assert (Hcut : cut x7b s = (metric, Some (join ms ++ [x7d]))).
  { apply cut_some. destruct Hm as [->|Hm]; [set_solver|]. by apply metric_plain. }
  assert (TrimSpace s = s ∧ s ≠ [] ∧ TrimSpace metric = metric) as (-> & Hne & Htm).
  { destruct Hm as [->|Hm].
    - split_and!; [eapply TrimSpace_ends with x7b x7d; try done|done|done].
    - pose proof (metric_plain _ Hm) as (Hp & _ & Hn). destruct metric as [|c metric]; [done|].
      pose proof Hp as Hc. cbn in Hc. apply andb_prop in Hc as [Hc _].
      split_and!; [by apply TrimSpace_ends with c x7d|done|by apply TrimSpace_plain]. }
  rewrite bool_decide_false by done. rewrite Hcut, Htm.
  match goal with |- context [if ?b && ?c then _ else _] => replace (b && c) with false end.
  2: { destruct Hm as [->| ->]; [done|]. by rewrite andb_false_r. }
  unfold last_is. rewrite Hlast, bool_decide_true by done. cbn [negb].
  rewrite length_app. replace (length (join ms) + length [x7d] - 1)%nat with (length (join ms)) by (cbn; lia).
  rewrite take_app_length, parse_join; [done| |done]. pose proof (join_length ms). lia.
Qed.

Lemma parse_bare metric : metric_match metric = true → ParseSelector metric = inr (mkSelector metric []).
Proof.
  intros H. pose proof (metric_plain _ H) as (Hp & Hb & Hn). unfold ParseSelector.
  by rewrite TrimSpace_plain, bool_decide_false, cut_none, H.
Qed.

(** ** Lemmas: what the parser accepts *)

Lemma parseValue_length q l v r : parseValue q l = Some (v, r) → (length r < length l)%nat.
Proof.
  revert v r. induction l as [l IH] using (induction_ltof1 _ (@length _)); unfold ltof in IH.
  intros v r. destruct l as [|c l]; [done|]. cbn [parseValue].
  destruct (bool_decide (c = x5c)).
  - destruct l as [|n l]; [done|]. destruct (parseValue q l) as [[v' r']|] eqn:E; [|done].
    intros [= <- <-]. apply IH in E; cbn; lia.
  - destruct (bool_decide (c = q)); [intros [= <- <-]; cbn; lia|].
    destruct (parseValue q l) as [[v' r']|] eqn:E; [|done]. intros [= <- <-]. apply IH in E; cbn; lia.
Qed.

Lemma parseOp_length l o r : parseOp l = Some (o, r) → (length r ≤ length l)%nat.
Proof.
  unfold parseOp. destruct l as [|a [|b l]]; cbn; repeat case_match; intros; simplify_eq; cbn; lia.
Qed.

Lemma parseOne_spec l m rest :
  parseOne l = inr (m, rest) → matcher_ok m ∧ (length rest < length l)%nat.
Proof.
  unfold parseOne. pose proof (span_length (λ c, isAlnum c || isUnderscore c) l) as H1.
  destruct (span _ l) as [name l1]. cbn in H1. destruct (label_match name) eqn:En; [|done]. cbn [negb].
  pose proof (span_length isBlank l1) as H2.
  destruct (parseOp _) as [[o l2]|] eqn:Eo; [|done]. apply parseOp_length in Eo.
  pose proof (span_length isBlank l2) as H3. destruct (span isBlank l2).2 as [|q l3]; [done|].
  destruct (_ || _); [|done]. destruct (parseValue q l3) as [[v r]|] eqn:Ev; [|done].
  apply parseValue_length in Ev. destruct (buildMatcher name o v) as [|m'] eqn:Eb; [done|].
  intros [= -> ->]. split; [|cbn in *; lia].
  assert (m_Name m = name ∧ m_Op m = o ∧ m_Value m = v) as (E1 & E2 & E3); [|split; by rewrite E1, ?E2, ?E3].
  unfold buildMatcher in Eb. repeat case_match; simplify_eq; done.
Qed.

Lemma parseMatchers_ok fuel body ms : parseMatchers fuel body = inr ms → Forall matcher_ok ms.
Proof.
  revert body ms. induction fuel as [|fuel IH]; intros body ms; [done|]. cbn [parseMatchers].
  destruct (span isSep body).2 as [|c l] eqn:E; [intros [= <-]; constructor|].
  destruct (parseOne (c :: l)) as [|[m rest]] eqn:E1; [done|].
  destruct (parseMatchers fuel rest) as [|ms'] eqn:E2; [done|]. intros [= <-].
  constructor; [by eapply parseOne_spec|by eapply IH].
Qed.

Lemma parseOne_fuel l : parseOne l ≠ inl OutOfFuel.
Proof. unfold parseOne, buildMatcher. repeat case_match; simplify_eq; done. Qed.

Lemma parseMatchers_fuel fuel body : (length body < fuel)%nat → parseMatchers fuel body ≠ inl OutOfFuel.
Proof.
  revert body. induction fuel as [|fuel IH]; intros body Hf; [lia|]. cbn [parseMatchers].
  pose proof (span_length isSep body) as Hs. destruct (span isSep body).2 as [|c l] eqn:E; [done|].
  destruct (parseOne (c :: l)) as [e|[m rest]] eqn:E1; [intros [= ->]; by apply parseOne_fuel in E1|].
  apply parseOne_spec in E1 as [_ Hr]. specialize (IH rest ltac:(lia)).
  destruct (parseMatchers fuel rest); congruence.
Qed.

Lemma ParseSelector_ok e s : ParseSelector e = inr s → sel_ok s.
Proof.
  unfold ParseSelector. case_match; [done|]. destruct (cut x7b (TrimSpace e)) as [b [a|]].
  - destruct (bool_decide_reflect (TrimSpace b = [])) as [En|En]; cbn [negb andb].
    + case_match; [done|]. destruct (parseMatchers _ _) eqn:Ep; [done|]. intros [= <-].
      split; [by left|by eapply parseMatchers_ok].
    + destruct (metric_match (TrimSpace b)) eqn:Em; [|done]. cbn [negb].
      case_match; [done|]. destruct (parseMatchers _ _) eqn:Ep; [done|]. intros [= <-].
      split; [by right|by eapply parseMatchers_ok].
  - destruct (metric_match (TrimSpace e)) eqn:Em; [|done]. intros [= <-]. split; [by right|constructor].
Qed.

Lemma ParseSelector_fuel e : ParseSelector e ≠ inl OutOfFuel.
Proof.
  unfold ParseSelector. repeat case_match; simplify_eq; try done.
  match goal with H : parseMatchers _ _ = inl _ |- _ => intros [= ->]; revert H end.
  apply parseMatchers_fuel. lia.
Qed.

(** ** Theorems *)

Context (sort_perm : ∀ ms, sortSlice ms ≡ₚ ms).
Context (sort_sorted : ∀ ms, Sorted matcher_le (sortSlice ms)).

Lemma sort_nil ms : sortSlice ms = [] ↔ ms = [].
Proof.
  split; intros E.
  - apply Permutation_nil_r. rewrite <- E. symmetry. apply sort_perm.
  - subst ms. apply Permutation_nil_r, sort_perm.
Qed.

Lemma parse_String s :
  sel_ok s → (s_Metric s ≠ [] ∨ s_Matchers s ≠ []) →
  ParseSelector (String s) = inr (mkSelector (s_Metric s) (sortSlice (s_Matchers s))).
Proof.
  intros [Hm Hms] Hne. unfold String. destruct (bool_decide_reflect (sortSlice (s_Matchers s) = [])) as [E|E].
  - rewrite app_nil_r, E. apply (proj1 (sort_nil _)) in E. destruct Hm as [Hm|Hm]; [by destruct Hne|]. by apply parse_bare.
  - apply parse_braced; [done|]. by rewrite sort_perm.
Qed.

Lemma matches_perm ms1 ms2 metric labels :
  ms1 ≡ₚ ms2 → forallb (matches1 metric labels) ms1 = forallb (matches1 metric labels) ms2.
Proof.
  intros H. apply eq_true_iff_eq. rewrite !forallb_forall. split; intros Hx x Hin; apply Hx;
    apply list_elem_of_In; apply list_elem_of_In in Hin; [by rewrite H|by rewrite <- H].
Qed.

Lemma op_str_inj a b : op_str a = op_str b → a = b.
Proof. by destruct a, b. Qed.

#[local] Instance matcher_le_trans : Transitive matcher_le.
Proof.
  unfold matcher_le. intros a b c.
  destruct (bool_decide_reflect (m_Name a = m_Name b)) as [E1|N1],
    (bool_decide_reflect (m_Name b = m_Name c)) as [E2|N2],
    (bool_decide_reflect (m_Name a = m_Name c)) as [E3|N3]; try congruence.
  - apply bytes_le_trans.
  - intros H1 H2. exfalso. apply N1, (anti_symm bytes_le); unfold bytes_le; congruence.
  - apply bytes_le_trans.
Qed.

Lemma matcher_le_antisymm a b :
  matcher_le a b → matcher_le b a → m_Name a = m_Name b ∧ m_Op a = m_Op b.
Proof.
  unfold matcher_le. destruct (bool_decide_reflect (m_Name a = m_Name b)) as [E|N].
  - rewrite bool_decide_true by done. intros. split; [done|]. by apply op_str_inj, (anti_symm bytes_le).
  - rewrite bool_decide_false by congruence. intros. destruct N. by apply (anti_symm bytes_le).
Qed.

(** Matchers that differ in label or operator print in one order only. *)
Lemma sort_canonical ms1 ms2 :
  NoDup ((λ m, (m_Name m, m_Op m)) <$> ms1) → ms1 ≡ₚ ms2 → sortSlice ms1 = sortSlice ms2.
Proof.
  intros Hd Hp. apply (StronglySorted_unique_strong matcher_le).
  - intros a b Ha Hb H1 H2. rewrite sort_perm in Ha. rewrite sort_perm, <- Hp in Hb.
    destruct (matcher_le_antisymm a b H1 H2) as [En Eo].
    apply list_elem_of_lookup in Ha as [i Hi]. apply list_elem_of_lookup in Hb as [j Hj].
    assert (i = j) as ->; [|congruence].
    eapply NoDup_lookup; [exact Hd|rewrite list_lookup_fmap, Hi; done|].
    rewrite list_lookup_fmap, Hj. cbn. by rewrite En, Eo.
  - apply Sorted_StronglySorted; [apply _|apply sort_sorted].
  - apply Sorted_StronglySorted; [apply _|apply sort_sorted].
  - by rewrite !sort_perm.
Qed.

(** C36. What is forwarded upstream is what was parsed: the parser never runs out of
    its loop bound, whatever the text, and a selector it accepts is either the empty one,
    which prints as nothing and is then refused as an empty query, or prints to a text that
    parses back to the same metric and the same matchers, values with quotes, backslashes,
    newlines, braces or commas included; so the printed text selects exactly the same
    series, and it prints to itself when no two matchers share label and operator. *)
Theorem selector_roundtrip expr :
  ParseSelector expr ≠ inl OutOfFuel ∧
  ∀ sel, ParseSelector expr = inr sel →
  (sel = mkSelector [] [] ∧ String sel = [] ∧ ParseSelector (String sel) = inl EmptyQuery) ∨
  ∃ sel', ParseSelector (String sel) = inr sel' ∧
    s_Metric sel' = s_Metric sel ∧ s_Matchers sel' ≡ₚ s_Matchers sel ∧
    (NoDup ((λ m, (m_Name m, m_Op m)) <$> s_Matchers sel) → String sel' = String sel) ∧
    ∀ metric labels, Matches sel' metric labels = Matches sel metric labels.
Proof.
  split; [apply ParseSelector_fuel|]. intros sel Hp. apply ParseSelector_ok in Hp.
  destruct (decide (s_Metric sel = [] ∧ s_Matchers sel = [])) as [[E1 E2]|Hne].
  { left. destruct sel as [metric ms]. cbn in E1, E2. subst metric ms.
    assert (E : String (mkSelector [] []) = []).
    { unfold String. cbn. assert (sortSlice [] = []) as -> by (apply Permutation_nil, symmetry, sort_perm). done. }
    rewrite E. done. }
  right. assert (Hne' : s_Metric sel ≠ [] ∨ s_Matchers sel ≠ []) by (destruct (decide (s_Metric sel = [])); [right|left]; tauto).
  exists (mkSelector (s_Metric sel) (sortSlice (s_Matchers sel))).
  split_and!; [by apply parse_String|done|apply sort_perm| |].
  { intros Hd. unfold String. cbn [s_Metric s_Matchers].
    by rewrite <- (sort_canonical (s_Matchers sel) (sortSlice (s_Matchers sel))). }
  intros. unfold Matches. cbn. by rewrite (matches_perm _ (s_Matchers sel)).
Qed.

Lemma scoped_perm_aux ms : ∀ n t t0,
  Forall (λ m, m_Name m = TenantLabel → m = tenantMatcher t) ms → t ≠ [] →
  scoped_loop ms n t0 =
    let k := Z.of_nat (length (filter (λ m, m_Name m = TenantLabel) ms)) in
    if n + k =? 1 then Some (if k =? 0 then t0 else t) else None.
Proof.
  induction ms as [|m ms IH]; intros n t t0 Hf Ht; cbn [scoped_loop].
  - cbn. by rewrite Z.add_0_r.
  - apply Forall_cons in Hf as [H1 Hf]. rewrite filter_cons. destruct (decide (m_Name m = TenantLabel)) as [E|E].
    + rewrite (H1 E). rewrite bool_decide_false by naive_solver. cbn [m_Op m_Value tenantMatcher].
      rewrite bool_decide_true, bool_decide_false by done. cbn [negb orb]. rewrite (IH _ t) by done. cbv zeta.
      cbn [length]. rewrite Nat2Z.inj_succ. set (k := Z.of_nat _). assert (0 ≤ k) by (unfold k; lia).
      replace (n + 1 + k) with (n + Z.succ k) by lia. rewrite (proj2 (Z.eqb_neq (Z.succ k) 0)) by lia.
      by destruct (k =? 0).
    + rewrite bool_decide_true by done. by apply IH.
Qed.

Lemma forced_matchers sel t ms :
  ms ≡ₚ s_Matchers (ForceTenant sel t) →
  Forall (λ m, m_Name m = TenantLabel → m = tenantMatcher t) ms ∧
  length (filter (λ m, m_Name m = TenantLabel) ms) = 1%nat.
Proof.
  intros H. rewrite H. cbn [s_Matchers ForceTenant]. split.
  - apply Forall_app. split; [|by constructor].
    apply Forall_forall. intros m [Hm _]%list_elem_of_filter. done.
  - rewrite filter_app, length_app, filter_cons_True, filter_nil by done.
    assert (filter (λ m, m_Name m = TenantLabel) (filter (λ m, m_Name m ≠ TenantLabel) (s_Matchers sel)) = []) as ->; [|done].
    apply elem_of_nil_inv. intros m [Hm [Hn _]%list_elem_of_filter]%list_elem_of_filter. done.
Qed.

Lemma TenantScoped_forced sel t ms :
  t ≠ [] → ms ≡ₚ s_Matchers (ForceTenant sel t) → TenantScoped (mkSelector (s_Metric sel) ms) = Some t.
Proof.
  intros Ht [Hf Hl]%forced_matchers. unfold TenantScoped. cbn. by rewrite (scoped_perm_aux _ _ t), Hl.
Qed.

Lemma force_ok sel t : sel_ok sel → sel_ok (ForceTenant sel t).
Proof.
  intros [Hm Hms]. split; [done|]. cbn. apply Forall_app. split.
  { apply Forall_forall. intros m [_ Hin]%list_elem_of_filter. by eapply Forall_forall in Hms. }
  constructor; [|constructor]. split; reflexivity.
Qed.

(** C2. The tenant boundary of the metrics API: for any query text the parser accepts
    and any tenant, the forwarded text (the printed selector with the tenant forced)
    parses to a selector that is pinned to exactly that tenant, and that selector
    matches precisely the series whose tenant_id label is the tenant and which the
    query without its own tenant_id conditions selects.  No value, regular expression or
    tenant_id condition in the query widens or moves it. *)
Theorem tenant_pinned expr sel tenant :
  ParseSelector expr = inr sel → tenant ≠ [] →
  TenantScoped (ForceTenant sel tenant) = Some tenant ∧
  ∃ fwd, ParseSelector (String (ForceTenant sel tenant)) = inr fwd ∧
    TenantScoped fwd = Some tenant ∧
    ∀ metric labels, Matches fwd metric labels = true ↔
      labels !! TenantLabel = Some tenant ∧
      Matches (mkSelector (s_Metric sel) (filter (λ m, m_Name m ≠ TenantLabel) (s_Matchers sel))) metric labels = true.
Proof.
  intros Hp%ParseSelector_ok Ht. split; [by apply TenantScoped_forced|].
  eexists. split; [apply parse_String; [by apply force_ok|]|].
  { right. cbn. by destruct (filter _ _). }
  split; [apply (TenantScoped_forced sel); [done|apply sort_perm]|]. intros metric labels.
  unfold Matches. cbn [s_Metric s_Matchers ForceTenant].
  rewrite (matches_perm _ _ _ _ (sort_perm _)), forallb_app. cbn [forallb].
  rewrite andb_true_r, !andb_true_iff.
  assert (matches1 metric labels (tenantMatcher tenant) = true ↔ labels !! TenantLabel = Some tenant) as ->.
  { unfold matches1. cbn [m_Op m_Name m_Value tenantMatcher]. change (bool_decide (TenantLabel = str "__name__")) with false. cbn [andb].
    rewrite bool_decide_eq_true. destruct (labels !! TenantLabel); cbn; naive_solver. }
  tauto.
Qed.

End selector.

(** ** Witnesses *)

#[local] Instance matcher_le_dec : RelDecision matcher_le := λ a b, decide (_ = true).

#[local] Instance matcher_le_total : Total matcher_le.
Proof.
  intros a b. unfold matcher_le. destruct (bool_decide_reflect (m_Name a = m_Name b)) as [E|N].
  - rewrite bool_decide_true by done. apply bytes_le_total.
  - rewrite bool_decide_false by congruence. apply bytes_le_total.
Qed.

Definition query : gostring := str "up{job='api\\n',tenant_id!='x', a=~'b.*'}".

Lemma tenant_pinned_witness :
  ∃ sel, ParseSelector (λ _, true) query = inr sel ∧ length (s_Matchers sel) = 3%nat ∧
    TenantScoped (ForceTenant sel (str "t1")) = Some (str "t1") ∧
    String (merge_sort matcher_le) (ForceTenant sel (str "t1")) =
      str "up{a=~" ++ quoteValue (str "b.*") ++ str ",job=" ++ quoteValue (str "api\n") ++
      str ",tenant_id=" ++ quoteValue (str "t1") ++ str "}".
Proof.
  eexists. split; [vm_compute; reflexivity|]. split; [reflexivity|].
  split; [|vm_compute; reflexivity].
  eapply (tenant_pinned (λ _, true) (λ _ _, false) (merge_sort matcher_le) (merge_sort_Permutation _) query);
    [vm_compute; reflexivity|done].
Defined.

Definition demo_sel : Selector := mkSelector [] [tenantMatcher (str "a")].

Lemma selector_roundtrip_witness :
  (ParseSelector (λ _, true) query ≠ inl OutOfFuel ∧
   Sorted matcher_le (merge_sort matcher_le [tenantMatcher (str "b"); tenantMatcher (str "a")])) ∧
  ∃ sel', ParseSelector (λ _, true) (String (merge_sort matcher_le) demo_sel) = inr sel' ∧ s_Matchers sel' ≡ₚ s_Matchers demo_sel.
Proof.
  split; [split; [|apply Sorted_merge_sort; apply _]|].
  - apply (selector_roundtrip (λ _, true) (λ _ _, false) (merge_sort matcher_le)
      (merge_sort_Permutation _) (λ ms, Sorted_merge_sort _ ms) query).
  - destruct (proj2 (selector_roundtrip (λ _, true) (λ _ _, false) (merge_sort matcher_le)
      (merge_sort_Permutation _) (λ ms, Sorted_merge_sort _ ms) (String (merge_sort matcher_le) demo_sel)) demo_sel) as [[E _]|(sel' & H1 & _ & H2 & _)].
    + vm_compute. reflexivity.
    + discriminate E.
    + exists sel'. split; [exact H1|exact H2].
Defined.

End PromSelector.
