(* ===== verification/PromEval.v ===== *)
(** * Evaluating selectors over stored samples (internal/promapi/eval.go)

    Instant and range queries, label names and values, and the series listing, over a
    snapshot of the sample store (tsdb.Series).  A label set is a finite map; sample values
    are float64.  Times are Unix milliseconds. *)
From S2P Require Import Prelude GoHash GoString GoTime GoFloat PromSelector.

Module PromEval.

Import PromSelector.

#[local] Open Scope list_scope.
#[local] Open Scope Z_scope.

(** tsdb.Series: one stored sample. *)
Record Series := mkSeries {
  sr_Metric : gostring; sr_Labels : gmap gostring gostring; sr_TimeMillis : Z; sr_Value : float64 }.

Definition DefaultLookback : Z := 5 * Minute.
Definition DefaultMaxSeries : Z := 5000.

Record Point := mkPoint { p_TimeMillis : Z; p_Value : float64 }.

#[export] Instance Point_eq_dec : EqDecision Point.
Proof. solve_decision. Defined.

Record ResultSeries := mkResult {
  rs_Metric : gostring; rs_Labels : gmap gostring gostring; rs_Points : list Point }.

#[export] Instance ResultSeries_eta : Eta ResultSeries := λ r, mkResult (rs_Metric r) (rs_Labels r) (rs_Points r).

Definition sortedKeys (labels : gmap gostring gostring) : list gostring :=
  merge_sort bytes_le (map_to_list labels).*1.

Definition seriesKey (metric : gostring) (labels : gmap gostring gostring) : gostring :=
  metric ++ concat (map (λ k, x00 :: k ++ x01 :: default [] (labels !! k)) (sortedKeys labels)).

Inductive eval_error := TooManySeries (cap : Z).

(** The index maps and the result under construction. *)
Record collecting := mkCollecting {
  c_idx : gmap gostring nat;
  c_pointIdx : gmap gostring (gmap Z nat);
  c_out : list ResultSeries }.

Definition point_le (a b : Point) : Prop := p_TimeMillis a ≤ p_TimeMillis b.
#[export] Instance point_le_dec : RelDecision point_le := λ a b, decide (_ ≤ _).

Section eval.
Context (MatchString : gostring → gostring → bool).

Definition selected (sel : Selector) (startMs endMs : Z) (s : Series) : bool :=
  negb ((sr_TimeMillis s <? startMs) || (endMs <? sr_TimeMillis s)) &&
  Matches MatchString sel (sr_Metric s) (sr_Labels s).

(** The index of the series of a sample, appending it when it is new. *)
Definition intern (maxSeries : Z) (k : gostring) (s : Series) (c : collecting) : eval_error + (nat * collecting) :=
  match c_idx c !! k with
  | Some i => inr (i, c)
  | None =>
      if maxSeries <=? Z.of_nat (length (c_out c)) then inl (TooManySeries maxSeries)
      else let i := length (c_out c) in
           inr (i, mkCollecting (<[k := i]> (c_idx c)) (c_pointIdx c)
                     (c_out c ++ [mkResult (sr_Metric s) (sr_Labels s) []]))
  end.

(** The point stored at its timestamp's place, or appended. *)
Definition addPoint (k : gostring) (i : nat) (s : Series) (c : collecting) : collecting :=
  let p := mkPoint (sr_TimeMillis s) (sr_Value s) in
  let seen := default ∅ (c_pointIdx c !! k) in
  match seen !! sr_TimeMillis s with
  | Some pi =>
      mkCollecting (c_idx c) (<[k := seen]> (c_pointIdx c))
        (alter (λ r, r <| rs_Points := <[pi := p]> (rs_Points r) |>) i (c_out c))
  | None =>
      let n := match c_out c !! i with Some r => length (rs_Points r) | None => 0%nat end in
      mkCollecting (c_idx c) (<[k := <[sr_TimeMillis s := n]> seen]> (c_pointIdx c))
        (alter (λ r, r <| rs_Points := rs_Points r ++ [p] |>) i (c_out c))
  end.

Definition collect1 (maxSeries : Z) (s : Series) (c : collecting) : eval_error + collecting :=
  let k := seriesKey (sr_Metric s) (sr_Labels s) in
  match intern maxSeries k s c with
  | inl e => inl e
  | inr (i, c) => inr (addPoint k i s c)
  end.

Fixpoint collect_loop (sel : Selector) (startMs endMs maxSeries : Z) (snapshot : list Series) (c : collecting)
    : eval_error + collecting :=
  match snapshot with
  | [] => inr c
  | s :: snapshot =>
      if negb (selected sel startMs endMs s) then collect_loop sel startMs endMs maxSeries snapshot c
      else match collect1 maxSeries s c with
           | inl e => inl e
           | inr c => collect_loop sel startMs endMs maxSeries snapshot c
           end
  end.

Definition cap (maxSeries : Z) : Z := if maxSeries <=? 0 then DefaultMaxSeries else maxSeries.

Definition collect (snapshot : list Series) (sel : Selector) (startMs endMs maxSeries : Z)
    : eval_error + list ResultSeries :=
  match collect_loop sel startMs endMs (cap maxSeries) snapshot (mkCollecting ∅ ∅ []) with
  | inl e => inl e
  | inr c => inr ((λ r, r <| rs_Points := merge_sort point_le (rs_Points r) |>) <$> c_out c)
  end.

(** Duration.Milliseconds truncates towards zero; the difference is an int64. *)
Definition Instant (snapshot : list Series) (sel : Selector) (atMs lookback maxSeries : Z)
    : eval_error + list ResultSeries :=
  let lookback := if lookback <=? 0 then DefaultLookback else lookback in
  match collect snapshot sel (i64 (atMs - Z.quot lookback Millisecond)) atMs maxSeries with
  | inl e => inl e
  | inr series =>
      inr (foldr (λ rs out, match last (rs_Points rs) with
                            | None => out
                            | Some p => (rs <| rs_Points := [p] |>) :: out
                            end) [] series)
  end.

Definition RangeQuery (snapshot : list Series) (sel : Selector) (startMs endMs maxSeries : Z)
    : eval_error + list ResultSeries := collect snapshot sel startMs endMs maxSeries.

(** The series of one selector that were not seen before, up to the cap. *)
Fixpoint addUnseen (maxSeries : Z) (series : list ResultSeries) (seen : gset gostring) (out : list ResultSeries)
    : eval_error + (gset gostring * list ResultSeries) :=
  match series with
  | [] => inr (seen, out)
  | rs :: series =>
      let k := seriesKey (rs_Metric rs) (rs_Labels rs) in
      if bool_decide (k ∈ seen) then addUnseen maxSeries series seen out
      else if maxSeries <=? Z.of_nat (length out) then inl (TooManySeries maxSeries)
      else addUnseen maxSeries series ({[k]} ∪ seen) (out ++ [rs])
  end.

Fixpoint multi_loop (snapshot : list Series) (sels : list Selector) (startMs endMs maxSeries : Z)
    (seen : gset gostring) (out : list ResultSeries) : eval_error + list ResultSeries :=
  match sels with
  | [] => inr out
  | sel :: sels =>
      match collect snapshot sel startMs endMs maxSeries with
      | inl e => inl e
      | inr series =>
          match addUnseen maxSeries series seen out with
          | inl e => inl e
          | inr (seen, out) => multi_loop snapshot sels startMs endMs maxSeries seen out
          end
      end
  end.

Definition collectMulti (snapshot : list Series) (sels : list Selector) (startMs endMs maxSeries : Z)
    : eval_error + list ResultSeries := multi_loop snapshot sels startMs endMs (cap maxSeries) ∅ [].

Definition SeriesQuery := collectMulti.

Definition sortedSet (s : gset gostring) : list gostring := merge_sort bytes_le (elements s).

Definition LabelNames (snapshot : list Series) (sels : list Selector) (startMs endMs maxSeries : Z)
    : eval_error + list gostring :=
  match collectMulti snapshot sels startMs endMs maxSeries with
  | inl e => inl e
  | inr collected =>
      inr (sortedSet (foldl (λ s rs, dom (rs_Labels rs) ∪ s) {[str "__name__"]} collected))
  end.

Definition LabelValues (snapshot : list Series) (name : gostring) (sels : list Selector)
    (startMs endMs maxSeries : Z) : eval_error + list gostring :=
  match collectMulti snapshot sels startMs endMs maxSeries with
  | inl e => inl e
  | inr collected =>
      inr (sortedSet (foldl (λ s rs,
             if bool_decide (name = str "__name__") then {[rs_Metric rs]} ∪ s
             else match rs_Labels rs !! name with Some v => {[v]} ∪ s | None => s end) ∅ collected))
  end.

(** ** The reference: what a query should return *)

Definition keyOf (s : Series) : gostring := seriesKey (sr_Metric s) (sr_Labels s).
Definition keyOfResult (r : ResultSeries) : gostring := seriesKey (rs_Metric r) (rs_Labels r).

(** The distinct elements in first-seen order. *)
Definition distinct (l : list gostring) : list gostring :=
  foldl (λ acc k, if bool_decide (k ∈ acc) then acc else acc ++ [k]) [] l.

(** The value of the last sample of a series at a timestamp. *)
Definition latest (ms : list Series) (k : gostring) (t : Z) : option float64 :=
  foldl (λ o s, if bool_decide (keyOf s = k ∧ sr_TimeMillis s = t) then Some (sr_Value s) else o) None ms.

Definition first (ms : list Series) (k : gostring) : option Series :=
  head (filter (λ s, keyOf s = k) ms).

(** ** Lemmas: the collection loop *)

Lemma distinct_snoc l k : distinct (l ++ [k]) = if bool_decide (k ∈ distinct l) then distinct l else distinct l ++ [k].
Proof. unfold distinct. by rewrite foldl_app. Qed.

Lemma distinct_elem l k : k ∈ distinct l ↔ k ∈ l.
Proof.
  induction l as [|x l IH] using rev_ind; [done|]. rewrite distinct_snoc.
  destruct (bool_decide_reflect (x ∈ distinct l)); set_solver.
Qed.

Lemma distinct_NoDup l : NoDup (distinct l).
Proof.
  induction l as [|x l IH] using rev_ind; [constructor|]. rewrite distinct_snoc.
  destruct (bool_decide_reflect (x ∈ distinct l)); [done|].
  apply NoDup_app. split_and!; [done|set_solver|apply NoDup_singleton].
Qed.

Lemma latest_snoc ms s k t :
  latest (ms ++ [s]) k t =
  if bool_decide (keyOf s = k ∧ sr_TimeMillis s = t) then Some (sr_Value s) else latest ms k t.
Proof. unfold latest. by rewrite foldl_app. Qed.

Lemma latest_none ms k t : k ∉ keyOf <$> ms → latest ms k t = None.
Proof.
  induction ms as [|s ms IH] using rev_ind; [done|]. rewrite fmap_app, latest_snoc. intros H.
  rewrite bool_decide_false by set_solver. apply IH. set_solver.
Qed.

Lemma first_snoc ms s k :
  first (ms ++ [s]) k = match first ms k with Some f => Some f | None => if decide (keyOf s = k) then Some s else None end.
Proof.
  unfold first. rewrite filter_app. destruct (filter _ ms) as [|f l]; [|done]. cbn [app head].
  rewrite filter_cons. by destruct (decide (keyOf s = k)).
Qed.

Lemma first_none ms k : k ∉ keyOf <$> ms → first ms k = None.
Proof.
  intros H. unfold first. destruct (filter _ ms) as [|f l] eqn:E; [done|]. exfalso.
  assert (f ∈ filter (λ s, keyOf s = k) ms) as [Hk Hin]%list_elem_of_filter by (rewrite E; set_solver).
  apply H. rewrite <- Hk. by apply list_elem_of_fmap_2.
Qed.

(** The loop's state: the series of the samples [all] are known, the points are those of
    the samples [ms]. *)
Record inv (ms all : list Series) (c : collecting) : Prop := mkInv {
  inv_keys : keyOfResult <$> c_out c = distinct (keyOf <$> all);
  inv_idx : ∀ k i, c_idx c !! k = Some i ↔ ∃ r, c_out c !! i = Some r ∧ keyOfResult r = k;
  inv_fresh : ∀ k, c_idx c !! k = None → c_pointIdx c !! k = None;
  inv_pidx : ∀ i r t pi, c_out c !! i = Some r →
    default ∅ (c_pointIdx c !! keyOfResult r) !! t = Some pi ↔ ∃ v, rs_Points r !! pi = Some (mkPoint t v);
  inv_points : ∀ i r t v, c_out c !! i = Some r →
    mkPoint t v ∈ rs_Points r ↔ latest ms (keyOfResult r) t = Some v;
  inv_first : ∀ i r, c_out c !! i = Some r →
    ∃ s, first all (keyOfResult r) = Some s ∧ sr_Metric s = rs_Metric r ∧ sr_Labels s = rs_Labels r
}.

Lemma inv_init : inv [] [] (mkCollecting ∅ ∅ []).
Proof. split; try done. intros k i. cbn [c_idx c_out]. rewrite lookup_empty. naive_solver. Qed.

Lemma inv_unique ms all c i j r r' :
  inv ms all c → c_out c !! i = Some r → c_out c !! j = Some r' → keyOfResult r = keyOfResult r' → i = j.
Proof.
  intros H Hi Hj E. assert (c_idx c !! keyOfResult r = Some i) as Ei by (apply (inv_idx _ _ _ H); eauto).
  assert (c_idx c !! keyOfResult r = Some j) as Ej by (apply (inv_idx _ _ _ H); rewrite E; eauto). congruence.
Qed.

Lemma first_more ms s k f : first ms k = Some f → first (ms ++ [s]) k = Some f.
Proof. intros H. by rewrite first_snoc, H. Qed.

Lemma intern_old ms c s i r :
  inv ms ms c → c_out c !! i = Some r → keyOfResult r = keyOf s → inv ms (ms ++ [s]) c.
Proof.
  intros [Ik Ii If Ip Il Is] Hr Hk. split; try done.
  - rewrite fmap_app. cbn. rewrite distinct_snoc, <- Ik, bool_decide_true; [done|].
    rewrite <- Hk. apply list_elem_of_fmap_2. by eapply list_elem_of_lookup_2.
  - intros j r' Hj. destruct (Is j r' Hj) as (f & Hf & ?). exists f. by rewrite (first_more _ _ _ f).
Qed.

Lemma intern_new ms c s :
  let r0 := mkResult (sr_Metric s) (sr_Labels s) [] in
  inv ms ms c → c_idx c !! keyOf s = None →
  inv ms (ms ++ [s]) (mkCollecting (<[keyOf s := length (c_out c)]> (c_idx c)) (c_pointIdx c) (c_out c ++ [r0])).
Proof.
  intros r0 [Ik Ii If Ip Il Is] E.
  assert (Hold : ∀ j r, c_out c !! j = Some r → keyOfResult r ≠ keyOf s).
  { intros j r Hj Ek. assert (c_idx c !! keyOf s = Some j) as Ej by (apply Ii; eauto). by rewrite E in Ej. }
  assert (Hnew : keyOf s ∉ keyOf <$> ms).
  { rewrite <- distinct_elem, <- Ik. intros (r & Er & [j Hj]%list_elem_of_lookup)%list_elem_of_fmap.
    by apply (Hold j r). }
  assert (Hout : ∀ j r, (c_out c ++ [r0]) !! j = Some r ↔ c_out c !! j = Some r ∨ (j = length (c_out c) ∧ r = r0)).
  { intros j r. rewrite lookup_snoc_Some. naive_solver eauto using lookup_lt_Some. }
  split; cbn [c_out c_idx c_pointIdx].
  - rewrite !fmap_app. cbn. by rewrite distinct_snoc, Ik, bool_decide_false by (by rewrite distinct_elem).
  - intros k j. rewrite lookup_insert_Some, Ii. setoid_rewrite Hout. split.
    + intros [[<- <-]|[Hk (r & Hr & Ek)]]; [exists r0; split; [by right|done]|eauto].
    + intros (r & [Hr|[-> ->]] & <-); [right|by left]. split; [|by eauto]. by apply not_eq_sym, (Hold j).
  - intros k [Hk Hne]%lookup_insert_None. by apply If.
  - intros j r t pi [Hj|[-> ->]]%Hout; [by apply Ip with j|]. change (keyOfResult r0) with (keyOf s).
    rewrite If by done. cbn. rewrite lookup_empty. naive_solver.
  - intros j r t v [Hj|[-> ->]]%Hout; [by apply Il with j|]. change (keyOfResult r0) with (keyOf s).
    rewrite latest_none by done. cbn. split; [set_solver|done].
  - intros j r [Hj|[-> ->]]%Hout.
    + destruct (Is j r Hj) as (f & Hf & ?). exists f. by rewrite (first_more _ _ _ f).
    + exists s. change (keyOfResult r0) with (keyOf s). by rewrite first_snoc, first_none, decide_True.
Qed.

(** Storing a point keeps series identities; only the series at [i] changes. *)
Lemma inv_alter ms all c i r k seen pts s :
  inv ms all c → c_out c !! i = Some r → keyOfResult r = k → keyOf s = k →
  (∀ t pi, seen !! t = Some pi ↔ ∃ v, pts !! pi = Some (mkPoint t v)) →
  (∀ t v, mkPoint t v ∈ pts ↔ (if bool_decide (sr_TimeMillis s = t) then Some (sr_Value s)
                              else latest ms k t) = Some v) →
  inv (ms ++ [s]) all
    (mkCollecting (c_idx c) (<[k := seen]> (c_pointIdx c)) (<[i := r <| rs_Points := pts |>]> (c_out c))).
Proof.
  intros H Hi Hr Hs Hseen Hpts. pose proof H as [Ik Ii If Ip Il Is].
  set (r' := r <| rs_Points := pts |>).
  assert (Hk : keyOfResult r' = k) by done.
  assert (Hout : ∀ j q, <[i:=r']> (c_out c) !! j = Some q ↔ (j = i ∧ q = r') ∨ (j ≠ i ∧ c_out c !! j = Some q)).
  { intros j q. rewrite list_lookup_insert_Some. apply lookup_lt_Some in Hi. naive_solver. }
  split; cbn [c_out c_idx c_pointIdx].
  - rewrite list_fmap_insert, Hk, list_insert_id; [done|]. by rewrite list_lookup_fmap, Hi, <- Hr.
  - intros k' j. rewrite Ii. setoid_rewrite Hout. split.
    + intros (q & Hq & <-). destruct (decide (j = i)) as [->|Hne]; [|eauto]. exists r'. split; [by left|].
      rewrite Hk, <- Hr. congruence.
    + intros (q & [[-> ->]|[_ Hq]] & <-); [|eauto]. exists r. by rewrite Hk, <- Hr.
  - intros k' E. rewrite lookup_insert_ne; [by apply If|]. intros <-.
    assert (c_idx c !! k = Some i) as E' by (apply Ii; eauto). congruence.
  - intros j q t pi [[-> ->]|[Hne Hq]]%Hout.
    + by rewrite Hk, lookup_insert_eq.
    + rewrite lookup_insert_ne; [by apply Ip with j|]. intros E. destruct Hne.
      eapply (inv_unique ms all c); eauto. congruence.
  - intros j q t v [[-> ->]|[Hne Hq]]%Hout.
    + change (rs_Points r') with pts. rewrite Hk, Hpts, latest_snoc.
      destruct (decide (sr_TimeMillis s = t));
        [by rewrite !bool_decide_true by done|by rewrite !bool_decide_false by naive_solver].
    + rewrite latest_snoc, bool_decide_false; [by apply Il with j|]. intros [E _]. destruct Hne.
      eapply (inv_unique ms all c); eauto. congruence.
  - intros j q [[-> ->]|[Hne Hq]]%Hout; [|by apply (Is j)].
    destruct (Is i r Hi) as (f & Hf & ?). exists f. by rewrite Hk, <- Hr.
Qed.

(** Replacing the point of a timestamp, where each timestamp has one place. *)
Lemma replace_elem (seen : gmap Z nat) (pts : list Point) pi t0 v0 v1 (L : Z → option float64) t v :
  (∀ t pj, seen !! t = Some pj ↔ ∃ v, pts !! pj = Some (mkPoint t v)) →
  (∀ t v, mkPoint t v ∈ pts ↔ L t = Some v) → pts !! pi = Some (mkPoint t0 v0) →
  mkPoint t v ∈ <[pi := mkPoint t0 v1]> pts ↔ (if bool_decide (t0 = t) then Some v1 else L t) = Some v.
Proof.
  intros Ip Il Hpi. assert (seen !! t0 = Some pi) as E by (apply Ip; eauto).
  rewrite list_elem_of_lookup. setoid_rewrite list_lookup_insert_Some. split.
  - intros (j & [(<- & [= <- <-] & _)|[Hne Hj]]); [by rewrite bool_decide_true|].
    rewrite bool_decide_false; [apply Il, list_elem_of_lookup; eauto|]. intros <-.
    assert (seen !! t0 = Some j) as E' by (apply Ip; eauto). congruence.
  - destruct (bool_decide_reflect (t0 = t)) as [<-|Hne].
    + intros [= <-]. exists pi. left. by eauto using lookup_lt_Some.
    + intros [j Hj]%Il%list_elem_of_lookup. exists j. right. split; [|done]. intros ->. congruence.
Qed.

Lemma addPoint_inv ms all c i r s :
  inv ms all c → c_out c !! i = Some r → keyOfResult r = keyOf s →
  inv (ms ++ [s]) all (addPoint (keyOf s) i s c).
Proof.
  intros H Hi Hk. unfold addPoint. rewrite <- Hk.
  pose proof (inv_pidx _ _ _ H i r) as Ip. pose proof (inv_points _ _ _ H i r) as Il.
  set (seen := default ∅ (c_pointIdx c !! keyOfResult r)) in *.
  set (t0 := sr_TimeMillis s). set (p := mkPoint t0 (sr_Value s)).
  assert (Hal : ∀ f, alter f i (c_out c) = <[i := f r]> (c_out c)).
  { intros f. apply list_eq. intros j. destruct (decide (j = i)) as [->|Hne].
    - rewrite list_lookup_alter_eq, list_lookup_insert_eq, Hi by (by eapply lookup_lt_Some). done.
    - by rewrite list_lookup_alter_ne, list_lookup_insert_ne by done. }
  destruct (seen !! t0) as [pi|] eqn:E; rewrite Hal, ?Hi.
  - apply Ip in E as (v0 & Hv0); [|done]. apply inv_alter with (s := s) (ms := ms); try done.
    + intros t pj. rewrite Ip by done. setoid_rewrite list_lookup_insert_Some. split.
      * intros (v & Hv). destruct (decide (pi = pj)) as [<-|Hne]; [|eauto].
        exists (sr_Value s). left. rewrite Hv0 in Hv. injection Hv as <- <-. by eauto using lookup_lt_Some.
      * intros (v & [(<- & [= <- <-] & _)|[_ Hv]]); eauto.
    + intros t v. eapply replace_elem with (L := latest ms (keyOfResult r)); [by intros; apply Ip|by intros; apply Il|done].
  - apply inv_alter with (s := s) (ms := ms); try done.
    + intros t pj. rewrite lookup_insert_Some, Ip by done. setoid_rewrite lookup_snoc_Some. split.
      * intros [[<- <-]|[Hne (v & Hv)]]; [exists (sr_Value s); right; done|].
        exists v. left. split; [by eapply lookup_lt_Some|done].
      * intros (v & [[_ Hv]|[-> [= <- <-]]]); [right|by left]. split; [|eauto].
        intros Et. assert (seen !! t = Some pj) as E' by (apply Ip; eauto). rewrite Et in E. congruence.
    + intros t v. rewrite elem_of_app, list_elem_of_singleton, (Il t v Hi). fold t0.
      destruct (bool_decide_reflect (t0 = t)) as [Et|Hne]; [|naive_solver].
      split; [intros [Hl|Hp]; [|unfold p in Hp; by injection Hp as _ ->]|intros [= <-]; right; by rewrite <- Et].
      apply Il in Hl as [pj Hp]%list_elem_of_lookup; [|done].
      assert (seen !! t = Some pj) as E' by (apply Ip; eauto). rewrite Et in E. congruence.
Qed.

Lemma distinct_more l l' : (length (distinct l) ≤ length (distinct (l ++ l')))%nat.
Proof.
  induction l' as [|x l' IH] using rev_ind; [by rewrite app_nil_r|].
  rewrite app_assoc, distinct_snoc. destruct (bool_decide _); [done|]. rewrite length_app. lia.
Qed.

Lemma intern_spec cap' ms c s :
  inv ms ms c →
  match intern cap' (keyOf s) s c with
  | inl e => e = TooManySeries cap' ∧ cap' < Z.of_nat (length (distinct (keyOf <$> ms ++ [s])))
  | inr (i, c') => inv ms (ms ++ [s]) c' ∧ (∃ r, c_out c' !! i = Some r ∧ keyOfResult r = keyOf s) ∧
      (Z.of_nat (length (c_out c')) ≤ Z.max cap' (Z.of_nat (length (c_out c))))
  end.
Proof.
  intros H. unfold intern. destruct (c_idx c !! keyOf s) as [i|] eqn:E.
  - apply (inv_idx _ _ _ H) in E as (r & Hr & Hk). split_and!; [by eapply intern_old|eauto|lia].
  - pose proof (intern_new ms c s H E) as Hn. destruct (_ <=? _) eqn:Ec; zbool.
    + split; [done|]. rewrite <- (inv_keys _ _ _ Hn). cbn [c_out]. rewrite length_fmap, length_app. cbn. lia.
    + split_and!; [done| |cbn [c_out]; rewrite length_app; cbn; lia].
      exists (mkResult (sr_Metric s) (sr_Labels s) []). cbn [c_out]. split; [|done].
      apply list_lookup_middle. done.
Qed.

Lemma addPoint_length k i s c : length (c_out (addPoint k i s c)) = length (c_out c).
Proof. unfold addPoint. case_match; cbn [c_out]; apply length_alter. Qed.

Lemma collect_loop_spec sel a b cap' snapshot : ∀ ms c,
  inv ms ms c → Z.of_nat (length (c_out c)) ≤ cap' →
  let all := ms ++ filter (λ s, selected sel a b s = true) snapshot in
  match collect_loop sel a b cap' snapshot c with
  | inl e => e = TooManySeries cap' ∧ cap' < Z.of_nat (length (distinct (keyOf <$> all)))
  | inr c' => inv all all c' ∧ Z.of_nat (length (distinct (keyOf <$> all))) ≤ cap'
  end.
Proof.
  induction snapshot as [|s snapshot IH]; intros ms c H Hl; cbn [collect_loop].
  - cbn. rewrite app_nil_r. split; [done|]. by rewrite <- (inv_keys _ _ _ H), length_fmap.
  - rewrite filter_cons. destruct (selected sel a b s) eqn:Es; cbn [negb].
    2: { rewrite decide_False by done. by apply IH. }
    rewrite decide_True by done. unfold collect1. fold (keyOf s).
    pose proof (intern_spec cap' ms c s H) as Hi. destruct (intern cap' (keyOf s) s c) as [e|[i c']].
    + destruct Hi as [-> Hlt]. split; [done|].
      pose proof (distinct_more (keyOf <$> ms ++ [s]) (keyOf <$> filter (λ s, selected sel a b s = true) snapshot)) as Hm.
      rewrite <- fmap_app, <- app_assoc in Hm. cbn [app] in Hm. lia.
    + destruct Hi as (Hi & (r & Hr & Hk) & Hlen).
      pose proof (addPoint_inv ms (ms ++ [s]) c' i r s Hi Hr Hk) as Ha.
      specialize (IH (ms ++ [s]) _ Ha). rewrite <- app_assoc in IH. cbn [app] in IH. apply IH.
      rewrite addPoint_length. lia.
Qed.

(** Sorting the points of a series gives them in strictly increasing time. *)
Lemma points_sorted (seen : gmap Z nat) (pts : list Point) :
  (∀ t pj, seen !! t = Some pj ↔ ∃ v, pts !! pj = Some (mkPoint t v)) →
  StronglySorted (λ p q, p_TimeMillis p < p_TimeMillis q) (merge_sort point_le pts).
Proof.
  intros Ip. assert (Hd : NoDup (p_TimeMillis <$> merge_sort point_le pts)).
  { rewrite merge_sort_Permutation. apply NoDup_alt. intros i j t Hi Hj.
    rewrite list_lookup_fmap in Hi, Hj.
    destruct (pts !! i) as [[t1 v1]|] eqn:E1; [|done]. destruct (pts !! j) as [[t2 v2]|] eqn:E2; [|done].
    cbn in Hi, Hj. simplify_eq. assert (seen !! t = Some i) by (apply Ip; eauto).
    assert (seen !! t = Some j) by (apply Ip; eauto). congruence. }
  assert (Hs : StronglySorted point_le (merge_sort point_le pts)).
  { apply StronglySorted_merge_sort; unfold point_le; [intros x y z; lia|intros x y; lia]. }
  induction Hs as [|p l Hl IH Hp]; [constructor|]. cbn in Hd. apply NoDup_cons in Hd as [Hn Hd].
  constructor; [by apply IH|]. rewrite Forall_forall in *. intros q Hq. specialize (Hp q Hq). unfold point_le in Hp.
  assert (p_TimeMillis p ≠ p_TimeMillis q); [|lia]. intros E. apply Hn. rewrite E. by apply list_elem_of_fmap_2.
Qed.

Lemma cap_pos m : 0 < cap m.
Proof. unfold cap, DefaultMaxSeries. destruct (_ <=? _) eqn:E; zbool; lia. Qed.

(** A result carries the labels of a selected sample. *)
Lemma collect_member snapshot sel a b m out r :
  collect snapshot sel a b m = inr out → r ∈ out →
  ∃ s, s ∈ snapshot ∧ selected sel a b s = true ∧ sr_Labels s = rs_Labels r.
Proof.
  unfold collect. pose proof (cap_pos m).
  pose proof (collect_loop_spec sel a b (cap m) snapshot [] _ inv_init ltac:(cbn; lia)) as Hs. cbn [app] in Hs.
  destruct (collect_loop _ _ _ _ _ _) as [e|c]; [done|]. destruct Hs as [Hs _]. intros [= <-].
  intros (r0 & -> & [i Hi]%list_elem_of_lookup)%list_elem_of_fmap.
  destruct (inv_first _ _ _ Hs i r0 Hi) as (s & Hf & _ & Hl). exists s. unfold first in Hf.
  apply head_Some_elem_of, list_elem_of_filter in Hf as [_ [Hsel Hin]%list_elem_of_filter]. done.
Qed.

(** A query is the grouping of the matching samples: over the samples in the window
    that the selector matches, it fails exactly when they form more series than the cap,
    and otherwise returns one result per series in first-seen order, with the identity
    of the series' first sample and, in strictly increasing time, exactly one point per
    timestamp carrying the value of the last sample stored for it. *)
Theorem collect_exact snapshot sel startMs endMs maxSeries :
  let matching := filter (λ s, selected sel startMs endMs s = true) snapshot in
  let keys := distinct (keyOf <$> matching) in
  (cap maxSeries < Z.of_nat (length keys) ∧
   collect snapshot sel startMs endMs maxSeries = inl (TooManySeries (cap maxSeries))) ∨
  (Z.of_nat (length keys) ≤ cap maxSeries ∧
   ∃ out, collect snapshot sel startMs endMs maxSeries = inr out ∧ keyOfResult <$> out = keys ∧
   ∀ r, r ∈ out →
     (∃ s, first matching (keyOfResult r) = Some s ∧ sr_Metric s = rs_Metric r ∧ sr_Labels s = rs_Labels r) ∧
     StronglySorted (λ p q, p_TimeMillis p < p_TimeMillis q) (rs_Points r) ∧
     ∀ t v, mkPoint t v ∈ rs_Points r ↔ latest matching (keyOfResult r) t = Some v).
Proof.
  intros matching keys. unfold collect.
  pose proof (cap_pos maxSeries).
  pose proof (collect_loop_spec sel startMs endMs (cap maxSeries) snapshot [] _ inv_init ltac:(cbn; lia)) as Hs.
  cbn [app] in Hs. fold matching keys in Hs.
  destruct (collect_loop _ _ _ _ _ _) as [e|c]; [left; by destruct Hs as [-> ?]|right].
  destruct Hs as [Hs Hl]. split; [done|]. eexists. split; [done|]. split.
  { rewrite <- list_fmap_compose. exact (inv_keys _ _ _ Hs). }
  intros r (r0 & -> & [i Hi]%list_elem_of_lookup)%list_elem_of_fmap.
  change (keyOfResult (r0 <| rs_Points := merge_sort point_le (rs_Points r0) |>)) with (keyOfResult r0).
  split_and!; [exact (inv_first _ _ _ Hs i r0 Hi)| |].
  - eapply points_sorted. intros. by apply (inv_pidx _ _ _ Hs i).
  - intros t v. cbn. rewrite merge_sort_Permutation. by apply (inv_points _ _ _ Hs i).
Qed.

(** ** Non-interference between tenants *)

Lemma collect_filter P snapshot sel a b m :
  (∀ s, selected sel a b s = true → P s = true) →
  collect (List.filter P snapshot) sel a b m = collect snapshot sel a b m.
Proof.
  intros H. unfold collect. f_equal. generalize (mkCollecting ∅ ∅ []). generalize (cap m). clear m.
  intros m. induction snapshot as [|s snapshot IH]; intros c; [done|]. cbn [List.filter collect_loop].
  destruct (selected sel a b s) eqn:E; cbn [negb].
  - rewrite (H _ E). cbn [collect_loop]. rewrite E. cbn [negb]. destruct (collect1 m s c); [done|]. apply IH.
  - destruct (P s); [|apply IH]. cbn [collect_loop]. rewrite E. apply IH.
Qed.

Lemma multi_filter P snapshot sels a b m :
  (∀ sel s, sel ∈ sels → selected sel a b s = true → P s = true) →
  collectMulti (List.filter P snapshot) sels a b m = collectMulti snapshot sels a b m.
Proof.
  unfold collectMulti. generalize (∅ : gset gostring) (@nil ResultSeries). generalize (cap m). clear m.
  induction sels as [|sel sels IH]; intros m seen out H; [done|]. cbn [multi_loop].
  rewrite collect_filter by (intros s; apply H; set_solver).
  destruct (collect _ _ _ _ _) as [|series]; [done|]. destruct (addUnseen _ _ _ _) as [|[seen' out']]; [done|].
  apply IH. set_solver.
Qed.

(** The samples of a tenant. *)
Definition ownedBy (tenant : gostring) (s : Series) : bool :=
  bool_decide (sr_Labels s !! TenantLabel = Some tenant).

Lemma forced_owned sel tenant a b s :
  tenant ≠ [] → selected (ForceTenant sel tenant) a b s = true → ownedBy tenant s = true.
Proof.
  intros Ht. unfold selected, Matches. cbn [s_Matchers ForceTenant]. rewrite forallb_app. cbn [forallb].
  intros [_ [_ [_ [H _]%andb_prop]%andb_prop]%andb_prop]%andb_prop. revert H. unfold matches1.
  cbn [m_Op m_Name m_Value tenantMatcher]. change (bool_decide (TenantLabel = str "__name__")) with false.
  unfold ownedBy. rewrite !bool_decide_eq_true. destruct (sr_Labels s !! TenantLabel) as [v|]; cbn; naive_solver.
Qed.

(** C16. Tenants do not see each other through the metrics API: once the selectors are
    forced to a tenant, every query (instant, range, label names, label values, series)
    answers exactly as it would on a store that holds that tenant's samples only,
    cardinality errors included, and every series it returns carries the tenant's label. *)
Theorem query_isolated snapshot sel sels tenant name startMs endMs lookback maxSeries :
  tenant ≠ [] →
  let own := List.filter (ownedBy tenant) snapshot in
  let f := λ s, ForceTenant s tenant in
  Instant own (f sel) endMs lookback maxSeries = Instant snapshot (f sel) endMs lookback maxSeries ∧
  RangeQuery own (f sel) startMs endMs maxSeries = RangeQuery snapshot (f sel) startMs endMs maxSeries ∧
  LabelNames own (map f sels) startMs endMs maxSeries = LabelNames snapshot (map f sels) startMs endMs maxSeries ∧
  LabelValues own name (map f sels) startMs endMs maxSeries =
    LabelValues snapshot name (map f sels) startMs endMs maxSeries ∧
  SeriesQuery own (map f sels) startMs endMs maxSeries = SeriesQuery snapshot (map f sels) startMs endMs maxSeries ∧
  ∀ out r, RangeQuery snapshot (f sel) startMs endMs maxSeries = inr out → r ∈ out →
    rs_Labels r !! TenantLabel = Some tenant.
Proof.
  intros Ht own f.
  assert (H1 : ∀ a b m, collect own (f sel) a b m = collect snapshot (f sel) a b m).
  { intros. apply collect_filter. intros s. by apply forced_owned. }
  assert (H2 : ∀ a b m, collectMulti own (map f sels) a b m = collectMulti snapshot (map f sels) a b m).
  { intros. apply multi_filter. intros g s (g0 & -> & _)%list_elem_of_fmap. by apply forced_owned. }
  unfold Instant, RangeQuery, LabelNames, LabelValues, SeriesQuery. rewrite H1, !H2.
  split_and!; try done. intros out r Hout Hr.
  destruct (collect_member _ _ _ _ _ _ _ Hout Hr) as (s & _ & Hsel & <-).
  apply forced_owned in Hsel; [|done]. by apply bool_decide_eq_true in Hsel.
Qed.

(** The listing of label names answers only [__name__] when no selector is given, and a
    series that matches one of several selectors is enough for its names to be listed. *)
Theorem label_names_any_selector snapshot a b m :
  LabelNames snapshot [] a b m = inr [str "__name__"] ∧
  ∃ s sel1 sel2, selected sel1 0 0 s = true ∧ selected sel2 0 0 s = false ∧
    LabelNames [s] [sel1; sel2] 0 0 0 = inr [str "__name__"; str "job"].
Proof.
  split; [vm_compute; reflexivity|].
  exists (mkSeries (str "up") {[str "job" := str "api"]} 0 (f64 1)), (mkSelector (str "up") []), (mkSelector (str "down") []).
  split_and!; vm_compute; reflexivity.
Qed.

End eval.

Lemma query_isolated_witness :
  let mine := mkSeries (str "up") {[TenantLabel := str "t1"]} 10 (f64 1) in
  let theirs := mkSeries (str "up") {[TenantLabel := str "t2"]} 10 (f64 7) in
  let sel := ForceTenant (mkSelector (str "up") [tenantMatcher (str "t2")]) (str "t1") in
  RangeQuery (λ _ _, true) [theirs; mine] sel 0 20 0 =
    inr [mkResult (str "up") {[TenantLabel := str "t1"]} [mkPoint 10 (f64 1)]] ∧
  RangeQuery (λ _ _, true) (List.filter (ownedBy (str "t1")) [theirs; mine]) sel 0 20 0 =
    RangeQuery (λ _ _, true) [theirs; mine] sel 0 20 0.
Proof.
  intros mine theirs sel. split; [vm_compute; reflexivity|].
  exact (proj1 (proj2 (query_isolated (λ _ _, true) [theirs; mine] (mkSelector (str "up") [tenantMatcher (str "t2")]) []
    (str "t1") [] 0 20 0 0 ltac:(done)))).
Defined.

End PromEval.
