(* ===== verification/AlertRule.v ===== *)
(** * Alert rules (internal/alert/rule.go) and the query a rule becomes
      (internal/control/alerteval.go)

    The rule record, its validation, the comparisons, trap rules and their OIDs, and the
    tenant-scoped selector the evaluator sends to the metric store.  The order in which a
    range visits the match labels is the parameter [RangeMatch]. *)
From S2P Require Import Prelude GoHash GoString GoTime GoFloat PromSelector.

Module AlertRule.

Import PromSelector.

#[local] Open Scope list_scope.
#[local] Open Scope Z_scope.

(** The string types of rule.go, with the values the code names. *)
Inductive RuleType := Threshold | Baseline | Trap | OtherType (s : gostring).
Inductive Comparison := GT | LT | GTE | LTE | EQ | NEQ | OtherComparison (s : gostring).

#[export] Instance RuleType_eq_dec : EqDecision RuleType.
Proof. solve_decision. Defined.
#[export] Instance Comparison_eq_dec : EqDecision Comparison.
Proof. solve_decision. Defined.

Definition Severity : Type := gostring.
Definition SeverityInfo : Severity := str "info".
Definition SeverityWarning : Severity := str "warning".
Definition SeverityCritical : Severity := str "critical".

Record ChannelSpec := mkChannel {
  ch_Type : gostring; ch_URL : gostring; ch_Secret : gostring; ch_Recipients : list gostring }.

Definition TrapMetric : gostring := str "probectl_device_trap".

Definition DefaultTrapHoldSeconds : Z := 900.
Definition MinTrapHoldSeconds : Z := 60.
Definition MaxTrapHoldSeconds : Z := 7 * 24 * 3600.
Definition maxTrapOIDLength : Z := 255.
Definition maxTrapDeviceLength : Z := 255.
Definition maxTrapVarBindValue : Z := 512.

Record TrapMatch := mkTrap {
  TrapOID : gostring; ClearTrapOID : gostring; Device : gostring;
  VarBindOID : gostring; VarBindValue : gostring; HoldSeconds : Z }.

#[export] Instance TrapMatch_eta : Eta TrapMatch := λ m,
  mkTrap (TrapOID m) (ClearTrapOID m) (Device m) (VarBindOID m) (VarBindValue m) (HoldSeconds m).

Definition Hold (m : TrapMatch) : Z :=
  if HoldSeconds m <=? 0 then DefaultTrapHoldSeconds * Second else i64 (HoldSeconds m * Second).

Record Rule := mkRule {
  r_ID : gostring; r_TenantID : gostring; r_Name : gostring; r_Enabled : bool;
  r_Metric : gostring; r_Match : gmap gostring gostring; r_HasTagFilter : bool;
  r_Type : RuleType; r_Trap : option TrapMatch;
  r_Comparison : Comparison; r_Threshold : float64;
  r_Window : Z; r_Sensitivity : float64;
  r_ForN : Z; r_RenotifySeconds : Z; r_Severity : Severity; r_Channels : list ChannelSpec;
  r_CreatedAt : Z; r_UpdatedAt : Z }.

#[export] Instance Rule_eta : Eta Rule := λ r,
  mkRule (r_ID r) (r_TenantID r) (r_Name r) (r_Enabled r) (r_Metric r) (r_Match r) (r_HasTagFilter r)
    (r_Type r) (r_Trap r) (r_Comparison r) (r_Threshold r) (r_Window r) (r_Sensitivity r)
    (r_ForN r) (r_RenotifySeconds r) (r_Severity r) (r_Channels r) (r_CreatedAt r) (r_UpdatedAt r).

Definition validComparisons (c : Comparison) : bool :=
  match c with OtherComparison _ => false | _ => true end.

Definition breaches (cmp : Comparison) (value threshold : float64) : bool :=
  match cmp with
  | GT => fltb threshold value
  | LT => fltb value threshold
  | GTE => fleb threshold value
  | LTE => fleb value threshold
  | EQ => feqb value threshold
  | NEQ => negb (feqb value threshold)
  | OtherComparison _ => false
  end.

(** ** OIDs *)

Definition normalizeOID (oid : gostring) : gostring :=
  let oid := TrimSpace oid in
  if bool_decide (oid = []) then [] else str "." ++ TrimPrefix oid (str ".").

(** strings.Trim of the decimal digits. *)
Definition trimDigits (s : gostring) : gostring := rev (span is_digit (rev (span is_digit s).2)).2.

Definition validOID (oid : gostring) : bool :=
  if bool_decide (oid = []) || (maxTrapOIDLength <? len oid) then false else
  let s := TrimPrefix oid (str ".") in
  if bool_decide (s = []) then false
  else forallb (λ part, negb (bool_decide (part = []) || negb (bool_decide (trimDigits part = [])))) (Split x2e s).

(** ** Validation *)

Inductive rule_error :=
| ErrName | ErrTagFilterOnTrap | ErrTrapOnMetricRule | ErrMetricRequired | ErrMetricName
| ErrMatchReserved (k : gostring) | ErrMatchLabel (k : gostring)
| ErrComparison | ErrWindow | ErrSensitivity | ErrType
| ErrNegativeDelivery | ErrWebhookURL (i : nat) | ErrEmailRecipients (i : nat) | ErrChannelType (i : nat)
| ErrTrapMissing | ErrTrapOID | ErrClearOID | ErrClearSame | ErrDevice
| ErrVarBindValueAlone | ErrVarBindOID | ErrVarBindValueLong | ErrHold | ErrTrapMetric | ErrTrapMatchLabels.

(** A check of a chain: the first error wins. *)
Definition check (b : bool) (e : rule_error) (k : option rule_error) : option rule_error :=
  if b then Some e else k.

Notation "'refuse' b 'as' e ; k" := (check b e k) (at level 60, b at level 50, e at level 50, k at level 60, right associativity).

Definition blank (s : gostring) : bool := bool_decide (TrimSpace s = []).

Fixpoint validateChannels (i : nat) (l : list ChannelSpec) : option rule_error :=
  match l with
  | [] => None
  | c :: l =>
      if bool_decide (ch_Type c = str "webhook") then
        refuse blank (ch_URL c) as ErrWebhookURL i; validateChannels (S i) l
      else if bool_decide (ch_Type c = str "email") then
        refuse bool_decide (ch_Recipients c = []) as ErrEmailRecipients i; validateChannels (S i) l
      else Some (ErrChannelType i)
  end.

Definition validateDelivery (r : Rule) : option rule_error :=
  refuse (r_ForN r <? 0) || (r_RenotifySeconds r <? 0) as ErrNegativeDelivery;
  validateChannels 0 (r_Channels r).

Definition validateTrap (r : Rule) : option rule_error :=
  match r_Trap r with
  | None => Some ErrTrapMissing
  | Some m =>
      refuse negb (validOID (TrapOID m)) as ErrTrapOID;
      refuse negb (bool_decide (ClearTrapOID m = [])) && negb (validOID (ClearTrapOID m)) as ErrClearOID;
      refuse negb (bool_decide (ClearTrapOID m = [])) &&
             bool_decide (normalizeOID (ClearTrapOID m) = normalizeOID (TrapOID m)) as ErrClearSame;
      refuse (maxTrapDeviceLength <? len (Device m)) || negb (bool_decide (TrimSpace (Device m) = Device m)) as ErrDevice;
      refuse bool_decide (VarBindOID m = []) && negb (bool_decide (VarBindValue m = [])) as ErrVarBindValueAlone;
      refuse negb (bool_decide (VarBindOID m = [])) && negb (validOID (VarBindOID m)) as ErrVarBindOID;
      refuse (maxTrapVarBindValue <? len (VarBindValue m)) as ErrVarBindValueLong;
      refuse negb (HoldSeconds m =? 0) &&
             ((HoldSeconds m <? MinTrapHoldSeconds) || (MaxTrapHoldSeconds <? HoldSeconds m)) as ErrHold;
      refuse negb (bool_decide (r_Metric r = [])) && negb (bool_decide (r_Metric r = TrapMetric)) as ErrTrapMetric;
      refuse negb (bool_decide (r_Match r = ∅)) as ErrTrapMatchLabels;
      validateDelivery r
  end.

Section validate.
Context (RangeMatch : gmap gostring gostring → list (gostring * gostring)).

Fixpoint validateMatch (l : list (gostring * gostring)) (k : option rule_error) : option rule_error :=
  match l with
  | [] => k
  | (name, _) :: l =>
      refuse bool_decide (name = TenantLabel) || bool_decide (name = str "__name__") as ErrMatchReserved name;
      refuse negb (ValidLabelName name) as ErrMatchLabel name;
      validateMatch l k
  end.

Definition validateType (r : Rule) : option rule_error :=
  match r_Type r with
  | Threshold => refuse negb (validComparisons (r_Comparison r)) as ErrComparison; validateDelivery r
  | Baseline =>
      refuse (r_Window r <? 2) as ErrWindow;
      refuse fleb (r_Sensitivity r) (f64 0) as ErrSensitivity;
      validateDelivery r
  | _ => Some ErrType
  end.

Definition Validate (r : Rule) : option rule_error :=
  refuse blank (r_Name r) || (200 <? len (r_Name r)) as ErrName;
  if bool_decide (r_Type r = Trap) then
    refuse r_HasTagFilter r as ErrTagFilterOnTrap; validateTrap r
  else
    refuse bool_decide (r_Trap r ≠ None) as ErrTrapOnMetricRule;
    refuse blank (r_Metric r) as ErrMetricRequired;
    refuse negb (ValidMetricName (r_Metric r)) as ErrMetricName;
    validateMatch (RangeMatch (r_Match r)) (validateType r).

Definition normalizeTrapMatch (m : TrapMatch) : TrapMatch :=
  let m := m <| TrapOID := normalizeOID (TrapOID m) |>
             <| ClearTrapOID := normalizeOID (ClearTrapOID m) |>
             <| VarBindOID := normalizeOID (VarBindOID m) |> in
  if HoldSeconds m =? 0 then m <| HoldSeconds := DefaultTrapHoldSeconds |> else m.

Definition NormalizeTrapRule (r : Rule) : Rule :=
  match r_Type r, r_Trap r with
  | Trap, Some m =>
      r <| r_Metric := TrapMetric |> <| r_Match := ∅ |> <| r_Comparison := GTE |>
        <| r_Threshold := f64 1 |> <| r_Window := 0 |> <| r_Sensitivity := f64 0 |>
        <| r_Trap := Some (normalizeTrapMatch m) |>
  | _, _ => r
  end.

(** ** The query of a metric rule (promMetricSource.Current) *)

Inductive query_error := BadMetric | BadMatchKey (k : gostring).

Fixpoint queryMatchers (l : list (gostring * gostring)) : query_error + list Matcher :=
  match l with
  | [] => inr []
  | (k, v) :: l =>
      if bool_decide (k = TenantLabel) then queryMatchers l
      else if negb (ValidLabelName k) then inl (BadMatchKey k)
      else match queryMatchers l with
           | inl e => inl e
           | inr ms => inr (mkMatcher k OpEq v None :: ms)
           end
  end.

Definition currentQuery (tenant metric : gostring) (match_ : gmap gostring gostring) : query_error + Selector :=
  if negb (ValidMetricName metric) then inl BadMetric
  else match queryMatchers (RangeMatch match_) with
       | inl e => inl e
       | inr ms => inr (ForceTenant (mkSelector metric ms) tenant)
       end.

(** ** Lemmas: accepted rules *)

Lemma check_none b e k : check b e k = None ↔ b = false ∧ k = None.
Proof. unfold check. destruct b; naive_solver. Qed.

Lemma validateMatch_none l k :
  validateMatch l k = None →
  k = None ∧ Forall (λ '(name, _), name ≠ TenantLabel ∧ name ≠ str "__name__" ∧ label_match name = true) l.
Proof.
  induction l as [|[name v] l IH]; [done|]. cbn [validateMatch]. rewrite !check_none.
  intros (H1 & H2 & H3). apply orb_false_iff in H1 as [Ha Hb]. apply negb_false_iff in H2.
  apply bool_decide_eq_false in Ha, Hb. destruct (IH H3) as [-> Hl]. split; [done|]. by constructor.
Qed.

Lemma Validate_metric r :
  Validate r = None → r_Type r ≠ Trap →
  metric_match (r_Metric r) = true ∧
  Forall (λ '(name, _), name ≠ TenantLabel ∧ name ≠ str "__name__" ∧ label_match name = true) (RangeMatch (r_Match r)).
Proof.
  unfold Validate. rewrite check_none. intros [_ H] Ht. rewrite bool_decide_false in H by done.
  rewrite !check_none in H. destruct H as (_ & _ & Hm & H). apply negb_false_iff in Hm.
  by apply validateMatch_none in H as [_ H].
Qed.

Lemma queryMatchers_all l :
  Forall (λ '(name, _), name ≠ TenantLabel ∧ name ≠ str "__name__" ∧ label_match name = true) l →
  queryMatchers l = inr (map (λ '(k, v), mkMatcher k OpEq v None) l).
Proof.
  induction 1 as [|[k v] l (H1 & H2 & H3) Hl IH]; [done|]. cbn [queryMatchers map].
  rewrite bool_decide_false by done. unfold ValidLabelName. by rewrite H3, IH.
Qed.

(** ** Lemmas: OIDs *)

Definition oid_char (b : byte) : bool := is_digit b || bool_decide (b = x2e).

Lemma span_rest_nil p (l : gostring) : (span p l).2 = [] → forallb p l = true.
Proof.
  induction l as [|c l IH]; [done|]. cbn. destruct (p c); [|done]. destruct (span p l). cbn in *. by intros ->%IH.
Qed.

Lemma span_rest_head p l c r : (span p l).2 = c :: r → p c = false.
Proof.
  induction l as [|d l IH]; [done|]. cbn. destruct (p d) eqn:E; [|by intros [= <- <-]].
  destruct (span p l). cbn in *. done.
Qed.

Lemma trimDigits_nil s : trimDigits s = [] → forallb is_digit s = true.
Proof.
  unfold trimDigits. intros H%(f_equal (@rev byte)). rewrite rev_involutive in H.
  apply span_rest_nil in H. rewrite forallb_rev in H.
  destruct (span is_digit s).2 as [|c r] eqn:E; [by apply span_rest_nil|].
  apply span_rest_head in E. cbn in H. by rewrite E in H.
Qed.

Lemma Split_chars c l p : (∀ part x, part ∈ Split c l → x ∈ part → p x = true) → forallb (λ x, p x || bool_decide (x = c)) l = true.
Proof.
  induction l as [|x l IH]; [done|]. intros H. cbn [forallb]. cbn [Split] in H.
  destruct (bool_decide_reflect (x = c)) as [E|E].
  - rewrite orb_true_r. apply IH. intros. eapply H; [|done]. set_solver.
  - destruct (Split c l) as [|a r] eqn:Es.
    + rewrite (H [x] x) by set_solver. apply IH. set_solver.
    + rewrite (H (x :: a) x) by set_solver. cbn. apply IH. intros part y [->|Hp]%elem_of_cons Hy;
        [apply (H (x :: a))|apply (H part)]; set_solver.
Qed.

Lemma strip_prefix_spec p l r : strip_prefix p l = Some r → l = p ++ r.
Proof.
  revert l. induction p as [|x p IH]; intros l; cbn; [by intros [= ->]|]. destruct l as [|y l]; [done|].
  case_bool_decide as E; [|done]. intros ->%IH. by rewrite E.
Qed.

(** A valid OID: an optional dot, then digits and dots that do not start with a dot. *)
Lemma validOID_spec oid :
  validOID oid = true →
  ∃ s, (oid = s ∨ oid = x2e :: s) ∧ s ≠ [] ∧ head s ≠ Some x2e ∧ forallb oid_char s = true ∧
    TrimPrefix oid (str ".") = s.
Proof.
  unfold validOID. destruct (_ || _); [done|]. intros H. exists (TrimPrefix oid (str ".")).
  destruct (bool_decide_reflect (TrimPrefix oid (str ".") = [])) as [En|En]; [done|].
  split_and!; [|done| | |done].
  - unfold TrimPrefix. destruct (strip_prefix (str ".") oid) as [r|] eqn:E; [|by left].
    right. by apply strip_prefix_spec in E.
  - intros Hh. destruct (TrimPrefix oid (str ".")) as [|c r]; [done|]. injection Hh as ->. done.
  - apply Split_chars. intros part x Hp Hx. rewrite forallb_forall in H.
    apply list_elem_of_In in Hp. specialize (H _ Hp). apply negb_true_iff, orb_false_iff in H as [_ H].
    apply negb_false_iff, bool_decide_eq_true, trimDigits_nil in H. rewrite forallb_forall in H.
    apply H. by apply list_elem_of_In.
Qed.

Lemma oid_char_plain b : oid_char b = true → plain b = true.
Proof. unfold oid_char. intros [H|H]%orb_prop; [by apply digit_plain|]. by apply bool_decide_eq_true in H as ->. Qed.

Lemma normalizeOID_valid oid s :
  s ≠ [] → head s ≠ Some x2e → forallb oid_char s = true → oid = s ∨ oid = x2e :: s → normalizeOID oid = x2e :: s.
Proof.
  intros Hn Hh Hc Ho. unfold normalizeOID.
  assert (forallb plain s = true) as Hp by (eapply forallb_imp; [apply oid_char_plain|done]).
  assert (forallb plain oid = true) as Hpo by (destruct Ho as [->| ->]; [done|by cbn]).
  rewrite TrimSpace_plain, bool_decide_false by (try done; by destruct Ho as [->| ->]).
  unfold TrimPrefix. destruct Ho as [->| ->]; [|done]. destruct s as [|c s]; [done|].
  cbn. rewrite bool_decide_false; [done|]. intros E. apply Hh. cbn. by rewrite E.
Qed.

Lemma normalizeOID_idem oid : oid = [] ∨ validOID oid = true → normalizeOID (normalizeOID oid) = normalizeOID oid.
Proof.
  intros [->|(s & Ho & Hn & Hh & Hc & _)%validOID_spec]; [done|].
  rewrite (normalizeOID_valid oid s) by done. apply (normalizeOID_valid _ s); auto.
Qed.

(** ** Lemmas: what the query matches *)

Lemma tenant_matches (MatchString : gostring → gostring → bool) (metric tenant : gostring) (labels : gmap gostring gostring) :
  tenant ≠ [] →
  matches1 MatchString metric labels (tenantMatcher tenant) = true ↔ labels !! TenantLabel = Some tenant.
Proof.
  intros Ht. unfold matches1. cbn [m_Op m_Name m_Value tenantMatcher].
  change (bool_decide (TenantLabel = str "__name__")) with false. cbn iota.
  rewrite bool_decide_eq_true. destruct (labels !! TenantLabel); cbn; naive_solver.
Qed.

Lemma rule_matchers (MatchString : gostring → gostring → bool) (metric : gostring) (labels : gmap gostring gostring) (l : list (gostring * gostring)) (m : gmap gostring gostring) :
  l ≡ₚ map_to_list m →
  Forall (λ '(name, _), name ≠ TenantLabel ∧ name ≠ str "__name__" ∧ label_match name = true) l →
  forallb (matches1 MatchString metric labels)
    (filter (λ m, m_Name m ≠ TenantLabel) (map (λ '(k, v), mkMatcher k OpEq v None) l)) = true ↔
  ∀ k v, m !! k = Some v → default [] (labels !! k) = v.
Proof.
  intros Hl Hf. rewrite forallb_forall. setoid_rewrite <- list_elem_of_In.
  setoid_rewrite list_elem_of_filter. setoid_rewrite list_elem_of_fmap. rewrite Forall_forall in Hf. split.
  - intros H k v Hk. assert ((k, v) ∈ l) as Hin by (by rewrite Hl, elem_of_map_to_list).
    destruct (Hf _ Hin) as (H1 & H2 & _). specialize (H (mkMatcher k OpEq v None)).
    unfold matches1 in H. cbn [m_Op m_Name m_Value] in H. rewrite (bool_decide_false (k = _)) in H by done.
    rewrite bool_decide_eq_true in H. apply H. split; [done|]. by exists (k, v).
  - intros H x [_ ([k v] & -> & Hin)]. destruct (Hf _ Hin) as (H1 & H2 & _). unfold matches1.
    cbn [m_Op m_Name m_Value]. rewrite (bool_decide_false (k = _)) by done. apply bool_decide_eq_true, H.
    by rewrite Hl, elem_of_map_to_list in Hin.
Qed.

(** ** Theorems *)

(** The evaluator's query stays inside the rule's tenant: whatever metric rule
    passes validation, the selector text built from it for a tenant parses to a selector
    pinned to that tenant, and it matches exactly the series of the rule's metric that
    carry the tenant's label and the rule's match labels. *)
Theorem rule_query_pinned (Compiles : gostring → bool) (MatchString : gostring → gostring → bool)
    (sortSlice : list Matcher → list Matcher) (r : Rule) (tenant : gostring) :
  (∀ ms, sortSlice ms ≡ₚ ms) → (∀ m, RangeMatch m ≡ₚ map_to_list m) →
  Validate r = None → r_Type r ≠ Trap → tenant ≠ [] →
  ∃ sel fwd, currentQuery tenant (r_Metric r) (r_Match r) = inr sel ∧
    ParseSelector Compiles (String sortSlice sel) = inr fwd ∧ TenantScoped fwd = Some tenant ∧
    ∀ (metric : gostring) (labels : gmap gostring gostring), Matches MatchString fwd metric labels = true ↔
      metric = r_Metric r ∧ labels !! TenantLabel = Some tenant ∧
      ∀ k v, r_Match r !! k = Some v → default [] (labels !! k) = v.
Proof.
  intros Hsort Hrange Hv Ht Htn. destruct (Validate_metric r Hv Ht) as [Hm Hl].
  unfold currentQuery, ValidMetricName. rewrite Hm. cbn [negb]. rewrite (queryMatchers_all _ Hl).
  set (ms := map _ _). exists (ForceTenant (mkSelector (r_Metric r) ms) tenant). eexists. split; [done|].
  assert (Hok : sel_ok Compiles (mkSelector (r_Metric r) ms)).
  { split; [by right|]. apply Forall_forall. intros m ([k v] & -> & Hin)%list_elem_of_fmap.
    rewrite Forall_forall in Hl. destruct (Hl _ Hin) as (_ & _ & Hk). split; [exact Hk|done]. }
  split; [apply parse_String; [done|by apply force_ok|left; by apply metric_plain]|].
  split; [apply (TenantScoped_forced Compiles MatchString (mkSelector (r_Metric r) ms)); [done|apply Hsort]|].
  intros metric labels. unfold Matches. cbn [s_Metric s_Matchers ForceTenant].
  rewrite (matches_perm _ _ _ _ _ (Hsort _)), forallb_app, !andb_true_iff, orb_true_iff, !bool_decide_eq_true.
  unfold ms. rewrite (rule_matchers _ _ _ _ (r_Match r)) by done. cbn [forallb]. rewrite andb_true_r, tenant_matches by done.
  assert (r_Metric r ≠ []) by (by apply metric_plain). naive_solver.
Qed.

Lemma normalizeOID_eq oid : validOID oid = true → normalizeOID oid = x2e :: TrimPrefix oid (str ".").
Proof. intros (s & Ho & Hn & Hh & Hc & ->)%validOID_spec. by apply normalizeOID_valid. Qed.

Lemma normalizeOID_keeps_valid oid : len oid < maxTrapOIDLength → validOID oid = true → validOID (normalizeOID oid) = true.
Proof.
  intros Hl Hv. rewrite (normalizeOID_eq oid Hv). pose proof (validOID_spec oid Hv) as (s & Ho & Hn & Hh & Hc & Es).
  rewrite Es. unfold validOID in *. rewrite bool_decide_false by done. cbn [orb].
  assert (len (x2e :: s) ≤ maxTrapOIDLength) as Hl2.
  { unfold len in *. destruct Ho as [->| ->]; cbn [length] in *; lia. }
  rewrite (proj2 (Z.ltb_ge _ _)) by done. change (TrimPrefix (x2e :: s) (str ".")) with s.
  rewrite Es in Hv. destruct (_ || _) in Hv; [done|]. done.
Qed.

Lemma validateTrap_facts r m :
  validateTrap r = None → r_Trap r = Some m →
  validOID (TrapOID m) = true ∧ (ClearTrapOID m = [] ∨ validOID (ClearTrapOID m) = true) ∧
  (ClearTrapOID m = [] ∨ normalizeOID (ClearTrapOID m) ≠ normalizeOID (TrapOID m)) ∧
  (VarBindOID m = [] ∨ validOID (VarBindOID m) = true) ∧
  (HoldSeconds m = 0 ∨ MinTrapHoldSeconds ≤ HoldSeconds m ≤ MaxTrapHoldSeconds) ∧
  validateDelivery r = None.
Proof.
  unfold validateTrap. intros H E. rewrite E in H. rewrite !check_none in H.
  destruct H as (H1 & H2 & H3 & _ & _ & H6 & _ & H8 & _ & _ & H11).
  apply negb_false_iff in H1. apply andb_false_iff in H2, H3, H6, H8.
  rewrite !negb_false_iff, ?bool_decide_eq_true, ?bool_decide_eq_false in *.
  split_and!; try naive_solver. destruct H8 as [H8|[H8 H9]%orb_false_iff]; zbool; [by left|right; lia].
Qed.

Lemma Validate_trap r : Validate r = None → r_Type r = Trap → validateTrap r = None.
Proof.
  unfold Validate. rewrite check_none. intros [_ H] Ht. rewrite bool_decide_true in H by done.
  rewrite check_none in H. by destruct H.
Qed.

Lemma normal_oids m :
  TrapOID (normalizeTrapMatch m) = normalizeOID (TrapOID m) ∧
  ClearTrapOID (normalizeTrapMatch m) = normalizeOID (ClearTrapOID m) ∧
  VarBindOID (normalizeTrapMatch m) = normalizeOID (VarBindOID m).
Proof. unfold normalizeTrapMatch. by destruct (_ =? 0). Qed.

Lemma normal_hold m :
  HoldSeconds m = 0 ∨ MinTrapHoldSeconds ≤ HoldSeconds m ≤ MaxTrapHoldSeconds →
  Hold (normalizeTrapMatch m) = Hold m.
Proof.
  intros H. unfold normalizeTrapMatch. cbn [HoldSeconds update]. destruct (HoldSeconds m =? 0) eqn:E; zbool; [|done].
  unfold Hold. cbn [HoldSeconds update]. by rewrite E.
Qed.

Lemma hold_range m :
  HoldSeconds m = 0 ∨ MinTrapHoldSeconds ≤ HoldSeconds m ≤ MaxTrapHoldSeconds →
  MinTrapHoldSeconds * Second ≤ Hold m ≤ MaxTrapHoldSeconds * Second.
Proof.
  unfold Hold, MinTrapHoldSeconds, MaxTrapHoldSeconds, DefaultTrapHoldSeconds, Second. intros H.
  destruct (_ <=? 0) eqn:E; zbool; [lia|]. rewrite i64_small; lia.
Qed.

Lemma normalizeTrapMatch_idem m :
  validOID (TrapOID m) = true → (ClearTrapOID m = [] ∨ validOID (ClearTrapOID m) = true) →
  (VarBindOID m = [] ∨ validOID (VarBindOID m) = true) →
  normalizeTrapMatch (normalizeTrapMatch m) = normalizeTrapMatch m.
Proof.
  intros H1 H2 H3. unfold normalizeTrapMatch. cbn [HoldSeconds update].
  destruct (HoldSeconds m =? 0) eqn:E; cbn; [|rewrite E]; by rewrite !normalizeOID_idem by auto.
Qed.

(** The chain of checks on the normalised rule. *)
Lemma normal_valid r m :
  validateTrap r = None → r_Trap r = Some m →
  len (TrapOID m) < maxTrapOIDLength → len (ClearTrapOID m) < maxTrapOIDLength →
  len (VarBindOID m) < maxTrapOIDLength →
  validateTrap (r <| r_Metric := TrapMetric |> <| r_Match := ∅ |> <| r_Comparison := GTE |>
        <| r_Threshold := f64 1 |> <| r_Window := 0 |> <| r_Sensitivity := f64 0 |>
        <| r_Trap := Some (normalizeTrapMatch m) |>) = None.
Proof.
  intros Hv Hm L1 L2 L3. pose proof (validateTrap_facts r m Hv Hm) as (H1 & H2 & H3 & H4 & H5 & H6).
  unfold validateTrap in *. rewrite Hm in Hv. cbn [r_Trap r_Metric r_Match update].
  rewrite !check_none in *. destruct (normal_oids m) as (-> & -> & ->).
  destruct Hv as (_ & _ & _ & Hd & Hvb & _ & Hvv & _). 
  assert (Hclear : normalizeOID (ClearTrapOID m) = [] ∨ validOID (normalizeOID (ClearTrapOID m)) = true)
    by (destruct H2 as [->|H2]; [by left|right; by apply normalizeOID_keeps_valid]).
  assert (Hvar : normalizeOID (VarBindOID m) = [] ∨ validOID (normalizeOID (VarBindOID m)) = true)
    by (destruct H4 as [->|H4]; [by left|right; by apply normalizeOID_keeps_valid]).
  split_and!; try done.
  - by rewrite normalizeOID_keeps_valid.
  - destruct Hclear as [->| ->]; [done|]. by rewrite andb_false_r.
  - rewrite !normalizeOID_idem by auto. destruct H3 as [->|H3]; [done|].
    apply andb_false_iff. right. by apply bool_decide_eq_false.
  - unfold normalizeTrapMatch. by destruct (_ =? 0).
  - apply andb_false_iff in Hvb. rewrite bool_decide_eq_false, negb_false_iff, bool_decide_eq_true in Hvb.
    unfold normalizeTrapMatch. destruct Hvb as [Hne|He].
    + destruct H4 as [H4|H4]; [done|]. by rewrite (normalizeOID_eq _ H4).
    + rewrite andb_false_iff, negb_false_iff, bool_decide_eq_true. right. by destruct (_ =? 0).
  - destruct Hvar as [->| ->]; [done|]. by rewrite andb_false_r.
  - unfold normalizeTrapMatch. by destruct (_ =? 0).
  - unfold normalizeTrapMatch. cbn [HoldSeconds update]. destruct (HoldSeconds m =? 0) eqn:E; cbn; [done|].
    rewrite E. cbn [negb andb]. unfold MinTrapHoldSeconds, MaxTrapHoldSeconds in *. zbool.
    destruct H5 as [H5|H5]; [lia|]. apply orb_false_iff. split; apply Z.ltb_ge; lia.
Qed.

(** Trap rules have one stored form: normalising a valid trap rule is idempotent,
    gives it the trap metric and the condition [value >= 1], keeps its hold within one
    minute and seven days, writes its OIDs with exactly one leading dot so that fire and
    clear traps still differ, and keeps it valid when its OIDs are below the length limit. *)
Theorem trap_normal_form (r : Rule) (m : TrapMatch) :
  Validate r = None → r_Type r = Trap → r_Trap r = Some m →
  let r' := NormalizeTrapRule r in
  NormalizeTrapRule r' = r' ∧ r_Metric r' = TrapMetric ∧
  (∀ v, breaches (r_Comparison r') v (r_Threshold r') = fleb (f64 1) v) ∧
  ∃ m', r_Trap r' = Some m' ∧ Hold m' = Hold m ∧
    MinTrapHoldSeconds * Second ≤ Hold m' ≤ MaxTrapHoldSeconds * Second ∧
    TrapOID m' = x2e :: TrimPrefix (TrapOID m) (str ".") ∧ ClearTrapOID m' ≠ TrapOID m' ∧
    (len (TrapOID m) < maxTrapOIDLength → len (ClearTrapOID m) < maxTrapOIDLength →
     len (VarBindOID m) < maxTrapOIDLength → validateTrap r' = None).
Proof.
  intros Hv Ht Hm r'. apply Validate_trap in Hv; [|done].
  pose proof (validateTrap_facts r m Hv Hm) as (H1 & H2 & H3 & H4 & H5 & H6).
  assert (Er : r' = r <| r_Metric := TrapMetric |> <| r_Match := ∅ |> <| r_Comparison := GTE |>
        <| r_Threshold := f64 1 |> <| r_Window := 0 |> <| r_Sensitivity := f64 0 |>
        <| r_Trap := Some (normalizeTrapMatch m) |>) by (unfold r', NormalizeTrapRule; by rewrite Ht, Hm).
  split_and!; [|by rewrite Er|by rewrite Er|exists (normalizeTrapMatch m); split_and!].
  - rewrite Er. unfold NormalizeTrapRule. cbn [r_Type r_Trap update]. rewrite Ht.
    by rewrite normalizeTrapMatch_idem.
  - by rewrite Er.
  - apply normal_hold, H5.
  - rewrite normal_hold by done. by apply hold_range.
  - rewrite normal_hold by done. by apply hold_range.
  - destruct (normal_oids m) as (-> & _ & _). by apply normalizeOID_eq.
  - destruct (normal_oids m) as (-> & -> & _). destruct H3 as [->|H3]; [|done].
    by rewrite (normalizeOID_eq _ H1).
  - intros L1 L2 L3. rewrite Er. by apply normal_valid.
Qed.

End validate.

(** An OID of the greatest accepted length without a leading dot is no longer accepted
    once normalised. *)
Theorem normalized_oid_too_long :
  let oid := repeat x31 255 in validOID oid = true ∧ validOID (normalizeOID oid) = false.
Proof. split; vm_compute; reflexivity. Qed.

(** ** Witnesses *)

Definition sample_rule : Rule :=
  mkRule (str "r1") (str "t1") (str "latency") true (str "probe_rtt") {[str "site" := str "a"]} false
    Threshold None GT (f64 100) 0 (f64 0) 2 0 SeverityWarning [] 1 1.

Definition trap_rule : Rule :=
  sample_rule <| r_Metric := [] |> <| r_Match := ∅ |> <| r_Type := Trap |>
    <| r_Trap := Some (mkTrap (str "1.3.6.1") (str ".1.3.6.2") [] [] [] 0) |>.

Lemma rule_query_pinned_witness :
  Validate map_to_list sample_rule = None ∧
  ∃ sel fwd, currentQuery map_to_list (str "t1") (r_Metric sample_rule) (r_Match sample_rule) = inr sel ∧
    ParseSelector (λ _, true) (String (λ ms, ms) sel) = inr fwd ∧ TenantScoped fwd = Some (str "t1").
Proof.
  split; [vm_compute; reflexivity|].
  destruct (rule_query_pinned map_to_list (λ _, true) (λ _ _, true) (λ ms, ms) sample_rule (str "t1"))
    as (sel & fwd & H1 & H2 & H3 & _);
    [reflexivity|reflexivity|vm_compute; reflexivity|done|done|].
  exists sel, fwd. exact (conj H1 (conj H2 H3)).
Defined.

Lemma trap_normal_form_witness :
  Validate map_to_list trap_rule = None ∧ NormalizeTrapRule (NormalizeTrapRule trap_rule) = NormalizeTrapRule trap_rule.
Proof.
  split; [vm_compute; reflexivity|].
  apply (trap_normal_form map_to_list trap_rule (mkTrap (str "1.3.6.1") (str ".1.3.6.2") [] [] [] 0));
    [vm_compute; reflexivity|reflexivity|reflexivity].
Defined.

End AlertRule.
