(* ===== verification/Maintenance.v ===== *)
(** * Planned maintenance windows (internal/alert/maintenance.go)

    One-shot, daily and weekly windows: which instants they cover, the preview of their
    occurrences, and the engine's table of windows.  An instant is the number of
    nanoseconds since Go's zero time, so the zero time is 0; Sub saturates.  The order a
    range over the table takes is the parameter [RangeWindows]. *)
From S2P Require Import Prelude GoHash GoString GoTime PromSelector AlertRule.

Module Maintenance.

Import PromSelector AlertRule.

#[local] Open Scope list_scope.
#[local] Open Scope Z_scope.

Inductive MaintenanceRecurrence := RecurrenceNone | RecurrenceDaily | RecurrenceWeekly | OtherRecurrence (s : gostring).

#[export] Instance MaintenanceRecurrence_eq_dec : EqDecision MaintenanceRecurrence.
Proof. solve_decision. Defined.

Definition MaxMaintenanceWindow : Z := 30 * 24 * Hour.

Record MaintenanceWindow := mkWindow {
  w_ID : gostring; w_TenantID : gostring; w_Name : gostring; w_Reason : gostring;
  w_StartsAt : Z; w_EndsAt : Z; w_Recurrence : MaintenanceRecurrence;
  w_Match : gmap gostring gostring; w_RuleIDs : list gostring;
  w_CreatedBy : gostring; w_AuditRef : gostring; w_CreatedAt : Z; w_UpdatedAt : Z }.

#[export] Instance MaintenanceWindow_eta : Eta MaintenanceWindow := λ w,
  mkWindow (w_ID w) (w_TenantID w) (w_Name w) (w_Reason w) (w_StartsAt w) (w_EndsAt w) (w_Recurrence w)
    (w_Match w) (w_RuleIDs w) (w_CreatedBy w) (w_AuditRef w) (w_CreatedAt w) (w_UpdatedAt w).

Record MaintenancePreview := mkPreview {
  p_WindowID : gostring; p_Name : gostring; p_StartsAt : Z; p_EndsAt : Z; p_Reason : gostring }.

Definition maintenance_char (c : byte) : bool := isAlnum c || bool_decide (c = x5f) || bool_decide (c = x2d).

Definition ValidMaintenanceID (id : gostring) : bool :=
  (1 <=? len id) && (len id <=? 128) && forallb maintenance_char id.

Definition period (w : MaintenanceWindow) : Z :=
  match w_Recurrence w with
  | RecurrenceDaily => 24 * Hour
  | RecurrenceWeekly => 7 * 24 * Hour
  | _ => 0
  end.

Inductive window_error :=
| ErrID | ErrWindowName | ErrBounds | ErrTooLong | ErrRecurrence | ErrOverlap | ErrMatchEmpty | ErrRuleIDEmpty.

Definition Validate (w : MaintenanceWindow) : option window_error :=
  if negb (ValidMaintenanceID (w_ID w)) then Some ErrID
  else if blank (w_Name w) || (200 <? len (w_Name w)) then Some ErrWindowName
  else if (w_StartsAt w =? 0) || (w_EndsAt w =? 0) || negb (w_StartsAt w <? w_EndsAt w) then Some ErrBounds
  else let d := satSub (w_EndsAt w) (w_StartsAt w) in
  if MaxMaintenanceWindow <? d then Some ErrTooLong
  else if match w_Recurrence w with OtherRecurrence _ => true | _ => false end then Some ErrRecurrence
  else if (0 <? period w) && (period w <=? d) then Some ErrOverlap
  else if existsb (λ '(k, v), blank k || blank v) (map_to_list (w_Match w)) then Some ErrMatchEmpty
  else if existsb blank (w_RuleIDs w) then Some ErrRuleIDEmpty
  else None.

Definition matches (w : MaintenanceWindow) (rule : Rule) (labels : gmap gostring gostring) : bool :=
  if negb (bool_decide (w_TenantID w = [])) && negb (bool_decide (r_TenantID rule = [])) &&
     negb (bool_decide (w_TenantID w = r_TenantID rule)) then false
  else if negb (bool_decide (w_RuleIDs w = [])) && negb (bool_decide (r_ID rule ∈ w_RuleIDs w)) then false
  else forallb (λ '(k, want), bool_decide (default [] (labels !! k) = want)) (map_to_list (w_Match w)).

Definition preview (w : MaintenanceWindow) (start end_ : Z) : MaintenancePreview :=
  mkPreview (w_ID w) (w_Name w) start end_ (w_Reason w).

Definition occurrenceAt (w : MaintenanceWindow) (t : Z) : option MaintenancePreview :=
  if bool_decide (w_Recurrence w = RecurrenceNone) then
    if negb (t <? w_StartsAt w) && (t <? w_EndsAt w) then Some (preview w (w_StartsAt w) (w_EndsAt w)) else None
  else
    let period := period w in
    if (period <=? 0) || (t <? w_StartsAt w) then None
    else
      let n := Z.quot (satSub t (w_StartsAt w)) period in
      let start := w_StartsAt w + i64 (n * period) in
      let end_ := start + satSub (w_EndsAt w) (w_StartsAt w) in
      if negb (t <? start) && (t <? end_) then Some (preview w start end_) else None.

(** The first loop of occurrencesBetween: the first start whose occurrence ends after
    [from]; [None] is the model's fuel. *)
Fixpoint skip_loop (fuel : nat) (period duration from start : Z) : option Z :=
  match fuel with
  | O => None
  | S fuel => if start + duration <=? from then skip_loop fuel period duration from (start + period)
              else Some start
  end.

(** The second loop: the occurrences that start before [to]. *)
Fixpoint list_loop (fuel : nat) (w : MaintenanceWindow) (period duration from to start : Z)
    : option (list MaintenancePreview) :=
  match fuel with
  | O => None
  | S fuel =>
      if start <? to then
        let end_ := start + duration in
        match list_loop fuel w period duration from to (start + period) with
        | None => None
        | Some out => Some (if from <? end_ then preview w start end_ :: out else out)
        end
      else Some []
  end.

(** Each turn moves the start by a whole period, so the distance over the period bounds
    the turns. *)
Definition turns (distance period : Z) : nat := Z.to_nat (Z.max 0 distance / period + 2).

Definition occurrencesBetween (w : MaintenanceWindow) (from to : Z) : option (list MaintenancePreview) :=
  if negb (from <? to) then Some []
  else if bool_decide (w_Recurrence w = RecurrenceNone) then
    Some (if (from <? w_EndsAt w) && (w_StartsAt w <? to) then [preview w (w_StartsAt w) (w_EndsAt w)] else [])
  else
    let period := period w in
    if period <=? 0 then Some [] else
    let duration := satSub (w_EndsAt w) (w_StartsAt w) in
    let start := w_StartsAt w in
    match (if start <? from then
             let n := Z.quot (satSub from start) period in
             let start := start + i64 (n * period) in
             skip_loop (turns (from - start) period) period duration from start
           else Some start) with
    | None => None
    | Some start => list_loop (turns (to - start) period) w period duration from to start
    end.

(** ** The engine's table *)

Section table.
Context (RangeWindows : nat → gmap gostring MaintenanceWindow → list (gostring * MaintenanceWindow)).

Definition unixNano (t : Z) : Z := i64 (t - unixToInternal * Second).

Definition UpsertMaintenanceWindow (now : Z) (w : MaintenanceWindow) (table : gmap gostring MaintenanceWindow)
    : (window_error + MaintenanceWindow) * gmap gostring MaintenanceWindow :=
  let w := if bool_decide (w_ID w = []) then w <| w_ID := str "mw-" ++ dec (unixNano now) |> else w in
  let w := match table !! w_ID w with
           | Some existing =>
               let w := if w_CreatedAt w =? 0 then w <| w_CreatedAt := w_CreatedAt existing |> else w in
               if bool_decide (w_CreatedBy w = []) then w <| w_CreatedBy := w_CreatedBy existing |> else w
           | None => w
           end in
  let w := if w_CreatedAt w =? 0 then w <| w_CreatedAt := now |> else w in
  let w := if w_UpdatedAt w =? 0 then w <| w_UpdatedAt := now |> else w in
  match Validate w with
  | Some e => (inl e, table)
  | None => (inr w, <[w_ID w := w]> table)
  end.

Definition DeleteMaintenanceWindow (id : gostring) (table : gmap gostring MaintenanceWindow)
    : bool * gmap gostring MaintenanceWindow :=
  match table !! id with
  | None => (false, table)
  | Some _ => (true, delete id table)
  end.

Definition ReplaceMaintenanceWindows (windows : list MaintenanceWindow) : gmap gostring MaintenanceWindow :=
  foldl (λ next w, if bool_decide (w_ID w = []) || bool_decide (Validate w ≠ None) then next
                   else <[w_ID w := w]> next) ∅ windows.

(** The first window in range order that targets the series and covers the instant. *)
Definition activeMaintenanceLocked (tick : nat) (rule : Rule) (labels : gmap gostring gostring) (now : Z)
    (table : gmap gostring MaintenanceWindow) : option MaintenancePreview :=
  foldr (λ '(_, w) k, if negb (matches w rule labels) then k
                      else match occurrenceAt w now with Some occ => Some occ | None => k end)
    None (RangeWindows tick table).

Definition preview_le (a b : MaintenancePreview) : Prop :=
  (if negb (p_StartsAt a =? p_StartsAt b) then p_StartsAt a <? p_StartsAt b
   else bytes_leb (p_WindowID a) (p_WindowID b)) = true.
#[local] Instance preview_le_dec : RelDecision preview_le := λ a b, decide (_ = true).

(** The preview over a set of windows, in start order. *)
Definition PreviewWindows (windows : list MaintenanceWindow) (rule : Rule) (labels : gmap gostring gostring)
    (from to : Z) : option (list MaintenancePreview) :=
  out ← foldr (λ w acc, if negb (matches w rule labels) then acc
                        else l ← occurrencesBetween w from to; out ← acc; Some (l ++ out)) (Some []) windows;
  Some (merge_sort preview_le out).

End table.

(** ** Lemmas: valid windows *)

(** The n-th occurrence of a window; a one-shot window has only the first. *)
Definition occurrence (w : MaintenanceWindow) (n : Z) : MaintenancePreview :=
  preview w (w_StartsAt w + n * period w) (w_EndsAt w + n * period w).

Definition is_occurrence (w : MaintenanceWindow) (n : Z) : Prop :=
  0 ≤ n ∧ (w_Recurrence w = RecurrenceNone → n = 0).

Lemma Validate_facts w :
  Validate w = None →
  w_StartsAt w < w_EndsAt w ∧ satSub (w_EndsAt w) (w_StartsAt w) = w_EndsAt w - w_StartsAt w ∧
  ((w_Recurrence w = RecurrenceNone ∧ period w = 0) ∨
   (w_Recurrence w ≠ RecurrenceNone ∧ 0 < period w ∧ w_EndsAt w - w_StartsAt w < period w)).
Proof.
  unfold Validate. destruct (ValidMaintenanceID (w_ID w)); [|done]. cbn [negb].
  destruct (_ || _); [done|]. destruct (_ || negb (w_StartsAt w <? w_EndsAt w)) eqn:Eb; [done|].
  apply orb_false_iff in Eb as [_ Eb]. apply negb_false_iff in Eb.
  destruct (MaxMaintenanceWindow <? _) eqn:Em; [done|]. zbool.
  assert (satSub (w_EndsAt w) (w_StartsAt w) = w_EndsAt w - w_StartsAt w) as Ed.
  { unfold satSub, MaxMaintenanceWindow, Hour, Minute, Second in *. lia. }
  rewrite Ed in *. intros H. split_and!; [done|done|]. revert H. unfold period, Hour, Minute, Second.
  destruct (w_Recurrence w); [by left|right..|done];
    (split; [done|]); (split; [lia|]); destruct (_ && _) eqn:Ep; try done;
    apply andb_false_iff in Ep as [Ep|Ep]; zbool; lia.
Qed.

(** ** Lemmas: the loops *)

Lemma turns_bound distance P :
  0 < P → distance < P * (Z.of_nat (turns distance P) - 1) ∧ (0 < turns distance P)%nat.
Proof.
  intros HP. unfold turns. set (D := Z.max 0 distance). assert (0 ≤ D ∧ distance ≤ D) as [Hd Hle] by lia.
  pose proof (Z.div_pos D P Hd HP). pose proof (Z.div_mod D P ltac:(lia)).
  pose proof (Z.mod_pos_bound D P HP). rewrite Z2Nat.id by lia. split; nia.
Qed.

Lemma skip_loop_spec fuel P d from start :
  0 < P → (0 < fuel)%nat → from < start + d + P * (Z.of_nat fuel - 1) →
  ∃ k, 0 ≤ k ∧ skip_loop fuel P d from start = Some (start + k * P) ∧
    from < start + k * P + d ∧ ∀ j, 0 ≤ j < k → start + j * P + d ≤ from.
Proof.
  revert start. induction fuel as [|fuel IH]; intros start HP Hf Hb; [lia|]. cbn [skip_loop].
  destruct (start + d <=? from) eqn:E; zbool.
  - destruct (IH (start + P)) as (k & Hk & Hs & Hfrom & Hall); [lia| |nia|].
    { destruct fuel; [cbn in Hb|]; lia. }
    exists (k + 1). split_and!; [lia|rewrite Hs; f_equal; lia|lia|].
    intros j Hj. destruct (Z.eq_dec j 0) as [->|]; [lia|]. specialize (Hall (j - 1) ltac:(lia)). lia.
  - exists 0. split_and!; [lia|f_equal; lia|lia|]. intros. lia.
Qed.

Lemma list_loop_spec fuel w P d from to start :
  0 < P → 0 < d → (0 < fuel)%nat → to ≤ start + P * (Z.of_nat fuel - 1) →
  ∃ l, list_loop fuel w P d from to start = Some l ∧
    (∀ p, p ∈ l ↔ ∃ n, 0 ≤ n ∧ p = preview w (start + n * P) (start + n * P + d) ∧
                       start + n * P < to ∧ from < start + n * P + d) ∧
    StronglySorted (λ p q, p_StartsAt p < p_StartsAt q) l.
Proof.
  revert start. induction fuel as [|fuel IH]; intros start HP Hd Hf Hb; [lia|]. cbn [list_loop].
  destruct (start <? to) eqn:E; zbool.
  2: { eexists. split; [done|]. split; [|constructor]. intros p. split; [set_solver|]. intros (n & Hn & _ & Hlt & _). nia. }
  destruct (IH (start + P)) as (l & -> & Hin & Hso); [lia|lia| |nia|].
  { destruct fuel; [cbn in Hb|]; lia. }
  eexists. split; [done|].
  assert (Hstep : ∀ p n, p = preview w (start + P + n * P) (start + P + n * P + d) ↔
                          p = preview w (start + (n + 1) * P) (start + (n + 1) * P + d)).
  { intros p n. by replace (start + P + n * P) with (start + (n + 1) * P) by lia. }
  assert (Htail : ∀ p, p ∈ l ↔ ∃ n, 1 ≤ n ∧ p = preview w (start + n * P) (start + n * P + d) ∧
                                   start + n * P < to ∧ from < start + n * P + d).
  { intros p. rewrite Hin. split.
    - intros (n & Hn & Hp & H1 & H2). exists (n + 1). split_and!; [lia|by apply Hstep|lia|lia].
    - intros (n & Hn & Hp & H1 & H2). exists (n - 1). split_and!; [lia| |lia|lia].
      apply Hstep. by replace (n - 1 + 1) with n by lia. }
  destruct (from <? start + d) eqn:Ef; zbool.
  - split.
    + intros p. rewrite elem_of_cons, Htail. split.
      * intros [->|(n & Hn & ?)]; [|exists n; split; [lia|done]].
        exists 0. rewrite Z.mul_0_l, Z.add_0_r. done.
      * intros (n & Hn & -> & H1 & H2). destruct (Z.eq_dec n 0) as [->|]; [left; f_equal; lia|].
        right. exists n. split; [lia|done].
    + constructor; [done|]. apply Forall_forall. intros p (n & Hn & -> & _)%Htail. cbn. nia.
  - split; [|done]. intros p. rewrite Htail. split; intros (n & Hn & -> & H1 & H2); exists n;
      (split_and!; [|done|done|done]); [lia|]. destruct (Z.eq_dec n 0) as [->|]; lia.
Qed.

Lemma quot_period t S P :
  0 < P → S ≤ t →
  let n := Z.quot (satSub t S) P in
  0 ≤ n ∧ i64 (n * P) = n * P ∧ S + n * P ≤ t ∧ (t - S < 2 ^ 63 → t < S + (n + 1) * P).
Proof.
  intros HP Ht n. assert (0 ≤ satSub t S ≤ 2 ^ 63 - 1) as Hs by (unfold satSub; lia).
  assert (satSub t S ≤ t - S) as Hle by (unfold satSub; lia).
  unfold n. rewrite Z.quot_div_nonneg by lia.
  pose proof (Z.div_pos (satSub t S) P ltac:(lia) HP). pose proof (Z.mul_div_le (satSub t S) P HP).
  pose proof (Z.mul_succ_div_gt (satSub t S) P HP). rewrite i64_small by nia.
  split_and!; [done|done|nia|]. intros Hlt. assert (satSub t S = t - S) as E by (unfold satSub; lia). rewrite E in *. nia.
Qed.

(** Where the listing starts: every earlier occurrence is over by [from]. *)
Lemma first_listed S P d from :
  0 < P → 0 < d < P →
  ∃ m, 0 ≤ m ∧
    (if S <? from then
       let n := Z.quot (satSub from S) P in
       let start := S + i64 (n * P) in
       skip_loop (turns (from - start) P) P d from start
     else Some S) = Some (S + m * P) ∧ ∀ j, 0 ≤ j < m → S + j * P + d ≤ from.
Proof.
  intros HP Hd. destruct (S <? from) eqn:E; zbool; [|exists 0; split_and!; [lia|f_equal; lia|lia]].
  destruct (quot_period from S P HP ltac:(lia)) as (Hn & Ei & Hle & _). cbv zeta. rewrite Ei.
  set (n := Z.quot _ _) in *. destruct (turns_bound (from - (S + n * P)) P HP) as [Ht1 Ht2].
  destruct (skip_loop_spec _ P d from (S + n * P) HP Ht2 ltac:(lia)) as (k & Hk & -> & _ & Hall).
  exists (n + k). split_and!; [lia|f_equal; lia|]. intros j Hj. destruct (Z.lt_ge_cases j n); [nia|].
  specialize (Hall (j - n) ltac:(lia)). lia.
Qed.

(** ** Theorems *)

(** The preview of a valid window lists exactly its occurrences: for every valid
    window and every interval the two loops finish, and the result is, in start order
    and without repetition, every occurrence (the only one of a one-shot window, all
    daily or weekly repetitions of a recurring one) that overlaps [from, to), and nothing
    else, however long ago the window started. *)
Theorem preview_exact (w : MaintenanceWindow) (from to : Z) :
  Validate w = None →
  ∃ l, occurrencesBetween w from to = Some l ∧
    StronglySorted (λ p q, p_StartsAt p < p_StartsAt q) l ∧
    ∀ p, p ∈ l ↔ from < to ∧ ∃ n, is_occurrence w n ∧ p = occurrence w n ∧
                   from < w_EndsAt w + n * period w ∧ w_StartsAt w + n * period w < to.
Proof.
  intros (Hse & Hd & Hr)%Validate_facts. unfold occurrencesBetween, is_occurrence, occurrence.
  destruct (from <? to) eqn:Eft; zbool; cbn [negb].
  2: { eexists. split; [done|]. split; [constructor|]. intros p. split; [set_solver|]. intros [? _]. lia. }
  destruct Hr as [[Er EP]|(Er & HP & Hdp)].
  - rewrite bool_decide_true by done. eexists. split; [done|]. rewrite EP. split.
    { destruct (_ && _); repeat constructor. }
    intros p. destruct ((from <? w_EndsAt w) && (w_StartsAt w <? to)) eqn:E.
    + apply andb_prop in E as [E1 E2]. zbool. rewrite list_elem_of_singleton. split.
      * intros ->. split; [done|]. exists 0. rewrite !Z.mul_0_l, !Z.add_0_r. done.
      * intros (_ & n & _ & -> & _). by rewrite !Z.mul_0_r, !Z.add_0_r.
    + apply andb_false_iff in E. split; [set_solver|]. intros (_ & n & _ & _ & H1 & H2).
      rewrite !Z.mul_0_r, !Z.add_0_r in *. destruct E; zbool; lia.
  - rewrite bool_decide_false by done. rewrite (proj2 (Z.leb_gt _ _)) by done. rewrite Hd.
    destruct (first_listed (w_StartsAt w) (period w) (w_EndsAt w - w_StartsAt w) from HP ltac:(lia))
      as (m & Hm & Em & Hearly). cbv zeta in *. rewrite Em.
    destruct (turns_bound (to - (w_StartsAt w + m * period w)) (period w) HP) as [Ht1 Ht2].
    destruct (list_loop_spec _ w (period w) (w_EndsAt w - w_StartsAt w) from to (w_StartsAt w + m * period w)
      HP ltac:(lia) Ht2 ltac:(lia)) as (l & -> & Hin & Hso).
    eexists. split; [done|]. split; [done|]. intros p. rewrite Hin. split.
    + intros (n & Hn & -> & H1 & H2). split; [done|]. exists (m + n). split_and!; [lia|done| |lia|lia].
      f_equal; lia.
    + intros (_ & n & [Hn _] & -> & H1 & H2). exists (n - m). 
      assert (m ≤ n). { destruct (Z.lt_ge_cases n m); [|done]. specialize (Hearly n ltac:(lia)). lia. }
      split_and!; [lia|f_equal; lia|lia|lia].
Qed.

(** A window suppresses exactly during its occurrences: for a valid window and an
    instant less than 2^63 ns (292 years) after its start, the suppression check finds an
    occurrence exactly when the instant lies in one, and it is that one. *)
Theorem suppression_exact (w : MaintenanceWindow) (t : Z) (p : MaintenancePreview) :
  Validate w = None → t - w_StartsAt w < 2 ^ 63 →
  occurrenceAt w t = Some p ↔
  ∃ n, is_occurrence w n ∧ p = occurrence w n ∧
    w_StartsAt w + n * period w ≤ t < w_EndsAt w + n * period w.
Proof.
  intros (Hse & Hd & Hr)%Validate_facts Ht. unfold occurrenceAt, is_occurrence, occurrence.
  destruct Hr as [[Er EP]|(Er & HP & Hdp)].
  - rewrite bool_decide_true by done. rewrite EP. destruct (_ && _) eqn:E.
    + apply andb_prop in E as [E1 E2]. apply negb_true_iff in E1. zbool. split.
      * intros [= <-]. exists 0. rewrite !Z.mul_0_l, !Z.add_0_r. split_and!; [lia|done|done|lia|lia].
      * intros (n & _ & -> & _). by rewrite !Z.mul_0_r, !Z.add_0_r.
    + split; [done|]. intros (n & _ & _ & H1). rewrite !Z.mul_0_r, !Z.add_0_r in H1.
      apply andb_false_iff in E. rewrite negb_false_iff in E. destruct E; zbool; lia.
  - rewrite bool_decide_false by done. rewrite (proj2 (Z.leb_gt _ _)) by done. cbn [orb].
    destruct (t <? w_StartsAt w) eqn:E; zbool.
    { split; [done|]. intros (n & [Hn _] & _ & H1). nia. }
    destruct (quot_period t (w_StartsAt w) (period w) HP E) as (Hn & Hi & Hle & Hgt). specialize (Hgt Ht).
    cbv zeta. rewrite Hd, Hi. set (n := Z.quot _ _) in *.
    rewrite (proj2 (Z.ltb_ge t _)) by done. cbn [negb andb].
    replace (w_StartsAt w + n * period w + (w_EndsAt w - w_StartsAt w)) with (w_EndsAt w + n * period w) by lia.
    assert (Hu : ∀ k, 0 ≤ k → w_StartsAt w + k * period w ≤ t < w_EndsAt w + k * period w → k = n) by (intros; nia).
    destruct (t <? w_EndsAt w + n * period w) eqn:Ee; zbool.
    + split; [intros [= <-]; exists n; split_and!; [lia|done|done|lia|lia]|].
      intros (k & [Hk _] & -> & H1). by rewrite (Hu k Hk H1).
    + split; [done|]. intros (k & [Hk _] & _ & H1). rewrite (Hu k Hk H1) in H1. lia.
Qed.

(** A daily window that started more than 292 years ago is still previewed but no longer
    suppresses: the difference of the instants saturates. *)
Definition ancient : MaintenanceWindow :=
  mkWindow (str "mw-1") [] (str "nightly") [] (24 * Hour) (26 * Hour) RecurrenceDaily ∅ [] [] [] 0 0.

Theorem ancient_window_inactive :
  let t := 24 * Hour + 110000 * (24 * Hour) + Hour in
  Validate ancient = None ∧ occurrenceAt ancient t = None ∧
  occurrencesBetween ancient t (t + 1) = Some [occurrence ancient 110000].
Proof. split_and!; vm_compute; reflexivity. Qed.

(** ** The table *)

Lemma active_iff (RangeWindows : nat → gmap gostring MaintenanceWindow → list (gostring * MaintenanceWindow))
    tick rule labels now table :
  (∀ t m, RangeWindows t m ≡ₚ map_to_list m) →
  is_Some (activeMaintenanceLocked RangeWindows tick rule labels now table) ↔
  ∃ id w, table !! id = Some w ∧ matches w rule labels = true ∧ is_Some (occurrenceAt w now).
Proof.
  intros HR. setoid_rewrite <- elem_of_map_to_list. setoid_rewrite <- (HR tick). unfold activeMaintenanceLocked.
  induction (RangeWindows tick table) as [|[id w] l IH]; cbn [foldr].
  - split; [intros [? ?]; done|]. intros (? & ? & ? & _). set_solver.
  - destruct (matches w rule labels) eqn:Em; cbn [negb].
    + destruct (occurrenceAt w now) as [occ|] eqn:Eo.
      * split; [|by eauto]. intros _. exists id, w. split_and!; [set_solver|done|by rewrite Eo].
      * rewrite IH. split; intros (i & v & Hin & H1 & H2); exists i, v; split_and!; try done; [set_solver|].
        apply elem_of_cons in Hin as [[= -> ->]|]; [|done]. rewrite Eo in H2. by destruct H2.
    + rewrite IH. split; intros (i & v & Hin & H1 & H2); exists i, v; split_and!; try done; [set_solver|].
      apply elem_of_cons in Hin as [[= -> ->]|]; [|done]. congruence.
Qed.

(** Every window the engine holds is valid and sits under its own identifier. *)
Definition table_ok (table : gmap gostring MaintenanceWindow) : Prop :=
  map_Forall (λ id w, w_ID w = id ∧ Validate w = None) table.

Lemma upsert_ok now w table : table_ok table → table_ok (UpsertMaintenanceWindow now w table).2.
Proof.
  intros H. unfold UpsertMaintenanceWindow. cbv zeta. destruct (Validate _) eqn:E; [done|].
  apply map_Forall_insert_2; [|done]. split; [done|exact E].
Qed.

Lemma delete_ok id table : table_ok table → table_ok (DeleteMaintenanceWindow id table).2.
Proof. intros H. unfold DeleteMaintenanceWindow. destruct (table !! id); [|done]. by apply map_Forall_delete. Qed.

Lemma replace_ok windows : table_ok (ReplaceMaintenanceWindows windows).
Proof.
  unfold ReplaceMaintenanceWindows. cut (∀ m, table_ok m → table_ok (foldl (λ next w,
    if bool_decide (w_ID w = []) || bool_decide (Validate w ≠ None) then next else <[w_ID w := w]> next) m windows)).
  { intros H. apply H, map_Forall_empty. }
  induction windows as [|w windows IH]; intros m Hm; [done|]. cbn [foldl]. apply IH.
  destruct (_ || _) eqn:E; [done|]. apply orb_false_iff in E as [_ E]. apply bool_decide_eq_false in E.
  apply map_Forall_insert_2; [|done]. split; [done|]. by apply dec_stable.
Qed.

(** ** Witnesses *)

Lemma preview_exact_witness :
  Validate ancient = None ∧ ∃ l, occurrencesBetween ancient (30 * Hour) (80 * Hour) = Some l ∧ length l = 2%nat.
Proof.
  split; [vm_compute; reflexivity|].
  destruct (preview_exact ancient (30 * Hour) (80 * Hour)) as (l & E & _); [vm_compute; reflexivity|].
  exists l. split; [exact E|]. vm_compute in E. by injection E as <-.
Defined.

Lemma suppression_exact_witness :
  occurrenceAt ancient (49 * Hour) = Some (occurrence ancient 1) ∧ Validate ancient = None.
Proof.
  split; [|vm_compute; reflexivity].
  apply (suppression_exact ancient (49 * Hour) (occurrence ancient 1)); [vm_compute; reflexivity|vm_compute; reflexivity|].
  exists 1. split; [split; [lia|intros H; discriminate H]|]. split; [reflexivity|]. vm_compute. split; [discriminate|reflexivity].
Defined.

End Maintenance.
