(* ===== verification/Alert.v ===== *)
(** * The alert engine (internal/alert: engine.go, state.go, eval.go, evaluation.go, active.go)

    Evaluation of rules against current samples: per-series state, debounce, renotify,
    silences, acknowledgements, maintenance, failover rehydration of notification state,
    and the resolution of trap episodes a previous leader left firing.

    The engine is a record passed through every operation.  Instants are nanoseconds since
    Go's zero time (the zero time is 0); [clock n] is the n-th reading of the clock.  What
    the engine hands to the notifier, the alert sink, the receipt sink and the persistence
    hooks is appended to [en_log] in order; a hook that is not wired adds nothing.  The
    source starts the resolve hook of a series in a goroutine of its own (engine.go, resolve):
    here it takes effect where it is started, so a deletion that is overtaken by the next
    notification of the series is outside the model.
    Parameters: the sources of samples, the order of a range over the window table, the
    shortest decimal of a float ([FormatG]), the RFC 3339 form of an instant
    ([FormatTime]) and the hex digest of the crypto package ([HexHash]). *)
From Stdlib Require Import Floats.SpecFloat.
From S2P Require Import Prelude GoHash GoString GoTime GoFloat PromSelector AlertRule Maintenance.

Module Alert.

Import AlertRule Maintenance.

#[local] Open Scope list_scope.
#[local] Open Scope Z_scope.

Definition labels_t : Type := gmap gostring gostring.

(** ** alert.go and engine.go: data *)

Inductive State := StateFiring | StateResolved.

#[export] Instance State_eq_dec : EqDecision State.
Proof. solve_decision. Defined.

Record Alert := mkAlert {
  a_RuleID : gostring; a_RuleName : gostring; a_TenantID : gostring; a_State : State;
  a_Severity : Severity; a_Metric : gostring; a_Labels : labels_t; a_Value : float64;
  a_Threshold : float64; a_Comparison : Comparison; a_Reason : gostring; a_At : Z }.

Record Sample := mkSample { s_Labels : labels_t; s_Value : float64; s_Reason : gostring }.

Record NotifyState := mkNotify { FiringSince : Z; LastNotified : Z }.

Record RestoredOp := mkOp { op_SilencedUntil : Z; op_AckedBy : gostring; op_AckedAt : Z }.

(** ** evaluation.go: data *)

Definition EvaluationReceiptVersion : gostring := str "probectl.alert-evaluation/v1".

Inductive EvaluationState :=
| EvaluationUnset | EvaluationNoData | EvaluationWarming | EvaluationNormal | EvaluationPending
| EvaluationFiring | EvaluationSteady | EvaluationResolved.

#[export] Instance EvaluationState_eq_dec : EqDecision EvaluationState.
Proof. solve_decision. Defined.

Record EvaluationExpectation := mkExpectation {
  x_Kind : RuleType; x_Comparison : option Comparison; x_Threshold : option float64;
  x_Mean : option float64; x_StdDev : option float64; x_Lower : option float64; x_Upper : option float64 }.

Record TagSelectionReceipt := mkSelection { t_TargetKind : gostring; t_TagRevision : gostring; t_AsOf : Z }.

Record EvaluationReceipt := mkReceipt {
  e_TagSelection : option TagSelectionReceipt; e_ContractVersion : gostring; e_Fingerprint : gostring;
  e_RuleID : gostring; e_RuleRevision : gostring; e_State : EvaluationState; e_ObservedAt : Z;
  e_ObservedValue : option float64; e_Expectation : EvaluationExpectation; e_BreachCount : Z;
  e_RequiredBreaches : Z; e_WarmupSamples : Z; e_WarmupRequired : Z; e_Reason : gostring; e_Labels : labels_t }.

Record evaluationDecision := mkDecision {
  d_breached : bool; d_warming : bool; d_reason : gostring; d_expectation : EvaluationExpectation;
  d_warmupSamples : Z; d_warmupNeeded : Z }.

(** ** eval.go: the baseline detector *)

Record baseline := mkBaseline { b_window : Z; b_buf : list float64 }.

Record baselineEvaluation := mkBaselineEval {
  be_anomalous : bool; be_warming : bool; be_mean : float64; be_std : float64; be_samples : Z; be_required : Z }.

Definition newBaseline (window : Z) : baseline := mkBaseline (if window <? 2 then 2 else window) [].

Definition fsqrt : float64 → float64 := SFsqrt 53 1024.
Definition fabs : float64 → float64 := SFabs.

Definition meanStd (xs : list float64) : float64 * float64 :=
  let n := f64 (len xs) in
  if feqb n (f64 0) then (f64 0, f64 0) else
  let sum := foldl fadd (f64 0) xs in
  let mean := fdiv sum n in
  let variance := foldl (λ v x, let d := fsub x mean in fadd v (fmul d d)) (f64 0) xs in
  (mean, fsqrt (fdiv variance n)).

Definition addSample (v : float64) (b : baseline) : baseline :=
  let buf := b_buf b ++ [v] in
  mkBaseline (b_window b) (if b_window b <? len buf then drop 1 buf else buf).

Definition evaluate (value sensitivity : float64) (b : baseline) : baselineEvaluation * baseline :=
  if len (b_buf b) <? b_window b then
    let b := addSample value b in
    let '(mean, std) := meanStd (b_buf b) in
    (mkBaselineEval false true mean std (len (b_buf b)) (b_window b), b)
  else
    let '(mean, std) := meanStd (b_buf b) in
    let anomalous :=
      if feqb std (f64 0) then negb (feqb value mean)
      else fltb (fmul sensitivity std) (fabs (fsub value mean)) in
    (mkBaselineEval anomalous false mean std (b_window b) (b_window b), addSample value b).

(** ** state.go *)

Record seriesState := mkSeriesState {
  breachCount : Z; firing : bool; lastNotified : Z; base : option baseline;
  ruleID : gostring; ruleName : gostring; severity : Severity; metric : gostring; labels : labels_t;
  lastValue : float64; lastReason : gostring; since : Z; lastSeen : Z;
  lastEvaluationState : EvaluationState; lastTagSelectionKey : gostring;
  silencedUntil : Z; ackedBy : gostring; ackedAt : Z }.

#[export] Instance seriesState_eta : Eta seriesState := λ s,
  mkSeriesState (breachCount s) (firing s) (lastNotified s) (base s) (ruleID s) (ruleName s) (severity s)
    (metric s) (labels s) (lastValue s) (lastReason s) (since s) (lastSeen s) (lastEvaluationState s)
    (lastTagSelectionKey s) (silencedUntil s) (ackedBy s) (ackedAt s).

Definition zeroState : seriesState :=
  mkSeriesState 0 false 0 None [] [] [] [] ∅ (f64 0) [] 0 0 EvaluationUnset [] 0 [] 0.

(** labels[k] of a Go map: the empty string when absent. *)
Definition labelOf (l : labels_t) (k : gostring) : gostring :=
  match (l !! k : option gostring) with Some v => v | None => [] end.

Definition fingerprint (l : labels_t) : gostring :=
  concat (map (λ k, k ++ x3d :: labelOf l k ++ [x3b]) (merge_sort bytes_le (map_to_list l).*1)).

Definition stateKey (rule : gostring) (l : labels_t) : gostring := rule ++ x7c :: fingerprint l.

(** ** The engine *)

Inductive effect :=
| ToChannels (rule : Rule) (a : Alert)
| ToSink (a : Alert)
| ToLedger (r : EvaluationReceipt)
| OnNotify (key : gostring) (ns : NotifyState)
| OnResolve (key : gostring).

Record Engine := mkEngine {
  states : gmap gostring seriesState;
  noDataRules : gmap gostring gostring;
  maintenance : gmap gostring MaintenanceWindow;
  restored : gmap gostring RestoredOp;
  restoredNotify : gmap gostring NotifyState;
  en_readings : nat;
  en_log : list effect }.

#[export] Instance Engine_eta : Eta Engine := λ e,
  mkEngine (states e) (noDataRules e) (maintenance e) (restored e) (restoredNotify e) (en_readings e) (en_log e).

Definition NewEngine : Engine := mkEngine ∅ ∅ ∅ ∅ ∅ 0 [].

(** Which of the optional collaborators are set. *)
Record Wiring := mkWiring {
  has_notifier : bool; has_sink : bool; has_evaluationSink : bool; has_onResolve : bool; has_onNotify : bool }.

Inductive engine_error :=
| ErrTagNeedsMetric | ErrTagSourceUnavailable | ErrSource | ErrContext | ErrSelection | ErrNoTrapSource
| ErrNoMetricSource | ErrSilenceRange | ErrNotActive | ErrRules.

Record MetricSource := mkSource {
  Current : nat → gostring → labels_t → engine_error + list Sample;
  CurrentRule : option (nat → Rule → engine_error + (list Sample * option TagSelectionReceipt)) }.

Definition emit (b : bool) (e : effect) (en : Engine) : Engine :=
  if b then en <| en_log := en_log en ++ [e] |> else en.

(** ** evaluation.go: operations *)

Definition requiredBreaches (rule : Rule) : Z := if r_ForN rule <? 1 then 1 else r_ForN rule.

Definition receiptLabels (l : labels_t) : labels_t := delete (str "tenant_id") l.

Definition SelectionValidate (s : option TagSelectionReceipt) : bool :=
  match s with
  | None => false
  | Some s =>
      bool_decide (t_TargetKind s = str "test") && negb (t_AsOf s =? 0) &&
      match Atoi (t_TagRevision s) with
      | Some revision => negb (revision <? 1) && bool_decide (dec revision = t_TagRevision s)
      | None => false
      end
  end.

(** labelsFromStateKey: the pairs of the text behind the rule prefix. *)
Definition labelsFromStateKey (key prefix : gostring) : labels_t :=
  foldl (λ out pair, match cut x3d pair with
                     | (k, Some v) => if bool_decide (k = []) then out else <[k := v]> out
                     | (_, None) => out
                     end) ∅ (Split x3b (TrimPrefix key prefix)).

Definition staleTrapReason : gostring :=
  str "no matching trap within the hold; it ran out while the evaluator was not running".

Section engine.
Context (clock : nat → Z).
Context (RangeWindows : nat → gmap gostring MaintenanceWindow → list (gostring * MaintenanceWindow)).
Context (FormatG : float64 → gostring) (FormatTime : Z → gostring) (HexHash : gostring → gostring).
Context (source : option MetricSource) (traps : option (nat → Rule → Z → engine_error + list Sample)).
Context (ctxErr : nat → bool).
Context (wired : Wiring).

Definition readClock (en : Engine) : Z * Engine := (clock (en_readings en), en <| en_readings := S (en_readings en) |>).

Definition ruleRevision (rule : Rule) : gostring :=
  if r_UpdatedAt rule =? 0 then str "unversioned" else FormatTime (r_UpdatedAt rule).

Definition tagSelectionKey (rule : Rule) (s : option TagSelectionReceipt) : gostring :=
  match s with
  | None => []
  | Some s => t_TargetKind s ++ str "|" ++ t_TagRevision s ++ str "|" ++ ruleRevision rule
  end.

Definition evaluationFingerprintForKey (key : gostring) : gostring := str "eval:" ++ HexHash key.
Definition evaluationFingerprint (rule : gostring) (l : labels_t) : gostring :=
  evaluationFingerprintForKey (stateKey rule (receiptLabels l)).
Definition noDataEvaluationFingerprint (rule : gostring) : gostring :=
  evaluationFingerprintForKey (rule ++ str "|no-data").

Definition alert (rule : Rule) (s : Sample) (state : State) (reason : gostring) (en : Engine) : Alert * Engine :=
  let '(now, en) := readClock en in
  (mkAlert (r_ID rule) (r_Name rule) (r_TenantID rule) state (r_Severity rule) (r_Metric rule) (s_Labels s)
     (s_Value s) (r_Threshold rule) (r_Comparison rule) reason now, en).

Definition stateForLocked (rule : Rule) (l : labels_t) (en : Engine) : seriesState :=
  match states en !! stateKey (r_ID rule) l with
  | Some st => st
  | None => if bool_decide (r_Type rule = Baseline)
            then zeroState <| base := Some (newBaseline (r_Window rule)) |> else zeroState
  end.

Definition cmp_str (c : Comparison) : gostring :=
  match c with
  | GT => str "gt" | LT => str "lt" | GTE => str "gte" | LTE => str "lte" | EQ => str "eq" | NEQ => str "neq"
  | OtherComparison s => s
  end.

Definition breached (rule : Rule) (s : Sample) (st : seriesState) : evaluationDecision * seriesState :=
  let value := s_Value s in
  match r_Type rule with
  | Trap =>
      let reason := if bool_decide (s_Reason s = []) then str "active matching traps = " ++ FormatG value
                    else s_Reason s in
      (mkDecision (fleb (f64 1) value) false reason
         (mkExpectation Threshold (Some GTE) (Some (f64 1)) None None None None) 0 0, st)
  | Baseline =>
      let b := match base st with Some b => b | None => newBaseline (r_Window rule) end in
      let '(ev, b) := evaluate value (r_Sensitivity rule) b in
      let st := st <| base := Some b |> in
      let band := fmul (r_Sensitivity rule) (be_std ev) in
      let expectation := mkExpectation Baseline None None (Some (be_mean ev)) (Some (be_std ev))
                           (Some (fsub (be_mean ev) band)) (Some (fadd (be_mean ev) band)) in
      if be_warming ev then
        (mkDecision false true (str "baseline warming") expectation (be_samples ev) (be_required ev), st)
      else
        let reason :=
          if be_anomalous ev
          then r_Metric rule ++ str "=" ++ FormatG value ++ str " deviates from its baseline (>" ++
               FormatG (r_Sensitivity rule) ++ str " sigma)"
          else r_Metric rule ++ str "=" ++ FormatG value ++ str " is within its baseline band" in
        (mkDecision (be_anomalous ev) false reason expectation (be_samples ev) (be_required ev), st)
  | _ =>
      (mkDecision (breaches (r_Comparison rule) value (r_Threshold rule)) false
         (r_Metric rule ++ str "=" ++ FormatG value ++ str " " ++ cmp_str (r_Comparison rule) ++ str " " ++
          FormatG (r_Threshold rule))
         (mkExpectation Threshold (Some (r_Comparison rule)) (Some (r_Threshold rule)) None None None None) 0 0, st)
  end.

(** ** The state machine of a series *)

(** The first firing of an episode: the start of the episode, then the persisted silence
    or acknowledgement, then the persisted notification state. *)
Definition rehydrate (key : gostring) (now : Z) (st : seriesState) (en : Engine) : seriesState * Engine :=
  let st := st <| since := now |> in
  let '(st, en) :=
    match restored en !! key with
    | Some op =>
        let st := if now <? op_SilencedUntil op then st <| silencedUntil := op_SilencedUntil op |> else st in
        let st := if bool_decide (op_AckedBy op = []) then st
                  else st <| ackedBy := op_AckedBy op |> <| ackedAt := op_AckedAt op |> in
        (st, en <| restored := delete key (restored en) |>)
    | None => (st, en)
    end in
  match restoredNotify en !! key with
  | Some ns =>
      let st := if FiringSince ns =? 0 then st else st <| since := FiringSince ns |> in
      (st <| lastNotified := LastNotified ns |>, en <| restoredNotify := delete key (restoredNotify en) |>)
  | None => (st, en)
  end.

Definition steady (firstFiring : bool) : EvaluationState := if firstFiring then EvaluationFiring else EvaluationSteady.

(** The part of transition from the point where a series is firing. *)
Definition fire (key : gostring) (rule : Rule) (s : Sample) (reason : gostring) (st : seriesState) (en : Engine)
    : option Alert * EvaluationState * seriesState * Engine :=
  let firstFiring := negb (firing st) in
  let st := st <| firing := true |> in
  let '(now, en) := readClock en in
  let '(st, en) := if firstFiring then rehydrate key now st en else (st, en) in
  match activeMaintenanceLocked RangeWindows (en_readings en) rule (s_Labels s) now (maintenance en) with
  | Some occ =>
      let st := if silencedUntil st <? p_EndsAt occ then st <| silencedUntil := p_EndsAt occ |> else st in
      (None, steady firstFiring, st, en)
  | None =>
      if now <? silencedUntil st then (None, steady firstFiring, st, en)
      else
        let renotify := (0 <? r_RenotifySeconds rule) &&
          (i64 (r_RenotifySeconds rule * Second) <=? satSub now (lastNotified st)) in
        if (lastNotified st =? 0) || renotify then
          let '(a, en) := alert rule s StateFiring reason en in
          (Some a, steady firstFiring, st <| lastNotified := now |>, en)
        else (None, EvaluationSteady, st, en)
  end.

(** The end of an episode. *)
Definition resolve (key : gostring) (rule : Rule) (s : Sample) (reason : gostring) (st : seriesState) (en : Engine)
    : option Alert * EvaluationState * seriesState * Engine :=
  let st := st <| firing := false |> <| silencedUntil := 0 |> <| ackedBy := [] |> <| ackedAt := 0 |>
               <| lastNotified := 0 |> in
  let en := emit (has_onResolve wired) (OnResolve key) en in
  let reason := if bool_decide (r_Type rule = Trap) then reason else str "value recovered" in
  let '(a, en) := alert rule s StateResolved reason en in
  (Some a, EvaluationResolved, st, en).

Definition transition (key : gostring) (rule : Rule) (s : Sample) (d : evaluationDecision) (st : seriesState)
    (en : Engine) : option Alert * EvaluationState * seriesState * Engine :=
  let forN := if r_ForN rule <? 1 then 1 else r_ForN rule in
  if d_warming d then (None, EvaluationWarming, st <| breachCount := 0 |>, en)
  else if d_breached d then
    let st := st <| breachCount := breachCount st + 1 |> in
    if breachCount st <? forN then (None, EvaluationPending, st, en)
    else fire key rule s (d_reason d) st en
  else
    let st := st <| breachCount := 0 |> in
    if firing st then resolve key rule s (d_reason d) st en
    else (None, EvaluationNormal, st, en).

(** The outcome of one sample. *)
Record outcome := mkOutcome {
  o_acted : option Alert; o_receipt : option EvaluationReceipt; o_pending : option (gostring * NotifyState) }.

Definition evalSample (rule : Rule) (s : Sample) (selection : option TagSelectionReceipt) (en : Engine)
    : outcome * Engine :=
  let key := stateKey (r_ID rule) (s_Labels s) in
  let st := stateForLocked rule (s_Labels s) en in
  let '(decision, st) := breached rule s st in
  let '(seen, en) := readClock en in
  let st := st <| ruleID := r_ID rule |> <| ruleName := r_Name rule |> <| severity := r_Severity rule |>
               <| metric := r_Metric rule |> <| labels := s_Labels s |> <| lastValue := s_Value s |>
               <| lastReason := d_reason decision |> <| lastSeen := seen |> in
  let '(acted, state, st, en) := transition key rule s decision st en in
  let pending := match acted with
                 | Some a => match a_State a with
                             | StateFiring => Some (key, mkNotify (since st) (lastNotified st))
                             | StateResolved => None
                             end
                 | None => None
                 end in
  let selectionKey := tagSelectionKey rule selection in
  let record := negb (bool_decide (state = lastEvaluationState st)) || bool_decide (state = EvaluationWarming) ||
                negb (bool_decide (selectionKey = lastTagSelectionKey st)) in
  let st := st <| lastTagSelectionKey := selectionKey |> <| lastEvaluationState := state |> in
  let en := en <| states := <[key := st]> (states en) |> in
  let receipt :=
    if record then
      Some (mkReceipt selection EvaluationReceiptVersion (evaluationFingerprint (r_ID rule) (s_Labels s)) (r_ID rule)
              (ruleRevision rule) state (lastSeen st) (Some (s_Value s)) (d_expectation decision) (breachCount st)
              (requiredBreaches rule) (d_warmupSamples decision) (d_warmupNeeded decision) (d_reason decision)
              (receiptLabels (s_Labels s)))
    else None in
  (mkOutcome acted receipt pending, en).

(** ** Evaluation of a rule *)

Definition recordEvaluation (receipt : option EvaluationReceipt) (en : Engine) : Engine :=
  match receipt with Some r => emit (has_evaluationSink wired) (ToLedger r) en | None => en end.

Definition deliver (rule : Rule) (a : Alert) (en : Engine) : Engine :=
  emit (has_sink wired) (ToSink a) (emit (has_notifier wired) (ToChannels rule a) en).

Definition samples (rule : Rule) (en : Engine)
    : (engine_error + list Sample * option TagSelectionReceipt) * Engine :=
  let call := en_readings en in
  if r_HasTagFilter rule then
    if bool_decide (r_Type rule = Trap) then (inl ErrTagNeedsMetric, en) else
    match source with
    | Some (mkSource _ (Some current)) =>
        match current call rule with
        | inl e => (inl e, en)
        | inr (read, selection) =>
            if ctxErr call then (inl ErrContext, en)
            else if negb (SelectionValidate selection) then (inl ErrSelection, en)
            else (inr (read, selection), en)
        end
    | _ => (inl ErrTagSourceUnavailable, en)
    end
  else if bool_decide (r_Type rule = Trap) then
    match traps, r_Trap rule with
    | Some active, Some _ =>
        let '(now, en) := readClock en in
        match active call rule now with
        | inl e => (inl ErrSource, en)
        | inr l => (inr (l, None), en)
        end
    | _, _ => (inl ErrNoTrapSource, en)
    end
  else match source with
       | None => (inl ErrNoMetricSource, en)
       | Some src => match Current src call (r_Metric rule) (r_Match rule) with
                     | inl e => (inl ErrSource, en)
                     | inr l => (inr (l, None), en)
                     end
       end.

Definition expectationForNoData (rule : Rule) : EvaluationExpectation :=
  if bool_decide (r_Type rule = Baseline) then mkExpectation Baseline None None None None None None
  else mkExpectation Threshold (Some (r_Comparison rule)) (Some (r_Threshold rule)) None None None None.

Definition recordNoData (rule : Rule) (selection : option TagSelectionReceipt) (en : Engine) : Engine :=
  let selectionKey := tagSelectionKey rule selection in
  if bool_decide (noDataRules en !! r_ID rule = Some selectionKey) then en else
  let en := en <| noDataRules := <[r_ID rule := selectionKey]> (noDataRules en) |> in
  let '(observedAt, en) := readClock en in
  recordEvaluation (Some (mkReceipt selection EvaluationReceiptVersion (noDataEvaluationFingerprint (r_ID rule))
    (r_ID rule) (ruleRevision rule) EvaluationNoData observedAt None (expectationForNoData rule) 0
    (requiredBreaches rule) 0 0 (str "no matching series returned by the tenant-scoped metric source") ∅)) en.

(** A restored series of the rule that no live state owns. *)
Definition isStale (rule : Rule) (en : Engine) (key : gostring) : bool :=
  HasPrefix key (r_ID rule ++ str "|") &&
  negb match states en !! key with Some st => firing st || (0 <? breachCount st) | None => false end.

Definition staleItem (rule : Rule) (en : Engine) (key : gostring) : gostring * labels_t * gostring :=
  match states en !! key with
  | Some st => (key, labels st, if bool_decide (lastReason st = []) then staleTrapReason else lastReason st)
  | None => (key, labelsFromStateKey key (r_ID rule ++ str "|"), staleTrapReason)
  end.

Definition resolveStale (rule : Rule) (item : gostring * labels_t * gostring) (en : Engine) : Alert * Engine :=
  let '(key, l, reason) := item in
  let '(a, en) := alert rule (mkSample l (f64 0) []) StateResolved reason en in
  let en := recordEvaluation (Some (mkReceipt None EvaluationReceiptVersion (evaluationFingerprint (r_ID rule) l)
    (r_ID rule) (ruleRevision rule) EvaluationResolved (a_At a) None
    (mkExpectation Threshold (Some GTE) (Some (f64 1)) None None None None) 0 (requiredBreaches rule) 0 0 reason
    (receiptLabels l))) en in
  let en := deliver rule a en in
  (a, emit (has_onResolve wired) (OnResolve key) en).

Fixpoint resolveAll (rule : Rule) (due : list (gostring * labels_t * gostring)) (en : Engine) : list Alert * Engine :=
  match due with
  | [] => ([], en)
  | d :: due =>
      let '(a, en) := resolveStale rule d en in
      let '(l, en) := resolveAll rule due en in
      (a :: l, en)
  end.

Definition resolveRestoredTraps (rule : Rule) (en : Engine) : list Alert * Engine :=
  if negb (bool_decide (r_Type rule = Trap)) then ([], en) else
  let keys := List.filter (isStale rule en) (merge_sort bytes_le (map_to_list (restoredNotify en)).*1) in
  let due := map (staleItem rule en) keys in
  let en := en <| restoredNotify := foldl (λ m k, delete k m) (restoredNotify en) keys |>
               <| restored := foldl (λ m k, delete k m) (restored en) keys |> in
  resolveAll rule due en.

(** What the loop of Evaluate does with the outcome of a sample. *)
Definition actOn (rule : Rule) (o : outcome) (en : Engine) : Engine :=
  let en := recordEvaluation (o_receipt o) en in
  match o_acted o with
  | None => en
  | Some a =>
      let en := deliver rule a en in
      match o_pending o with
      | Some (key, ns) => emit (has_onNotify wired) (OnNotify key ns) en
      | None => en
      end
  end.

Fixpoint evalSamples (rule : Rule) (l : list Sample) (selection : option TagSelectionReceipt) (en : Engine)
    : list Alert * Engine :=
  match l with
  | [] => ([], en)
  | s :: l =>
      let '(o, en) := evalSample rule s selection en in
      let en := actOn rule o en in
      let '(acted, en) := evalSamples rule l selection en in
      (option_list (o_acted o) ++ acted, en)
  end.

Definition Evaluate (rule : Rule) (en : Engine) : (engine_error + list Alert) * Engine :=
  if negb (r_Enabled rule) then (inr [], en) else
  match samples rule en with
  | (inl e, en) => (inl e, en)
  | (inr (l, selection), en) =>
      if bool_decide (length l = 0%nat) then
        let '(acted, en) := resolveRestoredTraps rule (recordNoData rule selection en) in (inr acted, en)
      else
        let en := en <| noDataRules := delete (r_ID rule) (noDataRules en) |> in
        let '(acted, en) := evalSamples rule l selection en in
        let '(closed, en) := resolveRestoredTraps rule en in
        (inr (acted ++ closed), en)
  end.

(** Evaluator.Tick: a rule that fails does not stop the others. *)
Definition Tick (rules : engine_error + list Rule) (en : Engine) : option engine_error * Engine :=
  match rules with
  | inl e => (Some ErrRules, en)
  | inr l => (None, foldl (λ en rule, (Evaluate rule en).2) en l)
  end.

(** ** Operator actions and persisted state *)

Definition RestoreOps (ops : gmap gostring RestoredOp) (en : Engine) : Engine :=
  en <| restored := ops ∪ restored en |>.

Definition RestoreNotifications (ns : gmap gostring NotifyState) (en : Engine) : Engine :=
  en <| restoredNotify := ns ∪ restoredNotify en |>.

Definition applyOp (ops : gmap gostring RestoredOp) (key : gostring) (st : seriesState) : seriesState :=
  match ops !! key with
  | None => st <| silencedUntil := 0 |>
  | Some op =>
      let st := st <| silencedUntil := op_SilencedUntil op |> in
      if negb (bool_decide (op_AckedBy op = [])) && bool_decide (ackedBy st = [])
      then st <| ackedBy := op_AckedBy op |> <| ackedAt := op_AckedAt op |> else st
  end.

Definition ApplyOps (ops : gmap gostring RestoredOp) (en : Engine) : Engine :=
  let en := en <| states := map_imap (λ key st, Some (applyOp ops key st)) (states en) |> in
  en <| restored := filter (λ '(fp, _), states en !! fp = None) ops ∪ restored en |>.

Definition MaxSilence : Z := 7 * 24 * Hour.

Record ActiveAlert := mkActive {
  v_Fingerprint : gostring; v_EvaluationFingerprint : gostring; v_RuleID : gostring; v_RuleName : gostring;
  v_Severity : Severity; v_Metric : gostring; v_Labels : labels_t; v_Value : float64; v_Reason : gostring;
  v_Since : Z; v_LastSeenAt : Z; v_SilencedUntil : option Z; v_AckedBy : gostring; v_AckedAt : option Z }.

Definition snapshotLocked (key : gostring) (st : seriesState) (en : Engine) : ActiveAlert * Engine :=
  let '(now, en) := readClock en in
  (mkActive key (evaluationFingerprint (ruleID st) (labels st)) (ruleID st) (ruleName st) (severity st) (metric st)
     (labels st) (lastValue st) (lastReason st) (since st) (lastSeen st)
     (if now <? silencedUntil st then Some (silencedUntil st) else None)
     (if bool_decide (ackedBy st = []) then [] else ackedBy st)
     (if bool_decide (ackedBy st = []) then None else Some (ackedAt st)), en).

Definition active_le (a b : ActiveAlert) : Prop :=
  (if negb (v_Since a =? v_Since b) then v_Since b <? v_Since a
   else bytes_leb (v_Fingerprint a) (v_Fingerprint b)) = true.
#[local] Instance active_le_dec : RelDecision active_le := λ a b, decide (_ = true).

(** The firing series in range order [l], each rendered with its own clock reading. *)
Fixpoint snapshots (l : list (gostring * seriesState)) (en : Engine) : list ActiveAlert * Engine :=
  match l with
  | [] => ([], en)
  | (key, st) :: l =>
      if negb (firing st) then snapshots l en else
      let '(a, en) := snapshotLocked key st en in
      let '(out, en) := snapshots l en in
      (a :: out, en)
  end.

Definition Active (RangeStates : gmap gostring seriesState → list (gostring * seriesState)) (en : Engine)
    : list ActiveAlert * Engine :=
  let '(out, en) := snapshots (RangeStates (states en)) en in
  (merge_sort active_le out, en).

Definition Silence (key : gostring) (d : Z) (en : Engine) : (engine_error + ActiveAlert) * Engine :=
  if (d <? 0) || (MaxSilence <? d) then (inl ErrSilenceRange, en) else
  match states en !! key with
  | Some st =>
      if negb (firing st) then (inl ErrNotActive, en) else
      let '(until, en) := if d =? 0 then (0, en) else let '(now, en) := readClock en in (now + d, en) in
      let st := st <| silencedUntil := until |> in
      let '(a, en) := snapshotLocked key st (en <| states := <[key := st]> (states en) |>) in
      (inr a, en)
  | None => (inl ErrNotActive, en)
  end.

Definition Acknowledge (key by_ : gostring) (en : Engine) : (engine_error + ActiveAlert) * Engine :=
  let by_ := if bool_decide (by_ = []) then str "unknown" else by_ in
  match states en !! key with
  | Some st =>
      if negb (firing st) then (inl ErrNotActive, en) else
      let '(now, en) := readClock en in
      let st := st <| ackedBy := by_ |> <| ackedAt := now |> in
      let '(a, en) := snapshotLocked key st (en <| states := <[key := st]> (states en) |>) in
      (inr a, en)
  | None => (inl ErrNotActive, en)
  end.

(** ** Runs *)

Inductive op :=
| OEvaluate (rule : Rule)
| OSilence (key : gostring) (d : Z)
| OAcknowledge (key by_ : gostring)
| OApplyOps (ops : gmap gostring RestoredOp)
| ORestoreOps (ops : gmap gostring RestoredOp)
| ORestoreNotifications (ns : gmap gostring NotifyState)
| OUpsertWindow (w : MaintenanceWindow)
| ODeleteWindow (id : gostring)
| OReplaceWindows (windows : list MaintenanceWindow).

Definition exec (o : op) (en : Engine) : Engine :=
  match o with
  | OEvaluate rule => (Evaluate rule en).2
  | OSilence key d => (Silence key d en).2
  | OAcknowledge key by_ => (Acknowledge key by_ en).2
  | OApplyOps ops => ApplyOps ops en
  | ORestoreOps ops => RestoreOps ops en
  | ORestoreNotifications ns => RestoreNotifications ns en
  | OUpsertWindow w =>
      let '(now, en) := readClock en in
      en <| maintenance := (UpsertMaintenanceWindow now w (maintenance en)).2 |>
  | ODeleteWindow id => en <| maintenance := (DeleteMaintenanceWindow id (maintenance en)).2 |>
  | OReplaceWindows windows => en <| maintenance := ReplaceMaintenanceWindows windows |>
  end.

Definition run (os : list op) (en : Engine) : Engine := foldl (λ en o, exec o en) en os.

(** ** The notification timeline of a series *)

(** What the persistence hooks saw of a series: the row of each firing notification, and
    [None] for the end of an episode. *)
Definition timeline (key : gostring) (log : list effect) : list (option NotifyState) :=
  flat_map (λ e, match e with
                 | OnNotify k ns => if bool_decide (k = key) then [Some ns] else []
                 | OnResolve k => if bool_decide (k = key) then [None] else []
                 | _ => []
                 end) log.

(** Two notifications in a row are at least [g] apart; with no gap they never follow each
    other. *)
Definition gap_ok (g : option Z) (a b : option NotifyState) : Prop :=
  match a, b with
  | Some n0, Some n => match g with Some d => d ≤ satSub (LastNotified n) (LastNotified n0) | None => False end
  | _, _ => True
  end.

Definition paced (g : option Z) (l : list (option NotifyState)) : Prop :=
  ∀ i a b, l !! i = Some a → l !! S i = Some b → gap_ok g a b.

(** The rule can have a series of that key: the key is of the rule and some labels. *)
Definition reports (rule : Rule) (key : gostring) : Prop := ∃ l, stateKey (r_ID rule) l = key.

(** The renotify settings a gap allows to the rules of a series; other rules are free. *)
Definition rule_gap (g : option Z) (key : gostring) (o : op) : Prop :=
  match o with
  | OEvaluate rule =>
      reports rule key →
      r_RenotifySeconds rule ≤ 0 ∨
      match g with Some d => d ≤ i64 (r_RenotifySeconds rule * Second) | None => False end
  | _ => True
  end.

(** Identifiers free of the separator: a series has one rule. *)
Lemma reports_own rule id l : x7c ∉ id → x7c ∉ r_ID rule → reports rule (stateKey id l) → r_ID rule = id.
Proof using Type.
  intros H1 H2 [l' E]. unfold stateKey in E. revert id H1 E. induction (r_ID rule) as [|c r IH]; intros [|d id] H1 E; cbn in E; [done| | |].
  - injection E as <- _. destruct H1. by left.
  - injection E as -> _. destruct H2. by left.
  - injection E as <- E. f_equal. apply IH; [|intros Hx; apply H1; by right|done]. intros Hx. apply H2. by right.
Qed.

(** ** Lemmas: one series *)

Lemma timeline_app key l l' : timeline key (l ++ l') = timeline key l ++ timeline key l'.
Proof. unfold timeline. by rewrite flat_map_app. Qed.

Lemma paced_snoc g l x :
  paced g l → (∀ a, last l = Some a → gap_ok g a x) → paced g (l ++ [x]).
Proof.
  intros Hp Hx i a b Ha Hb. rewrite lookup_snoc_Some in Hb. destruct Hb as [[Hi Hb]|[Hi <-]].
  - apply (Hp i); [|done]. by rewrite lookup_app_l in Ha by lia.
  - apply Hx. rewrite last_lookup, <- Hi. cbn. by rewrite lookup_app_l in Ha by lia.
Qed.

(** The decision time of a sample that is acted on. *)
Inductive acts (key : gostring) (rule : Rule) (st st' : seriesState) (log log' : list effect) : option Alert → Prop :=
| acts_none :
    log' = log → (firing st = true → firing st' = true ∧ lastNotified st' = lastNotified st ∧ since st' = since st) →
    acts key rule st st' log log' None
| acts_fire a n :
    a_State a = StateFiring → log' = log → firing st' = true → lastNotified st' = clock n →
    (firing st = true → lastNotified st ≠ 0 →
     0 < r_RenotifySeconds rule ∧ i64 (r_RenotifySeconds rule * Second) <= satSub (clock n) (lastNotified st)) →
    acts key rule st st' log log' (Some a)
| acts_resolve a :
    a_State a = StateResolved → log' = log ++ (if has_onResolve wired then [OnResolve key] else []) →
    firing st = true → firing st' = false →
    acts key rule st st' log log' (Some a).

Lemma rehydrate_frame key now st en :
  states (rehydrate key now st en).2 = states en ∧ en_log (rehydrate key now st en).2 = en_log en ∧
  maintenance (rehydrate key now st en).2 = maintenance en ∧
  en_readings (rehydrate key now st en).2 = en_readings en ∧
  firing (rehydrate key now st en).1 = firing st.
Proof. unfold rehydrate. repeat case_match; simplify_eq; cbn; done. Qed.

(** The rehydrated series and engine at the decision of [fire]. *)
Definition firstState (key : gostring) (now : Z) (st : seriesState) (en : Engine) : seriesState * Engine :=
  if negb (firing st) then rehydrate key now (st <| firing := true |>) en else (st <| firing := true |>, en).

Lemma firstState_frame key now st en :
  let r := firstState key now st en in
  states r.2 = states en ∧ en_log r.2 = en_log en ∧ maintenance r.2 = maintenance en ∧
  en_readings r.2 = en_readings en ∧ firing r.1 = true ∧
  (firing st = true → lastNotified r.1 = lastNotified st ∧ since r.1 = since st).
Proof.
  unfold firstState. destruct (firing st) eqn:E; cbn [negb]; [done|].
  destruct (rehydrate_frame key now (st <| firing := true |>) en) as (? & ? & ? & ? & ?). done.
Qed.

(** The decision a firing series is subject to. *)
Definition mayNotify (rule : Rule) (now : Z) (st : seriesState) : bool :=
  (lastNotified st =? 0) ||
  ((0 <? r_RenotifySeconds rule) && (i64 (r_RenotifySeconds rule * Second) <=? satSub now (lastNotified st))).

Lemma fire_eq key rule s reason st en :
  let now := clock (en_readings en) in
  let st1 := (firstState key now st (readClock en).2).1 in
  let en1 := (firstState key now st (readClock en).2).2 in
  let first := negb (firing st) in
  fire key rule s reason st en =
  match activeMaintenanceLocked RangeWindows (en_readings en1) rule (s_Labels s) now (maintenance en1) with
  | Some occ =>
      (None, steady first, (if silencedUntil st1 <? p_EndsAt occ then st1 <| silencedUntil := p_EndsAt occ |> else st1), en1)
  | None =>
      if now <? silencedUntil st1 then (None, steady first, st1, en1)
      else if mayNotify rule now st1 then
        (Some (alert rule s StateFiring reason en1).1, steady first, st1 <| lastNotified := now |>,
         (alert rule s StateFiring reason en1).2)
      else (None, EvaluationSteady, st1, en1)
  end.
Proof.
  cbv zeta. unfold fire, firstState, mayNotify. cbn [readClock fst snd].
  destruct (firing st); cbn [negb].
  - destruct (activeMaintenanceLocked _ _ _ _ _ _); [done|]. destruct (_ <? _); [done|]. by destruct (_ || _).
  - destruct (rehydrate _ _ _ _) as [st1 en1]. cbn [fst snd].
    destruct (activeMaintenanceLocked _ _ _ _ _ _); [done|]. destruct (_ <? _); [done|]. by destruct (_ || _).
Qed.

Lemma transition_acts key rule s d st en :
  let '(acted, _, st', en') := transition key rule s d st en in
  states en' = states en ∧ maintenance en' = maintenance en ∧
  acts key rule st st' (en_log en) (en_log en') acted.
Proof.
  unfold transition. destruct (d_warming d); [by split_and!; [| |constructor]|].
  destruct (d_breached d).
  - destruct (_ <? _); [by split_and!; [| |constructor]|]. rewrite fire_eq. cbv zeta.
    set (st0 := st <| breachCount := breachCount st + 1 |>). set (now := clock (en_readings en)).
    destruct (firstState_frame key now st0 (readClock en).2) as (Hs & Hl & Hm & Hr & Hf & Hn).
    destruct (firstState key now st0 (readClock en).2) as [st1 en1]. cbn [fst snd] in *.
    destruct (activeMaintenanceLocked _ _ _ _ _ _) as [occ|].
    { split_and!; [done|done|]. constructor; [done|]. intros E. specialize (Hn E) as [Hn Hn'].
      destruct (_ <? _); done. }
    destruct (now <? silencedUntil st1); [split_and!; [done|done|]; constructor; [done|]; intros E; by destruct (Hn E)|].
    destruct (mayNotify rule now st1) eqn:Em.
    + split_and!; [done|done|]. eapply (acts_fire _ _ _ _ _ _ _ (en_readings en)); try done.
      intros E Hz. specialize (Hn E) as [Hn _]. unfold mayNotify in Em. rewrite Hn in Em.
      change (lastNotified st0) with (lastNotified st) in Em. rewrite (proj2 (Z.eqb_neq _ _)) in Em by done.
      apply andb_prop in Em as [E1 E2]. zbool. done.
    + split_and!; [done|done|]. constructor; [done|]. intros E. by destruct (Hn E).
  - cbn [firing update]. destruct (firing st) eqn:Ef.
    + unfold resolve, emit. cbn. destruct (has_onResolve wired) eqn:Ew; cbn.
      * split_and!; [done|done|]. apply acts_resolve; cbn; try done. by rewrite Ew.
      * split_and!; [done|done|]. apply acts_resolve; cbn; try done. by rewrite Ew, app_nil_r.
    + split_and!; [done|done|]. constructor; [done|]. by rewrite Ef.
Qed.

Lemma breached_frame rule s st :
  firing (breached rule s st).2 = firing st ∧ lastNotified (breached rule s st).2 = lastNotified st ∧
  breachCount (breached rule s st).2 = breachCount st ∧ silencedUntil (breached rule s st).2 = silencedUntil st ∧
  since (breached rule s st).2 = since st.
Proof. unfold breached. destruct (r_Type rule); try done. repeat case_match; simplify_eq; done. Qed.

(** What a sample does to its own series, the other series and the log. *)
Lemma evalSample_acts rule s sel en :
  let key := stateKey (r_ID rule) (s_Labels s) in
  let st := stateForLocked rule (s_Labels s) en in
  let '(o, en') := evalSample rule s sel en in
  maintenance en' = maintenance en ∧
  ∃ st', states en' = <[key := st']> (states en) ∧
    acts key rule st st' (en_log en) (en_log en') (o_acted o) ∧
    o_pending o = match o_acted o with
                  | Some a => match a_State a with
                              | StateFiring => Some (key, mkNotify (since st') (lastNotified st'))
                              | StateResolved => None
                              end
                  | None => None
                  end.
Proof.
  cbv zeta. unfold evalSample. set (key := stateKey _ _). set (st := stateForLocked _ _ _).
  destruct (breached_frame rule s st) as (Hf & Hn & _ & _ & Hsi). destruct (breached rule s st) as [d st1]. cbn [snd] in *.
  cbn [readClock]. match goal with |- context [transition key rule s d ?x ?y] => set (st2 := x); set (en2 := y) end.
  pose proof (transition_acts key rule s d st2 en2) as Ht.
  destruct (transition key rule s d st2 en2) as [[[acted state] st3] en3].
  destruct Ht as (Hs & Hm & Ha). cbn [o_acted o_pending].
  split; [done|]. eexists. split; [cbn [states update]; by rewrite Hs|]. split; [|by destruct acted].
  cbn [en_log update]. change (en_log en) with (en_log en2).
  destruct Ha as [Hl H|a n H1 H2 H3 H4 H5|a H1 H2 H3 H4].
  - apply acts_none; [done|]. cbn. rewrite <- Hf, <- Hn, <- Hsi. done.
  - eapply acts_fire; try done. rewrite <- Hf, <- Hn. done.
  - apply acts_resolve; try done. by rewrite <- Hf.
Qed.

(** ** Lemmas: the timeline over runs *)

(** The timeline is paced, and an open episode is a firing series notified when it says. *)
Definition timed (g : option Z) (key : gostring) (en : Engine) : Prop :=
  paced g (timeline key (en_log en)) ∧
  ∀ ns, last (timeline key (en_log en)) = Some (Some ns) →
    LastNotified ns ≠ 0 ∧ ∃ st, states en !! key = Some st ∧ firing st = true ∧ mkNotify (since st) (lastNotified st) = ns.

(** A step that adds nothing to the timeline of [key] and keeps it firing. *)
Definition quiet (key : gostring) (en en' : Engine) : Prop :=
  timeline key (en_log en') = timeline key (en_log en) ∧
  ∀ st, states en !! key = Some st → firing st = true →
    ∃ st', states en' !! key = Some st' ∧ firing st' = true ∧ lastNotified st' = lastNotified st ∧ since st' = since st.

Lemma timed_quiet g key en en' : quiet key en en' → timed g key en → timed g key en'.
Proof.
  intros [Hl Hs] [Hp Ho]. unfold timed. rewrite Hl. split; [done|]. intros t Ht.
  destruct (Ho t Ht) as (Hz & st & Hst & Hf & Hn). split; [done|].
  destruct (Hs st Hst Hf) as (st' & H1 & H2 & H3 & H4). exists st'. rewrite H3, H4. done.
Qed.

Lemma timed_resolved g key en en' :
  timeline key (en_log en') = timeline key (en_log en) ++ [None] → timed g key en → timed g key en'.
Proof.
  intros Hl [Hp _]. unfold timed. rewrite Hl, last_snoc. split; [|done].
  apply paced_snoc; [done|]. intros [t|] _; done.
Qed.

Lemma quiet_same key en en' : states en' = states en → timeline key (en_log en') = timeline key (en_log en) → quiet key en en'.
Proof. intros Hs Hl. split; [done|]. rewrite Hs. eauto. Qed.

Definition silent (e : effect) : Prop :=
  match e with OnNotify _ _ | OnResolve _ => False | _ => True end.

Lemma emit_timeline key b e en :
  timeline key (en_log (emit b e en)) = timeline key (en_log en) ++ (if b then timeline key [e] else []).
Proof. unfold emit. destruct b; [apply timeline_app|by rewrite app_nil_r]. Qed.

Lemma emit_silent key b e en : silent e → timeline key (en_log (emit b e en)) = timeline key (en_log en).
Proof. intros H. rewrite emit_timeline. destruct b, e; cbn; rewrite ?app_nil_r; done. Qed.

Lemma emit_states b e en : states (emit b e en) = states en.
Proof. by destruct b. Qed.

Lemma record_timeline key r en : timeline key (en_log (recordEvaluation r en)) = timeline key (en_log en).
Proof. destruct r; [|done]. by apply emit_silent. Qed.

Lemma record_states r en : states (recordEvaluation r en) = states en.
Proof. destruct r; [|done]. apply emit_states. Qed.

Lemma deliver_timeline key rule a en : timeline key (en_log (deliver rule a en)) = timeline key (en_log en).
Proof. unfold deliver. by rewrite !emit_silent. Qed.

Lemma deliver_states rule a en : states (deliver rule a en) = states en.
Proof. unfold deliver. by rewrite !emit_states. Qed.

Lemma actOn_states rule o en : states (actOn rule o en) = states en.
Proof.
  unfold actOn. destruct (o_acted o); [destruct (o_pending o) as [[]|]|];
    by rewrite ?emit_states, ?deliver_states, record_states.
Qed.

Lemma actOn_timeline key rule o en :
  timeline key (en_log (actOn rule o en)) = timeline key (en_log en) ++
    match o_acted o, o_pending o with
    | Some _, Some (k, ns) => if has_onNotify wired && bool_decide (k = key) then [Some ns] else []
    | _, _ => []
    end.
Proof.
  unfold actOn. destruct (o_acted o); [destruct (o_pending o) as [[k ns]|]|];
    rewrite ?emit_timeline, ?deliver_timeline, ?record_timeline, ?app_nil_r; try done.
  destruct (has_onNotify wired); cbn; [|done]. by destruct (bool_decide (k = key)).
Qed.

Lemma stateFor_known rule l en st :
  states en !! stateKey (r_ID rule) l = Some st → stateForLocked rule l en = st.
Proof. unfold stateForLocked. by intros ->. Qed.

(** Reading samples only consumes clock readings. *)
Definition quiet_read (en en' : Engine) : Prop := states en' = states en ∧ en_log en' = en_log en.

Section timeline.
Context (clock_set : ∀ n, clock n ≠ 0).
Context (wired_notify : has_onNotify wired = true) (wired_resolve : has_onResolve wired = true).

Lemma sample_timed g rule s sel en key :
  rule_gap g key (OEvaluate rule) → timed g key en →
  timed g key (actOn rule (evalSample rule s sel en).1 (evalSample rule s sel en).2).
Proof.
  intros Hg Hj. pose proof (evalSample_acts rule s sel en) as He. cbv zeta in He.
  destruct (evalSample rule s sel en) as [o en']. cbn [fst snd].
  set (k := stateKey _ _) in *. set (st := stateForLocked _ _ _) in *.
  destruct He as (_ & st' & Hs & Ha & Hp). pose proof (actOn_timeline key rule o en') as Ht.
  rewrite Hp in Ht. destruct Ha as [Hl H|a n H1 Hl H3 H4 H5|a H1 Hl H3 H4]; rewrite ?H1 in Ht.
  - apply (timed_quiet _ _ en); [|done]. split; [by rewrite Ht, Hl, app_nil_r|]. rewrite actOn_states, Hs.
    intros st0 Hst0 Hf. destruct (decide (k = key)) as [<-|Hne]; [|rewrite lookup_insert_ne by done; eauto].
    rewrite lookup_insert_eq. assert (st = st0) as <- by (by apply stateFor_known).
    exists st'. split; [done|]. by apply H.
  - rewrite wired_notify in Ht. cbn [andb] in Ht. destruct (bool_decide_reflect (k = key)) as [<-|Hne].
    + destruct Hj as [Hpa Ho]. unfold timed. rewrite Ht, Hl, last_snoc, actOn_states, Hs. split.
      * apply paced_snoc; [done|]. intros [n0|] Hlast; [|done]. destruct (Ho n0 Hlast) as (Hz & st0 & Hst0 & Hf0 & <-). cbn in Hz.
        assert (st = st0) as E by (by apply stateFor_known).
        rewrite <- E in *. destruct (H5 Hf0 Hz) as [Hr Hgap].
        destruct Hg as [Hg|Hg]; [by exists (s_Labels s)|lia|]. cbn. destruct g as [d|]; [|done].
        rewrite H4. lia.
      * intros ns [= <-]. cbn. rewrite H4. split; [done|]. exists st'. by rewrite lookup_insert_eq, H4.
    + apply (timed_quiet _ _ en); [|done]. split; [by rewrite Ht, Hl, app_nil_r|]. rewrite actOn_states, Hs.
      intros st0 Hst0 Hf. rewrite lookup_insert_ne by done. eauto.
  - rewrite wired_resolve in Hl. rewrite Hl, timeline_app, app_nil_r in Ht. cbn in Ht.
    destruct (bool_decide_reflect (k = key)) as [<-|Hne]; rewrite ?app_nil_r in Ht.
    + by apply (timed_resolved _ _ en).
    + apply (timed_quiet _ _ en); [|done]. split; [by rewrite Ht|]. rewrite actOn_states, Hs.
      intros st0 Hst0 Hf. rewrite lookup_insert_ne by done. eauto.
Qed.

Lemma samples_timed g rule sel key l : ∀ en,
  rule_gap g key (OEvaluate rule) → timed g key en → timed g key (evalSamples rule l sel en).2.
Proof.
  induction l as [|s l IH]; intros en Hg Hj; [done|]. cbn [evalSamples].
  pose proof (sample_timed g rule s sel en key Hg Hj) as H1. destruct (evalSample rule s sel en) as [o en']. cbn [fst snd] in H1.
  specialize (IH _ Hg H1). by destruct (evalSamples rule l sel (actOn rule o en')).
Qed.

Lemma resolveStale_shape rule k l reason en :
  ∃ a r en0, (resolveStale rule (k, l, reason) en).2 =
      emit (has_onResolve wired) (OnResolve k) (deliver rule a (recordEvaluation r en0)) ∧
    states en0 = states en ∧ en_log en0 = en_log en.
Proof. do 3 eexists. split; [reflexivity|done]. Qed.

Lemma stale_timed g rule key due : ∀ en, timed g key en → timed g key (resolveAll rule due en).2.
Proof.
  induction due as [|[[k l] reason] due IH]; intros en Hj; [done|]. cbn [resolveAll].
  destruct (resolveStale_shape rule k l reason en) as (a & r & en0 & E & Hs & Hl).
  rewrite wired_resolve in E. set (en1 := deliver rule a (recordEvaluation r en0)) in *.
  assert (timed g key (resolveStale rule (k, l, reason) en).2) as H1.
  { rewrite E. assert (quiet key en en1) as Hq.
    { apply quiet_same; unfold en1; [by rewrite deliver_states, record_states|].
      by rewrite deliver_timeline, record_timeline, Hl. }
    apply (timed_quiet _ _ _ _ Hq) in Hj. destruct (decide (k = key)) as [->|Hne].
    - apply (timed_resolved _ _ en1); [|done]. rewrite emit_timeline. cbn. by rewrite bool_decide_true.
    - apply (timed_quiet _ _ en1); [|done]. apply quiet_same; [done|].
      rewrite emit_timeline. cbn. by rewrite bool_decide_false, app_nil_r. }
  destruct (resolveStale rule (k, l, reason) en) as [a' en'].
  specialize (IH en' H1). by destruct (resolveAll rule due en').
Qed.

Lemma restored_timed g rule key en : timed g key en → timed g key (resolveRestoredTraps rule en).2.
Proof.
  intros Hj. unfold resolveRestoredTraps. destruct (negb _); [done|]. apply stale_timed.
  by apply (timed_quiet _ _ en); [apply quiet_same|].
Qed.

Lemma samples_read rule en : quiet_read en (samples rule en).2.
Proof.
  unfold quiet_read, samples. destruct (r_HasTagFilter rule).
  - destruct (bool_decide _); [done|]. destruct source as [[cur [c|]]|]; [|done..].
    destruct (c _ _) as [|[]]; [done|]. destruct (ctxErr _); [done|]. by destruct (negb _).
  - destruct (bool_decide _).
    + destruct traps as [tr|]; [|done]. destruct (r_Trap rule); [|done]. cbn. by destruct (tr _ _ _).
    + destruct source as [src|]; [|done]. by destruct (Current _ _ _ _).
Qed.

Lemma evaluate_timed g rule key en :
  rule_gap g key (OEvaluate rule) → timed g key en → timed g key (Evaluate rule en).2.
Proof.
  intros Hg Hj. unfold Evaluate. destruct (negb _); [done|].
  destruct (samples_read rule en) as [Hs Hl]. destruct (samples rule en) as [r en1]. cbn [snd] in *.
  assert (timed g key en1) as Hj1 by (apply (timed_quiet _ _ en); [apply quiet_same; congruence|done]).
  destruct r as [e|[l sel]]; [done|]. destruct (bool_decide _).
  - assert (timed g key (recordNoData rule sel en1)) as H2.
    { unfold recordNoData. destruct (bool_decide _); [done|]. cbn [readClock].
      apply (timed_quiet _ _ en1); [|done]. apply quiet_same; [by rewrite record_states|by rewrite record_timeline]. }
    apply (restored_timed _ rule) in H2. by destruct (resolveRestoredTraps _ _).
  - match goal with |- context [evalSamples rule l sel ?x] => set (en2 := x) end.
    assert (timed g key en2) as H2 by (apply (timed_quiet _ _ en1); [by apply quiet_same|done]).
    apply (samples_timed g rule sel key l) in H2; [|done]. destruct (evalSamples rule l sel en2) as [acted en3].
    cbn [snd] in H2. apply (restored_timed _ rule) in H2. by destruct (resolveRestoredTraps rule en3).
Qed.

(** Operator actions on a state that keep its firing flag and notification time. *)
Lemma touch_quiet key k st st' en en' :
  states en !! k = Some st → firing st' = firing st → lastNotified st' = lastNotified st → since st' = since st →
  states en' = <[k := st']> (states en) → en_log en' = en_log en → quiet key en en'.
Proof.
  intros Hk Hf Hn Hsi Hs Hl. split; [by rewrite Hl|]. rewrite Hs. intros st0 H0 Hf0.
  destruct (decide (k = key)) as [->|Hne]; [|rewrite lookup_insert_ne by done; eauto].
  rewrite lookup_insert_eq. exists st'. rewrite Hk in H0. injection H0 as <-. split_and!; congruence.
Qed.

Lemma exec_timed g key o en : rule_gap g key o → timed g key en → timed g key (exec o en).
Proof.
  destruct o as [rule|k d|k b|ops|ops|ns|w|id|ws]; cbn [exec]; intros Hg Hj; [by apply evaluate_timed|..];
    try (by apply (timed_quiet _ _ en); [apply quiet_same|]).
  - unfold Silence. destruct (_ || _); [done|]. destruct (states en !! k) as [st|] eqn:E; [|done].
    destruct (negb (firing st)) eqn:Ef; [done|]. destruct (d =? 0); cbn;
      (eapply timed_quiet; [|exact Hj]);
      (eapply (touch_quiet key k st _ en _ E); [| | |reflexivity|reflexivity]; done).
  - unfold Acknowledge. destruct (states en !! k) as [st|] eqn:E; [|done].
    destruct (negb (firing st)) eqn:Ef; [done|]. cbn. eapply timed_quiet; [|exact Hj].
    eapply (touch_quiet key k st _ en _ E); cycle 3; [reflexivity|reflexivity|done|done|done].
  - apply (timed_quiet _ _ en); [|done]. split; [done|]. intros st Hst Hf. unfold ApplyOps. cbn.
    exists (applyOp ops key st). rewrite map_lookup_imap, Hst. cbn. split; [done|].
    unfold applyOp. repeat case_match; done.
Qed.

Lemma run_timed g key os : ∀ en, Forall (rule_gap g key) os → timed g key en → timed g key (run os en).
Proof.
  induction os as [|o os IH]; intros en Hg Hj; [done|]. apply Forall_cons in Hg as [H1 Hg].
  cbn [run foldl]. apply IH; [done|]. by apply exec_timed.
Qed.

(** C15. Nobody is paged twice for one episode: over any sequence of rule evaluations,
    silences, acknowledgements, reloads of operator and notification state and changes of
    the maintenance windows, two firing notifications of the same series with no
    resolution between them are at least the renotify interval of its rule apart, and
    where that rule asks for no renotification they never follow each other - whatever
    other rules are evaluated in between.  The rule of a series is the one whose identifier
    the series' key starts with (reports_own: the only one, when identifiers are free of the
    separator).  The hooks that record notifications and resolutions are wired, and the
    clock never reads the zero time. *)
Theorem notifications_paced (g : option Z) (key : gostring) (os : list op) :
  Forall (rule_gap g key) os → paced g (timeline key (en_log (run os NewEngine))).
Proof. intros Hg. apply (run_timed g key os NewEngine Hg). split; [intros i a b H; done|done]. Qed.

End timeline.

(** ** Lemmas: a sample as a transition *)

(** The fields of a series the state machine reads. *)
Definition core (st : seriesState) : Z * bool * Z * Z * gostring * Z * Z :=
  (breachCount st, firing st, lastNotified st, silencedUntil st, ackedBy st, ackedAt st, since st).

Lemma breached_core rule s st : core (breached rule s st).2 = core st.
Proof. unfold breached. destruct (r_Type rule); try done. repeat case_match; simplify_eq; done. Qed.

Lemma evalSample_transition rule s sel en :
  let key := stateKey (r_ID rule) (s_Labels s) in
  let st := stateForLocked rule (s_Labels s) en in
  ∃ st2 acted state st3 en3 st4,
    core st2 = core st ∧ core st4 = core st3 ∧
    transition key rule s (breached rule s st).1 st2 (readClock en).2 = (acted, state, st3, en3) ∧
    o_acted (evalSample rule s sel en).1 = acted ∧
    states (evalSample rule s sel en).2 = <[key := st4]> (states en3) ∧
    restoredNotify (evalSample rule s sel en).2 = restoredNotify en3.
Proof.
  cbv zeta. unfold evalSample. set (key := stateKey _ _). set (st := stateForLocked _ _ _).
  pose proof (breached_core rule s st) as Hc. destruct (breached rule s st) as [d st1]. cbn [fst snd] in *.
  cbn [readClock]. match goal with |- context [transition key rule s d ?x ?y] => set (st2 := x); set (en2 := y) end.
  destruct (transition key rule s d st2 en2) as [[[acted state] st3] en3] eqn:Et.
  exists st2, acted, state, st3, en3. eexists. split_and!; [exact Hc| |exact Et|done|reflexivity|done]. done.
Qed.

Lemma actOn_restored rule o en : restoredNotify (actOn rule o en) = restoredNotify en.
Proof. unfold actOn, deliver, recordEvaluation, emit. repeat case_match; done. Qed.

(** The decision of a rule without baseline depends on the sample alone. *)
Definition breaching (rule : Rule) (s : Sample) : bool := d_breached (breached rule s zeroState).1.

Lemma breached_plain rule s st :
  r_Type rule ≠ Baseline → d_warming (breached rule s st).1 = false ∧ d_breached (breached rule s st).1 = breaching rule s.
Proof. intros H. unfold breaching, breached. by destruct (r_Type rule). Qed.

Lemma stateFor_fresh rule l en :
  states en !! stateKey (r_ID rule) l = None → core (stateForLocked rule l en) = core zeroState.
Proof. intros H. unfold stateForLocked. rewrite H. by destruct (bool_decide _). Qed.

Lemma requiredBreaches_pos rule : 1 ≤ requiredBreaches rule.
Proof. unfold requiredBreaches. destruct (_ <? _) eqn:E; zbool; lia. Qed.

Lemma fire_core key rule s reason st en :
  let '(_, _, st', _) := fire key rule s reason st en in firing st' = true ∧ breachCount st' = breachCount st.
Proof.
  rewrite fire_eq. cbv zeta. unfold firstState.
  assert (∀ now, breachCount (rehydrate key now (st <| firing := true |>) (readClock en).2).1 = breachCount st) as Hb.
  { intros. unfold rehydrate. repeat case_match; simplify_eq; done. }
  pose proof (λ now, rehydrate_frame key now (st <| firing := true |>) (readClock en).2) as Hr.
  destruct (firing st); cbn [negb fst snd]; repeat case_match; simplify_eq; cbn; try done;
    split; try apply Hb; apply Hr.
Qed.

(** The counters of a series after one more sample. *)
Definition tracks (rule : Rule) (st : seriesState) (n : Z) : Prop :=
  breachCount st = n ∧ firing st = (requiredBreaches rule <=? n) ∧ 0 ≤ n.

Definition nextCount (rule : Rule) (n : Z) (s : Sample) : Z := if breaching rule s then n + 1 else 0.

Lemma core_eqs st st' :
  core st = core st' → breachCount st = breachCount st' ∧ firing st = firing st' ∧ lastNotified st = lastNotified st' ∧
  silencedUntil st = silencedUntil st' ∧ ackedBy st = ackedBy st' ∧ ackedAt st = ackedAt st' ∧ since st = since st'.
Proof. unfold core. intros E. by simplify_eq. Qed.

Lemma core_fields st st' :
  core st = core st' → breachCount st = breachCount st' ∧ firing st = firing st' ∧
  lastNotified st = lastNotified st' ∧ silencedUntil st = silencedUntil st'.
Proof. unfold core. intros E. by simplify_eq. Qed.

Lemma transition_tracks key rule s d st en n :
  d_warming d = false → d_breached d = breaching rule s → tracks rule st n →
  let '(acted, _, st', _) := transition key rule s d st en in
  tracks rule st' (nextCount rule n s) ∧
  (breaching rule s = false → if firing st then ∃ a, acted = Some a ∧ a_State a = StateResolved else acted = None) ∧
  (breaching rule s = true → requiredBreaches rule ≤ n + 1 ∨ acted = None).
Proof.
  intros Hw Hb (Hn & Hf & H0). unfold transition. fold (requiredBreaches rule). rewrite Hw, Hb. unfold nextCount.
  pose proof (requiredBreaches_pos rule) as Hp. destruct (breaching rule s) eqn:Es.
  - cbn [breachCount update]. rewrite Hn. destruct (n + 1 <? requiredBreaches rule) eqn:El; zbool.
    + split_and!; [|done|by right]. split_and!; cbn; [done| |lia]. rewrite Hf.
      rewrite !(proj2 (Z.leb_gt _ _)) by lia. done.
    + pose proof (fire_core key rule s (d_reason d) (st <| breachCount := n + 1 |>) en) as Hc.
      destruct (fire _ _ _ _ _ _) as [[[acted state] st'] en']. destruct Hc as [Hc1 Hc2].
      split_and!; [|done|left; lia]. split_and!; [done| |lia]. rewrite Hc1. symmetry. by apply Z.leb_le.
  - cbn [firing update]. destruct (firing st) eqn:Ef.
    + unfold resolve, emit, alert. cbn. split_and!; [|intros _; by eexists|done].
      split_and!; [done| |lia]. symmetry. apply Z.leb_gt. lia.
    + split_and!; [|done|done]. split_and!; [done| |lia]. cbn. rewrite Ef. symmetry. apply Z.leb_gt. lia.
Qed.

Lemma tracks_core rule st st' n : core st = core st' → tracks rule st n → tracks rule st' n.
Proof. intros (E1 & E2 & _)%core_fields. unfold tracks. by rewrite E1, E2. Qed.

(** One sample of a series that has seen [n] breaches in a row. *)
Lemma sample_tracks rule s sel en n :
  r_Type rule ≠ Baseline → tracks rule (stateForLocked rule (s_Labels s) en) n →
  let '(o, en') := evalSample rule s sel en in
  (∃ st', states (actOn rule o en') !! stateKey (r_ID rule) (s_Labels s) = Some st' ∧
     tracks rule st' (nextCount rule n s)) ∧
  (breaching rule s = false →
     if requiredBreaches rule <=? n then ∃ a, o_acted o = Some a ∧ a_State a = StateResolved else o_acted o = None) ∧
  (breaching rule s = true → requiredBreaches rule ≤ n + 1 ∨ o_acted o = None).
Proof.
  intros Ht Hn. destruct (evalSample_transition rule s sel en) as (st2 & acted & state & st3 & en3 & st4 & H2 & H4 & E & Ha & Hs & _).
  destruct (breached_plain rule s (stateForLocked rule (s_Labels s) en) Ht) as [Hw Hb].
  assert (tracks rule st2 n) as Hn2 by (by eapply tracks_core).
  pose proof (transition_tracks (stateKey (r_ID rule) (s_Labels s)) rule s _ st2 (readClock en).2 n Hw Hb Hn2) as Hx.
  rewrite E in Hx. destruct Hx as (Hx1 & Hx2 & Hx3). destruct (evalSample rule s sel en) as [o en']. cbn [fst snd] in *.
  split_and!.
  - exists st4. rewrite actOn_states, Hs, lookup_insert_eq. split; [done|]. by eapply tracks_core.
  - intros Hbr. specialize (Hx2 Hbr). destruct Hn2 as (_ & Hf & _). rewrite Hf in Hx2. by rewrite Ha.
  - by rewrite Ha.
Qed.

(** Debounce: a rule without baseline, evaluated on any non-empty sequence of samples
    of one series from a fresh state, leaves the series firing exactly when the samples
    at the end of the sequence that breach in a row are at least the required number, and
    its counter is their number; the next sample fires a notification only when it
    completes that many breaches in a row, and a recovering sample sends a resolution
    exactly when the series was firing. *)
Theorem debounce_exact (rule : Rule) (l : labels_t) (ss : list Sample) (s : Sample)
    (sel : option TagSelectionReceipt) (en : Engine) :
  let key := stateKey (r_ID rule) l in
  let en' := (evalSamples rule ss sel en).2 in
  let n := foldl (nextCount rule) 0 ss in
  let acted := o_acted (evalSample rule s sel en').1 in
  r_Type rule ≠ Baseline → Forall (λ s, s_Labels s = l) (ss ++ [s]) → states en !! key = None → ss ≠ [] →
  (∃ st, states en' !! key = Some st ∧ breachCount st = n ∧ firing st = (requiredBreaches rule <=? n)) ∧
  (breaching rule s = true → is_Some acted → requiredBreaches rule ≤ n + 1) ∧
  (breaching rule s = false →
    if requiredBreaches rule <=? n then ∃ a, acted = Some a ∧ a_State a = StateResolved else acted = None).
Proof.
  intros key en' n acted Ht Hl Hfresh Hne. apply Forall_app in Hl as [Hl Hs]. apply Forall_cons in Hs as [Hs _].
  assert (∃ st, states en' !! key = Some st ∧ tracks rule st n) as (st & Hst & Hn).
  { assert (H0 : tracks rule (stateForLocked rule l en) 0).
    { eapply tracks_core; [symmetry; by apply stateFor_fresh|]. split_and!; [done| |lia].
      symmetry. apply Z.leb_gt. pose proof (requiredBreaches_pos rule). lia. }
    subst en' n. clear acted Hfresh. revert en H0 Hne Hl. generalize 0.
    induction ss as [|s0 ss IH]; intros k en H0 Hne Hl; [done|]. apply Forall_cons in Hl as [Hl0 Hl].
    cbn [evalSamples foldl]. rewrite <- Hl0 in H0.
    pose proof (sample_tracks rule s0 sel en k Ht H0) as Hst. rewrite Hl0 in Hst. fold key in Hst.
    destruct (evalSample rule s0 sel en) as [o en1]. destruct Hst as ((st1 & Hs1 & Hn1) & _).
    destruct ss as [|s1 ss]; [by exists st1|].
    assert (Ex : (let '(a, e) := evalSamples rule (s1 :: ss) sel (actOn rule o en1) in (option_list (o_acted o) ++ a, e)).2
                 = (evalSamples rule (s1 :: ss) sel (actOn rule o en1)).2) by by destruct (evalSamples _ _ _ _).
    rewrite Ex. apply IH; [|done|done]. by rewrite (stateFor_known rule l _ st1). }
  split; [exists st; destruct Hn as (? & ? & _); done|].
  pose proof (sample_tracks rule s sel en' n Ht) as Hx. rewrite Hs in Hx.
  rewrite (stateFor_known rule l en' st Hst) in Hx. specialize (Hx Hn). subst acted.
  destruct (evalSample rule s sel en') as [o en1]. cbn [fst]. destruct Hx as (_ & Hx2 & Hx3). split; [|done].
  intros Hb [a Ha]. destruct (Hx3 Hb) as [|E]; [done|]. congruence.
Qed.

(** ** Failover *)

(** What holds of every series of an engine. *)
Definition sound (st : seriesState) : Prop :=
  0 ≤ breachCount st ∧ (firing st = true → since st ≠ 0) ∧ (ackedBy st = [] → ackedAt st = 0).

Definition all_sound (en : Engine) : Prop := ∀ key st, states en !! key = Some st → sound st.

Lemma sound_core st st' : core st = core st' → sound st → sound st'.
Proof. unfold core, sound. intros E. injection E as -> -> _ _ -> -> ->. done. Qed.

Lemma rehydrate_sound key now st en : now ≠ 0 → sound (st <| firing := false |>) → sound (rehydrate key now st en).1.
Proof.
  intros Hn (H1 & _ & H3). unfold rehydrate. destruct (restored en !! key) as [op|]; cbn [fst snd].
  - set (st1 := if now <? op_SilencedUntil op then _ else _). assert (E : breachCount st1 = breachCount st ∧ since st1 = now ∧ ackedBy st1 = ackedBy st ∧ ackedAt st1 = ackedAt st)
      by (unfold st1; by destruct (_ <? _)). destruct E as (E1 & E2 & E3 & E4).
    destruct (bool_decide_reflect (op_AckedBy op = [])) as [Ea|Ea]; destruct (restoredNotify _ !! key) as [ns|]; cbn [fst];
      try (destruct (FiringSince ns =? 0) eqn:Ez); zbool; unfold sound; cbn in *; rewrite ?E1, ?E2, ?E3, ?E4; done.
  - destruct (restoredNotify en !! key) as [ns|]; cbn [fst]; try (destruct (FiringSince ns =? 0) eqn:Ez); zbool; unfold sound; cbn in *; done.
Qed.

Lemma transition_sound key rule s d st en :
  (∀ n, clock n ≠ 0) → sound st → let '(_, _, st', _) := transition key rule s d st en in sound st'.
Proof.
  intros Hclk (H1 & H2 & H3). unfold transition. destruct (d_warming d); [by split_and!; cbn|]. destruct (d_breached d).
  - destruct (_ <? _); [split_and!; cbn; try done; lia|]. rewrite fire_eq. cbv zeta. set (st0 := st <| breachCount := breachCount st + 1 |>).
    assert (Hs : sound (firstState key (clock (en_readings en)) st0 (readClock en).2).1).
    { unfold firstState. destruct (firing st0) eqn:Ef; cbn [negb fst].
      - change (firing st0) with (firing st) in Ef. split_and!; cbn; try done; [lia|auto].
      - apply rehydrate_sound; [done|]. split_and!; cbn; try done. lia. }
    destruct (firstState _ _ _ _) as [st1 en1]. cbn [fst snd] in *.
    destruct (activeMaintenanceLocked _ _ _ _ _ _) as [occ|]; [destruct (_ <? _); exact Hs|].
    destruct (_ <? _); [exact Hs|]. destruct (mayNotify _ _ _); exact Hs.
  - cbn [firing update]. unfold resolve. destruct (firing st) eqn:Ef; cbn; split_and!; cbn; try done. by rewrite Ef.
Qed.

Lemma sample_sound rule s sel en :
  (∀ n, clock n ≠ 0) → all_sound en → all_sound (actOn rule (evalSample rule s sel en).1 (evalSample rule s sel en).2).
Proof.
  intros Hclk Ha key st. rewrite actOn_states.
  destruct (evalSample_transition rule s sel en) as (st2 & acted & state & st3 & en3 & st4 & H2 & H4 & E & _ & Hs & _).
  pose proof (transition_sound (stateKey (r_ID rule) (s_Labels s)) rule s (breached rule s (stateForLocked rule (s_Labels s) en)).1 st2 (readClock en).2 Hclk) as Hx.
  pose proof (transition_acts (stateKey (r_ID rule) (s_Labels s)) rule s (breached rule s (stateForLocked rule (s_Labels s) en)).1 st2 (readClock en).2) as Hy.
  rewrite E in Hx, Hy. destruct Hy as (Hse & _). rewrite Hs, Hse. cbn [readClock snd states update].
  intros [[<- <-]|[_ Hk]]%lookup_insert_Some; [|by eapply Ha]. apply (sound_core st3); [done|]. apply Hx, (sound_core (stateForLocked rule (s_Labels s) en)); [done|].
  unfold stateForLocked. destruct (states en !! _) eqn:Ek; [by eapply Ha|]. by destruct (bool_decide _).
Qed.

Lemma samples_sound rule sel l : (∀ n, clock n ≠ 0) → ∀ en, all_sound en → all_sound (evalSamples rule l sel en).2.
Proof.
  intros Hclk. induction l as [|s l IH]; intros en Ha; [done|]. cbn [evalSamples]. pose proof (sample_sound rule s sel en Hclk Ha) as H1.
  destruct (evalSample rule s sel en) as [o en']. cbn [fst snd] in H1. specialize (IH _ H1). by destruct (evalSamples rule l sel (actOn rule o en')).
Qed.

Lemma resolveAll_states rule due : ∀ en, states (resolveAll rule due en).2 = states en.
Proof.
  induction due as [|[[k l] reason] due IH]; intros en; [done|]. cbn [resolveAll].
  assert (E : states (resolveStale rule (k, l, reason) en).2 = states en).
  { unfold resolveStale. cbn [alert readClock snd]. by rewrite emit_states, deliver_states, record_states. }
  destruct (resolveStale rule (k, l, reason) en) as [a en']. cbn [snd] in E. specialize (IH en'). destruct (resolveAll rule due en') as [l' en'']. cbn [snd] in *. congruence.
Qed.

Lemma restoredTraps_states rule en : states (resolveRestoredTraps rule en).2 = states en.
Proof. unfold resolveRestoredTraps. destruct (negb _); [done|]. by rewrite resolveAll_states. Qed.

Lemma evaluate_sound rule en : (∀ n, clock n ≠ 0) → all_sound en → all_sound (Evaluate rule en).2.
Proof.
  intros Hclk Ha. unfold Evaluate. destruct (negb _); [done|].
  destruct (samples_read rule en) as [Hs Hl]. destruct (samples rule en) as [r en1]. cbn [snd] in *.
  assert (Ha1 : all_sound en1) by (intros k st; rewrite Hs; apply Ha).
  destruct r as [e|[l sel]]; [done|]. destruct (bool_decide _).
  - assert (E : states (resolveRestoredTraps rule (recordNoData rule sel en1)).2 = states en1).
    { rewrite restoredTraps_states. unfold recordNoData. destruct (bool_decide _); [done|]. cbn [readClock]. by rewrite record_states. }
    destruct (resolveRestoredTraps _ _) as [l' en2]. cbn [snd] in *. intros k st. rewrite E. apply Ha1.
  - match goal with |- context [evalSamples rule l sel ?x] => set (en2 := x) end.
    pose proof (samples_sound rule sel l Hclk en2 Ha1) as H3. destruct (evalSamples rule l sel en2) as [acted en3]. cbn [snd] in H3.
    pose proof (restoredTraps_states rule en3) as E. destruct (resolveRestoredTraps rule en3) as [l' en4]. cbn [snd] in *. intros k st. rewrite E. apply H3.
Qed.

Lemma exec_sound o en : (∀ n, clock n ≠ 0) → all_sound en → all_sound (exec o en).
Proof.
  intros Hclk Ha. destruct o as [rule|k d|k b|ops|ops|ns|w|id|ws]; cbn [exec]; try done; [by apply evaluate_sound|..].
  - unfold Silence. destruct (_ || _); [done|]. destruct (states en !! k) as [st|] eqn:E; [|done]. destruct (negb (firing st)); [done|].
    pose proof (Ha _ _ E) as Hst. destruct (d =? 0); cbn; intros k' st'; cbn; (intros [[<- <-]|[_ Hk]]%lookup_insert_Some; [exact Hst|by eapply Ha]).
  - unfold Acknowledge. destruct (states en !! k) as [st|] eqn:E; [|done]. destruct (negb (firing st)); [done|].
    destruct (Ha _ _ E) as (H1 & H2 & H3). cbn. intros k' st'. cbn. intros [[<- <-]|[_ Hk]]%lookup_insert_Some; [|by eapply Ha].
    split_and!; cbn; [done|done|]. case_bool_decide; done.
  - unfold ApplyOps. intros k st. cbn. rewrite map_lookup_imap. destruct (states en !! k) as [st0|] eqn:E; [|done]. cbn. intros [= <-].
    destruct (Ha _ _ E) as (H1 & H2 & H3). unfold applyOp. destruct (ops !! k) as [op|]; [|done]. destruct (bool_decide_reflect (op_AckedBy op = [])), (bool_decide _); done.
Qed.

Lemma run_sound os : (∀ n, clock n ≠ 0) → ∀ en, all_sound en → all_sound (run os en).
Proof. intros Hclk. induction os as [|o os IH]; intros en Ha; [done|]. cbn [run foldl]. apply IH. by apply exec_sound. Qed.

(** The notification row of a series, as the hooks of a leader left it. *)
Definition persisted (key : gostring) (log : list effect) : option NotifyState :=
  match last (timeline key log) with Some (Some ns) => Some ns | _ => None end.

(** A new leader: the persisted rows, the same maintenance windows, no live state. *)
Definition takeover (ops : gmap gostring RestoredOp) (rows : gmap gostring NotifyState) (old : Engine) : Engine :=
  RestoreNotifications rows (RestoreOps ops (NewEngine <| maintenance := maintenance old |> <| en_readings := en_readings old |>)).

(** The operator's row is up to date: the acknowledgement, and the silence that runs at
    [now], if one does, are those of the live series. *)
Definition running (now until : Z) : Z := if now <? until then until else 0.

Definition up_to_date (now : Z) (st : seriesState) (op : option RestoredOp) : Prop :=
  match op with
  | Some op => op_AckedBy op = ackedBy st ∧ op_AckedAt op = ackedAt st ∧ running now (op_SilencedUntil op) = running now (silencedUntil st)
  | None => ackedBy st = [] ∧ running now (silencedUntil st) = 0
  end.

Lemma active_end tick rule l now table occ :
  activeMaintenanceLocked RangeWindows tick rule l now table = Some occ → now < p_EndsAt occ.
Proof.
  unfold activeMaintenanceLocked. induction (RangeWindows tick table) as [|[id w] r IH]; [done|]. cbn [foldr].
  destruct (negb _); [done|]. destruct (occurrenceAt w now) as [p|] eqn:E; [|done]. intros [= <-]. revert E.
  unfold occurrenceAt. destruct (bool_decide _).
  - destruct (_ && _) eqn:E; [|done]. intros [= <-]. apply andb_prop in E as [_ E]. zbool. done.
  - destruct (_ || _); [done|]. cbv zeta. destruct (_ && _) eqn:E; [|done]. intros [= <-].
    apply andb_prop in E as [_ E]. zbool. done.
Qed.

Lemma core_zero st :
  core st = core zeroState →
  breachCount st = 0 ∧ firing st = false ∧ silencedUntil st = 0 ∧ ackedBy st = [] ∧ ackedAt st = 0.
Proof. unfold core. intros E. injection E. done. Qed.

Lemma rehydrate_takeover key now st fresh new :
  sound st → firing st = true → core fresh = core zeroState → up_to_date now st (restored new !! key) →
  restoredNotify new !! key = Some (mkNotify (since st) (lastNotified st)) →
  let r := rehydrate key now (fresh <| breachCount := 0 + 1 |> <| firing := true |>) (readClock new).2 in
  since r.1 = since st ∧ lastNotified r.1 = lastNotified st ∧ ackedBy r.1 = ackedBy st ∧ ackedAt r.1 = ackedAt st ∧
  silencedUntil r.1 = running now (silencedUntil st) ∧ restoredNotify r.2 !! key = None.
Proof.
  intros (_ & Hs & Hak) Hf (_ & _ & Hz1 & Hz2 & Hz3)%core_zero Ho Hn. specialize (Hs Hf). unfold rehydrate. cbn [readClock snd restored restoredNotify update].
  destruct (restored new !! key) as [op|]; cbn [restoredNotify update]; rewrite Hn; cbn [FiringSince LastNotified fst snd];
    rewrite (proj2 (Z.eqb_neq _ _)) by done.
  - destruct Ho as (E1 & E2 & E3). rewrite E1, E2. unfold running in *.
    destruct (bool_decide_reflect (ackedBy st = [])) as [Ea|Ea]; destruct (now <? op_SilencedUntil op); cbn;
      rewrite ?Hz1, ?Hz2, ?Hz3, ?Hak, ?lookup_delete_eq by done; split_and!; try done; by rewrite Ea.
  - destruct Ho as (E1 & E2). rewrite E2. cbn. rewrite Hz1, Hz2, Hz3, Hak, lookup_delete_eq by done. done.
Qed.

Lemma transition_takeover key rule s d st fresh old new :
  sound st → firing st = true → core fresh = core zeroState → up_to_date (clock (en_readings old)) st (restored new !! key) →
  restoredNotify new !! key = Some (mkNotify (since st) (lastNotified st)) → en_readings new = en_readings old → maintenance new = maintenance old →
  d_warming d = false → d_breached d = true → r_ForN rule ≤ 1 → 0 < clock (en_readings old) →
  let now := clock (en_readings old) in
  let '(a1, _, st1, _) := transition key rule s d st old in
  let '(a2, _, st2, new') := transition key rule s d fresh new in
  a1 = a2 ∧ firing st1 = true ∧ firing st2 = true ∧ since st2 = since st1 ∧ lastNotified st2 = lastNotified st1 ∧
  ackedBy st2 = ackedBy st1 ∧ ackedAt st2 = ackedAt st1 ∧ running now (silencedUntil st2) = running now (silencedUntil st1) ∧
  restoredNotify new' !! key = None.
Proof.
  intros Hso Hf Hz Ho Hrn Hr Hm Hw Hb Hn Hpos now. pose proof Hso as (Hc & _ & _).
  pose proof (rehydrate_takeover key now st fresh new Hso Hf Hz Ho Hrn) as Hx. cbv zeta in Hx.
  apply core_zero in Hz as (Hz1 & Hz2 & _). unfold transition. rewrite Hw, Hb.
  assert ((if r_ForN rule <? 1 then 1 else r_ForN rule) = 1) as -> by (destruct (_ <? _) eqn:E; zbool; lia).
  cbn [breachCount update]. rewrite Hz1, !(proj2 (Z.ltb_ge _ _)) by lia.
  rewrite !fire_eq. cbv zeta. unfold firstState. cbn [firing update]. rewrite Hf, Hz2. cbn [negb]. rewrite Hr. fold now.
  pose proof (rehydrate_frame key now (fresh <| breachCount := 0 + 1 |> <| firing := true |>) (readClock new).2) as Hy.
  destruct (rehydrate _ _ _ _) as [st2 new2]. cbn [fst snd] in *.
  destruct Hx as (Hx1 & Hx2 & Hx3 & Hx4 & Hx5 & Hd). destruct Hy as (_ & _ & Hy3 & Hy4 & Hy5).
  assert (Hy4' : en_readings new2 = S (en_readings old)) by (rewrite Hy4; cbn; by rewrite Hr).
  rewrite Hy3, Hy4'. cbn [readClock snd maintenance en_readings update]. rewrite Hm. unfold running in *.
  destruct (activeMaintenanceLocked _ _ _ _ _ _) as [occ|] eqn:Ea.
  - apply active_end in Ea. rewrite Hx5. cbn [silencedUntil update].
    destruct (now <? silencedUntil st) eqn:E; zbool.
    + destruct (silencedUntil st <? p_EndsAt occ); cbn; rewrite ?Hx5; split_and!; done.
    + rewrite !(proj2 (Z.ltb_lt _ _)) by lia. cbn. split_and!; done.
  - rewrite Hx5. cbn [silencedUntil update]. destruct (now <? silencedUntil st) eqn:E; zbool.
    + rewrite (proj2 (Z.ltb_lt _ _)) by lia. cbn. rewrite Hx5. split_and!; done.
    + rewrite (proj2 (Z.ltb_ge _ _)) by lia. unfold mayNotify. rewrite Hx2. cbn [lastNotified update].
      assert (alert rule s StateFiring (d_reason d) new2 =
        ((alert rule s StateFiring (d_reason d) (readClock old).2).1, new2 <| en_readings := S (S (en_readings old)) |>)) as ->
        by (unfold alert; cbn [readClock]; by rewrite Hy4').
      destruct (_ || _); cbn [fst snd]; cbn; rewrite Hx5, (proj2 (Z.ltb_ge now 0)), (proj2 (Z.ltb_ge now (silencedUntil st))) by lia; split_and!; done.
Qed.

Lemma breached_same rule s st st' : r_Type rule ≠ Baseline → (breached rule s st).1 = (breached rule s st').1.
Proof. intros H. unfold breached. by destruct (r_Type rule). Qed.

Section failover.
Context (clock_set : ∀ n, 0 < clock n).
Context (wired_notify : has_onNotify wired = true) (wired_resolve : has_onResolve wired = true).

(** C35. Failover is invisible to the receiver of a rule without debounce: after any run of a
    leader, when a new leader restores the rows the hooks persisted, with the operator's rows
    up to date, and evaluates a breaching sample of a series the old leader had notified of,
    at the same instant and with the same maintenance windows, it sends exactly the
    notification the old leader would have sent (none when no renotification is due),
    persists the same row, and keeps the start of the episode, the last notification time,
    the acknowledgement and a silence that is running.  The rule is not a baseline and fires
    at its first breach; up to date means also that no silence a maintenance window left
    behind still runs, which the engine does not persist. *)
Theorem failover_transparent (rule : Rule) (s : Sample) (sel : option TagSelectionReceipt) (os : list op)
    (ops : gmap gostring RestoredOp) (rows : gmap gostring NotifyState) :
  let key := stateKey (r_ID rule) (s_Labels s) in
  let old := run os NewEngine in
  let new := takeover ops rows old in
  let now := clock (S (en_readings old)) in
  r_Type rule ≠ Baseline → r_ForN rule ≤ 1 → breaching rule s = true →
  is_Some (persisted key (en_log old)) → rows !! key = persisted key (en_log old) →
  (∀ st, states old !! key = Some st → up_to_date now st (ops !! key)) →
  o_acted (evalSample rule s sel new).1 = o_acted (evalSample rule s sel old).1 ∧
  o_pending (evalSample rule s sel new).1 = o_pending (evalSample rule s sel old).1 ∧
  ∃ st st', states (evalSample rule s sel old).2 !! key = Some st ∧ states (evalSample rule s sel new).2 !! key = Some st' ∧
    firing st = true ∧ firing st' = true ∧ since st' = since st ∧ lastNotified st' = lastNotified st ∧
    ackedBy st' = ackedBy st ∧ ackedAt st' = ackedAt st ∧ running now (silencedUntil st') = running now (silencedUntil st).
Proof.
  intros key old new now Ht Hn Hbr Hp Hrows Hops.
  assert (Hclk : ∀ n, clock n ≠ 0) by (intros n; specialize (clock_set n); lia).
  assert (Hlive : ∃ st, states old !! key = Some st ∧ firing st = true ∧ rows !! key = Some (mkNotify (since st) (lastNotified st))).
  { assert (Htm : timed (Some (- 2 ^ 63)) key old).
    { apply run_timed; [done|done|done| |by split; [intros i a b H|]]. apply Forall_forall. intros [r| | | | | | | |] _; try done. intros _. right. by apply i64_range. }
    unfold persisted in *. destruct (last (timeline key (en_log old))) as [[ns|]|] eqn:El; try by destruct Hp.
    destruct Htm as [_ Ho]. destruct (Ho ns El) as (_ & st & H1 & H2 & H3). exists st. by rewrite Hrows, H3. }
  destruct Hlive as (st & Hst & Hf & Hrow). pose proof (run_sound os Hclk NewEngine ltac:(by intros k x H) key st Hst) as Hso. specialize (Hops st Hst).
  destruct (evalSample_transition rule s sel old) as (o2 & oa & ost & o3 & oe3 & o4 & O2 & O4 & OE & OA & OS & _).
  destruct (evalSample_transition rule s sel new) as (n2 & na & nst & n3 & ne3 & n4 & N2 & N4 & NE & NA & NS & _).
  fold key in OE, OS, NE, NS. rewrite (stateFor_known rule (s_Labels s) old st Hst) in O2, OE.
  assert (Hfresh : core (stateForLocked rule (s_Labels s) new) = core zeroState) by (apply stateFor_fresh; apply lookup_empty).
  rewrite (breached_same rule s (stateForLocked rule (s_Labels s) new) st Ht) in NE. rewrite Hfresh in N2.
  destruct (breached_plain rule s st Ht) as [Hw Hb]. rewrite Hbr in Hb.
  assert (So2 : sound o2) by (by apply (sound_core st)). pose proof (core_eqs o2 st O2) as (_ & C2 & C3 & C4 & C5 & C6 & C7).
  pose proof (transition_takeover key rule s (breached rule s st).1 o2 n2 (readClock old).2 (readClock new).2 So2) as Hx.
  rewrite OE, NE in Hx. cbn [readClock snd en_readings update] in Hx.
  destruct Hx as (Ea & F1 & F2 & E1 & E2 & E3 & E4 & E5 & _); try done.
  - by rewrite C2.
  - unfold new, takeover. cbn. rewrite map_union_empty. unfold up_to_date in *. by rewrite C4, C5, C6.
  - unfold new, takeover. cbn. by rewrite map_union_empty, C3, C7.
  - pose proof (core_eqs _ _ O4) as (_ & o_f & o_l & o_s & o_b & o_a & o_n). pose proof (core_eqs _ _ N4) as (_ & n_f & n_l & n_s & n_b & n_a & n_n).
    assert (Lo : states (evalSample rule s sel old).2 !! key = Some o4) by (by rewrite OS, lookup_insert_eq).
    assert (Ln : states (evalSample rule s sel new).2 !! key = Some n4) by (by rewrite NS, lookup_insert_eq).
    split; [congruence|]. split.
    + pose proof (evalSample_acts rule s sel old) as Ho. pose proof (evalSample_acts rule s sel new) as Hnw. cbv zeta in Ho, Hnw. fold key in Ho, Hnw.
      destruct (evalSample rule s sel old) as [oo oen], (evalSample rule s sel new) as [no nen]. cbn [fst snd] in *.
      destruct Ho as (_ & s1 & Hs1 & _ & ->), Hnw as (_ & s2 & Hs2 & _ & ->). rewrite Hs1, lookup_insert_eq in Lo. rewrite Hs2, lookup_insert_eq in Ln.
      injection Lo as ->. injection Ln as ->. rewrite NA, OA, <- Ea. by rewrite o_l, n_l, o_n, n_n, E1, E2.
    + exists o4, n4. split_and!; [done|done|congruence..|]. by rewrite o_s, n_s.
Qed.

End failover.

(** ** A row of an episode that ended unseen *)

(** The series still carries the persisted notification time of an earlier episode. *)
Definition muted (rule : Rule) (l : labels_t) (ns : NotifyState) (en : Engine) : Prop :=
  let st := stateForLocked rule l en in
  (firing st = false ∧ restoredNotify en !! stateKey (r_ID rule) l = Some ns) ∨
  (firing st = true ∧ lastNotified st = LastNotified ns).

Lemma rehydrate_notified key now st en ns :
  restoredNotify en !! key = Some ns → lastNotified (rehydrate key now st en).1 = LastNotified ns.
Proof.
  intros H. unfold rehydrate. destruct (restored en !! key); cbn [fst snd]; cbn [restoredNotify update]; by rewrite H.
Qed.

Lemma mute_transition key rule s d st en ns :
  r_RenotifySeconds rule ≤ 0 → LastNotified ns ≠ 0 → d_warming d = false →
  (firing st = false ∧ restoredNotify en !! key = Some ns) ∨ (d_breached d = true ∧ firing st = true ∧ lastNotified st = LastNotified ns) →
  let '(acted, _, st', en') := transition key rule s d st en in
  acted = None ∧
  ((firing st' = false ∧ restoredNotify en' !! key = Some ns) ∨
   (d_breached d = true ∧ firing st' = true ∧ lastNotified st' = LastNotified ns)).
Proof.
  intros Hr Hz Hw H. unfold transition. rewrite Hw. destruct (d_breached d) eqn:Eb.
  - cbn [breachCount update]. destruct (_ <? _); [split; [done|]; destruct H as [[]|(_ & ? & ?)]; [by left|by right]|].
    set (st0 := st <| breachCount := breachCount st + 1 |>).
    rewrite fire_eq. cbv zeta. set (now := clock (en_readings en)).
    assert (Hl : lastNotified (firstState key now st0 (readClock en).2).1 = LastNotified ns).
    { unfold firstState. destruct (firing st0) eqn:Ef; cbn [negb].
      - destruct H as [[H1 H2]|(_ & H1 & H2)]; [|done]. change (firing st0) with (firing st) in Ef. congruence.
      - destruct H as [[H1 H2]|(_ & H1 & H2)]; [by apply rehydrate_notified|].
        change (firing st0) with (firing st) in Ef. congruence. }
    assert (Hn : mayNotify rule now (firstState key now st0 (readClock en).2).1 = false).
    { unfold mayNotify. rewrite Hl, (proj2 (Z.eqb_neq _ _)), (proj2 (Z.ltb_ge 0 _)) by done. done. }
    pose proof (firstState_frame key now st0 (readClock en).2) as (_ & _ & _ & _ & Hf & _).
    destruct (firstState key now st0 (readClock en).2) as [st1 en1]. cbn [fst snd] in *. rewrite Hn.
    destruct (activeMaintenanceLocked _ _ _ _ _ _); [split; [done|]; right; by destruct (_ <? _)|].
    destruct (_ <? _); split; try done; by right.
  - cbn [firing update]. destruct H as [[H1 H2]|[]]; [|done]. rewrite H1. split; [done|]. by left.
Qed.

Lemma mute_sample rule s sel en ns l :
  r_Type rule ≠ Baseline → r_RenotifySeconds rule ≤ 0 → LastNotified ns ≠ 0 → s_Labels s = l →
  (breaching rule s = false → firing (stateForLocked rule l en) = false) → muted rule l ns en →
  let '(o, en') := evalSample rule s sel en in
  o_acted o = None ∧ muted rule l ns (actOn rule o en') ∧
  (breaching rule s = false → firing (stateForLocked rule l (actOn rule o en')) = false).
Proof.
  intros Ht Hr Hz <- Hc Hm.
  destruct (evalSample_transition rule s sel en) as (st2 & acted & state & st3 & en3 & st4 & H2 & H4 & E & Ha & Hs & Hrn).
  destruct (breached_plain rule s (stateForLocked rule (s_Labels s) en) Ht) as [Hw Hb].
  apply core_fields in H2 as (_ & F2 & L2 & _), H4 as (_ & F4 & L4 & _).
  pose proof (mute_transition (stateKey (r_ID rule) (s_Labels s)) rule s _ st2 (readClock en).2 ns Hr Hz Hw) as Hx.
  rewrite E, Hb, F2, L2 in Hx. destruct Hx as [Hx1 Hx2].
  { destruct Hm as [[H1 H3]|[H1 H3]]; [by left|right]. split_and!; [|done|done].
    destruct (breaching rule s); [done|]. rewrite Hc in H1; done. }
  destruct (evalSample rule s sel en) as [o en']. cbn [fst snd] in *. split; [congruence|].
  assert (Hst : stateForLocked rule (s_Labels s) (actOn rule o en') = st4)
    by (apply stateFor_known; by rewrite actOn_states, Hs, lookup_insert_eq).
  unfold muted. rewrite Hst, actOn_restored, Hrn, F4, L4. split; [naive_solver|]. intros Hbr.
  destruct Hx2 as [[? _]|(Hb2 & _)]; [done|]. congruence.
Qed.

(** The samples of one pass. *)
Lemma mute_samples rule l ns b sel ss : ∀ en,
  r_Type rule ≠ Baseline → r_RenotifySeconds rule ≤ 0 → LastNotified ns ≠ 0 →
  Forall (λ s, s_Labels s = l ∧ breaching rule s = b) ss →
  muted rule l ns en → (b = false → firing (stateForLocked rule l en) = false) →
  (evalSamples rule ss sel en).1 = [] ∧ muted rule l ns (evalSamples rule ss sel en).2 ∧
  (b = false → firing (stateForLocked rule l (evalSamples rule ss sel en).2) = false).
Proof.
  induction ss as [|s ss IH]; intros en Ht Hr Hz Hall Hm Hf; [done|]. apply Forall_cons in Hall as [[Hl Hb] Hall]. cbn [evalSamples].
  pose proof (mute_sample rule s sel en ns l Ht Hr Hz Hl ltac:(by rewrite Hb) Hm) as Hx.
  destruct (evalSample rule s sel en) as [o en']. destruct Hx as (-> & Hm' & Hf'). rewrite Hb in Hf'.
  specialize (IH _ Ht Hr Hz Hall Hm' Hf'). by destruct (evalSamples _ _ _ _).
Qed.

Lemma samples_restored rule en : restoredNotify (samples rule en).2 = restoredNotify en.
Proof.
  unfold samples. destruct (r_HasTagFilter rule).
  - destruct (bool_decide _); [done|]. destruct source as [[cur [c|]]|]; [|done..].
    destruct (c _ _) as [|[]]; [done|]. destruct (ctxErr _); [done|]. by destruct (negb _).
  - destruct (bool_decide _).
    + destruct traps as [tr|]; [|done]. destruct (r_Trap rule); [|done]. cbn. by destruct (tr _ _ _).
    + destruct source as [src|]; [|done]. by destruct (Current _ _ _ _).
Qed.

(** The evaluation reads samples of the series only, all of which satisfy [P], or fails. *)
Definition reads (rule : Rule) (P : Sample → Prop) (en : Engine) : Prop :=
  match (samples rule en).1 with inr (l, _) => Forall P l | inl _ => True end.

Lemma mute_evaluate rule l ns b en :
  r_Type rule ≠ Baseline → r_Type rule ≠ Trap → r_RenotifySeconds rule ≤ 0 → LastNotified ns ≠ 0 →
  reads rule (λ s, s_Labels s = l ∧ breaching rule s = b) en →
  muted rule l ns en → (b = false → firing (stateForLocked rule l en) = false) →
  ((Evaluate rule en).1 = inr [] ∨ ∃ e, (Evaluate rule en).1 = inl e) ∧ muted rule l ns (Evaluate rule en).2 ∧
  (b = false → firing (stateForLocked rule l (Evaluate rule en).2) = false).
Proof.
  intros Ht Htr Hr Hz Hall Hm Hf. unfold reads in Hall. unfold Evaluate. destruct (negb _); [split; [by left|done]|].
  destruct (samples_read rule en) as [Hs _]. pose proof (samples_restored rule en) as Hrs. destruct (samples rule en) as [r en1]. cbn [fst snd] in *.
  assert (Hsame : ∀ en', states en' = states en1 → restoredNotify en' = restoredNotify en1 →
    muted rule l ns en' ∧ (b = false → firing (stateForLocked rule l en') = false)).
  { intros en' E1 E2. unfold muted, stateForLocked in *. by rewrite E1, E2, Hs, Hrs. }
  destruct r as [e|[ss sel]]; [cbn; split; [right; by eexists|by apply Hsame]|].
  assert (Htraps : ∀ en', resolveRestoredTraps rule en' = ([], en')).
  { intros en'. unfold resolveRestoredTraps. by rewrite bool_decide_false. }
  destruct (bool_decide _); rewrite ?Htraps.
  - cbn. split; [by left|]. apply Hsame; unfold recordNoData; (destruct (bool_decide _); [done|]); cbn [readClock]; unfold recordEvaluation, emit; by destruct (has_evaluationSink wired).
  - match goal with |- context [evalSamples rule ss sel ?x] => destruct (Hsame x eq_refl eq_refl) as [Hm2 Hf2]; pose proof (mute_samples rule l ns b sel ss x Ht Hr Hz Hall Hm2 Hf2) as Hx end.
    destruct (evalSamples rule ss sel _) as [acted en3]. rewrite Htraps. cbn [fst snd] in *. destruct Hx as (-> & H2 & H3). split; [by left|done].
Qed.

(** The state after [n] evaluations of the rule. *)
Definition evaluations (rule : Rule) (n : nat) (en : Engine) : Engine := Nat.iter n (λ en, (Evaluate rule en).2) en.

(** C39. A notification row outlives its episode: a fresh leader that restored the row of a
    notify-once series of a threshold rule and then, in any number of evaluations, sees the
    series recovered neither resolves it nor drops the row, and when the series breaches again
    in the evaluations that follow, however many, no notification of that new episode is sent.
    (Baseline rules warm up again, and the rows of trap rules are swept: neither is meant. The
    evaluations read this series alone.) *)
Theorem stale_row_mutes_new_episode (rule : Rule) (l : labels_t) (ns : NotifyState) (clear breach : nat) (en : Engine) :
  r_Type rule ≠ Baseline → r_Type rule ≠ Trap → r_RenotifySeconds rule ≤ 0 → LastNotified ns ≠ 0 →
  states en !! stateKey (r_ID rule) l = None → restoredNotify en !! stateKey (r_ID rule) l = Some ns →
  (∀ n, (n < clear)%nat → reads rule (λ s, s_Labels s = l ∧ breaching rule s = false) (evaluations rule n en)) →
  (∀ n, (clear ≤ n < clear + breach)%nat → reads rule (λ s, s_Labels s = l ∧ breaching rule s = true) (evaluations rule n en)) →
  ∀ n, (n < clear + breach)%nat →
    (Evaluate rule (evaluations rule n en)).1 = inr [] ∨ ∃ e, (Evaluate rule (evaluations rule n en)).1 = inl e.
Proof.
  intros Ht Htr Hr Hz Hst Hrn Hcl Hbr.
  assert (Hinv : ∀ n, (n ≤ clear + breach)%nat →
    muted rule l ns (evaluations rule n en) ∧ ((n ≤ clear)%nat → firing (stateForLocked rule l (evaluations rule n en)) = false)).
  { induction n as [|n IH]; intros Hn.
    - apply stateFor_fresh, core_zero in Hst as (_ & Hf & _). split; [left|]; done.
    - destruct (IH ltac:(lia)) as [Hm Hf]. cbn [evaluations Nat.iter]. change (Nat.iter n _ en) with (evaluations rule n en). destruct (decide (n < clear)%nat) as [Hlt|Hge].
      + destruct (mute_evaluate rule l ns false _ Ht Htr Hr Hz (Hcl n Hlt) Hm) as (_ & H2 & H3); [intros _; apply Hf; lia|]. split; [done|auto].
      + destruct (mute_evaluate rule l ns true _ Ht Htr Hr Hz (Hbr n ltac:(lia)) Hm ltac:(done)) as (_ & H2 & _). split; [done|lia]. }
  intros n Hn. destruct (Hinv n ltac:(lia)) as [Hm Hf]. destruct (decide (n < clear)%nat) as [Hlt|Hge].
  - apply (mute_evaluate rule l ns false _ Ht Htr Hr Hz (Hcl n Hlt) Hm). intros _. apply Hf. lia.
  - by apply (mute_evaluate rule l ns true _ Ht Htr Hr Hz (Hbr n ltac:(lia)) Hm).
Qed.

(** When a breach is notified: once a series has its required breaches, a firing
    notification goes out exactly when no maintenance window that targets the series covers
    the instant, no silence (a restored one included) is running, and the episode was never
    notified or its renotify interval has passed; the series is firing either way, so a
    notification that was suppressed goes out at the first breach after the suppression
    ends. *)
Theorem notify_iff key rule s d st en :
  (∀ t m, RangeWindows t m ≡ₚ map_to_list m) →
  d_warming d = false → d_breached d = true → requiredBreaches rule ≤ breachCount st + 1 →
  let now := clock (en_readings en) in
  let st1 := (firstState key now (st <| breachCount := breachCount st + 1 |>) (readClock en).2).1 in
  let '(acted, _, st', _) := transition key rule s d st en in
  firing st' = true ∧
  (is_Some acted ↔
    ¬ (∃ id w, maintenance en !! id = Some w ∧ matches w rule (s_Labels s) = true ∧ is_Some (occurrenceAt w now)) ∧
    silencedUntil st1 ≤ now ∧
    (lastNotified st1 = 0 ∨
     0 < r_RenotifySeconds rule ∧ i64 (r_RenotifySeconds rule * Second) ≤ satSub now (lastNotified st1))) ∧
  (∀ a, acted = Some a → a_State a = StateFiring ∧ lastNotified st' = now) ∧
  (acted = None → lastNotified st' = lastNotified st1).
Proof.
  intros HR Hw Hb Hn now st1. unfold transition. fold (requiredBreaches rule). rewrite Hw, Hb.
  cbn [breachCount update]. rewrite (proj2 (Z.ltb_ge _ _)) by done. rewrite fire_eq. cbv zeta.
  pose proof (firstState_frame key now (st <| breachCount := breachCount st + 1 |>) (readClock en).2) as (_ & _ & Hm & _ & Hf & _).
  subst st1. fold now. destruct (firstState key now _ _) as [st1 en1]. cbn [fst snd] in *.
  rewrite Hm. change (maintenance (readClock en).2) with (maintenance en).
  pose proof (active_iff RangeWindows (en_readings en1) rule (s_Labels s) now (maintenance en) HR) as Ha.
  destruct (activeMaintenanceLocked _ _ _ _ _ _) as [occ|].
  - split_and!; [by destruct (_ <? _)| |done|by destruct (_ <? _)].
    split; [by intros []|]. intros [Hno _]. destruct Hno. apply Ha. by eexists.
  - destruct (now <? silencedUntil st1) eqn:Es; zbool.
    + split_and!; [done| |done|done]. split; [by intros []|]. lia.
    + unfold mayNotify. destruct (_ || _) eqn:Em.
      * split_and!; [done| |by intros a [= <-]|done]. split; [intros _|by eexists].
        split; [intros Hex%Ha; by destruct Hex|]. split; [done|].
        apply orb_prop in Em as [Em|[E1 E2]%andb_prop]; zbool; [by left|by right].
      * split_and!; [done| |done|done]. split; [by intros []|]. intros (_ & _ & Hd).
        apply orb_false_iff in Em as [E0 Em]. apply andb_false_iff in Em. zbool. destruct Hd as [|[H1 H2]]; [done|].
        destruct Em; zbool; lia.
Qed.

End engine.

(** ** State keys *)

(** Labels a state key can be read back from. *)
Definition key_safe (l : labels_t) : Prop :=
  map_Forall (λ k v, k ≠ [] ∧ x3d ∉ k ∧ x3b ∉ k ∧ x3b ∉ v) l.

Lemma labelOf_Some (l : labels_t) (k v : gostring) : l !! k = Some v → labelOf l k = v.
Proof. unfold labelOf. intros H. by rewrite H. Qed.

Lemma Split_pairs (l : labels_t) (ks : list gostring) :
  (∀ k, k ∈ ks → x3b ∉ k ++ x3d :: labelOf l k) →
  Split x3b (concat (map (λ k, k ++ x3d :: labelOf l k ++ [x3b]) ks)) =
  map (λ k, k ++ x3d :: labelOf l k) ks ++ [[]].
Proof.
  induction ks as [|k ks IH]; intros H; [done|]. cbn [map concat].
  replace ((k ++ x3d :: labelOf l k ++ [x3b]) ++ concat (map (λ k, k ++ x3d :: labelOf l k ++ [x3b]) ks))
    with ((k ++ x3d :: labelOf l k) ++ x3b :: concat (map (λ k, k ++ x3d :: labelOf l k ++ [x3b]) ks))
    by (rewrite <- !app_assoc; cbn; by rewrite <- app_assoc).
  rewrite Split_app by (apply H; set_solver). rewrite IH by set_solver. done.
Qed.

(** Reading a trap series' labels back from its state key is exact for labels without
    the separators: the labels recovered from the key of a rule's series are the series'
    labels, so keys of such series determine rule-local identity. *)
Theorem state_key_roundtrip (rule : gostring) (l : labels_t) :
  key_safe l → labelsFromStateKey (stateKey rule l) (rule ++ str "|") = l.
Proof.
  intros Hs. unfold labelsFromStateKey, stateKey, fingerprint.
  replace (rule ++ x7c :: concat _) with ((rule ++ str "|") ++ concat (map (λ k, k ++ x3d :: labelOf l k ++ [x3b])
    (merge_sort bytes_le (map_to_list l).*1))) by (by rewrite <- app_assoc).
  rewrite TrimPrefix_app.
  set (ks := merge_sort bytes_le (map_to_list l).*1).
  assert (Hks : ∀ k, k ∈ ks ↔ ∃ v, l !! k = Some v).
  { intros k. unfold ks. rewrite merge_sort_Permutation, list_elem_of_fmap. split.
    - intros ([k' v] & -> & H%elem_of_map_to_list). eauto.
    - intros (v & H). exists (k, v). split; [done|]. by apply elem_of_map_to_list. }
  rewrite (Split_pairs l ks).
  2: { intros k (v & Hv)%Hks. destruct (Hs k v Hv) as (_ & _ & H1 & H2). rewrite (labelOf_Some l k v Hv). set_solver. }
  rewrite foldl_app. cbn [foldl cut].
  assert (Hfold : ∀ qs (m : labels_t), (∀ k, k ∈ qs → k ∈ ks) →
    ∀ k, foldl (λ out pair, match cut x3d pair with
                     | (k, Some v) => if bool_decide (k = []) then out else <[k := v]> out
                     | (_, None) => out
                     end) m (map (λ k, k ++ x3d :: labelOf l k) qs) !! k =
         if decide (k ∈ qs) then l !! k else m !! k).
  { induction qs as [|q qs IH]; intros m Hq k; [done|]. cbn [map foldl].
    destruct (proj1 (Hks q) ltac:(set_solver)) as (v & Hv). destruct (Hs q v Hv) as (Hn & He & _ & _).
    rewrite cut_some, bool_decide_false by done. rewrite IH by set_solver. rewrite (labelOf_Some l q v Hv).
    destruct (decide (k ∈ qs)) as [Hin|Hin].
    - by rewrite decide_True by set_solver.
    - destruct (decide (k = q)) as [->|Hne].
      + rewrite decide_True by set_solver. etrans; [apply lookup_insert_eq|]. by symmetry.
      + rewrite decide_False by set_solver. by apply lookup_insert_ne. }
  apply map_eq. intros k. etrans; [by apply (Hfold ks)|]. destruct (decide _) as [|Hn]; [done|].
  destruct (l !! k) as [v|] eqn:E; [|exact (eq_sym E)]. destruct Hn. apply Hks. eauto.
Qed.

(** Label values with the separators collide: two series share one alert state. *)
Theorem state_key_collision :
  let a : labels_t := {[str "a" := str "1;b=2"]} in
  let b : labels_t := <[str "a" := str "1"]> {[str "b" := str "2"]} in
  a ≠ b ∧ ∀ rule, stateKey rule a = stateKey rule b.
Proof.
  cbv zeta. split; [|reflexivity]. intros E. apply (f_equal (λ m : labels_t, m !! str "a")) in E. vm_compute in E. discriminate E.
Qed.

(** ** Witnesses *)

Module Demo.

Definition clock (n : nat) : Z := Z.of_nat (S n) * Second.
Definition RangeWindows (_ : nat) (m : gmap gostring MaintenanceWindow) : list (gostring * MaintenanceWindow) := map_to_list m.
Definition text (_ : float64) : gostring := [].
Definition time_text (_ : Z) : gostring := [].
Definition hash (k : gostring) : gostring := k.
Definition site : labels_t := {[str "site" := str "a"]}.
Definition high : Sample := mkSample site (f64 500) [].
Definition low : Sample := mkSample site (f64 5) [].
Definition source : option MetricSource := Some (mkSource (λ _ _ _, inr [high]) None).
Definition wired : Wiring := mkWiring true true true true true.
Definition once : Rule := sample_rule <| r_ForN := 1 |>.
Definition nagging : Rule := once <| r_ID := str "other" |> <| r_RenotifySeconds := 1 |>.
Definition key : gostring := stateKey (r_ID once) site.

Definition demo_evalSample := Alert.evalSample clock RangeWindows text time_text hash wired.
Definition demo_evalSamples := Alert.evalSamples clock RangeWindows text time_text hash wired.
Definition demo_run := Alert.run clock RangeWindows text time_text hash source None (λ _, false) wired.

End Demo.

(** Another rule that renotifies at every evaluation does not disturb a notify-once rule. *)
Lemma notifications_paced_witness :
  let os := [OEvaluate Demo.once; OEvaluate Demo.nagging; OEvaluate Demo.once; OEvaluate Demo.nagging; OEvaluate Demo.once] in
  let log := en_log (Demo.demo_run os NewEngine) in
  LastNotified <$> omap id (timeline Demo.key log) = [2 * Second] ∧
  LastNotified <$> omap id (timeline (stateKey (str "other") Demo.site) log) = [5 * Second; 10 * Second] ∧
  paced None (timeline Demo.key log).
Proof.
  intros os log. split; [vm_compute; reflexivity|]. split; [vm_compute; reflexivity|].
  apply (notifications_paced Demo.clock Demo.RangeWindows Demo.text Demo.time_text Demo.hash Demo.source None
    (λ _, false) Demo.wired).
  - intros n. unfold Demo.clock, Second. lia.
  - reflexivity.
  - reflexivity.
  - assert (Ho : rule_gap None Demo.key (OEvaluate Demo.once)) by (intros _; left; discriminate).
    assert (Hn : rule_gap None Demo.key (OEvaluate Demo.nagging)).
    { intros Hr. exfalso. apply (reports_own Demo.nagging (r_ID Demo.once) Demo.site) in Hr; [vm_compute in Hr; discriminate Hr|vm_compute..];
        intros Hx; repeat (apply elem_of_cons in Hx as [Hx|Hx]; [discriminate Hx|]); by apply elem_of_nil in Hx. }
    repeat (apply List.Forall_cons; [exact Ho || exact Hn|]). apply List.Forall_nil.
Defined.

Lemma debounce_exact_witness :
  let rule := sample_rule in
  let en' := (Demo.demo_evalSamples rule [Demo.high; Demo.high] None NewEngine).2 in
  (∃ st, states en' !! stateKey (r_ID rule) Demo.site = Some st ∧ breachCount st = 2 ∧ firing st = true) ∧
  ∃ a, o_acted (Demo.demo_evalSample rule Demo.low None en').1 = Some a ∧ a_State a = StateResolved.
Proof.
  intros rule en'.
  destruct (debounce_exact Demo.clock Demo.RangeWindows Demo.text Demo.time_text Demo.hash Demo.wired
    rule Demo.site [Demo.high; Demo.high] Demo.low None NewEngine) as (H1 & _ & H3);
    [discriminate|repeat constructor|reflexivity|discriminate|].
  split; [exact H1|]. exact (H3 ltac:(vm_compute; reflexivity)).
Defined.

(** One recovered reading, then breaches: the restored row mutes them all, a fresh engine
    notifies of the first. *)
Definition demo_recovering : option MetricSource := Some (mkSource (λ call _ _, inr [if bool_decide (call < 1)%nat then Demo.low else Demo.high]) None).
Abbreviation demo_evaluate := (Evaluate Demo.clock Demo.RangeWindows Demo.text Demo.time_text Demo.hash demo_recovering None (λ _, false) Demo.wired Demo.once).

Abbreviation demo_evaluations := (evaluations Demo.clock Demo.RangeWindows Demo.text Demo.time_text Demo.hash demo_recovering None (λ _, false) Demo.wired Demo.once).
Abbreviation demo_restored := (RestoreNotifications {[Demo.key := mkNotify 7 7]} NewEngine).

Lemma demo_reads P en :
  P (if bool_decide (en_readings en < 1)%nat then Demo.low else Demo.high) → reads Demo.clock demo_recovering None (λ _, false) Demo.once P en.
Proof. intros H. apply List.Forall_cons; [exact H|apply List.Forall_nil]. Qed.

Lemma stale_row_mutes_new_episode_witness :
  ((demo_evaluate (demo_evaluations 2 demo_restored)).1 = inr [] ∨ ∃ e, (demo_evaluate (demo_evaluations 2 demo_restored)).1 = inl e) ∧
  match (demo_evaluate (demo_evaluations 2 demo_restored)).1 with inr l => l = [] | inl _ => False end ∧
  match (demo_evaluate (demo_evaluations 1 NewEngine)).1 with inr l => length l = 1%nat | inl _ => False end.
Proof.
  split; [|split; vm_compute; reflexivity].
  apply (stale_row_mutes_new_episode Demo.clock Demo.RangeWindows Demo.text Demo.time_text Demo.hash demo_recovering None (λ _, false) Demo.wired
    Demo.once Demo.site (mkNotify 7 7) 1 2 demo_restored).
  - discriminate.
  - discriminate.
  - cbn. lia.
  - discriminate.
  - vm_compute. reflexivity.
  - vm_compute. reflexivity.
  - intros [|n] Hn; [|lia]. apply demo_reads. split; [reflexivity|vm_compute; reflexivity].
  - assert (E : (en_readings (demo_evaluations 1 demo_restored) <? 1)%nat = false ∧ (en_readings (demo_evaluations 2 demo_restored) <? 1)%nat = false)
      by (split; vm_compute; reflexivity). destruct E as [E1%Nat.ltb_ge E2%Nat.ltb_ge].
    intros [|[|[|n]]] Hn; try lia; apply demo_reads; (rewrite bool_decide_eq_false_2 by lia); (split; [reflexivity|vm_compute; reflexivity]).
  - lia.
Defined.

(** A breach as decided for the demo rule. *)
Definition demo_breach : evaluationDecision :=
  mkDecision true false [] (mkExpectation Threshold (Some GT) (Some (f64 100)) None None None None) 0 0.

(** The old leader notified at its first evaluation; the new one, at the next breach, says
    nothing either. *)
Abbreviation demo_old := (Demo.demo_run [OEvaluate Demo.once; OAcknowledge Demo.key (str "ops")] NewEngine).
Abbreviation demo_rows := {[Demo.key := mkNotify (2 * Second) (2 * Second)]}.
Abbreviation demo_ops := {[Demo.key := mkOp 0 (str "ops") (4 * Second)]}.
Abbreviation demo_new := (takeover demo_ops demo_rows demo_old).

Lemma failover_transparent_witness :
  o_acted (Demo.demo_evalSample Demo.once Demo.high None demo_new).1 = o_acted (Demo.demo_evalSample Demo.once Demo.high None demo_old).1 ∧
  o_acted (Demo.demo_evalSample Demo.once Demo.high None demo_new).1 = None.
Proof.
  split; [|vm_compute; reflexivity].
  apply (failover_transparent Demo.clock Demo.RangeWindows Demo.text Demo.time_text Demo.hash Demo.source None (λ _, false) Demo.wired)
    with (os := [OEvaluate Demo.once; OAcknowledge Demo.key (str "ops")]) (ops := demo_ops) (rows := demo_rows).
  - intros n. unfold Demo.clock, Second. lia.
  - reflexivity.
  - reflexivity.
  - discriminate.
  - cbn. lia.
  - vm_compute. reflexivity.
  - vm_compute. by eexists.
  - vm_compute. reflexivity.
  - intros st Hst. vm_compute in Hst. injection Hst as <-. vm_compute. done.
Defined.

Lemma notify_iff_witness :
  (∀ t m, Demo.RangeWindows t m ≡ₚ map_to_list m) ∧
  let '(acted, _, st', _) := transition Demo.clock Demo.RangeWindows Demo.wired Demo.key Demo.once Demo.high
    demo_breach zeroState NewEngine in
  firing st' = true ∧ is_Some acted.
Proof.
  split; [reflexivity|].
  pose proof (notify_iff Demo.clock Demo.RangeWindows Demo.wired Demo.key Demo.once Demo.high
    demo_breach zeroState NewEngine ltac:(reflexivity) eq_refl eq_refl ltac:(vm_compute; discriminate)) as H.
  cbv zeta in H. destruct (transition _ _ _ _ _ _ _ _ _) as [[[acted state] st'] en'].
  destruct H as (H1 & H2 & _). split; [exact H1|]. apply H2. split; [|split].
  - intros (id & w & Hw & _). vm_compute in Hw. discriminate Hw.
  - vm_compute. discriminate.
  - left. reflexivity.
Defined.

Lemma state_key_roundtrip_witness :
  labelsFromStateKey (stateKey (str "r1") Demo.site) (str "r1" ++ str "|") = Demo.site.
Proof.
  apply (state_key_roundtrip (str "r1") Demo.site). apply (bool_decide_unpack _). vm_compute. exact I.
Defined.

End Alert.
