(* ===== verification/GoProg.v ===== *)
(** * Cancellable Go functions

    Decoders that take a context.Context poll it between steps and give up with its
    error, return sentinel errors (possibly joined), and would panic on an index or a
    slice out of range.  Such a function is a [prog]: a tree of polls ending in a result.
    [run] executes it against a context, [value] is its result when the context is never
    done.  [Cancels p] says that a context can only replace the result of [p] by the
    context's error, never change it or leave part of it. *)

From S2P Require Import Prelude.
#[local] Open Scope Z_scope.

(** context.Canceled and context.DeadlineExceeded. *)
Inductive ctx_error := Canceled | DeadlineExceeded.

#[export] Instance ctx_error_eq_dec : EqDecision ctx_error.
Proof. solve_decision. Defined.

(** What the k-th call of ctx.Err() of an operation returns. *)
Definition Context_ : Type := nat → option ctx_error.

Definition Background : Context_ := λ _, None.

Inductive prog (E A : Type) :=
| Ret (a : A)
| Fail (e : E)
| Panic
| OutOfFuel
| Poll (stop : ctx_error → prog E A) (go : prog E A).

Arguments Ret {_ _} _.
Arguments Fail {_ _} _.
Arguments Panic {_ _}.
Arguments OutOfFuel {_ _}.
Arguments Poll {_ _} _ _.

Inductive outcome (E A : Type) := Ok (a : A) | Err (e : E) | Panics | Diverges.

Arguments Ok {_ _} _.
Arguments Err {_ _} _.
Arguments Panics {_ _}.
Arguments Diverges {_ _}.

Fixpoint run {E A} (ctx : Context_) (n : nat) (p : prog E A) : outcome E A :=
  match p with
  | Ret a => Ok a
  | Fail e => Err e
  | Panic => Panics
  | OutOfFuel => Diverges
  | Poll stop go =>
      match ctx n with
      | Some c => run ctx (S n) (stop c)
      | None => run ctx (S n) go
      end
  end.

Fixpoint value {E A} (p : prog E A) : outcome E A :=
  match p with
  | Ret a => Ok a
  | Fail e => Err e
  | Panic => Panics
  | OutOfFuel => Diverges
  | Poll _ go => value go
  end.

(** ** Sequencing and error handling *)

Fixpoint prog_bind {E A B} (k : A → prog E B) (p : prog E A) : prog E B :=
  match p with
  | Ret a => k a
  | Fail e => Fail e
  | Panic => Panic
  | OutOfFuel => OutOfFuel
  | Poll stop go => Poll (λ c, prog_bind k (stop c)) (prog_bind k go)
  end.

#[export] Instance prog_ret {E} : MRet (prog E) := λ A a, Ret a.
#[export] Instance prog_mbind {E} : MBind (prog E) := λ A B k p, prog_bind k p.

(** [if err != nil { return h(err) }]: every error of [p] goes through [h], the
    context's included. *)
Fixpoint catch {E A} (p : prog E A) (h : E → prog E A) : prog E A :=
  match p with
  | Ret a => Ret a
  | Fail e => h e
  | Panic => Panic
  | OutOfFuel => OutOfFuel
  | Poll stop go => Poll (λ c, catch (stop c) h) (catch go h)
  end.

Definition obind {E A B} (o : outcome E A) (k : A → outcome E B) : outcome E B :=
  match o with
  | Ok a => k a
  | Err e => Err e
  | Panics => Panics
  | Diverges => Diverges
  end.

(** ** Errors

    errors.Join of sentinels is the list of them: errors.Is asks for membership. *)
Class Sentinel (X : Type) := { sentinel_dec :: EqDecision X; ctx_err : ctx_error → X }.

Section errors.
Context {X : Type} `{!Sentinel X}.

Definition Is (e : list X) (s : X) : bool := bool_decide (s ∈ e).
Definition Join (s : X) (e : list X) : list X := s :: e.

(** [if err := ctx.Err(); err != nil { return err }] *)
Definition poll : prog (list X) () := Poll (λ c, Fail [ctx_err c]) (Ret tt).

(** [if b { return s }] *)
Definition fail_if (b : bool) (s : X) : prog (list X) () := if b then Fail [s] else Ret tt.

End errors.

(** [b[i]] and [b[i:j]], with the run-time checks. *)
Definition index {E} (b : list byte) (i : Z) : prog E Z :=
  if (0 <=? i) && (i <? len b) then Ret (at_ b i) else Panic.
Definition subslice {E A} (b : list A) (i j : Z) : prog E (list A) :=
  if (0 <=? i) && (i <=? j) && (j <=? len b) then Ret (slice b i j) else Panic.

(** ** The result when nothing cancels *)

Section value.
Context {E : Type}.

Lemma value_ret {A} (a : A) : value (mret a : prog E A) = Ok a.
Proof. done. Qed.

Lemma value_bind {A B} (p : prog E A) (k : A → prog E B) :
  value (p ≫= k) = obind (value p) (λ a, value (k a)).
Proof. induction p; cbn; auto. Qed.

Lemma value_catch {A} (p : prog E A) h :
  value (catch p h) = match value p with Err e => value (h e) | o => o end.
Proof. induction p; cbn; auto. Qed.

Lemma value_index b i : 0 ≤ i < len b → value (index b i : prog E Z) = Ok (at_ b i).
Proof. intros H. unfold index. destruct (0 <=? i) eqn:?, (i <? len b) eqn:?; zbool; done || lia. Qed.

Lemma value_subslice {A} (b : list A) i j :
  0 ≤ i → i ≤ j → j ≤ len b → value (subslice b i j : prog E (list A)) = Ok (slice b i j).
Proof.
  intros. unfold subslice. destruct (0 <=? i) eqn:?, (i <=? j) eqn:?, (j <=? len b) eqn:?; zbool; done || lia.
Qed.

Lemma value_if {A} (b : bool) (p q : prog E A) : value (if b then p else q) = if b then value p else value q.
Proof. by destruct b. Qed.

End value.

Lemma value_fail_if {X : Type} (b : bool) (s : X) : value (fail_if b s) = if b then Err [s] else Ok tt.
Proof. by destruct b. Qed.

Lemma value_poll {X} `{!Sentinel X} : value (poll : prog (list X) ()) = Ok tt.
Proof. done. Qed.

(** A sequence after a guard: either the guard's error or the rest. *)
Lemma obind_if {E A B} (b : bool) (e : E) (a : A) (k : A → outcome E B) :
  obind (if b then Err e else Ok a) k = if b then Err e else k a.
Proof. by destruct b. Qed.

Create Rewrite HintDb prog.
#[export] Hint Rewrite @value_ret @value_bind @value_catch @value_fail_if @value_poll @value_if @obind_if : prog.

(** Step through a translated function: the guards become conditionals. *)
Ltac prog_simpl := repeat progress (autorewrite with prog; cbn [obind]).

(** ** Inverting a successful run *)

Section invert.
Context {E : Type}.

Lemma bind_Ok {A B} (p : prog E A) (k : A → prog E B) b :
  value (p ≫= k) = Ok b → ∃ a, value p = Ok a ∧ value (k a) = Ok b.
Proof. rewrite value_bind. destruct (value p) as [a| | |]; [|done..]. intros H. by exists a. Qed.

Lemma catch_Ok {A} (p : prog E A) h a :
  (∀ e, value (h e) ≠ Ok a) → value (catch p h) = Ok a → value p = Ok a.
Proof. intros Hh. rewrite value_catch. destruct (value p) as [x|e| |]; try done. intros H. by destruct (Hh e). Qed.

Lemma index_Ok {B} (b : list byte) i (k : Z → prog E B) r :
  value (index b i ≫= k) = Ok r → 0 ≤ i < len b ∧ value (k (at_ b i)) = Ok r.
Proof.
  unfold index. destruct (0 <=? i) eqn:E1, (i <? len b) eqn:E2; cbn [andb]; try done. zbool. intros H. split; [lia|done].
Qed.

Lemma subslice_Ok {A B} (b : list A) i j (k : list A → prog E B) r :
  value (subslice b i j ≫= k) = Ok r → (0 ≤ i ∧ i ≤ j ∧ j ≤ len b) ∧ value (k (slice b i j)) = Ok r.
Proof.
  unfold subslice. destruct (0 <=? i) eqn:E1, (i <=? j) eqn:E2, (j <=? len b) eqn:E3; cbn [andb]; try done. zbool. by intros H.
Qed.

End invert.

Lemma guard_Ok {X B : Type} (b : bool) (s : X) (k : () → prog (list X) B) r :
  value (fail_if b s ≫= k) = Ok r → b = false ∧ value (k tt) = Ok r.
Proof. by destruct b. Qed.

Lemma poll_Ok {X} `{!Sentinel X} {B} (k : () → prog (list X) B) r :
  value (poll ≫= k) = Ok r → value (k tt) = Ok r.
Proof. done. Qed.

(** ** Cancellation *)

(** The context's error is part of the error. *)
Definition from_ctx {X} `{!Sentinel X} (e : list X) : Prop := ∃ c, ctx_err c ∈ e.

(** Every poll of the program answers a done context with the context's error. *)
Class Cancels {X} `{!Sentinel X} {A} (p : prog (list X) A) : Prop := cancels ctx n :
  run ctx n p = value p ∨ ∃ e, run ctx n p = Err e ∧ from_ctx e.

Section cancels.
Context {X : Type} `{!Sentinel X}.
Implicit Types (A B : Type).

(** The structural form: what the polls do, for programs built from other programs. *)
Fixpoint polls {A} (P : list X → Prop) (p : prog (list X) A) : Prop :=
  match p with
  | Poll stop go => (∀ c, ∃ e, stop c = Fail e ∧ P e) ∧ polls P go
  | _ => True
  end.

Lemma polls_run {A} (P : list X → Prop) (p : prog (list X) A) ctx n :
  polls P p → run ctx n p = value p ∨ ∃ e, run ctx n p = Err e ∧ P e.
Proof.
  revert n. induction p as [| | | |stop _ go IH]; intros n H; cbn; auto.
  destruct H as [Hs Hg]. destruct (ctx n) as [c|]; [|by apply IH].
  destruct (Hs c) as (e & -> & He). right. by exists e.
Qed.

Lemma polls_cancels {A} (p : prog (list X) A) : polls from_ctx p → Cancels p.
Proof. intros H ctx n. by apply polls_run. Qed.

Lemma polls_bind {A B} P (p : prog (list X) A) (k : A → prog (list X) B) :
  polls P p → (∀ a, polls P (k a)) → polls P (p ≫= k).
Proof.
  intros Hp Hk. induction p as [| | | |stop _ go IH]; cbn; auto.
  destruct Hp as [Hs Hg]. split; [|by apply IH].
  intros c. destruct (Hs c) as (e & -> & He). by exists e.
Qed.

Lemma polls_catch {A} (P Q : list X → Prop) (p : prog (list X) A) h :
  polls P p → (∀ e, P e → ∃ e', h e = Fail e' ∧ Q e') → (∀ e, polls Q (h e)) → polls Q (catch p h).
Proof.
  intros Hp HP Hh. induction p as [| | | |stop _ go IH]; cbn; auto.
  destruct Hp as [Hs Hg]. split; [|by apply IH].
  intros c. destruct (Hs c) as (e & -> & He). cbn. by apply HP.
Qed.

Lemma polls_mono {A} (P Q : list X → Prop) (p : prog (list X) A) :
  (∀ e, P e → Q e) → polls P p → polls Q p.
Proof.
  intros HPQ Hp. induction p as [| | | |stop _ go IH]; cbn; auto.
  destruct Hp as [Hs Hg]. split; [|by apply IH].
  intros c. destruct (Hs c) as (e & -> & He). eauto.
Qed.

(** The errors of a poll itself. *)
Definition bare (e : list X) : Prop := ∃ c, e = [ctx_err c].

Lemma bare_from_ctx e : bare e → from_ctx e.
Proof. intros [c ->]. exists c. set_solver. Qed.

Lemma from_ctx_Join s e : from_ctx e → from_ctx (Join s e).
Proof. intros [c Hc]. exists c. set_solver. Qed.

Lemma polls_poll (P : list X → Prop) : (∀ c, P [ctx_err c]) → polls P poll.
Proof. intros H. split; [|done]. intros c. by exists [ctx_err c]. Qed.

Lemma polls_fail_if P b s : polls P (fail_if b s).
Proof. by destruct b. Qed.
Lemma polls_index P b i : polls P (index b i).
Proof. unfold index. by destruct (_ && _). Qed.
Lemma polls_subslice {A} P (b : list A) i j : polls P (subslice b i j).
Proof. unfold subslice. by destruct (_ && _). Qed.

End cancels.

Create HintDb polls discriminated.
#[export] Hint Constants Opaque : polls.
#[export] Hint Resolve polls_fail_if polls_index polls_subslice bare_from_ctx from_ctx_Join : polls.

(** Discharge [polls] for a translated function. *)
Ltac polls_tac :=
  repeat first
    [ progress intros
    | exact I
    | apply polls_fail_if | apply polls_index | apply polls_subslice
    | apply polls_poll; intros; first [eexists; reflexivity | apply bare_from_ctx; eexists; reflexivity]
    | assumption
    | solve [eauto with polls]
    | match goal with |- polls _ (_ ≫= _) => apply polls_bind end
    | match goal with
      | |- polls _ (match ?x with _ => _ end) => destruct x
      end ].

(** ** Totality

    [Settles p]: without cancellation [p] returns a result or an error; it neither panics
    nor runs out of fuel. *)
Class Settles {E A} (p : prog E A) : Prop := settles : (∃ a, value p = Ok a) ∨ ∃ e, value p = Err e.

Section settles.
Context {E : Type}.

Lemma settles_ret {A} (a : A) : Settles (mret a : prog E A).
Proof. left. by exists a. Qed.
Lemma settles_fail {A} (e : E) : Settles (Fail e : prog E A).
Proof. right. by exists e. Qed.
Lemma settles_bind {A B} (p : prog E A) (k : A → prog E B) :
  Settles p → (∀ a, value p = Ok a → Settles (k a)) → Settles (p ≫= k).
Proof.
  intros [[a Ha]|[e He]] Hk; [|right; exists e; by rewrite value_bind, He].
  destruct (Hk a Ha) as [[b Hb]|[e He]]; [left; exists b|right; exists e]; by rewrite value_bind, Ha.
Qed.
Lemma settles_catch {A} (p : prog E A) h : Settles p → (∀ e, Settles (h e)) → Settles (catch p h).
Proof.
  intros [[a Ha]|[e He]] Hh; [left; exists a; by rewrite value_catch, Ha|].
  destruct (Hh e) as [[b Hb]|[e' He']]; [left; exists b|right; exists e']; by rewrite value_catch, He.
Qed.
Lemma settles_index {A} (b : list byte) i (k : Z → prog E A) :
  0 ≤ i < len b → Settles (k (at_ b i)) → Settles (index b i ≫= k).
Proof.
  intros Hi Hk. apply settles_bind; [left; eexists; by apply value_index|].
  intros a. rewrite value_index by done. by intros [= <-].
Qed.
Lemma settles_subslice {A B} (b : list A) i j (k : list A → prog E B) :
  0 ≤ i → i ≤ j → j ≤ len b → Settles (k (slice b i j)) → Settles (subslice b i j ≫= k).
Proof.
  intros Hi Hj Hl Hk. apply settles_bind; [left; eexists; by apply value_subslice|].
  intros a. rewrite value_subslice by done. by intros [= <-].
Qed.
Lemma settles_if {A} (b : bool) (p q : prog E A) :
  (b = true → Settles p) → (b = false → Settles q) → Settles (if b then p else q).
Proof. destruct b; auto. Qed.

End settles.

Lemma settles_guard {X A : Type} (b : bool) (s : X) (k : () → prog (list X) A) :
  (b = false → Settles (k tt)) → Settles (fail_if b s ≫= k).
Proof. intros H. destruct b; [apply settles_fail|by apply H]. Qed.
Lemma settles_poll {X} `{!Sentinel X} {A} (k : () → prog (list X) A) : Settles (k tt) → Settles (poll ≫= k).
Proof. intros [H|H]; [left|right]; destruct H as [x H]; exists x; by rewrite value_bind. Qed.
