(* ===== verification/BgpBase.v ===== *)
(** * Shared vocabulary of the BGP and BMP decoders (internal/bgp)

    The sentinel errors of the package, operation budgets, and the wire constants.  The
    decoders are [prog]s whose errors are joined sentinels. *)

From S2P Require Import Prelude GoProg.
#[local] Open Scope Z_scope.

(** The sentinel errors of the package, and a context's error. *)
Inductive bgp_err :=
| ErrASPathSyntax | ErrASPathBudget
| ErrRouteASAttributes
| ErrRouteAttributes | ErrRouteAttributeBudget
| ErrBGPRouteFrame
| ErrBGPRoutePrefix | ErrBGPRoutePrefixBudget
| ErrBGPUpdateFrame | ErrBGPUpdateFrameBudget
| ErrMPRouteAttributes | ErrMPRouteBudget
| ErrRouteCapabilities
| ErrBMPRouteViewHeader
| ErrBMPPeerUp | ErrBMPPeerUpBudget
| ErrBMPPeerDown | ErrBMPPeerDownBudget
| ErrBMPSourceRoute | ErrBMPRouteChanges
| CtxErr (c : ctx_error).

#[export] Instance bgp_err_sentinel : Sentinel bgp_err.
Proof. split; [solve_decision|exact CtxErr]. Defined.

Notation BM := (prog (list bgp_err)).

(** ASPathParseBudget, RouteAttributeBudget, RoutePrefixBudget, UpdateFrameBudget,
    MultiprotocolBudget and PeerMessageBudget have the same two fields and are converted
    into each other. *)
Record Budget := mkBudget { MemoryBytes : Z; WorkUnits : Z }.

(** Both fields are int64. *)
Definition budget_ok (b : Budget) : Prop := MemoryBytes b < 2 ^ 63 ∧ WorkUnits b < 2 ^ 63.

(** [budget.MemoryBytes <= 0 || budget.WorkUnits <= 0 || n > MemoryBytes/m || n > WorkUnits/w]:
    the shape of every whole-operation admission check. *)
Definition over (b : Budget) (n m w : Z) : bool :=
  (MemoryBytes b <=? 0) || (WorkUnits b <=? 0) || (Z.quot (MemoryBytes b) m <? n) || (Z.quot (WorkUnits b) w <? n).

Definition bmpVersion : Z := 3.
Definition bmpCommonHeaderLen : Z := 6.
Definition bmpPeerHeaderLen : Z := 42.
Definition bmpRouteMonitoring : Z := 0.
Definition bgpHeaderLen : Z := 19.
Definition bgpMessageTypeUpdate : Z := 2.

Record RouteFamily := mkFamily { AFI : Z; SAFI : Z }.

#[export] Instance RouteFamily_eq_dec : EqDecision RouteFamily.
Proof. solve_decision. Defined.
#[export] Instance RouteFamily_countable : Countable RouteFamily :=
  inj_countable' (λ f, (AFI f, SAFI f)) (λ p, mkFamily p.1 p.2) ltac:(by intros []).

(** [binary.BigEndian.Uint16(b[i:i+2])] and [Uint32(b[i:i+4])]. *)
Definition beU16 {E} (b : list byte) (i : Z) : prog E Z := s ← subslice b i (i + 2); mret (be_uint s).
Definition beU32 {E} (b : list byte) (i : Z) : prog E Z := s ← subslice b i (i + 4); mret (be_uint s).

Lemma over_false b n m w :
  0 < m → 0 < w → over b n m w = false ↔
  0 < MemoryBytes b ∧ 0 < WorkUnits b ∧ n * m ≤ MemoryBytes b ∧ n * w ≤ WorkUnits b.
Proof.
  intros Hm Hw. unfold over. rewrite !orb_false_iff, !Z.leb_gt, !Z.ltb_ge.
  split; intros H; destruct_and!; split_and!; try done.
  - rewrite Z.quot_div_nonneg in * by lia. pose proof (Z.mul_div_le (MemoryBytes b) m). nia.
  - rewrite Z.quot_div_nonneg in * by lia. pose proof (Z.mul_div_le (WorkUnits b) w). nia.
  - rewrite Z.quot_div_nonneg by lia. apply Z.div_le_lower_bound; nia.
  - rewrite Z.quot_div_nonneg by lia. apply Z.div_le_lower_bound; nia.
Qed.

(** A Go quotient bound as a product bound. *)
Lemma quot_ge a m n : 0 ≤ a → 0 < m → n ≤ Z.quot a m ↔ n * m ≤ a.
Proof.
  intros Ha Hm. rewrite Z.quot_div_nonneg by lia. split; intros H.
  - pose proof (Z.mul_div_le a m). nia.
  - apply Z.div_le_lower_bound; nia.
Qed.

(** Reading at the front of an encoding. *)
Lemma slice_take {A} (l r : list A) n : n = len l → slice (l ++ r) 0 n = l.
Proof. intros ->. apply slice_app_l. Qed.

Lemma slice_mid {A} (a l r : list A) i j : i = len a → j = i + len l → slice (a ++ l ++ r) i j = l.
Proof.
  intros -> ->. unfold slice, len. rewrite Nat2Z.id, drop_app_length.
  replace (Z.to_nat _) with (length l) by lia. apply take_app_length.
Qed.

Lemma at_app_r (a l : list byte) i : len a ≤ i → at_ (a ++ l) i = at_ l (i - len a).
Proof.
  intros H. unfold at_, len in *. rewrite app_nth2 by lia. do 2 f_equal. lia.
Qed.

(** Cutting a slice in two, and two-byte and one-byte slices as numbers. *)
Lemma slice_cat {A} (l : list A) i j k :
  0 ≤ i → i ≤ j → j ≤ k → k ≤ len l → slice l i k = slice l i j ++ slice l j k.
Proof.
  intros Hi Hij Hjk Hkl. unfold slice, len in *.
  replace (Z.to_nat (k - i)) with (Z.to_nat (j - i) + Z.to_nat (k - j))%nat by lia.
  rewrite <- (take_take_drop _ (Z.to_nat (j - i)) (Z.to_nat (k - j))), drop_drop. do 3 f_equal. lia.
Qed.

Lemma slice_be (n : nat) (l : list byte) i :
  0 ≤ i → i + Z.of_nat n ≤ len l →
  let s := slice l i (i + Z.of_nat n) in be_bytes n (be_uint s) = s ∧ 0 ≤ be_uint s < 256 ^ Z.of_nat n.
Proof.
  intros Hi Hl s. assert (length s = n) as E.
  { pose proof (len_slice l i (i + Z.of_nat n)) as H. fold s in H. unfold len in *. lia. }
  split; [rewrite <- E at 1; apply be_bytes_be_uint|]. pose proof (be_uint_range s) as Hr. by rewrite E in Hr.
Qed.

Lemma slice_one (l : list byte) i : 0 ≤ i < len l → slice l i (i + 1) = [Zbyte (at_ l i)].
Proof.
  intros H. unfold slice, at_. replace (Z.to_nat (i + 1 - i)) with 1%nat by lia.
  assert (Z.to_nat i < length l)%nat as Hb by (unfold len in H; lia).
  apply lookup_lt_is_Some in Hb as [b Hb]. rewrite (drop_S _ b) by done.
  rewrite (nth_lookup_Some _ _ _ _ Hb), Zbyte_byteZ. done.
Qed.

Lemma slice_split {A} (raw pre mid post : list A) i j :
  raw = pre ++ mid ++ post → i = len pre → j = i + len mid → slice raw i j = mid.
Proof. intros ->. apply slice_mid. Qed.

Lemma value_beU16 {E} (b : list byte) i :
  0 ≤ i → i + 2 ≤ len b → value (beU16 b i : prog E Z) = Ok (be_uint (slice b i (i + 2))).
Proof. intros. unfold beU16. rewrite value_bind, value_subslice by lia. done. Qed.

Lemma value_beU32 {E} (b : list byte) i :
  0 ≤ i → i + 4 ≤ len b → value (beU32 b i : prog E Z) = Ok (be_uint (slice b i (i + 4))).
Proof. intros. unfold beU32. rewrite value_bind, value_subslice by lia. done. Qed.

Lemma polls_beU16 P (b : list byte) i : polls P (beU16 b i : BM Z).
Proof. apply polls_bind; [apply polls_subslice|done]. Qed.
Lemma polls_beU32 P (b : list byte) i : polls P (beU32 b i : BM Z).
Proof. apply polls_bind; [apply polls_subslice|done]. Qed.

#[export] Hint Resolve polls_beU16 polls_beU32 : polls.

(** Step over reads that are in range by arithmetic on the lengths. *)
Ltac prog_reads tac :=
  repeat (prog_simpl; first
    [ rewrite value_index by tac | rewrite value_subslice by tac
    | rewrite value_beU16 by tac | rewrite value_beU32 by tac ]); prog_simpl.

Lemma byteZ_Zbyte_small z : 0 ≤ z < 256 → byteZ (Zbyte z) = z.
Proof. intros. rewrite byteZ_Zbyte. apply Z.mod_small. lia. Qed.

Lemma at_cons_0 x (l : list byte) : at_ (x :: l) 0 = byteZ x.
Proof. done. Qed.
Lemma at_cons_1 x y (l : list byte) : at_ (x :: y :: l) 1 = byteZ y.
Proof. done. Qed.
Lemma at_cons_2 x y z (l : list byte) : at_ (x :: y :: z :: l) 2 = byteZ z.
Proof. done. Qed.

(** Decide a comparison by arithmetic. *)
Ltac ltb_false := match goal with |- context [?a <? ?b] =>
  replace (a <? b) with false by (symmetry; apply Z.ltb_ge; lia) end.

Ltac ltb_true := match goal with |- context [?a <? ?b] =>
  replace (a <? b) with true by (symmetry; apply Z.ltb_lt; zbool; lia) end.

(** Walk through the polls and guards of a translated function, discharging the run-time
    checks of its reads by arithmetic from the guards passed so far. *)
Lemma settles_beU16 {E A} (b : list byte) i (k : Z → prog E A) :
  0 ≤ i → i + 2 ≤ len b → (0 ≤ be_uint (slice b i (i + 2)) < 2 ^ 16 → Settles (k (be_uint (slice b i (i + 2))))) →
  Settles (beU16 b i ≫= k).
Proof.
  intros Hi Hl Hk. apply settles_bind; [left; eexists; by apply value_beU16|].
  intros a. rewrite value_beU16 by done. intros [= <-]. apply Hk. apply (slice_be 2 b i); lia.
Qed.
Lemma settles_beU32 {E A} (b : list byte) i (k : Z → prog E A) :
  0 ≤ i → i + 4 ≤ len b → (0 ≤ be_uint (slice b i (i + 4)) < 2 ^ 32 → Settles (k (be_uint (slice b i (i + 4))))) →
  Settles (beU32 b i ≫= k).
Proof.
  intros Hi Hl Hk. apply settles_bind; [left; eexists; by apply value_beU32|].
  intros a. rewrite value_beU32 by done. intros [= <-]. apply Hk. apply (slice_be 4 b i); lia.
Qed.

Lemma beU16_Ok {E B} (b : list byte) i (k : Z → prog E B) r :
  value (beU16 b i ≫= k) = Ok r → (0 ≤ i ∧ i + 2 ≤ len b) ∧ value (k (be_uint (slice b i (i + 2)))) = Ok r.
Proof.
  unfold beU16. intros (n & H & Hk)%bind_Ok. apply subslice_Ok in H as [Hr H]. injection H as <-. split; [lia|done].
Qed.

Lemma beU32_Ok {E B} (b : list byte) i (k : Z → prog E B) r :
  value (beU32 b i ≫= k) = Ok r → (0 ≤ i ∧ i + 4 ≤ len b) ∧ value (k (be_uint (slice b i (i + 4)))) = Ok r.
Proof.
  unfold beU32. intros (n & H & Hk)%bind_Ok. apply subslice_Ok in H as [Hr H]. injection H as <-. split; [lia|done].
Qed.

(** The polls, guards and reads at the front of a successful run. *)
Ltac run_guards H :=
  repeat first
    [ apply poll_Ok in H
    | apply guard_Ok in H; let G := fresh "G" in destruct H as [G H]
    | apply index_Ok in H; let R := fresh "R" in destruct H as [R H]
    | apply subslice_Ok in H; let R := fresh "R" in destruct H as [R H]
    | apply beU16_Ok in H; let R := fresh "R" in destruct H as [R H]
    | apply beU32_Ok in H; let R := fresh "R" in destruct H as [R H] ].

(** The next call of a successful run. *)
Tactic Notation "run_call" hyp(H) "as" simple_intropattern(x) ident(E) :=
  apply bind_Ok in H; destruct H as (x & E & H).

Ltac settle :=
  repeat first
    [ apply settles_ret | apply settles_fail
    | apply settles_poll
    | apply settles_guard; intros ?; zbool
    | apply settles_index; [lia|]
    | apply settles_beU16; [lia|lia|intros ?]
    | apply settles_beU32; [lia|lia|intros ?]
    | apply settles_subslice; [lia|lia|lia|]
    | apply settles_if; intros ?; zbool ].
