(* ===== verification/AsPath.v ===== *)
(** * AS paths (internal/bgp/as_path_segments.go, as_path_reconstruction.go,
      routing_path_fields.go)

    Decoding of structured AS paths, their reconstruction from AS_PATH and AS4_PATH
    (RFC 6793), and the projection shown to users.  Values that Go shares between slices
    (one backing array for all segments, filtering in place) are never written after they
    are shared, so a path is a plain list here. *)

From S2P Require Import Prelude GoProg BgpBase GoString.
#[local] Open Scope Z_scope.

Module AsPath.

(** ** Structured paths *)

Definition ASPathSet : Z := 1.
Definition ASPathSequence : Z := 2.
Definition ASPathConfedSequence : Z := 3.
Definition ASPathConfedSet : Z := 4.

Record ASPathSegment := mkSegment { Kind : Z; Values : list Z }.

#[export] Instance ASPathSegment_eq_dec : EqDecision ASPathSegment.
Proof. solve_decision. Defined.

(** The validating pass over [value[pos:]]: the numbers of segments and of ASNs. *)
Fixpoint count_loop (fuel : nat) (width : Z) (rest : list byte) (segments entries : Z) : BM (Z * Z) :=
  match rest with
  | [] => mret (segments, entries)
  | _ :: _ =>
      match fuel with
      | O => OutOfFuel
      | S fuel =>
          poll;;
          fail_if (len rest <? 2) ErrASPathSyntax;;
          kind ← index rest 0;
          count ← index rest 1;
          fail_if ((kind <? ASPathSet) || (ASPathConfedSet <? kind) || (count =? 0) ||
                   (Z.quot (len rest - 2) width <? count)) ErrASPathSyntax;;
          count_loop fuel width (drop (Z.to_nat (2 + count * width)) rest) (segments + 1) (entries + count)
      end
  end.

(** The inner loop of the second pass: [count] ASNs and what follows them. *)
Fixpoint read_asns (count : nat) (width : Z) (rest : list byte) : BM (list Z * list byte) :=
  match count with
  | O => mret ([], rest)
  | S count =>
      v ← (if width =? 4 then beU32 rest 0 else beU16 rest 0);
      '(vs, rest) ← read_asns count width (drop (Z.to_nat width) rest);
      mret (v :: vs, rest)
  end.

Fixpoint read_loop (fuel : nat) (width : Z) (rest : list byte) : BM (list ASPathSegment) :=
  match rest with
  | [] => mret []
  | _ :: _ =>
      match fuel with
      | O => OutOfFuel
      | S fuel =>
          poll;;
          kind ← index rest 0;
          count ← index rest 1;
          '(vs, rest) ← read_asns (Z.to_nat count) width (drop 2 rest);
          out ← read_loop fuel width rest;
          mret (mkSegment kind vs :: out)
      end
  end.

Definition ParseASPathSegments (v : list byte) (width : Z) (budget : Budget) : BM (list ASPathSegment) :=
  poll;;
  fail_if (negb (width =? 2) && negb (width =? 4)) ErrASPathSyntax;;
  fail_if ((MemoryBytes budget <=? 0) || (WorkUnits budget <=? 0) || (Z.quot (WorkUnits budget) 2 <? len v))
    ErrASPathBudget;;
  '(segments, entries) ← count_loop (length v) width v 0 0;
  fail_if (Z.quot (MemoryBytes budget) 32 <? segments) ErrASPathBudget;;
  let remaining := MemoryBytes budget - segments * 32 in
  fail_if (Z.quot remaining 4 <? entries) ErrASPathBudget;;
  output ← read_loop (length v) width v;
  poll;;
  mret output.

(** ** Reconstruction from AS_PATH and AS4_PATH *)

(** A nil slice is [None]: the attribute is absent. *)
Record ASPathAttributes := mkAttributes {
  FourOctetSession : bool; Path : option (list byte); AS4Path : option (list byte);
  AggregatorPresent : bool; AS4AggregatorPresent : bool; AggregatorASN : Z }.

Inductive AS4Action_t :=
| Absent | IgnoredFourOctetSession | IgnoredLegacyAggregation | IgnoredMalformed
| IgnoredLongerThanLegacy | Reconstructed.

#[export] Instance AS4Action_eq_dec : EqDecision AS4Action_t.
Proof. solve_decision. Defined.

Record ASPathReconstruction := mkReconstruction {
  Segments : list ASPathSegment; AS4Action : AS4Action_t; AS4ConfederationsDiscarded : bool }.

Definition is_confed (s : ASPathSegment) : bool :=
  (Kind s =? ASPathConfedSequence) || (Kind s =? ASPathConfedSet).

Definition asPathSelectionLength (path : list ASPathSegment) : Z :=
  foldl (λ count s, if Kind s =? ASPathSet then count + 1
                    else if Kind s =? ASPathSequence then count + len (Values s) else count) 0 path.

(** The memory charge of the segments, one by one. *)
Fixpoint charge (memory : Z) (path : list ASPathSegment) : BM Z :=
  match path with
  | [] => mret memory
  | s :: path =>
      fail_if ((memory <? 32) || (Z.quot (memory - 32) 4 <? len (Values s))) ErrASPathBudget;;
      charge (memory - (32 + len (Values s) * 4)) path
  end.

Definition remainingASPathAdmission (budget : Budget) (path : list ASPathSegment) (work : Z) : BM Budget :=
  fail_if ((work <? 0) || (WorkUnits budget <? work)) ErrASPathBudget;;
  memory ← charge (MemoryBytes budget) path;
  mret (mkBudget memory (WorkUnits budget - work)).

(** The optional path without its confederation segments, and whether it had any. *)
Fixpoint drop_confeds (path : list ASPathSegment) : BM (list ASPathSegment * bool) :=
  match path with
  | [] => mret ([], false)
  | s :: path =>
      poll;;
      '(rest, found) ← drop_confeds path;
      mret (if is_confed s then (rest, true) else (s :: rest, found))
  end.

(** The leading part of the legacy path that is [keep] hops long. *)
Fixpoint keep_loop (keep : Z) (path : list ASPathSegment) : BM (list ASPathSegment) :=
  match path with
  | [] => mret []
  | s :: path =>
      poll;;
      if is_confed s then rest ← keep_loop keep path; mret (s :: rest)
      else if keep =? 0 then mret []
      else if Kind s =? ASPathSet then rest ← keep_loop (keep - 1) path; mret (s :: rest)
      else
        let taken := Z.min keep (len (Values s)) in
        values ← subslice (Values s) 0 taken;
        if taken <? len (Values s) then mret [mkSegment (Kind s) values]
        else rest ← keep_loop (keep - taken) path; mret (mkSegment (Kind s) values :: rest)
  end.

Definition asTrans : Z := 23456.

(** The part of ReconstructASPath from the point where both paths are parsed. *)
Definition merge_paths (legacy extended : list ASPathSegment) (left_ : Budget) : BM ASPathReconstruction :=
  '(extended, discarded) ← drop_confeds extended;
  let oldLength := asPathSelectionLength legacy in
  let newLength := asPathSelectionLength extended in
  if oldLength <? newLength then mret (mkReconstruction legacy IgnoredLongerThanLegacy discarded)
  else
    let maximumSegments := len legacy + len extended in
    fail_if (Z.quot (MemoryBytes left_) 32 <? maximumSegments) ErrASPathBudget;;
    fail_if (WorkUnits left_ <? len legacy + len extended) ErrASPathBudget;;
    result ← keep_loop (oldLength - newLength) legacy;
    poll;;
    mret (mkReconstruction (result ++ extended) Reconstructed discarded).

Definition ReconstructASPath (input : ASPathAttributes) (budget : Budget) : BM ASPathReconstruction :=
  poll;;
  match Path input with
  | None => Fail [ErrASPathSyntax]
  | Some path =>
      let width := if FourOctetSession input then 4 else 2 in
      legacy ← ParseASPathSegments path width budget;
      left_ ← remainingASPathAdmission budget legacy (i64 (len path * 2));
      let out action := mkReconstruction legacy action false in
      match AS4Path input with
      | None => mret (out Absent)
      | Some as4 =>
          if FourOctetSession input then mret (out IgnoredFourOctetSession)
          else if AggregatorPresent input && AS4AggregatorPresent input && negb (AggregatorASN input =? asTrans)
          then mret (out IgnoredLegacyAggregation)
          else if (len as4 <? 6) || negb (Z.rem (len as4) 2 =? 0) then mret (out IgnoredMalformed)
          else
            (* [None]: the error is ErrASPathSyntax, and the attribute is discarded *)
            extended ← catch (e ← ParseASPathSegments as4 4 left_; mret (Some e))
              (λ e, if Is e ErrASPathSyntax then mret None else Fail e);
            match extended with
            | None => mret (out IgnoredMalformed)
            | Some extended =>
                left_ ← remainingASPathAdmission left_ extended (i64 (len as4 * 2));
                merge_paths legacy extended left_
            end
      end
  end.

(** ** The projection shown to users *)

Record RoutingPathFields := mkFields {
  ASPath : list ASPathSegment; ASPathText : list byte; OriginAS : option Z; FirstTransitAS : option Z }.

Definition routingPathDelimiters (kind : Z) : gostring * gostring * byte :=
  if kind =? ASPathSet then (str "{", str "}", x2c)
  else if kind =? ASPathConfedSequence then (str "(", str ")", x20)
  else if kind =? ASPathConfedSet then (str "[", str "]", x2c)
  else (str "", str "", x20).

(** The checking pass: each segment's shape and its share of the budget. *)
Fixpoint admit_fields (memory work : Z) (path : list ASPathSegment) : BM () :=
  match path with
  | [] => mret tt
  | s :: path =>
      poll;;
      fail_if ((Kind s <? ASPathSet) || (ASPathConfedSet <? Kind s) || (len (Values s) =? 0)) ErrASPathSyntax;;
      fail_if ((Z.quot memory 64 <? len (Values s)) || (Z.quot work 12 <? len (Values s))) ErrASPathBudget;;
      admit_fields (memory - len (Values s) * 64) (work - len (Values s) * 12) path
  end.

Fixpoint asn_text (first : bool) (separator : byte) (asns : list Z) : BM (list byte) :=
  match asns with
  | [] => mret []
  | asn :: asns =>
      poll;;
      rest ← asn_text false separator asns;
      mret ((if first then [] else [separator]) ++ dec asn ++ rest)
  end.

(** The copying pass: the text of the segments. *)
Fixpoint path_text (first : bool) (path : list ASPathSegment) : BM (list byte) :=
  match path with
  | [] => mret []
  | s :: path =>
      poll;;
      let '(opening, closing, separator) := routingPathDelimiters (Kind s) in
      text ← asn_text true separator (Values s);
      rest ← path_text false path;
      mret ((if first then [] else [x20]) ++ opening ++ text ++ closing ++ rest)
  end.

(** A usable ASN: neither 0 nor AS_TRANS. *)
Definition proper (asn : Z) : bool := negb (asn =? 0) && negb (asn =? asTrans).

(** The loop from the end of the path, over the reversed path. *)
Fixpoint origin_loop (rpath : list ASPathSegment) : BM (option Z) :=
  match rpath with
  | [] => mret None
  | s :: rpath =>
      poll;;
      if is_confed s then origin_loop rpath
      else if Kind s =? ASPathSequence then
        match last (Values s) with
        | None => Panic
        | Some asn => mret (if proper asn then Some asn else None)
        end
      else mret None
  end.

Fixpoint transit_loop (origin : Z) (path : list ASPathSegment) : BM (option Z) :=
  match path with
  | [] => mret None
  | s :: path =>
      poll;;
      if is_confed s then transit_loop origin path
      else if Kind s =? ASPathSequence then
        match Values s with
        | [] => Panic
        | asn :: _ => mret (if proper asn && negb (asn =? origin) then Some asn else None)
        end
      else mret None
  end.

Definition routingPathEndpoints (path : list ASPathSegment) : BM (option Z * option Z) :=
  origin ← origin_loop (rev path);
  match origin with
  | None => mret (None, None)
  | Some o => transit ← transit_loop o path; mret (Some o, transit)
  end.

Definition ProjectRoutingPathFields (path : list ASPathSegment) (budget : Budget) : BM RoutingPathFields :=
  poll;;
  let memory := MemoryBytes budget in
  let work := WorkUnits budget in
  fail_if ((memory <? 128) || (work <? 1) || (Z.quot (memory - 128) 64 <? len path) || (Z.quot work 4 <? len path))
    ErrASPathBudget;;
  admit_fields (memory - (128 + len path * 64)) (work - len path * 4) path;;
  text ← path_text true path;
  '(origin, transit) ← routingPathEndpoints path;
  mret (mkFields path text origin transit).

(** ** The wire format as specification *)

Definition encodeSegment (w : nat) (s : ASPathSegment) : list byte :=
  Zbyte (Kind s) :: Zbyte (len (Values s)) :: concat (be_bytes w <$> Values s).

Definition encodePath (w : nat) (path : list ASPathSegment) : list byte := concat (encodeSegment w <$> path).

(** A segment that can be written with ASNs of [w] bytes. *)
Definition segment_ok (w : nat) (s : ASPathSegment) : Prop :=
  ASPathSet ≤ Kind s ≤ ASPathConfedSet ∧ 1 ≤ len (Values s) ≤ 255 ∧
  Forall (λ v, 0 ≤ v < 256 ^ Z.of_nat w) (Values s).

Definition entries_of (path : list ASPathSegment) : Z := len (concat (Values <$> path)).

(** The memory charged for a parsed path. *)
Definition path_cost (path : list ASPathSegment) : Z := len path * 32 + entries_of path * 4.

Lemma entries_cons s path : entries_of (s :: path) = len (Values s) + entries_of path.
Proof. unfold entries_of. cbn. apply len_app. Qed.

Lemma len_values w vs : len (concat (be_bytes w <$> vs)) = len vs * Z.of_nat w.
Proof.
  induction vs as [|v vs IH]; [done|]. cbn. rewrite len_app, len_be_bytes, IH, len_cons. lia.
Qed.

Lemma len_encodeSegment w s : len (encodeSegment w s) = 2 + len (Values s) * Z.of_nat w.
Proof. unfold encodeSegment. rewrite !len_cons, len_values. lia. Qed.

Lemma split_values (w n : nat) rest :
  (n * w ≤ length rest)%nat →
  ∃ vs r, length vs = n ∧ Forall (λ v, 0 ≤ v < 256 ^ Z.of_nat w) vs ∧ rest = concat (be_bytes w <$> vs) ++ r.
Proof.
  revert rest. induction n as [|n IH]; intros rest H; [by exists [], rest|].
  destruct (split_be w rest) as (z & r & Hz & ->); [lia|].
  rewrite length_app, length_be_bytes in H.
  destruct (IH r) as (vs & r' & Hl & Hvs & ->); [lia|].
  exists (z :: vs), r'. split_and!; [cbn; lia|by constructor|]. cbn. by rewrite <- app_assoc.
Qed.

(** The condition under which a pass refuses the segment at the front of [rest]. *)
Definition bad_segment (width : Z) (rest : list byte) : bool :=
  (len rest <? 2) ||
  ((at_ rest 0 <? ASPathSet) || (ASPathConfedSet <? at_ rest 0) || (at_ rest 1 =? 0) ||
   (Z.quot (len rest - 2) width <? at_ rest 1)).

Lemma encodeSegment_front w s r :
  segment_ok w s →
  at_ (encodeSegment w s ++ r) 0 = Kind s ∧ at_ (encodeSegment w s ++ r) 1 = len (Values s).
Proof.
  intros ([H1 H2] & [H3 H4] & _). unfold ASPathSet, ASPathConfedSet in *.
  unfold at_, encodeSegment. change (Z.to_nat 0) with 0%nat. change (Z.to_nat 1) with 1%nat.
  cbn [nth app]. rewrite !byteZ_Zbyte_small by lia. done.
Qed.

Lemma good_segment (w : nat) rest :
  (0 < w)%nat → bad_segment (Z.of_nat w) rest = false ↔ ∃ s r, segment_ok w s ∧ rest = encodeSegment w s ++ r.
Proof.
  intros Hw. unfold bad_segment. rewrite !orb_false_iff, !Z.ltb_ge, Z.eqb_neq. split.
  - intros (H2 & ((Hk1 & Hk2) & Hc) & Hq). destruct rest as [|k [|c rest]]; unfold len in H2; cbn in H2; [lia..|].
    change (at_ (k :: c :: rest) 0) with (byteZ k) in *. change (at_ (k :: c :: rest) 1) with (byteZ c) in *.
    pose proof (byteZ_range c). rewrite !len_cons in Hq. rewrite quot_ge in Hq by (pose proof (len_nonneg rest); lia).
    destruct (split_values w (Z.to_nat (byteZ c)) rest) as (vs & r & Hl & Hvs & ->);
      [apply Nat2Z.inj_le; rewrite Nat2Z.inj_mul, Z2Nat.id by lia; unfold len in Hq; lia|].
    exists (mkSegment (byteZ k) vs), r. unfold segment_ok, encodeSegment, len. cbn.
    rewrite Hl, Z2Nat.id, !Zbyte_byteZ by lia. split_and!; try done; lia.
  - intros (s & r & Hs & ->). destruct (encodeSegment_front w s r Hs) as [-> ->].
    destruct Hs as (Hk & Hl & _). rewrite len_app, len_encodeSegment. pose proof (len_nonneg r).
    split_and!; [lia..|]. apply quot_ge; lia.
Qed.

Lemma count_step fuel width rest segments entries :
  rest ≠ [] →
  value (count_loop (S fuel) width rest segments entries) =
  if bad_segment width rest then Err [ErrASPathSyntax]
  else value (count_loop fuel width (drop (Z.to_nat (2 + at_ rest 1 * width)) rest) (segments + 1)
                (entries + at_ rest 1)).
Proof.
  intros H. destruct rest as [|b rest]; [done|]. cbn [count_loop]. prog_simpl. unfold bad_segment.
  destruct (len (b :: rest) <? 2) eqn:E; [done|]. zbool.
  prog_reads lia. cbn [orb]. done.
Qed.

Lemma drop_segment w s r :
  segment_ok w s → drop (Z.to_nat (2 + at_ (encodeSegment w s ++ r) 1 * Z.of_nat w)) (encodeSegment w s ++ r) = r.
Proof.
  intros Hs. destruct (encodeSegment_front w s r Hs) as [_ ->].
  replace (Z.to_nat _) with (length (encodeSegment w s)); [apply drop_app_length|].
  pose proof (len_encodeSegment w s). unfold len in *. lia.
Qed.

Lemma count_ok w fuel path segments entries :
  (0 < w)%nat → Forall (segment_ok w) path → (length (encodePath w path) ≤ fuel)%nat →
  value (count_loop fuel (Z.of_nat w) (encodePath w path) segments entries) =
  Ok (segments + len path, entries + entries_of path).
Proof.
  intros Hw Hp. revert fuel segments entries. induction Hp as [|s path Hs Hp IH]; intros fuel segs ents Hf.
  - unfold entries_of, len. cbn. destruct fuel; cbn; do 2 f_equal; lia.
  - unfold encodePath in *. cbn [fmap list_fmap concat] in *. rewrite length_app in Hf.
    destruct fuel as [|fuel]; [cbn in Hf; lia|].
    rewrite count_step by done. rewrite (proj2 (good_segment w _ Hw)) by eauto.
    rewrite drop_segment by done. destruct (encodeSegment_front w s (concat (encodeSegment w <$> path)) Hs) as [_ ->].
    rewrite IH by (cbn in Hf; lia). rewrite entries_cons, len_cons. do 2 f_equal; lia.
Qed.

(** The validating pass returns exactly on encodings, and otherwise refuses. *)
Lemma count_cases w fuel rest segments entries :
  (0 < w)%nat → (length rest ≤ fuel)%nat →
  (∃ path, Forall (segment_ok w) path ∧ rest = encodePath w path) ∨
  value (count_loop fuel (Z.of_nat w) rest segments entries) = Err [ErrASPathSyntax].
Proof.
  intros Hw. revert rest segments entries. induction fuel as [|fuel IH]; intros rest segs ents Hf.
  - left. exists []. destruct rest; [done|cbn in Hf; lia].
  - destruct (decide (rest = [])) as [->|Hne]; [left; by exists []|].
    rewrite count_step by done. destruct (bad_segment (Z.of_nat w) rest) eqn:Hb; [by right|].
    apply good_segment in Hb as (s & r & Hs & ->); [|done].
    rewrite drop_segment by done. rewrite length_app in Hf.
    destruct (IH r (segs + 1) (ents + at_ (encodeSegment w s ++ r) 1)) as [(path & Hp & ->)| -> ]; [cbn in Hf; lia| |by right].
    left. exists (s :: path). split; [by constructor|done].
Qed.

Lemma read_asns_ok w vs r :
  w = 2%nat ∨ w = 4%nat → Forall (λ v, 0 ≤ v < 256 ^ Z.of_nat w) vs →
  value (read_asns (length vs) (Z.of_nat w) (concat (be_bytes w <$> vs) ++ r)) = Ok (vs, r).
Proof.
  intros Hw Hvs. induction Hvs as [|v vs Hv Hvs IH]; [done|].
  cbn [length read_asns fmap list_fmap concat]. rewrite <- app_assoc. set (tl := concat _ ++ r) in *.
  assert (Hread : value (if Z.of_nat w =? 4 then beU32 (be_bytes w v ++ tl) 0 else beU16 (be_bytes w v ++ tl) 0 : BM Z)
    = Ok v).
  { pose proof (len_nonneg tl).
    destruct Hw as [-> | ->]; [change (Z.of_nat 2 =? 4) with false|change (Z.of_nat 4 =? 4) with true]; cbv iota;
      [rewrite value_beU16|rewrite value_beU32]; try (rewrite len_app, len_be_bytes; lia); try lia;
      rewrite slice_take by (by rewrite len_be_bytes); by rewrite be_uint_be_bytes_small. }
  rewrite value_bind, Hread. cbn [obind]. rewrite Nat2Z.id.
  replace (drop w (be_bytes w v ++ tl)) with tl
    by (rewrite drop_app_ge by (rewrite length_be_bytes; lia); rewrite length_be_bytes, Nat.sub_diag; done).
  rewrite value_bind, IH. done.
Qed.

Lemma read_ok w fuel path :
  w = 2%nat ∨ w = 4%nat → Forall (segment_ok w) path → (length (encodePath w path) ≤ fuel)%nat →
  value (read_loop fuel (Z.of_nat w) (encodePath w path)) = Ok path.
Proof.
  intros Hw Hp. revert fuel. induction Hp as [|s path Hs Hp IH]; intros fuel Hf; [by destruct fuel|].
  unfold encodePath in *. cbn [fmap list_fmap concat] in *. rewrite length_app in Hf.
  destruct fuel as [|fuel]; [cbn in Hf; lia|].
  set (tl := concat _) in *. destruct (encodeSegment_front w s tl Hs) as [E0 E1].
  assert (Hl : 2 ≤ len (encodeSegment w s ++ tl)).
  { rewrite len_app, len_encodeSegment. pose proof (len_nonneg tl). pose proof (len_nonneg (Values s)). lia. }
  change (value (read_loop (S fuel) (Z.of_nat w) (encodeSegment w s ++ tl))) with
    (value (poll;; kind ← index (encodeSegment w s ++ tl) 0; count ← index (encodeSegment w s ++ tl) 1;
            '(vs, rest) ← read_asns (Z.to_nat count) (Z.of_nat w) (drop 2 (encodeSegment w s ++ tl));
            out ← read_loop fuel (Z.of_nat w) rest; mret (mkSegment kind vs :: out) : BM (list ASPathSegment))).
  prog_reads lia. rewrite E0, E1. destruct Hs as (_ & _ & Hvs).
  replace (Z.to_nat (len (Values s))) with (length (Values s)) by (unfold len; lia).
  change (drop 2 (encodeSegment w s ++ tl)) with (concat (be_bytes w <$> Values s) ++ tl).
  rewrite read_asns_ok by done. prog_simpl.
  rewrite IH by (cbn in Hf; lia). prog_simpl. by destruct s.
Qed.

Lemma width_cases width : (width = 2 ∨ width = 4) ↔ ∃ w, width = Z.of_nat w ∧ (w = 2%nat ∨ w = 4%nat).
Proof.
  split; [intros [-> | ->]; [exists 2%nat|exists 4%nat]; by auto|intros (w & -> & [-> | ->]); by auto].
Qed.

Definition parse_admitted (v : list byte) (b : Budget) : Prop :=
  0 < MemoryBytes b ∧ 0 < WorkUnits b ∧ len v * 2 ≤ WorkUnits b.

(** What the parser does, case by case. *)
Lemma parse_cases v w b :
  w = 2%nat ∨ w = 4%nat →
  let r := value (ParseASPathSegments v (Z.of_nat w) b) in
  (¬ parse_admitted v b ∧ r = Err [ErrASPathBudget]) ∨
  (parse_admitted v b ∧
   (((∀ path, Forall (segment_ok w) path → v ≠ encodePath w path) ∧ r = Err [ErrASPathSyntax]) ∨
    ∃ path, Forall (segment_ok w) path ∧ v = encodePath w path ∧
      r = if path_cost path <=? MemoryBytes b then Ok path else Err [ErrASPathBudget])).
Proof.
  intros Hw r. unfold r, ParseASPathSegments. prog_simpl.
  replace (negb (Z.of_nat w =? 2) && negb (Z.of_nat w =? 4)) with false by (by destruct Hw as [-> | ->]).
  destruct ((MemoryBytes b <=? 0) || (WorkUnits b <=? 0) || (Z.quot (WorkUnits b) 2 <? len v)) eqn:Ha.
  { left. split; [|done]. intros (H1 & H2 & H3).
    apply orb_true_iff in Ha as [[Ha|Ha]%orb_true_iff|Ha]; zbool; [lia..|].
    apply (quot_ge (WorkUnits b) 2 (len v)) in H3; lia. }
  right. apply orb_false_iff in Ha as [[Ha1 Ha2]%orb_false_iff Ha3]. zbool. apply quot_ge in Ha3; [|lia..].
  split; [by split_and!|].
  assert (0 < w)%nat by lia.
  destruct (count_cases w (length v) v 0 0) as [(path & Hp & ->)|Hc]; [done..| |].
  - right. exists path. split_and!; [done..|]. rewrite count_ok by done. prog_simpl.
    pose proof (len_nonneg path). pose proof (len_nonneg (concat (Values <$> path))).
    fold (entries_of path) in *. unfold path_cost.
    destruct (Z.quot (MemoryBytes b) 32 <? 0 + len path) eqn:E1; zbool.
    + destruct (_ <=? _) eqn:E2; [|done]. zbool. exfalso.
      apply Z.lt_nge in E1. apply E1, quot_ge; lia.
    + apply quot_ge in E1; [|lia..].
      destruct (Z.quot (MemoryBytes b - (0 + len path) * 32) 4 <? 0 + entries_of path) eqn:E2; zbool.
      * destruct (_ <=? _) eqn:E3; [|done]. zbool. exfalso. apply Z.lt_nge in E2. apply E2, quot_ge; lia.
      * apply quot_ge in E2; [|lia..]. destruct (_ <=? _) eqn:E3; zbool; [|lia].
        rewrite read_ok by done. prog_simpl. done.
  - left. split; [|by rewrite Hc]. intros path Hp ->. by rewrite count_ok in Hc.
Qed.

(** ** Hops

    What a path says about the route, apart from how it is cut into segments: one hop per
    ASN of a sequence and one per set; confederation segments count for nothing. *)
Inductive hop := One (asn : Z) | OneOf (asns : list Z).

Definition segment_hops (s : ASPathSegment) : list hop :=
  if Kind s =? ASPathSet then [OneOf (Values s)]
  else if Kind s =? ASPathSequence then One <$> Values s else [].

Definition hops (path : list ASPathSegment) : list hop := concat (segment_hops <$> path).

Lemma hops_cons s path : hops (s :: path) = segment_hops s ++ hops path.
Proof. done. Qed.
Lemma hops_app a b : hops (a ++ b) = hops a ++ hops b.
Proof. unfold hops. by rewrite fmap_app, concat_app. Qed.

Lemma selection_length path : asPathSelectionLength path = len (hops path).
Proof.
  unfold asPathSelectionLength. rewrite <- (Z.add_0_l (len _)). generalize 0 as n.
  induction path as [|s path IH]; intros n; [unfold len; cbn; lia|].
  cbn [foldl]. rewrite IH, hops_cons, len_app. unfold segment_hops, len.
  destruct (Kind s =? ASPathSet); cbn [length]; [lia|]. destruct (Kind s =? ASPathSequence); cbn [length];
    rewrite ?length_fmap; lia.
Qed.

Lemma confed_hops s : is_confed s = true → segment_hops s = [].
Proof.
  unfold is_confed, segment_hops, ASPathConfedSequence, ASPathConfedSet, ASPathSet, ASPathSequence.
  intros [H|H]%orb_true_iff; zbool; rewrite H; done.
Qed.

Lemma path_cost_cons s path : path_cost (s :: path) = 32 + len (Values s) * 4 + path_cost path.
Proof. unfold path_cost. rewrite entries_cons, len_cons. lia. Qed.

Lemma path_cost_nonneg path : 0 ≤ path_cost path.
Proof. unfold path_cost, entries_of, len. lia. Qed.

Lemma charge_ok path m :
  value (charge m path) = if path_cost path <=? m then Ok (m - path_cost path)
                          else if decide (path = []) then Ok m else Err [ErrASPathBudget].
Proof.
  revert m. induction path as [|s path IH]; intros m.
  - cbn. destruct (_ <=? _); [|done]. do 2 f_equal. unfold path_cost, entries_of, len. cbn. lia.
  - cbn [charge]. prog_simpl. rewrite path_cost_cons. pose proof (path_cost_nonneg path). pose proof (len_nonneg (Values s)).
    destruct (decide (s :: path = [])); [done|].
    destruct ((m <? 32) || (Z.quot (m - 32) 4 <? len (Values s))) eqn:E.
    + destruct (_ <=? _) eqn:E2; [|done]. zbool. destruct E; zbool; [lia|].
      exfalso. apply (Z.lt_nge (Z.quot (m - 32) 4) (len (Values s))); [done|]. apply quot_ge; lia.
    + zbool. rename select (len _ ≤ _) into E1. apply quot_ge in E1; [|lia..]. rewrite IH.
      destruct (decide (path = [])) as [->|].
      * assert (path_cost [] = 0) as E0 by done. rewrite E0.
        destruct (0 <=? _) eqn:?, (_ <=? m) eqn:?; zbool; try lia; f_equal; lia.
      * destruct (path_cost path <=? _) eqn:?, (_ <=? m) eqn:?; zbool; try lia; f_equal; lia.
Qed.

Lemma drop_confeds_ok path :
  value (drop_confeds path) = Ok (filter (λ s, is_confed s = false) path, existsb is_confed path).
Proof.
  induction path as [|s path IH]; [done|]. cbn [drop_confeds]. prog_simpl. rewrite IH. prog_simpl.
  cbn [existsb]. rewrite filter_cons. destruct (is_confed s) eqn:E; cbn [orb].
  - by rewrite decide_False.
  - by rewrite decide_True.
Qed.

Lemma hops_without_confeds path : hops (filter (λ s, is_confed s = false) path) = hops path.
Proof.
  induction path as [|s path IH]; [done|]. rewrite filter_cons, hops_cons.
  destruct (decide (is_confed s = false)) as [E|E]; [by rewrite hops_cons, IH|].
  apply not_false_iff_true in E. by rewrite (confed_hops s E), IH.
Qed.

(** The start of a sequence segment. *)
Lemma sequence_prefix w s n :
  segment_ok w s → is_confed s = false → Kind s ≠ ASPathSet → 1 ≤ n ≤ len (Values s) →
  let s' := mkSegment (Kind s) (slice (Values s) 0 n) in
  segment_ok w s' ∧ len (segment_hops s) = len (Values s) ∧
  segment_hops s' = take (Z.to_nat n) (segment_hops s).
Proof.
  intros (Hkind & Hlen & Hval) Hc Hset Hn s'. subst s'.
  assert (Kind s = ASPathSequence) as Hseq.
  { unfold is_confed, ASPathSet, ASPathSequence, ASPathConfedSequence, ASPathConfedSet in *. zbool. lia. }
  assert (Eslice : slice (Values s) 0 n = take (Z.to_nat n) (Values s)).
  { unfold slice. by rewrite drop_0, Z.sub_0_r. }
  split_and!.
  - unfold segment_ok. cbn. rewrite len_slice by lia. split_and!; [lia..|]. rewrite Eslice. by apply Forall_take.
  - unfold segment_hops. rewrite Hseq. unfold len. cbn. by rewrite length_fmap.
  - unfold segment_hops. cbn [Kind Values]. rewrite Hseq. cbn. by rewrite Eslice, fmap_take.
Qed.

(** The kept part has exactly the first [keep] hops, and every segment of it is one of the
    legacy path or the non-empty start of one. *)
Lemma keep_ok path keep w :
  Forall (segment_ok w) path → 0 ≤ keep ≤ len (hops path) →
  ∃ res, value (keep_loop keep path) = Ok res ∧ hops res = take (Z.to_nat keep) (hops path) ∧
    Forall (segment_ok w) res.
Proof.
  intros Hp. revert keep. induction Hp as [|s path Hs Hp IH]; intros keep Hk.
  { exists []. split_and!; [done| |done]. change (hops []) with (@nil hop). by rewrite take_nil. }
  cbn [keep_loop]. rewrite hops_cons, len_app in *. prog_simpl.
  destruct (is_confed s) eqn:Ec.
  { rewrite (confed_hops s Ec) in *. change (len (@nil hop)) with 0 in Hk.
    destruct (IH keep) as (res & E & Hh & Ho); [lia|].
    exists (s :: res). rewrite E. prog_simpl. rewrite hops_cons, (confed_hops s Ec), Hh.
    split_and!; [done..|by constructor]. }
  destruct (keep =? 0) eqn:E0; zbool; [subst keep; by exists []|].
  destruct (Kind s =? ASPathSet) eqn:Eset; zbool.
  { assert (Eh : segment_hops s = [OneOf (Values s)]) by (unfold segment_hops; by rewrite Eset).
    rewrite Eh in *. change (len [OneOf (Values s)]) with 1 in Hk.
    destruct (IH (keep - 1)) as (res & E & Hh & Ho); [lia|].
    exists (s :: res). rewrite E. prog_simpl. rewrite hops_cons, Eh, Hh. split_and!; [done| |by constructor].
    replace (Z.to_nat keep) with (S (Z.to_nat (keep - 1))) by lia. done. }
  set (taken := Z.min keep (len (Values s))) in *. destruct Hs as (Hkind & Hlen & Hval) eqn:Hs'. clear Hs'.
  destruct (sequence_prefix w s taken) as (Hok & El & Hhops); [done..|lia|].
  rewrite El in Hk. rewrite value_subslice by lia. prog_simpl.
  set (s' := mkSegment (Kind s) (slice (Values s) 0 taken)) in *.
  destruct (taken <? len (Values s)) eqn:Et; zbool.
  { exists [s']. split_and!; [done| |by constructor].
    rewrite hops_cons, Hhops, app_nil_r, take_app_le; [f_equal; lia|]. unfold len in *. lia. }
  destruct (IH (keep - taken)) as (res & E & Hh & Ho); [lia|].
  exists (s' :: res). rewrite E. split_and!; [done| |by constructor].
  rewrite hops_cons, Hhops, Hh, (take_ge (segment_hops s)) by (unfold len in *; lia).
  rewrite take_app_ge by (unfold len in *; lia). do 2 f_equal. unfold len in *. lia.
Qed.

Lemma segment_ok_4 s : segment_ok 2 s → segment_ok 4 s.
Proof.
  intros (Hk & Hl & Hv). split_and!; [lia..|]. eapply Forall_impl; [exact Hv|]. cbn beta. lia.
Qed.

Lemma segments_ok_4 w path : w = 2%nat ∨ w = 4%nat → Forall (segment_ok w) path → Forall (segment_ok 4) path.
Proof. intros [-> | ->] H; [|done]. eapply Forall_impl; [exact H|]. apply segment_ok_4. Qed.

(** The hops of a reconstruction: the front of the legacy path, then the optional path. *)
Definition spliced (legacy extended : list ASPathSegment) : list hop :=
  take (length (hops legacy) - length (hops extended)) (hops legacy) ++ hops extended.

Definition merge_admitted (legacy extended : list ASPathSegment) (b : Budget) : Prop :=
  (len legacy + len extended) * 32 ≤ MemoryBytes b ∧ len legacy + len extended ≤ WorkUnits b.

Lemma merge_cases legacy extended b :
  Forall (segment_ok 2) legacy → Forall (segment_ok 4) extended → 0 ≤ MemoryBytes b →
  let r := value (merge_paths legacy extended b) in
  let discarded := existsb is_confed extended in
  ((length (hops legacy) < length (hops extended))%nat ∧
   r = Ok (mkReconstruction legacy IgnoredLongerThanLegacy discarded)) ∨
  ((length (hops extended) ≤ length (hops legacy))%nat ∧
   ((¬ merge_admitted legacy extended b ∧ r = Err [ErrASPathBudget]) ∨
    ∃ res, r = Ok (mkReconstruction res Reconstructed discarded) ∧
      hops res = spliced legacy extended ∧ Forall (segment_ok 4) res)).
Proof.
  intros Hl He Hm r discarded. unfold r, merge_paths. prog_simpl. rewrite drop_confeds_ok. prog_simpl.
  set (ext := filter _ extended). fold discarded. rewrite !selection_length.
  assert (Hx : hops ext = hops extended) by apply hops_without_confeds. rewrite Hx.
  assert (Hxl : len ext ≤ len extended) by (unfold len, ext; apply Nat2Z.inj_le, length_filter).
  destruct (_ <? _) eqn:E; zbool; [left; unfold len in *; split; [lia|done]|].
  right. split; [unfold len in *; lia|].
  destruct (Z.quot (MemoryBytes b) 32 <? len legacy + len ext) eqn:E1; zbool.
  { left. split; [|done]. intros [H1 H2]. apply Z.lt_nge in E1. apply E1, quot_ge; lia. }
  destruct (WorkUnits b <? len legacy + len ext) eqn:E2; zbool.
  { left. split; [|done]. intros [H1 H2]. lia. }
  right. destruct (keep_ok legacy (len (hops legacy) - len (hops extended)) 2) as (res & -> & Hh & Ho);
    [done|pose proof (len_nonneg (hops extended)); lia|].
  prog_simpl. exists (res ++ ext). split_and!; [done| |].
  - rewrite hops_app, Hx, Hh. unfold spliced. do 2 f_equal. unfold len in *. lia.
  - apply Forall_app. split; [by apply (segments_ok_4 2); auto|]. apply Forall_forall. intros x Hx2. unfold ext in Hx2. apply list_elem_of_filter in Hx2 as [_ Hx2].
    by apply (proj1 (Forall_forall _ _) He).
Qed.

Lemma remaining_ok b path work :
  0 ≤ work ≤ WorkUnits b → path_cost path ≤ MemoryBytes b →
  value (remainingASPathAdmission b path work) = Ok (mkBudget (MemoryBytes b - path_cost path) (WorkUnits b - work)).
Proof.
  intros Hw Hc. unfold remainingASPathAdmission. prog_simpl.
  replace (_ || _) with false by (symmetry; apply orb_false_iff; split; apply Z.ltb_ge; lia).
  rewrite charge_ok. destruct (_ <=? _) eqn:E; zbool; [done|lia].
Qed.

(** Parsing and charging one attribute. *)
Lemma parse_and_charge v w b :
  w = 2%nat ∨ w = 4%nat → budget_ok b →
  let r := value (ParseASPathSegments v (Z.of_nat w) b) in
  r = Err [ErrASPathSyntax] ∨ r = Err [ErrASPathBudget] ∨
  ∃ path, r = Ok path ∧ Forall (segment_ok w) path ∧ v = encodePath w path ∧
    value (remainingASPathAdmission b path (i64 (len v * 2))) =
      Ok (mkBudget (MemoryBytes b - path_cost path) (WorkUnits b - len v * 2)) ∧
    path_cost path ≤ MemoryBytes b ∧ len v * 2 ≤ WorkUnits b.
Proof.
  intros Hw [_ Hb]. destruct (parse_cases v w b Hw) as [[_ ->]|[Ha [[_ ->]|(path & Hp & Hv & ->)]]]; [by auto..|].
  destruct (_ <=? _) eqn:E; [|by auto]. zbool. right. right. exists path.
  destruct Ha as (_ & _ & Ha). pose proof (len_nonneg v).
  split_and!; try done. rewrite i64_small by lia. apply remaining_ok; lia.
Qed.

Lemma parse_enough v w path b :
  w = 2%nat ∨ w = 4%nat → v = encodePath w path → Forall (segment_ok w) path →
  0 < MemoryBytes b → 0 < WorkUnits b → path_cost path ≤ MemoryBytes b → len v * 2 ≤ WorkUnits b →
  value (ParseASPathSegments v (Z.of_nat w) b) = Ok path.
Proof.
  intros Hw -> Hp Hm Hk Hc Hl.
  destruct (parse_cases (encodePath w path) w b Hw) as [[Ha _]|[_ [[Hn _]|(path' & Hp' & E & Hr)]]].
  - by destruct Ha.
  - by destruct (Hn path Hp).
  - assert (path' = path) as ->.
    { pose proof (read_ok w _ path Hw Hp (le_n _)) as R1. rewrite E in R1.
      rewrite (read_ok w _ path' Hw Hp' (le_n _)) in R1. congruence. }
    rewrite Hr. destruct (_ <=? _) eqn:?; zbool; [done|lia].
Qed.

(** ASN width of the session. *)
Definition width_of (input : ASPathAttributes) : nat := if FourOctetSession input then 4 else 2.

Lemma width_of_ok input : width_of input = 2%nat ∨ width_of input = 4%nat.
Proof. unfold width_of. destruct (FourOctetSession input); auto. Qed.

(** What every successful reconstruction of [legacy] is. *)
Definition reconstruction_of (input : ASPathAttributes) (legacy : list ASPathSegment) (out : ASPathReconstruction)
    : Prop :=
  Forall (segment_ok 4) (Segments out) ∧ length (hops (Segments out)) = length (hops legacy) ∧
  (AS4Action out ≠ Reconstructed → Segments out = legacy) ∧
  (AS4Action out = Reconstructed → FourOctetSession input = false ∧
   ∃ extended, Forall (segment_ok 4) extended ∧ AS4Path input = Some (encodePath 4 extended) ∧
     (length (hops extended) ≤ length (hops legacy))%nat ∧ hops (Segments out) = spliced legacy extended).

Lemma spliced_length legacy extended :
  (length (hops extended) ≤ length (hops legacy))%nat → length (spliced legacy extended) = length (hops legacy).
Proof. intros H. unfold spliced. rewrite length_app, length_take. lia. Qed.

(** Everything after the mandatory path is parsed. *)
Lemma reconstruct_extended input legacy as4 b :
  FourOctetSession input = false → AS4Path input = Some as4 → budget_ok b → 0 ≤ MemoryBytes b →
  Forall (segment_ok 2) legacy →
  let r := value (extended ← catch (e ← ParseASPathSegments as4 4 b; mret (Some e))
              (λ e, if Is e ErrASPathSyntax then mret None else Fail e);
            match extended with
            | None => mret (mkReconstruction legacy IgnoredMalformed false)
            | Some extended =>
                left_ ← remainingASPathAdmission b extended (i64 (len as4 * 2));
                merge_paths legacy extended left_
            end : BM ASPathReconstruction) in
  r = Err [ErrASPathBudget] ∨ ∃ out, r = Ok out ∧ reconstruction_of input legacy out.
Proof.
  intros Hf Has4 Hb Hm Hl r. unfold r. prog_simpl.
  assert (Hlegacy : Forall (segment_ok 4) legacy) by (by apply (segments_ok_4 2); auto).
  change 4 with (Z.of_nat 4).
  destruct (parse_and_charge as4 4 b) as [E|[E|(ext & E & He & Hv & Hc & Hcost & _)]]; [by auto|done|..];
    rewrite E; prog_simpl.
  - change (Is [ErrASPathSyntax] ErrASPathSyntax) with true. prog_simpl. right. eexists. split; [done|].
    split_and!; done.
  - change (Is [ErrASPathBudget] ErrASPathSyntax) with false. cbn. by left.
  - rewrite Hc. prog_simpl.
    destruct (merge_cases legacy ext (mkBudget (MemoryBytes b - path_cost ext) (WorkUnits b - len as4 * 2)))
      as [[_ ->]|[Hle [[_ ->]|(res & -> & Hh & Ho)]]]; [done..|cbn; lia| |by left|].
    + right. eexists. split; [done|]. split_and!; done.
    + right. eexists. split; [done|]. split_and!; [done| |done|].
      * cbn [Segments]. by rewrite Hh, spliced_length.
      * intros _. split; [done|]. exists ext. split_and!; [done|by rewrite Has4, Hv|done..].
Qed.

Lemma reconstruct_cases (input : ASPathAttributes) (budget : Budget) :
  budget_ok budget →
  let r := value (ReconstructASPath input budget) in
  r = Err [ErrASPathSyntax] ∨ r = Err [ErrASPathBudget] ∨
  ∃ legacy out, r = Ok out ∧ Path input = Some (encodePath (width_of input) legacy) ∧
    Forall (segment_ok (width_of input)) legacy ∧ reconstruction_of input legacy out.
Proof.
  intros Hb r. unfold r, ReconstructASPath. prog_simpl.
  destruct (Path input) as [path|]; [|by left]. prog_simpl.
  replace (if FourOctetSession input then 4 else 2) with (Z.of_nat (width_of input))
    by (unfold width_of; by destruct (FourOctetSession input)).
  destruct (parse_and_charge path (width_of input) budget (width_of_ok input) Hb)
    as [-> |[-> |(legacy & -> & Hl & Hv & Hc & Hcost & Hwork)]]; prog_simpl; [by auto..|].
  rewrite Hc. prog_simpl. pose proof (segments_ok_4 _ _ (width_of_ok input) Hl) as Hl4.
  assert (Hplain : ∀ action, action ≠ Reconstructed →
    reconstruction_of input legacy (mkReconstruction legacy action false)) by (intros; split_and!; done).
  assert (Hok : ∀ action, action ≠ Reconstructed → ∃ legacy0 out,
    Ok (mkReconstruction legacy action false) = (Ok out : outcome (list bgp_err) _) ∧
    Some path = Some (encodePath (width_of input) legacy0) ∧ Forall (segment_ok (width_of input)) legacy0 ∧
    reconstruction_of input legacy0 out).
  { intros action Ha. exists legacy, (mkReconstruction legacy action false). split_and!; [done|by f_equal|done|auto]. }
  destruct (AS4Path input) as [as4|] eqn:Has4; [|by right; right; apply Hok].
  destruct (FourOctetSession input) eqn:Hf; [by right; right; apply Hok|].
  destruct (_ && _ && _); [by right; right; apply Hok|].
  destruct (_ || _); [by right; right; apply Hok|].
  assert (width_of input = 2%nat) as Hw2 by (unfold width_of; by rewrite Hf). rewrite Hw2 in Hl, Hv.
  destruct (reconstruct_extended input legacy as4
    (mkBudget (MemoryBytes budget - path_cost legacy) (WorkUnits budget - len path * 2))) as [-> |(out & -> & Hout)];
    [done|done| | |done|by auto|].
  - destruct Hb. pose proof (path_cost_nonneg legacy). pose proof (len_nonneg path). split; cbn; lia.
  - cbn. lia.
  - right. right. exists legacy, out. rewrite Hw2. split_and!; [done|by f_equal|done|done].
Qed.

(** Reconstruction of a reported AS path returns on every input without a panic, and
    what it returns is faithful to the attributes: either the path or the budget is
    refused as a whole, or the AS_PATH was well formed and the result has exactly as many
    hops as it; the result is the AS_PATH itself unless AS4_PATH was merged in, which
    happens only on a two-octet session with a well-formed AS4_PATH that is not longer,
    and then the hops are the front of AS_PATH followed by all of AS4_PATH. *)
Theorem reconstruct_sound (input : ASPathAttributes) (budget : Budget) :
  budget_ok budget →
  let r := value (ReconstructASPath input budget) in
  r = Err [ErrASPathSyntax] ∨ r = Err [ErrASPathBudget] ∨
  ∃ legacy out, r = Ok out ∧ Path input = Some (encodePath (width_of input) legacy) ∧
    Forall (segment_ok (width_of input)) legacy ∧ reconstruction_of input legacy out.
Proof. apply reconstruct_cases. Qed.

(** The AS path decoder accepts exactly the wire format: with an ASN width of 2 or 4
    bytes it returns a path exactly when the operation is admitted, the input is the
    encoding of that path (one to 255 ASNs per segment, known kinds, nothing left over)
    and the path fits the memory budget; in every other case it returns one of its two
    errors, never a part of the path, a panic or an endless loop. *)
Theorem as_path_exact (v : list byte) (w : nat) (b : Budget) :
  w = 2%nat ∨ w = 4%nat →
  let r := value (ParseASPathSegments v (Z.of_nat w) b) in
  (∀ path, r = Ok path ↔
     parse_admitted v b ∧ Forall (segment_ok w) path ∧ v = encodePath w path ∧ path_cost path ≤ MemoryBytes b) ∧
  ((∃ path, r = Ok path) ∨ r = Err [ErrASPathSyntax] ∨ r = Err [ErrASPathBudget]).
Proof.
  intros Hw r. split.
  - intros path. split.
    + intros Hr. unfold r in Hr. destruct (parse_cases v w b Hw) as [[_ E]|[Ha [[_ E]|(p & Hp & Hv & E)]]];
        rewrite E in Hr; try done.
      destruct (_ <=? _) eqn:Ec in Hr; [|done]. zbool. injection Hr as <-. done.
    + intros ((H1 & H2 & H3) & Hp & Hv & Hc). by apply (parse_enough _ _ path).
  - unfold r. destruct (parse_cases v w b Hw) as [[_ ->]|[_ [[_ ->]|(p & _ & _ & ->)]]]; [by auto..|].
    destruct (_ <=? _); eauto.
Qed.

(** A path costs at most ten bytes per byte of its encoding. *)
Lemma cost_bound w path :
  w = 2%nat ∨ w = 4%nat → Forall (segment_ok w) path →
  path_cost path ≤ 10 * len (encodePath w path) ∧ len path * 4 ≤ len (encodePath w path).
Proof.
  intros Hw. induction 1 as [|s path Hs Hp IH]; [done|].
  unfold encodePath in *. cbn [fmap list_fmap concat]. rewrite len_app, len_encodeSegment, path_cost_cons, len_cons.
  destruct Hs as (_ & Hl & _). destruct Hw as [-> | ->]; lia.
Qed.

Lemma as4_length p :
  Forall (segment_ok 4) p → p ≠ [] → 6 ≤ len (encodePath 4 p) ∧ Z.rem (len (encodePath 4 p)) 2 = 0.
Proof.
  intros Hp Hne.
  assert (∃ k, len (encodePath 4 p) = k * 2 ∧ 3 * len p ≤ k) as (k & -> & Hk).
  { clear Hne. induction Hp as [|s p Hs Hp (k & IH & Hk)]; [by exists 0|]. destruct Hs as (_ & Hl & _).
    exists (k + 1 + len (Values s) * 2). unfold encodePath in *. cbn [fmap list_fmap concat].
    rewrite len_app, len_encodeSegment, len_cons, IH. lia. }
  split; [|apply Z.rem_mul; lia]. destruct p; [done|]. rewrite len_cons in Hk. pose proof (len_nonneg p). lia.
Qed.

(** What a speaker without four-octet ASNs reports for a hop. *)
Definition old_speaker (h : hop) : hop :=
  match h with
  | One asn => One (if asn <? 2 ^ 16 then asn else asTrans)
  | OneOf asns => OneOf ((λ asn, if asn <? 2 ^ 16 then asn else asTrans) <$> asns)
  end.

(** AS4_PATH brings back what old speakers could not carry: a route with the true
    path [p] passes speakers without four-octet ASNs, which report the hops of [p] with
    AS_TRANS in place of large ASNs behind the hops [q] they prepend themselves, however
    the hops are cut into segments, while AS4_PATH carries [p]; then the reconstruction
    yields exactly the hops [q] followed by the true hops of [p], for every budget of 18
    memory and 3 work units per byte. *)
Theorem as4_roundtrip (input : ASPathAttributes) (legacy p : list ASPathSegment) (q : list hop) (b : Budget) :
  FourOctetSession input = false → Path input = Some (encodePath 2 legacy) → AS4Path input = Some (encodePath 4 p) →
  (AggregatorPresent input = true → AS4AggregatorPresent input = true → AggregatorASN input = asTrans) →
  Forall (segment_ok 2) legacy → Forall (segment_ok 4) p → p ≠ [] → hops legacy = q ++ (old_speaker <$> hops p) →
  budget_ok b → let n := len (encodePath 2 legacy) + len (encodePath 4 p) in
  18 * n ≤ MemoryBytes b → 3 * n ≤ WorkUnits b →
  ∃ out, value (ReconstructASPath input b) = Ok out ∧ AS4Action out = Reconstructed ∧
    hops (Segments out) = q ++ hops p.
Proof.
  intros Hf Hpath Has4 Hagg Hl Hp Hne Hq [Hb1 Hb2] n Hm Hw. unfold ReconstructASPath. prog_simpl. rewrite Hpath, Hf. prog_simpl.
  destruct (cost_bound 2 legacy) as [Hc1 Hn1]; [by auto..|]. destruct (cost_bound 4 p) as [Hc2 Hn2]; [by auto..|].
  pose proof (len_nonneg (encodePath 2 legacy)). pose proof (path_cost_nonneg legacy). pose proof (path_cost_nonneg p).
  destruct (as4_length p Hp Hne) as [Hp6 Hp2].
  subst n. change 2 with (Z.of_nat 2) at 1. rewrite (parse_enough _ 2 legacy) by (by auto || lia).
  prog_simpl. rewrite i64_small, remaining_ok by lia. prog_simpl. rewrite Has4. cbv iota.
  replace (_ && _ && _) with false; swap 1 2.
  { symmetry. destruct (AggregatorPresent input), (AS4AggregatorPresent input); try done.
    cbn. rewrite (Hagg eq_refl eq_refl). done. }
  replace (_ || _) with false
    by (symmetry; apply orb_false_iff; split; [apply Z.ltb_ge; lia|]; by rewrite Hp2).
  prog_simpl. change 4 with (Z.of_nat 4) at 1.
  rewrite (parse_enough _ 4 p) by (cbn [MemoryBytes WorkUnits]; by auto || lia). prog_simpl.
  rewrite i64_small, remaining_ok by (cbn [MemoryBytes WorkUnits]; lia). prog_simpl.
  assert (Hlen : (length (hops p) ≤ length (hops legacy))%nat) by (rewrite Hq, length_app, length_fmap; lia).
  match goal with |- ∃ out, value (merge_paths _ _ ?b') = _ ∧ _ =>
    destruct (merge_cases legacy p b') as [[Hlt _]|[_ [[Hna _]|(res & E & Hh & _)]]] end;
    cbn [MemoryBytes WorkUnits] in *; [done..|lia|lia| |].
  { destruct Hna. split; cbn; lia. }
  eexists. split; [exact E|]. split; [done|]. cbn [Segments]. rewrite Hh. unfold spliced. f_equal.
  rewrite Hq, length_app, length_fmap, Nat.add_sub. apply take_app_length.
Qed.

(** ** Endpoints *)

(** The usable ASN of a hop. *)
Definition hop_asn (h : option hop) : option Z :=
  match h with Some (One asn) => if proper asn then Some asn else None | _ => None end.

Lemma not_confed_hops w s :
  segment_ok w s → is_confed s = false →
  (Kind s = ASPathSequence ∧ segment_hops s = One <$> Values s ∧ Values s ≠ []) ∨
  (Kind s ≠ ASPathSequence ∧ segment_hops s = [OneOf (Values s)]).
Proof.
  intros (Hk & Hl & _) Hc. unfold is_confed, segment_hops in *.
  unfold ASPathSet, ASPathSequence, ASPathConfedSequence, ASPathConfedSet in *. zbool.
  destruct (Kind s =? 1) eqn:E1, (Kind s =? 2) eqn:E2; zbool; try lia; [right; split; [lia|done]|left].
  split_and!; [done..|]. intros E. rewrite E in Hl. unfold len in Hl. cbn in Hl. lia.
Qed.

Lemma origin_ok w path :
  Forall (segment_ok w) path → value (origin_loop (rev path)) = Ok (hop_asn (last (hops path))).
Proof.
  induction path as [|s path IH] using rev_ind; intros Hp; [done|].
  apply Forall_app in Hp as [Hp Hs]. apply Forall_cons in Hs as [Hs _]. rewrite rev_app_distr, hops_app.
  cbn [rev app origin_loop]. prog_simpl. change (hops [s]) with (segment_hops s ++ []). rewrite app_nil_r.
  destruct (is_confed s) eqn:Ec; [by rewrite (confed_hops s Ec), app_nil_r, IH|].
  destruct (not_confed_hops w s Hs Ec) as [(Hk & -> & Hne)|[Hk ->]].
  - rewrite Hk. cbn [Z.eqb ASPathSequence Pos.eqb]. rewrite last_app, fmap_last.
    destruct (last (Values s)) as [asn|] eqn:El; [done|]. by apply last_None in El.
  - destruct (Kind s =? ASPathSequence) eqn:E; zbool; [done|]. by rewrite last_snoc.
Qed.

Lemma transit_ok w path o :
  Forall (segment_ok w) path → value (transit_loop o path) =
  Ok (match hop_asn (head (hops path)) with Some asn => if asn =? o then None else Some asn | None => None end).
Proof.
  induction 1 as [|s path Hs Hp IH]; [done|]. cbn [transit_loop]. prog_simpl. rewrite hops_cons.
  destruct (is_confed s) eqn:Ec; [by rewrite (confed_hops s Ec), IH|].
  destruct (not_confed_hops w s Hs Ec) as [(Hk & -> & Hne)|[Hk ->]].
  - rewrite Hk. cbn [Z.eqb ASPathSequence Pos.eqb]. destruct (Values s) as [|asn asns]; [done|]. cbn.
    destruct (proper asn); cbn; [by destruct (asn =? o)|done].
  - destruct (Kind s =? ASPathSequence) eqn:E; zbool; done.
Qed.

Lemma text_total first sep asns : ∃ t : list byte, value (asn_text first sep asns) = Ok t.
Proof.
  revert first. induction asns as [|asn asns IH]; intros first; [by exists []|].
  cbn [asn_text]. destruct (IH false) as [t Ht]. eexists. prog_simpl. rewrite Ht. prog_simpl. done.
Qed.

Lemma path_text_total first path : ∃ t : list byte, value (path_text first path) = Ok t.
Proof.
  revert first. induction path as [|s path IH]; intros first; [by exists []|].
  cbn [path_text]. destruct (routingPathDelimiters (Kind s)) as [[o c] sep].
  destruct (text_total true sep (Values s)) as [t Ht], (IH false) as [t' Ht']. eexists.
  prog_simpl. rewrite Ht. prog_simpl. rewrite Ht'. prog_simpl. done.
Qed.

Lemma admit_ok w path memory work :
  Forall (segment_ok w) path → 0 ≤ memory → 0 ≤ work →
  value (admit_fields memory work path) =
  if (entries_of path * 64 <=? memory) && (entries_of path * 12 <=? work) then Ok tt else Err [ErrASPathBudget].
Proof.
  intros Hp. revert memory work. induction Hp as [|s path Hs Hp IH]; intros memory work Hm Hw.
  { change (entries_of []) with 0. by rewrite !(proj2 (Z.leb_le _ _)) by lia. }
  cbn [admit_fields]. prog_simpl. destruct Hs as (Hk & Hl & _).
  replace (_ || _ || _) with false
    by (symmetry; rewrite !orb_false_iff, !Z.ltb_ge, Z.eqb_neq; split_and!; lia).
  rewrite entries_cons.
  pose proof (len_nonneg (concat (Values <$> path))) as Hn. fold (entries_of path) in Hn.
  destruct (_ || _) eqn:E.
  - replace (_ && _) with false; [done|]. symmetry. apply andb_false_iff. rewrite !Z.leb_gt.
    apply orb_true_iff in E as [E|E]; apply Z.ltb_lt, Z.lt_nge in E; [left|right]; apply Z.nle_gt;
      intros H; apply E, quot_ge; lia.
  - apply orb_false_iff in E as [E1 E2]. zbool. apply quot_ge in E1, E2; [|lia..]. rewrite IH by lia.
    replace (_ <=? memory - _) with ((len (Values s) + entries_of path) * 64 <=? memory)
      by (apply eq_true_iff_eq; rewrite !Z.leb_le; lia).
    by replace (_ <=? work - _) with ((len (Values s) + entries_of path) * 12 <=? work)
      by (apply eq_true_iff_eq; rewrite !Z.leb_le; lia).
Qed.

(** What the projection of a path costs. *)
Definition fields_admitted (path : list ASPathSegment) (b : Budget) : Prop :=
  128 + len path * 64 + entries_of path * 64 ≤ MemoryBytes b ∧ 1 ≤ WorkUnits b ∧
  len path * 4 + entries_of path * 12 ≤ WorkUnits b.

(** The origin and first transit AS shown for a route are those of the last and first
    hop of its path: for every decoded path whose projection the budget admits (64 bytes
    and 4 to 12 work units per segment and ASN) the projection keeps the path as it is and
    reports as origin the ASN of the last hop, and as transit the ASN of the first hop
    when it differs, both only when the hop is a single ASN other than 0 and AS_TRANS, an
    unknown origin also leaving the transit unknown; so both depend on the hops alone,
    not on how they are cut into segments or on confederations.  Every other budget is
    refused. *)
Theorem endpoints_of_hops (w : nat) (path : list ASPathSegment) (b : Budget) :
  Forall (segment_ok w) path →
  (fields_admitted path b →
   ∃ text, value (ProjectRoutingPathFields path b) = Ok (mkFields path text
     (hop_asn (last (hops path)))
     (match hop_asn (last (hops path)), hop_asn (head (hops path)) with
      | Some o, Some t => if t =? o then None else Some t
      | _, _ => None
      end))) ∧
  (¬ fields_admitted path b → value (ProjectRoutingPathFields path b) = Err [ErrASPathBudget]).
Proof.
  intros Hp. destruct (path_text_total true path) as [t Ht]. unfold fields_admitted. pose proof (len_nonneg path).
  pose proof (len_nonneg (concat (Values <$> path))) as Hn. fold (entries_of path) in Hn.
  unfold ProjectRoutingPathFields. prog_simpl. destruct (_ || _ || _ || _) eqn:E.
  { rewrite !orb_true_iff, !Z.ltb_lt in E. split; [|done]. intros (A1 & A2 & A3). exfalso.
    destruct E as [[[E|E]|E]|E]; [lia..| |]; apply Z.lt_nge in E; apply E, quot_ge; lia. }
  rewrite !orb_false_iff in E. destruct E as (((E1 & E2) & E3) & E4). zbool. apply quot_ge in E3, E4; [|lia..].
  rewrite (admit_ok w) by (done || lia). destruct (_ && _) eqn:Ea; cycle 1.
  { apply andb_false_iff in Ea. split; [|done]. intros (A1 & A2 & A3). exfalso. rewrite !Z.leb_gt in Ea. lia. }
  apply andb_true_iff in Ea as [Ea1 Ea2]. zbool. split; [intros _|intros Hno; exfalso; apply Hno; split_and!; lia].
  exists t. prog_simpl. rewrite Ht. prog_simpl.
  unfold routingPathEndpoints. prog_simpl. rewrite (origin_ok w) by done. prog_simpl.
  destruct (hop_asn (last (hops path))) as [o|]; [|done]. prog_simpl. rewrite (transit_ok w) by done. prog_simpl.
  by destruct (hop_asn (head (hops path))) as [a|].
Qed.

(** ** Cancellation *)

Lemma polls_count fuel width rest s e : polls bare (count_loop fuel width rest s e).
Proof. revert rest s e. induction fuel; intros [|x rest] s e; cbn [count_loop]; polls_tac. Qed.

Lemma polls_asns count width rest : polls bare (read_asns count width rest).
Proof. revert rest. induction count; intros rest; cbn [read_asns]; polls_tac. Qed.

Lemma polls_read fuel width rest : polls bare (read_loop fuel width rest).
Proof.
  revert rest. induction fuel; intros [|x rest]; cbn [read_loop]; polls_tac. apply polls_asns.
Qed.

Lemma polls_parse v width b : polls bare (ParseASPathSegments v width b).
Proof. unfold ParseASPathSegments. polls_tac; [apply polls_count|apply polls_read]. Qed.

Lemma polls_charge memory path : polls bare (charge memory path).
Proof. revert memory. induction path; intros memory; cbn [charge]; polls_tac. Qed.

Lemma polls_remaining b path work : polls bare (remainingASPathAdmission b path work).
Proof. unfold remainingASPathAdmission. polls_tac. apply polls_charge. Qed.

Lemma polls_drop_confeds path : polls bare (drop_confeds path).
Proof. induction path; cbn [drop_confeds]; polls_tac. Qed.

Lemma polls_keep keep path : polls bare (keep_loop keep path).
Proof. revert keep. induction path; intros keep; cbn [keep_loop]; polls_tac. Qed.

Lemma polls_merge legacy extended b : polls bare (merge_paths legacy extended b).
Proof. unfold merge_paths. polls_tac; [apply polls_drop_confeds|apply polls_keep]. Qed.

#[local] Hint Resolve polls_parse polls_remaining polls_merge : polls.

Lemma polls_reconstruct input b : polls bare (ReconstructASPath input b).
Proof.
  unfold ReconstructASPath. polls_tac.
  eapply polls_catch; [apply polls_bind; [apply polls_parse|done]| |].
  - intros e [c ->]. exists [ctx_err c]. split; [|by exists c]. by destruct c.
  - intros e. by destruct (Is e ErrASPathSyntax).
Qed.

Lemma polls_admit m w path : polls bare (admit_fields m w path).
Proof. revert m w. induction path; intros m w; cbn [admit_fields]; polls_tac. Qed.

Lemma polls_asn_text first sep asns : polls bare (asn_text first sep asns).
Proof. revert first. induction asns; intros first; cbn [asn_text]; polls_tac. Qed.

Lemma polls_path_text first path : polls bare (path_text first path).
Proof.
  revert first. induction path; intros first; cbn [path_text]; polls_tac. apply polls_asn_text.
Qed.

Lemma polls_origin rpath : polls bare (origin_loop rpath).
Proof. induction rpath; cbn [origin_loop]; polls_tac. Qed.
Lemma polls_transit o path : polls bare (transit_loop o path).
Proof. induction path; cbn [transit_loop]; polls_tac. Qed.

#[export] Instance project_cancels path b : Cancels (ProjectRoutingPathFields path b).
Proof.
  apply polls_cancels. eapply polls_mono; [apply bare_from_ctx|].
  unfold ProjectRoutingPathFields, routingPathEndpoints.
  polls_tac; auto using polls_admit, polls_path_text, polls_origin, polls_transit.
Qed.

#[export] Instance reconstruct_cancels input b : Cancels (ReconstructASPath input b).
Proof. apply polls_cancels. eapply polls_mono; [apply bare_from_ctx|apply polls_reconstruct]. Qed.

(** ** Witnesses *)

(** A route through AS 64512, which does not know four-octet ASNs, from AS 100000 via 7. *)
Definition demo_path : list ASPathSegment := [mkSegment 2 [7; 100000]].
Definition demo_legacy : list ASPathSegment := [mkSegment 2 [64512; 7]; mkSegment 2 [23456]].
Definition demo_input : ASPathAttributes :=
  mkAttributes false (Some (encodePath 2 demo_legacy)) (Some (encodePath 4 demo_path)) false false 0.
Definition demo_budget : Budget := mkBudget 4096 4096.

(** Discharge [segment_ok] on literal paths. *)
Ltac segments_ok :=
  repeat apply Forall_cons_2; try apply Forall_nil_2; split_and!; unfold len, ASPathSet, ASPathConfedSet; cbn;
  try lia; repeat apply Forall_cons_2; try apply Forall_nil_2; lia.

Lemma demo_path_ok : Forall (segment_ok 4) demo_path.
Proof. by segments_ok. Qed.
Lemma demo_legacy_ok : Forall (segment_ok 2) demo_legacy.
Proof. by segments_ok. Qed.

Lemma as_path_exact_witness :
  value (ParseASPathSegments (encodePath 4 demo_path) 4 demo_budget) = Ok demo_path ∧
  parse_admitted (encodePath 4 demo_path) demo_budget ∧ path_cost demo_path ≤ MemoryBytes demo_budget.
Proof.
  assert (E : value (ParseASPathSegments (encodePath 4 demo_path) 4 demo_budget) = Ok demo_path) by (vm_compute; reflexivity).
  split; [exact E|]. apply (as_path_exact (encodePath 4 demo_path) 4 demo_budget (or_intror eq_refl)) in E.
  destruct E as (H1 & _ & _ & H2). by split.
Defined.

Lemma reconstruct_sound_witness :
  value (ReconstructASPath demo_input demo_budget) =
    Ok (mkReconstruction [mkSegment 2 [64512]; mkSegment 2 [7; 100000]] Reconstructed false) ∧
  ∃ legacy out, value (ReconstructASPath demo_input demo_budget) = Ok out ∧
    Path demo_input = Some (encodePath 2 legacy) ∧ reconstruction_of demo_input legacy out.
Proof.
  assert (E : value (ReconstructASPath demo_input demo_budget) =
    Ok (mkReconstruction [mkSegment 2 [64512]; mkSegment 2 [7; 100000]] Reconstructed false)) by (vm_compute; reflexivity).
  split; [exact E|].
  destruct (reconstruct_sound demo_input demo_budget) as [H|[H|(l & out & H & Hp & _ & Hr)]];
    [split; cbn; lia|rewrite E in H; discriminate H..|].
  exists l, out. split; [exact H|split; [exact Hp|exact Hr]].
Defined.

Lemma as4_roundtrip_witness :
  ∃ out, value (ReconstructASPath demo_input demo_budget) = Ok out ∧ AS4Action out = Reconstructed ∧
    hops (Segments out) = [One 64512; One 7; One 100000].
Proof.
  apply (as4_roundtrip demo_input demo_legacy demo_path [One 64512] demo_budget);
    [reflexivity|reflexivity|reflexivity|discriminate|exact demo_legacy_ok|exact demo_path_ok|discriminate|reflexivity|
     split; cbn; lia|vm_compute; discriminate..].
Defined.

Lemma endpoints_of_hops_witness :
  ∃ text, value (ProjectRoutingPathFields demo_path demo_budget) = Ok (mkFields demo_path text (Some 100000) (Some 7)).
Proof. apply (endpoints_of_hops 4 demo_path demo_budget demo_path_ok). split_and!; vm_compute; discriminate. Defined.

End AsPath.
