(* ===== verification/BgpPrefix.v ===== *)
(** * Unicast prefixes (internal/bgp/route_prefixes.go, multiprotocol_routes.go)

    Prefix lists with and without ADD-PATH identifiers and the multiprotocol attributes
    that carry them. *)

From S2P Require Import Prelude GoProg BgpBase FlowModel.
#[local] Open Scope Z_scope.

Module BgpPrefix.

(** ** Unicast prefixes *)

(** netip.Prefix; Masked clears the bits after the first [bits]. *)
Record NetPrefix := mkPrefix { p_Addr : Addr; p_Bits : Z }.

Fixpoint mask_bytes (bits : Z) (l : list byte) : list byte :=
  match l with
  | [] => []
  | b :: l =>
      (if 8 <=? bits then b
       else if bits <=? 0 then x00
       else Zbyte (Z.land (byteZ b) (Z.shiftl 255 (8 - bits)))) :: mask_bytes (bits - 8) l
  end.

Definition Masked (p : NetPrefix) : NetPrefix :=
  mkPrefix (match p_Addr p with
            | AddrNone => AddrNone
            | Addr4 l => Addr4 (mask_bytes (p_Bits p) l)
            | Addr16 l => Addr16 (mask_bytes (p_Bits p) l)
            end) (p_Bits p).

Record RoutePrefix := mkRoute { Prefix_ : NetPrefix; PathID : Z; HasPathID : bool }.

(** Reading past an optional path identifier. *)
Definition skip_path_id (addPath : bool) (rest : list byte) : BM (list byte) :=
  if addPath then fail_if (len rest <? 4) ErrBGPRoutePrefix;; mret (drop 4 rest) else mret rest.

Fixpoint prefix_count (fuel : nat) (maximum : Z) (addPath : bool) (rest : list byte) (count : Z) : BM Z :=
  match rest with
  | [] => mret count
  | _ :: _ =>
      match fuel with
      | O => OutOfFuel
      | S fuel =>
          poll;;
          rest ← skip_path_id addPath rest;
          fail_if (len rest =? 0) ErrBGPRoutePrefix;;
          bits ← index rest 0;
          let rest := drop 1 rest in
          fail_if (maximum <? bits) ErrBGPRoutePrefix;;
          let octets := Z.quot (bits + 7) 8 in
          fail_if (len rest <? octets) ErrBGPRoutePrefix;;
          prefix_count fuel maximum addPath (drop (Z.to_nat octets) rest) (count + 1)
      end
  end.

(** [copy] into a zeroed array of [n] bytes. *)
Definition array (n : nat) (l : list byte) : list byte := take n (l ++ replicate n x00).

Fixpoint prefix_read (fuel : nat) (afi : Z) (addPath : bool) (rest : list byte) : BM (list RoutePrefix) :=
  match rest with
  | [] => mret []
  | _ :: _ =>
      match fuel with
      | O => OutOfFuel
      | S fuel =>
          poll;;
          id ← (if addPath then beU32 rest 0 else mret 0);
          let rest := if addPath then drop 4 rest else rest in
          bits ← index rest 0;
          let rest := drop 1 rest in
          let octets := Z.quot (bits + 7) 8 in
          address ← subslice rest 0 octets;
          let ip := if afi =? 1 then AddrFrom4 (array 4 address) else AddrFrom16 (array 16 address) in
          out ← prefix_read fuel afi addPath (drop (Z.to_nat octets) rest);
          mret (mkRoute (Masked (mkPrefix ip bits)) id addPath :: out)
      end
  end.

Definition ParseBGPRoutePrefixes (raw : list byte) (afi : Z) (addPath : bool) (budget : Budget)
    : BM (list RoutePrefix) :=
  poll;;
  maximum ← (if afi =? 1 then mret 32 else if afi =? 2 then mret 128 else Fail [ErrBGPRoutePrefix]);
  fail_if ((MemoryBytes budget <=? 0) || (WorkUnits budget <=? 0) || (Z.quot (WorkUnits budget) 2 <? len raw))
    ErrBGPRoutePrefixBudget;;
  count ← prefix_count (length raw) maximum addPath raw 0;
  fail_if (Z.quot (MemoryBytes budget) 64 <? count) ErrBGPRoutePrefixBudget;;
  output ← prefix_read (length raw) afi addPath raw;
  poll;;
  mret output.

(** ** Multiprotocol reachability *)

Record MultiprotocolReach := mkReach {
  mr_Family : RouteFamily; NextHopAFI : Z; NextHops : list Addr; mr_Prefixes : list RoutePrefix }.

Record MultiprotocolWithdraw := mkWithdraw { mw_Family : RouteFamily; mw_Prefixes : list RoutePrefix }.

(** netip.Addr.IsLinkLocalUnicast of an IPv6 address: fe80::/10 (a mapped IPv4 address
    counts as IPv4: 169.254/16). *)
Definition IsLinkLocalUnicast (a : Addr) : bool :=
  match Unmap a with
  | AddrNone => false
  | Addr4 l => (at_ l 0 =? 169) && (at_ l 1 =? 254)
  | Addr16 l => Z.land (be_uint (take 2 l)) 0xffc0 =? 0xfe80
  end.

(** Errors of the prefix decoder, classified. *)
Definition mp_error {A} (e : list bgp_err) : BM A :=
  if Is e ErrBGPRoutePrefixBudget then Fail (Join ErrMPRouteBudget e) else Fail (Join ErrMPRouteAttributes e).

Definition next_hops (value : list byte) (nextHopAFI length : Z) : BM (list Addr) :=
  if nextHopAFI =? 1 then
    fail_if (negb (length =? 4)) ErrMPRouteAttributes;;
    a ← subslice value 4 8;
    mret [AddrFrom4 a]
  else if nextHopAFI =? 2 then
    fail_if (negb (length =? 16) && negb (length =? 32)) ErrMPRouteAttributes;;
    a ← subslice value 4 20;
    if length =? 32 then
      b ← subslice value 20 36;
      fail_if (negb (IsLinkLocalUnicast (AddrFrom16 b))) ErrMPRouteAttributes;;
      mret [AddrFrom16 a; AddrFrom16 b]
    else mret [AddrFrom16 a]
  else Fail [ErrMPRouteAttributes].

Definition parseMPReachRoutes (value : list byte) (nextHopAFI : Z) (addPath : bool) (budget : Budget)
    : BM MultiprotocolReach :=
  poll;;
  fail_if ((MemoryBytes budget <=? 128) || (WorkUnits budget <=? len value)) ErrMPRouteBudget;;
  fail_if (len value <? 5) ErrMPRouteAttributes;;
  afi ← beU16 value 0;
  safi ← index value 2;
  fail_if (negb (safi =? 1) || (negb (afi =? 1) && negb (afi =? 2)) || ((afi =? 2) && negb (nextHopAFI =? 2)))
    ErrMPRouteAttributes;;
  length ← index value 3;
  fail_if (len value - 5 <? length) ErrMPRouteAttributes;;
  hops ← next_hops value nextHopAFI length;
  nlri ← subslice value (5 + length) (len value);
  prefixes ← catch (ParseBGPRoutePrefixes nlri afi addPath
      (mkBudget (MemoryBytes budget - 128) (WorkUnits budget - len value))) mp_error;
  poll;;
  mret (mkReach (mkFamily afi safi) nextHopAFI hops prefixes).

Definition parseMPUnreachRoutes (value : list byte) (addPath : bool) (budget : Budget) : BM MultiprotocolWithdraw :=
  poll;;
  fail_if ((MemoryBytes budget <=? 64) || (WorkUnits budget <=? len value)) ErrMPRouteBudget;;
  fail_if (len value <? 3) ErrMPRouteAttributes;;
  afi ← beU16 value 0;
  safi ← index value 2;
  fail_if (negb (safi =? 1) || (negb (afi =? 1) && negb (afi =? 2))) ErrMPRouteAttributes;;
  nlri ← subslice value 3 (len value);
  prefixes ← catch (ParseBGPRoutePrefixes nlri afi addPath
      (mkBudget (MemoryBytes budget - 64) (WorkUnits budget - len value))) mp_error;
  poll;;
  mret (mkWithdraw (mkFamily afi safi) prefixes).

(** ** Prefixes on the wire *)

(** A prefix as written: path identifier, length in bits, the octets that carry it. *)
Record WirePrefix := mkWire { wp_id : Z; wp_bits : Z; wp_octets : list byte }.

Definition encodeWire (addPath : bool) (p : WirePrefix) : list byte :=
  (if addPath then be_bytes 4 (wp_id p) else []) ++ Zbyte (wp_bits p) :: wp_octets p.

Definition encodeWires (addPath : bool) (l : list WirePrefix) : list byte := concat (encodeWire addPath <$> l).

Definition octets_of (bits : Z) : Z := Z.quot (bits + 7) 8.

Definition wire_ok (maximum : Z) (addPath : bool) (p : WirePrefix) : Prop :=
  (if addPath then 0 ≤ wp_id p < 2 ^ 32 else wp_id p = 0) ∧ 0 ≤ wp_bits p ≤ maximum ∧
  len (wp_octets p) = octets_of (wp_bits p).

(** The route a wire prefix stands for. *)
Definition address (afi : Z) (l : list byte) : Addr := if afi =? 1 then AddrFrom4 (array 4 l) else AddrFrom16 (array 16 l).

Definition route_of (afi : Z) (addPath : bool) (p : WirePrefix) : RoutePrefix :=
  mkRoute (Masked (mkPrefix (address afi (wp_octets p)) (wp_bits p))) (wp_id p) addPath.

Lemma octets_of_spec bits : 0 ≤ bits → 8 * octets_of bits - 7 ≤ bits ≤ 8 * octets_of bits.
Proof. intros H. unfold octets_of. Z.to_euclidean_division_equations. lia. Qed.

Lemma encodeWire_ne addPath p r : encodeWire addPath p ++ r ≠ [].
Proof. unfold encodeWire. by destruct addPath. Qed.

Lemma prefix_count_step fuel maximum addPath rest count :
  rest ≠ [] → prefix_count (S fuel) maximum addPath rest count =
  (poll;; rest ← skip_path_id addPath rest;
   fail_if (len rest =? 0) ErrBGPRoutePrefix;;
   bits ← index rest 0;
   fail_if (maximum <? bits) ErrBGPRoutePrefix;;
   fail_if (len (drop 1 rest) <? octets_of bits) ErrBGPRoutePrefix;;
   prefix_count fuel maximum addPath (drop (Z.to_nat (octets_of bits)) (drop 1 rest)) (count + 1)).
Proof. by destruct rest. Qed.

(** Past the path identifier. *)
Lemma skip_ok addPath p r :
  value (skip_path_id addPath (encodeWire addPath p ++ r)) = Ok (Zbyte (wp_bits p) :: wp_octets p ++ r).
Proof.
  unfold skip_path_id, encodeWire. destruct addPath; [|done]. prog_simpl. rewrite <- app_assoc.
  replace (_ <? 4) with false; [done|]. symmetry. apply Z.ltb_ge. rewrite len_app, len_be_bytes.
  pose proof (len_nonneg ((Zbyte (wp_bits p) :: wp_octets p) ++ r)). lia.
Qed.

Lemma wire_drop maximum addPath p r :
  wire_ok maximum addPath p → drop (Z.to_nat (octets_of (wp_bits p))) (wp_octets p ++ r) = r.
Proof.
  intros (_ & _ & Hl). replace (Z.to_nat _) with (length (wp_octets p)); [apply drop_app_length|].
  unfold len in Hl. lia.
Qed.

(** The validating pass moves over a well-formed prefix. *)
Lemma prefix_count_next fuel maximum addPath p r count :
  maximum < 256 → wire_ok maximum addPath p →
  value (prefix_count (S fuel) maximum addPath (encodeWire addPath p ++ r) count) =
  value (prefix_count fuel maximum addPath r (count + 1)).
Proof.
  intros Hmax Hp. rewrite prefix_count_step by apply encodeWire_ne. prog_simpl. rewrite skip_ok. prog_simpl.
  destruct Hp as (Hid & Hbits & Hlen) eqn:Hp'. clear Hp'. pose proof (len_nonneg (wp_octets p ++ r)).
  rewrite len_cons. destruct (1 + _ =? 0) eqn:E; zbool; [lia|]. prog_reads ltac:(rewrite ?len_cons; lia).
  rewrite at_cons_0, byteZ_Zbyte_small by lia. ltb_false. cbn [skipn]. rewrite drop_0, len_app.
  pose proof (len_nonneg r). ltb_false. by rewrite (wire_drop _ _ _ _ Hp).
Qed.

Lemma encodeWire_pos addPath p : (0 < length (encodeWire addPath p))%nat.
Proof. unfold encodeWire. rewrite length_app. cbn. lia. Qed.

Lemma prefix_count_ok fuel maximum addPath l count :
  maximum < 256 → Forall (wire_ok maximum addPath) l → (length (encodeWires addPath l) ≤ fuel)%nat →
  value (prefix_count fuel maximum addPath (encodeWires addPath l) count) = Ok (count + len l).
Proof.
  intros Hmax Hl. revert fuel count. induction Hl as [|p l Hp Hl IH]; intros fuel count Hf.
  { destruct fuel; cbn; by rewrite Z.add_0_r. }
  unfold encodeWires in *. cbn [fmap list_fmap concat] in *. rewrite length_app in Hf.
  pose proof (encodeWire_pos addPath p). destruct fuel as [|fuel]; [lia|].
  rewrite prefix_count_next, IH by (done || lia). rewrite len_cons. f_equal. lia.
Qed.

(** A buffer that starts with a prefix, or a refusal. *)
Lemma wire_cases maximum addPath rest :
  maximum < 256 → rest ≠ [] →
  (∃ p r, wire_ok maximum addPath p ∧ rest = encodeWire addPath p ++ r) ∨
  ∀ fuel count, value (prefix_count (S fuel) maximum addPath rest count) = Err [ErrBGPRoutePrefix].
Proof.
  intros Hmax Hne.
  assert (Hskip : value (skip_path_id addPath rest) = Err [ErrBGPRoutePrefix] ∨
    ∃ id rest', value (skip_path_id addPath rest) = Ok rest' ∧
      rest = (if addPath then be_bytes 4 id else []) ++ rest' ∧ if addPath then 0 ≤ id < 2 ^ 32 else id = 0).
  { unfold skip_path_id. destruct addPath; prog_simpl; [|right; by exists 0, rest].
    destruct (len rest <? 4) eqn:E; [by left|]. zbool. right.
    destruct (split_be 4 rest) as (id & rest' & Hid & ->); [unfold len in E; lia|].
    exists id, rest'. split_and!; [|done|lia..]. rewrite drop_app_ge by (rewrite length_be_bytes; lia).
    by rewrite length_be_bytes, Nat.sub_diag. }
  destruct Hskip as [E|(id & rest' & E & Hrest & Hid)].
  { right. intros fuel count. rewrite prefix_count_step by done. prog_simpl. by rewrite E. }
  destruct rest' as [|n rest'].
  { right. intros fuel count. rewrite prefix_count_step by done. prog_simpl. by rewrite E. }
  pose proof (byteZ_range n). pose proof (len_nonneg rest').
  destruct (maximum <? byteZ n) eqn:Em; [right|destruct (len rest' <? octets_of (byteZ n)) eqn:El; [right|left]].
  - intros fuel count. rewrite prefix_count_step by done. prog_simpl. rewrite E. prog_simpl. rewrite len_cons.
    destruct (1 + _ =? 0) eqn:?; zbool; [lia|]. prog_reads ltac:(rewrite ?len_cons; lia). rewrite at_cons_0.
    ltb_true. done.
  - intros fuel count. rewrite prefix_count_step by done. prog_simpl. rewrite E. prog_simpl. rewrite len_cons.
    destruct (1 + _ =? 0) eqn:?; zbool; [lia|]. prog_reads ltac:(rewrite ?len_cons; lia). rewrite at_cons_0.
    ltb_false. cbn [skipn]. rewrite drop_0. ltb_true. done.
  - zbool. destruct (octets_of_spec (byteZ n)); [lia|].
    exists (mkWire id (byteZ n) (take (Z.to_nat (octets_of (byteZ n))) rest')),
      (drop (Z.to_nat (octets_of (byteZ n))) rest').
    split; [split_and!; cbn; try done; try lia|].
    + unfold len in *. rewrite length_take. lia.
    + rewrite Hrest. unfold encodeWire. cbn [wp_id wp_bits wp_octets].
      by rewrite Zbyte_byteZ, <- app_assoc, <- app_comm_cons, take_drop.
Qed.

Lemma prefix_count_cases fuel maximum addPath rest count :
  maximum < 256 → (length rest ≤ fuel)%nat →
  (∃ l, Forall (wire_ok maximum addPath) l ∧ rest = encodeWires addPath l) ∨
  value (prefix_count fuel maximum addPath rest count) = Err [ErrBGPRoutePrefix].
Proof.
  intros Hmax. revert rest count. induction fuel as [|fuel IH]; intros rest count Hf.
  { left. exists []. destruct rest; [done|cbn in Hf; lia]. }
  destruct (decide (rest = [])) as [->|Hne]; [left; by exists []|].
  destruct (wire_cases maximum addPath rest Hmax Hne) as [(p & r & Hp & ->)|H]; [|by right].
  pose proof (encodeWire_pos addPath p). rewrite length_app in Hf.
  rewrite prefix_count_next by done. destruct (IH r (count + 1)) as [(l & Hl & ->)| -> ]; [lia| |by right].
  left. exists (p :: l). split; [by constructor|done].
Qed.

Lemma prefix_read_step fuel afi addPath rest :
  rest ≠ [] → prefix_read (S fuel) afi addPath rest =
  (poll;; id ← (if addPath then beU32 rest 0 else mret 0);
   bits ← index (if addPath then drop 4 rest else rest) 0;
   let rest := drop 1 (if addPath then drop 4 rest else rest) in
   octets ← subslice rest 0 (octets_of bits);
   out ← prefix_read fuel afi addPath (drop (Z.to_nat (octets_of bits)) rest);
   mret (mkRoute (Masked (mkPrefix (address afi octets) bits)) id addPath :: out)).
Proof. by destruct rest. Qed.

Lemma prefix_read_ok fuel afi maximum addPath l :
  maximum < 256 → Forall (wire_ok maximum addPath) l → (length (encodeWires addPath l) ≤ fuel)%nat →
  value (prefix_read fuel afi addPath (encodeWires addPath l)) = Ok (route_of afi addPath <$> l).
Proof.
  intros Hmax Hl. revert fuel. induction Hl as [|p l Hp Hl IH]; intros fuel Hf; [by destruct fuel|].
  unfold encodeWires in *. cbn [fmap list_fmap concat] in *. rewrite length_app in Hf.
  pose proof (encodeWire_pos addPath p). destruct fuel as [|fuel]; [lia|]. set (r := concat _) in *.
  rewrite prefix_read_step by apply encodeWire_ne.
  assert (Hid : value (if addPath then beU32 (encodeWire addPath p ++ r) 0 else mret 0 : BM Z) = Ok (wp_id p)).
  { destruct Hp as (Hid & _). unfold encodeWire. destruct addPath; [|by rewrite Hid].
    rewrite <- app_assoc, value_beU32; [|lia|].
    - rewrite slice_take by (by rewrite len_be_bytes). by rewrite be_uint_be_bytes_small.
    - rewrite len_app, len_be_bytes. pose proof (len_nonneg ((Zbyte (wp_bits p) :: wp_octets p) ++ r)). lia. }
  assert (Hrest : (if addPath then drop 4 (encodeWire addPath p ++ r) else encodeWire addPath p ++ r) =
    Zbyte (wp_bits p) :: wp_octets p ++ r).
  { unfold encodeWire. destruct addPath; [|done]. rewrite <- app_assoc, drop_app_ge by (by rewrite length_be_bytes).
    by rewrite length_be_bytes. }
  prog_simpl. autorewrite with prog in Hid. rewrite Hid, Hrest. cbn [skipn]. rewrite drop_0. prog_simpl.
  pose proof (len_nonneg (wp_octets p ++ r)). pose proof (len_nonneg r).
  prog_reads ltac:(rewrite ?len_cons; lia). assert (Hbits := proj1 (proj2 Hp)). assert (Hlen := proj2 (proj2 Hp)).
  rewrite at_cons_0, byteZ_Zbyte_small by lia. destruct (octets_of_spec (wp_bits p)); [lia|].
  prog_reads ltac:(rewrite ?len_app; lia). rewrite slice_take by done.
  rewrite (wire_drop _ _ _ _ Hp), IH by lia. done.
Qed.

(** ** Canonical prefixes *)

Lemma mask_byte_idem k b :
  0 < k < 8 → let m z := Zbyte (Z.land (byteZ z) (Z.shiftl 255 (8 - k))) in m (m b) = m b.
Proof.
  intros Hk. cbv beta zeta. f_equal. rewrite byteZ_Zbyte. unfold u8.
  rewrite <- Z.land_ones by lia. apply Z.bits_inj'. intros i Hi. rewrite !Z.land_spec.
  destruct (Z.testbit (byteZ b) i) eqn:E; [|done]. cbn [andb].
  destruct (Z.testbit (Z.shiftl 255 (8 - k)) i); [|done]. cbn [andb].
  destruct (Z.ltb_spec i 8); [by rewrite Z.ones_spec_low by lia|].
  rewrite (Z.bits_above_log2 (byteZ b) i) in E; [done|apply byteZ_range|].
  pose proof (byteZ_range b). destruct (Z.eq_dec (byteZ b) 0) as [->|]; [cbn; lia|].
  apply Z.log2_lt_pow2; [lia|]. assert (2 ^ 8 ≤ 2 ^ i) by (apply Z.pow_le_mono_r; lia). lia.
Qed.

Lemma mask_idem bits l : mask_bytes bits (mask_bytes bits l) = mask_bytes bits l.
Proof.
  revert bits. induction l as [|b l IH]; intros bits; [done|]. cbn [mask_bytes]. f_equal; [|apply IH].
  destruct (8 <=? bits) eqn:E1; [done|]. destruct (bits <=? 0) eqn:E2; [done|]. zbool. apply mask_byte_idem. lia.
Qed.

Lemma length_mask bits l : length (mask_bytes bits l) = length l.
Proof. revert bits. induction l; intros bits; cbn; auto. Qed.

(** Masked bytes are zero after the octets that carry the prefix. *)
Lemma mask_tail bits l n :
  bits ≤ 8 * Z.of_nat n → take n (mask_bytes bits l) ++ replicate (length l - n) x00 = mask_bytes bits l.
Proof.
  revert bits n. induction l as [|b l IH]; intros bits n H; [by destruct n|].
  cbn [mask_bytes length]. destruct n as [|n].
  - replace (8 <=? bits) with false by (symmetry; apply Z.leb_gt; lia).
    replace (bits <=? 0) with true by (symmetry; apply Z.leb_le; lia). cbn [take app Nat.sub replicate]. f_equal.
    rewrite <- (IH (bits - 8) 0%nat) by lia. cbn [take app]. by rewrite Nat.sub_0_r.
  - cbn [take app Nat.sub]. f_equal. apply IH. lia.
Qed.

Definition addr_bytes (a : Addr) : list byte := match a with AddrNone => [] | Addr4 l => l | Addr16 l => l end.

Definition addr_len (afi : Z) : nat := if afi =? 1 then 4 else 16.

(** A decoded route: in the family's form, within its range, without stray bits. *)
Definition prefix_ok (afi : Z) (addPath : bool) (p : RoutePrefix) : Prop :=
  let n := addr_len afi in
  let l := addr_bytes (p_Addr (Prefix_ p)) in
  p_Addr (Prefix_ p) = (if afi =? 1 then Addr4 l else Addr16 l) ∧ length l = n ∧
  0 ≤ p_Bits (Prefix_ p) ≤ 8 * Z.of_nat n ∧ mask_bytes (p_Bits (Prefix_ p)) l = l ∧
  HasPathID p = addPath ∧ if addPath then 0 ≤ PathID p < 2 ^ 32 else PathID p = 0.

(** The canonical encoding of a route. *)
Definition wire_of (p : RoutePrefix) : WirePrefix :=
  mkWire (PathID p) (p_Bits (Prefix_ p))
    (take (Z.to_nat (octets_of (p_Bits (Prefix_ p)))) (addr_bytes (p_Addr (Prefix_ p)))).

Definition encodePrefixes (addPath : bool) (l : list RoutePrefix) : list byte := encodeWires addPath (wire_of <$> l).

Lemma length_array n l : length (array n l) = n.
Proof. unfold array. rewrite length_take, length_app, length_replicate. lia. Qed.

Lemma route_of_ok afi addPath p :
  wire_ok (8 * Z.of_nat (addr_len afi)) addPath p → prefix_ok afi addPath (route_of afi addPath p).
Proof.
  intros (Hid & Hbits & Hlen). unfold prefix_ok, route_of, Masked, address, addr_len in *.
  cbn [Prefix_ p_Addr p_Bits HasPathID PathID].
  destruct (afi =? 1); cbn [AddrFrom4 AddrFrom16 addr_bytes p_Addr]; unfold AddrFrom4, AddrFrom16; cbn [addr_bytes];
    rewrite length_mask, length_array, mask_idem; split_and!; done || lia.
Qed.

Lemma wire_of_ok afi addPath p :
  prefix_ok afi addPath p →
  wire_ok (8 * Z.of_nat (addr_len afi)) addPath (wire_of p) ∧ route_of afi addPath (wire_of p) = p.
Proof.
  intros (Ha & Hl & Hb & Hm & Hh & Hid). destruct p as [[a bits] id has]. cbn [Prefix_ p_Addr p_Bits HasPathID PathID] in *.
  subst has. set (l := addr_bytes a) in *. destruct (octets_of_spec bits) as [O1 O2]; [lia|].
  assert (Hoct : (Z.to_nat (octets_of bits) ≤ length l)%nat) by lia.
  assert (Harr : array (length l) (take (Z.to_nat (octets_of bits)) l) = l).
  { unfold array. rewrite take_app, length_take, take_replicate.
    rewrite (take_ge (take _ _)) by (rewrite length_take; lia).
    replace (Nat.min _ _) with (length l - Z.to_nat (octets_of bits))%nat by lia.
    pose proof (mask_tail bits l (Z.to_nat (octets_of bits))) as T. rewrite Hm in T. apply T. lia. }
  split.
  - unfold wire_ok, wire_of. cbn. split_and!; try (done || lia). fold l. unfold len. rewrite length_take. lia.
  - unfold route_of, wire_of, Masked, address, addr_len in *. cbn [wp_id wp_bits wp_octets p_Addr p_Bits Prefix_ PathID].
    fold l. rewrite <- Hl in *. rewrite Ha. destruct (afi =? 1).
    + rewrite Hl in Harr. unfold AddrFrom4. by rewrite Harr, Hm.
    + rewrite Hl in Harr. unfold AddrFrom16. by rewrite Harr, Hm.
Qed.

Definition prefixes_admitted (raw : list byte) (b : Budget) : Prop :=
  0 < MemoryBytes b ∧ 0 < WorkUnits b ∧ len raw * 2 ≤ WorkUnits b.

Lemma prefixes_cases raw afi addPath b :
  afi = 1 ∨ afi = 2 →
  let m := 8 * Z.of_nat (addr_len afi) in
  let r := value (ParseBGPRoutePrefixes raw afi addPath b) in
  (¬ prefixes_admitted raw b ∧ r = Err [ErrBGPRoutePrefixBudget]) ∨
  (prefixes_admitted raw b ∧
   (((∀ l, Forall (wire_ok m addPath) l → raw ≠ encodeWires addPath l) ∧ r = Err [ErrBGPRoutePrefix]) ∨
    ∃ l, Forall (wire_ok m addPath) l ∧ raw = encodeWires addPath l ∧
      r = if len l * 64 <=? MemoryBytes b then Ok (route_of afi addPath <$> l) else Err [ErrBGPRoutePrefixBudget])).
Proof.
  intros Hafi m r. unfold r, ParseBGPRoutePrefixes. prog_simpl.
  assert (Hm : m < 256) by (unfold m, addr_len; destruct (afi =? 1); lia).
  set (p := if afi =? 1 then _ else _). assert (p = Ok m) as ->.
  { unfold p, m, addr_len. by destruct Hafi as [-> | ->]. }
  prog_simpl.
  destruct ((MemoryBytes b <=? 0) || (WorkUnits b <=? 0) || (Z.quot (WorkUnits b) 2 <? len raw)) eqn:Ha.
  { left. split; [|done]. intros (H1 & H2 & H3).
    apply orb_true_iff in Ha as [[Ha|Ha]%orb_true_iff|Ha]; zbool; [lia..|].
    apply (quot_ge (WorkUnits b) 2 (len raw)) in H3; lia. }
  right. apply orb_false_iff in Ha as [[Ha1 Ha2]%orb_false_iff Ha3]. zbool. apply quot_ge in Ha3; [|lia..].
  split; [by split_and!|].
  destruct (prefix_count_cases (length raw) m addPath raw 0) as [(l & Hl & ->)|Hc]; [done..| |].
  - right. exists l. split_and!; [done..|]. rewrite prefix_count_ok by done. prog_simpl.
    pose proof (len_nonneg l).
    destruct (Z.quot (MemoryBytes b) 64 <? 0 + len l) eqn:E1, (len l * 64 <=? MemoryBytes b) eqn:E2; zbool; try done.
    + exfalso. apply Z.lt_nge in E1. apply E1, quot_ge; lia.
    + by rewrite (prefix_read_ok _ _ m).
    + exfalso. apply quot_ge in E1; lia.
  - left. split; [|by rewrite Hc]. intros l Hl ->. by rewrite prefix_count_ok in Hc.
Qed.

Lemma encodeWires_inj m addPath l l' :
  m < 256 → Forall (wire_ok m addPath) l → Forall (wire_ok m addPath) l' → encodeWires addPath l = encodeWires addPath l' →
  route_of 1 addPath <$> l = route_of 1 addPath <$> l' ∧ route_of 2 addPath <$> l = route_of 2 addPath <$> l'.
Proof.
  intros Hm Hl Hl' E.
  split; [pose proof (prefix_read_ok _ 1 m addPath l Hm Hl (le_n _)) as R
         |pose proof (prefix_read_ok _ 2 m addPath l Hm Hl (le_n _)) as R];
    rewrite E, (prefix_read_ok _ _ m addPath l' Hm Hl' (le_n _)) in R; congruence.
Qed.

Lemma wires_of_ok afi addPath ps :
  Forall (prefix_ok afi addPath) ps →
  Forall (wire_ok (8 * Z.of_nat (addr_len afi)) addPath) (wire_of <$> ps) ∧
  route_of afi addPath <$> (wire_of <$> ps) = ps.
Proof.
  induction 1 as [|p ps Hp Hps [IH1 IH2]]; [done|]. destruct (wire_of_ok afi addPath p Hp) as [H1 H2].
  cbn. split; [by constructor|]. by rewrite H2, IH2.
Qed.

Lemma prefixes_encode afi addPath ps b :
  afi = 1 ∨ afi = 2 → Forall (prefix_ok afi addPath) ps → prefixes_admitted (encodePrefixes addPath ps) b →
  len ps * 64 ≤ MemoryBytes b → value (ParseBGPRoutePrefixes (encodePrefixes addPath ps) afi addPath b) = Ok ps.
Proof.
  intros Hafi Hps Had Hmem. destruct (wires_of_ok afi addPath ps Hps) as [Hw Hr].
  set (m := 8 * Z.of_nat (addr_len afi)) in *.
  assert (Hm : m < 256) by (unfold m, addr_len; destruct (afi =? 1); lia).
  destruct (prefixes_cases (encodePrefixes addPath ps) afi addPath b Hafi) as [[Hn _]|[_ [[Hn _]|(l & Hl & E & Hres)]]].
  - done.
  - by destruct (Hn (wire_of <$> ps)).
  - rewrite Hres. unfold encodePrefixes in E. apply (encodeWires_inj m) in E as [E1 E2]; [|done..].
    assert (Er : route_of afi addPath <$> l = ps) by (rewrite <- Hr; destruct Hafi as [-> | ->]; done).
    assert (length l = length ps) as El by (by rewrite <- Er, length_fmap).
    unfold len in *. rewrite El, Er. replace (_ <=? _) with true by (symmetry; apply Z.leb_le; lia). done.
Qed.

Lemma len_wires m afi addPath l :
  afi = 1 ∨ afi = 2 → m = 8 * Z.of_nat (addr_len afi) → Forall (wire_ok m addPath) l →
  len (encodePrefixes addPath (route_of afi addPath <$> l)) = len (encodeWires addPath l).
Proof.
  intros Hafi -> Hl. unfold encodePrefixes, encodeWires. induction Hl as [|p l Hp Hl IH]; [done|].
  cbn [fmap list_fmap concat]. rewrite !len_app. f_equal; [|apply IH].
  destruct (wire_of_ok afi addPath (route_of afi addPath p) (route_of_ok afi addPath p Hp)) as [(_ & _ & Hlen) _].
  destruct Hp as (_ & _ & Hlen'). unfold encodeWire. rewrite !len_app, !len_cons, Hlen, Hlen'.
  f_equal.
Qed.

(** Prefix lists are decoded to canonical routes and back: on every input, with and
    without path identifiers, the decoder returns routes or one of its two errors, never
    a panic or part of a list; the routes it returns are in range and have no bits set
    past their length, their canonical encoding has the size of the input and decodes to
    the same routes; and every list of such routes that fits the budget survives encoding
    and decoding. *)
Theorem prefixes_canonical (raw : list byte) (afi : Z) (addPath : bool) (b : Budget) :
  afi = 1 ∨ afi = 2 →
  let r := value (ParseBGPRoutePrefixes raw afi addPath b) in
  (∀ ps, r = Ok ps → Forall (prefix_ok afi addPath) ps ∧ len (encodePrefixes addPath ps) = len raw ∧
     value (ParseBGPRoutePrefixes (encodePrefixes addPath ps) afi addPath b) = Ok ps) ∧
  ((∃ ps, r = Ok ps) ∨ r = Err [ErrBGPRoutePrefix] ∨ r = Err [ErrBGPRoutePrefixBudget]) ∧
  ∀ ps, Forall (prefix_ok afi addPath) ps → raw = encodePrefixes addPath ps → prefixes_admitted raw b →
    len ps * 64 ≤ MemoryBytes b → r = Ok ps.
Proof.
  intros Hafi r. split_and!.
  - intros ps Hr. unfold r in Hr.
    destruct (prefixes_cases raw afi addPath b Hafi) as [[_ E]|[(A1 & A2 & A3) [[_ E]|(l & Hl & Hraw & E)]]];
      rewrite E in Hr; try done.
    destruct (_ <=? _) eqn:Ec in Hr; [|done]. zbool. injection Hr as <-.
    assert (Hps : Forall (prefix_ok afi addPath) (route_of afi addPath <$> l)).
    { apply Forall_fmap. eapply Forall_impl; [exact Hl|]. intros p. apply route_of_ok. }
    assert (Hlen : len (encodePrefixes addPath (route_of afi addPath <$> l)) = len raw)
      by (rewrite Hraw; by eapply len_wires).
    split_and!; [done..|]. apply prefixes_encode; try done.
    + split_and!; [done..|]. by rewrite Hlen.
    + unfold len in *. by rewrite length_fmap.
  - unfold r. destruct (prefixes_cases raw afi addPath b Hafi) as [[_ ->]|[_ [[_ ->]|(l & _ & _ & ->)]]]; [by auto..|].
    destruct (_ <=? _); eauto.
  - intros ps Hps Hraw Had Hm. subst r. rewrite Hraw in *. by apply prefixes_encode.
Qed.

(** ** Multiprotocol attributes on the wire *)

(** Addresses of one next hop, or of a global and a link-local one. *)
Definition next_hops_ok (nextHopAFI : Z) (hops : list Addr) : Prop :=
  (nextHopAFI = 1 ∧ ∃ l, hops = [Addr4 l] ∧ length l = 4%nat) ∨
  (nextHopAFI = 2 ∧ ((∃ l, hops = [Addr16 l] ∧ length l = 16%nat) ∨
    ∃ l k, hops = [Addr16 l; Addr16 k] ∧ length l = 16%nat ∧ length k = 16%nat ∧ IsLinkLocalUnicast (Addr16 k) = true)).

Definition hop_bytes (hops : list Addr) : list byte := concat (addr_bytes <$> hops).

Definition reach_ok (addPath : bool) (m : MultiprotocolReach) : Prop :=
  SAFI (mr_Family m) = 1 ∧ (AFI (mr_Family m) = 1 ∨ AFI (mr_Family m) = 2 ∧ NextHopAFI m = 2) ∧
  next_hops_ok (NextHopAFI m) (NextHops m) ∧ Forall (prefix_ok (AFI (mr_Family m)) addPath) (mr_Prefixes m).

Definition encodeReach (addPath : bool) (reserved : byte) (m : MultiprotocolReach) : list byte :=
  be_bytes 2 (AFI (mr_Family m)) ++ [Zbyte (SAFI (mr_Family m)); Zbyte (len (hop_bytes (NextHops m)))] ++
  hop_bytes (NextHops m) ++ [reserved] ++ encodePrefixes addPath (mr_Prefixes m).

Definition encodeWithdraw (addPath : bool) (m : MultiprotocolWithdraw) : list byte :=
  be_bytes 2 (AFI (mw_Family m)) ++ [Zbyte (SAFI (mw_Family m))] ++ encodePrefixes addPath (mw_Prefixes m).

Lemma next_hops_read nextHopAFI hops pre post :
  next_hops_ok nextHopAFI hops → len pre = 4 →
  value (next_hops (pre ++ hop_bytes hops ++ post) nextHopAFI (len (hop_bytes hops))) = Ok hops ∧
  len (hop_bytes hops) < 256.
Proof.
  intros Hh Hpre. pose proof (len_nonneg post).
  destruct Hh as [(-> & l & -> & Hl)|[-> [(l & -> & Hl)|(l & k & -> & Hl & Hk & Hlocal)]]];
    unfold hop_bytes, next_hops; cbn [fmap list_fmap concat addr_bytes]; rewrite app_nil_r.
  - assert (Hl' : len l = 4) by (unfold len; lia). rewrite Hl'. split; [|done]. cbn [Z.eqb Pos.eqb negb].
    prog_reads ltac:(rewrite ?len_app; lia). by rewrite (slice_mid pre l post) by lia.
  - assert (Hl' : len l = 16) by (unfold len; lia). rewrite Hl'. split; [|done]. cbn [Z.eqb Pos.eqb negb andb].
    prog_reads ltac:(rewrite ?len_app; lia). by rewrite (slice_mid pre l post) by lia.
  - assert (Hl' : len l = 16) by (unfold len; lia). assert (Hk' : len k = 16) by (unfold len; lia).
    rewrite len_app, Hl', Hk'. split; [|done]. change (16 + 16) with 32. cbn [Z.eqb Pos.eqb negb andb].
    prog_reads ltac:(rewrite ?len_app; lia).
    rewrite <- app_assoc, (slice_mid pre l (k ++ post) 4 20) by lia.
    rewrite (app_assoc pre l), (slice_mid (pre ++ l) k post 20 36) by (rewrite ?len_app; lia).
    unfold AddrFrom16. by rewrite Hlocal.
Qed.

(** Enough for the metadata and the prefixes. *)
Definition mp_admitted (metadata : Z) (v : list byte) (prefixes : list RoutePrefix) (b : Budget) : Prop :=
  metadata + len prefixes * 64 ≤ MemoryBytes b ∧ metadata < MemoryBytes b ∧ len v * 3 < WorkUnits b.

Lemma reach_roundtrip addPath reserved m b :
  reach_ok addPath m → mp_admitted 128 (encodeReach addPath reserved m) (mr_Prefixes m) b →
  value (parseMPReachRoutes (encodeReach addPath reserved m) (NextHopAFI m) addPath b) = Ok m.
Proof.
  intros (Hsafi & Hafi & Hh & Hp) (Hm1 & Hm2 & Hw). destruct m as [[afi safi] nh hops ps].
  unfold encodeReach in *. cbn [mr_Family AFI SAFI NextHopAFI NextHops mr_Prefixes] in *. subst safi.
  set (hb := hop_bytes hops) in *. set (enc := encodePrefixes addPath ps) in *.
  set (pre := be_bytes 2 afi ++ [Zbyte 1; Zbyte (len hb)]).
  assert (Hv : be_bytes 2 afi ++ [Zbyte 1; Zbyte (len hb)] ++ hb ++ [reserved] ++ enc = pre ++ hb ++ [reserved] ++ enc)
    by (unfold pre; by rewrite <- app_assoc). rewrite Hv in *. set (v := pre ++ _) in *.
  destruct (next_hops_read nh hops pre ([reserved] ++ enc) Hh) as [Hread Hlen]; [done|]. fold hb v in Hread, Hlen.
  pose proof (len_nonneg hb). pose proof (len_nonneg enc).
  assert (Hlv : len v = 5 + len hb + len enc) by (unfold v; rewrite !len_app; change (len pre) with 4; change (len [reserved]) with 1; lia).
  assert (Hafi2 : afi = 1 ∨ afi = 2) by tauto.
  assert (F1 : be_uint (slice v 0 (0 + 2)) = afi).
  { rewrite (slice_split v [] (be_bytes 2 afi) ([Zbyte 1; Zbyte (len hb)] ++ hb ++ [reserved] ++ enc));
      [apply be_uint_be_bytes_small; cbn; lia|unfold v, pre; by rewrite <- app_assoc|done..]. }
  assert (F2 : at_ v 2 = 1) by done. assert (F3 : at_ v 3 = len hb).
  { change (at_ v 3) with (byteZ (Zbyte (len hb))). apply byteZ_Zbyte_small. lia. }
  assert (F4 : slice v (5 + len hb) (len v) = enc).
  { apply (slice_split v (pre ++ hb ++ [reserved]) enc []); [unfold v; by rewrite app_nil_r, <- !app_assoc| |lia].
    rewrite !len_app. change (len pre) with 4. change (len [reserved]) with 1. lia. }
  clearbody v. unfold parseMPReachRoutes. prog_simpl.
  replace (_ || _) with false by (symmetry; apply orb_false_iff; split; apply Z.leb_gt; lia).
  ltb_false. prog_reads lia. rewrite F1, F2, F3.
  replace (_ || _ || _) with false by (symmetry; destruct Hafi as [-> |[-> ->]]; done).
  ltb_false. rewrite Hread. prog_reads lia. rewrite F4.
  unfold enc. rewrite prefixes_encode; [by prog_simpl|done..| |cbn; lia].
  fold enc. split_and!; cbn; lia.
Qed.

Lemma withdraw_roundtrip addPath w b :
  SAFI (mw_Family w) = 1 → AFI (mw_Family w) = 1 ∨ AFI (mw_Family w) = 2 →
  Forall (prefix_ok (AFI (mw_Family w)) addPath) (mw_Prefixes w) →
  mp_admitted 64 (encodeWithdraw addPath w) (mw_Prefixes w) b →
  value (parseMPUnreachRoutes (encodeWithdraw addPath w) addPath b) = Ok w.
Proof.
  intros Hsafi Hafi Hp (Hm1 & Hm2 & Hw). destruct w as [[afi safi] ps]. unfold encodeWithdraw in *.
  cbn [mw_Family AFI SAFI mw_Prefixes] in *. subst safi. set (enc := encodePrefixes addPath ps) in *.
  set (v := be_bytes 2 afi ++ _) in *. pose proof (len_nonneg enc).
  assert (Hlv : len v = 3 + len enc) by (unfold v; rewrite !len_app, len_be_bytes; change (len [Zbyte 1]) with 1; lia).
  assert (F1 : be_uint (slice v 0 (0 + 2)) = afi).
  { rewrite (slice_split v [] (be_bytes 2 afi) ([Zbyte 1] ++ enc)); [|done..]. apply be_uint_be_bytes_small. cbn. lia. }
  assert (F2 : at_ v 2 = 1) by done.
  assert (F3 : slice v 3 (len v) = enc).
  { apply (slice_split v (be_bytes 2 afi ++ [Zbyte 1]) enc []); [unfold v; by rewrite app_nil_r, <- app_assoc|done|lia]. }
  clearbody v. unfold parseMPUnreachRoutes. prog_simpl.
  replace (_ || _) with false by (symmetry; apply orb_false_iff; split; apply Z.leb_gt; lia).
  ltb_false. prog_reads lia. rewrite F1, F2, F3.
  replace (_ || _) with false by (symmetry; destruct Hafi as [-> | ->]; done). prog_simpl.
  unfold enc. rewrite prefixes_encode; [by prog_simpl|done..| |cbn; lia].
  fold enc. split_and!; cbn; lia.
Qed.

(** Multiprotocol routes survive encoding: the decoder returns exactly the encoded
    family, next hops and prefixes of every well-formed MP_REACH attribute, whatever its
    reserved octet, and of every MP_UNREACH attribute, under any budget of 64 bytes per
    prefix and three work units per byte plus the metadata. *)
Theorem multiprotocol_roundtrip (addPath : bool) (reserved : byte) (m : MultiprotocolReach) (w : MultiprotocolWithdraw)
    (b : Budget) :
  (reach_ok addPath m → mp_admitted 128 (encodeReach addPath reserved m) (mr_Prefixes m) b →
   value (parseMPReachRoutes (encodeReach addPath reserved m) (NextHopAFI m) addPath b) = Ok m) ∧
  (SAFI (mw_Family w) = 1 → AFI (mw_Family w) = 1 ∨ AFI (mw_Family w) = 2 →
   Forall (prefix_ok (AFI (mw_Family w)) addPath) (mw_Prefixes w) →
   mp_admitted 64 (encodeWithdraw addPath w) (mw_Prefixes w) b →
   value (parseMPUnreachRoutes (encodeWithdraw addPath w) addPath b) = Ok w).
Proof. split; [apply reach_roundtrip|apply withdraw_roundtrip]. Qed.

(** What any decoded list of prefixes is. *)
Lemma prefixes_sound raw afi addPath b ps :
  afi = 1 ∨ afi = 2 → value (ParseBGPRoutePrefixes raw afi addPath b) = Ok ps →
  Forall (prefix_ok afi addPath) ps ∧ (ps = [] ↔ raw = []).
Proof.
  intros Hafi E. destruct (prefixes_cases raw afi addPath b Hafi) as [[_ E']|[_ [[_ E']|(l & Hl & Hraw & E')]]];
    rewrite E' in E; try done.
  destruct (_ <=? _) in E; [|done]. injection E as <-. split.
  - apply Forall_fmap. eapply Forall_impl; [exact Hl|]. intros p Hp. by apply route_of_ok.
  - rewrite Hraw. destruct l as [|p l]; [done|]. split; [done|]. intros H. by apply encodeWire_ne in H.
Qed.

Lemma mp_error_not_Ok {A} e (a : A) : value (mp_error e) ≠ Ok a.
Proof. unfold mp_error. by destruct (Is _ _). Qed.

Lemma next_hops_ne v nh n hops : value (next_hops v nh n) = Ok hops → hops ≠ [].
Proof.
  unfold next_hops. destruct (nh =? 1).
  - intros H. run_guards H. by injection H as <-.
  - destruct (nh =? 2); [|done]. intros H. run_guards H. destruct (n =? 32); [run_guards H|]; by injection H as <-.
Qed.

(** The family at the front of a multiprotocol attribute. *)
Definition family_of (v : list byte) : RouteFamily := mkFamily (be_uint (slice v 0 (0 + 2))) (at_ v 2).

Definition unicast (f : RouteFamily) : Prop := SAFI f = 1 ∧ (AFI f = 1 ∨ AFI f = 2).

Lemma reach_sound v nh addPath b m :
  value (parseMPReachRoutes v nh addPath b) = Ok m →
  3 ≤ len v ∧ mr_Family m = family_of v ∧ unicast (family_of v) ∧ NextHops m ≠ [] ∧
  Forall (prefix_ok (AFI (family_of v)) addPath) (mr_Prefixes m).
Proof.
  intros H. unfold parseMPReachRoutes in H. run_guards H. apply bind_Ok in H as (hops & Eh & H). run_guards H.
  apply bind_Ok in H as (ps & Ep & H). run_guards H. injection H as <-. cbn [mr_Family NextHops mr_Prefixes].
  apply catch_Ok in Ep; [|intros; apply mp_error_not_Ok]. apply next_hops_ne in Eh.
  assert (unicast (family_of v)) as Hu.
  { rewrite !orb_false_iff, !andb_false_iff, !negb_false_iff, !Z.eqb_eq in *. unfold unicast, family_of. cbn [AFI SAFI].
    destruct_and!. split; [done|]. naive_solver. }
  split_and!; [lia|done|done|done|]. eapply prefixes_sound; [|exact Ep]. apply Hu.
Qed.

Lemma unreach_sound v addPath b w :
  value (parseMPUnreachRoutes v addPath b) = Ok w →
  3 ≤ len v ∧ mw_Family w = family_of v ∧ unicast (family_of v) ∧ Forall (prefix_ok (AFI (family_of v)) addPath) (mw_Prefixes w).
Proof.
  intros H. unfold parseMPUnreachRoutes in H. run_guards H. apply bind_Ok in H as (ps & Ep & H). run_guards H.
  injection H as <-. cbn [mw_Family mw_Prefixes]. apply catch_Ok in Ep; [|intros; apply mp_error_not_Ok].
  assert (unicast (family_of v)) as Hu.
  { rewrite !orb_false_iff, !andb_false_iff, !negb_false_iff, !Z.eqb_eq in *. unfold unicast, family_of. cbn [AFI SAFI].
    destruct_and!. split; [done|]. naive_solver. }
  split_and!; [lia|done|done|]. eapply prefixes_sound; [|exact Ep]. apply Hu.
Qed.

(** ** Totality and cancellation *)

#[export] Instance prefixes_settle raw afi addPath b : Settles (ParseBGPRoutePrefixes raw afi addPath b).
Proof.
  destruct (decide (afi = 1 ∨ afi = 2)) as [H|H].
  - destruct (prefixes_cases raw afi addPath b H) as [[_ E]|[_ [[_ E]|(l & _ & _ & E)]]].
    1, 2: right; by eexists.
    destruct (_ <=? _); [left|right]; by eexists.
  - right. exists [ErrBGPRoutePrefix]. unfold ParseBGPRoutePrefixes. prog_simpl.
    destruct (afi =? 1) eqn:?, (afi =? 2) eqn:?; zbool; (done || lia).
Qed.

Lemma mp_error_settles {A} e : Settles (mp_error e : BM A).
Proof. unfold mp_error. destruct (Is _ _); right; by eexists. Qed.

Lemma next_hops_settle v nh n : n ≤ len v - 5 → Settles (next_hops v nh n).
Proof.
  intros Hn. unfold next_hops. settle.
Qed.

#[export] Instance reach_settles v nh addPath b : Settles (parseMPReachRoutes v nh addPath b).
Proof.
  unfold parseMPReachRoutes. settle. pose proof (at_range v 3).
  apply settles_bind; [by apply next_hops_settle|intros hops _]. settle.
  apply settles_bind; [apply settles_catch; [apply _|apply mp_error_settles]|intros ps _]. settle.
Qed.

#[export] Instance unreach_settles v addPath b : Settles (parseMPUnreachRoutes v addPath b).
Proof.
  unfold parseMPUnreachRoutes. settle.
  apply settles_bind; [apply settles_catch; [apply _|apply mp_error_settles]|intros ps _]. settle.
Qed.

Lemma polls_skip addPath rest : polls bare (skip_path_id addPath rest).
Proof. unfold skip_path_id. polls_tac. Qed.

Lemma polls_prefix_count fuel m addPath rest count : polls bare (prefix_count fuel m addPath rest count).
Proof. revert rest count. induction fuel; intros [|x rest] count; cbn [prefix_count]; polls_tac. apply polls_skip. Qed.

Lemma polls_prefix_read fuel afi addPath rest : polls bare (prefix_read fuel afi addPath rest).
Proof. revert rest. induction fuel; intros [|x rest]; cbn [prefix_read]; polls_tac. Qed.

Lemma polls_prefixes raw afi addPath b : polls bare (ParseBGPRoutePrefixes raw afi addPath b).
Proof. unfold ParseBGPRoutePrefixes. polls_tac; [apply polls_prefix_count|apply polls_prefix_read]. Qed.

Lemma polls_mp_error {A} (p : BM A) : polls bare p → polls from_ctx (catch p mp_error).
Proof.
  intros Hp. eapply polls_catch; [exact Hp| |].
  - intros e [c ->]. exists [ErrMPRouteAttributes; ctx_err c]. split; [by destruct c|]. exists c. set_solver.
  - intros e. unfold mp_error. by destruct (Is _ _).
Qed.

Lemma polls_next_hops P v nh n : polls P (next_hops v nh n : BM _).
Proof. unfold next_hops. polls_tac. Qed.

Lemma polls_reach v nh addPath b : polls from_ctx (parseMPReachRoutes v nh addPath b).
Proof.
  unfold parseMPReachRoutes. polls_tac; [apply polls_next_hops|apply polls_mp_error, polls_prefixes].
Qed.

Lemma polls_unreach v addPath b : polls from_ctx (parseMPUnreachRoutes v addPath b).
Proof. unfold parseMPUnreachRoutes. polls_tac. apply polls_mp_error, polls_prefixes. Qed.

(** ** Witnesses *)

(** 10.0.0.0/9 announced with path identifier 7, and a prefix with a stray bit. *)
Definition demo_route : RoutePrefix := mkRoute (mkPrefix (Addr4 (bytes [10; 0; 0; 0])) 9) 7 true.
Definition demo_nlri : list byte := bytes [0; 0; 0; 7; 9; 10; 1].
Definition demo_reach : MultiprotocolReach :=
  mkReach (mkFamily 1 1) 2 [Addr16 (bytes [32; 1; 13; 184; 0; 0; 0; 0; 0; 0; 0; 0; 0; 0; 0; 1])] [demo_route].
Definition demo_budget : Budget := mkBudget 4096 4096.

Lemma demo_route_ok : Forall (prefix_ok 1 true) [demo_route].
Proof. apply Forall_cons_2; [|apply Forall_nil_2]. split_and!; try reflexivity; cbn; lia. Qed.

Lemma prefixes_canonical_witness :
  value (ParseBGPRoutePrefixes demo_nlri 1 true demo_budget) = Ok [demo_route] ∧
  Forall (prefix_ok 1 true) [demo_route] ∧ len (encodePrefixes true [demo_route]) = len demo_nlri.
Proof.
  assert (E : value (ParseBGPRoutePrefixes demo_nlri 1 true demo_budget) = Ok [demo_route]) by (vm_compute; reflexivity).
  split; [exact E|].
  destruct (prefixes_canonical demo_nlri 1 true demo_budget (or_introl eq_refl)) as [H _].
  destruct (H _ E) as (H1 & H2 & _). split; [exact H1|exact H2].
Defined.

Lemma multiprotocol_roundtrip_witness :
  value (parseMPReachRoutes (encodeReach true x55 demo_reach) 2 true demo_budget) = Ok demo_reach ∧
  value (parseMPUnreachRoutes (encodeWithdraw true (mkWithdraw (mkFamily 1 1) [demo_route])) true demo_budget) =
    Ok (mkWithdraw (mkFamily 1 1) [demo_route]).
Proof.
  destruct (multiprotocol_roundtrip true x55 demo_reach (mkWithdraw (mkFamily 1 1) [demo_route]) demo_budget) as [H1 H2].
  split.
  - apply H1; [|split_and!; vm_compute; (reflexivity || discriminate)].
    split_and!; [reflexivity|left; reflexivity| |exact demo_route_ok].
    right. split; [reflexivity|]. left. eexists. split; reflexivity.
  - apply H2; [reflexivity|left; reflexivity|exact demo_route_ok|].
    split_and!; vm_compute; (reflexivity || discriminate).
Defined.

End BgpPrefix.
