(* ===== verification/BgpUpdate.v ===== *)
(** * BGP UPDATE messages (internal/bgp/route_attributes.go, end_of_rib.go,
      update_frame.go, route_as_path.go)

    Framing of an UPDATE, its path attributes, End-of-RIB markers, and the choice of the
    attributes an AS path is reconstructed from. *)

From S2P Require Import Prelude GoProg BgpBase AsPath.
#[local] Open Scope Z_scope.

Module BgpUpdate.
Import AsPath.

(** ** Path attributes *)

Record RouteAttribute := mkAttr { Flags : Z; Type_ : Z; Value : list byte }.

#[export] Instance RouteAttribute_eq_dec : EqDecision RouteAttribute.
Proof. solve_decision. Defined.

(** The lengths of the header and of the value of the attribute at the front. *)
Definition routeAttributeLength (raw : list byte) : BM (Z * Z) :=
  fail_if (len raw <? 3) ErrRouteAttributes;;
  n ← index raw 2;
  flags ← index raw 0;
  '(header, length) ←
    (if negb (Z.land flags 0x10 =? 0) then
       fail_if (len raw <? 4) ErrRouteAttributes;;
       n ← beU16 raw 2;
       mret (4, n)
     else mret (3, n));
  fail_if (len raw - header <? length) ErrRouteAttributes;;
  mret (header, length).

Fixpoint attr_count (fuel : nat) (rest : list byte) (count : Z) : BM Z :=
  match rest with
  | [] => mret count
  | _ :: _ =>
      match fuel with
      | O => OutOfFuel
      | S fuel =>
          poll;;
          '(header, length) ← routeAttributeLength rest;
          attr_count fuel (drop (Z.to_nat (header + length)) rest) (count + 1)
      end
  end.

Fixpoint attr_read (fuel : nat) (rest : list byte) : BM (list RouteAttribute) :=
  match rest with
  | [] => mret []
  | _ :: _ =>
      match fuel with
      | O => OutOfFuel
      | S fuel =>
          poll;;
          '(header, length) ← routeAttributeLength rest;
          v ← subslice rest header (header + length);
          flags ← index rest 0;
          kind ← index rest 1;
          out ← attr_read fuel (drop (Z.to_nat (header + length)) rest);
          mret (mkAttr flags kind v :: out)
      end
  end.

Definition ParseBGPRouteAttributes (raw : list byte) (budget : Budget) : BM (list RouteAttribute) :=
  poll;;
  fail_if (over budget (len raw) 64 2) ErrRouteAttributeBudget;;
  attr_count (length raw) raw 0;;
  attr_read (length raw) raw.

(** ** End-of-RIB *)

Definition is_marker (l : list byte) : bool := forallb (λ b, byteZ b =? 255) l.

Definition noFamily : RouteFamily := mkFamily 0 0.

(** The part of ParseBGPEndOfRIB after the frame: the attributes are the whole body. *)
Definition eor_attributes (attributes : list byte) : BM (RouteFamily * bool) :=
  fail_if (len attributes <? 3) ErrBGPRouteFrame;;
  flags ← index attributes 0;
  kind ← index attributes 1;
  n ← index attributes 2;
  '(headerLength, valueLength) ←
    (if negb (Z.land flags 0x10 =? 0) then
       fail_if (len attributes <? 4) ErrBGPRouteFrame;;
       n ← beU16 attributes 2;
       mret (4, n)
     else mret (3, n));
  fail_if (len attributes - headerLength <? valueLength) ErrBGPRouteFrame;;
  if negb (headerLength + valueLength =? len attributes) || negb (kind =? 15) then mret (noFamily, false)
  else
    fail_if (negb (Z.land flags 0xe0 =? 0x80) || (valueLength <? 3)) ErrBGPRouteFrame;;
    if negb (valueLength =? 3) then mret (noFamily, false)
    else
      v ← subslice attributes headerLength (len attributes);
      afi ← beU16 v 0;
      safi ← index v 2;
      mret (mkFamily afi safi, true).

Definition ParseBGPEndOfRIB (raw : list byte) : BM (RouteFamily * bool) :=
  fail_if (len raw <? bgpHeaderLen) ErrBGPRouteFrame;;
  marker ← subslice raw 0 16;
  fail_if (negb (is_marker marker)) ErrBGPRouteFrame;;
  total ← beU16 raw 16;
  fail_if (negb (total =? len raw)) ErrBGPRouteFrame;;
  kind ← index raw 18;
  if negb (kind =? 2) then mret (noFamily, false)
  else
    fail_if (len raw <? bgpHeaderLen + 4) ErrBGPRouteFrame;;
    withdrawn ← beU16 raw 19;
    fail_if (len raw - bgpHeaderLen - 4 <? withdrawn) ErrBGPRouteFrame;;
    let offset := bgpHeaderLen + 2 + withdrawn in
    length ← beU16 raw offset;
    let offset := offset + 2 in
    fail_if (len raw - offset <? length) ErrBGPRouteFrame;;
    let bodyEnd := offset + length in
    if negb (bodyEnd =? len raw) || negb (withdrawn =? 0) then mret (noFamily, false)
    else if length =? 0 then mret (mkFamily 1 1, true)
    else attributes ← subslice raw offset bodyEnd; eor_attributes attributes.

(** ** UPDATE frames *)

Record UpdateFrame := mkFrame {
  WithdrawnIPv4 : list byte; ReachableIPv4 : list byte; Attributes : list RouteAttribute;
  EndOfRIB : RouteFamily; HasEndOfRIB : bool }.

Definition parseBGPUpdateFrame (raw : list byte) (budget : Budget) : BM UpdateFrame :=
  poll;;
  fail_if (over budget (len raw) 128 8) ErrBGPUpdateFrameBudget;;
  fail_if (len raw <? bgpHeaderLen + 4) ErrBGPUpdateFrame;;
  kind ← index raw 18;
  fail_if (negb (kind =? bgpMessageTypeUpdate)) ErrBGPUpdateFrame;;
  total ← beU16 raw 16;
  fail_if (negb (total =? len raw)) ErrBGPUpdateFrame;;
  marker ← subslice raw 0 16;
  fail_if (negb (is_marker marker)) ErrBGPUpdateFrame;;
  withdrawnLength ← beU16 raw 19;
  fail_if (len raw - bgpHeaderLen - 4 <? withdrawnLength) ErrBGPUpdateFrame;;
  withdrawn ← subslice raw 21 (21 + withdrawnLength);
  let offset := 21 + withdrawnLength in
  attributeLength ← beU16 raw offset;
  let offset := offset + 2 in
  fail_if (len raw - offset <? attributeLength) ErrBGPUpdateFrame;;
  block ← subslice raw offset (offset + attributeLength);
  attributes ← catch (ParseBGPRouteAttributes block
      (mkBudget (Z.quot (MemoryBytes budget) 2) (Z.quot (WorkUnits budget) 4)))
    (λ e, Fail (Join ErrBGPUpdateFrame e));
  '(family, end_) ← catch (ParseBGPEndOfRIB raw) (λ e, Fail (Join ErrBGPUpdateFrame e));
  poll;;
  reachable ← subslice raw (offset + attributeLength) (len raw);
  poll;;
  mret (mkFrame withdrawn reachable attributes family end_).

(** ** The AS path of an UPDATE *)

Record RouteASPath := mkRoutePath { Path_ : ASPathReconstruction; IgnoredAttributes : list Z }.

(** What the loop over the attributes has found: the input of the reconstruction, and the
    attribute types seen and ignored ([256]bool arrays, as lists of types). *)
Record scan := mkScan { sc_input : ASPathAttributes; sc_seen : list Z; sc_ignored : list Z }.

#[export] Instance scan_eta : Eta scan := λ s, mkScan (sc_input s) (sc_seen s) (sc_ignored s).
#[export] Instance ASPathAttributes_eta : Eta ASPathAttributes := λ a,
  mkAttributes (FourOctetSession a) (Path a) (AS4Path a) (AggregatorPresent a) (AS4AggregatorPresent a) (AggregatorASN a).

Definition scan1 (asnWidth : Z) (a : RouteAttribute) (st : scan) : BM scan :=
  poll;;
  if bool_decide (Type_ a ∈ [2; 7; 17; 18]) then
    fail_if (bool_decide (Type_ a ∈ sc_seen st)) ErrRouteASAttributes;;
    let st := st <| sc_seen := sc_seen st ++ [Type_ a] |> in
    let input := sc_input st in
    if Type_ a =? 2 then
      fail_if (negb (Z.land (Flags a) 0xe0 =? 0x40)) ErrRouteASAttributes;;
      mret (st <| sc_input := input <| Path := Some (Value a) |> |>)
    else if Type_ a =? 17 then
      fail_if (negb (asnWidth =? 4) && negb (Z.land (Flags a) 0xc0 =? 0xc0)) ErrRouteASAttributes;;
      mret (st <| sc_input := input <| AS4Path := Some (Value a) |> |>)
    else if Type_ a =? 7 then
      if negb (Z.land (Flags a) 0xc0 =? 0xc0) || negb (len (Value a) =? asnWidth + 4)
      then mret (st <| sc_ignored := sc_ignored st ++ [7] |>)
      else
        asn ← (if asnWidth =? 4 then beU32 (Value a) 0 else beU16 (Value a) 0);
        mret (st <| sc_input := input <| AggregatorPresent := true |> <| AggregatorASN := asn |> |>)
    else
      if (asnWidth =? 4) || negb (Z.land (Flags a) 0xc0 =? 0xc0) || negb (len (Value a) =? 8)
      then mret (st <| sc_ignored := sc_ignored st ++ [18] |>)
      else mret (st <| sc_input := input <| AS4AggregatorPresent := true |> |>)
  else mret st.

Fixpoint scan_loop (asnWidth : Z) (attributes : list RouteAttribute) (st : scan) : BM scan :=
  match attributes with
  | [] => mret st
  | a :: attributes => st ← scan1 asnWidth a st; scan_loop asnWidth attributes st
  end.

(** The work charged for the attribute values. *)
Fixpoint charge_values (work : Z) (attributes : list RouteAttribute) : BM Z :=
  match attributes with
  | [] => mret work
  | a :: attributes =>
      poll;;
      fail_if (work <? len (Value a)) ErrASPathBudget;;
      charge_values (work - len (Value a)) attributes
  end.

(** The types reported as ignored once the path is known. *)
Definition ignored_types (st : scan) (path : ASPathReconstruction) : list Z :=
  let input := sc_input st in
  let ignored := sc_ignored st ++
    (if bool_decide (17 ∈ sc_seen st) && negb (bool_decide (AS4Action path = Reconstructed)) then [17] else []) ++
    (if AggregatorPresent input && AS4AggregatorPresent input
     then if AggregatorASN input =? 23456 then [7] else [18] else []) in
  filter (λ t, t ∈ ignored) [7; 17; 18].

Definition reconstructRouteASPath (attributes : list RouteAttribute) (asnWidth : Z) (budget : Budget) : BM RouteASPath :=
  poll;;
  fail_if (negb (asnWidth =? 2) && negb (asnWidth =? 4)) ErrRouteASAttributes;;
  fail_if (over budget (len attributes) 64 1) ErrASPathBudget;;
  let memory := MemoryBytes budget - len attributes * 64 in
  work ← charge_values (WorkUnits budget - len attributes) attributes;
  let input := mkAttributes (asnWidth =? 4) None None false false 0 in
  st ← scan_loop asnWidth attributes (mkScan input [] []);
  fail_if (negb (bool_decide (2 ∈ sc_seen st))) ErrRouteASAttributes;;
  path ← ReconstructASPath (sc_input st) (mkBudget memory work);
  poll;;
  mret (mkRoutePath path (ignored_types st path)).

(** ** The wire format as specification *)

Definition extended (flags : Z) : bool := negb (Z.land flags 0x10 =? 0).

Definition header_len (flags : Z) : Z := if extended flags then 4 else 3.

Definition encodeAttr (a : RouteAttribute) : list byte :=
  Zbyte (Flags a) :: Zbyte (Type_ a) ::
  (if extended (Flags a) then be_bytes 2 (len (Value a)) else be_bytes 1 (len (Value a))) ++ Value a.

Definition attr_ok (a : RouteAttribute) : Prop :=
  0 ≤ Flags a < 256 ∧ 0 ≤ Type_ a < 256 ∧ len (Value a) < if extended (Flags a) then 2 ^ 16 else 2 ^ 8.

Definition encodeAttrs (l : list RouteAttribute) : list byte := concat (encodeAttr <$> l).

Lemma len_encodeAttr a : len (encodeAttr a) = header_len (Flags a) + len (Value a).
Proof.
  unfold encodeAttr, header_len. rewrite !len_cons, len_app. destruct (extended (Flags a)); rewrite len_be_bytes; lia.
Qed.

Lemma encodeAttr_pos a : 3 ≤ len (encodeAttr a).
Proof. rewrite len_encodeAttr. pose proof (len_nonneg (Value a)). unfold header_len. destruct (extended _); lia. Qed.

(** The fields at the front of an encoded attribute. *)
Lemma attr_fields a r :
  attr_ok a →
  at_ (encodeAttr a ++ r) 0 = Flags a ∧ at_ (encodeAttr a ++ r) 1 = Type_ a ∧
  (extended (Flags a) = false → at_ (encodeAttr a ++ r) 2 = len (Value a)) ∧
  (extended (Flags a) = true → be_uint (slice (encodeAttr a ++ r) 2 (2 + 2)) = len (Value a)) ∧
  slice (encodeAttr a ++ r) (header_len (Flags a)) (header_len (Flags a) + len (Value a)) = Value a.
Proof.
  intros (Hf & Ht & Hl). unfold encodeAttr, header_len. rewrite <- !app_comm_cons, <- app_assoc.
  pose proof (len_nonneg (Value a)). rewrite at_cons_0, at_cons_1, !byteZ_Zbyte_small by lia.
  destruct (extended (Flags a)) eqn:E; split_and!; try done.
  - intros _. change (?x :: ?y :: ?l) with ([x; y] ++ l). rewrite slice_mid by (rewrite ?len_be_bytes; done).
    apply be_uint_be_bytes_small. lia.
  - change (?x :: ?y :: ?l) with ([x; y] ++ l). rewrite (app_assoc [_; _]). apply slice_mid; [|lia].
    rewrite len_app, len_be_bytes. done.
  - intros _. cbn [be_bytes app]. rewrite at_cons_2. apply byteZ_Zbyte_small. lia.
  - cbn [be_bytes app]. change (?x :: ?y :: ?z :: ?l) with ([x; y; z] ++ l). by apply slice_mid; [|lia].
Qed.

Lemma attr_length_ok a r :
  attr_ok a → value (routeAttributeLength (encodeAttr a ++ r)) = Ok (header_len (Flags a), len (Value a)).
Proof.
  intros Ha. destruct (attr_fields a r Ha) as (E0 & E1 & E2 & E4 & _). unfold routeAttributeLength.
  pose proof (encodeAttr_pos a). pose proof (len_nonneg r). pose proof (len_app (encodeAttr a) r).
  pose proof (len_encodeAttr a). prog_simpl.
  replace (_ <? 3) with false by (symmetry; apply Z.ltb_ge; lia). prog_reads lia. rewrite E0.
  fold (extended (Flags a)). unfold header_len in *. destruct (extended (Flags a)) eqn:E; prog_simpl.
  - pose proof (len_nonneg (Value a)). replace (_ <? 4) with false by (symmetry; apply Z.ltb_ge; lia).
    prog_reads lia. rewrite E4 by done. replace (_ <? _) with false by (symmetry; apply Z.ltb_ge; lia). done.
  - rewrite E2 by done. replace (_ <? _) with false by (symmetry; apply Z.ltb_ge; lia). done.
Qed.

(** A buffer that starts with a well-formed attribute, or a refusal. *)
Lemma attr_length_cases raw :
  (∃ a r, attr_ok a ∧ raw = encodeAttr a ++ r) ∨ value (routeAttributeLength raw) = Err [ErrRouteAttributes].
Proof.
  destruct raw as [|f [|t [|n raw]]]; [by right..|]. pose proof (byteZ_range f). pose proof (byteZ_range t).
  unfold routeAttributeLength. prog_simpl. pose proof (len_nonneg raw).
  destruct (_ <? 3) eqn:E3; [by right|]. apply Z.ltb_ge in E3. rewrite !len_cons in *. prog_reads ltac:(rewrite ?len_cons; lia).
  rewrite at_cons_0, at_cons_2. fold (extended (byteZ f)). destruct (extended (byteZ f)) eqn:E; prog_simpl.
  - destruct raw as [|n' raw]; [by right|]. rewrite !len_cons.
    destruct (_ <? 4) eqn:E4; [by right|]. apply Z.ltb_ge in E4. prog_reads ltac:(rewrite ?len_cons; pose proof (len_nonneg raw); lia).
    change (slice (f :: t :: n :: n' :: raw) 2 (2 + 2)) with [n; n'].
    destruct (_ <? _) eqn:E5; [by right|]. zbool. left.
    pose proof (be_uint_range [n; n']) as Hr. change (256 ^ _) with (2 ^ 16) in Hr.
    exists (mkAttr (byteZ f) (byteZ t) (take (Z.to_nat (be_uint [n; n'])) raw)), (drop (Z.to_nat (be_uint [n; n'])) raw).
    assert (Hlen : len (take (Z.to_nat (be_uint [n; n'])) raw) = be_uint [n; n'])
      by (unfold len in *; rewrite length_take; lia).
    unfold attr_ok, encodeAttr. cbn [Flags Type_ Value]. rewrite E, Hlen. split; [split_and!; lia|].
    rewrite !Zbyte_byteZ. change 2%nat with (length [n; n']). rewrite be_bytes_be_uint.
    cbn [app]. by rewrite take_drop.
  - destruct (_ <? _) eqn:E5; [by right|]. zbool. left. pose proof (byteZ_range n).
    exists (mkAttr (byteZ f) (byteZ t) (take (Z.to_nat (byteZ n)) raw)), (drop (Z.to_nat (byteZ n)) raw).
    assert (Hlen : len (take (Z.to_nat (byteZ n)) raw) = byteZ n) by (unfold len in *; rewrite length_take; lia).
    unfold attr_ok, encodeAttr. cbn [Flags Type_ Value]. rewrite E, Hlen. split; [split_and!; lia|].
    cbn [be_bytes app]. rewrite !Zbyte_byteZ. by rewrite take_drop.
Qed.

Lemma drop_attr a r : drop (Z.to_nat (header_len (Flags a) + len (Value a))) (encodeAttr a ++ r) = r.
Proof.
  replace (Z.to_nat _) with (length (encodeAttr a)); [apply drop_app_length|].
  pose proof (len_encodeAttr a). unfold len in *. lia.
Qed.

(** Both passes look at the attribute at the front. *)
Lemma attr_count_step fuel rest count :
  rest ≠ [] → attr_count (S fuel) rest count =
  (poll;; '(header, length) ← routeAttributeLength rest;
   attr_count fuel (drop (Z.to_nat (header + length)) rest) (count + 1)).
Proof. by destruct rest. Qed.

Lemma attr_read_step fuel rest :
  rest ≠ [] → attr_read (S fuel) rest =
  (poll;; '(header, length) ← routeAttributeLength rest;
   v ← subslice rest header (header + length);
   flags ← index rest 0; kind ← index rest 1;
   out ← attr_read fuel (drop (Z.to_nat (header + length)) rest);
   mret (mkAttr flags kind v :: out)).
Proof. by destruct rest. Qed.

Lemma encodeAttr_ne a r : encodeAttr a ++ r ≠ [].
Proof. done. Qed.

Lemma attr_count_ok fuel l count :
  Forall attr_ok l → (length (encodeAttrs l) ≤ fuel)%nat →
  value (attr_count fuel (encodeAttrs l) count) = Ok (count + len l).
Proof.
  intros Hl. revert fuel count. induction Hl as [|a l Ha Hl IH]; intros fuel count Hf.
  { destruct fuel; cbn; by rewrite Z.add_0_r. }
  unfold encodeAttrs in *. cbn [fmap list_fmap concat] in *. rewrite length_app in Hf.
  destruct fuel as [|fuel]; [cbn in Hf; lia|].
  rewrite attr_count_step by apply encodeAttr_ne. prog_simpl. rewrite attr_length_ok by done. prog_simpl.
  rewrite drop_attr, IH by (cbn in Hf; lia). rewrite len_cons. f_equal. lia.
Qed.

Lemma attr_count_cases fuel rest count :
  (length rest ≤ fuel)%nat →
  (∃ l, Forall attr_ok l ∧ rest = encodeAttrs l) ∨ value (attr_count fuel rest count) = Err [ErrRouteAttributes].
Proof.
  revert rest count. induction fuel as [|fuel IH]; intros rest count Hf.
  { left. exists []. destruct rest; [done|cbn in Hf; lia]. }
  destruct (decide (rest = [])) as [->|Hne]; [left; by exists []|].
  rewrite attr_count_step by done. prog_simpl.
  destruct (attr_length_cases rest) as [(a & r & Ha & ->)| -> ]; [|by right].
  rewrite attr_length_ok by done. prog_simpl. rewrite drop_attr. rewrite length_app in Hf.
  destruct (IH r (count + 1)) as [(l & Hl & ->)| -> ]; [cbn in Hf; lia| |by right].
  left. exists (a :: l). split; [by constructor|done].
Qed.

Lemma attr_read_ok fuel l :
  Forall attr_ok l → (length (encodeAttrs l) ≤ fuel)%nat → value (attr_read fuel (encodeAttrs l)) = Ok l.
Proof.
  intros Hl. revert fuel. induction Hl as [|a l Ha Hl IH]; intros fuel Hf; [by destruct fuel|].
  unfold encodeAttrs in *. cbn [fmap list_fmap concat] in *. rewrite length_app in Hf.
  destruct fuel as [|fuel]; [cbn in Hf; lia|]. set (r := concat _) in *.
  destruct (attr_fields a r Ha) as (E0 & E1 & _ & _ & Es).
  pose proof (encodeAttr_pos a). pose proof (len_nonneg r). pose proof (len_app (encodeAttr a) r).
  pose proof (len_encodeAttr a). pose proof (len_nonneg (Value a)).
  assert (0 ≤ header_len (Flags a)) by (unfold header_len; destruct (extended _); lia).
  rewrite attr_read_step by apply encodeAttr_ne. prog_simpl. rewrite attr_length_ok by done.
  prog_reads lia. rewrite E0, E1, Es, drop_attr, IH by (cbn in Hf; lia). prog_simpl. by destruct a.
Qed.

Lemma encodeAttrs_inj l l' : Forall attr_ok l → Forall attr_ok l' → encodeAttrs l = encodeAttrs l' → l = l'.
Proof.
  intros Hl Hl' E. pose proof (attr_read_ok _ l Hl (le_n _)) as R. rewrite E, (attr_read_ok _ l' Hl' (le_n _)) in R.
  congruence.
Qed.

(** What the attribute parser does, case by case. *)
Lemma attributes_cases raw b :
  let r := value (ParseBGPRouteAttributes raw b) in
  (over b (len raw) 64 2 = true ∧ r = Err [ErrRouteAttributeBudget]) ∨
  (over b (len raw) 64 2 = false ∧
   (((∀ l, Forall attr_ok l → raw ≠ encodeAttrs l) ∧ r = Err [ErrRouteAttributes]) ∨
    ∃ l, Forall attr_ok l ∧ raw = encodeAttrs l ∧ r = Ok l)).
Proof.
  intros r. unfold r, ParseBGPRouteAttributes. prog_simpl. destruct (over b (len raw) 64 2); [by left|right].
  split; [done|]. destruct (attr_count_cases (length raw) raw 0) as [(l & Hl & ->)|Hc]; [done| |].
  - right. exists l. rewrite attr_count_ok by done. prog_simpl. by rewrite attr_read_ok.
  - left. split; [|by rewrite Hc]. intros l Hl ->. by rewrite attr_count_ok in Hc.
Qed.

(** ** End-of-RIB markers of decoded updates *)

(** [None]: a lone multiprotocol withdrawal that is not a well-formed marker. *)
Definition eor_of (withdrawn reachable : list byte) (attributes : list RouteAttribute) : option (RouteFamily * bool) :=
  match withdrawn, reachable, attributes with
  | [], [], [] => Some (mkFamily 1 1, true)
  | [], [], [a] =>
      if negb (Type_ a =? 15) then Some (noFamily, false)
      else if negb (Z.land (Flags a) 0xe0 =? 0x80) || (len (Value a) <? 3) then None
      else match Value a with
           | [h; l; s] => Some (mkFamily (be_uint [h; l]) (byteZ s), true)
           | _ => Some (noFamily, false)
           end
  | _, _, _ => Some (noFamily, false)
  end.

Lemma eor_attributes_ok a r :
  attr_ok a →
  value (eor_attributes (encodeAttr a ++ encodeAttrs r)) =
  match eor_of [] [] (a :: r) with Some o => Ok o | None => Err [ErrBGPRouteFrame] end.
Proof.
  intros Ha. set (tl := encodeAttrs r). destruct (attr_fields a tl Ha) as (E0 & E1 & E2 & E4 & Es).
  pose proof (encodeAttr_pos a). pose proof (len_nonneg tl). pose proof (len_app (encodeAttr a) tl) as Hla.
  pose proof (len_encodeAttr a) as Hle. pose proof (len_nonneg (Value a)).
  assert (Hh : 3 ≤ header_len (Flags a)) by (unfold header_len; destruct (extended _); lia).
  unfold eor_attributes. prog_simpl. replace (_ <? 3) with false by (symmetry; apply Z.ltb_ge; lia).
  prog_reads lia. rewrite E0, E1. fold (extended (Flags a)).
  set (p := if extended (Flags a) then _ else _).
  assert (Hp : p = Ok (header_len (Flags a), len (Value a))).
  { unfold p, header_len in *. destruct (extended (Flags a)) eqn:E; prog_simpl; [|by rewrite E2].
    replace (_ <? 4) with false by (symmetry; apply Z.ltb_ge; lia). prog_reads lia. by rewrite E4. }
  rewrite Hp. prog_simpl. clear p Hp. replace (_ <? _) with false by (symmetry; apply Z.ltb_ge; lia).
  destruct r as [|a' r].
  - change tl with (@nil byte) in *. rewrite Hla, Hle. change (len (@nil byte)) with 0.
    rewrite Z.add_0_r, Z.eqb_refl. cbn [negb orb eor_of].
    destruct (negb (Type_ a =? 15)); [done|].
    destruct (_ || (len (Value a) <? 3)) eqn:Eb; [done|]. apply orb_false_iff in Eb as [_ Eb]. zbool.
    destruct (len (Value a) =? 3) eqn:E3; cbn [negb]; zbool.
    + rewrite value_subslice by lia. prog_simpl. rewrite Es.
      destruct (Value a) as [|h [|l [|s [|]]]]; try (unfold len in E3; cbn in E3; lia).
      reflexivity.
    + destruct (Value a) as [|h [|l [|s [|]]]]; done.
  - replace (_ || _) with true; [done|]. symmetry. apply orb_true_iff. left. apply negb_true_iff, Z.eqb_neq.
    enough (3 ≤ len tl) by lia. unfold tl, encodeAttrs. cbn [fmap list_fmap concat]. rewrite len_app.
    pose proof (encodeAttr_pos a'). pose proof (len_nonneg (concat (encodeAttr <$> r))). lia.
Qed.

(** ** Whole UPDATE messages *)

(** The body of a message, framed; [block] are the attribute bytes, well formed or not. *)
Definition framed (withdrawn block reachable : list byte) : list byte :=
  replicate 16 xff ++ be_bytes 2 (23 + len withdrawn + len block + len reachable) ++ x02 ::
  be_bytes 2 (len withdrawn) ++ withdrawn ++ be_bytes 2 (len block) ++ block ++ reachable.

Definition frame_fits (withdrawn block reachable : list byte) : Prop :=
  23 + len withdrawn + len block + len reachable < 2 ^ 16.

Lemma is_marker_replicate l : is_marker l = true ↔ l = replicate (length l) xff.
Proof.
  unfold is_marker. induction l as [|b l IH]; [done|]. cbn [forallb length replicate]. rewrite andb_true_iff, IH, Z.eqb_eq.
  split.
  - intros [E ->]. rewrite length_replicate. f_equal. apply (inj byteZ). exact E.
  - intros E. injection E as -> E. split; [done|exact E].
Qed.

Lemma len_framed w a r : len (framed w a r) = 23 + len w + len a + len r.
Proof. unfold framed. rewrite !len_app, len_cons, !len_app, !len_be_bytes. unfold len. rewrite length_replicate. lia. Qed.

(** Equal up to reassociation. *)
Ltac list_eq := solve [by rewrite ?app_nil_r, <- ?app_assoc].

(** The reads of the decoders on a frame. *)
Lemma framed_fields w a r :
  frame_fits w a r →
  let raw := framed w a r in
  slice raw 0 16 = replicate 16 xff ∧ be_uint (slice raw 16 (16 + 2)) = len raw ∧ at_ raw 18 = 2 ∧
  be_uint (slice raw 19 (19 + 2)) = len w ∧ slice raw 21 (21 + len w) = w ∧
  be_uint (slice raw (21 + len w) (21 + len w + 2)) = len a ∧
  slice raw (21 + len w + 2) (21 + len w + 2 + len a) = a ∧
  slice raw (21 + len w + 2 + len a) (len raw) = r.
Proof.
  intros Hf raw. unfold frame_fits in Hf. pose proof (len_nonneg w). pose proof (len_nonneg a). pose proof (len_nonneg r).
  assert (Hlen : len raw = 23 + len w + len a + len r) by apply len_framed.
  assert (Hrep : len (replicate 16 xff) = 16) by done.
  set (R := replicate 16 xff) in *. set (N := be_bytes 2 (23 + len w + len a + len r)).
  set (Wl := be_bytes 2 (len w)). set (Al := be_bytes 2 (len a)).
  assert (HN : len N = 2) by done. assert (HW : len Wl = 2) by done. assert (HA : len Al = 2) by done.
  assert (Hraw : raw = R ++ N ++ [x02] ++ Wl ++ w ++ Al ++ a ++ r) by done.
  assert (Hbe : ∀ z, 0 ≤ z < 2 ^ 16 → be_uint (be_bytes 2 z) = z) by (intros; by apply be_uint_be_bytes_small).
  clearbody R. split_and!.
  - rewrite Hraw. apply slice_take. done.
  - rewrite (slice_split raw R N ([x02] ++ Wl ++ w ++ Al ++ a ++ r)) by (done || lia). rewrite Hlen. apply Hbe. lia.
  - rewrite Hraw, app_assoc, at_app_r by (rewrite len_app; lia). rewrite len_app, HN, Hrep. done.
  - rewrite (slice_split raw (R ++ N ++ [x02]) Wl (w ++ Al ++ a ++ r))
      by (rewrite ?Hraw, ?len_app; list_eq || (change (len [x02]) with 1; lia)). apply Hbe. lia.
  - apply (slice_split raw (R ++ N ++ [x02] ++ Wl) w (Al ++ a ++ r));
      rewrite ?Hraw, ?len_app; list_eq || (change (len [x02]) with 1; lia).
  - rewrite (slice_split raw (R ++ N ++ [x02] ++ Wl ++ w) Al (a ++ r))
      by (rewrite ?Hraw, ?len_app; list_eq || (change (len [x02]) with 1; lia)). apply Hbe. lia.
  - apply (slice_split raw (R ++ N ++ [x02] ++ Wl ++ w ++ Al) a r);
      rewrite ?Hraw, ?len_app; list_eq || (change (len [x02]) with 1; lia).
  - apply (slice_split raw (R ++ N ++ [x02] ++ Wl ++ w ++ Al ++ a) r []);
      rewrite ?Hlen, ?Hraw, ?len_app; list_eq || (change (len [x02]) with 1; lia).
Qed.

(** A message that passes the framing checks is a frame. *)
Lemma framed_inv raw :
  23 ≤ len raw → at_ raw 18 = 2 → be_uint (slice raw 16 (16 + 2)) = len raw → is_marker (slice raw 0 16) = true →
  let wl := be_uint (slice raw 19 (19 + 2)) in
  wl ≤ len raw - 23 →
  let al := be_uint (slice raw (21 + wl) (21 + wl + 2)) in
  al ≤ len raw - (21 + wl + 2) →
  ∃ w a r, raw = framed w a r ∧ frame_fits w a r ∧ len w = wl ∧ len a = al.
Proof.
  intros Hlen Hk Hn Hm wl Hw al Ha.
  destruct (slice_be 2 raw 16) as [B16 R16]; [lia..|]. change (16 + Z.of_nat 2) with (16 + 2) in *.
  destruct (slice_be 2 raw 19) as [B19 R19]; [lia..|]. change (19 + Z.of_nat 2) with (19 + 2) in *. fold wl in B19, R19.
  destruct (slice_be 2 raw (21 + wl)) as [Bal Ral]; [lia..|]. change (Z.of_nat 2) with 2 in *. fold al in Bal, Ral.
  exists (slice raw 21 (21 + wl)), (slice raw (21 + wl + 2) (21 + wl + 2 + al)), (slice raw (21 + wl + 2 + al) (len raw)).
  unfold frame_fits, framed. rewrite !len_slice by lia.
  replace (23 + _ + _ + _) with (len raw) by lia. split_and!; try lia.
  replace (21 + wl - 21) with wl by lia. replace (21 + wl + 2 + al - _) with al by lia.
  rewrite <- Hn, B16, B19, Bal. change (16 + 2) with 18. change (19 + 2) with 21.
  assert (E18 : slice raw 18 19 = [x02]) by (change 19 with (18 + 1); rewrite slice_one by lia; by rewrite Hk).
  apply is_marker_replicate in Hm.
  assert (length (slice raw 0 16) = 16%nat) as E16 by (pose proof (len_slice raw 0 16); unfold len in *; lia).
  rewrite E16 in Hm. rewrite <- Hm. change (x02 :: ?l) with ([x02] ++ l). rewrite <- E18.
  rewrite <- (slice_full raw) at 1.
  rewrite (slice_cat raw 0 16 (len raw)), (slice_cat raw 16 18 (len raw)), (slice_cat raw 18 19 (len raw)),
    (slice_cat raw 19 21 (len raw)), (slice_cat raw 21 (21 + wl) (len raw)),
    (slice_cat raw (21 + wl) (21 + wl + 2) (len raw)), (slice_cat raw (21 + wl + 2) (21 + wl + 2 + al) (len raw)) by lia.
  change (16 + 2) with 18 in Hn. by rewrite Hn.
Qed.

Lemma is_marker_ff n : is_marker (replicate n xff) = true.
Proof. apply is_marker_replicate. by rewrite length_replicate. Qed.

Lemma negb_eqb_refl z : negb (z =? z) = false.
Proof. by rewrite Z.eqb_refl. Qed.

Lemma eor_framed w l r :
  Forall attr_ok l → frame_fits w (encodeAttrs l) r →
  value (ParseBGPEndOfRIB (framed w (encodeAttrs l) r)) =
  match eor_of w r l with Some o => Ok o | None => Err [ErrBGPRouteFrame] end.
Proof.
  intros Hl Hf. set (a := encodeAttrs l) in *. pose proof (len_framed w a r) as Hlen.
  destruct (framed_fields w a r Hf) as (F1 & F2 & F3 & F4 & _ & F6 & F7 & _).
  set (raw := framed w a r) in *. clearbody raw.
  pose proof (len_nonneg w). pose proof (len_nonneg a). pose proof (len_nonneg r).
  unfold ParseBGPEndOfRIB, bgpHeaderLen. prog_simpl. ltb_false. prog_reads lia.
  rewrite F1, F2, F3, is_marker_ff, negb_eqb_refl. cbn [negb Z.eqb Pos.eqb].
  ltb_false. prog_reads lia. rewrite F4. ltb_false. change (19 + 2) with 21. prog_reads lia. rewrite F6. ltb_false.
  destruct (negb _ || negb _) eqn:E.
  { replace (eor_of w r l) with (Some (noFamily, false)); [done|].
    apply orb_true_iff in E as [E|E]; zbool; [destruct r; [|destruct w; done]|destruct w; [|done]];
      unfold len in *; cbn in *; lia. }
  apply orb_false_iff in E as [E1 E2]. zbool. assert (w = []) as -> by (apply length_zero_iff_nil; unfold len in *; lia).
  assert (r = []) as -> by (apply length_zero_iff_nil; unfold len in *; cbn in *; lia).
  change (len (@nil byte)) with 0 in *. destruct l as [|at1 l]; [done|].
  assert (3 ≤ len a).
  { unfold a, encodeAttrs. cbn [fmap list_fmap concat]. rewrite len_app. pose proof (encodeAttr_pos at1).
    pose proof (len_nonneg (concat (encodeAttr <$> l))). lia. }
  destruct (len a =? 0) eqn:Ea; zbool; [lia|]. prog_reads lia. rewrite F7.
  apply Forall_cons in Hl as [Hat Hl]. apply (eor_attributes_ok at1 l Hat).
Qed.

(** The decoder on a framed body: what is left are the attributes and the marker. *)
Lemma update_framed w a r b :
  frame_fits w a r → over b (len (framed w a r)) 128 8 = false →
  value (parseBGPUpdateFrame (framed w a r) b) =
  obind (match value (ParseBGPRouteAttributes a
                  (mkBudget (Z.quot (MemoryBytes b) 2) (Z.quot (WorkUnits b) 4))) with
         | Err e => Err (Join ErrBGPUpdateFrame e) | o => o end)
    (λ l, obind (match value (ParseBGPEndOfRIB (framed w a r)) with
                 | Err e => Err (Join ErrBGPUpdateFrame e) | o => o end)
            (λ '(family, end_), Ok (mkFrame w r l family end_))).
Proof.
  intros Hf Hb. pose proof (len_framed w a r) as Hlen.
  destruct (framed_fields w a r Hf) as (F1 & F2 & F3 & F4 & F5 & F6 & F7 & F8).
  set (raw := framed w a r) in *. clearbody raw.
  pose proof (len_nonneg w). pose proof (len_nonneg a). pose proof (len_nonneg r).
  unfold parseBGPUpdateFrame, bgpHeaderLen, bgpMessageTypeUpdate. prog_simpl. rewrite Hb. ltb_false. prog_reads lia.
  rewrite F1, F2, F3, is_marker_ff, !negb_eqb_refl. cbn [negb].
  prog_reads lia. rewrite F4. ltb_false. prog_reads lia. rewrite F5, F6. ltb_false. prog_reads lia. rewrite F7.
  destruct (value (ParseBGPRouteAttributes _ _)); try done. cbn [obind value]. prog_simpl.
  destruct (value (ParseBGPEndOfRIB raw)) as [[fam e]| | |]; try done. cbn [obind value]. prog_reads lia.
  by rewrite F8.
Qed.

(** An admitted message is a frame or refused. *)
Lemma update_frame_or_refused raw b :
  over b (len raw) 128 8 = false →
  value (parseBGPUpdateFrame raw b) = Err [ErrBGPUpdateFrame] ∨ ∃ w a r, raw = framed w a r ∧ frame_fits w a r.
Proof.
  intros Hb. unfold parseBGPUpdateFrame, bgpHeaderLen, bgpMessageTypeUpdate. prog_simpl. rewrite Hb.
  destruct (len raw <? 19 + 4) eqn:E1; [by left|]. apply Z.ltb_ge in E1. prog_reads lia.
  destruct (negb (at_ raw 18 =? 2)) eqn:E2; [by left|]. apply negb_false_iff, Z.eqb_eq in E2.
  destruct (negb (_ =? len raw)) eqn:E3; [by left|]. apply negb_false_iff, Z.eqb_eq in E3.
  destruct (negb (is_marker _)) eqn:E4; [by left|]. apply negb_false_iff in E4.
  destruct (slice_be 2 raw 19) as [_ R19]; [lia..|]. change (19 + Z.of_nat 2) with (19 + 2) in R19.
  destruct (_ <? be_uint (slice raw 19 (19 + 2))) eqn:E5; [by left|]. apply Z.ltb_ge in E5. prog_reads lia.
  destruct (_ <? be_uint _) eqn:E6; [by left|]. apply Z.ltb_ge in E6. right.
  destruct (framed_inv raw) as (w & a & r & Hraw & Hf & _); try done; [lia..|eauto].
Qed.

(** The attribute parser is always admitted by the frame's share of the budget. *)
Lemma attribute_share_admits w a r b :
  over b (len (framed w a r)) 128 8 = false →
  over (mkBudget (Z.quot (MemoryBytes b) 2) (Z.quot (WorkUnits b) 4)) (len a) 64 2 = false.
Proof.
  rewrite !over_false by lia. cbn [MemoryBytes WorkUnits]. rewrite len_framed. intros (H1 & H2 & H3 & H4).
  pose proof (len_nonneg w). pose proof (len_nonneg a). pose proof (len_nonneg r).
  rewrite !Z.quot_div_nonneg by lia.
  assert (len a * 64 ≤ MemoryBytes b / 2) by (apply Z.div_le_lower_bound; lia).
  assert (len a * 2 ≤ WorkUnits b / 4) by (apply Z.div_le_lower_bound; lia).
  assert (1 ≤ MemoryBytes b / 2) by (apply Z.div_le_lower_bound; lia).
  assert (1 ≤ WorkUnits b / 4) by (apply Z.div_le_lower_bound; lia). lia.
Qed.

(** The message [raw] is the encoding of the decoded frame [f]. *)
Definition encodes (f : UpdateFrame) (raw : list byte) : Prop :=
  let block := encodeAttrs (Attributes f) in
  raw = framed (WithdrawnIPv4 f) block (ReachableIPv4 f) ∧ frame_fits (WithdrawnIPv4 f) block (ReachableIPv4 f) ∧
  Forall attr_ok (Attributes f) ∧
  eor_of (WithdrawnIPv4 f) (ReachableIPv4 f) (Attributes f) = Some (EndOfRIB f, HasEndOfRIB f).

Lemma update_encodes f raw b :
  over b (len raw) 128 8 = false → encodes f raw → value (parseBGPUpdateFrame raw b) = Ok f.
Proof.
  intros Hb (-> & Hf & Ha & He). rewrite update_framed by done.
  destruct (attributes_cases (encodeAttrs (Attributes f))
    (mkBudget (Z.quot (MemoryBytes b) 2) (Z.quot (WorkUnits b) 4))) as [[Ho _]|[_ [[Hn _]|(l & Hl & E & ->)]]].
  - by rewrite (attribute_share_admits _ _ _ b Hb) in Ho.
  - by destruct (Hn (Attributes f) Ha).
  - apply encodeAttrs_inj in E as <-; [|done..]. cbn [obind]. rewrite eor_framed, He by done. by destruct f.
Qed.

Lemma update_cases (raw : list byte) (b : Budget) :
  let r := value (parseBGPUpdateFrame raw b) in
  (∀ f, r = Ok f ↔
     (0 < MemoryBytes b ∧ 0 < WorkUnits b ∧ len raw * 128 ≤ MemoryBytes b ∧ len raw * 8 ≤ WorkUnits b) ∧
     encodes f raw) ∧
  ((∃ f, r = Ok f) ∨ r = Err [ErrBGPUpdateFrameBudget] ∨ ∃ e, r = Err (ErrBGPUpdateFrame :: e)).
Proof.
  intros r. setoid_rewrite <- (over_false b (len raw) 128 8); [|lia..]. destruct (over b (len raw) 128 8) eqn:Hb.
  { assert (r = Err [ErrBGPUpdateFrameBudget]) as ->.
    { unfold r, parseBGPUpdateFrame. prog_simpl. by rewrite Hb. }
    split; [|by auto]. intros f. split; [done|]. by intros [? _]. }
  assert (Hout : (∃ f, r = Ok f ∧ encodes f raw) ∨ ∃ e, r = Err (ErrBGPUpdateFrame :: e)).
  { unfold r. destruct (update_frame_or_refused raw b Hb) as [-> |(w & a & rd & -> & Hf)]; [by eauto|].
    rewrite update_framed by done.
    destruct (attributes_cases a (mkBudget (Z.quot (MemoryBytes b) 2) (Z.quot (WorkUnits b) 4)))
      as [[_ ->]|[_ [[_ ->]|(l & Hl & -> & ->)]]]; cbn [obind]; [right; by eexists..|].
    rewrite eor_framed by done. destruct (eor_of w rd l) as [[fam e]|] eqn:He; cbn [obind]; [|right; by eexists].
    left. eexists. split; [done|]. by split_and!. }
  split.
  - intros f. split; [|intros [_ H]; by apply update_encodes].
    intros E. split; [done|]. destruct Hout as [(f' & E' & H)|[e E']]; rewrite E' in E; by simplify_eq.
  - destruct Hout as [(f & E & _)|H]; eauto.
Qed.

(** The UPDATE decoder accepts exactly well-formed messages: it returns a frame
    exactly when the operation is admitted and the message is the encoding of that frame,
    every length field included and nothing left over; the End-of-RIB result is then the
    one RFC 4724 gives for the decoded regions, so a message with routes or other
    attributes is never taken for a marker.  Everything else is refused with the budget
    error or the framing error, without a panic. *)
Theorem update_frame_exact (raw : list byte) (b : Budget) :
  let r := value (parseBGPUpdateFrame raw b) in
  (∀ f, r = Ok f ↔
     (0 < MemoryBytes b ∧ 0 < WorkUnits b ∧ len raw * 128 ≤ MemoryBytes b ∧ len raw * 8 ≤ WorkUnits b) ∧
     encodes f raw) ∧
  ((∃ f, r = Ok f) ∨ r = Err [ErrBGPUpdateFrameBudget] ∨ ∃ e, r = Err (ErrBGPUpdateFrame :: e)).
Proof. apply update_cases. Qed.

(** ** Which attributes the path comes from *)

Definition relevant (a : RouteAttribute) : bool := bool_decide (Type_ a ∈ [2; 7; 17; 18]).

Definition attr_of (t : Z) (l : list RouteAttribute) : option RouteAttribute := find (λ a, Type_ a =? t) l.

Definition aggregator_ok (w : Z) (a : RouteAttribute) : bool :=
  (Type_ a =? 7) && (Z.land (Flags a) 0xc0 =? 0xc0) && (len (Value a) =? w + 4).
Definition as4_aggregator_ok (w : Z) (a : RouteAttribute) : bool :=
  (Type_ a =? 18) && negb (w =? 4) && (Z.land (Flags a) 0xc0 =? 0xc0) && (len (Value a) =? 8).

(** The aggregator's ASN: the first [w] bytes of the attribute. *)
Definition aggregator_asn (w : Z) (l : list RouteAttribute) : Z :=
  match find (aggregator_ok w) l with Some a => be_uint (slice (Value a) 0 w) | None => 0 end.

Definition input_of (w : Z) (l : list RouteAttribute) : ASPathAttributes :=
  mkAttributes (w =? 4) (Value <$> attr_of 2 l) (Value <$> attr_of 17 l)
    (existsb (aggregator_ok w) l) (existsb (as4_aggregator_ok w) l) (aggregator_asn w l).

Definition malformed (w : Z) (a : RouteAttribute) : list Z :=
  if (Type_ a =? 7) && negb (aggregator_ok w a) then [7]
  else if (Type_ a =? 18) && negb (as4_aggregator_ok w a) then [18] else [].

Definition scan_of (w : Z) (l : list RouteAttribute) : scan :=
  mkScan (input_of w l) (Type_ <$> filter (λ a, relevant a = true) l) (concat (malformed w <$> l)).

(** A relevant attribute that refuses the whole path. *)
Definition flags_ok (w : Z) (a : RouteAttribute) : bool :=
  if Type_ a =? 2 then Z.land (Flags a) 0xe0 =? 0x40
  else if Type_ a =? 17 then (w =? 4) || (Z.land (Flags a) 0xc0 =? 0xc0) else true.

Lemma find_snoc {A} (f : A → bool) l x :
  find f (l ++ [x]) = match find f l with Some y => Some y | None => if f x then Some x else None end.
Proof. induction l as [|y l IH]; cbn; [done|]. by destruct (f y). Qed.

Lemma seen_attr_of w l t : t ∈ [2; 7; 17; 18] → t ∈ sc_seen (scan_of w l) ↔ attr_of t l ≠ None.
Proof.
  intros Ht. cbn. rewrite list_elem_of_fmap. setoid_rewrite list_elem_of_filter. unfold attr_of. split.
  - intros (a & -> & _ & Ha) Hn. pose proof (find_none _ _ Hn a) as H. cbv beta in H. rewrite Z.eqb_refl in H.
    discriminate H. by apply list_elem_of_In.
  - intros Hn. destruct (find _ l) as [a|] eqn:E; [|done]. apply find_some in E as [Ha E]. zbool.
    exists a. split_and!; [done|unfold relevant; rewrite E; by apply bool_decide_eq_true|by apply list_elem_of_In].
Qed.

(** The fields of the input when one more attribute has been read. *)
Lemma attr_of_snoc t l a :
  attr_of t (l ++ [a]) = match attr_of t l with Some x => Some x | None => if Type_ a =? t then Some a else None end.
Proof. unfold attr_of. by rewrite find_snoc. Qed.

Lemma existsb_snoc {A} (f : A → bool) l x : existsb f (l ++ [x]) = existsb f l || f x.
Proof. rewrite existsb_app. cbn. by rewrite orb_false_r. Qed.

Lemma find_existsb {A} (f : A → bool) l : existsb f l = false → find f l = None.
Proof. induction l as [|x l IH]; cbn; [done|]. intros [-> H]%orb_false_iff. auto. Qed.

Lemma no_aggregator w l : attr_of 7 l = None → find (aggregator_ok w) l = None.
Proof.
  unfold attr_of. intros H. induction l as [|a l IH]; [done|]. cbn in *. unfold aggregator_ok at 1.
  destruct (Type_ a =? 7); [done|]. cbn. auto.
Qed.

Lemma filter_snoc_relevant l a :
  filter (λ a, relevant a = true) (l ++ [a]) =
  filter (λ a, relevant a = true) l ++ (if relevant a then [a] else []).
Proof. rewrite filter_app. f_equal. rewrite filter_cons. case_decide as H; [by rewrite H|]. by apply not_true_is_false in H as ->. Qed.

Lemma scan_of_snoc w l a :
  scan_of w (l ++ [a]) = mkScan (input_of w (l ++ [a]))
    (sc_seen (scan_of w l) ++ (if relevant a then [Type_ a] else [])) (sc_ignored (scan_of w l) ++ malformed w a).
Proof.
  unfold scan_of. cbn. rewrite filter_snoc_relevant, !fmap_app, concat_app. cbn. rewrite app_nil_r.
  do 2 f_equal. by destruct (relevant a).
Qed.

Definition refuses (w : Z) (l : list RouteAttribute) (a : RouteAttribute) : bool :=
  relevant a && (bool_decide (attr_of (Type_ a) l ≠ None) || negb (flags_ok w a)).

(** The input after one more attribute, in the shape the loop builds it. *)
Lemma input_of_snoc w l a :
  input_of w (l ++ [a]) =
  mkAttributes (w =? 4)
    (match attr_of 2 l with Some x => Some (Value x) | None => if Type_ a =? 2 then Some (Value a) else None end)
    (match attr_of 17 l with Some x => Some (Value x) | None => if Type_ a =? 17 then Some (Value a) else None end)
    (existsb (aggregator_ok w) l || aggregator_ok w a) (existsb (as4_aggregator_ok w) l || as4_aggregator_ok w a)
    (match find (aggregator_ok w) l with
     | Some x => be_uint (slice (Value x) 0 w)
     | None => if aggregator_ok w a then be_uint (slice (Value a) 0 w) else 0
     end).
Proof.
  unfold input_of, aggregator_asn. rewrite !attr_of_snoc, !existsb_snoc, find_snoc.
  destruct (attr_of 2 l), (attr_of 17 l), (find (aggregator_ok w) l); cbn; try done;
    repeat (destruct (Type_ a =? _); try done); by destruct (aggregator_ok w a).
Qed.

Lemma input_of_eq w l :
  input_of w l = mkAttributes (w =? 4)
    (match attr_of 2 l with Some x => Some (Value x) | None => None end)
    (match attr_of 17 l with Some x => Some (Value x) | None => None end)
    (existsb (aggregator_ok w) l) (existsb (as4_aggregator_ok w) l) (aggregator_asn w l).
Proof. unfold input_of. by destruct (attr_of 2 l), (attr_of 17 l). Qed.

Lemma scan1_ok w l a :
  w = 2 ∨ w = 4 →
  value (scan1 w a (scan_of w l)) =
  if refuses w l a then Err [ErrRouteASAttributes] else Ok (scan_of w (l ++ [a])).
Proof.
  intros Hw. unfold scan1, refuses. fold (relevant a). rewrite value_bind. cbn [obind value poll].
  rewrite scan_of_snoc, input_of_snoc. destruct (relevant a) eqn:Hr; cbn [andb]; swap 1 2.
  { unfold relevant in Hr. apply bool_decide_eq_false in Hr.
    assert (Type_ a ≠ 2 ∧ Type_ a ≠ 7 ∧ Type_ a ≠ 17 ∧ Type_ a ≠ 18) as (H2 & H7 & H17 & H18) by set_solver.
    apply Z.eqb_neq in H2, H7, H17, H18. unfold malformed, aggregator_ok, as4_aggregator_ok.
    rewrite H2, H7, H17, H18. cbn [andb]. rewrite !orb_false_r, !app_nil_r. cbn. f_equal. }
  rewrite value_bind, value_fail_if. unfold relevant in Hr. apply bool_decide_eq_true in Hr.
  destruct (decide (attr_of (Type_ a) l = None)) as [Hn|Hn]; swap 1 2.
  { rewrite !bool_decide_eq_true_2; [done|done|]. by apply (seen_attr_of w l). }
  rewrite !bool_decide_eq_false_2; [|tauto|rewrite (seen_attr_of w l) by done; tauto].
  cbn [obind orb]. unfold flags_ok.
  apply list_elem_of_In in Hr. unfold malformed.
  rewrite !(eq_refl : aggregator_ok w a = (Type_ a =? 7) && (Z.land (Flags a) 0xc0 =? 0xc0) && (len (Value a) =? w + 4)).
  rewrite !(eq_refl : as4_aggregator_ok w a =
    (Type_ a =? 18) && negb (w =? 4) && (Z.land (Flags a) 0xc0 =? 0xc0) && (len (Value a) =? 8)).
  destruct Hr as [E|[E|[E|[E|[]]]]]; rewrite <- E in *; cbn [Z.eqb Pos.eqb andb negb].
  - rewrite value_bind, value_fail_if. destruct (Z.land (Flags a) 224 =? 64); [|done]. cbn [negb obind].
    rewrite Hn, !orb_false_r, app_nil_r. cbn. f_equal.
  - assert (Easn : aggregator_asn w l = 0) by (unfold aggregator_asn; by rewrite (no_aggregator w l Hn)).
    rewrite (no_aggregator w l Hn).
    destruct (Z.land (Flags a) 192 =? 192); cbn [negb orb andb]; [|by rewrite !orb_false_r, <- Easn].
    destruct (len (Value a) =? w + 4) eqn:El; cbn [negb orb andb]; [|by rewrite !orb_false_r, <- Easn].
    zbool. rewrite value_bind.
    assert (value (if w =? 4 then beU32 (Value a) 0 else beU16 (Value a) 0 : BM Z) = Ok (be_uint (slice (Value a) 0 w))) as ->.
    { destruct Hw as [-> | ->]; [apply value_beU16|apply value_beU32]; lia. }
    rewrite !orb_true_r, !orb_false_r, app_nil_r. done.
  - rewrite value_bind, value_fail_if. replace (negb (w =? 4) && _) with (negb ((w =? 4) || (Z.land (Flags a) 192 =? 192)))
      by (by destruct (w =? 4)).
    destruct (_ || _); [|done]. cbn [negb obind]. rewrite Hn, !orb_false_r, app_nil_r. done.
  - unfold scan_of. rewrite input_of_eq. fold (aggregator_asn w l).
    destruct (w =? 4); cbn [negb orb andb]; [by rewrite !orb_false_r|].
    destruct (Z.land (Flags a) 192 =? 192); cbn [negb orb andb]; [|by rewrite !orb_false_r].
    destruct (len (Value a) =? 8); cbn [negb orb andb]; [|by rewrite !orb_false_r].
    rewrite !orb_true_r, !orb_false_r, app_nil_r. done.
Qed.

(** The attributes a path may come from: each relevant type at most once, with its flags. *)
Definition path_attrs_ok (w : Z) (l : list RouteAttribute) : Prop :=
  NoDup (Type_ <$> filter (λ a, relevant a = true) l) ∧ Forall (λ a, flags_ok w a = true) l.

Lemma flags_ok_irrelevant w a : relevant a = false → flags_ok w a = true.
Proof.
  unfold relevant, flags_ok. intros H%bool_decide_eq_false.
  destruct (Type_ a =? 2) eqn:E2; zbool; [rewrite E2 in H; set_solver|].
  destruct (Type_ a =? 17) eqn:E17; zbool; [rewrite E17 in H; set_solver|done].
Qed.

Lemma refuses_spec w l a :
  NoDup (Type_ <$> filter (λ a, relevant a = true) l) →
  refuses w l a = false ↔ NoDup (Type_ <$> filter (λ a, relevant a = true) (l ++ [a])) ∧ flags_ok w a = true.
Proof.
  intros Hl. rewrite filter_snoc_relevant, fmap_app. unfold refuses. destruct (relevant a) eqn:Hr; cbn [andb].
  - rewrite orb_false_iff, negb_false_iff, bool_decide_eq_false. unfold relevant in Hr. apply bool_decide_eq_true in Hr.
    rewrite <- (seen_attr_of w l (Type_ a) Hr). cbn. rewrite NoDup_app. split; intros [H1 H2]; (split; [|done]).
    + split_and!; [done| |apply NoDup_singleton]. intros x Hx ->%list_elem_of_singleton. done.
    + intros Hin. destruct H1 as (_ & H1 & _). apply (H1 _ Hin). set_solver.
  - cbn. rewrite app_nil_r. split; [|done]. intros _. split; [done|by apply flags_ok_irrelevant].
Qed.

Lemma scan_loop_ok w rest l :
  w = 2 ∨ w = 4 → path_attrs_ok w l →
  (path_attrs_ok w (l ++ rest) ∧ value (scan_loop w rest (scan_of w l)) = Ok (scan_of w (l ++ rest))) ∨
  (¬ path_attrs_ok w (l ++ rest) ∧ value (scan_loop w rest (scan_of w l)) = Err [ErrRouteASAttributes]).
Proof.
  intros Hw. revert l. induction rest as [|a rest IH]; intros l [Hl Hf].
  { rewrite app_nil_r. by left. }
  cbn [scan_loop]. rewrite value_bind, scan1_ok by done. rewrite (cons_middle a l rest), (app_assoc l [a] rest).
  destruct (refuses w l a) eqn:Hr.
  - right. split; [|done]. intros [Hn Hfl]. apply not_false_iff_true in Hr. apply Hr, refuses_spec; [done|].
    rewrite filter_app, fmap_app in Hn. apply NoDup_app in Hn as [Hn _]. split; [done|].
    apply Forall_app in Hfl as [Hfl _]. apply Forall_app in Hfl as [_ Hfl]. by apply Forall_cons in Hfl as [Hfl _].
  - apply refuses_spec in Hr as [Hn Hfa]; [|done]. cbn [obind]. apply IH. split; [done|].
    apply Forall_app. split; [done|]. by apply Forall_singleton.
Qed.

Lemma charge_values_ok l work :
  value (charge_values work l) =
  if (len (concat (Value <$> l)) <=? work) || bool_decide (l = []) then Ok (work - len (concat (Value <$> l)))
  else Err [ErrASPathBudget].
Proof.
  revert work. induction l as [|a l IH]; intros work.
  { cbn. rewrite orb_true_r, Z.sub_0_r. done. }
  cbn [charge_values fmap list_fmap concat]. prog_simpl. rewrite len_app. pose proof (len_nonneg (concat (Value <$> l))).
  pose proof (len_nonneg (Value a)). rewrite (bool_decide_eq_false_2 (a :: l = [])), orb_false_r by done.
  destruct (work <? len (Value a)) eqn:E; zbool; [by replace (_ <=? _) with false by (symmetry; apply Z.leb_gt; lia)|].
  rewrite IH. destruct (decide (l = [])) as [El|El].
  - rewrite (bool_decide_eq_true_2 _ El), El, orb_true_r in *. cbn. change (len (@nil byte)) with 0 in *. replace (_ <=? _) with true by (symmetry; apply Z.leb_le; lia).
    f_equal. lia.
  - rewrite (bool_decide_eq_false_2 _ El), orb_false_r. destruct (_ <=? work - _) eqn:E1, (_ <=? work) eqn:E2; zbool; try lia; f_equal; lia.
Qed.

(** The budget left for the path itself. *)
Definition path_share (l : list RouteAttribute) (b : Budget) : Budget :=
  mkBudget (MemoryBytes b - len l * 64) (WorkUnits b - len l - len (concat (Value <$> l))).

(** The AS path of an UPDATE comes from the right attributes: once the attributes are
    within the budget, the path is refused exactly when AS_PATH is missing, a relevant
    attribute (AS_PATH, AGGREGATOR, AS4_PATH, AS4_AGGREGATOR) is repeated, or the flags of
    a path attribute are wrong for the session; otherwise the result is the reconstruction
    of exactly those attributes, with malformed aggregators discarded and listed among the
    ignored types, and other attributes never matter. *)
Theorem route_path_exact (l : list RouteAttribute) (w : Z) (b : Budget) :
  w = 2 ∨ w = 4 → over b (len l) 64 1 = false → len (concat (Value <$> l)) ≤ WorkUnits b - len l →
  let r := value (reconstructRouteASPath l w b) in
  (path_attrs_ok w l → attr_of 2 l ≠ None →
   r = obind (value (ReconstructASPath (input_of w l) (path_share l b)))
         (λ p, Ok (mkRoutePath p (ignored_types (scan_of w l) p)))) ∧
  (¬ (path_attrs_ok w l ∧ attr_of 2 l ≠ None) → r = Err [ErrRouteASAttributes]).
Proof.
  intros Hw Ho Hb r. unfold r, reconstructRouteASPath. prog_simpl.
  replace (negb (w =? 2) && negb (w =? 4)) with false by (by destruct Hw as [-> | ->]). rewrite Ho.
  rewrite charge_values_ok. replace (_ <=? _) with true by (symmetry; apply Z.leb_le; lia). cbn [orb]. prog_simpl.
  change (mkScan _ [] []) with (scan_of w []).
  destruct (scan_loop_ok w l [] Hw) as [[Hok E]|[Hno E]]; [by split; constructor| |]; cbn [app] in *; rewrite E; prog_simpl.
  - assert (Hseen : bool_decide (2 ∈ sc_seen (scan_of w l)) = bool_decide (attr_of 2 l ≠ None)).
    { apply bool_decide_ext, seen_attr_of. set_solver. }
    rewrite Hseen. split.
    + intros _ H2. rewrite bool_decide_eq_true_2 by done. cbn [negb]. change (sc_input (scan_of w l)) with (input_of w l).
      by destruct (value (ReconstructASPath _ _)).
    + intros Hn. rewrite bool_decide_eq_false_2 by tauto. done.
  - split; [|done]. by intros Hok _.
Qed.

(** ** Totality and cancellation *)

#[export] Instance update_settles raw b : Settles (parseBGPUpdateFrame raw b).
Proof.
  destruct (over b (len raw) 128 8) eqn:Hb.
  { right. eexists. unfold parseBGPUpdateFrame. prog_simpl. by rewrite Hb. }
  destruct (update_frame_or_refused raw b Hb) as [E|(w & a & r & -> & Hf)]; [right; by eexists|].
  unfold Settles. rewrite update_framed by done.
  destruct (attributes_cases a (mkBudget (Z.quot (MemoryBytes b) 2) (Z.quot (WorkUnits b) 4)))
    as [[_ ->]|[_ [[_ ->]|(l & Hl & -> & ->)]]]; cbn [obind]; [right; by eexists..|].
  rewrite eor_framed by done. destruct (eor_of w r l) as [[fam e]|]; cbn [obind]; [left|right]; by eexists.
Qed.

#[export] Instance reconstruct_settles input b : budget_ok b → Settles (ReconstructASPath input b).
Proof.
  intros Hb. destruct (reconstruct_cases input b Hb) as [E|[E|(l & out & E & _)]]; [right; by eexists..|left; by eexists].
Qed.

#[export] Instance route_path_settles l w b : budget_ok b → Settles (reconstructRouteASPath l w b).
Proof.
  intros Hb. unfold reconstructRouteASPath. settle. apply settles_bind.
  { unfold Settles. rewrite charge_values_ok. destruct (_ || _); [left|right]; by eexists. }
  intros work Hwork. assert (w = 2 ∨ w = 4) as Hw.
  { match goal with H : negb (w =? 2) = false ∨ _ |- _ => destruct H; zbool; auto end. }
  change (mkScan _ [] []) with (scan_of w []). apply settles_bind.
  { destruct (scan_loop_ok w l [] Hw) as [[_ E]|[_ E]]; [by split; constructor|left|right]; by eexists. }
  intros st _. settle. apply settles_bind; [|intros p _; settle]. apply reconstruct_settles.
  destruct Hb as [Hb1 Hb2]. pose proof (len_nonneg l). pose proof (len_nonneg (concat (Value <$> l))).
  rewrite charge_values_ok in Hwork. destruct (_ || _) in Hwork; [|done]. injection Hwork as <-. split; cbn; lia.
Qed.

Lemma polls_attr_length raw P : polls P (routeAttributeLength raw).
Proof. unfold routeAttributeLength. polls_tac. Qed.

#[local] Hint Resolve polls_attr_length : polls.

Lemma polls_attributes raw b : polls bare (ParseBGPRouteAttributes raw b).
Proof.
  unfold ParseBGPRouteAttributes. polls_tac.
  - generalize 0 as count. generalize (length raw) as fuel. intros fuel. revert raw.
    induction fuel; intros [|x raw] count; cbn [attr_count]; polls_tac.
  - generalize (length raw) as fuel. intros fuel. revert raw.
    induction fuel; intros [|x raw]; cbn [attr_read]; polls_tac.
Qed.

Lemma polls_eor raw P : polls P (ParseBGPEndOfRIB raw).
Proof. unfold ParseBGPEndOfRIB, eor_attributes. polls_tac. Qed.

Lemma polls_join {A} (s : bgp_err) (p : BM A) : polls bare p → polls from_ctx (catch p (λ e, Fail (Join s e))).
Proof.
  intros Hp. eapply polls_catch; [exact Hp| |done]. intros e He. eexists. split; [done|].
  by apply from_ctx_Join, bare_from_ctx.
Qed.

Lemma polls_update raw b : polls from_ctx (parseBGPUpdateFrame raw b).
Proof.
  unfold parseBGPUpdateFrame. polls_tac; [apply polls_join, polls_attributes|apply polls_join, polls_eor].
Qed.

Lemma polls_route_path l w b : polls bare (reconstructRouteASPath l w b).
Proof.
  unfold reconstructRouteASPath. polls_tac; [| |apply polls_reconstruct].
  - generalize (WorkUnits b - len l) as work. induction l as [|x l IH]; intros work; cbn [charge_values]; polls_tac.
  - generalize (mkScan (mkAttributes (w =? 4) None None false false 0) [] []) as st.
    induction l as [|x l IH]; intros st; cbn [scan_loop]; [done|]. apply polls_bind; [|auto].
    unfold scan1. polls_tac.
Qed.

(** ** Witnesses *)

(** An UPDATE announcing 10.0.0.0/8 with ORIGIN and AS_PATH, and an End-of-RIB marker. *)
Definition demo_attrs : list RouteAttribute :=
  [mkAttr 0x40 1 (bytes [0]); mkAttr 0x40 2 (encodePath 4 demo_path); mkAttr 0xd0 32 (bytes [1; 2; 3])].
Definition demo_frame : UpdateFrame := mkFrame [] (bytes [8; 10]) demo_attrs noFamily false.
Definition demo_raw : list byte := framed [] (encodeAttrs demo_attrs) (bytes [8; 10]).
Definition demo_admission : Budget := mkBudget 65536 65536.

Lemma update_frame_demo :
  value (parseBGPUpdateFrame demo_raw demo_admission) = Ok demo_frame ∧
  value (parseBGPUpdateFrame (framed [] [] []) demo_admission) = Ok (mkFrame [] [] [] (mkFamily 1 1) true).
Proof. split; vm_compute; reflexivity. Qed.

Lemma route_path_exact_witness :
  value (reconstructRouteASPath demo_attrs 4 demo_admission) =
  Ok (mkRoutePath (mkReconstruction demo_path Absent false) []).
Proof.
  assert (H := route_path_exact demo_attrs 4 demo_admission (or_intror eq_refl) eq_refl).
  cbv zeta in H. destruct H as [H _]; [vm_compute; discriminate|].
  rewrite H; [vm_compute; reflexivity| |vm_compute; discriminate].
  split; [apply (bool_decide_unpack _); vm_compute; exact I|repeat constructor].
Defined.

End BgpUpdate.
