(* ===== verification/BgpOpen.v ===== *)
(** * Session metadata (internal/bgp/routing_source_profile.go, route_add_path.go,
      route_next_hop.go, bmp_route_view.go)

    The capabilities two OPEN messages declare, what they imply for the encoding of
    routes in each BMP view (ADD-PATH identifiers, next-hop family), and the per-peer
    header that names the view. *)

From S2P Require Import Prelude GoTime GoProg BgpBase FlowModel GoString.
#[local] Open Scope Z_scope.

Module BgpOpen.

(** ** Source profiles *)

Definition RoutingSourceFRRLocRIBV1 : gostring := str "frr_loc_rib_v1".

Record RoutingSourceProfile := mkProfile { Format : gostring; Families : list RouteFamily }.

Definition noProfile : RoutingSourceProfile := mkProfile [] [].

(** The check of the configured families, and the AFIs seen. *)
Fixpoint profile_families (families : list RouteFamily) (seen : list Z) : BM (list Z) :=
  match families with
  | [] => mret seen
  | f :: families =>
      fail_if (negb (SAFI f =? 1) || (AFI f <? 1) || (2 <? AFI f) || bool_decide (AFI f ∈ seen)) ErrRouteCapabilities;;
      profile_families families (AFI f :: seen)
  end.

Definition routingSourceProfile (profiles : list RoutingSourceProfile) : BM RoutingSourceProfile :=
  match profiles with
  | [] => mret noProfile
  | [profile] =>
      if bool_decide (Format profile = []) && bool_decide (Families profile = []) then mret noProfile
      else
        fail_if (negb (bool_decide (Format profile = RoutingSourceFRRLocRIBV1)) ||
                 bool_decide (Families profile = []) || (2 <? len (Families profile))) ErrRouteCapabilities;;
        seen ← profile_families (Families profile) [];
        mret (mkProfile (Format profile) ((λ afi, mkFamily afi 1) <$> filter (λ afi, afi ∈ seen) [1; 2]))
  | _ => Fail [ErrRouteCapabilities]
  end.

(** ** OPEN capabilities *)

Record routeOpenCapabilities := mkCaps {
  families : gset RouteFamily; mpFamilies : gset RouteFamily; nextHops : gset (RouteFamily * Z);
  addPath : gmap RouteFamily Z; extended_ : bool; fourAS : bool; asn : Z }.

#[export] Instance routeOpenCapabilities_eta : Eta routeOpenCapabilities := λ c,
  mkCaps (families c) (mpFamilies c) (nextHops c) (addPath c) (extended_ c) (fourAS c) (asn c).

(** RFC 8950 tuples: [value] is a multiple of six bytes long. *)
Fixpoint next_hop_tuples (fuel : nat) (v : list byte) (c : routeOpenCapabilities) : BM routeOpenCapabilities :=
  match v with
  | [] => mret c
  | _ :: _ =>
      match fuel with
      | O => OutOfFuel
      | S fuel =>
          safi ← beU16 v 2;
          c ← (if safi <=? 255 then
                 afi ← beU16 v 0;
                 nh ← beU16 v 4;
                 mret (c <| nextHops := {[(mkFamily afi safi, nh)]} ∪ nextHops c |>)
               else mret c);
          v ← subslice v 6 (len v);
          next_hop_tuples fuel v c
      end
  end.

(** RFC 7911 tuples. *)
Fixpoint add_path_tuples (fuel : nat) (v : list byte) (c : routeOpenCapabilities) : BM routeOpenCapabilities :=
  match v with
  | [] => mret c
  | _ :: _ =>
      match fuel with
      | O => OutOfFuel
      | S fuel =>
          afi ← beU16 v 0;
          safi ← index v 2;
          let family := mkFamily afi safi in
          mode ← index v 3;
          let known := default 0 (addPath c !! family) in
          fail_if ((mode <? 1) || (3 <? mode) || (negb (known =? 0) && negb (known =? mode))) ErrRouteCapabilities;;
          v ← subslice v 4 (len v);
          add_path_tuples fuel v (c <| addPath := <[family := mode]> (addPath c) |>)
      end
  end.

(** One capability; the flag says whether an ADD-PATH capability was seen. *)
Definition capability (kind : Z) (v : list byte) (format : gostring) (st : routeOpenCapabilities * bool)
    : BM (routeOpenCapabilities * bool) :=
  let '(c, seenAddPath) := st in
  let length := len v in
  if kind =? 1 then
    fail_if (negb (length =? 4)) ErrRouteCapabilities;;
    afi ← beU16 v 0;
    safi ← index v 3;
    let family := mkFamily afi safi in
    mret (c <| families := {[family]} ∪ families c |> <| mpFamilies := {[family]} ∪ mpFamilies c |>, seenAddPath)
  else if kind =? 5 then
    fail_if ((length =? 0) || negb (Z.rem length 6 =? 0)) ErrRouteCapabilities;;
    c ← next_hop_tuples (Z.to_nat length) v c;
    mret (c, seenAddPath)
  else if kind =? 6 then
    fail_if (negb (length =? 0)) ErrRouteCapabilities;;
    mret (c <| extended_ := true |>, seenAddPath)
  else if kind =? 65 then
    fail_if (negb (length =? 4)) ErrRouteCapabilities;;
    n ← beU32 v 0;
    fail_if (fourAS c && negb (asn c =? n)) ErrRouteCapabilities;;
    mret (c <| fourAS := true |> <| asn := n |>, seenAddPath)
  else if kind =? 69 then
    if bool_decide (format = RoutingSourceFRRLocRIBV1) then
      fail_if (seenAddPath || negb (length =? 0)) ErrRouteCapabilities;;
      mret (c, true)
    else
      fail_if (seenAddPath || (length =? 0) || negb (Z.rem length 4 =? 0)) ErrRouteCapabilities;;
      c ← add_path_tuples (Z.to_nat length) v c;
      mret (c, true)
  else mret (c, seenAddPath).

Fixpoint parseCapabilities (fuel : nat) (raw : list byte) (format : gostring) (st : routeOpenCapabilities * bool)
    : BM (routeOpenCapabilities * bool) :=
  match raw with
  | [] => mret st
  | _ :: _ =>
      match fuel with
      | O => OutOfFuel
      | S fuel =>
          fail_if (len raw <? 2) ErrRouteCapabilities;;
          length ← index raw 1;
          fail_if (len raw - 2 <? length) ErrRouteCapabilities;;
          kind ← index raw 0;
          v ← subslice raw 2 (2 + length);
          raw ← subslice raw (2 + length) (len raw);
          st ← capability kind v format st;
          parseCapabilities fuel raw format st
      end
  end.

(** The optional parameters from [offset] on: only capabilities (2) matter. *)
Fixpoint parameters_loop (fuel : nat) (rest : list byte) (parameterHeader : Z) (format : gostring)
    (st : routeOpenCapabilities * bool) : BM (routeOpenCapabilities * bool) :=
  match rest with
  | [] => mret st
  | _ :: _ =>
      match fuel with
      | O => OutOfFuel
      | S fuel =>
          fail_if (len rest <? parameterHeader) ErrRouteCapabilities;;
          kind ← index rest 0;
          length ← (if parameterHeader =? 3 then beU16 rest 1 else index rest 1);
          fail_if (len rest - parameterHeader <? length) ErrRouteCapabilities;;
          v ← subslice rest parameterHeader (parameterHeader + length);
          let rest := drop (Z.to_nat (parameterHeader + length)) rest in
          st ← (if negb (kind =? 2) then mret st else parseCapabilities (List.length v) v format st);
          parameters_loop fuel rest parameterHeader format st
      end
  end.

Definition applyFRRFamilies (profile : RoutingSourceProfile) (c : routeOpenCapabilities) : routeOpenCapabilities :=
  c <| families := list_to_set (Families profile) |>
    <| mpFamilies := list_to_set (filter (λ f, AFI f = 2) (Families profile)) |> <| nextHops := ∅ |>.

Definition emptyCaps : routeOpenCapabilities := mkCaps {[mkFamily 1 1]} ∅ ∅ ∅ false false 0.

Definition parseRouteOpenCapabilities (raw : list byte) (profiles : list RoutingSourceProfile) : BM routeOpenCapabilities :=
  profile ← routingSourceProfile profiles;
  fail_if ((len raw <? 29) || (4096 <? len raw)) ErrRouteCapabilities;;
  kind ← index raw 18;
  fail_if (negb (kind =? 1)) ErrRouteCapabilities;;
  version ← index raw 19;
  fail_if (negb (version =? 4)) ErrRouteCapabilities;;
  total ← beU16 raw 16;
  fail_if (negb (total =? len raw)) ErrRouteCapabilities;;
  marker ← subslice raw 0 16;
  fail_if (negb (forallb (λ b, byteZ b =? 255) marker)) ErrRouteCapabilities;;
  optionalLength ← index raw 28;
  sentinel ← (if negb (optionalLength =? 0) && (29 <? len raw) then t ← index raw 29; mret (t =? 255) else mret false);
  '(optionalLength, offset, parameterHeader) ←
    (if sentinel : bool then
       fail_if (len raw <? 32) ErrRouteCapabilities;;
       n ← beU16 raw 30;
       mret (n, 32, 3)
     else mret (optionalLength, 29, 2));
  fail_if (negb (optionalLength =? len raw - offset)) ErrRouteCapabilities;;
  rest ← subslice raw offset (len raw);
  '(out, _) ← parameters_loop (length rest) rest parameterHeader (Format profile) (emptyCaps, false);
  mret (if bool_decide (Format profile = RoutingSourceFRRLocRIBV1) then applyFRRFamilies profile out else out).

(** ** Route views *)

(** BMPRouteView; the zero value of the string type is [NoView]. *)
Inductive BMPRouteView :=
| NoView | BMPAdjRIBInPrePolicy | BMPAdjRIBInPostPolicy | BMPAdjRIBOutPrePolicy | BMPAdjRIBOutPostPolicy | BMPLocRIB.

#[export] Instance BMPRouteView_eq_dec : EqDecision BMPRouteView.
Proof. solve_decision. Defined.
#[export] Instance Addr_eq_dec : EqDecision Addr.
Proof. solve_decision. Defined.

Record BMPRouteViewHeader := mkHeader {
  PeerType : Z; h_Flags : Z; Distinguisher : list byte; PeerAddress : Addr; PeerASN : Z; BGPIdentifier : Addr;
  View : BMPRouteView; ASNWidth : Z; Filtered : bool; Timestamp : Time; TimestampKnown : bool }.

#[export] Instance BMPRouteViewHeader_eta : Eta BMPRouteViewHeader := λ h,
  mkHeader (PeerType h) (h_Flags h) (Distinguisher h) (PeerAddress h) (PeerASN h) (BGPIdentifier h)
    (View h) (ASNWidth h) (Filtered h) (Timestamp h) (TimestampKnown h).

Definition all_zero (l : list byte) : bool := forallb (λ b, byteZ b =? 0) l.

(** The view of an adjacent RIB, from the policy and direction bits. *)
Definition adjacent_view (flags : Z) : BMPRouteView :=
  let bits := Z.land flags 0x50 in
  if bits =? 0 then BMPAdjRIBInPrePolicy
  else if bits =? 0x40 then BMPAdjRIBInPostPolicy
  else if bits =? 0x10 then BMPAdjRIBOutPrePolicy
  else if bits =? 0x50 then BMPAdjRIBOutPostPolicy else NoView.

Definition ParseBMPRouteViewHeader (raw : list byte) : BM BMPRouteViewHeader :=
  fail_if (negb (len raw =? bmpPeerHeaderLen)) ErrBMPRouteViewHeader;;
  kind ← index raw 0;
  fail_if (3 <? kind) ErrBMPRouteViewHeader;;
  seconds ← beU32 raw 34;
  micros ← beU32 raw 38;
  fail_if (1000000 <=? micros) ErrBMPRouteViewHeader;;
  flags ← index raw 1;
  peerASN ← beU32 raw 26;
  identifier ← subslice raw 30 34;
  distinguisher ← subslice raw 2 10;
  let known := negb (seconds =? 0) || negb (micros =? 0) in
  let out := mkHeader kind flags distinguisher AddrNone peerASN (AddrFrom4 identifier) NoView 4 false
    (if known then Unix seconds (micros * 1000) else zero_time) known in
  if kind =? 3 then
    address ← subslice raw 10 26;
    fail_if (negb (all_zero address)) ErrBMPRouteViewHeader;;
    mret (out <| View := BMPLocRIB |> <| Filtered := negb (Z.land flags 0x80 =? 0) |>)
  else
    fail_if ((kind =? 0) && negb (all_zero distinguisher)) ErrBMPRouteViewHeader;;
    address ←
      (if negb (Z.land flags 0x80 =? 0) then a ← subslice raw 10 26; mret (AddrFrom16 a)
       else
         padding ← subslice raw 10 22;
         fail_if (negb (all_zero padding)) ErrBMPRouteViewHeader;;
         a ← subslice raw 22 26;
         mret (AddrFrom4 a));
    mret (out <| PeerAddress := address |>
              <| ASNWidth := if negb (Z.land flags 0x20 =? 0) then 2 else 4 |>
              <| View := adjacent_view flags |>).

(** ** Negotiated encodings *)

(** The checks both functions start with: the profile, then both OPENs. *)
Definition both_opens (sentOpen receivedOpen : list byte) (view : BMPRouteView) (profiles : list RoutingSourceProfile)
    : BM (routeOpenCapabilities * routeOpenCapabilities) :=
  profile ← catch (routingSourceProfile profiles) (λ _, Fail [ErrRouteCapabilities]);
  fail_if (negb (bool_decide (Format profile = [])) && negb (bool_decide (view = BMPLocRIB))) ErrRouteCapabilities;;
  sent ← parseRouteOpenCapabilities sentOpen [profile];
  received ← parseRouteOpenCapabilities receivedOpen [profile];
  mret (sent, received).

Definition parseBMPRouteAddPath (sentOpen receivedOpen : list byte) (view : BMPRouteView) (family : RouteFamily)
    (profiles : list RoutingSourceProfile) : BM bool :=
  '(sent, received) ← both_opens sentOpen receivedOpen view profiles;
  fail_if (negb (bool_decide (family ∈ families sent)) || negb (bool_decide (family ∈ families received)))
    ErrRouteCapabilities;;
  let local_ := default 0 (addPath sent !! family) in
  let remote := default 0 (addPath received !! family) in
  match view with
  | BMPAdjRIBInPrePolicy | BMPAdjRIBInPostPolicy =>
      mret (negb (Z.land remote 2 =? 0) && negb (Z.land local_ 1 =? 0))
  | BMPAdjRIBOutPrePolicy | BMPAdjRIBOutPostPolicy =>
      mret (negb (Z.land local_ 2 =? 0) && negb (Z.land remote 1 =? 0))
  | BMPLocRIB =>
      fail_if (negb (fourAS sent) || negb (bool_decide (sentOpen = receivedOpen))) ErrRouteCapabilities;;
      mret (negb (local_ =? 0))
  | NoView => Fail [ErrRouteCapabilities]
  end.

(** The capabilities of the side that receives the routes of a view. *)
Definition receiver_of (sentOpen receivedOpen : list byte) (view : BMPRouteView)
    (sent received : routeOpenCapabilities) : BM routeOpenCapabilities :=
  match view with
  | BMPAdjRIBInPrePolicy | BMPAdjRIBInPostPolicy => mret sent
  | BMPAdjRIBOutPrePolicy | BMPAdjRIBOutPostPolicy => mret received
  | BMPLocRIB =>
      fail_if (negb (fourAS sent) || negb (bool_decide (sentOpen = receivedOpen))) ErrRouteCapabilities;;
      mret sent
  | NoView => Fail [ErrRouteCapabilities]
  end.

Definition parseBMPRouteNextHopAFI (sentOpen receivedOpen : list byte) (view : BMPRouteView) (family : RouteFamily)
    (nextHopLength : Z) (profiles : list RoutingSourceProfile) : BM Z :=
  '(sent, received) ← both_opens sentOpen receivedOpen view profiles;
  fail_if (negb (SAFI family =? 1) || (negb (AFI family =? 1) && negb (AFI family =? 2)) ||
           negb (bool_decide (family ∈ mpFamilies sent)) || negb (bool_decide (family ∈ mpFamilies received)))
    ErrRouteCapabilities;;
  receiver ← receiver_of sentOpen receivedOpen view sent received;
  if nextHopLength =? 4 then
    if AFI family =? 1 then mret 1 else Fail [ErrRouteCapabilities]
  else if (nextHopLength =? 16) || (nextHopLength =? 32) then
    if AFI family =? 2 then mret 2
    else
      fail_if (negb (bool_decide ((family, 2) ∈ nextHops receiver))) ErrRouteCapabilities;;
      mret 2
  else Fail [ErrRouteCapabilities].

(** ** OPEN messages as specification *)

Inductive Capability :=
| CapMP (reserved : byte) (family : RouteFamily)
| CapNextHop (tuples : list (Z * Z * Z))
| CapExtended
| CapFourAS (n : Z)
| CapAddPath (tuples : list (RouteFamily * Z))
| CapOther (kind : Z) (v : list byte).

Definition family_ok (f : RouteFamily) : Prop := 0 ≤ AFI f < 2 ^ 16 ∧ 0 ≤ SAFI f < 2 ^ 8.

Definition cap_kind (c : Capability) : Z :=
  match c with
  | CapMP _ _ => 1 | CapNextHop _ => 5 | CapExtended => 6 | CapFourAS _ => 65 | CapAddPath _ => 69
  | CapOther kind _ => kind
  end.

Definition encode_next_hop (t : Z * Z * Z) : list byte := be_bytes 2 t.1.1 ++ be_bytes 2 t.1.2 ++ be_bytes 2 t.2.
Definition encode_add_path (t : RouteFamily * Z) : list byte := be_bytes 2 (AFI t.1) ++ [Zbyte (SAFI t.1); Zbyte t.2].

Definition cap_value (c : Capability) : list byte :=
  match c with
  | CapMP reserved f => be_bytes 2 (AFI f) ++ [reserved; Zbyte (SAFI f)]
  | CapNextHop l => concat (encode_next_hop <$> l)
  | CapExtended => []
  | CapFourAS n => be_bytes 4 n
  | CapAddPath l => concat (encode_add_path <$> l)
  | CapOther _ v => v
  end.

Definition cap_ok (c : Capability) : Prop :=
  len (cap_value c) < 256 ∧
  match c with
  | CapMP _ f => family_ok f
  | CapNextHop l => l ≠ [] ∧ Forall (λ t, 0 ≤ t.1.1 < 2 ^ 16 ∧ 0 ≤ t.1.2 < 2 ^ 16 ∧ 0 ≤ t.2 < 2 ^ 16) l
  | CapExtended => True
  | CapFourAS n => 0 ≤ n < 2 ^ 32
  | CapAddPath l => l ≠ [] ∧ Forall (λ t, family_ok t.1 ∧ 0 ≤ t.2 < 256) l
  | CapOther kind _ => 0 ≤ kind < 256 ∧ kind ∉ [1; 5; 6; 65; 69]
  end.

Definition encode_cap (c : Capability) : list byte := Zbyte (cap_kind c) :: Zbyte (len (cap_value c)) :: cap_value c.

(** A parameter of capabilities, or one of another kind. *)
Inductive OpenParameter := Capabilities (l : list Capability) | OtherParameter (kind : Z) (v : list byte).

Definition param_kind (p : OpenParameter) : Z := match p with Capabilities _ => 2 | OtherParameter kind _ => kind end.
Definition param_value (p : OpenParameter) : list byte :=
  match p with Capabilities l => concat (encode_cap <$> l) | OtherParameter _ v => v end.

(** With a two-byte parameter header, or the three-byte one of RFC 9072. *)
Definition header_bytes (h : nat) : Z := Z.of_nat h.
Definition encode_param (h : nat) (p : OpenParameter) : list byte :=
  Zbyte (param_kind p) :: be_bytes (h - 1) (len (param_value p)) ++ param_value p.

Definition param_ok (h : nat) (p : OpenParameter) : Prop :=
  len (param_value p) < 256 ^ Z.of_nat (h - 1) ∧ 0 ≤ param_kind p < 256 ∧
  match p with Capabilities l => Forall cap_ok l | OtherParameter kind _ => kind ≠ 2 end.

(** An OPEN: the nine bytes of version, AS, hold time and identifier, then parameters. *)
Record Open := mkOpen { o_fixed : list byte; o_extended : bool; o_params : list OpenParameter }.

Definition o_header (o : Open) : nat := if o_extended o then 3 else 2.
Definition open_params (o : Open) : list byte := concat (encode_param (o_header o) <$> o_params o).
Definition open_body (o : Open) : list byte :=
  let p := open_params o in
  x04 :: o_fixed o ++ (if o_extended o then [xff; xff] ++ be_bytes 2 (len p) else [Zbyte (len p)]) ++ p.
Definition encode_open (o : Open) : list byte :=
  replicate 16 xff ++ be_bytes 2 (19 + len (open_body o)) ++ x01 :: open_body o.

Definition open_ok (o : Open) : Prop :=
  length (o_fixed o) = 8%nat ∧ len (encode_open o) ≤ 4096 ∧ Forall (param_ok (o_header o)) (o_params o) ∧
  if o_extended o then True
  else len (open_params o) < 256 ∧ match o_params o with p :: _ => param_kind p ≠ 255 | [] => True end.

(** What the declared capabilities mean; [None] refuses the OPEN. *)
Definition add_mode (c : option routeOpenCapabilities) (t : RouteFamily * Z) : option routeOpenCapabilities :=
  match c with
  | None => None
  | Some c =>
      let known := default 0 (addPath c !! t.1) in
      if (1 <=? t.2) && (t.2 <=? 3) && ((known =? 0) || (known =? t.2))
      then Some (c <| addPath := <[t.1 := t.2]> (addPath c) |>) else None
  end.

Definition add_next_hop (c : routeOpenCapabilities) (t : Z * Z * Z) : routeOpenCapabilities :=
  if t.1.2 <=? 255 then c <| nextHops := {[(mkFamily t.1.1 t.1.2, t.2)]} ∪ nextHops c |> else c.

Definition apply_cap (st : option (routeOpenCapabilities * bool)) (c : Capability) : option (routeOpenCapabilities * bool) :=
  match st with
  | None => None
  | Some (caps, seen) =>
      match c with
      | CapMP _ f => Some (caps <| families := {[f]} ∪ families caps |> <| mpFamilies := {[f]} ∪ mpFamilies caps |>, seen)
      | CapNextHop l => Some (foldl add_next_hop caps l, seen)
      | CapExtended => Some (caps <| extended_ := true |>, seen)
      | CapFourAS n =>
          if fourAS caps && negb (asn caps =? n) then None
          else Some (caps <| fourAS := true |> <| asn := n |>, seen)
      | CapAddPath l => if (seen : bool) then None else (λ c, (c, true)) <$> foldl add_mode (Some caps) l
      | CapOther _ _ => Some (caps, seen)
      end
  end.

Definition apply_param (st : option (routeOpenCapabilities * bool)) (p : OpenParameter) : option (routeOpenCapabilities * bool) :=
  match p with Capabilities l => foldl apply_cap st l | OtherParameter _ _ => st end.

Definition declared (o : Open) : option routeOpenCapabilities :=
  fst <$> foldl apply_param (Some (emptyCaps, false)) (o_params o).

Definition caps_outcome {A} (o : option A) : outcome (list bgp_err) A :=
  match o with Some a => Ok a | None => Err [ErrRouteCapabilities] end.

Lemma foldl_None {A B} (f : option A → B → option A) l : (∀ x, f None x = None) → foldl f None l = None.
Proof. intros H. induction l as [|x l IH]; [done|]. cbn. by rewrite H. Qed.

Lemma slice_suffix (pre l : list byte) i : i = len pre → slice (pre ++ l) i (len (pre ++ l)) = l.
Proof. intros ->. apply slice_app_r. Qed.

Lemma next_hop_tuples_ok fuel l c :
  Forall (λ t, 0 ≤ t.1.1 < 2 ^ 16 ∧ 0 ≤ t.1.2 < 2 ^ 16 ∧ 0 ≤ t.2 < 2 ^ 16) l →
  (length (concat (encode_next_hop <$> l)) ≤ fuel)%nat →
  value (next_hop_tuples fuel (concat (encode_next_hop <$> l)) c) = Ok (foldl add_next_hop c l).
Proof.
  intros Hl. revert fuel c. induction Hl as [|[[afi safi] nh] l (H1 & H2 & H3) Hl IH]; intros fuel c Hf;
    [by destruct fuel|].
  cbn [fmap list_fmap concat foldl] in *. set (r := concat _) in *. rewrite length_app in Hf.
  change (length (encode_next_hop (afi, safi, nh))) with 6%nat in Hf. destruct fuel as [|fuel]; [lia|].
  cbn [fst snd] in *. set (v := encode_next_hop (afi, safi, nh) ++ r).
  assert (Hv : v = be_bytes 2 afi ++ be_bytes 2 safi ++ be_bytes 2 nh ++ r)
    by (unfold v, encode_next_hop; cbn [fst snd]; by rewrite <- !app_assoc).
  pose proof (len_nonneg r). assert (Hlv : len v = 6 + len r) by (rewrite Hv, !len_app, !len_be_bytes; lia).
  assert (Hbe : ∀ z, 0 ≤ z < 2 ^ 16 → be_uint (be_bytes 2 z) = z) by (intros; by apply be_uint_be_bytes_small).
  assert (F0 : be_uint (slice v 0 (0 + 2)) = afi).
  { rewrite (slice_split v [] (be_bytes 2 afi) (be_bytes 2 safi ++ be_bytes 2 nh ++ r)) by done. auto. }
  assert (F2 : be_uint (slice v 2 (2 + 2)) = safi).
  { rewrite (slice_split v (be_bytes 2 afi) (be_bytes 2 safi) (be_bytes 2 nh ++ r)) by done. auto. }
  assert (F4 : be_uint (slice v 4 (4 + 2)) = nh).
  { rewrite (slice_split v (be_bytes 2 afi ++ be_bytes 2 safi) (be_bytes 2 nh) r) by (by rewrite ?Hv, <- ?app_assoc). auto. }
  assert (F6 : slice v 6 (len v) = r) by (by apply slice_suffix).
  assert (v ≠ []) as Hne by (intros E; rewrite E in Hlv; change (len (@nil byte)) with 0 in Hlv; lia).
  clearbody v. destruct v as [|x v0] eqn:Ev; [done|]. cbn [next_hop_tuples]. rewrite <- Ev in *.
  prog_reads lia. rewrite F2. unfold add_next_hop at 2. cbn [fst snd].
  destruct (safi <=? 255); prog_reads lia; rewrite ?F0, ?F4, F6; apply IH; lia.
Qed.

Lemma add_path_tuples_ok fuel l c :
  Forall (λ t, family_ok t.1 ∧ 0 ≤ t.2 < 256) l →
  (length (concat (encode_add_path <$> l)) ≤ fuel)%nat →
  value (add_path_tuples fuel (concat (encode_add_path <$> l)) c) = caps_outcome (foldl add_mode (Some c) l).
Proof.
  intros Hl. revert fuel c. induction Hl as [|[[afi safi] mode] l [[H1 H2] H3] Hl IH]; intros fuel c Hf;
    [by destruct fuel|].
  cbn [fmap list_fmap concat foldl] in *. set (r := concat _) in *. rewrite length_app in Hf.
  change (length (encode_add_path _)) with 4%nat in Hf. destruct fuel as [|fuel]; [lia|].
  cbn [fst snd AFI SAFI] in *. set (v := encode_add_path (mkFamily afi safi, mode) ++ r).
  assert (Hv : v = be_bytes 2 afi ++ [Zbyte safi; Zbyte mode] ++ r)
    by (unfold v, encode_add_path; cbn [fst snd AFI SAFI]; by rewrite <- !app_assoc).
  pose proof (len_nonneg r). assert (Hlv : len v = 4 + len r) by (rewrite Hv, !len_app, len_be_bytes; change (len [_; _]) with 2; lia).
  assert (F0 : be_uint (slice v 0 (0 + 2)) = afi).
  { rewrite (slice_split v [] (be_bytes 2 afi) ([Zbyte safi; Zbyte mode] ++ r)) by done. by apply be_uint_be_bytes_small. }
  assert (F2 : at_ v 2 = safi) by (change (at_ v 2) with (byteZ (Zbyte safi)); apply byteZ_Zbyte_small; lia).
  assert (F3 : at_ v 3 = mode) by (change (at_ v 3) with (byteZ (Zbyte mode)); apply byteZ_Zbyte_small; lia).
  assert (F4 : slice v 4 (len v) = r) by (by apply slice_suffix).
  assert (v ≠ []) as Hne by (intros E; rewrite E in Hlv; change (len (@nil byte)) with 0 in Hlv; lia).
  clearbody v. destruct v as [|x v0] eqn:Ev; [done|]. cbn [add_path_tuples]. rewrite <- Ev in *.
  prog_reads lia. rewrite F0, F2, F3, F4. unfold add_mode at 2. cbn [fst snd].
  set (known := default 0 _).
  assert (Hguard : (mode <? 1) || (3 <? mode) || negb (known =? 0) && negb (known =? mode) =
    negb ((1 <=? mode) && (mode <=? 3) && ((known =? 0) || (known =? mode)))).
  { rewrite !negb_andb, negb_orb, <- Z.ltb_antisym, <- Z.ltb_antisym. done. }
  rewrite Hguard. destruct (_ && _ && _); cbn [negb]; [apply IH; lia|].
  rewrite foldl_None by done. done.
Qed.

Lemma len_tuples {A} (enc : A → list byte) n (l : list A) :
  (∀ x, len (enc x) = n) → len (concat (enc <$> l)) = len l * n.
Proof.
  intros H. induction l as [|x l IH]; [done|]. cbn [fmap list_fmap concat]. rewrite len_app, H, IH, len_cons. lia.
Qed.

(** A capability of the specification is applied as it says. *)
Lemma capability_ok c caps seen :
  cap_ok c → value (capability (cap_kind c) (cap_value c) [] (caps, seen)) = caps_outcome (apply_cap (Some (caps, seen)) c).
Proof.
  intros [_ Hc]. unfold capability. destruct c as [res f|l| |n|l|kind v]; cbn [cap_kind cap_value Z.eqb Pos.eqb apply_cap].
  - destruct f as [afi safi], Hc as [H1 H2]. cbn [AFI SAFI] in *. set (v := be_bytes 2 afi ++ _).
    assert (Hlv : len v = 4) by done. rewrite Hlv. cbn [Z.eqb Pos.eqb negb]. prog_reads lia.
    assert (F0 : be_uint (slice v 0 (0 + 2)) = afi).
    { rewrite (slice_split v [] (be_bytes 2 afi) [res; Zbyte safi]) by done. by apply be_uint_be_bytes_small. }
    assert (F3 : at_ v 3 = safi) by (change (at_ v 3) with (byteZ (Zbyte safi)); apply byteZ_Zbyte_small; lia).
    by rewrite F0, F3.
  - destruct Hc as [Hne Hl]. rewrite (len_tuples _ 6) by done. prog_simpl.
    rewrite Z.rem_mul by lia. destruct l as [|t l]; [done|]. rewrite len_cons at 1. pose proof (len_nonneg l).
    destruct ((1 + len l) * 6 =? 0) eqn:E; zbool; [lia|]. cbn [orb negb Z.eqb].
    rewrite next_hop_tuples_ok; [done|done|]. rewrite <- (len_tuples encode_next_hop 6) by done. unfold len. lia.
  - done.
  - prog_simpl. change (len (be_bytes 4 n)) with 4. cbn [Z.eqb Pos.eqb negb].
    rewrite value_beU32 by (rewrite ?len_be_bytes; lia). prog_simpl.
    rewrite (slice_split (be_bytes 4 n) [] (be_bytes 4 n) []) by (done || by rewrite app_nil_r).
    rewrite be_uint_be_bytes_small by done. by destruct (fourAS caps && negb (asn caps =? n)).
  - destruct Hc as [Hne Hl]. rewrite (len_tuples _ 4) by done. prog_simpl. change (bool_decide ([] = _)) with false. cbv iota.
    prog_simpl. rewrite Z.rem_mul by lia. destruct l as [|t l]; [done|]. rewrite len_cons at 1. pose proof (len_nonneg l).
    destruct seen; [done|]. destruct ((1 + len l) * 4 =? 0) eqn:E; zbool; [lia|]. cbn [orb negb Z.eqb].
    rewrite add_path_tuples_ok; [|done|rewrite <- (len_tuples encode_add_path 4) by done; unfold len; lia].
    by destruct (foldl add_mode (Some caps) (t :: l)).
  - destruct Hc as [_ Hk].
    assert (kind ≠ 1 ∧ kind ≠ 5 ∧ kind ≠ 6 ∧ kind ≠ 65 ∧ kind ≠ 69) as (K1 & K2 & K3 & K4 & K5) by set_solver.
    apply Z.eqb_neq in K1, K2, K3, K4, K5. by rewrite K1, K2, K3, K4, K5.
Qed.

Lemma parse_capabilities_ok fuel l st :
  Forall cap_ok l → (length (concat (encode_cap <$> l)) ≤ fuel)%nat →
  value (parseCapabilities fuel (concat (encode_cap <$> l)) [] st) = caps_outcome (foldl apply_cap (Some st) l).
Proof.
  intros Hl. revert fuel st. induction Hl as [|c l Hc Hl IH]; intros fuel st Hf; [by destruct fuel|].
  cbn [fmap list_fmap concat] in *. set (r := concat _) in *. rewrite length_app in Hf.
  assert (0 < length (encode_cap c))%nat by (unfold encode_cap; cbn; lia). destruct fuel as [|fuel]; [lia|].
  assert (Hk : 0 ≤ cap_kind c < 256) by (destruct Hc as [_ Hc]; destruct c; cbn; [lia..|tauto]).
  assert (Hlen : 0 ≤ len (cap_value c) < 256) by (destruct Hc; pose proof (len_nonneg (cap_value c)); lia).
  set (raw := encode_cap c ++ r). pose proof (len_nonneg r).
  assert (Hraw : raw = [Zbyte (cap_kind c); Zbyte (len (cap_value c))] ++ cap_value c ++ r) by done.
  assert (Hlr : len raw = 2 + len (cap_value c) + len r) by (rewrite Hraw, !len_app; change (len [_; _]) with 2; lia).
  assert (F0 : at_ raw 0 = cap_kind c) by (change (at_ raw 0) with (byteZ (Zbyte (cap_kind c))); by apply byteZ_Zbyte_small).
  assert (F1 : at_ raw 1 = len (cap_value c))
    by (change (at_ raw 1) with (byteZ (Zbyte (len (cap_value c)))); by apply byteZ_Zbyte_small).
  assert (F2 : slice raw 2 (2 + len (cap_value c)) = cap_value c) by (by eapply slice_split; [exact Hraw|..]).
  assert (F3 : slice raw (2 + len (cap_value c)) (len raw) = r).
  { apply slice_suffix. unfold encode_cap. rewrite !len_cons. lia. }
  assert (raw ≠ []) as Hne by done. clearbody raw. destruct raw as [|x raw0] eqn:Er; [done|].
  cbn [parseCapabilities]. rewrite <- Er in *. prog_simpl. ltb_false. prog_reads lia. rewrite F0, F1. ltb_false.
  prog_reads lia. rewrite F2, F3. destruct st as [caps seen]. rewrite capability_ok by done. cbn [foldl].
  destruct (apply_cap (Some (caps, seen)) c) as [st|]; cbn [caps_outcome obind]; [apply IH; lia|].
  by rewrite foldl_None.
Qed.

Lemma len_encode_param h p : (1 ≤ h)%nat → len (encode_param h p) = Z.of_nat h + len (param_value p).
Proof. intros H. unfold encode_param. rewrite len_cons, len_app, len_be_bytes. lia. Qed.

(** The fields of the parameter at the front. *)
Lemma param_fields h p r :
  h = 2%nat ∨ h = 3%nat → param_ok h p →
  let raw := encode_param h p ++ r in
  at_ raw 0 = param_kind p ∧
  value (if Z.of_nat h =? 3 then beU16 raw 1 else index raw 1 : BM Z) = Ok (len (param_value p)) ∧
  slice raw (Z.of_nat h) (Z.of_nat h + len (param_value p)) = param_value p ∧
  drop (Z.to_nat (Z.of_nat h + len (param_value p))) raw = r.
Proof.
  intros Hh (Hl & Hk & _) raw. pose proof (len_nonneg (param_value p)). pose proof (len_nonneg r).
  pose proof (len_encode_param h p) as Hlen.
  assert (Hraw : raw = [Zbyte (param_kind p)] ++ be_bytes (h - 1) (len (param_value p)) ++ param_value p ++ r)
    by (unfold raw, encode_param; cbn; by rewrite <- app_assoc).
  assert (Hlr : len raw = Z.of_nat h + len (param_value p) + len r) by (unfold raw; rewrite len_app, Hlen; lia).
  split_and!.
  - change (at_ raw 0) with (byteZ (Zbyte (param_kind p))). by apply byteZ_Zbyte_small.
  - destruct Hh as [-> | ->].
    + change (Z.of_nat 2 =? 3) with false. cbv iota. rewrite value_index by lia. f_equal.
      change (at_ raw 1) with (byteZ (Zbyte (len (param_value p)))). apply byteZ_Zbyte_small. cbn in Hl. lia.
    + change (Z.of_nat 3 =? 3) with true. cbv iota. rewrite value_beU16 by lia. f_equal.
      rewrite (slice_split raw [Zbyte (param_kind p)] (be_bytes 2 (len (param_value p))) (param_value p ++ r)) by done.
      apply be_uint_be_bytes_small. done.
  - apply (slice_split raw ([Zbyte (param_kind p)] ++ be_bytes (h - 1) (len (param_value p))) (param_value p) r);
      [by rewrite Hraw, <- app_assoc| |done]. rewrite len_app, len_be_bytes. change (len [_]) with 1. lia.
  - unfold raw. replace (Z.to_nat _) with (length (encode_param h p)); [apply drop_app_length|].
    rewrite <- Hlen by lia. unfold len. lia.
Qed.

Lemma parameters_ok fuel h l st :
  h = 2%nat ∨ h = 3%nat → Forall (param_ok h) l → (length (concat (encode_param h <$> l)) ≤ fuel)%nat →
  value (parameters_loop fuel (concat (encode_param h <$> l)) (Z.of_nat h) [] st) =
  caps_outcome (foldl apply_param (Some st) l).
Proof.
  intros Hh Hl. revert fuel st. induction Hl as [|p l Hp Hl IH]; intros fuel st Hf; [by destruct fuel|].
  cbn [fmap list_fmap concat] in *. set (r := concat _) in *. rewrite length_app in Hf.
  assert (0 < length (encode_param h p))%nat by (unfold encode_param; cbn; lia). destruct fuel as [|fuel]; [lia|].
  destruct (param_fields h p r Hh Hp) as (F0 & F1 & F2 & F3).
  pose proof (len_encode_param h p) as Hlen. pose proof (len_app (encode_param h p) r) as Hlr.
  pose proof (len_nonneg r). pose proof (len_nonneg (param_value p)).
  set (raw := encode_param h p ++ r) in *. assert (raw ≠ []) as Hne by done. clearbody raw.
  destruct raw as [|x raw0] eqn:Er; [done|]. cbn [parameters_loop]. rewrite <- Er in *.
  assert (2 ≤ Z.of_nat h ≤ 3) by lia. prog_simpl. ltb_false.
  rewrite (value_index raw 0) by lia. prog_simpl. autorewrite with prog in F1. rewrite F1. prog_simpl. ltb_false. prog_reads lia. rewrite F0, F2, F3. cbn [foldl].
  destruct p as [caps|kind v]; cbn [param_kind param_value apply_param] in *.
  - cbn [Z.eqb Pos.eqb negb]. destruct Hp as (_ & _ & Hcaps). rewrite parse_capabilities_ok by done.
    destruct (foldl apply_cap (Some st) caps) as [st'|]; cbn [caps_outcome obind]; [apply IH; lia|].
    rewrite foldl_None; [done|]. intros [c'|k' v']; cbn; [by rewrite foldl_None|done].
  - destruct Hp as (_ & _ & Hk). cbn in Hk. apply Z.eqb_neq in Hk. rewrite Hk. cbn [negb obind]. apply IH; lia.
Qed.

(** The fixed part of an OPEN. *)
Lemma open_fields o :
  open_ok o →
  let raw := encode_open o in
  let h := Z.of_nat (o_header o) in
  let offset := if o_extended o then 32 else 29 in
  29 ≤ len raw ≤ 4096 ∧ at_ raw 18 = 1 ∧ at_ raw 19 = 4 ∧ be_uint (slice raw 16 (16 + 2)) = len raw ∧
  slice raw 0 16 = replicate 16 xff ∧ slice raw offset (len raw) = open_params o ∧
  len raw = offset + len (open_params o) ∧
  (if o_extended o then at_ raw 28 = 255 ∧ at_ raw 29 = 255 ∧ be_uint (slice raw 30 (30 + 2)) = len (open_params o)
   else at_ raw 28 = len (open_params o) ∧ (open_params o = [] ∨ at_ raw 29 ≠ 255)).
Proof.
  intros (Hfix & Hmax & Hps & Hext) raw h offset. set (P := open_params o) in *.
  pose proof (len_nonneg P). assert (Hf8 : len (o_fixed o) = 8) by (unfold len; lia).
  set (N := be_bytes 2 (19 + len (open_body o))).
  set (L := if o_extended o then [xff; xff] ++ be_bytes 2 (len P) else [Zbyte (len P)]).
  assert (Hraw : raw = replicate 16 xff ++ N ++ [x01; x04] ++ o_fixed o ++ L ++ P) by done.
  assert (HL : len L = offset - 28) by (unfold L, offset; by destruct (o_extended o)).
  assert (Hlr : len raw = offset + len P).
  { rewrite Hraw, !len_app, Hf8, HL. change (len (replicate 16 xff)) with 16. change (len N) with 2. change (len [_; _]) with 2. lia. }
  assert (Hbody : 19 + len (open_body o) = len raw).
  { unfold raw, encode_open. rewrite !len_app, len_cons. change (len (replicate 16 xff)) with 16.
    change (len (be_bytes 2 _)) with 2. lia. }
  assert (28 < offset ≤ 32) by (unfold offset; destruct (o_extended o); lia).
  assert (Hat : ∀ i, 28 ≤ i → at_ raw i = at_ (L ++ P) (i - 28)).
  { intros i Hi. replace raw with ((replicate 16 xff ++ N ++ [x01; x04] ++ o_fixed o) ++ L ++ P)
      by (by rewrite Hraw, <- !app_assoc).
    assert (E28 : len (replicate 16 xff ++ N ++ [x01; x04] ++ o_fixed o) = 28) by (rewrite !len_app, Hf8; done).
    rewrite at_app_r by lia. f_equal. lia. }
  fold raw in Hmax. split_and!; try done; try lia.
  - rewrite (slice_split raw (replicate 16 xff) N ([x01; x04] ++ o_fixed o ++ L ++ P)) by done.
    unfold N. rewrite Hbody. apply be_uint_be_bytes_small. change (256 ^ Z.of_nat 2) with 65536. lia.
  - apply (slice_split raw (replicate 16 xff ++ N ++ [x01; x04] ++ o_fixed o ++ L) P []);
      [by rewrite Hraw, app_nil_r, <- !app_assoc| |lia].
    rewrite !len_app, Hf8, HL. change (len (replicate 16 xff)) with 16. change (len N) with 2. change (len [_; _]) with 2. lia.
  - rewrite !Hat by lia. unfold L, offset in *. destruct (o_extended o).
    + split_and!; try done.
      rewrite (slice_split raw (replicate 16 xff ++ N ++ [x01; x04] ++ o_fixed o ++ [xff; xff]) (be_bytes 2 (len P)) P);
        [|by rewrite Hraw, <- !app_assoc| |done].
      * apply be_uint_be_bytes_small. change (256 ^ Z.of_nat 2) with 65536. lia.
      * rewrite !len_app, Hf8. done.
    + destruct Hext as [HP Hne]. split.
      * change (at_ ([Zbyte (len P)] ++ P) (28 - 28)) with (byteZ (Zbyte (len P))). apply byteZ_Zbyte_small. lia.
      * unfold P, open_params in *. destruct (o_params o) as [|p ps]; [by left|right].
        apply Forall_cons in Hps as [(_ & Hk & _) _].
        change (at_ _ (29 - 28)) with (byteZ (Zbyte (param_kind p))). by rewrite byteZ_Zbyte_small.
Qed.

Lemma open_parse o profiles :
  open_ok o → profiles = [] ∨ profiles = [noProfile] →
  value (parseRouteOpenCapabilities (encode_open o) profiles) = caps_outcome (declared o).
Proof.
  intros Ho Hp. destruct (open_fields o Ho) as (Hlen & F18 & F19 & F16 & F0 & FP & Hoff & Fext).
  set (raw := encode_open o) in *. clearbody raw. unfold parseRouteOpenCapabilities.
  assert (Hprof : value (routingSourceProfile profiles) = Ok noProfile) by (by destruct Hp as [-> | ->]).
  prog_simpl. rewrite Hprof. prog_simpl.
  replace ((len raw <? 29) || (4096 <? len raw)) with false
    by (symmetry; apply orb_false_iff; split; apply Z.ltb_ge; lia).
  prog_reads lia. rewrite F18, F19, F16, F0, !Z.eqb_refl.
  change (forallb (λ b, byteZ b =? 255) (replicate 16 xff)) with true. cbn [Z.eqb Pos.eqb negb].
  pose proof (len_nonneg (open_params o)). destruct Ho as (_ & _ & Hps & _).
  assert (Hloop : value (parameters_loop (length (open_params o)) (open_params o) (Z.of_nat (o_header o)) []
      (emptyCaps, false)) = caps_outcome (foldl apply_param (Some (emptyCaps, false)) (o_params o))).
  { apply parameters_ok; [unfold o_header; destruct (o_extended o); auto|done|done]. }
  unfold o_header in *. destruct (o_extended o).
  - destruct Fext as (F28 & F29 & F30). rewrite F28. cbn [Z.eqb Pos.eqb negb andb].
    replace (29 <? len raw) with true by (symmetry; apply Z.ltb_lt; lia). prog_reads lia. rewrite F29.
    cbn [Z.eqb Pos.eqb]. prog_simpl.
    ltb_false. prog_reads lia. rewrite F30, FP. replace (len (open_params o) =? len raw - 32) with true
      by (symmetry; apply Z.eqb_eq; lia). cbn [negb Format noProfile]. change (Z.of_nat 3) with 3 in Hloop.
    rewrite Hloop, (bool_decide_eq_false_2 ([] = RoutingSourceFRRLocRIBV1)) by done.
    unfold declared. by destruct (foldl apply_param _ _) as [[c b]|].
  - destruct Fext as (F28 & F29). rewrite F28.
    assert (Hs : value (if negb (len (open_params o) =? 0) && (29 <? len raw) then t ← index raw 29; mret (t =? 255)
                        else mret false : BM bool) = Ok false).
    { destruct (negb (len (open_params o) =? 0) && (29 <? len raw)) eqn:E; [|done]. apply andb_true_iff in E as [E1 E2].
      zbool. destruct F29 as [E0|F29]; [by rewrite E0 in E1|]. prog_reads lia. apply Z.eqb_neq in F29. by rewrite F29. }
    autorewrite with prog in Hs. rewrite Hs. prog_reads lia. rewrite FP. replace (len (open_params o) =? len raw - 29) with true
      by (symmetry; apply Z.eqb_eq; lia). cbn [negb Format noProfile]. change (Z.of_nat 2) with 2 in Hloop.
    rewrite Hloop, (bool_decide_eq_false_2 ([] = RoutingSourceFRRLocRIBV1)) by done.
    unfold declared. by destruct (foldl apply_param _ _) as [[c b]|].
Qed.

(** OPEN messages are read as declared: for every well-formed OPEN, with standard or
    RFC 9072 parameter headers, any mixture of parameters and any capabilities, the
    decoder yields exactly the families, next-hop encodings, ADD-PATH modes,
    extended-message and four-octet-AS capabilities that fold up from the message in
    order, and refuses exactly the contradictory ones (conflicting or repeated ADD-PATH,
    two different AS numbers). *)
Theorem open_capabilities_exact (o : Open) :
  open_ok o → value (parseRouteOpenCapabilities (encode_open o) []) = caps_outcome (declared o).
Proof. intros H. apply open_parse; auto. Qed.

Definition demo_open (mode : Z) : Open :=
  mkOpen (be_bytes 2 65001 ++ be_bytes 2 180 ++ be_bytes 4 167772161) true
    [OtherParameter 1 [x00];
     Capabilities [CapMP x00 (mkFamily 2 1); CapFourAS 4200000001; CapExtended];
     Capabilities [CapAddPath [(mkFamily 1 1, mode); (mkFamily 2 1, 2)]; CapNextHop [(1, 1, 2); (1, 300, 2)];
                   CapOther 73 [x01; x02]]].

Lemma demo_open_ok mode : 0 ≤ mode < 256 → open_ok (demo_open mode).
Proof.
  intros Hm. split_and!; [done|vm_compute; done| |done].
  assert (Hc1 : Forall cap_ok [CapMP x00 (mkFamily 2 1); CapFourAS 4200000001; CapExtended])
    by (repeat (apply Forall_cons; split); try apply Forall_nil; done).
  assert (Hc2 : Forall cap_ok [CapAddPath [(mkFamily 1 1, mode); (mkFamily 2 1, 2)]; CapNextHop [(1, 1, 2); (1, 300, 2)];
                               CapOther 73 [x01; x02]]).
  { apply Forall_cons; split; [|apply Forall_cons; split; [|apply Forall_cons; split; [|apply Forall_nil; done]]].
    - split_and!; [done|done|]. apply Forall_cons; split; [split; [done|cbn; lia]|]. apply Forall_cons; split; [split; [done|cbn; lia]|]. by apply Forall_nil.
    - split_and!; [done|done|]. repeat (apply Forall_cons; split); try apply Forall_nil; done.
    - split_and!; [done|done|done|set_solver]. }
  apply Forall_cons; split; [done|]. apply Forall_cons; split; [done|]. apply Forall_cons; split; [|by apply Forall_nil].
  by split_and!.
Qed.

Lemma open_capabilities_exact_witness :
  value (parseRouteOpenCapabilities (encode_open (demo_open 3)) []) = caps_outcome (declared (demo_open 3)) ∧
  default 0 (addPath (default emptyCaps (declared (demo_open 3))) !! mkFamily 1 1) = 3.
Proof. split; [apply (open_capabilities_exact (demo_open 3)); apply demo_open_ok; lia|vm_compute; done]. Defined.

(** ** ADD-PATH negotiation *)

(** Only the three modes of RFC 7911 are ever recorded. *)
Definition modes_ok (c : routeOpenCapabilities) : Prop := map_Forall (λ _ m, 1 ≤ m ≤ 3) (addPath c).

Lemma modes_ok_default c f : modes_ok c → 0 ≤ default 0 (addPath c !! f) ≤ 3.
Proof. intros H. destruct (addPath c !! f) as [m|] eqn:E; cbn; [apply H in E; cbn in E|]; lia. Qed.

Lemma add_mode_modes l c c' : modes_ok c → foldl add_mode (Some c) l = Some c' → modes_ok c'.
Proof.
  revert c. induction l as [|[f m] l IH]; intros c Hc; cbn; [by intros [= <-]|].
  destruct ((1 <=? m) && (m <=? 3) && _) eqn:E; [|by rewrite foldl_None].
  apply andb_true_iff in E as [E _]. apply andb_true_iff in E as [E1 E2]. zbool.
  intros H. eapply IH; [|exact H]. apply map_Forall_insert_2; [lia|done].
Qed.

Lemma add_next_hop_modes l c : addPath (foldl add_next_hop c l) = addPath c.
Proof.
  revert c. induction l as [|t l IH]; intros c; [done|]. cbn. rewrite IH. unfold add_next_hop. by destruct (_ <=? _).
Qed.

Lemma apply_cap_modes c st st' : modes_ok st.1 → apply_cap (Some st) c = Some st' → modes_ok st'.1.
Proof.
  destruct st as [caps seen]. cbn [fst]. intros Hc. destruct c as [r f|l| |n|l|k v]; cbn.
  - by intros [= <-].
  - intros [= <-]. cbn. unfold modes_ok. by rewrite add_next_hop_modes.
  - by intros [= <-].
  - destruct (_ && _); [done|]. by intros [= <-].
  - destruct seen; [done|]. destruct (foldl add_mode _ _) as [c'|] eqn:E; [|done].
    intros [= <-]. by eapply add_mode_modes.
  - by intros [= <-].
Qed.

(** Any property the steps of a partial fold keep holds at its end. *)
Lemma foldl_option_keep {A B} (f : option A → B → option A) (P : A → Prop) l :
  (∀ x, f None x = None) → (∀ a x a', P a → f (Some a) x = Some a' → P a') →
  ∀ a a', P a → foldl f (Some a) l = Some a' → P a'.
Proof.
  intros HN Hs. induction l as [|x l IH]; intros a a' Ha; cbn; [by intros [= <-]|].
  destruct (f (Some a) x) as [b|] eqn:E; [|by rewrite foldl_None]. intros H. eapply IH; [|exact H]. eauto.
Qed.

Lemma declared_modes o c : declared o = Some c → modes_ok c.
Proof.
  unfold declared. destruct (foldl apply_param _ _) as [[c' b]|] eqn:E; [|done]. intros [= <-].
  change (modes_ok (c', b).1). revert E. apply (foldl_option_keep apply_param (λ st, modes_ok st.1)).
  - intros [l|k v]; [|done]. by apply foldl_None.
  - intros st [l|k v] st' Hst; cbn; [|by intros [= <-]].
    apply (foldl_option_keep apply_cap (λ st, modes_ok st.1)); [done| |done]. intros; by eapply apply_cap_modes.
  - apply map_Forall_empty.
Qed.

(** RFC 7911 modes. *)
Definition sends (c : routeOpenCapabilities) (f : RouteFamily) : Prop := addPath c !! f = Some 2 ∨ addPath c !! f = Some 3.
Definition receives (c : routeOpenCapabilities) (f : RouteFamily) : Prop := addPath c !! f = Some 1 ∨ addPath c !! f = Some 3.

Lemma mode_cases c f : modes_ok c → addPath c !! f = None ∨ ∃ m, addPath c !! f = Some m ∧ (m = 1 ∨ m = 2 ∨ m = 3).
Proof.
  intros H. destruct (addPath c !! f) as [m|] eqn:E; [|by left]. right. exists m. split; [done|].
  apply H in E. cbn in E. lia.
Qed.

Lemma sends_bit c f : modes_ok c → negb (Z.land (default 0 (addPath c !! f)) 2 =? 0) = true ↔ sends c f.
Proof.
  intros H. unfold sends. destruct (mode_cases c f H) as [-> |(m & -> & [-> |[-> | ->]])]; cbn; naive_solver.
Qed.

Lemma receives_bit c f : modes_ok c → negb (Z.land (default 0 (addPath c !! f)) 1 =? 0) = true ↔ receives c f.
Proof.
  intros H. unfold receives. destruct (mode_cases c f H) as [-> |(m & -> & [-> |[-> | ->]])]; cbn; naive_solver.
Qed.

(** The capabilities of the sender and of the receiver of the routes of a view: for an
    Adj-RIB-In the monitored router is the receiver, for an Adj-RIB-Out the sender. *)
Definition direction (view : BMPRouteView) (sent received : routeOpenCapabilities)
    : option (routeOpenCapabilities * routeOpenCapabilities) :=
  match view with
  | BMPAdjRIBInPrePolicy | BMPAdjRIBInPostPolicy => Some (received, sent)
  | BMPAdjRIBOutPrePolicy | BMPAdjRIBOutPostPolicy => Some (sent, received)
  | _ => None
  end.

Lemma both_opens_ok s r sent received view :
  open_ok s → open_ok r → declared s = Some sent → declared r = Some received →
  value (both_opens (encode_open s) (encode_open r) view []) = Ok (sent, received).
Proof.
  intros Hs Hr Ds Dr. unfold both_opens. prog_simpl. change (value (routingSourceProfile [])) with (Ok (E := list bgp_err) noProfile).
  prog_simpl. rewrite open_parse, Ds by auto. cbn [caps_outcome obind]. rewrite value_bind, open_parse, Dr by auto. done.
Qed.

(** Path identifiers are expected exactly when negotiated: for two well-formed OPENs
    that both declare the family, the routes of an adjacent view carry ADD-PATH
    identifiers if and only if the sending side of that view advertised sending them and
    the receiving side advertised receiving them; a family either side did not declare is
    refused. *)
Theorem add_path_negotiated (s r : Open) sent received view family sender receiver :
  open_ok s → open_ok r → declared s = Some sent → declared r = Some received →
  direction view sent received = Some (sender, receiver) →
  let result := value (parseBMPRouteAddPath (encode_open s) (encode_open r) view family []) in
  (family ∈ families sent → family ∈ families received →
     ∃ b, result = Ok b ∧ (b = true ↔ sends sender family ∧ receives receiver family)) ∧
  ((family ∉ families sent ∨ family ∉ families received) → result = Err [ErrRouteCapabilities]).
Proof.
  intros Hs Hr Ds Dr Hdir result. pose proof (declared_modes _ _ Ds). pose proof (declared_modes _ _ Dr).
  unfold result, parseBMPRouteAddPath. prog_simpl. rewrite (both_opens_ok s r sent received) by done. prog_simpl. split.
  - intros Fs Fr. rewrite !bool_decide_eq_true_2 by done. cbn [negb orb].
    destruct view; cbn in Hdir; simplify_eq; eexists; (split; [reflexivity|]);
      by rewrite andb_true_iff, sends_bit, receives_bit.
  - intros [F|F]; rewrite (bool_decide_eq_false_2 _ F); cbn [negb orb]; [done|]. by rewrite orb_true_r.
Qed.

Definition demo_negotiation (mode : Z) : outcome (list bgp_err) bool :=
  value (parseBMPRouteAddPath (encode_open (demo_open mode)) (encode_open (demo_open 2)) BMPAdjRIBInPrePolicy (mkFamily 1 1) []).

Lemma add_path_negotiated_witness :
  (∃ b, demo_negotiation 1 = Ok b ∧
     (b = true ↔ sends (default emptyCaps (declared (demo_open 2))) (mkFamily 1 1) ∧
                 receives (default emptyCaps (declared (demo_open 1))) (mkFamily 1 1))) ∧
  demo_negotiation 1 = Ok true ∧ demo_negotiation 2 = Ok false.
Proof.
  split; [|split; vm_compute; done].
  set (caps m := default emptyCaps (declared (demo_open m))).
  apply (add_path_negotiated (demo_open 1) (demo_open 2) (caps 1) (caps 2) BMPAdjRIBInPrePolicy (mkFamily 1 1)
           (caps 2) (caps 1));
    [apply demo_open_ok; lia|apply demo_open_ok; lia|vm_compute; reflexivity|vm_compute; reflexivity|reflexivity| |];
    apply (bool_decide_unpack _); vm_compute; exact I.
Defined.

(** ** Totality *)

Lemma profile_families_settle l seen : Settles (profile_families l seen).
Proof. revert seen. induction l as [|f l IH]; intros seen; cbn; settle. apply IH. Qed.

#[export] Instance profile_settles profiles : Settles (routingSourceProfile profiles).
Proof.
  unfold routingSourceProfile. destruct profiles as [|p [|q l]]; settle.
  apply settles_bind; [apply profile_families_settle|]. intros seen _. settle.
Qed.

(** A loop over fixed-size records of a value whose length they divide. *)
Lemma records_step (w : list byte) n fuel :
  w ≠ [] → 0 < n → len w mod n = 0 → (length w ≤ S fuel)%nat →
  n ≤ len w ∧ (length (slice w n (len w)) ≤ fuel)%nat ∧ len (slice w n (len w)) mod n = 0.
Proof.
  intros Hw Hn Hm Hf. assert (0 < len w) by (destruct w; [done|rewrite len_cons; pose proof (len_nonneg w); lia]).
  assert (n ≤ len w) by (destruct (Z_lt_le_dec (len w) n); [rewrite Z.mod_small in Hm; lia|done]).
  pose proof (len_slice w n (len w)) as Hl. split_and!; [done|unfold len in *; lia|].
  rewrite Hl by lia. replace (len w - n) with (len w + -1 * n) by lia. by rewrite Z.mod_add by lia.
Qed.

Lemma next_hop_tuples_settle fuel v c :
  (length v ≤ fuel)%nat → len v mod 6 = 0 → Settles (next_hop_tuples fuel v c).
Proof.
  revert v c. induction fuel as [|fuel IH]; intros [|x v] c Hf Hm; cbn [next_hop_tuples]; settle; [cbn in Hf; lia|].
  destruct (records_step (x :: v) 6 fuel) as (H6 & Hf' & Hm'); try done. settle.
  apply settles_bind; [settle|intros c' _]. settle. by apply IH.
Qed.

Lemma add_path_tuples_settle fuel v c :
  (length v ≤ fuel)%nat → len v mod 4 = 0 → Settles (add_path_tuples fuel v c).
Proof.
  revert v c. induction fuel as [|fuel IH]; intros [|x v] c Hf Hm; cbn [add_path_tuples]; settle; [cbn in Hf; lia|].
  destruct (records_step (x :: v) 4 fuel) as (H4 & Hf' & Hm'); try done. settle. by apply IH.
Qed.

Lemma capability_settles kind v format st : Settles (capability kind v format st).
Proof.
  destruct st as [c seen]. unfold capability. pose proof (len_nonneg v).
  assert (Hlen : (length v ≤ Z.to_nat (len v))%nat) by (unfold len; lia).
  settle; repeat match goal with H : (_ || _) = false |- _ => apply orb_false_iff in H as [? ?] end; zbool;
    apply settles_bind; try (intros ? _; settle);
    first [apply next_hop_tuples_settle|apply add_path_tuples_settle]; try done;
    by rewrite <- Z.rem_mod_nonneg by lia.
Qed.

Lemma capabilities_settle fuel raw format st : (length raw ≤ fuel)%nat → Settles (parseCapabilities fuel raw format st).
Proof.
  revert raw st. induction fuel as [|fuel IH]; intros [|x raw] st Hf; cbn [parseCapabilities]; settle; [cbn in Hf; lia|].
  remember (x :: raw) as w eqn:Ew. pose proof (at_range w 1). settle.
  apply settles_bind; [apply capability_settles|intros st' _]. apply IH.
  pose proof (len_slice w (2 + at_ w 1) (len w)). unfold len in *. lia.
Qed.

Lemma parameters_settle fuel rest h format st :
  2 ≤ h ≤ 3 → (length rest ≤ fuel)%nat → Settles (parameters_loop fuel rest h format st).
Proof.
  intros Hh. revert rest st. induction fuel as [|fuel IH]; intros [|x rest] st Hf; cbn [parameters_loop]; settle; [cbn in Hf; lia|].
  remember (x :: rest) as w eqn:Ew. settle.
  apply settles_bind; [apply settles_if; intros ?; left; eexists; first [apply value_beU16|apply value_index]; lia|intros n Hn]. assert (0 ≤ n).
  { revert Hn. pose proof (at_range w 1). rewrite value_if. destruct (h =? 3) eqn:?; zbool.
    - rewrite value_beU16 by lia. intros [= <-]. apply (slice_be 2 w 1); lia.
    - rewrite value_index by lia. intros [= <-]. lia. }
  settle. apply settles_bind; [settle; by apply capabilities_settle|intros st' _].
  apply IH. rewrite length_drop. lia.
Qed.

#[export] Instance open_settles raw profiles : Settles (parseRouteOpenCapabilities raw profiles).
Proof.
  unfold parseRouteOpenCapabilities. apply settles_bind; [apply _|intros profile _]. settle.
  apply settles_bind; [settle|intros sentinel Hs].
  apply settles_bind; [settle|intros [[n offset] h] Ho].
  assert ((offset, h) = (29, 2) ∨ (offset, h) = (32, 3)) as Hoh; [|].
  { revert Ho. destruct sentinel; prog_simpl; [|intros [= _ <- <-]; by left].
    destruct (len raw <? 32) eqn:?; [done|]. zbool. rewrite value_beU16 by lia. cbn. intros [= _ <- <-]. by right. }
  assert (offset ≤ len raw).
  { destruct Hoh as [[= -> ->]|[= -> ->]]; [zbool; lia|]. revert Ho. destruct sentinel; prog_simpl; [|done].
    destruct (len raw <? 32) eqn:?; [done|]. zbool. lia. }
  assert (2 ≤ h ≤ 3 ∧ 0 ≤ offset) as [? ?] by (destruct Hoh; simplify_eq; lia).
  settle. apply settles_bind; [by apply parameters_settle|intros [out b] _]. settle.
Qed.

#[export] Instance both_opens_settle s r view profiles : Settles (both_opens s r view profiles).
Proof.
  unfold both_opens. apply settles_bind; [apply settles_catch; [apply _|intros e; settle]|intros profile _]. settle.
  apply settles_bind; [apply _|intros sent _]. apply settles_bind; [apply _|intros received _]. settle.
Qed.

#[export] Instance add_path_settles s r view family profiles : Settles (parseBMPRouteAddPath s r view family profiles).
Proof.
  unfold parseBMPRouteAddPath. apply settles_bind; [apply _|intros [sent received] _]. settle. destruct view; settle.
Qed.

#[export] Instance next_hop_afi_settles s r view family n profiles :
  Settles (parseBMPRouteNextHopAFI s r view family n profiles).
Proof.
  unfold parseBMPRouteNextHopAFI. apply settles_bind; [apply _|intros [sent received] _]. settle.
  apply settles_bind; [destruct view; cbn; settle|intros receiver _]. settle.
Qed.

#[export] Instance view_header_settles raw : Settles (ParseBMPRouteViewHeader raw).
Proof.
  unfold ParseBMPRouteViewHeader, bmpPeerHeaderLen. settle.
  apply settles_bind; [settle|intros address _]. settle.
Qed.

(** ** Nothing here polls the context *)

Lemma polls_profile P profiles : polls P (routingSourceProfile profiles : BM _).
Proof.
  assert (H : ∀ l seen, polls P (profile_families l seen)) by (induction l; intros; cbn [profile_families]; polls_tac).
  unfold routingSourceProfile. polls_tac.
Qed.

Lemma polls_next_hop_tuples P fuel v c : polls P (next_hop_tuples fuel v c).
Proof. revert v c. induction fuel; intros [|x v] c; cbn [next_hop_tuples]; polls_tac. Qed.

Lemma polls_add_path_tuples P fuel v c : polls P (add_path_tuples fuel v c).
Proof. revert v c. induction fuel; intros [|x v] c; cbn [add_path_tuples]; polls_tac. Qed.

#[local] Hint Resolve polls_profile polls_next_hop_tuples polls_add_path_tuples : polls.

Lemma polls_capabilities P fuel raw format st : polls P (parseCapabilities fuel raw format st).
Proof.
  revert raw st. induction fuel as [|fuel IH]; intros [|x raw] st; cbn [parseCapabilities]; polls_tac.
  unfold capability. destruct st as [c b]. polls_tac.
Qed.

Lemma polls_parameters P fuel rest h format st : polls P (parameters_loop fuel rest h format st).
Proof.
  revert rest st. induction fuel as [|fuel IH]; intros [|x rest] st; cbn [parameters_loop]; polls_tac. apply polls_capabilities.
Qed.

Lemma polls_open P raw profiles : polls P (parseRouteOpenCapabilities raw profiles : BM _).
Proof. unfold parseRouteOpenCapabilities. polls_tac. apply polls_parameters. Qed.

Lemma polls_view_header P raw : polls P (ParseBMPRouteViewHeader raw : BM _).
Proof. unfold ParseBMPRouteViewHeader. polls_tac. Qed.

(** An error handler over a function that does not poll. *)
Lemma polls_silent {A} P (p : BM A) h : polls (λ _, False) p → (∀ e, polls P (h e)) → polls P (catch p h).
Proof. intros Hp Hh. by apply (polls_catch (λ _, False)). Qed.

Lemma polls_both_opens P s r view profiles : polls P (both_opens s r view profiles).
Proof. unfold both_opens. polls_tac; [|apply polls_open..]. apply polls_silent; [apply polls_profile|done]. Qed.

#[local] Hint Resolve polls_both_opens : polls.

Lemma polls_add_path P s r view family profiles : polls P (parseBMPRouteAddPath s r view family profiles).
Proof. unfold parseBMPRouteAddPath. polls_tac. Qed.

Lemma polls_next_hop_afi P s r view family n profiles : polls P (parseBMPRouteNextHopAFI s r view family n profiles).
Proof. unfold parseBMPRouteNextHopAFI, receiver_of. polls_tac. Qed.

End BgpOpen.
