(* ===== verification/BgpPeer.v ===== *)
(** * BMP session messages (internal/bgp/peer_up.go, peer_down.go, route_lifecycle.go)

    The messages that start and end the monitoring of a peer, and the statistics reports
    in between.  Every one is validated as a whole before any of it is returned. *)

From S2P Require Import Prelude GoTime FlowModel GoString GoProg BgpBase BgpOpen.
#[local] Open Scope Z_scope.

Module BgpPeer.
Import BgpOpen.

(** ** Framing *)

(** The checks of a complete BMP message: its least length, version, type (where the code
    asks for one) and declared length. *)
Definition bmp_frame (raw : list byte) (minimum : Z) (kind : option Z) (e : bgp_err) : BM () :=
  fail_if (len raw <? minimum) e;;
  version ← index raw 0;
  fail_if (negb (version =? bmpVersion)) e;;
  type ← index raw 5;
  fail_if (match kind with Some k => negb (type =? k) | None => false end) e;;
  total ← beU32 raw 1;
  fail_if (negb (total =? len raw)) e.

Definition bodyOffset : Z := bmpCommonHeaderLen + bmpPeerHeaderLen.

(** PeerUpInformation and PeerDownInformation: an opaque value of a namespace. *)
Record Information := mkInfo { i_Type : Z; i_Value : list byte }.

Fixpoint information_count (fuel : nat) (rest : list byte) (count : Z) (e : bgp_err) : BM Z :=
  match rest with
  | [] => mret count
  | _ :: _ =>
      match fuel with
      | O => OutOfFuel
      | S fuel =>
          poll;;
          fail_if (len rest <? 4) e;;
          length ← beU16 rest 2;
          fail_if (len rest - 4 <? length) e;;
          information_count fuel (drop (Z.to_nat (4 + length)) rest) (count + 1) e
      end
  end.

Fixpoint information_read (fuel : nat) (rest : list byte) : BM (list Information) :=
  match rest with
  | [] => mret []
  | _ :: _ =>
      match fuel with
      | O => OutOfFuel
      | S fuel =>
          poll;;
          kind ← beU16 rest 0;
          length ← beU16 rest 2;
          v ← subslice rest 4 (4 + length);
          out ← information_read fuel (drop (Z.to_nat (4 + length)) rest);
          mret (mkInfo kind v :: out)
      end
  end.

(** ** Peer Up *)

Record PeerUp := mkPeerUp {
  SourceProfile : RoutingSourceProfile; Header : BMPRouteViewHeader; LocalAddress : Addr;
  LocalPort : Z; RemotePort : Z; SentOpen : list byte; ReceivedOpen : list byte; pu_Information : list Information }.

#[export] Instance PeerUp_eta : Eta PeerUp := λ p,
  mkPeerUp (SourceProfile p) (Header p) (LocalAddress p) (LocalPort p) (RemotePort p) (SentOpen p) (ReceivedOpen p)
    (pu_Information p).

(** The OPEN at the front, validated, and what follows it. *)
Definition takeRouteOpen (raw : list byte) (profile : RoutingSourceProfile) : BM (list byte * list byte) :=
  fail_if (len raw <? bgpHeaderLen) ErrBMPPeerUp;;
  length ← beU16 raw 16;
  fail_if ((length <? 29) || (len raw <? length)) ErrBMPPeerUp;;
  open ← subslice raw 0 length;
  catch (parseRouteOpenCapabilities open [profile]) (λ e, Fail (Join ErrBMPPeerUp e));;
  rest ← subslice raw length (len raw);
  mret (open, rest).

(** The local address, as the view and the V flag say. *)
Definition local_address (header : BMPRouteViewHeader) (local : list byte) (localPort remotePort : Z) : BM Addr :=
  if bool_decide (View header = BMPLocRIB) then
    fail_if (negb (bool_decide (local = replicate 16 x00)) || negb (localPort =? 0) || negb (remotePort =? 0)) ErrBMPPeerUp;;
    mret AddrNone
  else if negb (Z.land (h_Flags header) 0x80 =? 0) then mret (AddrFrom16 local)
  else
    padding ← subslice local 0 12;
    fail_if (negb (bool_decide (padding = replicate 12 x00))) ErrBMPPeerUp;;
    a ← subslice local 12 (len local);
    mret (AddrFrom4 a).

Definition parseBMPPeerUp (raw : list byte) (budget : Budget) (profiles : list RoutingSourceProfile) : BM PeerUp :=
  poll;;
  profile ← routingSourceProfile profiles;
  fail_if (over budget (len raw) 128 4) ErrBMPPeerUpBudget;;
  bmp_frame raw (bodyOffset + 20) (Some 3) ErrBMPPeerUp;;
  peer_header ← subslice raw bmpCommonHeaderLen bodyOffset;
  header ← catch (ParseBMPRouteViewHeader peer_header) (λ _, Fail [ErrBMPPeerUp]);
  fail_if (negb (bool_decide (Format profile = [])) && negb (bool_decide (View header = BMPLocRIB))) ErrBMPPeerUp;;
  local ← subslice raw bodyOffset (bodyOffset + 16);
  localPort ← beU16 raw (bodyOffset + 16);
  remotePort ← beU16 raw (bodyOffset + 18);
  address ← local_address header local localPort remotePort;
  body ← subslice raw (bodyOffset + 20) (len raw);
  '(sent, rest) ← takeRouteOpen body profile;
  poll;;
  '(received, info) ← takeRouteOpen rest profile;
  (if bool_decide (View header = BMPLocRIB) then
     capabilities ← catch (parseRouteOpenCapabilities sent [profile]) (λ _, Fail [ErrBMPPeerUp]);
     fail_if (negb (fourAS capabilities) || negb (bool_decide (sent = received))) ErrBMPPeerUp
   else mret tt);;
  _ ← information_count (length info) info 0 ErrBMPPeerUp;
  poll;;
  information ← information_read (length info) info;
  mret (mkPeerUp profile header address localPort remotePort sent received information).

Definition routingPeerDeclaresFamily (peer : PeerUp) (c : routeOpenCapabilities) (family : RouteFamily) : bool :=
  if bool_decide (View (Header peer) = BMPLocRIB) && bool_decide (Format (SourceProfile peer) = []) &&
     negb (bool_decide (mpFamilies c = ∅))
  then bool_decide (family ∈ mpFamilies c)
  else bool_decide (family ∈ families c).

Definition DecodeRoutingPeerUp (raw : list byte) (budget : Budget) (profiles : list RoutingSourceProfile)
    : BM (PeerUp * list RouteFamily) :=
  peer ← parseBMPPeerUp raw budget profiles;
  sent ← parseRouteOpenCapabilities (SentOpen peer) [SourceProfile peer];
  received ← parseRouteOpenCapabilities (ReceivedOpen peer) [SourceProfile peer];
  let families := filter (λ f, routingPeerDeclaresFamily peer sent f && routingPeerDeclaresFamily peer received f)
                    [mkFamily 1 1; mkFamily 2 1] in
  poll;;
  fail_if (bool_decide (families = [])) ErrRouteCapabilities;;
  mret (peer, families).

(** ** Peer Down *)

Record PeerDown := mkPeerDown {
  pd_Header : BMPRouteViewHeader; Reason : Z; FSMEvent : Z; FSMEventKnown : bool; Notification : list byte;
  pd_Information : list Information }.

#[export] Instance PeerDown_eta : Eta PeerDown := λ p,
  mkPeerDown (pd_Header p) (Reason p) (FSMEvent p) (FSMEventKnown p) (Notification p) (pd_Information p).

Definition parsePeerDownInformation (raw : list byte) : BM (list Information) :=
  _ ← information_count (length raw) raw 0 ErrBMPPeerDown;
  information_read (length raw) raw.

(** A complete NOTIFICATION. *)
Definition notification_check (data : list byte) : BM () :=
  fail_if (len data <? bgpHeaderLen + 2) ErrBMPPeerDown;;
  kind ← index data 18;
  fail_if (negb (kind =? 3)) ErrBMPPeerDown;;
  total ← beU16 data 16;
  fail_if (negb (total =? len data)) ErrBMPPeerDown;;
  marker ← subslice data 0 16;
  fail_if (negb (forallb (λ b, byteZ b =? 255) marker)) ErrBMPPeerDown;;
  poll.

(** The data that goes with each reason. *)
Definition down_reason_data (header : BMPRouteViewHeader) (reason : Z) (data : list byte) : BM PeerDown :=
  fail_if (bool_decide (View header = BMPLocRIB) && negb (reason =? 6)) ErrBMPPeerDown;;
  let out := mkPeerDown header reason 0 false [] [] in
  if bool_decide (reason ∈ [1; 3]) then notification_check data;; mret (out <| Notification := data |>)
  else if reason =? 2 then
    fail_if (negb (len data =? 2)) ErrBMPPeerDown;;
    event ← beU16 data 0;
    mret (out <| FSMEvent := event |> <| FSMEventKnown := negb (event =? 0) |>)
  else if bool_decide (reason ∈ [4; 5]) then
    fail_if (negb (len data =? 0)) ErrBMPPeerDown;;
    mret out
  else if reason =? 6 then
    info ← parsePeerDownInformation data;
    mret (out <| pd_Information := info |>)
  else Fail [ErrBMPPeerDown].

Definition parseBMPPeerDown (raw : list byte) (budget : Budget) : BM PeerDown :=
  poll;;
  fail_if (over budget (len raw) 128 4) ErrBMPPeerDownBudget;;
  bmp_frame raw (bodyOffset + 1) (Some 2) ErrBMPPeerDown;;
  peer_header ← subslice raw bmpCommonHeaderLen bodyOffset;
  header ← catch (ParseBMPRouteViewHeader peer_header) (λ _, Fail [ErrBMPPeerDown]);
  reason ← index raw bodyOffset;
  data ← subslice raw (bodyOffset + 1) (len raw);
  out ← down_reason_data header reason data;
  poll;;
  mret out.

(** ** Statistics and lifecycle *)

Definition sameBMPRoutePeer (route peer : BMPRouteViewHeader) : bool :=
  if negb (PeerType route =? PeerType peer) || negb (bool_decide (Distinguisher route = Distinguisher peer)) ||
     negb (bool_decide (PeerAddress route = PeerAddress peer)) || negb (PeerASN route =? PeerASN peer) ||
     negb (bool_decide (BGPIdentifier route = BGPIdentifier peer)) then false
  else if PeerType route =? 3 then eqb (Filtered route) (Filtered peer) else true.

Definition validRoutingStatistic (kind size : Z) : bool :=
  if bool_decide (kind ∈ [0; 1; 2; 3; 4; 5; 6; 11; 12; 13]) then size =? 4
  else if bool_decide (kind ∈ [7; 8]) then size =? 8
  else if bool_decide (kind ∈ [9; 10]) then size =? 11
  else negb (kind =? 65535).

Fixpoint statistics_loop (count : nat) (remaining : list byte) : BM (list byte) :=
  match count with
  | O => mret remaining
  | S count =>
      poll;;
      fail_if (len remaining <? 4) ErrBMPSourceRoute;;
      size ← beU16 remaining 2;
      kind ← beU16 remaining 0;
      fail_if ((len remaining - 4 <? size) || negb (validRoutingStatistic kind size)) ErrBMPSourceRoute;;
      statistics_loop count (drop (Z.to_nat (4 + size)) remaining)
  end.

(** Whether the message ends the peer's monitoring. *)
Definition DecodeRoutingLifecycle (raw : list byte) (peer : PeerUp) (budget : Budget) : BM bool :=
  poll;;
  fail_if (over budget (len raw) 8 4) ErrBMPPeerUpBudget;;
  bmp_frame raw (bodyOffset + 1) None ErrBMPSourceRoute;;
  peer_header ← subslice raw bmpCommonHeaderLen bodyOffset;
  header ← catch (ParseBMPRouteViewHeader peer_header) (λ _, Fail [ErrBMPSourceRoute]);
  fail_if (negb (sameBMPRoutePeer header (Header peer))) ErrBMPSourceRoute;;
  type ← index raw 5;
  if type =? 2 then _ ← parseBMPPeerDown raw budget; mret true
  else
    fail_if (negb (type =? 1) || (len raw <? bodyOffset + 4)) ErrBMPSourceRoute;;
    count ← beU32 raw bodyOffset;
    remaining ← subslice raw (bodyOffset + 4) (len raw);
    fail_if ((count =? 0) || (Z.quot (len remaining) 4 <? count)) ErrBMPSourceRoute;;
    remaining ← statistics_loop (Z.to_nat count) remaining;
    fail_if (negb (len remaining =? 0)) ErrBMPSourceRoute;;
    mret false.

(** ** Messages on the wire *)

Definition common (kind : Z) (body : list byte) : list byte :=
  [Zbyte bmpVersion] ++ be_bytes 4 (bmpCommonHeaderLen + len body) ++ [Zbyte kind] ++ body.

Lemma len_common kind body : len (common kind body) = bmpCommonHeaderLen + len body.
Proof. unfold common. rewrite !len_app, len_be_bytes. change (len [_]) with 1. unfold bmpCommonHeaderLen. lia. Qed.

(** Everything after the common header. *)
Lemma common_body kind body i j :
  0 ≤ i → i ≤ j → j ≤ len body → slice (common kind body) (bmpCommonHeaderLen + i) (bmpCommonHeaderLen + j) = slice body i j.
Proof.
  intros Hi Hij Hj. assert (Hb : body = slice body 0 i ++ slice body i j ++ slice body j (len body)).
  { rewrite <- slice_cat, <- slice_cat by lia. symmetry. apply slice_full. }
  apply (slice_split _ ([Zbyte bmpVersion] ++ be_bytes 4 (bmpCommonHeaderLen + len body) ++ [Zbyte kind] ++ slice body 0 i)
           _ (slice body j (len body))).
  - unfold common. rewrite Hb at 2. by rewrite <- !app_assoc.
  - rewrite !len_app, len_be_bytes, len_slice by lia. change (len [_]) with 1. unfold bmpCommonHeaderLen. lia.
  - rewrite len_slice by lia. lia.
Qed.

Lemma common_fields kind body :
  0 ≤ kind < 256 → bmpCommonHeaderLen + len body < 2 ^ 32 →
  let raw := common kind body in
  at_ raw 0 = bmpVersion ∧ at_ raw 5 = kind ∧ be_uint (slice raw 1 (1 + 4)) = len raw.
Proof.
  intros Hk Hl raw. pose proof (len_nonneg body). unfold bmpCommonHeaderLen in *. split_and!.
  - done.
  - change (at_ raw 5) with (byteZ (Zbyte kind)). by apply byteZ_Zbyte_small.
  - unfold raw at 2. rewrite len_common. rewrite (slice_split raw [Zbyte bmpVersion]
      (be_bytes 4 (bmpCommonHeaderLen + len body)) ([Zbyte kind] ++ body)); [|reflexivity|reflexivity|by rewrite len_be_bytes].
    apply be_uint_be_bytes_small. unfold bmpCommonHeaderLen. change (256 ^ Z.of_nat 4) with (2 ^ 32). lia.
Qed.

Definition kind_is (k : option Z) (kind : Z) : Prop := k = None ∨ k = Some kind.

Lemma bmp_frame_ok kind body m k e :
  0 ≤ kind < 256 → len (common kind body) < 2 ^ 32 → m ≤ len (common kind body) → kind_is k kind →
  value (bmp_frame (common kind body) m k e) = Ok tt.
Proof.
  intros Hk Hl Hm Hkind. pose proof (len_nonneg body). rewrite len_common in *.
  destruct (common_fields kind body) as (E0 & E5 & E1); [done|done|].
  unfold bmp_frame. prog_simpl. rewrite len_common. ltb_false.
  assert (6 ≤ len (common kind body)) by (rewrite len_common; unfold bmpCommonHeaderLen; lia).
  prog_reads lia. rewrite E0, E5, E1, <- (len_common kind), !Z.eqb_refl. cbn [negb].
  by destruct Hkind as [-> | ->]; [|rewrite Z.eqb_refl].
Qed.

Lemma bmp_frame_cases raw m k e :
  bmpCommonHeaderLen ≤ m →
  value (bmp_frame raw m k e) = Err [e] ∨
  ∃ kind body, raw = common kind body ∧ 0 ≤ kind < 256 ∧ m ≤ len raw < 2 ^ 32 ∧ kind_is k kind ∧
    value (bmp_frame raw m k e) = Ok tt.
Proof.
  unfold bmpCommonHeaderLen. intros Hm. unfold bmp_frame. prog_simpl.
  destruct (len raw <? m) eqn:E; [by left|]. zbool. prog_reads lia.
  destruct (at_ raw 0 =? bmpVersion) eqn:E0; [|by left]. zbool. cbn [negb].
  destruct (match k with Some k => _ | None => _ end) eqn:Ek; [by left|].
  destruct (_ =? len raw) eqn:E1; [|by left]. zbool. cbn [negb]. right.
  pose proof (at_range raw 5). destruct (slice_be 4 raw 1) as [Hbe Hr]; [lia..|]. change (1 + Z.of_nat 4) with (1 + 4) in *.
  exists (at_ raw 5), (slice raw 6 (len raw)). split_and!; try lia; [| |done].
  - unfold common, bmpCommonHeaderLen. rewrite len_slice by lia. replace (6 + (len raw - 6)) with (be_uint (slice raw 1 (1 + 4))) by lia.
    rewrite Hbe, <- E0, <- (slice_one raw 0), <- (slice_one raw 5) by lia. cbn [Z.add Pos.add Pos.succ Pos.add_carry].
    rewrite <- !slice_cat by lia. symmetry. apply slice_full.
  - destruct k as [k|]; [right|by left]. apply negb_false_iff, Z.eqb_eq in Ek. by f_equal.
Qed.

(** Type, length and value. *)
Definition encode_info (i : Information) : list byte :=
  be_bytes 2 (i_Type i) ++ be_bytes 2 (len (i_Value i)) ++ i_Value i.
Definition encode_infos (l : list Information) : list byte := concat (encode_info <$> l).
Definition info_ok (i : Information) : Prop := 0 ≤ i_Type i < 2 ^ 16 ∧ len (i_Value i) < 2 ^ 16.

Lemma len_encode_info i : len (encode_info i) = 4 + len (i_Value i).
Proof. unfold encode_info. rewrite !len_app, !len_be_bytes. lia. Qed.

Lemma info_fields i r :
  info_ok i →
  let raw := encode_info i ++ r in
  be_uint (slice raw 0 (0 + 2)) = i_Type i ∧ be_uint (slice raw 2 (2 + 2)) = len (i_Value i) ∧
  slice raw 4 (4 + len (i_Value i)) = i_Value i ∧ drop (Z.to_nat (4 + len (i_Value i))) raw = r.
Proof.
  intros [Ht Hl] raw. pose proof (len_nonneg (i_Value i)). unfold raw, encode_info.
  set (T := be_bytes 2 (i_Type i)). set (L := be_bytes 2 (len (i_Value i))).
  assert (len T = 2 ∧ len L = 2) as [HT HL] by (unfold T, L; by rewrite !len_be_bytes).
  split_and!.
  - rewrite (slice_split _ [] T (L ++ i_Value i ++ r)) by (by rewrite <- ?app_assoc). by apply be_uint_be_bytes_small.
  - rewrite (slice_split _ T L (i_Value i ++ r)) by (by rewrite <- ?app_assoc). by apply be_uint_be_bytes_small.
  - apply (slice_split _ (T ++ L) (i_Value i) r); [by rewrite <- !app_assoc| |done]. rewrite len_app. lia.
  - replace (Z.to_nat _) with (length (T ++ L ++ i_Value i)); [apply drop_app_length|].
    unfold len in *. rewrite !length_app. lia.
Qed.

(** The front of a byte string is a TLV, or it is not long enough. *)
Lemma info_split rest :
  4 ≤ len rest → be_uint (slice rest 2 (2 + 2)) ≤ len rest - 4 → ∃ i r, info_ok i ∧ rest = encode_info i ++ r.
Proof.
  intros H4 Hl. destruct (slice_be 2 rest 0) as [Hb0 Hr0]; [lia..|]. destruct (slice_be 2 rest 2) as [Hb2 Hr2]; [lia..|].
  change (Z.of_nat 2) with 2 in *. set (n := be_uint (slice rest 2 (2 + 2))) in *.
  exists (mkInfo (be_uint (slice rest 0 (0 + 2))) (slice rest 4 (4 + n))), (slice rest (4 + n) (len rest)).
  assert (len (slice rest 4 (4 + n)) = n) as Hn by (rewrite len_slice; lia).
  split; [split; cbn [i_Type i_Value]; [|rewrite Hn]; change (2 ^ 16) with (256 ^ 2); lia|].
  unfold encode_info. cbn [i_Type i_Value]. rewrite Hn, Hb0, Hb2, <- !app_assoc.
  change (2 + 2) with 4 in *. change (0 + 2) with 2. rewrite <- !slice_cat by lia. symmetry. apply slice_full.
Qed.

Lemma info_count_step fuel rest count e :
  rest ≠ [] → information_count (S fuel) rest count e =
  (poll;; fail_if (len rest <? 4) e;; length ← beU16 rest 2; fail_if (len rest - 4 <? length) e;;
   information_count fuel (drop (Z.to_nat (4 + length)) rest) (count + 1) e).
Proof. by destruct rest. Qed.

Lemma info_read_step fuel rest :
  rest ≠ [] → information_read (S fuel) rest =
  (poll;; kind ← beU16 rest 0; length ← beU16 rest 2; v ← subslice rest 4 (4 + length);
   out ← information_read fuel (drop (Z.to_nat (4 + length)) rest);
   mret (mkInfo kind v :: out)).
Proof. by destruct rest. Qed.

Lemma encode_info_ne i r : encode_info i ++ r ≠ [].
Proof. done. Qed.

Lemma length_encode_info i r : (length r < length (encode_info i ++ r))%nat.
Proof. rewrite length_app. cbn. lia. Qed.

Lemma information_cases fuel rest count e :
  (length rest ≤ fuel)%nat →
  (∃ l, Forall info_ok l ∧ rest = encode_infos l ∧ value (information_count fuel rest count e) = Ok (count + len l) ∧
        value (information_read fuel rest) = Ok l) ∨
  value (information_count fuel rest count e) = Err [e].
Proof.
  revert rest count. induction fuel as [|fuel IH]; intros rest count Hf.
  { left. exists []. destruct rest; [|cbn in Hf; lia]. cbn. split_and!; try done. by rewrite Z.add_0_r. }
  destruct (decide (rest = [])) as [->|Hne].
  { left. exists []. cbn. split_and!; try done. by rewrite Z.add_0_r. }
  rewrite info_count_step by done. prog_simpl. destruct (len rest <? 4) eqn:E4; [by right|]. zbool. prog_reads lia.
  destruct (_ <? _) eqn:El; [by right|]. zbool. destruct (info_split rest) as (i & r & Hi & ->); [lia..|].
  destruct (info_fields i r Hi) as (F0 & F2 & Fv & Fd). rewrite F2, Fd in *.
  pose proof (length_encode_info i r). pose proof (len_nonneg (i_Value i)).
  destruct (IH r (count + 1)) as [(l & Hl & -> & Ec & Er)| -> ]; [lia| |by right]. left. exists (i :: l).
  rewrite Ec, info_read_step by apply encode_info_ne. prog_reads lia. rewrite F0, F2, Fd. prog_reads lia.
  rewrite Fv, Er. rewrite len_cons. split_and!; [by constructor|done|f_equal; lia|by destruct i].
Qed.

Lemma encode_infos_inj l l' : Forall info_ok l → Forall info_ok l' → encode_infos l = encode_infos l' → l = l'.
Proof.
  intros Hl. revert l'. induction Hl as [|i l Hi Hl IH]; intros [|i' l'] Hl' E; [done| | |].
  1, 2: exfalso; unfold encode_infos in E; cbn [fmap list_fmap concat] in E;
    by eapply (encode_info_ne _ _); first [exact E|symmetry; exact E].
  apply Forall_cons in Hl' as [Hi' Hl']. unfold encode_infos in *. cbn [fmap list_fmap concat] in E.
  destruct (info_fields i (concat (encode_info <$> l)) Hi) as (A0 & A2 & Av & Ad).
  destruct (info_fields i' (concat (encode_info <$> l')) Hi') as (B0 & B2 & Bv & Bd).
  rewrite E in A0, A2, Av, Ad. assert (len (i_Value i) = len (i_Value i')) as Hn by congruence.
  rewrite Hn in *. f_equal; [|apply IH; congruence].
  destruct i as [t v], i' as [t' v']; cbn [i_Type i_Value] in *. f_equal; congruence.
Qed.

Lemma information_ok fuel l e :
  Forall info_ok l → (length (encode_infos l) ≤ fuel)%nat →
  value (information_count fuel (encode_infos l) 0 e) = Ok (len l) ∧ value (information_read fuel (encode_infos l)) = Ok l.
Proof.
  intros Hl Hf. destruct (information_cases fuel (encode_infos l) 0 e Hf) as [(l' & Hl' & E & Hc & Hr)|Hc].
  - apply encode_infos_inj in E as <-; [|done..]. by rewrite Hc, Hr.
  - exfalso. revert Hc. generalize 0 as count. revert fuel Hf.
    induction Hl as [|i l Hi Hl IH]; intros fuel Hf count; [by destruct fuel|].
    unfold encode_infos in *. cbn [fmap list_fmap concat] in *. set (r := concat _) in *.
    pose proof (length_encode_info i r). pose proof (len_nonneg (i_Value i)). pose proof (len_nonneg r).
    pose proof (len_app (encode_info i) r). pose proof (len_encode_info i).
    destruct fuel as [|fuel]; [lia|]. destruct (info_fields i r Hi) as (F0 & F2 & Fv & Fd).
    rewrite info_count_step by apply encode_info_ne. prog_simpl. ltb_false. prog_reads lia. rewrite F2, Fd. ltb_false.
    apply IH. lia.
Qed.

(** ** Peer Up messages *)

Lemma slice_prefix {A} (a b : list A) i j : 0 ≤ i → i ≤ j → j ≤ len a → slice (a ++ b) i j = slice a i j.
Proof.
  intros Hi Hij Hj. apply (slice_split _ (slice a 0 i) _ (slice a j (len a) ++ b)).
  - rewrite !app_assoc, <- !slice_cat by lia. by rewrite slice_full.
  - rewrite len_slice by lia. lia.
  - rewrite len_slice by lia. lia.
Qed.

Lemma take_open_ok o c r :
  open_ok o → declared o = Some c → value (takeRouteOpen (encode_open o ++ r) noProfile) = Ok (encode_open o, r).
Proof.
  intros Ho Hc. destruct (open_fields o Ho) as (Hlen & _ & _ & F16 & _). pose proof (len_nonneg r).
  pose proof (len_app (encode_open o) r) as Hl. unfold takeRouteOpen, bgpHeaderLen. prog_simpl. ltb_false. prog_reads lia.
  rewrite slice_prefix, F16 by lia. replace (_ || _) with false
    by (symmetry; apply orb_false_iff; split; apply Z.ltb_ge; lia).
  prog_reads lia. rewrite slice_app_l, open_parse, Hc by auto. cbn [caps_outcome obind]. prog_reads lia.
  by rewrite slice_app_r.
Qed.

Record PeerUpMessage := mkPeerUpMessage {
  pm_header : list byte; pm_local : list byte; pm_localPort : Z; pm_remotePort : Z;
  pm_sent : Open; pm_received : Open; pm_info : list Information }.

Definition peer_up_frame (m : PeerUpMessage) : list byte :=
  common 3 (pm_header m ++ pm_local m ++ be_bytes 2 (pm_localPort m) ++ be_bytes 2 (pm_remotePort m) ++
            encode_open (pm_sent m) ++ encode_open (pm_received m) ++ encode_infos (pm_info m)).

(** What the view asks of the local address, and the address it stands for. *)
Definition local_ok (h : BMPRouteViewHeader) (m : PeerUpMessage) : Prop :=
  if bool_decide (View h = BMPLocRIB) then pm_local m = replicate 16 x00 ∧ pm_localPort m = 0 ∧ pm_remotePort m = 0
  else if negb (Z.land (h_Flags h) 0x80 =? 0) then True else take 12 (pm_local m) = replicate 12 x00.

Definition local_of (h : BMPRouteViewHeader) (m : PeerUpMessage) : Addr :=
  if bool_decide (View h = BMPLocRIB) then AddrNone
  else if negb (Z.land (h_Flags h) 0x80 =? 0) then AddrFrom16 (pm_local m) else AddrFrom4 (drop 12 (pm_local m)).

(** A well-formed message: [h] is its header and [sent] and [received] what its OPENs declare. *)
Definition peer_up_ok (m : PeerUpMessage) (h : BMPRouteViewHeader) (sent received : routeOpenCapabilities) : Prop :=
  length (pm_header m) = 42%nat ∧ value (ParseBMPRouteViewHeader (pm_header m)) = Ok h ∧
  length (pm_local m) = 16%nat ∧ 0 ≤ pm_localPort m < 2 ^ 16 ∧ 0 ≤ pm_remotePort m < 2 ^ 16 ∧ local_ok h m ∧
  open_ok (pm_sent m) ∧ open_ok (pm_received m) ∧ declared (pm_sent m) = Some sent ∧
  declared (pm_received m) = Some received ∧ Forall info_ok (pm_info m) ∧
  (View h = BMPLocRIB → fourAS sent = true ∧ encode_open (pm_sent m) = encode_open (pm_received m)) ∧
  len (peer_up_frame m) < 2 ^ 32.

Definition peer_of (m : PeerUpMessage) (h : BMPRouteViewHeader) : PeerUp :=
  mkPeerUp noProfile h (local_of h m) (pm_localPort m) (pm_remotePort m) (encode_open (pm_sent m))
    (encode_open (pm_received m)) (pm_info m).

Lemma local_address_ok h m :
  length (pm_local m) = 16%nat → local_ok h m →
  value (local_address h (pm_local m) (pm_localPort m) (pm_remotePort m)) = Ok (local_of h m).
Proof.
  intros Hl. unfold local_ok, local_of, local_address. assert (len (pm_local m) = 16) as Hl' by (unfold len; lia).
  destruct (bool_decide (View h = BMPLocRIB)).
  - intros (-> & -> & ->). done.
  - destruct (negb _); [done|]. intros Ht. prog_reads lia. rewrite Hl'. unfold slice at 1 2.
    change (take (Z.to_nat (12 - 0)) (drop (Z.to_nat 0) (pm_local m))) with (take 12 (pm_local m)).
    rewrite bool_decide_eq_true_2 by done. cbn [negb]. do 2 f_equal. change (Z.to_nat 12) with 12%nat.
    apply take_ge. rewrite length_drop. lia.
Qed.

Lemma local_rib_ok m h sent received :
  (View h = BMPLocRIB → fourAS sent = true ∧ encode_open (pm_sent m) = encode_open (pm_received m)) →
  open_ok (pm_sent m) → declared (pm_sent m) = Some sent → declared (pm_received m) = Some received →
  value (if bool_decide (View h = BMPLocRIB) then
     capabilities ← catch (parseRouteOpenCapabilities (encode_open (pm_sent m)) [noProfile]) (λ _, Fail [ErrBMPPeerUp]);
     fail_if (negb (fourAS capabilities) || negb (bool_decide (encode_open (pm_sent m) = encode_open (pm_received m)))) ErrBMPPeerUp
   else mret tt) = Ok tt.
Proof.
  intros Hv Hs Ds Dr. case_bool_decide as E; [|done]. destruct (Hv E) as [H4 He]. prog_simpl. rewrite open_parse, Ds by auto.
  cbn [caps_outcome obind]. rewrite value_fail_if, H4, bool_decide_eq_true_2 by done. done.
Qed.

Lemma peer_up_parse m h sent received b :
  peer_up_ok m h sent received → over b (len (peer_up_frame m)) 128 4 = false →
  value (parseBMPPeerUp (peer_up_frame m) b []) = Ok (peer_of m h).
Proof.
  intros (Hh & Hhdr & Hl & Hlp & Hrp & Hlocal & Hs & Hr & Ds & Dr & Hi & Hv & Hmax) Hb.
  unfold parseBMPPeerUp. prog_simpl. change (value (routingSourceProfile [])) with (Ok (E := list bgp_err) noProfile).
  prog_simpl. rewrite Hb. unfold peer_up_frame in *.
  set (P := be_bytes 2 (pm_localPort m)) in *. set (R := be_bytes 2 (pm_remotePort m)) in *.
  set (S_ := encode_open (pm_sent m)) in *. set (V := encode_open (pm_received m)) in *. set (I_ := encode_infos (pm_info m)) in *.
  set (body := pm_header m ++ _) in *. pose proof (len_nonneg I_). pose proof (len_nonneg V). pose proof (len_nonneg S_).
  assert (len (pm_header m) = 42 ∧ len (pm_local m) = 16 ∧ len P = 2 ∧ len R = 2) as (L1 & L2 & L3 & L4)
    by (unfold P, R, len; rewrite !length_be_bytes; lia).
  assert (Hlb : len body = 62 + len (S_ ++ V ++ I_)) by (unfold body; rewrite !len_app; lia).
  pose proof (len_common 3 body) as Hlc. pose proof (len_nonneg (S_ ++ V ++ I_)).
  rewrite bmp_frame_ok; [|lia|done|rewrite Hlc, Hlb; unfold bodyOffset, bmpCommonHeaderLen, bmpPeerHeaderLen; lia|by right]. cbn [obind].
  assert (Hcut : ∀ pre mid post i j, body = pre ++ mid ++ post → i = 6 + len pre → j = i + len mid →
      slice (common 3 body) i j = mid).
  { intros pre mid post i j E -> ->. pose proof (len_nonneg pre). pose proof (len_nonneg mid). pose proof (len_nonneg post).
    replace (6 + len pre + len mid) with (bmpCommonHeaderLen + (len pre + len mid)) by (unfold bmpCommonHeaderLen; lia).
    assert (len body = len pre + (len mid + len post)) by (by rewrite E, !len_app).
    rewrite common_body by lia. rewrite E. by apply slice_mid. }
  change bodyOffset with 48 in *. change bmpCommonHeaderLen with 6 in *. prog_reads lia.
  rewrite (Hcut [] (pm_header m) (pm_local m ++ P ++ R ++ S_ ++ V ++ I_) 6 48), Hhdr by (done || lia). prog_simpl.
  change (Format noProfile) with (@nil byte). rewrite bool_decide_eq_true_2 by done. cbn [negb andb]. prog_reads lia.
  rewrite (Hcut (pm_header m) (pm_local m) (P ++ R ++ S_ ++ V ++ I_) 48 (48 + 16)) by (done || lia).
  rewrite (Hcut (pm_header m ++ pm_local m) P (R ++ S_ ++ V ++ I_) (48 + 16) (48 + 16 + 2)) by (rewrite ?len_app, ?L1; (by rewrite <- app_assoc) || lia).
  rewrite (Hcut (pm_header m ++ pm_local m ++ P) R (S_ ++ V ++ I_) (48 + 18) (48 + 18 + 2)) by (rewrite ?len_app; (by rewrite <- !app_assoc) || lia).
  unfold P at 1, R at 1. rewrite !be_uint_be_bytes_small, local_address_ok by done. prog_reads lia.
  rewrite (Hcut (pm_header m ++ pm_local m ++ P ++ R) (S_ ++ V ++ I_) [] (48 + 20) (len (common 3 body)))
    by (rewrite ?len_app in *; (by rewrite app_nil_r, <- !app_assoc) || lia).
  unfold S_ at 1. rewrite (take_open_ok _ _ _ Hs Ds). prog_simpl. unfold V at 1. rewrite (take_open_ok _ _ _ Hr Dr). prog_simpl.
  pose proof (local_rib_ok m h sent received Hv Hs Ds Dr) as Hrib. autorewrite with prog in Hrib. unfold S_, V. rewrite Hrib. cbn [obind].
  destruct (information_ok (length I_) (pm_info m) ErrBMPPeerUp Hi (le_n _)) as [Ec Er]. unfold I_ in *. rewrite Ec. cbn [obind].
  rewrite Er. cbn [obind]. unfold P, R. by rewrite !be_uint_be_bytes_small.
Qed.

(** The families both sides declare, by the view's rule. *)
Definition routed_families (p : PeerUp) (sent received : routeOpenCapabilities) : list RouteFamily :=
  filter (λ f, routingPeerDeclaresFamily p sent f && routingPeerDeclaresFamily p received f) [mkFamily 1 1; mkFamily 2 1].

(** Peer Up messages are read as sent: for every well-formed message - any of the five
    views, IPv4 or IPv6 local addresses, any two OPENs, any information values - the
    decoder returns exactly its header, addresses, ports, both OPENs byte for byte and the
    information values in order, with the unicast families both OPENs declare; a message
    whose OPENs share no such family is refused. *)
Theorem peer_up_exact (m : PeerUpMessage) h sent received (b : Budget) :
  peer_up_ok m h sent received → over b (len (peer_up_frame m)) 128 4 = false →
  value (DecodeRoutingPeerUp (peer_up_frame m) b []) =
  (if bool_decide (routed_families (peer_of m h) sent received = []) then Err [ErrRouteCapabilities]
   else Ok (peer_of m h, routed_families (peer_of m h) sent received)).
Proof.
  intros Hm Hb. unfold DecodeRoutingPeerUp. prog_simpl. rewrite (peer_up_parse m h sent received) by done. cbn [obind].
  destruct Hm as (_ & _ & _ & _ & _ & _ & Hs & Hr & Ds & Dr & _). cbn [peer_of SentOpen ReceivedOpen SourceProfile].
  prog_simpl. rewrite open_parse, Ds by auto. cbn [caps_outcome obind]. prog_simpl. rewrite open_parse, Dr by auto.
  cbn [caps_outcome obind]. prog_simpl. done.
Qed.

(** ** Peer Down messages *)

(** Why monitoring ended. *)
Inductive DownBody :=
| Notified (remote : bool) (payload : list byte)
| StateMachine (event : Z)
| NoReason (deconfigured : bool)
| Told (info : list Information).

Definition down_reason (d : DownBody) : Z :=
  match d with
  | Notified remote _ => if remote then 3 else 1
  | StateMachine _ => 2
  | NoReason deconfigured => if deconfigured then 5 else 4
  | Told _ => 6
  end.

(** A NOTIFICATION message. *)
Definition notification (payload : list byte) : list byte :=
  replicate 16 xff ++ be_bytes 2 (19 + len payload) ++ [x03] ++ payload.

Definition down_data (d : DownBody) : list byte :=
  match d with
  | Notified _ payload => notification payload
  | StateMachine event => be_bytes 2 event
  | NoReason _ => []
  | Told info => encode_infos info
  end.

Definition down_ok (h : BMPRouteViewHeader) (d : DownBody) : Prop :=
  match d with
  | Notified _ payload => View h ≠ BMPLocRIB ∧ 2 ≤ len payload < 65536 - 19
  | StateMachine event => View h ≠ BMPLocRIB ∧ 0 ≤ event < 2 ^ 16
  | NoReason _ => View h ≠ BMPLocRIB
  | Told info => Forall info_ok info
  end.

Definition down_of (h : BMPRouteViewHeader) (d : DownBody) : PeerDown :=
  let out := mkPeerDown h (down_reason d) 0 false [] [] in
  match d with
  | Notified _ payload => out <| Notification := notification payload |>
  | StateMachine event => out <| FSMEvent := event |> <| FSMEventKnown := negb (event =? 0) |>
  | NoReason _ => out
  | Told info => out <| pd_Information := info |>
  end.

Definition peer_down_frame (hdr : list byte) (d : DownBody) : list byte :=
  common 2 (hdr ++ [Zbyte (down_reason d)] ++ down_data d).

Lemma notification_cases data :
  (∃ payload, 2 ≤ len payload < 65536 - 19 ∧ data = notification payload ∧ value (notification_check data) = Ok tt) ∨
  (∀ payload, 2 ≤ len payload < 65536 - 19 → data ≠ notification payload) ∧ value (notification_check data) = Err [ErrBMPPeerDown].
Proof.
  assert (Hyes : ∀ payload, 2 ≤ len payload < 65536 - 19 → value (notification_check (notification payload)) = Ok tt).
  { intros payload Hp. set (data' := notification payload). assert (Hl : len data' = 19 + len payload).
    { unfold data', notification. rewrite !len_app, len_be_bytes. change (len (replicate 16 xff)) with 16.
      change (len [_]) with 1. lia. }
    assert (F16 : be_uint (slice data' 16 (16 + 2)) = len data').
    { rewrite (slice_split data' (replicate 16 xff) (be_bytes 2 (19 + len payload)) ([x03] ++ payload)) by done. rewrite Hl.
      apply be_uint_be_bytes_small. change (256 ^ Z.of_nat 2) with 65536. lia. }
    unfold notification_check, bgpHeaderLen. prog_simpl. ltb_false. prog_reads lia. rewrite F16.
    change (at_ data' 18) with 3. change (slice data' 0 16) with (replicate 16 xff). by rewrite !Z.eqb_refl. }
  assert (value (notification_check data) = Err [ErrBMPPeerDown] ∨
          ∃ payload, 2 ≤ len payload < 65536 - 19 ∧ data = notification payload) as [E|(p & Hp & ->)]; [| |left; eauto].
  - unfold notification_check, bgpHeaderLen. prog_simpl. destruct (_ <? _) eqn:El; [by left|]. zbool. prog_reads lia.
    destruct (at_ data 18 =? 3) eqn:E18; [|by left]. zbool. cbn [negb]. destruct (_ =? len data) eqn:E16; [|by left]. zbool. cbn [negb].
    destruct (forallb _ _) eqn:Em; [|by left]. right. exists (slice data 19 (len data)).
    destruct (slice_be 2 data 16) as [Hbe Hr]; [lia..|]. change (Z.of_nat 2) with 2 in *. rewrite len_slice by lia.
    split; [change (256 ^ 2) with 65536 in Hr; lia|]. unfold notification. rewrite len_slice by lia.
    replace (19 + (len data - 19)) with (be_uint (slice data 16 (16 + 2))) by lia.
    assert (Hm : slice data 0 16 = replicate 16 xff).
    { replace (replicate 16 xff) with (replicate (length (slice data 0 16)) xff).
      - clear -Em. induction (slice data 0 16) as [|x l IH]; [done|]. cbn in *. apply andb_true_iff in Em as [E1 E2].
        apply Z.eqb_eq in E1. rewrite <- IH by done. f_equal. rewrite <- (Zbyte_byteZ x). by rewrite E1.
      - f_equal. pose proof (len_slice data 0 16) as H. unfold len in *. lia. }
    assert (Ek : [x03] = slice data 18 (18 + 1)) by (rewrite slice_one, E18 by lia; done).
    rewrite <- Hm, Hbe, Ek. change (16 + 2) with 18. change (18 + 1) with 19. rewrite <- !slice_cat by lia.
    symmetry. apply slice_full.
  - right. split; [|done]. intros p Hp ->. by rewrite Hyes in E.
Qed.

Lemma peer_down_information raw :
  (∃ l, Forall info_ok l ∧ raw = encode_infos l ∧ value (parsePeerDownInformation raw) = Ok l) ∨
  value (parsePeerDownInformation raw) = Err [ErrBMPPeerDown].
Proof.
  unfold parsePeerDownInformation. prog_simpl.
  destruct (information_cases (length raw) raw 0 ErrBMPPeerDown (le_n _)) as [(l & Hl & E & -> & ->)| -> ]; [left|by right].
  by exists l.
Qed.

Lemma down_data_ok h d : down_ok h d → value (down_reason_data h (down_reason d) (down_data d)) = Ok (down_of h d).
Proof.
  intros Hd. unfold down_reason_data. prog_simpl. destruct d as [remote payload|event|deconf|info]; cbn [down_ok down_reason down_data] in *.
  - destruct Hd as [Hv Hp]. rewrite bool_decide_eq_false_2 by done. cbn [andb].
    assert (value (notification_check (notification payload)) = Ok tt) as E.
    { destruct (notification_cases (notification payload)) as [(p & _ & _ & E)|[H _]]; [done|]. by destruct (H payload Hp). }
    destruct remote; [change (bool_decide (3 ∈ [1; 3])) with true|change (bool_decide (1 ∈ [1; 3])) with true];
      cbv iota; rewrite E; reflexivity.
  - destruct Hd as [Hv He]. rewrite bool_decide_eq_false_2 by done. cbn [andb]. rewrite bool_decide_eq_false_2 by set_solver.
    cbn [Z.eqb Pos.eqb]. rewrite len_be_bytes. cbn [Z.of_nat Pos.of_succ_nat Pos.succ Z.eqb Pos.eqb negb].
    rewrite value_beU16 by (rewrite ?len_be_bytes; lia). cbn [obind].
    rewrite (slice_split _ [] (be_bytes 2 event) []); [|by rewrite app_nil_r|done|by rewrite len_be_bytes].
    rewrite be_uint_be_bytes_small by done. done.
  - rewrite bool_decide_eq_false_2 by done. by destruct deconf.
  - rewrite andb_false_r. destruct (information_ok _ info ErrBMPPeerDown Hd (le_n _)) as [Ec Er].
    change (bool_decide (6 ∈ [1; 3])) with false. change (bool_decide (6 ∈ [4; 5])) with false. cbn [Z.eqb Pos.eqb].
    unfold parsePeerDownInformation. prog_simpl. by rewrite Ec, Er.
Qed.

Lemma down_data_cases h reason data :
  (∃ d, down_ok h d ∧ reason = down_reason d ∧ data = down_data d) ∨
  value (down_reason_data h reason data) = Err [ErrBMPPeerDown].
Proof.
  unfold down_reason_data. prog_simpl. destruct (_ && _) eqn:Ev; [by right|].
  assert (Hv : reason = 6 ∨ View h ≠ BMPLocRIB).
  { apply andb_false_iff in Ev as [E|E]; [right; by apply bool_decide_eq_false in E|left; by apply negb_false_iff, Z.eqb_eq in E]. }
  clear Ev. case_bool_decide as E13.
  { destruct (notification_cases data) as [(p & Hp & -> & _)|[_ -> ]]; [left|by right].
    destruct (decide (reason = 3)) as [->|H3].
    - exists (Notified true p). split_and!; try done. destruct Hv; [lia|]. by split.
    - assert (reason = 1) as -> by set_solver. exists (Notified false p). destruct Hv; [lia|]. by split_and!. }
  destruct (reason =? 2) eqn:E2; zbool; [subst|].
  { destruct (len data =? 2) eqn:El; [|by right]. zbool. left. exists (StateMachine (be_uint data)).
    pose proof (be_uint_range data) as Hr. pose proof (be_bytes_be_uint data) as Hb.
    assert (length data = 2%nat) as Hl by (unfold len in El; lia). rewrite Hl in *. destruct Hv; [lia|]. by split_and!. }
  case_bool_decide as E45.
  { destruct (len data =? 0) eqn:El; [|by right]. zbool. left.
    assert (data = []) as -> by (destruct data; [done|rewrite len_cons in El; pose proof (len_nonneg data); lia]).
    destruct (decide (reason = 5)) as [->|H5].
    - exists (NoReason true). destruct Hv; [lia|]. by split_and!.
    - assert (reason = 4) as -> by set_solver. exists (NoReason false). destruct Hv; [lia|]. by split_and!. }
  destruct (reason =? 6) eqn:E6; zbool; [subst|by right]. prog_simpl.
  destruct (peer_down_information data) as [(l & Hl & -> & _)| -> ]; [left|by right]. by exists (Told l).
Qed.

(** A frame with a per-peer header: what the decoders do up to the header. *)
Lemma frame_header kind hdr rest :
  0 ≤ kind < 256 → length hdr = 42%nat →
  let raw := common kind (hdr ++ rest) in
  len raw = bodyOffset + len rest ∧ slice raw bmpCommonHeaderLen bodyOffset = hdr ∧
  (∀ i j, 0 ≤ i → i ≤ j → j ≤ len rest → slice raw (bodyOffset + i) (bodyOffset + j) = slice rest i j).
Proof.
  intros Hk Hh raw. assert (len hdr = 42) as Hl by (unfold len; lia). pose proof (len_nonneg rest).
  assert (Hb : len (hdr ++ rest) = 42 + len rest) by (rewrite len_app; lia).
  unfold raw. change bodyOffset with (bmpCommonHeaderLen + 42). split_and!.
  - rewrite len_common. lia.
  - replace bmpCommonHeaderLen with (bmpCommonHeaderLen + 0) at 1 by lia. rewrite common_body by lia.
    rewrite slice_prefix, <- Hl by lia. apply slice_full.
  - intros i j Hi Hij Hj. rewrite <- !Z.add_assoc, common_body by lia.
    apply (slice_split _ (hdr ++ slice rest 0 i) _ (slice rest j (len rest))).
    + rewrite <- app_assoc, <- !slice_cat by lia. by rewrite slice_full.
    + rewrite len_app, len_slice by lia. lia.
    + rewrite len_slice by lia. lia.
Qed.

Lemma at_slice (l : list byte) i : 0 ≤ i < len l → at_ l i = be_uint (slice l i (i + 1)).
Proof. intros H. rewrite slice_one by done. cbn. rewrite byteZ_Zbyte_small by apply at_range. lia. Qed.

Lemma peer_down_value hdr reason data b :
  let raw := common 2 (hdr ++ [Zbyte reason] ++ data) in
  length hdr = 42%nat → 0 ≤ reason < 256 → len raw < 2 ^ 32 → over b (len raw) 128 4 = false →
  value (parseBMPPeerDown raw b) =
  match value (ParseBMPRouteViewHeader hdr) with
  | Ok h => value (down_reason_data h reason data)
  | Err _ => Err [ErrBMPPeerDown]
  | Panics => Panics
  | Diverges => Diverges
  end.
Proof.
  intros raw Hh Hr Hl Hb. destruct (frame_header 2 hdr ([Zbyte reason] ++ data)) as (Hlen & Fh & Fs); [lia|done|].
  fold raw in Hlen, Fh, Fs. rewrite len_app in Hlen. change (len [Zbyte reason]) with 1 in Hlen. pose proof (len_nonneg data).
  unfold parseBMPPeerDown. prog_simpl. rewrite Hb. unfold raw at 1. rewrite bmp_frame_ok; [|lia|done|fold raw; lia|by right].
  fold raw. change bodyOffset with 48 in *. change bmpCommonHeaderLen with 6 in *. prog_reads lia. rewrite Fh.
  destruct (value (ParseBMPRouteViewHeader hdr)) as [h|e| |]; cbn [obind]; try done. prog_reads lia.
  assert (Fd : slice raw (48 + 1) (len raw) = data).
  { rewrite Hlen, Fs by (rewrite ?len_app; change (len [Zbyte reason]) with 1; lia).
    apply (slice_split _ [Zbyte reason] data []); [by rewrite app_nil_r|done|done]. }
  assert (F0 : at_ raw 48 = reason).
  { rewrite at_slice by lia. change 48 with (48 + 0) at 1. change (48 + 1) with (48 + 1).
    rewrite Fs by (rewrite ?len_app; change (len [Zbyte reason]) with 1; lia).
    rewrite (slice_split _ [] [Zbyte reason] data) by done. cbn. rewrite byteZ_Zbyte_small by done. lia. }
  rewrite Fd, F0. by destruct (value (down_reason_data h reason data)).
Qed.

Lemma body_split kind body n :
  0 ≤ n → bodyOffset + n ≤ len (common kind body) → ∃ hdr rest, body = hdr ++ rest ∧ length hdr = 42%nat ∧ n ≤ len rest.
Proof.
  rewrite len_common. unfold bodyOffset, bmpCommonHeaderLen, bmpPeerHeaderLen. intros Hn Hl.
  exists (take 42 body), (drop 42 body). rewrite take_drop. unfold len in *. rewrite length_take, length_drop. split_and!; [done|lia..].
Qed.

Lemma view_header_outcome hdr : (∃ h, value (ParseBMPRouteViewHeader hdr) = Ok h) ∨ ∃ e, value (ParseBMPRouteViewHeader hdr) = Err e.
Proof. apply (settles (p := ParseBMPRouteViewHeader hdr)). Qed.

Definition peer_down_message (raw : list byte) (pd : PeerDown) : Prop :=
  ∃ hdr h d, raw = peer_down_frame hdr d ∧ length hdr = 42%nat ∧ value (ParseBMPRouteViewHeader hdr) = Ok h ∧
    down_ok h d ∧ len raw < 2 ^ 32 ∧ pd = down_of h d.

Lemma down_reason_range d : 0 ≤ down_reason d < 256.
Proof. destruct d as [[]| |[]|]; cbn; lia. Qed.

Lemma peer_down_cases (raw : list byte) (b : Budget) :
  let r := value (parseBMPPeerDown raw b) in
  (∀ pd, r = Ok pd ↔ over b (len raw) 128 4 = false ∧ peer_down_message raw pd) ∧
  ((∃ pd, r = Ok pd) ∨ r = Err [ErrBMPPeerDownBudget] ∨ r = Err [ErrBMPPeerDown]).
Proof.
  intros r. destruct (over b (len raw) 128 4) eqn:Hb.
  { assert (r = Err [ErrBMPPeerDownBudget]) as -> by (unfold r, parseBMPPeerDown; prog_simpl; by rewrite Hb).
    split; [|auto]. intros pd. split; [done|]. by intros [? _]. }
  assert (Hyes : ∀ pd, peer_down_message raw pd → r = Ok pd).
  { intros pd (hdr & h & d & E & Hh & Hp & Hd & Hl & ->). unfold r. rewrite E in *. unfold peer_down_frame in *.
    rewrite peer_down_value, Hp by (done || apply down_reason_range). by apply down_data_ok. }
  assert (Hno : r = Err [ErrBMPPeerDown] ∨ ∃ pd, peer_down_message raw pd).
  { unfold r. destruct (bmp_frame_cases raw (bodyOffset + 1) (Some 2) ErrBMPPeerDown) as [E|(kind & body & E & _ & Hl & Hk & _)].
    { unfold bodyOffset, bmpPeerHeaderLen. lia. }
    { left. unfold parseBMPPeerDown. prog_simpl. by rewrite Hb, E. }
    destruct Hk as [?|[= <-]]; [done|]. rewrite E in Hl. destruct (body_split 2 body 1) as (hdr & rest & -> & Hh & Hr); [lia..|].
    destruct rest as [|x data]; [by cbn in Hr|]. rewrite <- (Zbyte_byteZ x) in E. pose proof (byteZ_range x).
    assert (Hmax : len raw < 2 ^ 32) by (rewrite E; rewrite Zbyte_byteZ; lia). rewrite E in Hb, Hmax |- *.
    change (Zbyte (byteZ x) :: data) with ([Zbyte (byteZ x)] ++ data) in *. rewrite peer_down_value by done.
    destruct (view_header_outcome hdr) as [[h Eh]|[e Eh]]; rewrite Eh; [|by left].
    destruct (down_data_cases h (byteZ x) data) as [(d & Hd & Er & Ed)| -> ]; [right|by left].
    exists (down_of h d), hdr, h, d. unfold peer_down_frame. rewrite Er, Ed in *. by split_and!. }
  split.
  - intros pd. split; [|by intros [_ ?]; apply Hyes]. intros E. split; [done|]. destruct Hno as [E'|[pd' Hm]]; [congruence|].
    pose proof (Hyes _ Hm). by replace pd with pd' by congruence.
  - destruct Hno as [E'|[pd' Hm]]; [auto|left; eauto].
Qed.

(** Peer Down messages are accepted exactly when they are what the protocol says: the
    decoder returns a result if and only if the operation is admitted and the message is
    the complete frame of a valid per-peer header and one of the six reasons with exactly
    its data - a complete NOTIFICATION, a state machine event, nothing, or information
    values, the last being the only one for a Loc-RIB - and the result is those data;
    otherwise it returns one of its two errors. *)
Theorem peer_down_exact (raw : list byte) (b : Budget) :
  let r := value (parseBMPPeerDown raw b) in
  (∀ pd, r = Ok pd ↔ over b (len raw) 128 4 = false ∧ peer_down_message raw pd) ∧
  ((∃ pd, r = Ok pd) ∨ r = Err [ErrBMPPeerDownBudget] ∨ r = Err [ErrBMPPeerDown]).
Proof. apply peer_down_cases. Qed.

(** ** Statistics reports *)

(** Two headers of the same peer. *)
Definition same_peer (h p : BMPRouteViewHeader) : Prop :=
  PeerType h = PeerType p ∧ Distinguisher h = Distinguisher p ∧ PeerAddress h = PeerAddress p ∧ PeerASN h = PeerASN p ∧
  BGPIdentifier h = BGPIdentifier p ∧ (PeerType h = 3 → Filtered h = Filtered p).

Lemma same_peer_spec h p : sameBMPRoutePeer h p = true ↔ same_peer h p.
Proof.
  unfold sameBMPRoutePeer, same_peer. destruct (_ || _ || _ || _ || _) eqn:E.
  - split; [done|]. intros (H1 & H2 & H3 & H4 & H5 & _). rewrite !orb_true_iff, !negb_true_iff, !bool_decide_eq_false, !Z.eqb_neq in E.
    tauto.
  - rewrite !orb_false_iff, !negb_false_iff, !bool_decide_eq_true, !Z.eqb_eq in E. destruct E as ((((H1 & H2) & H3) & H4) & H5).
    destruct (PeerType h =? 3) eqn:E3; zbool; [rewrite eqb_true_iff|]; naive_solver.
Qed.

Definition stat_ok (i : Information) : Prop := info_ok i ∧ validRoutingStatistic (i_Type i) (len (i_Value i)) = true.

(** A loop over a declared number of counters: each is a TLV of a valid size. *)
Lemma statistics_cases n raw :
  (∃ l rest, length l = n ∧ Forall stat_ok l ∧ raw = encode_infos l ++ rest ∧ value (statistics_loop n raw) = Ok rest) ∨
  value (statistics_loop n raw) = Err [ErrBMPSourceRoute].
Proof.
  revert raw. induction n as [|n IH]; intros raw; [left; by exists [], raw|]. cbn [statistics_loop]. prog_simpl.
  destruct (len raw <? 4) eqn:E4; [by right|]. zbool. prog_reads lia.
  destruct (_ || _) eqn:E; [by right|]. apply orb_false_iff in E as [El Ev]. zbool.
  destruct (info_split raw) as (i & r & Hi & ->); [lia..|]. destruct (info_fields i r Hi) as (F0 & F2 & _ & Fd).
  rewrite F0, F2, Fd in *. destruct (IH r) as [(l & rest & Hn & Hl & -> & ->)| -> ]; [left|by right].
  exists (i :: l), rest. unfold encode_infos. cbn [fmap list_fmap concat length]. rewrite <- app_assoc.
  split_and!; [lia| |done|done]. by constructor.
Qed.

Lemma statistics_ok l rest : Forall stat_ok l → value (statistics_loop (length l) (encode_infos l ++ rest)) = Ok rest.
Proof.
  induction 1 as [|i l [Hi Hv] Hl IH]; [done|]. unfold encode_infos in *. cbn [fmap list_fmap concat length statistics_loop].
  rewrite <- app_assoc. set (r := concat _ ++ rest) in *. destruct (info_fields i r Hi) as (F0 & F2 & _ & Fd).
  pose proof (len_app (encode_info i) r). pose proof (len_encode_info i). pose proof (len_nonneg r). pose proof (len_nonneg (i_Value i)).
  prog_simpl. ltb_false. prog_reads lia. rewrite F0, F2, Fd, Hv. ltb_false. done.
Qed.

Definition statistics_frame (hdr : list byte) (l : list Information) : list byte :=
  common 1 (hdr ++ be_bytes 4 (len l) ++ encode_infos l).

Definition statistics_message (raw : list byte) (peer : PeerUp) : Prop :=
  ∃ hdr h l, raw = statistics_frame hdr l ∧ length hdr = 42%nat ∧ value (ParseBMPRouteViewHeader hdr) = Ok h ∧
    same_peer h (Header peer) ∧ l ≠ [] ∧ Forall stat_ok l ∧ len raw < 2 ^ 32.

Lemma len_infos_ge l : 4 * len l ≤ len (encode_infos l).
Proof.
  induction l as [|i l IH]; [done|]. unfold encode_infos in *. cbn [fmap list_fmap concat]. rewrite len_cons, len_app, len_encode_info.
  pose proof (len_nonneg (i_Value i)). lia.
Qed.

(** The report behind the per-peer header. *)
Definition report_value (rest : list byte) : outcome (list bgp_err) bool :=
  if len rest <? 4 then Err [ErrBMPSourceRoute]
  else
    let count := be_uint (slice rest 0 (0 + 4)) in
    if (count =? 0) || (Z.quot (len rest - 4) 4 <? count) then Err [ErrBMPSourceRoute]
    else obind (value (statistics_loop (Z.to_nat count) (slice rest 4 (len rest))))
           (λ remaining, if len remaining =? 0 then Ok false else Err [ErrBMPSourceRoute]).

Lemma report_cases rest :
  report_value rest = Err [ErrBMPSourceRoute] ∨
  ∃ l, l ≠ [] ∧ Forall stat_ok l ∧ rest = be_bytes 4 (len l) ++ encode_infos l ∧ report_value rest = Ok false.
Proof.
  unfold report_value. destruct (len rest <? 4) eqn:E4; [by left|]. zbool. cbn zeta.
  destruct (_ || _) eqn:E; [by left|]. apply orb_false_iff in E as [E0 _]. zbool.
  destruct (slice_be 4 rest 0) as [Hb Hr]; [lia..|]. change (Z.of_nat 4) with 4 in *. set (count := be_uint _) in *.
  destruct (statistics_cases (Z.to_nat count) (slice rest 4 (len rest))) as [(l & r & Hn & Hl & Er & ->)| -> ]; [|by left].
  cbn [obind]. destruct (len r =? 0) eqn:Ez; [|by left]. zbool. right. exists l.
  assert (r = []) as -> by (destruct r; [done|rewrite len_cons in Ez; pose proof (len_nonneg r); lia]).
  assert (len l = count) as -> by (unfold len; lia). rewrite app_nil_r in Er. split_and!; [|done| |done].
  - intros ->. cbn in Hn. lia.
  - rewrite <- Er, Hb. change (0 + 4) with 4. rewrite <- slice_cat by lia. symmetry. apply slice_full.
Qed.

Lemma report_ok l :
  l ≠ [] → Forall stat_ok l → len l < 2 ^ 32 → report_value (be_bytes 4 (len l) ++ encode_infos l) = Ok false.
Proof.
  intros Hne Hl Hmax. pose proof (len_infos_ge l). unfold report_value. rewrite len_app, len_be_bytes. change (Z.of_nat 4) with 4.
  assert (0 < len l) by (destruct l; [done|rewrite len_cons; pose proof (len_nonneg l); lia]). ltb_false. cbn zeta.
  rewrite (slice_split _ [] (be_bytes 4 (len l)) (encode_infos l)), be_uint_be_bytes_small
    by (done || (change (256 ^ Z.of_nat 4) with (2 ^ 32); lia)).
  replace (_ || _) with false.
  2: { symmetry. apply orb_false_iff. split; [apply Z.eqb_neq; lia|]. apply Z.ltb_ge, quot_ge; lia. }
  rewrite (slice_split _ (be_bytes 4 (len l)) (encode_infos l) []) by (rewrite ?app_nil_r, ?len_be_bytes; done || lia).
  replace (Z.to_nat (len l)) with (length l) by (unfold len; lia). rewrite <- (app_nil_r (encode_infos l)).
  by rewrite statistics_ok.
Qed.

Lemma lifecycle_value kind hdr rest peer b :
  let raw := common kind (hdr ++ rest) in
  0 ≤ kind < 256 → length hdr = 42%nat → 1 ≤ len rest → len raw < 2 ^ 32 → over b (len raw) 8 4 = false →
  value (DecodeRoutingLifecycle raw peer b) =
  match value (ParseBMPRouteViewHeader hdr) with
  | Ok h =>
      if sameBMPRoutePeer h (Header peer) then
        if kind =? 2 then obind (value (parseBMPPeerDown raw b)) (λ _, Ok true)
        else if kind =? 1 then report_value rest else Err [ErrBMPSourceRoute]
      else Err [ErrBMPSourceRoute]
  | Err _ => Err [ErrBMPSourceRoute]
  | Panics => Panics
  | Diverges => Diverges
  end.
Proof.
  intros raw Hk Hh Hr Hl Hb. destruct (frame_header kind hdr rest) as (Hlen & Fh & Fs); [lia|done|].
  destruct (common_fields kind (hdr ++ rest)) as (_ & F5 & _); [done|by rewrite <- (len_common kind)|].
  fold raw in Hlen, Fh, Fs, F5. unfold DecodeRoutingLifecycle. prog_simpl. rewrite Hb. unfold raw at 1.
  rewrite bmp_frame_ok; [|lia|done|fold raw; lia|by left].
  fold raw. change bodyOffset with 48 in *. change bmpCommonHeaderLen with 6 in *. prog_reads lia. rewrite Fh.
  destruct (value (ParseBMPRouteViewHeader hdr)) as [h|e| |]; cbn [obind]; try done. prog_reads lia. rewrite F5.
  destruct (sameBMPRoutePeer h (Header peer)); cbn [negb]; [|done]. destruct (kind =? 2); [done|].
  destruct (kind =? 1); cbn [negb orb]; [|done]. rewrite Hlen. unfold report_value.
  replace (48 + len rest <? 48 + 4) with (len rest <? 4) by (apply eq_true_iff_eq; rewrite !Z.ltb_lt; lia).
  destruct (len rest <? 4) eqn:E4; [done|]. zbool. prog_reads lia. cbn zeta.
  replace (slice raw 48 (48 + 4)) with (slice rest 0 (0 + 4)) by (symmetry; apply (Fs 0 4); lia).
  rewrite (Fs 4 (len rest)), len_slice by lia.
  destruct (_ || _); [done|]. prog_simpl. destruct (value (statistics_loop _ _)) as [r|e| |]; cbn [obind]; try done.
  by destruct (len r =? 0).
Qed.

Lemma over_128_8 b n : 0 ≤ n → over b n 128 4 = false → over b n 8 4 = false.
Proof. intros Hn. rewrite !over_false by lia. intros (H1 & H2 & H3 & H4). split_and!; lia. Qed.

Lemma common_inj k k' body body' : 0 ≤ k < 256 → 0 ≤ k' < 256 → common k body = common k' body' → k = k' ∧ body = body'.
Proof.
  intros Hk Hk' E. assert (Hl : len body = len body') by (pose proof (len_common k body) as L; rewrite E, len_common in L; lia).
  unfold common in E. rewrite Hl in E. injection E as E3 E4.
  split; [|done]. by rewrite <- (byteZ_Zbyte_small k), <- (byteZ_Zbyte_small k'), E3.
Qed.

Lemma lifecycle_cases raw peer b :
  over b (len raw) 8 4 = false →
  value (DecodeRoutingLifecycle raw peer b) = Err [ErrBMPSourceRoute] ∨
  ∃ kind hdr rest, raw = common kind (hdr ++ rest) ∧ 0 ≤ kind < 256 ∧ length hdr = 42%nat ∧ 1 ≤ len rest ∧ len raw < 2 ^ 32.
Proof.
  intros Hb. destruct (bmp_frame_cases raw (bodyOffset + 1) None ErrBMPSourceRoute) as [E|(kind & body & E & Hk & Hl & _ & _)].
  { unfold bodyOffset, bmpPeerHeaderLen. lia. }
  { left. unfold DecodeRoutingLifecycle. prog_simpl. by rewrite Hb, E. }
  destruct (body_split kind body 1) as (hdr & rest & -> & Hh & Hr); [lia|rewrite <- E; lia|].
  right. exists kind, hdr, rest. split_and!; done || lia.
Qed.

(** A Peer Down of the retained peer. *)
Definition peer_down_for (raw : list byte) (peer : PeerUp) : Prop :=
  ∃ pd, peer_down_message raw pd ∧ same_peer (pd_Header pd) (Header peer).

Lemma pd_header_of h d : pd_Header (down_of h d) = h.
Proof. by destruct d. Qed.

Lemma lifecycle_statistics raw peer b :
  over b (len raw) 8 4 = false → statistics_message raw peer → value (DecodeRoutingLifecycle raw peer b) = Ok false.
Proof.
  intros Hb (hdr & h & l & E & Hh & Hp & Hs & Hne & Hl & Hmax). unfold statistics_frame in *. rewrite E in *.
  apply same_peer_spec in Hs. pose proof (len_infos_ge l). pose proof (len_nonneg l).
  destruct (frame_header 1 hdr (be_bytes 4 (len l) ++ encode_infos l)) as (Hlen & _); [lia|done|].
  rewrite len_app, len_be_bytes in Hlen. change bodyOffset with 48 in Hlen.
  rewrite lifecycle_value, Hp, Hs by (rewrite ?len_app, ?len_be_bytes; done || lia).
  change (1 =? 2) with false. change (1 =? 1) with true. cbv iota. apply report_ok; [done..|lia].
Qed.

Lemma lifecycle_down raw peer b :
  over b (len raw) 128 4 = false → peer_down_for raw peer → value (DecodeRoutingLifecycle raw peer b) = Ok true.
Proof.
  intros Hb (pd & Hm & Hs). pose proof (proj2 (proj1 (peer_down_cases raw b) pd) (conj Hb Hm)) as Hpd.
  destruct Hm as (hdr & h & d & E & Hh & Hp & Hd & Hmax & ->). rewrite pd_header_of in Hs. apply same_peer_spec in Hs. unfold peer_down_frame in *.
  rewrite E in *. pose proof (len_nonneg (down_data d)). apply over_128_8 in Hb; [|apply len_nonneg].
  rewrite lifecycle_value, Hp, Hs; [|lia|done|rewrite len_app; change (len [_]) with 1; lia|done|done].
  change (2 =? 2) with true. cbv iota. by rewrite Hpd.
Qed.

Lemma lifecycle_inv raw peer b :
  over b (len raw) 8 4 = false → let r := value (DecodeRoutingLifecycle raw peer b) in
  (∃ e, r = Err e) ∨ (r = Ok false ∧ statistics_message raw peer) ∨
  (r = Ok true ∧ over b (len raw) 128 4 = false ∧ peer_down_for raw peer).
Proof.
  intros Hb r. unfold r. destruct (lifecycle_cases raw peer b Hb) as [->|(kind & hdr & rest & E & Hk & Hh & Hr & Hmax)]; [left; by eexists|].
  rewrite E in Hb, Hmax |- *. rewrite lifecycle_value by done.
  destruct (view_header_outcome hdr) as [[h Eh]|[e Eh]]; rewrite Eh; [|left; by eexists].
  destruct (sameBMPRoutePeer h (Header peer)) eqn:Es; [apply same_peer_spec in Es|left; by eexists].
  destruct (kind =? 2) eqn:E2; zbool; [subst kind|destruct (kind =? 1) eqn:E1; zbool; [subst kind|left; by eexists]].
  - destruct (peer_down_cases (common 2 (hdr ++ rest)) b) as [Hiff [[pd Ep]|[Ep|Ep]]]; rewrite Ep; [|left; by eexists..].
    apply Hiff in Ep as [Ho Hm]. right. right. split_and!; [done|done|]. exists pd. split; [done|].
    destruct Hm as (hdr' & h' & d & E' & Hh' & Hp' & _ & _ & ->). rewrite pd_header_of.
    apply common_inj in E' as [_ E']; [|lia..]. apply app_inj_1 in E' as [<- _]; [|lia]. congruence.
  - destruct (report_cases rest) as [->|(l & Hne & Hl & -> & ->)]; [left; by eexists|]. right. left. split; [done|].
    exists hdr, h, l. by split_and!.
Qed.

(** Only the monitored peer's own complete messages count: a message keeps the peer
    alive exactly when it is a statistics report of that peer with at least one counter,
    as many as declared and each of the size its type has, and ends it exactly when it is
    a valid Peer Down of that peer; every other message, and every message over budget, is
    an error. *)
Theorem lifecycle_exact (raw : list byte) (peer : PeerUp) (b : Budget) :
  let r := value (DecodeRoutingLifecycle raw peer b) in
  (r = Ok false ↔ over b (len raw) 8 4 = false ∧ statistics_message raw peer) ∧
  (r = Ok true ↔ over b (len raw) 128 4 = false ∧ peer_down_for raw peer) ∧
  ((∃ down, r = Ok down) ∨ ∃ e, r = Err e).
Proof.
  intros r. pose proof (lifecycle_statistics raw peer b) as Hs. pose proof (lifecycle_down raw peer b) as Hd. fold r in Hs, Hd.
  destruct (over b (len raw) 8 4) eqn:Hb.
  { assert (r = Err [ErrBMPPeerUpBudget]) as Er by (unfold r, DecodeRoutingLifecycle; prog_simpl; by rewrite Hb).
    split_and!; [split; [congruence|by intros [? _]]| |right; eauto]. split; [congruence|]. intros [H _].
    apply over_128_8 in H; [congruence|apply len_nonneg]. }
  destruct (lifecycle_inv raw peer b Hb) as [[e E]|[[E Hm]|(E & Ho & Hm)]]; fold r in E;
    split_and!; try (split; [|by intros [??]; auto]); naive_solver congruence.
Qed.

(** ** Totality and cancellation *)

Lemma polls_bmp_frame P raw m k e : polls P (bmp_frame raw m k e).
Proof. unfold bmp_frame. polls_tac. Qed.

Lemma polls_information_count fuel raw count e : polls bare (information_count fuel raw count e).
Proof. revert raw count. induction fuel; intros [|x raw] count; cbn [information_count]; polls_tac. Qed.

Lemma polls_information_read fuel raw : polls bare (information_read fuel raw).
Proof. revert raw. induction fuel; intros [|x raw]; cbn [information_read]; polls_tac. Qed.

#[local] Hint Resolve polls_bmp_frame polls_information_count polls_information_read polls_profile polls_open
  polls_view_header : polls.

Lemma polls_take_open P raw profile : polls P (takeRouteOpen raw profile).
Proof. unfold takeRouteOpen. polls_tac. apply polls_silent; [|done]. apply polls_open. Qed.

Lemma polls_local_address P header local p q : polls P (local_address header local p q).
Proof. unfold local_address. polls_tac. Qed.

#[local] Hint Resolve polls_take_open polls_local_address : polls.

Lemma polls_peer_up raw b profiles : polls bare (parseBMPPeerUp raw b profiles).
Proof.
  unfold parseBMPPeerUp. polls_tac; (apply polls_silent; [|done]); [apply polls_view_header|apply polls_open].
Qed.

#[export] Instance peer_up_cancels raw b profiles : Cancels (DecodeRoutingPeerUp raw b profiles).
Proof.
  apply polls_cancels, (polls_mono bare); [apply bare_from_ctx|]. unfold DecodeRoutingPeerUp. polls_tac. apply polls_peer_up.
Qed.

Lemma polls_peer_down raw b : polls bare (parseBMPPeerDown raw b).
Proof.
  unfold parseBMPPeerDown, down_reason_data, notification_check, parsePeerDownInformation. polls_tac.
  apply polls_silent; [apply polls_view_header|done].
Qed.

Lemma polls_statistics n raw : polls bare (statistics_loop n raw).
Proof. revert raw. induction n; intros raw; cbn [statistics_loop]; polls_tac. Qed.

#[export] Instance lifecycle_cancels raw peer b : Cancels (DecodeRoutingLifecycle raw peer b).
Proof.
  apply polls_cancels, (polls_mono bare); [apply bare_from_ctx|]. unfold DecodeRoutingLifecycle. polls_tac.
  - apply polls_silent; [apply polls_view_header|done].
  - apply polls_peer_down.
  - apply polls_statistics.
Qed.

Lemma bmp_frame_settles raw m k e : bmpCommonHeaderLen ≤ m → Settles (bmp_frame raw m k e).
Proof.
  intros Hm. destruct (bmp_frame_cases raw m k e Hm) as [E|(_ & _ & _ & _ & _ & _ & E)]; [right|left]; by eexists.
Qed.

Lemma information_settles e raw : Settles (information_count (length raw) raw 0 e) ∧
  (∀ n, value (information_count (length raw) raw 0 e) = Ok n → Settles (information_read (length raw) raw)).
Proof.
  destruct (information_cases (length raw) raw 0 e (le_n _)) as [(l & _ & _ & Ec & Er)|Ec].
  - split; [left; by eexists|]. intros _ _. left. by eexists.
  - split; [right; by eexists|]. intros n. by rewrite Ec.
Qed.

Lemma take_open_settles raw profile : Settles (takeRouteOpen raw profile).
Proof.
  unfold takeRouteOpen, bgpHeaderLen. settle. apply settles_bind; [apply settles_catch; [apply _|intros; apply settles_fail]|].
  intros _ _. settle.
Qed.

Lemma local_address_settles h local p q : len local = 16 → Settles (local_address h local p q).
Proof. intros Hl. unfold local_address. settle. Qed.

#[export] Instance peer_up_settles raw b profiles : Settles (parseBMPPeerUp raw b profiles).
Proof.
  unfold parseBMPPeerUp. settle. apply settles_bind; [apply _|intros profile _]. settle.
  apply settles_bind; [by apply bmp_frame_settles|intros [] Hf].
  destruct (bmp_frame_cases raw (bodyOffset + 20) (Some 3) ErrBMPPeerUp) as [E|(_ & _ & _ & _ & Hl & _)]; [done|congruence|].
  change bodyOffset with 48 in *. change bmpCommonHeaderLen with 6 in *. settle.
  apply settles_bind; [apply settles_catch; [apply _|intros; apply settles_fail]|intros h _]. settle.
  apply settles_bind; [apply local_address_settles; rewrite len_slice; lia|intros address _]. settle.
  apply settles_bind; [apply take_open_settles|intros [sent rest] _]. settle.
  apply settles_bind; [apply take_open_settles|intros [received info] _].
  apply settles_bind; [settle; apply settles_bind; [apply settles_catch; [apply _|intros; apply settles_fail]|intros c _; settle]|].
  intros _ _. destruct (information_settles ErrBMPPeerUp info) as [Hc Hr].
  apply settles_bind; [done|intros n En]. settle. apply settles_bind; [by eapply Hr|]. intros l _. settle.
Qed.

#[export] Instance decode_peer_up_settles raw b profiles : Settles (DecodeRoutingPeerUp raw b profiles).
Proof.
  unfold DecodeRoutingPeerUp. apply settles_bind; [apply _|intros peer _]. apply settles_bind; [apply _|intros sent _].
  apply settles_bind; [apply _|intros received _]. settle.
Qed.

(** ** Witnesses *)

Definition demo_header : list byte :=
  bytes ([0; 0] ++ replicate 20 0 ++ [10; 0; 0; 2; 0; 0; 253; 233; 10; 0; 0; 2; 101; 0; 0; 0; 0; 0; 0; 9]).

Definition demo_view : BMPRouteViewHeader :=
  mkHeader 0 0 (replicate 8 x00) (Addr4 (bytes [10; 0; 0; 2])) 65001 (Addr4 (bytes [10; 0; 0; 2])) BMPAdjRIBInPrePolicy 4 false
    (Unix 1694498816 9000) true.

Definition demo_peer_up : PeerUpMessage :=
  mkPeerUpMessage demo_header (bytes (replicate 12 0 ++ [10; 0; 0; 1])) 179 40000 (demo_open 1) (demo_open 2)
    [mkInfo 0 (bytes [104; 105]); mkInfo 0 []].

Definition demo_grant : Budget := mkBudget 65536 65536.

Lemma peer_up_exact_witness :
  value (DecodeRoutingPeerUp (peer_up_frame demo_peer_up) demo_grant []) =
  Ok (peer_of demo_peer_up demo_view, [mkFamily 1 1; mkFamily 2 1]).
Proof.
  rewrite (peer_up_exact demo_peer_up demo_view (default emptyCaps (declared (demo_open 1)))
             (default emptyCaps (declared (demo_open 2))) demo_grant).
  - vm_compute. reflexivity.
  - split; [reflexivity|]. split; [vm_compute; reflexivity|]. split; [reflexivity|]. split; [cbn; lia|]. split; [cbn; lia|].
    split; [vm_compute; reflexivity|]. split; [apply demo_open_ok; lia|]. split; [apply demo_open_ok; lia|].
    split; [vm_compute; reflexivity|]. split; [vm_compute; reflexivity|]. split; [|split; [discriminate|vm_compute; reflexivity]].
    apply Forall_cons; split; [by split_and!|]. apply Forall_cons; split; [by split_and!|]. by apply Forall_nil.
  - vm_compute. reflexivity.
Defined.

(** A statistics report of two counters and a Loc-RIB Peer Down. *)
Lemma lifecycle_demo :
  let peer := peer_of demo_peer_up demo_view in
  value (DecodeRoutingLifecycle (statistics_frame demo_header [mkInfo 0 (be_bytes 4 7); mkInfo 7 (be_bytes 8 9)]) peer demo_grant) = Ok false ∧
  value (DecodeRoutingLifecycle (statistics_frame demo_header [mkInfo 7 (be_bytes 4 7)]) peer demo_grant) = Err [ErrBMPSourceRoute] ∧
  value (DecodeRoutingLifecycle (peer_down_frame demo_header (StateMachine 4)) peer demo_grant) = Ok true.
Proof. split_and!; vm_compute; reflexivity. Qed.

End BgpPeer.
