(* ===== verification/BgpChanges.v ===== *)
(** * Routing changes of a monitored peer (internal/bgp/route_extended.go,
      route_source_message.go, route_source_changes.go, bmp_routing_family.go)

    A Route Monitoring message, bound to the Peer Up it belongs to, becomes groups of
    announced and withdrawn prefixes - all of them or none. *)

From S2P Require Import Prelude GoTime FlowModel GoString GoProg BgpBase AsPath BgpPrefix BgpUpdate BgpOpen BgpPeer.
#[local] Open Scope Z_scope.

Module BgpChanges.
Import AsPath BgpPrefix BgpUpdate BgpOpen BgpPeer.

(** ** The UPDATE of a source *)

Definition parseBMPRouteUpdateFrame (raw : list byte) (source : PeerUp) (budget : Budget) : BM UpdateFrame :=
  poll;;
  fail_if (negb (bool_decide (Format (SourceProfile source) = [])) && negb (bool_decide (View (Header source) = BMPLocRIB)))
    ErrRouteCapabilities;;
  let openBytes := len (SentOpen source) + len (ReceivedOpen source) in
  fail_if ((MemoryBytes budget <=? 1024) || (WorkUnits budget <=? 0) ||
           (Z.quot (MemoryBytes budget - 1024) 128 <? openBytes) || (Z.quot (WorkUnits budget) 8 <? openBytes))
    ErrBGPUpdateFrameBudget;;
  let budget := mkBudget (MemoryBytes budget - (openBytes * 128 + 1024)) (WorkUnits budget - openBytes * 8) in
  sent ← parseRouteOpenCapabilities (SentOpen source) [SourceProfile source];
  received ← parseRouteOpenCapabilities (ReceivedOpen source) [SourceProfile source];
  receiver ← receiver_of (SentOpen source) (ReceivedOpen source) (View (Header source)) sent received;
  let maximum := if extended_ receiver then 65535 else 4096 in
  fail_if (maximum <? len raw) ErrBGPUpdateFrame;;
  parseBGPUpdateFrame raw budget.

Record sourceRouteFrame := mkSourceFrame { sf_Header : BMPRouteViewHeader; sf_Update : UpdateFrame }.

Definition parseBMPSourceRoute (raw : list byte) (peer : PeerUp) (budget : Budget) : BM sourceRouteFrame :=
  poll;;
  fail_if ((MemoryBytes budget <=? 512) || (WorkUnits budget <=? 384) || (Z.quot (MemoryBytes budget) 128 <? len raw) ||
           (Z.quot (WorkUnits budget) 8 <? len raw)) ErrBGPUpdateFrameBudget;;
  bmp_frame raw (bodyOffset + bgpHeaderLen + 4) (Some bmpRouteMonitoring) ErrBMPSourceRoute;;
  peer_header ← subslice raw bmpCommonHeaderLen bodyOffset;
  route ← ParseBMPRouteViewHeader peer_header;
  fail_if (negb (sameBMPRoutePeer route (Header peer))) ErrBMPSourceRoute;;
  let source := peer <| Header := route |> in
  body ← subslice raw bodyOffset (len raw);
  update ← parseBMPRouteUpdateFrame body source (mkBudget (MemoryBytes budget - 512) (WorkUnits budget - 384));
  mret (mkSourceFrame route update).

(** ** Changes *)

Record RoutingChangeGroup := mkGroup {
  g_Family : RouteFamily; Announced : list RoutePrefix; Withdrawn : list RoutePrefix; g_NextHops : list Addr;
  g_EndOfRIB : bool }.

(** [rc_Path] is [None] for the zero path of a message that announces nothing. *)
Record RoutingChanges := mkChanges {
  rc_Header : BMPRouteViewHeader; rc_Attributes : list RouteAttribute; rc_Path : option RouteASPath;
  Groups : list RoutingChangeGroup }.

(** The attributes a retained path is made of, in the form the standards give them. *)
Definition attribute_check (a : RouteAttribute) : BM () :=
  let flags := Z.land (Flags a) 0xe0 in
  let n := len (Value a) in
  let t := Type_ a in
  if t =? 1 then
    fail_if (negb (flags =? 0x40) || negb (n =? 1)) ErrBMPRouteChanges;;
    v ← index (Value a) 0;
    fail_if (2 <? v) ErrBMPRouteChanges
  else if t =? 2 then fail_if (negb (flags =? 0x40)) ErrBMPRouteChanges
  else if bool_decide (t ∈ [3; 5]) then fail_if (negb (flags =? 0x40) || negb (n =? 4)) ErrBMPRouteChanges
  else if t =? 6 then fail_if (negb (flags =? 0x40) || negb (n =? 0)) ErrBMPRouteChanges
  else if t =? 4 then fail_if (negb (flags =? 0x80) || negb (n =? 4)) ErrBMPRouteChanges
  else if bool_decide (t ∈ [14; 15]) then fail_if (negb (flags =? 0x80)) ErrBMPRouteChanges
  else if bool_decide (t ∈ [7; 17; 18]) then mret tt
  else fail_if (Z.land (Flags a) 0x80 =? 0) ErrBMPRouteChanges.

(** [seen] are the types of which one attribute was found. *)
Fixpoint validate_loop (seen : list Z) (attributes : list RouteAttribute) : BM () :=
  match attributes with
  | [] => mret tt
  | a :: attributes =>
      seen ← (if bool_decide (Type_ a ∈ [1; 2; 3; 4; 5; 6; 14; 15]) then
                fail_if (bool_decide (Type_ a ∈ seen)) ErrBMPRouteChanges;;
                mret (Type_ a :: seen)
              else mret seen);
      attribute_check a;;
      validate_loop seen attributes
  end.

Definition validateSourceRouteAttributes (attributes : list RouteAttribute) : BM () := validate_loop [] attributes.

Definition sourceHasOrigin (attributes : list RouteAttribute) : bool := existsb (λ a, Type_ a =? 1) attributes.

(** The loop over the attributes for NEXT_HOP; converting a shorter value would panic. *)
Fixpoint legacy_next_hops (attributes : list RouteAttribute) (hops : list Addr) : BM (list Addr) :=
  match attributes with
  | [] => mret hops
  | a :: attributes =>
      if Type_ a =? 3 then v ← subslice (Value a) 0 4; legacy_next_hops attributes [AddrFrom4 v]
      else legacy_next_hops attributes hops
  end.

Definition sourceLegacyRouteChanges (frame : sourceRouteFrame) (peer : PeerUp) (budget : Budget) : BM RoutingChangeGroup :=
  let update := sf_Update frame in
  let family := mkFamily 1 1 in
  if len (WithdrawnIPv4 update) + len (ReachableIPv4 update) =? 0 then mret (mkGroup family [] [] [] false)
  else
    add ← parseBMPRouteAddPath (SentOpen peer) (ReceivedOpen peer) (View (sf_Header frame)) family [SourceProfile peer];
    let profile := mkBudget (Z.quot (MemoryBytes budget) 2) (Z.quot (WorkUnits budget) 2) in
    withdrawn ← ParseBGPRoutePrefixes (WithdrawnIPv4 update) 1 add profile;
    announced ← ParseBGPRoutePrefixes (ReachableIPv4 update) 1 add profile;
    hops ← (if 0 <? len announced then
              hops ← legacy_next_hops (Attributes update) [];
              fail_if (len hops =? 0) ErrBMPRouteChanges;;
              mret hops
            else mret []);
    mret (mkGroup family announced withdrawn hops false).

Definition sourceMultiprotocolChanges (attr : RouteAttribute) (view : BMPRouteView) (peer : PeerUp) (budget : Budget)
    : BM RoutingChangeGroup :=
  fail_if (len (Value attr) <? 3) ErrBMPRouteChanges;;
  afi ← beU16 (Value attr) 0;
  safi ← index (Value attr) 2;
  let family := mkFamily afi safi in
  add ← parseBMPRouteAddPath (SentOpen peer) (ReceivedOpen peer) view family [SourceProfile peer];
  if Type_ attr =? 15 then
    unreach ← parseMPUnreachRoutes (Value attr) add budget;
    fail_if (len (mw_Prefixes unreach) =? 0) ErrBMPRouteChanges;;
    mret (mkGroup family [] (mw_Prefixes unreach) [] false)
  else
    fail_if (len (Value attr) <? 4) ErrBMPRouteChanges;;
    n ← index (Value attr) 3;
    nextAFI ← parseBMPRouteNextHopAFI (SentOpen peer) (ReceivedOpen peer) view family n [SourceProfile peer];
    reach ← parseMPReachRoutes (Value attr) nextAFI add budget;
    fail_if (len (mr_Prefixes reach) =? 0) ErrBMPRouteChanges;;
    mret (mkGroup family (mr_Prefixes reach) [] (NextHops reach) false).

(** The loop over the multiprotocol attributes. *)
Fixpoint multiprotocol_groups (attributes : list RouteAttribute) (view : BMPRouteView) (peer : PeerUp) (part : Budget)
    : BM (list RoutingChangeGroup) :=
  match attributes with
  | [] => mret []
  | a :: attributes =>
      poll;;
      if negb (Type_ a =? 14) && negb (Type_ a =? 15) then multiprotocol_groups attributes view peer part
      else
        group ← sourceMultiprotocolChanges a view peer part;
        groups ← multiprotocol_groups attributes view peer part;
        mret (group :: groups)
  end.

Definition sourceUpdateChanges (frame : sourceRouteFrame) (peer : PeerUp) (part : Budget) : BM RoutingChanges :=
  let attributes := Attributes (sf_Update frame) in
  validateSourceRouteAttributes attributes;;
  legacy ← sourceLegacyRouteChanges frame peer part;
  let groups := if 0 <? len (Announced legacy) + len (Withdrawn legacy) then [legacy] else [] in
  more ← multiprotocol_groups attributes (View (sf_Header frame)) peer part;
  let groups := groups ++ more in
  let announces := existsb (λ g, 0 <? len (Announced g)) groups in
  path ← (if announces then
            fail_if (negb (sourceHasOrigin attributes)) ErrBMPRouteChanges;;
            path ← reconstructRouteASPath attributes (ASNWidth (sf_Header frame)) part;
            mret (Some path)
          else mret None);
  fail_if (len groups =? 0) ErrBMPRouteChanges;;
  poll;;
  mret (mkChanges (sf_Header frame) attributes path groups).

Definition decodeBMPRouteChanges (raw : list byte) (peer : PeerUp) (budget : Budget) : BM RoutingChanges :=
  poll;;
  let weight := len raw + len (SentOpen peer) + len (ReceivedOpen peer) in
  fail_if ((MemoryBytes budget <=? 8192) || (WorkUnits budget <=? 8192) ||
           (Z.quot (MemoryBytes budget - 8192) 512 <? weight) || (Z.quot (WorkUnits budget - 8192) 64 <? weight))
    ErrBGPUpdateFrameBudget;;
  let part := mkBudget (Z.quot (MemoryBytes budget) 4) (Z.quot (WorkUnits budget) 4) in
  frame ← parseBMPSourceRoute raw peer part;
  let update := sf_Update frame in
  if HasEndOfRIB update then
    parseBMPRouteAddPath (SentOpen peer) (ReceivedOpen peer) (View (sf_Header frame)) (EndOfRIB update) [SourceProfile peer];;
    poll;;
    mret (mkChanges (sf_Header frame) (Attributes update) None [mkGroup (EndOfRIB update) [] [] [] true])
  else sourceUpdateChanges frame peer part.

Definition DecodeRoutingChanges (raw : list byte) (peer : PeerUp) (budget : Budget) : BM RoutingChanges :=
  decodeBMPRouteChanges raw peer budget.

(** ** Dispatch by family *)

Definition routingAFIBit (family safi : Z) : BM Z :=
  fail_if ((family <? 1) || (2 <? family) || negb (safi =? 1)) ErrRouteCapabilities;;
  mret (Z.shiftl 1 (family - 1)).

Fixpoint mask_loop (mask : Z) (attributes : list RouteAttribute) : BM Z :=
  match attributes with
  | [] => mret mask
  | a :: attributes =>
      poll;;
      if negb (Type_ a =? 14) && negb (Type_ a =? 15) then mask_loop mask attributes
      else
        fail_if (len (Value a) <? 3) ErrBGPUpdateFrame;;
        afi ← beU16 (Value a) 0;
        safi ← index (Value a) 2;
        bit ← routingAFIBit afi safi;
        mask_loop (Z.lor mask bit) attributes
  end.

Definition parseRoutingMessageFamilyMask (raw : list byte) (budget : Budget) : BM Z :=
  poll;;
  fail_if (over budget (len raw) 128 8) ErrBGPUpdateFrameBudget;;
  bmp_frame raw bodyOffset (Some bmpRouteMonitoring) ErrBGPUpdateFrame;;
  peer_header ← subslice raw bmpCommonHeaderLen bodyOffset;
  ParseBMPRouteViewHeader peer_header;;
  body ← subslice raw bodyOffset (len raw);
  frame ← parseBGPUpdateFrame body budget;
  let mask := if (0 <? len (WithdrawnIPv4 frame)) || (0 <? len (ReachableIPv4 frame)) then 1 else 0 in
  mask ← (if HasEndOfRIB frame then
            bit ← routingAFIBit (AFI (EndOfRIB frame)) (SAFI (EndOfRIB frame));
            mret (Z.lor mask bit)
          else mret mask);
  mask_loop mask (Attributes frame).

(** ** Totality and cancellation *)

#[export] Instance route_update_settles raw source b : Settles (parseBMPRouteUpdateFrame raw source b).
Proof.
  unfold parseBMPRouteUpdateFrame. settle. apply settles_bind; [apply _|intros sent _].
  apply settles_bind; [apply _|intros received _].
  apply settles_bind; [destruct (View (Header source)); cbn [receiver_of]; settle|intros receiver _].
  apply settles_guard; intros _. apply update_settles.
Qed.

(** The least length of a frame, once its checks have passed. *)
Lemma bmp_frame_length raw m k e : bmpCommonHeaderLen ≤ m → value (bmp_frame raw m k e) = Ok tt → m ≤ len raw.
Proof. intros Hm E. destruct (bmp_frame_cases raw m k e Hm) as [E'|(_ & _ & _ & _ & Hl & _)]; [congruence|lia]. Qed.

#[export] Instance source_route_settles raw peer b : Settles (parseBMPSourceRoute raw peer b).
Proof.
  unfold parseBMPSourceRoute. settle. apply settles_bind; [by apply bmp_frame_settles|intros [] Hf].
  apply bmp_frame_length in Hf; [|done]. change (bodyOffset + bgpHeaderLen + 4) with 71 in Hf.
  change bodyOffset with 48. change bmpCommonHeaderLen with 6. settle.
  apply settles_bind; [apply _|intros route _]. settle. apply settles_bind; [apply _|intros update _]. settle.
Qed.

Lemma settles_fail_if (b : bool) (s : bgp_err) : Settles (fail_if b s).
Proof. destruct b; [apply settles_fail|apply (settles_ret tt)]. Qed.

Lemma attribute_check_settles a : Settles (attribute_check a).
Proof.
  unfold attribute_check. repeat (apply settles_if; intros ?); settle; try apply settles_fail_if.
Qed.

Lemma validate_settles seen l : Settles (validate_loop seen l).
Proof.
  revert seen. induction l as [|a l IH]; intros seen; cbn [validate_loop]; settle.
  apply settles_bind; [settle|intros seen' _]. apply settles_bind; [apply attribute_check_settles|intros _ _]. apply IH.
Qed.

(** Validated attributes: a NEXT_HOP has four bytes. *)
Lemma validate_next_hop seen l : value (validate_loop seen l) = Ok tt → Forall (λ a, Type_ a = 3 → len (Value a) = 4) l.
Proof.
  revert seen. induction l as [|a l IH]; intros seen; [by constructor|]. cbn [validate_loop]. intros H.
  apply bind_Ok in H as (seen' & _ & H). apply bind_Ok in H as ([] & Ha & H). constructor; [|by eapply IH].
  intros E3. unfold attribute_check in Ha. rewrite E3 in Ha. cbn [Z.eqb Pos.eqb] in Ha.
  rewrite bool_decide_eq_true_2 in Ha by set_solver. destruct (_ || _) eqn:E in Ha; [done|].
  rewrite orb_false_iff, !negb_false_iff, !Z.eqb_eq in E. lia.
Qed.

Lemma legacy_next_hops_settle l hops : Forall (λ a, Type_ a = 3 → len (Value a) = 4) l → Settles (legacy_next_hops l hops).
Proof.
  intros Hl. revert hops. induction Hl as [|a l Ha Hl IH]; intros hops; cbn [legacy_next_hops]; [settle|].
  apply settles_if; intros E; zbool; [|apply IH]. apply settles_subslice; [lia|lia|rewrite Ha; lia|apply IH].
Qed.

Lemma legacy_settles frame peer b :
  Forall (λ a, Type_ a = 3 → len (Value a) = 4) (Attributes (sf_Update frame)) → Settles (sourceLegacyRouteChanges frame peer b).
Proof.
  intros Ha. unfold sourceLegacyRouteChanges. settle. apply settles_bind; [apply _|intros add _].
  apply settles_bind; [apply _|intros withdrawn _]. apply settles_bind; [apply _|intros announced _].
  apply settles_bind; [settle|intros hops _; settle].
  apply settles_bind; [by apply legacy_next_hops_settle|intros hops _]. settle.
Qed.

#[export] Instance multiprotocol_settles a view peer b : Settles (sourceMultiprotocolChanges a view peer b).
Proof.
  unfold sourceMultiprotocolChanges. settle. apply settles_bind; [apply _|intros add _]. settle.
  - apply settles_bind; [apply _|intros w _]. settle.
  - apply settles_bind; [apply _|intros nh _]. apply settles_bind; [apply _|intros m _]. settle.
Qed.

#[export] Instance multiprotocol_groups_settle l view peer b : Settles (multiprotocol_groups l view peer b).
Proof.
  induction l as [|a l IH]; cbn [multiprotocol_groups]; settle; [apply IH|].
  apply settles_bind; [apply _|intros g _]. apply settles_bind; [apply IH|intros gs _]. settle.
Qed.

Lemma update_changes_settles frame peer b : budget_ok b → Settles (sourceUpdateChanges frame peer b).
Proof.
  intros Hb. unfold sourceUpdateChanges. apply settles_bind; [apply validate_settles|intros [] Hv].
  apply validate_next_hop in Hv. apply settles_bind; [by apply legacy_settles|intros legacy _].
  apply settles_bind; [apply _|intros more _]. apply settles_bind; [|intros path _; settle].
  settle. apply settles_bind; [by apply route_path_settles|intros path _]. settle.
Qed.

#[export] Instance changes_settle raw peer b : budget_ok b → Settles (DecodeRoutingChanges raw peer b).
Proof.
  intros [Hm Hw]. unfold DecodeRoutingChanges, decodeBMPRouteChanges. settle. apply settles_bind; [apply _|intros frame _].
  apply settles_if; intros _.
  - apply settles_bind; [apply _|intros add _]. settle.
  - apply update_changes_settles.
    split; cbn [MemoryBytes WorkUnits]; rewrite Z.quot_div_nonneg by lia; apply Z.div_lt_upper_bound; lia.
Qed.

#[local] Hint Resolve polls_add_path polls_next_hop_afi polls_open polls_view_header polls_bmp_frame : polls.

Lemma polls_route_update raw source b : polls from_ctx (parseBMPRouteUpdateFrame raw source b).
Proof. unfold parseBMPRouteUpdateFrame, receiver_of. polls_tac; apply polls_update. Qed.

Lemma polls_source_route raw peer b : polls from_ctx (parseBMPSourceRoute raw peer b).
Proof. unfold parseBMPSourceRoute. polls_tac. apply polls_route_update. Qed.

Lemma polls_bare {A} (p : BM A) : polls bare p → polls from_ctx p.
Proof. apply polls_mono, bare_from_ctx. Qed.

Lemma polls_validate P seen l : polls P (validate_loop seen l).
Proof. revert seen. induction l; intros seen; cbn [validate_loop]; unfold attribute_check; polls_tac. Qed.

Lemma polls_legacy_next_hops P l hops : polls P (legacy_next_hops l hops).
Proof. revert hops. induction l; intros hops; cbn [legacy_next_hops]; polls_tac. Qed.

Lemma polls_legacy frame peer b : polls from_ctx (sourceLegacyRouteChanges frame peer b).
Proof.
  unfold sourceLegacyRouteChanges. polls_tac; first [apply polls_bare, polls_prefixes|apply polls_legacy_next_hops].
Qed.

Lemma polls_groups l view peer b : polls from_ctx (multiprotocol_groups l view peer b).
Proof.
  induction l; cbn [multiprotocol_groups]; [done|]. unfold sourceMultiprotocolChanges.
  polls_tac; first [apply polls_unreach|apply polls_reach].
Qed.

#[export] Instance changes_cancel raw peer b : Cancels (DecodeRoutingChanges raw peer b).
Proof.
  apply polls_cancels. unfold DecodeRoutingChanges, decodeBMPRouteChanges, sourceUpdateChanges, validateSourceRouteAttributes.
  polls_tac; first [apply polls_source_route|apply polls_validate|apply polls_legacy|apply polls_groups|apply polls_bare, polls_route_path].
Qed.

(** Decoding a Route Monitoring message always ends, and ends whole: for every byte
    string, every retained peer, every budget and every context, the decoder returns
    changes or an error - no panic, no endless loop - and a context that is done at any of
    its polls only ever replaces the result by an error that carries the context's own; the
    changes returned are those of an uninterrupted run. *)
Theorem changes_total (raw : list byte) (peer : PeerUp) (b : Budget) (ctx : Context_) (n : nat) :
  budget_ok b →
  let r := run ctx n (DecodeRoutingChanges raw peer b) in
  (∃ out, r = Ok out ∧ value (DecodeRoutingChanges raw peer b) = Ok out) ∨
  (∃ e, r = Err e ∧ (value (DecodeRoutingChanges raw peer b) = Err e ∨ from_ctx e)).
Proof.
  intros Hb r. unfold r. destruct (changes_cancel raw peer b ctx n) as [->|(e & -> & He)]; [|right; eauto].
  destruct (changes_settle raw peer b Hb) as [[out E]|[e E]]; rewrite E; [left|right]; eauto.
Qed.

(** ** What accepted changes are *)

Definition part_of (b : Budget) : Budget := mkBudget (Z.quot (MemoryBytes b) 4) (Z.quot (WorkUnits b) 4).

(** Whether the two OPENs of the peer settle on path identifiers for the family. *)
Definition negotiated (peer : PeerUp) (view : BMPRouteView) (f : RouteFamily) (add : bool) : Prop :=
  value (parseBMPRouteAddPath (SentOpen peer) (ReceivedOpen peer) view f [SourceProfile peer]) = Ok add.

(** The per-peer header and the UPDATE of a message of the peer. *)
Definition message_of (raw : list byte) (peer : PeerUp) (h : BMPRouteViewHeader) (f : UpdateFrame) : Prop :=
  ∃ hdr upd, raw = common 0 (hdr ++ upd) ∧ length hdr = 42%nat ∧ len raw < 2 ^ 32 ∧
    value (ParseBMPRouteViewHeader hdr) = Ok h ∧ same_peer h (Header peer) ∧ encodes f upd.

(** A group of routes: unicast, in the negotiated encoding, with next hops if announced. *)
Definition group_ok (peer : PeerUp) (view : BMPRouteView) (g : RoutingChangeGroup) : Prop :=
  g_EndOfRIB g = false ∧ unicast (g_Family g) ∧ (Announced g ≠ [] ∨ Withdrawn g ≠ []) ∧
  (Announced g ≠ [] → g_NextHops g ≠ []) ∧
  ∃ add, negotiated peer view (g_Family g) add ∧
    Forall (prefix_ok (AFI (g_Family g)) add) (Announced g ++ Withdrawn g).

Definition multiprotocol (a : RouteAttribute) : Prop := Type_ a = 14 ∨ Type_ a = 15.

#[export] Instance multiprotocol_dec a : Decision (multiprotocol a).
Proof. apply _. Defined.

(** The group of a multiprotocol attribute. *)
Definition group_for (a : RouteAttribute) (g : RoutingChangeGroup) : Prop :=
  g_Family g = family_of (Value a) ∧ 3 ≤ len (Value a) ∧ if Type_ a =? 15 then Announced g = [] else Withdrawn g = [].

Lemma source_route_sound raw peer b sf :
  value (parseBMPSourceRoute raw peer b) = Ok sf → message_of raw peer (sf_Header sf) (sf_Update sf).
Proof.
  intros H. unfold parseBMPSourceRoute in H. run_guards H. apply bind_Ok in H as ([] & Ef & H).
  destruct (bmp_frame_cases raw (bodyOffset + bgpHeaderLen + 4) (Some bmpRouteMonitoring) ErrBMPSourceRoute)
    as [E|(kind & body & E & _ & Hl & Hk & _)]; [done|congruence|]. destruct Hk as [?|[= <-]]; [done|].
  change bmpRouteMonitoring with 0 in E. destruct (body_split 0 body 23) as (hdr & upd & -> & Hh & Hu); [lia|rewrite <- E; apply Hl|].
  run_guards H. apply bind_Ok in H as (route & Er & H). run_guards H. apply bind_Ok in H as (f & Eu & H). injection H as <-.
  cbn [sf_Header sf_Update]. destruct (frame_header 0 hdr upd) as (Hlen & Fh & Fs); [lia|done|]. rewrite <- E in Hlen, Fh, Fs.
  exists hdr, upd. rewrite Fh in Er. split_and!; [done|done|lia|done|by apply same_peer_spec, negb_false_iff|].
  unfold parseBMPRouteUpdateFrame in Eu. run_guards Eu. apply bind_Ok in Eu as (sent & _ & Eu).
  apply bind_Ok in Eu as (received & _ & Eu). apply bind_Ok in Eu as (receiver & _ & Eu). apply guard_Ok in Eu as [_ Eu].
  apply update_cases in Eu as [_ Eu]. rewrite Hlen in Eu.
  replace (slice raw bodyOffset (bodyOffset + len upd)) with upd in Eu; [done|].
  rewrite <- (slice_full upd) at 1. rewrite <- (Fs 0 (len upd)) by (pose proof (len_nonneg upd); lia). f_equal; lia.
Qed.

Lemma multiprotocol_sound a view peer b g :
  multiprotocol a → value (sourceMultiprotocolChanges a view peer b) = Ok g → group_ok peer view g ∧ group_for a g.
Proof.
  intros Ha H. unfold sourceMultiprotocolChanges in H. run_guards H. apply bind_Ok in H as (add & Ea & H).
  unfold group_for. destruct (Type_ a =? 15) eqn:E15.
  - apply bind_Ok in H as (w & Ew & H). run_guards H. injection H as <-. apply unreach_sound in Ew as (H3 & _ & Hu & Hp).
    split; [|by split_and!]. split_and!; [done|done| |done|by exists add]. right. cbn. intros E. rewrite E in *. done.
  - run_guards H. apply bind_Ok in H as (nh & _ & H). apply bind_Ok in H as (m & Em & H). run_guards H. injection H as <-.
    apply reach_sound in Em as (H3 & _ & Hu & Hn & Hp). split; [|by split_and!].
    split_and!; [done|done| |done|exists add; cbn; by rewrite app_nil_r]. left. cbn. intros E. rewrite E in *. done.
Qed.

Lemma groups_sound l view peer b gs :
  value (multiprotocol_groups l view peer b) = Ok gs →
  Forall (group_ok peer view) gs ∧ Forall2 group_for (filter multiprotocol l) gs.
Proof.
  revert gs. induction l as [|a l IH]; intros gs H; cbn [multiprotocol_groups] in H; [injection H as <-; by split|].
  run_guards H. destruct (negb (Type_ a =? 14) && negb (Type_ a =? 15)) eqn:E.
  - apply andb_true_iff in E as [E1 E2]. apply negb_true_iff, Z.eqb_neq in E1, E2.
    rewrite filter_cons_False by (intros [?|?]; lia). by apply IH.
  - assert (multiprotocol a) as Ha by (apply andb_false_iff in E as [E|E]; apply negb_false_iff, Z.eqb_eq in E; unfold multiprotocol; auto).
    rewrite filter_cons_True by done. apply bind_Ok in H as (g & Eg & H). apply bind_Ok in H as (gs' & Egs & H). injection H as <-.
    apply IH in Egs as [H1 H2]. apply multiprotocol_sound in Eg as [H3 H4]; [|done]. split; by constructor.
Qed.

(** The group of the IPv4 regions of an UPDATE, if they hold anything. *)
Definition legacy_for (f : UpdateFrame) (g : RoutingChangeGroup) : Prop :=
  g_Family g = mkFamily 1 1 ∧ (Announced g = [] ↔ ReachableIPv4 f = []) ∧ (Withdrawn g = [] ↔ WithdrawnIPv4 f = []).

Lemma len_nil {A} (l : list A) : len l = 0 ↔ l = [].
Proof. destruct l; [done|]. rewrite len_cons. pose proof (len_nonneg l). split; [lia|done]. Qed.

Lemma legacy_sound frame peer b g :
  value (sourceLegacyRouteChanges frame peer b) = Ok g →
  legacy_for (sf_Update frame) g ∧ (Announced g ≠ [] ∨ Withdrawn g ≠ [] → group_ok peer (View (sf_Header frame)) g).
Proof.
  unfold sourceLegacyRouteChanges. set (u := sf_Update frame). cbv zeta. intros H.
  pose proof (len_nonneg (WithdrawnIPv4 u)). pose proof (len_nonneg (ReachableIPv4 u)).
  destruct (_ =? 0) eqn:E0 in H; zbool.
  { injection H as <-. split; [|by intros [?|?]]. assert (len (ReachableIPv4 u) = 0 ∧ len (WithdrawnIPv4 u) = 0) as [L1 L2] by lia.
    apply len_nil in L1, L2. split_and!; done. }
  apply bind_Ok in H as (add & Ea & H). apply bind_Ok in H as (w & Ew & H). apply bind_Ok in H as (ann & En & H).
  apply bind_Ok in H as (hops & Eh & H). injection H as <-.
  apply prefixes_sound in Ew as [Hw Hw0]; [|by left]. apply prefixes_sound in En as [Hn Hn0]; [|by left].
  split; [by split_and!|]. intros Hne. split_and!; [done|split; [done|by left]|done| |].
  - cbn. intros Ha. destruct (0 <? len ann) eqn:E; zbool; [|exfalso; apply Ha, len_nil; pose proof (len_nonneg ann); lia].
    apply bind_Ok in Eh as (hs & _ & Eh). run_guards Eh. injection Eh as <-. intros ->. done.
  - exists add. split; [done|]. by apply Forall_app.
Qed.

Definition announces (gs : list RoutingChangeGroup) : bool := existsb (λ g, 0 <? len (Announced g)) gs.

(** The groups of an UPDATE with routes: one for its IPv4 regions if they hold any, one for
    each multiprotocol attribute in order. *)
Definition groups_for (f : UpdateFrame) (gs : list RoutingChangeGroup) : Prop :=
  ∃ legacy more, gs = legacy ++ more ∧ Forall2 group_for (filter multiprotocol (Attributes f)) more ∧
    (if bool_decide (WithdrawnIPv4 f = []) && bool_decide (ReachableIPv4 f = []) then legacy = []
     else ∃ g, legacy = [g] ∧ legacy_for f g).

Definition path_for (h : BMPRouteViewHeader) (l : list RouteAttribute) (part : Budget) (gs : list RoutingChangeGroup)
    (p : option RouteASPath) : Prop :=
  if announces gs then sourceHasOrigin l = true ∧ ∃ path, p = Some path ∧ value (reconstructRouteASPath l (ASNWidth h) part) = Ok path
  else p = None.

Lemma update_changes_sound frame peer part out :
  value (sourceUpdateChanges frame peer part) = Ok out →
  let f := sf_Update frame in
  rc_Header out = sf_Header frame ∧ rc_Attributes out = Attributes f ∧ Groups out ≠ [] ∧
  Forall (group_ok peer (View (sf_Header frame))) (Groups out) ∧ groups_for f (Groups out) ∧
  path_for (sf_Header frame) (Attributes f) part (Groups out) (rc_Path out).
Proof.
  intros H f. unfold sourceUpdateChanges in H. apply bind_Ok in H as ([] & _ & H). apply bind_Ok in H as (g & Eg & H).
  apply bind_Ok in H as (more & Em & H). apply bind_Ok in H as (path & Ep & H). run_guards H. injection H as <-.
  cbn [rc_Header rc_Attributes Groups rc_Path]. apply legacy_sound in Eg as [Hleg Hgok]. apply groups_sound in Em as [Hok Hfor].
  set (legacy := if 0 <? len (Announced g) + len (Withdrawn g) then [g] else []) in *.
  pose proof (len_nonneg (Announced g)). pose proof (len_nonneg (Withdrawn g)).
  assert (Hl : (if bool_decide (WithdrawnIPv4 f = []) && bool_decide (ReachableIPv4 f = []) then legacy = []
                else ∃ g, legacy = [g] ∧ legacy_for f g) ∧ Forall (group_ok peer (View (sf_Header frame))) legacy).
  { unfold legacy. destruct Hleg as (Hf & Ha & Hw). fold f in Ha, Hw. destruct (0 <? _) eqn:E; zbool.
    - assert (Announced g ≠ [] ∨ Withdrawn g ≠ []) as Hne.
      { destruct (decide (Announced g = [])) as [E1|]; [|by left]. right. intros E2. rewrite E1, E2 in E. unfold len in E. cbn in E. lia. }
      split; [|constructor; [by apply Hgok|done]]. replace (_ && _) with false; [exists g; by split_and!|].
      symmetry. apply andb_false_iff. rewrite !bool_decide_eq_false. rewrite Ha, Hw in Hne. tauto.
    - assert (len (Announced g) = 0 ∧ len (Withdrawn g) = 0) as [E1 E2] by lia. apply len_nil in E1, E2.
      apply Ha in E1. apply Hw in E2. rewrite !bool_decide_eq_true_2 by done. by split. }
  destruct Hl as [Hl Hlok]. split_and!; [done|done| | | |].
  - intros E. rewrite E in *. done.
  - by apply Forall_app.
  - by exists legacy, more.
  - unfold path_for. fold (announces (legacy ++ more)) in Ep. destruct (announces _).
    + run_guards Ep. apply bind_Ok in Ep as (p & Ep & Ex). injection Ex as <-. apply negb_false_iff in G0. split; [done|]. by exists p.
    + by injection Ep as <-.
Qed.

Definition end_of_rib (f : RouteFamily) : RoutingChangeGroup := mkGroup f [] [] [] true.

(** The changes [out] are those of the message [f]. *)
Definition changes_for (peer : PeerUp) (b : Budget) (f : UpdateFrame) (out : RoutingChanges) : Prop :=
  let view := View (rc_Header out) in
  rc_Attributes out = Attributes f ∧
  if HasEndOfRIB f then
    Groups out = [end_of_rib (EndOfRIB f)] ∧ rc_Path out = None ∧ ∃ add, negotiated peer view (EndOfRIB f) add
  else
    Groups out ≠ [] ∧ Forall (group_ok peer view) (Groups out) ∧ groups_for f (Groups out) ∧
    path_for (rc_Header out) (Attributes f) (part_of b) (Groups out) (rc_Path out).

Lemma changes_sound raw peer b out :
  value (DecodeRoutingChanges raw peer b) = Ok out → ∃ f, message_of raw peer (rc_Header out) f ∧ changes_for peer b f out.
Proof.
  intros H. unfold DecodeRoutingChanges, decodeBMPRouteChanges in H. run_guards H. apply bind_Ok in H as (sf & Es & H).
  apply source_route_sound in Es. exists (sf_Update sf). unfold changes_for. destruct (HasEndOfRIB (sf_Update sf)).
  - apply bind_Ok in H as (add & Ea & H). run_guards H. injection H as <-. split; [done|]. split_and!; try done. by exists add.
  - apply update_changes_sound in H as (E1 & E2 & H). rewrite E1 in *. by split_and!; try apply H.
Qed.

(** C28. Routing changes are bound to their source and complete: whatever the context does,
    changes are only returned for a complete Route Monitoring frame of the retained peer
    (same type, distinguisher, address, ASN and identifier) whose UPDATE re-encodes to the
    very bytes received; they are either the End-of-RIB marker of a family both OPENs
    declare, or one group for the IPv4 regions if they hold anything and one for each
    multiprotocol attribute in order, none of them empty, each of a unicast family, with
    canonical prefixes that carry path identifiers exactly as negotiated and with next hops
    when something is announced; an announcement has an ORIGIN and the AS path
    reconstructed from the attributes at the view's ASN width. *)
Theorem changes_source_bound (raw : list byte) (peer : PeerUp) (b : Budget) (ctx : Context_) (n : nat) out :
  run ctx n (DecodeRoutingChanges raw peer b) = Ok out →
  ∃ f, message_of raw peer (rc_Header out) f ∧ changes_for peer b f out.
Proof.
  intros H. apply changes_sound. destruct (changes_cancel raw peer b ctx n) as [E|(e & E & _)]; congruence.
Qed.

(** ** Dispatch agrees with decoding *)

#[export] Instance unicast_dec f : Decision (unicast f).
Proof. apply _. Defined.

Definition family_bit (f : RouteFamily) : Z := Z.shiftl 1 (AFI f - 1).

(** The families of the groups, as a mask. *)
Definition mask_of (gs : list RoutingChangeGroup) : Z := foldl (λ m g, Z.lor m (family_bit (g_Family g))) 0 gs.

Lemma afi_bit_ok f : unicast f → value (routingAFIBit (AFI f) (SAFI f)) = Ok (family_bit f).
Proof. intros [Hs Ha]. unfold routingAFIBit, family_bit. rewrite Hs. by destruct Ha as [-> | ->]. Qed.

Lemma afi_bit_refused f : ¬ unicast f → value (routingAFIBit (AFI f) (SAFI f)) = Err [ErrRouteCapabilities].
Proof.
  intros Hn. unfold routingAFIBit. destruct (_ || _) eqn:E; [done|]. exfalso. apply Hn.
  rewrite !orb_false_iff, negb_false_iff, Z.eqb_eq, !Z.ltb_ge in E. split; [lia|]. lia.
Qed.

Lemma mask_loop_ok m l gs :
  Forall2 group_for (filter multiprotocol l) gs → Forall (λ g, unicast (g_Family g)) gs →
  value (mask_loop m l) = Ok (foldl (λ m g, Z.lor m (family_bit (g_Family g))) m gs).
Proof.
  revert m gs. induction l as [|a l IH]; intros m gs Hf Hu; cbn [mask_loop]; [by apply Forall2_nil_inv_l in Hf as ->|].
  prog_simpl. destruct (negb (Type_ a =? 14) && negb (Type_ a =? 15)) eqn:E.
  - apply andb_true_iff in E as [E1 E2]. apply negb_true_iff, Z.eqb_neq in E1, E2.
    rewrite filter_cons_False in Hf by (intros [?|?]; lia). by apply IH.
  - assert (multiprotocol a) as Ha by (apply andb_false_iff in E as [E|E]; apply negb_false_iff, Z.eqb_eq in E; unfold multiprotocol; auto).
    rewrite filter_cons_True in Hf by done. apply Forall2_cons_inv_l in Hf as (g & gs' & (Hg & H3 & _) & Hf & ->).
    apply Forall_cons in Hu as [Hu Hu']. ltb_false. prog_reads lia. rewrite Hg in Hu.
    rewrite (afi_bit_ok (family_of (Value a)) Hu : value (routingAFIBit (be_uint _) (at_ _ _)) = _). cbn [obind foldl]. rewrite Hg.
    by apply IH.
Qed.

(** The mask, once the message has been read. *)
Definition frame_mask (f : UpdateFrame) : BM Z :=
  let mask := if (0 <? len (WithdrawnIPv4 f)) || (0 <? len (ReachableIPv4 f)) then 1 else 0 in
  mask ← (if HasEndOfRIB f then
            bit ← routingAFIBit (AFI (EndOfRIB f)) (SAFI (EndOfRIB f));
            mret (Z.lor mask bit)
          else mret mask);
  mask_loop mask (Attributes f).

Lemma mask_value raw peer h f b :
  message_of raw peer h f → over b (len raw) 128 8 = false →
  value (parseRoutingMessageFamilyMask raw b) = value (frame_mask f).
Proof.
  intros (hdr & upd & E & Hh & Hmax & Hp & _ & He) Hb. destruct (frame_header 0 hdr upd) as (Hlen & Fh & Fs); [lia|done|].
  rewrite <- E in Hlen, Fh, Fs. pose proof (len_nonneg upd). unfold parseRoutingMessageFamilyMask. prog_simpl. rewrite Hb.
  rewrite E at 1. rewrite bmp_frame_ok; [|done|by rewrite <- E|rewrite <- E; lia|by right]. cbn [obind].
  change bodyOffset with 48 in *. change bmpCommonHeaderLen with 6 in *. prog_reads lia. rewrite Fh, Hp. prog_reads lia.
  replace (slice raw 48 (len raw)) with upd.
  2: { rewrite Hlen, (Fs 0 (len upd) ltac:(lia) ltac:(lia) ltac:(lia) : slice raw 48 (48 + len upd) = _). symmetry. apply slice_full. }
  rewrite (update_encodes f) by (done || (apply over_false in Hb; [|lia..]; apply over_false; [lia..|]; split_and!; lia)).
  cbn [obind]. unfold frame_mask. prog_simpl. done.
Qed.

Lemma frame_mask_routes f gs :
  HasEndOfRIB f = false → groups_for f gs → Forall (λ g, unicast (g_Family g)) gs → value (frame_mask f) = Ok (mask_of gs).
Proof.
  intros He (legacy & more & -> & Hf & Hl) Hu. unfold frame_mask, mask_of. rewrite He. prog_simpl. rewrite foldl_app.
  apply Forall_app in Hu as [Hu1 Hu2].
  replace (if _ || _ then 1 else 0) with (foldl (λ m g, Z.lor m (family_bit (g_Family g))) 0 legacy); [by apply mask_loop_ok|].
  pose proof (len_nonneg (WithdrawnIPv4 f)). pose proof (len_nonneg (ReachableIPv4 f)).
  destruct (bool_decide (WithdrawnIPv4 f = []) && bool_decide (ReachableIPv4 f = [])) eqn:E.
  - apply andb_true_iff in E as [E1 E2]. apply bool_decide_eq_true in E1, E2. rewrite Hl, E1, E2. done.
  - destruct Hl as (g & -> & Hg & _). cbn [foldl]. rewrite Hg. replace (_ || _) with true; [done|]. symmetry. apply orb_true_iff.
    rewrite !Z.ltb_lt. apply andb_false_iff in E as [E|E]; apply bool_decide_eq_false in E; [left|right];
      match goal with |- 0 < ?n => destruct (Z.eq_dec n 0) as [Ez|]; [by apply len_nil in Ez|lia] end.
Qed.

Lemma frame_mask_marker f :
  eor_of (WithdrawnIPv4 f) (ReachableIPv4 f) (Attributes f) = Some (EndOfRIB f, true) → HasEndOfRIB f = true →
  value (frame_mask f) =
  if bool_decide (unicast (EndOfRIB f)) then Ok (family_bit (EndOfRIB f)) else Err [ErrRouteCapabilities].
Proof.
  intros E He. unfold frame_mask. rewrite He. prog_simpl. case_bool_decide as Hu.
  2: { by rewrite afi_bit_refused. }
  rewrite afi_bit_ok by done. cbn [obind]. unfold eor_of in E.
  destruct (WithdrawnIPv4 f) as [|? ?], (ReachableIPv4 f) as [|? ?], (Attributes f) as [|a [|a' rest]]; try done.
  destruct (Type_ a =? 15) eqn:E15; cbn [negb] in E; [|done]. zbool. destruct (_ || _) in E; [done|].
  destruct (Value a) as [|x [|y [|z [|]]]] eqn:Ev; try done. injection E as Ef. cbn [mask_loop]. rewrite E15.
  cbn [Z.eqb Pos.eqb negb andb]. rewrite Ev. prog_simpl. change (len [x; y; z] <? 3) with false.
  prog_reads ltac:(unfold len; cbn; lia).
  change (be_uint (slice [x; y; z] 0 (0 + 2))) with (AFI (mkFamily (be_uint [x; y]) (byteZ z))).
  change (at_ [x; y; z] 2) with (SAFI (mkFamily (be_uint [x; y]) (byteZ z))). rewrite Ef, afi_bit_ok by done. cbn [obind].
  change (len (@nil byte)) with 0. cbn [Z.ltb Z.compare orb]. rewrite Z.lor_0_l. by rewrite Z.lor_diag.
Qed.

(** Messages are dispatched to the families they change: whenever decoding accepts a
    message under a budget, the family mask computed from the same bytes under that budget
    names exactly the families of the decoded groups, so no cohort misses a change and none
    gets a message without one for it; the only accepted messages without a mask are
    End-of-RIB markers of families other than IPv4 and IPv6 unicast. *)
Theorem dispatch_agrees (raw : list byte) (peer : PeerUp) (b : Budget) out :
  value (DecodeRoutingChanges raw peer b) = Ok out →
  value (parseRoutingMessageFamilyMask raw b) =
    if bool_decide (Forall (λ g, unicast (g_Family g)) (Groups out)) then Ok (mask_of (Groups out))
    else Err [ErrRouteCapabilities].
Proof.
  intros H. assert (Hb : over b (len raw) 128 8 = false).
  { unfold DecodeRoutingChanges, decodeBMPRouteChanges in H. run_guards H. rewrite !orb_false_iff, !Z.leb_gt, !Z.ltb_ge in G.
    pose proof (len_nonneg raw). pose proof (len_nonneg (SentOpen peer)). pose proof (len_nonneg (ReceivedOpen peer)).
    destruct G as (((G1 & G2) & G3) & G4). apply quot_ge in G3, G4; [|lia..]. apply over_false; [lia..|]. split_and!; lia. }
  destruct (changes_sound raw peer b out H) as (f & Hm & _ & Hc). rewrite (mask_value raw peer _ f) by done.
  destruct (HasEndOfRIB f) eqn:He.
  - destruct Hc as (-> & _ & _). destruct Hm as (_ & _ & _ & _ & _ & _ & _ & _ & _ & _ & Heor). rewrite He in Heor.
    rewrite frame_mask_marker by done. cbn [end_of_rib g_Family].
    erewrite (bool_decide_ext (Forall _ _) (unicast (EndOfRIB f))); [done|]. rewrite Forall_singleton. done.
  - destruct Hc as (_ & Hg & Hf & _). assert (Forall (λ g, unicast (g_Family g)) (Groups out)) as Hu.
    { eapply Forall_impl; [exact Hg|]. by intros g (_ & ? & _). }
    rewrite bool_decide_eq_true_2 by done. by apply frame_mask_routes.
Qed.

(** ** Witnesses *)

(** An UPDATE that announces 10.0.0.0/9 with path identifier 7 and withdraws 2001:db8::/32. *)
Definition demo_attributes : list RouteAttribute :=
  [mkAttr 0x40 1 (bytes [0]); mkAttr 0x40 2 (encodePath 4 demo_path); mkAttr 0x40 3 (bytes [10; 0; 0; 2]);
   mkAttr 0x80 15 (bytes [0; 2; 1; 32; 32; 1; 13; 184])].

Definition demo_message : list byte :=
  common 0 (demo_header ++ framed [] (encodeAttrs demo_attributes) (bytes [0; 0; 0; 7; 9; 10; 0])).

Definition demo_peer : PeerUp := peer_of demo_peer_up demo_view.
Definition demo_allowance : Budget := mkBudget 1000000 1000000.

Definition demo_changes : RoutingChanges :=
  mkChanges demo_view demo_attributes (Some (mkRoutePath (mkReconstruction demo_path Absent false) []))
    [mkGroup (mkFamily 1 1) [demo_route] [] [Addr4 (bytes [10; 0; 0; 2])] false;
     mkGroup (mkFamily 2 1) []
       [mkRoute (mkPrefix (Addr16 (bytes [32; 1; 13; 184; 0; 0; 0; 0; 0; 0; 0; 0; 0; 0; 0; 0])) 32) 0 false] [] false].

Lemma demo_decodes : value (DecodeRoutingChanges demo_message demo_peer demo_allowance) = Ok demo_changes.
Proof. vm_compute. reflexivity. Qed.

Lemma changes_total_witness :
  (∃ out, run Background 0 (DecodeRoutingChanges demo_message demo_peer demo_allowance) = Ok out) ∧
  ∃ e, run (λ n, if (n <? 9)%nat then None else Some Canceled) 0 (DecodeRoutingChanges demo_message demo_peer demo_allowance) = Err e ∧
    from_ctx e.
Proof.
  assert (Hb : budget_ok demo_allowance) by (split; vm_compute; reflexivity). split.
  - destruct (changes_total demo_message demo_peer demo_allowance Background 0 Hb) as [(out & E & _)|(e & E & _)];
      [exists out; exact E|]. exfalso. revert E. vm_compute. discriminate.
  - destruct (changes_total demo_message demo_peer demo_allowance (λ n, if (n <? 9)%nat then None else Some Canceled) 0 Hb)
      as [(out & E & _)|(e & E & [Ev|He])].
    + exfalso. revert E. vm_compute. discriminate.
    + exfalso. revert Ev. vm_compute. discriminate.
    + exists e. split; [exact E|exact He].
Defined.

Lemma changes_source_bound_witness :
  ∃ f, message_of demo_message demo_peer demo_view f ∧ changes_for demo_peer demo_allowance f demo_changes.
Proof.
  apply (changes_source_bound demo_message demo_peer demo_allowance Background 0 demo_changes). vm_compute. reflexivity.
Defined.

Lemma dispatch_agrees_witness : value (parseRoutingMessageFamilyMask demo_message demo_allowance) = Ok 3.
Proof.
  rewrite (dispatch_agrees demo_message demo_peer demo_allowance demo_changes demo_decodes). vm_compute. reflexivity.
Defined.

End BgpChanges.
