(* ===== verification/BgpBook.v ===== *)
(** * The routing book of a BMP listener (internal/bgp/bmp_routing_book.go,
      bmp_routing_stream.go, bmp_routing_cohorts.go, bmp_routing_staging.go)

    One worker turns queued evidence of authenticated router sessions into ordered
    messages for the routing service: each staged generation of a peer is a stream of
    numbered messages that a reset ends.  The book that holds the streams is bounded in
    bytes.  The worker's effects are a log; the staging service, the message service, the
    clock and the order of a range over a map are parameters. *)

From S2P Require Import Prelude GoTime FlowModel GoString GoProg BgpBase BgpOpen BgpPeer BgpChanges.
#[local] Open Scope Z_scope.

Module BgpBook.
Import BgpOpen BgpPeer BgpChanges.

(** ** Data *)

Record Selector := mkSelector { cohort : Z; s_distinguisher : list byte; s_identifier : list byte }.

#[export] Instance Selector_eq_dec : EqDecision Selector.
Proof. solve_decision. Defined.
#[export] Instance Selector_countable : Countable Selector :=
  inj_countable' (λ s, (cohort s, s_distinguisher s, s_identifier s)) (λ t, mkSelector t.1.1 t.1.2 t.2) ltac:(by intros []).
#[export] Instance Selector_eta : Eta Selector := λ s, mkSelector (cohort s) (s_distinguisher s) (s_identifier s).

(** agentv1.BmpRoutingMessage *)
Record Msg := mkMsg {
  m_Message : list byte; Heartbeat : bool; SourceReset : bool; ConfiguredRef : gostring; OriginSerial : gostring;
  Generation : gostring; Sequence : Z; ObservedUnixNanos : Z }.

#[export] Instance Msg_eta : Eta Msg := λ m,
  mkMsg (m_Message m) (Heartbeat m) (SourceReset m) (ConfiguredRef m) (OriginSerial m) (Generation m) (Sequence m)
    (ObservedUnixNanos m).

(** agentv1.BmpRoutingPeerUp *)
Record PeerUpRequest := mkRequest {
  ObservationId : gostring; q_ConfiguredRef : gostring; q_OriginSerial : gostring; q_ObservedUnixNanos : Z;
  q_Message : list byte }.

(** agentv1.BmpRoutingStagingReceipt; a view may be a nil pointer. *)
Record ReceiptView := mkReceiptView { v_Generation : gostring; v_Afi : Z; v_Safi : Z }.
Record Receipt := mkReceipt { Status : gostring; Views : list (option ReceiptView) }.

(** bmpPeerEvidence; [routingLoss] names the shared flag of the physical session. *)
Record Evidence := mkEvidence {
  routingSelector : Selector; routingLoss : option Z; routingMessage : option Msg; routingEnd : bool;
  routingPeerUp : option PeerUpRequest; sessionHandle : Z; tenantID : gostring; routerAgentID : gostring;
  routerSerial : gostring; peerAddress : gostring; peerASN : Z; observedAt : Z }.

#[export] Instance Evidence_eta : Eta Evidence := λ e,
  mkEvidence (routingSelector e) (routingLoss e) (routingMessage e) (routingEnd e) (routingPeerUp e) (sessionHandle e)
    (tenantID e) (routerAgentID e) (routerSerial e) (peerAddress e) (peerASN e) (observedAt e).

(** bmpRoutingStreamState *)
Record Stream := mkStream {
  familyMask : Z; source : Evidence; generation : gostring; previous : gostring; sequence : Z; previousSequence : Z;
  failed : bool }.

#[export] Instance Stream_eta : Eta Stream := λ s,
  mkStream (familyMask s) (source s) (generation s) (previous s) (sequence s) (previousSequence s) (failed s).

(** bmpRoutingStreams *)
Record Book := mkBook { sessions : gmap Z (gmap Selector Stream); used : Z; limit : Z }.

#[export] Instance Book_eta : Eta Book := λ b, mkBook (sessions b) (used b) (limit b).

(** What the worker does to the outside: a submission with its outcome, a staging request,
    a refused admission. *)
Inductive Effect := Submitted (m : Msg) (accepted : bool) | Staged (q : PeerUpRequest) | Refused.

Record World := mkWorld { book : Book; log : list Effect }.

#[export] Instance World_eta : Eta World := λ w, mkWorld (book w) (log w).

(** ** The book *)

Definition DefaultBMPRoutingStateBytes : Z := 64 * 2 ^ 20.

Definition bmpSelector (header : BMPRouteViewHeader) : Selector :=
  mkSelector 0 (Distinguisher header) (match BGPIdentifier header with Addr4 l => l | _ => [] end).

Definition bmpRoutingStateCharge (st : Stream) : Z :=
  1024 + len (tenantID (source st)) + len (routerAgentID (source st)) + len (routerSerial (source st)) +
  len (generation st) + len (previous st).

(** WithBMPRoutingStateBytes: an option that is not positive changes nothing. *)
Definition WithBMPRoutingStateBytes (bytes configured : Z) : Z := if 0 <? bytes then bytes else configured.

Definition newBMPRoutingStreams (limit : Z) : Book := mkBook ∅ 0 limit.

(** [streams.sessions[handle][selector]]: a missing session is a nil map. *)
Definition session (b : Book) (h : Z) : gmap Selector Stream := default ∅ (sessions b !! h).
Definition lookup_stream (b : Book) (h : Z) (s : Selector) : option Stream := session b h !! s.

Definition peers (b : Book) (peer : Evidence) : list Evidence :=
  filter (λ p, is_Some (lookup_stream b (sessionHandle p) (routingSelector p)))
    ((λ c, peer <| routingSelector := (routingSelector peer) <| cohort := c |> |>) <$> [0; 1; 2; 3]).

Definition resolve (b : Book) (peer : Evidence) : Evidence * option Stream :=
  match lookup_stream b (sessionHandle peer) (routingSelector peer) with
  | Some st => (peer, Some st)
  | None =>
      if negb (cohort (routingSelector peer) =? 0) then (peer, None)
      else match peers b peer with
           | [selected] => (selected, lookup_stream b (sessionHandle selected) (routingSelector selected))
           | _ => (peer, None)
           end
  end.

(** The zero stream, which a failed lookup yields. *)
Definition noSelector : Selector := mkSelector 0 (replicate 8 x00) (replicate 4 x00).
Definition noEvidence : Evidence := mkEvidence noSelector None None false None 0 [] [] [] [] 0 0.
Definition noStream : Stream := mkStream 0 noEvidence [] [] 0 0 false.

Definition get (b : Book) (peer : Evidence) : Stream := default noStream (resolve b peer).2.

(** The change of [used], or a refusal. *)
Definition admission (b : Book) (peer : Evidence) (st : Stream) : option Z :=
  let oldBytes := match lookup_stream b (sessionHandle peer) (routingSelector peer) with
                  | Some previous => bmpRoutingStateCharge previous
                  | None => 0
                  end in
  let nextBytes := bmpRoutingStateCharge st in
  if (limit b <? nextBytes) || (limit b - nextBytes <? used b - oldBytes) then None else Some (nextBytes - oldBytes).

Definition put (b : Book) (peer : Evidence) (st : Stream) : Book * bool :=
  match admission b peer st with
  | None => (b, false)
  | Some delta =>
      (b <| sessions := <[sessionHandle peer := <[routingSelector peer := st]> (session b (sessionHandle peer))]> (sessions b) |>
         <| used := used b + delta |>, true)
  end.

Definition remove (b : Book) (peer : Evidence) : Book :=
  match resolve b peer with
  | (selected, Some st) =>
      let h := sessionHandle selected in
      let rest := delete (routingSelector selected) (session b h) in
      b <| sessions := if decide (rest = ∅) then delete h (sessions b) else <[h := rest]> (sessions b) |>
        <| used := used b - bmpRoutingStateCharge st |>
  | (_, None) => b
  end.

(** ** The worker *)

Definition MaxInt64 : Z := 2 ^ 63 - 1.

Section worker.
(** SubmitRoutingMessage succeeds; StageRoutingPeer's receipt and whether it failed; the
    clock; the order of a range; whether the evidence service is a message writer and a
    stager; the listener's tenant. *)
Context (submits : list Effect → Msg → bool).
Context (stages : list Effect → PeerUpRequest → option Receipt * bool).
Context (clock : list Effect → Z).
Context (RangeSessions : gmap Z (gmap Selector Stream) → list Z).
Context (RangeSelectors : gmap Selector Stream → list Selector).
Context (is_writer is_stager : bool).
Context (laneTenant : gostring).

Definition SubmitRoutingMessage (m : Msg) (w : World) : bool * World :=
  let ok := submits (log w) m in (ok, w <| log := log w ++ [Submitted m ok] |>).

Definition routingStateRefused (w : World) : World := w <| log := log w ++ [Refused] |>.

(** One reset, unless there is nothing to reset or no number left. *)
Definition reset (peer : Evidence) (g : gostring) (seq : Z) (w : World) : Z * World :=
  if bool_decide (g = []) || (seq =? MaxInt64) then (seq, w)
  else
    let seq := seq + 1 in
    (seq, (SubmitRoutingMessage
             (mkMsg [] false true (routerAgentID peer) (routerSerial peer) g seq (observedAt peer)) w).2).

Definition retireRoutingStream (peer : Evidence) (st : Stream) (w : World) : Stream * World :=
  let '(st, w) :=
    if negb (bool_decide (previous st = generation st)) then
      let '(seq, w) := reset peer (previous st) (previousSequence st) w in (st <| previousSequence := seq |>, w)
    else (st, w) in
  let '(seq, w) := reset peer (generation st) (sequence st) w in
  (st <| sequence := seq |> <| failed := true |>, w).

Definition put_world (peer : Evidence) (st : Stream) (w : World) : World := w <| book := (put (book w) peer st).1 |>.
Definition remove_world (peer : Evidence) (w : World) : World := w <| book := remove (book w) peer |>.

(** ** Cohorts *)

Fixpoint receipt_mask (views : list (option ReceiptView)) (g : gostring) (mask : Z) : option Z :=
  match views with
  | [] => Some mask
  | None :: _ => None
  | Some v :: views =>
      if negb (bool_decide (v_Generation v = g)) || (v_Afi v <? 1) || (2 <? v_Afi v) || negb (v_Safi v =? 1) then None
      else
        let bit := Z.shiftl 1 (v_Afi v - 1) in
        if negb (Z.land mask bit =? 0) then None else receipt_mask views g (Z.lor mask bit)
  end.

Definition routingReceiptFamilyMask (receipt : option Receipt) (g : gostring) : option Z :=
  match receipt with
  | None => None
  | Some r =>
      if (negb (bool_decide (Status r = str "staged")) && negb (bool_decide (Status r = str "replayed"))) ||
         (len (Views r) =? 0) || (2 <? len (Views r)) then None
      else receipt_mask (Views r) g 0
  end.

Definition routingCohortSource (peer : Evidence) : Evidence :=
  mkEvidence (routingSelector peer) (routingLoss peer) None false None (sessionHandle peer) (tenantID peer) (routerAgentID peer)
    (routerSerial peer) [] 0 0.

(** One turn of the loop of retireMatchingCohorts. *)
Definition retire_cohort (mask : Z) (rm : bool) (selected : Evidence) (w : World) : World :=
  let st := get (book w) selected in
  if negb (mask =? 0) && negb (familyMask st =? 0) && (Z.land mask (familyMask st) =? 0) then w
  else
    let '(st, w) := if failed st then (st, w) else retireRoutingStream selected st w in
    if rm then remove_world selected w else put_world selected st w.

Definition retireMatchingCohorts (peer : Evidence) (mask : Z) (rm : bool) (w : World) : World :=
  foldl (λ w selected, retire_cohort mask rm selected w) w (peers (book w) peer).

(** [peer.routingLoss != nil && peer.routingLoss.Load()]: [lost] is what the flags hold. *)
Definition loss (lost : Z → bool) (peer : Evidence) : bool :=
  match routingLoss peer with Some token => lost token | None => false end.

Definition stageRoutingCohort (lost : Z → bool) (peer : Evidence) (q : PeerUpRequest) (w : World) : World :=
  if loss lost peer || negb is_stager then retireMatchingCohorts peer 0 false w
  else
    let '(selected, found) := resolve (book w) peer in
    let attempt := mkStream 0 (routingCohortSource selected) (ObservationId q) [] 0 0 false in
    let attempt := match found with
                   | Some prev => attempt <| familyMask := familyMask prev |> <| previous := generation prev |>
                                          <| previousSequence := sequence prev |>
                   | None => attempt
                   end in
    match admission (book w) selected attempt with
    | None => retireMatchingCohorts peer 0 false (routingStateRefused w)
    | Some _ =>
        let '(receipt, failed_) := stages (log w) q in
        let w := w <| log := log w ++ [Staged q] |> in
        match routingReceiptFamilyMask receipt (generation attempt), (failed_ : bool) with
        | Some mask, false =>
            let replayed := match found, receipt with
                            | Some prev, Some r => bool_decide (Status r = str "replayed") &&
                                bool_decide (generation prev = generation attempt) && (familyMask prev =? mask)
                            | _, _ => false
                            end in
            if replayed then w
            else
              let w := retireMatchingCohorts peer mask true w in
              let peer := peer <| routingSelector := (routingSelector peer) <| cohort := mask |> |> in
              let current := mkStream mask (routingCohortSource peer) (generation attempt) [] 0 0 false in
              let '(b, ok) := put (book w) peer current in
              if ok : bool then w <| book := b |>
              else (retireRoutingStream peer current (routingStateRefused w)).2
        | _, _ =>
            match found with
            | Some _ =>
                let '(attempt, w) := retireRoutingStream selected attempt w in
                put_world selected attempt w
            | None => (retireRoutingStream selected attempt (retireMatchingCohorts peer 0 false w)).2
            end
        end
    end.

Definition sendRoutingCohortMessage (peer : Evidence) (st : Stream) (w : World) : World :=
  if bool_decide (generation st = []) then w
  else match routingMessage peer with
       | None => let '(st, w) := retireRoutingStream peer st w in put_world peer st w
       | Some m =>
           if MaxInt64 - 1 <=? sequence st then
             let '(st, w) := retireRoutingStream peer st w in put_world peer st w
           else
             let st := st <| sequence := sequence st + 1 |> in
             let m := m <| ConfiguredRef := routerAgentID peer |> <| OriginSerial := routerSerial peer |>
                        <| Generation := generation st |> <| Sequence := sequence st |> in
             let '(ok, w) := SubmitRoutingMessage m w in
             let '(st, w) := if ok then (st, w) else retireRoutingStream peer st w in
             if SourceReset m && ok then remove_world peer w else put_world peer st w
       end.

(** One turn of the loop of dispatchRoutingCohorts; the flag says whether a cohort was
    covered. *)
Definition dispatch_cohort (mask : Z) (acc : World * bool) (selected : Evidence) : World * bool :=
  let '(w, covered) := acc in
  let st := get (book w) selected in
  if negb (mask =? 0) && negb (familyMask st =? 0) && negb (Z.land mask (familyMask st) =? mask) then (w, covered)
  else if failed st then (w, true)
  else (sendRoutingCohortMessage selected st w, true).

Definition bmpMaxMessageBytes : Z := 2 ^ 20.

(** The mask is parsed only where it decides between cohorts; a refused message retires. *)
Definition dispatchRoutingCohorts (ctx : Context_) (lost : Z → bool) (peer : Evidence) (w : World) : World :=
  match peers (book w) peer with
  | [] => w
  | ps =>
      if loss lost peer then retireMatchingCohorts peer 0 false w
      else
        let parsed := match routingMessage peer with
                      | Some m =>
                          if (1 <? len ps) && negb (Heartbeat m) && negb (SourceReset m) then
                            Some (run ctx 0 (parseRoutingMessageFamilyMask (m_Message m)
                                    (mkBudget (128 * bmpMaxMessageBytes) (8 * bmpMaxMessageBytes))))
                          else None
                      | None => None
                      end in
        match parsed with
        | None | Some (Ok _) =>
            let mask := match parsed with Some (Ok mask) => mask | _ => 0 end in
            let '(w, covered) := foldl (dispatch_cohort mask) (w, false) ps in
            if covered then w else retireMatchingCohorts peer 0 false w
        | Some _ => retireMatchingCohorts peer 0 false w
        end
  end.

(** ** Evidence *)

(** One turn of the loop that ends a session. *)
Definition end_selector (peer : Evidence) (w : World) (s : Selector) : World :=
  match lookup_stream (book w) (sessionHandle peer) s with
  | None => w
  | Some st =>
      let peer := peer <| routingSelector := s |> in
      let '(_, w) := retireRoutingStream peer st w in remove_world peer w
  end.

Definition routingStreamEvidence (ctx : Context_) (lost : Z → bool) (peer : Evidence) (w : World) : World :=
  if negb is_writer then
    match routingPeerUp peer with
    | Some q => if negb is_stager || negb (bool_decide (tenantID peer = laneTenant)) then w
                else w <| log := log w ++ [Staged q] |>
    | None => w
    end
  else if negb (bool_decide (tenantID peer = laneTenant)) then w
  else if routingEnd peer then
    foldl (end_selector peer) w (RangeSelectors (session (book w) (sessionHandle peer)))
  else match routingPeerUp peer with
       | Some q => stageRoutingCohort lost peer q w
       | None => dispatchRoutingCohorts ctx lost peer w
       end.

(** One turn of the loops of retireLostRoutingStreams. *)
Definition retire_lost (lost : Z → bool) (h : Z) (w : World) (s : Selector) : World :=
  match lookup_stream (book w) h s with
  | None => w
  | Some st =>
      if failed st || negb (loss lost (source st)) then w
      else
        let peer := (source st) <| observedAt := clock (log w) |> in
        let '(st, w) := retireRoutingStream peer st w in
        put_world peer st w
  end.

Definition retireLostRoutingStreams (lost : Z → bool) (w : World) : World :=
  if negb is_writer then w
  else foldl (λ w h, foldl (retire_lost lost h) w (RangeSelectors (session (book w) h))) w (RangeSessions (sessions (book w))).

(** What reaches the worker: queued evidence, or the wake-up after a loss. *)
Inductive Event :=
| OnEvidence (ctx : Context_) (lost : Z → bool) (peer : Evidence)
| OnLoss (lost : Z → bool).

Definition step (w : World) (e : Event) : World :=
  match e with
  | OnEvidence ctx lost peer => routingStreamEvidence ctx lost peer w
  | OnLoss lost => retireLostRoutingStreams lost w
  end.

Definition work (limit : Z) (events : list Event) : World := foldl step (mkWorld (newBMPRoutingStreams limit) []) events.

End worker.

(** The mask computation settles, so the last branch of the dispatch is a refused message. *)
#[export] Instance afi_bit_settles afi safi : Settles (routingAFIBit afi safi).
Proof. unfold routingAFIBit. settle. Qed.

#[export] Instance mask_loop_settles m l : Settles (mask_loop m l).
Proof.
  revert m. induction l as [|a l IH]; intros m; cbn [mask_loop]; [apply (settles_ret m)|]. settle; [apply IH|].
  apply settles_bind; [apply _|intros bit _; apply IH].
Qed.

#[export] Instance family_mask_settles raw b : Settles (parseRoutingMessageFamilyMask raw b).
Proof.
  unfold parseRoutingMessageFamilyMask. settle. apply settles_bind; [by apply bmp_frame_settles|intros [] Hf].
  apply bmp_frame_length in Hf; [|done]. change bodyOffset with 48 in *. change bmpCommonHeaderLen with 6 in *.
  settle. apply settles_bind; [apply _|intros h _]. settle. apply settles_bind; [apply BgpUpdate.BgpUpdate.update_settles|intros frame _].
  apply settles_bind; [|intros m _; apply mask_loop_settles].
  apply settles_if; intros _; [apply settles_bind; [apply _|intros bit _]|]; apply settles_ret.
Qed.

(** ** Sums over maps *)

Definition msum {K A} `{Countable K} (f : A → Z) (m : gmap K A) : Z := map_fold (λ _ x acc, f x + acc) 0 m.

Section msum.
Context {K A : Type} `{Countable K} (f : A → Z).
Implicit Types m : gmap K A.

Lemma msum_empty : msum f (∅ : gmap K A) = 0.
Proof. apply map_fold_empty. Qed.

Lemma msum_delete m k x : m !! k = Some x → msum f m = f x + msum f (delete k m).
Proof. intros Hk. unfold msum. apply (map_fold_delete_L (λ _ x acc, f x + acc)); [intros; lia|done]. Qed.

Lemma msum_insert m k x : msum f (<[k := x]> m) = f x + msum f (delete k m).
Proof. rewrite (msum_delete _ k x) by apply lookup_insert_eq. by rewrite delete_insert_eq. Qed.

Lemma msum_nonneg m : (∀ x, 0 ≤ f x) → 0 ≤ msum f m.
Proof.
  intros Hf. induction m as [|k x m Hk IH] using map_ind; [by rewrite msum_empty|].
  rewrite msum_insert, delete_id by done. specialize (Hf x). lia.
Qed.

Lemma msum_ge m k x : (∀ x, 0 ≤ f x) → m !! k = Some x → f x ≤ msum f m.
Proof. intros Hf Hk. rewrite (msum_delete m k x) by done. pose proof (msum_nonneg (delete k m) Hf). lia. Qed.

End msum.

(** ** The accounting of the book *)

Lemma charge_pos st : 0 ≤ bmpRoutingStateCharge st.
Proof.
  unfold bmpRoutingStateCharge. pose proof (len_nonneg (tenantID (source st))). pose proof (len_nonneg (routerAgentID (source st))).
  pose proof (len_nonneg (routerSerial (source st))). pose proof (len_nonneg (generation st)). pose proof (len_nonneg (previous st)). lia.
Qed.

Definition session_sum (m : gmap Selector Stream) : Z := msum bmpRoutingStateCharge m.
Definition total (b : Book) : Z := msum session_sum (sessions b).

Lemma session_sum_nonneg m : 0 ≤ session_sum m.
Proof. apply msum_nonneg, charge_pos. Qed.

(** The stored bytes are counted exactly and fit; no session is empty. *)
Definition book_ok (b : Book) : Prop :=
  used b = total b ∧ used b ≤ limit b ∧ ∀ h m, sessions b !! h = Some m → m ≠ ∅.

Definition key_of (p : Evidence) : Z * Selector := (sessionHandle p, routingSelector p).
Definition at_key (b : Book) (k : Z * Selector) : option Stream := lookup_stream b k.1 k.2.

(** The sum, split at a session. *)
Lemma total_session b h : total b = session_sum (session b h) + msum session_sum (delete h (sessions b)).
Proof.
  unfold total, session. destruct (sessions b !! h) as [m|] eqn:E; cbn.
  - by apply msum_delete.
  - rewrite delete_id by done. unfold session_sum at 2. by rewrite msum_empty.
Qed.

Definition old_charge (b : Book) (k : Z * Selector) : Z :=
  match at_key b k with Some st => bmpRoutingStateCharge st | None => 0 end.

Lemma session_split b h s : session_sum (session b h) = old_charge b (h, s) + session_sum (delete s (session b h)).
Proof.
  unfold old_charge, at_key, lookup_stream. cbn [fst snd]. destruct (session b h !! s) as [st|] eqn:E.
  - by apply msum_delete.
  - by rewrite delete_id.
Qed.

Lemma old_le_total b k : 0 ≤ old_charge b k ≤ total b.
Proof.
  destruct k as [h s]. rewrite (total_session b h), (session_split b h s).
  pose proof (session_sum_nonneg (delete s (session b h))). pose proof (msum_nonneg session_sum (delete h (sessions b)) session_sum_nonneg).
  unfold old_charge. destruct (at_key b (h, s)) as [st|]; [pose proof (charge_pos st)|]; lia.
Qed.

Lemma admission_spec b peer st :
  admission b peer st =
  if (limit b <? bmpRoutingStateCharge st) || (limit b - bmpRoutingStateCharge st <? used b - old_charge b (key_of peer)) then None
  else Some (bmpRoutingStateCharge st - old_charge b (key_of peer)).
Proof. done. Qed.

(** Replacing a stream by one of the same size always succeeds. *)
Lemma admission_same b peer st st' :
  book_ok b → at_key b (key_of peer) = Some st → bmpRoutingStateCharge st' = bmpRoutingStateCharge st →
  admission b peer st' = Some 0.
Proof.
  intros (Hu & Hl & _) Hk Hc. rewrite admission_spec. pose proof (old_le_total b (key_of peer)). unfold old_charge in *. rewrite Hk, Hc in *.
  replace (_ || _) with false; [f_equal; lia|]. symmetry. apply orb_false_iff. split; apply Z.ltb_ge; lia.
Qed.

Lemma session_insert b h m h' : session (b <| sessions := <[h := m]> (sessions b) |>) h' = if decide (h' = h) then m else session b h'.
Proof. unfold session. cbn. destruct (decide (h' = h)) as [->|Hne]; [by rewrite lookup_insert_eq|by rewrite lookup_insert_ne]. Qed.

Lemma book_put_spec b peer st b' :
  put b peer st = (b', true) →
  (∀ k, at_key b' k = if decide (k = key_of peer) then Some st else at_key b k) ∧
  limit b' = limit b ∧ (book_ok b → book_ok b').
Proof.
  unfold put. rewrite admission_spec. destruct (_ || _) eqn:E; [done|]. apply orb_false_iff in E as [E1 E2]. zbool.
  intros [= <-]. set (h := sessionHandle peer). set (s := routingSelector peer). split_and!.
  - intros [h' s']. unfold at_key, lookup_stream. cbn [fst snd]. unfold session at 1. cbn [sessions].
    unfold key_of. fold h s. destruct (decide (h' = h)) as [->|Hh].
    + cbn. rewrite lookup_insert_eq. cbn. destruct (decide (s' = s)) as [->|Hs].
      * rewrite lookup_insert_eq. by rewrite decide_True.
      * rewrite lookup_insert_ne by done. rewrite decide_False by congruence. done.
    + cbn. rewrite lookup_insert_ne by done. rewrite decide_False by congruence. done.
  - done.
  - intros (Hu & Hl & Hne). change (key_of peer) with (h, s) in *. split_and!; cbn.
    + unfold total. cbn. rewrite msum_insert. unfold session_sum at 1. rewrite msum_insert. fold (session_sum (delete s (session b h))).
      rewrite Hu, (total_session b h), (session_split b h s). lia.
    + lia.
    + intros h' m. destruct (decide (h' = h)) as [->|]; [rewrite lookup_insert_eq|rewrite lookup_insert_ne by done; apply Hne].
      intros [= <-]. apply insert_non_empty.
Qed.

Lemma resolve_at b peer st : at_key b (key_of peer) = Some st → resolve b peer = (peer, Some st).
Proof. unfold at_key, key_of, resolve. cbn [fst snd]. by intros ->. Qed.

Lemma remove_spec b peer st :
  at_key b (key_of peer) = Some st →
  (∀ k, at_key (remove b peer) k = if decide (k = key_of peer) then None else at_key b k) ∧
  limit (remove b peer) = limit b ∧ (book_ok b → book_ok (remove b peer)).
Proof.
  intros Hk. unfold remove. rewrite (resolve_at _ _ st Hk). cbn zeta. set (h := sessionHandle peer). set (s := routingSelector peer) in *.
  set (rest := delete s (session b h)). change (key_of peer) with (h, s) in *.
  assert (Hlook : ∀ k, at_key (b <| sessions := if decide (rest = ∅) then delete h (sessions b) else <[h := rest]> (sessions b) |>) k =
    if decide (k = (h, s)) then None else at_key b k).
  { intros [h' s']. unfold at_key, lookup_stream, session at 1. cbn. destruct (decide (h' = h)) as [->|Hh].
    - assert ((default ∅ ((if decide (rest = ∅) then delete h (sessions b) else <[h := rest]> (sessions b)) !! h)) = rest) as ->.
      { destruct (decide (rest = ∅)) as [->|]; [by rewrite lookup_delete_eq|by rewrite lookup_insert_eq]. }
      unfold rest. destruct (decide (s' = s)) as [->|Hs]; [rewrite lookup_delete_eq; by rewrite decide_True|].
      rewrite lookup_delete_ne by done. rewrite decide_False by congruence. done.
    - rewrite (decide_False (P := (h', s') = (h, s))) by congruence. unfold session. f_equal. f_equal.
      destruct (decide (rest = ∅)); [by rewrite lookup_delete_ne|by rewrite lookup_insert_ne]. }
  split_and!; [exact Hlook|done|]. intros (Hu & Hl & Hne).
  pose proof (charge_pos st). pose proof (total_session b h) as Ht. rewrite (session_split b h s) in Ht. fold rest in Ht.
  unfold old_charge in Ht. rewrite Hk in Ht. split_and!; cbn; [|lia|].
  - unfold total. cbn. destruct (decide (rest = ∅)) as [E|E].
    + rewrite E in Ht. unfold session_sum at 1 in Ht. rewrite msum_empty in Ht. lia.
    + rewrite msum_insert. lia.
  - intros h' m. destruct (decide (rest = ∅)) as [E|E]; destruct (decide (h' = h)) as [->|Hh].
    + by rewrite lookup_delete_eq.
    + rewrite lookup_delete_ne by done. apply Hne.
    + rewrite lookup_insert_eq. by intros [= <-].
    + rewrite lookup_insert_ne by done. apply Hne.
Qed.

End BgpBook.
