(* ===== verification/BgpStreams.v ===== *)
(** * The message streams of the routing worker (internal/bgp/bmp_routing_stream.go,
      bmp_routing_cohorts.go)

    What the worker of BgpBook sends: per generation a stream that is numbered from one
    without a gap and that only resets follow once it has ended.  One invariant ties the
    counters of the stored streams to the log; every change of one key preserves it, and the
    handlers are sequences of such changes.  Handling one piece of evidence is one step, with the
    loss flags as they are when it starts; the code loads the flag before it calls the service. *)

From S2P Require Import Prelude GoTime FlowModel GoString GoProg BgpBase BgpOpen BgpPeer BgpChanges BgpBook.
#[local] Open Scope Z_scope.

Module BgpStreams.
Import BgpOpen BgpPeer BgpChanges BgpBook.

(** ** Streams of messages *)

(** The submissions of a generation, in order, with their outcomes. *)
Definition sent (g : gostring) (l : list Effect) : list (Msg * bool) :=
  omap (λ e, match e with
             | Submitted m ok => if decide (Generation m = g) then Some (m, ok) else None
             | _ => None
             end) l.

(** A message after which a stream carries no more routes: a reset, or one that was not
    accepted. *)
Definition ends (x : Msg * bool) : Prop := SourceReset x.1 = true ∨ x.2 = false.
Definition live (l : list (Msg * bool)) : Prop := Forall (λ x, ¬ ends x) l.

(** Numbered from one without a gap, within int64, and only resets follow an end. *)
Record stream_ok (l : list (Msg * bool)) : Prop := {
  ok_numbered : ∀ i x, l !! i = Some x → Sequence x.1 = Z.of_nat i + 1;
  ok_ended : ∀ i j x y, (i < j)%nat → l !! i = Some x → l !! j = Some y → ends x → SourceReset y.1 = true;
  ok_bounded : len l ≤ MaxInt64 }.

Lemma stream_ok_nil : stream_ok [].
Proof. split; [done..|vm_compute; discriminate]. Qed.

Lemma stream_ok_snoc l m ok :
  stream_ok l → Sequence m = len l + 1 → len l < MaxInt64 → SourceReset m = true ∨ live l → stream_ok (l ++ [(m, ok)]).
Proof.
  intros [Hn He Hb] Hs Hlt Hm. split.
  - intros i x [Hi|[Hi Hx]]%lookup_app_Some; [by apply Hn|].
    apply list_lookup_singleton_Some in Hx as [Hi0 <-]. cbn. unfold len in Hs. lia.
  - intros i j x y Hij Hx [Hy|[Hj Hy]]%lookup_app_Some Hend.
    + apply lookup_app_Some in Hx as [Hx|[Hi _]]; [by apply (He i j x y)|]. apply lookup_lt_Some in Hy. lia.
    + apply list_lookup_singleton_Some in Hy as [Hj0 <-]. cbn. destruct Hm as [Hm|Hm]; [done|].
      apply lookup_app_Some in Hx as [Hx|[Hi Hx]]; [|apply list_lookup_singleton_Some in Hx as [? _]; lia].
      exfalso. apply (Forall_lookup_1 _ _ _ _ Hm Hx Hend).
  - unfold len in *. rewrite length_app. cbn. lia.
Qed.

Definition ordered (l : list Effect) : Prop := ∀ g, stream_ok (sent g l).

Lemma sent_app g l l' : sent g (l ++ l') = sent g l ++ sent g l'.
Proof. apply omap_app. Qed.

Lemma sent_none g l : (∀ m ok, Submitted m ok ∈ l → Generation m ≠ g) → sent g l = [].
Proof.
  induction l as [|e l IH]; intros Hl; [done|]. change (e :: l) with ([e] ++ l). rewrite sent_app, IH by (intros m ok Hm; apply (Hl m ok); by right).
  destruct e as [m ok|q|]; [|done..]. cbn. rewrite decide_False; [done|]. apply (Hl m ok). by left.
Qed.

(** The effects after [l] concern the generations of [P] only. *)
Definition only (P : gostring → Prop) (new : list Effect) : Prop := ∀ m ok, Submitted m ok ∈ new → P (Generation m).

Lemma only_app P a b : only P a → only P b → only P (a ++ b).
Proof. intros Ha Hb m ok [Hm|Hm]%elem_of_app; [by apply (Ha m ok)|by apply (Hb m ok)]. Qed.

Lemma only_mono (P Q : gostring → Prop) a : only P a → (∀ g, P g → Q g) → only Q a.
Proof. intros Ha HPQ m ok Hm. by apply HPQ, (Ha m ok). Qed.

Lemma sent_only P g l new : only P new → ¬ P g → sent g (l ++ new) = sent g l.
Proof.
  intros Ho Hg. rewrite sent_app, (sent_none g new), app_nil_r; [done|]. intros m ok Hm <-. by apply Hg, (Ho m ok).
Qed.

(** One submission for a generation, as the next of its stream. *)
Lemma ordered_submit l m ok :
  ordered l → Sequence m = len (sent (Generation m) l) + 1 → Sequence m ≤ MaxInt64 →
  SourceReset m = true ∨ live (sent (Generation m) l) → ordered (l ++ [Submitted m ok]).
Proof.
  intros Ho Hs Hb Hm g. rewrite sent_app. cbn. case_decide as Hg; [|rewrite app_nil_r; apply Ho].
  subst g. apply stream_ok_snoc; [apply Ho|done|lia|done].
Qed.

Lemma sent_submit l m ok : len (sent (Generation m) (l ++ [Submitted m ok])) = len (sent (Generation m) l) + 1.
Proof. rewrite sent_app. cbn. rewrite decide_True by done. unfold len. rewrite length_app. cbn. lia. Qed.

(** ** What a stored stream knows *)

Definition owns (st : Stream) (g : gostring) : Prop := g ≠ [] ∧ (g = generation st ∨ g = previous st).

(** Its counters are the lengths of the streams it names. *)
Definition counts (l : list Effect) (st : Stream) : Prop :=
  generation st ≠ [] ∧ len (sent (generation st) l) = sequence st ∧
  (previous st ≠ [] → previous st ≠ generation st ∧ len (sent (previous st) l) = previousSequence st).

(** While it has not failed, everything was accepted and nothing was reset. *)
Definition quiet (l : list Effect) (st : Stream) : Prop := failed st = false → live (sent (generation st) l) ∧ previous st = [].

Lemma counts_only P l new st : counts l st → only P new → (∀ g, owns st g → ¬ P g) → counts (l ++ new) st.
Proof.
  intros (Hg & Hn & Hp) Ho HP. split_and!; [done| |].
  - rewrite (sent_only P) by (done || apply HP; split; auto). done.
  - intros Hne. destruct (Hp Hne) as [Hd Hl]. split; [done|]. rewrite (sent_only P) by (done || apply HP; split; auto). done.
Qed.

Lemma quiet_only P l new st : generation st ≠ [] → quiet l st → only P new → (∀ g, owns st g → ¬ P g) → quiet (l ++ new) st.
Proof. intros Hg Hq Ho HP Hf. rewrite (sent_only P) by (done || apply HP; split; auto). by apply Hq. Qed.

(** ** Resets *)

Section resets.
Context (submits : list Effect → Msg → bool).

(** [w'] is [w] with a longer log, still ordered; the additions are resets of [P]. *)
Definition resets (P : gostring → Prop) (w w' : World) : Prop :=
  book w' = book w ∧ ordered (log w') ∧
  ∃ new, log w' = log w ++ new ∧ only P new ∧ ∀ m ok, Submitted m ok ∈ new → SourceReset m = true.

Lemma resets_refl P w : ordered (log w) → resets P w w.
Proof.
  intros Ho. split_and!; [done|done|]. exists []. rewrite app_nil_r. split_and!; [done|intros ?? []%elem_of_nil..].
Qed.

Lemma reset_spec peer g seq w seq' w' :
  reset submits peer g seq w = (seq', w') → ordered (log w) → (g ≠ [] → len (sent g (log w)) = seq) →
  resets (λ g', g ≠ [] ∧ g' = g) w w' ∧ (g ≠ [] → len (sent g (log w')) = seq').
Proof.
  unfold reset, SubmitRoutingMessage. intros Hr Ho Hl.
  destruct (bool_decide_reflect (g = [])) as [->|Hg]; cbn in Hr.
  { injection Hr as <- <-. split; [by apply resets_refl|done]. }
  specialize (Hl Hg). destruct (seq =? MaxInt64) eqn:E; cbn in Hr; injection Hr as <- <-; zbool.
  { split; [by apply resets_refl|done]. }
  pose proof (ok_bounded _ (Ho g)). split; [split_and!|].
  - done.
  - cbn. apply ordered_submit; cbn; [done|lia|lia|by left].
  - eexists. split; [done|]. split; intros m ok; rewrite list_elem_of_singleton; by intros [= -> ->].
  - intros _. set (m := mkMsg _ _ _ _ _ _ _ _). rewrite <- Hl. exact (sent_submit (log w) m _).
Qed.

Lemma resets_trans P Q w1 w2 w3 : resets P w1 w2 → resets Q w2 w3 → resets (λ g, P g ∨ Q g) w1 w3.
Proof.
  intros (Hb1 & _ & n1 & Hl1 & Ho1 & Hr1) (Hb2 & Ho & n2 & Hl2 & Ho2 & Hr2). split_and!; [congruence|done|].
  exists (n1 ++ n2). rewrite Hl2, Hl1, (assoc_L (++)). split_and!; [done| |].
  - apply only_app; (eapply only_mono; [eassumption|auto]).
  - intros m ok [Hm|Hm]%elem_of_app; eauto.
Qed.

Lemma reset_book peer g seq w : book (reset submits peer g seq w).2 = book w.
Proof. unfold reset. by destruct (_ || _). Qed.

Lemma retire_book peer st w st' w' : retireRoutingStream submits peer st w = (st', w') → book w' = book w.
Proof.
  unfold retireRoutingStream. destruct (negb _).
  - pose proof (reset_book peer (previous st) (previousSequence st) w). destruct (reset _ _ (previous st) _ w) as [p w1]. cbn [snd] in *.
    cbn. pose proof (reset_book peer (generation st) (sequence st) w1). destruct (reset _ _ (generation st) _ w1) as [q w2].
    cbn [snd] in *. intros [= _ <-]. congruence.
  - pose proof (reset_book peer (generation st) (sequence st) w). destruct (reset _ _ (generation st) _ w) as [q w2].
    cbn [snd] in *. by intros [= _ <-].
Qed.

(** Retirement resets what the stream owns and leaves its counters right. *)
Lemma retire_spec peer st w st' w' :
  retireRoutingStream submits peer st w = (st', w') → ordered (log w) → counts (log w) st →
  resets (owns st) w w' ∧ counts (log w') st' ∧ failed st' = true ∧ generation st' = generation st ∧
  previous st' = previous st ∧ source st' = source st ∧ familyMask st' = familyMask st.
Proof.
  unfold retireRoutingStream. intros Hr Ho (Hg & Hn & Hp).
  destruct (bool_decide_reflect (previous st = generation st)) as [E|E]; cbn in Hr.
  - exfalso. rewrite <- E in Hg. by destruct (Hp Hg).
  - destruct (reset _ _ (previous st) _ w) as [pseq w1] eqn:E1. cbn in Hr.
    destruct (reset _ _ (generation st) _ w1) as [seq w2] eqn:E2. injection Hr as <- <-.
    apply reset_spec in E1 as [HR1 HL1]; [|done|intros Hne; by apply Hp].
    pose proof HR1 as (_ & Ho1 & n1 & Hl1 & Hon1 & _).
    apply reset_spec in E2 as [HR2 HL2]; [|done|].
    2:{ intros _. rewrite Hl1, (sent_only _ _ _ _ Hon1); [done|]. intros [_ ?]. congruence. }
    pose proof HR2 as (_ & Ho2 & n2 & Hl2 & Hon2 & _).
    unfold counts. cbn. split_and!; try done; [|by apply HL2|].
    + destruct (resets_trans _ _ _ _ _ HR1 HR2) as (Hb & _ & new & Hl & Hon & Hre). split_and!; [done|done|].
      exists new. split_and!; [done| |done]. eapply only_mono; [done|]. intros g [[Hne ->]|[Hne ->]]; split; auto.
    + intros Hne. destruct (Hp Hne) as [Hd _]. split; [done|]. rewrite Hl2, (sent_only _ _ _ _ Hon2); [by apply HL1|].
      intros [_ ?]. done.
Qed.

End resets.

(** ** The invariant of the worker *)

(** The key of another cohort of the same peer. *)
Definition sibling (k : Z * Selector) (c : Z) : Z * Selector := (k.1, k.2 <| cohort := c |>).

(** The cohort of a key is the set of families of its stream, and no other cohort of the
    peer has a family in common with it. *)
Definition placed (b : Book) (k : Z * Selector) (st : Stream) : Prop :=
  familyMask st = cohort k.2 ∧ 1 ≤ cohort k.2 ≤ 3 ∧
  ∀ c st', c ≠ cohort k.2 → at_key b (sibling k c) = Some st' → Z.land c (cohort k.2) = 0.

(** The families of a stream are those of the one it replaces. *)
Definition inherited (old : option Stream) (st : Stream) : Prop := ∃ st0, old = Some st0 ∧ familyMask st0 = familyMask st.

(** [seen] holds every generation that the log or the book names. *)
Record Inv (seen : list gostring) (w : World) : Prop := {
  inv_book : book_ok (book w);
  inv_ordered : ordered (log w);
  inv_stream : ∀ k st, at_key (book w) k = Some st → counts (log w) st ∧ quiet (log w) st ∧ key_of (source st) = k;
  inv_owner : ∀ k k' st st' g, at_key (book w) k = Some st → at_key (book w) k' = Some st' → owns st g → owns st' g → k = k';
  inv_seen : ∀ k st g, at_key (book w) k = Some st → owns st g → g ∈ seen;
  inv_log : only (.∈ seen) (log w);
  inv_placed : ∀ k st, at_key (book w) k = Some st → placed (book w) k st }.

(** [g] belongs to a stream that is stored at a key of [K]. *)
Definition owned (K : Z * Selector → Prop) (b : Book) (g : gostring) : Prop := ∃ k st, K k ∧ at_key b k = Some st ∧ owns st g.

(** A change confined to the keys [K], with the new generations [ids]. *)
Record evolves (K : Z * Selector → Prop) (ids : list gostring) (w w' : World) : Prop := {
  ev_other : ∀ k, ¬ K k → at_key (book w') k = at_key (book w) k;
  ev_log : ∃ new, log w' = log w ++ new ∧ only (λ g, g ∈ ids ∨ owned K (book w) g) new;
  ev_owned : ∀ g, owned K (book w') g → g ∈ ids ∨ owned K (book w) g;
  ev_mask : ∀ k st, at_key (book w') k = Some st → inherited (at_key (book w) k) st ∨ ids ≠ [];
  ev_limit : limit (book w') = limit (book w) }.

Lemma evolves_refl K ids w : evolves K ids w w.
Proof.
  split; [done| |by right|intros k st Hk; left; by exists st|done]. exists []. rewrite app_nil_r. split; [done|]. intros ?? []%elem_of_nil.
Qed.

Lemma evolves_trans K ids w1 w2 w3 : evolves K [] w1 w2 → evolves K ids w2 w3 → evolves K ids w1 w3.
Proof.
  intros [H1 (n1 & Hl1 & Ho1) Hw1 Hm1 Hi1] [H2 (n2 & Hl2 & Ho2) Hw2 Hm2 Hi2].
  assert (Hown : ∀ g, owned K (book w2) g → g ∈ ids ∨ owned K (book w1) g).
  { intros g [[]%elem_of_nil|?]%Hw1. by right. }
  split.
  - intros k Hk. by rewrite H2, H1.
  - exists (n1 ++ n2). rewrite Hl2, Hl1, (assoc_L (++)). split; [done|]. apply only_app.
    + eapply only_mono; [exact Ho1|]. intros g [[]%elem_of_nil|?]. by right.
    + eapply only_mono; [exact Ho2|]. intros g [?|?]; [by left|by apply Hown].
  - intros g [?|?]%Hw2; [by left|by apply Hown].
  - intros k st [(st2 & Hk2 & Hf2)|Hnew]%Hm2; [left|by right].
    apply Hm1 in Hk2 as [(st1 & Hk1 & Hf1)|[]]; [|done]. exists st1. split; [done|congruence].
  - congruence.
Qed.

(** The invariant survives, and the change is confined. *)
Definition safe (K : Z * Selector → Prop) (ids : list gostring) (w w' : World) : Prop :=
  ∀ seen, Inv seen w → (∀ g, g ∈ ids → g ∉ seen) → Inv (ids ++ seen) w' ∧ evolves K ids w w'.

Lemma safe_refl K ids w : safe K ids w w.
Proof.
  intros seen [Hb Ho Hs Hu Hn Hl Hpl] _. split; [|apply evolves_refl]. split; try done.
  - intros k st g Hk Hg. apply elem_of_app. right. by apply (Hn k st).
  - eapply only_mono; [exact Hl|]. intros g Hg. apply elem_of_app. by right.
Qed.

Lemma safe_trans K ids w1 w2 w3 : safe K [] w1 w2 → safe K ids w2 w3 → safe K ids w1 w3.
Proof.
  intros H1 H2 seen HI Hids. destruct (H1 seen HI) as [HI2 He1]; [by intros ? []%elem_of_nil|].
  destruct (H2 seen HI2 Hids) as [HI3 He2]. split; [done|]. by eapply evolves_trans.
Qed.

(** What [k] held, and the new generations. *)
Definition mine (b : Book) (k : Z * Selector) (ids : list gostring) (g : gostring) : Prop :=
  g ∈ ids ∨ ∃ st, at_key b k = Some st ∧ owns st g.

Lemma sibling_sibling k c : sibling (sibling k c) (cohort k.2) = k.
Proof. by destruct k as [h []]. Qed.

Lemma update_placed b b' k o :
  (∀ k st, at_key b k = Some st → placed b k st) → (∀ k', at_key b' k' = if decide (k' = k) then o else at_key b k') →
  (∀ st, o = Some st → inherited (at_key b k) st ∨ placed b k st) → ∀ k' st, at_key b' k' = Some st → placed b' k' st.
Proof.
  intros Hpl Hat Ho.
  assert (Hnew : ∀ st, o = Some st → placed b k st).
  { intros st [(st0 & Hk & Hf)|?]%Ho; [|done]. destruct (Hpl k st0 Hk) as (Hc & Hr & Hd). split; [congruence|done]. }
  intros k' st. rewrite Hat. case_decide as E.
  - subst k'. intros (Hf & Hr & Hd)%Hnew. split; [done|split; [done|]]. intros c st' Hne. rewrite Hat, decide_False; [by apply Hd|].
    intros E. apply Hne. by rewrite <- E.
  - intros Hk. destruct (Hpl k' st Hk) as (Hf & Hr & Hd). split; [done|split; [done|]]. intros c st' Hne. rewrite Hat. case_decide as E'.
    + intros (Hf' & _ & Hd')%Hnew. rewrite Z.land_comm. replace c with (cohort k.2) by (by rewrite <- E').
      apply (Hd' (cohort k'.2) st); [rewrite <- E'; cbn; congruence|]. by rewrite <- E', sibling_sibling.
    + by apply Hd.
Qed.

(** A change of one key: the only place where the invariant is rebuilt. *)
Lemma update_safe K seen ids k o new w w' :
  Inv seen w → (∀ g, g ∈ ids → g ∉ seen) → K k →
  log w' = log w ++ new → only (mine (book w) k ids) new → ordered (log w') → book_ok (book w') → limit (book w') = limit (book w) →
  (∀ k', at_key (book w') k' = if decide (k' = k) then o else at_key (book w) k') →
  (∀ st, o = Some st → counts (log w') st ∧ quiet (log w') st ∧ key_of (source st) = k ∧
                    (∀ g, owns st g → mine (book w) k ids g) ∧
                    (inherited (at_key (book w) k) st ∨ (placed (book w) k st ∧ ids ≠ []))) →
  Inv (ids ++ seen) w' ∧ evolves K ids w w'.
Proof.
  intros [Hb Ho Hs Hu Hn Hl Hpl] Hids HK Hlog Hnew Ho' Hb' Hlim Hat Hst.
  assert (Hfar : ∀ k' st g, k' ≠ k → at_key (book w) k' = Some st → owns st g → ¬ mine (book w) k ids g).
  { intros k' st g Hne Hk' Hg [Hid|(st0 & Hk0 & Hg0)]; [by apply (Hids g Hid), (Hn k' st)|]. by apply Hne, (Hu k' k st st0 g). }
  assert (Hseen : ∀ g, mine (book w) k ids g → g ∈ ids ++ seen).
  { intros g [?|(st & Hk & Hg)]; apply elem_of_app; [by left|right; by apply (Hn k st)]. }
  assert (Hcase : ∀ k' st, at_key (book w') k' = Some st → (k' = k ∧ o = Some st) ∨ (k' ≠ k ∧ at_key (book w) k' = Some st)).
  { intros k' st. rewrite Hat. case_decide; auto. }
  split; [split|split]; try done.
  - intros k' st [[-> Hk']|[Hne Hk']]%Hcase; [by destruct (Hst st Hk') as (? & ? & ? & _)|].
    destruct (Hs k' st Hk') as (Hc & Hq & Hkey). rewrite Hlog.
    assert (HP : ∀ g, owns st g → ¬ mine (book w) k ids g) by (intros g; by apply (Hfar k')).
    split_and!; [by eapply counts_only|eapply quiet_only; [by destruct Hc|done..]|done].
  - intros k1 k2 st1 st2 g [[-> H1]|[Hne1 H1]]%Hcase [[-> H2]|[Hne2 H2]]%Hcase Hg1 Hg2; [done| | |by apply (Hu k1 k2 st1 st2 g)].
    + exfalso. apply (Hfar k2 st2 g); [done..|]. by apply (Hst st1).
    + exfalso. apply (Hfar k1 st1 g); [done..|]. by apply (Hst st2).
  - intros k' st g [[-> Hk']|[Hne Hk']]%Hcase Hg; [by apply Hseen, (Hst st)|]. apply elem_of_app. right. by apply (Hn k' st).
  - rewrite Hlog. apply only_app; [|by eapply only_mono]. eapply only_mono; [exact Hl|]. intros g Hg. apply elem_of_app. by right.
  - apply (update_placed (book w) _ k o); [done..|]. intros st Hk. destruct (Hst st Hk) as (_ & _ & _ & _ & [?|[? _]]); auto.
  - intros k' Hk'. rewrite Hat. by rewrite decide_False by congruence.
  - exists new. split; [done|]. eapply only_mono; [exact Hnew|]. intros g [?|(st & Hk & Hg)]; [by left|right]. by exists k, st.
  - intros g (k' & st & HK' & [[-> Hk']|[Hne Hk']]%Hcase & Hg); [|right; by exists k', st].
    destruct (Hst st Hk') as (_ & _ & _ & Hm & _). destruct (Hm g Hg) as [?|(st0 & Hk & Hg0)]; [by left|right]. by exists k, st0.
  - intros k' st [[-> Hk']|[Hne Hk']]%Hcase; [|left; by exists st]. destruct (Hst st Hk') as (_ & _ & _ & _ & [?|[_ ?]]); auto.
Qed.

(** ** The changes the worker makes at one key *)

(** More of [P] was submitted and the book was not touched. *)
Definition extends (P : gostring → Prop) (w w1 : World) : Prop :=
  book w1 = book w ∧ ordered (log w1) ∧ ∃ new, log w1 = log w ++ new ∧ only P new.

Lemma extends_refl P w : ordered (log w) → extends P w w.
Proof. intros Ho. split_and!; [done|done|]. exists []. rewrite app_nil_r. split; [done|]. intros ?? []%elem_of_nil. Qed.

Lemma extends_trans P w1 w2 w3 : extends P w1 w2 → extends P w2 w3 → extends P w1 w3.
Proof.
  intros (Hb1 & _ & n1 & Hl1 & Ho1) (Hb2 & Ho & n2 & Hl2 & Ho2). split_and!; [congruence|done|].
  exists (n1 ++ n2). rewrite Hl2, Hl1, (assoc_L (++)). split; [done|by apply only_app].
Qed.

Lemma extends_silent P w e : ordered (log w) → (∀ m ok, e ≠ Submitted m ok) → extends P w (w <| log := log w ++ [e] |>).
Proof.
  intros Ho He. split_and!; [done| |].
  - intros g. cbn [log]. change (stream_ok (sent g (log w ++ [e]))). rewrite sent_app, (sent_none g [e]), app_nil_r; [apply Ho|].
    intros m ok. rewrite list_elem_of_singleton. intros <-. by destruct (He m ok).
  - exists [e]. split; [done|]. intros m ok. rewrite list_elem_of_singleton. intros <-. by destruct (He m ok).
Qed.

Section changes.
Context (submits : list Effect → Msg → bool) (K : Z * Selector → Prop).
Context (seen ids : list gostring) (w : World) (peer : Evidence).
Context (HI : Inv seen w) (Hfresh : ∀ g, g ∈ ids → g ∉ seen) (HK : K (key_of peer)).

#[local] Abbreviation P := (mine (book w) (key_of peer) ids).

(** Retiring extends the log and leaves a state that may be stored. *)
Lemma retire_extends by_ st w1 st' w2 :
  retireRoutingStream submits by_ st w1 = (st', w2) → extends P w w1 → counts (log w1) st → (∀ g, owns st g → P g) →
  extends P w w2 ∧ counts (log w2) st' ∧ quiet (log w2) st' ∧ (∀ g, owns st' g → P g) ∧ source st' = source st ∧
  bmpRoutingStateCharge st' = bmpRoutingStateCharge st ∧ familyMask st' = familyMask st.
Proof.
  intros Hr Hx Hc HP. assert (Ho1 : ordered (log w1)) by apply Hx.
  apply retire_spec in Hr as ((Hb & Ho & new & Hl & Hon & _) & Hc' & Hf & Hg & Hp & Hs & Hm); [|done..].
  split_and!; try done.
  - apply (extends_trans _ _ _ _ Hx). split_and!; [done|done|]. exists new. split; [done|]. by eapply only_mono.
  - intros Hf'. congruence.
  - intros g Hg'. apply HP. unfold owns in *. by rewrite Hg, Hp in Hg'.
  - unfold bmpRoutingStateCharge. by rewrite Hg, Hp, Hs.
Qed.

Lemma store_safe st w1 d :
  extends P w w1 → counts (log w1) st → quiet (log w1) st → (∀ g, owns st g → P g) → key_of (source st) = key_of peer →
  inherited (at_key (book w) (key_of peer)) st ∨ (placed (book w) (key_of peer) st ∧ ids ≠ []) → admission (book w) peer st = Some d →
  Inv (ids ++ seen) (put_world peer st w1) ∧ evolves K ids w (put_world peer st w1).
Proof.
  intros (Hb & Ho & new & Hl & Hon) Hc Hq HP Hs Hm Ha. unfold put_world. rewrite Hb.
  destruct (put (book w) peer st) as [b' ok] eqn:E. assert (ok = true) as ->.
  { unfold put in E. rewrite Ha in E. congruence. }
  apply book_put_spec in E as (Hat & Hlim & Hok). apply (update_safe K seen ids (key_of peer) (Some st) new); try done.
  - apply Hok, HI.
  - by intros ? [= <-].
Qed.

Lemma drop_safe st0 w1 :
  extends P w w1 → at_key (book w) (key_of peer) = Some st0 →
  Inv (ids ++ seen) (remove_world peer w1) ∧ evolves K ids w (remove_world peer w1).
Proof.
  intros (Hb & Ho & new & Hl & Hon) Hk. unfold remove_world. rewrite Hb.
  destruct (remove_spec _ _ _ Hk) as (Hat & Hlim & Hok). apply (update_safe K seen ids (key_of peer) None new); try done.
  apply Hok, HI.
Qed.

(** Messages for new generations that are not stored. *)
Lemma pass_safe w1 : extends (.∈ ids) w w1 → Inv (ids ++ seen) w1 ∧ evolves K ids w w1.
Proof.
  intros (Hb & Ho & new & Hl & Hon). apply (update_safe K seen ids (key_of peer) (at_key (book w) (key_of peer)) new); try done.
  - eapply only_mono; [done|]. by left.
  - rewrite Hb. apply HI.
  - by rewrite Hb.
  - intros k'. rewrite Hb. case_decide; congruence.
  - intros st Hk. destruct (inv_stream _ _ HI _ _ Hk) as (Hc & Hq & Hs). rewrite Hl.
    assert (HP : ∀ g, owns st g → ¬ g ∈ ids) by (intros g Hg Hid; by apply (Hfresh g Hid), (inv_seen _ _ HI _ _ _ Hk)).
    split_and!; [by eapply counts_only|eapply quiet_only; [by destruct Hc|done..]|done|..].
    + intros g Hg. right. by exists st.
    + left. by exists st.
Qed.

End changes.

(** ** Loops over cohorts *)

Definition with_cohort (peer : Evidence) (c : Z) : Evidence := peer <| routingSelector := (routingSelector peer) <| cohort := c |> |>.

Lemma peers_spec b peer p :
  p ∈ peers b peer ↔ ∃ c, c ∈ [0; 1; 2; 3] ∧ p = with_cohort peer c ∧ is_Some (at_key b (key_of p)).
Proof.
  unfold peers. rewrite list_elem_of_filter, list_elem_of_fmap. unfold at_key, key_of. cbn [fst snd].
  split; [intros (Hs & c & -> & Hc)|intros (c & Hc & -> & Hs)]; eauto.
Qed.

Lemma peers_handle b peer p : p ∈ peers b peer → sessionHandle p = sessionHandle peer.
Proof. rewrite peers_spec. by intros (c & _ & -> & _). Qed.

Lemma peers_nodup b peer : NoDup (key_of <$> peers b peer).
Proof.
  apply NoDup_fmap_2_strong.
  - intros p p' (c & _ & -> & _)%peers_spec (c' & _ & -> & _)%peers_spec [= ->]. done.
  - unfold peers. apply NoDup_filter, NoDup_fmap_2; [|by compute_done]. by intros c c' [= ?].
Qed.

Lemma evolves_key (K : Z * Selector → Prop) k ids w w' : evolves (.= k) ids w w' → K k → evolves K ids w w'.
Proof.
  intros [H (n & Hl & Ho) Hw Hm Hi] HK. assert (Hown : ∀ g, owned (.= k) (book w) g → owned K (book w) g).
  { intros g (k' & st & -> & Hs). by exists k, st. }
  split.
  - intros k' Hk'. apply H. congruence.
  - exists n. split; [done|]. eapply only_mono; [exact Ho|]. intros g [?|?]; auto.
  - intros g (k' & st & HK' & Hs & Hg). destruct (decide (k' = k)) as [->|Hne].
    + destruct (Hw g) as [?|?]; [by exists k, st|by left|right; auto].
    + right. exists k', st. rewrite <- H by done. done.
  - exact Hm.
  - exact Hi.
Qed.

Lemma safe_key (K : Z * Selector → Prop) k ids w w' : safe (.= k) ids w w' → K k → safe K ids w w'.
Proof. intros Hs HK seen HI Hids. destruct (Hs seen HI Hids). split; [done|by eapply evolves_key]. Qed.

(** A loop that changes one stored key per turn, each key once. *)
Lemma foldl_safe {A} (world : A → World) (f : A → Evidence → A) (K : Z * Selector → Prop) ps : ∀ a,
  (∀ a p, p ∈ ps → is_Some (at_key (book (world a)) (key_of p)) → safe (.= key_of p) [] (world a) (world (f a p))) →
  (∀ p, p ∈ ps → K (key_of p)) → NoDup (key_of <$> ps) → (∀ p, p ∈ ps → is_Some (at_key (book (world a)) (key_of p))) →
  safe K [] (world a) (world (foldl f a ps)).
Proof.
  induction ps as [|p ps IH]; intros a Hf HK HN Hat; [apply safe_refl|]. cbn. cbn in HN. apply NoDup_cons in HN as [Hp HN].
  assert (safe (.= key_of p) [] (world a) (world (f a p))) as H1 by (apply Hf, Hat; by left).
  intros seen HI Hids. destruct (H1 seen HI Hids) as [HI1 He1].
  destruct (IH (f a p)) with (seen := seen) as [HI2 He2]; [|intros; apply HK; by right|done| |done..|].
  - intros a' p' Hp'. apply Hf. by right.
  - intros p' Hp'. rewrite (ev_other _ _ _ _ He1); [apply Hat; by right|]. intros E. apply Hp. rewrite <- E. by apply list_elem_of_fmap_2.
  - split; [done|]. eapply evolves_trans; [eapply evolves_key; [exact He1|apply HK; by left]|done].
Qed.

(** What a turn establishes at its key holds after the loop. *)
Lemma foldl_visits {A} (world : A → World) (f : A → Evidence → A) (Q : option Stream → Prop) seen ps : ∀ a,
  (∀ a p, p ∈ ps → is_Some (at_key (book (world a)) (key_of p)) → safe (.= key_of p) [] (world a) (world (f a p))) →
  (∀ a p, p ∈ ps → is_Some (at_key (book (world a)) (key_of p)) → Q (at_key (book (world (f a p))) (key_of p))) →
  NoDup (key_of <$> ps) → (∀ p, p ∈ ps → is_Some (at_key (book (world a)) (key_of p))) → Inv seen (world a) →
  ∀ p, p ∈ ps → Q (at_key (book (world (foldl f a ps))) (key_of p)).
Proof.
  induction ps as [|p ps IH]; intros a Hf HQ HN Hat HI p' Hp'; [by apply elem_of_nil in Hp'|]. cbn [foldl]. cbn in HN.
  apply NoDup_cons in HN as [Hp HN]. assert (Hn : ∀ g : gostring, g ∈ [] → g ∉ seen) by by intros ? []%elem_of_nil.
  destruct (Hf a p) with (seen := seen) as [HI1 He1]; [by left|apply Hat; by left|done..|].
  assert (Hat1 : ∀ q, q ∈ ps → is_Some (at_key (book (world (f a p))) (key_of q))).
  { intros q Hq. rewrite (ev_other _ _ _ _ He1); [apply Hat; by right|]. intros E. apply Hp. rewrite <- E. by apply list_elem_of_fmap_2. }
  apply elem_of_cons in Hp' as [->|Hp'].
  - destruct (foldl_safe world f (.∈ key_of <$> ps) ps (f a p)) with (seen := seen) as [_ He]; try done.
    + intros a' q Hq. apply Hf. by right.
    + intros q Hq. by apply list_elem_of_fmap_2.
    + rewrite (ev_other _ _ _ _ He) by done. apply HQ; [by left|apply Hat; by left].
  - apply IH; try done; intros a' q Hq; [apply Hf|apply HQ]; by right.
Qed.

Section handlers.
Context (submits : list Effect → Msg → bool).
Implicit Types (K : Z * Selector → Prop).

Lemma get_at b peer st : at_key b (key_of peer) = Some st → get b peer = st.
Proof. intros Hk. unfold get. by rewrite (resolve_at _ _ _ Hk). Qed.

Lemma stored_mine b k ids st : at_key b k = Some st → ∀ g, owns st g → mine b k ids g.
Proof. intros Hk g Hg. right. by exists st. Qed.

Lemma store_same_safe K seen w peer st w1 st1 :
  Inv seen w → K (key_of peer) → at_key (book w) (key_of peer) = Some st →
  extends (mine (book w) (key_of peer) []) w w1 → counts (log w1) st1 → quiet (log w1) st1 →
  (∀ g, owns st1 g → mine (book w) (key_of peer) [] g) → source st1 = source st → familyMask st1 = familyMask st →
  bmpRoutingStateCharge st1 = bmpRoutingStateCharge st →
  Inv seen (put_world peer st1 w1) ∧ evolves K [] w (put_world peer st1 w1).
Proof.
  intros HI HK Hk Hx Hc Hq HP Hs Hm Hch. apply (store_safe K seen [] w peer HI) with (d := 0); try done; [set_solver| | |].
  - rewrite Hs. by apply (inv_stream _ _ HI).
  - left. by exists st.
  - apply (admission_same _ _ st); [apply HI|done..].
Qed.

(** Retire what is stored at a key, and store the result there. *)
Lemma retire_put_safe K w peer by_ st : at_key (book w) (key_of peer) = Some st → K (key_of peer) →
  safe K [] w (let '(st, w) := retireRoutingStream submits by_ st w in put_world peer st w).
Proof.
  intros Hk HK seen HI _. destruct (retireRoutingStream _ _ _ _) as [st' w'] eqn:E.
  destruct (inv_stream _ _ HI _ _ Hk) as (Hc & Hq & Hs).
  destruct (retire_extends submits [] w peer _ _ _ _ _ E) as (Hx & Hc' & Hq' & HP & Hs' & Hch & Hm);
    [by apply extends_refl, HI|done|by apply stored_mine|]. by apply (store_same_safe K seen w peer st).
Qed.

Lemma retire_remove_safe K w peer by_ st : at_key (book w) (key_of peer) = Some st → K (key_of peer) →
  safe K [] w (let '(_, w) := retireRoutingStream submits by_ st w in remove_world peer w).
Proof.
  intros Hk HK seen HI _. destruct (retireRoutingStream _ _ _ _) as [st' w'] eqn:E.
  destruct (inv_stream _ _ HI _ _ Hk) as (Hc & Hq & Hs).
  destruct (retire_extends submits [] w peer _ _ _ _ _ E) as (Hx & _);
    [by apply extends_refl, HI|done|by apply stored_mine|]. apply (drop_safe K seen [] w peer HI) with (st0 := st); [set_solver|done..].
Qed.

Lemma retire_cohort_safe mask rm selected w :
  is_Some (at_key (book w) (key_of selected)) → safe (.= key_of selected) [] w (retire_cohort submits mask rm selected w).
Proof.
  intros [st Hk]. unfold retire_cohort. rewrite (get_at _ _ _ Hk). destruct (_ && _); [apply safe_refl|].
  destruct (failed st) eqn:Ef.
  - intros seen HI Hids. destruct (inv_stream _ _ HI _ _ Hk) as (Hc & Hq & Hs).
    assert (Hx : extends (mine (book w) (key_of selected) []) w w) by apply extends_refl, HI.
    destruct rm; [by apply (drop_safe _ seen [] w selected HI) with (st0 := st)|].
    apply (store_same_safe _ seen w selected st); try done. by apply stored_mine.
  - pose proof (retire_put_safe (.= key_of selected) w selected selected st Hk eq_refl) as Hput.
    pose proof (retire_remove_safe (.= key_of selected) w selected selected st Hk eq_refl) as Hrem.
    destruct (retireRoutingStream _ _ _ _) as [st' w']. by destruct rm.
Qed.

Lemma retireMatchingCohorts_safe K peer mask rm w :
  (∀ s, K (sessionHandle peer, s)) → safe K [] w (retireMatchingCohorts submits peer mask rm w).
Proof.
  intros HK. apply (foldl_safe id (λ w p, retire_cohort submits mask rm p w)).
  - intros w' p Hp. apply retire_cohort_safe.
  - intros p Hp. unfold key_of. rewrite (peers_handle _ _ _ Hp). apply HK.
  - apply peers_nodup.
  - intros p Hp. apply peers_spec in Hp as (c & _ & -> & Hs). done.
Qed.

(** The submission of the next message of a live stream. *)
Lemma submit_extends seen w peer st m :
  Inv seen w → at_key (book w) (key_of peer) = Some st → failed st = false → sequence st < MaxInt64 - 1 →
  Generation m = generation st → Sequence m = sequence st + 1 →
  extends (mine (book w) (key_of peer) []) w (SubmitRoutingMessage submits m w).2 ∧
  counts (log (SubmitRoutingMessage submits m w).2) (st <| sequence := sequence st + 1 |>) ∧
  (SourceReset m = false → (SubmitRoutingMessage submits m w).1 = true →
   quiet (log (SubmitRoutingMessage submits m w).2) (st <| sequence := sequence st + 1 |>)).
Proof.
  intros HI Hk Hf Hlt Hg Hs. destruct (inv_stream _ _ HI _ _ Hk) as ((Hne & Hn & Hp) & Hq & _). destruct (Hq Hf) as [Hlive Hpr].
  unfold SubmitRoutingMessage. cbn [fst snd]. set (ok := submits (log w) m). split_and!.
  - split_and!; [done| |exists [Submitted m ok]; split; [done|]].
    + cbn. apply ordered_submit; rewrite ?Hg; [apply HI|lia|lia|by right].
    + intros m' ok'. rewrite list_elem_of_singleton. intros [= -> ->]. right. exists st. split; [done|]. rewrite Hg. split; auto.
  - split_and!; [done| |intros E; cbn in E; congruence]. change (len (sent (generation st) (log w ++ [Submitted m ok])) = sequence st + 1).
    rewrite <- Hg, sent_submit, Hg. lia.
  - intros Hr Hok _. split; [|done]. change (live (sent (generation st) (log w ++ [Submitted m ok]))).
    rewrite sent_app. apply Forall_app. split; [done|]. cbn. rewrite decide_True by done. apply Forall_singleton.
    unfold ends. cbn. rewrite Hr, Hok. by intros [?|?].
Qed.

Lemma sendRoutingCohortMessage_safe peer st w :
  at_key (book w) (key_of peer) = Some st → failed st = false →
  safe (.= key_of peer) [] w (sendRoutingCohortMessage submits peer st w).
Proof.
  intros Hk Hf. unfold sendRoutingCohortMessage. destruct (bool_decide _); [apply safe_refl|].
  destruct (routingMessage peer) as [m0|]; [|by apply retire_put_safe].
  destruct (MaxInt64 - 1 <=? sequence st) eqn:E; [by apply retire_put_safe|]. zbool.
  set (st1 := st <| sequence := sequence st + 1 |>). cbn zeta.
  match goal with |- context [SubmitRoutingMessage _ ?m' w] => set (m := m') end.
  intros seen HI Hids. destruct (submit_extends seen w peer st m HI Hk Hf E eq_refl eq_refl) as (Hx & Hc & Hq). fold st1 in Hc, Hq.
  destruct (SubmitRoutingMessage submits m w) as [ok w1] eqn:Es. cbn [fst snd] in Hx, Hc, Hq.
  destruct ok; rewrite ?andb_true_r, ?andb_false_r.
  - destruct (SourceReset m); [by apply (drop_safe _ seen [] w peer HI) with (st0 := st)|].
    apply (store_same_safe _ seen w peer st); try done; [by apply Hq|]. by apply (stored_mine _ _ _ st).
  - destruct (retireRoutingStream submits peer st1 w1) as [st2 w2] eqn:Er.
    destruct (retire_extends submits [] w peer _ _ _ _ _ Er Hx Hc) as (Hx2 & Hc2 & Hq2 & HP & Hs & Hch & Hm); [by apply (stored_mine _ _ _ st)|].
    by apply (store_same_safe _ seen w peer st).
Qed.

Lemma dispatch_cohort_safe mask acc p :
  is_Some (at_key (book acc.1) (key_of p)) → safe (.= key_of p) [] acc.1 (dispatch_cohort submits mask acc p).1.
Proof.
  destruct acc as [w c]. cbn [fst]. intros [st Hk]. unfold dispatch_cohort. rewrite (get_at _ _ _ Hk).
  destruct (_ && _); [apply safe_refl|]. destruct (failed st) eqn:Ef; [apply safe_refl|]. by apply sendRoutingCohortMessage_safe.
Qed.

Lemma dispatchRoutingCohorts_safe K ctx lost peer w :
  (∀ s, K (sessionHandle peer, s)) → safe K [] w (dispatchRoutingCohorts submits ctx lost peer w).
Proof.
  intros HK. unfold dispatchRoutingCohorts. destruct (peers (book w) peer) as [|p ps] eqn:Ep; [apply safe_refl|].
  destruct (loss lost peer); [by apply retireMatchingCohorts_safe|]. rewrite <- Ep. cbn zeta.
  match goal with |- safe _ _ _ (match ?r with _ => _ end) => set (parsed := r) end.
  assert (∀ mask, safe K [] w (let '(w, covered) := foldl (dispatch_cohort submits mask) (w, false) (peers (book w) peer) in
    if covered : bool then w else retireMatchingCohorts submits peer 0 false w)) as Hloop.
  { intros mask. assert (safe K [] w (foldl (dispatch_cohort submits mask) (w, false) (peers (book w) peer)).1) as H1.
    { apply (foldl_safe fst (dispatch_cohort submits mask) K _ (w, false)).
      - intros a q _. apply dispatch_cohort_safe.
      - intros q Hq. unfold key_of. rewrite (peers_handle _ _ _ Hq). apply HK.
      - apply peers_nodup.
      - intros q (c & _ & -> & Hs)%peers_spec. done. }
    destruct (foldl _ _ _) as [w1 [|]]; [done|]. eapply safe_trans; [exact H1|by apply retireMatchingCohorts_safe]. }
  destruct parsed as [[mask| | |]|]; try apply Hloop; by apply retireMatchingCohorts_safe.
Qed.

(** ** Staging *)

Lemma receipt_mask_range g v : ∀ m mask, 0 ≤ m ≤ 3 → receipt_mask v g m = Some mask → m ≤ mask ≤ 3 ∧ (v ≠ [] → 1 ≤ mask).
Proof.
  induction v as [|[x|] v IH]; intros m mask Hm; [intros [= <-]; split; [lia|done]| |done].
  cbn [receipt_mask]. destruct (_ || _) eqn:E; [done|]. apply orb_false_iff in E as [[[_ A1]%orb_false_iff A2]%orb_false_iff _]. zbool.
  cbn zeta. destruct (negb _); [done|]. assert (v_Afi x = 1 ∨ v_Afi x = 2) as Ha by lia.
  set (bit := Z.shiftl 1 (v_Afi x - 1)). assert (m ≤ Z.lor m bit ≤ 3 ∧ 1 ≤ Z.lor m bit) as [Hr H1].
  { unfold bit. assert (m = 0 ∨ m = 1 ∨ m = 2 ∨ m = 3) as Hc by lia. destruct Ha as [-> | ->], Hc as [-> |[-> |[-> | ->]]]; vm_compute; intuition discriminate. }
  intros Hrec. apply IH in Hrec as [Hle _]; lia.
Qed.

Lemma routingReceiptFamilyMask_range r g mask : routingReceiptFamilyMask r g = Some mask → 1 ≤ mask ≤ 3.
Proof.
  unfold routingReceiptFamilyMask. destruct r as [r|]; [|done]. destruct (_ || _) eqn:E; [done|].
  apply orb_false_iff in E as [[_ E0]%orb_false_iff _]. intros [Hr Hne]%receipt_mask_range; [|lia].
  split; [|lia]. apply Hne. by intros Hv; rewrite Hv in E0.
Qed.

Lemma resolve_key b peer selected found :
  resolve b peer = (selected, found) → sessionHandle selected = sessionHandle peer ∧ at_key b (key_of selected) = found.
Proof.
  unfold resolve, at_key, key_of. cbn [fst snd]. destruct (lookup_stream b _ _) as [st|] eqn:E; [by intros [= <- <-]|].
  destruct (negb _); [by intros [= <- <-]|].
  destruct (peers b peer) as [|p [|p' ps]] eqn:Ep; intros [= <- <-]; [done| |done].
  split; [|done]. apply (peers_handle b). rewrite Ep. by left.
Qed.

Lemma safe_weaken K ids w w' : safe K [] w w' → safe K ids w w'.
Proof. intros Hs. eapply safe_trans; [exact Hs|apply safe_refl]. Qed.

Lemma silent_safe K peer e w : K (key_of peer) → (∀ m ok, e ≠ Submitted m ok) → safe K [] w (w <| log := log w ++ [e] |>).
Proof. intros HK He seen HI Hids. apply (pass_safe K seen [] w peer); [done..|]. apply extends_silent; [apply HI|done]. Qed.

Lemma sent_fresh seen w g : Inv seen w → g ∉ seen → sent g (log w) = [].
Proof. intros HI Hg. apply sent_none. intros m ok Hm <-. by apply Hg, (inv_log _ _ HI m ok). Qed.

(** A stream of a new generation. *)
Definition new_stream (g : gostring) (st : Stream) : Prop := g ≠ [] ∧ generation st = g ∧ sequence st = 0 ∧ previous st = [] ∧ failed st = false.

Lemma new_counts seen w g st : Inv seen w → g ∉ seen → new_stream g st → counts (log w) st ∧ quiet (log w) st.
Proof.
  intros HI Hg (Hne & Hs & Hn & Hp & Hf). unfold counts, quiet. rewrite Hs, Hn, Hp, (sent_fresh seen w g HI Hg). split_and!; try done.
  intros _. split; [apply Forall_nil_2|done].
Qed.

Lemma new_owns g st : new_stream g st → ∀ g', owns st g' → g' ∈ [g].
Proof. intros (Hne & Hs & Hn & Hp & Hf) g' [Hg' [->| ->]]; [rewrite Hs; by left|congruence]. Qed.

(** A new generation that ends before it is stored. *)
Lemma discard_safe K peer by_ g st w : K (key_of peer) → new_stream g st → safe K [g] w (retireRoutingStream submits by_ st w).2.
Proof.
  intros HK Hst seen HI Hids. destruct (new_counts seen w g st HI) as [Hc _]; [apply Hids; by left|done|].
  destruct (retireRoutingStream submits by_ st w) as [st' w'] eqn:E. cbn [snd].
  apply retire_spec in E as ((Hb & Ho & new & Hl & Hon & _) & _); [|apply HI|done].
  apply (pass_safe K seen [g] w peer); [done..|]. split_and!; [done|done|]. exists new. split; [done|].
  eapply only_mono; [exact Hon|]. by apply new_owns.
Qed.

Lemma admission_charge b peer st st' :
  bmpRoutingStateCharge st' = bmpRoutingStateCharge st → admission b peer st' = admission b peer st.
Proof. intros E. by rewrite !admission_spec, E. Qed.

(** A failed attempt takes the place of the stream it would have replaced. *)
Lemma attempt_safe K seen w w1 selected st attempt g d :
  Inv seen w → g ∉ seen → g ≠ [] → K (key_of selected) → at_key (book w) (key_of selected) = Some st →
  extends (mine (book w) (key_of selected) [g]) w w1 → (∀ g', sent g' (log w1) = sent g' (log w)) →
  generation attempt = g → sequence attempt = 0 → previous attempt = generation st → previousSequence attempt = sequence st →
  key_of (source attempt) = key_of selected → familyMask attempt = familyMask st → admission (book w) selected attempt = Some d →
  let w2 := let '(attempt, w) := retireRoutingStream submits selected attempt w1 in put_world selected attempt w in
  Inv ([g] ++ seen) w2 ∧ evolves K [g] w w2.
Proof.
  intros HI Hg Hne HK Hk Hx Hsent Ag As Ap An Ak Am Aa w2. destruct (inv_stream _ _ HI _ _ Hk) as ((Hgen & Hn & _) & _ & _).
  assert (Hseen : generation st ∈ seen) by (apply (inv_seen _ _ HI (key_of selected) st); [done|split; auto]).
  assert (Hc : counts (log w1) attempt).
  { unfold counts. rewrite Ag, As, Ap, An, !Hsent, (sent_fresh seen w g HI Hg). split_and!; [done..|]. intros _. split; [|done]. intros E. by rewrite E in Hseen. }
  assert (HP : ∀ g', owns attempt g' → mine (book w) (key_of selected) [g] g').
  { intros g' [Hg' [->| ->]]; [left; rewrite Ag; by left|right]. exists st. rewrite Ap. split; [done|]. split; auto. }
  unfold w2. destruct (retireRoutingStream _ _ _ _) as [st' w'] eqn:E.
  destruct (retire_extends submits [g] w selected _ _ _ _ _ E Hx Hc HP) as (Hx2 & Hc2 & Hq2 & HP2 & Hs2 & Hch & Hm2).
  apply (store_safe K seen [g] w selected HI) with (d := d); try done.
  - intros g' Hg'. apply list_elem_of_singleton in Hg' as ->. done.
  - by rewrite Hs2.
  - left. exists st. split; [done|congruence].
  - by rewrite (admission_charge _ _ attempt).
Qed.

Context (stages : list Effect → PeerUpRequest → option Receipt * bool).

(** No family that a valid receipt names is left after the retirement with removal. *)
Lemma retire_cohort_clears mask selected w st :
  mask ≠ 0 → is_Some (at_key (book w) (key_of selected)) →
  at_key (book (retire_cohort submits mask true selected w)) (key_of selected) = Some st → Z.land mask (familyMask st) = 0.
Proof.
  intros Hm [st0 Hk]. unfold retire_cohort. rewrite (get_at _ _ _ Hk).
  destruct (negb (mask =? 0) && negb (familyMask st0 =? 0) && (Z.land mask (familyMask st0) =? 0)) eqn:E.
  { apply andb_true_iff in E as [_ E]. zbool. rewrite Hk. by intros [= <-]. }
  destruct (if failed st0 then _ else _) as [st1 w1] eqn:Er.
  assert (book w1 = book w) as Hb.
  { destruct (failed st0); [congruence|]. by apply retire_book in Er. }
  unfold remove_world. rewrite Hb. destruct (remove_spec _ _ _ Hk) as (Hat & _).
  change (at_key (remove (book w) selected) (key_of selected) = Some st → Z.land mask (familyMask st) = 0). by rewrite Hat, decide_True.
Qed.

Lemma retireMatchingCohorts_clears seen peer mask w c st :
  Inv seen w → mask ≠ 0 →
  at_key (book (retireMatchingCohorts submits peer mask true w)) (key_of (with_cohort peer c)) = Some st →
  Z.land mask (familyMask st) = 0.
Proof.
  intros HI Hm Hst. destruct (retireMatchingCohorts_safe (λ k, k.1 = sessionHandle peer) peer mask true w) with (seen := seen) as [_ He];
    [done..|by intros ? []%elem_of_nil|].
  destruct (ev_mask _ _ _ _ He _ _ Hst) as [(st0 & Hk & _)|[]]; [|done].
  destruct (inv_placed _ _ HI _ _ Hk) as (_ & Hc & _). revert st Hst. cbn in Hc.
  apply (foldl_visits id (λ w p, retire_cohort submits mask true p w) (λ o, ∀ st, o = Some st → Z.land mask (familyMask st) = 0)) with (seen := seen).
  - intros w' p _. apply retire_cohort_safe.
  - intros w' p _ Hp st. by apply retire_cohort_clears.
  - apply peers_nodup.
  - intros p Hp. by apply peers_spec in Hp as (c' & _ & -> & Hs).
  - done.
  - apply peers_spec. exists c. split_and!; [|done|by exists st0]. rewrite !elem_of_cons, elem_of_nil. lia.
Qed.

(** A valid receipt: the overlapping cohorts go, the new stream takes its place. *)
Lemma install_safe K peer mask current g w :
  (∀ s, K (sessionHandle peer, s)) → new_stream g current → 1 ≤ mask ≤ 3 → familyMask current = mask →
  key_of (source current) = key_of (with_cohort peer mask) →
  safe K [g] w (let w := retireMatchingCohorts submits peer mask true w in
                let '(b, ok) := put (book w) (with_cohort peer mask) current in
                if ok : bool then w <| book := b |>
                else (retireRoutingStream submits (with_cohort peer mask) current (routingStateRefused w)).2).
Proof.
  intros HK Hnew Hmask Hfam Hkey. cbn zeta. assert (HK' : K (key_of (with_cohort peer mask))) by apply HK.
  set (w1 := retireMatchingCohorts submits peer mask true w). set (peer' := with_cohort peer mask) in *.
  assert (H1 : safe K [] w w1) by by apply retireMatchingCohorts_safe.
  destruct (put (book w1) peer' current) as [b ok] eqn:E. destruct ok.
  - intros seen HI Hids. destruct (H1 seen HI) as [HI1 He1]; [by intros ? []%elem_of_nil|].
    destruct (new_counts seen w1 g current HI1) as [Hc Hq]; [apply Hids; by left|done|].
    assert (∃ d, admission (book w1) peer' current = Some d) as [d Hd].
    { unfold put in E. destruct (admission _ _ _) as [d|]; [by exists d|done]. }
    assert (placed (book w1) (key_of peer') current) as Hpl.
    { split; [done|split; [done|]]. intros c st' Hne Hs. destruct (inv_placed _ _ HI1 _ _ Hs) as (Hf' & _). cbn in Hf'.
      cbn. rewrite <- Hf', Z.land_comm. apply (retireMatchingCohorts_clears seen peer mask w c); [done|lia|exact Hs]. }
    replace (w1 <| book := b |>) with (put_world peer' current w1) by (unfold put_world; by rewrite E).
    destruct (store_safe K seen [g] w1 peer' HI1 Hids HK' current w1 d) as [HI2 He2]; try done; [apply extends_refl, HI1|..].
    + intros g' Hg'. left. by apply (new_owns _ _ Hnew).
    + by right.
    + split; [done|by eapply evolves_trans].
  - eapply safe_trans; [exact H1|].
    apply (safe_trans _ _ _ (routingStateRefused w1)); [by apply (silent_safe K peer')|by apply (discard_safe K peer')].
Qed.

Lemma stageRoutingCohort_safe K is_stager lost peer q w :
  (∀ s, K (sessionHandle peer, s)) → ObservationId q ≠ [] →
  safe K [ObservationId q] w (stageRoutingCohort submits stages is_stager lost peer q w).
Proof.
  intros HK Hne. unfold stageRoutingCohort. destruct (_ || _); [by apply safe_weaken, retireMatchingCohorts_safe|].
  destruct (resolve (book w) peer) as [selected found] eqn:Er. apply resolve_key in Er as [Hh Hk].
  assert (HKs : K (key_of selected)) by (unfold key_of; rewrite Hh; apply HK).
  match goal with |- context [admission _ _ ?a] => set (attempt := a) end.
  destruct (admission (book w) selected attempt) as [d|] eqn:Ea.
  2:{ apply safe_weaken, (safe_trans _ _ _ (routingStateRefused w)); [by apply (silent_safe K selected)|by apply retireMatchingCohorts_safe]. }
  destruct (stages (log w) q) as [receipt err]. set (w1 := w <| log := log w ++ [Staged q] |>).
  assert (Hw1 : safe K [] w w1) by by apply (silent_safe K selected).
  assert (Hg : generation attempt = ObservationId q) by by destruct found.
  assert (Hfail : safe K [ObservationId q] w
    match found with
    | Some _ => let '(attempt, w) := retireRoutingStream submits selected attempt w1 in put_world selected attempt w
    | None => (retireRoutingStream submits selected attempt (retireMatchingCohorts submits peer 0 false w1)).2
    end).
  { destruct found as [prev|].
    - intros seen HI Hids. apply (attempt_safe K seen w w1 selected prev attempt (ObservationId q) d); try done.
      + apply Hids. by left.
      + apply extends_silent; [apply HI|done].
      + intros g'. unfold w1. change (sent g' (log w ++ [Staged q]) = sent g' (log w)). by rewrite sent_app, app_nil_r.
    - eapply safe_trans; [exact Hw1|]. eapply safe_trans; [by apply retireMatchingCohorts_safe|]. by apply (discard_safe K selected). }
  destruct (routingReceiptFamilyMask receipt (generation attempt)) as [mask|] eqn:Em; [destruct err|]; [done| |done].
  cbn zeta. destruct (match found, receipt with Some _, Some _ => _ | _, _ => _ end); [by apply safe_weaken|].
  eapply safe_trans; [exact Hw1|]. apply install_safe; [done| |by eapply routingReceiptFamilyMask_range|done..].
  by split_and!.
Qed.

(** ** Evidence and losses *)

Lemma end_selector_safe K peer s w : K (sessionHandle peer, s) → safe K [] w (end_selector submits peer w s).
Proof.
  intros HK. unfold end_selector. destruct (lookup_stream (book w) (sessionHandle peer) s) as [st|] eqn:E; [|apply safe_refl].
  by apply (retire_remove_safe K w (peer <| routingSelector := s |>)).
Qed.

Lemma foldl_safe_all {A} (f : World → A → World) K l : (∀ w x, safe K [] w (f w x)) → ∀ w, safe K [] w (foldl f w l).
Proof. intros Hf. induction l as [|x l IH]; intros w; [apply safe_refl|]. cbn. eapply safe_trans; [apply Hf|apply IH]. Qed.

(** The new generation that an evidence may introduce. *)
Definition evidence_ids (peer : Evidence) : list gostring := match routingPeerUp peer with Some q => [ObservationId q] | None => [] end.

Context (RangeSelectors : gmap Selector Stream → list Selector) (RangeSessions : gmap Z (gmap Selector Stream) → list Z).
Context (clock : list Effect → Z) (is_writer is_stager : bool) (laneTenant : gostring).

Lemma routingStreamEvidence_safe ctx lost peer w :
  (∀ g, g ∈ evidence_ids peer → g ≠ []) →
  safe (λ k, k.1 = sessionHandle peer) (evidence_ids peer) w
    (routingStreamEvidence submits stages RangeSelectors is_writer is_stager laneTenant ctx lost peer w).
Proof.
  intros Hne. unfold routingStreamEvidence, evidence_ids in *. destruct is_writer; cbn [negb].
  - destruct (negb _); [apply safe_refl|]. destruct (routingEnd peer).
    { apply safe_weaken, foldl_safe_all. intros w' s. by apply end_selector_safe. }
    destruct (routingPeerUp peer) as [q|]; [|by apply dispatchRoutingCohorts_safe].
    apply stageRoutingCohort_safe; [done|]. apply Hne. by left.
  - destruct (routingPeerUp peer) as [q|]; [|apply safe_refl]. destruct (_ || _); [apply safe_refl|].
    apply safe_weaken. by apply (silent_safe _ peer).
Qed.

Lemma retire_lost_safe lost h s w : safe (λ _, True) [] w (retire_lost submits clock lost h w s).
Proof.
  unfold retire_lost. destruct (lookup_stream (book w) h s) as [st|] eqn:E; [|apply safe_refl]. destruct (_ || _); [apply safe_refl|].
  intros seen HI. cbn zeta. set (peer := (source st) <| observedAt := clock (log w) |>).
  assert (Hkey : key_of peer = (h, s)) by (change (key_of peer) with (key_of (source st)); by apply (inv_stream _ _ HI)).
  apply (retire_put_safe (λ _, True) w peer peer st); [by rewrite Hkey|done|done].
Qed.

Lemma retireLostRoutingStreams_safe lost w :
  safe (λ _, True) [] w (retireLostRoutingStreams submits clock RangeSessions RangeSelectors is_writer lost w).
Proof.
  unfold retireLostRoutingStreams. destruct is_writer; cbn [negb]; [|apply safe_refl].
  apply foldl_safe_all. intros w' h. apply foldl_safe_all. intros w'' s. apply retire_lost_safe.
Qed.

End handlers.

(** ** The end of a session *)

(** The last message of a generation is a reset. *)
Definition reset_last (g : gostring) (l : list Effect) : Prop :=
  ∃ m ok, last (sent g l) = Some (m, ok) ∧ SourceReset m = true.

Section ending.
Context (submits : list Effect → Msg → bool).

Lemma reset_reset_last peer g seq w :
  g ≠ [] → seq ≠ MaxInt64 → reset_last g (log (reset submits peer g seq w).2).
Proof.
  intros Hg Hs. unfold reset. rewrite bool_decide_eq_false_2 by done. replace (seq =? MaxInt64) with false by (symmetry; by apply Z.eqb_neq).
  cbn [orb]. set (m := mkMsg _ _ _ _ _ _ _ _). exists m, (submits (log w) m). split; [|done].
  change (last (sent (Generation m) (log w ++ [Submitted m (submits (log w) m)])) = Some (m, submits (log w) m)).
  rewrite sent_app. cbn. rewrite decide_True by done. apply last_snoc.
Qed.

Lemma retire_reset_last peer st w st' w' :
  retireRoutingStream submits peer st w = (st', w') → generation st ≠ [] → sequence st ≠ MaxInt64 → reset_last (generation st) (log w').
Proof.
  unfold retireRoutingStream. intros Hr Hg Hs. destruct (if negb _ then _ else _) as [st1 w1] eqn:E1.
  assert (generation st1 = generation st ∧ sequence st1 = sequence st) as [Eg Es].
  { destruct (negb _); [|by injection E1 as <- <-]. destruct (reset _ _ (previous st) _ w) as [p w2]. by injection E1 as <- <-. }
  rewrite Eg, Es in Hr. pose proof (reset_reset_last peer (generation st) (sequence st) w1 Hg Hs) as HL.
  destruct (reset _ _ (generation st) _ w1) as [q w2]. by injection Hr as <- <-.
Qed.

Lemma end_selector_ends seen peer w s st :
  Inv seen w → lookup_stream (book w) (sessionHandle peer) s = Some st →
  lookup_stream (book (end_selector submits peer w s)) (sessionHandle peer) s = None ∧
  (sequence st ≠ MaxInt64 → reset_last (generation st) (log (end_selector submits peer w s))).
Proof.
  intros HI Hk. unfold end_selector. rewrite Hk. cbn zeta. set (peer' := peer <| routingSelector := s |>).
  destruct (retireRoutingStream submits peer' st w) as [st' w1] eqn:E. pose proof (retire_book _ _ _ _ _ _ E) as Hb. split.
  - unfold remove_world. rewrite Hb. destruct (remove_spec (book w) peer' st) as (Hat & _); [done|].
    specialize (Hat (sessionHandle peer, s)). by rewrite decide_True in Hat.
  - intros Hs. apply (retire_reset_last _ _ _ _ _ E); [|done]. by destruct (inv_stream _ _ HI (sessionHandle peer, s) st Hk) as ((? & _) & _).
Qed.

(** What a removed stream owned is not touched again by the session. *)
Lemma removed_unowned seen w w1 h s st K :
  Inv seen w → at_key (book w) (h, s) = Some st → at_key (book w1) (h, s) = None →
  (∀ k, k ≠ (h, s) → at_key (book w1) k = at_key (book w) k) → ∀ g, owns st g → ¬ owned K (book w1) g.
Proof.
  intros HI Hk Hn Ho g Hg (k & st1 & _ & Hk1 & Hg1). assert (k ≠ (h, s)) as Hne by congruence.
  apply Hne. rewrite Ho in Hk1 by done. by apply (inv_owner _ _ HI k (h, s) st1 st g).
Qed.

Lemma ending_loop peer l : ∀ seen w, Inv seen w →
  let w' := foldl (end_selector submits peer) w l in
  ∀ s st, s ∈ l → lookup_stream (book w) (sessionHandle peer) s = Some st →
  lookup_stream (book w') (sessionHandle peer) s = None ∧ (sequence st ≠ MaxInt64 → reset_last (generation st) (log w')).
Proof.
  set (h := sessionHandle peer). induction l as [|s0 l IH]; intros seen w HI w' s st Hs Hk; [by apply elem_of_nil in Hs|].
  unfold w'. cbn [foldl]. set (w1 := end_selector submits peer w s0). assert (Hno : ∀ g : gostring, g ∈ [] → g ∉ seen) by by intros ? []%elem_of_nil.
  destruct (end_selector_safe submits (.= (h, s0)) peer s0 w eq_refl seen HI Hno) as [HI1 He1].
  destruct (decide (s = s0)) as [->|Hne].
  - destruct (end_selector_ends seen peer w s0 st HI Hk) as [Hn1 Hr1]. fold w1 h in Hn1, Hr1.
    destruct (foldl_safe_all (end_selector submits peer) (λ k, k.1 = h) l) with (w := w1) (seen := seen) as [_ He2]; [|done..|].
    { intros w2 s2. by apply end_selector_safe. }
    split.
    + destruct (lookup_stream (book (foldl _ _ _)) h s0) as [st2|] eqn:E; [|done]. destruct (ev_mask _ _ _ _ He2 (h, s0) st2 E) as [(st3 & Hk3 & _)|[]]; [|done].
      change (lookup_stream (book w1) h s0 = Some st3) in Hk3. congruence.
    + intros Hq. destruct (ev_log _ _ _ _ He2) as (new & Hl & Hon). unfold reset_last. rewrite Hl, (sent_only _ _ _ _ Hon); [by apply Hr1|].
      intros [[]%elem_of_nil|Ho]. revert Ho. apply (removed_unowned seen w w1 h s0 st); [done|done|exact Hn1| |].
      * intros k Hk'. by apply (ev_other _ _ _ _ He1).
      * destruct (inv_stream _ _ HI (h, s0) st Hk) as ((? & _) & _). split; auto.
  - apply elem_of_cons in Hs as [->|Hs]; [done|]. apply (IH seen w1 HI1 s st Hs). change (at_key (book w1) (h, s) = Some st).
    rewrite (ev_other _ _ _ _ He1); [exact Hk|congruence].
Qed.

End ending.

(** ** Runs of the worker *)

Definition event_ids (e : Event) : list gostring := match e with OnEvidence _ _ peer => evidence_ids peer | OnLoss _ => [] end.

(** The observation identifiers of the Peer Up requests, which are nonces. *)
Definition run_ids (events : list Event) : list gostring := events ≫= event_ids.
Definition identified (events : list Event) : Prop := NoDup (run_ids events) ∧ [] ∉ run_ids events.

Section runs.
Context (submits : list Effect → Msg → bool).
Context (stages : list Effect → PeerUpRequest → option Receipt * bool).
Context (clock : list Effect → Z).
Context (RangeSessions : gmap Z (gmap Selector Stream) → list Z).
Context (RangeSelectors : gmap Selector Stream → list Selector).
Context (is_writer is_stager : bool).
Context (laneTenant : gostring).

#[local] Abbreviation step_ := (step submits stages clock RangeSessions RangeSelectors is_writer is_stager laneTenant).
#[local] Abbreviation work_ := (work submits stages clock RangeSessions RangeSelectors is_writer is_stager laneTenant).

Lemma empty_key limit k : at_key (newBMPRoutingStreams limit) k = None.
Proof.
  unfold at_key, lookup_stream, session, newBMPRoutingStreams. cbn [sessions].
  rewrite (lookup_empty (M := gmap Z) k.1). apply (lookup_empty (M := gmap Selector)).
Qed.

Lemma initial_inv limit : 0 ≤ limit → Inv [] (mkWorld (newBMPRoutingStreams limit) []).
Proof.
  intros Hl. split.
  - split_and!; cbn; [|done|by intros h m; rewrite lookup_empty]. unfold total. cbn. by rewrite msum_empty.
  - intros g. apply stream_ok_nil.
  - intros k st. cbn [book]. by rewrite empty_key.
  - intros k k' st st' g. cbn [book]. by rewrite empty_key.
  - intros k st g. cbn [book]. by rewrite empty_key.
  - intros m ok []%elem_of_nil.
  - intros k st. cbn [book]. by rewrite empty_key.
Qed.

Lemma step_safe e w : (∀ g, g ∈ event_ids e → g ≠ []) → safe (λ _, True) (event_ids e) w (step_ w e).
Proof.
  destruct e as [ctx lost peer|lost]; cbn [event_ids step]; intros Hne; [|apply retireLostRoutingStreams_safe].
  intros seen HI Hids. destruct (routingStreamEvidence_safe submits stages RangeSelectors is_writer is_stager laneTenant ctx lost peer w Hne seen HI Hids)
    as [HI' He]. split; [done|]. destruct He as [H1 (n & Hl & Ho) H3 H4 H5]. split; try done.
  - exists n. split; [done|]. eapply only_mono; [exact Ho|]. intros g [?|(k & st & _ & ?)]; [by left|right; by exists k, st].
  - intros g (k & st & _ & Hk & Hg). destruct (decide (k.1 = sessionHandle peer)) as [E|E].
    + destruct (H3 g) as [?|(k' & st' & _ & ?)]; [by exists k, st|by left|right; by exists k', st'].
    + right. exists k, st. rewrite <- H1 by done. done.
Qed.

(** Every run keeps the invariant, with the identifiers it has used. *)
Lemma work_inv limit events :
  0 ≤ limit → identified events →
  (∃ seen, Inv seen (work_ limit events) ∧ ∀ g, g ∈ seen → g ∈ run_ids events) ∧ BgpBook.limit (book (work_ limit events)) = limit.
Proof.
  intros Hl. unfold work. induction events as [|e events IH] using rev_ind.
  - intros _. split; [|done]. exists []. split; [by apply initial_inv|done].
  - intros [Hnd Hne]. unfold run_ids in *. rewrite bind_app, bind_singleton in Hnd, Hne. apply NoDup_app in Hnd as (Hnd1 & Hdis & Hnd2).
    rewrite elem_of_app in Hne. destruct IH as [(seen & HI & Hs) Hlim]; [split; [done|auto]|]. rewrite foldl_app. cbn [foldl].
    destruct (step_safe e (foldl step_ (mkWorld (newBMPRoutingStreams limit) []) events)) with (seen := seen) as [HI' He]; [|done|..].
    + intros g Hg ->. auto.
    + intros g Hg Hs'. apply (Hdis g); auto.
    + split; [|by rewrite (ev_limit _ _ _ _ He)]. eexists. split; [exact HI'|]. intros g. rewrite bind_app, bind_singleton, !elem_of_app. intros [?|?]; auto.
Qed.

(** C21. Streams are ordered: whatever the services answer and however evidence of the
    sessions, stream ends and losses interleave, the messages submitted for each generation
    are numbered 1, 2, 3, … without a gap or a repetition and within int64, and once one of
    them was a reset or was not accepted, only resets follow; provided the staging requests
    carry distinct nonces. *)
Theorem streams_ordered (limit : Z) (events : list Event) :
  0 ≤ limit → identified events → ∀ g, stream_ok (sent g (log (work_ limit events))).
Proof. intros Hl Hid. destruct (work_inv limit events Hl Hid) as [(seen & HI & _) _]. apply HI. Qed.

(** C23. The routing state is bounded: the bytes the book says it uses are exactly the
    charges of the streams it holds and never exceed the configured limit, no emptied session
    is kept, and of one peer no two stored cohorts share an address family, so that a family
    has at most one current stream. *)
Theorem routing_state_bounded (limit : Z) (events : list Event) :
  0 ≤ limit → identified events →
  let b := book (work_ limit events) in
  used b = total b ∧ used b ≤ limit ∧ (∀ h m, sessions b !! h = Some m → m ≠ ∅) ∧
  ∀ h s c st st', c ≠ cohort s → lookup_stream b h s = Some st → lookup_stream b h (s <| cohort := c |>) = Some st' →
    Z.land (familyMask st') (familyMask st) = 0.
Proof.
  intros Hl Hid b. destruct (work_inv limit events Hl Hid) as [(seen & HI & _) Hlim]. fold b in Hlim.
  destruct (inv_book _ _ HI) as (Hu & Hle & Hne). fold b in Hu, Hle, Hne. split_and!; [done|lia|done|].
  intros h s c st st' Hc Hs Hs'. destruct (inv_placed _ _ HI (h, s) st Hs) as (-> & _ & Hd).
  destruct (inv_placed _ _ HI (sibling (h, s) c) st' Hs') as (-> & _ & _). by apply (Hd c st').
Qed.

(** C22. Sessions are isolated: processing an evidence of one session leaves the streams of
    every other session as they were, and every message it submits is for a generation that
    this session held before or that the evidence itself introduces. *)
Theorem session_isolated (limit : Z) (events : list Event) ctx lost (peer : Evidence) :
  0 ≤ limit → identified (events ++ [OnEvidence ctx lost peer]) →
  let w := work_ limit events in
  let w' := work_ limit (events ++ [OnEvidence ctx lost peer]) in
  (∀ h s, h ≠ sessionHandle peer → lookup_stream (book w') h s = lookup_stream (book w) h s) ∧
  ∃ new, log w' = log w ++ new ∧ ∀ m ok, Submitted m ok ∈ new →
    Generation m ∈ evidence_ids peer ∨
    ∃ s st, lookup_stream (book w) (sessionHandle peer) s = Some st ∧ (Generation m = generation st ∨ Generation m = previous st).
Proof.
  intros Hl [Hnd Hne] w w'. unfold run_ids in *. rewrite bind_app, bind_singleton in Hnd, Hne. apply NoDup_app in Hnd as (Hnd1 & Hdis & _).
  rewrite elem_of_app in Hne. destruct (work_inv limit events Hl) as [(seen & HI & Hs) _]; [split; auto|]. fold w in HI.
  destruct (routingStreamEvidence_safe submits stages RangeSelectors is_writer is_stager laneTenant ctx lost peer w)
    with (seen := seen) as [_ He]; [intros g Hg ->; auto|done|intros g Hg Hg'; apply (Hdis g); auto|].
  unfold w', work. rewrite foldl_app. cbn [foldl step]. fold w. destruct He as [H1 (new & Hlog & Ho) _ _ _]. split.
  - intros h s Hh. by apply (H1 (h, s)).
  - exists new. split; [exact Hlog|]. intros m ok Hm. destruct (Ho m ok Hm) as [?|([h s] & st & Hk & Hst & _ & Hg)]; [by left|right].
    cbn in Hk. subst h. by exists s, st.
Qed.

(** The end of a session retires all of its streams: once the stream-end marker of a
    session has been processed, the book holds nothing of the session, and the last message
    of each generation that was current is a reset, unless its numbers were used up. *)
Theorem session_end_retires (limit : Z) (events : list Event) ctx lost (peer : Evidence) :
  (∀ m s, s ∈ RangeSelectors m ↔ is_Some (m !! s)) →
  0 ≤ limit → identified events → is_writer = true → tenantID peer = laneTenant → routingEnd peer = true →
  let w := work_ limit events in
  let w' := step_ w (OnEvidence ctx lost peer) in
  sessions (book w') !! sessionHandle peer = None ∧
  ∀ s st, lookup_stream (book w) (sessionHandle peer) s = Some st → sequence st ≠ MaxInt64 → reset_last (generation st) (log w').
Proof.
  intros Hrange Hl Hid Hw Ht He w w'. destruct (work_inv limit events Hl Hid) as [(seen & HI & _) _]. fold w in HI.
  assert (Hw' : w' = foldl (end_selector submits peer) w (RangeSelectors (session (book w) (sessionHandle peer)))).
  { unfold w', step, routingStreamEvidence. rewrite Hw, Ht, He. by rewrite bool_decide_eq_true_2. }
  pose proof (ending_loop submits peer (RangeSelectors (session (book w) (sessionHandle peer))) seen w HI) as Hloop. rewrite <- Hw' in Hloop.
  cbn zeta in Hloop. split; [|intros s st Hk; apply (Hloop s st); [apply Hrange; by exists st|done]].
  destruct (foldl_safe_all (end_selector submits peer) (λ k, k.1 = sessionHandle peer) (RangeSelectors (session (book w) (sessionHandle peer))))
    with (w := w) (seen := seen) as [HI' Hev]; [intros ??; by apply end_selector_safe|done|by intros ? []%elem_of_nil|].
  rewrite <- Hw' in HI', Hev. destruct (sessions (book w') !! sessionHandle peer) as [m|] eqn:E; [exfalso|done].
  destruct (inv_book _ _ HI') as (_ & _ & Hne). apply (Hne _ _ E). apply map_empty. intros s.
  destruct (m !! s) as [st|] eqn:Es; [exfalso|done].
  assert (lookup_stream (book w') (sessionHandle peer) s = Some st) as Hk by (unfold lookup_stream, session; by rewrite E).
  destruct (ev_mask _ _ _ _ Hev (sessionHandle peer, s) st Hk) as [(st0 & Hk0 & _)|[]]; [|done].
  destruct (Hloop s st0) as [Hn _]; [apply Hrange; by exists st0|done|]. congruence.
Qed.

End runs.

(** ** Witnesses *)

(** Two sessions; the service refuses the third message of a stream. *)
Definition demo_submits (l : list Effect) (m : Msg) : bool := negb (Sequence m =? 3).
Definition demo_stages (l : list Effect) (q : PeerUpRequest) : option Receipt * bool :=
  (Some (mkReceipt (str "staged") [Some (mkReceiptView (ObservationId q) 1 1); Some (mkReceiptView (ObservationId q) 2 1)]), false).
Definition demo_clock (l : list Effect) : Z := 0.
Definition demo_sessions (m : gmap Z (gmap Selector Stream)) : list Z := (map_to_list m).*1.
Definition demo_selectors (m : gmap Selector Stream) : list Selector := (map_to_list m).*1.

Definition demo_evidence (h : Z) (m : option Msg) (ending : bool) (q : option PeerUpRequest) : Evidence :=
  mkEvidence noSelector None m ending q h (str "tenant") (str "agent") (str "serial") [] 0 0.
Definition demo_up (h : Z) (id : gostring) : Event :=
  OnEvidence Background (λ _, false) (demo_evidence h None false (Some (mkRequest id (str "agent") (str "serial") 0 []))).
Definition demo_beat (h : Z) : Event :=
  OnEvidence Background (λ _, false) (demo_evidence h (Some (mkMsg [] true false [] [] [] 0 0)) false None).
Definition demo_end (h : Z) : Evidence := demo_evidence h None true None.

Definition demo_events : list Event :=
  [demo_up 1 (str "a"); demo_beat 1; demo_up 2 (str "b"); demo_beat 1; demo_beat 2; demo_beat 1].

#[local] Abbreviation demo_work := (work demo_submits demo_stages demo_clock demo_sessions demo_selectors true true (str "tenant") 100000).

Lemma demo_identified : identified demo_events.
Proof. split; apply (bool_decide_unpack _); by vm_compute. Qed.

Lemma demo_range m s : s ∈ demo_selectors m ↔ is_Some (m !! s).
Proof.
  unfold demo_selectors. rewrite list_elem_of_fmap. split.
  - intros ([s' st] & -> & Hin). apply elem_of_map_to_list in Hin. by exists st.
  - intros [st Hs]. exists (s, st). split; [done|]. by apply elem_of_map_to_list.
Qed.

(** The third message of the first stream is refused; a reset follows as the fourth. *)
Lemma streams_ordered_witness :
  stream_ok (sent (str "a") (log (demo_work demo_events))) ∧
  (λ x, (Sequence x.1, SourceReset x.1, x.2)) <$> sent (str "a") (log (demo_work demo_events)) =
    [(1, false, true); (2, false, true); (3, false, false); (4, true, true)].
Proof.
  split; [|vm_compute; reflexivity].
  apply (streams_ordered demo_submits demo_stages demo_clock demo_sessions demo_selectors true true (str "tenant") 100000 demo_events);
    [lia|apply demo_identified].
Defined.

Lemma routing_state_bounded_witness : used (book (demo_work demo_events)) ≤ 100000 ∧ used (book (demo_work demo_events)) = 2084.
Proof.
  destruct (routing_state_bounded demo_submits demo_stages demo_clock demo_sessions demo_selectors true true (str "tenant") 100000 demo_events)
    as (_ & H & _); [lia|apply demo_identified|]. split; [exact H|vm_compute; reflexivity].
Defined.

Lemma session_isolated_witness :
  lookup_stream (book (demo_work (demo_events ++ [demo_beat 2]))) 1 (noSelector <| cohort := 3 |>) =
  lookup_stream (book (demo_work demo_events)) 1 (noSelector <| cohort := 3 |>) ∧
  (λ st, sequence st) <$> lookup_stream (book (demo_work (demo_events ++ [demo_beat 2]))) 2 (noSelector <| cohort := 3 |>) = Some 2.
Proof.
  split; [|vm_compute; reflexivity].
  destruct (session_isolated demo_submits demo_stages demo_clock demo_sessions demo_selectors true true (str "tenant") 100000 demo_events
    Background (λ _, false) (demo_evidence 2 (Some (mkMsg [] true false [] [] [] 0 0)) false None)) as [H _];
    [lia|apply demo_identified|]. apply (H 1). discriminate.
Defined.

#[local] Abbreviation demo_ended :=
  (step demo_submits demo_stages demo_clock demo_sessions demo_selectors true true (str "tenant") (demo_work demo_events)
    (OnEvidence Background (λ _, false) (demo_end 2))).

Lemma session_end_retires_witness : sessions (book demo_ended) !! sessionHandle (demo_end 2) = None ∧ reset_last (str "b") (log demo_ended).
Proof.
  destruct (session_end_retires demo_submits demo_stages demo_clock demo_sessions demo_selectors true true (str "tenant") 100000 demo_events
    Background (λ _, false) (demo_end 2) demo_range ltac:(lia) demo_identified eq_refl eq_refl eq_refl) as [H1 H2].
  split; [exact H1|].
  assert (Hb : ∃ st, lookup_stream (book (demo_work demo_events)) (sessionHandle (demo_end 2)) (noSelector <| cohort := 3 |>) = Some st ∧
    generation st = str "b" ∧ sequence st ≠ MaxInt64).
  { eexists. split_and!; [vm_compute; reflexivity|reflexivity|discriminate]. }
  destruct Hb as (st & Hs & <- & Hq). exact (H2 _ st Hs Hq).
Defined.

End BgpStreams.
