(* ===== verification/BgpMonitor.v ===== *)
(** * Route Monitoring observations of the BMP listener (internal/bgp/bmp.go)

    The listener's own reader of Route Monitoring payloads, which publishes IPv4
    announcements as events: the per-peer header, the embedded UPDATE, the AS_PATH in either
    width, and the announced prefixes, with fixed ceilings on what one message may contain.
    It returns on every input within those ceilings, and on the messages both can read it
    agrees with the strict decoder of BgpUpdate. *)

From S2P Require Import Prelude GoTime FlowModel Wire GoString GoProg BgpBase AsPath BgpPrefix BgpUpdate BgpPeer BgpChanges.
#[local] Open Scope Z_scope.

Module BgpMonitor.
Import AsPath BgpPrefix BgpUpdate BgpPeer BgpChanges.

(** ** Data *)

(** The sentinel errors, and the messages made on the spot. *)
Inductive mon_err := errBMPASPathLimit | errBMPAnnouncementLimit | errBMPRoutePathWorkLimit | errBMPUnsupportedUpdate | Malformed (what : string).

Abbreviation MM := (prog (list mon_err)).

Definition bmpPeerFlagIPv6 : Z := 0x80.
Definition bmpMaxMessageBytes : Z := 2 ^ 20.
Definition bgpPathAttrASPath : Z := 2.
Definition bgpPathAttrAS4Path : Z := 17.
Definition bgpPathAttrExtended : Z := 0x10.
Definition bgpPathAttrMPReachNLRI : Z := 14.
Definition bgpPathAttrMPUnreachNLRI : Z := 15.
Definition maxBMPASPathEntries : Z := 512.
Definition maxBMPRouteAnnouncements : Z := 4096.
Definition maxBMPRoutePathEntries : Z := 2 ^ 18.

Record bmpPeer := mkPeer { ASN : Z; Address : string; TimestampUnixNano : Z }.
Record bmpRouteAnnouncement := mkAnnouncement { Prefix : string; ASPath : list Z; OriginASN : Z }.
Record bmpRouteMonitoringObservation := mkObservation { peer : bmpPeer; routes : list bmpRouteAnnouncement }.

(** ** Frames *)

(** [r] is what the connection still delivers; io.ReadFull needs all it asks for. *)
Definition readBMPHeader (r : list byte) : MM (Z * Z) :=
  fail_if (len r <? bmpCommonHeaderLen) (Malformed "unexpected EOF");;
  version ← index r 0;
  fail_if (negb (version =? bmpVersion)) (Malformed "unsupported version");;
  msgLen ← beU32 r 1;
  fail_if (msgLen <? bmpCommonHeaderLen) (Malformed "invalid message length");;
  fail_if (bmpMaxMessageBytes <? msgLen) (Malformed "message length exceeds limit");;
  kind ← index r 5;
  mret (kind, msgLen - bmpCommonHeaderLen).

Definition readBMPMessage (r : list byte) : MM (Z * list byte * list byte) :=
  '(msgType, payloadLen) ← readBMPHeader r;
  let r := drop (Z.to_nat bmpCommonHeaderLen) r in
  fail_if (len r <? payloadLen) (Malformed "unexpected EOF");;
  payload ← subslice r 0 payloadLen;
  mret (msgType, payload, drop (Z.to_nat payloadLen) r).

(** ** The per-peer header *)

(** [netip.AddrFromSlice] of sixteen bytes always succeeds. *)
Definition parseBMPPeer (header : list byte) : MM bmpPeer :=
  fail_if (negb (len header =? bmpPeerHeaderLen)) (Malformed "peer header length");;
  addrRaw ← subslice header 10 26;
  flags ← index header 1;
  addr ← (if negb (Z.land flags bmpPeerFlagIPv6 =? 0) then mret (AddrFrom16 addrRaw)
          else four ← subslice addrRaw 12 16; mret (AddrFrom4 four));
  sec ← beU32 header 34;
  usec ← beU32 header 38;
  asn ← beU32 header 26;
  let ts := if negb (sec =? 0) || negb (usec =? 0) then UnixNano (Unix sec (usec * 1000)) else 0 in
  mret (mkPeer asn (Addr_String addr) ts).

(** ** Path attributes *)

(** The header length and the value length of the attribute at the front; [None] is a
    truncated extended header. *)
Definition attr_header (attrs : list byte) : MM (option (Z * Z)) :=
  flags ← index attrs 0;
  attrLen ← index attrs 2;
  if negb (Z.land flags bgpPathAttrExtended =? 0) then
    if len attrs <? 4 then mret None
    else attrLen ← beU16 attrs 2; mret (Some (4, attrLen))
  else mret (Some (3, attrLen)).

Fixpoint bgpAttrsContainType (fuel : nat) (attrs : list byte) (typ : Z) : MM bool :=
  if len attrs <? 3 then mret false
  else match fuel with
       | O => OutOfFuel
       | S fuel =>
           h ← attr_header attrs;
           match h with
           | None => mret false
           | Some (headerLen, attrLen) =>
               t ← index attrs 1;
               if t =? typ then mret true
               else if len attrs <? headerLen + attrLen then mret false
               else
                 rest ← subslice attrs (headerLen + attrLen) (len attrs);
                 bgpAttrsContainType fuel rest typ
           end
       end.

(** ** The AS path *)

Fixpoint count_entries (fuel : nat) (width entries : Z) (r : Reader) : MM (option Z) :=
  if Wire.Empty r then mret (match Wire.Err r with None => Some entries | Some _ => None end)
  else match fuel with
       | O => OutOfFuel
       | S fuel =>
           if Remaining r <? 2 then mret None
           else
             let '(segType, r) := U8 r in
             let '(count, r) := U8 r in
             if (segType <? 1) || (4 <? segType) then mret None
             else if Z.quot (Remaining r) width <? count then mret None
             else
               let '(_, r) := Skip (count * width) r in
               count_entries fuel width (entries + count) r
       end.

Definition countBGPASPathEntries (v : list byte) (width : Z) : MM (option Z) :=
  if width <=? 0 then mret None else count_entries (length v) width 0 (New v).

Fixpoint read_entries (count : nat) (width : Z) (r : Reader) : list Z * Reader :=
  match count with
  | O => ([], r)
  | S count =>
      let '(asn, r) := if width =? 4 then U32 r else U16 r in
      let '(asns, r) := read_entries count width r in
      (asn :: asns, r)
  end.

Fixpoint read_path (fuel : nat) (width : Z) (path : list Z) (r : Reader) : MM (option (list Z)) :=
  if Wire.Empty r then mret (Some path)
  else match fuel with
       | O => OutOfFuel
       | S fuel =>
           let '(_, r) := Skip 1 r in
           let '(count, r) := U8 r in
           let '(asns, r) := read_entries (Z.to_nat count) width r in
           match Wire.Err r with
           | Some _ => mret None
           | None => read_path fuel width (path ++ asns) r
           end
       end.

(** [None] is [ok == false]. *)
Definition parseBGPASPathValueWidth (v : list byte) (width : Z) : MM (option (list Z)) :=
  n ← countBGPASPathEntries v width;
  match n with
  | None => mret None
  | Some entryCount =>
      fail_if (maxBMPASPathEntries <? entryCount) errBMPASPathLimit;;
      read_path (length v) width [] (New v)
  end.

Definition parseBGPASPathValue (v : list byte) : MM (list Z) :=
  four ← parseBGPASPathValueWidth v 4;
  match four with
  | Some path => mret path
  | None =>
      two ← parseBGPASPathValueWidth v 2;
      match two with
      | Some path => mret path
      | None => Fail [Malformed "malformed AS_PATH"]
      end
  end.

Fixpoint as_path_loop (fuel : nat) (attrs : list byte) (as4Path : list Z) : MM (list Z) :=
  if len attrs <=? 0 then
    if 0 <? len as4Path then mret as4Path else Fail [Malformed "update has no AS_PATH"]
  else match fuel with
       | O => OutOfFuel
       | S fuel =>
           fail_if (len attrs <? 3) (Malformed "malformed path attribute header");;
           typ ← index attrs 1;
           h ← attr_header attrs;
           match h with
           | None => Fail [Malformed "malformed extended path attribute header"]
           | Some (headerLen, attrLen) =>
               fail_if (len attrs <? headerLen + attrLen) (Malformed "path attribute length exceeds update");;
               v ← subslice attrs headerLen (headerLen + attrLen);
               if typ =? bgpPathAttrASPath then parseBGPASPathValue v
               else
                 as4Path ← (if typ =? bgpPathAttrAS4Path then
                              path ← catch (parseBGPASPathValue v) (λ _, mret []);
                              mret (if 0 <? len path then path else as4Path)
                            else mret as4Path);
                 rest ← subslice attrs (headerLen + attrLen) (len attrs);
                 as_path_loop fuel rest as4Path
           end
       end.

Definition parseBGPASPath (attrs : list byte) : MM (list Z) := as_path_loop (length attrs) attrs [].

(** ** Announced prefixes *)

Fixpoint nlri_count (fuel : nat) (raw : list byte) (count : Z) : MM Z :=
  if len raw <=? 0 then mret count
  else match fuel with
       | O => OutOfFuel
       | S fuel =>
           bits ← index raw 0;
           fail_if (32 <? bits) (Malformed "invalid ipv4 prefix length");;
           fail_if (bits =? 0) errBMPUnsupportedUpdate;;
           let n := Z.quot (bits + 7) 8 in
           fail_if (len raw <? 1 + n) (Malformed "truncated ipv4 nlri");;
           fail_if (count =? maxBMPRouteAnnouncements) errBMPAnnouncementLimit;;
           rest ← subslice raw (1 + n) (len raw);
           nlri_count fuel rest (count + 1)
       end.

Definition countIPv4NLRI (raw : list byte) : MM Z := nlri_count (length raw) raw 0.

(** netip.Prefix.String *)
Definition Prefix_String (p : NetPrefix) : string := (Addr_String (p_Addr p) +:+ "/" +:+ FormatUint (p_Bits p))%string.

Fixpoint decodeIPv4NLRI (fuel : nat) (raw : list byte) : MM (list string) :=
  if len raw <=? 0 then mret []
  else match fuel with
       | O => OutOfFuel
       | S fuel =>
           bits ← index raw 0;
           let n := Z.quot (bits + 7) 8 in
           octets ← subslice raw 1 (1 + n);
           rest ← subslice raw (1 + n) (len raw);
           prefixes ← decodeIPv4NLRI fuel rest;
           mret (Prefix_String (Masked (mkPrefix (AddrFrom4 (array 4 octets)) bits)) :: prefixes)
       end.

Definition validateBMPUpdateCardinality (asPathEntries announcements : Z) : MM () :=
  fail_if ((asPathEntries <? 0) || (maxBMPASPathEntries <? asPathEntries)) errBMPASPathLimit;;
  fail_if ((announcements <? 0) || (maxBMPRouteAnnouncements <? announcements)) errBMPAnnouncementLimit;;
  fail_if (negb (asPathEntries =? 0) && (Z.quot maxBMPRoutePathEntries asPathEntries <? announcements)) errBMPRoutePathWorkLimit.

(** ** The embedded UPDATE *)

(** From the attribute bytes and the prefix bytes of an UPDATE to its announcements. *)
Definition announcements (attrs nlri : list byte) : MM (list bmpRouteAnnouncement) :=
  reach ← bgpAttrsContainType (length attrs) attrs bgpPathAttrMPReachNLRI;
  unreach ← (if reach : bool then mret true else bgpAttrsContainType (length attrs) attrs bgpPathAttrMPUnreachNLRI);
  fail_if unreach errBMPUnsupportedUpdate;;
  if len nlri =? 0 then mret []
  else
    asPath ← parseBGPASPath attrs;
    fail_if (len asPath =? 0) (Malformed "empty AS_PATH");;
    prefixCount ← countIPv4NLRI nlri;
    validateBMPUpdateCardinality (len asPath) prefixCount;;
    prefixes ← decodeIPv4NLRI (length nlri) nlri;
    mret ((λ p, mkAnnouncement p asPath (List.last asPath 0)) <$> prefixes).

Definition parseBGPUpdateRoutes (raw : list byte) : MM (list bmpRouteAnnouncement) :=
  fail_if (len raw <? bgpHeaderLen) (Malformed "embedded bgp message too short");;
  marker ← subslice raw 0 16;
  fail_if (negb (is_marker marker)) (Malformed "embedded bgp marker is invalid");;
  msgLen ← beU16 raw 16;
  fail_if ((msgLen <? bgpHeaderLen) || (len raw <? msgLen)) (Malformed "invalid embedded bgp length");;
  kind ← index raw 18;
  fail_if (negb (kind =? bgpMessageTypeUpdate)) (Malformed "embedded bgp message is not UPDATE");;
  body ← subslice raw bgpHeaderLen msgLen;
  fail_if (len body <? 4) (Malformed "update body too short");;
  withdrawnLen ← beU16 body 0;
  fail_if (len body <? 2 + withdrawnLen + 2) (Malformed "withdrawn-routes length exceeds update body");;
  fail_if (0 <? withdrawnLen) errBMPUnsupportedUpdate;;
  let pos := 2 + withdrawnLen in
  attrLen ← beU16 body pos;
  let pos := pos + 2 in
  fail_if (len body <? pos + attrLen) (Malformed "path-attributes length exceeds update body");;
  attrs ← subslice body pos (pos + attrLen);
  nlri ← subslice body (pos + attrLen) (len body);
  announcements attrs nlri.

Definition parseBMPRouteMonitoring (payload : list byte) : MM bmpRouteMonitoringObservation :=
  fail_if (len payload <? bmpPeerHeaderLen) (Malformed "route-monitoring payload too short");;
  header ← subslice payload 0 bmpPeerHeaderLen;
  peer ← parseBMPPeer header;
  body ← subslice payload bmpPeerHeaderLen (len payload);
  routes ← parseBGPUpdateRoutes body;
  mret (mkObservation peer routes).

(** ** AS paths as segments

    Unlike the strict decoder, this reader accepts empty segments. *)

Definition lax_ok (w : nat) (s : ASPathSegment) : Prop :=
  1 ≤ Kind s ≤ 4 ∧ len (Values s) ≤ 255 ∧ Forall (λ v, 0 ≤ v < 256 ^ Z.of_nat w) (Values s).

Definition asns_of (path : list ASPathSegment) : list Z := concat (Values <$> path).

Lemma strict_lax w s : segment_ok w s → lax_ok w s.
Proof. intros (Hk & Hl & Hv). unfold ASPathSet, ASPathConfedSet in *. split_and!; [lia..|done]. Qed.

Lemma reads_byte b : Reads U8 [b] (byteZ b).
Proof.
  replace [b] with (be_bytes 1 (byteZ b)) by (cbn; by rewrite Zbyte_byteZ). apply reads_U8. apply byteZ_range.
Qed.

Lemma view_Empty r l : wf r → view r = Some l → Wire.Empty r = bool_decide (l = []) ∧ Remaining r = len l ∧ Wire.Err r = None.
Proof.
  intros W V. pose proof (view_Remaining r W) as H. rewrite V in H. cbn in H. unfold Wire.Empty. rewrite H. split_and!; [|done|by eapply view_Err].
  destruct l; [done|]. rewrite len_cons. pose proof (len_nonneg l). rewrite bool_decide_eq_false_2 by done. apply Z.eqb_neq. lia.
Qed.

(** A segment at the front, or a refusal of the counting pass. *)
Lemma segment_front (w : nat) l :
  (0 < w)%nat → l ≠ [] →
  (∃ s r, lax_ok w s ∧ l = encodeSegment w s ++ r) ∨
  ((len l <? 2) || ((at_ l 0 <? 1) || (4 <? at_ l 0)) || (Z.quot (len l - 2) (Z.of_nat w) <? at_ l 1)) = true.
Proof.
  intros Hw Hl. destruct ((len l <? 2) || _ || _) eqn:E; [by right|left].
  rewrite !orb_false_iff, !Z.ltb_ge in E. destruct E as ((H2 & H1 & H4) & Hq).
  destruct l as [|k [|c l]]; [done|unfold len in H2; cbn in H2; lia|].
  change (at_ (k :: c :: l) 0) with (byteZ k) in *. change (at_ (k :: c :: l) 1) with (byteZ c) in *.
  pose proof (byteZ_range c). rewrite !len_cons in Hq. pose proof (len_nonneg l). apply quot_ge in Hq; [|lia..].
  destruct (split_values w (Z.to_nat (byteZ c)) l) as (vs & r & Hn & Hvs & ->);
    [apply Nat2Z.inj_le; rewrite Nat2Z.inj_mul, Z2Nat.id by lia; unfold len in Hq; lia|].
  exists (mkSegment (byteZ k) vs), r. unfold lax_ok, encodeSegment, len. cbn. rewrite Hn, Z2Nat.id, !Zbyte_byteZ by lia.
  split_and!; try done; lia.
Qed.

Lemma encodeSegment_lax w s r :
  lax_ok w s → encodeSegment w s ++ r = [Zbyte (Kind s)] ++ [Zbyte (len (Values s))] ++ concat (be_bytes w <$> Values s) ++ r.
Proof. done. Qed.

Lemma lax_bytes w s : lax_ok w s → byteZ (Zbyte (Kind s)) = Kind s ∧ byteZ (Zbyte (len (Values s))) = len (Values s).
Proof. intros (Hk & Hl & _). pose proof (len_nonneg (Values s)). split; apply byteZ_Zbyte_small; lia. Qed.

(** The counting pass over one segment. *)
Lemma count_segment (w : nat) fuel entries r s l :
  (0 < w)%nat → lax_ok w s → wf r → view r = Some (encodeSegment w s ++ l) →
  ∃ r', wf r' ∧ view r' = Some l ∧
    count_entries (S fuel) (Z.of_nat w) entries r = count_entries fuel (Z.of_nat w) (entries + len (Values s)) r'.
Proof.
  intros Hw Hs W V. destruct (lax_bytes w s Hs) as [Bk Bn]. destruct (view_Empty _ _ W V) as (He & Hr & _).
  rewrite (encodeSegment_lax w s l Hs) in V.
  destruct (reads_byte (Zbyte (Kind s)) r _ W V) as (r1 & E1 & W1 & V1).
  destruct (reads_byte (Zbyte (len (Values s))) r1 _ W1 V1) as (r2 & E2 & W2 & V2).
  destruct (reads_Skip (len (Values s) * Z.of_nat w) (concat (be_bytes w <$> Values s)) ltac:(by rewrite len_values) r2 _ W2 V2)
    as (r3 & E3 & W3 & V3).
  exists r3. split_and!; [done..|]. cbn [count_entries]. rewrite He, E1, E2, Bk, Bn, E3. rewrite bool_decide_eq_false_2 by done.
  pose proof (len_nonneg (Values s)). pose proof (len_nonneg l).
  assert (2 ≤ Remaining r) by (rewrite Hr, len_app, len_encodeSegment; lia). ltb_false.
  destruct Hs as (Hk & _). replace ((Kind s <? 1) || (4 <? Kind s)) with false by (symmetry; apply orb_false_iff; split; apply Z.ltb_ge; lia).
  destruct (view_Empty _ _ W2 V2) as (_ & -> & _). rewrite len_app, len_values.
  replace (_ <? len (Values s)) with false; [done|]. symmetry. apply Z.ltb_ge, quot_ge; lia.
Qed.

Lemma count_refused (w : nat) fuel entries r l :
  wf r → view r = Some l → l ≠ [] →
  ((len l <? 2) || ((at_ l 0 <? 1) || (4 <? at_ l 0)) || (Z.quot (len l - 2) (Z.of_nat w) <? at_ l 1)) = true →
  count_entries (S fuel) (Z.of_nat w) entries r = mret None.
Proof.
  intros W V Hne Hbad. destruct (view_Empty _ _ W V) as (He & Hr & _). cbn [count_entries]. rewrite He, Hr.
  rewrite bool_decide_eq_false_2 by done. destruct (len l <? 2) eqn:E2; [done|]. cbn [orb] in Hbad. apply Z.ltb_ge in E2.
  destruct l as [|k [|c l]]; [done|unfold len in E2; cbn in E2; lia|].
  destruct (reads_byte k r (c :: l) W V) as (r1 & E1 & W1 & V1). destruct (reads_byte c r1 l W1 V1) as (r2 & E3 & W2 & V2).
  rewrite E1, E3. change (at_ (k :: c :: l) 0) with (byteZ k) in *. change (at_ (k :: c :: l) 1) with (byteZ c) in *.
  destruct (view_Empty _ _ W2 V2) as (_ & -> & _). rewrite !len_cons in Hbad. replace (1 + (1 + len l) - 2) with (len l) in Hbad by lia.
  destruct ((byteZ k <? 1) || (4 <? byteZ k)); [done|]. cbn [orb] in Hbad. by rewrite Hbad.
Qed.

(** The counting pass accepts exactly encodings. *)
Lemma count_entries_cases (w : nat) : (0 < w)%nat → ∀ fuel l entries r, wf r → view r = Some l → (length l ≤ fuel)%nat →
  (∃ path, Forall (lax_ok w) path ∧ l = encodePath w path ∧
    value (count_entries fuel (Z.of_nat w) entries r) = Ok (Some (entries + len (asns_of path)))) ∨
  value (count_entries fuel (Z.of_nat w) entries r) = Ok None.
Proof.
  intros Hw fuel. induction fuel as [|fuel IH]; intros l entries r W V Hf; destruct (view_Empty _ _ W V) as (He & Hr & HE).
  - destruct l; [|cbn in Hf; lia]. left. exists []. split_and!; [done..|]. cbn [count_entries]. rewrite He, HE. cbn. do 2 f_equal. unfold len. cbn. lia.
  - destruct (decide (l = [])) as [->|Hne].
    { left. exists []. split_and!; [done..|]. cbn [count_entries]. rewrite He, HE. cbn. do 2 f_equal. unfold len. cbn. lia. }
    destruct (segment_front w l Hw Hne) as [(s & l' & Hs & ->)|Hbad]; [|right; by rewrite (count_refused w _ _ _ l)].
    destruct (count_segment w fuel entries r s l' Hw Hs W V) as (r' & W' & V' & ->).
    rewrite length_app in Hf. cbn in Hf. destruct (IH l' (entries + len (Values s)) r' W' V') as [(path & Hp & -> & ->)|E]; [lia| |by right].
    left. exists (s :: path). split_and!; [by constructor|done|]. unfold asns_of. cbn. rewrite len_app. do 2 f_equal. lia.
Qed.

Lemma read_entries_ok (w : nat) vs : w = 2%nat ∨ w = 4%nat → Forall (λ v, 0 ≤ v < 256 ^ Z.of_nat w) vs → ∀ r l,
  wf r → view r = Some (concat (be_bytes w <$> vs) ++ l) →
  ∃ r', read_entries (length vs) (Z.of_nat w) r = (vs, r') ∧ wf r' ∧ view r' = Some l.
Proof.
  intros Hw Hvs. induction Hvs as [|v vs Hv Hvs IH]; intros r l W V; [by exists r|].
  cbn [fmap list_fmap concat] in V. rewrite <- app_assoc in V.
  assert (∃ r1, (if Z.of_nat w =? 4 then U32 r else U16 r) = (v, r1) ∧ wf r1 ∧ view r1 = Some (concat (be_bytes w <$> vs) ++ l)) as (r1 & E1 & W1 & V1).
  { destruct Hw as [-> | ->]; [apply (reads_U16 v Hv r _ W V)|apply (reads_U32 v Hv r _ W V)]. }
  destruct (IH r1 l W1 V1) as (r' & E' & W' & V'). exists r'. split_and!; [|done..]. cbn [length read_entries]. by rewrite E1, E'.
Qed.

(** The reading pass on an encoding. *)
Lemma read_path_ok (w : nat) path : w = 2%nat ∨ w = 4%nat → Forall (lax_ok w) path → ∀ fuel acc r,
  wf r → view r = Some (encodePath w path) → (length (encodePath w path) ≤ fuel)%nat →
  value (read_path fuel (Z.of_nat w) acc r) = Ok (Some (acc ++ asns_of path)).
Proof.
  intros Hw Hp. induction Hp as [|s path Hs Hp IH]; intros fuel acc r W V Hf; destruct (view_Empty _ _ W V) as (He & _ & _).
  - destruct fuel; cbn [read_path]; rewrite He; cbn; by rewrite app_nil_r.
  - change (encodePath w (s :: path)) with (encodeSegment w s ++ encodePath w path) in *. rewrite length_app in Hf.
    assert (2 ≤ length (encodeSegment w s))%nat by (unfold encodeSegment; cbn; lia). destruct fuel as [|fuel]; [lia|].
    destruct (lax_bytes w s Hs) as [Bk Bn]. rewrite (encodeSegment_lax w s _ Hs) in V. cbn [read_path]. rewrite He.
    rewrite bool_decide_eq_false_2 by done.
    destruct (reads_Skip 1 [Zbyte (Kind s)] ltac:(done) r _ W V) as (r1 & E1 & W1 & V1).
    destruct (reads_byte (Zbyte (len (Values s))) r1 _ W1 V1) as (r2 & E2 & W2 & V2).
    destruct (read_entries_ok w (Values s) Hw ltac:(apply Hs) r2 _ W2 V2) as (r3 & E3 & W3 & V3).
    rewrite E1, E2, Bn. replace (Z.to_nat (len (Values s))) with (length (Values s)) by (unfold len; lia). rewrite E3.
    destruct (view_Empty _ _ W3 V3) as (_ & _ & ->). rewrite IH; [|done..|lia].
    unfold asns_of. cbn. by rewrite <- app_assoc.
Qed.

Lemma value_width_cases (w : nat) v :
  w = 2%nat ∨ w = 4%nat → len v < 2 ^ 62 →
  (∃ path, Forall (lax_ok w) path ∧ v = encodePath w path ∧
    value (parseBGPASPathValueWidth v (Z.of_nat w)) =
      if maxBMPASPathEntries <? len (asns_of path) then Err [errBMPASPathLimit] else Ok (Some (asns_of path))) ∨
  value (parseBGPASPathValueWidth v (Z.of_nat w)) = Ok None.
Proof.
  intros Hw Hv. assert (0 < w)%nat as Hpos by (destruct Hw; lia). unfold parseBGPASPathValueWidth, countBGPASPathEntries.
  replace (Z.of_nat w <=? 0) with false by (symmetry; apply Z.leb_gt; lia).
  destruct (count_entries_cases w Hpos (length v) v 0 (New v) (New_wf v Hv) (New_view v)) as [(path & Hp & Hv' & E)|E]; [lia| |].
  - left. exists path. split_and!; [done..|]. prog_simpl. rewrite E. cbn [obind]. rewrite Z.add_0_l. prog_simpl.
    destruct (_ <? _); [done|]. rewrite Hv'. apply (read_path_ok w path Hw Hp); [by apply New_wf; rewrite <- Hv'|apply New_view|done].
  - right. prog_simpl. by rewrite E.
Qed.

(** ** Totality *)

#[export] Instance width_settles (w : nat) v : w = 2%nat ∨ w = 4%nat → len v < 2 ^ 62 → Settles (parseBGPASPathValueWidth v (Z.of_nat w)).
Proof.
  intros Hw Hv. destruct (value_width_cases w v Hw Hv) as [(path & _ & _ & E)|E]; unfold Settles; rewrite E; [|left; eauto].
  destruct (_ <? _); [right|left]; eauto.
Qed.

#[export] Instance path_value_settles v : len v < 2 ^ 62 → Settles (parseBGPASPathValue v).
Proof.
  intros Hv. unfold parseBGPASPathValue. apply settles_bind; [apply (width_settles 4 v); auto|intros [path|] _; [settle|]].
  apply settles_bind; [apply (width_settles 2 v); auto|intros [path|] _; settle].
Qed.

Lemma attr_header_cases attrs :
  3 ≤ len attrs →
  value (attr_header attrs) = Ok None ∨ ∃ h n, value (attr_header attrs) = Ok (Some (h, n)) ∧ 3 ≤ h ∧ 0 ≤ n < 2 ^ 16.
Proof.
  intros H. unfold attr_header. prog_reads lia. destruct (negb _).
  - destruct (len attrs <? 4) eqn:E; [by left|]. zbool. prog_reads lia. right. do 2 eexists. split; [done|].
    destruct (slice_be 2 attrs 2) as [_ Hr]; [lia..|]. change (2 + Z.of_nat 2) with (2 + 2) in Hr. change (256 ^ Z.of_nat 2) with (2 ^ 16) in Hr. lia.
  - right. do 2 eexists. split; [done|]. pose proof (at_range attrs 2). lia.
Qed.

#[export] Instance attr_header_settles attrs : 3 ≤ len attrs → Settles (attr_header attrs).
Proof. intros H. destruct (attr_header_cases attrs H) as [E|(h & n & E & _)]; left; eauto. Qed.

Lemma contains_settles fuel attrs typ : (length attrs ≤ fuel)%nat → Settles (bgpAttrsContainType fuel attrs typ).
Proof.
  revert attrs. induction fuel as [|fuel IH]; intros attrs Hf; cbn [bgpAttrsContainType]; (destruct (len attrs <? 3) eqn:E; [settle|]); zbool.
  { unfold len in E. lia. }
  apply settles_bind; [by apply attr_header_settles|]. intros h Hh.
  destruct (attr_header_cases attrs E) as [E'|(hl & n & E' & Hhl & Hn)]; rewrite E' in Hh; injection Hh as <-; [settle|]. settle.
  apply IH. pose proof (len_slice attrs (hl + n) (len attrs)). unfold len in *. lia.
Qed.

Lemma as_path_settles fuel attrs as4 : (length attrs ≤ fuel)%nat → Settles (as_path_loop fuel attrs as4).
Proof.
  revert attrs as4. induction fuel as [|fuel IH]; intros attrs as4 Hf; cbn [as_path_loop]; (destruct (len attrs <=? 0) eqn:E; [settle|]); zbool.
  { unfold len in E. lia. }
  settle. apply settles_bind; [by apply attr_header_settles|]. intros h Hh.
  destruct (attr_header_cases attrs) as [E'|(hl & n & E' & Hhl & Hn)]; [lia| |]; rewrite E' in Hh; injection Hh as <-; [settle|].
  settle; [apply path_value_settles; rewrite len_slice by lia; lia|].
  apply settles_bind.
  - settle. apply settles_bind; [|intros; settle]. apply settles_catch; [apply path_value_settles; rewrite len_slice by lia; lia|intros; settle].
  - intros as4' _. settle. apply IH. pose proof (len_slice attrs (hl + n) (len attrs)). unfold len in *. lia.
Qed.

Lemma nlri_count_settles fuel raw count : (length raw ≤ fuel)%nat → Settles (nlri_count fuel raw count).
Proof.
  revert raw count. induction fuel as [|fuel IH]; intros raw count Hf; cbn [nlri_count]; (destruct (len raw <=? 0) eqn:E; [settle|]); zbool.
  { unfold len in E. lia. }
  apply settles_index; [lia|]. pose proof (at_range raw 0). set (bits := at_ raw 0) in *.
  assert (0 ≤ Z.quot (bits + 7) 8) by (apply Z.quot_pos; lia). settle. apply IH.
  pose proof (len_slice raw (1 + Z.quot (bits + 7) 8) (len raw)). unfold len in *. lia.
Qed.

(** ** Prefixes *)

(** What the reader announces: an IPv4 prefix that is not the default route. *)
Definition announced (p : WirePrefix) : Prop := wire_ok 32 false p ∧ 1 ≤ wp_bits p.

Definition text_of (p : WirePrefix) : string := Prefix_String (Prefix_ (route_of 1 false p)).

Lemma wire_front p r :
  announced p → let raw := encodeWire false p ++ r in
  at_ raw 0 = wp_bits p ∧ len raw = 1 + octets_of (wp_bits p) + len r ∧ 0 ≤ octets_of (wp_bits p) ∧
  slice raw 1 (1 + octets_of (wp_bits p)) = wp_octets p ∧ slice raw (1 + octets_of (wp_bits p)) (len raw) = r.
Proof.
  intros [(Hid & Hb & Hl) Hpos] raw. pose proof (octets_of_spec (wp_bits p)).
  assert (Hlen : len raw = 1 + octets_of (wp_bits p) + len r) by (unfold raw, encodeWire; cbn [app]; rewrite len_cons, len_app; lia).
  assert (E : raw = [Zbyte (wp_bits p)] ++ wp_octets p ++ r) by done. split_and!; [|done|lia|..].
  - rewrite E. cbn [app]. rewrite at_cons_0. apply byteZ_Zbyte_small. lia.
  - apply (slice_split raw [Zbyte (wp_bits p)] (wp_octets p) r); [done|done|lia].
  - apply (slice_split raw ([Zbyte (wp_bits p)] ++ wp_octets p) r []); [by rewrite E, app_nil_r, app_assoc|rewrite len_app, Hl; done|lia].
Qed.

Lemma nlri_count_step fuel raw count :
  raw ≠ [] → value (nlri_count (S fuel) raw count) =
  let n := octets_of (at_ raw 0) in
  if 32 <? at_ raw 0 then Err [Malformed "invalid ipv4 prefix length"]
  else if at_ raw 0 =? 0 then Err [errBMPUnsupportedUpdate]
  else if len raw <? 1 + n then Err [Malformed "truncated ipv4 nlri"]
  else if count =? maxBMPRouteAnnouncements then Err [errBMPAnnouncementLimit]
  else value (nlri_count fuel (slice raw (1 + n) (len raw)) (count + 1)).
Proof.
  intros Hne. cbn [nlri_count]. destruct raw as [|b raw]; [done|]. set (l := b :: raw) in *.
  assert (0 < len l) by (unfold l; rewrite len_cons; pose proof (len_nonneg raw); lia).
  replace (len l <=? 0) with false by (symmetry; apply Z.leb_gt; lia). prog_reads lia. fold (octets_of (at_ l 0)).
  cbn zeta. pose proof (at_range l 0). pose proof (octets_of_spec (at_ l 0)).
  destruct (32 <? at_ l 0); [done|]. destruct (at_ l 0 =? 0); [done|]. destruct (len l <? 1 + octets_of (at_ l 0)) eqn:E; [done|]. zbool.
  destruct (count =? maxBMPRouteAnnouncements); [done|]. prog_reads lia. done.
Qed.

Lemma nlri_count_ok l : Forall announced l → ∀ fuel count,
  (length (encodeWires false l) ≤ fuel)%nat → 0 ≤ count → count + len l ≤ maxBMPRouteAnnouncements →
  value (nlri_count fuel (encodeWires false l) count) = Ok (count + len l).
Proof.
  intros Hl. induction Hl as [|p l Hp Hl IH]; intros fuel count Hf Hc Hm.
  { destruct fuel; cbn; by rewrite Z.add_0_r. }
  change (encodeWires false (p :: l)) with (encodeWire false p ++ encodeWires false l) in *. rewrite length_app in Hf.
  pose proof (encodeWire_pos false p). destruct fuel as [|fuel]; [lia|]. rewrite len_cons in *. pose proof (len_nonneg l).
  rewrite nlri_count_step by apply encodeWire_ne. destruct (wire_front p (encodeWires false l) Hp) as (E0 & E1 & E2 & _ & E4).
  cbn zeta in *. destruct Hp as [(_ & Hb & _) Hpos]. rewrite E0, E4, E1. unfold maxBMPRouteAnnouncements in *. ltb_false.
  replace (wp_bits p =? 0) with false by (symmetry; apply Z.eqb_neq; lia). pose proof (len_nonneg (encodeWires false l)). ltb_false.
  replace (count =? 4096) with false by (symmetry; apply Z.eqb_neq; lia). rewrite IH by lia. f_equal. lia.
Qed.

Lemma nlri_decode_ok l : Forall announced l → ∀ fuel,
  (length (encodeWires false l) ≤ fuel)%nat → value (decodeIPv4NLRI fuel (encodeWires false l)) = Ok (text_of <$> l).
Proof.
  intros Hl. induction Hl as [|p l Hp Hl IH]; intros fuel Hf.
  { by destruct fuel. }
  change (encodeWires false (p :: l)) with (encodeWire false p ++ encodeWires false l) in *. rewrite length_app in Hf.
  pose proof (encodeWire_pos false p). destruct fuel as [|fuel]; [lia|]. cbn [decodeIPv4NLRI].
  destruct (wire_front p (encodeWires false l) Hp) as (E0 & E1 & E2 & E3 & E4). cbn zeta in *. pose proof (len_nonneg (encodeWires false l)).
  set (raw := encodeWire false p ++ encodeWires false l) in *. clearbody raw.
  replace (len raw <=? 0) with false by (symmetry; apply Z.leb_gt; lia). prog_reads lia. rewrite E0. fold (octets_of (wp_bits p)).
  prog_reads lia. rewrite E3, E4. prog_simpl. rewrite IH by lia. done.
Qed.

(** The validating pass only accepts encodings of announced prefixes. *)
Lemma nlri_count_sound fuel : ∀ raw count n,
  (length raw ≤ fuel)%nat → 0 ≤ count ≤ maxBMPRouteAnnouncements → value (nlri_count fuel raw count) = Ok n →
  ∃ l, Forall announced l ∧ raw = encodeWires false l ∧ n = count + len l ∧ n ≤ maxBMPRouteAnnouncements.
Proof.
  induction fuel as [|fuel IH]; intros raw count n Hf Hc; destruct (decide (raw = [])) as [->|Hne].
  1,3: cbn; intros [= <-]; exists []; change (len (@nil WirePrefix)) with 0; split_and!; [done..|lia|lia].
  { destruct raw; [done|cbn in Hf; lia]. }
  rewrite nlri_count_step by done. cbn zeta. destruct raw as [|b raw]; [done|]. set (rest := b :: raw) in *.
  change (at_ rest 0) with (byteZ b). pose proof (byteZ_range b). destruct (32 <? byteZ b) eqn:E1; [done|].
  destruct (byteZ b =? 0) eqn:E2; [done|]. destruct (len rest <? 1 + octets_of (byteZ b)) eqn:E3; [done|].
  destruct (count =? maxBMPRouteAnnouncements) eqn:E4; [done|]. zbool. pose proof (octets_of_spec (byteZ b)).
  assert (Hrest : rest = encodeWire false (mkWire 0 (byteZ b) (slice rest 1 (1 + octets_of (byteZ b)))) ++ slice rest (1 + octets_of (byteZ b)) (len rest)).
  { unfold encodeWire. cbn [app wp_bits wp_octets]. rewrite Zbyte_byteZ. rewrite <- (slice_full rest) at 1.
    rewrite (slice_cat rest 0 1), (slice_cat rest 1 (1 + octets_of (byteZ b)) (len rest)) by (unfold rest; rewrite ?len_cons; pose proof (len_nonneg raw); unfold rest in *; rewrite ?len_cons in *; lia).
    done. }
  intros Hrec. apply IH in Hrec as (l & Hl & E & Hn & Hm).
  - exists (mkWire 0 (byteZ b) (slice rest 1 (1 + octets_of (byteZ b))) :: l). split_and!; [|rewrite Hrest at 1; rewrite E; reflexivity|rewrite len_cons; lia|done].
    constructor; [|done]. split; [|cbn; lia]. unfold wire_ok. cbn [wp_id wp_bits wp_octets]. split_and!; [done|lia|lia|]. rewrite len_slice by lia. lia.
  - pose proof (len_slice rest (1 + octets_of (byteZ b)) (len rest)). unfold len in *. lia.
  - lia.
Qed.

(** ** Attributes of a well-formed block *)

Lemma attr_header_ok a r : attr_ok a → value (attr_header (encodeAttr a ++ r)) = Ok (Some (header_len (Flags a), len (Value a))).
Proof.
  intros Ha. destruct (attr_fields a r Ha) as (E0 & _ & E2 & E4 & _). pose proof (encodeAttr_pos a). pose proof (len_nonneg r).
  pose proof (len_app (encodeAttr a) r). pose proof (len_encodeAttr a). pose proof (len_nonneg (Value a)). unfold attr_header. prog_reads lia.
  rewrite E0. change bgpPathAttrExtended with 0x10. fold (extended (Flags a)). unfold header_len in *.
  destruct (extended (Flags a)) eqn:E; prog_simpl; [|by rewrite E2]. ltb_false. prog_reads lia. by rewrite E4.
Qed.

(** The lengths and the rest after the attribute at the front. *)
Lemma attr_rest a r :
  attr_ok a → let raw := encodeAttr a ++ r in let n := header_len (Flags a) + len (Value a) in
  3 ≤ len raw ∧ 0 ≤ header_len (Flags a) ∧ 0 ≤ len (Value a) ∧ n ≤ len raw ∧ at_ raw 1 = Type_ a ∧
  slice raw (header_len (Flags a)) n = Value a ∧ slice raw n (len raw) = r.
Proof.
  intros Ha raw n. destruct (attr_fields a r Ha) as (_ & E1 & _ & _ & E5). pose proof (encodeAttr_pos a). pose proof (len_nonneg r).
  pose proof (len_nonneg (Value a)). assert (Hlen : len raw = n + len r) by (unfold raw, n; rewrite len_app, len_encodeAttr; lia).
  assert (0 ≤ header_len (Flags a)) by (unfold header_len; destruct (extended _); lia).
  split_and!; try done; [unfold raw; rewrite len_app; lia|lia|].
  apply (slice_split raw (encodeAttr a) r []); [by rewrite app_nil_r|by rewrite len_encodeAttr|lia].
Qed.

Lemma contains_ok typ l : Forall attr_ok l → ∀ fuel, (length (encodeAttrs l) ≤ fuel)%nat →
  value (bgpAttrsContainType fuel (encodeAttrs l) typ) = Ok (existsb (λ a, Type_ a =? typ) l).
Proof.
  intros Hl. induction Hl as [|a l Ha Hl IH]; intros fuel Hf; [by destruct fuel|].
  change (encodeAttrs (a :: l)) with (encodeAttr a ++ encodeAttrs l) in *. rewrite length_app in Hf.
  pose proof (encodeAttr_pos a) as Hpos. destruct fuel as [|fuel]; [unfold len in Hpos; lia|].
  destruct (attr_rest a (encodeAttrs l) Ha) as (H3 & Hh & Hv & Hn & E1 & _ & E3). cbn zeta in *. cbn [bgpAttrsContainType existsb].
  ltb_false. prog_simpl. rewrite attr_header_ok by done. cbn [obind]. prog_reads lia. rewrite E1. destruct (Type_ a =? typ); [done|].
  ltb_false. prog_reads lia. rewrite E3. apply IH. unfold len in *. lia.
Qed.

(** The first AS_PATH attribute is the one that counts. *)
Lemma as_path_found a l : Forall attr_ok l → attr_of 2 l = Some a → ∀ fuel as4, (length (encodeAttrs l) ≤ fuel)%nat →
  value (as_path_loop fuel (encodeAttrs l) as4) = value (parseBGPASPathValue (Value a)).
Proof.
  intros Hl. induction Hl as [|a' l Ha Hl IH]; intros Hfind fuel as4 Hf; [done|].
  change (encodeAttrs (a' :: l)) with (encodeAttr a' ++ encodeAttrs l) in *. rewrite length_app in Hf.
  pose proof (encodeAttr_pos a') as Hpos. destruct fuel as [|fuel]; [unfold len in Hpos; lia|].
  destruct (attr_rest a' (encodeAttrs l) Ha) as (H3 & Hh & Hv & Hn & E1 & E2 & E3). cbn zeta in *. cbn [as_path_loop].
  replace (len (encodeAttr a' ++ encodeAttrs l) <=? 0) with false by (symmetry; apply Z.leb_gt; lia).
  prog_simpl. ltb_false. prog_reads lia. rewrite attr_header_ok by done. cbn [obind]. prog_simpl. ltb_false. prog_reads lia.
  rewrite E1, E2. unfold attr_of in Hfind. cbn [find] in Hfind. change bgpPathAttrASPath with 2.
  destruct (Type_ a' =? 2) eqn:E; [by injection Hfind as ->|].
  assert (∃ as4', value (if Type_ a' =? bgpPathAttrAS4Path then
      path ← catch (parseBGPASPathValue (Value a')) (λ _, mret []); mret (if 0 <? len path then path else as4)
    else mret as4) = Ok as4') as [as4' Has4].
  { destruct (Type_ a' =? bgpPathAttrAS4Path); [|by exists as4]. prog_simpl.
    destruct (path_value_settles (Value a')) as [[p ->]|[e ->]]; [|cbn; eauto..].
    destruct Ha as (_ & _ & Hlen). destruct (extended (Flags a')); lia. }
  prog_simpl.
  match goal with |- context [obind ?v _] => replace v with (Ok as4' : outcome (list mon_err) (list Z)) end.
  2:{ symmetry. rewrite <- Has4. by prog_simpl. }
  cbn [obind]. prog_reads lia. rewrite E3. apply IH; [done|]. unfold len in *. lia.
Qed.

(** ** The embedded UPDATE *)

Lemma slice_slice {A} (l : list A) a b i j :
  0 ≤ a → a ≤ b → b ≤ len l → 0 ≤ i → i ≤ j → j ≤ b - a → slice (slice l a b) i j = slice l (a + i) (a + j).
Proof.
  intros. unfold slice. rewrite skipn_firstn_comm, drop_drop, take_take. f_equal; [lia|f_equal; lia].
Qed.

(** The reader on a frame without withdrawals: what is left are attributes and prefixes. *)
Lemma routes_framed block nlri extra :
  frame_fits [] block nlri → value (parseBGPUpdateRoutes (framed [] block nlri ++ extra)) = value (announcements block nlri).
Proof.
  intros Hf. destruct (framed_fields [] block nlri Hf) as (F1 & F2 & F3 & F4 & _ & F6 & F7 & F8). cbn zeta in *.
  pose proof (len_framed [] block nlri) as Hlen. set (raw := framed [] block nlri) in *. clearbody raw.
  change (len (@nil byte)) with 0 in *. pose proof (len_nonneg block). pose proof (len_nonneg nlri). pose proof (len_nonneg extra).
  pose proof (len_app raw extra) as Hle. unfold parseBGPUpdateRoutes, bgpHeaderLen, bgpMessageTypeUpdate. prog_simpl. ltb_false.
  prog_reads lia. rewrite slice_prefix, F1, is_marker_ff by lia. cbn [negb]. rewrite (slice_prefix _ _ 16 (16 + 2)), F2 by lia.
  replace ((len raw <? 19) || (len (raw ++ extra) <? len raw)) with false by (symmetry; apply orb_false_iff; split; apply Z.ltb_ge; lia).
  prog_reads lia. rewrite at_slice, slice_prefix, <- at_slice, F3 by lia. cbn [Z.eqb Pos.eqb negb].
  rewrite (slice_prefix raw extra 19 (len raw)) by lia. set (body := slice raw 19 (len raw)).
  assert (Hb : len body = len raw - 19) by (apply len_slice; lia). ltb_false. prog_reads lia.
  assert (Hs : ∀ i j, 0 ≤ i → i ≤ j → j ≤ len body → slice body i j = slice raw (19 + i) (19 + j)) by (intros; apply slice_slice; lia).
  rewrite Hs by lia. change (19 + 0) with 19. change (19 + (0 + 2)) with (19 + 2). rewrite F4. ltb_false. ltb_false. prog_reads lia.
  rewrite (Hs (2 + 0) (2 + 0 + 2)) by lia. change (19 + (2 + 0)) with (21 + 0). change (19 + (2 + 0 + 2)) with (21 + 0 + 2). rewrite F6.
  ltb_false. prog_reads lia. rewrite (Hs (2 + 0 + 2) (2 + 0 + 2 + len block)), (Hs (2 + 0 + 2 + len block) (len body)) by lia.
  replace (19 + (2 + 0 + 2)) with (21 + 0 + 2) by lia. replace (19 + (2 + 0 + 2 + len block)) with (21 + 0 + 2 + len block) by lia.
  replace (19 + len body) with (len raw) by lia. rewrite F7, F8. done.
Qed.

(** A message whose frame passes the checks. *)
Lemma routes_frame raw out :
  value (parseBGPUpdateRoutes raw) = Ok out →
  ∃ block nlri extra, raw = framed [] block nlri ++ extra ∧ frame_fits [] block nlri ∧ value (announcements block nlri) = Ok out.
Proof.
  intros H. pose proof H as H0. unfold parseBGPUpdateRoutes, bgpHeaderLen, bgpMessageTypeUpdate in H. run_guards H.
  rewrite !orb_false_iff, !Z.ltb_ge, ?negb_false_iff in *. rewrite Z.eqb_eq in *. 
  set (n := be_uint (slice raw 16 (16 + 2))) in *. set (front := slice raw 0 n). destruct G1 as [Hn19 Hn].
  assert (Hlen : len front = n) by (unfold front; rewrite len_slice; lia).
  assert (Hraw : raw = front ++ slice raw n (len raw)) by (rewrite <- (slice_full raw) at 1; apply slice_cat; lia).
  set (body := slice raw 19 n) in *. assert (Hbody : len body = n - 19) by (apply len_slice; lia).
  assert (Hs : ∀ i j, 0 ≤ i → i ≤ j → j ≤ n → slice front i j = slice raw i j).
  { intros i j Hi Hj Hjn. unfold front. rewrite slice_slice by lia. done. }
  assert (Hb : ∀ i j, 0 ≤ i → i ≤ j → j ≤ len body → slice body i j = slice front (19 + i) (19 + j)).
  { intros i j Hi Hj Hjn. rewrite Hs by lia. unfold body. rewrite slice_slice by lia. done. }
  assert (W0 : be_uint (slice body 0 (0 + 2)) = 0) by (pose proof (be_uint_range (slice body 0 (0 + 2))); lia).
  rewrite W0 in G6. rewrite Hb in W0, G6 by lia. change (19 + 0) with 19 in W0. change (19 + (0 + 2)) with (19 + 2) in W0.
  destruct (framed_inv front) as (w & a & r & E & Hf & Hw & _).
  - lia.
  - rewrite at_slice, Hs, <- at_slice by lia. done.
  - rewrite Hs by lia. by rewrite Hlen.
  - rewrite Hs by lia. done.
  - rewrite W0. lia.
  - rewrite W0. change (21 + 0) with (19 + (2 + 0)). change (19 + (2 + 0) + 2) with (19 + (2 + 0 + 2)). lia.
  - rewrite W0 in Hw. apply len_nil in Hw as ->. exists a, r, (slice raw n (len raw)). rewrite <- E. split_and!; [done..|].
    rewrite Hraw, E, routes_framed in H0 by done. done.
Qed.

(** ** Announcements *)

Definition announce (path : list Z) (p : WirePrefix) : bmpRouteAnnouncement := mkAnnouncement (text_of p) path (List.last path 0).

(** Within the fixed ceilings. *)
Definition within (path : list Z) (l : list WirePrefix) : Prop :=
  1 ≤ len path ≤ maxBMPASPathEntries ∧ len l ≤ maxBMPRouteAnnouncements ∧ len l * len path ≤ maxBMPRoutePathEntries.

Lemma cardinality_spec n m : 0 < n → 0 ≤ m →
  value (validateBMPUpdateCardinality n m) = Ok tt ↔ n ≤ maxBMPASPathEntries ∧ m ≤ maxBMPRouteAnnouncements ∧ m * n ≤ maxBMPRoutePathEntries.
Proof.
  intros Hn Hm. unfold validateBMPUpdateCardinality. prog_simpl. replace (n <? 0) with false by (symmetry; apply Z.ltb_ge; lia).
  replace (m <? 0) with false by (symmetry; apply Z.ltb_ge; lia). replace (n =? 0) with false by (symmetry; apply Z.eqb_neq; lia). cbn [orb negb andb].
  assert (0 ≤ maxBMPRoutePathEntries) as H0 by done. pose proof (quot_ge maxBMPRoutePathEntries n m H0 Hn) as Hq.
  destruct (_ <? n) eqn:E1; [zbool; split; [done|lia]|]. destruct (_ <? m) eqn:E2; [zbool; split; [done|lia]|].
  destruct (Z.quot _ n <? m) eqn:E3; zbool; [split; [done|lia]|split; [intros _; lia|done]].
Qed.

Lemma announcements_ok l nlri path wires :
  Forall attr_ok l → (∀ a, a ∈ l → Type_ a ≠ 14 ∧ Type_ a ≠ 15) → Forall announced wires → wires ≠ [] → nlri = encodeWires false wires →
  value (parseBGPASPath (encodeAttrs l)) = Ok path → within path wires →
  value (announcements (encodeAttrs l) nlri) = Ok (announce path <$> wires).
Proof.
  intros Hl Hmp Hw Hne -> Hpath (Hp & Hn & Hprod).
  assert (Hno : ∀ t, t = 14 ∨ t = 15 → existsb (λ a, Type_ a =? t) l = false).
  { intros t Ht. destruct (existsb _ l) eqn:E; [|done].
    apply existsb_exists in E as (a & Ha & E). zbool. destruct (Hmp a) as [? ?]; [by apply list_elem_of_In|]. destruct Ht; lia. }
  unfold announcements. change bgpPathAttrMPReachNLRI with 14. change bgpPathAttrMPUnreachNLRI with 15.
  rewrite value_bind, contains_ok, (Hno 14) by auto. cbn [obind].
  rewrite value_bind, contains_ok, (Hno 15) by auto. cbn [obind]. prog_simpl. pose proof (len_nonneg wires).
  assert (len (encodeWires false wires) ≠ 0) as Hz.
  { destruct wires as [|p wires]; [done|]. change (encodeWires false (p :: wires)) with (encodeWire false p ++ encodeWires false wires).
    pose proof (encodeWire_ne false p (encodeWires false wires)) as H1. intros E. by apply len_nil in E. }
  replace (len (encodeWires false wires) =? 0) with false by (symmetry; by apply Z.eqb_neq). rewrite Hpath. cbn [obind]. prog_simpl.
  replace (len path =? 0) with false by (symmetry; apply Z.eqb_neq; lia). unfold countIPv4NLRI.
  rewrite nlri_count_ok by (done || lia). cbn [obind]. rewrite Z.add_0_l, value_bind, (proj2 (cardinality_spec (len path) (len wires) ltac:(lia) ltac:(lia))) by (split_and!; [lia|done|done]).
  cbn [obind]. rewrite value_bind, nlri_decode_ok by done. cbn [obind]. rewrite value_ret. by rewrite <- list_fmap_compose.
Qed.

Lemma announcements_sound block nlri out :
  value (announcements block nlri) = Ok out → out ≠ [] →
  ∃ path wires, value (parseBGPASPath block) = Ok path ∧ nlri = encodeWires false wires ∧ Forall announced wires ∧ within path wires ∧
    out = announce path <$> wires.
Proof.
  unfold announcements. intros H Hne. apply bind_Ok in H as (reach & _ & H). apply bind_Ok in H as (unreach & _ & H). run_guards H.
  destruct (len nlri =? 0); [injection H as <-; done|]. apply bind_Ok in H as (path & Hpath & H). run_guards H. zbool.
  apply bind_Ok in H as (n & Hn & H). apply bind_Ok in H as ([] & Hc & H). apply bind_Ok in H as (ps & Hps & H). injection H as <-.
  apply nlri_count_sound in Hn as (wires & Hw & -> & -> & Hm); [|lia|unfold maxBMPRouteAnnouncements; lia].
  rewrite nlri_decode_ok in Hps by done. injection Hps as <-. pose proof (len_nonneg path). pose proof (len_nonneg wires).
  apply cardinality_spec in Hc as (H1 & H2 & H3); [|lia..]. exists path, wires.
  split_and!; [done|done|done|unfold within; split_and!; lia|by rewrite <- list_fmap_compose].
Qed.

#[export] Instance announcements_settle block nlri : Settles (announcements block nlri).
Proof.
  unfold announcements. apply settles_bind; [by apply contains_settles|intros reach _].
  apply settles_bind; [apply settles_if; intros _; [settle|by apply contains_settles]|intros unreach _]. settle.
  apply settles_bind; [by apply as_path_settles|intros path _]. settle. apply settles_bind; [by apply nlri_count_settles|intros n Hn].
  apply settles_bind; [unfold validateBMPUpdateCardinality; settle; apply settles_fail_if|intros _ _].
  apply nlri_count_sound in Hn as (wires & Hw & -> & _); [|lia|unfold maxBMPRouteAnnouncements; lia].
  apply settles_bind; [left; eexists; by apply nlri_decode_ok|intros ps _; settle].
Qed.

#[export] Instance routes_settle raw : Settles (parseBGPUpdateRoutes raw).
Proof.
  unfold parseBGPUpdateRoutes, bgpHeaderLen. settle. apply announcements_settle.
Qed.

#[export] Instance peer_settles header : Settles (parseBMPPeer header).
Proof.
  unfold parseBMPPeer, bmpPeerHeaderLen. settle. apply settles_bind; [|intros addr _; settle].
  settle. apply settles_subslice; [lia|lia|rewrite len_slice by lia; lia|settle].
Qed.

#[export] Instance monitoring_settles payload : Settles (parseBMPRouteMonitoring payload).
Proof.
  unfold parseBMPRouteMonitoring, bmpPeerHeaderLen. settle. apply settles_bind; [apply _|intros p _]. settle.
  apply settles_bind; [apply _|intros rs _]. settle.
Qed.

(** The listener's route reader is total and bounded: for every payload it returns an
    observation or an error, without a panic; every announcement it returns is for a
    non-default IPv4 prefix that stands in the payload, printed with its host bits cleared,
    with one non-empty AS path and its last AS as origin; and prefixes, path entries and
    their product are within the fixed ceilings. *)
Theorem monitor_bounded (payload : list byte) :
  (∃ e, value (parseBMPRouteMonitoring payload) = Err e) ∨
  ∃ obs, value (parseBMPRouteMonitoring payload) = Ok obs ∧
    (routes obs = [] ∨
     ∃ path wires pre extra, payload = pre ++ encodeWires false wires ++ extra ∧ Forall announced wires ∧
       routes obs = announce path <$> wires ∧ within path wires).
Proof.
  destruct (monitoring_settles payload) as [[obs H]|[e H]]; [right|left; by exists e]. exists obs. split; [done|].
  unfold parseBMPRouteMonitoring in H. run_guards H. apply bind_Ok in H as (p & _ & H). run_guards H.
  apply bind_Ok in H as (rs & Hr & H). injection H as <-. cbn [routes]. destruct (decide (rs = [])) as [->|Hne]; [by left|right].
  apply routes_frame in Hr as (block & nlri & extra & E & Hf & Ha). apply announcements_sound in Ha as (path & wires & _ & -> & Hw & Hin & ->); [|done].
  exists path, wires. assert (Hp : payload = slice payload 0 bmpPeerHeaderLen ++ slice payload bmpPeerHeaderLen (len payload)).
  { rewrite <- (slice_full payload) at 1. apply slice_cat; unfold bmpPeerHeaderLen in *; zbool; lia. }
  rewrite E in Hp. unfold framed in Hp. rewrite Hp.
  eexists (slice payload 0 bmpPeerHeaderLen ++ replicate 16 xff ++ be_bytes 2 _ ++ x02 :: be_bytes 2 _ ++ [] ++ be_bytes 2 _ ++ block), extra.
  split_and!; [|done..]. by rewrite <- !app_assoc, <- app_comm_cons, <- !app_assoc.
Qed.

(** ** Agreement with the strict decoder *)

Lemma count_entries_ok (w : nat) path : (0 < w)%nat → Forall (lax_ok w) path → ∀ fuel entries r,
  wf r → view r = Some (encodePath w path) → (length (encodePath w path) ≤ fuel)%nat →
  value (count_entries fuel (Z.of_nat w) entries r) = Ok (Some (entries + len (asns_of path))).
Proof.
  intros Hw Hp. induction Hp as [|s path Hs Hp IH]; intros fuel entries r W V Hf; destruct (view_Empty _ _ W V) as (He & _ & HE).
  - destruct fuel; cbn [count_entries]; rewrite He, HE; cbn; do 2 f_equal; unfold len; cbn; lia.
  - change (encodePath w (s :: path)) with (encodeSegment w s ++ encodePath w path) in *. rewrite length_app in Hf.
    assert (2 ≤ length (encodeSegment w s))%nat by (unfold encodeSegment; cbn; lia). destruct fuel as [|fuel]; [lia|].
    destruct (count_segment w fuel entries r s _ Hw Hs W V) as (r' & W' & V' & ->). rewrite IH by (done || lia).
    unfold asns_of. cbn. rewrite len_app. do 2 f_equal. lia.
Qed.

Lemma path_value_ok path :
  Forall (lax_ok 4) path → len (encodePath 4 path) < 2 ^ 62 → len (asns_of path) ≤ maxBMPASPathEntries →
  value (parseBGPASPathValue (encodePath 4 path)) = Ok (asns_of path).
Proof.
  intros Hp Hl Hm. unfold parseBGPASPathValue, parseBGPASPathValueWidth, countBGPASPathEntries. change (4 <=? 0) with false. cbv iota.
  rewrite value_bind, value_bind. change 4 with (Z.of_nat 4).
  rewrite (count_entries_ok 4 path) by (done || lia || apply New_view || by apply New_wf). cbn [obind]. rewrite Z.add_0_l. prog_simpl. ltb_false.
  by rewrite (read_path_ok 4 path) by (auto || apply New_view || by apply New_wf).
Qed.


(** A two-octet path can be read as a four-octet one: one AS followed by a segment of the
    single AS 256, 512, 768 or 1024 becomes one AS that nobody announced. *)
Theorem two_octet_path_misread (a k t : Z) :
  0 ≤ a < 2 ^ 16 → 1 ≤ k ≤ 4 → 1 ≤ t ≤ 4 →
  value (parseBGPASPathValue (encodePath 2 [mkSegment 2 [a]; mkSegment k [256 * t]])) = Ok [a * 65536 + k * 256 + 1].
Proof.
  intros Ha Hk Ht.
  assert (Hz : ∀ x y, x mod 256 = y mod 256 → Zbyte x = Zbyte y) by (intros x y E; apply (inj byteZ); by rewrite !byteZ_Zbyte).
  set (z := a * 65536 + k * 256 + 1).
  assert (D1 : z / 256 = a * 256 + k) by (unfold z; Z.to_euclidean_division_equations; lia).
  assert (D2 : (a * 256 + k) / 256 = a) by (Z.to_euclidean_division_equations; lia).
  assert (E : encodePath 2 [mkSegment 2 [a]; mkSegment k [256 * t]] = encodePath 4 [mkSegment 2 [z]; mkSegment t []]).
  { unfold encodePath, encodeSegment. cbn [fmap list_fmap concat Kind Values be_bytes app]. rewrite D1, D2.
    replace (256 * t / 256) with t by (Z.to_euclidean_division_equations; lia).
    rewrite (Hz (256 * t) 0) by (Z.to_euclidean_division_equations; lia).
    rewrite (Hz (a * 256 + k) k) by (Z.to_euclidean_division_equations; lia).
    rewrite (Hz z 1) by (unfold z; Z.to_euclidean_division_equations; lia). done. }
  rewrite E, path_value_ok; [done|..].
  - assert (0 ≤ z < 256 ^ Z.of_nat 4) by (unfold z; change (256 ^ Z.of_nat 4) with (2 ^ 32); lia).
    apply Forall_cons. split; [|apply Forall_singleton]; (split_and!; cbn [Kind Values]; [lia|lia|unfold len; cbn; lia|]).
    + by apply Forall_singleton.
    + apply Forall_nil_2.
  - unfold len, encodePath. cbn [fmap list_fmap concat]. unfold encodeSegment. cbn. lia.
  - unfold len. cbn. unfold maxBMPASPathEntries. lia.
Qed.

(** ** Witnesses *)

Definition demo_wires : list WirePrefix := [mkWire 0 8 (bytes [10]); mkWire 0 20 (bytes [192; 0; 47])].
Definition demo_block : list RouteAttribute := [mkAttr 0x40 1 (bytes [0]); mkAttr 0x40 2 (encodePath 4 demo_path)].
Definition demo_update : list byte := framed [] (encodeAttrs demo_block) (encodeWires false demo_wires).
Definition demo_strict : UpdateFrame := mkFrame [] (encodeWires false demo_wires) demo_block noFamily false.


Lemma two_octet_path_misread_witness :
  value (parseBGPASPathValue (encodePath 2 [mkSegment 2 [64500]; mkSegment 1 [256]])) = Ok [4227072257].
Proof. apply (two_octet_path_misread 64500 1 1); lia. Defined.

End BgpMonitor.
