(* ===== verification/BgpFeed.v ===== *)
(** * What a BMP session feeds into the listener (internal/bgp/bmp.go,
      bmp_routing_stream.go, bmp_routing_staging.go, bmp_entity_evidence.go)

    One admitted session reads frames and turns each into events, peer records and queued
    evidence.  Origin baselines and repeat suppression are bounded maps shared by all
    sessions; the evidence queue is bounded, and evidence that does not fit marks its session
    as lost for good.  The publisher, the revocation list, the clock and the nonces are
    inputs. *)

From S2P Require Import Prelude GoTime FlowModel Wire GoString GoProg BgpBase BgpOpen BgpPeer BgpBook BgpStreams BgpMonitor.
#[local] Open Scope Z_scope.

Module BgpFeed.
Import BgpPeer BgpBook BgpMonitor BgpOpen.

(** ** Identity and events *)

Record bmpIdentity := mkIdentity { TenantID : gostring; AgentID : gostring; SPIFFEID : gostring; Serial : gostring; NotAfter : Time }.

(** The fields of an Event that the listener sets; the confidence is in tenths. *)
Record Event := mkEvent {
  ev_TenantID : gostring; EventType : string; Severity : string; Confidence : Z; ev_Prefix : string; NewOriginASN : Z;
  OldOriginASN : Z; NewASPath : list Z; RPKIStatus : string; Collector : gostring; ev_PeerASN : Z; ev_PeerAddress : string;
  Message : string; DetectedAtUnixNano : Z }.

(** ** Origin baselines *)

Definition bmpMaxBaselineKeys : Z := 2 ^ 20.
Definition bmpMaxSuppressionKeys : Z := 100000.

(** tenantID, agentID, peerAddress, prefix, peerASN *)
Definition bmpOriginBaselineKey : Type := gostring * gostring * string * string * Z.
Abbreviation Baseline := (gmap bmpOriginBaselineKey Z).

Definition origin_key (id : bmpIdentity) (p : bmpPeer) (route : bmpRouteAnnouncement) : bmpOriginBaselineKey :=
  (TenantID id, AgentID id, Address p, Prefix route, ASN p).

(** On a key: the prior origin, if there is one, and the new map. *)
Definition record_key (b : Baseline) (key : bmpOriginBaselineKey) (origin : Z) : option Z * Baseline :=
  let prior := b !! key in
  let b := if bool_decide (prior = None) && (bmpMaxBaselineKeys <=? Z.of_nat (size b)) then ∅ else b in
  (prior, <[key := origin]> b).

Definition recordOrigin (b : Baseline) (id : bmpIdentity) (p : bmpPeer) (route : bmpRouteAnnouncement) : option Z * Baseline :=
  record_key b (origin_key id p route) (OriginASN route).

(** ** Repeat suppression *)

(** tenantID, agentID, peerAddress, prefix, asPath, peerASN, originASN *)
Definition bmpRouteKey : Type := gostring * gostring * string * string * string * Z * Z.
Abbreviation Seen := (gmap bmpRouteKey Z).

(** fmt.Sprint of a []uint32. *)
Definition Sprint (l : list Z) : string := ("[" +:+ String.concat " " (FormatUint <$> l) +:+ "]")%string.

Definition route_key (id : bmpIdentity) (p : bmpPeer) (route : bmpRouteAnnouncement) : bmpRouteKey :=
  (TenantID id, AgentID id, Address p, Prefix route, Sprint (ASPath route), ASN p, OriginASN route).

Definition recent (window now last : Z) : bool := (0 <=? i64 (now - last)) && (i64 (now - last) <? window).

Definition repeated_key (window : Z) (seen : Seen) (key : bmpRouteKey) (now : Z) : bool * Seen :=
  if window <=? 0 then (false, seen)
  else if match seen !! key with Some last => recent window now last | None => false end then (true, seen)
  else
    let seen :=
      if bmpMaxSuppressionKeys <=? Z.of_nat (size seen) then
        let seen := filter (λ kv : bmpRouteKey * Z, (window <=? i64 (now - kv.2)) = false) seen in
        if bmpMaxSuppressionKeys <=? Z.of_nat (size seen) then ∅ else seen
      else seen in
    (false, <[key := now]> seen).

Definition repeated (window : Z) (seen : Seen) (id : bmpIdentity) (p : bmpPeer) (route : bmpRouteAnnouncement) (now : Z) : bool * Seen :=
  repeated_key window seen (route_key id p route) now.

(** ** The peer inventory *)

Record BMPPeerRecord := mkRecord {
  r_TenantID : gostring; r_AgentID : gostring; r_PeerASN : Z; r_PeerAddress : string; FirstSeenUnixNano : Z; LastSeenUnixNano : Z;
  RouteAnnouncements : Z }.

#[export] Instance BMPPeerRecord_eta : Eta BMPPeerRecord := λ r,
  mkRecord (r_TenantID r) (r_AgentID r) (r_PeerASN r) (r_PeerAddress r) (FirstSeenUnixNano r) (LastSeenUnixNano r) (RouteAnnouncements r).

Abbreviation Inventory := (gmap gostring BMPPeerRecord).

Definition bmpPeerInventoryKey (r : BMPPeerRecord) : gostring :=
  r_TenantID r ++ x00 :: r_AgentID r ++ x00 :: str (FormatUint (r_PeerASN r)) ++ x00 :: str (r_PeerAddress r).

Definition Upsert (i : Inventory) (record : BMPPeerRecord) : Inventory :=
  let key := bmpPeerInventoryKey record in
  let record :=
    match i !! key with
    | Some prev =>
        let record := if (FirstSeenUnixNano record =? 0) ||
                         (negb (FirstSeenUnixNano prev =? 0) && (FirstSeenUnixNano prev <? FirstSeenUnixNano record))
                      then record <| FirstSeenUnixNano := FirstSeenUnixNano prev |> else record in
        let record := if LastSeenUnixNano record <? LastSeenUnixNano prev
                      then record <| LastSeenUnixNano := LastSeenUnixNano prev |> else record in
        record <| RouteAnnouncements := u64 (RouteAnnouncements record + RouteAnnouncements prev) |>
    | None => record
    end in
  <[key := record]> i.

(** ** The listener *)

(** A live session; its routingLost flag outlives its registration and is kept in [lost]. *)
Record bmpLiveSession := mkLive { ls_id : bmpIdentity; killReason : string; cancelled : bool }.

#[export] Instance bmpLiveSession_eta : Eta bmpLiveSession := λ s, mkLive (ls_id s) (killReason s) (cancelled s).

Record Listener := mkListener {
  baseline : Baseline; seen_ : Seen; inventory : Inventory; live_ : gmap Z bmpLiveSession; liveSeq : Z; lost : gset Z;
  evidenceQueue : list Evidence; evidenceDrops : Z; routingLossWake : bool; published : list Event; unsupported : Z }.

#[export] Instance Listener_eta : Eta Listener := λ l,
  mkListener (baseline l) (seen_ l) (inventory l) (live_ l) (liveSeq l) (lost l) (evidenceQueue l) (evidenceDrops l)
    (routingLossWake l) (published l) (unsupported l).

(** What the listener is configured with: the suppression window, the collector, whether
    there is an evidence service and what it can do, and the lane's tenant. *)
Record Config := mkConfig {
  suppression : Z; collector : gostring; has_evidence : bool; is_writer : bool; is_stager : bool; laneTenant : gostring }.

Definition queueCapacity : Z := 128.

Definition collectorFor (c : Config) (agentID : gostring) : gostring :=
  if bool_decide (agentID = []) then collector c else collector c ++ str "/" ++ agentID.

(** ** Evidence *)

Definition queuePeerEvidence (c : Config) (e : Evidence) (l : Listener) : bool * Listener :=
  if negb (has_evidence c) || negb (bool_decide (tenantID e = laneTenant c)) then (false, l)
  else if len (evidenceQueue l) <? queueCapacity then (true, l <| evidenceQueue := evidenceQueue l ++ [e] |>)
  else (false, l <| evidenceDrops := evidenceDrops l + 1 |>).

(** The token of a session's flag, while the session is registered. *)
Definition routingSessionLoss (l : Listener) (handle : Z) : option Z :=
  match live_ l !! handle with Some _ => Some handle | None => None end.

Definition flagged (l : Listener) (token : option Z) : bool :=
  match token with Some h => bool_decide (h ∈ lost l) | None => false end.

Definition loseRoutingEvidence (handle : Z) (l : Listener) : Listener :=
  match routingSessionLoss l handle with
  | Some h => l <| lost := {[h]} ∪ lost l |> <| routingLossWake := true |>
  | None => l
  end.

(** The common header that was read, in front of the payload again. *)
Definition reframe (kind : Z) (payload : list byte) : list byte :=
  [Zbyte bmpVersion] ++ be_bytes 4 (bmpCommonHeaderLen + len payload) ++ [Zbyte kind] ++ payload.

(** [None] is an error return; the listener is unchanged then. *)
Definition queueRoutingMessage (c : Config) (id : bmpIdentity) (session kind : Z) (payload : list byte) (now : Z) (l : Listener)
    : option Listener :=
  if negb (has_evidence c && is_writer c) || (len payload =? 0) || negb (at_ payload 0 =? 3) then Some l
  else
    let loss := routingSessionLoss l session in
    if flagged l loss then Some l
    else if negb (kind =? bmpRouteMonitoring) && negb (kind =? 1) && negb (kind =? 2) then Some l
    else if len payload <? bmpPeerHeaderLen then None
    else match value (ParseBMPRouteViewHeader (slice payload 0 bmpPeerHeaderLen)) with
         | Ok header =>
             let message := mkMsg (reframe kind payload) (kind =? 1) (kind =? 2) [] [] [] 0 now in
             let e := mkEvidence (bmpSelector header) loss (Some message) false None session (TenantID id) (AgentID id) (Serial id)
                        [] 0 now in
             let '(ok, l) := queuePeerEvidence c e l in
             Some (if ok : bool then l else loseRoutingEvidence session l)
         | _ => None
         end.

Definition queueRoutingPeerUp (c : Config) (id : bmpIdentity) (session : Z) (payload : list byte) (nonce : option gostring) (now : Z)
    (l : Listener) : option Listener :=
  if negb (has_evidence c && is_stager c) || (len payload =? 0) || negb (at_ payload 0 =? 3) then Some l
  else
    let loss := routingSessionLoss l session in
    if flagged l loss then Some l
    else if len payload <? bmpPeerHeaderLen then None
    else match value (ParseBMPRouteViewHeader (slice payload 0 bmpPeerHeaderLen)), nonce with
         | Ok header, Some nonce =>
             let request := mkRequest nonce (AgentID id) (Serial id) now (reframe 3 payload) in
             let e := mkEvidence (bmpSelector header) loss None false (Some request) session (TenantID id) (AgentID id) (Serial id)
                        [] 0 now in
             let '(ok, l) := queuePeerEvidence c e l in
             Some (if ok : bool then l else loseRoutingEvidence session l)
         | _, _ => None
         end.

(** The stream-end marker waits for room, [None] while there is none, unless the select takes the
    branch of the session's context, which is [done] then. *)
Definition endRoutingEvidence (c : Config) (id : bmpIdentity) (handle now : Z) (done : bool) (l : Listener) : option Listener :=
  if negb (has_evidence c && is_writer c) || negb (bool_decide (TenantID id = laneTenant c)) then Some l
  else if done then Some l
  else if len (evidenceQueue l) <? queueCapacity then
    Some (l <| evidenceQueue := evidenceQueue l ++
                [mkEvidence noSelector None None true None handle (TenantID id) (AgentID id) (Serial id) [] 0 now] |>)
  else None.

(** ** One frame of a session *)

(** What the outside supplies while a frame is handled: the revocation list's answer, a
    nonce, and the clock at its three readings. *)
Record Inputs := mkInputs { revoked : bool; nonce : option gostring; nowQueue : Z; nowDetect : Z; nowEvidence : Z }.

Definition bmpPeerUp : Z := 3.

Definition event_for (c : Config) (id : bmpIdentity) (p : bmpPeer) (route : bmpRouteAnnouncement) (prior : option Z) (detectedAt : Z) : Event :=
  let origin := OriginASN route in
  let ev := mkEvent (TenantID id) "route_observation" "info" 0 (Prefix route) origin 0 (ASPath route) "unknown"
              (collectorFor c (AgentID id)) (ASN p) (Address p)
              ("BMP route announcement observed for " +:+ Prefix route +:+ " from AS" +:+ FormatUint origin)%string detectedAt in
  match prior with
  | Some old =>
      if old =? origin then ev
      else mkEvent (TenantID id) "origin_change" "warning" 7 (Prefix route) origin old (ASPath route) "unknown"
             (collectorFor c (AgentID id)) (ASN p) (Address p)
             ("origin for " +:+ Prefix route +:+ " changed AS" +:+ FormatUint old +:+ " -> AS" +:+ FormatUint origin)%string detectedAt
  | None => ev
  end.

Section frame.
Context (c : Config).
(** PublishEvent succeeds. *)
Context (publishes : list Event → Event → bool).

(** [false]: the publisher failed and the session ends. *)
Definition handle_route (id : bmpIdentity) (p : bmpPeer) (detectedAt : Z) (acc : bool * Listener) (route : bmpRouteAnnouncement)
    : bool * Listener :=
  let '(go, l) := acc in
  if negb go then (false, l)
  else
    let '(prior, b) := recordOrigin (baseline l) id p route in
    let ev := event_for c id p route prior detectedAt in
    let '(again, s) := repeated (suppression c) (seen_ l) id p route detectedAt in
    let l := l <| baseline := b |> <| seen_ := s |> in
    if again : bool then (true, l)
    else if publishes (published l) ev then (true, l <| published := published l ++ [ev] |>)
    else (false, l).

Definition refuse (handle : Z) (l : Listener) (queued : option Listener) : Listener :=
  match queued with Some l => l | None => loseRoutingEvidence handle l end.

(** One turn of the session's loop, after a frame was read; [false] ends the session. *)
Definition frame (id : bmpIdentity) (handle msgType : Z) (payload : list byte) (i : Inputs) (l : Listener) : bool * Listener :=
  if revoked i then (false, l)
  else if msgType =? bmpPeerUp then
    (true, refuse handle l (queueRoutingPeerUp c id handle payload (nonce i) (nowQueue i) l))
  else
    let l := refuse handle l (queueRoutingMessage c id handle msgType payload (nowQueue i) l) in
    if negb (msgType =? bmpRouteMonitoring) then (true, l)
    else match value (parseBMPRouteMonitoring payload) with
         | Ok obs =>
             let p := peer obs in
             let detectedAt := if TimestampUnixNano p =? 0 then nowDetect i else TimestampUnixNano p in
             let l := l <| inventory := Upsert (inventory l)
                               (mkRecord (TenantID id) (AgentID id) (ASN p) (Address p) detectedAt detectedAt (len (routes obs))) |> in
             let '(go, l) := foldl (handle_route id p detectedAt) (true, l) (routes obs) in
             if negb go then (false, l)
             else if 0 <? len (routes obs) then
               (true, (queuePeerEvidence c
                         (mkEvidence noSelector None None false None handle (TenantID id) (AgentID id) (Serial id)
                            (str (Address p)) (ASN p) (nowEvidence i)) l).2)
             else (true, l)
         | Err e => (true, if existsb (λ x, match x with errBMPUnsupportedUpdate => true | _ => false end) e
                           then l <| unsupported := unsupported l + 1 |> else l)
         | _ => (false, l)
         end.

End frame.

(** ** Sessions *)

Definition registerLive (id : bmpIdentity) (l : Listener) : Z * Listener :=
  let h := liveSeq l + 1 in
  (h, l <| liveSeq := h |> <| live_ := <[h := mkLive id EmptyString false]> (live_ l) |>).

Definition deregisterLive (handle : Z) (l : Listener) : Listener := l <| live_ := delete handle (live_ l) |>.

Definition sessionKillReason (l : Listener) (handle : Z) : string :=
  match live_ l !! handle with Some s => killReason s | None => EmptyString end.

Definition cancelRoutingSession (handle : Z) (l : Listener) : Listener :=
  match live_ l !! handle with
  | Some s => l <| live_ := <[handle := s <| killReason := "routing evidence stream unavailable" |> <| cancelled := true |>]> (live_ l) |>
  | None => l
  end.

(** time.Time.After *)
Definition After (t u : Time) : bool := (t_sec u <? t_sec t) || ((t_sec u =? t_sec t) && (t_nsec u <? t_nsec t)).

(** The verdict of the liveness sweep on one session. *)
Definition sweep_reason (isRevoked : bmpIdentity → bool) (now : Time) (s : bmpLiveSession) : option string :=
  if negb (bool_decide (killReason s = EmptyString)) then None
  else if isRevoked (ls_id s) then Some "registry-revoked router identity terminated mid-session"
  else if negb (IsZero (NotAfter (ls_id s))) && negb (After (NotAfter (ls_id s)) now) then
    Some "router leaf certificate expired mid-session"
  else None.

Definition sweepLiveSessions (isRevoked : bmpIdentity → bool) (now : Time) (l : Listener) : Listener :=
  l <| live_ := (λ s, match sweep_reason isRevoked now s with
                      | Some reason => s <| killReason := reason |> <| cancelled := true |>
                      | None => s
                      end) <$> live_ l |>.

Definition NewBMPListener : Listener := mkListener ∅ ∅ ∅ ∅ 0 ∅ [] 0 false [] 0.

(** ** Retained frames *)

(** The frame that is queued for the routing service is, byte for byte, the frame that was
    read from the router. *)
Theorem frame_retained (r : list byte) (kind : Z) (payload rest : list byte) :
  value (readBMPMessage r) = Ok (kind, payload, rest) → r = reframe kind payload ++ rest.
Proof.
  unfold readBMPMessage. intros H. apply bind_Ok in H as ([k n] & Hh & H). unfold readBMPHeader in Hh. run_guards Hh. injection Hh as <- <-.
  run_guards H. injection H as <- <- <-. zbool. unfold bmpCommonHeaderLen, bmpMaxMessageBytes, bmpVersion in *.
  set (m := be_uint (slice r 1 (1 + 4))) in *. change (Z.to_nat 6) with 6%nat in *. set (t := drop 6 r) in *.
  assert (Hr : r = slice r 0 1 ++ slice r 1 5 ++ slice r 5 6 ++ t).
  { rewrite <- (slice_full r) at 1. rewrite (slice_cat r 0 1 (len r)), (slice_cat r 1 5 (len r)), (slice_cat r 5 6 (len r)) by lia.
    do 3 f_equal. unfold slice, t. change (Z.to_nat 6) with 6%nat. apply take_ge. rewrite length_drop. unfold len. lia. }
  destruct (slice_be 4 r 1) as [Hb _]; [lia|lia|]. change (1 + Z.of_nat 4) with (1 + 4) in Hb. fold m in Hb.
  unfold reframe, bmpVersion, bmpCommonHeaderLen. rewrite len_slice by lia. replace (6 + (m - 6 - 0)) with m by lia. rewrite Hb.
  rewrite <- !app_assoc. rewrite Hr at 1. change (1 + 4) with 5.
  change (slice r 0 1) with (slice r 0 (0 + 1)). rewrite (slice_one r 0) by lia. rewrite G0.
  change (slice r 5 6) with (slice r 5 (5 + 1)). rewrite (slice_one r 5) by lia. do 5 f_equal.
  rewrite <- (slice_full t) at 1. rewrite (slice_cat t 0 (m - 6) (len t)) by lia. f_equal. unfold slice. apply take_ge. rewrite length_drop. unfold len. lia.
Qed.

(** ** Origin baselines over a run *)

(** The baseline after a sequence of recordings, in the order the lock serialises them. *)
Definition baseline_after (calls : list (bmpOriginBaselineKey * Z)) : Baseline := foldl (λ b k, (record_key b k.1 k.2).2) ∅ calls.

(** The last value recorded under a key. *)
Definition last_for {K V} `{EqDecision K} (k : K) (calls : list (K * V)) : option V :=
  last (omap (λ c, if decide (c.1 = k) then Some c.2 else None) calls).

Definition keys_of {K V} `{Countable K} (calls : list (K * V)) : gset K := list_to_set calls.*1.

Section last_for.
Context {K V : Type} `{Countable K}.

Lemma last_for_snoc (k : K) (calls : list (K * V)) c :
  last_for k (calls ++ [c]) = if decide (c.1 = k) then Some c.2 else last_for k calls.
Proof. unfold last_for. rewrite omap_app. cbn. case_decide; [by rewrite last_snoc|by rewrite app_nil_r]. Qed.

Lemma keys_of_snoc (calls : list (K * V)) c : keys_of (calls ++ [c]) = keys_of calls ∪ {[c.1]}.
Proof. unfold keys_of. rewrite fmap_app, list_to_set_app_L. cbn [fmap list_fmap list_to_set]. by rewrite (right_id_L ∅ (∪) {[c.1]}). Qed.

(** A map whose keys are among those of the calls is no larger than their set. *)
Lemma size_keys (m : gmap K V) (calls : list (K * V)) : (∀ k v, m !! k = Some v → k ∈ keys_of calls) → (size m ≤ size (keys_of calls))%nat.
Proof.
  intros Hm. rewrite <- size_dom. apply subseteq_size. intros k Hk. apply elem_of_dom in Hk as [v Hv]. by apply (Hm k v).
Qed.

Lemma last_for_key (k : K) (calls : list (K * V)) v : last_for k calls = Some v → k ∈ keys_of calls.
Proof.
  induction calls as [|c calls IH] using rev_ind; [done|]. rewrite last_for_snoc, keys_of_snoc. case_decide as E; [set_solver|].
  intros Hc. apply elem_of_union. left. by apply IH.
Qed.

End last_for.

Lemma baseline_sound calls k v : baseline_after calls !! k = Some v → last_for k calls = Some v.
Proof.
  revert k v. induction calls as [|c calls IH] using rev_ind; intros k v; [done|]. unfold baseline_after in *. rewrite foldl_app, last_for_snoc.
  cbn [foldl]. set (b := foldl _ ∅ calls) in *. unfold record_key. cbn [snd]. cbv zeta. case_decide as E.
  - subst k. rewrite lookup_insert_eq. done.
  - rewrite lookup_insert_ne by done. destruct (_ && _); [by rewrite lookup_empty|]. apply IH.
Qed.

Lemma baseline_bounded calls : Z.of_nat (size (baseline_after calls)) ≤ bmpMaxBaselineKeys.
Proof.
  induction calls as [|c calls IH] using rev_ind; [done|]. unfold baseline_after in *. rewrite foldl_app. cbn [foldl].
  set (b := foldl _ ∅ calls) in *. unfold record_key. cbn [snd]. cbv zeta. destruct (b !! c.1) as [v|] eqn:E.
  - rewrite bool_decide_eq_false_2 by done. cbn [andb]. by rewrite map_size_insert_Some.
  - rewrite bool_decide_eq_true_2 by done. cbn [andb]. destruct (bmpMaxBaselineKeys <=? Z.of_nat (size b)) eqn:El; zbool.
    + rewrite map_size_insert_None by apply lookup_empty. rewrite map_size_empty. done.
    + rewrite map_size_insert_None by done. lia.
Qed.

(** Until there are too many keys, nothing is forgotten. *)
Lemma baseline_exact calls k : Z.of_nat (size (keys_of calls)) ≤ bmpMaxBaselineKeys → baseline_after calls !! k = last_for k calls.
Proof.
  revert k. induction calls as [|c calls IH] using rev_ind; intros k Hs; [done|]. rewrite keys_of_snoc in Hs.
  assert (Hsub : (size (keys_of calls) ≤ size (keys_of calls ∪ {[c.1]}))%nat) by (apply subseteq_size; set_solver).
  specialize (λ k, IH k ltac:(lia)). unfold baseline_after in *. rewrite foldl_app, last_for_snoc. cbn [foldl].
  set (b := foldl _ ∅ calls) in *. unfold record_key. cbn [snd]. cbv zeta.
  assert (Hb : bool_decide (b !! c.1 = None) && (bmpMaxBaselineKeys <=? Z.of_nat (size b)) = false).
  { destruct (bool_decide_reflect (b !! c.1 = None)) as [E|E]; [|done]. cbn [andb]. apply Z.leb_gt.
    assert (c.1 ∉ dom b) as Hn by by apply not_elem_of_dom.
    assert (size (dom b ∪ {[c.1]}) ≤ size (keys_of calls ∪ {[c.1]}))%nat.
    { apply subseteq_size. intros k' [Hk'|Hk']%elem_of_union; [|set_solver]. apply elem_of_dom in Hk' as [v Hv]. rewrite IH in Hv.
      apply elem_of_union. left. by apply (last_for_key k' calls v). }
    rewrite size_union, size_dom, size_singleton in * by set_solver. lia. }
  rewrite Hb. case_decide as E; [subst k; apply lookup_insert_eq|]. by rewrite lookup_insert_ne.
Qed.

(** A route that some session reports: the session's identity, the peer and the time of the
    observation.  The sessions' reports are handled in the order the locks serialise them. *)
Record Report := mkReport { rp_id : bmpIdentity; rp_peer : bmpPeer; rp_at : Z; rp_route : bmpRouteAnnouncement }.

Definition rp_origin (r : Report) : bmpOriginBaselineKey * Z := (origin_key (rp_id r) (rp_peer r) (rp_route r), OriginASN (rp_route r)).
Definition rp_key (r : Report) : bmpRouteKey := route_key (rp_id r) (rp_peer r) (rp_route r).

Section reports.
Context (c : Config) (publishes : list Event → Event → bool).

Definition report (l : Listener) (r : Report) : Listener := (handle_route c publishes (rp_id r) (rp_peer r) (rp_at r) (true, l) (rp_route r)).2.

Definition after_reports (rs : list Report) : Listener := foldl report NewBMPListener rs.

Lemma report_spec l r :
  let ev := event_for c (rp_id r) (rp_peer r) (rp_route r) (recordOrigin (baseline l) (rp_id r) (rp_peer r) (rp_route r)).1 (rp_at r) in
  let held := repeated (suppression c) (seen_ l) (rp_id r) (rp_peer r) (rp_route r) (rp_at r) in
  baseline (report l r) = (record_key (baseline l) (rp_origin r).1 (rp_origin r).2).2 ∧ seen_ (report l r) = held.2 ∧
  published (report l r) = published l ++ (if held.1 then [] else if publishes (published l) ev then [ev] else []).
Proof.
  unfold report, handle_route. cbn [negb]. change (recordOrigin _ _ _ _) with (record_key (baseline l) (rp_origin r).1 (rp_origin r).2).
  destruct (record_key _ _ _) as [prior b]. destruct (repeated _ _ _ _ _ _) as [[] s]; cbn; [by rewrite app_nil_r|].
  destruct (publishes _ _); cbn; [done|by rewrite app_nil_r].
Qed.

Lemma reports_baseline rs : baseline (after_reports rs) = baseline_after (rp_origin <$> rs).
Proof.
  induction rs as [|r rs IH] using rev_ind; [done|]. unfold after_reports, baseline_after in *. rewrite fmap_app, !foldl_app. cbn [foldl fmap list_fmap].
  by rewrite (proj1 (report_spec _ r)), IH.
Qed.

(** What is remembered of an observation is the time of an earlier report of it. *)
Lemma reports_seen rs k t : seen_ (after_reports rs) !! k = Some t → ∃ r, r ∈ rs ∧ rp_key r = k ∧ rp_at r = t.
Proof.
  revert k t. induction rs as [|r rs IH] using rev_ind; intros k t; [done|]. unfold after_reports in *. rewrite foldl_app. cbn [foldl].
  rewrite (proj1 (proj2 (report_spec _ r))). set (l := foldl report NewBMPListener rs) in *. unfold repeated, repeated_key. intros Hk.
  assert (Hold : seen_ l !! k = Some t → ∃ r0, r0 ∈ rs ++ [r] ∧ rp_key r0 = k ∧ rp_at r0 = t)
    by (intros (r0 & Hr0 & E)%IH; exists r0; split; [apply elem_of_app; by left|done]).
  destruct (suppression c <=? 0); [by apply Hold|]. destruct (match seen_ l !! _ with Some _ => _ | None => _ end); [by apply Hold|]. cbn [snd] in Hk.
  apply lookup_insert_Some in Hk as [[<- <-]|[_ Hk]]; [exists r; split; [apply elem_of_app; right; by left|done]|]. apply Hold. revert Hk.
  destruct (_ <=? _); [|done]. destruct (_ <=? _); [by rewrite lookup_empty|]. by intros [? _]%map_lookup_filter_Some.
Qed.

Lemma repeated_seen w s k now : (repeated_key w s k now).1 = true → ∃ t, s !! k = Some t ∧ recent w now t = true.
Proof. unfold repeated_key. destruct (w <=? 0); [done|]. destruct (s !! k) as [t|]; [|done]. destruct (recent w now t) eqn:E; [by exists t|done]. Qed.


End reports.

(** ** Suppression over a run *)

(** The map after a sequence of calls, and the calls that were not suppressed. *)
Definition suppress_run (window : Z) (calls : list (bmpRouteKey * Z)) : Seen * list (bmpRouteKey * Z) :=
  foldl (λ acc k, let '(again, s) := repeated_key window acc.1 k.1 k.2 in (s, if again : bool then acc.2 else acc.2 ++ [k])) (∅, []) calls.

Lemma suppress_snoc w calls k :
  suppress_run w (calls ++ [k]) =
  let s := (suppress_run w calls).1 in
  ((repeated_key w s k.1 k.2).2, if (repeated_key w s k.1 k.2).1 then (suppress_run w calls).2 else (suppress_run w calls).2 ++ [k]).
Proof. unfold suppress_run. rewrite foldl_app. cbn [foldl]. cbv zeta. by destruct (repeated_key _ _ _ _). Qed.

(** What a call leaves in the map. *)
Lemma repeated_key_cases w s k now :
  0 < w →
  (repeated_key w s k now = (true, s) ∧ ∃ t, s !! k = Some t ∧ recent w now t = true) ∨
  (∃ s', repeated_key w s k now = (false, <[k := now]> s') ∧ (∀ t, s !! k = Some t → recent w now t = false) ∧
    s' ⊆ s ∧ Z.of_nat (size s') < bmpMaxSuppressionKeys ∧ (Z.of_nat (size s) < bmpMaxSuppressionKeys → s' = s)).
Proof.
  intros Hw. unfold repeated_key. replace (w <=? 0) with false by (symmetry; apply Z.leb_gt; lia).
  destruct (match s !! k with Some _ => _ | None => _ end) eqn:E.
  { left. destruct (s !! k) as [t|]; [|done]. split; [done|]. by exists t. }
  right. cbv zeta. eexists. split; [done|]. split; [intros t Ht; by rewrite Ht in E|].
  destruct (bmpMaxSuppressionKeys <=? Z.of_nat (size s)) eqn:E1; zbool; [|by split_and!].
  destruct (bmpMaxSuppressionKeys <=? Z.of_nat (size (filter _ s))) eqn:E2; zbool; split_and!; try done; try lia.
  - apply map_empty_subseteq.
  - apply map_filter_subseteq.
Qed.

Lemma suppress_sound w calls : 0 < w →
  let '(s, out) := suppress_run w calls in
  (∀ k t, s !! k = Some t → last_for k out = Some t) ∧ Z.of_nat (size s) ≤ bmpMaxSuppressionKeys ∧
  (∀ x, x ∈ out → x ∈ calls) ∧ (Z.of_nat (size (keys_of calls)) < bmpMaxSuppressionKeys → ∀ k, s !! k = last_for k out).
Proof.
  intros Hw. induction calls as [|[k now] calls IH] using rev_ind; [done|]. rewrite suppress_snoc. cbv zeta.
  destruct (suppress_run w calls) as [s out]. cbn [fst snd]. destruct IH as (Hs & Hsize & Hout & Hex).
  rewrite keys_of_snoc. cbn [fst]. assert (Hsub : (size (keys_of calls) ≤ size (keys_of calls ∪ {[k]}))%nat) by (apply subseteq_size; set_solver).
  destruct (repeated_key_cases w s k now Hw) as [(-> & _)|(s' & -> & _ & Hsub' & Hlt & Hsame)]; cbn [fst snd].
  { split_and!; [done|done| |].
    - intros x Hx. apply elem_of_app. left. by apply Hout.
    - intros Hk. apply Hex. lia. }
  split_and!.
  - intros k' t. rewrite last_for_snoc. cbn [fst snd]. destruct (decide (k = k')) as [->|Hne]; [by rewrite lookup_insert_eq|].
    rewrite lookup_insert_ne by done. intros Ht. by apply Hs, (lookup_weaken s').
  - pose proof (map_size_insert k now s') as Hi. destruct (s' !! k); cbn in Hi; unfold bmpRouteKey in *; lia.
  - intros x [Hx|Hx]%elem_of_app; apply elem_of_app; [left; by apply Hout|by right].
  - intros Hk k'. specialize (Hex ltac:(lia)). rewrite last_for_snoc. cbn [fst snd].
    destruct (decide (k = k')) as [->|Hne]; [by rewrite lookup_insert_eq|]. rewrite lookup_insert_ne by done. rewrite Hsame; [done|].
    assert (size s ≤ size (keys_of calls))%nat; [|lia]. apply size_keys. intros k2 v Hv. rewrite Hex in Hv.
    apply last_for_key in Hv. unfold keys_of in *. rewrite elem_of_list_to_set in *. apply list_elem_of_fmap in Hv as (x & -> & Hx).
    apply list_elem_of_fmap_2. by apply Hout.
Qed.

Lemma last_for_elem {K V} `{EqDecision K} (k : K) (calls : list (K * V)) v : last_for k calls = Some v → (k, v) ∈ calls.
Proof.
  unfold last_for. intros Hl. apply last_Some_elem_of in Hl. apply list_elem_of_omap in Hl as ([k' v'] & Hin & E).
  cbn in E. case_decide; [|done]. by simplify_eq.
Qed.

Lemma recent_spec w now t : 0 ≤ now < 2 ^ 63 → 0 ≤ t < 2 ^ 63 → recent w now t = true ↔ 0 ≤ now - t < w.
Proof.
  intros Hn Ht. unfold recent. rewrite i64_small by lia. rewrite andb_true_iff, Z.leb_le, Z.ltb_lt. done.
Qed.

(** Suppression is truthful: whatever routes all sessions reported before, a route is
    held back only if the same observation was let through less than the window before; as
    long as fewer than 100000 distinct observations were reported it is held back exactly
    then; and no more than 100000 are remembered. *)
Theorem suppression_truthful (window : Z) (calls : list (bmpRouteKey * Z)) (k : bmpRouteKey) (now : Z) :
  0 < window → (∀ x, x ∈ calls → 0 ≤ x.2 < 2 ^ 63) → 0 ≤ now < 2 ^ 63 →
  let '(s, out) := suppress_run window calls in
  let again := (repeated_key window s k now).1 in
  (again = true → ∃ t, last_for k out = Some t ∧ 0 ≤ now - t < window) ∧
  (Z.of_nat (size (keys_of calls)) < bmpMaxSuppressionKeys →
   again = true ↔ ∃ t, last_for k out = Some t ∧ 0 ≤ now - t < window) ∧
  Z.of_nat (size s) ≤ bmpMaxSuppressionKeys.
Proof.
  intros Hw Hrange Hnow. pose proof (suppress_sound window calls Hw) as Hsound. destruct (suppress_run window calls) as [s out].
  destruct Hsound as (Hs & Hsize & Hout & Hex). cbv zeta.
  assert (Ht : ∀ t, last_for k out = Some t → 0 ≤ t < 2 ^ 63).
  { intros t Hl. apply last_for_elem in Hl. by apply (Hrange (k, t)), Hout. }
  assert (H1 : (repeated_key window s k now).1 = true → ∃ t, last_for k out = Some t ∧ 0 ≤ now - t < window).
  { destruct (repeated_key_cases window s k now Hw) as [(-> & t & Hk & Hr)|(s' & -> & _)]; cbn; [|done].
    intros _. apply Hs in Hk. exists t. split; [done|]. apply recent_spec in Hr; auto. }
  split_and!; [done| |done]. intros Hk. split; [done|]. intros (t & Hl & Hr).
  destruct (repeated_key_cases window s k now Hw) as [(-> & _)|(s' & _ & Hno & _)]; [done|].
  rewrite <- (Hex Hk k) in Hl. specialize (Hno t Hl). rewrite (Hex Hk k) in Hl. apply (recent_spec window now t) in Hr; auto. congruence.
Qed.

(** ** The inventory keeps tenants and routers apart *)

Lemma inventory_key_inj r r' :
  x00 ∉ r_TenantID r → x00 ∉ r_TenantID r' → x00 ∉ r_AgentID r → x00 ∉ r_AgentID r' →
  bmpPeerInventoryKey r = bmpPeerInventoryKey r' → r_TenantID r = r_TenantID r' ∧ r_AgentID r = r_AgentID r'.
Proof.
  unfold bmpPeerInventoryKey. intros H1 H2 H3 H4 E. apply (f_equal (cut x00)) in E. rewrite !cut_some in E by done.
  injection E as Et E. apply (f_equal (cut x00)) in E. rewrite !cut_some in E by done. by injection E.
Qed.

(** A peer record never changes the record of another tenant or another router, if no
    identifier contains the separator. *)
Theorem inventory_separates (i : Inventory) (r r' : BMPPeerRecord) :
  x00 ∉ r_TenantID r → x00 ∉ r_TenantID r' → x00 ∉ r_AgentID r → x00 ∉ r_AgentID r' →
  r_TenantID r ≠ r_TenantID r' ∨ r_AgentID r ≠ r_AgentID r' → Upsert i r !! bmpPeerInventoryKey r' = i !! bmpPeerInventoryKey r'.
Proof.
  intros H1 H2 H3 H4 Hne. unfold Upsert. cbv zeta. rewrite lookup_insert_ne; [done|]. intros E.
  apply inventory_key_inj in E as [? ?]; [|done..]. by destruct Hne.
Qed.

(** ** Muted sessions *)

Section muted.
Context (submits : list Effect → Msg → bool).

(** Everything submitted since is a reset. *)
Definition muted (w w' : World) : Prop := ∃ new, log w' = log w ++ new ∧ ∀ m ok, Submitted m ok ∈ new → SourceReset m = true.

Lemma muted_refl w w' : log w' = log w → muted w w'.
Proof. intros E. exists []. rewrite app_nil_r. split; [done|]. by intros m ok ?%elem_of_nil. Qed.

Lemma muted_trans w1 w2 w3 : muted w1 w2 → muted w2 w3 → muted w1 w3.
Proof.
  intros (n1 & E1 & H1) (n2 & E2 & H2). exists (n1 ++ n2). rewrite E2, E1, (assoc_L (++)). split; [done|].
  intros m ok [Hm|Hm]%elem_of_app; eauto.
Qed.

Lemma muted_log w w1 w2 : muted w w1 → log w2 = log w1 → muted w w2.
Proof. intros Hm E. eapply muted_trans; [exact Hm|by apply muted_refl]. Qed.

Lemma reset_muted p g seq w : muted w (reset submits p g seq w).2.
Proof.
  unfold reset. destruct (_ || _); [by apply muted_refl|]. eexists. split; [done|]. intros m ok. rewrite list_elem_of_singleton. by intros [= -> _].
Qed.

Lemma retire_muted p st w : muted w (retireRoutingStream submits p st w).2.
Proof.
  unfold retireRoutingStream. destruct (negb _).
  - pose proof (reset_muted p (previous st) (previousSequence st) w) as H1. destruct (reset _ _ (previous st) _ w) as [q w1]. cbn [snd] in H1. cbn.
    pose proof (reset_muted p (generation st) (sequence st) w1) as H2. destruct (reset _ _ (generation st) _ w1) as [q2 w2]. cbn [snd] in *.
    by eapply muted_trans.
  - pose proof (reset_muted p (generation st) (sequence st) w) as H2. by destruct (reset _ _ (generation st) _ w) as [q2 w2].
Qed.

Lemma foldl_muted {A} (f : World → A → World) l : (∀ w x, muted w (f w x)) → ∀ w, muted w (foldl f w l).
Proof. intros Hf. induction l as [|x l IH]; intros w; [by apply muted_refl|]. eapply muted_trans; [apply Hf|apply IH]. Qed.

Lemma retireMatching_muted p mask rm w : muted w (retireMatchingCohorts submits p mask rm w).
Proof.
  apply foldl_muted. intros w' s. unfold retire_cohort. destruct (_ && _); [by apply muted_refl|].
  pose proof (retire_muted s (get (book w') s) w') as Hm. destruct (failed _); [by destruct rm; apply muted_refl|].
  destruct (retireRoutingStream _ _ _ _) as [st w1]. cbn [snd] in Hm. by destruct rm; (eapply muted_log; [exact Hm|]).
Qed.

Lemma end_muted p w s : muted w (end_selector submits p w s).
Proof.
  unfold end_selector. destruct (lookup_stream _ _ _) as [st|]; [|by apply muted_refl]. cbv zeta.
  pose proof (retire_muted (p <| routingSelector := s |>) st w) as Hm. destruct (retireRoutingStream _ _ _ _) as [st' w1]. cbn [snd] in Hm.
  by eapply muted_log.
Qed.

Context (stages : list Effect → PeerUpRequest → option Receipt * bool) (clock : list Effect → Z).
Context (RangeSessions : gmap Z (gmap Selector Stream) → list Z) (RangeSelectors : gmap Selector Stream → list Selector).
Context (is_writer is_stager : bool) (laneTenant : gostring).

Lemma lost_muted ctx (lost_ : Z → bool) e w :
  routingEnd e = true ∨ loss lost_ e = true →
  muted w (routingStreamEvidence submits stages RangeSelectors is_writer is_stager laneTenant ctx lost_ e w).
Proof.
  intros Hl. unfold routingStreamEvidence. destruct (negb is_writer).
  { destruct (routingPeerUp e) as [q|]; [|by apply muted_refl]. destruct (_ || _); [by apply muted_refl|].
    eexists. split; [done|]. intros m ok. by rewrite list_elem_of_singleton. }
  destruct (negb _); [by apply muted_refl|]. destruct (routingEnd e); [apply foldl_muted; intros; apply end_muted|].
  destruct Hl as [?|Hl]; [done|]. destruct (routingPeerUp e) as [q|].
  - unfold stageRoutingCohort. rewrite Hl. apply retireMatching_muted.
  - unfold dispatchRoutingCohorts. destruct (peers _ _); [by apply muted_refl|]. rewrite Hl. apply retireMatching_muted.
Qed.

Lemma wake_muted lost_ w : muted w (retireLostRoutingStreams submits clock RangeSessions RangeSelectors is_writer lost_ w).
Proof.
  unfold retireLostRoutingStreams. destruct (negb _); [by apply muted_refl|]. apply foldl_muted. intros w' h. apply foldl_muted.
  intros w'' s. unfold retire_lost. destruct (lookup_stream _ _ _) as [st|]; [|by apply muted_refl]. destruct (_ || _); [by apply muted_refl|].
  cbv zeta. set (p := (source st) <| observedAt := _ |>). pose proof (retire_muted p st w'') as Hm.
  destruct (retireRoutingStream _ _ _ _) as [st' w1]. cbn [snd] in Hm. by eapply muted_log.
Qed.

End muted.

(** ** The listener and its worker

    Sessions and the evidence worker interleave; the queue and the flags are what they
    share.  A turn of the worker is one step: the code loads a session's flag and then submits,
    so a message the worker already decided on may still leave after the flag is set, and counts
    here as submitted before. *)

Record Sys := mkSys { lst : Listener; wld : World; usedIDs : list gostring }.

Section system.
Context (c : Config) (publishes : list Event → Event → bool) (submits : list Effect → Msg → bool).
Context (stages : list Effect → PeerUpRequest → option Receipt * bool) (clock : list Effect → Z).
Context (RangeSessions : gmap Z (gmap Selector Stream) → list Z) (RangeSelectors : gmap Selector Stream → list Selector).

Definition isLost (l : Listener) (token : Z) : bool := bool_decide (token ∈ lost l).

(** The evidence the worker hands to the routing streams; the rest are peer claims. *)
Definition routing_evidence (e : Evidence) : bool := bool_decide (is_Some (routingPeerUp e)) || bool_decide (is_Some (routingMessage e)) || routingEnd e.

Definition work_evidence (ctx : Context_) (e : Evidence) (l : Listener) (w : World) : World :=
  if routing_evidence e
  then step submits stages clock RangeSessions RangeSelectors (is_writer c) (is_stager c) (laneTenant c) w (OnEvidence ctx (isLost l) e)
  else w.

Definition work_loss (l : Listener) (w : World) : World :=
  step submits stages clock RangeSessions RangeSelectors (is_writer c) (is_stager c) (laneTenant c) w (OnLoss (isLost l)).

(** A nonce of crypto.UUIDv4 is new and not empty. *)
Definition fresh_nonce (i : Inputs) (used : list gostring) : Prop := ∀ n, nonce i = Some n → n ≠ [] ∧ n ∉ used.
Definition nonces (i : Inputs) : list gostring := match nonce i with Some n => [n] | None => [] end.

Inductive sys_step : Sys → Sys → Prop :=
| SysRegister id s : sys_step s (mkSys (registerLive id (lst s)).2 (wld s) (usedIDs s))
| SysFrame h session msgType payload i s :
    live_ (lst s) !! h = Some session → fresh_nonce i (usedIDs s) →
    sys_step s (mkSys (frame c publishes (ls_id session) h msgType payload i (lst s)).2 (wld s) (nonces i ++ usedIDs s))
| SysEnd h session now done l s :
    live_ (lst s) !! h = Some session → endRoutingEvidence c (ls_id session) h now done (lst s) = Some l →
    sys_step s (mkSys (deregisterLive h l) (wld s) (usedIDs s))
| SysSweep isRevoked now s : sys_step s (mkSys (sweepLiveSessions isRevoked now (lst s)) (wld s) (usedIDs s))
| SysCancel h s : sys_step s (mkSys (cancelRoutingSession h (lst s)) (wld s) (usedIDs s))
| SysEvidence e rest ctx s :
    evidenceQueue (lst s) = e :: rest →
    sys_step s (mkSys ((lst s) <| evidenceQueue := rest |>) (work_evidence ctx e (lst s) (wld s)) (usedIDs s))
| SysWake s :
    routingLossWake (lst s) = true →
    sys_step s (mkSys ((lst s) <| routingLossWake := false |>) (work_loss (lst s) (wld s)) (usedIDs s)).

Definition sys_init (limit : Z) : Sys := mkSys NewBMPListener (mkWorld (newBMPRoutingStreams limit) []) [].

Definition reachable (limit : Z) (s : Sys) : Prop := rtc sys_step (sys_init limit) s.

(** ** What a session adds to the queue *)

(** Routing evidence of a session carries the flag of that session. *)
Definition tokened (e : Evidence) : Prop :=
  (is_Some (routingPeerUp e) ∨ is_Some (routingMessage e)) → routingLoss e = Some (sessionHandle e).

Definition queue_ids (q : list Evidence) : list gostring := q ≫= BgpStreams.evidence_ids.

(** The queue grew by evidence that introduces at most the nonces [ids], and never past
    its capacity; the sessions are the same and no flag was taken back. *)
Definition adds (ids : list gostring) (l l' : Listener) : Prop :=
  live_ l' = live_ l ∧ lost l ⊆ lost l' ∧ (len (evidenceQueue l) ≤ queueCapacity → len (evidenceQueue l') ≤ queueCapacity) ∧
  ∃ new, evidenceQueue l' = evidenceQueue l ++ new ∧ Forall tokened new ∧ (queue_ids new = [] ∨ queue_ids new = ids).

Lemma adds_same ids l l' : live_ l' = live_ l → lost l' = lost l → evidenceQueue l' = evidenceQueue l → adds ids l l'.
Proof. intros E1 E2 E3. split_and!; [done|by rewrite E2|by rewrite E3|]. exists []. rewrite app_nil_r. split_and!; [done|constructor|by left]. Qed.

Lemma adds_trans ids l1 l2 l3 : adds ids l1 l2 → adds [] l2 l3 → adds ids l1 l3.
Proof.
  intros (H1 & H2 & H3 & n1 & E1 & T1 & I1) (H1' & H2' & H3' & n2 & E2 & T2 & I2). split_and!; [congruence|set_solver|auto|].
  exists (n1 ++ n2). rewrite E2, E1, (assoc_L (++)). split_and!; [done|by apply Forall_app|]. unfold queue_ids in *. rewrite bind_app.
  assert (n2 ≫= BgpStreams.evidence_ids = []) as -> by by destruct I2. by rewrite app_nil_r.
Qed.

Lemma adds_lose h ids l : adds ids l (loseRoutingEvidence h l).
Proof.
  unfold loseRoutingEvidence. destruct (routingSessionLoss l h) as [t|]; [|by apply adds_same].
  split_and!; [done|cbn; set_solver|done|]. exists []. rewrite app_nil_r. split_and!; [done|constructor|by left].
Qed.

Lemma adds_queue e l : tokened e → adds (BgpStreams.evidence_ids e) l (queuePeerEvidence c e l).2.
Proof.
  intros Ht. unfold queuePeerEvidence. destruct (_ || _); [by apply adds_same|]. destruct (_ <? _) eqn:E; [|by apply adds_same]. zbool.
  split_and!; [done|done| |].
  - intros _. cbn. unfold queueCapacity in *. rewrite len_app. change (len [e]) with 1. lia.
  - exists [e]. split_and!; [done|by apply Forall_singleton|right]. unfold queue_ids. cbn. apply app_nil_r.
Qed.

(** Queueing, or giving up on the session. *)
Lemma adds_or_lose h e l : tokened e →
  adds (BgpStreams.evidence_ids e) l (let '(ok, l) := queuePeerEvidence c e l in if ok : bool then l else loseRoutingEvidence h l).
Proof.
  intros Ht. pose proof (adds_queue e l Ht) as Ha. destruct (queuePeerEvidence c e l) as [ok l1]. cbn [snd] in Ha. destruct ok; [done|].
  eapply adds_trans; [exact Ha|apply adds_lose].
Qed.

Lemma adds_message id h kind payload now l :
  is_Some (live_ l !! h) → adds [] l (refuse h l (queueRoutingMessage c id h kind payload now l)).
Proof.
  intros [s Hs]. unfold queueRoutingMessage. destruct (_ || _); [by apply adds_same|]. cbv zeta. destruct (flagged _ _); [by apply adds_same|].
  destruct (_ && _); [by apply adds_same|]. destruct (_ <? _); [apply adds_lose|]. destruct (value _) as [header| | |]; try apply adds_lose.
  cbn [refuse]. match goal with |- context [queuePeerEvidence c ?e l] => set (ev := e) end. pose proof (adds_or_lose h ev l) as Ha.
  destruct (queuePeerEvidence c ev l) as [ok l1]. apply Ha. intros _. unfold ev, routingSessionLoss. cbn. by rewrite Hs.
Qed.

Lemma adds_peer_up id h payload i l :
  is_Some (live_ l !! h) → adds (nonces i) l (refuse h l (queueRoutingPeerUp c id h payload (nonce i) (nowQueue i) l)).
Proof.
  intros [s Hs]. unfold queueRoutingPeerUp. destruct (_ || _); [by apply adds_same|]. cbv zeta. destruct (flagged _ _); [by apply adds_same|].
  destruct (_ <? _); [apply adds_lose|]. destruct (value _) as [header| | |]; try apply adds_lose.
  destruct (nonce i) as [n|] eqn:En; [|apply adds_lose]. cbn [refuse].
  match goal with |- context [queuePeerEvidence c ?e l] => set (ev := e) end. pose proof (adds_or_lose h ev l) as Ha.
  unfold nonces. rewrite En. destruct (queuePeerEvidence c ev l) as [ok l1]. apply Ha. intros _. unfold ev, routingSessionLoss. cbn. by rewrite Hs.
Qed.

Lemma adds_routes id p t rs : ∀ acc, adds [] acc.2 (foldl (handle_route c publishes id p t) acc rs).2.
Proof.
  induction rs as [|r rs IH]; intros acc; [by apply adds_same|]. cbn [foldl]. eapply adds_trans; [|apply IH].
  destruct acc as [go l]. unfold handle_route. cbn [snd]. destruct (negb go); [by apply adds_same|].
  destruct (recordOrigin _ _ _ _) as [prior b]. destruct (repeated _ _ _ _ _ _) as [again s]. cbv zeta.
  destruct again; [by apply adds_same|]. destruct (publishes _ _); by apply adds_same.
Qed.

Lemma adds_frame id h msgType payload i l :
  is_Some (live_ l !! h) → adds (nonces i) l (frame c publishes id h msgType payload i l).2.
Proof.
  intros Hs. unfold frame. destruct (revoked i); [by apply adds_same|]. destruct (msgType =? bmpPeerUp); [by apply adds_peer_up|]. cbv zeta.
  assert (Hm : adds (nonces i) l (refuse h l (queueRoutingMessage c id h msgType payload (nowQueue i) l))).
  { destruct (adds_message id h msgType payload (nowQueue i) l Hs) as (H1 & H2 & H3 & new & E & T & [I|I]); split_and!; try done; exists new; auto. }
  set (l1 := refuse _ _ _) in *. clearbody l1. destruct (negb _); [done|].
  destruct (value (parseBMPRouteMonitoring payload)) as [obs|e| |]; [|by destruct (existsb _ e); (eapply adds_trans; [exact Hm|by apply adds_same])|done..].
  eapply adds_trans; [exact Hm|].
  match goal with |- context [foldl ?f (true, ?l2) ?rs] => pose proof (adds_routes id (peer obs) (if TimestampUnixNano (peer obs) =? 0 then nowDetect i else TimestampUnixNano (peer obs)) rs (true, l2)) as Hr; destruct (foldl f (true, l2) rs) as [go l3] end.
  cbn [snd] in Hr. assert (Hl3 : adds [] l1 l3) by (eapply adds_trans; [|exact Hr]; by apply adds_same).
  destruct (negb go); [done|]. destruct (0 <? _); [|done]. cbn [snd]. eapply adds_trans; [exact Hl3|]. apply adds_queue.
  intros [[? ?]|[? ?]]; done.
Qed.

(** ** The invariant of listener and worker *)

Record queue_ok (seen used : list gostring) (q : list Evidence) : Prop := {
  q_tokened : Forall tokened q;
  q_distinct : NoDup (queue_ids q);
  q_new : ∀ g, g ∈ queue_ids q → g ≠ [] ∧ g ∈ used ∧ g ∉ seen;
  q_bounded : len q ≤ queueCapacity }.

Definition SysInv (s : Sys) : Prop :=
  ∃ seen, BgpStreams.Inv seen (wld s) ∧ (∀ g, g ∈ seen → g ∈ usedIDs s) ∧ queue_ok seen (usedIDs s) (evidenceQueue (lst s)).

Lemma queue_ok_adds seen used ids l l' :
  queue_ok seen used (evidenceQueue l) → adds ids l l' → NoDup ids → (∀ g, g ∈ ids → g ≠ [] ∧ g ∉ used) → (∀ g, g ∈ seen → g ∈ used) →
  queue_ok seen (ids ++ used) (evidenceQueue l').
Proof.
  intros [Ht Hd Hn Hb] (_ & _ & Hb' & new & E & Ht' & Hids) Hnd Hfresh Hseen. rewrite E in *. unfold queue_ids in *.
  assert (Hin : ∀ g, g ∈ new ≫= BgpStreams.evidence_ids → g ∈ ids) by (destruct Hids as [-> | ->]; [by intros g ?%elem_of_nil|done]).
  split.
  - by apply Forall_app.
  - unfold queue_ids. rewrite bind_app. apply NoDup_app. split_and!; [done| |destruct Hids as [-> | ->]; [constructor|done]].
    intros g Hg Hg'. apply Hin in Hg'. destruct (Hfresh g Hg') as [_ Hnot]. by apply Hnot, Hn.
  - unfold queue_ids. intros g. rewrite bind_app, elem_of_app. intros [Hg|Hg].
    + destruct (Hn g Hg) as (? & ? & ?). split_and!; [done|apply elem_of_app; by right|done].
    + apply Hin in Hg. destruct (Hfresh g Hg) as [? Hnot]. split_and!; [done|apply elem_of_app; by left|]. auto.
  - auto.
Qed.

Lemma queue_ok_tail seen used e q :
  queue_ok seen used (e :: q) →
  queue_ok (BgpStreams.evidence_ids e ++ seen) used q ∧ tokened e ∧ ∀ g, g ∈ BgpStreams.evidence_ids e → g ≠ [] ∧ g ∈ used ∧ g ∉ seen.
Proof.
  intros [Ht Hd Hn Hb]. unfold queue_ids in *. rewrite bind_cons in *. apply Forall_cons in Ht as [He Ht]. apply NoDup_app in Hd as (_ & Hdis & Hd).
  split_and!; [|done|intros g Hg; apply Hn, elem_of_app; by left]. split; [done|done| |rewrite len_cons in Hb; lia].
  intros g Hg. destruct (Hn g) as (? & ? & ?); [apply elem_of_app; by right|]. split_and!; [done|done|].
  rewrite elem_of_app. intros [Hg'|?]; [by apply (Hdis g)|done].
Qed.

Lemma work_evidence_safe ctx e l w :
  (∀ g, g ∈ BgpStreams.evidence_ids e → g ≠ []) →
  BgpStreams.safe (λ k, k.1 = sessionHandle e) (BgpStreams.evidence_ids e) w (work_evidence ctx e l w).
Proof.
  intros Hne. unfold work_evidence. destruct (routing_evidence e); [|apply BgpStreams.safe_refl]. by apply BgpStreams.routingStreamEvidence_safe.
Qed.

(** The worker on queued evidence, for a session that is lost. *)
Lemma lost_evidence_resets seen ctx e h l w :
  BgpStreams.Inv seen w → tokened e → (∀ g, g ∈ BgpStreams.evidence_ids e → g ≠ [] ∧ g ∉ seen) → h ∈ lost l →
  ∃ new, log (work_evidence ctx e l w) = log w ++ new ∧ ∀ m ok, Submitted m ok ∈ new →
    (∃ sel st, lookup_stream (book w) h sel = Some st ∧ Generation m ≠ [] ∧ (Generation m = generation st ∨ Generation m = previous st)) →
    SourceReset m = true.
Proof.
  intros HI Htok Hids Hlost. destruct (decide (sessionHandle e = h)) as [<-|Hne].
  - unfold work_evidence. destruct (routing_evidence e) eqn:Er; [|exists []; rewrite app_nil_r; split; [done|by intros m ok ?%elem_of_nil]].
    destruct (lost_muted submits stages RangeSelectors (is_writer c) (is_stager c) (laneTenant c) ctx (isLost l) e w) as (new & E & Hm).
    { unfold routing_evidence in Er. destruct (routingEnd e); [by left|right]. rewrite orb_false_r in Er. unfold loss. rewrite Htok.
      - unfold isLost. by apply bool_decide_eq_true_2.
      - apply orb_true_iff in Er as [E|E]; apply bool_decide_eq_true in E; auto. }
    exists new. split; [exact E|]. intros m ok Hin _. by apply (Hm m ok).
  - destruct (work_evidence_safe ctx e l w) with (seen := seen) as [_ He]; [intros g Hg; by apply Hids|done|intros g Hg; by apply Hids|].
    destruct (BgpStreams.ev_log _ _ _ _ He) as (new & E & Ho). exists new. split; [exact E|].
    intros m ok Hin (sel & st & Hst & Hgne & Hg). exfalso. assert (Hown : BgpStreams.owns st (Generation m)) by by split.
    destruct (Ho m ok Hin) as [Hid|([h2 sel2] & st2 & Hk & Hst2 & Hown2)].
    + apply Hids in Hid as [_ Hid]. apply Hid, (BgpStreams.inv_seen _ _ HI (h, sel) st); done.
    + cbn in Hk. subst h2. pose proof (BgpStreams.inv_owner _ _ HI (h, sel) (sessionHandle e, sel2) st st2 _ Hst Hst2 Hown Hown2) as Heq.
      injection Heq as -> _. done.
Qed.

Lemma sys_step_inv s s' : SysInv s → sys_step s s' → SysInv s'.
Proof.
  intros (seen & HI & Hs & Hq) Hstep.
  assert (Hsame : ∀ l, evidenceQueue l = evidenceQueue (lst s) → SysInv (mkSys l (wld s) (usedIDs s))).
  { intros l E. exists seen. cbn. by rewrite E. }
  destruct Hstep as [id s|h session msgType payload i s Hlive Hnew|h session now done_ l s Hlive Hend|r now s|h s|e rest ctx s Hqueue|s Hwake].
  - by apply Hsame.
  - exists seen. cbn. split_and!; [done|intros g Hg; apply elem_of_app; right; by apply Hs|].
    apply (queue_ok_adds _ _ _ _ _ Hq (adds_frame (ls_id session) h msgType payload i (lst s) ltac:(by eexists))); [| |done].
    + unfold nonces. destruct (nonce i); [apply NoDup_singleton|constructor].
    + unfold nonces. intros g. destruct (nonce i) as [n|] eqn:En; [|by intros ?%elem_of_nil]. rewrite list_elem_of_singleton. intros ->. by apply Hnew.
  - exists seen. cbn. split_and!; [done|done|]. unfold endRoutingEvidence in Hend. destruct (_ || _); [by injection Hend as <-|]. destruct done_; [by injection Hend as <-|].
    destruct (_ <? _) eqn:E in Hend; [|done]. injection Hend as <-. cbn. zbool. destruct Hq as [Ht Hd Hn Hb]. split.
    + apply Forall_app. split; [done|]. apply Forall_singleton. by intros [[? ?]|[? ?]].
    + unfold queue_ids. rewrite bind_app. cbn. by rewrite app_nil_r.
    + intros g. unfold queue_ids. rewrite bind_app. cbn. rewrite app_nil_r. apply Hn.
    + rewrite len_app. change (len [_]) with 1. unfold queueCapacity in *. lia.
  - by apply Hsame.
  - apply Hsame. unfold cancelRoutingSession. by destruct (live_ (lst s) !! h).
  - rewrite Hqueue in Hq. apply queue_ok_tail in Hq as (Hq & _ & Hids).
    destruct (work_evidence_safe ctx e (lst s) (wld s)) with (seen := seen) as [HI' _]; [intros g Hg; by apply Hids|done|intros g Hg; by apply Hids|].
    exists (BgpStreams.evidence_ids e ++ seen). cbn. split_and!; [done| |done]. intros g [Hg|Hg]%elem_of_app; [by apply Hids|by apply Hs].
  - destruct (BgpStreams.retireLostRoutingStreams_safe submits RangeSelectors RangeSessions clock (is_writer c) (isLost (lst s)) (wld s))
      with (seen := seen) as [HI' _]; [done|by intros g ?%elem_of_nil|]. exists seen. cbn. done.
Qed.

Lemma reachable_inv limit s : 0 ≤ limit → reachable limit s → SysInv s.
Proof.
  intros Hl. apply rtc_ind_r; [|intros s1 s2 _ Hstep HI; by apply (sys_step_inv s1)].
  exists []. cbn. split_and!; [by apply BgpStreams.initial_inv|done|]. split; [constructor|constructor|by intros g ?%elem_of_nil|vm_compute; discriminate].
Qed.

(** C24. Lost evidence is never papered over: in every interleaving of sessions and worker,
    once evidence of a session was dropped or refused, every message that any later step
    submits for a generation of that session is a reset; no route follows the gap. *)
Theorem loss_is_final (limit : Z) (s s' : Sys) (h : Z) :
  0 ≤ limit → reachable limit s → sys_step s s' → h ∈ lost (lst s) →
  h ∈ lost (lst s') ∧
  ∃ new, log (wld s') = log (wld s) ++ new ∧ ∀ m ok, Submitted m ok ∈ new →
    (∃ sel st, lookup_stream (book (wld s)) h sel = Some st ∧ Generation m ≠ [] ∧ (Generation m = generation st ∨ Generation m = previous st)) →
    SourceReset m = true.
Proof.
  intros Hl Hreach Hstep Hlost. apply reachable_inv in Hreach as (seen & HI & Hs & Hq); [|done].
  assert (Hnone : ∃ new, log (wld s) = log (wld s) ++ new ∧ ∀ m ok, Submitted m ok ∈ new →
    (∃ sel st, lookup_stream (book (wld s)) h sel = Some st ∧ Generation m ≠ [] ∧ (Generation m = generation st ∨ Generation m = previous st)) →
    SourceReset m = true) by (exists []; rewrite app_nil_r; split; [done|by intros m ok ?%elem_of_nil]).
  destruct Hstep as [id s|h' session msgType payload i s Hlive Hnew|h' session now done_ l s Hlive Hend|r now s|h' s|e rest ctx s Hqueue|s Hwake]; cbn.
  - done.
  - split; [|done]. destruct (adds_frame (ls_id session) h' msgType payload i (lst s) ltac:(by eexists)) as (_ & Hsub & _). by apply Hsub.
  - split; [|done]. unfold endRoutingEvidence in Hend. destruct (_ || _); [by injection Hend as <-|]. destruct done_; [by injection Hend as <-|]. destruct (_ <? _); [|done]. by injection Hend as <-.
  - done.
  - split; [|done]. unfold cancelRoutingSession. by destruct (live_ (lst s) !! h').
  - split; [done|]. rewrite Hqueue in Hq. apply queue_ok_tail in Hq as (_ & Htok & Hids). apply (lost_evidence_resets seen ctx e); [done|done| |done].
    intros g Hg. by destruct (Hids g Hg) as (? & _ & ?).
  - split; [done|]. destruct (wake_muted submits clock RangeSessions RangeSelectors (is_writer c) (isLost (lst s)) (wld s)) as (new & E & Hm).
    exists new. split; [exact E|]. intros m ok Hin _. by apply (Hm m ok).
Qed.

End system.

(** ** Witnesses *)

Lemma frame_retained_witness : bytes [3; 0; 0; 0; 8; 4; 1; 2; 9] = reframe 4 (bytes [1; 2]) ++ bytes [9].
Proof. apply (frame_retained _ 4 (bytes [1; 2]) (bytes [9])). vm_compute. reflexivity. Defined.

Definition demo_config : Config := mkConfig 300 (str "bmp") true true true (str "tenant").
Definition demo_id : bmpIdentity := mkIdentity (str "tenant") (str "router") (str "spiffe") (str "1f") (mkTime 0 0).
Definition demo_key : bmpRouteKey := (str "tenant", str "router", "10.0.0.1"%string, "10.0.0.0/8"%string, "[7 100000]"%string, 7, 100000).

Lemma suppression_truthful_witness :
  (repeated_key 300 (suppress_run 300 [(demo_key, 100); (demo_key, 350)]).1 demo_key 399).1 = true ∧
  (repeated_key 300 (suppress_run 300 [(demo_key, 100); (demo_key, 350)]).1 demo_key 400).1 = false ∧
  ∃ t, last_for demo_key (suppress_run 300 [(demo_key, 100); (demo_key, 350)]).2 = Some t ∧ 0 ≤ 399 - t < 300.
Proof.
  assert (H : (repeated_key 300 (suppress_run 300 [(demo_key, 100); (demo_key, 350)]).1 demo_key 399).1 = true) by (vm_compute; reflexivity).
  split; [exact H|]. split; [vm_compute; reflexivity|].
  pose proof (suppression_truthful 300 [(demo_key, 100); (demo_key, 350)] demo_key 399) as Ht.
  destruct (suppress_run 300 [(demo_key, 100); (demo_key, 350)]) as [s out]. destruct Ht as [Ht _]; [lia| |lia|exact (Ht H)].
  intros x. rewrite !elem_of_cons, elem_of_nil. intros [->|[->|[]]]; cbn; lia.
Defined.

(** A prefix whose origin flips and flips back within the window: the change is published, the
    change back is held back as a repeat of the first observation. *)
Definition demo_peer : bmpPeer := mkPeer 65000 "192.0.2.1" 0.
Definition demo_report (at_ origin : Z) : Report := mkReport demo_id demo_peer at_ (mkAnnouncement "10.0.0.0/8" [65000; origin] origin).

Example origin_flap_held_back :
  (λ ev, (EventType ev, OldOriginASN ev, NewOriginASN ev)) <$>
    published (after_reports demo_config (λ _ _, true) [demo_report 100 64500; demo_report 150 64501; demo_report 200 64500]) =
  [("route_observation"%string, 0, 64500); ("origin_change"%string, 64500, 64501)].
Proof. vm_compute. reflexivity. Qed.

(** A session stages a peer, then sends a frame that cannot be taken: its stream is reset. *)
Definition demo_header3 : list byte := bytes [3; 0] ++ replicate 24 x00 ++ bytes [0; 0; 0; 7; 10; 0; 0; 1] ++ replicate 8 x00.
Definition demo_inputs (n : option gostring) : Inputs := mkInputs false n 1 2 3.
Definition demo_publishes (l : list Event) (ev : Event) : bool := true.

Abbreviation demo_frame h msgType payload n s :=
  (mkSys (frame demo_config demo_publishes demo_id h msgType payload (demo_inputs n) (lst s)).2 (wld s) (nonces (demo_inputs n) ++ usedIDs s)).
Abbreviation demo_step := (sys_step demo_config demo_publishes BgpStreams.demo_submits BgpStreams.demo_stages BgpStreams.demo_clock
  BgpStreams.demo_sessions BgpStreams.demo_selectors).
Abbreviation demo_worker := (work_evidence demo_config BgpStreams.demo_submits BgpStreams.demo_stages BgpStreams.demo_clock
  BgpStreams.demo_sessions BgpStreams.demo_selectors Background).

Definition demo_s1 : Sys := mkSys (registerLive demo_id NewBMPListener).2 (wld (sys_init 100000)) [].
Definition demo_s2 : Sys := demo_frame 1 3 demo_header3 (Some (str "nonce")) demo_s1.
Definition demo_taken : Evidence := default noEvidence (head (evidenceQueue (lst demo_s2))).
Definition demo_s3 : Sys := mkSys ((lst demo_s2) <| evidenceQueue := [] |>) (demo_worker demo_taken (lst demo_s2) (wld demo_s2)) (usedIDs demo_s2).
Definition demo_s4 : Sys := demo_frame 1 0 (bytes [3]) None demo_s3.
Definition demo_s5 : Sys :=
  mkSys ((lst demo_s4) <| routingLossWake := false |>)
    (work_loss demo_config BgpStreams.demo_submits BgpStreams.demo_stages BgpStreams.demo_clock BgpStreams.demo_sessions
       BgpStreams.demo_selectors (lst demo_s4) (wld demo_s4)) (usedIDs demo_s4).

Lemma demo_reachable :
  reachable demo_config demo_publishes BgpStreams.demo_submits BgpStreams.demo_stages BgpStreams.demo_clock BgpStreams.demo_sessions
    BgpStreams.demo_selectors 100000 demo_s4.
Proof.
  apply (rtc_l _ _ demo_s1); [exact (SysRegister _ _ _ _ _ _ _ demo_id (sys_init 100000))|].
  apply (rtc_l _ _ demo_s2).
  { apply (SysFrame _ _ _ _ _ _ _ 1 (mkLive demo_id EmptyString false) 3 demo_header3 (demo_inputs (Some (str "nonce"))) demo_s1); [vm_compute; reflexivity|].
    intros n [= <-]. split; [discriminate|]. vm_compute. by intros ?%elem_of_nil. }
  apply (rtc_l _ _ demo_s3); [exact (SysEvidence _ _ _ _ _ _ _ demo_taken [] Background demo_s2 ltac:(vm_compute; reflexivity))|].
  apply rtc_once.
  apply (SysFrame _ _ _ _ _ _ _ 1 (mkLive demo_id EmptyString false) 0 (bytes [3]) (demo_inputs None) demo_s3); [vm_compute; reflexivity|done].
Qed.

Lemma loss_is_final_witness :
  1 ∈ lost (lst demo_s5) ∧
  (λ e, match e with Submitted m ok => Some (Generation m, Sequence m, SourceReset m) | _ => None end) <$> log (wld demo_s5) =
    [None; Some (str "nonce", 1, true)].
Proof.
  split; [|vm_compute; reflexivity].
  apply (loss_is_final demo_config demo_publishes BgpStreams.demo_submits BgpStreams.demo_stages BgpStreams.demo_clock BgpStreams.demo_sessions
    BgpStreams.demo_selectors 100000 demo_s4 demo_s5 1 ltac:(lia) demo_reachable).
  - exact (SysWake _ _ _ _ _ _ _ demo_s4 ltac:(vm_compute; reflexivity)).
  - apply (bool_decide_unpack _). vm_compute. reflexivity.
Defined.

End BgpFeed.
