(* ===== verification/BgpAdmission.v ===== *)
(** * Admission of BMP connections (internal/bgp/bmp.go)

    The pools a connection passes through: a small one for handshakes, a per-source count
    for as long as the connection lasts, a session slot once it is authenticated, and a
    per-identity count.  Connections are goroutines whose steps interleave; each step is one
    operation on the pools.  Taking or returning a session slot and the counter update next to it
    are one step, so the equality of slots and counter is one between steps: in the code they are
    two operations in sequence (acquireSession, releaseSession), and the counter may lag by the
    connections that are between the two. *)

From S2P Require Import Prelude GoTime FlowModel GoString GoProg BgpBase BgpOpen BgpPeer BgpChanges BgpBook BgpFeed.
#[local] Open Scope Z_scope.

Module BgpAdmission.
Import BgpBook BgpFeed.

#[export] Instance Addr_countable : Countable Addr :=
  inj_countable' (λ a, match a with AddrNone => (0%N, []) | Addr4 l => (1%N, l) | Addr16 l => (2%N, l) end)
    (λ p, match p.1 with 0%N => AddrNone | 1%N => Addr4 p.2 | _ => Addr16 p.2 end) ltac:(by intros []).

(** ** The pools *)

(** [preAuthSlots] and [sessionSlots] are buffered channels: their lengths. *)
Record Pools := mkPools { preAuthSlots : Z; perSource : gmap Addr Z; sessionSlots : Z; activeSessions : Z; perIdentity : gmap gostring Z }.

#[export] Instance Pools_eta : Eta Pools := λ p,
  mkPools (preAuthSlots p) (perSource p) (sessionSlots p) (activeSessions p) (perIdentity p).

Record Limits := mkLimits { maxPreAuth : Z; maxPerSource : Z; maxSessions : Z; maxPerIdentity : Z }.

Definition DefaultBMPMaxSessions : Z := 256.
Definition DefaultBMPMaxPreAuthHandshakes : Z := 64.
Definition DefaultBMPMaxSessionsPerSource : Z := 32.
Definition DefaultBMPMaxSessionsPerIdentity : Z := 4.
Definition default_limits : Limits :=
  mkLimits DefaultBMPMaxPreAuthHandshakes DefaultBMPMaxSessionsPerSource DefaultBMPMaxSessions DefaultBMPMaxSessionsPerIdentity.

(** [m[k]] of a map of counters. *)
Definition counter {K} `{Countable K} (m : gmap K Z) (k : K) : Z := default 0 (m !! k).
Definition increment {K} `{Countable K} (k : K) (m : gmap K Z) : gmap K Z := <[k := counter m k + 1]> m.

Definition admitPreAuth (lim : Limits) (src : Addr) (p : Pools) : option string * Pools :=
  if (0 <? maxPerSource lim) && (maxPerSource lim <=? counter (perSource p) src) then (Some "source_limit"%string, p)
  else if preAuthSlots p <? maxPreAuth lim then
    (None, p <| preAuthSlots := preAuthSlots p + 1 |> <| perSource := increment src (perSource p) |>)
  else (Some "preauth_limit"%string, p).

(** Drop one reservation, and the entry with the last one. *)
Definition release {K} `{Countable K} (k : K) (m : gmap K Z) : gmap K Z :=
  if 0 <? counter m k then
    let m := <[k := counter m k - 1]> m in
    if counter m k =? 0 then delete k m else m
  else m.

Definition releaseSource (src : Addr) (p : Pools) : Pools := p <| perSource := release src (perSource p) |>.

Definition acquireIdentity (lim : Limits) (spiffeID : gostring) (p : Pools) : bool * Pools :=
  if (0 <? maxPerIdentity lim) && (maxPerIdentity lim <=? counter (perIdentity p) spiffeID) then (false, p)
  else (true, p <| perIdentity := increment spiffeID (perIdentity p) |>).

Definition releaseIdentity (spiffeID : gostring) (p : Pools) : Pools := p <| perIdentity := release spiffeID (perIdentity p) |>.

Definition acquireSession (lim : Limits) (p : Pools) : bool * Pools :=
  if sessionSlots p <? maxSessions lim then
    (true, p <| sessionSlots := sessionSlots p + 1 |> <| activeSessions := activeSessions p + 1 |>)
  else (false, p).

(** A receive from a channel blocks while it is empty: [None]. *)
Definition releaseSession (p : Pools) : option Pools :=
  if 0 <? sessionSlots p then Some (p <| sessionSlots := sessionSlots p - 1 |> <| activeSessions := activeSessions p - 1 |>) else None.

Definition releasePreAuth (p : Pools) : option Pools :=
  if 0 <? preAuthSlots p then Some (p <| preAuthSlots := preAuthSlots p - 1 |>) else None.

(** ** Connections *)

(** What the handshake of a connection met: the identity of the peer certificate (none when
    the handshake failed), the deny-list, the answer of the registry (none is an error), and
    whether the deadline could be cleared. *)
Record Handshakes := mkHandshake {
  peerIdentity : option bmpIdentity; isRevoked : bmpIdentity → bool; verifyIssued : bmpIdentity → option bool; deadlineCleared : bool }.

(** The pre-authentication phase of handleConn. *)
Definition authenticate (laneTenant : gostring) (h : Handshakes) : option bmpIdentity :=
  match peerIdentity h with
  | None => None
  | Some id =>
      if isRevoked h id then None
      else match verifyIssued h id with
           | None => None
           | Some issued =>
               if negb issued then None
               else if negb (bool_decide (laneTenant = [])) && negb (bool_decide (TenantID id = laneTenant)) then None
               else if negb (deadlineCleared h) then None
               else Some id
           end
  end.

(** Where a connection is in Serve and handleConn. *)
Inductive Phase :=
| Handshake                           (* accepted, not authenticated *)
| Authenticated (id : bmpIdentity)    (* verified, handshake slot given back *)
| Slotted (id : bmpIdentity)          (* holds a session slot *)
| Serving (id : bmpIdentity)          (* holds the identity count too, reads frames *)
| Leaving                             (* identity count given back or refused *)
| Closed.                             (* handleConn has returned *)

Definition Conn : Type := Addr * Phase.

Record State := mkState { pools : Pools; conns : gmap nat Conn }.

Section connections.
(** [happens]: the handshakes that take place. *)
Context (lim : Limits) (laneTenant : gostring) (happens : Handshakes → Prop).

Inductive conn_step : State → State → Prop :=
| Accepts k src p' s :
    conns s !! k = None → admitPreAuth lim src (pools s) = (None, p') →
    conn_step s (mkState p' (<[k := (src, Handshake)]> (conns s)))
| Refuses src reason p' s : admitPreAuth lim src (pools s) = (Some reason, p') → conn_step s (mkState p' (conns s))
| Fails k src h p' s :
    conns s !! k = Some (src, Handshake) → happens h → authenticate laneTenant h = None → releasePreAuth (pools s) = Some p' →
    conn_step s (mkState p' (<[k := (src, Closed)]> (conns s)))
| Promotes k src h id p' s :
    conns s !! k = Some (src, Handshake) → happens h → authenticate laneTenant h = Some id → releasePreAuth (pools s) = Some p' →
    conn_step s (mkState p' (<[k := (src, Authenticated id)]> (conns s)))
| TakesSlot k src id ok p' s :
    conns s !! k = Some (src, Authenticated id) → acquireSession lim (pools s) = (ok, p') →
    conn_step s (mkState p' (<[k := (src, if ok : bool then Slotted id else Closed)]> (conns s)))
| TakesIdentity k src id ok p' s :
    conns s !! k = Some (src, Slotted id) → acquireIdentity lim (SPIFFEID id) (pools s) = (ok, p') →
    conn_step s (mkState p' (<[k := (src, if ok : bool then Serving id else Leaving)]> (conns s)))
| Ends k src id s :
    conns s !! k = Some (src, Serving id) →
    conn_step s (mkState (releaseIdentity (SPIFFEID id) (pools s)) (<[k := (src, Leaving)]> (conns s)))
| Leaves k src p' s :
    conns s !! k = Some (src, Leaving) → releaseSession (pools s) = Some p' →
    conn_step s (mkState p' (<[k := (src, Closed)]> (conns s)))
| Closes k src s :
    conns s !! k = Some (src, Closed) →
    conn_step s (mkState (releaseSource src (pools s)) (delete k (conns s))).

Definition idle : State := mkState (mkPools 0 ∅ 0 0 ∅) ∅.

(** ** Counting connections *)

Definition count (f : Conn → bool) (m : gmap nat Conn) : Z := msum (λ x, if f x then 1 else 0) m.

Definition from (src : Addr) (x : Conn) : bool := bool_decide (x.1 = src).
Definition shaking (x : Conn) : bool := match x.2 with Handshake => true | _ => false end.
Definition slotted (x : Conn) : bool := match x.2 with Slotted _ | Serving _ | Leaving => true | _ => false end.
Definition serving (id : gostring) (x : Conn) : bool := match x.2 with Serving i => bool_decide (SPIFFEID i = id) | _ => false end.

Definition bit (b : bool) : Z := if b then 1 else 0.

Lemma count_nonneg f m : 0 ≤ count f m.
Proof. apply msum_nonneg. intros x. destruct (f x); lia. Qed.

Lemma count_delete f m k x : m !! k = Some x → count f (delete k m) = count f m - bit (f x).
Proof. intros Hk. unfold count. rewrite (msum_delete _ m k x) by done. unfold bit. lia. Qed.

Lemma count_new f m k x : m !! k = None → count f (<[k := x]> m) = count f m + bit (f x).
Proof. intros Hk. unfold count. rewrite msum_insert, delete_id by done. unfold bit. lia. Qed.

Lemma count_move f m k x y : m !! k = Some x → count f (<[k := y]> m) = count f m - bit (f x) + bit (f y).
Proof. intros Hk. unfold count. rewrite msum_insert, (msum_delete _ m k x) by done. unfold bit. lia. Qed.

Lemma count_pos f m k x : m !! k = Some x → f x = true → 1 ≤ count f m.
Proof. intros Hk Hf. unfold count. rewrite (msum_delete _ m k x), Hf by done. pose proof (count_nonneg f (delete k m)). unfold count in *. lia. Qed.

(** A map of counters that counts [f], without zero entries. *)
Definition tallies {K} `{Countable K} (m : gmap K Z) (f : K → Z) : Prop := ∀ k, m !! k = if f k =? 0 then None else Some (f k).

Lemma tallies_counter {K} `{Countable K} (m : gmap K Z) f k : tallies m f → counter m k = f k.
Proof. intros Ht. unfold counter. rewrite Ht. destruct (f k =? 0) eqn:E; zbool; done. Qed.

Lemma tallies_ext {K} `{Countable K} (m : gmap K Z) f g : tallies m f → (∀ k, g k = f k) → tallies m g.
Proof. intros Ht Hg k. by rewrite Hg. Qed.

Lemma tallies_increment {K} `{Countable K} (m : gmap K Z) (f g : K → Z) k :
  tallies m f → 0 ≤ f k → (∀ k', g k' = f k' + bit (bool_decide (k' = k))) → tallies (increment k m) g.
Proof.
  intros Ht Hf Hg k'. unfold increment. rewrite (tallies_counter _ f), Hg by done. destruct (bool_decide_reflect (k' = k)) as [->|Hne]; cbn.
  - rewrite lookup_insert_eq. replace (f k + 1 =? 0) with false by (symmetry; apply Z.eqb_neq; lia). done.
  - rewrite lookup_insert_ne by done. rewrite Z.add_0_r. apply Ht.
Qed.

Lemma tallies_release {K} `{Countable K} (m : gmap K Z) (f g : K → Z) k :
  tallies m f → 1 ≤ f k → (∀ k', g k' = f k' - bit (bool_decide (k' = k))) → tallies (release k m) g.
Proof.
  intros Ht Hf Hg k'. unfold release. rewrite (tallies_counter m f k) by done. replace (0 <? f k) with true by (symmetry; apply Z.ltb_lt; lia).
  cbv zeta. assert (counter (<[k := f k - 1]> m) k = f k - 1) as -> by (unfold counter; by rewrite lookup_insert_eq).
  rewrite Hg. destruct (bool_decide_reflect (k' = k)) as [->|Hne]; cbn.
  - destruct (f k - 1 =? 0); [apply lookup_delete_eq|apply lookup_insert_eq].
  - rewrite Z.sub_0_r, <- Ht. destruct (f k - 1 =? 0); [rewrite lookup_delete_ne by done|]; by rewrite lookup_insert_ne.
Qed.

(** ** The invariant *)

Record exact (s : State) : Prop := {
  ex_pre : preAuthSlots (pools s) = count shaking (conns s);
  ex_source : tallies (perSource (pools s)) (λ src, count (from src) (conns s));
  ex_session : sessionSlots (pools s) = count slotted (conns s);
  ex_active : activeSessions (pools s) = sessionSlots (pools s);
  ex_identity : tallies (perIdentity (pools s)) (λ id, count (serving id) (conns s));
  ex_pre_max : preAuthSlots (pools s) ≤ maxPreAuth lim;
  ex_source_max : ∀ src, 0 < maxPerSource lim → count (from src) (conns s) ≤ maxPerSource lim;
  ex_session_max : sessionSlots (pools s) ≤ maxSessions lim;
  ex_identity_max : ∀ id, 0 < maxPerIdentity lim → count (serving id) (conns s) ≤ maxPerIdentity lim }.

Lemma idle_exact : 0 ≤ maxPreAuth lim → 0 ≤ maxSessions lim → exact idle.
Proof.
  intros H1 H2. assert (Hc : ∀ f, count f ∅ = 0) by (intros f; apply msum_empty).
  split; cbn; rewrite ?Hc; try done; intros k; rewrite Hc; [done..|lia|lia].
Qed.

(** The counts after the phase of a connection changed. *)
Ltac recount Hk :=
  rewrite ?(count_move _ _ _ _ _ Hk); unfold bit, from, shaking, slotted, serving; cbn [fst snd].

(** A connection that moves within its source keeps the per-source counts. *)
Lemma source_kept s k src ph ph' :
  conns s !! k = Some (src, ph) → ∀ src', count (from src') (<[k := (src, ph')]> (conns s)) = count (from src') (conns s).
Proof. intros Hk src'. recount Hk. lia. Qed.

Lemma identity_kept s k src ph ph' :
  conns s !! k = Some (src, ph) → (∀ id, serving id (src, ph) = false) → (∀ id, serving id (src, ph') = false) →
  ∀ id, count (serving id) (<[k := (src, ph')]> (conns s)) = count (serving id) (conns s).
Proof. intros Hk H1 H2 id. rewrite (count_move _ _ _ _ _ Hk), H1, H2. unfold bit. lia. Qed.

Lemma count_le f m k x y : m !! k = Some x → f y = false → count f (<[k := y]> m) ≤ count f m.
Proof. intros Hk Hy. rewrite (count_move _ _ _ _ _ Hk), Hy. unfold bit. destruct (f x); lia. Qed.

Lemma accepts_exact s k src p' :
  exact s → conns s !! k = None → admitPreAuth lim src (pools s) = (None, p') → exact (mkState p' (<[k := (src, Handshake)]> (conns s))).
Proof.
  intros [Hpre Hsrc Hses Hact Hid Mpre Msrc Mses Mid] Hk Ha.
  unfold admitPreAuth in Ha. destruct (_ && _) eqn:E in Ha; [done|]. destruct (_ <? _) eqn:E2 in Ha; [|done]. injection Ha as <-. zbool.
  assert (Hc : ∀ f, count f (<[k := (src, Handshake)]> (conns s)) = count f (conns s) + bit (f (src, Handshake))) by (intros f; by apply count_new).
  split; cbn; rewrite ?Hc; cbn; try done; try lia.
  - apply (tallies_increment _ (λ src, count (from src) (conns s))); [done|apply count_nonneg|]. intros k'. rewrite Hc. unfold from. cbn.
    do 2 f_equal. by apply bool_decide_ext.
  - eapply tallies_ext; [exact Hid|]. intros id. rewrite Hc. cbn. lia.
  - intros src' Hm. rewrite Hc. change (from src' (src, Handshake)) with (bool_decide (src = src')). destruct (bool_decide_reflect (src = src')) as [<-|Hne]; cbn; [|specialize (Msrc src' Hm); lia].
    rewrite (tallies_counter _ _ _ Hsrc) in E. destruct E as [E|E]; lia.
  - intros id Hm. rewrite Hc. cbn. specialize (Mid id Hm). lia.
Qed.

(** Leaving the handshake pool, authenticated or not. *)
Lemma released_exact s k src ph p' :
  exact s → conns s !! k = Some (src, Handshake) → releasePreAuth (pools s) = Some p' →
  shaking (src, ph) = false → slotted (src, ph) = false → (∀ id, serving id (src, ph) = false) →
  exact (mkState p' (<[k := (src, ph)]> (conns s))).
Proof.
  intros [Hpre Hsrc Hses Hact Hid Mpre Msrc Mses Mid] Hk Ha H1 H2 H3. unfold releasePreAuth in Ha. destruct (_ <? _) in Ha; [|done]. injection Ha as <-.
  pose proof (source_kept s k src _ ph Hk) as HS. pose proof (identity_kept s k src _ ph Hk (λ _, eq_refl) H3) as HI.
  split; cbn; try done; try lia.
  - rewrite (count_move _ _ _ _ _ Hk), H1. cbn. lia.
  - by eapply tallies_ext.
  - rewrite (count_move _ _ _ _ _ Hk), H2. cbn. lia.
  - by eapply tallies_ext.
  - intros src' Hm. rewrite HS. auto.
  - intros id Hm. rewrite HI. auto.
Qed.

Lemma slot_exact s k src id ok p' :
  exact s → conns s !! k = Some (src, Authenticated id) → acquireSession lim (pools s) = (ok, p') →
  exact (mkState p' (<[k := (src, if ok : bool then Slotted id else Closed)]> (conns s))).
Proof.
  intros [Hpre Hsrc Hses Hact Hid Mpre Msrc Mses Mid] Hk Ha. unfold acquireSession in Ha.
  set (ph := if ok then Slotted id else Closed).
  pose proof (source_kept s k src _ ph Hk) as HS.
  assert (HI := identity_kept s k src _ ph Hk (λ _, eq_refl) ltac:(by destruct ok)).
  assert (Hx : ∀ q, preAuthSlots q = preAuthSlots (pools s) → perSource q = perSource (pools s) → perIdentity q = perIdentity (pools s) →
    sessionSlots q = sessionSlots (pools s) + bit ok → activeSessions q = sessionSlots q → sessionSlots q ≤ maxSessions lim →
    exact (mkState q (<[k := (src, ph)]> (conns s)))).
  { intros q E1 E2 E3 E4 E5 E6. split; cbn; rewrite ?E1, ?E2, ?E3; try done.
    - rewrite (count_move _ _ _ _ _ Hk). subst ph. destruct ok; cbn; lia.
    - by eapply tallies_ext.
    - rewrite (count_move _ _ _ _ _ Hk), E4. subst ph. destruct ok; cbn; lia.
    - by eapply tallies_ext.
    - intros src' Hm. rewrite HS. auto.
    - intros i Hm. rewrite HI. auto. }
  destruct (_ <? _) eqn:E in Ha; injection Ha as <- <-; zbool; apply Hx; cbn; lia || done.
Qed.

Lemma identity_exact s k src id ok p' :
  exact s → conns s !! k = Some (src, Slotted id) → acquireIdentity lim (SPIFFEID id) (pools s) = (ok, p') →
  exact (mkState p' (<[k := (src, if ok : bool then Serving id else Leaving)]> (conns s))).
Proof.
  intros [Hpre Hsrc Hses Hact Hid Mpre Msrc Mses Mid] Hk Ha. unfold acquireIdentity in Ha.
  pose proof (source_kept s k src _ (if ok then Serving id else Leaving) Hk) as HS.
  assert (HI : ∀ i, count (serving i) (<[k := (src, if ok then Serving id else Leaving)]> (conns s))
    = count (serving i) (conns s) + bit (ok && bool_decide (i = SPIFFEID id))).
  { intros i. rewrite (count_move _ _ _ _ _ Hk). destruct ok; cbn; [|lia]. rewrite Z.sub_0_r. do 2 f_equal. by apply bool_decide_ext. }
  assert (Hb : ∀ f, f (src, Slotted id) = f (src, Serving id) → f (src, Slotted id) = f (src, Leaving) →
    count f (<[k := (src, if ok then Serving id else Leaving)]> (conns s)) = count f (conns s)).
  { intros f H1 H2. rewrite (count_move _ _ _ _ _ Hk). destruct ok; rewrite <- ?H1, <- ?H2; lia. }
  destruct (_ && _) eqn:E in Ha; injection Ha as <- <-; split; cbn [pools conns preAuthSlots perSource sessionSlots activeSessions perIdentity];
    try (rewrite Hb by done); try done; try by eapply tallies_ext.
  - eapply tallies_ext; [exact Hid|]. intros i. rewrite HI. cbn. lia.
  - intros src' Hm. rewrite HS. auto.
  - intros i Hm. rewrite HI. cbn. specialize (Mid i Hm). lia.
  - eapply tallies_increment; [exact Hid|apply count_nonneg|]. intros i. by rewrite HI.
  - intros src' Hm. rewrite HS. auto.
  - intros i Hm. rewrite HI. cbn. destruct (bool_decide_reflect (i = SPIFFEID id)) as [->|Hne]; cbn; [|specialize (Mid i Hm); lia].
    zbool. rewrite (tallies_counter _ _ _ Hid) in E. destruct E; lia.
Qed.

Lemma ends_exact s k src id :
  exact s → conns s !! k = Some (src, Serving id) → exact (mkState (releaseIdentity (SPIFFEID id) (pools s)) (<[k := (src, Leaving)]> (conns s))).
Proof.
  intros [Hpre Hsrc Hses Hact Hid Mpre Msrc Mses Mid] Hk. pose proof (source_kept s k src _ Leaving Hk) as HS.
  split; cbn; try done.
  - rewrite (count_move _ _ _ _ _ Hk). cbn. lia.
  - by eapply tallies_ext.
  - rewrite (count_move _ _ _ _ _ Hk). cbn. lia.
  - eapply tallies_release; [exact Hid| |].
    + eapply count_pos; [exact Hk|]. cbn. by apply bool_decide_eq_true.
    + intros i. rewrite (count_move _ _ _ _ _ Hk). cbn. rewrite Z.add_0_r. do 2 f_equal. by apply bool_decide_ext.
  - intros src' Hm. rewrite HS. auto.
  - intros i Hm. etrans; [by eapply count_le|auto].
Qed.

Lemma leaves_exact s k src p' :
  exact s → conns s !! k = Some (src, Leaving) → releaseSession (pools s) = Some p' → exact (mkState p' (<[k := (src, Closed)]> (conns s))).
Proof.
  intros [Hpre Hsrc Hses Hact Hid Mpre Msrc Mses Mid] Hk Ha. unfold releaseSession in Ha. destruct (_ <? _) in Ha; [|done]. injection Ha as <-.
  pose proof (source_kept s k src _ Closed Hk) as HS. pose proof (identity_kept s k src _ Closed Hk (λ _, eq_refl) (λ _, eq_refl)) as HI.
  split; cbn; try done; try lia; try by eapply tallies_ext.
  - rewrite (count_move _ _ _ _ _ Hk). cbn. lia.
  - rewrite (count_move _ _ _ _ _ Hk). cbn. lia.
  - intros src' Hm. rewrite HS. auto.
  - intros i Hm. rewrite HI. auto.
Qed.

Lemma closes_exact s k src :
  exact s → conns s !! k = Some (src, Closed) → exact (mkState (releaseSource src (pools s)) (delete k (conns s))).
Proof.
  intros [Hpre Hsrc Hses Hact Hid Mpre Msrc Mses Mid] Hk.
  assert (HI : ∀ f, f (src, Closed) = false → count f (delete k (conns s)) = count f (conns s)).
  { intros f Hf. rewrite (count_delete _ _ _ _ Hk), Hf. cbn. lia. }
  split; cbn; rewrite ?HI by done; try done.
  - eapply tallies_release; [exact Hsrc| |].
    + eapply count_pos; [exact Hk|]. by apply bool_decide_eq_true.
    + intros src'. rewrite (count_delete _ _ _ _ Hk). do 2 f_equal. by apply bool_decide_ext.
  - eapply tallies_ext; [exact Hid|]. intros i. by rewrite HI.
  - intros src' Hm. rewrite (count_delete _ _ _ _ Hk). specialize (Msrc src' Hm). unfold bit. destruct (from _ _); lia.
  - intros i Hm. rewrite HI by done. auto.
Qed.

Lemma step_exact s s' : exact s → conn_step s s' → exact s'.
Proof.
  intros Hs Hstep.
  destruct Hstep as [k src p' s Hk Ha|src reason p' s Ha|k src h p' s Hk _ _ Ha|k src h id p' s Hk _ _ Ha|k src id ok p' s Hk Ha|k src id ok p' s Hk Ha
    |k src id s Hk|k src p' s Hk Ha|k src s Hk].
  - by eapply accepts_exact.
  - unfold admitPreAuth in Ha. destruct Hs. destruct (_ && _) in Ha; [|destruct (_ <? _) in Ha]; simplify_eq; by split.
  - by eapply released_exact.
  - by eapply released_exact.
  - by eapply slot_exact.
  - by eapply identity_exact.
  - by eapply ends_exact.
  - by eapply leaves_exact.
  - by eapply closes_exact.
Qed.

Definition reachable (s : State) : Prop := rtc conn_step idle s.

Lemma reachable_exact s : 0 ≤ maxPreAuth lim → 0 ≤ maxSessions lim → reachable s → exact s.
Proof. intros H1 H2. revert s. apply rtc_ind_r; [by apply idle_exact|intros; by eapply step_exact]. Qed.

(** With no connection left the pools are as they were at the start. *)
Lemma exact_empty s : exact s → conns s = ∅ → s = idle.
Proof.
  intros [Hpre Hsrc Hses Hact Hid _ _ _ _] He. destruct s as [[a b c d e] m]. cbn in *. subst m.
  assert (Hc : ∀ f, count f ∅ = 0) by (intros f; apply msum_empty). rewrite Hc in Hpre, Hses. unfold idle.
  assert (b = ∅) as -> by (apply map_eq; intros i; rewrite (Hsrc i), Hc; done).
  assert (e = ∅) as -> by (apply map_eq; intros i; rewrite (Hid i), Hc; done).
  do 2 f_equal; lia.
Qed.

(** ** Who gets past the handshake *)

Definition identity_of (ph : Phase) : option bmpIdentity :=
  match ph with Authenticated id | Slotted id | Serving id => Some id | _ => None end.

Lemma authenticate_spec h id :
  authenticate laneTenant h = Some id ↔
  peerIdentity h = Some id ∧ isRevoked h id = false ∧ verifyIssued h id = Some true ∧ (laneTenant = [] ∨ TenantID id = laneTenant)
  ∧ deadlineCleared h = true.
Proof.
  unfold authenticate. destruct (peerIdentity h) as [i|]; [|naive_solver]. split.
  - intros H. destruct (isRevoked h i) eqn:Er; [done|]. destruct (verifyIssued h i) as [[]|] eqn:Ev; [|done..]. cbn [negb] in H.
    destruct (negb _ && negb _) eqn:El in H; [done|]. destruct (deadlineCleared h) eqn:Ed; [|done]. cbn in H. simplify_eq.
    assert (laneTenant = [] ∨ TenantID id = laneTenant); [|done].
    apply andb_false_iff in El as [El|El]; apply negb_false_iff, bool_decide_eq_true in El; auto.
  - intros (Hi & Er & Ev & Hl & Ed). simplify_eq. rewrite Er, Ev, Ed. cbn [negb]. destruct Hl as [->| <-].
    + by destruct (bool_decide_reflect ([] = [] :> gostring)).
    + destruct (bool_decide_reflect (TenantID id = TenantID id)); [by rewrite andb_false_r|done].
Qed.

Definition vetted (s : State) : Prop :=
  ∀ k src ph id, conns s !! k = Some (src, ph) → identity_of ph = Some id → ∃ h, happens h ∧ authenticate laneTenant h = Some id.

Lemma vetted_move s p k src ph :
  vetted s → (∀ id, identity_of ph = Some id → ∃ h, happens h ∧ authenticate laneTenant h = Some id) → vetted (mkState p (<[k := (src, ph)]> (conns s))).
Proof. intros Hv Hp k' src' ph' id. cbn. rewrite lookup_insert_Some. intros [[<- E]|[_ E]] Hid; [simplify_eq; auto|by eapply Hv]. Qed.

Lemma step_vetted s s' : vetted s → conn_step s s' → vetted s'.
Proof.
  intros Hv Hstep. destruct Hstep; try (apply vetted_move; [done|]); cbn; try done.
  - intros i [= <-]. eauto.
  - intros i Hi. destruct ok; [|done]. by eapply Hv.
  - intros i Hi. destruct ok; [|done]. by eapply Hv.
  - intros k' src' ph' id Hl. cbn in Hl. apply lookup_delete_Some in Hl as [_ Hl]. by eapply Hv.
Qed.

Lemma reachable_vetted s : reachable s → vetted s.
Proof. revert s. apply rtc_ind_r; [done|intros; by eapply step_vetted]. Qed.

(** C25. The pools of the BMP listener count its connections exactly, in every interleaving.  The
    handshake pool holds one slot per connection that is not authenticated yet, the
    per-source map one entry per source with an open connection, the session pool one slot
    per session, and the per-identity map one entry per identity that is served; none
    exceeds its limit.  A connection that is past the handshake has an identity that was
    not revoked, was issued by the registry and belongs to the tenant of the lane.  When the
    last connection is gone the pools are empty again: nothing leaks. *)
Theorem admission_exact (s : State) :
  0 ≤ maxPreAuth lim → 0 ≤ maxSessions lim → reachable s →
  preAuthSlots (pools s) = count shaking (conns s) ∧ preAuthSlots (pools s) ≤ maxPreAuth lim
  ∧ (∀ src, counter (perSource (pools s)) src = count (from src) (conns s)
      ∧ (0 < maxPerSource lim → count (from src) (conns s) ≤ maxPerSource lim))
  ∧ sessionSlots (pools s) = count slotted (conns s) ∧ activeSessions (pools s) = sessionSlots (pools s) ∧ sessionSlots (pools s) ≤ maxSessions lim
  ∧ (∀ id, counter (perIdentity (pools s)) id = count (serving id) (conns s)
      ∧ (0 < maxPerIdentity lim → count (serving id) (conns s) ≤ maxPerIdentity lim))
  ∧ (∀ k src ph id, conns s !! k = Some (src, ph) → identity_of ph = Some id →
      (∃ h, happens h ∧ peerIdentity h = Some id ∧ isRevoked h id = false ∧ verifyIssued h id = Some true) ∧ (laneTenant = [] ∨ TenantID id = laneTenant))
  ∧ (conns s = ∅ → s = idle).
Proof.
  intros H1 H2 Hr. pose proof (reachable_exact s H1 H2 Hr) as He. pose proof (reachable_vetted s Hr) as Hv.
  pose proof (exact_empty s He) as Hz. destruct He as [Hpre Hsrc Hses Hact Hid Mpre Msrc Mses Mid]. split_and!; try done.
  - intros src. split; [apply (tallies_counter _ _ _ Hsrc)|auto].
  - intros id. split; [apply (tallies_counter _ _ _ Hid)|auto].
  - intros k src ph id Hk Hi. destruct (Hv k src ph id Hk Hi) as (h & Hh & Ha). apply authenticate_spec in Ha as (?&?&?&?&_). eauto 10.
Qed.

(** ** Draining *)

Lemma msum_le_size {K A} `{Countable K} (f : A → Z) (c : Z) (m : gmap K A) : (∀ x, f x ≤ c) → msum f m ≤ c * Z.of_nat (size m).
Proof.
  intros Hf. induction m as [|k x m Hk IH] using map_ind; [rewrite msum_empty; change (size ∅) with 0%nat; lia|].
  rewrite msum_insert, delete_id, map_size_insert_None by done. specialize (Hf x). lia.
Qed.

(** How many steps a connection has left at most. *)
Definition rank (x : Conn) : Z :=
  match x.2 with Handshake => 6 | Authenticated _ => 5 | Slotted _ => 4 | Serving _ => 3 | Leaving => 2 | Closed => 1 end.

(** A step of a connection that is already open. *)
Definition serves (s s' : State) : Prop := conn_step s s' ∧ ∃ k, is_Some (conns s !! k) ∧ conns s' !! k ≠ conns s !! k.

Definition work_left (s : State) : Z := msum rank (conns s).

Lemma rank_nonneg x : 0 ≤ rank x.
Proof. unfold rank. destruct x as [? []]; cbn; lia. Qed.

Lemma work_move p m k x y : m !! k = Some x → rank y < rank x → work_left (mkState p (<[k := y]> m)) < msum rank m.
Proof. intros Hk Hr. unfold work_left. cbn. rewrite msum_insert, (msum_delete rank m k x) by done. lia. Qed.

Lemma serves_less s s' : serves s s' → work_left s' < work_left s.
Proof.
  intros [Hstep (k0 & [x Hx] & Hne)]. unfold work_left at 2.
  destruct Hstep; cbn in *; try (eapply work_move; [eassumption|cbn; try destruct ok; cbn; lia]).
  - rewrite lookup_insert_ne in Hne by (intros ->; congruence). done.
  - done.
  - unfold work_left. cbn. rewrite (msum_delete rank (conns s) k (src, Closed)) by done. cbn. lia.
Qed.

Lemma open_serves s h : happens h → exact s → conns s ≠ ∅ → ∃ s', serves s s'.
Proof.
  intros Hh He Hne. apply map_choose in Hne as (k & [src ph] & Hk).
  assert (Hp : ∀ s', conn_step s s' → conns s' !! k ≠ Some (src, ph) → ∃ s', serves s s').
  { intros s' Hs Hn. exists s'. split; [done|]. exists k. rewrite Hk. eauto. }
  destruct ph as [|id|id|id| |].
  - assert (Hpos := count_pos shaking _ _ _ Hk eq_refl). rewrite <- (ex_pre _ He) in Hpos.
    destruct (releasePreAuth (pools s)) as [p'|] eqn:E; [|by unfold releasePreAuth in E; destruct (Z.ltb_spec 0 (preAuthSlots (pools s))); [|lia]].
    destruct (authenticate laneTenant h) as [id|] eqn:Ea.
    + apply (Hp _ (Promotes k src h id p' s Hk Hh Ea E)). cbn. by rewrite lookup_insert_eq.
    + apply (Hp _ (Fails k src h p' s Hk Hh Ea E)). cbn. by rewrite lookup_insert_eq.
  - destruct (acquireSession lim (pools s)) as [ok p'] eqn:E.
    eapply Hp; [by eapply TakesSlot|]. cbn. rewrite lookup_insert_eq. by destruct ok.
  - destruct (acquireIdentity lim (SPIFFEID id) (pools s)) as [ok p'] eqn:E.
    eapply Hp; [by eapply TakesIdentity|]. cbn. rewrite lookup_insert_eq. by destruct ok.
  - eapply Hp; [by eapply Ends|]. cbn. by rewrite lookup_insert_eq.
  - assert (Hpos := count_pos slotted _ _ _ Hk eq_refl). rewrite <- (ex_session _ He) in Hpos.
    destruct (releaseSession (pools s)) as [p'|] eqn:E; [|by unfold releaseSession in E; destruct (Z.ltb_spec 0 (sessionSlots (pools s))); [|lia]].
    eapply Hp; [by eapply Leaves|by cbn; rewrite lookup_insert_eq].
  - eapply Hp; [by eapply Closes|]. cbn. by rewrite lookup_delete_eq.
Qed.

(** The admission pools never wedge a connection.  From any reachable state a connection that
    is open can take its next step — giving a slot back never blocks — and once no more
    connections are accepted at most six steps per connection lead to the empty listener,
    whichever order they are taken in. *)
Theorem admission_drains (s : State) (n : nat) (s' : State) (h : Handshakes) :
  happens h → 0 ≤ maxPreAuth lim → 0 ≤ maxSessions lim → reachable s → nsteps serves n s s' →
  Z.of_nat n ≤ 6 * Z.of_nat (size (conns s)) ∧ ((∃ s'', serves s' s'') ∨ s' = idle).
Proof.
  intros Hh H1 H2 Hr Hn.
  assert (Hb : work_left s ≤ 6 * Z.of_nat (size (conns s))) by (apply msum_le_size; intros [? []]; cbn; lia).
  assert (Hw : Z.of_nat n + work_left s' ≤ work_left s).
  { clear -Hn. induction Hn as [|n a b c Hab Hbc IH]; [lia|]. apply serves_less in Hab. lia. }
  assert (0 ≤ work_left s') by (apply msum_nonneg, rank_nonneg). split; [lia|].
  assert (Hr' : reachable s').
  { clear -Hr Hn. revert Hr. induction Hn as [|n a b c [Hab _] Hbc IH]; [done|]. intros Hr. apply IH. by eapply rtc_r. }
  pose proof (reachable_exact s' H1 H2 Hr') as He. destruct (decide (conns s' = ∅)) as [E|E]; [right; by apply exact_empty|left; by eapply open_serves].
Qed.

End connections.

(** ** Witnesses *)

Definition demo_router : bmpIdentity := mkIdentity (str "tenant") (str "router") (str "spiffe") (str "1f") (mkTime 0 0).
Definition demo_handshake : Handshakes := mkHandshake (Some demo_router) (λ _, false) (λ _, Some true) true.
Definition demo_source : Addr := Addr4 [x0a; x00; x00; x01].

Abbreviation demo_happens := (λ h, h = demo_handshake).
Abbreviation demo_step := (conn_step default_limits (str "tenant") demo_happens).

(** One router that is served, one connection in its handshake. *)
Definition demo_state : State :=
  mkState (mkPools 1 {[demo_source := 2]} 1 1 {[str "spiffe" := 1]})
    (<[1%nat := (demo_source, Handshake)]> {[0%nat := (demo_source, Serving demo_router)]}).

Lemma demo_admission_reachable : reachable default_limits (str "tenant") demo_happens demo_state.
Proof.
  eapply rtc_l; [apply (Accepts _ _ _ 0 demo_source); by vm_compute|].
  eapply rtc_l; [apply (Promotes _ _ _ 0 demo_source demo_handshake demo_router); by vm_compute|].
  eapply rtc_l; [apply (TakesSlot _ _ _ 0 demo_source demo_router); by vm_compute|].
  eapply rtc_l; [apply (TakesIdentity _ _ _ 0 demo_source demo_router); by vm_compute|].
  eapply rtc_l; [apply (Accepts _ _ _ 1 demo_source); by vm_compute|].
  match goal with |- rtc _ ?s ?t => replace s with t by (by vm_compute); apply rtc_refl end.
Qed.

Lemma admission_exact_witness :
  counter (perSource (pools demo_state)) demo_source = 2 ∧ count (from demo_source) (conns demo_state) ≤ maxPerSource default_limits.
Proof.
  pose proof (admission_exact default_limits (str "tenant") demo_happens demo_state ltac:(by vm_compute) ltac:(by vm_compute) demo_admission_reachable)
    as (_ & _ & Hs & _). destruct (Hs demo_source) as [_ Hm]. split; [by vm_compute|]. apply Hm. by vm_compute.
Defined.

Lemma admission_drains_witness : (∃ s, serves default_limits (str "tenant") demo_happens demo_state s) ∨ demo_state = idle.
Proof.
  apply (admission_drains default_limits (str "tenant") demo_happens demo_state 0 demo_state demo_handshake);
    [done|by vm_compute|by vm_compute|exact demo_admission_reachable|apply nsteps_O].
Defined.

End BgpAdmission.
