(* ===== verification/GoNet.v ===== *)
(** * net and net/netip

    Parsing of addresses, prefixes and host:port pairs as the modelled code uses them.
    Errors carry a text only; they are [None]. *)

From S2P Require Import Prelude GoHash FlowModel GoString GoProg BgpBase BgpPrefix.
#[local] Open Scope Z_scope.

Module GoNet.
Import BgpPrefix.

(** ** Addresses *)

(** netip.Addr with the zone of an IPv6 address; [AddrNone] is the zero Addr. *)
Record IPAddr := mkIP { ip : Addr; zone : gostring }.

#[export] Instance IPAddr_eq_dec : EqDecision IPAddr.
Proof. solve_decision. Defined.

Definition noIP : IPAddr := mkIP AddrNone [].

Definition String (a : IPAddr) : gostring :=
  str (Addr_String (ip a)) ++ if bool_decide (zone a = []) then [] else str "%" ++ zone a.

(** Addr.Unmap; an IPv4 address has no zone. *)
Definition UnmapIP (a : IPAddr) : IPAddr := if Is4In6 (ip a) then mkIP (Unmap (ip a)) [] else a.

Definition BitLen (a : IPAddr) : Z := match ip a with AddrNone => 0 | Addr4 _ => 32 | Addr16 _ => 128 end.

(** ** ParseAddr *)

(** The octets of a dotted quad: [start] holds before the first byte and after a dot. *)
Fixpoint v4_loop (start : bool) (val digLen : Z) (fields : list byte) (s : gostring) : option (list byte) :=
  match s with
  | [] => if len fields <? 3 then None else Some (fields ++ [Zbyte val])
  | c :: r =>
      if is_digit c then
        if (digLen =? 1) && (val =? 0) then None
        else let val := val * 10 + (byteZ c - 48) in
             if 255 <? val then None else v4_loop false val (digLen + 1) fields r
      else if bool_decide (c = x2e) then
        if start || bool_decide (r = []) then None
        else if len fields =? 3 then None
        else v4_loop true 0 0 (fields ++ [Zbyte val]) r
      else None
  end.
Definition parseIPv4Fields (s : gostring) : option (list byte) := v4_loop true 0 0 [] s.

Definition hex_value (c : byte) : option Z :=
  let c := byteZ c in
  if (48 <=? c) && (c <=? 57) then Some (c - 48)
  else if (97 <=? c) && (c <=? 102) then Some (c - 97 + 10)
  else if (65 <=? c) && (c <=? 70) then Some (c - 65 + 10)
  else None.

(** A group of hexadecimal digits: their number, their value and the rest. *)
Fixpoint hex_group (off acc : Z) (s : gostring) : option (Z * Z * gostring) :=
  match s with
  | [] => Some (off, acc, [])
  | c :: r =>
      match hex_value c with
      | None => Some (off, acc, s)
      | Some d =>
          let acc := acc * 16 + d in
          if 3 <? off then None else if 65535 <? acc then None else hex_group (off + 1) acc r
      end
  end.

(** The groups of an IPv6 address: what is left of the text, the bytes so far and the
    position of the ellipsis.  Every round adds two bytes, so eight rounds fill 16. *)
Fixpoint v6_loop (fuel : nat) (s : gostring) (b : list byte) (ellipsis : option nat) : option (gostring * list byte * option nat) :=
  match fuel with
  | O => Some (s, b, ellipsis)
  | S fuel =>
      match hex_group 0 0 s with
      | None => None
      | Some (off, acc, rest) =>
          if off =? 0 then None
          else if bool_decide (head rest = Some x2e) then
            if bool_decide (ellipsis = None) && negb (len b =? 12) then None
            else if 16 <? len b + 4 then None
            else match parseIPv4Fields s with None => None | Some f => Some ([], b ++ f, ellipsis) end
          else
            let b := b ++ [Zbyte (Z.shiftr acc 8); Zbyte (Z.land acc 255)] in
            match rest with
            | [] => Some ([], b, ellipsis)
            | c :: r =>
                if negb (bool_decide (c = x3a)) then None
                else match r with
                     | [] => None
                     | c2 :: r2 =>
                         if bool_decide (c2 = x3a) then
                           if bool_decide (is_Some ellipsis) then None
                           else if bool_decide (r2 = []) then Some ([], b, Some (length b))
                           else v6_loop fuel r2 b (Some (length b))
                         else v6_loop fuel r b ellipsis
                     end
            end
      end
  end.

(** The zeros the ellipsis stands for. *)
Definition expand (b : list byte) (ellipsis : option nat) : option (list byte) :=
  if len b <? 16 then
    match ellipsis with
    | None => None
    | Some e => Some (take e b ++ replicate (16 - length b) x00 ++ drop e b)
    end
  else if bool_decide (is_Some ellipsis) then None else Some b.

Definition parseIPv6 (text : gostring) : option IPAddr :=
  let '(s, z) := cut x25 text in
  if bool_decide (z = Some []) then None
  else
    let z := default [] z in
    let '(ellipsis, s) := match s with
                          | c :: c2 :: r => if bool_decide (c = x3a) && bool_decide (c2 = x3a) then (Some O, r) else (None, s)
                          | _ => (None, s)
                          end in
    if bool_decide (is_Some ellipsis) && bool_decide (s = []) then Some (mkIP (Addr16 (replicate 16 x00)) z)
    else match v6_loop 8 s [] ellipsis with
         | Some ([], b, ellipsis) => b ← expand b ellipsis; Some (mkIP (Addr16 b) z)
         | _ => None
         end.

(** The first of '.', ':' and '%' decides. *)
Fixpoint parse_as (text s : gostring) : option IPAddr :=
  match s with
  | [] => None
  | c :: s =>
      if bool_decide (c = x2e) then b ← parseIPv4Fields text; Some (mkIP (Addr4 b) [])
      else if bool_decide (c = x3a) then parseIPv6 text
      else if bool_decide (c = x25) then None
      else parse_as text s
  end.
Definition ParseAddr (text : gostring) : option IPAddr := parse_as text text.

(** ** Prefixes *)

(** netip.PrefixFrom: the zone is dropped; [-1] bits are invalid. *)
Definition PrefixFrom (a : IPAddr) (bits : Z) : NetPrefix :=
  mkPrefix (ip a) (if IsValid (ip a) && (0 <=? bits) && (bits <=? BitLen a) then bits else -1).

(** The text before and after the last [c]. *)
Definition cut_last (c : byte) (l : gostring) : option (gostring * gostring) :=
  match cut c (rev l) with
  | (a, Some r) => Some (rev r, rev a)
  | (_, None) => None
  end.

Definition ParsePrefix (text : gostring) : option NetPrefix :=
  match cut_last x2f text with
  | None => None
  | Some (addr, bitsStr) =>
      match ParseAddr addr with
      | None => None
      | Some a =>
          if negb (bool_decide (zone a = [])) then None
          else if (1 <? len bitsStr) && ((at_ bitsStr 0 <? 49) || (57 <? at_ bitsStr 0)) then None
          else match Atoi bitsStr with
               | None => None
               | Some bits => if (bits <? 0) || (BitLen a <? bits) then None else Some (PrefixFrom a bits)
               end
      end
  end.

(** Prefix.Contains *)
Definition Contains (p : NetPrefix) (a : IPAddr) : bool :=
  if (p_Bits p <? 0) || negb (bool_decide (zone a = [])) then false
  else match p_Addr p, ip a with
       | Addr4 x, Addr4 y | Addr16 x, Addr16 y => bool_decide (mask_bytes (p_Bits p) x = mask_bytes (p_Bits p) y)
       | _, _ => false
       end.

(** ** host:port *)

(** net.SplitHostPort *)
Definition SplitHostPort (hostport : gostring) : option (gostring * gostring) :=
  match cut_last x3a hostport with
  | None => None
  | Some (before, port) =>
      match hostport with
      | x5b :: inner =>
          match cut x5d inner with
          | (host, Some after) =>
              (* the bracket closes just before the last colon *)
              if bool_decide (after = x3a :: port) && negb (bool_decide (x5b ∈ inner)) && negb (bool_decide (x5d ∈ after))
              then Some (host, port) else None
          | (_, None) => None
          end
      | _ =>
          if bool_decide (x3a ∈ before) || bool_decide (x5b ∈ hostport) || bool_decide (x5d ∈ hostport) then None
          else Some (before, port)
      end
  end.

(** strings.Trim with a set of one-byte characters. *)
Fixpoint trim_left (set : list byte) (l : gostring) : gostring :=
  match l with
  | [] => []
  | c :: r => if bool_decide (c ∈ set) then trim_left set r else l
  end.
Definition Trim (l : gostring) (set : list byte) : gostring := rev (trim_left set (rev (trim_left set l))).

(** ** Examples *)

Example parse_v4 : ParseAddr (str "192.0.2.1") = Some (mkIP (Addr4 (bytes [192; 0; 2; 1])) []).
Proof. reflexivity. Qed.
Example parse_v4_refused : ParseAddr <$> (str <$> ["192.0.2"; "192.0.2.01"; "192.0.2.256"; "192..2.1"; "1.2.3.4.5"; "1.2.3."; "x.1.2.3"; "1234"])%string
  = replicate 8 None.
Proof. reflexivity. Qed.
Example parse_v6 : ParseAddr (str "2001:db8::1%eth0") = Some (mkIP (Addr16 (bytes [0x20;0x01;0x0d;0xb8;0;0;0;0;0;0;0;0;0;0;0;1])) (str "eth0")).
Proof. reflexivity. Qed.
Example parse_v6_mapped : ParseAddr (str "::ffff:192.0.2.1") = Some (mkIP (Addr16 (bytes [0;0;0;0;0;0;0;0;0;0;255;255;192;0;2;1])) []).
Proof. reflexivity. Qed.
Example parse_v6_full : ParseAddr (str "1:2:3:4:5:6:7:8") = Some (mkIP (Addr16 (bytes [0;1;0;2;0;3;0;4;0;5;0;6;0;7;0;8])) []).
Proof. reflexivity. Qed.
Example parse_v6_refused : ParseAddr <$> (str <$> ["1:2:3:4:5:6:7"; "1:2:3:4:5:6:7:8:9"; "1::2::3"; "1:2:3:4:5:6:7::8"; "12345::"; "1:"; "::%"; ":1"; "1:::2"])%string
  = None :: None :: None :: None :: replicate 5 None.
Proof. reflexivity. Qed.
Example parse_v6_end : ParseAddr (str "1::") = Some (mkIP (Addr16 (bytes [0;1] ++ replicate 14 x00)) []).
Proof. reflexivity. Qed.
Example parse_prefix : ParsePrefix (str "10.1.2.3/8") = Some (mkPrefix (Addr4 (bytes [10; 1; 2; 3])) 8).
Proof. reflexivity. Qed.
Example parse_prefix_refused : ParsePrefix <$> (str <$> ["10.0.0.0"; "10.0.0.0/33"; "10.0.0.0/08"; "10.0.0.0/+8"; "fe80::1%eth0/64"; "10.0.0.0/"])%string
  = replicate 6 None.
Proof. reflexivity. Qed.
Example split_v4 : SplitHostPort (str "10.0.0.1:443") = Some (str "10.0.0.1", str "443").
Proof. reflexivity. Qed.
Example split_v6 : SplitHostPort (str "[2001:db8::1]:443") = Some (str "2001:db8::1", str "443").
Proof. reflexivity. Qed.
Example split_refused : SplitHostPort <$> (str <$> ["10.0.0.1"; "2001:db8::1"; "[::1]"; "[::1]x:1"; "[::1]:1:2"; "[a[b]:1"; "a]:1"])%string = replicate 7 None.
Proof. reflexivity. Qed.

(** ** Lemmas *)

Lemma mask_byte_le k m b : 0 < k → k ≤ m < 8 →
  Zbyte (Z.land (byteZ (Zbyte (Z.land (byteZ b) (Z.shiftl 255 (8 - m))))) (Z.shiftl 255 (8 - k))) = Zbyte (Z.land (byteZ b) (Z.shiftl 255 (8 - k))).
Proof.
  intros Hk Hm.
  assert (Hcase : m = 1 ∨ m = 2 ∨ m = 3 ∨ m = 4 ∨ m = 5 ∨ m = 6 ∨ m = 7) by lia.
  assert (Hcase' : k = 1 ∨ k = 2 ∨ k = 3 ∨ k = 4 ∨ k = 5 ∨ k = 6 ∨ k = 7) by lia.
  destruct Hcase' as [->|[->|[->|[->|[->|[->| ->]]]]]]; destruct Hcase as [->|[->|[->|[->|[->|[->| ->]]]]]]; try lia; by destruct b.
Qed.

(** Masking to fewer bits forgets a mask to more. *)
Lemma mask_le n m l : n ≤ m → mask_bytes n (mask_bytes m l) = mask_bytes n l.
Proof.
  revert n m. induction l as [|b l IH]; intros n m Hn; [done|]. cbn [mask_bytes]. f_equal; [|apply IH; lia].
  destruct (8 <=? n) eqn:E1; zbool; [by replace (8 <=? m) with true by (symmetry; apply Z.leb_le; lia)|].
  destruct (n <=? 0) eqn:E2; [done|]. destruct (8 <=? m) eqn:E3; [done|]. zbool.
  replace (m <=? 0) with false by (symmetry; apply Z.leb_gt; lia). apply mask_byte_le; lia.
Qed.

Lemma agree_le n m x y : n ≤ m → mask_bytes m x = mask_bytes m y → mask_bytes n x = mask_bytes n y.
Proof. intros Hn H. rewrite <- (mask_le n m x), <- (mask_le n m y) by done. by rewrite H. Qed.

(** The base address of a prefix, without a zone. *)
Definition base (p : NetPrefix) : IPAddr := mkIP (p_Addr p) [].

Lemma Contains_spec p a :
  Contains p a = true ↔ 0 ≤ p_Bits p ∧ zone a = [] ∧
  ((∃ x y, p_Addr p = Addr4 x ∧ ip a = Addr4 y ∧ mask_bytes (p_Bits p) x = mask_bytes (p_Bits p) y) ∨
   (∃ x y, p_Addr p = Addr16 x ∧ ip a = Addr16 y ∧ mask_bytes (p_Bits p) x = mask_bytes (p_Bits p) y)).
Proof.
  unfold Contains. destruct (p_Bits p <? 0) eqn:E; zbool; cbn [orb]; [split; [done|lia]|].
  destruct (bool_decide_reflect (zone a = [])) as [Hz|Hz]; cbn [negb]; [|naive_solver].
  destruct (p_Addr p), (ip a); rewrite ?bool_decide_eq_true; naive_solver.
Qed.

(** What two prefixes share, the shorter one contains. *)
Lemma Contains_nest p q a : p_Bits p ≤ p_Bits q → Contains p a = true → Contains q a = true → Contains p (base q) = true.
Proof.
  rewrite !Contains_spec. intros Hb (H1 & Hz & Hp) (_ & _ & Hq). split_and!; [done..|]. cbn [ip base].
  destruct Hp as [(x & y & Ex & Ey & E)|(x & y & Ex & Ey & E)], Hq as [(x' & y' & Ex' & Ey' & E')|(x' & y' & Ex' & Ey' & E')];
    rewrite Ey in Ey'; simplify_eq; [left|right]; exists x, x'; split_and!; try done; rewrite E; symmetry; by apply (agree_le _ (p_Bits q)).
Qed.

(** A valid prefix contains its base address. *)
Lemma Contains_base p : 0 ≤ p_Bits p → IsValid (p_Addr p) = true → Contains p (base p) = true.
Proof. intros Hb Hv. apply Contains_spec. split_and!; [done|done|]. unfold base. destruct (p_Addr p); [done|left|right]; cbn; eauto 10. Qed.

(** Two valid prefixes share an address exactly when one contains the base of the other. *)
Lemma overlap_exact p q :
  0 ≤ p_Bits p → 0 ≤ p_Bits q → IsValid (p_Addr p) = true → IsValid (p_Addr q) = true →
  Contains p (base q) || Contains q (base p) = true ↔ ∃ a, Contains p a = true ∧ Contains q a = true.
Proof.
  intros Hp Hq Vp Vq. rewrite orb_true_iff. split.
  - intros [H|H]; [exists (base q)|exists (base p)]; split; try done; by apply Contains_base.
  - intros (a & Ha & Hb). destruct (decide (p_Bits p ≤ p_Bits q)); [left; by apply (Contains_nest p q a)|right; apply (Contains_nest q p a); [lia|done|done]].
Qed.

(** ** What ParseAddr returns *)

Lemma v4_loop_length start val d f s b : v4_loop start val d f s = Some b → (length f ≤ 3 → length b = 4)%nat.
Proof.
  revert start val d f. induction s as [|c s IH]; intros start val d f; cbn [v4_loop].
  - destruct (len f <? 3) eqn:E; [done|]. intros [= <-] Hf. zbool. unfold len in *. rewrite length_app. cbn. lia.
  - destruct (is_digit c).
    + destruct (_ && _); [done|]. destruct (_ <? _); [done|]. apply IH.
    + destruct (bool_decide (c = x2e)); [|done]. destruct (_ || _); [done|]. destruct (len f =? 3) eqn:E; [done|]. zbool.
      intros H Hf. apply IH in H; [done|]. rewrite length_app. cbn. unfold len in *. lia.
Qed.

Lemma v6_loop_length fuel s b e s' b' e' :
  v6_loop fuel s b e = Some (s', b', e') → (length b ≤ 16 - 2 * fuel → fuel ≤ 8 → length b' ≤ 16)%nat.
Proof.
  revert s b e. induction fuel as [|fuel IH]; intros s b e; cbn [v6_loop]; [intros [= <- <- <-]; lia|].
  destruct (hex_group 0 0 s) as [[[off acc] rest]|]; [|done]. destruct (off =? 0); [done|]. destruct (bool_decide (head rest = Some x2e)).
  { destruct (_ && _); [done|]. destruct (16 <? len b + 4) eqn:E; [done|]. destruct (parseIPv4Fields s) as [f|] eqn:Ef; [|done].
    intros [= <- <- <-] _ _. apply v4_loop_length in Ef; [|cbn; lia]. rewrite length_app. zbool. unfold len in *. lia. }
  destruct rest as [|c r]; [intros [= <- <- <-]; rewrite length_app; cbn; lia|]. destruct (negb _); [done|]. destruct r as [|c2 r2]; [done|].
  destruct (bool_decide (c2 = x3a)); [destruct (bool_decide (is_Some e)); [done|destruct (bool_decide (r2 = []))]|].
  - intros [= <- <- <-]. rewrite length_app. cbn. lia.
  - intros H Hb Hf. apply IH in H; [done| |lia]. rewrite length_app. cbn. lia.
  - intros H Hb Hf. apply IH in H; [done| |lia]. rewrite length_app. cbn. lia.
Qed.

Definition addr_wf (a : Addr) : Prop :=
  match a with AddrNone => False | Addr4 b => length b = 4%nat | Addr16 b => length b = 16%nat end.

Lemma parseIPv6_wf s a : parseIPv6 s = Some a → addr_wf (ip a).
Proof.
  unfold parseIPv6. destruct (cut x25 s) as [t z]. destruct (bool_decide _); [done|]. destruct (match t with [] => _ | _ => _ end) as [e t'].
  destruct (_ && _); [by intros [= <-]|]. destruct (v6_loop 8 t' [] e) as [[[[|] b] e']|] eqn:E; try done.
  apply v6_loop_length in E; [|cbn; lia..]. unfold expand. cbn. destruct (len b <? 16) eqn:E1.
  - destruct e' as [k|]; [|done]. intros [= <-]. cbn. zbool. unfold len in *. rewrite !length_app, length_replicate, length_take, length_drop. lia.
  - destruct (bool_decide _); [done|]. intros [= <-]. cbn. zbool. unfold len in *. lia.
Qed.

(** A parsed address has four or sixteen bytes. *)
Lemma ParseAddr_wf s a : ParseAddr s = Some a → addr_wf (ip a).
Proof.
  unfold ParseAddr. generalize s at 2 as t. induction t as [|c t IH]; [done|]. cbn [parse_as].
  destruct (bool_decide (c = x2e)).
  { destruct (parseIPv4Fields s) as [b|] eqn:E; [|done]. intros [= <-]. apply v4_loop_length in E; cbn; [done|lia]. }
  destruct (bool_decide (c = x3a)); [apply parseIPv6_wf|]. by destruct (bool_decide _).
Qed.

Lemma ParsePrefix_valid s p : ParsePrefix s = Some p → 0 ≤ p_Bits p ∧ IsValid (p_Addr p) = true.
Proof.
  unfold ParsePrefix, PrefixFrom. destruct (cut_last _ _) as [[a b]|]; [|done]. destruct (ParseAddr a) as [x|] eqn:Ex; [|done].
  apply ParseAddr_wf in Ex. destruct (negb _); [done|]. destruct (_ && _) in |- *; [done|]. destruct (Atoi b) as [n|]; [|done].
  destruct (_ || _) eqn:E; [done|]. intros [= <-]. cbn. apply orb_false_iff in E as [E1 E2].
  assert (IsValid (ip x) = true) as -> by by destruct (ip x). zbool.
  by replace (0 <=? n) with true by (symmetry; apply Z.leb_le; lia); replace (n <=? BitLen x) with true by (symmetry; apply Z.leb_le; lia).
Qed.

(** ** Printing and parsing IPv4 *)

Lemma v4_digits start f o r : ∃ d, v4_loop start 0 0 f (str (FormatUint (byteZ o)) ++ r) = v4_loop false (byteZ o) d f r.
Proof. destruct o; vm_compute str; cbn [app v4_loop]; eexists; reflexivity. Qed.

Lemma v4_octet start f o r : (length f < 3)%nat → r ≠ [] →
  v4_loop start 0 0 f (str (FormatUint (byteZ o)) ++ x2e :: r) = v4_loop true 0 0 (f ++ [o]) r.
Proof.
  intros Hf Hr. destruct (v4_digits start f o (x2e :: r)) as [d ->]. cbn [v4_loop]. change (is_digit x2e) with false.
  rewrite bool_decide_eq_true_2, bool_decide_eq_false_2 by done. cbn [orb].
  replace (len f =? 3) with false by (symmetry; apply Z.eqb_neq; unfold len; lia). by rewrite Zbyte_byteZ.
Qed.

Lemma v4_octet_last start f o : length f = 3%nat → v4_loop start 0 0 f (str (FormatUint (byteZ o)) ++ []) = Some (f ++ [o]).
Proof. intros Hf. destruct (v4_digits start f o []) as [d ->]. cbn [v4_loop]. unfold len. by rewrite Hf, Zbyte_byteZ. Qed.

Lemma parse_as_octet text o r : parse_as text (str (FormatUint (byteZ o)) ++ x2e :: r) = (b ← parseIPv4Fields text; Some (mkIP (Addr4 b) [])).
Proof. by destruct o. Qed.

Lemma str_app a b : str (a ++ b)%string = str a ++ str b.
Proof. unfold str, string_bytes, String.list_byte_of_string. induction a as [|c a IH]; [done|]. exact (f_equal (cons (Ascii.byte_of_ascii c)) IH). Qed.

(** The text of an IPv4 address parses to it. *)
Lemma ParseAddr_string4 a b c d : ParseAddr (str (string4 [a; b; c; d])) = Some (mkIP (Addr4 [a; b; c; d]) []).
Proof.
  assert (E : str (string4 [a; b; c; d]) = str (FormatUint (byteZ a)) ++ x2e :: str (FormatUint (byteZ b)) ++ x2e ::
    str (FormatUint (byteZ c)) ++ x2e :: str (FormatUint (byteZ d)) ++ []).
  { unfold string4. change (at_ [a; b; c; d] 0) with (byteZ a). change (at_ [a; b; c; d] 1) with (byteZ b).
    change (at_ [a; b; c; d] 2) with (byteZ c). change (at_ [a; b; c; d] 3) with (byteZ d).
    rewrite !str_app, app_nil_r. reflexivity. }
  assert (Hne : ∀ o r, str (FormatUint (byteZ o)) ++ r ≠ []) by (intros [] r; discriminate).
  unfold ParseAddr. rewrite E at 2. rewrite parse_as_octet. unfold parseIPv4Fields. rewrite E.
  do 3 (rewrite v4_octet by (cbn; lia || done); cbn [app]). by rewrite v4_octet_last.
Qed.

End GoNet.
