(* ===== verification/ClientIP.v ===== *)
(** * Client addresses behind trusted proxies (internal/auth/clientip.go)

    The address the login limiter keys on: the transport peer, or the nearest untrusted
    hop of X-Forwarded-For when the peer is a trusted proxy. *)

From S2P Require Import Prelude GoHash FlowModel GoString GoProg BgpBase BgpPrefix GoNet.
#[local] Open Scope Z_scope.

Module ClientIP.
Import BgpPrefix GoNet.

(** http.Header: values by canonical name. *)
Abbreviation Header := (gmap gostring (list gostring)).

Definition XForwardedFor : gostring := str "X-Forwarded-For".
Definition XRealIP : gostring := str "X-Real-Ip".

Definition Values (h : Header) (key : gostring) : list gostring := default [] (h !! key).
Definition Get (h : Header) (key : gostring) : gostring := default [] (head (Values h key)).

Definition isTrusted (a : IPAddr) (trusted : list NetPrefix) : bool := IsValid (ip a) && existsb (λ p, Contains p a) trusted.

Definition peerAddr (remoteAddr : gostring) : IPAddr :=
  let host := match SplitHostPort remoteAddr with Some (h, _) => h | None => remoteAddr end in
  match ParseAddr (Trim host (str "[]")) with Some a => UnmapIP a | None => noIP end.

Definition parseForwarded (hop : gostring) : option IPAddr :=
  let hop := Trim hop [x22] in
  let hop := match SplitHostPort hop with Some (h, _) => h | None => hop end in
  UnmapIP <$> ParseAddr (Trim hop (str "[]")).

(** The hops of the header values, left to right. *)
Definition hops_of (values : list gostring) : list gostring :=
  h ← values; filter (λ part, part ≠ []) (TrimSpace <$> Split x2c h).

(** The walk over the hops, rightmost first. *)
Fixpoint walk (trusted : list NetPrefix) (hops : list gostring) : option IPAddr :=
  match hops with
  | [] => None
  | hop :: hops =>
      match parseForwarded hop with
      | None => None
      | Some a => if isTrusted a trusted then walk trusted hops else Some a
      end
  end.

Definition ClientIP (remoteAddr : gostring) (header : Header) (trusted : list NetPrefix) : gostring :=
  let peer := peerAddr remoteAddr in
  if (len trusted =? 0) || negb (isTrusted peer trusted) then GoNet.String peer
  else match walk trusted (rev (hops_of (Values header XForwardedFor))) with
       | Some a => GoNet.String a
       | None =>
           let realIP := TrimSpace (Get header XRealIP) in
           if bool_decide (realIP = []) then GoNet.String peer
           else match parseForwarded realIP with
                | Some a => if isTrusted a trusted then GoNet.String peer else GoNet.String a
                | None => GoNet.String peer
                end
       end.

Fixpoint ParseTrustedProxies (entries : list gostring) : option (list NetPrefix) :=
  match entries with
  | [] => Some []
  | raw :: entries =>
      let e := TrimSpace raw in
      if bool_decide (e = []) then ParseTrustedProxies entries
      else match ParsePrefix e with
           | Some p => out ← ParseTrustedProxies entries; Some (Masked p :: out)
           | None =>
               match ParseAddr e with
               | None => None
               | Some a => out ← ParseTrustedProxies entries; Some (PrefixFrom (UnmapIP a) (BitLen (UnmapIP a)) :: out)
               end
           end
  end.

(** ** The hops *)

Lemma Split_nonempty c l : Split c l ≠ [].
Proof. destruct l as [|x l]; cbn; [done|]. destruct (bool_decide _); [done|]. by destruct (Split c l). Qed.

Lemma Split_comma junk text : Split x2c (junk ++ x2c :: text) = Split x2c junk ++ Split x2c text.
Proof.
  induction junk as [|c junk IH]; cbn; [done|]. destruct (bool_decide_reflect (c = x2c)) as [->|Hc]; [by rewrite IH|]. rewrite IH.
  pose proof (Split_nonempty x2c junk). by destruct (Split x2c junk).
Qed.

Lemma hops_of_app v w : hops_of (v ++ w) = hops_of v ++ hops_of w.
Proof. unfold hops_of. apply bind_app. Qed.

Lemma hops_of_cut (junk text : gostring) : hops_of [junk ++ x2c :: text] = hops_of [junk] ++ hops_of [text].
Proof. unfold hops_of. cbn. rewrite Split_comma, fmap_app, filter_app, !app_nil_r. done. Qed.

Lemma walk_trusted trusted hops rest :
  (∀ h, h ∈ hops → ∃ a, parseForwarded h = Some a ∧ isTrusted a trusted = true) → walk trusted (hops ++ rest) = walk trusted rest.
Proof.
  induction hops as [|h hops IH]; intros Hh; [done|]. cbn. destruct (Hh h) as (a & -> & ->); [left|]. apply IH. intros h' Hin. apply Hh. by right.
Qed.

Lemma walk_untrusted trusted hops a : walk trusted hops = Some a → isTrusted a trusted = false ∧ ∃ h, h ∈ hops ∧ parseForwarded h = Some a.
Proof.
  induction hops as [|h hops IH]; cbn; [done|]. destruct (parseForwarded h) as [x|] eqn:E; [|done]. destruct (isTrusted x trusted) eqn:Et.
  - intros H. destruct (IH H) as (? & h' & ? & ?). split; [done|]. exists h'. split; [by right|done].
  - intros [= <-]. split; [done|]. exists h. split; [by left|done].
Qed.

(** The address is always the peer's or that of an untrusted hop, as ParseAddr read it. *)
Theorem client_is_untrusted (remoteAddr : gostring) (header : Header) (trusted : list NetPrefix) :
  ∃ a, ClientIP remoteAddr header trusted = GoNet.String a ∧
       (a = peerAddr remoteAddr ∨ isTrusted a trusted = false ∧ ∃ hop, parseForwarded hop = Some a ∧
         (hop ∈ hops_of (Values header XForwardedFor) ∨ hop = TrimSpace (Get header XRealIP))).
Proof.
  unfold ClientIP. destruct (_ || _); [by eauto|]. destruct (walk _ _) as [a|] eqn:E.
  - apply walk_untrusted in E as (Hu & h & Hin & Hp). exists a. split; [done|]. right. split; [done|]. exists h. split; [done|]. left.
    rewrite rev_alt in Hin. by apply elem_of_reverse.
  - destruct (bool_decide _); [by eauto|]. destruct (parseForwarded _) as [a|] eqn:Ep; [|by eauto]. destruct (isTrusted a trusted) eqn:Et; [by eauto|].
    exists a. split; [done|]. right. split; [done|]. eauto.
Qed.

(** C11. A client cannot choose the address it is limited by.  From a peer that is not a trusted
    proxy every header is ignored, whatever it holds: the address is the peer's.  Behind a
    trusted peer it is the one the outermost trusted proxy saw: whatever header values the
    client sent ([forged], [junk] and any other header), when the text the proxies put, in a
    value of its own or after a comma, names an untrusted hop followed by trusted ones, that
    hop is the client. *)
Theorem client_unspoofable (remoteAddr : gostring) (header : Header) (trusted : list NetPrefix) :
  (isTrusted (peerAddr remoteAddr) trusted = false → ClientIP remoteAddr header trusted = GoNet.String (peerAddr remoteAddr)) ∧
  (isTrusted (peerAddr remoteAddr) trusted = true →
   ∀ (forged : list gostring) (value text hop : gostring) (rest : list gostring) (a : IPAddr),
   Values header XForwardedFor = forged ++ [value] → value = text ∨ (∃ junk, value = junk ++ x2c :: text) →
   hops_of [text] = hop :: rest → parseForwarded hop = Some a → isTrusted a trusted = false →
   (∀ h, h ∈ rest → ∃ b, parseForwarded h = Some b ∧ isTrusted b trusted = true) →
   ClientIP remoteAddr header trusted = GoNet.String a).
Proof.
  split; [intros Ep; unfold ClientIP; by rewrite Ep, orb_true_r|].
  intros Ep forged value text hop rest a Hv Hval Ht Ha Hu Hr. unfold ClientIP. rewrite Ep.
  destruct trusted as [|p ps]; [by unfold isTrusted in Ep; rewrite andb_false_r in Ep|]. set (trusted := p :: ps) in *.
  replace (len trusted =? 0) with false by done. cbn [orb negb].
  assert (Hh : ∃ before, hops_of (Values header XForwardedFor) = before ++ hop :: rest).
  { rewrite Hv, hops_of_app. destruct Hval as [->|[junk ->]]; [rewrite Ht; by eexists|]. rewrite hops_of_cut, Ht, app_assoc. by eexists. }
  destruct Hh as [before ->]. rewrite rev_app_distr. cbn [rev]. rewrite <- app_assoc.
  rewrite walk_trusted; [cbn; by rewrite Ha, Hu|]. intros h Hin. apply Hr. rewrite rev_alt in Hin. by apply elem_of_reverse.
Qed.

(** ** Trusted proxies *)

Lemma mask_full l n : (8 * Z.of_nat (length l) ≤ n) → mask_bytes n l = l.
Proof.
  revert n. induction l as [|b l IH]; intros n Hn; [done|]. cbn [mask_bytes length] in *.
  replace (8 <=? n) with true by (symmetry; apply Z.leb_le; lia). f_equal. apply IH. lia.
Qed.

Lemma Contains_masked p a : Contains (Masked p) a = Contains p a.
Proof.
  unfold Contains, Masked. cbn [p_Bits p_Addr]. destruct (_ || _); [done|]. destruct (p_Addr p), (ip a); try done; by rewrite mask_idem.
Qed.

Lemma UnmapIP_wf a : addr_wf (ip a) → addr_wf (ip (UnmapIP a)).
Proof.
  unfold UnmapIP. destruct (Is4In6 (ip a)) eqn:E; [|done]. cbn. destruct (ip a) as [| |b]; try done. unfold Unmap. rewrite E. cbn.
  rewrite length_skipn. lia.
Qed.

(** A single address trusts itself only. *)
Lemma Contains_single x a : addr_wf (ip x) → addr_wf (ip a) → Contains (PrefixFrom x (BitLen x)) a = true ↔ zone a = [] ∧ ip a = ip x.
Proof.
  intros Hx Ha. rewrite Contains_spec. unfold PrefixFrom. cbn [p_Bits p_Addr].
  assert (Hb : (if IsValid (ip x) && (0 <=? BitLen x) && (BitLen x <=? BitLen x) then BitLen x else -1) = BitLen x).
  { rewrite Z.leb_refl. unfold BitLen. by destruct (ip x). }
  rewrite Hb. unfold BitLen. split.
  - intros (_ & Hz & [(u & v & E1 & E2 & E)|(u & v & E1 & E2 & E)]); split; try done; rewrite E1, E2 in *; cbn in Hx, Ha;
      rewrite !mask_full in E by lia; congruence.
  - intros [Hz E]. rewrite E. destruct (ip x) as [|u|u]; [done| |]; (split; [lia|split; [done|]]); [left|right]; eauto 10.
Qed.

(** What one entry of the setting trusts. *)
Definition entry_trusts (raw : gostring) (a : IPAddr) : Prop :=
  let e := TrimSpace raw in
  match ParsePrefix e with
  | Some p => Contains p a = true
  | None => ∃ x, ParseAddr e = Some x ∧ zone a = [] ∧ ip a = ip (UnmapIP x)
  end.

Lemma trusted_entries entries out a :
  ParseTrustedProxies entries = Some out → addr_wf (ip a) →
  existsb (λ p, Contains p a) out = true ↔ ∃ raw, raw ∈ entries ∧ TrimSpace raw ≠ [] ∧ entry_trusts raw a.
Proof.
  intros H Ha. revert out H. induction entries as [|raw entries IH]; intros out; cbn [ParseTrustedProxies].
  { intros [= <-]. split; [done|]. by intros (raw & ?%elem_of_nil & _). }
  assert (Hhd : ∀ P : Prop, (∃ r, r ∈ raw :: entries ∧ TrimSpace r ≠ [] ∧ entry_trusts r a) ↔
    (TrimSpace raw ≠ [] ∧ entry_trusts raw a) ∨ ∃ r, r ∈ entries ∧ TrimSpace r ≠ [] ∧ entry_trusts r a).
  { intros _. setoid_rewrite elem_of_cons. naive_solver. }
  rewrite (Hhd True). clear Hhd. destruct (bool_decide_reflect (TrimSpace raw = [])) as [He|He].
  { intros H. rewrite (IH out H). naive_solver. }
  unfold entry_trusts at 1. destruct (ParsePrefix (TrimSpace raw)) as [p|] eqn:Ep.
  - destruct (ParseTrustedProxies entries) as [o|]; [|done]. intros [= <-]. cbn. rewrite orb_true_iff, Contains_masked, (IH o) by done. naive_solver.
  - destruct (ParseAddr (TrimSpace raw)) as [x|] eqn:Ex; [|done]. destruct (ParseTrustedProxies entries) as [o|]; [|done]. intros [= <-]. cbn.
    rewrite orb_true_iff, Contains_single, (IH o); [naive_solver|done|by apply UnmapIP_wf, (ParseAddr_wf _ _ Ex)|done].
Qed.

(** The trusted set is what the setting says: a configured list is refused when one entry is
    neither a prefix nor an address, and otherwise an address is trusted exactly when it lies
    in a prefix of the list or equals an address of it. *)
Theorem trusted_exact (entries : list gostring) (a : IPAddr) :
  addr_wf (ip a) →
  match ParseTrustedProxies entries with
  | Some out => isTrusted a out = true ↔ ∃ raw, raw ∈ entries ∧ TrimSpace raw ≠ [] ∧ entry_trusts raw a
  | None => ∃ raw, raw ∈ entries ∧ TrimSpace raw ≠ [] ∧ ParsePrefix (TrimSpace raw) = None ∧ ParseAddr (TrimSpace raw) = None
  end.
Proof.
  intros Ha. destruct (ParseTrustedProxies entries) as [out|] eqn:E.
  - rewrite <- (trusted_entries entries out a) by done. unfold isTrusted. assert (IsValid (ip a) = true) as -> by by destruct (ip a). done.
  - revert E. induction entries as [|raw entries IH]; cbn [ParseTrustedProxies]; [done|].
    assert (Hr : (∃ r, r ∈ entries ∧ TrimSpace r ≠ [] ∧ ParsePrefix (TrimSpace r) = None ∧ ParseAddr (TrimSpace r) = None) →
      ∃ r, r ∈ raw :: entries ∧ TrimSpace r ≠ [] ∧ ParsePrefix (TrimSpace r) = None ∧ ParseAddr (TrimSpace r) = None).
    { intros (r & Hin & H). exists r. split; [by right|done]. }
    destruct (bool_decide_reflect (TrimSpace raw = [])) as [He|He]; [auto|].
    destruct (ParsePrefix (TrimSpace raw)) as [p|] eqn:Ep; [destruct (ParseTrustedProxies entries); [done|auto]|].
    destruct (ParseAddr (TrimSpace raw)) as [x|] eqn:Ex; [destruct (ParseTrustedProxies entries); [done|auto]|].
    intros _. exists raw. split; [by left|done].
Qed.

Lemma mask_take k n l : 8 * Z.of_nat k ≤ n → take k (mask_bytes n l) = take k l.
Proof.
  revert n l. induction k as [|k IH]; intros n [|b l] Hn; try done. cbn. replace (8 <=? n) with true by (symmetry; apply Z.leb_le; lia).
  f_equal. apply IH. lia.
Qed.

(** An IPv4-mapped prefix is accepted but trusts nobody: peers and hops are unmapped before
    they are looked up, and an unmapped address is never in such a prefix. *)
Theorem mapped_prefix_never_trusts (p : NetPrefix) (x : IPAddr) :
  Is4In6 (p_Addr p) = true → 96 ≤ p_Bits p → Contains p (UnmapIP x) = false.
Proof.
  intros Hm Hb. apply not_true_iff_false. rewrite Contains_spec. intros (_ & _ & [(u & v & E1 & _)|(u & v & E1 & E2 & E)]); rewrite E1 in Hm; [done|].
  unfold UnmapIP in E2. destruct (Is4In6 (ip x)) eqn:Ex.
  - cbn in E2. destruct (ip x); try done. unfold Unmap in E2. by rewrite Ex in E2.
  - rewrite E2 in Ex. cbn in Hm, Ex. apply bool_decide_eq_true in Hm. apply bool_decide_eq_false in Ex. apply Ex.
    rewrite <- Hm, <- (mask_take 12 (p_Bits p) v), <- (mask_take 12 (p_Bits p) u) by lia. by rewrite E.
Qed.

(** ** Witnesses *)

Definition demo_trusted : list NetPrefix := [mkPrefix (Addr4 (bytes [10; 0; 0; 0])) 8].
Definition demo_request : Header :=
  {[XForwardedFor := [str "198.51.100.7"; str "203.0.113.9, 192.0.2.4, 10.9.9.9"]; XRealIP := [str "198.51.100.8"]]}.

Lemma client_unspoofable_witness :
  ClientIP (str "10.1.1.1:40000") demo_request demo_trusted = str "192.0.2.4" ∧
  ClientIP (str "192.0.2.77:40000") demo_request demo_trusted = str "192.0.2.77".
Proof.
  split; [|exact (proj1 (client_unspoofable (str "192.0.2.77:40000") demo_request demo_trusted) eq_refl)].
  apply (proj2 (client_unspoofable (str "10.1.1.1:40000") demo_request demo_trusted) eq_refl [str "198.51.100.7"] (str "203.0.113.9, 192.0.2.4, 10.9.9.9")
    (str " 192.0.2.4, 10.9.9.9") (str "192.0.2.4") [str "10.9.9.9"] (mkIP (Addr4 (bytes [192; 0; 2; 4])) [])).
  - vm_compute. reflexivity.
  - right. exists (str "203.0.113.9"). vm_compute. reflexivity.
  - vm_compute. reflexivity.
  - vm_compute. reflexivity.
  - vm_compute. reflexivity.
  - intros h Hh. apply list_elem_of_singleton in Hh as ->. exists (mkIP (Addr4 (bytes [10; 9; 9; 9])) []). split; vm_compute; reflexivity.
Defined.

Lemma trusted_exact_witness :
  isTrusted (mkIP (Addr4 (bytes [10; 1; 1; 1])) []) demo_trusted = true ↔
  ∃ raw, raw ∈ [str " 10.0.0.0/8 "] ∧ TrimSpace raw ≠ [] ∧ entry_trusts raw (mkIP (Addr4 (bytes [10; 1; 1; 1])) []).
Proof. exact (trusted_exact [str " 10.0.0.0/8 "] (mkIP (Addr4 (bytes [10; 1; 1; 1])) []) eq_refl). Defined.

Lemma mapped_prefix_never_trusts_witness :
  ParseTrustedProxies [str "::ffff:10.0.0.0/104"] = Some [mkPrefix (Addr16 (bytes [0;0;0;0;0;0;0;0;0;0;255;255;10;0;0;0])) 104] ∧
  Contains (mkPrefix (Addr16 (bytes [0;0;0;0;0;0;0;0;0;0;255;255;10;0;0;0])) 104) (peerAddr (str "10.1.1.1:40000")) = false.
Proof.
  split; [vm_compute; reflexivity|].
  apply (mapped_prefix_never_trusts _ (mkIP (Addr4 (bytes [10; 1; 1; 1])) [])); [vm_compute; reflexivity|vm_compute; discriminate].
Defined.

End ClientIP.
