(* ===== verification/Incident.v ===== *)
(** * Incidents and their signals (internal/incident/incident.go, correlate.go)

    The data of cross-plane correlation, the fingerprint that recognises a re-delivered
    signal, and the rule that relates a signal to an open incident. *)

From S2P Require Import Prelude GoHash GoTime FlowModel GoString GoProg BgpBase BgpPrefix GoNet.
#[local] Open Scope Z_scope.

Module Incident.
Import BgpPrefix GoNet.

(** ** Times *)

Definition Before (t u : Time) : bool := (t_sec t <? t_sec u) || ((t_sec t =? t_sec u) && (t_nsec t <? t_nsec u)).
Definition After (t u : Time) : bool := Before u t.

(** ** Severity and status *)

(** Severity and Status are strings in the source. *)
Definition SeverityInfo : gostring := str "info".
Definition SeverityWarning : gostring := str "warning".
Definition SeverityCritical : gostring := str "critical".
Definition StatusOpen : gostring := str "open".
Definition StatusResolved : gostring := str "resolved".

Definition rank (s : gostring) : Z :=
  if bool_decide (s = SeverityCritical) then 3
  else if bool_decide (s = SeverityWarning) then 2
  else if bool_decide (s = SeverityInfo) then 1
  else 0.

Definition Max (a b : gostring) : gostring :=
  if rank a <? rank b then b else if rank a =? 0 then SeverityInfo else a.

(** ** Signals *)

Abbreviation Attrs := (gmap gostring gostring).

Record Signal := mkSignal {
  sg_ID : gostring; sg_TenantID : gostring; Plane : gostring; Kind : gostring; sg_Severity : gostring; sg_Title : gostring; Summary : gostring;
  sg_Target : gostring; sg_Prefix : gostring; Attributes : Attrs; OccurredAt : Time;
  sg_ContextID : gostring; sg_EntityID : gostring; sg_Attempted : bool }.

#[export] Instance Signal_eta : Eta Signal := λ s,
  mkSignal (sg_ID s) (sg_TenantID s) (Plane s) (Kind s) (sg_Severity s) (sg_Title s) (Summary s) (sg_Target s) (sg_Prefix s) (Attributes s)
    (OccurredAt s) (sg_ContextID s) (sg_EntityID s) (sg_Attempted s).

(** A part of the fingerprint text, and an attribute of it. *)
Definition part (p : gostring) : gostring := p ++ [x00].
Definition attr_part (a : Attrs) (k : gostring) : gostring := k ++ x3d :: default [] (a !! k) ++ [x00].

(** The attributes that belong to the event, in order. *)
Definition event_keys (a : Attrs) : list gostring :=
  merge_sort bytes_le (List.filter (λ k, negb (HasPrefix k (str "correlation."))) (map_to_list a).*1).

Definition fingerprint_text (s : Signal) : gostring :=
  concat (part <$> [sg_TenantID s; Plane s; Kind s; sg_Target s; sg_Prefix s; dec (UnixNano (OccurredAt s)); sg_Title s; Summary s])
  ++ concat (attr_part (Attributes s) <$> event_keys (Attributes s)).

(** hex.EncodeToString *)
Definition hex_byte (b : byte) : gostring := str (hex_digit (byteZ b / 16)) ++ str (hex_digit (byteZ b mod 16)).
Definition EncodeToString (l : list byte) : gostring := l ≫= hex_byte.

Definition CorrelationKey (s : Signal) : gostring := if bool_decide (sg_Target s = []) then sg_Prefix s else sg_Target s.

Definition validateCorrelationKey (s : Signal) : bool := negb (bool_decide (CorrelationKey s = [])).

(** ** Incidents *)

Record Incident := mkIncident {
  ID : gostring; TenantID : gostring; Status : gostring; Severity : gostring; Title : gostring; Target : gostring; Prefix : gostring;
  StartedAt : Time; LastSeenAt : Time; SignalCount : Z; ContextID : gostring; EntityID : gostring; Attempted : bool; Signals : list Signal }.

#[export] Instance Incident_eta : Eta Incident := λ i,
  mkIncident (ID i) (TenantID i) (Status i) (Severity i) (Title i) (Target i) (Prefix i) (StartedAt i) (LastSeenAt i) (SignalCount i)
    (ContextID i) (EntityID i) (Attempted i) (Signals i).

Definition newIncident (s : Signal) : Incident :=
  mkIncident [] (sg_TenantID s) StatusOpen (sg_Severity s) (sg_Title s) (CorrelationKey s) (sg_Prefix s) (OccurredAt s) (OccurredAt s) 0
    (sg_ContextID s) (sg_EntityID s) (sg_Attempted s) [].

Record CorrelationOverride := mkOverride {
  ov_ID : gostring; ov_TenantID : gostring; SourceIncidentID : gostring; ov_Plane : gostring; ov_Kind : gostring; ov_Target : gostring;
  ov_Prefix : gostring; ov_ContextID : gostring; ov_EntityID : gostring; ov_Attempted : bool; Active : bool }.

(** CorrelationOverride.Matches *)
Definition Matches (o : CorrelationOverride) (s : Signal) : bool :=
  Active o && (negb (ov_Attempted o) || negb (bool_decide (ov_EntityID o = [])))
  && bool_decide (ov_TenantID o = sg_TenantID s) && bool_decide (ov_Plane o = Plane s) && bool_decide (ov_Kind o = Kind s)
  && bool_decide (ov_Target o = sg_Target s) && bool_decide (ov_Prefix o = sg_Prefix s)
  && Bool.eqb (ov_Attempted o) (sg_Attempted s) && bool_decide (ov_ContextID o = sg_ContextID s) && bool_decide (ov_EntityID o = sg_EntityID s).

Definition excludedByOverride (incidentID : gostring) (overrides : list CorrelationOverride) : bool :=
  existsb (λ o, Active o && bool_decide (SourceIncidentID o = incidentID)) overrides.

(** ** Relatedness *)

Definition withinWindow (t start last : Time) (window : Z) : bool :=
  if Before t (GoTime.Add start (- window)) then false else negb (After t (GoTime.Add last window)).

Definition asAddr (target : gostring) : option IPAddr :=
  if bool_decide (target = []) then None
  else match ParseAddr target with
       | Some a => Some a
       | None => match SplitHostPort target with Some (host, _) => ParseAddr host | None => None end
       end.

Definition ipInPrefix (target prefix : gostring) : bool :=
  if bool_decide (target = []) || bool_decide (prefix = []) then false
  else match asAddr target with
       | None => false
       | Some addr => match ParsePrefix prefix with None => false | Some p => Contains p addr end
       end.

Definition prefixesOverlap (a b : gostring) : bool :=
  if bool_decide (a = []) || bool_decide (b = []) then false
  else match ParsePrefix a with
       | None => false
       | Some pa => match ParsePrefix b with None => false | Some pb => Contains pa (base pb) || Contains pb (base pa) end
       end.

Definition targetsRelated (incTarget incPrefix sigTarget sigPrefix : gostring) : bool :=
  if negb (bool_decide (incTarget = [])) && bool_decide (incTarget = sigTarget) then true
  else if ipInPrefix sigTarget incPrefix || ipInPrefix incTarget sigPrefix then true
  else prefixesOverlap incPrefix sigPrefix.

Definition related (inc : Incident) (s : Signal) (window : Z) : bool :=
  if negb (bool_decide (Status inc = StatusOpen)) then false
  else if negb (withinWindow (OccurredAt s) (StartedAt inc) (LastSeenAt inc) window) then false
  else if Attempted inc || sg_Attempted s then
    Attempted inc && sg_Attempted s && bool_decide (TenantID inc = sg_TenantID s) && negb (bool_decide (ContextID inc = []))
    && negb (bool_decide (EntityID inc = [])) && bool_decide (ContextID inc = sg_ContextID s) && bool_decide (EntityID inc = sg_EntityID s)
  else targetsRelated (Target inc) (Prefix inc) (sg_Target s) (sg_Prefix s).

(** ** The timeline *)

Section timeline.
(** crypto.Default.Hash *)
Context (Hash : list byte → list byte).

Definition Fingerprint (s : Signal) : gostring := EncodeToString (Hash (fingerprint_text s)).

(** What appending a signal does to an incident. *)
Definition extended (s : Signal) (inc : Incident) : Incident :=
  inc <| Signals := Signals inc ++ [s] |> <| SignalCount := SignalCount inc + 1 |> <| Severity := Max (Severity inc) (sg_Severity s) |>
      <| LastSeenAt := if After (OccurredAt s) (LastSeenAt inc) then OccurredAt s else LastSeenAt inc |>
      <| StartedAt := if Before (OccurredAt s) (StartedAt inc) then OccurredAt s else StartedAt inc |>.

(** A signal the timeline holds already leaves it as it is. *)
Definition absorb (s : Signal) (inc : Incident) : Incident :=
  if bool_decide (Fingerprint s ∈ Fingerprint <$> Signals inc) then inc else extended s inc.

End timeline.

(** ** Lemmas: order of times *)

Lemma Before_spec t u : Before t u = true ↔ t_sec t < t_sec u ∨ (t_sec t = t_sec u ∧ t_nsec t < t_nsec u).
Proof. unfold Before. rewrite orb_true_iff, andb_true_iff, Z.eqb_eq, !Z.ltb_lt. done. Qed.

Lemma not_Before_spec t u : Before t u = false ↔ ¬ (t_sec t < t_sec u ∨ (t_sec t = t_sec u ∧ t_nsec t < t_nsec u)).
Proof. rewrite <- Before_spec. by destruct (Before t u). Qed.

(** Times as a total order. *)
Ltac times := rewrite ?Before_spec, ?not_Before_spec in *; lia.

(** ** The fingerprint *)

Definition correlation_key (k : gostring) : bool := HasPrefix k (str "correlation.").

Lemma event_keys_ext a b : (∀ k, correlation_key k = false → a !! k = b !! k) → event_keys a = event_keys b.
Proof.
  intros H. unfold event_keys. eapply (Sorted_unique bytes_le); [apply Sorted_merge_sort; apply _|apply Sorted_merge_sort; apply _|].
  rewrite !merge_sort_Permutation.
  apply NoDup_Permutation; [apply NoDup_ListNoDup, List.NoDup_filter, NoDup_ListNoDup, NoDup_fst_map_to_list..|].
  intros k. rewrite !list_elem_of_In, !filter_In, <- !list_elem_of_In, !negb_true_iff.
  assert (Hd : ∀ m : Attrs, k ∈ (map_to_list m).*1 ↔ is_Some (m !! k)).
  { intros m. rewrite list_elem_of_fmap. split; [intros ([k' v] & -> & Hin); apply elem_of_map_to_list in Hin; by eexists|].
    intros [v Hv]. exists (k, v). split; [done|]. by apply elem_of_map_to_list. }
  rewrite !Hd. split; intros [Hk Hc]; (split; [|done]); [rewrite <- H|rewrite H]; done.
Qed.

(** Only the event itself is fingerprinted: the correlator's own attributes do not matter. *)
Lemma fingerprint_ext s a : (∀ k, correlation_key k = false → a !! k = Attributes s !! k) → fingerprint_text (s <| Attributes := a |>) = fingerprint_text s.
Proof.
  intros H. unfold fingerprint_text. cbn. rewrite (event_keys_ext a (Attributes s)) by done. apply (f_equal2 app); [done|]. f_equal.
  apply list_fmap_ext. intros i k Hk. apply list_elem_of_lookup_2 in Hk. unfold event_keys in Hk. rewrite merge_sort_Permutation in Hk.
  rewrite list_elem_of_In, filter_In, negb_true_iff in Hk. destruct Hk as [_ Hc]. unfold attr_part. by rewrite H.
Qed.

(** ** Relatedness *)

Lemma ipInPrefix_spec target prefix :
  ipInPrefix target prefix = true ↔ ∃ addr p, asAddr target = Some addr ∧ ParsePrefix prefix = Some p ∧ Contains p addr = true.
Proof.
  unfold ipInPrefix. destruct (bool_decide_reflect (target = [])) as [->|Ht]; cbn [orb]; [split; [done|by intros (? & ? & ? & _)]|].
  destruct (bool_decide_reflect (prefix = [])) as [->|Hp]; [split; [done|by intros (? & ? & ? & ? & _)]|].
  destruct (asAddr target) as [a|]; [|split; [done|by intros (? & ? & ? & _)]]. destruct (ParsePrefix prefix) as [p|]; naive_solver.
Qed.

Lemma prefixesOverlap_spec a b :
  prefixesOverlap a b = true ↔
  ∃ p q addr, ParsePrefix a = Some p ∧ ParsePrefix b = Some q ∧ Contains p addr = true ∧ Contains q addr = true.
Proof.
  unfold prefixesOverlap. destruct (bool_decide_reflect (a = [])) as [->|Ha]; cbn [orb]; [split; [done|by intros (? & ? & ? & ? & _)]|].
  destruct (bool_decide_reflect (b = [])) as [->|Hb]; [split; [done|by intros (? & ? & ? & ? & ? & _)]|].
  destruct (ParsePrefix a) as [p|] eqn:Ep; [|naive_solver]. destruct (ParsePrefix b) as [q|] eqn:Eq; [|naive_solver].
  destruct (ParsePrefix_valid _ _ Ep) as [Hp Vp], (ParsePrefix_valid _ _ Eq) as [Hq Vq]. rewrite overlap_exact by done. naive_solver.
Qed.

(** What the join of targets and prefixes means. *)
Definition shares (incTarget incPrefix sigTarget sigPrefix : gostring) : Prop :=
  (incTarget = sigTarget ∧ incTarget ≠ []) ∨
  (∃ addr p, asAddr sigTarget = Some addr ∧ ParsePrefix incPrefix = Some p ∧ Contains p addr = true) ∨
  (∃ addr p, asAddr incTarget = Some addr ∧ ParsePrefix sigPrefix = Some p ∧ Contains p addr = true) ∨
  (∃ p q addr, ParsePrefix incPrefix = Some p ∧ ParsePrefix sigPrefix = Some q ∧ Contains p addr = true ∧ Contains q addr = true).

Lemma targetsRelated_spec it ip st sp : targetsRelated it ip st sp = true ↔ shares it ip st sp.
Proof.
  unfold targetsRelated, shares. rewrite <- !ipInPrefix_spec, <- prefixesOverlap_spec.
  destruct (ipInPrefix st ip), (ipInPrefix it sp); cbn [orb];
    destruct (bool_decide_reflect (it = [])) as [E1|E1], (bool_decide_reflect (it = st)) as [E2|E2]; cbn [negb andb]; naive_solver.
Qed.

Lemma related_spec inc s window :
  related inc s window = true ↔
  Status inc = StatusOpen ∧ Before (OccurredAt s) (GoTime.Add (StartedAt inc) (- window)) = false ∧
  After (OccurredAt s) (GoTime.Add (LastSeenAt inc) window) = false ∧
  ((Attempted inc = true ∧ sg_Attempted s = true ∧ TenantID inc = sg_TenantID s ∧ ContextID inc = sg_ContextID s ∧ ContextID inc ≠ [] ∧
    EntityID inc = sg_EntityID s ∧ EntityID inc ≠ []) ∨
   (Attempted inc = false ∧ sg_Attempted s = false ∧ shares (Target inc) (Prefix inc) (sg_Target s) (sg_Prefix s))).
Proof.
  unfold related, withinWindow. rewrite <- targetsRelated_spec. destruct (bool_decide_reflect (Status inc = StatusOpen)) as [Hs|Hs]; cbn [negb]; [|naive_solver].
  destruct (Before _ _); cbn [negb]; [naive_solver|]. destruct (After _ _); cbn [negb]; [naive_solver|].
  destruct (Attempted inc), (sg_Attempted s); cbn [orb andb]; rewrite ?andb_true_iff, ?negb_true_iff, ?bool_decide_eq_true, ?bool_decide_eq_false;
    naive_solver.
Qed.

(** C14. The correlation rule is the one documented: a signal belongs to an incident exactly when
    the incident is open, the signal lies between one window before its start and one window
    after its last activity, and either both were resolved to the same verified entity in the
    same context of the tenant, or neither was looked up and they share a target, an address
    within the other's prefix, or an address common to both prefixes.  The rule does not
    depend on which of the two came first. *)
Theorem related_exact (inc : Incident) (s : Signal) (window : Z) :
  (related inc s window = true ↔
   Status inc = StatusOpen ∧ Before (OccurredAt s) (GoTime.Add (StartedAt inc) (- window)) = false ∧
   After (OccurredAt s) (GoTime.Add (LastSeenAt inc) window) = false ∧
   ((Attempted inc = true ∧ sg_Attempted s = true ∧ TenantID inc = sg_TenantID s ∧ ContextID inc = sg_ContextID s ∧ ContextID inc ≠ [] ∧
     EntityID inc = sg_EntityID s ∧ EntityID inc ≠ []) ∨
    (Attempted inc = false ∧ sg_Attempted s = false ∧ shares (Target inc) (Prefix inc) (sg_Target s) (sg_Prefix s)))) ∧
  (∀ it ip st sp, targetsRelated it ip st sp = targetsRelated st sp it ip).
Proof.
  split; [apply related_spec|]. intros it ip st sp. apply eq_true_iff_eq. rewrite !targetsRelated_spec. unfold shares. naive_solver.
Qed.

(** ** Timelines *)

Section timelines.
Context (Hash : list byte → list byte).

Record timeline_ok (inc : Incident) : Prop := {
  tl_count : SignalCount inc = len (Signals inc);
  tl_distinct : NoDup (Fingerprint Hash <$> Signals inc);
  tl_tenant : ∀ s, s ∈ Signals inc → sg_TenantID s = TenantID inc;
  tl_last : ∀ s, s ∈ Signals inc → After (OccurredAt s) (LastSeenAt inc) = false;
  tl_start : ∀ s, s ∈ Signals inc → Before (OccurredAt s) (StartedAt inc) = false;
  tl_severity : ∀ s, s ∈ Signals inc → rank (sg_Severity s) ≤ rank (Severity inc);
  tl_order : Before (LastSeenAt inc) (StartedAt inc) = false }.

Lemma newIncident_ok s id : timeline_ok ((newIncident s) <| ID := id |>).
Proof.
  split; cbn; try done; [by apply NoDup_nil|intros x Hx; by apply elem_of_nil in Hx..|]. times.
Qed.

Lemma severity_nonneg s : 0 ≤ rank s.
Proof. unfold rank. repeat case_bool_decide; lia. Qed.

Lemma Max_ge a b : rank a ≤ rank (Max a b) ∧ rank b ≤ rank (Max a b).
Proof.
  unfold Max. destruct (rank a <? rank b) eqn:E; zbool; [lia|]. pose proof (severity_nonneg b). destruct (rank a =? 0) eqn:E2; zbool; [|lia].
  change (rank SeverityInfo) with 1. lia.
Qed.

Lemma extended_last s inc :
  After (OccurredAt s) (LastSeenAt (extended s inc)) = false ∧ (∀ t, After t (LastSeenAt inc) = false → After t (LastSeenAt (extended s inc)) = false) ∧
  Before (OccurredAt s) (StartedAt (extended s inc)) = false ∧ (∀ t, Before t (StartedAt inc) = false → Before t (StartedAt (extended s inc)) = false).
Proof.
  unfold extended. cbn. unfold After. destruct (Before (LastSeenAt inc) (OccurredAt s)) eqn:E1, (Before (OccurredAt s) (StartedAt inc)) eqn:E2;
    split_and!; try intros t Ht; times.
Qed.

Lemma absorb_ok s inc : timeline_ok inc → sg_TenantID s = TenantID inc → timeline_ok (absorb Hash s inc).
Proof.
  intros [Hc Hd Ht Hl Hst Hsev Ho] Hs. unfold absorb. destruct (bool_decide_reflect (Fingerprint Hash s ∈ Fingerprint Hash <$> Signals inc)) as [|Hn]; [by split|].
  destruct (extended_last s inc) as (L1 & L2 & S1 & S2). destruct (Max_ge (Severity inc) (sg_Severity s)) as [M1 M2].
  assert (Hin : ∀ x, x ∈ Signals inc ++ [s] → x ∈ Signals inc ∨ x = s) by (intros x; rewrite elem_of_app, list_elem_of_singleton; done).
  split; cbn [Signals SignalCount extended].
  - change (SignalCount (extended s inc)) with (SignalCount inc + 1). change (Signals (extended s inc)) with (Signals inc ++ [s]).
    rewrite Hc. unfold len. rewrite length_app. cbn. lia.
  - change (Signals (extended s inc)) with (Signals inc ++ [s]). rewrite fmap_app. apply NoDup_app. split_and!; [done| |apply NoDup_singleton].
    intros x Hx Hx'. apply list_elem_of_singleton in Hx' as ->. done.
  - intros x [Hx| ->]%Hin; [by apply Ht|done].
  - intros x [Hx| ->]%Hin; [by apply L2, Hl|done].
  - intros x [Hx| ->]%Hin; [by apply S2, Hst|done].
  - intros x Hx. change (Severity (extended s inc)) with (Max (Severity inc) (sg_Severity s)). apply Hin in Hx as [Hx| ->]; [specialize (Hsev x Hx); lia|lia].
  - specialize (L2 (LastSeenAt inc)). unfold After, extended in *. cbn in *.
    destruct (Before (LastSeenAt inc) (OccurredAt s)) eqn:E1, (Before (OccurredAt s) (StartedAt inc)) eqn:E2; times.
Qed.

End timelines.

(** ** Two weaknesses *)

(** The fingerprint joins names and values without escaping: different events can share
    one, and the second is then dropped from the timeline as a duplicate. *)
Definition demo_signal (a : Attrs) : Signal :=
  mkSignal [] (str "tenant") (str "network") (str "alert.firing") (str "warning") (str "title") [] (str "10.0.0.1") [] a (mkTime 63000000000 0) [] [] false.

Definition demo_split_left : Signal := demo_signal {[str "path=a" := str "b"]}.
Definition demo_split_right : Signal := demo_signal {[str "path" := str "a=b"]}.

Lemma demo_texts : fingerprint_text demo_split_left = fingerprint_text demo_split_right.
Proof. vm_compute. reflexivity. Qed.

Theorem fingerprint_collision (Hash : list byte → list byte) (inc : Incident) :
  Attributes demo_split_left ≠ Attributes demo_split_right ∧
  (demo_split_left ∈ Signals inc → absorb Hash demo_split_right inc = inc).
Proof.
  split.
  - intros H. apply (f_equal (lookup (str "path"))) in H. vm_compute in H. discriminate.
  - intros Hin. unfold absorb. rewrite bool_decide_eq_true_2; [done|]. apply list_elem_of_fmap. exists demo_split_left. split; [|done].
    unfold Fingerprint. by rewrite demo_texts.
Qed.

(** A signal that carries only a prefix passes the check of its correlation key, but when the
    text is not a prefix it is related to nothing, its own incident included. *)
Theorem unparseable_prefix_never_groups (s : Signal) (window : Z) :
  sg_Target s = [] → validateCorrelationKey s = true → ParsePrefix (sg_Prefix s) = None → sg_Attempted s = false →
  ∀ inc, related inc s window = false.
Proof.
  intros Ht Hk Hp Ha inc. apply not_true_iff_false. rewrite related_spec. intros (_ & _ & _ & [(_ & E & _)|(_ & _ & Hs)]); [congruence|].
  unfold shares in Hs. rewrite Ht, Hp in Hs. destruct Hs as [(E & Hn)|[(? & ? & E & _)|[(? & ? & _ & E & _)|(? & ? & ? & _ & E & _)]]];
    [congruence|discriminate E|discriminate E|discriminate E].
Qed.

Definition demo_unparseable : Signal := (demo_signal ∅) <| sg_Target := [] |> <| sg_Prefix := str "10.0.0.0/8 via transit" |>.

Lemma unparseable_prefix_never_groups_witness : related (newIncident demo_unparseable) demo_unparseable Minute = false.
Proof. apply (unparseable_prefix_never_groups demo_unparseable Minute); vm_compute; reflexivity. Defined.

End Incident.
