(* ===== verification/Correlator.v ===== *)
(** * The incident correlator (internal/incident/correlator.go, internal/store/incidents.go)

    Ingest as a program over the operations of its store, so that the calls of concurrent
    ingests can interleave with each other and with operators; what a store promises is the
    class [IncidentStore], which the in-memory store implements.  The class allows for a store
    that reads its candidates as a page of the most recently active open incidents, as the
    PostgreSQL query does ([pg_page]).  An incident is read with its timeline here; PostgreSQL
    keeps the timeline in a table of its own and times to the microsecond, which the class does
    not describe. *)

From S2P Require Import Prelude GoHash GoTime GoFloat FlowModel GoString GoProg BgpBase BgpPrefix GoNet Incident.
From Stdlib Require Import Floats.SpecFloat.
#[local] Open Scope Z_scope.

Module Correlator.
Import GoNet Incident.

(** ** Formatting *)

(** fmt.Sprintf("%.0f", x) of a finite value: to the nearest integer, ties to even. *)
Definition Sprintf0f (x : float64) : gostring :=
  match x with
  | S754_finite s m e =>
      let q :=
        if 0 <=? e then Z.shiftl (Zpos m) e
        else
          let d := 2 ^ (- e) in
          let q := Zpos m / d in
          let r := Zpos m mod d in
          if (d <? 2 * r) || ((2 * r =? d) && Z.odd q) then q + 1 else q in
      (if s then str "-" else []) ++ dec q
  | S754_zero s => (if s then str "-" else []) ++ str "0"
  | S754_infinity s => str (if s then "-Inf" else "+Inf")
  | S754_nan => str "NaN"
  end.

Example format_half : Sprintf0f (Seconds 2500000000) = str "2".
Proof. reflexivity. Qed.
Example format_window : Sprintf0f (Seconds (10 * Minute)) = str "600".
Proof. reflexivity. Qed.

(** Time.Sub, saturating. *)
Definition TimeSub (t u : Time) : Z :=
  let d := i64 (i64 (t_sec t - t_sec u) * Second + (t_nsec t - t_nsec u)) in
  if bool_decide (GoTime.Add u d = t) then d else if Before t u then - 2 ^ 63 else 2 ^ 63 - 1.

(** ** Errors, sources and the store's operations *)

Inductive Err :=
| NoTenant | NoCorrelationKey | SourceIncomplete | FaultID | NoTransaction | NoReceipts
| LoadOverrides | LoadOpen | AppendFailed | CreateFailed | AppendFirst | NotFound | ReceiptError | StoreError.

Record Source := mkSource { tenantID : gostring; agentID : gostring; sourceKind : gostring; sourceRef : gostring; certificateSerial : gostring }.

Record IdentityResolution := mkResolution { rs_ContextID : gostring; rs_EntityID : gostring }.

Inductive op : Type → Type :=
| OpenIncidents (tenant : gostring) : op (Err + list Incident)
| Create (inc : Incident) : op (Err + Incident)
| AppendSignal (tenant incidentID : gostring) (s : Signal) : op (Err + Incident)
| ActiveCorrelationOverrides (tenant : gostring) (s : Signal) : op (Err + list CorrelationOverride)
| ClaimFaultReceipt (src : Source) (observation : gostring) (s : Signal) : op (Err + option Incident)
| CompleteFaultReceipt (src : Source) (observation incidentID : gostring) : op (Err + ())
| ResolveSignalIdentity (src : Source) (s : Signal) : op (Err + IdentityResolution).

(** The optional interfaces a store implements. *)
Record Caps := mkCaps { isTransactional : bool; hasReceipts : bool; hasResolver : bool }.

(** Programs over a store. *)
Inductive prog (A : Type) : Type :=
| Ret (a : A)
| Call {X} (o : op X) (k : X → prog A).
Arguments Ret {A} a.
Arguments Call {A X} o k.

(** A call whose error is returned, as [e] if it is wrapped. *)
Definition try_call {A X} (o : op (Err + X)) (e : Err) (k : X → prog (Err + A)) : prog (Err + A) :=
  Call o (λ r, match r with inl _ => Ret (inl e) | inr x => k x end).

(** ** Explanations *)

(** cloneAttributes copies a map; values are copies here. *)
Definition stamp (l : list (gostring * gostring)) (a : Attrs) : Attrs := foldl (λ a kv, <[kv.1 := kv.2]> a) a l.

Definition attr (name value : string) : gostring * gostring := (str name, str value).

Definition override_stamp (reason : string) (overrides : list CorrelationOverride) : list (gostring * gostring) :=
  match overrides with
  | [] => []
  | o :: _ => [(str "correlation.override_id", ov_ID o); (str "correlation.excluded_parent_incident_id", SourceIncidentID o);
               attr "correlation.reason" reason]
  end.

Definition withCorrelationExplanation (s : Signal) (parent : Incident) (window : Z) (overrides : list CorrelationOverride) : Signal :=
  let freshness := TimeSub (OccurredAt s) (LastSeenAt parent) in
  let freshness := if freshness <? 0 then i64 (- freshness) else freshness in
  s <| Attributes := stamp
    ([attr "correlation.state" "grouped"; (str "correlation.parent_incident_id", ID parent)]
     ++ (if sg_Attempted s
         then [attr "correlation.reason" "within_window_and_same_verified_entity"; attr "correlation.rule" "verified_entity_context_v1"]
         else [attr "correlation.reason" "within_window_and_shared_target_or_prefix"; attr "correlation.rule" "time_target_prefix_v1"])
     ++ [(str "correlation.window_seconds", Sprintf0f (Seconds window)); (str "correlation.freshness_seconds", Sprintf0f (Seconds freshness));
         attr "correlation.match_confidence" "1.00"; attr "correlation.confidence_scope" "deterministic_match_not_root_cause_probability"]
     ++ override_stamp "operator_ungroup_override_then_related_independent_incident" overrides) (Attributes s) |>.

Definition withRootCorrelationExplanation (s : Signal) (root : Incident) (overrides : list CorrelationOverride) : Signal :=
  s <| Attributes := stamp
    ([attr "correlation.state" "root"; (str "correlation.parent_incident_id", ID root); attr "correlation.reason" "no_related_open_incident";
      attr "correlation.rule" (if negb (bool_decide (sg_EntityID s = [])) then "verified_entity_context_v1"
                               else if sg_Attempted s then "identity_unresolved_v1" else "time_target_prefix_v1");
      attr "correlation.freshness_seconds" "0"; attr "correlation.match_confidence" "1.00";
      attr "correlation.confidence_scope" "deterministic_match_not_root_cause_probability"]
     ++ override_stamp "operator_ungroup_override_created_independent_incident" overrides) (Attributes s) |>.

(** ** Ingest *)

Definition DefaultWindow : Z := 10 * Minute.
Definition MaxFutureSkew : Z := 5 * Minute.

(** The result of an ingest: the incident, whether it was opened, whether the fault was a replay. *)
Record Outcome := mkOutcome { incident : Incident; opened : bool; replayed : bool }.

Section correlator.
Context (caps : Caps) (window : Z).

(** Completing the receipt, where there is one. *)
Definition complete (source : option Source) (observation : gostring) (out : Outcome) : prog (Err + Outcome) :=
  match source with
  | Some src =>
      if bool_decide (observation = []) then Ret (inr out)
      else try_call (CompleteFaultReceipt src observation (ID (incident out))) ReceiptError (λ _, Ret (inr out))
  | None => Ret (inr out)
  end.

Definition open_new (s : Signal) (source : option Source) (observation : gostring) (overrides : list CorrelationOverride) : prog (Err + Outcome) :=
  try_call (Create (newIncident s)) CreateFailed (λ created,
  let s := withRootCorrelationExplanation s created overrides in
  try_call (AppendSignal (sg_TenantID s) (ID created) s) AppendFirst (λ updated,
  complete source observation (mkOutcome updated true false))).

(** The search over the open incidents. *)
Fixpoint group (s : Signal) (source : option Source) (observation : gostring) (overrides : list CorrelationOverride) (open : list Incident)
    : prog (Err + Outcome) :=
  match open with
  | [] => open_new s source observation overrides
  | inc :: open =>
      if excludedByOverride (ID inc) overrides then group s source observation overrides open
      else if related inc s window then
        let s := withCorrelationExplanation s inc window overrides in
        try_call (AppendSignal (sg_TenantID s) (ID inc) s) AppendFailed (λ updated,
        complete source observation (mkOutcome updated false false))
      else group s source observation overrides open
  end.

Definition load_and_group (s : Signal) (source : option Source) (observation : gostring) : prog (Err + Outcome) :=
  try_call (ActiveCorrelationOverrides (sg_TenantID s) s) LoadOverrides (λ overrides,
  try_call (OpenIncidents (sg_TenantID s)) LoadOpen (λ open,
  group s source observation overrides open)).

(** The identity of an authenticated sender; a failed lookup leaves the signal ungrouped. *)
Definition resolve (s : Signal) (source : option Source) (observation : gostring) : prog (Err + Outcome) :=
  match source with
  | None => load_and_group s source observation
  | Some src =>
      let s := s <| sg_Attempted := true |> in
      if hasResolver caps then
        Call (ResolveSignalIdentity src s) (λ r,
          load_and_group
            match r with
            | inr i => if bool_decide (rs_EntityID i = []) || negb (bool_decide (rs_ContextID i = []))
                       then s <| sg_ContextID := rs_ContextID i |> <| sg_EntityID := rs_EntityID i |> else s
            | inl _ => s
            end source observation)
      else load_and_group s source observation
  end.

Definition ingestWithStore (s : Signal) (source : option Source) (observation : gostring) : prog (Err + Outcome) :=
  if bool_decide (observation = []) then resolve s source observation
  else match source with
       | Some src =>
           if negb (hasReceipts caps) then Ret (inl NoReceipts)
           else try_call (ClaimFaultReceipt src observation s) ReceiptError (λ prior,
                match prior with
                | Some inc => Ret (inr (mkOutcome inc false true))
                | None => resolve s source observation
                end)
       | None => Ret (inl NoReceipts)
       end.

(** What Ingest checks and settles before it takes the tenant's lock. *)
Definition prepare (now : Time) (s : Signal) : Err + Signal :=
  let s := s <| sg_ContextID := [] |> <| sg_EntityID := [] |> <| sg_Attempted := false |> in
  if bool_decide (sg_TenantID s = []) then inl NoTenant
  else if negb (validateCorrelationKey s) then inl NoCorrelationKey
  else
    let s := if IsZero (OccurredAt s) then s <| OccurredAt := now |>
             else if After (OccurredAt s) (GoTime.Add now MaxFutureSkew) then s <| OccurredAt := now |> else s in
    inr (if bool_decide (sg_Severity s = []) then s <| sg_Severity := SeverityInfo |> else s).

(** The checks of IngestAuthenticated and IngestAuthenticatedFault. *)
Definition sourceComplete (src : Source) (s : Signal) : bool :=
  negb (bool_decide (tenantID src = [])) && bool_decide (tenantID src = sg_TenantID s) && negb (bool_decide (agentID src = []))
  && negb (bool_decide (sourceKind src = [])) && negb (bool_decide (sourceRef src = [])) && negb (bool_decide (certificateSerial src = [])).

(** uuid.Parse of a version 4 identifier that is not the nil one: its canonical text. *)
Context (parseUUIDv4 : gostring → option gostring).

Definition AttrFaultObservationID : gostring := str "probectl.entity.fault.observation_id".
Definition AttrSourceKind : gostring := str "probectl.entity.source.kind".

(** A request: Ingest, IngestAuthenticated or IngestAuthenticatedFault. *)
Inductive Request :=
| Plain (s : Signal)
| Authenticated (s : Signal) (src : Source)
| Fault (s : Signal) (src : Source) (observationID : gostring).

Definition admission (r : Request) : Err + (Signal * option Source * gostring) :=
  match r with
  | Plain s => inr (s, None, [])
  | Authenticated s src => if sourceComplete src s then inr (s, Some src, []) else inl SourceIncomplete
  | Fault s src observationID =>
      if negb (sourceComplete src s) then inl SourceIncomplete
      else match parseUUIDv4 observationID with
           | None => inl FaultID
           | Some id =>
               if negb (bool_decide (Attributes s !! AttrFaultObservationID = Some id)) then inl FaultID
               else if negb (isTransactional caps) then inl NoTransaction
               else inr (s <| Attributes := stamp [(str "probectl.tenant.id", tenantID src); (str "probectl.agent.id", agentID src);
                                                   (AttrSourceKind, sourceKind src)] (Attributes s) |>, Some src, id)
           end
  end.

(** The call up to the lock: an error, or the program to run under it. *)
Definition start (now : Time) (r : Request) : Err + (Signal * option Source * gostring) :=
  match admission r with
  | inl e => inl e
  | inr (s, source, observation) => match prepare now s with inl e => inl e | inr s => inr (s, source, observation) end
  end.

End correlator.

(** ** What a store promises *)

(** The incidents and overrides of one tenant. *)
Record Part := mkPart { incs : gmap gostring Incident; ovs : gmap gostring CorrelationOverride }.
#[export] Instance CorrelationOverride_eta : Eta CorrelationOverride := λ o,
  mkOverride (ov_ID o) (ov_TenantID o) (SourceIncidentID o) (ov_Plane o) (ov_Kind o) (ov_Target o) (ov_Prefix o) (ov_ContextID o) (ov_EntityID o)
    (ov_Attempted o) (Active o).
#[export] Instance Part_eta : Eta Part := λ p, mkPart (incs p) (ovs p).

(** The tenant an operation is for. *)
Definition op_tenant {X} (o : op X) : gostring :=
  match o with
  | OpenIncidents t => t
  | Create inc => TenantID inc
  | AppendSignal t _ _ => t
  | ActiveCorrelationOverrides t _ => t
  | ClaimFaultReceipt _ _ s => sg_TenantID s
  | CompleteFaultReceipt src _ _ => tenantID src
  | ResolveSignalIdentity _ s => sg_TenantID s
  end.

(** Incidents are created without signals. *)
Definition valid_op {X} (o : op X) : Prop := match o with Create inc => Signals inc = [] | _ => True end.

(** The correlator's explanation does not change the event. *)
Definition same_event (s' s : Signal) : Prop :=
  ∃ a, s' = s <| Attributes := a |> ∧ ∀ k, correlation_key k = false → a !! k = Attributes s !! k.

Section specification.
Context (Hash : list byte → list byte).
(** The size of the page of candidates a store reads, if it reads a page. *)
Context (page : option nat).

Definition is_open (m : Part) (inc : Incident) : Prop := ∃ id, incs m !! id = Some inc ∧ Status inc = StatusOpen.

(** An answer to OpenIncidents: open incidents of the tenant, each once; an open incident is
    missing only from a full page of incidents no less recently active. *)
Definition missing (l : list Incident) (inc : Incident) : Prop :=
  Some (length l) = page ∧ inc ∉ l ∧ ∀ o, o ∈ l → Before (LastSeenAt o) (LastSeenAt inc) = false.

Definition listed (m : Part) (l : list Incident) : Prop :=
  NoDup l ∧ (∀ inc, inc ∈ l → is_open m inc) ∧ (∀ inc, is_open m inc → inc ∈ l ∨ missing l inc).

(** An operation on its tenant's part; receipts and identities are outside it. *)
Definition tstep {X} (o : op X) : Part → X → Part → Prop :=
  match o in op X return Part → X → Part → Prop with
  | OpenIncidents _ => λ m x m', m' = m ∧ match x with inl _ => True | inr l => listed m l end
  | Create inc => λ m x m',
      match x with
      | inl _ => m' = m
      | inr c => incs m !! ID c = None ∧ c = inc <| ID := ID c |> ∧ m' = m <| incs := <[ID c := c]> (incs m) |>
      end
  | AppendSignal _ id s => λ m x m',
      match x with
      | inl _ => m' = m
      | inr u => ∃ inc, incs m !! id = Some inc ∧ u = absorb Hash s inc ∧ m' = m <| incs := <[id := u]> (incs m) |>
      end
  | ActiveCorrelationOverrides _ s => λ m x m',
      m' = m ∧ match x with inl _ => True | inr l => ∀ o, o ∈ l ↔ ∃ id, ovs m !! id = Some o ∧ Matches o s = true end
  | ClaimFaultReceipt _ _ _ | CompleteFaultReceipt _ _ _ | ResolveSignalIdentity _ _ => λ m _ m', m' = m
  end.

(** [sem] is one call; it concerns the part of one tenant and leaves the others alone. *)
Class IncidentStore (S : Type) := {
  sem : ∀ {X}, op X → S → X → S → Prop;
  view : S → gmap gostring Incident;
  overrides : S → gmap gostring CorrelationOverride;
  ok : S → Prop;
  part_of : gostring → S → Part := λ t s, mkPart (filter (λ kv, TenantID kv.2 = t) (view s)) (filter (λ kv, ov_TenantID kv.2 = t) (overrides s));
  sem_ok : ∀ X (o : op X) s x s', ok s → valid_op o → sem o s x s' → ok s';
  sem_part : ∀ X (o : op X) s x s', ok s → sem o s x s' → tstep o (part_of (op_tenant o) s) x (part_of (op_tenant o) s');
  sem_frame : ∀ X (o : op X) s x s' t, ok s → sem o s x s' → t ≠ op_tenant o → part_of t s' = part_of t s;
  ok_ids : ∀ s id inc, ok s → view s !! id = Some inc → ID inc = id }.

(** ** What an ingest does to its tenant's part *)

Context (caps : Caps) (window : Z).

(** An operator's override keeps the signal out of the incident. *)
Definition excluded (m : Part) (id : gostring) (s : Signal) : Prop := ∃ k o, ovs m !! k = Some o ∧ Matches o s = true ∧ SourceIncidentID o = id.

(** An open incident that a full page of others, no less recently active, keeps out of sight. *)
Definition crowded (m : Part) (inc : Incident) : Prop := ∃ l, NoDup l ∧ (∀ o, o ∈ l → is_open m o) ∧ missing l inc.

(** The signal with the identity the store resolved, if one was asked for. *)
Definition identified (source : option Source) (s s' : Signal) : Prop :=
  match source with
  | None => s' = s
  | Some _ => ∃ c e, s' = s <| sg_Attempted := true |> <| sg_ContextID := c |> <| sg_EntityID := e |>
  end.

(** *** One ingest alone, over all open incidents *)

(** Grouped into a related incident, or, when there is none, into a new one. *)
Definition grouped (s : Signal) (m : Part) (inc' : Incident) (m' : Part) : Prop :=
  ∃ id inc s', incs m !! id = Some inc ∧ related inc s window = true ∧ ¬ excluded m id s ∧ same_event s' s ∧
    inc' = absorb Hash s' inc ∧ m' = m <| incs := <[id := inc']> (incs m) |>.

Definition unrelated (s : Signal) (m : Part) : Prop :=
  ∀ id inc, incs m !! id = Some inc → related inc s window = true → excluded m id s.

Definition created (s : Signal) (m : Part) (inc' : Incident) (m' : Part) : Prop :=
  unrelated s m ∧ ∃ id s', incs m !! id = None ∧ same_event s' s ∧
    inc' = absorb Hash s' ((newIncident s) <| ID := id |>) ∧ m' = m <| incs := <[id := inc']> (incs m) |>.

Definition placed (s : Signal) (m : Part) (out : Outcome) (m' : Part) : Prop :=
  if opened out then created s m (incident out) m' else grouped s m (incident out) m'.

(** *** One ingest amid the operators' changes

    [R] is what may happen to the part between two calls of the ingest: the overrides are
    read from [ma], the candidates from [mb], and the signal is written to [mc]. *)

Section amid.
Context (R : relation Part).

Definition joined (s : Signal) (m : Part) (inc' : Incident) (m' : Part) : Prop :=
  ∃ ma mb mc id cand inc s', R m ma ∧ R ma mb ∧ R mb mc ∧
    incs mb !! id = Some cand ∧ related cand s window = true ∧ ¬ excluded ma id s ∧ same_event s' s ∧
    incs mc !! id = Some inc ∧ inc' = absorb Hash s' inc ∧ R (mc <| incs := <[id := inc']> (incs mc) |>) m'.

(** No candidate: every related incident is excluded or out of sight. *)
Definition alone (s : Signal) (ma mb : Part) : Prop :=
  ∀ id inc, incs mb !! id = Some inc → related inc s window = true → excluded ma id s ∨ crowded mb inc.

(** An incident opened for the signal, which it does not hold yet. *)
Definition begun (s : Signal) (id : gostring) (m m' : Part) : Prop :=
  ∃ ma mb mc, R m ma ∧ R ma mb ∧ alone s ma mb ∧ R mb mc ∧ incs mc !! id = None ∧
    R (mc <| incs := <[id := (newIncident s) <| ID := id |>]> (incs mc) |>) m'.

Definition founded (s : Signal) (m : Part) (inc' : Incident) (m' : Part) : Prop :=
  ∃ md id inc s', begun s id m md ∧ same_event s' s ∧
    incs md !! id = Some inc ∧ inc' = absorb Hash s' inc ∧ R (md <| incs := <[id := inc']> (incs md) |>) m'.

Definition settled (s : Signal) (m : Part) (out : Outcome) (m' : Part) : Prop :=
  if opened out then founded s m (incident out) m' else joined s m (incident out) m'.

Definition ingested (s : Signal) (source : option Source) (m : Part) (r : Err + Outcome) (m' : Part) : Prop :=
  match r with
  | inr out => if replayed out then source ≠ None ∧ R m m' else ∃ s', identified source s s' ∧ settled s' m out m'
  | inl _ => R m m' ∨ ∃ s', identified source s s' ∧ ((∃ id, begun s' id m m') ∨ ∃ out, settled s' m out m')
  end.

(** ** Programs on a part *)

Fixpoint wp {A} (t : gostring) (p : prog A) (Q : A → Part → Prop) (m : Part) : Prop :=
  match p with
  | Ret a => ∀ m', R m m' → Q a m'
  | Call o k => op_tenant o = t ∧ valid_op o ∧ ∀ m1 x m', R m m1 → tstep o m1 x m' → wp t (k x) Q m'
  end.

End amid.

Definition part_ok (m : Part) : Prop := ∀ id inc, incs m !! id = Some inc → ID inc = id.

(** Explanations are stamps under the correlation prefix. *)
Lemma stamp_lookup l a k : (∀ kv, kv ∈ l → correlation_key kv.1 = true) → correlation_key k = false → stamp l a !! k = a !! k.
Proof.
  unfold stamp. revert a. induction l as [|[k' v] l IH]; intros a Hl Hk; [done|]. cbn. rewrite IH; [|intros kv Hin; apply Hl; by right|done].
  rewrite lookup_insert_ne; [done|]. intros ->. specialize (Hl (k, v) ltac:(by left)). cbn in Hl. congruence.
Qed.

Lemma stamped_event s l : (∀ kv, kv ∈ l → correlation_key kv.1 = true) → same_event (s <| Attributes := stamp l (Attributes s) |>) s.
Proof. intros Hl. exists (stamp l (Attributes s)). split; [done|]. intros k Hk. by apply stamp_lookup. Qed.

Lemma correlation_keys (l : list (gostring * gostring)) : forallb (λ kv, correlation_key kv.1) l = true → ∀ kv, kv ∈ l → correlation_key kv.1 = true.
Proof. rewrite forallb_forall. intros H kv Hin. apply H. by apply list_elem_of_In. Qed.

Lemma override_stamp_keys reason l : forallb (λ kv, correlation_key kv.1) (override_stamp reason l) = true.
Proof. by destruct l. Qed.

Lemma explained_event s parent overrides : same_event (withCorrelationExplanation s parent window overrides) s.
Proof.
  apply stamped_event, correlation_keys. rewrite !forallb_app, override_stamp_keys. by destruct (sg_Attempted s).
Qed.

Lemma root_event s root overrides : same_event (withRootCorrelationExplanation s root overrides) s.
Proof. apply stamped_event, correlation_keys. rewrite !forallb_app, override_stamp_keys. done. Qed.

Section logic.
Context (R : relation Part) `{!PreOrder R}.
Hypothesis R_ok : ∀ m m', R m m' → part_ok m → part_ok m'.

Lemma wp_drift {A} t (p : prog A) Q m m' : R m m' → wp R t p Q m → wp R t p Q m'.
Proof using PreOrder0.
  intros Hm. destruct p as [a|X o k]; cbn; [intros H m1 H1; apply H; by etrans|]. intros (Ht & Hv & H). split_and!; [done|done|].
  intros m1 x m2 H1. apply H. by etrans.
Qed.

Lemma wp_mono {A} t (p : prog A) (Q Q' : A → Part → Prop) m : (∀ a m', Q a m' → Q' a m') → wp R t p Q m → wp R t p Q' m.
Proof.
  intros HQ. revert m. induction p as [a|X o k IH]; intros m; [intros H m' Hm; by apply HQ, H|]. intros (Ho & Hv & Hk). split; [done|]. split; [done|].
  intros m1 x m' H1 Hs. eapply IH. by eapply Hk.
Qed.

Lemma wp_try {A X} t (o : op (Err + X)) e (k : X → prog (Err + A)) Q m :
  op_tenant o = t → valid_op o →
  (∀ er m1 m2 m', R m m1 → tstep o m1 (inl er) m2 → R m2 m' → Q (inl e) m') →
  (∀ x m1 m', R m m1 → tstep o m1 (inr x) m' → wp R t (k x) Q m') → wp R t (try_call o e k) Q m.
Proof.
  intros Ht Hv He Hk. split; [done|]. split; [done|]. intros m1 [er|x] m2 H1 Hs; cbn; [|by eapply Hk]. intros m' H2. by eapply He.
Qed.

(** A call that leaves the part as it is. *)
Lemma wp_read {A X} t (o : op (Err + X)) e (k : X → prog (Err + A)) (Q : Err + A → Part → Prop) m :
  op_tenant o = t → valid_op o → (∀ m1 x m', tstep o m1 x m' → m' = m1) → (∀ m', R m m' → Q (inl e) m') →
  (∀ x m1, R m m1 → tstep o m1 (inr x) m1 → wp R t (k x) Q m1) → wp R t (try_call o e k) Q m.
Proof using PreOrder0.
  intros Ht Hv Hsame He Hk. apply wp_try; [done|done| |].
  - intros er m1 m2 m' H1 Hs H2. apply Hsame in Hs as ->. apply He. by etrans.
  - intros x m1 m' H1 Hs. pose proof (Hsame _ _ _ Hs) as ->. by apply Hk.
Qed.

Lemma wp_complete t source obs out Q m :
  (∀ src, source = Some src → tenantID src = t) → (∀ r m', R m m' → r = inl ReceiptError ∨ r = inr out → Q r m') → wp R t (complete source obs out) Q m.
Proof using PreOrder0.
  intros Ht HQ. unfold complete. destruct source as [src|]; [|cbn; auto]. destruct (bool_decide _); [cbn; auto|].
  apply wp_read; [cbn; by apply Ht|done|by intros m1 x m' Hs|auto|]. intros x m1 H1 _ m' H2. apply HQ; [by etrans|by right].
Qed.

(** The outcome of placing an identified signal. *)
Definition placing (s : Signal) (m : Part) (r : Err + Outcome) (m' : Part) : Prop :=
  match r with
  | inr out => replayed out = false ∧ settled R s m out m'
  | inl _ => R m m' ∨ (∃ id, begun R s id m m') ∨ ∃ out, settled R s m out m'
  end.

Section place.
Context (t : gostring) (s : Signal) (source : option Source) (obs : gostring).
Hypothesis Hs : sg_TenantID s = t.
Hypothesis Hsrc : ∀ src, source = Some src → tenantID src = t.

Lemma complete_placing m out m' :
  replayed out = false → (∀ m'', R m' m'' → settled R s m out m'') → wp R t (complete source obs out) (placing s m) m'.
Proof using PreOrder0 Hsrc. intros Hr Hp. apply wp_complete; [done|]. intros r m'' H [-> | ->]; cbn; eauto. Qed.

Lemma open_new_wp overrides m ma mb m0 :
  R m ma → R ma mb → alone s ma mb → R mb m0 → wp R t (open_new s source obs overrides) (placing s m) m0.
Proof using PreOrder0 Hs Hsrc.
  intros H1 H2 Hu H3. assert (H03 : R m m0) by (etrans; [exact H1|]; by etrans).
  apply wp_try; [done|done| |].
  { intros er m1 m2 m' Hm1 Hm Hm'. cbn in Hm. subst m2. left. etrans; [exact H03|]. by etrans. }
  intros c mc m1 Hc (Hfresh & Ec & ->).
  set (s' := withRootCorrelationExplanation s c overrides). assert (Hev : same_event s' s) by apply root_event.
  assert (Hbegun : ∀ md, R (mc <| incs := <[ID c := c]> (incs mc) |>) md → begun R s (ID c) m md).
  { intros md Hd. exists ma, mb, mc. rewrite <- Ec. split_and!; try done. by etrans. }
  apply wp_try; [cbn; done|done| |].
  - intros er m2 m3 m' Hm2 Hm Hm'. cbn in Hm. subst m3. right. left. exists (ID c). apply Hbegun. by etrans.
  - intros u md m' Hd (inc & Hl & -> & ->). apply complete_placing; [done|]. intros m'' Hm''.
    exists md, (ID c), inc, s'. split_and!; try done. by apply Hbegun.
Qed.

Lemma excludedByOverride_spec overrides m id :
  (∀ o, o ∈ overrides ↔ ∃ k, ovs m !! k = Some o ∧ Matches o s = true) → excludedByOverride id overrides = true ↔ excluded m id s.
Proof using Type.
  intros Hov. unfold excludedByOverride. rewrite existsb_exists. split.
  - intros (o & Hin & Ho). apply list_elem_of_In, Hov in Hin as (k & Hk & Hm). apply andb_true_iff in Ho as [_ Ho]. apply bool_decide_eq_true in Ho.
    by exists k, o.
  - intros (k & o & Hk & Hm & Ho). exists o. split; [apply list_elem_of_In, Hov; by exists k|]. rewrite (bool_decide_eq_true_2 _ Ho), andb_true_r.
    unfold Matches in Hm. by destruct (Active o).
Qed.

Lemma group_wp overrides open m ma mb :
  part_ok mb → R m ma → R ma mb → (∀ o, o ∈ overrides ↔ ∃ k, ovs ma !! k = Some o ∧ Matches o s = true) →
  (∀ inc, inc ∈ open → is_open mb inc) →
  (∀ id inc, incs mb !! id = Some inc → related inc s window = true → inc ∈ open ∨ excluded ma id s ∨ crowded mb inc) →
  wp R t (group window s source obs overrides open) (placing s m) mb.
Proof using PreOrder0 Hs Hsrc.
  intros Hok Ha Hb Hov. induction open as [|inc open IH]; intros Hin Hall; cbn [group].
  { apply (open_new_wp overrides m ma mb); try done. intros id inc Hid Hr. destruct (Hall id inc Hid Hr) as [Hx|Hx]; [by apply elem_of_nil in Hx|done]. }
  destruct (Hin inc ltac:(by left)) as (id & Hid & Hopen). pose proof (Hok _ _ Hid) as Eid.
  assert (Hexcl : excludedByOverride (ID inc) overrides = true ↔ excluded ma id s).
  { rewrite Eid. by apply excludedByOverride_spec. }
  assert (Hskip : (related inc s window = true → excluded ma id s) → wp R t (group window s source obs overrides open) (placing s m) mb).
  { intros Hx. apply IH; [intros i Hi; apply Hin; by right|]. intros id' inc' Hid' Hr. destruct (Hall id' inc' Hid' Hr) as [Hi|Hi]; [|by right].
    apply elem_of_cons in Hi as [->|Hi]; [|by left]. right. left. assert (id' = id) as -> by (rewrite <- (Hok _ _ Hid'), <- Eid; done). by apply Hx. }
  destruct (excludedByOverride (ID inc) overrides) eqn:Ee; [apply Hskip; intros _; by apply Hexcl|].
  destruct (related inc s window) eqn:Er; [|by apply Hskip].
  apply wp_try; [cbn; done|done| |].
  { intros er m1 m2 m' H1 Hm H2. cbn in Hm. subst m2. left. etrans; [exact Ha|]. etrans; [exact Hb|]. by etrans. }
  intros u mc m' Hc (inc0 & Hl & -> & ->). rewrite Eid in Hl |- *. apply complete_placing; [done|]. intros m'' Hm''. cbn.
  exists ma, mb, mc, id, inc, inc0, (withCorrelationExplanation s inc window overrides). split_and!; try done; [|apply explained_event].
  intros Hx. apply Hexcl in Hx. congruence.
Qed.

Lemma load_wp m m1 : part_ok m1 → R m m1 → wp R t (load_and_group window s source obs) (placing s m) m1.
Proof using PreOrder0 R_ok Hs Hsrc.
  intros Hok H1. apply wp_read; [done|done|by intros m2 x m' [-> _]|intros m' H; left; by etrans|]. intros overrides ma Ha [_ Hov].
  apply wp_read; [done|done|by intros m2 x m' [-> _]|intros m' H; left; etrans; [exact H1|]; by etrans|]. intros open mb Hb (_ & Hnd & Hin & Hall).
  apply (group_wp overrides open m ma mb); [eapply R_ok, R_ok; done|by etrans|done|done|done|].
  intros id inc Hid Hr. destruct (Hall inc) as [Hi|Hi]; [exists id; split; [done|]; apply related_spec in Hr; tauto|by left|].
  right. right. by exists open.
Qed.

End place.

Lemma ingest_wp t s source obs m :
  sg_TenantID s = t → (∀ src, source = Some src → tenantID src = t) → part_ok m →
  wp R t (ingestWithStore caps window s source obs) (ingested R s source m) m.
Proof using PreOrder0 R_ok.
  intros Hs Hsrc Hok.
  assert (Hpl : ∀ s' m1, identified source s s' → sg_TenantID s' = t → R m m1 → wp R t (load_and_group window s' source obs) (ingested R s source m) m1).
  { intros s' m1 Hi Ht H1. eapply wp_mono; [|apply load_wp; [done|done|by eapply R_ok|exact H1]]. intros [e|out] m'; cbn [placing ingested].
    - intros [?|Hx]; [by left|]. right. by exists s'.
    - intros [-> Hx]. by exists s'. }
  assert (Hres : ∀ m1, R m m1 → wp R t (resolve caps window s source obs) (ingested R s source m) m1).
  { intros m1 H1. unfold resolve. destruct source as [src|]; [|by apply Hpl].
    assert (Hself : identified (Some src) s (s <| sg_Attempted := true |>)) by (exists (sg_ContextID s), (sg_EntityID s); done).
    destruct (hasResolver caps); [|by apply Hpl]. split; [cbn; done|]. split; [done|]. intros m2 [e|i] m' H2 Hm; cbn in Hm; subst m'; [apply Hpl; by (done || etrans)|].
    destruct (_ || _); [|apply Hpl; by (done || etrans)]. apply Hpl; [|done|by etrans]. exists (rs_ContextID i), (rs_EntityID i). done. }
  unfold ingestWithStore. destruct (bool_decide _); [by apply Hres|]. destruct source as [src|]; [|by left]. destruct (negb _); [by left|].
  apply wp_read; [cbn; done|done|by intros m1 x m' Hm|by left|]. intros [prior|] m1 H1 _; [|by apply Hres].
  intros m' H2. split; [done|by etrans].
Qed.

End logic.

(** Alone and in full sight, the general outcome is the simple one. *)
Lemma settled_alone s m out m' : (∀ inc, is_open m inc → ¬ crowded m inc) → settled eq s m out m' → placed s m out m'.
Proof.
  intros Hc. unfold settled, placed. destruct (opened out).
  - intros (md & id & inc & s' & (ma & mb & mc & <- & <- & Ha & <- & Hf & <-) & Hev & Hl & -> & <-). cbn in Hl. rewrite lookup_insert_eq in Hl. injection Hl as <-.
    split; [intros id' inc' Hi Hr; destruct (Ha id' inc' Hi Hr) as [|Hx]; [done|]; destruct (Hc inc'); [|done]; exists id'; apply related_spec in Hr; tauto|]. exists id, s'. split_and!; try done. unfold update. cbn. by rewrite insert_insert_eq.
  - intros (ma & mb & mc & id & cand & inc & s' & <- & <- & <- & Hl & Hr & Hx & Hev & Hl' & -> & <-). rewrite Hl in Hl'. injection Hl' as <-. by exists id, cand, s'.
Qed.

(** A page is full only when the tenant has more open incidents than it holds. *)
Definition fits (m : Part) : Prop := ∀ n, page = Some n → (size (filter (λ kv : gostring * Incident, Status kv.2 = StatusOpen) (incs m)) ≤ n)%nat.

Lemma fits_not_crowded m : fits m → ∀ inc, is_open m inc → ¬ crowded m inc.
Proof.
  intros Hf inc Hi (l & Hnd & Hop & Hp & Hn & _). specialize (Hf _ (eq_sym Hp)).
  assert (Hsub : inc :: l ⊆+ (map_to_list (filter (λ kv : gostring * Incident, Status kv.2 = StatusOpen) (incs m))).*2).
  { apply NoDup_submseteq; [by constructor|]. intros i Hin. assert (Ho : is_open m i) by (apply elem_of_cons in Hin as [->|Hin]; auto).
    destruct Ho as (id & Hid & Hst). apply list_elem_of_fmap. exists (id, i). split; [done|]. by apply elem_of_map_to_list, map_lookup_filter_Some. }
  apply submseteq_length in Hsub. cbn [length] in Hsub. rewrite length_fmap, length_map_to_list in Hsub. lia.
Qed.

(** ** Operators (internal/store/incidents.go)

    Resolving, reopening and reversing an override do not take the tenant's lock;
    ungrouping does.  Who did it, when and why (resolved_at, created_by, reasons) is not kept:
    correlation reads none of it. *)

Definition set_status (status id : gostring) (m : Part) : option Part :=
  match incs m !! id with
  | Some inc => Some (m <| incs := <[id := inc <| Status := status |>]> (incs m) |>)
  | None => None
  end.

Definition Resolve (id : gostring) : Part → option Part := set_status StatusResolved id.
Definition Reopen (id : gostring) : Part → option Part := set_status StatusOpen id.

(** UPDATE incident_signals SET attributes = attributes || ... WHERE id = signal *)
Definition mark (signal : gostring) (l : list (gostring * gostring)) (m : Part) : Part :=
  m <| incs := (λ inc, inc <| Signals := (λ s, if bool_decide (sg_ID s = signal) then s <| Attributes := stamp l (Attributes s) |> else s) <$> Signals inc |>)
                 <$> incs m |>.

(** [signal] is the override's source signal. *)
Definition ReverseCorrelationOverride (source override signal : gostring) (m : Part) : option Part :=
  match ovs m !! override with
  | Some o =>
      if bool_decide (SourceIncidentID o = source) && Active o
      then Some (mark signal [attr "correlation.override_state" "reversed"] (m <| ovs := <[override := o <| Active := false |>]> (ovs m) |>))
      else None
  | None => None
  end.

(** The database gives the new incident and the override their identifiers. *)
Definition CreateUngroupOverride (tenant source signal child override : gostring) (m : Part) : option Part :=
  match incs m !! source with
  | None => None
  | Some inc =>
      match List.find (λ s, bool_decide (sg_ID s = signal)) (Signals inc) with
      | None => None
      | Some s =>
          if SignalCount inc <=? 1 then None
          else if existsb (λ o, bool_decide (SourceIncidentID o = source) && bool_decide (ov_Plane o = Plane s) && bool_decide (ov_Kind o = Kind s)
                            && bool_decide (ov_Target o = sg_Target s) && bool_decide (ov_Prefix o = sg_Prefix s) && Active o
                            && Bool.eqb (ov_Attempted o) (sg_Attempted s) && bool_decide (ov_ContextID o = sg_ContextID s)
                            && bool_decide (ov_EntityID o = sg_EntityID s)) (map_to_list (ovs m)).*2 then None
          else
            let new := mkIncident child tenant StatusOpen (sg_Severity s) (sg_Title s) (sg_Target s) (sg_Prefix s) (OccurredAt s) (OccurredAt s) 0
                         (sg_ContextID s) (sg_EntityID s) (sg_Attempted s) [] in
            let o := mkOverride override tenant source (Plane s) (Kind s) (sg_Target s) (sg_Prefix s) (sg_ContextID s) (sg_EntityID s) (sg_Attempted s) true in
            let clone := s <| sg_TenantID := tenant |> <| sg_ID := [] |> <| Attributes := stamp
              [attr "correlation.state" "root"; (str "correlation.parent_incident_id", child);
               attr "correlation.reason" "operator_ungroup_override_created_independent_incident"; (str "correlation.override_id", override);
               (str "correlation.excluded_parent_incident_id", source); attr "correlation.match_confidence" "operator_decision"] (Attributes s) |> in
            Some (mark signal [(str "correlation.override_id", override); (str "correlation.detached_incident_id", child);
                               attr "correlation.override_state" "active"]
                   (m <| incs := <[child := absorb Hash clone new]> (incs m) |> <| ovs := <[override := o]> (ovs m) |>))
      end
  end.

(** What an operator may do at any moment. *)
Inductive operates (m : Part) : Part → Prop :=
| Resolves id m' : Resolve id m = Some m' → operates m m'
| Reopens id m' : Reopen id m = Some m' → operates m m'
| Reverses source override signal m' : ReverseCorrelationOverride source override signal m = Some m' → operates m m'.

(** What becomes of a part under any number of such changes: incidents may change their
    status and the correlator's remarks on their signals, overrides may be reversed, and
    nothing else changes. *)
Definition operated (inc inc' : Incident) : Prop :=
  ∃ status l, inc' = inc <| Status := status |> <| Signals := l |> ∧ Forall2 same_event l (Signals inc).

Definition reversed (o o' : CorrelationOverride) : Prop := o' = o ∨ o' = o <| Active := false |>.

Definition drift (m m' : Part) : Prop :=
  (∀ id, option_Forall2 operated (incs m !! id) (incs m' !! id)) ∧ (∀ k, option_Forall2 reversed (ovs m !! k) (ovs m' !! k)).

#[local] Instance same_event_preorder : PreOrder same_event.
Proof.
  split; [intros s; exists (Attributes s); by destruct s|]. intros s1 s2 s3 (a & -> & Ha) (b & -> & Hb). exists a. split; [done|].
  intros k Hk. rewrite Ha by done. cbn. by apply Hb.
Qed.

#[local] Instance operated_preorder : PreOrder operated.
Proof.
  split.
  - intros inc. exists (Status inc), (Signals inc). split; [by destruct inc|]. apply reflexivity.
  - intros i1 i2 i3 (st & l & -> & H1) (st' & l' & -> & H2). exists st', l'. split; [done|]. cbn in H2. by etrans.
Qed.

#[local] Instance reversed_preorder : PreOrder reversed.
Proof. split; [by left|]. unfold reversed. intros o1 o2 o3 [-> | ->] [-> | ->]; auto. Qed.

#[local] Instance drift_preorder : PreOrder drift.
Proof. split; [by intros m; split; intros; reflexivity|]. intros m1 m2 m3 [H1 H2] [H3 H4]. split; intros k; (etrans; [apply H1 || apply H2|apply H3 || apply H4]). Qed.

Lemma drift_ok m m' : drift m m' → part_ok m → part_ok m'.
Proof.
  intros [H _] Ho id inc Hi. specialize (H id). rewrite Hi in H. inversion H as [i i' (st & l & -> & _) E|]; subst. cbn. by apply Ho.
Qed.

Lemma operated_insert m id inc inc' : incs m !! id = Some inc → operated inc inc' → drift m (m <| incs := <[id := inc']> (incs m) |>).
Proof.
  intros Hi Ho. split; [|done]. intros k. cbn. destruct (decide (id = k)) as [<-|Hne]; [|by rewrite lookup_insert_ne].
  rewrite lookup_insert_eq, Hi. by constructor.
Qed.

Lemma mark_drift signal l m : (∀ kv, kv ∈ l → correlation_key kv.1 = true) → drift m (mark signal l m).
Proof.
  intros Hl. split; [|done]. intros k. cbn. rewrite lookup_fmap. destruct (incs m !! k) as [inc|]; constructor. exists (Status inc). eexists. split; [by destruct inc|].
  induction (Signals inc) as [|s sigs IH]; constructor; [|done]. destruct (bool_decide _); [by apply stamped_event|reflexivity].
Qed.

Lemma operates_drift m m' : operates m m' → drift m m'.
Proof.
  assert (Hst : ∀ st id m', set_status st id m = Some m' → drift m m').
  { unfold set_status. intros st id m0. destruct (incs m !! id) as [inc|] eqn:E; [|done]. intros [= <-]. apply (operated_insert m id inc); [done|].
    exists st, (Signals inc). split; [by destruct inc|reflexivity]. }
  intros [id m1 H|id m1 H|source override signal m1 H]; [by eapply Hst..|]. unfold ReverseCorrelationOverride in H. destruct (ovs m !! override) as [o|] eqn:E; [|done].
  destruct (_ && _); [|done]. injection H as <-. etrans; [|apply mark_drift, correlation_keys; reflexivity].
  split; [done|]. intros k. cbn. destruct (decide (override = k)) as [<-|Hne]; [|by rewrite lookup_insert_ne].
  rewrite lookup_insert_eq, E. constructor. by right.
Qed.

(** ** Concurrent ingests *)

Section system.
Context {S : Type} `{IS : IncidentStore S} (parseUUIDv4 : gostring → option gostring).

(** An ingest before it has the lock of its tenant, and under it, with the part of the
    tenant as it was when the lock was taken. *)
Inductive Thread :=
| Waiting (s : Signal) (source : option Source) (obs : gostring)
| Running (s : Signal) (source : option Source) (obs : gostring) (p : prog (Err + Outcome)) (m0 : Part).

Record Sys := mkSys { store : S; threads : gmap nat Thread; locks : gmap gostring nat; notified : list (Incident * bool) }.

(** The observer sees what was opened or grouped, not replays and errors. *)
Definition notify (r : Err + Outcome) : list (Incident * bool) :=
  match r with inr out => if replayed out then [] else [(incident out, opened out)] | inl _ => [] end.

Inductive step : Sys → Sys → Prop :=
| Arrives k now r s source obs y :
    threads y !! k = None → start caps parseUUIDv4 now r = inr (s, source, obs) →
    step y (mkSys (store y) (<[k := Waiting s source obs]> (threads y)) (locks y) (notified y))
| Locks k s source obs y :
    threads y !! k = Some (Waiting s source obs) → locks y !! sg_TenantID s = None →
    step y (mkSys (store y)
      (<[k := Running s source obs (ingestWithStore caps window s source obs) (part_of (sg_TenantID s) (store y))]> (threads y))
      (<[sg_TenantID s := k]> (locks y)) (notified y))
| Calls k s source obs X (o : op X) kk m0 x st y :
    threads y !! k = Some (Running s source obs (Call o kk) m0) → sem o (store y) x st →
    step y (mkSys st (<[k := Running s source obs (kk x) m0]> (threads y)) (locks y) (notified y))
| Returns k s source obs r m0 y :
    threads y !! k = Some (Running s source obs (Ret r) m0) →
    step y (mkSys (store y) (delete k (threads y)) (delete (sg_TenantID s) (locks y)) (notified y ++ notify r))
| RollsBack k s source obs e m0 st y :
    threads y !! k = Some (Running s source obs (Ret (inl e)) m0) → isTransactional caps = true →
    ok st → drift m0 (part_of (sg_TenantID s) st) → (∀ t, t ≠ sg_TenantID s → part_of t st = part_of t (store y)) →
    step y (mkSys st (delete k (threads y)) (delete (sg_TenantID s) (locks y)) (notified y))
| Operates t st y :
    ok st → operates (part_of t (store y)) (part_of t st) → (∀ t', t' ≠ t → part_of t' st = part_of t' (store y)) →
    step y (mkSys st (threads y) (locks y) (notified y))
| Ungroups t source signal child override st y :
    locks y !! t = None → incs (part_of t (store y)) !! child = None →
    CreateUngroupOverride t source signal child override (part_of t (store y)) = Some (part_of t st) →
    ok st → (∀ t', t' ≠ t → part_of t' st = part_of t' (store y)) →
    step y (mkSys st (threads y) (locks y) (notified y)).

Definition initial (st : S) : Sys := mkSys st ∅ ∅ [].
Definition reachable (st : S) (y : Sys) : Prop := rtc step (initial st) y.

Definition sender_ok (s : Signal) (source : option Source) : Prop := ∀ src, source = Some src → tenantID src = sg_TenantID s.

Definition thread_ok (y : Sys) (k : nat) (th : Thread) : Prop :=
  match th with
  | Waiting s source obs => sender_ok s source
  | Running s source obs p m0 =>
      locks y !! sg_TenantID s = Some k ∧ wp drift (sg_TenantID s) p (ingested drift s source m0) (part_of (sg_TenantID s) (store y))
  end.

Definition Inv (y : Sys) : Prop := ok (store y) ∧ ∀ k th, threads y !! k = Some th → thread_ok y k th.

Lemma prepare_tenant now s s' : prepare now s = inr s' → sg_TenantID s' = sg_TenantID s.
Proof.
  unfold prepare. destruct (bool_decide _); [done|]. destruct (negb _); [done|]. intros [= <-].
  destruct (bool_decide _), (IsZero _); try destruct (After _ _); done.
Qed.

Lemma start_sender now r s source obs : start caps parseUUIDv4 now r = inr (s, source, obs) → sender_ok s source.
Proof.
  unfold start. destruct (admission caps parseUUIDv4 r) as [e|[[s0 src0] obs0]] eqn:Ea; [done|].
  destruct (prepare now s0) as [e|s1] eqn:Ep; [done|]. intros [= <- <- <-]. apply prepare_tenant in Ep. intros src ->. rewrite Ep.
  assert (Hc : ∀ src s, sourceComplete src s = true → tenantID src = sg_TenantID s).
  { clear. intros src s H. unfold sourceComplete in H. rewrite !andb_true_iff, !bool_decide_eq_true in H. tauto. }
  destruct r as [s'|s' src'|s' src' o]; cbn in Ea; [done| |].
  - destruct (sourceComplete src' s') eqn:E; [|done]. injection Ea as <- <- <-. by apply Hc.
  - destruct (sourceComplete src' s') eqn:E; cbn in Ea; [|done]. destruct (parseUUIDv4 o) as [id|]; [|done].
    destruct (negb _) in Ea; [done|]. destruct (negb _) in Ea; [done|]. injection Ea as <- <- <-. cbn. by apply Hc.
Qed.

Lemma part_of_ok t st : ok st → part_ok (part_of t st).
Proof. intros Ho id inc Hid. cbn in Hid. apply map_lookup_filter_Some in Hid as [Hid _]. by eapply ok_ids. Qed.

(** A thread that runs is the only one of its tenant that does. *)
Lemma running_unique y k s source obs p m0 k' th :
  Inv y → threads y !! k = Some (Running s source obs p m0) → threads y !! k' = Some th → k' ≠ k →
  match th with Running s' _ _ _ _ => sg_TenantID s' ≠ sg_TenantID s | _ => True end.
Proof.
  intros [_ Hth] Hk Hk' Hne. destruct th as [|s' source' obs' p' m0']; [done|]. intros E.
  pose proof (Hth _ _ Hk) as [Hl _]. pose proof (Hth _ _ Hk') as [Hl' _]. rewrite E in Hl'. congruence.
Qed.

(** What keeps the other threads as they are. *)
Lemma others_ok y y' k s source obs p m0 :
  Inv y → threads y !! k = Some (Running s source obs p m0) →
  (∀ t, t ≠ sg_TenantID s → part_of t (store y') = part_of t (store y)) →
  (∀ t, t ≠ sg_TenantID s → locks y' !! t = locks y !! t) →
  ∀ k' th, threads y !! k' = Some th → k' ≠ k → thread_ok y' k' th.
Proof.
  intros HI Hk Hp Hl k' th Hk' Hne. pose proof (running_unique y k s source obs p m0 k' th HI Hk Hk' Hne) as Hu.
  destruct HI as [_ Hth]. specialize (Hth _ _ Hk'). destruct th as [|s' source' obs' p' m0']; [done|]. cbn in *. by rewrite Hp, Hl.
Qed.

(** A change to one tenant's part leaves the ingests of the other tenants as they are. *)
Lemma parts_ok y st t :
  Inv y → ok st → (∀ t', t' ≠ t → part_of t' st = part_of t' (store y)) →
  (locks y !! t = None ∨ drift (part_of t (store y)) (part_of t st)) → Inv (mkSys st (threads y) (locks y) (notified y)).
Proof.
  intros [_ Hth] Ho Hf Hd. split; [done|]. intros k th Hk. specialize (Hth _ _ Hk). destruct th as [|s source obs p m0]; [done|].
  destruct Hth as [Hl Hw]. split; [done|]. cbn [store]. destruct (decide (sg_TenantID s = t)) as [<-|Hne]; [|by rewrite Hf].
  destruct Hd as [Hn|Hd]; [congruence|]. exact (wp_drift drift _ _ _ _ _ Hd Hw).
Qed.

Lemma ingest_step_inv y y' : Inv y → step y y' → Inv y'.
Proof.
  intros HI Hstep. pose proof HI as [Hok Hth].
  destruct Hstep as [k now r s source obs y Hk Hs|k s source obs y Hk Hl|k s source obs X o kk m0 x st y Hk Hs|k s source obs r m0 y Hk
    |k s source obs e m0 st y Hk Ht Ho Hm Hf|t st y Ho Hd Hf|t source signal child override st y Hl Hfr Hu Ho Hf].
  - split; [done|]. intros k' th. cbn. rewrite lookup_insert_Some. intros [[<- <-]|[_ Hk']]; [by eapply start_sender|by apply (Hth k')].
  - pose proof (Hth _ _ Hk) as Hsrc. split; [done|]. intros k' th. cbn. rewrite lookup_insert_Some. intros [[<- <-]|[Hne Hk']].
    + cbn. split; [apply lookup_insert_eq|]. apply ingest_wp; [apply _|exact drift_ok|done|done|by apply part_of_ok].
    + specialize (Hth _ _ Hk'). destruct th as [|s' source' obs' p' m0']; [done|]. cbn in *. destruct Hth as [Hl' Hw]. split; [|done].
      rewrite lookup_insert_ne; [done|]. intros E. rewrite E in Hl. congruence.
  - pose proof (Hth _ _ Hk) as [Hlk (Ht & Hv & Hw)]. split; [by eapply sem_ok|]. intros k' th. cbn. rewrite lookup_insert_Some. intros [[<- <-]|[Hne Hk']].
    + cbn. split; [done|]. eapply Hw; [reflexivity|]. rewrite <- Ht. by apply sem_part.
    + eapply (others_ok y _ k); [done|exact Hk| |done|done|done]. cbn. intros t Hne'. rewrite <- Ht in Hne'. by apply (sem_frame _ o _ x).
  - split; [done|]. intros k' th. cbn. rewrite lookup_delete_Some. intros [Hne Hk'].
    eapply (others_ok y _ k); [done|exact Hk|done| |done|done]. cbn. intros t Hne'. by rewrite lookup_delete_ne.
  - split; [done|]. intros k' th. cbn. rewrite lookup_delete_Some. intros [Hne Hk'].
    eapply (others_ok y _ k); [done|exact Hk|done| |done|done]. cbn. intros t Hne'. by rewrite lookup_delete_ne.
  - apply (parts_ok y st t); [done|done|done|]. right. by apply operates_drift.
  - apply (parts_ok y st t); [done|done|done|by left].
Qed.

Lemma ingest_inv st y : ok st → reachable st y → Inv y.
Proof. intros Ho. revert y. apply rtc_ind_r; [split; [done|]; intros k th Hk; cbn in Hk; by rewrite lookup_empty in Hk|]. intros y z _ Hs Hy. by eapply ingest_step_inv. Qed.

(** C5. Concurrent ingests are atomic for their tenant, up to what operators do meanwhile.  In
    every interleaving of the store calls of any number of ingests with each other and with
    operators, who resolve and reopen incidents and reverse overrides without the lock and
    ungroup signals under it, an ingest that has finished has done to its tenant's incidents,
    as they were when it took the lock and as operators changed their status since, exactly
    what one ingest does: it put the event into one incident that was an open, related
    candidate no override excluded when it looked, or, only if there was no such candidate,
    opened a new incident with it, or was a replay and did nothing; an error leaves the
    incidents alone but for an incident opened or a signal stored.  A candidate is any open
    incident that a full page (200 in PostgreSQL) of incidents no less recently active does
    not keep out of sight.  And while none of a tenant's ingests holds the lock its part does
    not change but by such an operator: other tenants never touch it. *)
Theorem ingest_serializable (st : S) (y : Sys) :
  ok st → reachable st y →
  (∀ k s source obs r m0, threads y !! k = Some (Running s source obs (Ret r) m0) →
    ingested drift s source m0 r (part_of (sg_TenantID s) (store y))) ∧
  (∀ y' t, step y y' → locks y !! t = None →
    part_of t (store y') = part_of t (store y) ∨ operates (part_of t (store y)) (part_of t (store y')) ∨
    ∃ source signal child override, CreateUngroupOverride t source signal child override (part_of t (store y)) = Some (part_of t (store y'))).
Proof.
  intros Ho Hr. apply ingest_inv in Hr; [|done]. split.
  - intros k s source obs r m0 Hk. destruct (proj2 Hr _ _ Hk) as [_ Hw]. by apply Hw.
  - intros y' t Hs Hl. destruct Hr as [Hok Hth].
    assert (Hne : ∀ k s source obs p m0, threads y !! k = Some (Running s source obs p m0) → t ≠ sg_TenantID s).
    { intros k s source obs p m0 Hk ->. destruct (Hth _ _ Hk) as [Hl' _]. congruence. }
    destruct Hs as [| |k s source obs X o kk m0 x st' y Hk Hs| |k s source obs e m0 st' y Hk Ht Ho' Hm Hf|t' st' y Ho' Hd Hf
      |t' source signal child override st' y Hl' Hfr Hu Ho' Hf]; cbn; try by left.
    + left. destruct (Hth _ _ Hk) as (_ & Ht & _). apply (sem_frame _ o _ x); [done|done|]. rewrite Ht. by eapply Hne.
    + left. apply Hf. by eapply Hne.
    + destruct (decide (t = t')) as [<-|Hd']; [by right; left|left; by apply Hf].
    + destruct (decide (t = t')) as [<-|Hd']; [|left; by apply Hf]. right. right. by exists source, signal, child, override.
Qed.

(** ** Timelines in every interleaving *)

(** Programs that create fresh incidents and append signals of their own tenant only. *)
Fixpoint tame {A} (t : gostring) (p : prog A) : Prop :=
  match p with
  | Ret _ => True
  | @Call _ X o k =>
      match o with
      | Create inc => timeline_ok Hash inc
      | AppendSignal _ _ s => sg_TenantID s = t
      | _ => True
      end ∧ ∀ x, tame t (k x)
  end.

Lemma tame_complete t source obs out : tame t (complete source obs out).
Proof. unfold complete. destruct source; [|done]. destruct (bool_decide _); [done|]. split; [done|]. by intros []. Qed.

Lemma timeline_id inc id : timeline_ok Hash inc → timeline_ok Hash (inc <| ID := id |>).
Proof. intros []. by split. Qed.

Lemma tame_group t s source obs overrides open : sg_TenantID s = t → tame t (group window s source obs overrides open).
Proof.
  intros Hs. induction open as [|inc open IH]; cbn [group].
  - split; [apply (newIncident_ok Hash s [])|]. intros [|c]; [done|]. split; [done|]. intros [|u]; [done|apply tame_complete].
  - destruct (excludedByOverride _ _); [done|]. destruct (related _ _ _); [|done]. split; [done|]. intros [|u]; [done|apply tame_complete].
Qed.

Lemma tame_ingest t s source obs : sg_TenantID s = t → tame t (ingestWithStore caps window s source obs).
Proof.
  intros Hs.
  assert (Hload : ∀ s', sg_TenantID s' = t → tame t (load_and_group window s' source obs)).
  { intros s' Hs'. split; [done|]. intros [|ov]; [done|]. split; [done|]. intros [|open]; [done|by apply tame_group]. }
  assert (Hres : tame t (resolve caps window s source obs)).
  { unfold resolve. destruct source as [src|]; [|by apply Hload]. destruct (hasResolver caps); [|by apply Hload]. split; [done|].
    intros [e|i]; [by apply Hload|]. by destruct (_ || _); apply Hload. }
  unfold ingestWithStore. destruct (bool_decide _); [done|]. destruct source as [src|]; [|done]. destruct (negb _); [done|].
  split; [done|]. by intros [|[]].
Qed.

Definition timelines (st : S) : Prop := ∀ id inc, view st !! id = Some inc → timeline_ok Hash inc.

Lemma timelines_parts st : timelines st ↔ ∀ t id inc, incs (part_of t st) !! id = Some inc → timeline_ok Hash inc.
Proof.
  split.
  - intros H t id inc Hi. cbn in Hi. apply map_lookup_filter_Some in Hi as [Hi _]. by eapply H.
  - intros H id inc Hi. apply (H (TenantID inc) id). cbn. by apply map_lookup_filter_Some.
Qed.

Lemma sem_timelines X (o : op X) st x st' :
  ok st → timelines st → sem o st x st' →
  match o with Create inc => timeline_ok Hash inc | AppendSignal t _ s => sg_TenantID s = t | _ => True end → timelines st'.
Proof.
  rewrite !timelines_parts. intros Ho Ht Hs Hc t id inc Hi. destruct (decide (t = op_tenant o)) as [->|Hne].
  - pose proof (sem_part _ o _ _ _ Ho Hs) as Hp. destruct o as [t|new|t id' s|t s|src ob s|src ob id'|src s]; cbn [tstep] in Hp.
    + destruct Hp as [E _]. rewrite E in Hi. by eapply Ht.
    + destruct x as [e|c]; [rewrite Hp in Hi; by eapply Ht|]. destruct Hp as (_ & Ec & E). rewrite E in Hi. cbn in Hi.
      apply lookup_insert_Some in Hi as [[<- <-]|[_ Hi]]; [rewrite Ec; by apply timeline_id|exact (Ht (TenantID new) id inc Hi)].
    + destruct x as [e|u]; [rewrite Hp in Hi; by eapply Ht|]. destruct Hp as (inc0 & Hl & -> & E). rewrite E in Hi. cbn in Hi.
      apply lookup_insert_Some in Hi as [[<- <-]|[_ Hi]]; [|exact (Ht t id inc Hi)]. apply absorb_ok; [exact (Ht t _ inc0 Hl)|].
      cbn in Hl. apply map_lookup_filter_Some in Hl as [_ Hl]. etrans; [exact Hc|symmetry; exact Hl].
    + destruct Hp as [E _]. rewrite E in Hi. by eapply Ht.
    + rewrite Hp in Hi. by eapply Ht.
    + rewrite Hp in Hi. by eapply Ht.
    + rewrite Hp in Hi. by eapply Ht.
  - rewrite (sem_frame _ o _ x) in Hi by done. by eapply Ht.
Qed.

(** Operators change the remarks on signals, not their timeline. *)
Lemma same_event_fingerprint s' s : same_event s' s → Fingerprint Hash s' = Fingerprint Hash s.
Proof. intros (a & -> & Ha). unfold Fingerprint. by rewrite fingerprint_ext. Qed.

Lemma operated_timeline inc inc' : operated inc inc' → timeline_ok Hash inc → timeline_ok Hash inc'.
Proof.
  intros (st & l & -> & Hl) [Hc Hd Ht Hla Hst Hsev Ho].
  assert (Hfp : Fingerprint Hash <$> l = Fingerprint Hash <$> Signals inc).
  { clear -Hl. induction Hl as [|s' s l l' He _ IH]; [done|]. rewrite !fmap_cons, IH. f_equal. by apply same_event_fingerprint. }
  assert (Hin : ∀ s, s ∈ l → ∃ s0 a, s0 ∈ Signals inc ∧ s = s0 <| Attributes := a |>).
  { intros s Hs. apply list_elem_of_lookup in Hs as [i Hi]. destruct (Forall2_lookup_l _ _ _ _ _ Hl Hi) as (s0 & Hi0 & a & -> & _). exists s0, a.
    split; [by eapply list_elem_of_lookup_2|done]. }
  split; cbn; [by rewrite Hc; unfold len; rewrite <- (length_fmap (Fingerprint Hash) l), Hfp, length_fmap|by rewrite Hfp| | | | |done];
    intros s Hs; destruct (Hin s Hs) as (s0 & a & Hs0 & ->); cbn; eauto.
Qed.

Definition part_timelines (m : Part) : Prop := ∀ id inc, incs m !! id = Some inc → timeline_ok Hash inc.

Lemma drift_timelines m m' : drift m m' → part_timelines m → part_timelines m'.
Proof.
  intros [H _] Hm id inc Hi. specialize (H id). rewrite Hi in H. inversion H as [i i' Hop E|]; subst. eapply operated_timeline; [exact Hop|by eapply Hm].
Qed.

Lemma ungroup_timelines t source signal child override m m' :
  CreateUngroupOverride t source signal child override m = Some m' → part_timelines m → part_timelines m'.
Proof.
  intros H Hm. unfold CreateUngroupOverride in H. destruct (incs m !! source) as [inc|]; [|done]. destruct (List.find _ _) as [s|]; [|done].
  destruct (_ <=? _); [done|]. destruct (existsb _ _); [done|]. injection H as <-.
  eapply drift_timelines; [apply mark_drift, correlation_keys; reflexivity|]. intros id i. cbn. rewrite lookup_insert_Some. intros [[<- <-]|[_ Hi]]; [|by eapply Hm].
  apply absorb_ok; [|done]. split; cbn; try done; [by apply NoDup_nil|intros x Hx; by apply elem_of_nil in Hx..|]. times.
Qed.

(** A change of one tenant's part. *)
Lemma timelines_change t st st' :
  timelines st → (∀ t', t' ≠ t → part_of t' st' = part_of t' st) → part_timelines (part_of t st') → timelines st'.
Proof.
  rewrite !timelines_parts. intros Ht Hf Hm t' id inc Hi. destruct (decide (t' = t)) as [->|Hne]; [by eapply Hm|]. rewrite Hf in Hi by done. by eapply Ht.
Qed.

Definition TInv (y : Sys) : Prop :=
  timelines (store y) ∧ ∀ k th, threads y !! k = Some th →
    match th with
    | Waiting _ _ _ => True
    | Running s _ _ p m0 => tame (sg_TenantID s) p ∧ part_timelines m0
    end.

Lemma step_timelines y y' : Inv y → TInv y → step y y' → TInv y'.
Proof.
  intros [Hok Hth] [Ht Hp] Hstep. pose proof (proj1 (timelines_parts _) Ht) as Htp.
  destruct Hstep as [k now r s source obs y Hk Hs|k s source obs y Hk Hl|k s source obs X o kk m0 x st y Hk Hs|k s source obs r m0 y Hk
    |k s source obs e m0 st y Hk Htx Ho Hm Hf|t st y Ho Hd Hf|t source signal child override st y Hl Hfr Hu Ho Hf].
  - split; [done|]. intros k' th. cbn. rewrite lookup_insert_Some. intros [[<- <-]|[_ Hk']]; [done|by apply (Hp k')].
  - split; [done|]. intros k' th. cbn. rewrite lookup_insert_Some. intros [[<- <-]|[_ Hk']]; [|by apply (Hp k')].
    split; [by apply tame_ingest|]. exact (Htp _).
  - destruct (Hp _ _ Hk) as [[Ho Hk2] Hm0]. destruct (Hth _ _ Hk) as (_ & Htn & _). split.
    + apply (sem_timelines X o (store y) x st); [done|done|done|]. destruct o; try done. cbn in Htn. by rewrite Ho, Htn.
    + intros k' th. cbn. rewrite lookup_insert_Some. intros [[<- <-]|[_ Hk']]; [by split|by apply (Hp k')].
  - split; [done|]. intros k' th. cbn. rewrite lookup_delete_Some. intros [_ Hk']. by apply (Hp k').
  - split.
    + apply (timelines_change (sg_TenantID s) (store y)); [done|done|]. destruct (Hp _ _ Hk) as [_ Hm0]. by eapply drift_timelines.
    + intros k' th. cbn. rewrite lookup_delete_Some. intros [_ Hk']. by apply (Hp k').
  - split; [|done]. apply (timelines_change t (store y)); [done|done|]. eapply drift_timelines; [by apply operates_drift|exact (Htp t)].
  - split; [|done]. apply (timelines_change t (store y)); [done|done|]. eapply ungroup_timelines; [exact Hu|exact (Htp t)].
Qed.

(** C12. Timelines stay consistent.  In every interleaving of ingests with each other and with
    the operators' changes every incident counts its
    signals exactly, holds no event twice, holds signals of its own tenant only, and its
    start, last activity and severity bound those of its signals. *)
Theorem timelines_consistent (st : S) (y : Sys) :
  ok st → timelines st → reachable st y → ∀ id inc, view (store y) !! id = Some inc → timeline_ok Hash inc.
Proof.
  intros Ho Ht Hr. assert (H : Inv y ∧ TInv y); [|by destruct H as [_ [H _]]]. revert y Hr. apply rtc_ind_r.
  - split; [|split; [done|]]; [split; [done|]|]; intros k th Hk; cbn in Hk; by rewrite lookup_empty in Hk.
  - intros y z _ Hs [HI HT]. split; [by eapply ingest_step_inv|by eapply step_timelines].
Qed.

(** ** One ingest after the other *)

Inductive runs {A} : prog A → S → A → S → Prop :=
| RunRet a st : runs (Ret a) st a st
| RunCall X (o : op X) k st x st' a st'' : sem o st x st' → runs (k x) st' a st'' → runs (Call o k) st a st''.

Lemma runs_wp {A} t (p : prog A) Q st a st' :
  ok st → wp eq t p Q (part_of t st) → runs p st a st' → Q a (part_of t st') ∧ ok st' ∧ ∀ t', t' ≠ t → part_of t' st' = part_of t' st.
Proof.
  intros Ho Hw Hr. induction Hr as [a st|X o k st x st' a st'' Hs Hr IH]; [split_and!; [by apply Hw|done|done]|]. destruct Hw as (Ht & Hv & Hk).
  destruct IH as (HQ & Hok & Hf); [by eapply sem_ok|eapply Hk; [done|]; rewrite <- Ht; by apply sem_part|]. split_and!; [done|done|].
  intros t' Hne. rewrite Hf by done. apply (sem_frame _ o _ x); [done|done|]. by rewrite Ht.
Qed.

(** A plain signal, alone and with every open incident in sight. *)
Lemma plain_placed s st out st' :
  ok st → fits (part_of (sg_TenantID s) st) → runs (ingestWithStore caps window s None []) st (inr out) st' →
  placed s (part_of (sg_TenantID s) st) out (part_of (sg_TenantID s) st') ∧ ok st' ∧ ∀ t, t ≠ sg_TenantID s → part_of t st' = part_of t st.
Proof.
  intros Ho Hf Hr. assert (Hokp : ∀ m m' : Part, m = m' → part_ok m → part_ok m') by (by intros m m' ->).
  destruct (runs_wp (sg_TenantID s) _ _ _ _ _ Ho (ingest_wp eq Hokp _ s None [] _ eq_refl ltac:(done) (part_of_ok _ st Ho)) Hr) as (Hi & Hok & Hfr).
  split; [|done]. cbn in Hi. destruct (replayed out); [by destruct Hi|]. destruct Hi as (s' & -> & Hp).
  apply settled_alone; [by apply fits_not_crowded|done].
Qed.

(** One more incident is at most one more open one. *)
Lemma open_insert (m : gmap gostring Incident) id inc n :
  (size (filter (λ kv : gostring * Incident, Status kv.2 = StatusOpen) m) < n)%nat →
  (size (filter (λ kv : gostring * Incident, Status kv.2 = StatusOpen) (<[id := inc]> m)) ≤ n)%nat.
Proof.
  intros Hn. set (P := λ kv : gostring * Incident, Status kv.2 = StatusOpen) in *.
  trans (size (<[id := inc]> (filter P m))); [apply map_subseteq_size|rewrite map_size_insert; destruct (filter P m !! id); cbn [Datatypes.id]; unfold Datatypes.id; lia].
  apply map_subseteq_spec. intros k i [Hi HP]%map_lookup_filter_Some. destruct (decide (id = k)) as [<-|Hne].
  - rewrite lookup_insert_eq in Hi |- *. done.
  - rewrite lookup_insert_ne in Hi |- * by done. by apply map_lookup_filter_Some.
Qed.

Lemma absorb_again s1 s2 s inc :
  same_event s1 s → same_event s2 s → absorb Hash s2 (absorb Hash s1 inc) = absorb Hash s1 inc.
Proof.
  intros (a1 & -> & H1) (a2 & -> & H2).
  assert (E : Fingerprint Hash (s <| Attributes := a2 |>) = Fingerprint Hash (s <| Attributes := a1 |>)).
  { unfold Fingerprint. by rewrite !fingerprint_ext. }
  unfold absorb at 1. rewrite bool_decide_eq_true_2; [done|]. rewrite E. unfold absorb.
  destruct (bool_decide_reflect (Fingerprint Hash (s <| Attributes := a1 |>) ∈ Fingerprint Hash <$> Signals inc)); [done|].
  change (Signals (extended _ inc)) with (Signals inc ++ [s <| Attributes := a1 |>]). rewrite fmap_app. apply elem_of_app. right. by left.
Qed.

(** An incident is related to the signal that opened it. *)
Lemma opened_related s s' id :
  same_event s' s → sg_Attempted s = false →
  Before (OccurredAt s) (GoTime.Add (OccurredAt s) (- window)) = false → After (OccurredAt s) (GoTime.Add (OccurredAt s) window) = false →
  sg_Target s ≠ [] ∨ is_Some (ParsePrefix (sg_Prefix s)) →
  related (absorb Hash s' ((newIncident s) <| ID := id |>)) s window = true.
Proof.
  intros (a & -> & _) Ha Hb Hf Hk. unfold absorb. rewrite bool_decide_eq_false_2 by (cbn; apply not_elem_of_nil).
  apply related_spec. cbn. assert (After (OccurredAt s) (OccurredAt s) = false) as -> by (unfold After; times).
  assert (Before (OccurredAt s) (OccurredAt s) = false) as -> by times. split_and!; try done. right. split_and!; try done.
  unfold shares, CorrelationKey. destruct (bool_decide_reflect (sg_Target s = [])) as [E|E]; [|by left].
  destruct Hk as [Hk|[p Hp]]; [done|]. right. right. right. exists p, p, (base p). destruct (ParsePrefix_valid _ _ Hp) as [Hb' Hv].
  assert (Contains p (base p) = true) by by apply Contains_base. done.
Qed.

Lemma Before_nanos t u : time_wf t → time_wf u → Before t u = true ↔ nanos t < nanos u.
Proof. intros [_ H1] [_ H2]. rewrite Before_spec. unfold nanos. lia. Qed.

Lemma self_window t : time_wf t → - 2 ^ 62 ≤ t_sec t < 2 ^ 62 → 0 ≤ window < 2 ^ 63 →
  Before t (GoTime.Add t (- window)) = false ∧ After t (GoTime.Add t window) = false.
Proof.
  intros Ht Hr Hw. unfold After. rewrite <- !not_true_iff_false, !Before_nanos by (try apply Add_wf; done). rewrite !Add_nanos by (done || lia). lia.
Qed.

(** C6. Re-delivery is harmless for a signal with a usable key: when a signal that was not sent
    for an identity lookup, as Ingest has prepared it, and whose target is not empty or whose
    prefix parses, opened an incident, and is then ingested again, nothing is opened: it is
    recognised in that incident, which stays as it is.  This is while the tenant has fewer open
    incidents than the store's page of candidates, its overrides name existing incidents, and
    the time and the window are in range (times within 2^62 seconds, a window that is not
    negative).  A prefix-only signal that does not parse opens an incident each time
    (unparseable_prefix_never_groups). *)
Theorem redelivery_idempotent (st st1 st2 : S) (s : Signal) (out out2 : Outcome) :
  ok st → (∀ k o, overrides st !! k = Some o → ∃ inc, view st !! SourceIncidentID o = Some inc ∧ TenantID inc = ov_TenantID o) →
  (∀ n, page = Some n → (size (filter (λ kv : gostring * Incident, Status kv.2 = StatusOpen) (incs (part_of (sg_TenantID s) st))) < n)%nat) →
  sg_Attempted s = false → sg_Target s ≠ [] ∨ is_Some (ParsePrefix (sg_Prefix s)) →
  time_wf (OccurredAt s) → - 2 ^ 62 ≤ t_sec (OccurredAt s) < 2 ^ 62 → 0 ≤ window < 2 ^ 63 →
  runs (ingestWithStore caps window s None []) st (inr out) st1 → opened out = true →
  runs (ingestWithStore caps window s None []) st1 (inr out2) st2 →
  opened out2 = false ∧ incident out2 = incident out ∧ part_of (sg_TenantID s) st2 = part_of (sg_TenantID s) st1.
Proof.
  intros Ho Hov Hroom Ha Hk Hwf Hr Hw R1 Hop R2. destruct (self_window _ Hwf Hr Hw) as [W1 W2]. set (t := sg_TenantID s).
  assert (Hfit : fits (part_of t st)) by (intros n Hn; specialize (Hroom n Hn); unfold t; lia).
  destruct (plain_placed _ _ _ _ Ho Hfit R1) as (Hp1 & Ho1 & _). fold t in Hp1. unfold placed in Hp1. rewrite Hop in Hp1.
  destruct Hp1 as (Hun & id & s1 & Hfresh & Hev1 & Einc & E1).
  assert (Hfit1 : fits (part_of t st1)).
  { intros n Hn. specialize (Hroom n Hn). rewrite E1. cbn [incs]. by apply open_insert. }
  destruct (plain_placed _ _ _ _ Ho1 Hfit1 R2) as (Hp2 & _ & _). fold t in Hp2.
  pose proof (opened_related s s1 id Hev1 Ha W1 W2 Hk) as Hself. rewrite <- Einc in Hself.
  assert (Hnot : ∀ id', excluded (part_of t st1) id' s ↔ excluded (part_of t st) id' s) by (intros id'; unfold excluded; by rewrite E1).
  assert (Hnew : ¬ excluded (part_of t st1) id s).
  { rewrite Hnot. intros (k & o & Hko & Hm & <-). cbn in Hko. apply map_lookup_filter_Some in Hko as [Hko Hto]. cbn in Hto.
    destruct (Hov k o Hko) as (inc & Hi & Hti). cbn in Hfresh. rewrite (map_lookup_filter_Some_2 _ _ _ _ Hi) in Hfresh; [done|]. cbn. congruence. }
  assert (Hlook : incs (part_of t st1) !! id = Some (incident out)) by (rewrite E1; apply lookup_insert_eq).
  unfold placed in Hp2. destruct (opened out2).
  { destruct Hp2 as [Hu _]. destruct Hnew. by apply (Hu id (incident out)). }
  destruct Hp2 as (id2 & inc2 & s2 & Hl2 & Hr2 & Hx2 & Hev2 & Ei2 & E2).
  assert (id2 = id) as ->.
  { destruct (decide (id2 = id)) as [|Hne]; [done|]. destruct Hx2. rewrite Hnot. rewrite E1 in Hl2. cbn in Hl2. rewrite lookup_insert_ne in Hl2 by done.
    by apply (Hun id2 inc2). }
  rewrite Hlook in Hl2. injection Hl2 as <-. split; [done|].
  assert (incident out2 = incident out) as E by (rewrite Ei2, Einc; by apply (absorb_again s1 s2 s)). split; [done|].
  rewrite E2, E. destruct (part_of t st1) as [i v]. cbn in *. unfold update. cbn. by rewrite insert_id.
Qed.

End system.
End specification.

(** ** Pages of candidates *)

Lemma NoDup_values (m : gmap gostring Incident) : (∀ id inc, m !! id = Some inc → ID inc = id) → NoDup (map_to_list m).*2.
Proof.
  intros H. apply (NoDup_fmap_1 ID). replace (ID <$> (map_to_list m).*2) with (map_to_list m).*1; [apply NoDup_fst_map_to_list|].
  rewrite <- list_fmap_compose. apply list_fmap_ext. intros i [id inc] Hi. symmetry. apply H, elem_of_map_to_list. by eapply list_elem_of_lookup_2.
Qed.

(** SELECT ... FROM incidents WHERE status = 'open' ORDER BY last_seen_at DESC LIMIT 200 *)
Definition pg_limit : nat := 200.
Definition later_seen (a b : Incident) : Prop := Before (LastSeenAt a) (LastSeenAt b) = false.

#[local] Instance later_seen_dec a b : Decision (later_seen a b).
Proof. unfold later_seen. apply _. Defined.
#[local] Instance later_seen_total : Total later_seen.
Proof. intros a b. unfold later_seen. destruct (Before (LastSeenAt a) (LastSeenAt b)) eqn:E; [right|by left]. times. Qed.
#[local] Instance later_seen_trans : Transitive later_seen.
Proof. unfold later_seen. intros a b c H1 H2. times. Qed.

Definition pg_OpenIncidents (m : Part) : list Incident :=
  take pg_limit (merge_sort later_seen (List.filter (λ inc, bool_decide (Status inc = StatusOpen)) (map_to_list (incs m)).*2)).

(** The page that query reads is one a store may answer with. *)
Lemma pg_page (m : Part) : part_ok m → listed (Some pg_limit) m (pg_OpenIncidents m).
Proof.
  intros Hok. set (l := List.filter (λ inc, bool_decide (Status inc = StatusOpen)) (map_to_list (incs m)).*2).
  assert (Hl : ∀ inc, inc ∈ merge_sort later_seen l ↔ is_open m inc).
  { intros inc. rewrite merge_sort_Permutation. unfold l, is_open. rewrite list_elem_of_In, filter_In, <- list_elem_of_In, list_elem_of_fmap, bool_decide_eq_true. split.
    - intros [([id y] & -> & Hin) Hf]. apply elem_of_map_to_list in Hin. by exists id.
    - intros (id & Hid & Hf). split; [|done]. exists (id, inc). split; [done|]. by apply elem_of_map_to_list. }
  assert (Hnd : NoDup (merge_sort later_seen l)).
  { rewrite merge_sort_Permutation. apply NoDup_ListNoDup, List.NoDup_filter, NoDup_ListNoDup, NoDup_values, Hok. }
  assert (Hs : StronglySorted later_seen (merge_sort later_seen l)) by (apply StronglySorted_merge_sort; apply _).
  unfold pg_OpenIncidents. fold l. rewrite <- (take_drop pg_limit (merge_sort later_seen l)) in Hl, Hnd, Hs.
  set (hd := take pg_limit _) in *. set (tl := drop pg_limit _) in *. apply NoDup_app in Hnd as (Hn1 & Hn2 & _). apply StronglySorted_app in Hs as (Hs1 & _ & _).
  split_and!; [done|intros inc Hi; apply Hl, elem_of_app; by left|]. intros inc [Hi|Hi]%Hl%elem_of_app; [by left|]. right. split_and!.
  - unfold hd. rewrite length_take. assert (0 < length tl)%nat as Hlt by (destruct tl; [by apply elem_of_nil in Hi|cbn; lia]).
    unfold tl in Hlt. rewrite length_drop in Hlt. f_equal. lia.
  - intros Hx. by apply (Hn2 inc).
  - intros o Ho. by apply (Hs1 o inc).
Qed.

(** ** The in-memory store *)

Module Memory.

Record MemoryStore := mkStore {
  seq : Z; incidents : gmap gostring Incident; m_overrides : gmap gostring CorrelationOverride; seen : gmap gostring (gset gostring) }.

#[export] Instance MemoryStore_eta : Eta MemoryStore := λ m, mkStore (seq m) (incidents m) (m_overrides m) (seen m).

Definition NewMemoryStore : MemoryStore := mkStore 0 ∅ ∅ ∅.

Definition putCorrelationOverride (o : CorrelationOverride) (m : MemoryStore) : MemoryStore := m <| m_overrides := <[ov_ID o := o]> (m_overrides m) |>.

(** fmt.Sprintf("inc-%d", n) *)
Definition incidentID (n : Z) : gostring := str "inc-" ++ dec n.

Section memory.
Context (Hash : list byte → list byte).
(** The order in which a map is ranged over, and sort.Slice by last activity. *)
Context (rangeOverrides : list CorrelationOverride → list CorrelationOverride) (sortByLastSeen : list Incident → list Incident).

Definition m_OpenIncidents (tenant : gostring) (m : MemoryStore) : list Incident :=
  sortByLastSeen (List.filter (λ inc, bool_decide (TenantID inc = tenant) && bool_decide (Status inc = StatusOpen)) (map_to_list (incidents m)).*2).

Definition m_Create (inc : Incident) (m : MemoryStore) : Incident * MemoryStore :=
  let n := seq m + 1 in
  let cp := inc <| ID := incidentID n |> in
  (cp, m <| seq := n |> <| incidents := <[ID cp := cp]> (incidents m) |>).

Definition m_AppendSignal (tenant id : gostring) (s : Signal) (m : MemoryStore) : (Err + Incident) * MemoryStore :=
  match incidents m !! id with
  | None => (inl NotFound, m)
  | Some inc =>
      if negb (bool_decide (TenantID inc = tenant)) then (inl NotFound, m)
      else
        let fp := Fingerprint Hash s in
        let fps := default ∅ (seen m !! id) in
        if bool_decide (fp ∈ fps) then (inr inc, m)
        else
          let inc := extended s inc in
          (inr inc, m <| seen := <[id := {[fp]} ∪ fps]> (seen m) |> <| incidents := <[id := inc]> (incidents m) |>)
  end.

Definition m_ActiveCorrelationOverrides (tenant : gostring) (s : Signal) (m : MemoryStore) : list CorrelationOverride :=
  rangeOverrides (List.filter (λ o, bool_decide (ov_TenantID o = tenant) && Matches o s) (map_to_list (m_overrides m)).*2).

(** It implements none of the optional interfaces. *)
Definition memory_caps : Caps := mkCaps false false false.

Definition memory_step {X} (o : op X) : MemoryStore → X * MemoryStore :=
  match o in op X return MemoryStore → X * MemoryStore with
  | OpenIncidents t => λ m, (inr (m_OpenIncidents t m), m)
  | Create inc => λ m, let '(c, m) := m_Create inc m in (inr c, m)
  | AppendSignal t id s => m_AppendSignal t id s
  | ActiveCorrelationOverrides t s => λ m, (inr (m_ActiveCorrelationOverrides t s m), m)
  | ClaimFaultReceipt _ _ _ => λ m, (inl StoreError, m)
  | CompleteFaultReceipt _ _ _ => λ m, (inl StoreError, m)
  | ResolveSignalIdentity _ _ => λ m, (inl StoreError, m)
  end.

(** Running a program on the store. *)
Fixpoint run {A} (p : prog A) (m : MemoryStore) : A * MemoryStore :=
  match p with
  | Ret a => (a, m)
  | Call o k => let '(x, m) := memory_step o m in run (k x) m
  end.

Definition numbered (m : MemoryStore) (id : gostring) : Prop := ∃ n, 1 ≤ n ≤ seq m ∧ id = incidentID n.

Record memory_ok (m : MemoryStore) : Prop := {
  mo_seq : 0 ≤ seq m < 2 ^ 63;
  mo_id : ∀ id inc, incidents m !! id = Some inc → ID inc = id ∧ numbered m id;
  mo_seen : ∀ id, default ∅ (seen m !! id) = list_to_set (Fingerprint Hash <$> from_option Signals [] (incidents m !! id)) }.

(** A step of the store, while it has created fewer than 2^63 incidents. *)
Definition memory_sem {X} (o : op X) (m : MemoryStore) (x : X) (m' : MemoryStore) : Prop := seq m + 1 < 2 ^ 63 ∧ memory_step o m = (x, m').

Lemma incidentID_inj n k : 0 ≤ n < 2 ^ 63 → 0 ≤ k < 2 ^ 63 → incidentID n = incidentID k → n = k.
Proof. intros Hn Hk E. apply app_inv_head in E. apply (f_equal Atoi) in E. rewrite !Atoi_dec in E by done. congruence. Qed.

Lemma create_fresh m : memory_ok m → seq m + 1 < 2 ^ 63 → incidents m !! incidentID (seq m + 1) = None.
Proof.
  intros [Hs Hi _] Hb. destruct (incidents m !! _) as [inc|] eqn:E; [|done]. destruct (Hi _ _ E) as [_ (n & Hn & En)].
  apply incidentID_inj in En; lia.
Qed.

Lemma memory_create inc m : memory_ok m → seq m + 1 < 2 ^ 63 → Signals inc = [] → memory_ok (m_Create inc m).2.
Proof.
  intros Hok Hb Hs. pose proof (create_fresh m Hok Hb) as Hf. destruct Hok as [Hseq Hi Hseen]. split; cbn.
  - lia.
  - intros id i. rewrite lookup_insert_Some. intros [[<- <-]|[_ Hl]]; [split; [done|]; exists (seq m + 1); split; [cbn; lia|done]|].
    destruct (Hi _ _ Hl) as [? (n & ? & ?)]. split; [done|]. exists n. cbn. split; [lia|done].
  - intros id. rewrite Hseen. destruct (decide (incidentID (seq m + 1) = id)) as [<-|Hne]; [|by rewrite lookup_insert_ne].
    rewrite lookup_insert_eq, Hf. cbn. by rewrite Hs.
Qed.

Lemma memory_append t id s m : memory_ok m → memory_ok (m_AppendSignal t id s m).2.
Proof.
  intros Hok. unfold m_AppendSignal. destruct (incidents m !! id) as [inc|] eqn:E; [|done]. destruct (negb _); [done|]. destruct (bool_decide _); [done|].
  destruct Hok as [Hseq Hi Hseen]. split; cbn; [done| |].
  - intros id' i. rewrite lookup_insert_Some. intros [[<- <-]|[_ Hl]]; [exact (Hi _ _ E)|exact (Hi _ _ Hl)].
  - intros id'. destruct (decide (id = id')) as [<-|Hne]; [|by rewrite !lookup_insert_ne].
    rewrite !lookup_insert_eq. cbn. rewrite (Hseen id), E. cbn. change (Signals (extended s inc)) with (Signals inc ++ [s]).
    rewrite fmap_app, list_to_set_app_L. cbn. set_solver.
Qed.

(** Appending is [absorb]: the set of fingerprints is the timeline's. *)
Lemma append_absorbs t id s m inc :
  memory_ok m → incidents m !! id = Some inc → TenantID inc = t →
  m_AppendSignal t id s m = (inr (absorb Hash s inc), (m_AppendSignal t id s m).2) ∧
  incidents (m_AppendSignal t id s m).2 = <[id := absorb Hash s inc]> (incidents m) ∧ m_overrides (m_AppendSignal t id s m).2 = m_overrides m.
Proof.
  intros Hok E Ht. unfold m_AppendSignal, absorb. rewrite E, (bool_decide_eq_true_2 _ Ht). cbn [negb]. rewrite (mo_seen m Hok), E. cbn [from_option].
  assert (Hd : bool_decide (Fingerprint Hash s ∈ (list_to_set (Fingerprint Hash <$> Signals inc) : gset gostring)) =
    bool_decide (Fingerprint Hash s ∈ Fingerprint Hash <$> Signals inc)) by (apply bool_decide_ext, elem_of_list_to_set).
  rewrite Hd. clear Hd. destruct (bool_decide _); split_and!; try done. cbn. by rewrite insert_id.
Qed.

(** ** It keeps the store's promise *)

Hypothesis range_perm : ∀ l, rangeOverrides l ≡ₚ l.
Hypothesis sort_perm : ∀ l, sortByLastSeen l ≡ₚ l.

Abbreviation m_part := (λ t m, mkPart (filter (λ kv, TenantID kv.2 = t) (incidents m)) (filter (λ kv, ov_TenantID kv.2 = t) (m_overrides m))).

Lemma memory_sem_ok X (o : op X) m x m' : memory_ok m → valid_op o → memory_sem o m x m' → memory_ok m'.
Proof.
  intros Hok Hv [Hb Hs]. destruct o as [t|inc|t id s|t s|src ob s|src ob id|src s]; cbn in Hs; simplify_eq; try done.
  - by apply (memory_create inc m).
  - replace m' with (m_AppendSignal t id s m).2 by (by rewrite Hs). by apply memory_append.
Qed.

Lemma elem_filter_values {A} (f : A → bool) (m : gmap gostring A) x :
  x ∈ List.filter f (map_to_list m).*2 ↔ ∃ id, m !! id = Some x ∧ f x = true.
Proof.
  rewrite list_elem_of_In, filter_In, <- list_elem_of_In, list_elem_of_fmap. split.
  - intros [([id y] & -> & Hin) Hf]. apply elem_of_map_to_list in Hin. by exists id.
  - intros (id & Hid & Hf). split; [|done]. exists (id, x). split; [done|]. by apply elem_of_map_to_list.
Qed.

Lemma memory_sem_part X (o : op X) m x m' : memory_ok m → memory_sem o m x m' → tstep Hash None o (m_part (op_tenant o) m) x (m_part (op_tenant o) m').
Proof.
  intros Hok [Hb Hs]. destruct o as [t|inc|t id s|t s|src ob s|src ob id|src s]; cbn [memory_step tstep op_tenant] in *.
  - injection Hs as <- <-. split; [done|]. unfold m_OpenIncidents. split_and!.
    + rewrite sort_perm. apply NoDup_ListNoDup, List.NoDup_filter, NoDup_ListNoDup, NoDup_values. intros id inc Hi. by destruct (mo_id m Hok id inc Hi).
    + intros inc. rewrite sort_perm, elem_filter_values. intros (k & Hk & [H1%bool_decide_eq_true H2%bool_decide_eq_true]%andb_true_iff). exists k.
      cbn [incs]. by rewrite map_lookup_filter_Some.
    + intros inc (k & [Hk Hto]%map_lookup_filter_Some & Hm). left. rewrite sort_perm, elem_filter_values. exists k. split; [done|]. by rewrite !bool_decide_eq_true_2.
  - pose proof (create_fresh m Hok Hb) as Hf. cbn in Hs. injection Hs as <- <-. cbn. split_and!; [|done|].
    + apply map_lookup_filter_None. left. done.
    + unfold update. cbn. f_equal. by rewrite map_filter_insert_True.
  - destruct (incidents m !! id) as [inc|] eqn:E; [|unfold m_AppendSignal in Hs; rewrite E in Hs; by injection Hs as <- <-].
    destruct (decide (TenantID inc = t)) as [Ht|Ht].
    2: { unfold m_AppendSignal in Hs. rewrite E, bool_decide_eq_false_2 in Hs by done. by injection Hs as <- <-. }
    destruct (append_absorbs t id s m inc Hok E Ht) as (E1 & E2 & E3). rewrite E1 in Hs. injection Hs as <- <-.
    exists inc. split_and!; [by apply map_lookup_filter_Some|done|]. rewrite E2, E3. unfold update. cbn. f_equal.
    rewrite map_filter_insert_True; [done|]. cbn. unfold absorb. by destruct (bool_decide _).
  - injection Hs as <- <-. split; [done|]. intros o. unfold m_ActiveCorrelationOverrides. rewrite range_perm, elem_filter_values. cbn [ovs]. split.
    + intros (k & Hk & [H1%bool_decide_eq_true H2]%andb_true_iff). exists k. by rewrite map_lookup_filter_Some.
    + intros (k & [Hk Hto]%map_lookup_filter_Some & Hm). exists k. split; [done|]. by rewrite bool_decide_eq_true_2.
  - by injection Hs as <- <-.
  - by injection Hs as <- <-.
  - by injection Hs as <- <-.
Qed.

Lemma memory_sem_frame X (o : op X) m x m' t : memory_ok m → memory_sem o m x m' → t ≠ op_tenant o → m_part t m' = m_part t m.
Proof.
  intros Hok [Hb Hs] Ht. destruct o as [t0|inc|t0 id s|t0 s|src ob s|src ob id|src s]; cbn [memory_step op_tenant] in *; try (by injection Hs as <- <-).
  - pose proof (create_fresh m Hok Hb) as Hf. cbn in Hs. injection Hs as <- <-. cbn. f_equal. rewrite map_filter_insert_False by done.
    by rewrite delete_id.
  - destruct (incidents m !! id) as [inc|] eqn:E; [|unfold m_AppendSignal in Hs; rewrite E in Hs; by injection Hs as <- <-].
    destruct (decide (TenantID inc = t0)) as [Ht0|Ht0].
    2: { unfold m_AppendSignal in Hs. rewrite E, bool_decide_eq_false_2 in Hs by done. by injection Hs as <- <-. }
    destruct (append_absorbs t0 id s m inc Hok E Ht0) as (E1 & E2 & E3). rewrite E1 in Hs. injection Hs as <- <-. rewrite E2, E3. f_equal.
    rewrite map_filter_insert_False by (cbn; unfold absorb; destruct (bool_decide _); cbn; congruence).
    rewrite map_filter_delete, delete_id; [done|]. apply map_lookup_filter_None. right. intros i Hi. cbn. congruence.
Qed.

#[export] Instance memory_store : IncidentStore Hash None MemoryStore := {|
  sem X o m x m' := memory_sem o m x m';
  view := incidents;
  overrides := m_overrides;
  ok := memory_ok;
  sem_ok := memory_sem_ok;
  sem_part := memory_sem_part;
  sem_frame := memory_sem_frame;
  ok_ids m id inc H Hi := proj1 (mo_id m H id inc Hi) |}.

(** ** Ingests into the in-memory store *)

Section ingest.
Context (window : Z).

Lemma run_append m t id s inc (A : Type) e (k : Incident → prog (Err + A)) :
  memory_ok m → incidents m !! id = Some inc → TenantID inc = t →
  run (try_call (AppendSignal t id s) e k) m = run (k (absorb Hash s inc)) (m_AppendSignal t id s m).2.
Proof.
  intros Hok E Ht. destruct (append_absorbs t id s m inc Hok E Ht) as (E1 & _ & _). unfold try_call. cbn [run memory_step].
  destruct (m_AppendSignal t id s m) as [x m']. cbn in E1. injection E1 as ->. done.
Qed.

Lemma append_seq t id s m : seq (m_AppendSignal t id s m).2 = seq m.
Proof. unfold m_AppendSignal. destruct (incidents m !! id); [|done]. destruct (negb _); [done|]. by destruct (bool_decide _). Qed.

Lemma group_runs s overrides open m :
  memory_ok m → seq m + 1 < 2 ^ 63 →
  (∀ inc, inc ∈ open → incidents m !! ID inc = Some inc ∧ TenantID inc = sg_TenantID s) →
  ∃ out m', run (group window s None [] overrides open) m = (inr out, m') ∧ seq m' ≤ seq m + 1.
Proof.
  intros Hok Hb. induction open as [|inc open IH]; intros Hin; cbn [group].
  - unfold open_new, try_call at 1. cbn [run memory_step]. destruct (m_Create (newIncident s) m) as [c m'] eqn:Ec.
    assert (Hok' : memory_ok m') by (replace m' with (m_Create (newIncident s) m).2 by (by rewrite Ec); by apply memory_create).
    unfold m_Create in Ec. injection Ec as <- <-. cbn [run].
    erewrite run_append; [|exact Hok'|apply lookup_insert_eq|done]. cbn [complete run]. do 2 eexists. split; [done|].
    rewrite append_seq. cbn. lia.
  - specialize (IH ltac:(intros i Hi; apply Hin; by right)). destruct (excludedByOverride _ _); [done|]. destruct (related _ _ _); [|done].
    destruct (Hin inc ltac:(by left)) as [Hi Ht]. rewrite (run_append m _ _ _ inc) by done. cbn [complete run]. do 2 eexists. split; [done|].
    rewrite append_seq. lia.
Qed.

Lemma runs_run {A} (p : prog A) m a m' : memory_ok m → seq m' + 1 < 2 ^ 63 → run p m = (a, m') → runs Hash None p m a m'.
Proof.
  intros _ Hb. assert (Hm : ∀ X (o : op X) m, seq m ≤ seq (memory_step o m).2).
  { intros X o m0. destruct o; cbn; try lia. unfold m_AppendSignal. destruct (incidents m0 !! _); [|done]. destruct (negb _); [done|]. by destruct (bool_decide _). }
  assert (Hr : ∀ p m, seq m ≤ seq (run p m : A * _).2).
  { clear p m a m' Hb. intros p. induction p as [a|X o k IH]; intros m; cbn; [done|]. specialize (Hm X o m). destruct (memory_step o m) as [x m1]. cbn in *.
    specialize (IH x m1). lia. }
  revert m. induction p as [a'|X o k IH]; intros m E; cbn in E; [injection E as <- <-; constructor|]. pose proof (Hm X o m) as Hm'.
  destruct (memory_step o m) as [x m1] eqn:Eo. cbn in Hm'. pose proof (Hr (k x) m1) as Hr'. rewrite E in Hr'. cbn in Hr'.
  econstructor; [|by apply IH]. split; [lia|exact Eo].
Qed.

(** C13. Into the in-memory store every plain signal with a tenant and a key is ingested: the call
    returns an incident of the tenant, opened only when no open incident of the tenant is
    related and not excluded, and other tenants' incidents stay as they were. *)
Theorem memory_ingest_total (m : MemoryStore) (now : Time) (s0 s : Signal) :
  memory_ok m → seq m + 2 < 2 ^ 63 → prepare now s0 = inr s →
  ∃ out m', run (ingestWithStore memory_caps window s None []) m = (inr out, m') ∧ memory_ok m' ∧
    placed Hash window s (m_part (sg_TenantID s) m) out (m_part (sg_TenantID s) m') ∧
    ∀ t, t ≠ sg_TenantID s → m_part t m' = m_part t m.
Proof.
  intros Hok Hb Hp. set (p := ingestWithStore memory_caps window s None []).
  assert (Hrun : ∃ out m', run p m = (inr out, m') ∧ seq m' ≤ seq m + 1).
  { unfold p, ingestWithStore. rewrite bool_decide_eq_true_2 by done. unfold resolve, load_and_group, try_call. cbn [run memory_step].
    apply group_runs; [done|lia|]. intros inc Hi. unfold m_OpenIncidents in Hi. rewrite sort_perm, elem_filter_values in Hi.
    destruct Hi as (id & Hid & [Ht _]%andb_true_iff). apply bool_decide_eq_true in Ht. destruct (mo_id m Hok _ _ Hid) as [-> _]. done. }
  destruct Hrun as (out & m' & E & Hseq). exists out, m'. split; [done|].
  pose proof (runs_run p m (inr out) m' Hok ltac:(lia) E) as Hr.
  assert (Hok0 : @ok Hash None MemoryStore memory_store m) by exact Hok.
  destruct (plain_placed (IS := memory_store) Hash None memory_caps window s m out m' Hok0) as (Hpl & Hok' & Hf); [by intros n Hn|exact Hr|].
  split; [exact Hok'|]. split; [exact Hpl|exact Hf].
Qed.

(** A thread that holds the lock can run to its end. *)
Lemma calls_reach caps uuid m a m' k s source obs m0 th l n (p : prog (Err + Outcome)) :
  runs Hash None p m a m' →
  rtc (step Hash None caps window uuid) (mkSys m (<[k := Running s source obs p m0]> th) l n) (mkSys m' (<[k := Running s source obs (Ret a) m0]> th) l n).
Proof.
  intros Hr. induction Hr as [a st|X o kk st x st' a st'' Hs Hr IH]; [apply rtc_refl|]. eapply rtc_l; [|by apply IH].
  pose proof (Calls Hash None caps window uuid k s source obs X o kk m0 x st' (mkSys st (<[k := Running s source obs (Call o kk) m0]> th) l n)) as Hc.
  cbn in Hc. rewrite insert_insert_eq in Hc. apply Hc; [apply lookup_insert_eq|done].
Qed.

End ingest.
End memory.

(** ** Witnesses *)

Definition demo_hash (l : list byte) : list byte := l.
Definition demo_event : Signal :=
  mkSignal [] (str "tenant") (str "bgp") (str "bgp.possible_hijack") (str "critical") (str "hijack") [] [] (str "203.0.113.0/24") ∅ (mkTime 63000000000 0) [] [] false.
Definition demo_now : Time := mkTime 63000000005 0.
Definition demo_ov (l : list CorrelationOverride) : list CorrelationOverride := l.
Definition demo_sort (l : list Incident) : list Incident := l.

Lemma demo_ov_perm l : demo_ov l ≡ₚ l.
Proof. done. Qed.
Lemma demo_sort_perm l : demo_sort l ≡ₚ l.
Proof. done. Qed.

#[local] Instance demo_store : IncidentStore demo_hash None MemoryStore := memory_store demo_hash demo_ov demo_sort demo_ov_perm demo_sort_perm.

Lemma demo_empty_memory : memory_ok demo_hash NewMemoryStore.
Proof. split; [done|done|]. intros id. cbn. by rewrite !lookup_empty. Qed.

Lemma demo_empty_ok : ok demo_hash None NewMemoryStore.
Proof. exact demo_empty_memory. Qed.

Abbreviation demo_ingest := (ingestWithStore memory_caps DefaultWindow demo_event None []).
Abbreviation demo_run := (run demo_hash demo_ov demo_sort demo_ingest).
Definition demo_uuid (l : gostring) : option gostring := None.

Lemma demo_runs : runs demo_hash None demo_ingest NewMemoryStore (demo_run NewMemoryStore).1 (demo_run NewMemoryStore).2.
Proof. apply runs_run; [exact demo_empty_memory|vm_compute; reflexivity|]. apply surjective_pairing. Qed.

Abbreviation demo_part := (mkPart ∅ ∅).
Abbreviation demo_end := (mkSys (demo_run NewMemoryStore).2 (<[0%nat := Running demo_event None [] (Ret (demo_run NewMemoryStore).1) demo_part]> ∅)
  (<[str "tenant" := 0%nat]> ∅) []).

Lemma demo_reaches : reachable demo_hash None memory_caps DefaultWindow demo_uuid NewMemoryStore demo_end.
Proof.
  eapply rtc_l; [apply (Arrives _ _ _ _ _ 0 demo_now (Plain demo_event) demo_event None []); [done|vm_compute; reflexivity]|].
  eapply rtc_l; [apply (Locks _ _ _ _ _ 0 demo_event None []); [apply lookup_insert_eq|done]|]. cbn [store threads locks notified initial].
  rewrite insert_insert_eq. apply (calls_reach demo_hash demo_ov demo_sort demo_ov_perm demo_sort_perm). exact demo_runs.
Qed.

Lemma ingest_serializable_witness :
  ingested demo_hash None DefaultWindow drift demo_event None demo_part (demo_run NewMemoryStore).1 (part_of demo_hash None (str "tenant") (demo_run NewMemoryStore).2).
Proof.
  apply (proj1 (ingest_serializable demo_hash None memory_caps DefaultWindow demo_uuid NewMemoryStore demo_end demo_empty_ok demo_reaches) 0%nat demo_event None []).
  apply lookup_insert_eq.
Defined.

Definition outcome_of (r : Err + Outcome) : Outcome := match r with inr out => out | inl _ => mkOutcome (newIncident demo_event) false false end.

Lemma demo_runs_first : runs demo_hash None demo_ingest NewMemoryStore (inr (outcome_of (demo_run NewMemoryStore).1)) (demo_run NewMemoryStore).2.
Proof. apply runs_run; [exact demo_empty_memory|vm_compute; reflexivity|vm_compute; reflexivity]. Qed.

Lemma demo_ok_after : ok demo_hash None (demo_run NewMemoryStore).2.
Proof.
  destruct (plain_placed demo_hash None memory_caps DefaultWindow demo_event NewMemoryStore (outcome_of (demo_run NewMemoryStore).1) (demo_run NewMemoryStore).2
    demo_empty_ok) as (_ & H & _); [by intros n Hn|exact demo_runs_first|exact H].
Qed.

Abbreviation demo_again := (demo_run (demo_run NewMemoryStore).2).

Lemma timelines_consistent_witness : timeline_ok demo_hash (incident (outcome_of (demo_run NewMemoryStore).1)).
Proof.
  assert (H0 : timelines demo_hash None NewMemoryStore) by (intros id inc Hi; discriminate Hi).
  apply (timelines_consistent demo_hash None memory_caps DefaultWindow demo_uuid NewMemoryStore demo_end demo_empty_ok H0 demo_reaches (incidentID 1)).
  vm_compute. reflexivity.
Defined.

Lemma demo_runs_again : runs demo_hash None demo_ingest (demo_run NewMemoryStore).2 (inr (outcome_of demo_again.1)) demo_again.2.
Proof. apply runs_run; [exact demo_ok_after|vm_compute; reflexivity|vm_compute; reflexivity]. Qed.

Lemma redelivery_idempotent_witness :
  opened (outcome_of demo_again.1) = false ∧ incident (outcome_of demo_again.1) = incident (outcome_of (demo_run NewMemoryStore).1) ∧
  part_of demo_hash None (str "tenant") demo_again.2 = part_of demo_hash None (str "tenant") (demo_run NewMemoryStore).2.
Proof.
  apply (redelivery_idempotent demo_hash None memory_caps DefaultWindow NewMemoryStore (demo_run NewMemoryStore).2 demo_again.2 demo_event
    (outcome_of (demo_run NewMemoryStore).1) (outcome_of demo_again.1) demo_empty_ok); [|done|done| | | | |exact demo_runs_first|vm_compute; reflexivity|exact demo_runs_again].
  - intros k o Hk. discriminate Hk.
  - right. vm_compute. by eexists.
  - split; vm_compute; split; (discriminate || reflexivity).
  - vm_compute. split; (discriminate || reflexivity).
  - vm_compute. split; (discriminate || reflexivity).
Defined.

Lemma memory_ingest_total_witness :
  ∃ out m', run demo_hash demo_ov demo_sort demo_ingest NewMemoryStore = (inr out, m') ∧ memory_ok demo_hash m'.
Proof.
  destruct (memory_ingest_total demo_hash demo_ov demo_sort demo_ov_perm demo_sort_perm DefaultWindow NewMemoryStore demo_now demo_event demo_event demo_empty_memory)
    as (out & m' & H1 & H2 & _); [vm_compute; reflexivity|vm_compute; reflexivity|]. by exists out, m'.
Defined.

End Memory.
End Correlator.
