(* ===== verification/Outage.v ===== *)
(** * The collective outage view (internal/outage/outage.go, engine.go)

    Shared external events, per-tenant windows of test outcomes, episodes detected from a
    tenant's own vantage points, and the alerts that join the two.  An evaluation reads the store of
    external events once; the code locks it once for the active events and once for all of them,
    and a refresh in between would give each its own state. *)

From S2P Require Import Prelude GoHash GoTime GoFloat FlowModel GoString GoProg BgpBase BgpPrefix GoNet Incident.
#[local] Open Scope Z_scope.

Module Outage.
Import Incident.

(** ** Scopes and events *)

Record Scope := mkScope { sc_Kind : gostring; Code : gostring; sc_Name : gostring }.

Definition Key (s : Scope) : gostring := sc_Kind s ++ str ":" ++ Code s.

Record Event := mkEvent {
  ev_ID : gostring; ev_Source : gostring; ev_Scope : Scope; ev_Severity : gostring; Confidence : float64; ev_Title : gostring; ev_Summary : gostring;
  Start : Time; End_ : Time; Evidence : gostring }.

#[export] Instance Event_eta : Eta Event := λ e,
  mkEvent (ev_ID e) (ev_Source e) (ev_Scope e) (ev_Severity e) (Confidence e) (ev_Title e) (ev_Summary e) (Start e) (End_ e) (Evidence e).

Definition Ongoing (e : Event) (now : Time) : bool := IsZero (End_ e) || After (End_ e) now.

Definition activeAt (e : Event) (t : Time) (slack : Z) : bool :=
  if Before t (GoTime.Add (Start e) (- slack)) then false else IsZero (End_ e) || Before t (GoTime.Add (End_ e) slack).

Definition eventSlack : Z := 10 * Minute.
Definition DefaultRetention : Z := 48 * Hour.

(** ** The store of external events *)

Record Store := mkStore { bySource : gmap gostring (list Event); retention : Z }.

Definition NewStore (retention : Z) : Store := mkStore ∅ (if retention <=? 0 then DefaultRetention else retention).

Definition kept (cutoff : Time) (source : gostring) (e : Event) : bool :=
  bool_decide (ev_Source e = source) && negb (bool_decide (ev_ID e = [])) && negb (IsZero (Start e))
  && negb (negb (IsZero (End_ e)) && Before (End_ e) cutoff).

Definition SetEvents (now : Time) (source : gostring) (events : list Event) (s : Store) : Store :=
  mkStore (<[source := List.filter (kept (GoTime.Add now (- retention s)) source) events]> (bySource s)) (retention s).

(** Newest start first, then by identifier: only two events with one start and one identifier,
    which the feeds do not produce, would be left in no settled order. *)
Definition event_le (a b : Event) : Prop := Before (Start b) (Start a) = true ∨ (Start a = Start b ∧ bytes_le (ev_ID a) (ev_ID b)).
#[export] Instance event_le_dec : RelDecision event_le.
Proof. intros a b. unfold event_le. apply _. Defined.

Section engine.
(** Ranging over the maps of sources and of targets. *)
Context (rangeSources : gmap gostring (list Event) → list Event).

Definition All (now : Time) (s : Store) : list Event :=
  merge_sort event_le (List.filter (λ e, IsZero (End_ e) || After (End_ e) (GoTime.Add now (- retention s))) (rangeSources (bySource s))).

Definition ActiveFor (s : Store) (scope : Scope) (t : Time) : list Event :=
  List.filter (λ e, bool_decide (Key (ev_Scope e) = Key scope) && activeAt e t eventSlack) (rangeSources (bySource s)).

(** ** Observations *)

Definition vantageWindow : Z := 15 * Minute.
Definition vantageMinTargets : Z := 2.
Definition vantageFireRatio : float64 := fdiv (f64 1) (f64 2).
Definition vantageClearRatio : float64 := fdiv (f64 1) (f64 4).
Definition maxTargetsPerTen : Z := 1024.
Definition maxSamplesPerTgt : Z := 64.
Definition maxVantageHistory : Z := 32.
Definition maxCorrelatedAlert : Z := 4096.

Record sample := mkSample { at_time : Time; s_ok : bool }.
Record targetObs := mkObs { canaryType : gostring; scope : Scope; samples : list sample }.
#[export] Instance targetObs_eta : Eta targetObs := λ o, mkObs (canaryType o) (scope o) (samples o).

Record tenantState := mkTenant { targets : gmap gostring targetObs; active : gmap gostring Event; history : list Event; correlated : gset gostring }.
#[export] Instance tenantState_eta : Eta tenantState := λ t, mkTenant (targets t) (active t) (history t) (correlated t).

Definition newTenant : tenantState := mkTenant ∅ ∅ [] ∅.

(** Samples before the cutoff are dropped from the front, then all but the newest 64. *)
Fixpoint drop_before (cutoff : Time) (l : list sample) : list sample :=
  match l with
  | [] => []
  | s :: r => if Before (at_time s) cutoff then drop_before cutoff r else l
  end.
Definition pruneLocked (now : Time) (l : list sample) : list sample :=
  let l := drop_before (GoTime.Add now (- vantageWindow)) l in
  if maxSamplesPerTgt <? len l then drop (length l - Z.to_nat maxSamplesPerTgt) l else l.

Record Stats := mkStats { st_observed : bool; st_failing : bool; st_failures : Z; st_lastFail : Time }.

(** The counts over the samples of the window: all, failed, and the last failure. *)
Definition window_fold (cutoff : Time) (acc : Z * Z * Time) (s : sample) : Z * Z * Time :=
  let '(total, failures, lastFail) := acc in
  if Before (at_time s) cutoff then acc
  else if s_ok s then (total + 1, failures, lastFail)
  else (total + 1, failures + 1, if After (at_time s) lastFail then at_time s else lastFail).

Definition windowStats (now : Time) (o : targetObs) : Stats :=
  let '(total, failures, lastFail) := foldl (window_fold (GoTime.Add now (- vantageWindow))) (0, 0, zero_time) (samples o) in
  mkStats (0 <? total) ((2 <=? total) && fleb vantageFireRatio (fdiv (f64 failures) (f64 total))) failures lastFail.

(** ** Episodes *)

Definition scopeLabel (s : Scope) : gostring :=
  if bool_decide (sc_Name s = []) then Code s else sc_Name s ++ str " (" ++ Code s ++ str ")".

Definition minF (a b : float64) : float64 := if fltb a b then a else b.

(** Time.Unix *)
Definition UnixSec (t : Time) : Z := i64 (t_sec t - unixToInternal).

(** The tally over the targets of a scope: observed, failing, failures, first failure. *)
Definition scope_fold (now : Time) (key : gostring) (acc : Z * Z * Z * Time) (o : targetObs) : Z * Z * Z * Time :=
  let '(observed, failing, failures, firstFail) := acc in
  if negb (bool_decide (Key (scope o) = key)) then acc
  else
    let st := windowStats now o in
    let observed := if st_observed st then observed + 1 else observed in
    if st_failing st
    then (observed, failing + 1, failures + st_failures st,
          if IsZero firstFail || (Before (st_lastFail st) firstFail && negb (IsZero (st_lastFail st))) then st_lastFail st else firstFail)
    else (observed, failing, failures, firstFail).

Context (rangeTargets : gmap gostring targetObs → list targetObs).

Definition tally (now : Time) (key : gostring) (ts : tenantState) : Z * Z * Z * Time :=
  foldl (scope_fold now key) (0, 0, 0, zero_time) (rangeTargets (targets ts)).

Definition ratio_of (failing observed : Z) : float64 := if 0 <? observed then fdiv (f64 failing) (f64 observed) else f64 0.

Definition vantage_event (tenant : gostring) (s : Scope) (failing observed : Z) (start : Time) : Event :=
  mkEvent (str "vantage:" ++ tenant ++ str ":" ++ Key s ++ str ":" ++ dec (UnixSec start)) (str "vantage") s (str "warning")
    (minF (fdiv (f64 9) (f64 10)) (ratio_of failing observed)) (str "Vantage-detected outage: " ++ scopeLabel s)
    (dec failing ++ str " of " ++ dec observed ++ str " observed targets in " ++ scopeLabel s ++ str " failing over the last 15m0s") start zero_time [].

Definition vantage_signal (tenant : gostring) (e : Event) (failing observed : Z) (now : Time) : Signal :=
  mkSignal [] tenant (str "outage") (str "outage.vantage_detected") SeverityWarning (ev_Title e) (ev_Summary e) (Code (ev_Scope e)) []
    (list_to_map [(str "outage.scope_kind", sc_Kind (ev_Scope e)); (str "outage.scope", Code (ev_Scope e)); (str "outage.scope_name", sc_Name (ev_Scope e));
                  (str "outage.failing_targets", dec failing); (str "outage.observed", dec observed)]) now [] [] false.

Definition evaluateVantageLocked (tenant : gostring) (s : Scope) (now : Time) (ts : tenantState) : list Signal * tenantState :=
  let key := Key s in
  let '(observed, failing, failures, firstFail) := tally now key ts in
  let ratio := ratio_of failing observed in
  let live := bool_decide (is_Some (active ts !! key)) in
  if live && ((failing =? 0) || fltb ratio vantageClearRatio) then
    match active ts !! key with
    | Some ev =>
        let ended := (ev <| End_ := now |>) :: history ts in
        ([], ts <| history := if maxVantageHistory <? len ended then take (Z.to_nat maxVantageHistory) ended else ended |>
                <| active := delete key (active ts) |>)
    | None => ([], ts)
    end
  else if live || (failing <? vantageMinTargets) || fltb ratio vantageFireRatio then ([], ts)
  else
    let start := if IsZero firstFail then now else firstFail in
    let ne := vantage_event tenant s failing observed start in
    ([vantage_signal tenant ne failing observed now], ts <| active := <[key := ne]> (active ts) |>).

(** ** External events *)

Definition external_signal (tenant canary target : gostring) (e : Event) (at_ : Time) : Signal :=
  mkSignal [] tenant (str "outage") (str "outage.external_correlated") SeverityWarning (str "Test failure correlates with " ++ ev_Title e)
    (canary ++ str " test against " ++ target ++ str " is failing while " ++ ev_Source e ++ str " reports: " ++ ev_Summary e) target []
    (list_to_map [(str "outage.event_id", ev_ID e); (str "outage.source", ev_Source e); (str "outage.scope_kind", sc_Kind (ev_Scope e));
                  (str "outage.scope", Code (ev_Scope e)); (str "outage.evidence", Evidence e)]) at_ [] [] false.

(** Latched alerts whose events left the store are dropped. *)
Definition pruneCorrelatedLocked (live : list gostring) (c : gset gostring) : gset gostring := filter (λ id, id ∈ live) c.

Fixpoint correlate_loop (live : list gostring) (tenant canary target : gostring) (at_ : Time) (evs : list Event) (c : gset gostring)
    : list Signal * gset gostring :=
  match evs with
  | [] => ([], c)
  | e :: evs =>
      if bool_decide (ev_ID e ∈ c) then correlate_loop live tenant canary target at_ evs c
      else
        let full := maxCorrelatedAlert <=? Z.of_nat (size c) in
        let c := if full then pruneCorrelatedLocked live c else c in
        if full && (maxCorrelatedAlert <=? Z.of_nat (size c)) then ([], c)
        else
          let '(sigs, c) := correlate_loop live tenant canary target at_ evs ({[ev_ID e]} ∪ c) in
          (external_signal tenant canary target e at_ :: sigs, c)
  end.

Definition correlateExternalLocked (store : option Store) (storeNow : Time) (tenant : gostring) (s : Scope) (canary target : gostring) (at_ : Time)
    (ts : tenantState) : list Signal * tenantState :=
  match store with
  | None => ([], ts)
  | Some st =>
      let '(sigs, c) := correlate_loop (ev_ID <$> All storeNow st) tenant canary target at_ (ActiveFor st s at_) (correlated ts) in
      (sigs, ts <| correlated := c |>)
  end.

(** ** The engine *)

Record Engine := mkEngine { e_store : option Store; tenants : gmap gostring tenantState }.

(** The state of a tenant, made when it is missing. *)
Definition tenant_state (e : Engine) (id : gostring) : tenantState := default newTenant (tenants e !! id).

(** One observation on its tenant's state. *)
Definition observe_tenant (store : option Store) (storeNow : Time) (tenant canary target : gostring) (s : Scope) (success : bool) (at_ : Time)
    (ts : tenantState) : list Signal * tenantState :=
  let prior := targets ts !! target in
  if bool_decide (prior = None) && (maxTargetsPerTen <=? Z.of_nat (size (targets ts))) then ([], ts)
  else
    let obs := default (mkObs canary s []) prior in
    let obs := obs <| scope := s |> <| samples := pruneLocked at_ (samples obs ++ [mkSample at_ success]) |> in
    let ts := ts <| targets := <[target := obs]> (targets ts) |> in
    let '(sigs, ts) := evaluateVantageLocked tenant s at_ ts in
    if success then (sigs, ts)
    else
      let '(more, ts) := correlateExternalLocked store storeNow tenant s canary target at_ ts in
      (sigs ++ more, ts).

Definition Observe (resolve : option (gostring → option Scope)) (storeNow : Time) (tenant canary target peerIP : gostring) (success : bool)
    (at_ : Time) (e : Engine) : list Signal * Engine :=
  match resolve with
  | None => ([], e)
  | Some resolve =>
      if bool_decide (tenant = []) || bool_decide (target = []) then ([], e)
      else match resolve peerIP with
           | None => ([], e)
           | Some s =>
               if bool_decide (Code s = []) then ([], e)
               else
                 let '(sigs, ts) := observe_tenant (e_store e) storeNow tenant canary target s success at_ (tenant_state e tenant) in
                 (sigs, mkEngine (e_store e) (<[tenant := ts]> (tenants e)))
           end
  end.

(** ** The snapshot *)

Record AffectedTest := mkAffected { af_CanaryType : gostring; af_Target : gostring; af_Failures : Z; af_LastFailure : Time }.
Record EventView := mkView { v_Event : Event; v_Ongoing : bool; v_Affected : list AffectedTest }.
Record Snapshot := mkSnapshot { Events : list EventView; Vantage : list EventView; ScopeResolution : bool }.

Definition affected_of (ev : Event) (now : Time) (kv : gostring * targetObs) : option AffectedTest :=
  if negb (bool_decide (Key (scope kv.2) = Key (ev_Scope ev))) then None
  else
    let st := windowStats now kv.2 in
    if (st_failures st =? 0) || negb (activeAt ev (st_lastFail st) eventSlack) then None
    else Some (mkAffected (canaryType kv.2) kv.1 (st_failures st) (st_lastFail st)).

Definition affected_le (a b : AffectedTest) : Prop := bytes_le (af_Target a) (af_Target b).
#[export] Instance affected_le_dec : RelDecision affected_le := λ a b, decide (bytes_le (af_Target a) (af_Target b)).

(** The targets are distinct, so the sort settles the order of the map. *)
Definition affectedLocked (ts : tenantState) (ev : Event) (now : Time) : list AffectedTest :=
  merge_sort affected_le (omap (affected_of ev now) (map_to_list (targets ts))).

Definition historyViews (history : list Event) : list EventView := (λ ev, mkView ev false []) <$> history.

(** sort.Slice: ongoing first, then the newest start. *)
Context (sortViews : list EventView → list EventView).

Definition snapshot_of (resolves : bool) (store : option Store) (storeNow now : Time) (ts : tenantState) : Snapshot :=
  mkSnapshot
    (match store with
     | None => []
     | Some st => (λ ev, mkView ev (Ongoing ev now) (affectedLocked ts ev now)) <$> All storeNow st
     end)
    (sortViews (((λ kv : gostring * Event, mkView kv.2 true (affectedLocked ts kv.2 now)) <$> map_to_list (active ts)) ++ historyViews (history ts)))
    resolves.

Definition Snapshot_ (resolves : bool) (storeNow now : Time) (tenant : gostring) (e : Engine) : Snapshot * Engine :=
  let ts := tenant_state e tenant in
  (snapshot_of resolves (e_store e) storeNow now ts, mkEngine (e_store e) (<[tenant := ts]> (tenants e))).

(** ** Runs *)

(** What happens to an engine: observations of its tenants, refreshes of a source, snapshots. *)
Inductive Op :=
| DoObserve (storeNow : Time) (tenant canary target peerIP : gostring) (success : bool) (at_ : Time)
| DoSetEvents (now : Time) (source : gostring) (events : list Event)
| DoSnapshot (storeNow now : Time) (tenant : gostring).

Context (resolve : option (gostring → option Scope)).

Definition do_op (o : Op) (e : Engine) : list Signal * Engine :=
  match o with
  | DoObserve storeNow tenant canary target peerIP success at_ => Observe resolve storeNow tenant canary target peerIP success at_ e
  | DoSetEvents now source events => ([], mkEngine (SetEvents now source events <$> e_store e) (tenants e))
  | DoSnapshot storeNow now tenant => ([], (Snapshot_ (bool_decide (is_Some resolve)) storeNow now tenant e).2)
  end.

Fixpoint run (ops : list Op) (e : Engine) : list Signal * Engine :=
  match ops with
  | [] => ([], e)
  | o :: ops => let '(sigs, e) := do_op o e in let '(more, e) := run ops e in (sigs ++ more, e)
  end.

Definition NewEngine (store : option Store) : Engine := mkEngine store ∅.

(** ** Isolation *)

(** The operations one tenant depends on: its own and the shared ones. *)
Definition concerns (t : gostring) (o : Op) : bool :=
  match o with
  | DoObserve _ tenant _ _ _ _ _ => bool_decide (tenant = t)
  | DoSetEvents _ _ _ => true
  | DoSnapshot _ _ tenant => bool_decide (tenant = t)
  end.

(** Two engines that agree on the shared store and on one tenant. *)
Definition agree (t : gostring) (e e' : Engine) : Prop := e_store e = e_store e' ∧ tenants e !! t = tenants e' !! t.

Lemma evaluate_tenant tenant s now ts sg : sg ∈ (evaluateVantageLocked tenant s now ts).1 → sg_TenantID sg = tenant.
Proof.
  unfold evaluateVantageLocked. destruct (tally now (Key s) ts) as [[[o f] fs] ff]. destruct (_ && _).
  { destruct (active ts !! Key s); cbn; by intros ?%elem_of_nil. }
  destruct (_ || _); cbn; [by intros ?%elem_of_nil|]. by intros ->%list_elem_of_singleton.
Qed.

Lemma correlate_loop_tenant live tenant canary target at_ evs c sg : sg ∈ (correlate_loop live tenant canary target at_ evs c).1 → sg_TenantID sg = tenant.
Proof.
  revert c. induction evs as [|e evs IH]; intros c; cbn [correlate_loop]; [by intros ?%elem_of_nil|]. destruct (bool_decide _); [apply IH|].
  destruct (_ && _); [by intros ?%elem_of_nil|]. destruct (correlate_loop _ _ _ _ _ evs _) as [sigs c'] eqn:E. cbn.
  intros [->|H]%elem_of_cons; [done|]. apply (IH ({[ev_ID e]} ∪ (if maxCorrelatedAlert <=? Z.of_nat (size c) then pruneCorrelatedLocked live c else c))).
  by rewrite E.
Qed.

Lemma observe_signals storeNow tenant canary target peerIP success at_ e sg :
  sg ∈ (Observe resolve storeNow tenant canary target peerIP success at_ e).1 → sg_TenantID sg = tenant.
Proof.
  unfold Observe. destruct resolve as [r|]; [|by intros ?%elem_of_nil]. destruct (_ || _); [by intros ?%elem_of_nil|].
  destruct (r peerIP) as [s|]; [|by intros ?%elem_of_nil]. destruct (bool_decide _); [by intros ?%elem_of_nil|].
  unfold observe_tenant. destruct (_ && _); [by intros ?%elem_of_nil|].
  set (ts := _ <| targets := _ |>). pose proof (evaluate_tenant tenant s at_ ts sg) as Hv. destruct (evaluateVantageLocked _ _ _ _) as [sigs ts'].
  destruct success; [exact Hv|]. unfold correlateExternalLocked. destruct (e_store e) as [st|]; cbn; [|by rewrite app_nil_r].
  set (live := ev_ID <$> _). set (evs := ActiveFor _ _ _).
  pose proof (correlate_loop_tenant live tenant canary target at_ evs (correlated ts') sg) as Hc. destruct (correlate_loop _ _ _ _ _ _ _) as [more c]. cbn in *.
  intros [H|H]%elem_of_app; auto.
Qed.

(** An operation of another tenant changes nothing of this one. *)
Lemma other_agrees t o e : concerns t o = false → agree t (do_op o e).2 e.
Proof.
  destruct o as [sn tn c tg ip ok at_|now src evs|sn now tn]; cbn [concerns do_op]; [|done|].
  - intros Ht%bool_decide_eq_false. unfold Observe. destruct resolve as [r|]; [|done]. destruct (_ || _); [done|]. destruct (r ip) as [s|]; [|done].
    destruct (bool_decide _); [done|]. destruct (observe_tenant _ _ _ _ _ _ _ _ _) as [sigs ts]. cbn. split; [done|]. cbn. by rewrite lookup_insert_ne.
  - intros Ht%bool_decide_eq_false. split; [done|]. cbn. by rewrite lookup_insert_ne.
Qed.

(** An operation of this tenant, or a shared one, depends on nothing else. *)
Lemma own_agrees t o e e' : concerns t o = true → agree t e e' → (do_op o e).1 = (do_op o e').1 ∧ agree t (do_op o e).2 (do_op o e').2.
Proof.
  intros Ho [Es Et]. destruct o as [sn tn c tg ip ok at_|now src evs|sn now tn]; cbn [concerns do_op] in *.
  - apply bool_decide_eq_true in Ho as ->. unfold Observe. destruct resolve as [r|]; [|done]. destruct (_ || _); [done|].
    destruct (r ip) as [s|]; [|done]. destruct (bool_decide _); [done|]. unfold tenant_state. rewrite Es, Et.
    destruct (observe_tenant _ _ _ _ _ _ _ _ _) as [sigs ts]. cbn. split; [done|]. split; [done|]. cbn. by rewrite !lookup_insert_eq.
  - split; [done|]. split; cbn; [by rewrite Es|done].
  - apply bool_decide_eq_true in Ho as ->. split; [done|]. split; cbn; [done|]. unfold tenant_state. by rewrite Et, !lookup_insert_eq.
Qed.

Lemma concerned_signals t o e sg : concerns t o = false → sg ∈ (do_op o e).1 → sg_TenantID sg ≠ t.
Proof.
  destruct o as [sn tn c tg ip ok at_|now src evs|sn now tn]; cbn [concerns do_op]; [|done|by intros _ ?%elem_of_nil].
  intros Ht%bool_decide_eq_false Hin. apply observe_signals in Hin. congruence.
Qed.

Lemma own_signals t o e : concerns t o = false → filter (λ sg, sg_TenantID sg = t) (do_op o e).1 = [].
Proof. intros Ho. apply elem_of_nil_inv. intros sg [Hs Hin]%list_elem_of_filter. by eapply concerned_signals. Qed.

Lemma run_isolated t ops e e' :
  agree t e e' →
  filter (λ sg, sg_TenantID sg = t) (run ops e).1 = filter (λ sg, sg_TenantID sg = t) (run (filter (λ o, concerns t o = true) ops) e').1 ∧
  agree t (run ops e).2 (run (filter (λ o, concerns t o = true) ops) e').2.
Proof.
  revert e e'. induction ops as [|o ops IH]; intros e e' He; [done|]. destruct (concerns t o) eqn:Ho.
  - rewrite filter_cons_True by done. destruct (own_agrees t o e e' Ho He) as [Es Ea]. cbn [run].
    destruct (do_op o e) as [s1 e1], (do_op o e') as [s2 e2]. cbn in Es, Ea. subst s2. specialize (IH e1 e2 Ea).
    destruct (run ops e1) as [m1 f1], (run _ e2) as [m2 f2]. cbn in *. rewrite !filter_app. destruct IH as [-> ?]. done.
  - rewrite filter_cons_False by (by rewrite Ho). pose proof (own_signals t o e Ho) as Hn. pose proof (other_agrees t o e Ho) as Ha. cbn [run].
    destruct (do_op o e) as [s1 e1]. cbn in Hn, Ha. assert (agree t e1 e') as He1 by (destruct Ha, He; split; congruence).
    specialize (IH e1 e' He1). destruct (run ops e1) as [m1 f1]. cbn in *. rewrite filter_app, Hn. done.
Qed.

(** C33. Tenants do not see each other: whatever observations and snapshots of other tenants come
    in between, the outage alerts a tenant gets and its windows, episodes and latched alerts
    are those of its own observations and the shared feeds alone, and so is what a snapshot
    shows it. *)
Theorem outage_isolated (store : option Store) (t : gostring) (ops : list Op) (storeNow now : Time) :
  let alone := filter (λ o, concerns t o = true) ops in
  filter (λ sg, sg_TenantID sg = t) (run ops (NewEngine store)).1 = filter (λ sg, sg_TenantID sg = t) (run alone (NewEngine store)).1 ∧
  tenants (run ops (NewEngine store)).2 !! t = tenants (run alone (NewEngine store)).2 !! t ∧
  (Snapshot_ (bool_decide (is_Some resolve)) storeNow now t (run ops (NewEngine store)).2).1 =
  (Snapshot_ (bool_decide (is_Some resolve)) storeNow now t (run alone (NewEngine store)).2).1.
Proof.
  intros alone. destruct (run_isolated t ops (NewEngine store) (NewEngine store)) as [Hs [He Ht]]; [done|]. split_and!; [done|done|].
  unfold Snapshot_, tenant_state. cbn. by rewrite He, Ht.
Qed.

(** ** Bounds *)

Record bounded (ts : tenantState) : Prop := {
  b_targets : Z.of_nat (size (targets ts)) ≤ maxTargetsPerTen;
  b_samples : ∀ t o, targets ts !! t = Some o → len (samples o) ≤ maxSamplesPerTgt;
  b_history : len (history ts) ≤ maxVantageHistory;
  b_correlated : Z.of_nat (size (correlated ts)) ≤ maxCorrelatedAlert;
  b_active : ∀ k ev, active ts !! k = Some ev → Key (ev_Scope ev) = k ∧ IsZero (End_ ev) = true }.

Lemma newTenant_bounded : bounded newTenant.
Proof. split; cbn; try done; intros ? ? H; by rewrite lookup_empty in H. Qed.

Lemma prune_bounded now l : len (pruneLocked now l) ≤ maxSamplesPerTgt.
Proof.
  unfold pruneLocked. set (l' := drop_before _ _). destruct (maxSamplesPerTgt <? len l') eqn:E; zbool; [|lia].
  unfold len, maxSamplesPerTgt in *. rewrite length_drop. lia.
Qed.

Lemma evaluate_bounded tenant s now ts : bounded ts → bounded (evaluateVantageLocked tenant s now ts).2.
Proof.
  intros [H1 H2 H3 H4 H5]. unfold evaluateVantageLocked. destruct (tally now (Key s) ts) as [[[o f] fs] ff]. destruct (_ && _).
  { destruct (active ts !! Key s) as [ev|] eqn:Ea; [|by split]. split; cbn; try done.
    - destruct (maxVantageHistory <? _) eqn:E; zbool; unfold len, maxVantageHistory in *; [|cbn [length] in *; lia]. rewrite length_take. lia.
    - intros k e. rewrite lookup_delete_Some. intros [_ He]. by apply H5. }
  destruct (_ || _); [by split|]. split; cbn; try done. intros k e. rewrite lookup_insert_Some. intros [[<- <-]|[_ He]]; [done|by apply H5].
Qed.

Lemma correlate_bounded live tenant canary target at_ evs c :
  Z.of_nat (size c) ≤ maxCorrelatedAlert → Z.of_nat (size (correlate_loop live tenant canary target at_ evs c).2) ≤ maxCorrelatedAlert.
Proof.
  revert c. induction evs as [|e evs IH]; intros c Hc; cbn [correlate_loop]; [done|]. destruct (bool_decide_reflect (ev_ID e ∈ c)) as [|Hn]; [by apply IH|].
  set (c' := if maxCorrelatedAlert <=? Z.of_nat (size c) then pruneCorrelatedLocked live c else c).
  assert (Hsub : c' ⊆ c) by (unfold c', pruneCorrelatedLocked; destruct (_ <=? _); set_solver).
  assert (Hle : (size c' ≤ size c)%nat) by by apply subseteq_size.
  destruct (_ && _) eqn:E; [cbn; lia|].
  assert (Hlt : Z.of_nat (size c') < maxCorrelatedAlert).
  { apply andb_false_iff in E. unfold c' in *. destruct (maxCorrelatedAlert <=? Z.of_nat (size c)) eqn:E1; zbool; destruct E as [E|E]; zbool; try done; lia. }
  specialize (IH ({[ev_ID e]} ∪ c')). destruct (correlate_loop _ _ _ _ _ evs _) as [sigs c2]. cbn in *. apply IH.
  rewrite size_union by set_solver. rewrite size_singleton. lia.
Qed.

Lemma observe_bounded store storeNow tenant canary target s success at_ ts :
  bounded ts → bounded (observe_tenant store storeNow tenant canary target s success at_ ts).2.
Proof.
  intros Hb. unfold observe_tenant. destruct (_ && _) eqn:E; [done|]. set (ts' := ts <| targets := _ |>).
  assert (Hb' : bounded ts').
  { destruct Hb as [H1 H2 H3 H4 H5]. split; cbn; try done.
    - rewrite map_size_insert. apply andb_false_iff in E. destruct (targets ts !! target) as [o|]; cbn in *; [done|]. destruct E as [E|E]; [done|]. zbool. lia.
    - intros t o. rewrite lookup_insert_Some. intros [[<- <-]|[_ Ho]]; [apply prune_bounded|by eapply H2]. }
  pose proof (evaluate_bounded tenant s at_ ts' Hb') as He. destruct (evaluateVantageLocked _ _ _ _) as [sigs t2]. cbn in He. destruct success; [done|].
  unfold correlateExternalLocked. destruct store as [st|]; [|done]. set (live := ev_ID <$> _). set (evs := ActiveFor _ _ _).
  pose proof (correlate_bounded live tenant canary target at_ evs (correlated t2) (b_correlated _ He)) as Hc.
  destruct (correlate_loop _ _ _ _ _ _ _) as [more c]. cbn in *. destruct He. by split.
Qed.

(** The engine's memory is bounded however much it observes: per tenant at most 1024 targets of
    at most 64 samples, 32 ended episodes and 4096 latched alerts, and at most one ongoing
    episode per scope, kept under the scope's own key. *)
Theorem outage_bounded (store : option Store) (ops : list Op) (t : gostring) (ts : tenantState) :
  tenants (run ops (NewEngine store)).2 !! t = Some ts → bounded ts.
Proof.
  assert (H : ∀ e, (∀ t ts, tenants e !! t = Some ts → bounded ts) → ∀ t ts, tenants (run ops e).2 !! t = Some ts → bounded ts).
  { induction ops as [|o ops IH]; intros e He; [exact He|]. cbn [run].
    assert (He1 : ∀ t ts, tenants (do_op o e).2 !! t = Some ts → bounded ts).
    { assert (Hd : ∀ t, bounded (tenant_state e t)).
      { intros t'. unfold tenant_state. destruct (tenants e !! t') eqn:E; cbn; [by eapply He|apply newTenant_bounded]. }
      destruct o as [sn tn c tg ip ok at_|now src evs|sn now tn]; cbn [do_op]; [|done|].
      - unfold Observe. destruct resolve as [r|]; [|done]. destruct (_ || _); [done|]. destruct (r ip) as [s|]; [|done].
        destruct (bool_decide _); [done|]. pose proof (observe_bounded (e_store e) sn tn c tg s ok at_ _ (Hd tn)) as Ho.
        destruct (observe_tenant _ _ _ _ _ _ _ _ _) as [sigs ts']. cbn in *. intros t0 ts0.
        rewrite lookup_insert_Some. intros [[<- <-]|[_ H0]]; [done|by eapply He].
      - cbn. intros t0 ts0. rewrite lookup_insert_Some. intros [[<- <-]|[_ H0]]; [apply Hd|by eapply He]. }
    destruct (do_op o e) as [sigs e1]. specialize (IH e1 He1). by destruct (run ops e1). }
  apply H. intros t0 ts0 H0. cbn in H0. by rewrite lookup_empty in H0.
Qed.

(** ** Episodes *)

Section episodes.
Hypothesis range_targets : ∀ m, rangeTargets m ≡ₚ (map_to_list m).*2.

(** The samples of a target in the window, and those that failed. *)
Definition in_window (now : Time) (o : targetObs) : list sample := filter (λ x, Before (at_time x) (GoTime.Add now (- vantageWindow)) = false) (samples o).
Definition failed (l : list sample) : list sample := filter (λ x, s_ok x = false) l.

(** A target is failing when at least two samples are in the window and half of them failed. *)
Definition failing_target (now : Time) (o : targetObs) : bool :=
  (2 <=? len (in_window now o)) && fleb vantageFireRatio (fdiv (f64 (len (failed (in_window now o)))) (f64 (len (in_window now o)))).

Lemma window_fold_spec cutoff l a b t0 :
  let w := filter (λ x, Before (at_time x) cutoff = false) l in
  let '(total, failures, last) := foldl (window_fold cutoff) (a, b, t0) l in
  total = a + len w ∧ failures = b + len (failed w) ∧ After t0 last = false ∧ (∀ x, x ∈ failed w → After (at_time x) last = false) ∧
  (last = t0 ∨ ∃ x, x ∈ failed w ∧ last = at_time x).
Proof.
  revert a b t0. induction l as [|x l IH]; intros a b t0; cbn zeta.
  { cbn. split_and!; try (unfold len; cbn; lia); [unfold After; times|by intros x ?%elem_of_nil|by left]. }
  cbn [foldl window_fold]. destruct (Before (at_time x) cutoff) eqn:Ec.
  { rewrite filter_cons_False by (by rewrite Ec). apply IH. }
  rewrite filter_cons_True by done. destruct (s_ok x) eqn:Eo.
  - specialize (IH (a + 1) b t0). cbn zeta in IH. destruct (foldl _ _ l) as [[tt ff] last]. destruct IH as (-> & -> & H1 & H2 & H3).
    unfold failed. rewrite filter_cons_False by (by rewrite Eo). split_and!; try done. unfold len. cbn. lia.
  - set (t1 := if After (at_time x) t0 then at_time x else t0). specialize (IH (a + 1) (b + 1) t1). cbn zeta in IH.
    destruct (foldl _ _ l) as [[tt ff] last]. destruct IH as (-> & -> & H1 & H2 & H3). unfold failed in *. rewrite filter_cons_True by done.
    assert (Ht : After t0 t1 = false ∧ After (at_time x) t1 = false) by (unfold t1, After; destruct (Before t0 (at_time x)) eqn:E; split; times).
    destruct Ht as [Ha Hb]. unfold After in *. split_and!.
    + unfold len. cbn. lia.
    + unfold len. cbn. lia.
    + times.
    + intros y [->|Hy]%elem_of_cons; [times|by apply H2].
    + destruct H3 as [->|(y & Hy & ->)]; [|right; exists y; split; [by right|done]].
      unfold t1 in *. destruct (Before t0 (at_time x)); [right; exists x; split; [by left|done]|by left].
Qed.

Lemma windowStats_spec now o :
  st_observed (windowStats now o) = (0 <? len (in_window now o)) ∧ st_failing (windowStats now o) = failing_target now o ∧
  st_failures (windowStats now o) = len (failed (in_window now o)).
Proof.
  unfold windowStats, failing_target. pose proof (window_fold_spec (GoTime.Add now (- vantageWindow)) (samples o) 0 0 zero_time) as H. cbn zeta in H.
  destruct (foldl _ _ (samples o)) as [[tt ff] last]. destruct H as (-> & -> & _). cbn. done.
Qed.

(** The targets of a scope that were observed in the window, and those that are failing. *)
Definition observed_in (now : Time) (key : gostring) (ts : tenantState) : gmap gostring targetObs :=
  filter (λ kv, Key (scope kv.2) = key ∧ in_window now kv.2 ≠ []) (targets ts).
Definition failing_in (now : Time) (key : gostring) (ts : tenantState) : gmap gostring targetObs :=
  filter (λ kv, Key (scope kv.2) = key ∧ failing_target now kv.2 = true) (targets ts).

Lemma scope_fold_count now key l a b c t0 :
  let '(o, f, fs, ff) := foldl (scope_fold now key) (a, b, c, t0) l in
  o = a + len (filter (λ x, Key (scope x) = key ∧ in_window now x ≠ []) l) ∧
  f = b + len (filter (λ x, Key (scope x) = key ∧ failing_target now x = true) l).
Proof.
  revert a b c t0. induction l as [|x l IH]; intros a b c t0; [cbn; unfold len; cbn; lia|].
  cbn [foldl]. unfold scope_fold at 2. destruct (bool_decide_reflect (Key (scope x) = key)) as [Hk|Hk]; cbn [negb].
  2: { rewrite !filter_cons_False by tauto. apply IH. }
  destruct (windowStats_spec now x) as (Eo & Ef & _). rewrite Eo, Ef.
  assert (Ho : (0 <? len (in_window now x)) = bool_decide (in_window now x ≠ [])).
  { destruct (in_window now x); [done|]. rewrite bool_decide_eq_true_2 by done. apply Z.ltb_lt. unfold len. cbn. lia. }
  rewrite Ho. destruct (bool_decide_reflect (in_window now x ≠ [])) as [Hw|Hw], (failing_target now x) eqn:E;
    rewrite ?(filter_cons_True (λ x, Key (scope x) = key ∧ in_window now x ≠ [])), ?(filter_cons_False (λ x, Key (scope x) = key ∧ in_window now x ≠ [])) by tauto;
    rewrite ?(filter_cons_True (λ x, Key (scope x) = key ∧ failing_target now x = true)),
      ?(filter_cons_False (λ x, Key (scope x) = key ∧ failing_target now x = true)) by (rewrite ?E; tauto || (intros [_ ?]; done));
    match goal with |- context [foldl _ ?acc l] => destruct acc as [[[a' b'] c'] t'] eqn:Eacc; specialize (IH a' b' c' t');
      destruct (foldl _ _ l) as [[[oo ff] fs] fff]; injection Eacc as <- <- <- <-; destruct IH as [-> ->]; unfold len; cbn; lia end.
Qed.

Lemma size_filter_values (P : targetObs → Prop) `{!∀ x, Decision (P x)} (m : gmap gostring targetObs) :
  len (filter P (map_to_list m).*2) = Z.of_nat (size (filter (λ kv, P kv.2) m)).
Proof.
  unfold len. f_equal. induction m as [|k x m Hk IH] using map_ind; [by rewrite map_filter_empty, map_size_empty, map_to_list_empty|].
  rewrite (Permutation_length (filter_Permutation P _ _ (fmap_Permutation snd _ _ (map_to_list_insert m k x Hk)))). rewrite fmap_cons. change (k, x).2 with x.
  destruct (decide (P x)) as [Hp|Hp].
  - rewrite filter_cons_True by done. cbn. rewrite map_filter_insert_True, map_size_insert_None, IH; [done| |done]. apply map_lookup_filter_None. by left.
  - rewrite filter_cons_False by done. rewrite map_filter_insert_False by done. by rewrite delete_id.
Qed.

Lemma tally_counts now key ts :
  ∃ fs ff, tally now key ts = (Z.of_nat (size (observed_in now key ts)), Z.of_nat (size (failing_in now key ts)), fs, ff).
Proof.
  unfold tally, observed_in, failing_in. pose proof (scope_fold_count now key (rangeTargets (targets ts)) 0 0 0 zero_time) as H.
  destruct (foldl _ _ _) as [[[o f] fs] ff]. destruct H as [-> ->]. exists fs, ff.
  rewrite !Z.add_0_l. unfold len. rewrite !(filter_Permutation _ _ _ (range_targets (targets ts))). f_equal; f_equal; f_equal.
  - exact (size_filter_values (λ x, Key (scope x) = key ∧ in_window now x ≠ []) (targets ts)).
  - exact (size_filter_values (λ x, Key (scope x) = key ∧ failing_target now x = true) (targets ts)).
Qed.

(** C34. A tenant's own targets open and close an outage episode exactly as specified, in whatever
    order the targets are ranged over. With n the targets of the scope whose window has at least
    two samples, half of them failed, and r their share of the targets observed in the window:
    with no episode running, one alert is raised and one episode opened for the scope if n is at
    least 2 and r is not below one half, and nothing happens otherwise; with one running, no
    alert is raised, and the episode is closed now, at the head of the bounded history, when n
    is 0 or r below one quarter. Other scopes and the windows are never touched. *)
Theorem vantage_exact (tenant : gostring) (s : Scope) (now : Time) (ts : tenantState) :
  let n := Z.of_nat (size (failing_in now (Key s) ts)) in
  let r := ratio_of n (Z.of_nat (size (observed_in now (Key s) ts))) in
  let '(sigs, ts') := evaluateVantageLocked tenant s now ts in
  targets ts' = targets ts ∧ correlated ts' = correlated ts ∧ (∀ k, k ≠ Key s → active ts' !! k = active ts !! k) ∧
  match active ts !! Key s with
  | None =>
      if (2 <=? n) && negb (fltb r vantageFireRatio)
      then ∃ ne, active ts' !! Key s = Some ne ∧ ev_Scope ne = s ∧ End_ ne = zero_time ∧ sigs = [vantage_signal tenant ne n (Z.of_nat (size (observed_in now (Key s) ts))) now]
                 ∧ history ts' = history ts
      else sigs = [] ∧ ts' = ts
  | Some ev =>
      sigs = [] ∧
      if (n =? 0) || fltb r vantageClearRatio
      then active ts' !! Key s = None ∧ history ts' = take 32 ((ev <| End_ := now |>) :: history ts)
      else ts' = ts
  end.
Proof.
  intros n r. unfold evaluateVantageLocked. destruct (tally_counts now (Key s) ts) as (fs & ff & ->). fold n. fold r.
  destruct (active ts !! Key s) as [ev|] eqn:Ea.
  - rewrite (bool_decide_eq_true_2 (is_Some (Some ev))) by done. cbn [andb orb]. destruct ((n =? 0) || _); [|done]. cbn. split_and!; try done.
    + intros k Hk. by rewrite lookup_delete_ne.
    + by rewrite lookup_delete_eq.
    + destruct (maxVantageHistory <? _) eqn:E; zbool; [done|]. unfold len, maxVantageHistory in E. cbn [length] in E. rewrite (take_ge (history ts)) by lia. done.
  - rewrite (bool_decide_eq_false_2 (is_Some None)) by (intros [? ?]; done). cbn [andb orb]. unfold vantageMinTargets.
    replace (n <? 2) with (negb (2 <=? n)) by (destruct (2 <=? n) eqn:E1, (n <? 2) eqn:E2; zbool; done || lia).
    destruct (2 <=? n), (fltb r vantageFireRatio); cbn; try done. split_and!; try done.
    + intros k Hk. by rewrite lookup_insert_ne.
    + eexists. rewrite lookup_insert_eq. done.
Qed.

End episodes.
End engine.

(** ** A run: two targets of one country fail twice while a feed reports an outage there *)

Definition demo_sources (m : gmap gostring (list Event)) : list Event := concat (map_to_list m).*2.
Definition demo_targets (m : gmap gostring targetObs) : list targetObs := (map_to_list m).*2.
Definition demo_scope : Scope := mkScope (str "country") (str "FR") (str "France").
Definition demo_resolve : option (gostring → option Scope) := Some (λ _, Some demo_scope).
Definition demo_at (s : Z) : Time := mkTime (63900000000 + s) 0.
Definition demo_feed : Event :=
  mkEvent (str "ioda:1") (str "ioda") demo_scope (str "warning") (f64 1) (str "drop") (str "visibility drop") (demo_at 0) zero_time [].
Definition demo_ops : list Op :=
  [DoSetEvents (demo_at 0) (str "ioda") [demo_feed];
   DoObserve (demo_at 1) (str "a") (str "http") (str "x") (str "192.0.2.1") false (demo_at 1);
   DoObserve (demo_at 2) (str "a") (str "http") (str "x") (str "192.0.2.1") false (demo_at 2);
   DoObserve (demo_at 3) (str "a") (str "http") (str "y") (str "192.0.2.2") false (demo_at 3);
   DoObserve (demo_at 4) (str "a") (str "http") (str "y") (str "192.0.2.2") false (demo_at 4)].
Definition demo_run (ops : list Op) : list Signal * Engine :=
  run demo_sources demo_targets (λ v, v) demo_resolve ops (NewEngine (Some (NewStore 0))).

(** The first failure joins the feed's event, the last opens the tenant's own episode. *)
Example demo_signals :
  Kind <$> (demo_run demo_ops).1 = [str "outage.external_correlated"; str "outage.vantage_detected"].
Proof. vm_compute. reflexivity. Qed.

Definition demo_tenant : tenantState := default newTenant (tenants (demo_run demo_ops).2 !! str "a").
Definition demo_before : tenantState := demo_tenant <| active := ∅ |>.

Lemma outage_bounded_witness : bounded demo_tenant.
Proof.
  apply (outage_bounded demo_sources demo_targets (λ v, v) demo_resolve (Some (NewStore 0)) demo_ops (str "a")).
  vm_compute. reflexivity.
Defined.

Lemma vantage_exact_witness :
  length (evaluateVantageLocked demo_targets (str "a") demo_scope (demo_at 4) demo_before).1 = 1%nat ∧
  is_Some (active (evaluateVantageLocked demo_targets (str "a") demo_scope (demo_at 4) demo_before).2 !! Key demo_scope).
Proof.
  pose proof (vantage_exact demo_targets (λ m, Permutation_refl _) (str "a") demo_scope (demo_at 4) demo_before) as H. cbn zeta in H.
  destruct (evaluateVantageLocked demo_targets (str "a") demo_scope (demo_at 4) demo_before) as [sigs ts']. destruct H as (_ & _ & _ & H).
  assert (E : active demo_before !! Key demo_scope = None) by reflexivity. rewrite E in H.
  assert (E2 : (2 <=? Z.of_nat (size (failing_in (demo_at 4) (Key demo_scope) demo_before)))
     && negb (fltb (ratio_of (Z.of_nat (size (failing_in (demo_at 4) (Key demo_scope) demo_before)))
                              (Z.of_nat (size (observed_in (demo_at 4) (Key demo_scope) demo_before)))) vantageFireRatio) = true) by (vm_compute; reflexivity).
  rewrite E2 in H. destruct H as (ne & Ha & _ & _ & -> & _). split; [done|]. cbn [snd]. rewrite Ha. by eexists.
Defined.

End Outage.
