(* ===== verification/Bfs.v ===== *)
(** * Breadth-first search (internal/topology/whatif.go, graph.go)

    The searches of the topology package: parents of every reachable node, routes read off
    them, plain reachability, and the variants that stop at a goal.  What they compute is
    stated with walks: exactly the reachable nodes, by routes no walk is shorter than. *)

From S2P Require Import Prelude GoString.

Lemma nodup_reverse {A} (l : list A) : NoDup l → NoDup (reverse l).
Proof. by rewrite reverse_Permutation. Qed.

Section search.
(** The successors of a node in the order they are ranged over. *)
Context (next : gostring → list gostring).

(** ** The searches *)

(** The successors of [cur] that were not seen get [cur] as parent and are queued. *)
Fixpoint expand (cur : gostring) (ns : list gostring) (parent : gmap gostring gostring) (queue : list gostring)
    : gmap gostring gostring * list gostring :=
  match ns with
  | [] => (parent, queue)
  | n :: ns =>
      match parent !! n with
      | Some _ => expand cur ns parent queue
      | None => expand cur ns (<[n := cur]> parent) (queue ++ [n])
      end
  end.

Fixpoint bfs_loop (fuel : nat) (parent : gmap gostring gostring) (queue : list gostring) : option (gmap gostring gostring) :=
  match queue with
  | [] => Some parent
  | cur :: queue =>
      match fuel with
      | O => None
      | S fuel => let '(parent, queue) := expand cur (next cur) parent queue in bfs_loop fuel parent queue
      end
  end.

(** The same with only the set of seen nodes. *)
Fixpoint spread (ns : list gostring) (seen : gset gostring) (queue : list gostring) : gset gostring * list gostring :=
  match ns with
  | [] => (seen, queue)
  | n :: ns => if bool_decide (n ∈ seen) then spread ns seen queue else spread ns ({[n]} ∪ seen) (queue ++ [n])
  end.

Fixpoint reach_loop (fuel : nat) (seen : gset gostring) (queue : list gostring) : option (gset gostring) :=
  match queue with
  | [] => Some seen
  | cur :: queue =>
      match fuel with
      | O => None
      | S fuel => let '(seen, queue) := spread (next cur) seen queue in reach_loop fuel seen queue
      end
  end.

(** The search that stops as soon as the goal gets its parent: [inl] is that moment. *)
Fixpoint expand_to (goal cur : gostring) (ns : list gostring) (parent : gmap gostring gostring) (queue : list gostring)
    : gmap gostring gostring + gmap gostring gostring * list gostring :=
  match ns with
  | [] => inr (parent, queue)
  | n :: ns =>
      match parent !! n with
      | Some _ => expand_to goal cur ns parent queue
      | None => if bool_decide (n = goal) then inl (<[n := cur]> parent)
                else expand_to goal cur ns (<[n := cur]> parent) (queue ++ [n])
      end
  end.

(** [Some None] is the end of the search without the goal. *)
Fixpoint search_loop (goal : gostring) (fuel : nat) (parent : gmap gostring gostring) (queue : list gostring)
    : option (option (gmap gostring gostring)) :=
  match queue with
  | [] => Some None
  | cur :: queue =>
      match fuel with
      | O => None
      | S fuel =>
          match expand_to goal cur (next cur) parent queue with
          | inl parent => Some (Some parent)
          | inr (parent, queue) => search_loop goal fuel parent queue
          end
      end
  end.

(** From the goal up to the start; a missing parent is the empty string. *)
Fixpoint climb (fuel : nat) (parent : gmap gostring gostring) (start cur : gostring) : option (list gostring) :=
  if bool_decide (cur = start) then Some [cur]
  else match fuel with
       | O => None
       | S fuel => match climb fuel parent start (match parent !! cur with Some p => p | None => [] end) with
                   | Some r => Some (cur :: r)
                   | None => None
                   end
       end.

Definition rebuild (parent : gmap gostring gostring) (start goal : gostring) : option (list gostring) :=
  reverse <$> climb (size parent) parent start goal.

(** ** Walks and routes *)

Inductive walk (start : gostring) : nat → gostring → Prop :=
| walk_start : walk start 0 start
| walk_step k x y : walk start k x → y ∈ next x → walk start (S k) y.

(** Consecutive nodes of a route are joined. *)
Fixpoint chain (l : list gostring) : Prop :=
  match l with
  | x :: ((y :: _) as r) => y ∈ next x ∧ chain r
  | _ => True
  end.

(** A route from [start] to [goal] that no walk beats. *)
Record shortest (start goal : gostring) (r : list gostring) : Prop := {
  sh_chain : chain r;
  sh_head : head r = Some start;
  sh_last : last r = Some goal;
  sh_nodup : NoDup r;
  sh_least : ∀ k, walk start k goal → (length r ≤ S k)%nat }.

Lemma chain_snoc r x y : chain (r ++ [x]) → y ∈ next x → chain ((r ++ [x]) ++ [y]).
Proof.
  induction r as [|a r IH]; cbn; [done|]. destruct r as [|b r]; cbn in *; [by intros [? _]|]. intros [? ?] ?. split; [done|]. by apply IH.
Qed.

Lemma chain_walk r start goal : chain r → head r = Some start → last r = Some goal → walk start (length r - 1) goal.
Proof.
  revert goal. induction r as [|y r IH] using rev_ind; intros goal Hc Hh Hl; [done|]. rewrite last_snoc in Hl. injection Hl as <-.
  destruct r as [|x r _] using rev_ind; [cbn in *; injection Hh as <-; constructor|].
  assert (chain (r ++ [x]) ∧ y ∈ next x) as [Hc' Hy].
  { clear -Hc. induction r as [|a r IHr]; cbn in *; [tauto|]. destruct r as [|b r]; cbn in *; [tauto|]. destruct Hc as [? Hc]. destruct (IHr Hc). tauto. }
  rewrite (length_app (r ++ [x]) [y]). cbn [length]. replace (length (r ++ [x]) + 1 - 1)%nat with (S (length (r ++ [x]) - 1)) by (rewrite length_app; cbn; lia).
  econstructor; [|exact Hy]. apply IH; [done| |apply last_snoc]. by destruct r.
Qed.

(** ** What the search knows *)

(** With [D] the depth at which a node was found: the nodes that left the queue have all their
    successors among the found ones, one level deeper at most. *)
Definition closed (D : gostring → nat) (parent : gmap gostring gostring) (n : gostring) : Prop :=
  ∀ m, m ∈ next n → m ∈ dom parent ∧ (D m ≤ S (D n))%nat.

Record tree (start : gostring) (D : gostring → nat) (parent : gmap gostring gostring) : Prop := {
  tr_start : parent !! start = Some start;
  tr_root : D start = 0%nat;
  tr_parent : ∀ n p, parent !! n = Some p → n ≠ start → p ∈ dom parent ∧ D n = S (D p) ∧ n ∈ next p }.

(** While [cur] is expanded; [q] is the queue behind it. *)
Record busy (start : gostring) (D : gostring → nat) (parent : gmap gostring gostring) (cur : gostring) (q : list gostring) : Prop := {
  bu_tree : tree start D parent;
  bu_cur : cur ∈ dom parent;
  bu_bound : ∀ n, n ∈ dom parent → (D n ≤ S (D cur))%nat;
  bu_queue : ∀ n, n ∈ q → n ∈ dom parent ∧ (D cur ≤ D n)%nat;
  bu_sorted : StronglySorted (λ a b, (D a ≤ D b)%nat) q;
  bu_nodup : NoDup (cur :: q);
  bu_closed : ∀ n, n ∈ dom parent → n ≠ cur → n ∈ q ∨ closed D parent n }.

Lemma tree_step start D parent cur n :
  tree start D parent → cur ∈ dom parent → n ∈ next cur → parent !! n = None →
  tree start (λ x, if decide (x = n) then S (D cur) else D x) (<[n := cur]> parent).
Proof.
  intros [Hs Hr Hp] Hc Hn He. assert (Hns : n ≠ start) by congruence. assert (Hnc : cur ≠ n) by (intros ->; by apply not_elem_of_dom in He).
  split.
  - by rewrite lookup_insert_ne.
  - by rewrite decide_False.
  - intros m p. rewrite lookup_insert_Some. intros [[<- <-]|[Hm Hmp]] Hne.
    + rewrite dom_insert, (decide_True _ _ eq_refl), decide_False by done. set_solver.
    + destruct (Hp m p Hmp Hne) as (Hd & HD & Hi). rewrite dom_insert. split; [set_solver|]. split; [|done].
      rewrite (decide_False (P := m = n)) by done. rewrite decide_False; [done|]. intros ->. by apply not_elem_of_dom in He.
Qed.

Lemma busy_step start D parent cur q n :
  busy start D parent cur q → n ∈ next cur → parent !! n = None →
  busy start (λ x, if decide (x = n) then S (D cur) else D x) (<[n := cur]> parent) cur (q ++ [n]).
Proof.
  intros [Ht Hc Hb Hq Hs Hnd Hcl] Hn He. pose proof He as He'. apply not_elem_of_dom in He'. assert (Hnc : cur ≠ n) by congruence.
  assert (Hold : ∀ x, x ∈ dom parent → (if decide (x = n) then S (D cur) else D x) = D x) by (intros x Hx; rewrite decide_False by congruence; done).
  assert (Hnq : n ∉ q) by (intros Hx%Hq; tauto). split.
  - by apply tree_step.
  - rewrite dom_insert. set_solver.
  - intros x. rewrite dom_insert, (Hold cur) by done. intros [->%elem_of_singleton|Hx]%elem_of_union; [by rewrite decide_True|]. rewrite Hold; auto.
  - intros x. rewrite dom_insert, (Hold cur) by done. intros [Hx| ->%list_elem_of_singleton]%elem_of_app.
    + destruct (Hq x Hx) as [Hd ?]. rewrite Hold by done. set_solver.
    + rewrite decide_True by done. split; [set_solver|lia].
  - clear Hnd Hcl. induction q as [|x q IH]; cbn; [repeat constructor|]. inversion Hs as [|? ? Hs' Hf]; subst. constructor.
    + apply IH; [intros y Hy; apply Hq; by right|done|intros Hx; apply Hnq; by right].
    + destruct (Hq x) as [Hx ?]; [by left|]. rewrite Hold by done. apply Forall_forall. intros y [Hy| ->%list_elem_of_singleton]%elem_of_app.
      * rewrite Hold by (apply Hq; by right). by eapply Forall_forall in Hf.
      * rewrite decide_True by done. by apply Hb.
  - inversion Hnd as [|? ? Hcq Hqd]; subst. constructor.
    + intros [?|?%list_elem_of_singleton]%elem_of_app; done.
    + apply NoDup_app. split_and!; [done| |apply NoDup_singleton]. intros x Hx ->%list_elem_of_singleton. done.
  - intros x. rewrite dom_insert. intros [->%elem_of_singleton|Hx]%elem_of_union Hxc; [left; apply elem_of_app; right; by apply list_elem_of_singleton|].
    destruct (Hcl x Hx Hxc) as [?|Hx']; [left; apply elem_of_app; by left|]. right. intros m Hm. destruct (Hx' m Hm) as [Hmd ?].
    rewrite dom_insert, !Hold by done. split; [set_solver|done].
Qed.

(** Expanding [cur] closes it. *)
Lemma expand_busy start D parent cur q ns :
  busy start D parent cur q → (∀ n, n ∈ ns → n ∈ next cur) → (∀ m, m ∈ next cur → m ∈ ns ∨ m ∈ dom parent) →
  let '(parent', q') := expand cur ns parent q in
  ∃ D', busy start D' parent' cur q' ∧ closed D' parent' cur ∧ dom parent ⊆ dom parent' ∧ D' cur = D cur ∧ (∀ n, n ∈ dom parent → D' n = D n) ∧
    (∀ n, n ∈ dom parent' → n ∈ dom parent ∨ n ∈ ns) ∧ (size parent' + length q = size parent + length q')%nat ∧ q `prefix_of` q'.
Proof.
  revert D parent q. induction ns as [|n ns IH]; intros D parent q Hb Hns Hall; cbn.
  { exists D. split_and!; try done; [|auto]. intros m Hm. destruct (Hall m Hm) as [?%elem_of_nil|Hd]; [done|]. split; [done|]. by apply Hb. }
  destruct (parent !! n) as [p|] eqn:E.
  - specialize (IH D parent q Hb). destruct (expand cur ns parent q) as [parent' q']. destruct IH as (D' & H1 & H2 & H3 & H4 & H5 & H6 & H7 & H8).
    + intros m Hm. apply Hns. by right.
    + intros m Hm. destruct (Hall m Hm) as [[->|?]%elem_of_cons|?]; auto. right. by apply elem_of_dom_2 in E.
    + exists D'. split_and!; try done. intros m Hm. destruct (H6 m Hm); [by left|right; by right].
  - assert (Hn : n ∈ next cur) by (apply Hns; by left). pose proof (busy_step _ _ _ _ _ n Hb Hn E) as Hb'.
    specialize (IH _ _ _ Hb'). destruct (expand cur ns (<[n:=cur]> parent) (q ++ [n])) as [parent' q'].
    destruct IH as (D' & H1 & H2 & H3 & H4 & H5 & H6 & H7 & H8).
    + intros m Hm. apply Hns. by right.
    + intros m Hm. rewrite dom_insert. destruct (Hall m Hm) as [[->|?]%elem_of_cons|?]; [right; set_solver|by left|right; set_solver].
    + apply not_elem_of_dom in E. rewrite dom_insert in *. assert (Hc : cur ≠ n) by (intros ->; apply E, Hb). exists D'. split_and!; try done.
      * set_solver.
      * rewrite H4. by rewrite decide_False.
      * intros m Hm. rewrite H5 by set_solver. rewrite decide_False; [done|]. congruence.
      * intros m Hm. destruct (H6 m Hm) as [Hm'|?]; [|right; by right]. rewrite dom_insert in Hm'. apply elem_of_union in Hm' as [->%elem_of_singleton|?]; [right; by left|by left].
      * rewrite map_size_insert_None in H7 by (by apply not_elem_of_dom). rewrite length_app in H7. cbn in H7. lia.
      * etrans; [|exact H8]. by exists [n].
Qed.

(** Between two expansions. *)
Record idle (start : gostring) (D : gostring → nat) (parent : gmap gostring gostring) (q : list gostring) : Prop := {
  id_tree : tree start D parent;
  id_queue : ∀ n, n ∈ q → n ∈ dom parent;
  id_bound : ∀ n cur, head q = Some cur → n ∈ dom parent → (D n ≤ S (D cur))%nat;
  id_sorted : StronglySorted (λ a b, (D a ≤ D b)%nat) q;
  id_nodup : NoDup q;
  id_closed : ∀ n, n ∈ dom parent → n ∈ q ∨ closed D parent n }.

Lemma idle_start start : idle start (λ _, 0%nat) {[start := start]} [start].
Proof.
  split; cbn.
  - split; [by rewrite lookup_singleton_eq|done|]. intros n p. rewrite lookup_singleton_Some. intros [<- _]. done.
  - intros n ->%list_elem_of_singleton. rewrite dom_singleton. set_solver.
  - intros. lia.
  - repeat constructor.
  - apply NoDup_singleton.
  - intros n. rewrite dom_singleton. intros ->%elem_of_singleton. left. by left.
Qed.

Lemma idle_busy start D parent cur q : idle start D parent (cur :: q) → busy start D parent cur q.
Proof.
  intros [Ht Hq Hb Hs Hn Hc]. inversion Hs as [|? ? Hs' Hf]; subst. split; try done.
  - apply Hq. by left.
  - intros n Hd. by apply Hb.
  - intros n Hi. split; [apply Hq; by right|]. by eapply Forall_forall in Hf.
  - intros n Hd Hne. destruct (Hc n Hd) as [[->|?]%elem_of_cons|?]; auto. done.
Qed.

Lemma busy_idle start D parent cur q : busy start D parent cur q → closed D parent cur → idle start D parent q.
Proof.
  intros [Ht Hc Hb Hq Hs Hn Hcl] Hcc. split; try done.
  - intros n Hi. by apply Hq.
  - intros n h Hh Hd. destruct (Hq h) as [_ Hle]; [destruct q; cbn in Hh; [done|injection Hh as ->; by left]|]. specialize (Hb n Hd). lia.
  - by inversion Hn.
  - intros n Hd. destruct (decide (n = cur)) as [->|Hne]; [by right|by apply Hcl].
Qed.

(** Every node within the depth being expanded has been found. *)
Lemma busy_levels start D parent cur q k x :
  busy start D parent cur q → walk start k x → (k ≤ D cur)%nat → x ∈ dom parent ∧ (D x ≤ k)%nat.
Proof.
  intros [Ht Hc Hb Hq Hs Hn Hcl]. intros Hw. induction Hw as [|k x y Hw IH Hy]; intros Hk.
  - destruct Ht as [Hs0 Hr _]. split; [by apply elem_of_dom_2 in Hs0|lia].
  - destruct IH as [Hx Hle]; [lia|]. destruct (Hcl x Hx) as [Hxq|Hxc]; [intros ->; lia|destruct (Hq x Hxq); lia|]. destruct (Hxc y Hy). split; [done|lia].
Qed.

Lemma idle_levels start D parent k x : idle start D parent [] → walk start k x → x ∈ dom parent ∧ (D x ≤ k)%nat.
Proof.
  intros [Ht Hq Hb Hs Hn Hcl] Hw. induction Hw as [|k x y Hw IH Hy].
  - destruct Ht as [Hs0 Hr _]. split; [by apply elem_of_dom_2 in Hs0|lia].
  - destruct IH as [Hx Hle]. destruct (Hcl x Hx) as [?%elem_of_nil|Hxc]; [done|]. destruct (Hxc y Hy). split; [done|lia].
Qed.

Lemma tree_walk start D parent n : tree start D parent → n ∈ dom parent → walk start (D n) n.
Proof.
  intros [Hs Hr Hp]. remember (D n) as d eqn:E. revert n E. induction d as [|d IH]; intros n E Hn; destruct (decide (n = start)) as [->|Hne]; try constructor.
  - apply elem_of_dom in Hn as [p Hn]. destruct (Hp n p Hn Hne) as (_ & ? & _). lia.
  - lia.
  - apply elem_of_dom in Hn as [p Hn]. destruct (Hp n p Hn Hne) as (Hd & HD & Hi). econstructor; [|exact Hi]. apply IH; [lia|done].
Qed.

(** Climbing from a found node reads off a route of its depth. *)
Lemma climb_spec start D parent fuel n :
  tree start D parent → n ∈ dom parent → (D n ≤ fuel)%nat →
  ∃ r, climb fuel parent start n = Some (n :: r) ∧ chain (reverse (n :: r)) ∧ last (n :: r) = Some start ∧ D <$> (n :: r) = reverse (seq 0 (S (D n))) ∧
       ∀ x, x ∈ n :: r → x ∈ dom parent.
Proof.
  intros Ht. revert n. induction fuel as [|fuel IH]; intros n Hn Hf; cbn [climb]; destruct (bool_decide_reflect (n = start)) as [->|Hne].
  1, 3: exists []; rewrite (tr_root _ _ _ Ht); cbn; split_and!; try done; [by rewrite (tr_root _ _ _ Ht)|by intros x ->%list_elem_of_singleton].
  all: pose proof Hn as [p Hp]%elem_of_dom; destruct (tr_parent _ _ _ Ht n p Hp Hne) as (Hd & HD & Hi).
  1: lia.
  destruct (IH p Hd) as (r & Hr & Hc & Hl & HDs & Hin); [lia|]. rewrite Hp, Hr. exists (p :: r). split_and!; try done.
  - rewrite (reverse_cons (p :: r)). rewrite (reverse_cons r) in Hc |- *. by apply chain_snoc.
  - rewrite fmap_cons, HDs, HD. rewrite (seq_S (S (D p))), reverse_snoc. done.
  - intros x [->|Hx]%elem_of_cons; auto.
Qed.

(** The depth of a found node is below the number of nodes found. *)
Lemma tree_depth start D parent n : tree start D parent → n ∈ dom parent → (D n < size parent)%nat.
Proof.
  intros Ht Hn. destruct (climb_spec start D parent (D n) n Ht Hn) as (r & _ & _ & _ & HD & Hin); [lia|].
  assert (Hnd : NoDup (n :: r)). { apply (NoDup_fmap_1 D). rewrite HD. apply nodup_reverse. apply NoDup_seq. }
  assert (Hlen : length (n :: r) = S (D n)). { rewrite <- (length_fmap D), HD, length_reverse, length_seq. done. }
  assert (Hsub : list_to_set (n :: r) ⊆ dom parent) by (intros x Hx%elem_of_list_to_set; by apply Hin).
  apply subseteq_size in Hsub. rewrite size_list_to_set, size_dom in Hsub by done. lia.
Qed.

(** A route is read off for every found node; it is a shortest one when its depth is the least. *)
Lemma rebuild_spec start D parent n :
  tree start D parent → n ∈ dom parent → (∀ k, walk start k n → (D n ≤ k)%nat) → ∃ r, rebuild parent start n = Some r ∧ shortest start n r.
Proof.
  intros Ht Hn Hleast. pose proof (tree_depth _ _ _ _ Ht Hn) as Hd.
  destruct (climb_spec start D parent (size parent) n Ht Hn) as (r & Hr & Hc & Hl & HD & Hin); [lia|]. unfold rebuild. rewrite Hr. cbn.
  exists (reverse (n :: r)). split; [done|]. split.
  - done.
  - by rewrite <- last_reverse, reverse_involutive.
  - rewrite last_reverse. done.
  - apply nodup_reverse, (NoDup_fmap_1 D). rewrite HD. apply nodup_reverse, NoDup_seq.
  - intros k Hk. rewrite length_reverse, <- (length_fmap D), HD, length_reverse, length_seq. specialize (Hleast k Hk). lia.
Qed.

(** ** The searches are exact *)

Section finite.
(** A finite set of nodes the successors stay in bounds the number of rounds. *)
Context (U : gset gostring) (HU : ∀ x y, x ∈ U → y ∈ next x → y ∈ U).

Lemma bfs_loop_spec start D parent q fuel :
  idle start D parent q → dom parent ⊆ U → (size U + length q ≤ fuel + size parent)%nat →
  ∃ parent' D', bfs_loop fuel parent q = Some parent' ∧ idle start D' parent' [] ∧ dom parent' ⊆ U.
Proof.
  revert D parent q. induction fuel as [|fuel IH]; intros D parent [|cur q] Hi Hd Hf; cbn [bfs_loop]; try by exists parent, D.
  { exfalso. apply subseteq_size in Hd. rewrite size_dom in Hd. cbn in Hf. lia. }
  pose proof (idle_busy _ _ _ _ _ Hi) as Hb. pose proof (expand_busy start D parent cur q (next cur) Hb) as He.
  destruct (expand cur (next cur) parent q) as [parent' q']. destruct He as (D' & H1 & H2 & H3 & _ & _ & H6 & H7 & _); [done|by left|].
  apply (IH D'); [by eapply busy_idle| |cbn in Hf; lia].
  intros n [?|Hn]%H6; [by apply Hd|]. eapply HU; [|exact Hn]. apply Hd, Hb.
Qed.

Lemma bfs_spec start fuel :
  start ∈ U → (size U ≤ fuel)%nat →
  ∃ parent, bfs_loop fuel {[start := start]} [start] = Some parent ∧ (∀ n, n ∈ dom parent ↔ ∃ k, walk start k n) ∧
    ∀ n, n ∈ dom parent → ∃ r, rebuild parent start n = Some r ∧ shortest start n r.
Proof.
  intros Hs Hf. destruct (bfs_loop_spec start _ _ _ fuel (idle_start start)) as (parent & D & E & Hi & _).
  { rewrite dom_singleton. set_solver. }
  { rewrite map_size_singleton. cbn. lia. }
  exists parent. split; [done|]. split.
  - intros n. split; [intros Hn; exists (D n); by eapply tree_walk; [apply Hi|]|]. intros [k Hk]. by eapply idle_levels in Hk as [? _].
  - intros n Hn. eapply rebuild_spec; [apply Hi|done|]. intros k Hk. by eapply idle_levels in Hk as [_ ?].
Qed.

Lemma expand_to_spec start goal D parent cur q ns :
  busy start D parent cur q → goal ∉ dom parent → (∀ n, n ∈ ns → n ∈ next cur) →
  match expand_to goal cur ns parent q with
  | inl parent' => ∃ D', tree start D' parent' ∧ goal ∈ dom parent' ∧ ∀ k, walk start k goal → (D' goal ≤ k)%nat
  | inr (parent', q') => (parent', q') = expand cur ns parent q ∧ goal ∉ dom parent'
  end.
Proof.
  revert D parent q. induction ns as [|n ns IH]; intros D parent q Hb Hg Hns; cbn; [done|].
  destruct (parent !! n) as [p|] eqn:E; [apply (IH D); [done|done|]; intros m Hm; apply Hns; by right|].
  assert (Hn : n ∈ next cur) by (apply Hns; by left). destruct (bool_decide_reflect (n = goal)) as [->|Hne].
  - eexists. split; [eapply tree_step; [apply Hb|apply Hb|done|done]|]. rewrite dom_insert. split; [set_solver|].
    intros k Hk. rewrite decide_True by done. destruct (decide (k ≤ D cur)%nat) as [Hle|]; [|lia].
    by destruct (busy_levels _ _ _ _ _ _ _ Hb Hk Hle) as [? _].
  - eapply IH; [by apply busy_step|rewrite dom_insert; set_solver|]. intros m Hm. apply Hns. by right.
Qed.

Lemma search_loop_spec start goal D parent q fuel :
  idle start D parent q → goal ∉ dom parent → dom parent ⊆ U → (size U + length q ≤ fuel + size parent)%nat →
  match search_loop goal fuel parent q with
  | Some (Some parent') => ∃ r, rebuild parent' start goal = Some r ∧ shortest start goal r
  | Some None => ∀ k, ¬ walk start k goal
  | None => False
  end.
Proof.
  revert D parent q. induction fuel as [|fuel IH]; intros D parent [|cur q] Hi Hg Hd Hf; cbn [search_loop].
  1, 3: intros k Hk; by destruct (idle_levels _ _ _ _ _ Hi Hk).
  { apply subseteq_size in Hd. rewrite size_dom in Hd. cbn in Hf. lia. }
  pose proof (idle_busy _ _ _ _ _ Hi) as Hb. pose proof (expand_to_spec start goal D parent cur q (next cur) Hb Hg (λ _ H, H)) as Ht.
  destruct (expand_to goal cur (next cur) parent q) as [parent'|[parent' q']].
  - destruct Ht as (D' & Ht & Hgd & Hl). by eapply rebuild_spec.
  - destruct Ht as [Ee Hg']. pose proof (expand_busy start D parent cur q (next cur) Hb) as He. rewrite <- Ee in He.
    destruct He as (D' & H1 & H2 & H3 & _ & _ & H6 & H7 & _); [done|by left|].
    apply (IH D'); [by eapply busy_idle|done| |cbn in Hf; lia]. intros n [?|Hn]%H6; [by apply Hd|]. eapply HU; [|exact Hn]. apply Hd, Hb.
Qed.

Lemma search_spec start goal fuel :
  start ∈ U → start ≠ goal → (size U ≤ fuel)%nat →
  match search_loop goal fuel {[start := start]} [start] with
  | Some (Some parent') => ∃ r, rebuild parent' start goal = Some r ∧ shortest start goal r
  | Some None => ∀ k, ¬ walk start k goal
  | None => False
  end.
Proof.
  intros Hs Hne Hf. apply (search_loop_spec _ _ _ _ _ _ (idle_start start)).
  - rewrite dom_singleton. set_solver.
  - rewrite dom_singleton. set_solver.
  - rewrite map_size_singleton. cbn. lia.
Qed.

(** Plain reachability is the set of nodes with a parent. *)
Lemma spread_expand cur ns parent q :
  spread ns (dom parent) q = (dom (expand cur ns parent q).1, (expand cur ns parent q).2).
Proof.
  revert parent q. induction ns as [|n ns IH]; intros parent q; cbn; [done|]. destruct (parent !! n) as [p|] eqn:E.
  - rewrite bool_decide_eq_true_2 by (by apply elem_of_dom_2 in E). apply IH.
  - rewrite bool_decide_eq_false_2 by (by apply not_elem_of_dom). rewrite <- IH. f_equal. by rewrite dom_insert_L.
Qed.

Lemma reach_loop_bfs fuel parent q : reach_loop fuel (dom parent) q = dom <$> bfs_loop fuel parent q.
Proof.
  revert parent q. induction fuel as [|fuel IH]; intros parent [|cur q]; cbn; try done. rewrite (spread_expand cur).
  destruct (expand cur (next cur) parent q) as [parent' q']. apply IH.
Qed.

Lemma reach_spec start fuel :
  start ∈ U → (size U ≤ fuel)%nat → ∃ seen, reach_loop fuel {[start]} [start] = Some seen ∧ ∀ n, n ∈ seen ↔ ∃ k, walk start k n.
Proof.
  intros Hs Hf. destruct (bfs_spec start fuel Hs Hf) as (parent & E & Hn & _). exists (dom parent). split; [|done].
  rewrite <- (dom_singleton_L (D := gset gostring) start start), reach_loop_bfs, E. done.
Qed.

End finite.
End search.
