(* ===== verification/TopoIdentity.v ===== *)
(** * Competing identity claims of a topology graph (internal/topology/identity.go)

    Which values sources assert for a device's name, address and interfaces, kept bounded, and
    the conflicts read off them.  Unicode case folding is a parameter. *)

From S2P Require Import Prelude GoTime GoString Incident.
#[local] Open Scope Z_scope.

Module TopoIdentity.
Import Incident.

(** ** Text *)

Definition cont (lo hi : Z) (b : byte) : bool := (lo <=? byteZ b) && (byteZ b <=? hi).

(** How many bytes the well-formed UTF-8 sequence at the head of a string has. *)
Definition rune_len (l : gostring) : option nat :=
  match l with
  | [] => None
  | b0 :: l =>
      let z := byteZ b0 in
      if z <? 0x80 then Some 1%nat
      else if z <? 0xC2 then None
      else if z <? 0xE0 then match l with b1 :: _ => if cont 0x80 0xBF b1 then Some 2%nat else None | _ => None end
      else if z <? 0xF0 then
        match l with
        | b1 :: b2 :: _ =>
            if cont (if z =? 0xE0 then 0xA0 else 0x80) (if z =? 0xED then 0x9F else 0xBF) b1 && cont 0x80 0xBF b2 then Some 3%nat else None
        | _ => None
        end
      else if z <? 0xF5 then
        match l with
        | b1 :: b2 :: b3 :: _ =>
            if cont (if z =? 0xF0 then 0x90 else 0x80) (if z =? 0xF4 then 0x8F else 0xBF) b1 && cont 0x80 0xBF b2 && cont 0x80 0xBF b3 then Some 4%nat else None
        | _ => None
        end
      else None
  end.

(** The runes of a string, each as its encoding; a byte that starts none is U+FFFD. *)
Fixpoint runes_loop (fuel : nat) (l : gostring) : list gostring :=
  match fuel, l with
  | S fuel, b :: l' =>
      match rune_len l with
      | Some n => take n l :: runes_loop fuel (drop n l)
      | None => bytes [0xEF; 0xBF; 0xBD] :: runes_loop fuel l'
      end
  | _, _ => []
  end.
Definition runes (l : gostring) : list gostring := runes_loop (length l) l.

Definition maxIdentityClaimSets : Z := 1024.
Definition maxIdentityClaimsPerSet : Z := 8.
Definition maxIdentityTextRunes : Z := 512.
Definition maxIdentityInterfaceAddrsPerObservation : Z := 64.

Definition boundedIdentityText (value : gostring) : gostring :=
  let r := runes (TrimSpace value) in
  concat (if maxIdentityTextRunes <? len r then take (Z.to_nat maxIdentityTextRunes) r else r).

(** base64.RawURLEncoding *)
Definition b64_digit (z : Z) : byte :=
  Zbyte (if z <? 26 then 65 + z else if z <? 52 then 71 + z else if z <? 62 then z - 4 else if z =? 62 then 45 else 95).
Fixpoint RawURLEncoding (l : gostring) : gostring :=
  match l with
  | [] => []
  | [a] => let z := byteZ a * 16 in [b64_digit (z / 64); b64_digit (z mod 64)]
  | [a; b] => let z := (byteZ a * 256 + byteZ b) * 4 in [b64_digit (z / 4096); b64_digit (z / 64 mod 64); b64_digit (z mod 64)]
  | a :: b :: c :: l =>
      let z := byteZ a * 65536 + byteZ b * 256 + byteZ c in
      b64_digit (z / 262144) :: b64_digit (z / 4096 mod 64) :: b64_digit (z / 64 mod 64) :: b64_digit (z mod 64) :: RawURLEncoding l
  end.

(** ** Claims *)

Definition IdentityManagementAddress : gostring := str "management_address".
Definition IdentityDeviceName : gostring := str "device_name".
Definition IdentityInterfaceAddress : gostring := str "interface_address".
Definition IdentityInterfaceName : gostring := str "interface_name".
Definition IdentityInterfaceIndex : gostring := str "interface_index".

Record IdentityClaim := mkClaim {
  Value : gostring; cl_Source : gostring; cl_AgentID : gostring; Basis : gostring; cl_FirstSeen : Time; cl_LastSeen : Time }.
#[export] Instance claim_eta : Eta IdentityClaim := λ c, mkClaim (Value c) (cl_Source c) (cl_AgentID c) (Basis c) (cl_FirstSeen c) (cl_LastSeen c).

Record identityClaimSet := mkSet { kind : gostring; subject : gostring; claims : gmap gostring IdentityClaim; lastSeen : Time }.
#[export] Instance claimSet_eta : Eta identityClaimSet := λ s, mkSet (kind s) (subject s) (claims s) (lastSeen s).

(** The part of a graph that holds the claims. *)
Record Claims := mkClaims { identityClaims : gmap gostring identityClaimSet; identityClaimsTruncated : bool }.
#[export] Instance claims_eta : Eta Claims := λ s, mkClaims (identityClaims s) (identityClaimsTruncated s).

Definition noClaims : Claims := mkClaims ∅ false.

Section identity.
(** strings.ToLower *)
Context (ToLower : gostring → gostring).

Definition identityClaimKey (kind subject : gostring) : gostring := kind ++ [x00] ++ ToLower (TrimSpace subject).

Definition identityClaimOrigin (c : IdentityClaim) : gostring := ToLower (cl_Source c) ++ [x00] ++ cl_AgentID c ++ [x00] ++ ToLower (Value c).

Definition identityConflictID (kind subject : gostring) : gostring :=
  str "identity:" ++ kind ++ str ":" ++ RawURLEncoding (ToLower (TrimSpace subject)).

(** The least recently seen key, the least one among those seen last at the same time: the order
    of ranging does not matter. *)
Definition older {A} (seen : A → Time) (acc : gostring * Time) (kv : gostring * A) : gostring * Time :=
  let '(oldestKey, oldest) := acc in
  let t := seen kv.2 in
  if bool_decide (oldestKey = []) || Before t oldest || (bool_decide (t = oldest) && bytes_leb kv.1 oldestKey && negb (bool_decide (kv.1 = oldestKey)))
  then (kv.1, t) else acc.
Definition evictOldest {A} (seen : A → Time) (m : gmap gostring A) : gmap gostring A :=
  let oldestKey := (foldl (older seen) ([], zero_time) (map_to_list m)).1 in
  if bool_decide (oldestKey = []) then m else delete oldestKey m.

Definition evictOldestIdentityClaimSetLocked (c : Claims) : Claims := c <| identityClaims := evictOldest lastSeen (identityClaims c) |>.
Definition evictOldestIdentityClaimLocked (s : identityClaimSet) : identityClaimSet := s <| claims := evictOldest cl_LastSeen (claims s) |>.

Definition recordIdentityClaim (now : Time) (kind subject value source agentID basis : gostring) (at_ : Time) (g : Claims) : Claims :=
  let subject := boundedIdentityText subject in
  let value := boundedIdentityText value in
  if bool_decide (subject = []) || bool_decide (value = []) then g
  else
    let source := ToLower (boundedIdentityText source) in
    let source := if bool_decide (source = []) then str "device" else source in
    let at_ := if IsZero at_ then now else at_ in
    let claim := mkClaim value source (boundedIdentityText agentID) (boundedIdentityText basis) at_ at_ in
    let key := identityClaimKey kind subject in
    let '(set, g) :=
      match identityClaims g !! key with
      | Some set => (set, g)
      | None =>
          (mkSet kind subject ∅ at_,
           if maxIdentityClaimSets <=? Z.of_nat (size (identityClaims g))
           then (evictOldestIdentityClaimSetLocked g) <| identityClaimsTruncated := true |> else g)
      end in
    let origin := identityClaimOrigin claim in
    let '(set, g) :=
      match claims set !! origin with
      | Some current =>
          (set <| claims := <[origin := current <| cl_FirstSeen := if Before at_ (cl_FirstSeen current) then at_ else cl_FirstSeen current |>
                                                <| cl_LastSeen := if After at_ (cl_LastSeen current) then at_ else cl_LastSeen current |>]> (claims set) |>, g)
      | None =>
          let full := maxIdentityClaimsPerSet <=? Z.of_nat (size (claims set)) in
          let set := if full then evictOldestIdentityClaimLocked set else set in
          (set <| claims := <[origin := claim]> (claims set) |>, if full then g <| identityClaimsTruncated := true |> else g)
      end in
    let set := set <| lastSeen := if After at_ (lastSeen set) then at_ else lastSeen set |> in
    g <| identityClaims := <[key := set]> (identityClaims g) |>.

Definition markIdentityClaimsTruncated (g : Claims) : Claims := g <| identityClaimsTruncated := true |>.

(** Claims last seen before the cutoff go, and sets left empty; how many claims went. *)
Definition prune_set (cutoff : Time) (s : identityClaimSet) : option identityClaimSet :=
  let left := filter (λ kv : gostring * IdentityClaim, Before (cl_LastSeen kv.2) cutoff = false) (claims s) in
  if bool_decide (left = ∅) then None
  else Some (s <| claims := left |>
               <| lastSeen := foldl (λ t (kv : gostring * IdentityClaim), if After (cl_LastSeen kv.2) t then cl_LastSeen kv.2 else t) zero_time (map_to_list left) |>).
Definition pruneIdentityClaimsBeforeLocked (cutoff : Time) (g : Claims) : Z * Claims :=
  (foldl (λ n (kv : gostring * identityClaimSet),
            n + Z.of_nat (size (filter (λ c : gostring * IdentityClaim, Before (cl_LastSeen c.2) cutoff = true) (claims kv.2)))) 0 (map_to_list (identityClaims g)),
   g <| identityClaims := omap (prune_set cutoff) (identityClaims g) |>).

(** ** Conflicts *)

Record IdentityConflict := mkConflict {
  cf_ID : gostring; cf_Kind : gostring; cf_Subject : gostring; cf_Claims : list IdentityClaim; cf_FirstSeen : Time; cf_LastSeen : Time }.
Record IdentityConflictSnapshot := mkConflicts { Items : list IdentityConflict; cf_At : Time; Truncated : bool }.

(** Newest first, then by value, source and agent. *)
Definition claim_le (a b : IdentityClaim) : Prop :=
  if bool_decide (cl_LastSeen a = cl_LastSeen b) then
    if bool_decide (Value a = Value b) then
      if bool_decide (cl_Source a = cl_Source b) then bytes_le (cl_AgentID a) (cl_AgentID b) else bytes_le (cl_Source a) (cl_Source b)
    else bytes_le (Value a) (Value b)
  else After (cl_LastSeen a) (cl_LastSeen b) = true.
#[export] Instance claim_le_dec : RelDecision claim_le.
Proof. intros a b. unfold claim_le. repeat destruct (bool_decide _); apply _. Defined.

Definition conflict_le (a b : IdentityConflict) : Prop :=
  if bool_decide (cf_LastSeen a = cf_LastSeen b) then bytes_le (cf_ID a) (cf_ID b) else After (cf_LastSeen a) (cf_LastSeen b) = true.
#[export] Instance conflict_le_dec : RelDecision conflict_le.
Proof. intros a b. unfold conflict_le. destruct (bool_decide _); apply _. Defined.

Definition span (acc : Time * Time) (c : IdentityClaim) : Time * Time :=
  let '(first, last) := acc in
  (if IsZero first || Before (cl_FirstSeen c) first then cl_FirstSeen c else first, if After (cl_LastSeen c) last then cl_LastSeen c else last).

Definition conflict_of (s : identityClaimSet) : option IdentityConflict :=
  let cs := (map_to_list (claims s)).*2 in
  let '(first, last) := foldl span (zero_time, zero_time) cs in
  let values : gset gostring := list_to_set ((λ c, ToLower (Value c)) <$> cs) in
  if Z.of_nat (size values) <? 2 then None
  else Some (mkConflict (identityConflictID (kind s) (subject s)) (kind s) (subject s) (merge_sort claim_le cs) first last).

Definition IdentityConflicts (g : Claims) : IdentityConflictSnapshot :=
  let items := omap conflict_of (map_to_list (identityClaims g)).*2 in
  mkConflicts (merge_sort conflict_le items) (foldl (λ t i, if After (cf_LastSeen i) t then cf_LastSeen i else t) zero_time items) (identityClaimsTruncated g).

(** ** What a device observation claims *)

Definition observeDeviceIdentity (now : Time) (address name : gostring) (interfaceIPs : list gostring) (source agentID : gostring) (ifIndex : Z)
    (ifName : gostring) (at_ : Time) (g : Claims) : Claims :=
  let source := TrimSpace source in
  let source := if bool_decide (source = []) then str "device" else source in
  let g :=
    if negb (bool_decide (address = [])) && negb (bool_decide (name = [])) then
      recordIdentityClaim now IdentityManagementAddress name address source agentID (str "device.metric.device_address") at_
        (recordIdentityClaim now IdentityDeviceName address name source agentID (str "device.metric.device_name") at_ g)
    else g in
  let g :=
    if negb (bool_decide (address = [])) && negb (ifIndex =? 0) && negb (bool_decide (ifName = [])) then
      recordIdentityClaim now IdentityInterfaceIndex (address ++ str "@" ++ ifName) (dec ifIndex) source agentID (str "device.metric.interface_index") at_
        (recordIdentityClaim now IdentityInterfaceName (address ++ str "@" ++ dec ifIndex) ifName source agentID (str "device.metric.interface_name") at_ g)
    else g in
  let many := maxIdentityInterfaceAddrsPerObservation <? len interfaceIPs in
  let ips := if many then take (Z.to_nat maxIdentityInterfaceAddrsPerObservation) interfaceIPs else interfaceIPs in
  let g := if many then markIdentityClaimsTruncated g else g in
  foldl (λ g ip,
    if bool_decide (TrimSpace ip = []) || bool_decide (TrimSpace address = []) then g
    else recordIdentityClaim now IdentityInterfaceAddress ip address source agentID (str "device.inventory.interface_address") at_ g) g ips.

(** ** The claims stay bounded *)

Definition set_ok (s : identityClaimSet) : Prop := claims s !! [] = None ∧ Z.of_nat (size (claims s)) ≤ maxIdentityClaimsPerSet.

Record claims_ok (g : Claims) : Prop := {
  ck_nil : identityClaims g !! [] = None;
  ck_sets : Z.of_nat (size (identityClaims g)) ≤ maxIdentityClaimSets;
  ck_claims : map_Forall (λ _, set_ok) (identityClaims g) }.

Lemma older_fold {A} (seen : A → Time) (m : gmap gostring A) l k t :
  (∀ kv, kv ∈ l → is_Some (m !! kv.1) ∧ kv.1 ≠ []) → is_Some (m !! k) ∧ k ≠ [] →
  is_Some (m !! (foldl (older seen) (k, t) l).1) ∧ (foldl (older seen) (k, t) l).1 ≠ [].
Proof.
  revert k t. induction l as [|kv l IH]; intros k t Hl Hk; cbn [foldl]; [done|]. unfold older at 2 4.
  destruct (_ || _); (apply IH; [intros; apply Hl; by right|]); [apply Hl; by left|done].
Qed.

Lemma evictOldest_spec {A} (seen : A → Time) (m : gmap gostring A) : m !! [] = None → m ≠ ∅ → ∃ k, is_Some (m !! k) ∧ evictOldest seen m = delete k m.
Proof.
  intros Hn He. unfold evictOldest.
  assert (Hin : ∀ kv, kv ∈ map_to_list m → is_Some (m !! kv.1) ∧ kv.1 ≠ []).
  { intros [k v] Hk%elem_of_map_to_list. split; [by eexists|]. intros E. cbn in E. subst. congruence. }
  assert (Hne : map_to_list m ≠ []) by (by intros E%map_to_list_empty_iff).
  assert (H : is_Some (m !! (foldl (older seen) ([], zero_time) (map_to_list m)).1) ∧ (foldl (older seen) ([], zero_time) (map_to_list m)).1 ≠ []).
  { destruct (map_to_list m) as [|kv l]; [done|]. cbn [foldl]. unfold older at 2 4. rewrite bool_decide_eq_true_2 by done. cbn [orb].
    apply older_fold; [intros; apply Hin; by right|apply Hin; by left]. }
  destruct H as [Hs Hk]. eexists. split; [exact Hs|]. by rewrite bool_decide_eq_false_2.
Qed.

(** Evicting from a full map leaves room for one more. *)
Lemma evictOldest_room {A} (seen : A → Time) (m : gmap gostring A) (cap : Z) k x :
  0 < cap → m !! [] = None → Z.of_nat (size m) ≤ cap → m !! k = None → k ≠ [] →
  let m' := if cap <=? Z.of_nat (size m) then evictOldest seen m else m in m' ⊆ m ∧ <[k := x]> m' !! [] = None ∧ Z.of_nat (size (<[k := x]> m')) ≤ cap.
Proof.
  intros Hc Hn Hs Hk Hne m'. unfold m'. destruct (cap <=? Z.of_nat (size m)) eqn:E; zbool.
  - assert (He : m ≠ ∅) by (intros ->; rewrite map_size_empty in *; lia). destruct (evictOldest_spec seen m Hn He) as (j & Hj & ->).
    split; [apply delete_subseteq|]. rewrite lookup_insert_ne by done. split; [by apply lookup_delete_None; right|].
    rewrite map_size_insert_None by (by apply lookup_delete_None; right). rewrite map_size_delete_Some by done.
    assert (size m ≠ 0%nat) by (by intros ?%map_size_empty_iff). lia.
  - split; [done|]. rewrite lookup_insert_ne by done. split; [done|]. rewrite map_size_insert_None by done. lia.
Qed.

Lemma record_ok now kind subject value source agentID basis at_ g :
  claims_ok g → claims_ok (recordIdentityClaim now kind subject value source agentID basis at_ g).
Proof.
  intros [H1 H2 H3]. unfold recordIdentityClaim. destruct (_ || _); [done|].
  set (at' := if IsZero at_ then now else at_). set (claim := mkClaim _ _ _ _ _ _). set (key := identityClaimKey kind _). set (origin := identityClaimOrigin claim).
  assert (Hkey : key ≠ []) by (unfold key, identityClaimKey; by destruct kind). assert (Ho : origin ≠ []) by (unfold origin, identityClaimOrigin; by intros [_ ?]%app_nil).
  clearbody key origin at' claim.
  set (p := match identityClaims g !! key with Some _ => _ | None => _ end).
  assert (Hp : set_ok p.1 ∧ map_Forall (λ _, set_ok) (identityClaims p.2) ∧ (∀ x, <[key := x]> (identityClaims p.2) !! [] = None) ∧
               ∀ x, Z.of_nat (size (<[key := x]> (identityClaims p.2))) ≤ maxIdentityClaimSets).
  { unfold p. destruct (identityClaims g !! key) as [set|] eqn:E; cbn [fst snd].
    - split_and!; [by apply (H3 key)|done| |]; intros x; [by rewrite lookup_insert_ne|by rewrite map_size_insert_Some].
    - split; [split; cbn; [apply lookup_empty|by rewrite map_size_empty]|].
      assert (Hm : ∀ x, let m' := if maxIdentityClaimSets <=? Z.of_nat (size (identityClaims g)) then evictOldest lastSeen (identityClaims g) else identityClaims g in
                m' ⊆ identityClaims g ∧ <[key := x]> m' !! [] = None ∧ Z.of_nat (size (<[key := x]> m')) ≤ maxIdentityClaimSets)
        by (intros x; apply evictOldest_room; done).
      destruct (_ <=? _); cbn in *; (split_and!; [|apply Hm|apply Hm]); [|done]. intros k s Hk. apply (H3 k). eapply lookup_weaken; [done|]. by apply (Hm s). }
  destruct p as [set g1]. cbn [fst snd] in Hp. destruct Hp as ([S1 S2] & G1 & G2 & G3).
  destruct (claims set !! origin) as [current|] eqn:E.
  - split; cbn; [apply G2|apply G3|]. apply map_Forall_insert_2; [|done]. split; cbn; [by rewrite lookup_insert_ne|by rewrite map_size_insert_Some].
  - destruct (evictOldest_room cl_LastSeen (claims set) maxIdentityClaimsPerSet origin claim) as (_ & R2 & R3); [done|done|done|done|done|].
    destruct (maxIdentityClaimsPerSet <=? _); (split; cbn; [apply G2|apply G3|]); apply map_Forall_insert_2; try done; by split.
Qed.

Lemma device_ok now address name ips source agentID ifIndex ifName at_ g :
  claims_ok g → claims_ok (observeDeviceIdentity now address name ips source agentID ifIndex ifName at_ g).
Proof.
  intros Hg. unfold observeDeviceIdentity. set (g1 := if _ && _ then _ else g). assert (H1 : claims_ok g1) by (unfold g1; destruct (_ && _); by repeat apply record_ok).
  clearbody g1. set (g2 := if _ && _ then _ else g1). assert (H2 : claims_ok g2) by (unfold g2; destruct (_ && _); by repeat apply record_ok). clearbody g2.
  set (many := _ <? _). set (l := if many then _ else ips). set (g3 := if many then _ else g2).
  assert (H3 : claims_ok g3) by (unfold g3; destruct many; [by destruct H2|done]). clearbody g3 l. revert g3 H3.
  induction l as [|ip l IH]; intros g3 H3; cbn; [done|]. apply IH. destruct (_ || _); [done|]. by apply record_ok.
Qed.

Lemma prune_ok cutoff g : claims_ok g → claims_ok (pruneIdentityClaimsBeforeLocked cutoff g).2.
Proof.
  intros [H1 H2 H3]. unfold pruneIdentityClaimsBeforeLocked. split; cbn.
  - by rewrite lookup_omap, H1.
  - assert (dom (omap (prune_set cutoff) (identityClaims g)) ⊆ dom (identityClaims g)) as Hd%subseteq_size.
    { intros k. rewrite !elem_of_dom, lookup_omap. by destruct (identityClaims g !! k). }
    rewrite !size_dom in Hd. lia.
  - intros k s. rewrite lookup_omap. destruct (identityClaims g !! k) as [s0|] eqn:E; cbn; [|done]. destruct (H3 _ _ E) as [S1 S2].
    unfold prune_set. set (left := filter _ (claims s0)). destruct (bool_decide _); [done|]. intros [= <-].
    assert (left ⊆ claims s0) as Hs by apply map_filter_subseteq. split; cbn.
    + destruct (left !! []) eqn:El; [|done]. eapply lookup_weaken in El; [|exact Hs]. congruence.
    + apply map_subseteq_size in Hs. lia.
Qed.

End identity.
End TopoIdentity.
