(* ===== verification/Topology.v ===== *)
(** * The topology graph (internal/topology: model.go, graph.go, builder.go, physical_snapshot.go,
    subject.go)

    A tenant's graph of nodes and edges with validity intervals: upserts under caps, the
    observations that feed it, snapshots, neighbours and routes, retention and erasure.  The order
    in which Go ranges over a map is a parameter, as are case folding and time formatting. *)

From S2P Require Import Prelude GoHash GoTime GoString Incident Bfs TopoIdentity.
#[local] Open Scope Z_scope.

Module Topology.
Import Incident(Before, After).
Import TopoIdentity.

(** ** Nodes and edges *)

Abbreviation Attributes := (gmap gostring gostring).

Definition NodeAgent : gostring := str "agent".
Definition NodeHop : gostring := str "hop".
Definition NodeHost : gostring := str "host".
Definition NodeService : gostring := str "service".
Definition NodePrefix : gostring := str "prefix".
Definition NodeAS : gostring := str "as".
Definition NodeDevice : gostring := str "device".

Definition EdgePath : gostring := str "path".
Definition EdgeFlow : gostring := str "flow".
Definition EdgeRouting : gostring := str "routing".
Definition EdgeDevice : gostring := str "device".
Definition EdgePhysical : gostring := str "physical".

Record Node := mkNode { n_ID : gostring; n_Kind : gostring; n_Label : gostring; n_Attributes : Attributes; n_FirstSeen : Time; n_LastSeen : Time }.
#[export] Instance Node_eta : Eta Node := λ n, mkNode (n_ID n) (n_Kind n) (n_Label n) (n_Attributes n) (n_FirstSeen n) (n_LastSeen n).

Record Edge := mkEdge { e_ID : gostring; From : gostring; To : gostring; e_Kind : gostring; e_Label : gostring; e_Attributes : Attributes;
                        e_FirstSeen : Time; e_LastSeen : Time }.
#[export] Instance Edge_eta : Eta Edge := λ e,
  mkEdge (e_ID e) (From e) (To e) (e_Kind e) (e_Label e) (e_Attributes e) (e_FirstSeen e) (e_LastSeen e).

Record Snapshot := mkSnapshot { s_Tenant : gostring; s_At : Time; Nodes : list Node; Edges : list Edge }.

Definition EdgeID (from kind to : gostring) : gostring := from ++ str "|" ++ kind ++ str "|" ++ to.

(** A literal [Node{...}] or [Edge{...}] of the builder, not yet stamped with times. *)
Definition newNode (id kind label : gostring) (attrs : Attributes) : Node := mkNode id kind label attrs zero_time zero_time.
Definition newEdge (from to kind label : gostring) (attrs : Attributes) : Edge := mkEdge [] from to kind label attrs zero_time zero_time.

(** ** The graph *)

Record Bounds := mkBounds { MaxNodes : Z; MaxEdges : Z; Staleness : Z }.

Definition DefaultMaxNodesPerTenant : Z := 100000.
Definition DefaultMaxEdgesPerTenant : Z := 300000.
Definition DefaultStalenessHorizon : Z := 24 * Hour.
Definition DefaultBounds : Bounds := mkBounds DefaultMaxNodesPerTenant DefaultMaxEdgesPerTenant DefaultStalenessHorizon.

(** An agent and the address of the device it polls. *)
Abbreviation physicalSource := (gostring * gostring)%type.

Record Graph := mkGraph {
  tenant : gostring; nodes : gmap gostring Node; edges : gmap gostring Edge; identity : Claims; recent : list Edge;
  physicalSources : gmap physicalSource (gset gostring); physicalOwners : gmap gostring (gset physicalSource); physicalRetired : gmap gostring Time;
  physicalRemoteOnly : gset gostring; bounds : Bounds }.
#[export] Instance Graph_eta : Eta Graph := λ g,
  mkGraph (tenant g) (nodes g) (edges g) (identity g) (recent g) (physicalSources g) (physicalOwners g) (physicalRetired g) (physicalRemoteOnly g) (bounds g).

Definition NewGraphWithBounds (tenant : gostring) (b : Bounds) : Graph := mkGraph tenant ∅ ∅ noClaims [] ∅ ∅ ∅ ∅ b.
Definition NewGraph (tenant : gostring) : Graph := NewGraphWithBounds tenant DefaultBounds.

Definition setBounds (b : Bounds) (g : Graph) : Graph := g <| bounds := b |>.

Definition validAt (first last at_ : Time) : bool := negb (Before at_ first) && negb (After at_ last).

Definition deleteEdgeLocked (id : gostring) (g : Graph) : Graph :=
  g <| edges := delete id (edges g) |> <| physicalRetired := delete id (physicalRetired g) |> <| physicalOwners := delete id (physicalOwners g) |>
    <| physicalSources := (λ ids : gset gostring, ids ∖ {[id]}) <$> physicalSources g |>.

Section graph.
(** Ranging over a map. *)
Context (range : ∀ A : Type, gmap gostring A → list (gostring * A)).
Context (range_perm : ∀ A (m : gmap gostring A), range _ m ≡ₚ map_to_list m).
(** strings.ToLower, the reading of the clock where the code takes one, and Format(time.RFC3339Nano). *)
Context (ToLower : gostring → gostring) (now : Time) (FormatRFC3339Nano : Time → gostring).

(** ** Upserts *)

Definition oldest_of {A} (seen : A → Time) (acc : gostring * Time) (kv : gostring * A) : gostring * Time :=
  let '(oldestID, oldest) := acc in
  if bool_decide (oldestID = []) || Before (seen kv.2) oldest then (kv.1, seen kv.2) else acc.
Definition oldestID {A} (seen : A → Time) (m : gmap gostring A) : gostring := (foldl (oldest_of seen) ([], zero_time) (range _ m)).1.

Definition evictOldestNodeLocked (g : Graph) : Graph :=
  let id := oldestID n_LastSeen (nodes g) in
  if bool_decide (id = []) then g
  else g <| nodes := delete id (nodes g) |> <| physicalRemoteOnly := physicalRemoteOnly g ∖ {[id]} |>.

Definition evictOldestEdgeLocked (g : Graph) : Graph :=
  let id := oldestID e_LastSeen (edges g) in
  if bool_decide (id = []) then g else deleteEdgeLocked id g.

Definition full (cap : Z) (count : nat) : bool := (0 <? cap) && (cap <=? Z.of_nat count).

Definition upsertNodeLocked (n : Node) (at_ : Time) (g : Graph) : Graph :=
  match nodes g !! n_ID n with
  | None =>
      let g := if full (MaxNodes (bounds g)) (size (nodes g)) then evictOldestNodeLocked g else g in
      g <| nodes := <[n_ID n := n <| n_FirstSeen := at_ |> <| n_LastSeen := at_ |>]> (nodes g) |>
  | Some cur =>
      g <| nodes := <[n_ID n :=
        cur <| n_FirstSeen := if Before at_ (n_FirstSeen cur) then at_ else n_FirstSeen cur |>
            <| n_LastSeen := if After at_ (n_LastSeen cur) then at_ else n_LastSeen cur |>
            <| n_Label := if bool_decide (n_Label n = []) then n_Label cur else n_Label n |>
            <| n_Kind := if bool_decide (n_Kind n = []) then n_Kind cur else n_Kind n |>
            <| n_Attributes := n_Attributes n ∪ n_Attributes cur |>]> (nodes g) |>
  end.

Definition UpsertNode (n : Node) (at_ : Time) (g : Graph) : Graph :=
  let g := upsertNodeLocked n at_ g in g <| physicalRemoteOnly := physicalRemoteOnly g ∖ {[n_ID n]} |>.

Definition upsertEdgeLocked (e : Edge) (at_ : Time) (g : Graph) : Graph :=
  let e := if bool_decide (e_ID e = []) then e <| e_ID := EdgeID (From e) (e_Kind e) (To e) |> else e in
  match edges g !! e_ID e with
  | None =>
      let g := if full (MaxEdges (bounds g)) (size (edges g)) then evictOldestEdgeLocked g else g in
      let g := g <| edges := <[e_ID e := e <| e_FirstSeen := at_ |> <| e_LastSeen := at_ |>]> (edges g) |>
                 <| recent := recent g ++ [mkEdge (e_ID e) (From e) (To e) (e_Kind e) [] ∅ zero_time zero_time] |> in
      if bool_decide (e_Kind e = EdgePhysical) then g <| physicalRetired := delete (e_ID e) (physicalRetired g) |> else g
  | Some cur =>
      let g := g <| edges := <[e_ID e :=
        cur <| e_FirstSeen := if Before at_ (e_FirstSeen cur) then at_ else e_FirstSeen cur |>
            <| e_LastSeen := if After at_ (e_LastSeen cur) then at_ else e_LastSeen cur |>
            <| e_Label := if bool_decide (e_Label e = []) then e_Label cur else e_Label e |>
            <| e_Attributes := e_Attributes e ∪ e_Attributes cur |>]> (edges g) |> in
      if bool_decide (e_Kind e = EdgePhysical) then
        match physicalRetired g !! e_ID e with
        | Some retiredAt => if Before at_ retiredAt then g else g <| physicalRetired := delete (e_ID e) (physicalRetired g) |>
        | None => g
        end
      else g
  end.

Definition UpsertEdge (e : Edge) (at_ : Time) (g : Graph) : Graph := upsertEdgeLocked e at_ g.

(** ** Queries *)

Definition node_le (a b : Node) : Prop := bytes_le (n_ID a) (n_ID b).
#[export] Instance node_le_dec : RelDecision node_le := λ a b, decide (bytes_le (n_ID a) (n_ID b)).
Definition edge_le (a b : Edge) : Prop := bytes_le (e_ID a) (e_ID b).
#[export] Instance edge_le_dec : RelDecision edge_le := λ a b, decide (bytes_le (e_ID a) (e_ID b)).

(** The identifiers of nodes and edges are their keys, so the sort settles the order. *)
Definition sortSnapshot (s : Snapshot) : Snapshot := mkSnapshot (s_Tenant s) (s_At s) (merge_sort node_le (Nodes s)) (merge_sort edge_le (Edges s)).

Definition SnapshotAt (at_ : Time) (g : Graph) : Snapshot :=
  sortSnapshot (mkSnapshot (tenant g) at_
    (List.filter (λ n, validAt (n_FirstSeen n) (n_LastSeen n) at_) (range _ (nodes g)).*2)
    (List.filter (λ e, validAt (e_FirstSeen e) (e_LastSeen e) at_) (range _ (edges g)).*2)).

Definition newer (t u : Time) : Time := if After u t then u else t.
Definition leadingEdgeLocked (g : Graph) : Time :=
  foldl newer (foldl newer zero_time (n_LastSeen <$> (range _ (nodes g)).*2)) (e_LastSeen <$> (range _ (edges g)).*2).

Definition stalenessCutoffLocked (g : Graph) : Time :=
  if Staleness (bounds g) <=? 0 then zero_time
  else let ref := leadingEdgeLocked g in GoTime.Add (if IsZero ref then now else ref) (- Staleness (bounds g)).

Definition Latest (g : Graph) : Snapshot :=
  let cutoff := stalenessCutoffLocked g in
  let fresh t := IsZero cutoff || negb (Before t cutoff) in
  let es := List.filter (λ kv : gostring * Edge,
              negb (bool_decide (e_Kind kv.2 = EdgePhysical) && bool_decide (is_Some (physicalRetired g !! kv.1))) && fresh (e_LastSeen kv.2)) (range _ (edges g)) in
  let named : gset gostring := list_to_set (flat_map (λ kv : gostring * Edge, [From kv.2; To kv.2]) es) in
  let ns := List.filter (λ kv : gostring * Node,
              fresh (n_LastSeen kv.2) && negb (bool_decide (kv.1 ∈ physicalRemoteOnly g) && negb (bool_decide (kv.1 ∈ named)))) (range _ (nodes g)) in
  sortSnapshot (mkSnapshot (tenant g) (foldl newer zero_time (n_LastSeen <$> ns.*2)) ns.*2 es.*2).

(** A set collected in a map and returned sorted. *)
Definition sorted_set (s : gset gostring) : list gostring := merge_sort bytes_le (elements s).

Definition Neighbors (nodeID : gostring) (at_ : Time) (g : Graph) : list gostring :=
  sorted_set (list_to_set (omap (λ kv : gostring * Edge,
    let e := kv.2 in
    if negb (validAt (e_FirstSeen e) (e_LastSeen e) at_) then None
    else if bool_decide (nodeID = From e) then Some (To e)
    else if bool_decide (nodeID = To e) then Some (From e) else None) (range _ (edges g)))).

(** The targets of the valid edges from a node. *)
Definition adj_of (at_ : Time) (g : Graph) (cur : gostring) : list gostring :=
  omap (λ kv : gostring * Edge,
    if validAt (e_FirstSeen kv.2) (e_LastSeen kv.2) at_ && bool_decide (From kv.2 = cur) then Some (To kv.2) else None) (range _ (edges g)).

Fixpoint visit (to cur : gostring) (ns : list gostring) (prev : gmap gostring gostring) (visited : gset gostring) (queue : list gostring)
    : gmap gostring gostring + gmap gostring gostring * gset gostring * list gostring :=
  match ns with
  | [] => inr (prev, visited, queue)
  | n :: ns =>
      if bool_decide (n ∈ visited) then visit to cur ns prev visited queue
      else if bool_decide (n = to) then inl (<[n := cur]> prev)
      else visit to cur ns (<[n := cur]> prev) ({[n]} ∪ visited) (queue ++ [n])
  end.

Definition reconstruct (prev : gmap gostring gostring) (from to : gostring) : option (list gostring) :=
  reverse <$> climb (S (size prev)) prev from to.

Fixpoint traverse_loop (fuel : nat) (nbrs : gostring → list gostring) (from to : gostring) (prev : gmap gostring gostring) (visited : gset gostring)
    (queue : list gostring) : option (option (list gostring)) :=
  match queue with
  | [] => Some None
  | cur :: queue =>
      match fuel with
      | O => None
      | S fuel =>
          match visit to cur (merge_sort bytes_le (nbrs cur)) prev visited queue with
          | inl prev => Some <$> reconstruct prev from to
          | inr (prev, visited, queue) => traverse_loop fuel nbrs from to prev visited queue
          end
      end
  end.

(** Fuel: every round takes a node off the queue that was reached by an edge. *)
Definition Traverse (from to : gostring) (at_ : Time) (g : Graph) : option (option (list gostring)) :=
  if bool_decide (from = to) then Some (Some [from])
  else traverse_loop (S (size (edges g))) (adj_of at_ g) from to ∅ {[from]} [from].

Definition nodeCount (g : Graph) : Z := Z.of_nat (size (nodes g)).
Definition edgeCount (g : Graph) : Z := Z.of_nat (size (edges g)).

Definition allEdges (g : Graph) : list Edge := (range _ (edges g)).*2.
Definition edgeValidAt (id : gostring) (at_ : Time) (g : Graph) : bool :=
  match edges g !! id with Some e => validAt (e_FirstSeen e) (e_LastSeen e) at_ | None => false end.
Definition drainRecentEdges (g : Graph) : list Edge * Graph := (recent g, g <| recent := [] |>).

(** ** Retention and erasure *)

Definition keep_recent (g : Graph) : Graph := g <| recent := List.filter (λ e, bool_decide (is_Some (edges g !! e_ID e))) (recent g) |>.

Definition delete_edges (ids : list gostring) (g : Graph) : Graph := foldl (λ g id, deleteEdgeLocked id g) g ids.

Definition PruneBefore (cutoff : Time) (g : Graph) : Z * Z * Graph :=
  if IsZero cutoff then (0, 0, g)
  else
    let '(claimsDeleted, c) := pruneIdentityClaimsBeforeLocked cutoff (identity g) in
    let g := g <| identity := c |> in
    let old := (List.filter (λ kv : gostring * Edge, Before (e_LastSeen kv.2) cutoff) (range _ (edges g))).*1 in
    let g := delete_edges old g in
    let gone := (List.filter (λ kv : gostring * Node, Before (n_LastSeen kv.2) cutoff) (range _ (nodes g))).*1 in
    let g := g <| nodes := foldl (λ m id, delete id m) (nodes g) gone |> <| physicalRemoteOnly := physicalRemoteOnly g ∖ list_to_set gone |> in
    let dangling := (List.filter (λ kv : gostring * Edge,
                       bool_decide (nodes g !! From kv.2 = None) || bool_decide (nodes g !! To kv.2 = None)) (range _ (edges g))).*1 in
    let g := delete_edges dangling g in
    (claimsDeleted + len gone, len old + len dangling, keep_recent g).

(** strings.Contains *)
Fixpoint Contains (s sub : gostring) : bool := HasPrefix s sub || match s with [] => false | _ :: s => Contains s sub end.

Definition subjectTextContains (subject : gostring) (values : list gostring) : bool := existsb (λ v, Contains (ToLower v) subject) values.
Definition attrsMatchSubject (attrs : Attributes) (subject : gostring) : bool :=
  existsb (λ kv : gostring * gostring, subjectTextContains subject [kv.1; kv.2]) (map_to_list attrs).
Definition nodeMatchesSubject (n : Node) (subject : gostring) : bool :=
  subjectTextContains subject [n_ID n; n_Label n; n_Kind n] || attrsMatchSubject (n_Attributes n) subject.
Definition edgeMatchesSubject (e : Edge) (subject : gostring) : bool :=
  subjectTextContains subject [e_ID e; From e; To e; e_Label e; e_Kind e] || attrsMatchSubject (e_Attributes e) subject.

Record Erasure := mkErasure { deleted : Z; remaining : Z; deviceDeleted : Z; deviceRemaining : Z }.

Definition DeleteSubject (subject : gostring) (g : Graph) : Erasure * Graph :=
  let subject := ToLower (TrimSpace subject) in
  if bool_decide (subject = []) then (mkErasure 0 0 0 0, g)
  else
    let ns := filter (λ kv : gostring * Node, nodeMatchesSubject kv.2 subject = true) (nodes g) in
    let devices (m : gmap gostring Node) := Z.of_nat (size (filter (λ kv : gostring * Node, n_Kind kv.2 = NodeDevice) m)) in
    let es := filter (λ kv : gostring * Edge,
                From kv.2 ∈ dom ns ∨ To kv.2 ∈ dom ns ∨ edgeMatchesSubject kv.2 subject = true) (edges g) in
    let g := g <| nodes := nodes g ∖ ns |> <| edges := edges g ∖ es |> in
    let ns' := filter (λ kv : gostring * Node, nodeMatchesSubject kv.2 subject = true) (nodes g) in
    let es' := filter (λ kv : gostring * Edge, edgeMatchesSubject kv.2 subject = true) (edges g) in
    (mkErasure (Z.of_nat (size ns) + Z.of_nat (size es)) (Z.of_nat (size ns') + Z.of_nat (size es')) (devices ns) (devices ns'), keep_recent g).

End graph.
End Topology.
