(* ===== verification/TopoBuilder.v ===== *)
(** * Feeding and serving topology graphs (internal/topology: builder.go, physical_snapshot.go,
    indexed.go, store.go)

    The observations of the planes as upserts, LLDP/CDP snapshots that replace what their source
    reported before, the engine with adjacency indexes, and the stores of both engines. *)

From S2P Require Import Prelude GoHash GoTime GoString Incident Bfs TopoIdentity Topology.
#[local] Open Scope Z_scope.

Module TopoBuilder.
Import Incident(Before, After).
Import TopoIdentity Topology.

(** ** Observations *)

Record Link := mkLink { l_From : gostring; l_To : gostring }.
Record PathInput := mkPath { p_AgentID : gostring; p_Target : gostring; TargetIP : gostring; Hops : list gostring; Links : list Link }.
Record ServiceEdgeInput := mkService { sv_Source : gostring; Destination : gostring; DestPort : Z; Transport : gostring; sv_Protocol : gostring }.
Record RoutingInput := mkRouting { Prefix : gostring; OriginASN : Z; PeerASN : Z; EventType : gostring }.
Record DeviceInput := mkDevice {
  Address : gostring; d_Name : gostring; InterfaceIPs : list gostring; d_Source : gostring; d_AgentID : gostring; IfIndex : Z; IfName : gostring }.
Record PhysicalAdjacencyInput := mkPhysical {
  LocalAddress : gostring; LocalName : gostring; LocalPort : gostring; RemoteAddress : gostring; RemoteIdentity : gostring; RemoteName : gostring;
  RemotePort : gostring; ph_Protocol : gostring; ph_Confidence : gostring; SourceAgent : gostring; FreshUntil : Time }.
#[export] Instance Physical_eta : Eta PhysicalAdjacencyInput := λ p,
  mkPhysical (LocalAddress p) (LocalName p) (LocalPort p) (RemoteAddress p) (RemoteIdentity p) (RemoteName p) (RemotePort p) (ph_Protocol p)
    (ph_Confidence p) (SourceAgent p) (FreshUntil p).
Record PhysicalAdjacencySnapshot := mkPhysicalSnapshot { ps_SourceAgent : gostring; ps_LocalAddress : gostring; Adjacencies : list PhysicalAdjacencyInput }.

Definition hopID (ip : gostring) : gostring := str "hop:" ++ ip.
Definition hostID (ip : gostring) : gostring := str "host:" ++ ip.
Definition agentID (id : gostring) : gostring := str "agent:" ++ id.
Definition serviceID (id : gostring) : gostring := str "service:" ++ id.
Definition prefixID (cidr : gostring) : gostring := str "prefix:" ++ cidr.
Definition asID (asn : Z) : gostring := str "as:" ++ dec asn.
Definition deviceID (addr : gostring) : gostring := str "device:" ++ addr.

Fixpoint firstNonEmpty (s : list gostring) : gostring :=
  match s with
  | [] => []
  | v :: s => if bool_decide (v = []) then firstNonEmpty s else v
  end.
Definition lastNonEmpty (s : list gostring) : gostring := firstNonEmpty (reverse s).

(** An attribute that is only set when the condition holds. *)
Definition attr_if (b : bool) (k : string) (v : gostring) : list (gostring * gostring) := if b then [(str k, v)] else [].

(** The separator of edge identifiers. *)
Definition bar : byte := x7c.

Lemma not_in_app (c : byte) (a b : gostring) : c ∉ a → c ∉ b → c ∉ a ++ b.
Proof. intros ? ? [?|?]%elem_of_app; done. Qed.

Lemma no_bar_str (s : string) : bool_decide (bar ∈ str s) = false → bar ∉ str s.
Proof. apply bool_decide_eq_false_1. Qed.

Ltac no_bar := repeat apply not_in_app; try assumption; try (apply no_bar_str; vm_compute; reflexivity).

Section build.
Context (range : ∀ A : Type, gmap gostring A → list (gostring * A)).
Context (ToLower : gostring → gostring) (FormatRFC3339Nano : Time → gostring).

Abbreviation node id kind label := (UpsertNode range (newNode id kind label ∅)).
Abbreviation edge from to kind := (UpsertEdge range (newEdge from to kind [] ∅)).

Definition observe_hop (at_ : Time) (g : Graph) (ip : gostring) : Graph :=
  if bool_decide (ip = []) then g else node (hopID ip) NodeHop ip at_ g.
Definition observe_link (at_ : Time) (g : Graph) (l : Link) : Graph :=
  if bool_decide (l_From l = []) || bool_decide (l_To l = []) then g
  else edge (hopID (l_From l)) (hopID (l_To l)) EdgePath at_
         (node (hopID (l_To l)) NodeHop (l_To l) at_ (node (hopID (l_From l)) NodeHop (l_From l) at_ g)).

Definition ObservePath (p : PathInput) (at_ : Time) (g : Graph) : Graph :=
  let g := if bool_decide (p_AgentID p = []) then g else node (agentID (p_AgentID p)) NodeAgent (p_AgentID p) at_ g in
  let target := if bool_decide (TargetIP p = []) then [] else hostID (TargetIP p) in
  let g := if bool_decide (TargetIP p = []) then g else node target NodeHost (p_Target p) at_ g in
  let g := foldl (observe_hop at_) g (Hops p) in
  let g := foldl (observe_link at_) g (Links p) in
  let first := firstNonEmpty (Hops p) in
  let g := if bool_decide (p_AgentID p = []) || bool_decide (first = []) then g else edge (agentID (p_AgentID p)) (hopID first) EdgePath at_ g in
  let last := lastNonEmpty (Hops p) in
  if bool_decide (target = []) || bool_decide (last = []) || bool_decide (hopID last = target) then g
  else edge (hopID last) target EdgePath at_ g.

Definition ObserveServiceEdge (s : ServiceEdgeInput) (at_ : Time) (g : Graph) : Graph :=
  if bool_decide (sv_Source s = []) || bool_decide (Destination s = []) then g
  else
    let src := serviceID (sv_Source s) in
    let dst := serviceID (Destination s) in
    let g := node dst NodeService (Destination s) at_ (node src NodeService (sv_Source s) at_ g) in
    let attrs := list_to_map (attr_if (negb (DestPort s =? 0)) "destination.port" (dec (DestPort s))
                              ++ attr_if (negb (bool_decide (Transport s = []))) "network.transport" (Transport s)
                              ++ attr_if (negb (bool_decide (sv_Protocol s = []))) "network.protocol.name" (sv_Protocol s)) in
    UpsertEdge range (newEdge src dst EdgeFlow (sv_Protocol s) attrs) at_ g.

Definition observe_interface (dev : gostring) (at_ : Time) (g : Graph) (ip : gostring) : Graph :=
  if bool_decide (ip = []) then g else edge dev (hopID ip) EdgeDevice at_ (node (hopID ip) NodeHop ip at_ g).

Definition ObserveDevice (now : Time) (d : DeviceInput) (at_ : Time) (g : Graph) : Graph :=
  if bool_decide (Address d = []) then g
  else
    let g := g <| identity := observeDeviceIdentity ToLower now (Address d) (d_Name d) (InterfaceIPs d) (d_Source d) (d_AgentID d) (IfIndex d) (IfName d) at_ (identity g) |> in
    let dev := deviceID (Address d) in
    let label := if bool_decide (d_Name d = []) then Address d else d_Name d in
    let g := UpsertNode range (newNode dev NodeDevice label {[str "probectl.device.address" := Address d]}) at_ g in
    foldl (observe_interface dev at_) g (InterfaceIPs d).

(** strings.Trim of spaces and arrows *)
Definition arrow : gostring := bytes [0xE2; 0x86; 0x94].
Definition TrimArrow (l : gostring) : gostring :=
  let l := trim_loop (length l) [str " "; arrow] l in
  reverse (trim_loop (length l) [str " "; reverse arrow] (reverse l)).

Definition physicalAdjacencyElements (p : PhysicalAdjacencyInput) : option (Node * Node * Edge) :=
  if bool_decide (LocalAddress p = []) || (bool_decide (RemoteAddress p = []) && bool_decide (RemoteIdentity p = [])) then None
  else
    let local := deviceID (LocalAddress p) in
    let localNode := newNode local NodeDevice (firstNonEmpty [LocalName p; LocalAddress p]) {[str "probectl.device.address" := LocalAddress p]} in
    let remoteKey := if bool_decide (RemoteAddress p = []) then ph_Protocol p ++ str ":" ++ RemoteIdentity p else RemoteAddress p in
    let remote := deviceID remoteKey in
    let remoteNode := newNode remote NodeDevice (firstNonEmpty [RemoteName p; RemoteAddress p; RemoteIdentity p])
      (list_to_map ((str "probectl.device.identity", RemoteIdentity p)
                    :: attr_if (negb (bool_decide (RemoteAddress p = []))) "probectl.device.address" (RemoteAddress p))) in
    let label := TrimArrow (LocalPort p ++ str " " ++ arrow ++ str " " ++ RemotePort p) in
    let attrs := list_to_map
      ([(str "probectl.device.neighbor.protocol", ph_Protocol p); (str "probectl.device.neighbor.confidence", ph_Confidence p);
        (str "probectl.device.local_port", LocalPort p); (str "probectl.device.remote_port", RemotePort p)]
       ++ attr_if (negb (bool_decide (SourceAgent p = []))) "probectl.agent.id" (SourceAgent p)
       ++ attr_if (negb (IsZero (FreshUntil p))) "probectl.device.neighbor.fresh_until" (FormatRFC3339Nano (FreshUntil p))) in
    Some (localNode, remoteNode, (newEdge local remote EdgePhysical label attrs) <| e_ID := EdgeID local EdgePhysical remote |>).

Definition ObservePhysicalAdjacency (p : PhysicalAdjacencyInput) (at_ : Time) (g : Graph) : Graph :=
  match physicalAdjacencyElements p with
  | None => g
  | Some (local, remote, e) => UpsertEdge range e at_ (UpsertNode range remote at_ (UpsertNode range local at_ g))
  end.

Definition ObserveRouting (r : RoutingInput) (at_ : Time) (g : Graph) : Graph :=
  if bool_decide (Prefix r = []) || (OriginASN r =? 0) then g
  else
    let as_ := asID (OriginASN r) in
    let pfx := prefixID (Prefix r) in
    let g := node pfx NodePrefix (Prefix r) at_ (node as_ NodeAS (str "AS" ++ dec (OriginASN r)) at_ g) in
    let attrs := list_to_map (attr_if (negb (bool_decide (EventType r = []))) "probectl.bgp.event_type" (EventType r)
                              ++ attr_if (negb (PeerASN r =? 0)) "probectl.bgp.peer_asn" (dec (PeerASN r))) in
    UpsertEdge range (newEdge as_ pfx EdgeRouting [] attrs) at_ g.

(** ** Physical snapshots *)

(** The elements a snapshot asks for, by edge; a later adjacency replaces an earlier one. *)
Definition desired_of (s : PhysicalAdjacencySnapshot) : gmap gostring (Node * Node * Edge) :=
  foldl (λ m a, match physicalAdjacencyElements (a <| SourceAgent := ps_SourceAgent s |> <| LocalAddress := ps_LocalAddress s |>) with
                | None => m
                | Some el => <[e_ID el.2 := el]> m
                end) ∅ (Adjacencies s).

Definition apply_element (source : physicalSource) (at_ : Time) (g : Graph) (kv : gostring * (Node * Node * Edge)) : Graph :=
  let '(edgeID, (local, remote, e)) := kv in
  let known := bool_decide (is_Some (nodes g !! n_ID remote)) in
  let remoteOnly := bool_decide (n_ID remote ∈ physicalRemoteOnly g) in
  let g := upsertNodeLocked range local at_ g in
  let g := g <| physicalRemoteOnly := physicalRemoteOnly g ∖ {[n_ID local]} |> in
  let g := upsertNodeLocked range remote at_ g in
  let g := if negb known || remoteOnly then g <| physicalRemoteOnly := {[n_ID remote]} ∪ physicalRemoteOnly g |> else g in
  let g := upsertEdgeLocked range e at_ g in
  g <| physicalOwners := <[edgeID := {[source]} ∪ default ∅ (physicalOwners g !! edgeID)]> (physicalOwners g) |>
    <| physicalRetired := delete edgeID (physicalRetired g) |>.

(** An edge the source no longer reports is retired when no other source owns it. *)
Definition release (source : physicalSource) (at_ : Time) (g : Graph) (edgeID : gostring) : Graph :=
  let owners := default ∅ (physicalOwners g !! edgeID) ∖ {[source]} in
  if bool_decide (owners = ∅) then
    g <| physicalOwners := delete edgeID (physicalOwners g) |> <| physicalRetired := <[edgeID := at_]> (physicalRetired g) |>
  else g <| physicalOwners := <[edgeID := owners]> (physicalOwners g) |>.

(** [previous] in the code is the set the graph holds, so evictions during the upserts have
    already left it when it is ranged over. *)
Definition ReplacePhysicalAdjacencies (s : PhysicalAdjacencySnapshot) (at_ : Time) (g : Graph) : Graph :=
  if bool_decide (ps_SourceAgent s = []) || bool_decide (ps_LocalAddress s = []) || IsZero at_ then g
  else
    let source := (ps_SourceAgent s, ps_LocalAddress s) in
    let desired := desired_of s in
    let g := foldl (apply_element source at_) g (range _ desired) in
    let previous := default ∅ (physicalSources g !! source) in
    let g := foldl (release source at_) g (elements (previous ∖ dom desired)) in
    if bool_decide (desired = ∅) then g <| physicalSources := delete source (physicalSources g) |>
    else g <| physicalSources := <[source := dom desired]> (physicalSources g) |>.

(** ** The indexed engine *)

Abbreviation Index := (gmap gostring (gmap gostring gostring)).

Record indexedGraph := mkIndexed { inner : Graph; fwd : Index; rev_ : Index }.

Definition newIndexedGraph (tenant : gostring) (b : Bounds) : indexedGraph := mkIndexed (NewGraphWithBounds tenant b) ∅ ∅.

Definition index_put (a b id : gostring) (m : Index) : Index := <[a := <[b := id]> (default ∅ (m !! a))]> m.
Definition index_edge (ix : Index * Index) (e : Edge) : Index * Index :=
  (index_put (From e) (To e) (e_ID e) ix.1, index_put (To e) (From e) (e_ID e) ix.2).

Definition observe (fn : Graph → Graph) (ig : indexedGraph) : indexedGraph :=
  let '(touched, g) := drainRecentEdges (fn (inner ig)) in
  let ix := foldl index_edge (fwd ig, rev_ ig) touched in
  mkIndexed g ix.1 ix.2.

Definition rebuildIndexes (g : Graph) : indexedGraph :=
  let ix := foldl index_edge (∅, ∅) (allEdges range g) in mkIndexed g ix.1 ix.2.

Definition pruneBefore (cutoff : Time) (ig : indexedGraph) : Z * indexedGraph :=
  let '(ns, es, g) := PruneBefore range cutoff (inner ig) in
  if ns + es =? 0 then (0, mkIndexed g (fwd ig) (rev_ ig)) else (ns + es, rebuildIndexes g).

Definition deleteSubject (subject : gostring) (ig : indexedGraph) : Erasure * indexedGraph :=
  let '(r, g) := DeleteSubject ToLower subject (inner ig) in
  (r, if 0 <? deleted r then rebuildIndexes g else mkIndexed g (fwd ig) (rev_ ig)).

(** The entries of a node whose edge is valid. *)
Definition valid_entries (at_ : Time) (g : Graph) (m : Index) (n : gostring) : list gostring :=
  (List.filter (λ kv : gostring * gostring, edgeValidAt kv.2 at_ g) (range _ (default ∅ (m !! n)))).*1.

Definition neighbors (nodeID : gostring) (at_ : Time) (ig : indexedGraph) : list gostring :=
  sorted_set (list_to_set (valid_entries at_ (inner ig) (fwd ig) nodeID ++ valid_entries at_ (inner ig) (rev_ ig) nodeID)).

Fixpoint indexed_loop (fuel : nat) (next : gostring → list gostring) (from to : gostring) (parent : gmap gostring gostring) (queue : list gostring)
    : option (option (list gostring)) :=
  match queue with
  | [] => Some None
  | cur :: queue =>
      match fuel with
      | O => None
      | S fuel =>
          match expand_to to cur (merge_sort bytes_le (next cur)) parent queue with
          | inl parent => Some <$> rebuild parent from to
          | inr (parent, queue) => indexed_loop fuel next from to parent queue
          end
      end
  end.

Definition traverse (from to : gostring) (at_ : Time) (ig : indexedGraph) : option (option (list gostring)) :=
  if bool_decide (from = to) then Some (Some [from])
  else indexed_loop (S (size (edges (inner ig)))) (valid_entries at_ (inner ig) (fwd ig)) from to {[from := from]} [from].

(** ** One observation *)

Inductive Obs :=
| DoPath (p : PathInput)
| DoServiceEdge (s : ServiceEdgeInput)
| DoRouting (r : RoutingInput)
| DoDevice (now : Time) (d : DeviceInput)
| DoPhysicalAdjacency (p : PhysicalAdjacencyInput)
| DoReplacePhysical (s : PhysicalAdjacencySnapshot).

Definition apply_obs (o : Obs) (at_ : Time) : Graph → Graph :=
  match o with
  | DoPath p => ObservePath p at_
  | DoServiceEdge s => ObserveServiceEdge s at_
  | DoRouting r => ObserveRouting r at_
  | DoDevice now d => ObserveDevice now d at_
  | DoPhysicalAdjacency p => ObservePhysicalAdjacency p at_
  | DoReplacePhysical s => ReplacePhysicalAdjacencies s at_
  end.

(** ** What every observation preserves *)

(** The kind of an edge between two nodes follows from their names. *)
Definition kind_of (from to : gostring) : gostring :=
  if HasPrefix from (str "service:") then EdgeFlow
  else if HasPrefix from (str "as:") then EdgeRouting
  else if HasPrefix from (str "device:") then if HasPrefix to (str "device:") then EdgePhysical else EdgeDevice
  else EdgePath.

(** What the observations hand to an upsert: an edge with no identifier yet or the canonical one,
    of the kind its ends imply, from a node whose identifier is as [from_ok] demands. *)
Definition edge_good (from_ok : gostring → Prop) (e : Edge) : Prop :=
  (e_ID e = [] ∨ e_ID e = EdgeID (From e) (e_Kind e) (To e)) ∧ e_Kind e = kind_of (From e) (To e) ∧ from_ok (From e) ∧ From e ≠ [] ∧ To e ≠ [].

(** The nodes that start edges in an observation have identifiers as [from_ok] demands. *)
Definition starts_ok (from_ok : gostring → Prop) (o : Obs) : Prop :=
  match o with
  | DoPath p => from_ok (agentID (p_AgentID p)) ∧ Forall (λ h, from_ok (hopID h)) (Hops p) ∧ Forall (λ l, from_ok (hopID (l_From l))) (Links p)
  | DoServiceEdge s => from_ok (serviceID (sv_Source s))
  | DoRouting r => from_ok (asID (OriginASN r))
  | DoDevice _ d => from_ok (deviceID (Address d))
  | DoPhysicalAdjacency p => from_ok (deviceID (LocalAddress p))
  | DoReplacePhysical s => from_ok (deviceID (ps_LocalAddress s))
  end.

Definition any_id (id : gostring) : Prop := True.
Definition no_bar_id (id : gostring) : Prop := bar ∉ id.

Lemma starts_any o : starts_ok any_id o.
Proof. unfold any_id. destruct o as [p|s|r|now d|p|s]; cbn; try done. split; [done|]. split; by apply Forall_true. Qed.

(** The names of an observation that start edges have no bar in them. *)
Definition obs_good (o : Obs) : Prop :=
  match o with
  | DoPath p => bar ∉ p_AgentID p ∧ Forall (λ h, bar ∉ h) (Hops p) ∧ Forall (λ l, bar ∉ l_From l) (Links p)
  | DoServiceEdge s => bar ∉ sv_Source s
  | DoRouting r => 0 ≤ OriginASN r < 2 ^ 32
  | DoDevice _ d => bar ∉ Address d
  | DoPhysicalAdjacency p => bar ∉ LocalAddress p
  | DoReplacePhysical s => bar ∉ ps_LocalAddress s
  end.

Lemma starts_good o : obs_good o → starts_ok no_bar_id o.
Proof.
  assert (Hid : ∀ pre name, bar ∉ str pre → bar ∉ name → no_bar_id (str pre ++ name)) by (intros; unfold no_bar_id; no_bar).
  destruct o as [p|s|r|now d|p|s]; cbn [obs_good starts_ok]; [intros (Ha & Hh & Hl)|intros Hb..].
  - split_and!; [by apply Hid; [no_bar|]|eapply Forall_impl; [exact Hh|]|eapply Forall_impl; [exact Hl|]]; intros x Hx; (apply Hid; [no_bar|exact Hx]).
  - by apply Hid; [no_bar|].
  - apply Hid; [no_bar|]. destruct (dec_spec (OriginASN r)) as (_ & Hd & _); [lia|]. by apply not_digit_elem.
  - by apply Hid; [no_bar|].
  - by apply Hid; [no_bar|].
  - by apply Hid; [no_bar|].
Qed.

(** The same nodes, edges, fresh edges and claims under the same bounds. *)
Definition framed (g g' : Graph) : Prop :=
  nodes g = nodes g' ∧ edges g = edges g' ∧ recent g = recent g' ∧ bounds g = bounds g' ∧ tenant g = tenant g' ∧ identity g = identity g'.

Record stable (from_ok : gostring → Prop) (P : Graph → Prop) : Prop := {
  st_frame : ∀ g g', framed g g' → P g → P g';
  st_claims : ∀ now a n ips s ag ix ifn at_ g, P g → P (g <| identity := observeDeviceIdentity ToLower now a n ips s ag ix ifn at_ (identity g) |>);
  st_node : ∀ n at_ g, n_ID n ≠ [] → P g → P (upsertNodeLocked range n at_ g);
  st_edge : ∀ e at_ g, edge_good from_ok e → P g → P (upsertEdgeLocked range e at_ g) }.

Section stable.
Context (from_ok : gostring → Prop) (P : Graph → Prop) (HP : stable from_ok P).

Lemma stable_UpsertNode n at_ g : n_ID n ≠ [] → P g → P (UpsertNode range n at_ g).
Proof. intros Hn Hg. eapply (st_frame from_ok P HP); [|by apply (st_node from_ok P HP); [exact Hn|exact Hg]]. done. Qed.

Lemma stable_foldl {A} (f : Graph → A → Graph) (Q : A → Prop) l g :
  (∀ g a, Q a → P g → P (f g a)) → Forall Q l → P g → P (foldl f g l).
Proof. intros Hf Hl. revert g. induction Hl as [|a l Ha Hl IH]; intros g Hg; cbn; [done|]. apply IH. by apply Hf. Qed.

Lemma good_edge from to kind label attrs : kind = kind_of from to → from ≠ [] → to ≠ [] → from_ok from → edge_good from_ok (newEdge from to kind label attrs).
Proof. intros ? ? ? ?. split; [by left|done]. Qed.

Lemma first_good (Q : gostring → Prop) l : Forall Q l → firstNonEmpty l ≠ [] → Q (firstNonEmpty l).
Proof. induction 1 as [|x l Hx Hl IH]; cbn; [done|]. destruct (bool_decide_reflect (x = [])); auto. Qed.

Lemma stable_path p at_ g : starts_ok from_ok (DoPath p) → P g → P (ObservePath p at_ g).
Proof.
  intros (Ha & Hh & Hl) Hg. unfold ObservePath. set (target := if bool_decide (TargetIP p = []) then [] else hostID (TargetIP p)).
  match goal with |- context [foldl (observe_link at_) ?g0 (Links p)] => assert (H0 : P (foldl (observe_link at_) g0 (Links p))) end.
  { eapply stable_foldl; [|exact Hl|]; [|eapply (stable_foldl _ (λ _, True)); [|by apply Forall_true|]].
    - intros g0 l Hb H0. unfold observe_link. destruct (_ || _); [done|]. apply (st_edge from_ok P HP); [by apply good_edge|].
      by do 2 (apply stable_UpsertNode; [done|]).
    - intros g0 h _ H0. unfold observe_hop. destruct (bool_decide (h = [])); [done|]. by apply stable_UpsertNode.
    - unfold target. destruct (bool_decide (TargetIP p = [])), (bool_decide (p_AgentID p = [])); repeat (apply stable_UpsertNode; [done|]); done. }
  set (g1 := foldl _ _ (Links p)) in *. clearbody g1.
  assert (H1 : P (if bool_decide (p_AgentID p = []) || bool_decide (firstNonEmpty (Hops p) = []) then g1
                  else UpsertEdge range (newEdge (agentID (p_AgentID p)) (hopID (firstNonEmpty (Hops p))) EdgePath [] ∅) at_ g1)).
  { destruct (_ || _); [done|]. apply (st_edge from_ok P HP); [|done]. by apply good_edge. }
  destruct (bool_decide (target = [])) eqn:Et; cbn [orb]; [done|]. destruct (bool_decide_reflect (lastNonEmpty (Hops p) = [])) as [|Hn]; cbn [orb]; [done|].
  match goal with |- P (if ?b then _ else _) => destruct b end; [done|]. apply (st_edge from_ok P HP); [|done]. apply good_edge.
  - unfold target. by destruct (bool_decide (TargetIP p = [])).
  - done.
  - by apply bool_decide_eq_false in Et.
  - apply (first_good (λ h, from_ok (hopID h)) (reverse (Hops p))); [|done]. rewrite reverse_Permutation. done.
Qed.

Lemma stable_service s at_ g : starts_ok from_ok (DoServiceEdge s) → P g → P (ObserveServiceEdge s at_ g).
Proof.
  intros Hb Hg. unfold ObserveServiceEdge. destruct (_ || _); [done|]. apply (st_edge from_ok P HP); [by apply good_edge|].
  by do 2 (apply stable_UpsertNode; [done|]).
Qed.

Lemma stable_routing r at_ g : starts_ok from_ok (DoRouting r) → P g → P (ObserveRouting r at_ g).
Proof.
  intros Hb Hg. unfold ObserveRouting. destruct (_ || _); [done|]. apply (st_edge from_ok P HP); [by apply good_edge|].
  by do 2 (apply stable_UpsertNode; [done|]).
Qed.

Lemma stable_device now d at_ g : starts_ok from_ok (DoDevice now d) → P g → P (ObserveDevice now d at_ g).
Proof.
  intros Hb Hg. unfold ObserveDevice. destruct (bool_decide (Address d = [])); [done|].
  eapply (stable_foldl _ (λ _, True)); [|by apply Forall_true|].
  - intros g0 ip _ H0. unfold observe_interface. destruct (bool_decide _); [done|].
    apply (st_edge from_ok P HP); [by apply good_edge|]. by apply stable_UpsertNode.
  - apply stable_UpsertNode; [done|]. by apply (st_claims from_ok P HP).
Qed.

Lemma physical_good p local remote e :
  from_ok (deviceID (LocalAddress p)) → physicalAdjacencyElements p = Some (local, remote, e) → n_ID local ≠ [] ∧ n_ID remote ≠ [] ∧ edge_good from_ok e.
Proof.
  intros Hb. unfold physicalAdjacencyElements. destruct (_ || _); [done|]. intros [= <- <- <-]. split; [done|]. split; [done|].
  split; [by right|]. by split.
Qed.

Lemma stable_physical p at_ g : starts_ok from_ok (DoPhysicalAdjacency p) → P g → P (ObservePhysicalAdjacency p at_ g).
Proof.
  intros Hb Hg. unfold ObservePhysicalAdjacency. destruct (physicalAdjacencyElements p) as [[[local remote] e]|] eqn:E; [|done].
  destruct (physical_good _ _ _ _ Hb E) as (Hl & Hr & He). apply (st_edge from_ok P HP); [done|]. by do 2 (apply stable_UpsertNode; [done|]).
Qed.

Definition element_good (el : Node * Node * Edge) : Prop := n_ID el.1.1 ≠ [] ∧ n_ID el.1.2 ≠ [] ∧ edge_good from_ok el.2.

Lemma desired_good s : from_ok (deviceID (ps_LocalAddress s)) → map_Forall (λ _, element_good) (desired_of s).
Proof.
  intros Hb. unfold desired_of. assert (H : map_Forall (λ _, element_good) (∅ : gmap gostring (Node * Node * Edge))) by apply map_Forall_empty.
  revert H. generalize (∅ : gmap gostring (Node * Node * Edge)) as m. induction (Adjacencies s) as [|a l IH]; intros m Hm; cbn; [done|]. apply IH.
  destruct (physicalAdjacencyElements _) as [[[local remote] e]|] eqn:E; [|done]. apply map_Forall_insert_2; [|done]. by eapply physical_good in E.
Qed.

Lemma stable_replace s at_ g :
  (∀ A (m : gmap gostring A), range A m ≡ₚ map_to_list m) → starts_ok from_ok (DoReplacePhysical s) → P g → P (ReplacePhysicalAdjacencies s at_ g).
Proof.
  intros Hr Hb Hg. unfold ReplacePhysicalAdjacencies. destruct (_ || _ || _); [done|]. set (source := (_, _)).
  assert (H0 : P (foldl (apply_element source at_) g (range _ (desired_of s)))).
  { eapply (stable_foldl _ (λ kv, element_good kv.2)); [| |done].
    - intros g0 [id [[local remote] e]] (Hl & Hr' & He) H0. cbn in Hl, Hr', He. unfold apply_element.
      eapply (st_frame from_ok P HP); [|apply (st_edge from_ok P HP); [exact He|]]; [split_and!; reflexivity|].
      assert (H1 : P (upsertNodeLocked range remote at_ ((upsertNodeLocked range local at_ g0)
                        <| physicalRemoteOnly := physicalRemoteOnly (upsertNodeLocked range local at_ g0) ∖ {[n_ID local]} |>))).
      { apply (st_node from_ok P HP); [done|]. eapply (st_frame from_ok P HP); [|by apply (st_node from_ok P HP); [exact Hl|exact H0]]. done. }
      destruct (_ || _); [|exact H1]. eapply (st_frame from_ok P HP); [|exact H1]. done.
    - rewrite Hr. apply Forall_forall. intros [k el] Hk%elem_of_map_to_list. by eapply (desired_good s Hb). }
  set (g1 := foldl (apply_element _ _) _ _) in *. clearbody g1.
  assert (H1 : P (foldl (release source at_) g1 (elements (default ∅ (physicalSources g1 !! source) ∖ dom (desired_of s))))).
  { eapply (stable_foldl _ (λ _, True)); [|by apply Forall_true|done]. intros g0 id _ Hg0. unfold release. destruct (bool_decide _); (eapply (st_frame from_ok P HP); [|exact Hg0]; done). }
  destruct (bool_decide _); (eapply (st_frame from_ok P HP); [|exact H1]; done).
Qed.

Lemma stable_obs o at_ g :
  (∀ A (m : gmap gostring A), range A m ≡ₚ map_to_list m) → starts_ok from_ok o → P g → P (apply_obs o at_ g).
Proof.
  intros Hr. destruct o as [p|s|r|now d|p|s].
  - apply stable_path.
  - apply stable_service.
  - apply stable_routing.
  - apply stable_device.
  - apply stable_physical.
  - by apply stable_replace.
Qed.

End stable.
End build.
End TopoBuilder.
