(* ===== verification/TopoStore.v ===== *)
(** * Topology stores (internal/topology/store.go) and what both engines guarantee

    The tenant-bound stores over an engine, the invariant of every graph they hold, and the
    theorems: the indexed engine answers exactly as the plain one, and graphs stay bounded. *)

From S2P Require Import Prelude GoHash GoTime GoString Incident Bfs TopoIdentity Topology TopoBuilder.
#[local] Open Scope Z_scope.

Module TopoStore.
Import Incident(Before, After).
Import TopoIdentity Topology TopoBuilder.

(** strings.ContainsAny with the bytes NUL, slash and backslash *)
Definition has_separator (t : gostring) : bool := existsb (λ b, bool_decide (b ∈ [x00; x2f; x5c])) t.

(** The tenants a handle is given for: others are an error. *)
Definition normalizeTenant (t : gostring) : option gostring :=
  if bool_decide (TrimSpace t = []) then None
  else if negb (bool_decide (t = TrimSpace t)) || has_separator t || bool_decide (t = str ".") || bool_decide (t = str "..") then None
  else Some t.

(** What the engine behind a store does for one tenant. *)
Class Engine (G : Type) := {
  eng_new : gostring → Bounds → G;
  eng_observe : (Graph → Graph) → G → G;
  eng_prune : Time → G → Z * G;
  eng_erase : gostring → G → Erasure * G;
  eng_snapshotAt : Time → G → Snapshot;
  eng_latest : Time → G → Snapshot;
  eng_conflicts : G → IdentityConflictSnapshot;
  eng_neighbors : gostring → Time → G → list gostring;
  eng_traverse : gostring → gostring → Time → G → option (option (list gostring)) }.

Section stores.
Context (range : ∀ A : Type, gmap gostring A → list (gostring * A)).
Context (range_perm : ∀ A (m : gmap gostring A), range A m ≡ₚ map_to_list m).
Context (ToLower : gostring → gostring) (FormatRFC3339Nano : Time → gostring).

#[local] Instance memory_engine : Engine Graph := {|
  eng_new := NewGraphWithBounds;
  eng_observe fn g := fn g;
  eng_prune cutoff g := let '(ns, es, g) := PruneBefore range cutoff g in (ns + es, g);
  eng_erase := DeleteSubject ToLower;
  eng_snapshotAt := SnapshotAt range;
  eng_latest now := Latest range now;
  eng_conflicts g := IdentityConflicts ToLower (identity g);
  eng_neighbors := Neighbors range;
  eng_traverse := Traverse range |}.

#[local] Instance indexed_engine : Engine indexedGraph := {|
  eng_new := newIndexedGraph;
  eng_observe := observe;
  eng_prune := pruneBefore range;
  eng_erase := deleteSubject range ToLower;
  eng_snapshotAt at_ ig := SnapshotAt range at_ (inner ig);
  eng_latest now ig := Latest range now (inner ig);
  eng_conflicts ig := IdentityConflicts ToLower (identity (inner ig));
  eng_neighbors := neighbors range;
  eng_traverse := traverse range |}.

(** ** A store *)

Section store.
Context {G : Type} `{!Engine G}.

Record Store := mkStore { graphs : gmap gostring G; s_bounds : Bounds }.

Definition NewStoreWithBounds (b : Bounds) : Store := mkStore ∅ b.

Inductive Op :=
| DoObserve (t : gostring) (o : Obs) (at_ : Time)
| DoDeleteTenant (t : gostring)
| DoPruneTenantBefore (t : gostring) (cutoff : Time)
| DoDeleteSubject (t subject : gostring)
| AskSnapshotAt (t : gostring) (at_ : Time)
| AskLatest (t : gostring) (now : Time)
| AskConflicts (t : gostring)
| AskNeighbors (t node : gostring) (at_ : Time)
| AskTraverse (t from to : gostring) (at_ : Time).

Inductive Answer :=
| ErrTenant
| Done
| Count (n : Z)
| Erased (r : Erasure)
| Snap (s : Snapshot)
| Conflicts (c : IdentityConflictSnapshot)
| Ids (l : list gostring)
| Route (r : option (option (list gostring))).

Definition graph (t : gostring) (s : Store) : G := default (eng_new t (s_bounds s)) (graphs s !! t).

(** A question to the tenant's graph, answered by [none] when there is no graph yet. *)
Definition ask (t : gostring) (none : Answer) (f : G → Answer) (s : Store) : Answer * Store :=
  match normalizeTenant t with
  | None => (ErrTenant, s)
  | Some t => (match graphs s !! t with Some g => f g | None => none end, s)
  end.

Definition emptySnapshot (t : gostring) (at_ : Time) : Snapshot := mkSnapshot t at_ [] [].

Definition do_op (op : Op) (s : Store) : Answer * Store :=
  match op with
  | DoObserve t o at_ =>
      match normalizeTenant t with
      | None => (ErrTenant, s)
      | Some t => (Done, mkStore (<[t := eng_observe (apply_obs range ToLower FormatRFC3339Nano o at_) (graph t s)]> (graphs s)) (s_bounds s))
      end
  | DoDeleteTenant t =>
      match normalizeTenant t with
      | None => (Count 0, s)
      | Some t => if bool_decide (graphs s !! t = None) then (Count 0, s) else (Count 1, mkStore (delete t (graphs s)) (s_bounds s))
      end
  | DoPruneTenantBefore t cutoff =>
      match normalizeTenant t with
      | None => (Count 0, s)
      | Some t => match graphs s !! t with
                  | None => (Count 0, s)
                  | Some g => let '(n, g) := eng_prune cutoff g in (Count n, mkStore (<[t := g]> (graphs s)) (s_bounds s))
                  end
      end
  | DoDeleteSubject t subject =>
      match graphs s !! t with
      | None => (Erased (mkErasure 0 0 0 0), s)
      | Some g => let '(r, g) := eng_erase subject g in (Erased r, mkStore (<[t := g]> (graphs s)) (s_bounds s))
      end
  | AskSnapshotAt t at_ => ask t (Snap (emptySnapshot t at_)) (λ g, Snap (eng_snapshotAt at_ g)) s
  | AskLatest t now => ask t (Snap (emptySnapshot t zero_time)) (λ g, Snap (eng_latest now g)) s
  | AskConflicts t => ask t (Conflicts (mkConflicts [] zero_time false)) (λ g, Conflicts (eng_conflicts g)) s
  | AskNeighbors t node at_ => ask t (Ids []) (λ g, Ids (eng_neighbors node at_ g)) s
  | AskTraverse t from to at_ => ask t (Route (Some None)) (λ g, Route (eng_traverse from to at_ g)) s
  end.

Fixpoint run (ops : list Op) (s : Store) : list Answer * Store :=
  match ops with
  | [] => ([], s)
  | op :: ops => let '(a, s) := do_op op s in let '(l, s) := run ops s in (a :: l, s)
  end.

End store.
Arguments Store : clear implicits.

(** ** The graphs of a store *)

Definition edge_ok (id : gostring) (e : Edge) : Prop :=
  e_ID e = id ∧ id = EdgeID (From e) (e_Kind e) (To e) ∧ e_Kind e = kind_of (From e) (To e).

Definition within (cap : Z) (count : nat) : Prop := 0 < cap → Z.of_nat count ≤ cap.

Record graph_ok (g : Graph) : Prop := {
  ok_edges : map_Forall edge_ok (edges g);
  ok_nodes : map_Forall (λ id n, n_ID n = id ∧ id ≠ []) (nodes g);
  ok_recent : Forall (λ r, edge_ok (e_ID r) r) (recent g);
  ok_node_count : within (MaxNodes (bounds g)) (size (nodes g));
  ok_edge_count : within (MaxEdges (bounds g)) (size (edges g)) }.

Lemma elem_of_list_filter_bool {A} (f : A → bool) x l : x ∈ List.filter f l → x ∈ l.
Proof. induction l as [|y l IH]; cbn; [done|]. destruct (f y); intros H; [apply elem_of_cons in H as [->|H]; [by left|right; auto]|right; auto]. Qed.

Lemma oldest_fold {A} (seen : A → Time) (m : gmap gostring A) l k t :
  (∀ kv, kv ∈ l → is_Some (m !! kv.1) ∧ kv.1 ≠ []) → is_Some (m !! k) ∧ k ≠ [] →
  is_Some (m !! (foldl (oldest_of seen) (k, t) l).1) ∧ (foldl (oldest_of seen) (k, t) l).1 ≠ [].
Proof.
  revert k t. induction l as [|kv l IH]; intros k t Hl Hk; cbn [foldl]; [done|]. unfold oldest_of at 2 4.
  destruct (_ || _); (apply IH; [intros; apply Hl; by right|]); [apply Hl; by left|done].
Qed.

Lemma oldest_in {A} (seen : A → Time) (m : gmap gostring A) : m !! [] = None → m ≠ ∅ → is_Some (m !! oldestID range seen m) ∧ oldestID range seen m ≠ [].
Proof.
  intros Hn He. unfold oldestID.
  assert (Hin : ∀ kv, kv ∈ range A m → is_Some (m !! kv.1) ∧ kv.1 ≠ []).
  { intros [k v] Hk. rewrite range_perm in Hk. apply elem_of_map_to_list in Hk. split; [by eexists|]. intros E. cbn in E. subst. congruence. }
  assert (Hne : range A m ≠ []). { intros E. apply He, map_to_list_empty_iff, Permutation_nil_r. by rewrite <- E, range_perm. }
  destruct (range A m) as [|kv l]; [done|]. cbn [foldl]. unfold oldest_of at 2 4. rewrite bool_decide_eq_true_2 by done. cbn [orb].
  apply oldest_fold; [intros; apply Hin; by right|apply Hin; by left].
Qed.

Lemma edges_no_nil g : graph_ok g → edges g !! [] = None.
Proof. intros Hg. destruct (edges g !! []) as [e|] eqn:E; [|done]. apply (ok_edges _ Hg) in E as (_ & E & _). unfold EdgeID in E. by destruct (From e). Qed.

Lemma nodes_no_nil g : graph_ok g → nodes g !! [] = None.
Proof. intros Hg. destruct (nodes g !! []) as [n|] eqn:E; [|done]. by apply (ok_nodes _ Hg) in E as [_ E]. Qed.

(** Evicting makes room for one. *)
Lemma evict_room {A} (seen : A → Time) (m : gmap gostring A) cap k x :
  m !! [] = None → within cap (size m) → m !! k = None →
  within cap (size (<[k := x]> (if full cap (size m) then delete (oldestID range seen m) m else m))).
Proof.
  intros Hn Hw Hk Hc. specialize (Hw Hc). unfold full. destruct ((0 <? cap) && (cap <=? Z.of_nat (size m))) eqn:E.
  - apply andb_true_iff in E as [_ E]. zbool. assert (Hne : m ≠ ∅) by (intros ->; rewrite map_size_empty in *; lia).
    destruct (oldest_in seen m Hn Hne) as [Hs _]. rewrite map_size_insert_None by (by apply lookup_delete_None; right). rewrite map_size_delete_Some by done.
    assert (size m ≠ 0%nat) by (by intros ?%map_size_empty_iff). lia.
  - apply andb_false_iff in E. rewrite map_size_insert_None by done. destruct E; zbool; lia.
Qed.

Lemma full_nonempty {A} (cap : Z) (m : gmap gostring A) : full cap (size m) = true → m ≠ ∅.
Proof. intros [H1 H2]%andb_true_iff ->. rewrite map_size_empty in H2. zbool. lia. Qed.

Lemma evicted_node g :
  graph_ok g → full (MaxNodes (bounds g)) (size (nodes g)) = true →
  evictOldestNodeLocked range g =
    g <| nodes := delete (oldestID range n_LastSeen (nodes g)) (nodes g) |>
      <| physicalRemoteOnly := physicalRemoteOnly g ∖ {[oldestID range n_LastSeen (nodes g)]} |>.
Proof.
  intros Hg Hf%full_nonempty. unfold evictOldestNodeLocked. rewrite bool_decide_eq_false_2; [done|]. apply oldest_in; [by apply nodes_no_nil|done].
Qed.

Lemma evicted_edge g :
  graph_ok g → full (MaxEdges (bounds g)) (size (edges g)) = true →
  evictOldestEdgeLocked range g = deleteEdgeLocked (oldestID range e_LastSeen (edges g)) g.
Proof.
  intros Hg Hf%full_nonempty. unfold evictOldestEdgeLocked. rewrite bool_decide_eq_false_2; [done|]. apply oldest_in; [by apply edges_no_nil|done].
Qed.

Lemma good_id q e : edge_good q e → (if bool_decide (e_ID e = []) then e <| e_ID := EdgeID (From e) (e_Kind e) (To e) |> else e) = e <| e_ID := EdgeID (From e) (e_Kind e) (To e) |>.
Proof.
  intros [[E|E] _]; destruct (bool_decide_reflect (e_ID e = [])) as [|H]; try done. destruct e; cbn in *. by rewrite E.
Qed.

(** What an upsert does to the edges and to the fresh ones. *)
Lemma upsert_edge_spec q e at_ g :
  graph_ok g → edge_good q e →
  let id := EdgeID (From e) (e_Kind e) (To e) in
  let g' := upsertEdgeLocked range e at_ g in
  nodes g' = nodes g ∧ bounds g' = bounds g ∧ tenant g' = tenant g ∧
  match edges g !! id with
  | Some cur => recent g' = recent g ∧ ∃ cur', edges g' = <[id := cur']> (edges g) ∧ e_ID cur' = e_ID cur ∧ From cur' = From cur ∧ To cur' = To cur ∧ e_Kind cur' = e_Kind cur
  | None => recent g' = recent g ++ [mkEdge id (From e) (To e) (e_Kind e) [] ∅ zero_time zero_time] ∧
            ∃ e', edges g' = <[id := e']> (if full (MaxEdges (bounds g)) (size (edges g)) then delete (oldestID range e_LastSeen (edges g)) (edges g) else edges g)
                  ∧ e_ID e' = id ∧ From e' = From e ∧ To e' = To e ∧ e_Kind e' = e_Kind e
  end.
Proof.
  intros Hg He id g'. unfold g', upsertEdgeLocked. rewrite (good_id q e He). cbn [e_ID From To e_Kind update]. fold id.
  destruct (edges g !! id) as [cur|] eqn:E; cbn [e_ID].
  - destruct (bool_decide (_ = EdgePhysical)); [destruct (physicalRetired _ !! _) as [rt|]; [destruct (Before at_ rt)|]|]; (split_and!; [done..|]); (eexists; split; [done|done]).
  - destruct (full _ _) eqn:Ef; [rewrite (evicted_edge g Hg Ef)|]; destruct (bool_decide (_ = EdgePhysical)); split_and!; try done. all: by eexists; split; [reflexivity|].
Qed.

Lemma graph_ok_stable q : stable range ToLower q graph_ok.
Proof.
  split.
  - intros g g' (E1 & E2 & E3 & E4 & _ & _) [H1 H2 H3 H4 H5]. split; by rewrite <- ?E1, <- ?E2, <- ?E3, <- ?E4.
  - intros ? ? ? ? ? ? ? ? ? g [H1 H2 H3 H4 H5]. by split.
  - intros n at_ g Hn Hg. unfold upsertNodeLocked. destruct (nodes g !! n_ID n) as [cur|] eqn:E.
    + destruct (ok_nodes _ Hg _ _ E) as [Hid _]. destruct Hg as [H1 H2 H3 H4 H5]. split; cbn; try done.
      * by apply map_Forall_insert_2.
      * by rewrite map_size_insert_Some.
    + pose proof (evict_room n_LastSeen (nodes g) (MaxNodes (bounds g)) (n_ID n) (n <| n_FirstSeen := at_ |> <| n_LastSeen := at_ |>)
                    (nodes_no_nil g Hg) (ok_node_count _ Hg) E) as Hroom.
      destruct (full _ _) eqn:Ef; [rewrite (evicted_node g Hg Ef)|]; destruct Hg as [H1 H2 H3 H4 H5]; split; cbn; try done; apply map_Forall_insert_2; try done.
      by apply map_Forall_delete.
  - intros e at_ g He Hg. pose proof (upsert_edge_spec q e at_ g Hg He) as Hu. cbn zeta in Hu. set (g' := upsertEdgeLocked range e at_ g) in *.
    set (id := EdgeID (From e) (e_Kind e) (To e)) in *. clearbody g'. destruct Hu as (En & Eb & _ & Hu).
    destruct (edges g !! id) as [cur|] eqn:E.
    + destruct Hu as (Er & cur' & Ee & E1 & E2 & E3 & E4). destruct (ok_edges _ Hg _ _ E) as (I1 & I2 & I3). destruct Hg as [H1 H2 H3 H4 H5].
      split; rewrite ?En, ?Eb, ?Ee, ?Er; try done.
      * apply map_Forall_insert_2; [|done]. unfold edge_ok. by rewrite E1, E2, E3, E4.
      * by rewrite map_size_insert_Some.
    + destruct Hu as (Er & e' & Ee & E1 & E2 & E3 & E4). destruct He as (_ & Hk & _).
      pose proof (evict_room e_LastSeen (edges g) (MaxEdges (bounds g)) id e' (edges_no_nil g Hg) (ok_edge_count _ Hg) E) as Hroom.
      destruct Hg as [H1 H2 H3 H4 H5]. split; rewrite ?En, ?Eb, ?Ee, ?Er; try done.
      * apply map_Forall_insert_2; [unfold edge_ok; by rewrite E1, E2, E3, E4|]. destruct (full _ _); [by apply map_Forall_delete|done].
      * apply Forall_app. split; [done|]. by constructor.
Qed.

(** Taking nodes, edges and fresh edges away keeps a graph in order. *)
Record shrinks (g g' : Graph) : Prop := {
  sk_edges : edges g' ⊆ edges g;
  sk_nodes : nodes g' ⊆ nodes g;
  sk_recent : ∀ r, r ∈ recent g' → r ∈ recent g;
  sk_bounds : bounds g' = bounds g }.

Lemma shrinks_ok g g' : shrinks g g' → graph_ok g → graph_ok g'.
Proof.
  intros [S1 S2 S3 S4] [H1 H2 H3 H4 H5]. split; rewrite ?S4.
  - intros id e He. apply H1. by eapply lookup_weaken.
  - intros id n Hn. apply (H2 id n). by eapply lookup_weaken.
  - apply Forall_forall. intros r Hr%S3. by eapply Forall_forall in H3.
  - intros Hc. specialize (H4 Hc). apply map_subseteq_size in S2. lia.
  - intros Hc. specialize (H5 Hc). apply map_subseteq_size in S1. lia.
Qed.

Lemma delete_edges_spec ids g :
  edges (delete_edges ids g) = foldl (λ m id, delete id m) (edges g) ids ∧ nodes (delete_edges ids g) = nodes g ∧
  recent (delete_edges ids g) = recent g ∧ bounds (delete_edges ids g) = bounds g ∧ tenant (delete_edges ids g) = tenant g ∧ identity (delete_edges ids g) = identity g.
Proof. revert g. induction ids as [|id ids IH]; intros g; cbn; [done|]. apply (IH (deleteEdgeLocked id g)). Qed.

Lemma foldl_delete_subseteq {A} (m : gmap gostring A) ids : foldl (λ m id, delete id m) m ids ⊆ m.
Proof. revert m. induction ids as [|id ids IH]; intros m; cbn; [done|]. etrans; [apply IH|]. apply delete_subseteq. Qed.

Lemma prune_parts c old gone ro dangling g :
  let g2 := delete_edges old (g <| identity := c |>) in
  let g3 := g2 <| nodes := foldl (λ m id, delete id m) (nodes g2) gone |> <| physicalRemoteOnly := ro |> in
  shrinks g (keep_recent (delete_edges dangling g3)) ∧ identity (keep_recent (delete_edges dangling g3)) = c.
Proof.
  intros g2 g3. destruct (delete_edges_spec old (g <| identity := c |>)) as (E1 & E2 & E3 & E4 & E5 & E6). fold g2 in E1, E2, E3, E4, E5, E6.
  destruct (delete_edges_spec dangling g3) as (F1 & F2 & F3 & F4 & F5 & F6). set (g4 := delete_edges dangling g3) in *. split; [|cbn; rewrite F6; exact E6]. split; cbn.
  - rewrite F1. etrans; [apply foldl_delete_subseteq|]. cbn. rewrite E1. apply foldl_delete_subseteq.
  - rewrite F2. cbn. rewrite E2. apply foldl_delete_subseteq.
  - intros r Hr%elem_of_list_filter_bool. rewrite F3 in Hr. cbn in Hr. by rewrite E3 in Hr.
  - rewrite F4. cbn. by rewrite E4.
Qed.

Lemma prune_shrinks cutoff g : shrinks g (PruneBefore range cutoff g).2.
Proof.
  unfold PruneBefore. destruct (IsZero cutoff); [done|]. destruct (pruneIdentityClaimsBeforeLocked cutoff (identity g)) as [n c]. apply prune_parts.
Qed.

Lemma erase_shrinks subject g : shrinks g (DeleteSubject ToLower subject g).2.
Proof.
  unfold DeleteSubject. destruct (bool_decide _); [done|]. split; cbn; try done.
  - apply map_subseteq_difference_l, reflexivity.
  - apply map_subseteq_difference_l, reflexivity.
  - by intros r Hr%elem_of_list_filter_bool.
Qed.

(** ** The indexes *)

Definition entry (m : gmap gostring (gmap gostring gostring)) (a b : gostring) : option gostring := m !! a ≫= λ r, r !! b.

Lemma entry_put a b id m a' b' : entry (index_put a b id m) a' b' = if decide (a = a' ∧ b = b') then Some id else entry m a' b'.
Proof.
  unfold entry, index_put. destruct (decide (a = a')) as [<-|Ha].
  - rewrite lookup_insert_eq. cbn. destruct (decide (b = b')) as [<-|Hb].
    + rewrite lookup_insert_eq. by rewrite decide_True.
    + rewrite lookup_insert_ne by done. rewrite decide_False by tauto. destruct (m !! a); [done|]. cbn. apply lookup_empty.
  - rewrite lookup_insert_ne by done. by rewrite decide_False by tauto.
Qed.

Definition canonical (a b id : gostring) : Prop := id = EdgeID a (kind_of a b) b.

Record index_ok (f r : gmap gostring (gmap gostring gostring)) : Prop := {
  ix_fwd : ∀ a b id, entry f a b = Some id → canonical a b id;
  ix_rev : ∀ a b id, entry r b a = Some id → canonical a b id }.

Definition indexed (f r : gmap gostring (gmap gostring gostring)) (e : Edge) : Prop :=
  entry f (From e) (To e) = Some (e_ID e) ∧ entry r (To e) (From e) = Some (e_ID e).

Lemma edge_canonical e : edge_ok (e_ID e) e → canonical (From e) (To e) (e_ID e).
Proof. intros (_ & E & Ek). unfold canonical. by rewrite E, Ek. Qed.

Lemma index_edge_spec f r e :
  edge_ok (e_ID e) e → index_ok f r →
  index_ok (index_edge (f, r) e).1 (index_edge (f, r) e).2 ∧ indexed (index_edge (f, r) e).1 (index_edge (f, r) e).2 e ∧
  ∀ e', edge_ok (e_ID e') e' → indexed f r e' → indexed (index_edge (f, r) e).1 (index_edge (f, r) e).2 e'.
Proof.
  intros He%edge_canonical [Hf Hr]. cbn. split_and!.
  - split; intros a b id; rewrite entry_put; destruct (decide _) as [[<- <-]|]; try (by intros [= <-]); auto.
  - unfold indexed. rewrite !entry_put. by rewrite !decide_True.
  - intros e' He'%edge_canonical [H1 H2]. unfold indexed. rewrite !entry_put.
    destruct (decide (From e = From e' ∧ To e = To e')) as [[Ea Eb]|Hne].
    + rewrite decide_True by done. unfold canonical in He, He'. by rewrite He, He', Ea, Eb.
    + rewrite decide_False by tauto. done.
Qed.

Lemma index_fold_spec l f r :
  Forall (λ e, edge_ok (e_ID e) e) l → index_ok f r →
  let ix := foldl index_edge (f, r) l in
  index_ok ix.1 ix.2 ∧ (∀ e, e ∈ l → indexed ix.1 ix.2 e) ∧ ∀ e', edge_ok (e_ID e') e' → indexed f r e' → indexed ix.1 ix.2 e'.
Proof.
  intros Hl. revert f r. induction Hl as [|e l He Hl IH]; intros f r Hix; cbn; [split_and!; [done|by intros e ?%elem_of_nil|done]|].
  destruct (index_edge_spec f r e He Hix) as (H1 & H2 & H3). destruct (IH _ _ H1) as (I1 & I2 & I3). split_and!; [done| |auto].
  intros e' [->|Hin]%elem_of_cons; [by apply I3|by apply I2].
Qed.

(** While an observation runs: every edge is indexed or among the fresh ones. *)
Definition covered (f r : gmap gostring (gmap gostring gostring)) (g : Graph) : Prop :=
  graph_ok g ∧ ∀ id e, edges g !! id = Some e → indexed f r e ∨ ∃ x, x ∈ recent g ∧ e_ID x = id ∧ From x = From e ∧ To x = To e.

Lemma upsert_node_edges n at_ g : edges (upsertNodeLocked range n at_ g) = edges g ∧ recent (upsertNodeLocked range n at_ g) = recent g.
Proof. unfold upsertNodeLocked. destruct (nodes g !! n_ID n); [done|]. destruct (full _ _); [|done]. unfold evictOldestNodeLocked. by destruct (bool_decide _). Qed.

Lemma covered_stable f r : stable range ToLower any_id (covered f r).
Proof.
  split.
  - intros g g' Hfr [Hg Hc]. split; [by eapply (st_frame _ _ _ _ (graph_ok_stable any_id))|]. destruct Hfr as (_ & E2 & E3 & _). by rewrite <- E2, <- E3.
  - intros ? ? ? ? ? ? ? ? ? g [Hg Hc]. split; [by apply (st_claims _ _ _ _ (graph_ok_stable any_id))|done].
  - intros n at_ g Hn [Hg Hc]. split; [by apply (st_node _ _ _ _ (graph_ok_stable any_id))|]. destruct (upsert_node_edges n at_ g) as [-> ->]. done.
  - intros e at_ g He [Hg Hc]. split; [by apply (st_edge _ _ _ _ (graph_ok_stable any_id))|].
    pose proof (upsert_edge_spec any_id e at_ g Hg He) as Hu. cbn zeta in Hu. set (g' := upsertEdgeLocked range e at_ g) in *. clearbody g'.
    set (id := EdgeID (From e) (e_Kind e) (To e)) in *. destruct Hu as (_ & _ & _ & Hu). intros id' e'.
    destruct (edges g !! id) as [cur|] eqn:E.
    + destruct Hu as (-> & cur' & -> & E1 & E2 & E3 & E4). rewrite lookup_insert_Some. intros [[<- <-]|[_ H']]; [|by apply Hc].
      destruct (Hc _ _ E) as [Hi|(x & Hx & X1 & X2 & X3)]; [left; unfold indexed in *; by rewrite E1, E2, E3|].
      right. exists x. by rewrite E2, E3.
    + destruct Hu as (-> & e1 & -> & E1 & E2 & E3 & E4). rewrite lookup_insert_Some. intros [[<- <-]|[_ H']].
      * right. eexists. split; [apply elem_of_app; right; by left|]. cbn. by rewrite E2, E3.
      * destruct (Hc id' e') as [Hi|(x & Hx & HX)]; [|by left|right; exists x; split; [apply elem_of_app; by left|done]].
        destruct (full _ _); [|done]. by apply lookup_delete_Some in H' as [_ ?].
Qed.

Record ig_ok (ig : indexedGraph) : Prop := {
  ig_graph : graph_ok (inner ig);
  ig_drained : recent (inner ig) = [];
  ig_index : index_ok (fwd ig) (rev_ ig);
  ig_edges : ∀ id e, edges (inner ig) !! id = Some e → indexed (fwd ig) (rev_ ig) e }.

Lemma indexed_observe_ok o at_ ig : ig_ok ig → ig_ok (observe (apply_obs range ToLower FormatRFC3339Nano o at_) ig).
Proof.
  intros [H1 H2 H3 H4]. pose proof (stable_obs range ToLower FormatRFC3339Nano _ _ (covered_stable (fwd ig) (rev_ ig)) o at_ (inner ig) range_perm (starts_any o)) as Hc.
  destruct Hc as [Hg Hc]; [split; [done|]; intros id e He; left; by eapply H4|]. unfold observe. cbn.
  set (g := apply_obs _ _ _ o at_ (inner ig)) in *. destruct (index_fold_spec (recent g) (fwd ig) (rev_ ig) (ok_recent _ Hg) H3) as (I1 & I2 & I3).
  split; cbn; try done.
  - eapply shrinks_ok; [|exact Hg]. split; cbn; try done. by intros r ?%elem_of_nil.
  - intros id e He. pose proof (ok_edges _ Hg _ _ He) as Hok. destruct (Hc id e He) as [Hi|(x & Hx & X1 & X2 & X3)].
    + apply I3; [|done]. pose proof Hok as (E & _). by rewrite E.
    + specialize (I2 x Hx). unfold indexed in *. rewrite X1, X2, X3 in I2. pose proof Hok as (E & _). by rewrite E.
Qed.

Lemma index_empty : index_ok ∅ ∅.
Proof. split; intros a b id; unfold entry; rewrite lookup_empty; done. Qed.

Lemma rebuild_ok g : graph_ok g → recent g = [] → ig_ok (rebuildIndexes range g).
Proof.
  intros Hg Hr. unfold rebuildIndexes.
  assert (Hall : ∀ e, e ∈ allEdges range g → edge_ok (e_ID e) e).
  { intros e. unfold allEdges. rewrite range_perm, list_elem_of_fmap. intros ([id e'] & -> & He%elem_of_map_to_list). cbn.
    pose proof (ok_edges _ Hg _ _ He) as Hok. pose proof Hok as (E & _). by rewrite E. }
  destruct (index_fold_spec (allEdges range g) ∅ ∅) as (I1 & I2 & _); [by apply Forall_forall|apply index_empty|].
  split; cbn; [done|done|done|]. intros id e He. apply I2. unfold allEdges. rewrite range_perm, list_elem_of_fmap. exists (id, e). split; [done|]. by apply elem_of_map_to_list.
Qed.

Lemma drained_shrinks g g' : shrinks g g' → recent g = [] → recent g' = [].
Proof. intros Hs Hr. apply elem_of_nil_inv. intros x Hx%(sk_recent _ _ Hs). rewrite Hr in Hx. by apply elem_of_nil in Hx. Qed.

(** Fewer edges with the same indexes are still indexed. *)
Lemma shrinks_indexed g f r g' :
  ig_ok (mkIndexed g f r) → shrinks g g' → ig_ok (mkIndexed g' f r).
Proof.
  intros [H1 H2 H3 H4] Hs. cbn in *. split; cbn; [by eapply shrinks_ok|by eapply drained_shrinks|done|]. intros id e He. eapply H4. eapply lookup_weaken; [done|apply Hs].
Qed.

Lemma pruneBefore_ok cutoff ig : ig_ok ig → ig_ok (pruneBefore range cutoff ig).2.
Proof.
  intros Hig. unfold pruneBefore. pose proof (prune_shrinks cutoff (inner ig)) as Hs. destruct (PruneBefore range cutoff (inner ig)) as [[ns es] g]. cbn in Hs.
  destruct (_ =? 0); cbn.
  - destruct ig as [g0 f r]. by eapply shrinks_indexed.
  - apply rebuild_ok; [by eapply shrinks_ok, Hig|by eapply drained_shrinks, Hig].
Qed.

Lemma deleteSubject_ok subject ig : ig_ok ig → ig_ok (deleteSubject range ToLower subject ig).2.
Proof.
  intros Hig. unfold deleteSubject. pose proof (erase_shrinks subject (inner ig)) as Hs. destruct (DeleteSubject ToLower subject (inner ig)) as [r g]. cbn in Hs.
  destruct (_ <? _); cbn.
  - apply rebuild_ok; [by eapply shrinks_ok, Hig|by eapply drained_shrinks, Hig].
  - destruct ig as [g0 f r0]. by eapply shrinks_indexed.
Qed.

(** ** Names without the separator *)

(** The edges and the index entries start at nodes whose identifiers have no bar. *)
Definition fresh_unbarred (g : Graph) : Prop :=
  graph_ok g ∧ map_Forall (λ _ e, bar ∉ From e) (edges g) ∧ Forall (λ e, bar ∉ From e) (recent g).

Definition index_unbarred (f r : gmap gostring (gmap gostring gostring)) : Prop :=
  (∀ a b id, entry f a b = Some id → bar ∉ a) ∧ ∀ a b id, entry r b a = Some id → bar ∉ a.

Definition unbarred (ig : indexedGraph) : Prop :=
  map_Forall (λ _ e, bar ∉ From e) (edges (inner ig)) ∧ index_unbarred (fwd ig) (rev_ ig).

Lemma fresh_unbarred_stable : stable range ToLower no_bar_id fresh_unbarred.
Proof.
  split.
  - intros g g' Hf (Hg & He & Hr). split; [by eapply (st_frame _ _ _ _ (graph_ok_stable any_id))|]. destruct Hf as (_ & E2 & E3 & _). by rewrite <- E2, <- E3.
  - intros ? ? ? ? ? ? ? ? ? g (Hg & Hu). split; [by apply (st_claims _ _ _ _ (graph_ok_stable any_id))|done].
  - intros n at_ g Hn (Hg & Hu). split; [by apply (st_node _ _ _ _ (graph_ok_stable any_id))|]. by destruct (upsert_node_edges n at_ g) as [-> ->].
  - intros e at_ g He (Hg & Hed & Hr). split; [by apply (st_edge _ _ _ _ (graph_ok_stable no_bar_id))|].
    pose proof (upsert_edge_spec no_bar_id e at_ g Hg He) as Hu. cbn zeta in Hu. set (g' := upsertEdgeLocked range e at_ g) in *. clearbody g'.
    destruct Hu as (_ & _ & _ & Hu), He as (_ & _ & Hb & _). destruct (edges g !! _) as [cur|] eqn:E.
    + destruct Hu as (-> & cur' & -> & _ & E2 & _). split; [|done]. apply map_Forall_insert_2; [|done]. rewrite E2. by apply (Hed _ _ E).
    + destruct Hu as (-> & e' & -> & _ & E2 & _). split; [|apply Forall_app; split; [done|by constructor]].
      apply map_Forall_insert_2; [by rewrite E2|]. destruct (full _ _); [by apply map_Forall_delete|done].
Qed.

Lemma index_fold_unbarred l f r :
  Forall (λ e, bar ∉ From e) l → index_unbarred f r → index_unbarred (foldl index_edge (f, r) l).1 (foldl index_edge (f, r) l).2.
Proof.
  intros Hl. revert f r. induction Hl as [|e l He Hl IH]; intros f r [Hf Hr]; cbn; [done|]. apply IH.
  split; intros a b id; rewrite entry_put; destruct (decide _) as [[<- <-]|]; [by intros [= <-]|by apply Hf|by intros [= <-]|by apply Hr].
Qed.

Lemma observe_unbarred o at_ ig : obs_good o → ig_ok ig → unbarred ig → unbarred (observe (apply_obs range ToLower FormatRFC3339Nano o at_) ig).
Proof.
  intros Ho%starts_good [Hg Hd _ _] [He Hix].
  destruct (stable_obs range ToLower FormatRFC3339Nano _ _ fresh_unbarred_stable o at_ (inner ig) range_perm Ho) as (_ & He' & Hr); [split; [done|]; by rewrite Hd|].
  split; [exact He'|]. by apply index_fold_unbarred.
Qed.

Lemma rebuild_unbarred g : map_Forall (λ _ e, bar ∉ From e) (edges g) → unbarred (rebuildIndexes range g).
Proof.
  intros He. split; [done|]. apply index_fold_unbarred; [|split; intros a b id; unfold entry; by rewrite lookup_empty].
  apply Forall_forall. intros e. unfold allEdges. rewrite range_perm, list_elem_of_fmap. intros ([id e'] & -> & Hin%elem_of_map_to_list). by apply (He id).
Qed.

Lemma shrinks_unbarred g g' :
  shrinks g g' → map_Forall (λ _ e, bar ∉ From e) (edges g) → map_Forall (λ _ e, bar ∉ From e) (edges g').
Proof. intros Hs He id e Hid. apply (He id). eapply lookup_weaken; [done|apply Hs]. Qed.

Lemma pruneBefore_unbarred cutoff ig : unbarred ig → unbarred (pruneBefore range cutoff ig).2.
Proof.
  intros [He Hix]. unfold pruneBefore. pose proof (prune_shrinks cutoff (inner ig)) as Hs. destruct (PruneBefore range cutoff (inner ig)) as [[ns es] g]. cbn in Hs.
  apply (shrinks_unbarred _ _ Hs) in He. destruct (_ =? 0); cbn; [by split|by apply rebuild_unbarred].
Qed.

Lemma deleteSubject_unbarred subject ig : unbarred ig → unbarred (deleteSubject range ToLower subject ig).2.
Proof.
  intros [He Hix]. unfold deleteSubject. pose proof (erase_shrinks subject (inner ig)) as Hs. destruct (DeleteSubject ToLower subject (inner ig)) as [r g]. cbn in Hs.
  apply (shrinks_unbarred _ _ Hs) in He. destruct (_ <? _); cbn; [by apply rebuild_unbarred|by split].
Qed.

(** ** Both engines answer alike *)

Lemma bar_split (a a' x x' : gostring) : bar ∉ a → bar ∉ a' → a ++ bar :: x = a' ++ bar :: x' → a = a' ∧ x = x'.
Proof.
  revert a'. induction a as [|c a IH]; intros [|c' a'] Ha Ha' E; cbn in E; simplify_eq; [done|exfalso; apply Ha'; by left|exfalso; apply Ha; by left|].
  destruct (IH a') as [-> ->]; try done; intros H; [apply Ha|apply Ha']; by right.
Qed.

Lemma kind_of_bar a b : bar ∉ kind_of a b.
Proof. unfold kind_of. destruct (HasPrefix _ _); [|destruct (HasPrefix _ _); [|destruct (HasPrefix _ _); [destruct (HasPrefix _ _)|]]]; apply no_bar_str; reflexivity. Qed.

Lemma EdgeID_inj a b a' b' : bar ∉ a → bar ∉ a' → EdgeID a (kind_of a b) b = EdgeID a' (kind_of a' b') b' → a = a' ∧ b = b'.
Proof.
  intros Ha Ha' E. unfold EdgeID in E. change (str "|") with [bar] in E. cbn [app] in E. apply bar_split in E as [-> E]; [|done|done].
  apply bar_split in E as [_ ->]; [done|apply kind_of_bar|apply kind_of_bar].
Qed.

Abbreviation valid e at_ := (validAt (e_FirstSeen e) (e_LastSeen e) at_).

(** An index entry leads to a valid edge exactly when there is a valid edge between the two nodes. *)
Lemma entry_valid ig at_ a b :
  ig_ok ig → unbarred ig →
  (∃ id, entry (fwd ig) a b = Some id ∧ edgeValidAt id at_ (inner ig) = true) ↔ (∃ id e, edges (inner ig) !! id = Some e ∧ valid e at_ = true ∧ From e = a ∧ To e = b).
Proof.
  intros [Hg Hd Hix Hed] [Hub [Hubf Hubr]]. split.
  - intros (id & Hid & Hv). unfold edgeValidAt in Hv. destruct (edges (inner ig) !! id) as [e|] eqn:E; [|done]. exists id, e.
    pose proof (Hubf _ _ _ Hid) as Hb. rewrite (ix_fwd _ _ Hix _ _ _ Hid) in E. pose proof (Hub _ _ E) as Hb'. pose proof (ok_edges _ Hg _ _ E) as (_ & Ei & Ek).
    rewrite (ix_fwd _ _ Hix _ _ _ Hid), E. rewrite Ek in Ei. apply EdgeID_inj in Ei as [-> ->]; done.
  - intros (id & e & E & Hv & <- & <-). pose proof (ok_edges _ Hg _ _ E) as (Ei & _). exists id. split; [rewrite <- Ei; by apply (Hed id)|].
    unfold edgeValidAt. by rewrite E.
Qed.

Lemma entry_valid_rev ig at_ a b :
  ig_ok ig → unbarred ig →
  (∃ id, entry (rev_ ig) b a = Some id ∧ edgeValidAt id at_ (inner ig) = true) ↔ (∃ id e, edges (inner ig) !! id = Some e ∧ valid e at_ = true ∧ From e = a ∧ To e = b).
Proof.
  intros [Hg Hd Hix Hed] [Hub [Hubf Hubr]]. split.
  - intros (id & Hid & Hv). unfold edgeValidAt in Hv. destruct (edges (inner ig) !! id) as [e|] eqn:E; [|done]. exists id, e.
    pose proof (Hubr _ _ _ Hid) as Hb. rewrite (ix_rev _ _ Hix _ _ _ Hid) in E. pose proof (Hub _ _ E) as Hb'. pose proof (ok_edges _ Hg _ _ E) as (_ & Ei & Ek).
    rewrite (ix_rev _ _ Hix _ _ _ Hid), E. rewrite Ek in Ei. apply EdgeID_inj in Ei as [-> ->]; done.
  - intros (id & e & E & Hv & <- & <-). pose proof (ok_edges _ Hg _ _ E) as (Ei & _). exists id. split; [rewrite <- Ei; by apply (Hed id)|].
    unfold edgeValidAt. by rewrite E.
Qed.

Lemma elem_of_filter_bool {A} (f : A → bool) x l : x ∈ List.filter f l ↔ x ∈ l ∧ f x = true.
Proof. rewrite !list_elem_of_In. apply filter_In. Qed.

Lemma elem_of_valid_entries at_ g m n b : b ∈ valid_entries range at_ g m n ↔ ∃ id, entry m n b = Some id ∧ edgeValidAt id at_ g = true.
Proof.
  unfold valid_entries, entry. rewrite list_elem_of_fmap. split.
  - intros ([k id] & -> & [Hk Hv]%elem_of_filter_bool). rewrite range_perm in Hk. apply elem_of_map_to_list in Hk. exists id. split; [|done].
    destruct (m !! n); [done|]. cbn in Hk. by rewrite lookup_empty in Hk.
  - intros (id & Hid & Hv). destruct (m !! n) as [r|]; [|done]. exists (b, id). split; [done|]. apply elem_of_filter_bool. split; [|done].
    rewrite range_perm. by apply elem_of_map_to_list.
Qed.

Lemma neighbors_same node at_ ig : ig_ok ig → unbarred ig → neighbors range node at_ ig = Neighbors range node at_ (inner ig).
Proof.
  intros Hig Hub. unfold neighbors, Neighbors. f_equal. apply set_eq. intros x. rewrite !elem_of_list_to_set, elem_of_app, !elem_of_valid_entries, list_elem_of_omap.
  rewrite (entry_valid ig at_ node x Hig Hub), (entry_valid_rev ig at_ x node Hig Hub). split.
  - intros [(id & e & E & Hv & <- & <-)|(id & e & E & Hv & Ea & Eb)]; exists (id, e); (split; [rewrite range_perm; by apply elem_of_map_to_list|]); cbn; rewrite Hv; cbn.
    + by rewrite bool_decide_eq_true_2.
    + destruct (bool_decide_reflect (node = From e)) as [Hn|]; [congruence|]. rewrite bool_decide_eq_true_2 by done. congruence.
  - intros ([id e] & Hin & Hx). rewrite range_perm in Hin. apply elem_of_map_to_list in Hin. cbn in Hx. destruct (valid e at_) eqn:Hv; cbn in Hx; [|done].
    destruct (bool_decide_reflect (node = From e)) as [->|]; [left; exists id, e; naive_solver|].
    destruct (bool_decide_reflect (node = To e)) as [->|]; [right; exists id, e; naive_solver|done].
Qed.

Lemma nodup_omap {A B} (f : A → option B) l : NoDup l → (∀ x y z, x ∈ l → y ∈ l → f x = Some z → f y = Some z → x = y) → NoDup (omap f l).
Proof.
  induction 1 as [|a l Ha Hl IH]; intros Hf; cbn; [constructor|]. assert (IH' : NoDup (omap f l)) by (apply IH; intros; eapply Hf; eauto; by right).
  destruct (f a) as [b|] eqn:E; [|done]. constructor; [|done]. rewrite list_elem_of_omap. intros (y & Hy & Ey).
  rewrite (Hf a y b) in Ha; [done|by left|by right|done|done].
Qed.

Lemma adj_valid_entries at_ ig cur : ig_ok ig → unbarred ig → merge_sort bytes_le (adj_of range at_ (inner ig) cur) = merge_sort bytes_le (valid_entries range at_ (inner ig) (fwd ig) cur).
Proof.
  intros Hig Hub. apply (Sorted_unique bytes_le); [apply Sorted_merge_sort; apply _|apply Sorted_merge_sort; apply _|]. rewrite !merge_sort_Permutation.
  apply NoDup_Permutation.
  - unfold adj_of. apply nodup_omap.
    + rewrite range_perm. apply NoDup_map_to_list.
    + intros [i e] [j e'] z Hi Hj. rewrite range_perm in Hi, Hj. apply elem_of_map_to_list in Hi, Hj. cbn.
      destruct (valid e at_ && _) eqn:E1; [|done]. destruct (valid e' at_ && _) eqn:E2; [|done]. intros [= <-] [= E3].
      apply andb_true_iff in E1 as [_ E1%bool_decide_eq_true], E2 as [_ E2%bool_decide_eq_true].
      pose proof (ok_edges _ (ig_graph _ Hig) _ _ Hi) as (_ & I1 & K1). pose proof (ok_edges _ (ig_graph _ Hig) _ _ Hj) as (_ & I2 & K2).
      assert (i = j) as <- by (rewrite I1, I2, K1, K2, E1, E2, E3; done). congruence.
  - unfold valid_entries. apply NoDup_fmap_2_strong; [|apply NoDup_ListNoDup, List.NoDup_filter, NoDup_ListNoDup; rewrite range_perm; apply NoDup_map_to_list].
    intros [k v] [k' v'] [Hx _]%elem_of_filter_bool [Hy _]%elem_of_filter_bool. rewrite range_perm in Hx, Hy. apply elem_of_map_to_list in Hx, Hy. cbn. intros <-. congruence.
  - intros x. rewrite elem_of_valid_entries, (entry_valid ig at_ cur x Hig Hub). unfold adj_of. rewrite list_elem_of_omap. split.
    + intros ([id e] & Hin & Hx). rewrite range_perm in Hin. apply elem_of_map_to_list in Hin. cbn in Hx. destruct (valid e at_) eqn:Hv; cbn in Hx; [|done].
      destruct (bool_decide_reflect (From e = cur)); [|done]. exists id, e. naive_solver.
    + intros (id & e & E & Hv & Ha & <-). exists (id, e). split; [rewrite range_perm; by apply elem_of_map_to_list|]. cbn. rewrite Hv, bool_decide_eq_true_2; done.
Qed.

Lemma visit_expand from to cur ns prev q :
  prev !! from = None →
  match visit to cur ns prev (dom (<[from := from]> prev)) q, expand_to to cur ns (<[from := from]> prev) q with
  | inl p1, inl p2 => p2 = <[from := from]> p1 ∧ p1 !! from = None
  | inr (p1, v, q1), inr (p2, q2) => p2 = <[from := from]> p1 ∧ p1 !! from = None ∧ v = dom p2 ∧ q1 = q2
  | _, _ => False
  end.
Proof using Type.
  revert prev q. induction ns as [|n ns IH]; intros prev q Hf; cbn [visit expand_to]; [done|].
  destruct (<[from:=from]> prev !! n) as [p|] eqn:E.
  - rewrite bool_decide_eq_true_2 by (by apply elem_of_dom_2 in E). by apply IH.
  - assert (Hn : n ≠ from) by (intros ->; by rewrite lookup_insert_eq in E). rewrite bool_decide_eq_false_2 by (by apply not_elem_of_dom).
    destruct (bool_decide (n = to)).
    + split; [by rewrite insert_insert_ne|]. by rewrite lookup_insert_ne.
    + specialize (IH (<[n := cur]> prev) (q ++ [n])). rewrite insert_insert_ne in IH by done. rewrite dom_insert_L in IH. apply IH. by rewrite lookup_insert_ne.
Qed.

Lemma climb_start fuel prev start cur : climb fuel (<[start := start]> prev) start cur = climb fuel prev start cur.
Proof using Type.
  revert cur. induction fuel as [|fuel IH]; intros cur; cbn; [done|]. destruct (bool_decide_reflect (cur = start)); [done|].
  rewrite lookup_insert_ne by done. by rewrite IH.
Qed.

Lemma traverse_indexed fuel nbrs next from to prev q :
  (∀ x, merge_sort bytes_le (nbrs x) = merge_sort bytes_le (next x)) → prev !! from = None →
  traverse_loop fuel nbrs from to prev (dom (<[from := from]> prev)) q = indexed_loop fuel next from to (<[from := from]> prev) q.
Proof using Type.
  intros Hn. revert prev q. induction fuel as [|fuel IH]; intros prev [|cur q] Hf; cbn [traverse_loop indexed_loop]; try done. rewrite Hn.
  pose proof (visit_expand from to cur (merge_sort bytes_le (next cur)) prev q Hf) as Hv.
  destruct (visit _ _ _ _ _ _) as [p1|[[p1 v] q1]], (expand_to _ _ _ _ _) as [p2|[p2 q2]]; try done.
  - destruct Hv as [-> Hp]. unfold reconstruct, rebuild. rewrite map_size_insert_None by done. by rewrite climb_start.
  - destruct Hv as (-> & Hp & -> & ->). by apply IH.
Qed.

Lemma traverse_same from to at_ ig : ig_ok ig → unbarred ig → traverse range from to at_ ig = Traverse range from to at_ (inner ig).
Proof.
  intros Hig Hub. unfold traverse, Traverse. destruct (bool_decide _); [done|]. symmetry.
  rewrite <- (insert_empty from from), <- (dom_singleton_L (D := gset gostring) from from), <- (insert_empty from from). apply traverse_indexed; [|apply lookup_empty].
  intros x. by apply adj_valid_entries.
Qed.

(** *** The plain engine keeps its list of fresh edges, which nothing reads *)

Definition wr (r : list Edge) (g : Graph) : Graph := g <| recent := r |>.

Definition blind (f : Graph → Graph) : Prop := ∀ r g, ∃ r', f (wr r g) = wr r' (f g).

Lemma blind_foldl {A} (f : Graph → A → Graph) l : (∀ a, blind (λ g, f g a)) → blind (λ g, foldl f g l).
Proof.
  intros Hf. induction l as [|a l IH]; intros r g; cbn; [by exists r|]. destruct (Hf a r g) as [r' ->]. apply IH.
Qed.

Lemma upsertNode_wr n at_ r g : upsertNodeLocked range n at_ (wr r g) = wr r (upsertNodeLocked range n at_ g).
Proof.
  unfold upsertNodeLocked. cbn. destruct (nodes g !! n_ID n); [done|]. destruct (full _ _); [|done]. unfold evictOldestNodeLocked. cbn. by destruct (bool_decide _).
Qed.

Lemma UpsertNode_wr n at_ r g : UpsertNode range n at_ (wr r g) = wr r (UpsertNode range n at_ g).
Proof. unfold UpsertNode. by rewrite upsertNode_wr. Qed.

Lemma upsertEdge_blind e at_ : blind (upsertEdgeLocked range e at_).
Proof.
  intros r g. unfold upsertEdgeLocked. set (e' := if bool_decide _ then _ else _). clearbody e'. cbn -[EdgePhysical oldestID]. destruct (edges g !! e_ID e').
  - exists r. destruct (bool_decide (_ = EdgePhysical)); [|done]. destruct (physicalRetired g !! _) as [rt|]; [by destruct (Before at_ rt)|done].
  - destruct (full _ _).
    + unfold evictOldestEdgeLocked. cbn -[EdgePhysical oldestID]. destruct (bool_decide (oldestID _ _ _ = [])); destruct (bool_decide (_ = EdgePhysical)); by eexists.
    + destruct (bool_decide (_ = EdgePhysical)); by eexists.
Qed.

(** Moves the list out of a sequence of upserts. *)
Ltac blind_steps :=
  repeat first
    [ rewrite UpsertNode_wr | rewrite upsertNode_wr
    | match goal with
      | |- context [UpsertEdge range ?e ?t (wr ?r ?g)] => let E := fresh in destruct (upsertEdge_blind e t r g) as [? E]; unfold UpsertEdge; rewrite E; clear E
      | |- context [upsertEdgeLocked range ?e ?t (wr ?r ?g)] => let E := fresh in destruct (upsertEdge_blind e t r g) as [? E]; rewrite E; clear E
      end ].

Lemma hop_blind at_ ip : blind (λ g, observe_hop range at_ g ip).
Proof. intros r g. unfold observe_hop. destruct (bool_decide _); blind_steps; by eexists. Qed.

Lemma link_blind at_ l : blind (λ g, observe_link range at_ g l).
Proof. intros r g. unfold observe_link. destruct (_ || _); blind_steps; by eexists. Qed.

Lemma path_blind p at_ : blind (ObservePath range p at_).
Proof.
  intros r g. unfold ObservePath. set (target := if bool_decide (TargetIP p = []) then [] else _). clearbody target.
  set (g0 := if bool_decide (TargetIP p = []) then _ else _). set (g0' := if bool_decide (TargetIP p = []) then _ else _ : Graph).
  assert (E0 : g0 = wr r g0'). { unfold g0, g0'. destruct (bool_decide (TargetIP p = [])), (bool_decide (p_AgentID p = [])); by blind_steps. }
  rewrite E0. clearbody g0'. clear g0 E0. destruct (blind_foldl (observe_hop range at_) (Hops p) (hop_blind at_) r g0') as [r1 ->].
  destruct (blind_foldl (observe_link range at_) (Links p) (link_blind at_) r1 (foldl (observe_hop range at_) g0' (Hops p))) as [r2 ->].
  set (g1 := foldl _ _ (Links p)). clearbody g1. destruct (bool_decide (p_AgentID p = []) || _), (_ || _ || _); blind_steps; by eexists.
Qed.

Lemma service_blind s at_ : blind (ObserveServiceEdge range s at_).
Proof. intros r g. unfold ObserveServiceEdge. destruct (_ || _); blind_steps; by eexists. Qed.

Lemma routing_blind x at_ : blind (ObserveRouting range x at_).
Proof. intros r g. unfold ObserveRouting. destruct (_ || _); blind_steps; by eexists. Qed.

Lemma interface_blind dev at_ ip : blind (λ g, observe_interface range dev at_ g ip).
Proof. intros r g. unfold observe_interface. destruct (bool_decide _); blind_steps; by eexists. Qed.

Lemma device_blind now d at_ : blind (ObserveDevice range ToLower now d at_).
Proof.
  intros r g. unfold ObserveDevice. destruct (bool_decide (Address d = [])); [by eexists|].
  change ((wr r g) <| identity := ?c |>) with (wr r (g <| identity := c |>)). rewrite UpsertNode_wr.
  apply (blind_foldl (observe_interface range (deviceID (Address d)) at_) (InterfaceIPs d)). apply interface_blind.
Qed.

Lemma physical_blind p at_ : blind (ObservePhysicalAdjacency range FormatRFC3339Nano p at_).
Proof. intros r g. unfold ObservePhysicalAdjacency. destruct (physicalAdjacencyElements _ p) as [[[l m] e]|]; blind_steps; by eexists. Qed.

Lemma element_blind source at_ kv : blind (λ g, apply_element range source at_ g kv).
Proof.
  intros r g. destruct kv as [id [[l m] e]]. unfold apply_element. rewrite upsertNode_wr.
  change ((wr r (upsertNodeLocked range l at_ g)) <| physicalRemoteOnly := ?c |>) with (wr r ((upsertNodeLocked range l at_ g) <| physicalRemoteOnly := c |>)).
  rewrite upsertNode_wr. set (g1 := upsertNodeLocked range m at_ _). set (b := _ || _).
  change (negb (bool_decide (is_Some (nodes (wr r g) !! n_ID m))) || bool_decide (n_ID m ∈ physicalRemoteOnly (wr r g))) with b. clearbody g1 b.
  destruct b.
  - change ((wr r g1) <| physicalRemoteOnly := ?c |>) with (wr r (g1 <| physicalRemoteOnly := c |>)).
    destruct (upsertEdge_blind e at_ r (g1 <| physicalRemoteOnly := {[n_ID m]} ∪ physicalRemoteOnly g1 |>)) as [r' E]. cbn in E |- *. rewrite E. by eexists.
  - destruct (upsertEdge_blind e at_ r g1) as [r' ->]. by eexists.
Qed.


Lemma release_blind source at_ id : blind (λ g, release source at_ g id).
Proof. intros r g. exists r. unfold release. cbn. by destruct (bool_decide _). Qed.

Lemma replace_blind x at_ : blind (ReplacePhysicalAdjacencies range FormatRFC3339Nano x at_).
Proof.
  intros r g. unfold ReplacePhysicalAdjacencies. destruct (_ || _ || _); [by eexists|]. set (source := (_, _)). set (desired := desired_of _ x).
  destruct (blind_foldl (apply_element range source at_) (range _ desired) (element_blind source at_) r g) as [r1 ->].
  set (g1 := foldl (apply_element _ _ _) g _). clearbody g1. change (physicalSources (wr r1 g1)) with (physicalSources g1).
  match goal with |- context [foldl (release source at_) (wr r1 g1) ?l] => destruct (blind_foldl (release source at_) l (release_blind source at_) r1 g1) as [r2 ->] end.
  set (g2 := foldl (release source at_) g1 _). clearbody g2. exists r2. by destruct (bool_decide _).
Qed.

Lemma obs_blind o at_ : blind (apply_obs range ToLower FormatRFC3339Nano o at_).
Proof.
  destruct o as [p|x|x|now d|p|x]; cbn [apply_obs].
  - apply path_blind.
  - apply service_blind.
  - apply routing_blind.
  - apply device_blind.
  - apply physical_blind.
  - apply replace_blind.
Qed.

Lemma delete_edges_wr ids r g : delete_edges ids (wr r g) = wr r (delete_edges ids g).
Proof. revert g. induction ids as [|id ids IH]; intros g; cbn; [done|]. apply (IH (deleteEdgeLocked id g)). Qed.

Lemma prune_blind cutoff r g : ∃ r', PruneBefore range cutoff (wr r g) = ((PruneBefore range cutoff g).1, wr r' (PruneBefore range cutoff g).2).
Proof.
  unfold PruneBefore. destruct (IsZero cutoff); [by exists r|]. change (identity (wr r g)) with (identity g).
  destruct (pruneIdentityClaimsBeforeLocked cutoff (identity g)) as [n c].
  change ((wr r g) <| identity := c |>) with (wr r (g <| identity := c |>)). rewrite delete_edges_wr.
  change (edges (wr r ?h)) with (edges h). set (g2 := delete_edges _ (g <| identity := c |>)).
  change (nodes (wr r ?h)) with (nodes h). change (physicalRemoteOnly (wr r ?h)) with (physicalRemoteOnly h).
  set (gone := (List.filter _ (range _ (nodes g2))).*1). set (g3 := g2 <| nodes := _ |> <| physicalRemoteOnly := _ |>).
  change ((wr r g2) <| nodes := ?a |> <| physicalRemoteOnly := ?b |>) with (wr r (g2 <| nodes := a |> <| physicalRemoteOnly := b |>)). fold g3.
  change (edges (wr r ?h)) with (edges h). change (nodes (wr r ?h)) with (nodes h). rewrite delete_edges_wr. by eexists.
Qed.

Lemma erase_blind subject r g : ∃ r', DeleteSubject ToLower subject (wr r g) = ((DeleteSubject ToLower subject g).1, wr r' (DeleteSubject ToLower subject g).2).
Proof. unfold DeleteSubject. destruct (bool_decide _); by eexists. Qed.

(** *** The two stores side by side *)

Definition sim (g : Graph) (ig : indexedGraph) : Prop := ig_ok ig ∧ ∃ r, g = wr r (inner ig).

Definition same_stores (s : Store Graph) (s' : Store indexedGraph) : Prop :=
  s_bounds s = s_bounds s' ∧ ∀ t, option_Forall2 sim (graphs s !! t) (graphs s' !! t).

Lemma empty_graph_ok t b : graph_ok (NewGraphWithBounds t b).
Proof. split; cbn; [apply map_Forall_empty|apply map_Forall_empty|by apply Forall_nil|intros ?; rewrite map_size_empty; lia|intros ?; rewrite map_size_empty; lia]. Qed.

Lemma sim_new t b : sim (NewGraphWithBounds t b) (newIndexedGraph t b).
Proof. split; [|by exists []]. split; cbn; [apply empty_graph_ok|done|apply index_empty|]. intros id e. by rewrite lookup_empty. Qed.

Lemma same_insert s s' t g g' :
  same_stores s s' → sim g g' → same_stores (mkStore (<[t := g]> (graphs s)) (s_bounds s)) (mkStore (<[t := g']> (graphs s')) (s_bounds s')).
Proof.
  intros [Hb Hs] Hg. split; [done|]. cbn. intros t'. destruct (decide (t = t')) as [<-|Hne]; [rewrite !lookup_insert_eq; by constructor|].
  rewrite !lookup_insert_ne by done. apply Hs.
Qed.

Lemma ask_state {G} t none (f : G → Answer) s : (ask t none f s).2 = s.
Proof using Type. unfold ask. by destruct (normalizeTenant t). Qed.

Lemma ask_same t none f f' s s' :
  same_stores s s' → (∀ g ig, sim g ig → (∃ t, graphs s' !! t = Some ig) → f g = f' ig) → (ask t none f s).1 = (ask t none f' s').1.
Proof.
  intros [_ Hs] Hf. unfold ask. destruct (normalizeTenant t) as [t'|]; [|done]. cbn.
  specialize (Hs t'). destruct (graphs s' !! t') as [ig|] eqn:E; inversion Hs as [g ig' Hg Eg|]; subst; [apply Hf; [done|by exists t']|done].
Qed.

Definition op_good (op : Op) : Prop := match op with DoObserve _ o _ => obs_good o | _ => True end.

(** The questions the adjacency indexes answer. *)
Definition reads_index (op : Op) : bool := match op with AskNeighbors _ _ _ | AskTraverse _ _ _ _ => true | _ => false end.

Definition unbarred_store (s : Store indexedGraph) : Prop := map_Forall (λ _, unbarred) (graphs s).

Lemma do_op_stores op s s' : same_stores s s' → same_stores (do_op op s).2 (do_op op s').2.
Proof.
  intros Hs. destruct op as [t o at_|t|t cutoff|t subject|t at_|t now|t|t node at_|t from to at_]; cbn [do_op]; try (by rewrite !ask_state).
  - destruct (normalizeTenant t) as [t'|]; [|done]. cbn [fst snd]. apply same_insert; [done|]. unfold graph.
    assert (Hg : sim (default (eng_new t' (s_bounds s)) (graphs s !! t')) (default (eng_new t' (s_bounds s')) (graphs s' !! t'))).
    { destruct Hs as [Hb Hs]. rewrite <- Hb. destruct (Hs t'); cbn; [done|apply sim_new]. }
    destruct Hg as [Hig [r ->]]. cbn [eng_observe memory_engine indexed_engine]. split; [by apply indexed_observe_ok|]. unfold observe. cbn.
    set (ig := default _ (graphs s' !! t')) in *. destruct (obs_blind o at_ r (inner ig)) as [r' ->]. exists r'. done.
  - destruct (normalizeTenant t) as [t'|]; [|done]. destruct Hs as [Hb Hs]. pose proof (Hs t') as Ht.
    assert (Hd : same_stores (mkStore (delete t' (graphs s)) (s_bounds s)) (mkStore (delete t' (graphs s')) (s_bounds s'))).
    { split; [done|]. cbn. intros t1. destruct (decide (t' = t1)) as [<-|Hne]; [rewrite !lookup_delete_eq; constructor|]. by rewrite !lookup_delete_ne. }
    destruct Ht as [g ig Hg|]; cbn; [done|]. by split.
  - destruct (normalizeTenant t) as [t'|]; [|done]. pose proof (proj2 Hs t') as Ht. destruct Ht as [g ig [Hig [r ->]]|]; [|done].
    cbn [eng_prune memory_engine indexed_engine]. pose proof (pruneBefore_ok cutoff ig Hig) as Hok. revert Hok. unfold pruneBefore.
    destruct (prune_blind cutoff r (inner ig)) as [r' ->]. destruct (PruneBefore range cutoff (inner ig)) as [[ns es] g]. cbn.
    destruct (ns + es =? 0) eqn:E; cbn; intros Hok; (apply same_insert; [done|]); (split; [done|]); by exists r'.
  - pose proof (proj2 Hs t) as Ht. destruct Ht as [g ig [Hig [r ->]]|]; [|done]. cbn [eng_erase memory_engine indexed_engine].
    pose proof (deleteSubject_ok subject ig Hig) as Hok. revert Hok. unfold deleteSubject. destruct (erase_blind subject r (inner ig)) as [r' ->].
    destruct (DeleteSubject ToLower subject (inner ig)) as [er g]. cbn. intros Hok. apply same_insert; [done|]. split; [done|].
    exists r'. by destruct (0 <? deleted er).
Qed.

Lemma do_op_answers op s s' :
  same_stores s s' → reads_index op = false ∨ unbarred_store s' → (do_op op s).1 = (do_op op s').1.
Proof.
  intros Hs Hq. destruct op as [t o at_|t|t cutoff|t subject|t at_|t now|t|t node at_|t from to at_]; cbn [do_op].
  - by destruct (normalizeTenant t).
  - destruct (normalizeTenant t) as [t'|]; [|done]. by destruct (proj2 Hs t').
  - destruct (normalizeTenant t) as [t'|]; [|done]. destruct (proj2 Hs t') as [g ig [_ [r ->]]|]; [|done]. cbn [eng_prune memory_engine indexed_engine].
    unfold pruneBefore. destruct (prune_blind cutoff r (inner ig)) as [r' ->]. destruct (PruneBefore range cutoff (inner ig)) as [[ns es] g]. cbn.
    destruct (ns + es =? 0) eqn:E; cbn; zbool; by rewrite ?E.
  - destruct (proj2 Hs t) as [g ig [_ [r ->]]|]; [|done]. cbn [eng_erase memory_engine indexed_engine]. unfold deleteSubject.
    destruct (erase_blind subject r (inner ig)) as [r' ->]. by destruct (DeleteSubject ToLower subject (inner ig)).
  - apply ask_same; [done|]. by intros g ig [_ [r ->]].
  - apply ask_same; [done|]. by intros g ig [_ [r ->]].
  - apply ask_same; [done|]. by intros g ig [_ [r ->]].
  - destruct Hq as [|Hq]; [done|]. apply ask_same; [done|]. intros g ig [Hig [r ->]] [t1 H1]. cbn. by rewrite neighbors_same by (try done; by apply (Hq t1)).
  - destruct Hq as [|Hq]; [done|]. apply ask_same; [done|]. intros g ig [Hig [r ->]] [t1 H1]. cbn. by rewrite traverse_same by (try done; by apply (Hq t1)).
Qed.

Lemma do_op_unbarred op s s' : op_good op → same_stores s s' → unbarred_store s' → unbarred_store (do_op op s').2.
Proof.
  intros Ho [_ Hs] Hu. assert (Hok : ∀ t ig, graphs s' !! t = Some ig → ig_ok ig).
  { intros t ig E. specialize (Hs t). rewrite E in Hs. inversion Hs as [g ig' [Hig _] Eg|]; by subst. }
  destruct op as [t o at_|t|t cutoff|t subject|t at_|t now|t|t node at_|t from to at_]; cbn [do_op]; try (by rewrite ask_state).
  - destruct (normalizeTenant t) as [t'|]; [|done]. apply map_Forall_insert_2; [|done]. unfold graph. cbn [eng_observe indexed_engine].
    destruct (graphs s' !! t') as [ig|] eqn:E; cbn [default]; [apply observe_unbarred; [done|by eapply Hok|by apply (Hu t')]|].
    apply observe_unbarred; [done|exact (proj1 (sim_new t' (s_bounds s')))|]. split; [apply map_Forall_empty|]. split; intros a b id; unfold entry; cbn; by rewrite lookup_empty.
  - destruct (normalizeTenant t) as [t'|]; [|done]. destruct (bool_decide _); [done|]. by apply map_Forall_delete.
  - destruct (normalizeTenant t) as [t'|]; [|done]. destruct (graphs s' !! t') as [ig|] eqn:E; [|done]. cbn [eng_prune indexed_engine].
    pose proof (pruneBefore_unbarred cutoff ig (Hu _ _ E)) as Hp. destruct (pruneBefore range cutoff ig). by apply map_Forall_insert_2.
  - destruct (graphs s' !! t) as [ig|] eqn:E; [|done]. cbn [eng_erase indexed_engine].
    pose proof (deleteSubject_unbarred subject ig (Hu _ _ E)) as Hp. destruct (deleteSubject range ToLower subject ig). by apply map_Forall_insert_2.
Qed.

Lemma run_cons {G} `{!Engine G} op ops (s : Store G) :
  run (op :: ops) s = ((do_op op s).1 :: (run ops (do_op op s).2).1, (run ops (do_op op s).2).2).
Proof using Type. cbn [run]. destruct (do_op op s) as [a s1]. cbn. by destruct (run ops s1). Qed.

Lemma run_stores ops s s' : same_stores s s' → same_stores (run ops s).2 (run ops s').2.
Proof. revert s s'. induction ops as [|op ops IH]; intros s s' Hs; [done|]. rewrite !run_cons. apply IH, do_op_stores, Hs. Qed.

Lemma run_answers ops s s' i op :
  same_stores s s' → unbarred_store s' → ops !! i = Some op → reads_index op = false ∨ Forall op_good (take i ops) → (run ops s).1 !! i = (run ops s').1 !! i.
Proof.
  revert s s' i. assert (H : ∀ ops s s' i op, same_stores s s' → ops !! i = Some op → (reads_index op = false ∨ (unbarred_store s' ∧ Forall op_good (take i ops))) →
    (run ops s).1 !! i = (run ops s').1 !! i).
  { clear ops op. intros ops. induction ops as [|op ops IH]; intros s s' [|i] op' Hs E Hq; [done|done| |]; rewrite !run_cons; cbn.
    - injection E as <-. f_equal. apply do_op_answers; [done|]. destruct Hq as [|[? _]]; auto.
    - apply (IH _ _ i op'); [by apply do_op_stores|done|]. destruct Hq as [|[Hu Hg]]; [by left|right]. inversion Hg; subst. split; [by eapply do_op_unbarred|done]. }
  intros s s' i Hs Hu E Hq. apply (H ops s s' i op Hs E). destruct Hq; auto.
Qed.

Lemma same_new b : same_stores (NewStoreWithBounds b) (NewStoreWithBounds b).
Proof. split; [done|]. intros t. cbn. rewrite !lookup_empty. constructor. Qed.

(** C30. Switching the topology engine is transparent up to the ambiguity of edge identifiers.
    Over any sequence of observations, tenant deletions, retention runs, subject erasures and
    questions of any tenants, the store with adjacency indexes answers every operation but the
    neighbour and route questions as the plain one does - snapshots, conflicts, counts, erasure
    reports and refusals alike -, whatever the names are.  It answers a neighbour or route
    question as the plain one does when no earlier observation, of any tenant, has the separator
    "|" of edge identifiers in a name that starts an edge (an agent, hop, service or device
    name); without that condition it does not, as [barred_names_diverge] shows.  Both although the indexes are
    only brought up to date by the edges an observation adds and by rebuilds, and keep the
    entries of evicted edges. *)
Theorem indexed_transparent (b : Bounds) (ops : list Op) (i : nat) (op : Op) :
  ops !! i = Some op →
  reads_index op = false ∨ Forall op_good (take i ops) →
  (run ops (NewStoreWithBounds b : Store Graph)).1 !! i = (run ops (NewStoreWithBounds b : Store indexedGraph)).1 !! i.
Proof. apply run_answers; [apply same_new|apply map_Forall_empty]. Qed.

(** ** Bounds *)

Record kept (b : Bounds) (g : Graph) : Prop := {
  kp_graph : graph_ok g;
  kp_claims : claims_ok (identity g);
  kp_bounds : bounds g = b;
  kp_ends : map_Forall (λ _ e, From e ≠ [] ∧ To e ≠ []) (edges g) }.

Lemma upsert_node_frame n at_ g :
  identity (upsertNodeLocked range n at_ g) = identity g ∧ bounds (upsertNodeLocked range n at_ g) = bounds g.
Proof. unfold upsertNodeLocked. destruct (nodes g !! n_ID n); [done|]. destruct (full _ _); [|done]. unfold evictOldestNodeLocked. by destruct (bool_decide _). Qed.

Lemma upsert_edge_identity e at_ g : identity (upsertEdgeLocked range e at_ g) = identity g.
Proof.
  unfold upsertEdgeLocked. set (e' := if bool_decide _ then _ else _). clearbody e'. destruct (edges g !! e_ID e').
  - destruct (bool_decide (_ = EdgePhysical)); [|done]. destruct (physicalRetired _ !! _) as [rt|]; [by destruct (Before at_ rt)|done].
  - destruct (full _ _).
    + unfold evictOldestEdgeLocked. destruct (bool_decide (oldestID _ _ _ = [])); by destruct (bool_decide (_ = EdgePhysical)).
    + by destruct (bool_decide (_ = EdgePhysical)).
Qed.

Lemma kept_stable b : stable range ToLower any_id (kept b).
Proof.
  split.
  - intros g g' Hf [H1 H2 H3 H4]. split; [by eapply (st_frame _ _ _ _ (graph_ok_stable any_id))| | |]; destruct Hf as (_ & E2 & _ & E4 & _ & E6); [by rewrite <- E6|by rewrite <- E4|by rewrite <- E2].
  - intros ? ? ? ? ? ? ? ? ? g [H1 H2 H3 H4]. split; [by apply (st_claims _ _ _ _ (graph_ok_stable any_id))|by apply device_ok|done|done].
  - intros n at_ g Hn [H1 H2 H3 H4]. destruct (upsert_node_frame n at_ g) as [E1 E2], (upsert_node_edges n at_ g) as [E3 _].
    split; [by apply (st_node _ _ _ _ (graph_ok_stable any_id))|congruence|congruence|by rewrite E3].
  - intros e at_ g He [H1 H2 H3 H4]. destruct (upsert_edge_spec any_id e at_ g H1 He) as (_ & E & _ & Hu).
    split; [by apply (st_edge _ _ _ _ (graph_ok_stable any_id))|by rewrite upsert_edge_identity|congruence|]. destruct He as (_ & _ & _ & Hf & Ht).
    set (g' := upsertEdgeLocked range e at_ g) in *. destruct (edges g !! EdgeID _ _ _) as [cur|] eqn:Ec.
    + destruct Hu as (_ & cur' & -> & _ & E2 & E3 & _). apply map_Forall_insert_2; [|done]. rewrite E2, E3. by apply (H4 _ _ Ec).
    + destruct Hu as (_ & e' & -> & _ & E2 & E3 & _). apply map_Forall_insert_2; [by rewrite E2, E3|]. destruct (full _ _); [by apply map_Forall_delete|done].
Qed.

Lemma do_op_kept op (s : Store Graph) :
  map_Forall (λ _, kept (s_bounds s)) (graphs s) → s_bounds (do_op op s).2 = s_bounds s ∧ map_Forall (λ _, kept (s_bounds s)) (graphs (do_op op s).2).
Proof.
  intros Hs. destruct op as [t o at_|t|t cutoff|t subject|t at_|t now|t|t node at_|t from to at_]; cbn [do_op]; try (unfold ask; by destruct (normalizeTenant t)).
  - destruct (normalizeTenant t) as [t'|]; [|done]. split; [done|]. cbn. apply map_Forall_insert_2; [|done].
    apply (stable_obs range ToLower FormatRFC3339Nano _ _ (kept_stable (s_bounds s))); [done|apply starts_any|]. unfold graph.
    destruct (graphs s !! t') as [g|] eqn:E; cbn; [by apply (Hs t')|]. split; [apply empty_graph_ok| |done|apply map_Forall_empty]. split; cbn; [apply lookup_empty|by rewrite map_size_empty|apply map_Forall_empty].
  - destruct (normalizeTenant t) as [t'|]; [|done]. destruct (bool_decide _); [done|]. split; [done|]. cbn. by apply map_Forall_delete.
  - destruct (normalizeTenant t) as [t'|]; [|done]. destruct (graphs s !! t') as [g|] eqn:E; [|done]. destruct (Hs _ _ E) as [H1 H2 H3 H4]. cbn [eng_prune memory_engine].
    pose proof (prune_shrinks cutoff g) as Hsk.
    assert (Hid : claims_ok (identity (PruneBefore range cutoff g).2)).
    { unfold PruneBefore. destruct (IsZero cutoff); [done|]. pose proof (prune_ok cutoff (identity g) H2) as Hc.
      destruct (pruneIdentityClaimsBeforeLocked cutoff (identity g)) as [n c]. cbn [snd] in *. erewrite (proj2 (prune_parts c _ _ _ _ g)). exact Hc. }
    destruct (PruneBefore range cutoff g) as [[ns es] g']. cbn in *. split; [done|]. apply map_Forall_insert_2; [|done].
    split; [by eapply shrinks_ok|done|by rewrite (sk_bounds _ _ Hsk)|]. intros id e He. apply (H4 id e). eapply lookup_weaken; [done|apply Hsk].
  - destruct (graphs s !! t) as [g|] eqn:E; [|done]. destruct (Hs _ _ E) as [H1 H2 H3 H4]. cbn [eng_erase memory_engine]. pose proof (erase_shrinks subject g) as Hsk.
    assert (Hid : identity (DeleteSubject ToLower subject g).2 = identity g) by (unfold DeleteSubject; by destruct (bool_decide _)).
    destruct (DeleteSubject ToLower subject g) as [r g']. cbn in *. split; [done|]. apply map_Forall_insert_2; [|done].
    split; [by eapply shrinks_ok|by rewrite Hid|by rewrite (sk_bounds _ _ Hsk)|]. intros id e He. apply (H4 id e). eapply lookup_weaken; [done|apply Hsk].
Qed.

Lemma run_kept ops (s : Store Graph) :
  map_Forall (λ _, kept (s_bounds s)) (graphs s) → s_bounds (run ops s).2 = s_bounds s ∧ map_Forall (λ _, kept (s_bounds s)) (graphs (run ops s).2).
Proof.
  revert s. induction ops as [|op ops IH]; intros s Hs; [done|]. rewrite run_cons. cbn. destruct (do_op_kept op s Hs) as [Eb Hs'].
  rewrite <- Eb in Hs'. specialize (IH _ Hs'). by rewrite Eb in IH.
Qed.

Record bounded_graph (b : Bounds) (g : Graph) : Prop := {
  bd_nodes : within (MaxNodes b) (size (nodes g));
  bd_edges : within (MaxEdges b) (size (edges g));
  bd_sets : Z.of_nat (size (identityClaims (identity g))) ≤ maxIdentityClaimSets;
  bd_claims : ∀ k s, identityClaims (identity g) !! k = Some s → Z.of_nat (size (claims s)) ≤ maxIdentityClaimsPerSet;
  bd_names : ∀ id e, edges g !! id = Some e → e_ID e = id ∧ id = EdgeID (From e) (e_Kind e) (To e) }.

Lemma kept_bounded b g : kept b g → bounded_graph b g.
Proof.
  intros [[H1 H2 H3 H4 H5] [C1 C2 C3] <- _]. split; try done.
  - intros k x Hx. by apply (C3 k x).
  - intros id e He. destruct (H1 _ _ He) as (? & ? & _). done.
Qed.

(** C32. However much is observed and whatever names the observations carry, the graph of every
    tenant stays within the configured caps of nodes and edges and within 1024 sets of 8 identity
    claims, in both engines, and every edge is kept under the identifier made of its ends and
    kind. *)
Theorem topology_bounded (b : Bounds) (ops : list Op) (t : gostring) :
  (∀ g, graphs (run ops (NewStoreWithBounds b : Store Graph)).2 !! t = Some g → bounded_graph b g) ∧
  (∀ ig, graphs (run ops (NewStoreWithBounds b : Store indexedGraph)).2 !! t = Some ig → bounded_graph b (inner ig)).
Proof.
  destruct (run_kept ops (NewStoreWithBounds b)) as [_ Hk]; [apply map_Forall_empty|]. destruct (run_stores ops _ _ (same_new b)) as [_ Hs].
  split; [intros g Hg; apply kept_bounded, (Hk t g Hg)|]. intros ig Hig. specialize (Hs t). rewrite Hig in Hs.
  inversion Hs as [g ig' Hsim Eg Ei|]; subst. destruct Hsim as [_ [r ->]]. symmetry in Eg. destruct (kept_bounded _ _ (Hk t _ Eg)). by split.
Qed.

(** ** Routes *)

(** The nodes a valid edge leads to from a node. *)
Definition targets (at_ : Time) (g : Graph) (x : gostring) : list gostring := merge_sort bytes_le (adj_of range at_ g x).

Lemma elem_of_targets at_ g x y : y ∈ targets at_ g x ↔ ∃ id e, edges g !! id = Some e ∧ valid e at_ = true ∧ From e = x ∧ To e = y.
Proof using range_perm.
  unfold targets, adj_of. rewrite merge_sort_Permutation, list_elem_of_omap. split.
  - intros ([id e] & Hin & Hx). rewrite range_perm in Hin. apply elem_of_map_to_list in Hin. cbn in Hx. destruct (valid e at_) eqn:Hv; cbn in Hx; [|done].
    destruct (bool_decide_reflect (From e = x)) as [Hf|]; [|done]. injection Hx as <-. by exists id, e.
  - intros (id & e & E & Hv & <- & <-). exists (id, e). split; [rewrite range_perm; by apply elem_of_map_to_list|]. cbn. rewrite Hv, bool_decide_eq_true_2; done.
Qed.

Lemma traverse_search fuel nbrs from to prev q :
  prev !! from = None →
  traverse_loop fuel nbrs from to prev (dom (<[from := from]> prev)) q =
  match search_loop (λ x, merge_sort bytes_le (nbrs x)) to fuel (<[from := from]> prev) q with
  | Some (Some p) => Some <$> rebuild p from to
  | Some None => Some None
  | None => None
  end.
Proof using Type.
  intros Hf. rewrite (traverse_indexed fuel nbrs nbrs) by done. generalize (<[from := from]> prev) as parent. clear Hf prev. revert q.
  induction fuel as [|fuel IH]; intros [|cur q] parent; cbn; try done. destruct (expand_to _ _ _ _ _) as [p|[p q']]; [done|]. apply IH.
Qed.

Lemma set_cons_size (x : gostring) (X : gset gostring) : (size ({[x]} ∪ X) ≤ S (size X))%nat.
Proof using Type. rewrite size_union_alt, size_singleton. assert (size (X ∖ {[x]}) ≤ size X)%nat by (by apply subseteq_size, subseteq_difference_l). lia. Qed.

Lemma set_of_list_size (l : list gostring) : (size (list_to_set l : gset gostring) ≤ length l)%nat.
Proof using Type. induction l as [|x l IH]; cbn; [by rewrite size_empty|]. etrans; [apply set_cons_size|]. lia. Qed.

(** C31. Traverse returns on every graph: the list [from] for a node and itself, otherwise a
    shortest route over the edges valid at the time, without repeated nodes, and nothing exactly
    when no sequence of valid edges leads to the target. *)
Theorem traverse_shortest (from to : gostring) (at_ : Time) (g : Graph) :
  match Traverse range from to at_ g with
  | Some (Some r) => shortest (targets at_ g) from to r
  | Some None => from ≠ to ∧ ∀ k, ¬ walk (targets at_ g) from k to
  | None => False
  end.
Proof using range_perm.
  unfold Traverse. destruct (bool_decide_reflect (from = to)) as [<-|Hne].
  { split; [done|done|done|apply NoDup_singleton|]. intros k _. cbn. lia. }
  replace ({[from]} : gset gostring) with (dom (<[from := from]> (∅ : gmap gostring gostring))) by (by rewrite dom_insert_L, dom_empty_L, union_empty_r_L).
  rewrite traverse_search by apply lookup_empty.
  set (U := ({[from]} ∪ list_to_set (To <$> (map_to_list (edges g)).*2) : gset gostring)).
  assert (HU : ∀ x y, x ∈ U → y ∈ targets at_ g x → y ∈ U).
  { intros x y _ (id & e & E & _ & _ & <-)%elem_of_targets. apply elem_of_union_r, elem_of_list_to_set, list_elem_of_fmap. exists e. split; [done|].
    apply list_elem_of_fmap. exists (id, e). split; [done|]. by apply elem_of_map_to_list. }
  assert (Hsize : (size U ≤ S (size (edges g)))%nat).
  { unfold U. etrans; [apply set_cons_size|]. apply le_n_S. etrans; [apply set_of_list_size|]. by rewrite !length_fmap, length_map_to_list. }
  pose proof (search_spec (targets at_ g) U HU from to (S (size (edges g)))) as Hs. rewrite insert_empty. unfold targets in Hs |- *.
  destruct (search_loop _ _ _ _ _) as [[p|]|]; [|split; [done|]|].
  - destruct Hs as (r & -> & Hr); [by apply elem_of_union_l, elem_of_singleton|done|done|]. done.
  - apply Hs; [by apply elem_of_union_l, elem_of_singleton|done|done].
  - apply Hs; [by apply elem_of_union_l, elem_of_singleton|done|done].
Qed.

(** ** What the plain engine does not bound *)

Definition flow (a b : gostring) : ServiceEdgeInput := mkService a b 0 [] [].
Definition flap (at_ : Time) (g : Graph) : Graph :=
  ObserveServiceEdge range (flow (str "b") (str "a")) at_ (ObserveServiceEdge range (flow (str "a") (str "b")) at_ g).

Lemma single_other {A} (m : gmap gostring A) i j : (size m ≤ 1)%nat → is_Some (m !! i) → i ≠ j → m !! j = None.
Proof using Type.
  intros Hm Hi Hne. destruct (m !! j) eqn:Hj; [|done]. exfalso. assert (Hd : size (delete i m) = Nat.pred (size m)) by (by apply map_size_delete_Some).
  assert (Hs : is_Some (delete i m !! j)) by (rewrite lookup_delete_ne by done; by eexists). assert (size (delete i m) ≠ 0%nat); [|lia].
  intros E%map_size_empty_iff. rewrite E, lookup_empty in Hs. by destruct Hs.
Qed.

Lemma flow_fresh a b at_ g :
  a ≠ [] → b ≠ [] → kept (mkBounds 0 1 0) g → edges g !! EdgeID (serviceID a) EdgeFlow (serviceID b) = None →
  let g' := ObserveServiceEdge range (flow a b) at_ g in
  kept (mkBounds 0 1 0) g' ∧ length (recent g') = S (length (recent g)) ∧
  ∀ id, id ≠ EdgeID (serviceID a) EdgeFlow (serviceID b) → edges g' !! id = None.
Proof.
  intros Ha Hb Hg He g'. pose proof (stable_obs range ToLower FormatRFC3339Nano _ _ (kept_stable _) (DoServiceEdge (flow a b)) at_ g range_perm I Hg) as Hk.
  change (kept (mkBounds 0 1 0) g') in Hk. split; [done|]. unfold g', ObserveServiceEdge in *. cbn [flow sv_Source Destination] in *.
  rewrite (bool_decide_eq_false_2 (a = [])), (bool_decide_eq_false_2 (b = [])) in Hk by done. cbn [orb] in Hk.
  rewrite (bool_decide_eq_false_2 (a = [])), (bool_decide_eq_false_2 (b = [])) by done. cbn [orb].
  set (g1 := UpsertNode range _ at_ (UpsertNode range _ at_ g)) in *.
  assert (E1 : edges g1 = edges g ∧ recent g1 = recent g).
  { unfold g1, UpsertNode. cbn. rewrite !(proj1 (upsert_node_edges _ _ _)), !(proj2 (upsert_node_edges _ _ _)). cbn.
    by rewrite !(proj1 (upsert_node_edges _ _ _)), !(proj2 (upsert_node_edges _ _ _)). }
  assert (Hg1 : graph_ok g1). { unfold g1. do 2 (apply (stable_UpsertNode _ _ _ _ (graph_ok_stable any_id)); [done|]). apply Hg. }
  set (e := newEdge _ _ _ _ _) in *. assert (Hgood : edge_good any_id e) by (by apply good_edge).
  destruct (upsert_edge_spec any_id e at_ g1 Hg1 Hgood) as (_ & _ & _ & Hu). destruct E1 as [E1 E2]. rewrite E1, E2 in Hu.
  change (EdgeID (From e) (e_Kind e) (To e)) with (EdgeID (serviceID a) EdgeFlow (serviceID b)) in Hu. rewrite He in Hu.
  unfold UpsertEdge in *. destruct Hu as [-> (e' & Ee & _)]. split; [rewrite length_app; cbn; lia|]. intros id Hid. eapply single_other; [| |exact (not_eq_sym Hid)].
  - pose proof (ok_edge_count _ (kp_graph _ _ Hk)) as Hc. rewrite (kp_bounds _ _ Hk) in Hc. specialize (Hc eq_refl). change (MaxEdges (mkBounds 0 1 0)) with 1 in Hc. lia.
  - rewrite Ee, lookup_insert_eq. by eexists.
Qed.

(** The plain engine's list of fresh edges is not bounded by the caps: two service edges that
    alternate under a cap of one edge keep the graph at one edge, while the list, which only the
    indexed engine ever drains, grows by one entry per observation. *)
Theorem plain_engine_leaks (t : gostring) (at_ : Time) (n : nat) :
  let g := Nat.iter n (flap at_) (NewGraphWithBounds t (mkBounds 0 1 0)) in
  (size (edges g) ≤ 1)%nat ∧ length (recent g) = (2 * n)%nat.
Proof.
  set (ab := EdgeID (serviceID (str "a")) EdgeFlow (serviceID (str "b"))). set (ba := EdgeID (serviceID (str "b")) EdgeFlow (serviceID (str "a"))).
  assert (Hne : ab ≠ ba) by (intros E; by vm_compute in E).
  assert (H : let g := Nat.iter n (flap at_) (NewGraphWithBounds t (mkBounds 0 1 0)) in
              kept (mkBounds 0 1 0) g ∧ edges g !! ab = None ∧ length (recent g) = (2 * n)%nat).
  { induction n as [|n IH]; cbn zeta; [split_and!; [|apply lookup_empty|done]|].
    - split; [apply empty_graph_ok| |done|apply map_Forall_empty]. split; cbn; [apply lookup_empty|by rewrite map_size_empty|apply map_Forall_empty].
    - rewrite Nat.iter_succ. destruct IH as (Hk & Hab & Hl). set (g := Nat.iter n _ _) in *. clearbody g.
      destruct (flow_fresh (str "a") (str "b") at_ g) as (K1 & L1 & N1); [done|done|done|done|].
      destruct (flow_fresh (str "b") (str "a") at_ (ObserveServiceEdge range (flow (str "a") (str "b")) at_ g)) as (K2 & L2 & N2); [done|done|done|by apply N1|].
      unfold flap. split_and!; [done|by apply N2|]. rewrite L2, L1, Hl. lia. }
  cbn zeta in H |- *. destruct H as (Hk & _ & Hl). split; [|done]. pose proof (ok_edge_count _ (kp_graph _ _ Hk)) as Hc. rewrite (kp_bounds _ _ Hk) in Hc.
  specialize (Hc eq_refl). change (MaxEdges (mkBounds 0 1 0)) with 1 in Hc. lia.
Qed.

End stores.
Arguments Store : clear implicits.

(** ** Runs *)

Definition demo_range (A : Type) (m : gmap gostring A) : list (gostring * A) := map_to_list m.
Definition demo_lower (s : gostring) : gostring := s.
Definition demo_format (t : Time) : gostring := [].
Definition demo_time (s : Z) : Time := mkTime (63900000000 + s) 0.

Definition demo_ops : list Op :=
  [DoObserve (str "t") (DoPath (mkPath (str "a1") (str "web") (str "203.0.113.1") [str "10.0.0.1"; str "10.0.0.2"] [mkLink (str "10.0.0.1") (str "10.0.0.2")])) (demo_time 1);
   DoObserve (str "t") (DoDevice (demo_time 2) (mkDevice (str "10.9.9.9") (str "alice") [str "10.0.0.1"] (str "snmp") (str "a1") 0 [])) (demo_time 1);
   DoObserve (str "t") (DoDevice (demo_time 2) (mkDevice (str "10.9.9.9") (str "core") [] (str "gnmi") (str "a1") 0 [])) (demo_time 1);
   AskTraverse (str "t") (str "agent:a1") (str "host:203.0.113.1") (demo_time 1);
   AskNeighbors (str "t") (str "hop:10.0.0.1") (demo_time 1)].

Lemma demo_good : Forall op_good demo_ops.
Proof.
  repeat constructor; cbn [op_good obs_good p_AgentID Hops Links Address]; repeat constructor; cbn [l_From]; apply no_bar_str; reflexivity.
Qed.

Definition demo_plain (ops : list Op) : list Answer * Store Graph :=
  run demo_range demo_lower demo_format (Engine0 := memory_engine demo_range demo_lower) ops (NewStoreWithBounds DefaultBounds).
Definition demo_indexed (ops : list Op) : list Answer * Store indexedGraph :=
  run demo_range demo_lower demo_format (Engine0 := indexed_engine demo_range demo_lower) ops (NewStoreWithBounds DefaultBounds).

Example demo_answers :
  drop 3 (demo_indexed demo_ops).1 =
  [Route (Some (Some [str "agent:a1"; str "hop:10.0.0.1"; str "hop:10.0.0.2"; str "host:203.0.113.1"]));
   Ids [str "agent:a1"; str "device:10.9.9.9"; str "hop:10.0.0.2"]].
Proof. vm_compute. reflexivity. Qed.

Lemma indexed_transparent_witness : (demo_plain demo_ops).1 !! 4%nat = (demo_indexed demo_ops).1 !! 4%nat.
Proof.
  apply (indexed_transparent demo_range (λ _ _, Permutation_refl _) demo_lower demo_format DefaultBounds demo_ops 4 _ eq_refl).
  right. apply Forall_take, demo_good.
Defined.

(** Edge identifiers join their parts with "|" and escape nothing, so a service name with the
    separator in it collides with another edge.  Under a cap of one edge the index keeps the entry
    of an evicted edge, whose identifier now belongs to a different one, and the indexed engine
    names a neighbour the plain engine does not have. *)
Definition barred_ops : list Op :=
  [DoObserve (str "t") (DoServiceEdge (flow (str "a|flow|service:b") (str "c"))) (demo_time 1);
   DoObserve (str "t") (DoServiceEdge (flow (str "x") (str "y"))) (demo_time 1);
   DoObserve (str "t") (DoServiceEdge (flow (str "a") (str "b|flow|service:c"))) (demo_time 1);
   AskNeighbors (str "t") (str "service:c") (demo_time 1)].

Example barred_names_diverge :
  drop 3 (run demo_range demo_lower demo_format (Engine0 := memory_engine demo_range demo_lower) barred_ops (NewStoreWithBounds (mkBounds 0 1 0))).1 = [Ids []] ∧
  drop 3 (run demo_range demo_lower demo_format (Engine0 := indexed_engine demo_range demo_lower) barred_ops (NewStoreWithBounds (mkBounds 0 1 0))).1 =
    [Ids [str "service:a|flow|service:b"]].
Proof. split; vm_compute; reflexivity. Qed.

Definition demo_graph : Graph := default (NewGraph (str "t")) (graphs (demo_plain demo_ops).2 !! str "t").

Lemma topology_bounded_witness : bounded_graph DefaultBounds demo_graph.
Proof.
  apply (proj1 (topology_bounded demo_range (λ _ _, Permutation_refl _) demo_lower demo_format DefaultBounds demo_ops (str "t"))).
  vm_compute. reflexivity.
Defined.

Lemma traverse_shortest_witness :
  shortest (targets demo_range (demo_time 1) demo_graph) (str "agent:a1") (str "host:203.0.113.1")
    [str "agent:a1"; str "hop:10.0.0.1"; str "hop:10.0.0.2"; str "host:203.0.113.1"].
Proof.
  pose proof (traverse_shortest demo_range (λ _ _, Permutation_refl _) (str "agent:a1") (str "host:203.0.113.1") (demo_time 1) demo_graph) as H.
  assert (E : Traverse demo_range (str "agent:a1") (str "host:203.0.113.1") (demo_time 1) demo_graph =
              Some (Some [str "agent:a1"; str "hop:10.0.0.1"; str "hop:10.0.0.2"; str "host:203.0.113.1"])) by (vm_compute; reflexivity).
  rewrite E in H. exact H.
Defined.

Lemma plain_engine_leaks_witness :
  length (recent (Nat.iter 3 (flap demo_range (demo_time 1)) (NewGraphWithBounds (str "t") (mkBounds 0 1 0)))) = 6%nat.
Proof. exact (proj2 (plain_engine_leaks demo_range (λ _ _, Permutation_refl _) demo_lower demo_format (str "t") (demo_time 1) 3)). Defined.

(** Erasing a subject reports that nothing of it remains, and the claims still name it. *)
Example erasure_leaves_claims :
  match drop 5 (demo_plain (demo_ops ++ [DoDeleteSubject (str "t") (str "alice"); DoDeleteSubject (str "t") (str "core"); AskConflicts (str "t")])).1 with
  | [Erased r; Erased r'; Conflicts c] => Some (remaining r, remaining r', (λ i, Value <$> cf_Claims i) <$> Items c)
  | _ => None
  end = Some (0, 0, [[str "alice"; str "core"]]).
Proof. vm_compute. reflexivity. Qed.

End TopoStore.
