(* ===== verification/WhatIf.v ===== *)
(** * What-if simulation (internal/topology/whatif.go)

    The predicted impact of failing one node or edge of a tenant's graph: broken and rerouted
    agent paths, dependent services, originated prefixes and what falls off the map, under a
    budget of agents, visits and wall-clock time.  Readings of the clock and the source of SLOs
    are parameters. *)

From S2P Require Import Prelude GoHash GoTime GoString Incident Bfs TopoIdentity Topology TopoBuilder TopoStore.
#[local] Open Scope Z_scope.

Module WhatIf.
Import TopoIdentity Topology TopoBuilder TopoStore.

(** ** Results *)

Definition PathBroken : gostring := str "broken".
Definition PathRerouted : gostring := str "rerouted".

Record PathImpact := mkPathImpact { pi_From : gostring; pi_To : gostring; Status : gostring; pi_Route : list gostring; AltRoute : list gostring }.
Record TestImpact := mkTestImpact { ti_AgentID : gostring; ti_Target : gostring; ti_Status : gostring }.
Record SimulationConfidence := mkConfidence { Level : gostring; Score : Z; cBasis : gostring }.
Record Coverage := mkCoverage { PathEdges : Z; FlowEdges : Z; RoutingEdges : Z; DeviceEdges : Z; PhysicalEdges : Z; Notes : list gostring }.
#[export] Instance Coverage_eta : Eta Coverage := λ c, mkCoverage (PathEdges c) (FlowEdges c) (RoutingEdges c) (DeviceEdges c) (PhysicalEdges c) (Notes c).

Record Impact := mkImpact {
  i_Target : gostring; TargetKind : gostring; i_At : Time; BrokenPaths : list PathImpact; ReroutedPaths : list PathImpact; ImpactedTests : list TestImpact;
  ImpactedServices : list gostring; ImpactedPrefixes : list gostring; Disconnected : list gostring; Partial : bool; ImpactedSLOs : list gostring;
  i_Coverage : Coverage; i_Confidence : SimulationConfidence }.

(** ** The budget *)

Record Budget := mkBudget { MaxAgents : Z; MaxVisits : Z; Deadline : Z }.
Definition DefaultBudget : Budget := mkBudget 2000 2000000 (5 * Second).
Definition normalized (b : Budget) : Budget :=
  mkBudget (if MaxAgents b <=? 0 then MaxAgents DefaultBudget else MaxAgents b) (if MaxVisits b <=? 0 then MaxVisits DefaultBudget else MaxVisits b) (Deadline b).

(** [reads] counts the readings of the clock so far. *)
Record simMeter := mkMeter { m_budget : Budget; visits : Z; reads : nat; exhausted : gostring }.
#[export] Instance simMeter_eta : Eta simMeter := λ m, mkMeter (m_budget m) (visits m) (reads m) (exhausted m).

Section whatif.
(** The time since the start at each reading. *)
Context (elapsed : nat → Z).

Definition spend (n : Z) (m : simMeter) : bool * simMeter :=
  if negb (bool_decide (exhausted m = [])) then (false, m)
  else
    let m := m <| visits := i64 (visits m + n) |> in
    if MaxVisits (m_budget m) <? visits m then (false, m <| exhausted := str "node-visit budget" |>)
    else if Deadline (m_budget m) <=? 0 then (true, m)
    else
      let late := Deadline (m_budget m) <? elapsed (reads m) in
      let m := m <| reads := S (reads m) |> in
      if late then (false, m <| exhausted := str "wall-clock budget" |>) else (true, m).

Definition m_ok (m : simMeter) : bool := bool_decide (exhausted m = []).

(** ** The simulation graph *)

Record simGraph := mkSim { sg_nodes : gmap gostring Node; sg_edges : gmap gostring Edge }.

Definition newSimGraph (s : Snapshot) : simGraph :=
  mkSim (foldl (λ m n, <[n_ID n := n]> m) ∅ (Nodes s)) (foldl (λ m e, <[e_ID e := e]> m) ∅ (Edges s)).

Definition nodesOfKind (g : simGraph) (k : gostring) : list Node :=
  merge_sort node_le (List.filter (λ n, bool_decide (n_Kind n = k)) (map_to_list (sg_nodes g)).*2).

Abbreviation Adjacency := (gmap gostring (gset gostring)).

Definition add (adj : Adjacency) (a b : gostring) : Adjacency := <[a := {[b]} ∪ default ∅ (adj !! a)]> adj.

(** The kind "" is every kind, the failed "" fails nothing. *)
Definition adjacency (g : simGraph) (kind : gostring) (rev : bool) (failed : gostring) : Adjacency :=
  foldl (λ adj (kv : gostring * Edge),
    let '(id, e) := kv in
    if negb (bool_decide (kind = [])) && negb (bool_decide (e_Kind e = kind)) then adj
    else if bool_decide (id = failed) || bool_decide (From e = failed) || bool_decide (To e = failed) then adj
    else if rev then add adj (To e) (From e) else add adj (From e) (To e)) ∅ (map_to_list (sg_edges g)).

Definition undirect (adj : Adjacency) : Adjacency :=
  foldl (λ out (kv : gostring * gset gostring), foldl (λ out b, add (add out kv.1 b) b kv.1) out (elements kv.2)) ∅ (map_to_list adj).

Definition out (adj : Adjacency) (n : gostring) : gset gostring := default ∅ (adj !! n).

(** Fuel of a search: the start and the nodes with an edge to them. *)
Definition fuel_of (adj : Adjacency) : nat := S (size (⋃ (map_to_list adj).*2)).

Definition bfsParents (adj : Adjacency) (start : gostring) : option (gmap gostring gostring) :=
  bfs_loop (λ cur, sorted_set (out adj cur)) (fuel_of adj) {[start := start]} [start].

Definition routesFrom (adj : Adjacency) (start : gostring) (g : simGraph) (want : gostring) : option (list (gostring * list gostring)) :=
  parent ← bfsParents adj start;
  mapM (λ id, r ← rebuild parent start id; Some (id, r))
    (List.filter (λ id, match sg_nodes g !! id with Some n => bool_decide (n_Kind n = want) && negb (bool_decide (id = start)) | None => false end)
       (map_to_list parent).*1).

(** [Some None] is a goal that is not reached. *)
Definition bfsRoute (adj : Adjacency) (start goal : gostring) : option (option (list gostring)) :=
  parent ← bfsParents adj start;
  if bool_decide (parent !! goal = None) then Some None else r ← rebuild parent start goal; Some (Some r).

Definition reachableFrom (adj : Adjacency) (start : gostring) : option (gset gostring) :=
  reach_loop (λ cur, elements (out adj cur)) (fuel_of adj) {[start]} [start].

Fixpoint routeUses (route : list gostring) (failed : gostring) : bool :=
  match route with
  | [] => false
  | n :: rest =>
      if bool_decide (n = failed) then true
      else match rest with
           | m :: _ => bool_decide (EdgeID n EdgePath m = failed) || routeUses rest failed
           | [] => false
           end
  end.

Definition path_le (a b : PathImpact) : Prop :=
  if bool_decide (pi_From a = pi_From b) then bytes_le (pi_To a) (pi_To b) else bytes_le (pi_From a) (pi_From b).
#[export] Instance path_le_dec : RelDecision path_le.
Proof. intros a b. unfold path_le. destruct (bool_decide _); apply _. Defined.
Definition sortPathImpacts : list PathImpact → list PathImpact := merge_sort path_le.

(** ** Coverage and confidence *)

Definition count (c : Coverage) (k : gostring) : Coverage :=
  if bool_decide (k = EdgePath) then c <| PathEdges := PathEdges c + 1 |>
  else if bool_decide (k = EdgeFlow) then c <| FlowEdges := FlowEdges c + 1 |>
  else if bool_decide (k = EdgeRouting) then c <| RoutingEdges := RoutingEdges c + 1 |>
  else if bool_decide (k = EdgeDevice) then c <| DeviceEdges := DeviceEdges c + 1 |>
  else if bool_decide (k = EdgePhysical) then c <| PhysicalEdges := PhysicalEdges c + 1 |>
  else c.

Definition note (b : bool) (s : gostring) (c : Coverage) : Coverage := if b then c <| Notes := Notes c ++ [s] |> else c.

(** Dashes and arrows of the notes. *)
Definition dash : gostring := bytes [32; 0xE2; 0x80; 0x94; 32].
Definition to_arrow : gostring := bytes [0xE2; 0x86; 0x92].

Definition annotate (c : Coverage) : Coverage :=
  let c := note (FlowEdges c =? 0) (str "no flow-plane (eBPF) edges" ++ dash ++ str "service impact may be incomplete") c in
  let c := note (RoutingEdges c =? 0) (str "no routing-plane (BGP) edges" ++ dash ++ str "prefix impact may be incomplete") c in
  let c := note (DeviceEdges c =? 0) (str "no device" ++ to_arrow ++ str "hop interface links" ++ dash ++ str "L3 device-to-path impact unavailable") c in
  note (PhysicalEdges c =? 0) (str "no LLDP/CDP physical adjacencies" ++ dash ++ str "switch-level impact may be incomplete") c.

Definition noCoverage : Coverage := mkCoverage 0 0 0 0 0 [].
Definition coverage (g : simGraph) : Coverage := annotate (foldl (λ c (kv : gostring * Edge), count c (e_Kind kv.2)) noCoverage (map_to_list (sg_edges g))).
Definition SnapshotCoverage (s : Snapshot) : Coverage := annotate (foldl (λ c e, count c (e_Kind e)) noCoverage (Edges s)).

Definition simulationConfidence (c : Coverage) (sloWired : bool) : SimulationConfidence :=
  let sources := len (List.filter id [0 <? PathEdges c; 0 <? FlowEdges c; 0 <? RoutingEdges c; (0 <? DeviceEdges c) || (0 <? PhysicalEdges c); sloWired]) in
  let score := sources * 20 in
  mkConfidence (if 80 <=? score then str "high" else if 40 <=? score then str "medium" else str "low") score
    (dec sources ++ str " of 5 impact evidence sources wired (path, flow, routing, device, SLO)").

(** ** The planes *)

(** What one agent's routes lose: broken and rerouted paths. *)
Definition agent_impact (sim : simGraph) (before after : Adjacency) (target agent : gostring) : option (list PathImpact * list PathImpact) :=
  pre ← routesFrom before agent sim NodeHost;
  if bool_decide (agent = target) then Some ((λ hr : gostring * list gostring, mkPathImpact agent hr.1 PathBroken hr.2 []) <$> pre, [])
  else
    l ← mapM (λ hr : gostring * list gostring,
      if negb (routeUses hr.2 target) then Some ([], [])
      else alt ← bfsRoute after agent hr.1;
           Some (match alt with
                 | Some r => ([], [mkPathImpact agent hr.1 PathRerouted hr.2 r])
                 | None => ([mkPathImpact agent hr.1 PathBroken hr.2 []], [])
                 end)) pre;
    Some (concat l.*1, concat l.*2).

Fixpoint agents_loop (sim : simGraph) (before after : Adjacency) (target : gostring) (agents : list Node) (m : simMeter)
    : option (simMeter * list PathImpact * list PathImpact) :=
  match agents with
  | [] => Some (m, [], [])
  | agent :: agents =>
      let '(ok, m) := spend 1 m in
      if negb ok then Some (m, [], [])
      else
        p ← agent_impact sim before after target (n_ID agent);
        q ← agents_loop sim before after target agents m;
        Some (q.1.1, p.1 ++ q.1.2, p.2 ++ q.2)
  end.

Fixpoint disconnected_loop (before after : Adjacency) (target : gostring) (agents : list Node) (m : simMeter) (pre post : gset gostring)
    : option (simMeter * gset gostring * gset gostring) :=
  match agents with
  | [] => Some (m, pre, post)
  | agent :: agents =>
      if bool_decide (n_ID agent = target) then disconnected_loop before after target agents m pre post
      else
        let '(ok, m) := spend (Z.of_nat (size before)) m in
        if negb ok then Some (m, pre, post)
        else
          b ← reachableFrom before (n_ID agent);
          a ← reachableFrom after (n_ID agent);
          disconnected_loop before after target agents m (pre ∪ b) (post ∪ a)
  end.

Definition impacted_services (sim : simGraph) (target : gostring) (failed : option Node) : option (list gostring) :=
  match failed with
  | Some n =>
      if bool_decide (n_Kind n = NodeService) || bool_decide (n_Kind n = NodeHost) then
        callers ← reachableFrom (adjacency sim EdgeFlow true []) target;
        Some (merge_sort bytes_le (elements (callers ∖ {[target]}) ++ (if bool_decide (n_Kind n = NodeService) then [target] else [])))
      else Some []
  | None => Some []
  end.

Definition impacted_prefixes (sim : simGraph) (target : gostring) (failed : option Node) : list gostring :=
  match failed with
  | Some n =>
      if bool_decide (n_Kind n = NodeAS) then merge_sort bytes_le (elements (out (adjacency sim EdgeRouting false []) target))
      else if bool_decide (n_Kind n = NodePrefix) then [target] else []
  | None => []
  end.

Definition partial_note (exhausted : gostring) : gostring :=
  str "PARTIAL RESULT: the " ++ exhausted ++ str " was exhausted before every agent was simulated" ++ dash
  ++ str "impact below is a lower bound, not a complete answer".

(** The simulation over a snapshot; [slo] is the wired source of SLOs. *)
Definition simulate (slo : option (list gostring → list gostring → list gostring)) (budget : Budget) (snap : Snapshot) (target : gostring) (at_ : Time)
    : option (option Impact) :=
  let m := mkMeter (normalized budget) 0 0 [] in
  let sim := newSimGraph snap in
  let failed := sg_nodes sim !! target in
  if bool_decide (failed = None) && bool_decide (sg_edges sim !! target = None) then Some None
  else
    let kind := match failed with Some n => n_Kind n | None => str "edge" end in
    let before := adjacency sim EdgePath false [] in
    let after := adjacency sim EdgePath false target in
    let agents := nodesOfKind sim NodeAgent in
    let many := MaxAgents (m_budget m) <? len agents in
    let agents := if many then take (Z.to_nat (MaxAgents (m_budget m))) agents else agents in
    let m := if many then m <| exhausted := str "agent budget" |> else m in
    p ← agents_loop sim before after target agents m;
    let '(m, broken, rerouted) := p in
    let broken := sortPathImpacts broken in
    let rerouted := sortPathImpacts rerouted in
    let tests := ((λ p, mkTestImpact (pi_From p) (pi_To p) PathBroken) <$> broken) ++ ((λ p, mkTestImpact (pi_From p) (pi_To p) PathRerouted) <$> rerouted) in
    let cov := note (negb (bool_decide (tests = [])))
      (str "scheduled test definition IDs are not carried by topology path edges" ++ dash ++ str "affected tests are identified by agent and target") (coverage sim) in
    services ← impacted_services sim target failed;
    q ← disconnected_loop (undirect (adjacency sim [] false [])) (undirect (adjacency sim [] false target)) target agents m ∅ ∅;
    let '(m, pre, post) := q in
    let disconnected := merge_sort bytes_le (elements (pre ∖ post ∖ {[target]})) in
    let cov := note (negb (m_ok m)) (partial_note (exhausted m)) cov in
    let cov := note (bool_decide (slo = None)) (str "slo impact not wired (S45)" ++ dash ++ str "paths/services only") cov in
    let slos := match slo with Some f => f services (pi_To <$> broken) | None => [] end in
    Some (Some (mkImpact target kind at_ broken rerouted tests services (impacted_prefixes sim target failed) disconnected (negb (m_ok m)) slos cov
                  (simulationConfidence cov (bool_decide (is_Some slo))))).

(** ** Over a store *)

Inductive SimResult := SimErrTenant | SimUnknown (target : gostring) (at_ : Time) | SimImpact (i : Impact).

(** The graph at the time, or the live one for the zero time. *)
Definition snapshot_for {G} `{!Engine G} (now : Time) (s : @Store G) (t : gostring) (at_ : Time) : Snapshot :=
  if IsZero at_ then match graphs s !! t with Some g => eng_latest now g | None => emptySnapshot t zero_time end
  else match graphs s !! t with Some g => eng_snapshotAt at_ g | None => emptySnapshot t at_ end.

Definition SimulateWithBudget {G} `{!Engine G} (slo : option (gostring → list gostring → list gostring → list gostring)) (budget : Budget) (now : Time)
    (s : @Store G) (t target : gostring) (at_ : Time) : option SimResult :=
  match normalizeTenant t with
  | None => Some SimErrTenant
  | Some t =>
      let snap := snapshot_for now s t at_ in
      let at_ := if IsZero at_ then s_At snap else at_ in
      r ← simulate ((λ f, f t) <$> slo) budget snap target at_;
      Some (match r with Some i => SimImpact i | None => SimUnknown target at_ end)
  end.

Definition Simulate {G} `{!Engine G} (slo : option (gostring → list gostring → list gostring → list gostring)) (now : Time)
    (s : @Store G) (t target : gostring) (at_ : Time) : option SimResult := SimulateWithBudget slo DefaultBudget now s t target at_.

(** ** Edges and reachability *)

(** An edge of the kind joins two nodes; and one that does not involve the failed element. *)
Definition link (g : simGraph) (kind x y : gostring) : Prop :=
  ∃ id e, sg_edges g !! id = Some e ∧ (kind = [] ∨ e_Kind e = kind) ∧ From e = x ∧ To e = y.
Definition spared (g : simGraph) (kind failed x y : gostring) : Prop :=
  ∃ id e, sg_edges g !! id = Some e ∧ (kind = [] ∨ e_Kind e = kind) ∧ From e = x ∧ To e = y ∧ id ≠ failed ∧ x ≠ failed ∧ y ≠ failed.

Definition either (R : gostring → gostring → Prop) (x y : gostring) : Prop := R x y ∨ R y x.

Definition sim_ok (g : simGraph) : Prop :=
  ∀ id e, sg_edges g !! id = Some e → id = EdgeID (From e) (e_Kind e) (To e) ∧ From e ≠ [] ∧ To e ≠ [].

Lemma out_add adj a b x y : y ∈ out (add adj a b) x ↔ (x = a ∧ y = b) ∨ y ∈ out adj x.
Proof using Type.
  unfold out, add. destruct (decide (a = x)) as [<-|Hne].
  - rewrite lookup_insert_eq. cbn. rewrite elem_of_union, elem_of_singleton. tauto.
  - rewrite lookup_insert_ne by done. split; [auto|]. intros [[-> _]|H]; done.
Qed.

Lemma out_empty x y : y ∈ out ∅ x ↔ False.
Proof using Type. unfold out. rewrite lookup_empty. cbn. by rewrite elem_of_empty. Qed.

Lemma out_adjacency g kind (rev : bool) failed x y :
  y ∈ out (adjacency g kind rev failed) x ↔ if rev then spared g kind failed y x else spared g kind failed x y.
Proof using Type.
  unfold adjacency, spared. set (ok := λ id e, (kind = [] ∨ e_Kind e = kind) ∧ id ≠ failed ∧ From e ≠ failed ∧ To e ≠ failed).
  set (ends := λ e, if rev then To e = x ∧ From e = y else From e = x ∧ To e = y).
  assert (H : ∀ l adj, y ∈ out (foldl (λ adj (kv : gostring * Edge), let '(id, e) := kv in
      if negb (bool_decide (kind = [])) && negb (bool_decide (e_Kind e = kind)) then adj
      else if bool_decide (id = failed) || bool_decide (From e = failed) || bool_decide (To e = failed) then adj
      else if rev then add adj (To e) (From e) else add adj (From e) (To e)) adj l) x ↔ y ∈ out adj x ∨ ∃ id e, (id, e) ∈ l ∧ ok id e ∧ ends e).
  { induction l as [|[id e] l IH]; intros adj; cbn [foldl].
    - split; [by left|]. intros [?|(id & e & ?%elem_of_nil & _)]; done.
    - rewrite IH. clear IH.
      assert (Hstep : y ∈ out (if negb (bool_decide (kind = [])) && negb (bool_decide (e_Kind e = kind)) then adj
        else if bool_decide (id = failed) || bool_decide (From e = failed) || bool_decide (To e = failed) then adj
        else if rev then add adj (To e) (From e) else add adj (From e) (To e)) x ↔ y ∈ out adj x ∨ (ok id e ∧ ends e)).
      { unfold ok, ends. destruct (bool_decide_reflect (kind = [])), (bool_decide_reflect (e_Kind e = kind)); cbn [negb andb];
        destruct (bool_decide_reflect (id = failed)), (bool_decide_reflect (From e = failed)), (bool_decide_reflect (To e = failed)); cbn [orb];
        destruct rev; rewrite ?out_add; intuition congruence. }
      rewrite Hstep. split.
      + intros [[?|H]|(id' & e' & Hin & H)]; [by left|right; exists id, e; split; [by left|done]|right; exists id', e'; split; [by right|done]].
      + intros [?|(id' & e' & [[= -> ->]|Hin]%elem_of_cons & H)]; [by left; left|by left; right|right; by exists id', e']. }
  rewrite H, out_empty. unfold ok, ends. split.
  - intros [[]|(id & e & Hin%elem_of_map_to_list & (Hk & Hi & Hf & Ht) & He)]. destruct rev; destruct He as [<- <-]; exists id, e; done.
  - intros Hx. right. destruct rev; destruct Hx as (id & e & Hin & Hk & <- & <- & Hi & Hf & Ht); exists id, e; (split; [by apply elem_of_map_to_list|done]).
Qed.

(** Nothing is failed by the empty string. *)
Lemma spared_nil g kind x y : sim_ok g → spared g kind [] x y ↔ link g kind x y.
Proof using Type.
  intros Hg. split; [intros (id & e & E & Hk & Hf & Ht & _); by exists id, e|]. intros (id & e & E & Hk & <- & <-). exists id, e. destruct (Hg _ _ E) as (Hi & Hf & Ht).
  split_and!; try done. rewrite Hi. unfold EdgeID. by destruct (From e).
Qed.

Lemma out_undirect adj x y : y ∈ out (undirect adj) x ↔ y ∈ out adj x ∨ x ∈ out adj y.
Proof using Type.
  unfold undirect.
  assert (Hin : ∀ a l o, y ∈ out (foldl (λ o b, add (add o a b) b a) o l) x ↔ y ∈ out o x ∨ (x = a ∧ y ∈ l) ∨ (y = a ∧ x ∈ l)).
  { intros a l. induction l as [|b l IH]; intros o; cbn [foldl]; [rewrite !elem_of_nil; tauto|]. rewrite IH, !out_add, !elem_of_cons. tauto. }
  assert (H : ∀ l o, y ∈ out (foldl (λ o (kv : gostring * gset gostring), foldl (λ o b, add (add o kv.1 b) b kv.1) o (elements kv.2)) o l) x ↔
                     y ∈ out o x ∨ ∃ kv, kv ∈ l ∧ ((x = kv.1 ∧ y ∈ kv.2) ∨ (y = kv.1 ∧ x ∈ kv.2))).
  { induction l as [|kv l IH]; intros o; cbn [foldl]; [split; [by left|]; intros [?|(? & ?%elem_of_nil & _)]; done|]. rewrite IH, Hin, !elem_of_elements. clear IH Hin. split.
    - intros [[?|H]|(kv' & Hk & H)]; [by left|right; exists kv; split; [by left|tauto]|right; exists kv'; split; [by right|done]].
    - intros [?|(kv' & [->|Hk]%elem_of_cons & H)]; [by left; left|left; right; tauto|right; by exists kv']. }
  rewrite H, out_empty. clear H Hin. unfold out. split.
  - intros [[]|([k ns] & Hk%elem_of_map_to_list & [[-> Hy]|[-> Hx]])]; cbn in *; [left|right]; by rewrite Hk.
  - intros [Hy|Hx]; right.
    + destruct (adj !! x) as [ns|] eqn:E; cbn in Hy; [|by apply elem_of_empty in Hy]. exists (x, ns). split; [by apply elem_of_map_to_list|by left].
    + destruct (adj !! y) as [ns|] eqn:E; cbn in Hx; [|by apply elem_of_empty in Hx]. exists (y, ns). split; [by apply elem_of_map_to_list|by right].
Qed.

Lemma walk_rtc (next : gostring → list gostring) (R : gostring → gostring → Prop) a b :
  (∀ x y, y ∈ next x ↔ R x y) → (∃ k, walk next a k b) ↔ rtc R a b.
Proof using Type.
  intros HR. split.
  - intros [k Hk]. induction Hk as [|k x y Hw IH Hy]; [done|]. eapply rtc_r; [exact IH|]. by apply HR.
  - revert b. apply rtc_ind_r; [exists 0%nat; constructor|]. intros x y _ Hxy [k Hk]. exists (S k). econstructor; [done|]. by apply HR.
Qed.

Abbreviation onward adj := (λ x y : gostring, y ∈ out adj x).
Abbreviation sorted_out adj := (λ cur : gostring, sorted_set (out adj cur)).

Lemma elem_of_sorted_set s x : x ∈ sorted_set s ↔ x ∈ s.
Proof using Type. unfold sorted_set. by rewrite merge_sort_Permutation, elem_of_elements. Qed.

Definition nodes_of (adj : Adjacency) (start : gostring) : gset gostring := {[start]} ∪ ⋃ (map_to_list adj).*2.

Lemma nodes_of_size adj start : (size (nodes_of adj start) ≤ fuel_of adj)%nat.
Proof using Type. apply set_cons_size. Qed.

Lemma nodes_of_out adj start x y : y ∈ out adj x → y ∈ nodes_of adj start.
Proof using Type.
  unfold out, nodes_of. destruct (adj !! x) as [ns|] eqn:E; cbn; [|by intros ?%elem_of_empty]. intros Hy. apply elem_of_union_r, elem_of_union_list. exists ns.
  split; [|done]. apply list_elem_of_fmap. exists (x, ns). split; [done|]. by apply elem_of_map_to_list.
Qed.

Lemma bfsParents_spec adj start :
  ∃ parent, bfsParents adj start = Some parent ∧ (∀ n, n ∈ dom parent ↔ rtc (onward adj) start n) ∧
    ∀ n, n ∈ dom parent → ∃ r, rebuild parent start n = Some r ∧ shortest (sorted_out adj) start n r.
Proof using Type.
  destruct (bfs_spec (sorted_out adj) (nodes_of adj start)) with (start := start) (fuel := fuel_of adj) as (parent & E & Hd & Hr).
  - intros x y _ Hy%elem_of_sorted_set. by eapply nodes_of_out.
  - unfold nodes_of. by apply elem_of_union_l, elem_of_singleton.
  - apply nodes_of_size.
  - exists parent. split; [exact E|]. split; [|exact Hr]. intros n. rewrite Hd. apply walk_rtc. intros x y. apply elem_of_sorted_set.
Qed.

Lemma reachableFrom_spec adj start : ∃ seen, reachableFrom adj start = Some seen ∧ ∀ n, n ∈ seen ↔ rtc (onward adj) start n.
Proof using Type.
  destruct (reach_spec (λ cur, elements (out adj cur)) (nodes_of adj start)) with (start := start) (fuel := fuel_of adj) as (seen & E & Hd).
  - intros x y _ Hy%elem_of_elements. by eapply nodes_of_out.
  - unfold nodes_of. by apply elem_of_union_l, elem_of_singleton.
  - apply nodes_of_size.
  - exists seen. split; [exact E|]. intros n. rewrite Hd. apply walk_rtc. intros x y. apply elem_of_elements.
Qed.

Lemma bfsRoute_spec adj start goal :
  ∃ o, bfsRoute adj start goal = Some o ∧
    match o with Some r => rtc (onward adj) start goal ∧ shortest (sorted_out adj) start goal r | None => ¬ rtc (onward adj) start goal end.
Proof using Type.
  unfold bfsRoute. destruct (bfsParents_spec adj start) as (parent & -> & Hd & Hr). cbn.
  destruct (parent !! goal) as [p|] eqn:E.
  - apply elem_of_dom_2 in E. destruct (Hr goal E) as (r & -> & Hs). cbn. eexists. split; [done|]. cbn. split; [by apply Hd|done].
  - apply not_elem_of_dom in E. eexists. split; [done|]. cbn. by rewrite <- Hd.
Qed.

Lemma mapM_total {A B} (f : A → option B) l : (∀ x, x ∈ l → is_Some (f x)) → ∃ k, mapM f l = Some k ∧ ∀ y, y ∈ k ↔ ∃ x, x ∈ l ∧ f x = Some y.
Proof using Type.
  induction l as [|x l IH]; intros Hf; cbn; [exists []; split; [done|]; intros y; split; [by intros ?%elem_of_nil|by intros (? & ?%elem_of_nil & _)]|].
  destruct (Hf x) as [b Hb]; [by left|]. destruct IH as (k & Hk & Hin); [intros; apply Hf; by right|]. rewrite Hb. cbn. rewrite Hk. cbn. exists (b :: k). split; [done|].
  intros y. rewrite elem_of_cons, Hin. split.
  - intros [->|(x' & Hx & E)]; [exists x; split; [by left|done]|exists x'; split; [by right|done]].
  - intros (x' & [->|Hx]%elem_of_cons & E); [left; congruence|right; by exists x'].
Qed.

Definition has_kind (g : simGraph) (k id : gostring) : Prop := ∃ n, sg_nodes g !! id = Some n ∧ n_Kind n = k.

Lemma routesFrom_spec adj start g want :
  ∃ l, routesFrom adj start g want = Some l ∧
    (∀ h r, (h, r) ∈ l → has_kind g want h ∧ h ≠ start ∧ rtc (onward adj) start h ∧ shortest (sorted_out adj) start h r) ∧
    (∀ h, has_kind g want h → h ≠ start → rtc (onward adj) start h → ∃ r, (h, r) ∈ l).
Proof using Type.
  unfold routesFrom. destruct (bfsParents_spec adj start) as (parent & -> & Hd & Hr). cbn.
  set (ids := List.filter _ _). assert (Hids : ∀ id, id ∈ ids ↔ has_kind g want id ∧ id ≠ start ∧ rtc (onward adj) start id).
  { intros id. unfold ids. rewrite elem_of_filter_bool. rewrite <- Hd, elem_of_dom, list_elem_of_fmap. unfold has_kind. split.
    - intros [([k p] & -> & Hk%elem_of_map_to_list) Hc]. cbn in *. destruct (sg_nodes g !! k) as [n|]; [|done]. apply andb_true_iff in Hc as [H1%bool_decide_eq_true H2].
      apply negb_true_iff, bool_decide_eq_false in H2. split_and!; [by exists n|done|by eexists].
    - intros ((n & En & Ek) & Hne & [p Hp]). split; [exists (id, p); split; [done|]; by apply elem_of_map_to_list|]. rewrite En, Ek.
      rewrite bool_decide_eq_true_2, bool_decide_eq_false_2 by done. done. }
  clearbody ids. destruct (mapM_total (λ id, r ← rebuild parent start id; Some (id, r)) ids) as (l & E & Hin).
  { intros id (_ & _ & Hid%Hd)%Hids. destruct (Hr id Hid) as (r & -> & _). by eexists. }
  rewrite E. exists l. split; [done|]. split.
  - intros h r (id & Hid & Ei)%Hin. pose proof Hid as (H1 & H2 & H3)%Hids. pose proof H3 as H3'%Hd. destruct (Hr id H3') as (r' & Er & Hs). rewrite Er in Ei. cbn in Ei. by injection Ei as <- <-.
  - intros h H1 H2 H3. pose proof H3 as H3'%Hd. destruct (Hr h H3') as (r & Er & _). exists r. apply Hin. exists h. split; [by apply Hids|]. by rewrite Er.
Qed.

(** ** What one agent loses *)

Lemma routeUses_head n rest failed : routeUses (n :: rest) failed = false → n ≠ failed.
Proof using Type. cbn. by destruct (bool_decide_reflect (n = failed)). Qed.

(** A route that does not use the failed element survives it. *)
Lemma route_spared g route failed a h :
  sim_ok g → chain (sorted_out (adjacency g EdgePath false [])) route → routeUses route failed = false → head route = Some a → last route = Some h →
  rtc (spared g EdgePath failed) a h.
Proof using Type.
  intros Hg. revert a. induction route as [|n route IH]; intros a Hc Hu Hh Hl; [done|]. cbn in Hh. injection Hh as ->.
  destruct route as [|m route]; [cbn in Hl; injection Hl as ->; done|]. destruct Hc as [Hm Hc]. pose proof (routeUses_head _ _ _ Hu) as Hn.
  cbn [routeUses] in Hu. rewrite (bool_decide_eq_false_2 (a = failed)) in Hu by done. apply orb_false_iff in Hu as [He%bool_decide_eq_false Hu].
  pose proof (routeUses_head _ _ _ Hu) as Hm'. eapply rtc_l; [|by apply IH].
  apply elem_of_sorted_set, out_adjacency in Hm. apply (spared_nil g _ _ _ Hg) in Hm as (id & e & E & [Hk|Hk] & Hf & Ht); [by vm_compute in Hk|]. exists id, e.
  destruct (Hg _ _ E) as (Hid & _). split_and!; try done; [by right|]. rewrite Hid, Hk, Hf, Ht. done.
Qed.

(** The host loses the agent: reached before, not after, or the agent itself fails. *)
Definition lost (g : simGraph) (target a h : gostring) : Prop :=
  has_kind g NodeHost h ∧ h ≠ a ∧ rtc (link g EdgePath) a h ∧ (a = target ∨ ¬ rtc (spared g EdgePath target) a h).

(** The path moves: its shortest route used the failed element, and another one is left. *)
Record moved (g : simGraph) (target : gostring) (p : PathImpact) : Prop := {
  mv_host : has_kind g NodeHost (pi_To p);
  mv_route : shortest (sorted_out (adjacency g EdgePath false [])) (pi_From p) (pi_To p) (pi_Route p);
  mv_uses : routeUses (pi_Route p) target = true;
  mv_left : rtc (spared g EdgePath target) (pi_From p) (pi_To p);
  mv_alt : shortest (sorted_out (adjacency g EdgePath false target)) (pi_From p) (pi_To p) (AltRoute p) }.

Lemma elem_of_concat_iff {A} (x : A) ls : x ∈ concat ls ↔ ∃ l, x ∈ l ∧ l ∈ ls.
Proof using Type. rewrite list_elem_of_In, in_concat. split; intros (l & H1 & H2); exists l; rewrite !list_elem_of_In in *; done. Qed.

#[local] Arguments bfsRoute : simpl never.
#[local] Arguments routeUses : simpl never.

Lemma rtc_iff (R S : gostring → gostring → Prop) a b : (∀ x y, R x y ↔ S x y) → rtc R a b ↔ rtc S a b.
Proof using Type. intros H. split; apply rtc_subrel; intros x y; apply H. Qed.

Lemma agent_impact_spec g target agent :
  sim_ok g →
  ∃ b r, agent_impact g (adjacency g EdgePath false []) (adjacency g EdgePath false target) target agent = Some (b, r) ∧
    (∀ p, p ∈ b → pi_From p = agent ∧ lost g target agent (pi_To p)) ∧ (∀ h, lost g target agent h → ∃ p, p ∈ b ∧ pi_From p = agent ∧ pi_To p = h) ∧
    (∀ p, p ∈ r → pi_From p = agent ∧ agent ≠ target ∧ moved g target p).
Proof using Type.
  intros Hg. unfold agent_impact. set (before := adjacency g EdgePath false []). set (after := adjacency g EdgePath false target).
  assert (Hb : ∀ x y, rtc (onward before) x y ↔ rtc (link g EdgePath) x y).
  { intros x y. apply rtc_iff. intros u v. unfold before. rewrite out_adjacency. by apply spared_nil. }
  assert (Ha : ∀ x y, rtc (onward after) x y ↔ rtc (spared g EdgePath target) x y) by (intros x y; apply rtc_iff; intros u v; unfold after; by rewrite out_adjacency).
  destruct (routesFrom_spec before agent g NodeHost) as (pre & -> & H1 & H2). cbn. destruct (bool_decide_reflect (agent = target)) as [->|Hne].
  { eexists _, _. split; [reflexivity|]. split_and!.
    - intros p ([h r] & -> & Hp)%list_elem_of_fmap. destruct (H1 h r Hp) as (K1 & K2 & K3%Hb & _). split; [done|]. split_and!; try done. by left.
    - intros h (K1 & K2 & K3%Hb & _). destruct (H2 h K1 K2 K3) as [r Hr]. exists (mkPathImpact target h PathBroken r []). split; [|done].
      apply list_elem_of_fmap. by exists (h, r).
    - by intros p ?%elem_of_nil. }
  set (f := λ hr : gostring * list gostring, _). destruct (mapM_total f pre) as (l & -> & Hl).
  { intros [h r] _. unfold f. cbn. destruct (negb _); [by eexists|]. destruct (bfsRoute_spec after agent h) as (o & -> & _). by eexists. }
  cbn. eexists _, _. split; [reflexivity|]. split_and!.
  - intros p (b0 & Hp & ([b1 r1] & -> & Hin)%list_elem_of_fmap)%elem_of_concat_iff. apply Hl in Hin as ([h r] & Hpre & Hf). cbn in Hp. unfold f in Hf. cbn in Hf.
    destruct (routeUses r target); cbn in Hf; [|injection Hf as <- <-; by apply elem_of_nil in Hp]. destruct (bfsRoute_spec after agent h) as (o & Eo & Ho).
    rewrite Eo in Hf. cbn in Hf. destruct o as [alt|]; injection Hf as <- <-; [by apply elem_of_nil in Hp|]. apply list_elem_of_singleton in Hp as ->.
    destruct (H1 h r Hpre) as (K1 & K2 & K3%Hb & _). split; [done|]. split_and!; try done. right. by rewrite <- Ha.
  - intros h (K1 & K2 & K3 & [?|K4]); [done|]. pose proof K3 as K3'%Hb. destruct (H2 h K1 K2 K3') as [r Hr]. destruct (H1 h r Hr) as (_ & _ & _ & Hs).
    assert (Hu : routeUses r target = true).
    { destruct (routeUses r target) eqn:E; [done|]. exfalso. apply K4. eapply route_spared; [done| |exact E| |]; apply Hs. }
    destruct (bfsRoute_spec after agent h) as (o & Eo & Ho). destruct o as [alt|]; [exfalso; apply K4, Ha, Ho|].
    exists (mkPathImpact agent h PathBroken r []). split; [|done]. apply elem_of_concat_iff. exists [mkPathImpact agent h PathBroken r []]. split; [by apply list_elem_of_singleton|].
    apply list_elem_of_fmap. exists ([mkPathImpact agent h PathBroken r []], []). split; [done|]. apply Hl. exists (h, r). split; [done|]. unfold f. cbn. by rewrite Hu, Eo.
  - intros p (b0 & Hp & ([b1 r1] & -> & Hin)%list_elem_of_fmap)%elem_of_concat_iff. apply Hl in Hin as ([h r] & Hpre & Hf). cbn in Hp. unfold f in Hf. cbn in Hf.
    destruct (routeUses r target) eqn:Eu; cbn in Hf; [|injection Hf as <- <-; by apply elem_of_nil in Hp]. destruct (bfsRoute_spec after agent h) as (o & Eo & Ho).
    rewrite Eo in Hf. cbn in Hf. destruct o as [alt|]; injection Hf as <- <-; [|by apply elem_of_nil in Hp]. apply list_elem_of_singleton in Hp as ->.
    destruct (H1 h r Hpre) as (K1 & K2 & K3 & Hs). split; [done|]. split; [done|]. destruct Ho as [Ho1 Ho2]. split; try done. by apply Ha.
Qed.

(** ** The loops *)

Lemma spend_ok n m : (spend n m).1 = m_ok (spend n m).2 ∧ (m_ok (spend n m).2 = true → m_ok m = true).
Proof using Type.
  unfold spend, m_ok. destruct (bool_decide_reflect (exhausted m = [])) as [E|E]; cbn [negb fst snd]; [|by rewrite bool_decide_eq_false_2].
  destruct (_ <? _); [by split|]. destruct (_ <=? _); [cbn; by rewrite E|]. destruct (_ <? _); cbn; [done|]. by rewrite E.
Qed.

Lemma agents_loop_spec g target agents m :
  sim_ok g →
  ∃ m' b r, agents_loop g (adjacency g EdgePath false []) (adjacency g EdgePath false target) target agents m = Some (m', b, r) ∧
    (∀ p, p ∈ b → (∃ n, n ∈ agents ∧ n_ID n = pi_From p) ∧ lost g target (pi_From p) (pi_To p)) ∧
    (∀ p, p ∈ r → (∃ n, n ∈ agents ∧ n_ID n = pi_From p) ∧ pi_From p ≠ target ∧ moved g target p) ∧
    (m_ok m' = true → m_ok m = true ∧ ∀ n h, n ∈ agents → lost g target (n_ID n) h → ∃ p, p ∈ b ∧ pi_From p = n_ID n ∧ pi_To p = h).
Proof using Type.
  intros Hg. revert m. induction agents as [|agent agents IH]; intros m; cbn [agents_loop].
  { eexists _, _, _. split; [reflexivity|]. split_and!; [by intros p ?%elem_of_nil|by intros p ?%elem_of_nil|]. intros Hm. split; [done|]. by intros n h ?%elem_of_nil. }
  destruct (spend_ok 1 m) as [E1 E2]. destruct (spend 1 m) as [ok m1]. cbn [fst snd] in *. subst ok. destruct (m_ok m1) eqn:Em; cbn [negb].
  2: { eexists _, _, _. split; [reflexivity|]. split_and!; [by intros p ?%elem_of_nil|by intros p ?%elem_of_nil|]. by rewrite Em. }
  destruct (agent_impact_spec g target (n_ID agent) Hg) as (b & r & -> & B1 & B2 & B3). cbn [mbind option_bind].
  destruct (IH m1) as (m' & b' & r' & -> & I1 & I2 & I3). cbn. eexists _, _, _. split; [reflexivity|]. split_and!.
  - intros p [Hp|Hp]%elem_of_app.
    + destruct (B1 p Hp) as [Ef Hl]. rewrite Ef. split; [exists agent; split; [by left|done]|done].
    + destruct (I1 p Hp) as [(n & Hn & En) Hl]. split; [exists n; split; [by right|done]|done].
  - intros p [Hp|Hp]%elem_of_app.
    + destruct (B3 p Hp) as (Ef & Hne & Hm). split; [exists agent; split; [by left|done]|]. by rewrite Ef.
    + destruct (I2 p Hp) as [(n & Hn & En) Hl]. split; [exists n; split; [by right|done]|done].
  - intros Hm'. split; [by apply E2|]. destruct (I3 Hm') as [_ I3']. intros n h [->|Hn]%elem_of_cons Hl.
    + destruct (B2 h Hl) as (p & Hp & Ep). exists p. split; [apply elem_of_app; by left|done].
    + destruct (I3' n h Hn Hl) as (p & Hp & Ep). exists p. split; [apply elem_of_app; by right|done].
Qed.

Lemma disconnected_loop_spec before after target agents m pre post :
  ∃ m' pre' post', disconnected_loop before after target agents m pre post = Some (m', pre', post') ∧
    (m_ok m' = true → m_ok m = true ∧
      (∀ n, n ∈ pre' ↔ n ∈ pre ∨ ∃ a, a ∈ agents ∧ n_ID a ≠ target ∧ rtc (onward before) (n_ID a) n) ∧
      (∀ n, n ∈ post' ↔ n ∈ post ∨ ∃ a, a ∈ agents ∧ n_ID a ≠ target ∧ rtc (onward after) (n_ID a) n)).
Proof using Type.
  revert m pre post. induction agents as [|agent agents IH]; intros m pre post; cbn [disconnected_loop].
  { eexists _, _, _. split; [reflexivity|]. intros Hm. split_and!; [done| |]; intros n; (split; [by left|]); intros [?|(a & ?%elem_of_nil & _)]; done. }
  destruct (bool_decide_reflect (n_ID agent = target)) as [Et|Hne].
  { destruct (IH m pre post) as (m' & pre' & post' & -> & H). eexists _, _, _. split; [reflexivity|]. intros Hm. destruct (H Hm) as (H1 & H2 & H3).
    split_and!; [done| |]; intros n; rewrite ?H2, ?H3; (split; (intros [?|(a & Ha & Hat & Hr)]; [by left|right; exists a]));
      [split; [by right|done]|apply elem_of_cons in Ha as [->|Ha]; [done|done]|split; [by right|done]|apply elem_of_cons in Ha as [->|Ha]; [done|done]]. }
  destruct (spend_ok (Z.of_nat (size before)) m) as [E1 E2]. destruct (spend _ m) as [ok m1]. cbn [fst snd] in *. subst ok. destruct (m_ok m1) eqn:Em; cbn [negb].
  2: { eexists _, _, _. split; [reflexivity|]. by rewrite Em. }
  destruct (reachableFrom_spec before (n_ID agent)) as (sb & -> & Hb), (reachableFrom_spec after (n_ID agent)) as (sa & -> & Ha). cbn [mbind option_bind].
  destruct (IH m1 (pre ∪ sb) (post ∪ sa)) as (m' & pre' & post' & -> & H). eexists _, _, _. split; [reflexivity|]. intros Hm. destruct (H Hm) as (H1 & H2 & H3).
  split_and!; [by apply E2| |]; intros n; rewrite ?H2, ?H3, elem_of_union, ?Hb, ?Ha.
  - split.
    + intros [[?|Hr]|(a & Hin & Hx)]; [by left|right; exists agent; split; [by left|done]|right; exists a; split; [by right|done]].
    + intros [?|(a & [->|Hin]%elem_of_cons & Hx & Hr)]; [by left; left|by left; right|right; by exists a].
  - split.
    + intros [[?|Hr]|(a & Hin & Hx)]; [by left|right; exists agent; split; [by left|done]|right; exists a; split; [by right|done]].
    + intros [?|(a & [->|Hin]%elem_of_cons & Hx & Hr)]; [by left; left|by left; right|right; by exists a].
Qed.

(** ** The simulation is exact *)

Lemma rtc_back (R : gostring → gostring → Prop) a b : rtc (λ x y, R y x) a b ↔ rtc R b a.
Proof using Type. split; induction 1; try done; eapply rtc_r; eauto. Qed.

Lemma newSim_nodes s id n : sg_nodes (newSimGraph s) !! id = Some n → n_ID n = id ∧ n ∈ Nodes s.
Proof using Type.
  unfold newSimGraph. cbn. assert (H : ∀ l (m : gmap gostring Node), foldl (λ m n, <[n_ID n := n]> m) m l !! id = Some n → (n_ID n = id ∧ n ∈ l) ∨ m !! id = Some n).
  { induction l as [|x l IH]; intros m; cbn; [by right|]. intros [[H1 H2]|H]%IH; [left; split; [done|by right]|].
    apply lookup_insert_Some in H as [[<- <-]|[_ H]]; [left; split; [done|by left]|by right]. }
  intros [?|Hn]%H; [done|]. by rewrite lookup_empty in Hn.
Qed.

Lemma newSim_edges s id e : sg_edges (newSimGraph s) !! id = Some e → e_ID e = id ∧ e ∈ Edges s.
Proof using Type.
  unfold newSimGraph. cbn. assert (H : ∀ l (m : gmap gostring Edge), foldl (λ m e, <[e_ID e := e]> m) m l !! id = Some e → (e_ID e = id ∧ e ∈ l) ∨ m !! id = Some e).
  { induction l as [|x l IH]; intros m; cbn; [by right|]. intros [[H1 H2]|H]%IH; [left; split; [done|by right]|].
    apply lookup_insert_Some in H as [[<- <-]|[_ H]]; [left; split; [done|by left]|by right]. }
  intros [?|Hn]%H; [done|]. by rewrite lookup_empty in Hn.
Qed.

Lemma agents_of snap k a : has_kind (newSimGraph snap) k a ↔ ∃ n, n ∈ nodesOfKind (newSimGraph snap) k ∧ n_ID n = a.
Proof using Type.
  unfold nodesOfKind, has_kind. setoid_rewrite merge_sort_Permutation. setoid_rewrite elem_of_filter_bool. split.
  - intros (n & En & Ek). destruct (newSim_nodes _ _ _ En) as [Hid _]. exists n. split; [|done]. split; [|by apply bool_decide_eq_true].
    apply list_elem_of_fmap. exists (a, n). split; [done|]. by apply elem_of_map_to_list.
  - intros (n & [([id n'] & -> & Hin%elem_of_map_to_list)%list_elem_of_fmap Hk%bool_decide_eq_true] & Hid). cbn in *. exists n'.
    destruct (newSim_nodes _ _ _ Hin) as [<- _]. by rewrite <- Hid.
Qed.

(** What an impact states about the snapshot, complete when it is not partial. *)
Record exact (g : simGraph) (target : gostring) (i : Impact) : Prop := {
  ex_broken : ∀ p, p ∈ BrokenPaths i → has_kind g NodeAgent (pi_From p) ∧ lost g target (pi_From p) (pi_To p);
  ex_broken_all : Partial i = false → ∀ a h, has_kind g NodeAgent a → lost g target a h → ∃ p, p ∈ BrokenPaths i ∧ pi_From p = a ∧ pi_To p = h;
  ex_rerouted : ∀ p, p ∈ ReroutedPaths i → has_kind g NodeAgent (pi_From p) ∧ pi_From p ≠ target ∧ moved g target p;
  ex_disconnected : Partial i = false → ∀ n, n ∈ Disconnected i ↔
    n ≠ target ∧ (∃ a, has_kind g NodeAgent a ∧ a ≠ target ∧ rtc (either (link g [])) a n) ∧
    ¬ (∃ a, has_kind g NodeAgent a ∧ a ≠ target ∧ rtc (either (spared g [] target)) a n);
  ex_services : ∀ c, c ∈ ImpactedServices i ↔
    ((has_kind g NodeService target ∨ has_kind g NodeHost target) ∧ c ≠ target ∧ rtc (link g EdgeFlow) c target) ∨ (has_kind g NodeService target ∧ c = target);
  ex_prefixes : ∀ q, q ∈ ImpactedPrefixes i ↔ (has_kind g NodeAS target ∧ link g EdgeRouting target q) ∨ (has_kind g NodePrefix target ∧ q = target) }.

Lemma has_kind_at g target n k : sg_nodes g !! target = Some n → has_kind g k target ↔ n_Kind n = k.
Proof using Type. intros E. unfold has_kind. rewrite E. split; [by intros (m & [= <-] & ?)|intros H; by exists n]. Qed.

Lemma has_kind_none g target k : sg_nodes g !! target = None → ¬ has_kind g k target.
Proof using Type. intros E (m & Em & _). congruence. Qed.

Lemma services_spec g target :
  sim_ok g → ∃ l, impacted_services g target (sg_nodes g !! target) = Some l ∧ ∀ c, c ∈ l ↔
    ((has_kind g NodeService target ∨ has_kind g NodeHost target) ∧ c ≠ target ∧ rtc (link g EdgeFlow) c target) ∨ (has_kind g NodeService target ∧ c = target).
Proof using Type.
  intros Hg. unfold impacted_services. destruct (sg_nodes g !! target) as [n|] eqn:E.
  2: { exists []. split; [done|]. intros c. split; [by intros ?%elem_of_nil|]. pose proof (has_kind_none g target NodeService E). pose proof (has_kind_none g target NodeHost E). tauto. }
  pose proof (has_kind_at _ _ _ NodeService E) as Hs0. pose proof (has_kind_at _ _ _ NodeHost E) as Hh0.
  destruct (bool_decide_reflect (n_Kind n = NodeService)) as [Ks|Ks], (bool_decide_reflect (n_Kind n = NodeHost)) as [Kh|Kh]; cbn [orb].
  4: { exists []. split; [done|]. intros c. split; [by intros ?%elem_of_nil|tauto]. }
  all: destruct (reachableFrom_spec (adjacency g EdgeFlow true []) target) as (seen & -> & Hs); cbn [mbind option_bind]; eexists; (split; [reflexivity|]); intros c;
    rewrite merge_sort_Permutation, elem_of_app, elem_of_elements, elem_of_difference, elem_of_singleton, Hs;
    rewrite (rtc_iff _ (λ x y, link g EdgeFlow y x)) by (intros x y; rewrite out_adjacency; by apply spared_nil); rewrite rtc_back;
    rewrite ?list_elem_of_singleton, ?elem_of_nil; tauto.
Qed.

Lemma prefixes_spec g target q :
  sim_ok g → q ∈ impacted_prefixes g target (sg_nodes g !! target) ↔
    (has_kind g NodeAS target ∧ link g EdgeRouting target q) ∨ (has_kind g NodePrefix target ∧ q = target).
Proof using Type.
  intros Hg. unfold impacted_prefixes. destruct (sg_nodes g !! target) as [n|] eqn:E.
  2: { split; [by intros ?%elem_of_nil|]. pose proof (has_kind_none g target NodeAS E). pose proof (has_kind_none g target NodePrefix E). tauto. }
  rewrite (has_kind_at _ _ _ NodeAS E), (has_kind_at _ _ _ NodePrefix E). destruct (bool_decide_reflect (n_Kind n = NodeAS)) as [Ka|Ka].
  - rewrite merge_sort_Permutation, elem_of_elements, out_adjacency, spared_nil by done. split; [by left|]. intros [[_ ?]|[Kp _]]; [done|]. rewrite Ka in Kp. by vm_compute in Kp.
  - destruct (bool_decide_reflect (n_Kind n = NodePrefix)) as [Kp|Kp]; [rewrite list_elem_of_singleton; tauto|]. rewrite elem_of_nil. tauto.
Qed.

Lemma or_iff (A B C D : Prop) : (A ↔ C) → (B ↔ D) → (A ∨ B ↔ C ∨ D).
Proof using Type. tauto. Qed.

Lemma either_undirect g failed x y : y ∈ out (undirect (adjacency g [] false failed)) x ↔ either (spared g [] failed) x y.
Proof using Type. rewrite out_undirect, !out_adjacency. done. Qed.

Lemma impact_exact (snap : Snapshot) (target : gostring) (agents : list Node) (m0 m1 m2 : simMeter) (b r : list PathImpact) (pre post : gset gostring) (i : Impact) :
  let g := newSimGraph snap in
  sim_ok g → (∀ n, n ∈ agents → n ∈ nodesOfKind g NodeAgent) → (m_ok m0 = true → agents = nodesOfKind g NodeAgent) →
  (∀ p, p ∈ b → (∃ n, n ∈ agents ∧ n_ID n = pi_From p) ∧ lost g target (pi_From p) (pi_To p)) →
  (∀ p, p ∈ r → (∃ n, n ∈ agents ∧ n_ID n = pi_From p) ∧ pi_From p ≠ target ∧ moved g target p) →
  (m_ok m1 = true → m_ok m0 = true ∧ ∀ n h, n ∈ agents → lost g target (n_ID n) h → ∃ p, p ∈ b ∧ pi_From p = n_ID n ∧ pi_To p = h) →
  (m_ok m2 = true → m_ok m1 = true ∧
      (∀ n, n ∈ pre ↔ n ∈ (∅ : gset gostring) ∨ ∃ a, a ∈ agents ∧ n_ID a ≠ target ∧ rtc (onward (undirect (adjacency g [] false []))) (n_ID a) n) ∧
      (∀ n, n ∈ post ↔ n ∈ (∅ : gset gostring) ∨ ∃ a, a ∈ agents ∧ n_ID a ≠ target ∧ rtc (onward (undirect (adjacency g [] false target))) (n_ID a) n)) →
  BrokenPaths i = sortPathImpacts b → ReroutedPaths i = sortPathImpacts r → Disconnected i = merge_sort bytes_le (elements (pre ∖ post ∖ {[target]})) →
  Partial i = negb (m_ok m2) → Some (ImpactedServices i) = impacted_services g target (sg_nodes g !! target) →
  ImpactedPrefixes i = impacted_prefixes g target (sg_nodes g !! target) → exact g target i.
Proof using Type.
  intros g Hg Hag Hall A1 A2 A3 D1 Eb Er Ed Ep Es Ex.
  assert (Hagents : ∀ a, (∃ n, n ∈ agents ∧ n_ID n = a) → has_kind g NodeAgent a) by (intros a (n & Hn%Hag & Hid); apply agents_of; by exists n).
  assert (Hw : ∀ R, (∃ a, a ∈ nodesOfKind g NodeAgent ∧ n_ID a ≠ target ∧ R (n_ID a)) ↔ (∃ a, has_kind g NodeAgent a ∧ a ≠ target ∧ R a)).
  { intros R. split; [intros (n & Hn & Hne & HR); exists (n_ID n); split; [apply agents_of; by exists n|done]|].
    intros (a & (n & Hn & <-)%agents_of & Hne & HR). by exists n. }
  split.
  - intros p. rewrite Eb. unfold sortPathImpacts. rewrite merge_sort_Permutation. intros [H1 H2]%A1. split; [by apply Hagents|done].
  - rewrite Ep. intros Hm%negb_false_iff a h Ha Hl. rewrite Eb. destruct (D1 Hm) as (Hm1 & _). destruct (A3 Hm1) as (Hm0 & Hb). rewrite (Hall Hm0) in Hb.
    apply agents_of in Ha as (n & Hn & <-). destruct (Hb n h Hn Hl) as (p & Hp & Hpe). exists p. split; [|done]. unfold sortPathImpacts. by rewrite merge_sort_Permutation.
  - intros p. rewrite Er. unfold sortPathImpacts. rewrite merge_sort_Permutation. intros (H1 & H2 & H3)%A2. split; [by apply Hagents|done].
  - rewrite Ep. intros Hm%negb_false_iff n. destruct (D1 Hm) as (Hm1 & P1 & P2). destruct (A3 Hm1) as (Hm0 & _). rewrite (Hall Hm0) in P1, P2.
    rewrite Ed, merge_sort_Permutation, elem_of_elements, !elem_of_difference, elem_of_singleton, P1, P2, !elem_of_empty.
    rewrite (Hw (λ a, rtc (onward (undirect (adjacency g [] false []))) a n)), (Hw (λ a, rtc (onward (undirect (adjacency g [] false target))) a n)).
    setoid_rewrite (rtc_iff _ _ _ _ (either_undirect g target)).
    setoid_rewrite (rtc_iff _ (either (link g [])) _ _ (λ x y, iff_trans (either_undirect g [] x y) (or_iff _ _ _ _ (spared_nil g [] x y Hg) (spared_nil g [] y x Hg)))).
    tauto.
  - destruct (services_spec g target Hg) as (l & El & Hl). rewrite <- Es in El. injection El as ->. exact Hl.
  - intros q. rewrite Ex. by apply prefixes_spec.
Qed.

Lemma simulate_spec slo budget snap target at_ :
  sim_ok (newSimGraph snap) →
  ∃ res, simulate slo budget snap target at_ = Some res ∧
    match res with
    | None => sg_nodes (newSimGraph snap) !! target = None ∧ sg_edges (newSimGraph snap) !! target = None
    | Some i => i_Target i = target ∧ exact (newSimGraph snap) target i
    end.
Proof using Type.
  intros Hg. unfold simulate. set (g := newSimGraph snap) in *. destruct (bool_decide_reflect (sg_nodes g !! target = None)) as [En|En]; cbn [andb].
  1: destruct (bool_decide_reflect (sg_edges g !! target = None)) as [Ee|Ee]; [by exists None|].
  all: clear En; set (many := _ <? _); set (agents := if many then _ else _); set (m0 := if many then _ else _);
    assert (Hag : ∀ n, n ∈ agents → n ∈ nodesOfKind g NodeAgent) by (unfold agents; destruct many; [intros n (j & Hj & _)%elem_of_take; by eapply list_elem_of_lookup_2|done]);
    assert (Hall : m_ok m0 = true → agents = nodesOfKind g NodeAgent) by (unfold m0, agents; by destruct many);
    clearbody m0 agents; destruct (agents_loop_spec g target agents m0 Hg) as (m1 & b & r & -> & A1 & A2 & A3); cbn [mbind option_bind];
    destruct (services_spec g target Hg) as (sv & Esv & Hsv); rewrite Esv; cbn [mbind option_bind];
    destruct (disconnected_loop_spec (undirect (adjacency g [] false [])) (undirect (adjacency g [] false target)) target agents m1 ∅ ∅) as (m2 & pre & post & -> & D1);
    cbn [mbind option_bind]; eexists; (split; [reflexivity|]); (split; [reflexivity|]); eapply (impact_exact snap target agents m0 m1 m2); try done; by rewrite Esv.
Qed.

(** ** Over a store *)

Section store.
Context (range : ∀ A : Type, gmap gostring A → list (gostring * A)).
Context (range_perm : ∀ A (m : gmap gostring A), range A m ≡ₚ map_to_list m).
Context (ToLower : gostring → gostring) (FormatRFC3339Nano : Time → gostring).

#[local] Instance plain : Engine Graph := memory_engine range ToLower.
#[local] Instance with_index : Engine indexedGraph := indexed_engine range ToLower.

Lemma edges_sim_ok b g snap : kept b g → (∀ e, e ∈ Edges snap → ∃ id, edges g !! id = Some e) → sim_ok (newSimGraph snap).
Proof using Type.
  intros Hk Hs id e [Hid He%Hs]%newSim_edges. destruct He as [id' He]. destruct (ok_edges _ (kp_graph _ _ Hk) _ _ He) as (E1 & E2 & _).
  split; [congruence|]. by apply (kp_ends _ _ Hk id').
Qed.

Lemma snapshotAt_edges at_ g e : e ∈ Edges (SnapshotAt range at_ g) → ∃ id, edges g !! id = Some e.
Proof using range_perm.
  cbn. rewrite merge_sort_Permutation. intros [([id e'] & -> & Hin)%list_elem_of_fmap _]%elem_of_filter_bool. rewrite range_perm in Hin.
  apply elem_of_map_to_list in Hin. by exists id.
Qed.

Lemma latest_edges now g e : e ∈ Edges (Latest range now g) → ∃ id, edges g !! id = Some e.
Proof using range_perm.
  cbn. rewrite merge_sort_Permutation. intros ([id e'] & -> & [Hin _]%elem_of_filter_bool)%list_elem_of_fmap. rewrite range_perm in Hin.
  apply elem_of_map_to_list in Hin. by exists id.
Qed.

Lemma snapshot_ok now b (s : Store Graph) t at_ : map_Forall (λ _, kept b) (graphs s) → sim_ok (newSimGraph (snapshot_for now s t at_)).
Proof using range_perm.
  intros Hs. unfold snapshot_for. destruct (graphs s !! t) as [g|] eqn:E.
  - pose proof (Hs _ _ E) as Hk. destruct (IsZero at_); eapply (edges_sim_ok b g); try done; [apply latest_edges|apply snapshotAt_edges].
  - destruct (IsZero at_); intros id e; cbn; by rewrite lookup_empty.
Qed.


End store.

(** ** Exhausted budgets *)

Lemma spend_exhausted n m : m_ok m = false → spend n m = (false, m).
Proof using Type. unfold m_ok, spend. by intros ->. Qed.

Lemma disconnected_exhausted before after target agents m pre post :
  m_ok m = false → disconnected_loop before after target agents m pre post = Some (m, pre, post).
Proof using Type.
  intros Hm. induction agents as [|a agents IH]; cbn [disconnected_loop]; [done|]. destruct (bool_decide _); [done|]. by rewrite spend_exhausted.
Qed.

(** C40. The agent budget does not cap how many agents are simulated, as it means to: a tenant with
    more agents than the budget gets a result for none of them.  The bound is recorded as
    exhausted before the loop that spends it, which then stops at the first agent, so no path is
    broken or rerouted and nothing disconnected whatever fails. *)
Theorem agent_budget_simulates_none (slo : option (list gostring → list gostring → list gostring)) (budget : Budget) (snap : Snapshot) (target : gostring)
    (at_ : Time) (i : Impact) :
  simulate slo budget snap target at_ = Some (Some i) →
  MaxAgents (normalized budget) < len (nodesOfKind (newSimGraph snap) NodeAgent) →
  Partial i = true ∧ BrokenPaths i = [] ∧ ReroutedPaths i = [] ∧ Disconnected i = [].
Proof using Type.
  intros Hs Hlt. unfold simulate in Hs. destruct (_ && _); [done|]. cbn [m_budget] in Hs. rewrite (proj2 (Z.ltb_lt _ _) Hlt) in Hs.
  set (m := _ <| exhausted := _ |>) in Hs. assert (Hm : m_ok m = false) by done. set (agents := take _ _) in Hs.
  assert (Ea : agents_loop (newSimGraph snap) (adjacency (newSimGraph snap) EdgePath false []) (adjacency (newSimGraph snap) EdgePath false target) target agents m = Some (m, [], []))
    by (destruct agents; cbn [agents_loop]; [done|]; by rewrite spend_exhausted).
  rewrite Ea in Hs. cbn [mbind option_bind] in Hs. destruct (impacted_services _ _ _) as [sv|]; [|done]. cbn [mbind option_bind] in Hs.
  rewrite disconnected_exhausted in Hs by done. cbn [mbind option_bind] in Hs. injection Hs as <-.
  cbn [Partial BrokenPaths ReroutedPaths Disconnected]. split_and!; [done|done|done|].
  replace ((∅ : gset gostring) ∖ ∅ ∖ {[target]}) with (∅ : gset gostring) by set_solver. by rewrite elements_empty.
Qed.

End whatif.

(** ** Runs *)

Definition demo_paths : list Op :=
  [DoObserve (str "t") (DoPath (mkPath (str "a1") (str "web") (str "h") [str "x"] [])) (demo_time 1);
   DoObserve (str "t") (DoPath (mkPath (str "a2") (str "web") (str "h") [str "y"] [])) (demo_time 1)].

Definition demo_store : Store Graph := (demo_plain demo_paths).2.
Definition demo_simulate (budget : Budget) (target : gostring) : option SimResult :=
  SimulateWithBudget (λ _, 0) (Engine0 := memory_engine demo_range demo_lower) None budget (demo_time 2) demo_store (str "t") target (demo_time 1).

(** The paths, reroutes, disconnected nodes and the partial flag of a result. *)
Definition demo_view (r : option SimResult) : option (list (gostring * gostring) * list gostring * bool) :=
  match r with
  | Some (SimImpact i) => Some ((λ p, (pi_From p, pi_To p)) <$> BrokenPaths i, Disconnected i, Partial i)
  | _ => None
  end.

(** A partial result is not the lower bound it claims to be: when the visits run out between two
    agents, nodes the remaining agent still reaches are reported as disconnected, which the
    complete simulation of the same failure does not report. *)
Theorem partial_overstates :
  demo_view (demo_simulate (mkBudget 10 7 0) (str "hop:x")) = Some ([(str "agent:a1", str "host:h")], [str "agent:a2"; str "hop:y"; str "host:h"], true) ∧
  demo_view (demo_simulate DefaultBudget (str "hop:x")) = Some ([(str "agent:a1", str "host:h")], [], false).
Proof. split; vm_compute; reflexivity. Qed.


Lemma agent_budget_simulates_none_witness :
  match demo_simulate (mkBudget 1 0 0) (str "hop:x") with Some (SimImpact i) => BrokenPaths i | _ => [mkPathImpact [] [] [] [] []] end = [].
Proof.
  destruct (simulate (λ _, 0) None (mkBudget 1 0 0) (snapshot_for (Engine0 := memory_engine demo_range demo_lower) (demo_time 2) demo_store (str "t") (demo_time 1)) (str "hop:x") (demo_time 1))
    as [[i|]|] eqn:E; [|by vm_compute in E|by vm_compute in E].
  destruct (agent_budget_simulates_none (λ _, 0) None (mkBudget 1 0 0) _ (str "hop:x") (demo_time 1) i E) as (_ & H & _); [vm_compute; reflexivity|].
  unfold demo_simulate, SimulateWithBudget. change (normalizeTenant (str "t")) with (Some (str "t")). cbn [fmap option_fmap option_map].
  change (IsZero (demo_time 1)) with false. cbn iota. rewrite E. exact H.
Defined.

End WhatIf.
