(* ===== verification/WriterFence.v ===== *)
(** * The tenant writer fence

    Writes to the external stores hold a shared advisory lock of every tenant they touch
    while the tenants' rows in the registry say they may write; full erasure takes the
    exclusive lock before it marks a tenant (internal/tenancy/writefence.go,
    fenceadapter.go and tenancy.go; tenantlife.go, fenceTenantAuditWrites; the trigger of
    migrations/0083_tenant_audit_write_fence.sql; topology/write_fence.go).

    A function that talks to PostgreSQL is a [prog]: a tree of calls, each continued by
    the answer it got.  Concurrent functions are threads whose calls interleave into one
    history; the database is the set of histories it allows, of which the class
    [Postgres] states the documented behaviour the fence relies on. *)
From S2P Require Import Prelude GoString.
#[local] Open Scope Z_scope.

Module WriterFence.

(** ** Tenant identifiers *)

Definition hex_digit (b : byte) : bool :=
  ((48 <=? byteZ b) && (byteZ b <=? 57)) || ((97 <=? byteZ b) && (byteZ b <=? 102)) || ((65 <=? byteZ b) && (byteZ b <=? 70)).

(** hex.DecodeString succeeds. *)
Definition hex_ok (s : gostring) : bool := Nat.even (length s) && forallb hex_digit s.

Definition slice (s : gostring) (a b : nat) : gostring := take (b - a) (drop a s).

Definition hyphen_at (s : gostring) (k : nat) : bool := bool_decide (s !! k = Some x2d).

Definition validateWriterTenantID (raw : gostring) : bool :=
  bool_decide (length raw = 36%nat) && hyphen_at raw 8 && hyphen_at raw 13 && hyphen_at raw 18 && hyphen_at raw 23
  && hex_ok (slice raw 0 8 ++ slice raw 9 13 ++ slice raw 14 18 ++ slice raw 19 23 ++ slice raw 24 36).

(** strings.ToLower on the ASCII strings that reach it. *)
Definition lower_byte (b : byte) : byte :=
  if (65 <=? byteZ b) && (byteZ b <=? 90) then Zbyte (byteZ b + 32) else b.
Definition lower (s : gostring) : gostring := map lower_byte s.

(** The keys of a Go map in the order of sort.Strings. *)
Definition sorted_keys (s : gset gostring) : list gostring := merge_sort bytes_le (elements s).

Inductive error :=
| ErrWriterFenceUnavailable
| FenceUnbuilt
| NilCallback
| InvalidWriterID (raw : gostring)
| ErrNoTenant
| MissingTenant
| BeginFailed
| RoleFailed
| GuardFailed
| CommitFailed
| LockFailed
| LookupFailed (tenant : gostring)
| TenantWritesFenced (tenant status : gostring)
| WriteFailed
| CanonicalizeFailed
| RowLockFailed
| NotEligible
| InvalidFenceStatus (status : gostring)
| OffboardFailed
| AuditAppendFailed.

Fixpoint unique_ids (fold : gostring → gostring) (ids : list gostring) (unique : gset gostring) : error + gset gostring :=
  match ids with
  | [] => inr unique
  | raw :: ids => if validateWriterTenantID raw then unique_ids fold ids ({[fold raw]} ∪ unique) else inl (InvalidWriterID raw)
  end.

Definition canonicalWriterTenantIDs (ids : list gostring) : error + list gostring :=
  match unique_ids lower ids ∅ with inl e => inl e | inr unique => inr (sorted_keys unique) end.

Definition distinctWriterTenantIDs (ids : list gostring) : error + list gostring :=
  match unique_ids (λ raw, raw) ids ∅ with inl e => inl e | inr unique => inr (sorted_keys unique) end.

(** ** Programs over the database *)

Inductive call :=
| Begin
| SetRole
| Guard
| LockShared (id : gostring)
| LockExclusive (id : gostring)
| LockAudit (id : gostring)
| Canonicalize (id : gostring)
| Lookup (id : gostring)
| LookupForUpdate (id : gostring)
| Offboard (id : gostring)
| AppendAudit (id : gostring)
| StartWrite (ids : list gostring)
| FinishWrite (ids : list gostring)
| Commit
| Rollback.

(** [Lost] is the answer of a commit that took place although the caller sees an error. *)
Inductive answer :=
| Fine
| Failed
| Lost
| Found (status : gostring) (fenced : bool)
| NoRows
| Text (s : gostring)
| Affected (rows now : Z).

Inductive prog (A : Type) :=
| Ret (a : A)
| Call (c : call) (k : answer → prog A).

Arguments Ret {_} _.
Arguments Call {_} _ _.

Fixpoint prog_bind {A B} (f : A → prog B) (p : prog A) : prog B :=
  match p with
  | Ret a => f a
  | Call c k => Call c (λ a, prog_bind f (k a))
  end.

#[export] Instance prog_ret : MRet prog := λ A a, Ret a.
#[export] Instance prog_mbind : MBind prog := λ A B f p, prog_bind f p.

Definition ask (c : call) : prog answer := Call c Ret.

(** A statement of which only the error matters. *)
Definition attempt (c : call) (e : error) : prog (option error) :=
  a ← ask c; mret (match a with Fine => None | _ => Some e end).

(** [if err := p; err != nil { return err }]; [q] otherwise. *)
Definition and_then (p q : prog (option error)) : prog (option error) :=
  e ← p; match e with Some e => mret (Some e) | None => q end.

Fixpoint each (f : gostring → prog (option error)) (ids : list gostring) : prog (option error) :=
  match ids with
  | [] => mret None
  | id :: ids => and_then (f id) (each f ids)
  end.

Definition rollback_with (e : error) : prog (option error) := _ ← ask Rollback; mret (Some e).

(** [guarded] is whether the context carries a transaction guard. *)
Definition BeginProvider (guarded : bool) : prog (option error) :=
  and_then (attempt Begin BeginFailed)
    (e ← attempt SetRole RoleFailed;
     match e with
     | Some e => rollback_with e
     | None =>
         if guarded then e ← attempt Guard GuardFailed; match e with Some e => rollback_with e | None => mret None end
         else mret None
     end).

(** The callback [fn] also gives [S], what it leaves in the variables it captured, which
    are [s] before. *)
Definition InProvider {S} (guarded : bool) (s : S) (fn : prog (option error * S)) : prog (option error * S) :=
  e ← BeginProvider guarded;
  match e with
  | Some e => mret (Some e, s)
  | None =>
      r ← fn;
      match r.1 with
      | Some e => _ ← ask Rollback; mret (Some e, r.2)
      | None => e ← attempt Commit CommitFailed; _ ← ask Rollback; mret (e, r.2)
      end
  end.

(** ** The fence *)

Definition lockTenantWriterLease (id : gostring) : prog (option error) := attempt (LockShared id) LockFailed.
Definition LockTenantWrites (id : gostring) : prog (option error) := attempt (LockExclusive id) LockFailed.

Definition open_status (status : gostring) : bool := bool_decide (status = str "active") || bool_decide (status = str "suspended").

Definition check_tenant (id : gostring) : prog (option error) :=
  a ← ask (Lookup id);
  mret (match a with
        | Found status fenced => if fenced || negb (open_status status) then Some (TenantWritesFenced id status) else None
        | _ => Some (LookupFailed id)
        end).

(** [built] is whether the fence and its pool are there, [write] the callback, nil or not. *)
Definition WithTenantWrites {S} (built guarded : bool) (ids : list gostring) (s : S) (write : option (prog (option error * S))) :
    prog (option error * S) :=
  if negb built then mret (Some FenceUnbuilt, s)
  else match write with
  | None => mret (Some NilCallback, s)
  | Some write =>
      match canonicalWriterTenantIDs ids with
      | inl e => mret (Some e, s)
      | inr [] => mret (Some ErrNoTenant, s)
      | inr canonical =>
          InProvider guarded s
            (e ← and_then (each lockTenantWriterLease canonical) (each check_tenant canonical);
             match e with Some e => mret (Some e, s) | None => write end)
      end
  end.

(** The verdict on every tenant, or the failure of the whole batch. *)
Fixpoint check_each (ids : list gostring) (fenced : gmap gostring error) : prog (error + gmap gostring error) :=
  match ids with
  | [] => mret (inr fenced)
  | id :: ids =>
      a ← ask (Lookup id);
      match a with
      | Found status f =>
          check_each ids (if f || negb (open_status status) then <[id := TenantWritesFenced id status]> fenced else fenced)
      | NoRows => check_each ids (<[id := TenantWritesFenced id (str "absent")]> fenced)
      | _ => mret (inl (LookupFailed id))
      end
  end.

Definition WithPartitionedTenantWrites {S} (built guarded : bool) (ids : list gostring) (s : S)
    (write : option (gmap gostring error → prog (option error * S))) : prog (option error * S) :=
  if negb built then mret (Some FenceUnbuilt, s)
  else match write with
  | None => mret (Some NilCallback, s)
  | Some write =>
      match distinctWriterTenantIDs ids with
      | inl e => mret (Some e, s)
      | inr [] => mret (Some ErrNoTenant, s)
      | inr distinct =>
          InProvider guarded s
            (e ← each lockTenantWriterLease distinct;
             match e with
             | Some e => mret (Some e, s)
             | None =>
                 v ← check_each distinct ∅;
                 match v with inl e => mret (Some e, s) | inr fenced => write fenced end
             end)
      end
  end.

(** ** The adapters *)

(** A value of interface WriterFence, not nil: the PostgreSQL fence, or an implementation
    that does not partition. *)
Inductive fence :=
| PostgresFence (built guarded : bool)
| OtherFence (withTenantWrites : ∀ S, list gostring → S → prog (option error * S) → prog (option error * S)).

Definition withTenantWrites {S} (f : fence) (ids : list gostring) (s : S) (write : prog (option error * S)) : prog (option error * S) :=
  match f with
  | PostgresFence built guarded => WithTenantWrites built guarded ids s (Some write)
  | OtherFence w => w S ids s write
  end.

Definition fencedTenants {S} (f : option fence) (ids : list gostring) (s : S) (write : prog (option error * S)) : prog (option error * S) :=
  match f with
  | None => mret (Some ErrWriterFenceUnavailable, s)
  | Some f => withTenantWrites f ids s write
  end.

Definition FencedTenantWrite {S} (f : option fence) (id : gostring) (missing : error) (s : S) (write : prog (option error * S)) :
    prog (option error * S) :=
  if bool_decide (id = []) then mret (Some missing, s) else fencedTenants f [id] s write.

Section Adapters.

Context {T : Type} (tenantOf : T → gostring).

(** Every row has a tenant, or the first one without decides. *)
Fixpoint tenants_of (rows : list T) : option (list gostring) :=
  match rows with
  | [] => Some []
  | r :: rows =>
      if bool_decide (tenantOf r = []) then None
      else match tenants_of rows with Some ids => Some (tenantOf r :: ids) | None => None end
  end.

Definition FencedWrite {S} (f : option fence) (rows : list T) (missing : error) (s : S) (write : prog (option error * S)) :
    prog (option error * S) :=
  if bool_decide (rows = []) then write
  else match tenants_of rows with
  | None => mret (Some missing, s)
  | Some ids => fencedTenants f ids s write
  end.

Definition eligible_rows (fenced : gmap gostring error) (rows : list T) : list T :=
  List.filter (λ r, match fenced !! tenantOf r with Some _ => false | None => true end) rows.

(** The captured variable is fencedOut. *)
Definition PartitionedFencedWrite (f : option fence) (rows : list T) (missing : error) (write : list T → prog (option error)) :
    prog (gmap gostring error * option error) :=
  if bool_decide (rows = []) then e ← write rows; mret (∅, e)
  else match f with
  | None => mret (∅, Some ErrWriterFenceUnavailable)
  | Some f =>
      match tenants_of rows with
      | None => mret (∅, Some missing)
      | Some ids =>
          match f with
          | OtherFence w =>
              r ← w unit ids tt (e ← write rows; mret (e, tt));
              mret (∅, r.1)
          | PostgresFence built guarded =>
              r ← WithPartitionedTenantWrites built guarded ids (∅ : gmap gostring error)
                    (Some (λ fenced,
                       e ← write (if bool_decide (size fenced = 0%nat) then rows else eligible_rows fenced rows);
                       mret (e, fenced)));
              mret (match r.1 with Some e => (∅, Some e) | None => (r.2, None) end)
          end
      end
  end.

End Adapters.

(** A write of the rows of [ids] to an external store. *)
Definition backend (ids : list gostring) : prog (option error) :=
  _ ← ask (StartWrite ids); attempt (FinishWrite ids) WriteFailed.

(** The mutation [write] of an in-process graph store under the fence, and the error that
    is logged with the claim that it was dropped. *)
Definition mutate {S} (f : option fence) (tenant : gostring) (write : S → S) (s : S) : prog (option error * S) :=
  FencedTenantWrite f tenant ErrWriterFenceUnavailable s
    (_ ← ask (StartWrite [tenant]); _ ← ask (FinishWrite [tenant]); mret (None, write s)).

(** One fence check for a batch of mutations. *)
Definition Batch {S} (f : option fence) (tenant : gostring) (writes : list (S → S)) (s : S) : prog (option error * S) :=
  mutate f tenant (λ s, foldl (λ s w, w s) s writes) s.

(** A tenant store is fenced, or applies writes directly. *)
Definition ObserveBatched {S} (f : option (option fence)) (tenant : gostring) (writes : list (S → S)) (s : S) : prog (option error * S) :=
  match f with
  | Some f => Batch f tenant writes s
  | None => mret (None, foldl (λ s w, w s) s writes)
  end.

(** ** Erasure *)

Definition offboard (guarded : bool) (c : gostring) : prog (option error) :=
  a ← ask (LookupForUpdate c);
  match a with
  | Found previous already =>
      if bool_decide (previous = str "deleted") then mret (Some NotEligible)
      else if already && negb (bool_decide (previous = str "offboarding")) then mret (Some (InvalidFenceStatus previous))
      else
        a ← ask (Offboard c);
        match a with
        | Affected n _ => if n =? 1 then attempt (AppendAudit c) AuditAppendFailed else mret (Some NotEligible)
        | _ => mret (Some OffboardFailed)
        end
  | _ => mret (Some RowLockFailed)
  end.

Definition fenceTenantAuditWrites (guarded : bool) (id : gostring) : prog (option error) :=
  r ← InProvider guarded tt
    (a ← ask (Canonicalize id);
     match a with
     | Text c =>
         e ← and_then (LockTenantWrites c) (and_then (attempt (LockAudit c) LockFailed) (offboard guarded c));
         mret (e, tt)
     | _ => mret (Some CanonicalizeFailed, tt)
     end);
  mret r.1.

(** ** The database *)

Record Row := mkRow { status : gostring; audit_write_fenced_at : option Z }.

#[export] Instance eta_Row : Eta Row := λ r, mkRow (status r) (audit_write_fenced_at r).

(** The trigger on updates of a registry row. *)
Definition preserve_tenant_audit_write_fence (old new : Row) : bool :=
  negb (bool_decide (audit_write_fenced_at old ≠ None) && negb (bool_decide (audit_write_fenced_at new = audit_write_fenced_at old)))
  && negb (bool_decide (audit_write_fenced_at new ≠ None) && negb (bool_decide (status new = str "offboarding") || bool_decide (status new = str "deleted"))).

Inductive mode := Shared | Exclusive.

(** What happens at the database: a call of a thread and its answer, the end of a session
    that the server or the network breaks, and the other code's changes of the registry,
    which insert rows and set statuses. *)
Inductive event :=
| Ev (i : nat) (c : call) (a : answer)
| Killed (i : nat)
| Inserted (id status : gostring)
| SetStatus (id status : gostring).

(** What a history has come to: the committed registry, the uncommitted changes of each
    transaction, the advisory locks held and the external writes under way. *)
Record View := mkView {
  registry : gmap gostring Row;
  pending : gmap nat (gmap gostring Row);
  held : list (nat * mode * Z);
  writing : list (nat * list gostring)
}.

#[export] Instance eta_View : Eta View := λ v, mkView (registry v) (pending v) (held v) (writing v).

Section Database.

(** The canonical text of an identifier that is cast to uuid, and the hash of lock keys. *)
Context (uuid : gostring → gostring) (hash : gostring → Z).

Definition lock_key (id : gostring) : Z := hash (str "tenant-write:" ++ uuid id).

Definition mine (i : nat) (v : View) : gmap gostring Row := default ∅ (pending v !! i).

(** The row a statement of [i] sees. *)
Definition visible (i : nat) (v : View) (id : gostring) : option Row :=
  match mine i v !! uuid id with Some r => Some r | None => registry v !! uuid id end.

Definition end_tx (i : nat) (v : View) : View :=
  v <| pending := delete i (pending v) |> <| held := List.filter (λ l, negb (bool_decide (l.1.1 = i))) (held v) |>.

Definition commit_tx (i : nat) (v : View) : View := end_tx i (v <| registry := mine i v ∪ registry v |>).

(** UPDATE public.tenants SET status = 'offboarding', audit_write_fenced_at = COALESCE(...). *)
Definition offboarded (now : Z) (r : Row) : Row :=
  mkRow (str "offboarding") (match audit_write_fenced_at r with Some at_ => Some at_ | None => Some now end).

Definition observe (v : View) (e : event) : View :=
  match e with
  | Ev i (LockShared id) Fine => v <| held := (i, Shared, lock_key id) :: held v |>
  | Ev i (LockExclusive id) Fine => v <| held := (i, Exclusive, lock_key id) :: held v |>
  | Ev i (Offboard id) (Affected 1 now) =>
      match visible i v id with
      | Some r => v <| pending := <[i := <[uuid id := offboarded now r]> (mine i v)]> (pending v) |>
      | None => v
      end
  | Ev i (StartWrite ids) _ => v <| writing := (i, ids) :: writing v |>
  | Ev i (FinishWrite _) _ => v <| writing := List.filter (λ w, negb (bool_decide (w.1 = i))) (writing v) |>
  | Ev i Commit (Fine | Lost) => commit_tx i v
  | Ev i Commit _ => end_tx i v
  | Ev i Rollback Fine => end_tx i v
  | Ev _ _ _ => v
  | Killed i => end_tx i v
  | Inserted id s => v <| registry := <[id := mkRow s None]> (registry v) |>
  | SetStatus id s =>
      match registry v !! id with
      | Some r => v <| registry := <[id := r <| status := s |>]> (registry v) |>
      | None => v
      end
  end.

Definition view (r0 : gmap gostring Row) (h : list event) : View := foldl observe (mkView r0 ∅ [] []) h.

(** The calls that go to the database, and not to an external store. *)
Definition database_call (c : call) : bool :=
  match c with StartWrite _ | FinishWrite _ => false | _ => true end.

(** What the fence relies on of PostgreSQL: identifiers are compared as uuids, a granted
    advisory lock is compatible with those held, a read sees committed rows or its own
    changes, the trigger runs on every update, a primary key is unique and a broken session
    answers nothing but errors. *)
Class Postgres (r0 : gmap gostring Row) (allowed : list event → Prop) : Prop := {
  uuid_case id : validateWriterTenantID id = true → uuid (lower id) = uuid id;
  shared_grant h i j id : allowed (h ++ [Ev i (LockShared id) Fine]) → (j, Exclusive, lock_key id) ∈ held (view r0 h) → j = i;
  exclusive_grant h i j m id : allowed (h ++ [Ev i (LockExclusive id) Fine]) → (j, m, lock_key id) ∈ held (view r0 h) → j = i;
  read_committed h i id s f :
    allowed (h ++ [Ev i (Lookup id) (Found s f)]) →
    ∃ r, visible i (view r0 h) id = Some r ∧ s = status r ∧ f = bool_decide (audit_write_fenced_at r ≠ None);
  trigger_runs h id s :
    allowed (h ++ [SetStatus id s]) →
    ∀ r, registry (view r0 h) !! id = Some r → preserve_tenant_audit_write_fence r (r <| status := s |>) = true;
  primary_key h id s : allowed (h ++ [Inserted id s]) → registry (view r0 h) !! id = None;
  broken_session h i c a : allowed (h ++ [Ev i c a]) → Killed i ∈ h → database_call c = true → a = Failed
}.

(** No session is broken while it holds the lease of a writer. *)
Definition leases_last (r0 : gmap gostring Row) (allowed : list event → Prop) : Prop :=
  ∀ h i k, allowed (h ++ [Killed i]) → (i, Shared, k) ∉ held (view r0 h).

(** ** Threads *)

Record Sys := mkSys { threads : gmap nat (prog (option error)); history : list event }.

Inductive step (allowed : list event → Prop) : Sys → Sys → Prop :=
| step_call s i c k a :
    threads s !! i = Some (Call c k) → allowed (history s ++ [Ev i c a]) →
    step allowed s (mkSys (<[i := k a]> (threads s)) (history s ++ [Ev i c a]))
| step_other s e :
    match e with Ev _ _ _ => False | _ => True end → allowed (history s ++ [e]) →
    step allowed s (mkSys (threads s) (history s ++ [e])).

End Database.

Arguments uuid_case {_ _ _ _ _}.
Arguments shared_grant {_ _ _ _ _}.
Arguments exclusive_grant {_ _ _ _ _}.
Arguments read_committed {_ _ _ _ _}.
Arguments trigger_runs {_ _ _ _ _}.
Arguments primary_key {_ _ _ _ _}.
Arguments broken_session {_ _ _ _ _}.

(** ** Locks and verdicts along a program *)

(** What a thread knows of its own transaction: the tenants whose shared and exclusive
    lock it holds, those it then read as not fenced, the writes it has under way. *)
Record local := mkLocal { shared : gset gostring; excl : gset gostring; verified : gset gostring; open : list (list gostring) }.

Definition fresh : local := mkLocal ∅ ∅ ∅ [].

(** [l'] knows at least what [l] knows. *)
Definition extends (l l' : local) : Prop := shared l ⊆ shared l' ∧ verified l ⊆ verified l' ∧ open l' = open l.

Lemma local_refl l : extends l l.
Proof using Type. by split. Qed.

Lemma local_trans l1 l2 l3 : extends l1 l2 → extends l2 l3 → extends l1 l3.
Proof. intros (H1 & H2 & H3) (H4 & H5 & H6). split_and!; [set_solver..|congruence]. Qed.

Lemma unique_ids_spec fold ids u v :
  unique_ids fold ids u = inr v → (∀ x, x ∈ v ↔ x ∈ u ∨ ∃ id, id ∈ ids ∧ x = fold id) ∧ ∀ id, id ∈ ids → validateWriterTenantID id = true.
Proof using Type.
  revert u. induction ids as [|id ids IH]; intros u; cbn.
  { intros [= <-]. split; [|by intros id ?%elem_of_nil]. intros x. split; [by left|]. by intros [?|(id & ?%elem_of_nil & _)]. }
  destruct (validateWriterTenantID id) eqn:E; [|done]. intros H. apply IH in H as [Hv Hok]. split.
  - intros x. rewrite Hv, elem_of_union, elem_of_singleton. setoid_rewrite elem_of_cons. naive_solver.
  - intros x [-> | Hx]%elem_of_cons; auto.
Qed.

Lemma elem_of_sorted_keys s x : x ∈ sorted_keys s ↔ x ∈ s.
Proof using Type. unfold sorted_keys. by rewrite merge_sort_Permutation, elem_of_elements. Qed.

Section Programs.

Context (uuid : gostring → gostring).

Definition advance (l : local) (c : call) (a : answer) : local :=
  match c, a with
  | LockShared id, Fine => mkLocal ({[uuid id]} ∪ shared l) (excl l) (verified l) (open l)
  | LockExclusive id, Fine => mkLocal (shared l) ({[uuid id]} ∪ excl l) (verified l) (open l)
  | Lookup id, Found _ false =>
      if bool_decide (uuid id ∈ shared l) then mkLocal (shared l) (excl l) ({[uuid id]} ∪ verified l) (open l) else l
  | StartWrite ids, _ => mkLocal (shared l) (excl l) (verified l) (ids :: open l)
  | FinishWrite _, _ => mkLocal (shared l) (excl l) (verified l) []
  | (Commit | Rollback), _ => mkLocal ∅ ∅ ∅ (open l)
  | _, _ => l
  end.

(** A write only touches verified tenants, an offboarding only one whose exclusive lock is
    held, and a transaction does not end during a write. *)
Definition permitted (l : local) (c : call) : Prop :=
  match c with
  | StartWrite ids => ∀ id, id ∈ ids → uuid id ∈ verified l
  | Offboard id => uuid id ∈ excl l
  | Commit | Rollback => open l = []
  | _ => True
  end.

Fixpoint wp {A} (l : local) (p : prog A) (Q : local → A → Prop) : Prop :=
  match p with
  | Ret a => Q l a
  | Call c k => permitted l c ∧ ∀ a, wp (advance l c a) (k a) Q
  end.

Lemma wp_weaken {A} (p : prog A) l (Q Q' : local → A → Prop) : wp l p Q → (∀ l a, Q l a → Q' l a) → wp l p Q'.
Proof using Type. intros H HQ. revert l H. induction p as [a|c k IH]; cbn; intros l H; [by apply HQ|]. destruct H as [Hc Hk]. eauto. Qed.

Lemma wp_bind {A B} (p : prog A) (f : A → prog B) l Q : wp l p (λ l a, wp l (f a) Q) → wp l (p ≫= f) Q.
Proof using Type. revert l. induction p as [a|c k IH]; cbn; intros l H; [done|]. destruct H as [Hc Hk]. split; [done|]. intros a. by apply IH. Qed.

(** A statement that changes neither locks nor verdicts nor writes. *)
Definition neutral (c : call) : bool :=
  match c with Begin | SetRole | Guard | LockAudit _ | Canonicalize _ | LookupForUpdate _ | AppendAudit _ => true | _ => false end.

Lemma wp_neutral c l Q : neutral c = true → (∀ a, Q l a) → wp l (ask c) Q.
Proof using Type. intros Hc HQ. split; [by destruct c|]. intros a. destruct c; try done; apply HQ. Qed.

Lemma wp_attempt_neutral c e l Q : neutral c = true → (∀ r, Q l r) → wp l (attempt c e) Q.
Proof using Type. intros Hc HQ. apply wp_bind, wp_neutral; [done|]. intros a. apply HQ. Qed.

Lemma wp_and_then p q l Q : wp l p (λ l e, match e with Some e => Q l (Some e) | None => wp l q Q end) → wp l (and_then p q) Q.
Proof using Type. intros H. apply wp_bind. eapply wp_weaken; [exact H|]. by intros l' [e|]. Qed.

(** Ends of transactions keep nothing but the writes. *)
Lemma wp_end c l Q : c = Commit ∨ c = Rollback → open l = [] → (∀ a, Q fresh a) → wp l (ask c) Q.
Proof using Type. intros [-> | ->] Ho HQ; (split; [done|]; intros a; cbn; rewrite Ho; apply HQ). Qed.

Lemma wp_BeginProvider guarded Q : (∀ e, Q fresh e) → wp fresh (BeginProvider guarded) Q.
Proof using Type.
  intros HQ. assert (Hr : ∀ e, wp fresh (rollback_with e) Q) by (intros e; apply wp_bind, wp_end; auto; intros a; apply HQ).
  apply wp_and_then, wp_attempt_neutral; [done|]. intros [e|]; [apply HQ|].
  apply wp_bind, wp_attempt_neutral; [done|]. intros [e|]; [apply Hr|]. destruct guarded; [|apply HQ].
  apply wp_bind, wp_attempt_neutral; [done|]. intros [e|]; [apply Hr|apply HQ].
Qed.

Lemma wp_InProvider {S} guarded (s : S) fn :
  wp fresh fn (λ l _, open l = []) → wp fresh (InProvider guarded s fn) (λ l _, open l = []).
Proof using Type.
  intros Hfn. apply wp_bind, wp_BeginProvider. intros [e|]; [done|]. apply wp_bind. eapply wp_weaken; [exact Hfn|].
  intros l [[e|] s'] Ho; cbn [fst].
  - by apply wp_bind, wp_end; [right| |].
  - apply wp_bind, wp_bind, wp_end; [by left|done|]. intros a. by apply wp_bind, wp_end; [right| |].
Qed.

Lemma wp_locks ids l :
  wp l (each lockTenantWriterLease ids) (λ l' e, extends l l' ∧ (e = None → ∀ id, id ∈ ids → uuid id ∈ shared l')).
Proof using Type.
  revert l. induction ids as [|id ids IH]; intros l; cbn [each]; [split; [apply local_refl|by intros _ id ?%elem_of_nil]|].
  apply wp_and_then, wp_bind. split; [done|]. intros a. destruct a; cbn; try (split; [apply local_refl|done]).
  eapply wp_weaken; [apply IH|]. intros l' e [He Hs]. split.
  - eapply local_trans; [|exact He]. split_and!; cbn; set_solver.
  - intros -> x [-> | Hx]%elem_of_cons; [|by apply Hs]. apply He. cbn. set_solver.
Qed.

Lemma wp_checks ids l :
  (∀ id, id ∈ ids → uuid id ∈ shared l) →
  wp l (each check_tenant ids) (λ l' e, extends l l' ∧ (e = None → ∀ id, id ∈ ids → uuid id ∈ verified l')).
Proof using Type.
  revert l. induction ids as [|id ids IH]; intros l Hs; cbn [each]; [split; [apply local_refl|by intros _ id ?%elem_of_nil]|].
  apply wp_and_then, wp_bind. split; [done|]. intros a. destruct a as [| | |st f| | |]; try (split; [apply local_refl|done]).
  destruct f; [split; [apply local_refl|done]|]. cbn. rewrite bool_decide_true by (apply Hs; left).
  assert (He : extends l (mkLocal (shared l) (excl l) ({[uuid id]} ∪ verified l) (open l))) by (split_and!; cbn; set_solver).
  destruct (negb (open_status st)); [done|]. eapply wp_weaken; [apply IH; cbn; intros x Hx; apply Hs; by right|].
  intros l' e [He' Hv]. split; [by eapply local_trans|]. intros -> x [-> | Hx]%elem_of_cons; [|by apply Hv]. apply He'. cbn. set_solver.
Qed.

Lemma wp_check_each ids m l :
  (∀ id, id ∈ ids → uuid id ∈ shared l) →
  wp l (check_each ids m) (λ l' v, extends l l' ∧ ∀ m', v = inr m' → dom m ⊆ dom m' ∧ ∀ id, id ∈ ids → id ∉ dom m' → uuid id ∈ verified l').
Proof using Type.
  revert l m. induction ids as [|id ids IH]; intros l m Hs; cbn [check_each].
  { split; [apply local_refl|]. intros m' [= <-]. split; [done|]. by intros id ?%elem_of_nil. }
  apply wp_bind. split; [done|].
  assert (Hfenced : ∀ e, wp l (check_each ids (<[id := e]> m))
    (λ l' v, extends l l' ∧ ∀ m', v = inr m' → dom m ⊆ dom m' ∧ ∀ x, x ∈ id :: ids → x ∉ dom m' → uuid x ∈ verified l')).
  { intros e. eapply wp_weaken; [apply IH; intros x Hx; apply Hs; by right|]. intros l' v [He Hv]. split; [done|]. intros m' ->.
    destruct (Hv m' eq_refl) as [Hd Hx]. rewrite dom_insert in Hd. split; [set_solver|]. intros x [-> | Hin]%elem_of_cons; [set_solver|auto]. }
  intros a. destruct a as [| | |st f| | |]; cbn; try (by split; [apply local_refl|]); [|apply Hfenced].
  destruct f; cbn; [apply Hfenced|]. rewrite bool_decide_true by (apply Hs; left).
  assert (He : extends l (mkLocal (shared l) (excl l) ({[uuid id]} ∪ verified l) (open l))) by (split_and!; cbn; set_solver).
  assert (Hk : ∀ m1, dom m ⊆ dom m1 → wp (mkLocal (shared l) (excl l) ({[uuid id]} ∪ verified l) (open l)) (check_each ids m1)
    (λ l' v, extends l l' ∧ ∀ m', v = inr m' → dom m ⊆ dom m' ∧ ∀ x, x ∈ id :: ids → x ∉ dom m' → uuid x ∈ verified l')).
  { intros m1 Hm1. eapply wp_weaken; [apply IH; cbn; intros x Hx; apply Hs; by right|]. intros l' v [He' Hv]. split; [by eapply local_trans|].
    intros m' ->. destruct (Hv m' eq_refl) as [Hd Hx]. split; [set_solver|]. intros x [-> | Hin]%elem_of_cons ?; [apply He'; cbn; set_solver|auto]. }
  apply Hk. destruct (open_status st); cbn; [done|]. rewrite dom_insert. set_solver.
Qed.

Lemma wp_backend ids l : (∀ id, id ∈ ids → uuid id ∈ verified l) → wp l (backend ids) (λ l' _, open l' = []).
Proof using Type. intros H. apply wp_bind. split; [done|]. intros a. apply wp_bind. by split. Qed.

(** Writers of both kinds and the eraser, as threads. *)
Inductive job : prog (option error) → Prop :=
| job_write (T : Type) (tenantOf : T → gostring) built guarded rows missing :
    job (r ← FencedWrite tenantOf (Some (PostgresFence built guarded)) rows missing tt (e ← backend (tenantOf <$> rows); mret (e, tt)); mret r.1)
| job_partition (T : Type) (tenantOf : T → gostring) built guarded rows missing :
    job (r ← PartitionedFencedWrite tenantOf (Some (PostgresFence built guarded)) rows missing (λ rows, backend (tenantOf <$> rows)); mret r.2)
| job_batch (S : Type) built guarded tenant (writes : list (S → S)) s :
    job (r ← Batch (Some (PostgresFence built guarded)) tenant writes s; mret r.1)
| job_erase guarded id : job (fenceTenantAuditWrites guarded id).

Hypothesis uuid_lower : ∀ id, validateWriterTenantID id = true → uuid (lower id) = uuid id.

Lemma wp_WithTenantWrites {S} built guarded ids (s : S) write :
  (∀ l, open l = [] → (∀ id, id ∈ ids → uuid id ∈ verified l) → wp l write (λ l _, open l = [])) →
  wp fresh (WithTenantWrites built guarded ids s (Some write)) (λ l _, open l = []).
Proof using uuid_lower.
  intros Hw. unfold WithTenantWrites, canonicalWriterTenantIDs. destruct built; [|done]. cbn [negb].
  destruct (unique_ids lower ids ∅) as [e|u] eqn:E; [done|]. apply unique_ids_spec in E as [Hu Hok].
  assert (Hin : ∀ id, id ∈ ids → ∃ x, x ∈ sorted_keys u ∧ uuid x = uuid id).
  { intros id Hid. exists (lower id). split; [|by apply uuid_lower, Hok]. apply elem_of_sorted_keys, Hu. eauto. }
  destruct (sorted_keys u) as [|c cs] eqn:Ec; [done|]. apply wp_InProvider, wp_bind, wp_and_then.
  eapply wp_weaken; [apply wp_locks|]. intros l [e|] [He Hs]; [apply He|].
  eapply wp_weaken; [apply wp_checks; by apply Hs|]. intros l' [e|] [He' Hv]; [cbn; rewrite (proj2 (proj2 He')); apply He|].
  apply Hw; [rewrite (proj2 (proj2 He')); apply He|]. intros id Hid. destruct (Hin id Hid) as (x & Hx & <-). by apply Hv.
Qed.

Lemma wp_WithPartitioned {S} built guarded ids (s : S) write :
  (∀ l m, open l = [] → (∀ id, id ∈ ids → id ∉ dom m → uuid id ∈ verified l) → wp l (write m) (λ l _, open l = [])) →
  wp fresh (WithPartitionedTenantWrites built guarded ids s (Some write)) (λ l _, open l = []).
Proof using Type.
  intros Hw. unfold WithPartitionedTenantWrites, distinctWriterTenantIDs. destruct built; [|done]. cbn [negb].
  destruct (unique_ids _ ids ∅) as [e|u] eqn:E; [done|]. apply unique_ids_spec in E as [Hu _].
  assert (Hin : ∀ id, id ∈ ids → id ∈ sorted_keys u) by (intros id Hid; apply elem_of_sorted_keys, Hu; eauto).
  destruct (sorted_keys u) as [|c cs] eqn:Ec; [done|]. apply wp_InProvider, wp_bind.
  eapply wp_weaken; [apply wp_locks|]. intros l [e|] [He Hs]; [apply He|].
  apply wp_bind. eapply wp_weaken; [apply wp_check_each; by apply Hs|]. intros l' v [He' Hv].
  assert (Ho : open l' = []) by (rewrite (proj2 (proj2 He')); apply He).
  destruct v as [e|m]; [done|]. apply Hw; [done|]. intros id Hid Hm. by apply (Hv m eq_refl); [apply Hin|].
Qed.

Lemma tenants_of_spec {T} (tenantOf : T → gostring) rows ids : tenants_of tenantOf rows = Some ids → ids = tenantOf <$> rows.
Proof using Type.
  revert ids. induction rows as [|r rows IH]; intros ids; cbn; [by intros [= <-]|].
  case_bool_decide; [done|]. destruct (tenants_of tenantOf rows) as [ids0|]; [|done]. intros [= <-]. by rewrite (IH ids0).
Qed.

Lemma wp_job p : job p → wp fresh p (λ l _, open l = []).
Proof using uuid_lower.
  intros [T tenantOf built guarded rows missing|T tenantOf built guarded rows missing|S built guarded tenant writes s|guarded id].
  - apply wp_bind. unfold FencedWrite. case_bool_decide as Hr.
    { subst rows. apply wp_bind. eapply wp_weaken; [apply wp_backend; by intros id ?%elem_of_nil|]. done. }
    destruct (tenants_of tenantOf rows) as [ids|] eqn:E; [|done]. apply tenants_of_spec in E as ->.
    apply (wp_weaken _ _ (λ l _, open l = [])); [|done]. apply wp_WithTenantWrites. intros l Ho Hv. apply wp_bind.
    by eapply wp_weaken; [apply wp_backend|].
  - apply wp_bind. unfold PartitionedFencedWrite. case_bool_decide as Hr.
    { subst rows. apply wp_bind. eapply wp_weaken; [apply wp_backend; by intros id ?%elem_of_nil|]. done. }
    destruct (tenants_of tenantOf rows) as [ids|] eqn:E; [|done]. apply tenants_of_spec in E as ->. apply wp_bind.
    apply (wp_weaken _ _ (λ l _, open l = [])); [|by intros l [[e|] m]]. apply wp_WithPartitioned. intros l m Ho Hv. apply wp_bind.
    eapply wp_weaken; [apply wp_backend|done]. intros id (r & -> & Hin)%list_elem_of_fmap. case_bool_decide as Hm.
    { apply map_size_empty_inv in Hm as ->. apply Hv; [by apply list_elem_of_fmap_2|set_solver]. }
    unfold eligible_rows in Hin. apply list_elem_of_In, filter_In in Hin as [Hin Hf]. apply list_elem_of_In in Hin.
    apply Hv; [by apply list_elem_of_fmap_2|]. apply not_elem_of_dom. by destruct (m !! tenantOf r).
  - apply wp_bind. unfold Batch, mutate, FencedTenantWrite. case_bool_decide; [done|].
    apply (wp_weaken _ _ (λ l _, open l = [])); [|done]. apply wp_WithTenantWrites. intros l Ho Hv. by repeat (apply wp_bind; split; [done|intros ?]).
  - apply wp_bind. apply (wp_weaken _ _ (λ l _, open l = [])); [|done]. apply wp_InProvider, wp_bind, wp_neutral; [done|].
    intros a; destruct a as [| | | | |c|]; try done. apply wp_bind, wp_and_then, wp_bind. split; [done|]. intros a. destruct a; try done.
    apply wp_and_then, wp_attempt_neutral; [done|]. intros [e|]; [done|]. apply wp_bind, wp_neutral; [done|]. intros a; destruct a as [| | |st f| | |]; try done.
    case_bool_decide; [done|]. destruct (f && _); [done|]. apply wp_bind. split; [cbn; set_solver|]. intros a; destruct a as [| | | | | |n now]; try done.
    cbn [wp].
    destruct (n =? 1); [|done]. by apply wp_attempt_neutral.
Qed.

End Programs.

(** ** The barrier *)

Section Barrier.

Context (uuid : gostring → gostring) (hash : gostring → Z) (r0 : gmap gostring Row) (allowed : list event → Prop).
Context `{HP : !Postgres uuid hash r0 allowed}.

Abbreviation vw := (view uuid hash r0).
Abbreviation keyed x := (hash (str "tenant-write:" ++ x)).

(** Thread [i] holds what it thinks it holds, and what it verified still stands. *)
Record tracks (v : View) (broken : Prop) (i : nat) (l : local) : Prop := {
  t_shared (x : gostring) : x ∈ shared l → (i, Shared, keyed x) ∈ held v;
  t_broken : broken → shared l = ∅;
  t_excl (x : gostring) : x ∈ excl l → broken ∨ (i, Exclusive, keyed x) ∈ held v;
  t_verified (x : gostring) : x ∈ verified l → x ∈ shared l ∧ ∃ r, registry v !! x = Some r ∧ audit_write_fenced_at r = None;
  t_open ids : (i, ids) ∈ writing v → ids ∈ open l ∧ ∀ id, id ∈ ids → uuid id ∈ verified l
}.

Definition closed_status (s : gostring) : Prop := s = str "offboarding" ∨ s = str "deleted".

Definition registry_ok (r : gmap gostring Row) : Prop := ∀ (x : gostring) row, r !! x = Some row → audit_write_fenced_at row ≠ None → closed_status (status row).

Record inv (s : Sys) : Prop := {
  i_threads i : match threads s !! i with
    | Some p => ∃ l, wp uuid l p (λ l _, open l = []) ∧ tracks (vw (history s)) (Killed i ∈ history s) i l
    | None => ∀ ids, (i, ids) ∉ writing (vw (history s))
    end;
  i_pending i m (x : gostring) r : pending (vw (history s)) !! i = Some m → m !! x = Some r →
    (i, Exclusive, keyed x) ∈ held (vw (history s)) ∧ status r = str "offboarding" ∧ audit_write_fenced_at r ≠ None;
  i_locks i j m k : (i, Exclusive, k) ∈ held (vw (history s)) → (j, m, k) ∈ held (vw (history s)) → i = j;
  i_registry : registry_ok (registry (vw (history s)))
}.

Lemma view_snoc h e : vw (h ++ [e]) = observe uuid hash (vw h) e.
Proof using Type. unfold view. by rewrite foldl_app. Qed.

Lemma held_end i v x : x ∈ held (end_tx i v) ↔ x ∈ held v ∧ x.1.1 ≠ i.
Proof using Type.
  unfold end_tx. cbn. rewrite list_elem_of_In, filter_In, <- list_elem_of_In, negb_true_iff, bool_decide_eq_false. done.
Qed.

Lemma held_commit i v x : x ∈ held (commit_tx i v) ↔ x ∈ held v ∧ x.1.1 ≠ i.
Proof using Type. unfold commit_tx. by rewrite held_end. Qed.

(** What a step leaves to a thread it is not a step of. *)
Record frame (j : nat) (v v' : View) : Prop := {
  f_held m k : (j, m, k) ∈ held v → (j, m, k) ∈ held v';
  f_writing ids : (j, ids) ∈ writing v' → (j, ids) ∈ writing v;
  f_registry (x : gostring) r : (j, Shared, keyed x) ∈ held v → registry v !! x = Some r → audit_write_fenced_at r = None →
    ∃ r', registry v' !! x = Some r' ∧ audit_write_fenced_at r' = None
}.

Lemma frame_refl j v : frame j v v.
Proof using Type. split; eauto. Qed.

Lemma frame_end j i v : j ≠ i → frame j v (end_tx i v).
Proof using Type. intros Hne. split; [|done|eauto]. intros m k H. by apply held_end. Qed.

Lemma frame_commit j i v :
  j ≠ i → (∀ m (x : gostring) r, pending v !! i = Some m → m !! x = Some r → (i, Exclusive, keyed x) ∈ held v) →
  (∀ i' j' m k, (i', Exclusive, k) ∈ held v → (j', m, k) ∈ held v → i' = j') → frame j v (commit_tx i v).
Proof using Type.
  intros Hne Hp Hl. split; [|done|]. { intros m k H. by apply held_commit. }
  intros x r Hs Hr Ha. cbn. unfold mine. destruct (pending v !! i) as [m|] eqn:Em; cbn; [|rewrite (left_id_L ∅ (∪)); eauto].
  destruct (m !! x) as [r'|] eqn:Ex; [|exists r; split; [by rewrite lookup_union_r|done]].
  by destruct Hne; rewrite (Hl i j Shared (keyed x)); [|by eapply Hp|].
Qed.

(** The thread an event belongs to. *)
Definition of_thread (e : event) : option nat := match e with Ev i _ _ | Killed i => Some i | _ => None end.

Lemma frame_step s e j : inv s → allowed (history s ++ [e]) → of_thread e ≠ Some j → frame j (vw (history s)) (vw (history s ++ [e])).
Proof using HP.
  intros Hi Ha Hne. rewrite view_snoc. set (v := vw (history s)) in *.
  destruct e as [i c a|i|id st|id st]; cbn in Hne; try assert (j ≠ i) by congruence.
  - assert (Hcommit : frame j v (commit_tx i v)).
    { apply frame_commit; [done| |apply (i_locks _ Hi)]. intros m x r Hm Hx. by eapply (i_pending _ Hi). }
    destruct c, a; cbn; try apply frame_refl; try done; try by apply frame_end.
    1,2: split; cbn; [|done|eauto]; intros m k ?; by right.
    all: try (split; cbn; [done| |eauto]; intros ids'; rewrite ?elem_of_cons; by intros [[= ? ?]|?]).
    all: try (split; cbn; [done| |eauto]; intros ids'; rewrite list_elem_of_In, filter_In, <- list_elem_of_In; by intros [? _]).
    destruct rows as [|[]|]; try apply frame_refl. destruct (visible _ _ _ _); [|apply frame_refl]. split; cbn; eauto.
  - by apply frame_end.
  - split; cbn; [done|done|]. intros x r _ Hx Hn. pose proof (primary_key _ _ _ Ha) as Hk. fold v in Hk.
    exists r. split; [|done]. rewrite lookup_insert_ne; [done|]. intros ->. by rewrite Hx in Hk.
  - cbn. destruct (registry v !! id) as [r|] eqn:Er; [|apply frame_refl]. split; cbn; [done|done|]. intros x r' _ Hx Hn.
    destruct (decide (x = id)) as [-> | Hd]; [|rewrite lookup_insert_ne by done; eauto]. rewrite Er in Hx. injection Hx as ->.
    rewrite lookup_insert_eq. by eexists.
Qed.

Lemma tracks_frame j v v' b b' l : frame j v v' → (b' ↔ b) → tracks v b j l → tracks v' b' j l.
Proof using Type.
  intros Hf Hb [H1 H2 H3 H4 H5]. split.
  - intros x Hx. by apply (f_held _ _ _ Hf), H1.
  - intros ?%Hb. by apply H2.
  - intros x Hx. destruct (H3 x Hx) as [Hbr|Hh]; [left; by apply Hb|right; by apply (f_held _ _ _ Hf)].
  - intros x Hx. destruct (H4 x Hx) as [Hs (r & Hr & Hn)]. split; [done|]. eapply (f_registry _ _ _ Hf); eauto.
  - intros ids Hi%(f_writing _ _ _ Hf). by apply H5.
Qed.

Lemma tracks_ended v v' b i l : tracks v b i l → open l = [] → writing v' = writing v → tracks v' b i (mkLocal ∅ ∅ ∅ (open l)).
Proof using Type.
  intros Ht Ho Hw. split; cbn; try (by intros x ?%elem_of_empty); [done|]. rewrite Hw, Ho. intros ids [Hi _]%(t_open _ _ _ _ Ht).
  rewrite Ho in Hi. by apply elem_of_nil in Hi.
Qed.

Lemma tracks_start v b i l ids :
  tracks v b i l → (∀ id, id ∈ ids → uuid id ∈ verified l) →
  tracks (v <| writing := (i, ids) :: writing v |>) b i (mkLocal (shared l) (excl l) (verified l) (ids :: open l)).
Proof using Type.
  intros [H1 H2 H3 H4 H5] Hv. split; cbn; try done. intros ids' [[= ->] | Hin]%elem_of_cons; [split; [left|done]|].
  destruct (H5 ids' Hin). split; [by right|done].
Qed.

Lemma tracks_finish v b i l :
  tracks v b i l →
  tracks (v <| writing := List.filter (λ w, negb (bool_decide (w.1 = i))) (writing v) |>) b i (mkLocal (shared l) (excl l) (verified l) []).
Proof using Type.
  intros [H1 H2 H3 H4 H5]. split; cbn; try done. intros ids. rewrite list_elem_of_In, filter_In. intros [_ Hn]. cbn in Hn. by rewrite bool_decide_true in Hn.
Qed.

(** A verdict read under a lock stands: the row is not one of the thread's own changes. *)
Lemma lookup_verified s i id st :
  inv s → allowed (history s ++ [Ev i (Lookup id) (Found st false)]) →
  ∃ r, registry (vw (history s)) !! uuid id = Some r ∧ audit_write_fenced_at r = None.
Proof using HP.
  intros Hi Ha. destruct (read_committed _ _ _ _ _ Ha) as (r & Hv & _ & Hf). symmetry in Hf. apply bool_decide_eq_false in Hf.
  destruct (audit_write_fenced_at r) eqn:Er; [by destruct Hf|]. exists r. split; [|done]. unfold visible, mine in Hv.
  destruct (pending _ !! i) as [m|] eqn:Em; cbn in Hv; [|done].
  destruct (m !! uuid id) as [r'|] eqn:Ex; cbn in Hv; [|done]. injection Hv as ->. by destruct (i_pending _ Hi _ _ _ _ Em Ex) as (_ & _ & []).
Qed.

Lemma own_step s i c a l :
  inv s → allowed (history s ++ [Ev i c a]) → permitted uuid l c → tracks (vw (history s)) (Killed i ∈ history s) i l →
  tracks (vw (history s ++ [Ev i c a])) (Killed i ∈ history s) i (advance uuid l c a).
Proof using HP.
  intros Hi Ha Hc Ht. assert (Hb : database_call c = true → a ≠ Failed → ¬ Killed i ∈ history s).
  { intros Hd Hf Hk. by eapply Hf, broken_session. }
  rewrite view_snoc. set (v := vw (history s)) in *. destruct c, a; cbn; try exact Ht; try (by apply (tracks_ended v)); try (by apply tracks_start); try by apply tracks_finish.
  - destruct Ht as [H1 H2 H3 H4 H5]. split; cbn.
    + intros x [-> %elem_of_singleton | Hx]%elem_of_union; [by left|right; by apply H1].
    + intros Hk. by destruct (Hb eq_refl ltac:(done)).
    + intros x Hx. destruct (H3 x Hx); [by left|right; by right].
    + intros x Hx. destruct (H4 x Hx). split; [set_solver|done].
    + done.
  - destruct Ht as [H1 H2 H3 H4 H5]. split; cbn; try done.
    + intros x Hx. right. by apply H1.
    + intros x [-> %elem_of_singleton | Hx]%elem_of_union; [right; by left|]. destruct (H3 x Hx); [by left|right; by right].
  - destruct fenced; [exact Ht|]. case_bool_decide as Hs; [|exact Ht]. destruct Ht as [H1 H2 H3 H4 H5]. split; cbn; try done.
    + intros x [-> %elem_of_singleton | Hx]%elem_of_union; [|by apply H4]. split; [done|]. by eapply lookup_verified.
    + intros ids Hin. destruct (H5 ids Hin) as [Ho Hv]. split; [done|]. set_solver.
  - destruct rows as [|[]|]; try exact Ht. destruct (visible _ _ _ _); [|exact Ht]. by destruct Ht; split.
Qed.

Lemma pending_step s e i m (x : gostring) r :
  inv s → allowed (history s ++ [e]) →
  (∀ j c a, e = Ev j c a → ∃ l, permitted uuid l c ∧ tracks (vw (history s)) (Killed j ∈ history s) j l) →
  pending (vw (history s ++ [e])) !! i = Some m → m !! x = Some r →
  (i, Exclusive, keyed x) ∈ held (vw (history s ++ [e])) ∧ status r = str "offboarding" ∧ audit_write_fenced_at r ≠ None.
Proof using HP.
  intros Hi Ha Hl. rewrite view_snoc. pose proof (i_pending _ Hi) as Hp. set (v := vw (history s)) in *.
  assert (Hend : ∀ k, pending (end_tx k v) !! i = Some m → m !! x = Some r →
    (i, Exclusive, keyed x) ∈ held (end_tx k v) ∧ status r = str "offboarding" ∧ audit_write_fenced_at r ≠ None).
  { intros k Hm Hx. cbn in Hm. apply lookup_delete_Some in Hm as [Hne Hm]. destruct (Hp _ _ _ _ Hm Hx) as (Hh & Hr). split; [|done]. by apply held_end. }
  destruct e as [j c a|j|id st|id st]; cbn; try exact (Hp i m x r); try apply Hend.
  - destruct c, a; try exact (Hp i m x r); try apply Hend.
    1,2: intros Hm Hx; destruct (Hp _ _ _ _ Hm Hx) as [Hh Hr]; split; [by right|done].
    destruct rows as [|[]|]; try exact (Hp i m x r). destruct (visible uuid j v id) as [r'|]; [|exact (Hp i m x r)].
    cbn. intros [[<- <-]|[Hne Hm]]%lookup_insert_Some Hx; [|by eapply Hp].
    apply lookup_insert_Some in Hx as [[<- <-]|[Hx Hr]]; [|unfold mine in Hr; destruct (pending v !! j) eqn:Em; cbn in Hr; [by eapply Hp|done]].
    destruct (Hl _ _ _ eq_refl) as (l & Hc & Ht). split; [|split; [done|by cbn; destruct (audit_write_fenced_at r')]].
    destruct (t_excl _ _ _ _ Ht _ Hc) as [Hb|Hh]; [|done]. by assert (Affected 1 now = Failed) by by eapply broken_session.
  - destruct (registry v !! id); exact (Hp i m x r).
Qed.

Lemma locks_step s e i j m k :
  inv s → allowed (history s ++ [e]) →
  (i, Exclusive, k) ∈ held (vw (history s ++ [e])) → (j, m, k) ∈ held (vw (history s ++ [e])) → i = j.
Proof using HP.
  intros Hi Ha. rewrite view_snoc. pose proof (i_locks _ Hi) as Hl. pose proof (shared_grant (history s)) as Hs.
  pose proof (exclusive_grant (history s)) as He. set (v := vw (history s)) in *.
  assert (Hend : ∀ t, (i, Exclusive, k) ∈ held (end_tx t v) → (j, m, k) ∈ held (end_tx t v) → i = j).
  { intros t [H1 _]%held_end [H2 _]%held_end. by eapply Hl. }
  destruct e as [t c a|t|id st|id st]; cbn; try exact (Hl i j m k); try apply Hend.
  - destruct c, a; try exact (Hl i j m k); try apply Hend; cbn; rewrite ?elem_of_cons.
    + intros [H1|H1] [H2|H2]; simplify_eq; [by eapply Hs|by eapply Hl].
    + intros [H1|H1] [H2|H2]; simplify_eq; [done|by symmetry; eapply He|by eapply He|by eapply Hl].
    + destruct rows as [|[]|]; try exact (Hl i j m k). destruct (visible uuid t v id); exact (Hl i j m k).
  - destruct (registry v !! id); exact (Hl i j m k).
Qed.

Lemma registry_step s e : inv s → allowed (history s ++ [e]) → registry_ok (registry (vw (history s ++ [e]))).
Proof using HP.
  intros Hi Ha. rewrite view_snoc. pose proof (i_registry _ Hi) as Hr. pose proof (i_pending _ Hi) as Hp.
  pose proof (trigger_runs (history s)) as Ht. set (v := vw (history s)) in *.
  destruct e as [t c a|t|id st|id st]; cbn; try exact Hr.
  - assert (Hcommit : registry_ok (registry (commit_tx t v))).
    { intros x row. cbn. unfold mine. destruct (pending v !! t) as [m|] eqn:Em; cbn; [|rewrite (left_id_L ∅ (∪)); apply Hr].
      intros [Hx|[_ Hx]]%lookup_union_Some_raw; [|by eapply Hr]. left. by eapply Hp. }
    destruct c, a; try exact Hr; try exact Hcommit. destruct rows as [|[]|]; try exact Hr. by destruct (visible uuid t v id).
  - intros x row [[<- <-]|[_ Hx]]%lookup_insert_Some; [done|by eapply Hr].
  - destruct (registry v !! id) as [r|] eqn:Er; [|exact Hr]. cbn. intros x row [[<- <-]|[_ Hx]]%lookup_insert_Some Hn; [|by eapply Hr].
    specialize (Ht id st Ha r Er). unfold preserve_tenant_audit_write_fence in Ht. apply andb_true_iff in Ht as [_ Ht].
    cbn in Ht, Hn. rewrite (bool_decide_true _ Hn) in Ht. cbn in Ht. rewrite negb_involutive in Ht.
    apply orb_true_iff in Ht as [Ht%bool_decide_eq_true|Ht%bool_decide_eq_true]; [by left|by right].
Qed.

Hypothesis Hlast : leases_last uuid hash r0 allowed.

Lemma tracks_killed s i l b :
  allowed (history s ++ [Killed i]) → tracks (vw (history s)) b i l → tracks (vw (history s ++ [Killed i])) (Killed i ∈ history s ++ [Killed i]) i l.
Proof using HP Hlast.
  intros Ha [H1 H2 H3 H4 H5]. rewrite view_snoc. assert (Hs : shared l = ∅).
  { apply elem_of_equiv_empty_L. intros x Hx. by eapply Hlast, H1. }
  split; [by intros x; rewrite Hs|done| |intros x Hx; apply H4 in Hx as [Hx _]; by rewrite Hs in Hx|done].
  intros x _. left. apply elem_of_app. right. by left.
Qed.

Lemma inv_other s e :
  inv s → match e with Ev _ _ _ => False | _ => True end → allowed (history s ++ [e]) → inv (mkSys (threads s) (history s ++ [e])).
Proof using HP Hlast.
  intros Hi He Ha. split; cbn [history threads].
  - intros i. pose proof (i_threads _ Hi i) as Hp. destruct (decide (of_thread e = Some i)) as [Ht|Ht].
    + destruct e as [| j| |]; try done. injection Ht as ->. destruct (threads s !! i) as [p|].
      * destruct Hp as (l & Hw & Htr). exists l. split; [done|]. by eapply tracks_killed.
      * intros ids. rewrite view_snoc. apply Hp.
    + pose proof (frame_step s e i Hi Ha Ht) as Hf. destruct (threads s !! i) as [p|].
      * destruct Hp as (l & Hw & Htr). exists l. split; [done|]. eapply tracks_frame; [exact Hf| |exact Htr].
        rewrite elem_of_app, list_elem_of_singleton. split; [|by left]. intros [?|Hk]; [done|]. by subst e.
      * intros ids Hin%(f_writing _ _ _ Hf). by eapply Hp.
  - intros i m x r. apply pending_step; [done|done|]. intros j c a ->. done.
  - intros i j m k. by apply locks_step.
  - by apply registry_step.
Qed.

Lemma inv_call s i c k a :
  inv s → threads s !! i = Some (Call c k) → allowed (history s ++ [Ev i c a]) → inv (mkSys (<[i := k a]> (threads s)) (history s ++ [Ev i c a])).
Proof using HP.
  intros Hi Hc Ha. pose proof (i_threads _ Hi i) as Hp. rewrite Hc in Hp. destruct Hp as (l & [Hok Hw] & Ht).
  assert (Hk : ∀ j, Killed j ∈ history s ++ [Ev i c a] ↔ Killed j ∈ history s).
  { intros j. rewrite elem_of_app, list_elem_of_singleton. naive_solver. }
  split; cbn [history threads].
  - intros j. destruct (decide (j = i)) as [-> | Hne].
    + rewrite lookup_insert_eq. exists (advance uuid l c a). split; [apply Hw|]. eapply tracks_frame; [apply frame_refl|apply Hk|]. by apply own_step.
    + rewrite lookup_insert_ne by done. assert (Hf : of_thread (Ev i c a) ≠ Some j) by (cbn; congruence). apply (frame_step s _ j Hi Ha) in Hf.
      pose proof (i_threads _ Hi j) as Hp. destruct (threads s !! j) as [p|].
      * destruct Hp as (l' & Hw' & Htr). exists l'. split; [done|]. eapply tracks_frame; [exact Hf|apply Hk|exact Htr].
      * intros ids Hin%(f_writing _ _ _ Hf). by eapply Hp.
  - intros j m x r. apply pending_step; [done|done|]. intros j' c' a' [= <- <- <-]. eauto.
  - intros i' j m k'. by apply locks_step.
  - by apply registry_step.
Qed.

Lemma inv_steps s s' : rtc (step allowed) s s' → inv s → inv s'.
Proof using HP Hlast. intros H. induction H as [|s1 s2 s3 Hs _ IH]; [done|]. intros Hi. apply IH. destruct Hs; [by apply inv_call|by apply inv_other]. Qed.

Lemma inv_start jobs : (∀ i p, jobs !! i = Some p → job p) → registry_ok r0 → inv (mkSys jobs []).
Proof using HP.
  intros Hj Hr. split; cbn; [|done|by intros ? ? ? ? ?%elem_of_nil|done].
  intros i. destruct (jobs !! i) as [p|] eqn:E; [|by intros ids ?%elem_of_nil]. exists fresh. split; [apply wp_job; [apply uuid_case|by eapply Hj]|].
  split; cbn; try (by intros x ?%elem_of_empty); [done|by intros ids ?%elem_of_nil].
Qed.

(** The durable mark is on the committed row of tenant [t]. *)
Definition fenced_tenant (v : View) (t : gostring) : Prop := ∃ r, registry v !! t = Some r ∧ audit_write_fenced_at r ≠ None.

(** An external write that has rows of tenant [t] is under way. *)
Definition writes_for (v : View) (t : gostring) : Prop := ∃ i ids id, (i, ids) ∈ writing v ∧ id ∈ ids ∧ uuid id = t.

Lemma fenced_step s e t : inv s → allowed (history s ++ [e]) → fenced_tenant (vw (history s)) t → fenced_tenant (vw (history s ++ [e])) t.
Proof using HP.
  intros Hi Ha (r & Hr & Hn). rewrite view_snoc. pose proof (i_pending _ Hi) as Hp. pose proof (primary_key (history s)) as Hk.
  set (v := vw (history s)) in *. assert (Hsame : fenced_tenant v t) by by exists r.
  destruct e as [j c a|j|id st|id st]; cbn; try exact Hsame.
  - assert (Hcommit : fenced_tenant (commit_tx j v) t).
    { unfold fenced_tenant. cbn. unfold mine. destruct (pending v !! j) as [m|] eqn:Em; cbn; [|rewrite (left_id_L ∅ (∪)); eauto].
      destruct (m !! t) as [r'|] eqn:Ex; [|exists r; split; [by rewrite lookup_union_r|done]].
      exists r'. split; [by apply lookup_union_Some_l|]. by eapply Hp. }
    destruct c, a; try exact Hsame; try exact Hcommit. destruct rows as [|[]|]; try exact Hsame. by destruct (visible uuid j v id).
  - exists r. cbn. split; [|done]. rewrite lookup_insert_ne; [done|]. intros ->. specialize (Hk t st Ha). by rewrite Hr in Hk.
  - destruct (registry v !! id) as [r'|] eqn:Er; [|exact Hsame]. unfold fenced_tenant. cbn. destruct (decide (id = t)) as [-> | Hne].
    + rewrite lookup_insert_eq. rewrite Hr in Er. injection Er as <-. by eexists.
    + rewrite lookup_insert_ne by done. by exists r.
Qed.

Lemma fenced_steps s s' t : rtc (step allowed) s s' → inv s → fenced_tenant (vw (history s)) t → fenced_tenant (vw (history s')) t.
Proof using HP Hlast.
  intros H. induction H as [|s1 s2 s3 Hs _ IH]; [done|]. intros Hi Hf. apply IH.
  - eapply inv_steps; [by apply rtc_once|done].
  - destruct Hs; by apply fenced_step.
Qed.

(** C7. Erasure is a barrier.  Writers that go through the fence (all-or-nothing, partitioned or
    in-process), erasures and changes of the registry by other code interleave in any way the
    database allows.  As soon as the erasure mark of a tenant is committed, it stays, the tenant
    remains offboarding or deleted, no write with rows of that tenant is under way - those that
    were have been waited for - and none starts ever after, whichever case its identifier is
    written in.  This takes that no session breaks while it holds a writer's lease. *)
Theorem erasure_barrier (jobs : gmap nat (prog (option error))) (s s' : Sys) (t : gostring) :
  (∀ i p, jobs !! i = Some p → job p) → registry_ok r0 →
  rtc (step allowed) (mkSys jobs []) s → fenced_tenant (vw (history s)) t → rtc (step allowed) s s' →
  (∃ r, registry (vw (history s')) !! t = Some r ∧ audit_write_fenced_at r ≠ None ∧ closed_status (status r)) ∧
  ¬ writes_for (vw (history s')) t.
Proof using HP Hlast.
  intros Hj Hr H1 Hf H2. pose proof (inv_steps _ _ H1 (inv_start _ Hj Hr)) as Hi. pose proof (fenced_steps _ _ _ H2 Hi Hf) as (r & Hx & Hn).
  pose proof (inv_steps _ _ H2 Hi) as Hi'. split; [exists r; split_and!; [done|done|by eapply (i_registry _ Hi')]|].
  intros (i & ids & id & Hin & Hid & <-). pose proof (i_threads _ Hi' i) as Hp. destruct (threads s' !! i) as [p|]; [|by eapply Hp].
  destruct Hp as (l & _ & Ht). destruct (t_open _ _ _ _ Ht ids Hin) as [_ Hv].
  destruct (t_verified _ _ _ _ Ht _ (Hv id Hid)) as [_ (r' & Hr' & Hn')]. rewrite Hx in Hr'. injection Hr' as <-. done.
Qed.

End Barrier.

(** ** A database that does as PostgreSQL says *)

#[export] Instance call_eq_dec : EqDecision call.
Proof. solve_decision. Defined.
#[export] Instance answer_eq_dec : EqDecision answer.
Proof. solve_decision. Defined.
#[export] Instance mode_eq_dec : EqDecision mode.
Proof. solve_decision. Defined.
#[export] Instance event_eq_dec : EqDecision event.
Proof. solve_decision. Defined.

Lemma lower_lower s : lower (lower s) = lower s.
Proof. unfold lower. rewrite map_map. apply map_ext. intros b. destruct b; reflexivity. Qed.

Section Simple.

Context (r0 : gmap gostring Row) (lasting : bool).

Definition simple_hash (s : gostring) : Z := foldl (λ a b, u64 (a * 31 + byteZ b)) 7 s.

Definition grantable (h : list event) (i : nat) (m : mode) (id : gostring) : bool :=
  forallb (λ l : nat * mode * Z, bool_decide (l.1.1 = i) || bool_decide (l.2 ≠ lock_key lower simple_hash id)
                                 || (bool_decide (l.1.2 = Shared) && bool_decide (m = Shared)))
    (held (view lower simple_hash r0 h)).

Definition admits (h : list event) (e : event) : bool :=
  let v := view lower simple_hash r0 h in
  match e with
  | Ev i c a =>
      (negb (bool_decide (Killed i ∈ h)) || negb (database_call c) || bool_decide (a = Failed)) &&
      match c, a with
      | LockShared id, Fine => grantable h i Shared id
      | LockExclusive id, Fine => grantable h i Exclusive id
      | Lookup id, Found s f =>
          match visible lower i v id with
          | Some r => bool_decide (s = status r) && bool_decide (f = bool_decide (audit_write_fenced_at r ≠ None))
          | None => false
          end
      | _, _ => true
      end
  | Killed i => negb lasting || forallb (λ l : nat * mode * Z, negb (bool_decide (l.1.1 = i) && bool_decide (l.1.2 = Shared))) (held v)
  | Inserted id _ => bool_decide (registry v !! id = None)
  | SetStatus id s => match registry v !! id with Some r => preserve_tenant_audit_write_fence r (r <| status := s |>) | None => true end
  end.

Fixpoint admitted_from (h0 h : list event) : bool :=
  match h with
  | [] => true
  | e :: h => admits h0 e && admitted_from (h0 ++ [e]) h
  end.

Definition simple_db (h : list event) : Prop := admitted_from [] h = true.

Lemma simple_snoc h e : simple_db (h ++ [e]) → admits h e = true.
Proof using Type.
  unfold simple_db. cut (∀ h0, admitted_from h0 (h ++ [e]) = true → admits (h0 ++ h) e = true); [intros H; apply (H [])|].
  induction h as [|x h IH]; intros h0; cbn [app admitted_from]; [rewrite andb_true_r; by rewrite app_nil_r|]. intros [_ H]%andb_true_iff.
  apply IH in H. by rewrite <- (assoc_L (++)) in H.
Qed.

Lemma grantable_spec h i m id j m' :
  grantable h i m id = true → (j, m', lock_key lower simple_hash id) ∈ held (view lower simple_hash r0 h) → j = i ∨ (m' = Shared ∧ m = Shared).
Proof using Type.
  unfold grantable. rewrite forallb_forall. intros H Hin%list_elem_of_In. apply H in Hin. cbn in Hin.
  rewrite !orb_true_iff, andb_true_iff, !bool_decide_eq_true in Hin. destruct Hin as [[?|?]|?]; [by left|done|by right].
Qed.

#[export] Instance simple_postgres : Postgres lower simple_hash r0 simple_db.
Proof using Type.
  split; try (intros *; intros Ha%simple_snoc; cbn in Ha).
  - intros id _. apply lower_lower.
  - intros Hin. apply andb_true_iff in Ha as [_ Ha]. by destruct (grantable_spec _ _ _ _ _ _ Ha Hin) as [|[? _]].
  - intros Hin. apply andb_true_iff in Ha as [_ Ha]. by destruct (grantable_spec _ _ _ _ _ _ Ha Hin) as [|[_ ?]].
  - apply andb_true_iff in Ha as [_ Ha]. destruct (visible _ _ _ _) as [r|]; [|done].
    rewrite andb_true_iff, !bool_decide_eq_true in Ha. by exists r.
  - intros r Hr. by rewrite Hr in Ha.
  - by apply bool_decide_eq_true in Ha.
  - intros Hk Hd. apply andb_true_iff in Ha as [Ha _]. rewrite (bool_decide_true _ Hk), Hd in Ha. by apply bool_decide_eq_true in Ha.
Qed.

Lemma simple_lasting : lasting = true → leases_last lower simple_hash r0 simple_db.
Proof using Type.
  intros Hl h i k Ha%simple_snoc Hin. cbn in Ha. rewrite Hl in Ha. cbn in Ha. rewrite forallb_forall in Ha.
  apply list_elem_of_In, Ha in Hin. cbn in Hin. by rewrite !bool_decide_true in Hin.
Qed.

(** A schedule: which thread goes on with which answer, or what happens beside. *)
Fixpoint play (sched : list (nat * answer + event)) (s : Sys) : option Sys :=
  match sched with
  | [] => Some s
  | inl (i, a) :: sched =>
      match threads s !! i with
      | Some (Call c k) =>
          let h := history s ++ [Ev i c a] in
          if admitted_from [] h then play sched (mkSys (<[i := k a]> (threads s)) h) else None
      | _ => None
      end
  | inr (Ev _ _ _) :: _ => None
  | inr e :: sched =>
      let h := history s ++ [e] in
      if admitted_from [] h then play sched (mkSys (threads s) h) else None
  end.

Lemma play_steps sched s s' : play sched s = Some s' → rtc (step simple_db) s s'.
Proof using Type.
  revert s. induction sched as [|[[i a]|e] sched IH]; intros s; cbn; [by intros [= <-]| |].
  - destruct (threads s !! i) as [[|c k]|] eqn:E; try done. destruct (admitted_from [] _) eqn:Ea; [|done]. intros H.
    eapply rtc_l; [by eapply step_call|by apply IH].
  - destruct e as [| i|id st|id st]; [done|..]; (destruct (admitted_from [] _) eqn:Ea; [|done]; intros H; eapply rtc_l; [refine (step_other _ _ _ _ Ea); exact I|by apply IH]).
Qed.

End Simple.

(** ** Runs of one program *)

(** The result against a database that answers each call by [o], and the calls made. *)
Fixpoint exec {A} (o : call → answer) (p : prog A) : A * list call :=
  match p with
  | Ret a => (a, [])
  | Call c k => let r := exec o (k (o c)) in (r.1, c :: r.2)
  end.

Lemma exec_bind {A B} o (p : prog A) (f : A → prog B) :
  exec o (p ≫= f) = ((exec o (f (exec o p).1)).1, (exec o p).2 ++ (exec o (f (exec o p).1)).2).
Proof.
  induction p as [a|c k IH]; cbn; [by destruct (exec o (f a))|]. change (prog_bind f (k (o c))) with (k (o c) ≫= f). by rewrite IH.
Qed.

Lemma exec_ask o c : exec o (ask c) = (o c, [c]).
Proof. done. Qed.

Section Exact.

(** A database in good order: every statement succeeds, the registry is [reg]. *)
Context (uuid : gostring → gostring) (reg : gmap gostring Row) (o : call → answer).

Record healthy : Prop := {
  h_begin : o Begin = Fine;
  h_role : o SetRole = Fine;
  h_guard : o Guard = Fine;
  h_commit : o Commit = Fine;
  h_shared id : o (LockShared id) = Fine;
  h_lookup id : o (Lookup id) = match reg !! uuid id with
                                | Some r => Found (status r) (bool_decide (audit_write_fenced_at r ≠ None))
                                | None => NoRows
                                end
}.

Hypothesis Ho : healthy.

(** Tenant [id] may write. *)
Definition may_write (id : gostring) : bool :=
  match reg !! uuid id with
  | Some r => negb (bool_decide (audit_write_fenced_at r ≠ None)) && open_status (status r)
  | None => false
  end.

(** The status a refusal names. *)
Definition refusal (id : gostring) : error :=
  TenantWritesFenced id (match reg !! uuid id with Some r => status r | None => str "absent" end).

Lemma exec_attempt c e : o c = Fine → exec o (attempt c e) = (None, [c]).
Proof using Type. intros E. unfold attempt. rewrite exec_bind, exec_ask. cbn. by rewrite E. Qed.

Lemma exec_locks ids : exec o (each lockTenantWriterLease ids) = (None, LockShared <$> ids).
Proof using Ho.
  induction ids as [|id ids IH]; [done|]. cbn [each]. unfold and_then. rewrite exec_bind. change (lockTenantWriterLease id) with (attempt (LockShared id) LockFailed).
  rewrite exec_attempt by apply (h_shared Ho). cbn [fst snd]. by rewrite IH.
Qed.

Lemma exec_check_each ids m :
  exec o (check_each ids m) =
  (inr (foldl (λ m id, if may_write id then m else <[id := refusal id]> m) m ids), Lookup <$> ids).
Proof using Ho.
  revert m. induction ids as [|id ids IH]; intros m; [done|]. cbn [check_each]. rewrite exec_bind, exec_ask. cbn [fst snd foldl].
  rewrite (h_lookup Ho). destruct (reg !! uuid id) as [r|] eqn:Er; rewrite IH; cbn.
  - assert (Em : may_write id = negb (bool_decide (audit_write_fenced_at r ≠ None)) && open_status (status r)) by (unfold may_write; by rewrite Er).
    assert (Ef : refusal id = TenantWritesFenced id (status r)) by (unfold refusal; by rewrite Er).
    rewrite Em, Ef. by destruct (bool_decide (audit_write_fenced_at r ≠ None)), (open_status (status r)).
  - assert (Em : may_write id = false) by (unfold may_write; by rewrite Er).
    assert (Ef : refusal id = TenantWritesFenced id (str "absent")) by (unfold refusal; by rewrite Er). by rewrite Em, Ef.
Qed.

Lemma verdicts_lookup (ids : list gostring) (m : gmap gostring error) (x : gostring) :
  foldl (λ m id, if may_write id then m else <[id := refusal id]> m) m ids !! x =
  if bool_decide (x ∈ ids) && negb (may_write x) then Some (refusal x) else m !! x.
Proof using Type.
  revert m. induction ids as [|id ids IH]; intros m; cbn [foldl]; [by rewrite bool_decide_false by apply not_elem_of_nil|]. rewrite IH.
  destruct (decide (x = id)) as [-> | Hne].
  - rewrite (bool_decide_true (id ∈ id :: ids)) by left. destruct (may_write id); cbn; [by rewrite andb_false_r|].
    rewrite lookup_insert_eq. by case_bool_decide.
  - rewrite (bool_decide_ext (x ∈ id :: ids) (x ∈ ids)) by (rewrite elem_of_cons; naive_solver).
    destruct (bool_decide (x ∈ ids) && negb (may_write x)); [done|]. destruct (may_write id); [done|]. by rewrite lookup_insert_ne.
Qed.

Lemma exec_BeginProvider guarded :
  exec o (BeginProvider guarded) = (None, Begin :: SetRole :: (if guarded then [Guard] else [])).
Proof using Ho.
  unfold BeginProvider, and_then. rewrite exec_bind, exec_attempt by apply Ho. cbn [fst snd]. rewrite exec_bind, exec_attempt by apply Ho.
  cbn [fst snd]. destruct guarded; [|done]. by rewrite exec_bind, exec_attempt by apply Ho.
Qed.

Lemma exec_InProvider {S} guarded (s : S) fn s' calls :
  exec o fn = ((None, s'), calls) →
  exec o (InProvider guarded s fn) =
  ((None, s'), (Begin :: SetRole :: (if guarded then [Guard] else [])) ++ calls ++ [Commit; Rollback]).
Proof using Ho.
  intros E. unfold InProvider. rewrite exec_bind, exec_BeginProvider. cbn [fst snd]. rewrite exec_bind, E. cbn [fst snd].
  rewrite exec_bind, exec_attempt by apply Ho. done.
Qed.

Lemma unique_ids_ok ids u :
  Forall (λ id, validateWriterTenantID id = true) ids → unique_ids (λ id, id) ids u = inr (list_to_set ids ∪ u).
Proof using Type.
  intros H. revert u. induction H as [|id ids Hid _ IH]; intros u; cbn; [by rewrite (left_id_L ∅ (∪))|].
  rewrite Hid, IH. f_equal. rewrite (assoc_L (∪)). f_equal. by rewrite (comm_L (∪)).
Qed.

Lemma tenants_of_valid {T} (tenantOf : T → gostring) rows :
  Forall (λ r, validateWriterTenantID (tenantOf r) = true) rows → tenants_of tenantOf rows = Some (tenantOf <$> rows).
Proof using Type.
  intros H. induction H as [|r rows Hr _ IH]; [done|]. cbn. rewrite bool_decide_false by (intros E; by rewrite E in Hr). by rewrite IH.
Qed.

Lemma eligible_filter {T} (tenantOf : T → gostring) (rows : list T) (m : gmap gostring error) :
  (∀ id, m !! id = if bool_decide (id ∈ tenantOf <$> rows) && negb (may_write id) then Some (refusal id) else None) →
  (if bool_decide (size m = 0%nat) then rows else eligible_rows tenantOf m rows) = List.filter (λ r, may_write (tenantOf r)) rows.
Proof using Type.
  intros Hm. assert (E : eligible_rows tenantOf m rows = List.filter (λ r, may_write (tenantOf r)) rows).
  { apply filter_ext_in. intros r Hr%list_elem_of_In. rewrite Hm, bool_decide_true by (by apply list_elem_of_fmap_2). by destruct (may_write _). }
  case_bool_decide as Hs; [|done]. rewrite <- E. apply map_size_empty_inv in Hs as ->. unfold eligible_rows. clear.
  induction rows as [|r rows IH]; [done|]. cbn. by rewrite <- IH.
Qed.

(** A batch that coalesces the rows of many tenants is partitioned exactly: against a database
    in order, the store is given once, between the locks and the commit, the rows of the tenants
    whose committed row is active or suspended and not fenced, in their order, and the answer names
    exactly the other tenants, each with its own status.  What becomes of the rows of one tenant
    therefore does not depend on the registry rows of the others. *)
Theorem partition_exact {T : Type} (tenantOf : T → gostring) (guarded : bool) (rows : list T) (missing : error) (write : list T → prog (option error)) :
  rows ≠ [] → Forall (λ r, validateWriterTenantID (tenantOf r) = true) rows →
  (exec o (write (List.filter (λ r, may_write (tenantOf r)) rows))).1 = None →
  ∃ m distinct,
    exec o (PartitionedFencedWrite tenantOf (Some (PostgresFence true guarded)) rows missing write) =
      ((m, None), (Begin :: SetRole :: (if guarded then [Guard] else [])) ++
                  ((LockShared <$> distinct) ++ (Lookup <$> distinct) ++ (exec o (write (List.filter (λ r, may_write (tenantOf r)) rows))).2) ++
                  [Commit; Rollback]) ∧
    (∀ id, id ∈ distinct ↔ id ∈ tenantOf <$> rows) ∧
    ∀ id, m !! id = if bool_decide (id ∈ tenantOf <$> rows) && negb (may_write id) then Some (refusal id) else None.
Proof using Ho.
  intros Hne Hv Hw. set (ids := tenantOf <$> rows). set (distinct := sorted_keys (list_to_set ids)).
  set (m := foldl (λ m id, if may_write id then m else <[id := refusal id]> m) ∅ distinct : gmap gostring error).
  assert (Hd : ∀ id, id ∈ distinct ↔ id ∈ ids) by (intros id; unfold distinct; by rewrite elem_of_sorted_keys, elem_of_list_to_set).
  assert (Hm : ∀ id, m !! id = if bool_decide (id ∈ ids) && negb (may_write id) then Some (refusal id) else None).
  { intros id. unfold m. rewrite verdicts_lookup, (bool_decide_ext _ _ (Hd id)). by destruct (_ && _). }
  exists m, distinct. split; [|by split].
  assert (Ed : distinctWriterTenantIDs ids = inr distinct).
  { unfold distinctWriterTenantIDs. rewrite unique_ids_ok, (right_id_L ∅ (∪)); [done|]. by apply Forall_fmap. }
  unfold PartitionedFencedWrite. rewrite bool_decide_false, tenants_of_valid by done. unfold WithPartitionedTenantWrites. fold ids. rewrite Ed. cbn [negb].
  destruct distinct as [|d ds] eqn:Ed'.
  { destruct rows as [|r rows]; [done|]. destruct (not_elem_of_nil (tenantOf r)). apply Hd. by left. }
  rewrite exec_bind. erewrite exec_InProvider; [cbn [fst snd]; by rewrite app_nil_r|].
  rewrite exec_bind, exec_locks. cbn [fst snd]. rewrite exec_bind, exec_check_each. cbn [fst snd]. fold m.
  rewrite (eligible_filter tenantOf rows m Hm), exec_bind, Hw. cbn [fst snd]. by rewrite app_nil_r.
Qed.

End Exact.

(** ** Partitioned writes against any database *)

Section Cases.

(** Every call is answered by [o], whatever the database does. *)
Context (o : call → answer).

(** What the lookup of a tenant says of its writes. *)
Definition verdict (id : gostring) : option error :=
  match o (Lookup id) with
  | Found status fenced => if fenced || negb (open_status status) then Some (TenantWritesFenced id status) else None
  | NoRows => Some (TenantWritesFenced id (str "absent"))
  | _ => None
  end.

Definition unverifiable (id : gostring) : Prop := match o (Lookup id) with Found _ _ | NoRows => False | _ => True end.

Context {T : Type} (tenantOf : T → gostring) (rows : list T) (write : list T → prog (option error)).

Definition eligible : list T := List.filter (λ r, bool_decide (verdict (tenantOf r) = None)) rows.

(** Why a whole batch fails: an identifier in it is no UUID, the transaction, a lease or a
    lookup fails, or the backend refuses the eligible rows.  A tenant that is fenced is not
    among the reasons. *)
Inductive batch_failure : error → Prop :=
| bf_id r : r ∈ rows → validateWriterTenantID (tenantOf r) = false → batch_failure (InvalidWriterID (tenantOf r))
| bf_begin : o Begin ≠ Fine → batch_failure BeginFailed
| bf_role : o SetRole ≠ Fine → batch_failure RoleFailed
| bf_guard : o Guard ≠ Fine → batch_failure GuardFailed
| bf_lock r : r ∈ rows → o (LockShared (tenantOf r)) ≠ Fine → batch_failure LockFailed
| bf_lookup r : r ∈ rows → unverifiable (tenantOf r) → batch_failure (LookupFailed (tenantOf r))
| bf_write e : (exec o (write eligible)).1 = Some e → batch_failure e
| bf_commit : o Commit ≠ Fine → batch_failure CommitFailed.

Lemma attempt_cases c e : exec o (attempt c e) = (None, [c]) ∨ o c ≠ Fine ∧ (exec o (attempt c e)).1 = Some e.
Proof using Type. unfold attempt. rewrite exec_bind, exec_ask. cbn. destruct (o c); auto. Qed.

Lemma locks_cases ids :
  exec o (each lockTenantWriterLease ids) = (None, LockShared <$> ids) ∨
  (∃ id, id ∈ ids ∧ o (LockShared id) ≠ Fine) ∧ (exec o (each lockTenantWriterLease ids)).1 = Some LockFailed.
Proof using Type.
  induction ids as [|id ids IH]; [by left|]. cbn [each]. unfold and_then. rewrite exec_bind. change (lockTenantWriterLease id) with (attempt (LockShared id) LockFailed).
  destruct (attempt_cases (LockShared id) LockFailed) as [-> |[Hf E]].
  - cbn [fst snd]. destruct IH as [-> |[(id' & Hin & Hf) E]]; [by left|right]. split; [exists id'; split; [by right|done]|done].
  - right. split; [exists id; split; [by left|done]|]. by rewrite E.
Qed.

Definition mark_verdict (m : gmap gostring error) (id : gostring) : gmap gostring error :=
  match verdict id with Some e => <[id := e]> m | None => m end.

Lemma checks_cases ids m :
  exec o (check_each ids m) = (inr (foldl mark_verdict m ids), Lookup <$> ids) ∨
  ∃ id, id ∈ ids ∧ unverifiable id ∧ (exec o (check_each ids m)).1 = inl (LookupFailed id).
Proof using Type.
  revert m. induction ids as [|id ids IH]; intros m; [by left|]. cbn [check_each foldl]. rewrite exec_bind, exec_ask. cbn [fst snd].
  assert (Hgo : ∀ m', m' = mark_verdict m id →
    (let r := exec o (check_each ids m') in (r.1, [Lookup id] ++ r.2)) = (inr (foldl mark_verdict (mark_verdict m id) ids), Lookup <$> id :: ids) ∨
    ∃ id', id' ∈ id :: ids ∧ unverifiable id' ∧ (exec o (check_each ids m')).1 = inl (LookupFailed id')).
  { intros m' ->. destruct (IH (mark_verdict m id)) as [-> |(id' & Hin & Hu & E)]; [by left|right]. exists id'. split_and!; [by right|done|done]. }
  destruct (o (Lookup id)) as [| | |st f| |t|n k] eqn:E; cbn [fst snd];
    try (right; exists id; split_and!; [by left|unfold unverifiable; by rewrite E|done]).
  - apply Hgo. unfold mark_verdict, verdict. rewrite E. by destruct (f || negb (open_status st)).
  - apply Hgo. unfold mark_verdict, verdict. by rewrite E.
Qed.

Lemma marks_lookup ids m id : foldl mark_verdict m ids !! id = if bool_decide (id ∈ ids) then (match verdict id with Some e => Some e | None => m !! id end) else m !! id.
Proof using Type.
  revert m. induction ids as [|x ids IH]; intros m; [done|]. cbn [foldl]. rewrite IH. unfold mark_verdict at 1 2.
  destruct (decide (id = x)) as [-> |Hne].
  - rewrite (bool_decide_eq_true_2 (x ∈ x :: ids)) by left. destruct (verdict x) as [e|] eqn:E; [rewrite lookup_insert_eq; by destruct (bool_decide _)|by destruct (bool_decide _)].
  - rewrite (bool_decide_ext (id ∈ x :: ids) (id ∈ ids)) by (rewrite elem_of_cons; split; [by intros [?|?]|by right]). destruct (verdict x); [|done]. by rewrite lookup_insert_ne.
Qed.

Lemma unique_ids_cases ids u :
  unique_ids (λ id, id) ids u = inr (list_to_set ids ∪ u) ∨
  ∃ id, id ∈ ids ∧ validateWriterTenantID id = false ∧ unique_ids (λ id, id) ids u = inl (InvalidWriterID id).
Proof using Type.
  revert u. induction ids as [|id ids IH]; intros u; cbn; [left; by rewrite (left_id_L ∅ (∪))|].
  destruct (validateWriterTenantID id) eqn:E; [|right; exists id; split_and!; [by left|done|done]].
  destruct (IH ({[id]} ∪ u)) as [-> |(id' & Hin & Hv & ->)]; [left; f_equal; rewrite (assoc_L (∪)); f_equal; by rewrite (comm_L (∪))|].
  right. exists id'. split_and!; [by right|done|done].
Qed.

(** The provider transaction fails as a whole, or runs the callback between its calls. *)
Lemma InProvider_cases {S} guarded (s : S) (fn : prog (option error * S)) :
  (∃ e, (exec o (InProvider guarded s fn)).1.1 = Some e ∧
     (batch_failure e ∨ (exec o fn).1.1 = Some e)) ∨
  (exec o fn).1.1 = None ∧
  exec o (InProvider guarded s fn) = ((None, (exec o fn).1.2), (Begin :: SetRole :: (if guarded then [Guard] else [])) ++ (exec o fn).2 ++ [Commit; Rollback]).
Proof using Type.
  assert (HB : exec o (BeginProvider guarded) = (None, Begin :: SetRole :: (if guarded then [Guard] else [])) ∨
               ∃ e, (exec o (BeginProvider guarded)).1 = Some e ∧ batch_failure e).
  { unfold BeginProvider, and_then. rewrite exec_bind. destruct (attempt_cases Begin BeginFailed) as [-> |[Hf E]].
    2:{ right. exists BeginFailed. rewrite E. split; [done|by apply bf_begin]. }
    cbn [fst snd]. rewrite exec_bind. destruct (attempt_cases SetRole RoleFailed) as [-> |[Hf E]].
    2:{ right. exists RoleFailed. rewrite E. split; [done|by apply bf_role]. }
    cbn [fst snd]. destruct guarded; [|by left]. rewrite exec_bind. destruct (attempt_cases Guard GuardFailed) as [-> |[Hf E]]; [by left|].
    right. exists GuardFailed. rewrite E. split; [done|by apply bf_guard]. }
  unfold InProvider. rewrite exec_bind. destruct HB as [-> |(e & E & He)]; [|left; exists e; rewrite E; split; [done|by left]].
  cbn [fst snd]. rewrite exec_bind. destruct (exec o fn) as [[[e|] s'] calls]; cbn [fst snd]; [left; exists e; split; [done|by right]|].
  rewrite exec_bind. destruct (attempt_cases Commit CommitFailed) as [-> |[Hf E]]; [by right|].
  left. exists CommitFailed. rewrite E. split; [done|]. left. by apply bf_commit.
Qed.

(** A partitioned write fails as a whole for a reason that concerns the whole batch, or gives
    every tenant of it its own verdict and writes exactly the rows of the tenants that may. *)
Lemma partition_cases (guarded : bool) (missing : error) :
  rows ≠ [] → (∀ r, r ∈ rows → tenantOf r ≠ []) →
  let p := PartitionedFencedWrite tenantOf (Some (PostgresFence true guarded)) rows missing write in
  (∃ e, (exec o p).1 = (∅, Some e) ∧ batch_failure e) ∨
  ∃ m distinct,
    exec o p = ((m, None), (Begin :: SetRole :: (if guarded then [Guard] else [])) ++
                           ((LockShared <$> distinct) ++ (Lookup <$> distinct) ++ (exec o (write eligible)).2) ++ [Commit; Rollback]) ∧
    (∀ id, id ∈ distinct ↔ id ∈ tenantOf <$> rows) ∧
    ∀ id, m !! id = if bool_decide (id ∈ tenantOf <$> rows) then verdict id else None.
Proof using Type.
  intros Hne Hid p. unfold p, PartitionedFencedWrite. rewrite bool_decide_false by done.
  assert (Et : tenants_of tenantOf rows = Some (tenantOf <$> rows)).
  { clear -Hid. induction rows as [|r l IH]; [done|]. cbn. rewrite bool_decide_false by (apply Hid; by left). rewrite IH; [done|]. intros r' Hr. apply Hid. by right. }
  rewrite Et. unfold WithPartitionedTenantWrites. cbn [negb]. set (ids := tenantOf <$> rows) in *. rewrite exec_bind.
  assert (Hin : ∀ id, id ∈ ids → ∃ r, r ∈ rows ∧ id = tenantOf r) by (intros id; unfold ids; rewrite list_elem_of_fmap; naive_solver).
  unfold distinctWriterTenantIDs. destruct (unique_ids_cases ids ∅) as [-> |(id & (r & Hr & ->)%Hin & Hv & ->)].
  2:{ left. eexists. split; [done|]. by apply bf_id. }
  rewrite (right_id_L ∅ (∪)). set (distinct := sorted_keys (list_to_set ids)).
  assert (Hd : ∀ id, id ∈ distinct ↔ id ∈ ids) by (intros id; unfold distinct; by rewrite elem_of_sorted_keys, elem_of_list_to_set).
  destruct distinct as [|d ds] eqn:Ed.
  { destruct rows as [|r l]; [done|]. destruct (not_elem_of_nil (tenantOf r)). apply Hd. by left. }
  rewrite <- Ed in *. set (fn := (e ← each lockTenantWriterLease distinct; _)). set (m := foldl mark_verdict ∅ distinct).
  assert (Hm : ∀ id, m !! id = if bool_decide (id ∈ ids) then verdict id else None).
  { intros id. unfold m. rewrite marks_lookup, lookup_empty, (bool_decide_ext _ _ (Hd id)). by destruct (bool_decide _), (verdict id). }
  assert (Hel : (if bool_decide (size m = 0%nat) then rows else eligible_rows tenantOf m rows) = eligible).
  { assert (E : eligible_rows tenantOf m rows = eligible).
    { apply filter_ext_in. intros r Hr%list_elem_of_In. rewrite Hm, bool_decide_true by (by apply list_elem_of_fmap_2). by destruct (verdict _). }
    case_bool_decide as Hs; [|done]. rewrite <- E. apply map_size_empty_inv in Hs. rewrite Hs. unfold eligible_rows. clear.
    induction rows as [|r l IH]; [done|]. cbn. by rewrite <- IH. }
  assert (Hfn : (∃ e, (exec o fn).1.1 = Some e ∧ batch_failure e) ∨
    exec o fn = ((None, m), (LockShared <$> distinct) ++ (Lookup <$> distinct) ++ (exec o (write eligible)).2)).
  { unfold fn. rewrite exec_bind. destruct (locks_cases distinct) as [-> |[(id & (r & Hr & ->)%Hd%Hin & Hf) E]].
    2:{ left. exists LockFailed. rewrite E. split; [done|]. by eapply bf_lock. }
    cbn [fst snd]. rewrite exec_bind. destruct (checks_cases distinct ∅) as [-> |(id & (r & Hr & ->)%Hd%Hin & Hu & E)].
    2:{ left. eexists. rewrite E. split; [done|]. by apply bf_lookup. }
    cbn [fst snd]. fold m. rewrite Hel, exec_bind. destruct (exec o (write eligible)) as [[e|] calls] eqn:E; cbn [fst snd exec].
    - left. exists e. split; [done|]. apply bf_write. by rewrite E.
    - right. cbn. by rewrite app_nil_r. }
  destruct (InProvider_cases guarded (∅ : gmap gostring error) fn) as [(e & E & He)|[E1 E2]].
  - left. exists e. rewrite E. split; [done|]. destruct He as [|He]; [done|]. destruct Hfn as [(e' & E' & He')|E']; [congruence|by rewrite E' in He].
  - destruct Hfn as [(e' & E' & He')|E']; [congruence|]. right. exists m, distinct. rewrite E2, E'. cbn [fst snd exec]. rewrite app_nil_r. done.
Qed.

End Cases.

(** ** Examples *)

Definition demo_a : gostring := str "aaaaaaaa-0000-4000-8000-000000000001".
Definition demo_A : gostring := str "AAAAAAAA-0000-4000-8000-000000000001".
Definition demo_b : gostring := str "bbbbbbbb-0000-4000-8000-000000000002".

Definition demo_reg : gmap gostring Row := <[demo_a := mkRow (str "active") None]> {[demo_b := mkRow (str "suspended") None]}.

(** A writer of tenant a, its erasure, and a later batch of both tenants. *)
Definition demo_jobs : gmap nat (prog (option error)) :=
  <[0%nat := r ← FencedWrite (λ x, x) (Some (PostgresFence true false)) [demo_A] MissingTenant tt (e ← backend ((λ x, x) <$> [demo_A]); mret (e, tt)); mret r.1]>
  (<[1%nat := fenceTenantAuditWrites false demo_A]>
   {[2%nat := r ← PartitionedFencedWrite (λ x, x) (Some (PostgresFence true false)) [demo_a; demo_b] MissingTenant (λ rows, backend ((λ x, x) <$> rows)); mret r.2]}).

Definition demo_start : Sys := mkSys demo_jobs [].

Definition active : answer := Found (str "active") false.

Definition demo_write : list (nat * answer + event) := inl <$> [(0, Fine); (0, Fine); (0, Fine); (0, active); (0, Fine)]%nat.
Definition demo_erase : list (nat * answer + event) :=
  inl <$> [(1, Fine); (1, Fine); (1, Text demo_a); (1, Fine); (1, Fine); (1, active); (1, Affected 1 5); (1, Fine); (1, Fine); (1, Failed)]%nat.
Definition demo_finish : list (nat * answer + event) := inl <$> [(0, Fine); (0, Fine); (0, Failed)]%nat.
Definition demo_late : list (nat * answer + event) :=
  inl <$> [(2, Fine); (2, Fine); (2, Fine); (2, Fine); (2, Found (str "offboarding") true); (2, Found (str "suspended") false); (2, Fine)]%nat.

Definition played (lasting : bool) (sched : list (nat * answer + event)) (s : Sys) : Sys := default s (play demo_reg lasting sched s).

Definition playable (lasting : bool) (sched : list (nat * answer + event)) (s : Sys) : bool :=
  match play demo_reg lasting sched s with Some _ => true | None => false end.

Lemma played_steps lasting sched s : playable lasting sched s = true → rtc (step (simple_db demo_reg lasting)) s (played lasting sched s).
Proof. unfold playable, played. intros H. apply play_steps with sched. by destruct (play demo_reg lasting sched s). Qed.

Definition demo_erased : Sys := played true (demo_write ++ demo_finish ++ demo_erase) demo_start.
Definition demo_later : Sys := played true demo_late demo_erased.

Lemma demo_jobs_ok i p : demo_jobs !! i = Some p → job p.
Proof.
  unfold demo_jobs. intros [[_ <-]|[_ [[_ <-]|[_ [_ <-]%lookup_singleton_Some]]%lookup_insert_Some]]%lookup_insert_Some;
  [apply (job_write gostring)|apply job_erase|apply (job_partition gostring)].
Qed.

Lemma demo_reg_ok : registry_ok demo_reg.
Proof. unfold demo_reg. by intros x row [[_ <-]|[_ [_ <-]%lookup_singleton_Some]]%lookup_insert_Some. Qed.

Lemma demo_fenced : fenced_tenant (view lower simple_hash demo_reg (history demo_erased)) demo_a.
Proof. eexists. split; [vm_compute; reflexivity|done]. Qed.

Lemma erasure_barrier_witness :
  writing (view lower simple_hash demo_reg (history demo_later)) = [(2%nat, [demo_b])] ∧
  ¬ writes_for lower (view lower simple_hash demo_reg (history demo_later)) demo_a.
Proof.
  split; [vm_compute; reflexivity|].
  apply (erasure_barrier lower simple_hash demo_reg (simple_db demo_reg true) (simple_lasting demo_reg true eq_refl) demo_jobs demo_erased demo_later demo_a).
  - exact demo_jobs_ok.
  - exact demo_reg_ok.
  - apply played_steps. vm_compute. reflexivity.
  - exact demo_fenced.
  - apply played_steps. vm_compute. reflexivity.
Defined.

(** The lease is only as good as its session: when the server or the network ends the session
    of a writer during its write, the lock goes with it, erasure does not wait, and the write goes
    on after the tenant's erasure mark is committed. *)
Theorem broken_lease_leaks :
  ∃ s, rtc (step (simple_db demo_reg false)) demo_start s ∧
       fenced_tenant (view lower simple_hash demo_reg (history s)) demo_a ∧
       writes_for lower (view lower simple_hash demo_reg (history s)) demo_a.
Proof.
  exists (played false (demo_write ++ [inr (Killed 0)] ++ demo_erase) demo_start). split_and!.
  - apply played_steps. vm_compute. reflexivity.
  - eexists. split; [vm_compute; reflexivity|done].
  - exists 0%nat, [demo_A], demo_A. split_and!; [|by left|vm_compute; reflexivity]. apply list_elem_of_In. vm_compute. by left.
Qed.

Definition demo_oracle (reg : gmap gostring Row) (commit : answer) (c : call) : answer :=
  match c with
  | Lookup id => match reg !! lower id with
                 | Some r => Found (status r) (bool_decide (audit_write_fenced_at r ≠ None))
                 | None => NoRows
                 end
  | Commit => commit
  | _ => Fine
  end.

Definition demo_rows : list (gostring * Z) := [(demo_a, 1); (demo_b, 2); (demo_a, 3); (demo_A, 4)].
Definition demo_marked : gmap gostring Row := <[demo_b := mkRow (str "offboarding") (Some 5)]> demo_reg.

Lemma partition_exact_witness :
  ∃ m distinct,
    exec (demo_oracle demo_marked Fine)
      (PartitionedFencedWrite fst (Some (PostgresFence true false)) demo_rows MissingTenant (λ rows, backend (fst <$> rows))) =
      ((m, None), [Begin; SetRole] ++ ((LockShared <$> distinct) ++ (Lookup <$> distinct) ++
                   [StartWrite [demo_a; demo_a; demo_A]; FinishWrite [demo_a; demo_a; demo_A]]) ++ [Commit; Rollback]) ∧
    m !! demo_b = Some (TenantWritesFenced demo_b (str "offboarding")).
Proof.
  destruct (partition_exact lower demo_marked (demo_oracle demo_marked Fine) ltac:(by split) fst false demo_rows MissingTenant (λ rows, backend (fst <$> rows)))
    as (m & distinct & E & _ & Hm).
  - done.
  - repeat constructor.
  - vm_compute. reflexivity.
  - exists m, distinct. split; [rewrite E; reflexivity|]. rewrite Hm. vm_compute. reflexivity.
Defined.

(** A topology mutation whose commit fails is logged as dropped, and has landed. *)
Example dropped_mutation_lands :
  (exec (demo_oracle demo_reg Failed) (mutate (Some (PostgresFence true false)) demo_a (λ n, n + 1) 41)).1 = (Some CommitFailed, 42).
Proof. vm_compute. reflexivity. Qed.

End WriterFence.
