(* ===== verification/TsdbBatch.v ===== *)
(** * Coalesced time-series writes

    The writer that merges concurrent writes into batches of bounded size and gives every
    caller the outcome of its own series (internal/store/tsdb/batching.go), the validation of
    series (tsdb.go) and the fenced writer under it (write_fence.go).

    Goroutines are threads that interleave; a critical section of the mutex [mu] is one
    step, the mutex [flushMu], held across the call of the backend, is part of the state.
    What the backend answers, when a timer fires and when a caller's context ends is up to
    the environment. *)
From S2P Require Import Prelude GoString PromEval WriterFence.
#[local] Open Scope Z_scope.

Module TsdbBatch.

Import PromEval.

Abbreviation Series := PromEval.Series.
Abbreviation prog := WriterFence.prog.

Inductive error :=
| TenantRequired (i : nat) (metric : gostring)
| GlobalTenantLabel (i : nat) (metric : gostring)
| ErrGlobalWriterUnsupported
| BatchingWriterClosed
| ContextDone
| Backend (e : WriterFence.error).

(** ** Validation *)

Definition TenantLabel : gostring := str "tenant_id".

(** s.Labels[TenantLabel]: the empty string when there is none. *)
Definition tenant_of (s : Series) : gostring := default [] (sr_Labels s !! TenantLabel).

Fixpoint validate_tenants (i : nat) (series : list Series) : option error :=
  match series with
  | [] => None
  | s :: series =>
      if bool_decide (TrimSpace (tenant_of s) = []) then Some (TenantRequired i (sr_Metric s)) else validate_tenants (S i) series
  end.

Definition ValidateTenantSeries (series : list Series) : option error := validate_tenants 0 series.

Fixpoint validate_global (i : nat) (series : list Series) : option error :=
  match series with
  | [] => None
  | s :: series =>
      match sr_Labels s !! TenantLabel with
      | Some _ => Some (GlobalTenantLabel i (sr_Metric s))
      | None => validate_global (S i) series
      end
  end.

Definition ValidateGlobalSeries (series : list Series) : option error := validate_global 0 series.

(** ** The fenced writer *)

#[local] Existing Instances WriterFence.prog_ret WriterFence.prog_mbind.

Section Fenced.

Context (f : option WriterFence.fence) (next : list Series → prog (option WriterFence.error)).

Definition wrapped (e : option WriterFence.error) : option error := Backend <$> e.

(** writeFencedWriter.Write. *)
Definition fenced_Write (series : list Series) : prog (option error) :=
  if bool_decide (series = []) then mret None
  else match ValidateTenantSeries series with
  | Some e => mret (Some e)
  | None =>
      r ← WriterFence.FencedWrite tenant_of f series WriterFence.MissingTenant tt (e ← next series; mret (e, tt));
      mret (wrapped r.1)
  end.

(** The map of the refused tenants, and the failure of the whole batch. *)
Definition WritePartitioned (series : list Series) : prog (gmap gostring error * option error) :=
  if bool_decide (series = []) then mret (∅, None)
  else match ValidateTenantSeries series with
  | Some e => mret (∅, Some e)
  | None =>
      r ← WriterFence.PartitionedFencedWrite tenant_of f series WriterFence.MissingTenant
            (λ eligible, if bool_decide (eligible = []) then mret None else next eligible);
      mret (Backend <$> (r.1 : gmap gostring WriterFence.error), wrapped r.2)
  end.

(** [partitioned] is whether the writer is the fenced one. *)
Definition WritePerTenant (partitioned : bool) (series : list Series) : prog (gmap gostring error * option error) :=
  if partitioned then WritePartitioned series
  else e ← next series; mret (∅, wrapped e).

(** The package's WriteGlobal: [present] is whether there is a writer, [supports] whether it
    takes global series. *)
Definition global_write (present supports : bool) (series : list Series) : prog (option error) :=
  if bool_decide (series = []) || negb present then mret None
  else if supports then e ← next series; mret (wrapped e)
  else mret (Some ErrGlobalWriterUnsupported).

(** writeFencedWriter.WriteGlobal. *)
Definition fenced_WriteGlobal (supports : bool) (series : list Series) : prog (option error) :=
  if bool_decide (series = []) then mret None
  else match ValidateGlobalSeries series with
  | Some e => mret (Some e)
  | None => global_write true supports series
  end.

End Fenced.

(** Writers and the decorators around them. *)
Inductive stack := RawWriter | FencedWriter (next : stack) | BatchedWriter (w : stack).

Fixpoint HasTenantWriteFence (w : stack) : bool :=
  match w with FencedWriter _ => true | BatchedWriter w => HasTenantWriteFence w | RawWriter => false end.

Fixpoint WithTenantWriteFence (w : stack) : stack :=
  if HasTenantWriteFence w then w
  else match w with BatchedWriter w => BatchedWriter (WithTenantWriteFence w) | w => FencedWriter w end.

Fixpoint UnderlyingWriter (w : stack) : stack :=
  match w with FencedWriter w | BatchedWriter w => UnderlyingWriter w | RawWriter => RawWriter end.

(** The fence goes around the innermost write, once. *)
Lemma fence_installed w :
  HasTenantWriteFence (WithTenantWriteFence w) = true ∧ UnderlyingWriter (WithTenantWriteFence w) = UnderlyingWriter w ∧
  WithTenantWriteFence (WithTenantWriteFence w) = WithTenantWriteFence w.
Proof.
  assert (H : HasTenantWriteFence (WithTenantWriteFence w) = true).
  { induction w as [| |w IH]; cbn; try done. destruct (HasTenantWriteFence w) eqn:E; cbn; [done|]. exact IH. }
  split_and!; [exact H| |].
  - induction w as [| |w IH]; cbn; try done. destruct (HasTenantWriteFence w) eqn:E; cbn; [done|]. apply IH. clear IH H.
    induction w as [| |w IH]; cbn in *; try done. rewrite E. cbn. by apply IH.
  - destruct (WithTenantWriteFence w); cbn in *; [done|done|by rewrite H].
Qed.

(** ** The batching writer *)

Record flushResult := mkResult { fr_fenced : gmap gostring error; fr_err : option error }.

Fixpoint own_refusal (fenced : gmap gostring error) (chunk : list Series) : option error :=
  match chunk with
  | [] => None
  | s :: chunk => match fenced !! tenant_of s with Some e => Some e | None => own_refusal fenced chunk end
  end.

Definition resultFor (r : flushResult) (chunk : list Series) : option error :=
  match (if 0 <? Z.of_nat (size (fr_fenced r)) then own_refusal (fr_fenced r) chunk else None) with
  | Some e => Some e
  | None => fr_err r
  end.

(** Where a goroutine is.  [FlushThen k] is about to take flushMu in flush and goes on at
    [k], [FlushLocked] holds it, [Flushing] holds it and has the batch at the backend. *)
Inductive pc :=
| Enter (rest : list Series)
| FlushThen (k : pc)
| FlushLocked (k : pc)
| Flushing (b : nat) (series : list Series) (k : pc)
| Await (b : nat) (chunk rest : list Series)
| Global (series : list Series)
| GlobalWriting (series : list Series)
| CloseStart
| CloseDrain
| CloseFlushing (b : nat) (series : list Series)
| CloseBackend
| Returned (e : option error).

(** What the run has done to the backend and to the queue. *)
Inductive label :=
| Joined (i b : nat) (chunk : list Series)
| Flushed (b : nat) (series : list Series) (r : flushResult)
| WroteGlobal (series : list Series)
| ClosedBackend.

Record BatchingWriter := mkWriter {
  maxSeries : Z;
  globalWriter : bool;                   (* the backend takes global series *)
  pending : list Series;
  batch : option nat;                    (* the open batch *)
  timer : bool;                          (* its timer is set and has not fired *)
  closed : bool;
  closeErr : option error;
  flushMu : option nat;                  (* the goroutine that holds it *)
  results : gmap nat flushResult;        (* the batches whose done channel is closed *)
  fresh : nat;                           (* the next batch *)
  cancelled : gset nat;                  (* the calls whose context has ended *)
  trace : list label
}.

#[export] Instance eta_BatchingWriter : Eta BatchingWriter :=
  λ w, mkWriter (maxSeries w) (globalWriter w) (pending w) (batch w) (timer w) (closed w) (closeErr w) (flushMu w) (results w) (fresh w) (cancelled w) (trace w).

Definition NewBatchingWriter (maxSeries : Z) (globalWriter : bool) : BatchingWriter :=
  mkWriter (if maxSeries <=? 0 then 500 else maxSeries) globalWriter [] None false false None None ∅ 0 ∅ [].

(** A call of Write, WriteGlobal or Close, and the timer's goroutine. *)
Definition Write (series : list Series) : pc :=
  if bool_decide (series = []) then Returned None
  else match ValidateTenantSeries series with
  | Some e => Returned (Some e)
  | None => Enter series
  end.

Definition WriteGlobal (series : list Series) : pc :=
  if bool_decide (series = []) then Returned None
  else match ValidateGlobalSeries series with
  | Some e => Returned (Some e)
  | None => Global series
  end.

Definition Close : pc := CloseStart.
Definition flush : pc := FlushThen (Returned None).

(** The critical section of an iteration of Write. *)
Definition join (i : nat) (series : list Series) (w : BatchingWriter) : BatchingWriter * pc :=
  if closed w then (w, Returned (Some BatchingWriterClosed))
  else
    let w := match batch w with Some _ => w | None => w <| batch := Some (fresh w) |> <| timer := true |> <| fresh := S (fresh w) |> end in
    let b := default O (batch w) in
    let room := maxSeries w - len (pending w) in
    if room <=? 0 then (w, FlushThen (Enter series))
    else
      let n := Z.to_nat (Z.min (len series) room) in
      let chunk := take n series in
      let w := w <| pending := pending w ++ chunk |> <| trace := trace w ++ [Joined i b chunk] |> in
      let k := Await b chunk (drop n series) in
      (w, if maxSeries w <=? len (pending w) then FlushThen k else k).

(** The critical section of flushLocked, when there is a batch. *)
Definition take_batch (w : BatchingWriter) : BatchingWriter := w <| pending := [] |> <| batch := None |> <| timer := false |>.

(** The backend has answered: close(batch.done). *)
Definition settle (b : nat) (series : list Series) (r : flushResult) (w : BatchingWriter) : BatchingWriter :=
  w <| results := <[b := r]> (results w) |> <| trace := trace w ++ [Flushed b series r] |>.

Definition next_round (r : flushResult) (chunk rest : list Series) : pc :=
  match resultFor r chunk with
  | Some e => Returned (Some e)
  | None => if bool_decide (rest = []) then Returned None else Enter rest
  end.

(** What the environment brings to a step. *)
Inductive choice :=
| Go
| Answer (r : flushResult)
| Cancel.

(** One step of goroutine [i] in Write; [None] when it has to wait. *)
Definition write_step (i : nat) (p : pc) (c : choice) (w : BatchingWriter) : option (BatchingWriter * pc) :=
  match p, c with
  | Enter series, Go => Some (join i series w)
  | Await b chunk rest, Go =>
      match results w !! b with
      | Some r => Some (w, next_round r chunk rest)
      | None => None
      end
  | Await b _ _, Cancel => Some (w <| cancelled := {[i]} ∪ cancelled w |>, Returned (Some ContextDone))
  | _, _ => None
  end.

(** In flush and flushLocked. *)
Definition flush_step (i : nat) (p : pc) (c : choice) (w : BatchingWriter) : option (BatchingWriter * pc) :=
  match p, c with
  | FlushThen k, Go =>
      match flushMu w with
      | Some _ => None
      | None => Some (w <| flushMu := Some i |>, FlushLocked k)
      end
  | FlushLocked k, Go =>
      match batch w with
      | None => Some (w <| flushMu := None |>, k)
      | Some b => Some (take_batch w, Flushing b (pending w) k)
      end
  | Flushing b series k, Answer r => Some (settle b series r (w <| flushMu := None |>), k)
  | _, _ => None
  end.

(** In WriteGlobal. *)
Definition global_step (i : nat) (p : pc) (c : choice) (w : BatchingWriter) : option (BatchingWriter * pc) :=
  match p, c with
  | Global series, Go =>
      match flushMu w with
      | Some _ => None
      | None =>
          if closed w then Some (w, Returned (Some BatchingWriterClosed))
          else if globalWriter w then Some (w <| flushMu := Some i |>, GlobalWriting series)
          else Some (w, Returned (Some ErrGlobalWriterUnsupported))
      end
  | GlobalWriting series, Answer r => Some (w <| flushMu := None |> <| trace := trace w ++ [WroteGlobal series] |>, Returned (fr_err r))
  | _, _ => None
  end.

(** In Close. *)
Definition close_step (i : nat) (p : pc) (c : choice) (w : BatchingWriter) : option (BatchingWriter * pc) :=
  match p, c with
  | CloseStart, Go =>
      match flushMu w with
      | Some _ => None
      | None =>
          if closed w then Some (w, Returned (closeErr w))
          else Some (w <| flushMu := Some i |> <| closed := true |>, CloseDrain)
      end
  | CloseDrain, Go =>
      match batch w with
      | None => Some (w, CloseBackend)
      | Some b => Some (take_batch w, CloseFlushing b (pending w))
      end
  | CloseFlushing b series, Answer r => Some (settle b series r w, CloseBackend)
  | CloseBackend, Answer r =>
      Some (w <| closeErr := fr_err r |> <| flushMu := None |> <| trace := trace w ++ [ClosedBackend] |>, Returned (fr_err r))
  | _, _ => None
  end.

Definition advance (i : nat) (p : pc) (c : choice) (w : BatchingWriter) : option (BatchingWriter * pc) :=
  match p with
  | Enter _ | Await _ _ _ => write_step i p c w
  | FlushThen _ | FlushLocked _ | Flushing _ _ _ => flush_step i p c w
  | Global _ | GlobalWriting _ => global_step i p c w
  | CloseStart | CloseDrain | CloseFlushing _ _ | CloseBackend => close_step i p c w
  | Returned _ => None
  end.

(** ** Goroutines *)

Inductive request := AskWrite (series : list Series) | AskGlobal (series : list Series) | AskClose | TimerFlush.

Definition start (q : request) : pc :=
  match q with AskWrite series => Write series | AskGlobal series => WriteGlobal series | AskClose => Close | TimerFlush => flush end.

Record Sys := mkSys { writer : BatchingWriter; threads : gmap nat (request * pc) }.

(** A new goroutine; the timer of the open batch fires; a goroutine goes on. *)
Inductive action := Spawn (i : nat) (q : request) | Fire (i : nat) | Run (i : nat) (c : choice).

Definition act (a : action) (s : Sys) : option Sys :=
  match a with
  | Spawn i q => match threads s !! i with Some _ => None | None => Some (mkSys (writer s) (<[i := (q, start q)]> (threads s))) end
  | Fire i =>
      match threads s !! i with
      | Some _ => None
      | None => if timer (writer s) then Some (mkSys ((writer s) <| timer := false |>) (<[i := (TimerFlush, flush)]> (threads s))) else None
      end
  | Run i c =>
      match threads s !! i with
      | None => None
      | Some (q, p) => match advance i p c (writer s) with Some (w, p') => Some (mkSys w (<[i := (q, p')]> (threads s))) | None => None end
      end
  end.

Definition step (s s' : Sys) : Prop := ∃ a, act a s = Some s'.

Fixpoint acts (l : list action) (s : Sys) : option Sys :=
  match l with
  | [] => Some s
  | a :: l => match act a s with Some s => acts l s | None => None end
  end.

Lemma acts_steps l s s' : acts l s = Some s' → rtc step s s'.
Proof.
  revert s. induction l as [|a l IH]; intros s; cbn; [by intros [= <-]|].
  destruct (act a s) as [s1|] eqn:E; [|done]. intros H. eapply rtc_l; [by exists a|by apply IH].
Qed.

(** ** What a batch holds *)

(** The chunks that joined batch [b], in order. *)
Definition content (b : nat) (t : list label) : list Series :=
  concat (map (λ l, match l with Joined _ b' chunk => if bool_decide (b' = b) then chunk else [] | _ => [] end) t).

(** The chunks goroutine [i] has put into batches, in order. *)
Definition sent (i : nat) (t : list label) : list Series :=
  concat (map (λ l, match l with Joined i' _ chunk => if bool_decide (i' = i) then chunk else [] | _ => [] end) t).

(** The flushes of batch [b]. *)
Definition flushes (b : nat) (t : list label) : list (list Series * flushResult) :=
  omap (λ l, match l with Flushed b' series r => if bool_decide (b' = b) then Some (series, r) else None | _ => None end) t.

(** Batch [b] is at the backend with [series]. *)
Definition at_backend (p : pc) : option (nat * list Series) :=
  match p with Flushing b series _ | CloseFlushing b series => Some (b, series) | _ => None end.

(** The goroutine holds flushMu. *)
Definition locks_flush (p : pc) : bool :=
  match p with FlushLocked _ | Flushing _ _ _ | GlobalWriting _ | CloseDrain | CloseFlushing _ _ | CloseBackend => true | _ => false end.

(** A goroutine that will take the open batch once it has flushMu. *)
Definition flusher (p : pc) : bool := match p with FlushThen _ | FlushLocked _ => true | _ => false end.

(** Nothing of a call of Write is left to do for the goroutine. *)
Fixpoint quiet (p : pc) : Prop :=
  match p with
  | Enter _ | Await _ _ _ => False
  | FlushThen k | FlushLocked k | Flushing _ _ k => quiet k
  | _ => True
  end.

(** The outcome of a chunk that joined batch [b] is known, and is [e]. *)
Definition outcome (w : BatchingWriter) (b : nat) (chunk : list Series) (e : option error) : Prop :=
  ∃ r, results w !! b = Some r ∧ resultFor r chunk = e.

Definition stored (w : BatchingWriter) (i : nat) : Prop := ∀ b chunk, Joined i b chunk ∈ trace w → outcome w b chunk None.

(** Why a call of Write may fail: the writer is closed, its context has ended, its series are
    not valid, or that is what a chunk of its own came to. *)
Definition fault (w : BatchingWriter) (i : nat) (input : list Series) (e : error) : Prop :=
  e = BatchingWriterClosed ∧ closed w = true ∨ e = ContextDone ∧ i ∈ cancelled w ∨ ValidateTenantSeries input = Some e ∨
  ∃ b chunk, Joined i b chunk ∈ trace w ∧ outcome w b chunk (Some e).

Fixpoint caller (w : BatchingWriter) (i : nat) (input : list Series) (p : pc) : Prop :=
  match p with
  | Enter rest => rest ≠ [] ∧ input = sent i (trace w) ++ rest ∧ stored w i
  | Await b chunk rest =>
      input = sent i (trace w) ++ rest ∧ Joined i b chunk ∈ trace w ∧
      ∀ b' chunk', Joined i b' chunk' ∈ trace w → (b', chunk') = (b, chunk) ∨ outcome w b' chunk' None
  | FlushThen k | FlushLocked k | Flushing _ _ k => caller w i input k
  | Returned None => input = sent i (trace w) ∧ stored w i
  | Returned (Some e) => (∃ rest, input = sent i (trace w) ++ rest) ∧ fault w i input e
  | _ => False
  end.

(** A flush is followed by a wait, a new round or the end of the call. *)
Definition shape (p : pc) : Prop :=
  match p with
  | FlushThen k | FlushLocked k | Flushing _ _ k => match k with Enter _ | Await _ _ _ | Returned _ => True | _ => False end
  | _ => True
  end.

Definition thread_ok (w : BatchingWriter) (i : nat) (q : request) (p : pc) : Prop :=
  shape p ∧
  match q with
  | AskWrite input => caller w i input p
  | _ => sent i (trace w) = [] ∧ (∀ b chunk, Joined i b chunk ∉ trace w) ∧ quiet p
  end.

(** ** The invariant *)

Definition batch_ok (s : Sys) (b : nat) : Prop :=
  let w := writer s in
  if bool_decide (b < fresh w)%nat then
    0 < len (content b (trace w)) ≤ maxSeries w ∧
    match results w !! b with
    | Some r => batch w ≠ Some b ∧ flushes b (trace w) = [(content b (trace w), r)]
    | None =>
        flushes b (trace w) = [] ∧
        (batch w = Some b ∨ ∃ i q p, threads s !! i = Some (q, p) ∧ at_backend p = Some (b, content b (trace w)))
    end
  else content b (trace w) = [] ∧ flushes b (trace w) = [] ∧ results w !! b = None.

Record inv (s : Sys) : Prop := {
  v_max : 0 < maxSeries (writer s);
  v_open : match batch (writer s) with
           | Some b => (b < fresh (writer s))%nat ∧ pending (writer s) = content b (trace (writer s)) ∧ results (writer s) !! b = None
           | None => pending (writer s) = []
           end;
  v_batches b : batch_ok s b;
  v_backend i q p b series : threads s !! i = Some (q, p) → at_backend p = Some (b, series) →
    (b < fresh (writer s))%nat ∧ batch (writer s) ≠ Some b ∧ results (writer s) !! b = None ∧ series = content b (trace (writer s));
  v_holder i q p : threads s !! i = Some (q, p) → locks_flush p = true ↔ flushMu (writer s) = Some i;
  v_held i : flushMu (writer s) = Some i → is_Some (threads s !! i);
  v_threads i q p : threads s !! i = Some (q, p) → thread_ok (writer s) i q p;
  v_absent i b chunk : threads s !! i = None → Joined i b chunk ∉ trace (writer s);
  v_joined i b chunk : Joined i b chunk ∈ trace (writer s) → (b < fresh (writer s))%nat
}.

(** ** What a step leaves to the other goroutines *)

Lemma content_snoc b t l : content b (t ++ [l]) = content b t ++ content b [l].
Proof. unfold content. by rewrite map_app, concat_app. Qed.

Lemma sent_snoc i t l : sent i (t ++ [l]) = sent i t ++ sent i [l].
Proof. unfold sent. by rewrite map_app, concat_app. Qed.

Lemma flushes_snoc b t l : flushes b (t ++ [l]) = flushes b t ++ flushes b [l].
Proof. unfold flushes. by rewrite omap_app. Qed.

(** Results stay, nothing is reopened, and goroutine [j] joined nothing more. *)
Definition grows (w w' : BatchingWriter) : Prop := (closed w = true → closed w' = true) ∧ cancelled w ⊆ cancelled w'.

Record keeps (j : nat) (w w' : BatchingWriter) : Prop := {
  k_results b r : results w !! b = Some r → results w' !! b = Some r;
  k_grows : grows w w';
  k_sent : sent j (trace w') = sent j (trace w);
  k_joined b chunk : Joined j b chunk ∈ trace w' ↔ Joined j b chunk ∈ trace w
}.

Lemma keeps_outcome j w w' b chunk e : keeps j w w' → outcome w b chunk e → outcome w' b chunk e.
Proof. intros Hk (r & Hr & He). exists r. split; [by apply (k_results _ _ _ Hk)|done]. Qed.

Lemma keeps_stored j w w' : keeps j w w' → stored w j → stored w' j.
Proof. intros Hk H b chunk Hin%(k_joined _ _ _ Hk). by eapply keeps_outcome, H. Qed.

Lemma keeps_fault j w w' input e : keeps j w w' → fault w j input e → fault w' j input e.
Proof.
  intros Hk [[-> H]|[[-> H]|[H|(b & chunk & Hj & Ho)]]]; [left|right; left|by right; right; left|right; right; right].
  { split; [done|]. by apply (k_grows _ _ _ Hk). }
  { split; [done|]. by apply (k_grows _ _ _ Hk). }
  exists b, chunk. split; [by apply (k_joined _ _ _ Hk)|by eapply keeps_outcome].
Qed.

Lemma keeps_caller j w w' input p : keeps j w w' → caller w j input p → caller w' j input p.
Proof.
  intros Hk. induction p as [rest|k IH|k IH|b series k IH|b chunk rest| | | | | | |[e|]]; cbn; rewrite ?(k_sent _ _ _ Hk); auto.
  - intros (H1 & H2 & H3). split_and!; [done|done|by eapply keeps_stored].
  - intros (H1 & H2 & H3). split_and!; [done|by apply (k_joined _ _ _ Hk)|].
    intros b' chunk' [?|Ho]%(k_joined _ _ _ Hk)%H3; [by left|right; by eapply keeps_outcome].
  - intros (H1 & H2). split; [done|by eapply keeps_fault].
  - intros (H1 & H2). split; [done|by eapply keeps_stored].
Qed.

Lemma keeps_thread j w w' q p : keeps j w w' → thread_ok w j q p → thread_ok w' j q p.
Proof.
  intros Hk [Hs Hq]. split; [done|]. destruct q; [by eapply keeps_caller|..]; rewrite (k_sent _ _ _ Hk);
  (destruct Hq as (H1 & H2 & H3); split_and!; [done| |done]; intros b chunk; rewrite (k_joined _ _ _ Hk); apply H2).
Qed.

(** The two histories agree on batches. *)
Record same_trace (t t' : list label) : Prop := {
  st_content b : content b t' = content b t;
  st_sent i : sent i t' = sent i t;
  st_flushes b : flushes b t' = flushes b t;
  st_joined i b chunk : Joined i b chunk ∈ t' ↔ Joined i b chunk ∈ t
}.

Lemma same_trace_refl t : same_trace t t.
Proof. by split. Qed.

Lemma same_trace_snoc t l : match l with WroteGlobal _ | ClosedBackend => True | _ => False end → same_trace t (t ++ [l]).
Proof.
  intros Hl. split; [intros b; rewrite content_snoc|intros i; rewrite sent_snoc|intros b; rewrite flushes_snoc|intros i b chunk; rewrite elem_of_app, list_elem_of_singleton];
  destruct l; try done; cbn; rewrite ?app_nil_r; naive_solver.
Qed.

Lemma keeps_refl j w w' : results w' = results w → grows w w' → same_trace (trace w) (trace w') → keeps j w w'.
Proof. intros Hr Hg Ht. split; [by rewrite Hr|done|apply Ht|apply Ht]. Qed.

Lemma grows_same w w' : closed w' = closed w → cancelled w' = cancelled w → grows w w'.
Proof. intros H1 H2. split; [by rewrite H1|by rewrite H2]. Qed.

(** ** Steps that do not touch the queue *)

(** The queue, the results and the history are the same. *)
Definition same_core (w w' : BatchingWriter) : Prop :=
  maxSeries w' = maxSeries w ∧ pending w' = pending w ∧ batch w' = batch w ∧ results w' = results w ∧ fresh w' = fresh w ∧ grows w w' ∧ same_trace (trace w) (trace w').

(** flushMu changes hands only by goroutine [i], which is then at [p]. *)
Definition lock_ok (i : nat) (p : pc) (w w' : BatchingWriter) : Prop :=
  (locks_flush p = true ↔ flushMu w' = Some i) ∧ ∀ j, j ≠ i → flushMu w' = Some j ↔ flushMu w = Some j.

Lemma holder_step s i q p w' :
  inv s → lock_ok i p (writer s) w' →
  (∀ j q' p', <[i := (q, p)]> (threads s) !! j = Some (q', p') → locks_flush p' = true ↔ flushMu w' = Some j) ∧
  ∀ j, flushMu w' = Some j → is_Some (<[i := (q, p)]> (threads s) !! j).
Proof.
  intros Hi [H1 H2]. split.
  - intros j q' p' [[<- [= <- <-]]|[Hne Hj]]%lookup_insert_Some; [done|]. rewrite H2 by done. by eapply v_holder.
  - intros j Hj. destruct (decide (j = i)) as [-> | Hne]; [by rewrite lookup_insert_eq|]. rewrite lookup_insert_ne by done.
    apply (v_held _ Hi). by apply H2.
Qed.

Lemma threads_step s i q p w' :
  inv s → (∀ j, j ≠ i → keeps j (writer s) w') → thread_ok w' i q p →
  ∀ j q' p', <[i := (q, p)]> (threads s) !! j = Some (q', p') → thread_ok w' j q' p'.
Proof.
  intros Hi Hk Hp j q' p' [[<- [= <- <-]]|[Hne Hj]]%lookup_insert_Some; [done|]. eapply keeps_thread; [by apply Hk|by eapply v_threads].
Qed.

Lemma absent_step s i q p w' :
  inv s → (∀ j, j ≠ i → keeps j (writer s) w') →
  ∀ j b chunk, <[i := (q, p)]> (threads s) !! j = None → Joined j b chunk ∉ trace w'.
Proof.
  intros Hi Hk j b chunk [Hj Hne]%lookup_insert_None. rewrite (k_joined _ _ _ (Hk j ltac:(done))). by apply (v_absent _ Hi).
Qed.

(** The goroutine does not have a batch at the backend. *)
Definition idle (s : Sys) (i : nat) : Prop := ∀ q p, threads s !! i = Some (q, p) → at_backend p = None.

Lemma inv_move s i q p w' :
  inv s → idle s i → same_core (writer s) w' → at_backend p = None → lock_ok i p (writer s) w' → thread_ok w' i q p →
  inv (mkSys w' (<[i := (q, p)]> (threads s))).
Proof.
  intros Hi Hidle (E1 & E2 & E3 & E4 & E5 & Eg & E6) Hp Hl Ht.
  assert (Hk : ∀ j, j ≠ i → keeps j (writer s) w') by (intros j _; by apply keeps_refl).
  destruct (holder_step s i q p w' Hi Hl) as [Hh1 Hh2]. split; cbn [writer threads].
  - rewrite E1. apply Hi.
  - rewrite E2, E3, E4, E5. pose proof (v_open _ Hi) as Ho. destruct (batch (writer s)); [|done]. by rewrite (st_content _ _ E6).
  - intros b. pose proof (v_batches _ Hi b) as Hb. unfold batch_ok in *. cbn [writer threads]. rewrite E1, E3, E4, E5, (st_content _ _ E6), (st_flushes _ _ E6). case_bool_decide; [|done].
    destruct Hb as [Hl' Hb]. split; [done|]. destruct (results (writer s) !! b); [done|]. destruct Hb as [Hf Hb]. split; [done|].
    destruct Hb as [Hb|(j & q' & p' & Hj & Ha)]; [by left|right]. exists j, q', p'. split; [|done].
    rewrite lookup_insert_ne; [done|]. intros <-. by rewrite (Hidle _ _ Hj) in Ha.
  - intros j q' p' b series [[<- [= <- <-]]|[Hne Hj]]%lookup_insert_Some Ha; [by rewrite Hp in Ha|]. rewrite E3, E4, E5, (st_content _ _ E6). by eapply v_backend.
  - apply Hh1.
  - apply Hh2.
  - by apply threads_step.
  - apply absent_step; done.
  - rewrite E5. intros j b c Hj%(st_joined _ _ E6). by eapply v_joined.
Qed.

(** ** Joining *)

Record joined (i : nat) (w w' : BatchingWriter) (b : nat) (chunk rest : list Series) : Prop := {
  n_batch : batch w' = Some b;
  n_fresh : batch w = Some b ∧ fresh w' = fresh w ∨ batch w = None ∧ b = fresh w ∧ fresh w' = S (fresh w);
  n_pending : pending w' = pending w ++ chunk;
  n_trace : trace w' = trace w ++ [Joined i b chunk];
  n_same : maxSeries w' = maxSeries w ∧ results w' = results w ∧ flushMu w' = flushMu w;
  n_grows : grows w w';
  n_chunk : chunk ≠ [];
  n_room : len (pending w') ≤ maxSeries w
}.

Lemma join_cases i series w :
  0 < maxSeries w → (batch w = None → pending w = []) → series ≠ [] →
  (closed w = true ∧ join i series w = (w, Returned (Some BatchingWriterClosed))) ∨
  (∃ b, batch w = Some b ∧ maxSeries w ≤ len (pending w) ∧ join i series w = (w, FlushThen (Enter series))) ∨
  ∃ b w' chunk rest p, closed w = false ∧ joined i w w' b chunk rest ∧ series = chunk ++ rest ∧ join i series w = (w', p) ∧
    (p = Await b chunk rest ∨ p = FlushThen (Await b chunk rest)).
Proof.
  intros Hm Hb Hs. unfold join. destruct (closed w) eqn:Ec; [by left|]. right.
  set (w1 := match batch w with Some _ => w | None => _ end).
  assert (E : pending w1 = pending w ∧ maxSeries w1 = maxSeries w ∧ trace w1 = trace w ∧ results w1 = results w ∧ flushMu w1 = flushMu w)
    by (unfold w1; by destruct (batch w)). destruct E as (E1 & E2 & E3 & E4 & E5).
  assert (Ebatch : ∃ b, batch w1 = Some b ∧ (batch w = Some b ∧ fresh w1 = fresh w ∨ batch w = None ∧ b = fresh w ∧ fresh w1 = S (fresh w))).
  { unfold w1. destruct (batch w) as [b|] eqn:E; [exists b; rewrite E; auto|]. exists (fresh w). split; [done|right; done]. }
  destruct Ebatch as (b & Eb & Ef). rewrite Eb, E1, E2. cbn [default]. destruct (Z.leb_spec (maxSeries w - len (pending w)) 0).
  - left. destruct Ef as [[Ef _]|(Ef & _)].
    + exists b. split_and!; [done|lia|]. unfold w1. by rewrite Ef.
    + rewrite (Hb Ef) in *. unfold len in *. cbn [length] in *. lia.
  - right. set (n := Z.to_nat _). exists b, (w1 <| pending := pending w ++ take n series |> <| trace := trace w1 ++ [Joined i b (take n series)] |>), (take n series), (drop n series).
    assert (Hn : (0 < n)%nat ∧ (n ≤ length series)%nat ∧ Z.of_nat n ≤ maxSeries w - len (pending w)).
    { assert (0 < len series) by (unfold len; destruct series; [done|cbn; lia]). unfold n, len in *. lia. }
    eexists. split_and!; [done| |by rewrite take_drop|reflexivity|].
    + split; cbn; try done; [by rewrite E3|apply grows_same; unfold w1; by destruct (batch w)|by destruct series, n; try lia|]. unfold len in *. rewrite length_app, length_take. lia.
    + cbn. destruct (_ <=? _); auto.
Qed.

Lemma content_joined b0 t i b chunk : content b0 (t ++ [Joined i b chunk]) = content b0 t ++ (if bool_decide (b = b0) then chunk else []).
Proof. rewrite content_snoc. cbn. by rewrite app_nil_r. Qed.

Lemma sent_joined j t i b chunk : sent j (t ++ [Joined i b chunk]) = sent j t ++ (if bool_decide (i = j) then chunk else []).
Proof. rewrite sent_snoc. cbn. by rewrite app_nil_r. Qed.

Lemma keeps_joined i w w' b chunk rest j : joined i w w' b chunk rest → j ≠ i → keeps j w w'.
Proof.
  intros Hn Hne. destruct (n_same _ _ _ _ _ _ Hn) as (_ & Hr & _). split; rewrite ?Hr, ?(n_trace _ _ _ _ _ _ Hn); [done|apply Hn| |].
  - by rewrite sent_joined, bool_decide_false, app_nil_r.
  - intros b' c. rewrite elem_of_app, list_elem_of_singleton. naive_solver.
Qed.

Lemma joined_number s i w' b chunk rest :
  inv s → joined i (writer s) w' b chunk rest →
  (b < fresh w')%nat ∧ results (writer s) !! b = None ∧ flushes b (trace (writer s)) = [] ∧ content b (trace (writer s)) = pending (writer s) ∧
  ∀ b', b' ≠ b → batch (writer s) ≠ Some b' ∧ ((b' < fresh w')%nat ↔ (b' < fresh (writer s))%nat).
Proof.
  intros Hi Hn. pose proof (v_open _ Hi) as Ho. pose proof (v_batches _ Hi b) as Hb. unfold batch_ok in Hb.
  destruct (n_fresh _ _ _ _ _ _ Hn) as [[Eb Ef]|(Eb & -> & Ef)]; rewrite Eb in *.
  - destruct Ho as (H1 & H2 & H3). rewrite bool_decide_true, H3 in Hb by done. rewrite Ef. split_and!; [done|done|apply Hb|done|].
    intros b' Hne. split; [congruence|done].
  - rewrite bool_decide_false in Hb by lia. destruct Hb as (Hc & Hf & Hr). rewrite Hc, Ho. split_and!; [lia|done|done|done|].
    intros b' Hne. split; [done|lia].
Qed.

Lemma caller_joined i input w w' b chunk rest :
  joined i w w' b chunk rest → input = sent i (trace w) ++ chunk ++ rest → stored w i → caller w' i input (Await b chunk rest).
Proof.
  intros Hn -> Hst. destruct (n_same _ _ _ _ _ _ Hn) as (_ & E2 & _). cbn. rewrite (n_trace _ _ _ _ _ _ Hn), sent_joined, bool_decide_true, <- (assoc_L (++)) by done.
  split_and!; [done|apply elem_of_app; right; by left|]. intros b' c'. rewrite elem_of_app, list_elem_of_singleton. intros [Hj|[= -> ->]]; [right|by left].
  destruct (Hst _ _ Hj) as (r & Hrr & He). exists r. by rewrite E2.
Qed.

Lemma inv_join s i input series w' b chunk rest p :
  inv s → threads s !! i = Some (AskWrite input, Enter series) → joined i (writer s) w' b chunk rest → series = chunk ++ rest →
  p = Await b chunk rest ∨ p = FlushThen (Await b chunk rest) → inv (mkSys w' (<[i := (AskWrite input, p)]> (threads s))).
Proof.
  intros Hi Hs Hn -> Hp. destruct (joined_number _ _ _ _ _ _ Hi Hn) as (Hlt & Hr & Hf & Hc & Hother).
  destruct (n_same _ _ _ _ _ _ Hn) as (E1 & E2 & E3). pose proof (n_trace _ _ _ _ _ _ Hn) as Et.
  assert (Hk : ∀ j, j ≠ i → keeps j (writer s) w') by (intros j; by eapply keeps_joined).
  assert (Hpa : at_backend p = None ∧ locks_flush p = false) by by destruct Hp as [-> | ->].
  assert (Hl : lock_ok i p (writer s) w').
  { split; rewrite E3; [|done]. rewrite (proj2 Hpa). split; [done|]. intros Hm. by apply (proj2 (v_holder _ Hi _ _ _ Hs)) in Hm. }
  destruct (holder_step s i (AskWrite input) p w' Hi Hl) as [Hh1 Hh2].
  assert (Hcb : content b (trace w') = pending w').
  { by rewrite Et, content_joined, bool_decide_true, Hc, (n_pending _ _ _ _ _ _ Hn). }
  assert (Hco : ∀ b', b' ≠ b → content b' (trace w') = content b' (trace (writer s))).
  { intros b' Hne. by rewrite Et, content_joined, bool_decide_false, app_nil_r by done. }
  assert (Hfl : ∀ b', flushes b' (trace w') = flushes b' (trace (writer s))).
  { intros b'. rewrite Et, flushes_snoc. cbn. by rewrite app_nil_r. }
  split; cbn [writer threads].
  - rewrite E1. apply Hi.
  - rewrite (n_batch _ _ _ _ _ _ Hn), E2. done.
  - intros b'. unfold batch_ok. cbn [writer threads]. rewrite E1, E2, Hfl. destruct (decide (b' = b)) as [-> | Hne].
    + rewrite bool_decide_true by done. rewrite Hcb, Hr, Hf. split; [|split; [done|left; apply Hn]]. split; [|apply (n_room _ _ _ _ _ _ Hn)].
      rewrite (n_pending _ _ _ _ _ _ Hn). unfold len. rewrite length_app. pose proof (n_chunk _ _ _ _ _ _ Hn). destruct chunk; [done|cbn; lia].
    + destruct (Hother b' Hne) as [Hb1 Hb2]. rewrite (bool_decide_ext _ _ Hb2), Hco by done. pose proof (v_batches _ Hi b') as Hb. unfold batch_ok in Hb.
      case_bool_decide; [|done]. destruct Hb as [Hlen Hb]. split; [done|]. rewrite (n_batch _ _ _ _ _ _ Hn).
      destruct (results (writer s) !! b') as [r|]; [split; [congruence|apply Hb]|]. destruct Hb as [Hfn [Hb|(j & q' & p' & Hj & Ha)]]; [done|].
      split; [done|]. right. exists j, q', p'. split; [|done]. rewrite lookup_insert_ne; [done|]. intros <-. rewrite Hs in Hj. by injection Hj as <- <-.
  - intros j q' p' b' series' [[<- [= <- <-]]|[Hne Hj]]%lookup_insert_Some Ha; [by rewrite (proj1 Hpa) in Ha|].
    destruct (v_backend _ Hi _ _ _ _ _ Hj Ha) as (H1 & H2 & H3 & H4). assert (Hb : b' ≠ b).
    { intros ->. destruct (n_fresh _ _ _ _ _ _ Hn) as [[Eb _]|(_ & -> & _)]; [done|lia]. }
    rewrite E2, Hco by done. split_and!; [by apply Hother|rewrite (n_batch _ _ _ _ _ _ Hn); congruence|done|done].
  - apply Hh1.
  - apply Hh2.
  - apply threads_step; [done|done|]. destruct (v_threads _ Hi _ _ _ Hs) as [_ (Hne & Hin & Hst)].
    pose proof (caller_joined _ _ _ _ _ _ _ Hn Hin Hst) as Hcall.
    by destruct Hp as [-> | ->].
  - apply absent_step; done.
  - intros j b' c. rewrite Et, elem_of_app, list_elem_of_singleton. intros [Hj%(v_joined _ Hi)|[= -> -> ->]]; [|done].
    destruct (n_fresh _ _ _ _ _ _ Hn) as [[_ ->]|(_ & _ & ->)]; lia.
Qed.

(** ** Flushing *)

Lemma inv_take s i q p p' b :
  inv s → threads s !! i = Some (q, p) → at_backend p = None → locks_flush p = true → batch (writer s) = Some b →
  at_backend p' = Some (b, pending (writer s)) → thread_ok (writer s) i q p' →
  inv (mkSys (take_batch (writer s)) (<[i := (q, p')]> (threads s))).
Proof.
  intros Hi Hs Hp Hlock Hb Hp' Ht. pose proof (v_open _ Hi) as Ho. rewrite Hb in Ho. destruct Ho as (Hlt & Hpend & Hr).
  assert (Hk : ∀ j, j ≠ i → keeps j (writer s) (take_batch (writer s))) by (intros j _; by apply keeps_refl; [|apply grows_same|apply same_trace_refl]).
  assert (Hl : lock_ok i p' (writer s) (take_batch (writer s))).
  { split; cbn; [|done]. rewrite <- (v_holder _ Hi _ _ _ Hs), Hlock. by destruct p'. }
  destruct (holder_step s i q p' _ Hi Hl) as [Hh1 Hh2]. split; cbn -[batch_ok].
  - apply Hi.
  - done.
  - intros b'. pose proof (v_batches _ Hi b') as Hb'. unfold batch_ok in *. cbn. case_bool_decide; [|done]. destruct Hb' as [Hlen Hb']. split; [done|].
    destruct (results (writer s) !! b') as [r|]; [by split; [|apply Hb']|]. destruct Hb' as [Hf [Hb'|(j & q' & p1 & Hj & Ha)]]; (split; [done|]; right).
    + rewrite Hb in Hb'. injection Hb' as <-. exists i, q, p'. split; [apply lookup_insert_eq|]. by rewrite Hp', Hpend.
    + exists j, q', p1. rewrite lookup_insert_ne; [done|]. intros <-. rewrite Hs in Hj. injection Hj as <- <-. by rewrite Hp in Ha.
  - intros j q' p1 b' series [[<- [= <- <-]]|[Hne Hj]]%lookup_insert_Some Ha.
    + rewrite Hp' in Ha. injection Ha as <- <-. by split_and!.
    + destruct (v_backend _ Hi _ _ _ _ _ Hj Ha) as (H1 & _ & H3 & H4). by split_and!.
  - apply Hh1.
  - apply Hh2.
  - apply threads_step; [exact Hi|exact Hk|]. apply (keeps_thread i (writer s)); [by apply keeps_refl; [|apply grows_same|apply same_trace_refl]|exact Ht].
  - apply absent_step; done.
  - apply (v_joined _ Hi).
Qed.

Lemma keeps_settle j w w' b series r :
  results w !! b = None → results w' = <[b := r]> (results w) → grows w w' → trace w' = trace w ++ [Flushed b series r] → keeps j w w'.
Proof.
  intros Hn Hr Hg Ht. split; rewrite ?Hr, ?Ht; [|done|..].
  - intros b' r' Hb. rewrite lookup_insert_ne; [done|]. intros ->. by rewrite Hn in Hb.
  - rewrite sent_snoc. cbn. by rewrite app_nil_r.
  - intros b' c. rewrite elem_of_app, list_elem_of_singleton. naive_solver.
Qed.

Lemma inv_settle s i q p p' b series r w' :
  inv s → threads s !! i = Some (q, p) → at_backend p = Some (b, series) →
  maxSeries w' = maxSeries (writer s) → pending w' = pending (writer s) → batch w' = batch (writer s) → fresh w' = fresh (writer s) →
  results w' = <[b := r]> (results (writer s)) → grows (writer s) w' → trace w' = trace (writer s) ++ [Flushed b series r] →
  at_backend p' = None → lock_ok i p' (writer s) w' → thread_ok (writer s) i q p' →
  inv (mkSys w' (<[i := (q, p')]> (threads s))).
Proof.
  intros Hi Hs Hp E1 E2 E3 E4 E5 Eg E6 Hp' Hl Ht. destruct (v_backend _ Hi _ _ _ _ _ Hs Hp) as (Hlt & Hb & Hr & ->).
  assert (Hk : ∀ j, keeps j (writer s) w') by (intros j; by eapply keeps_settle).
  assert (Hc : ∀ b', content b' (trace w') = content b' (trace (writer s))) by (intros b'; rewrite E6, content_snoc; cbn; by rewrite app_nil_r).
  assert (Hf : ∀ b', b' ≠ b → flushes b' (trace w') = flushes b' (trace (writer s))).
  { intros b' Hne. rewrite E6, flushes_snoc. cbn. by rewrite bool_decide_false, app_nil_r by done. }
  destruct (holder_step s i q p' _ Hi Hl) as [Hh1 Hh2]. split; cbn [writer threads].
  - rewrite E1. apply Hi.
  - rewrite E2, E3, E4, E5. pose proof (v_open _ Hi) as Ho. destruct (batch (writer s)) as [b'|]; [|done].
    rewrite Hc, lookup_insert_ne; [done|congruence].
  - intros b'. pose proof (v_batches _ Hi b') as Hb'. unfold batch_ok in *. cbn [writer threads]. rewrite E1, E3, E4, E5, Hc.
    destruct (decide (b' = b)) as [-> | Hne].
    + rewrite bool_decide_true, Hr in Hb' by done. destruct Hb' as [Hlen [Hfl _]]. rewrite bool_decide_true, lookup_insert_eq by done. split; [done|]. split; [done|].
      rewrite E6, flushes_snoc, Hfl. cbn. by rewrite bool_decide_true.
    + rewrite lookup_insert_ne, Hf by done. case_bool_decide; [|done]. destruct Hb' as [Hlen Hb']. split; [done|].
      destruct (results (writer s) !! b') as [r'|]; [done|]. destruct Hb' as [Hfn [Hb'|(j & q' & p1 & Hj & Ha)]]; (split; [done|]); [by left|right].
      exists j, q', p1. rewrite lookup_insert_ne; [done|]. intros <-. rewrite Hs in Hj. injection Hj as <- <-. rewrite Hp in Ha. congruence.
  - intros j q' p1 b' series' [[<- [= <- <-]]|[Hne Hj]]%lookup_insert_Some Ha; [by rewrite Hp' in Ha|].
    destruct (v_backend _ Hi _ _ _ _ _ Hj Ha) as (H1 & H2 & H3 & H4). rewrite E3, E4, E5, Hc. split_and!; try done. rewrite lookup_insert_ne; [done|].
    intros ->. pose proof (proj1 (v_holder _ Hi _ _ _ Hs)) as HA. pose proof (proj1 (v_holder _ Hi _ _ _ Hj)) as HB.
    assert (locks_flush p = true) by by destruct p. assert (locks_flush p1 = true) by by destruct p1.
    rewrite HA in HB by done. specialize (HB ltac:(done)). congruence.
  - apply Hh1.
  - apply Hh2.
  - apply threads_step; [done|done|]. by eapply keeps_thread.
  - apply absent_step; done.
  - intros j b' c Hj%(k_joined _ _ _ (Hk j)). rewrite E4. by eapply v_joined.
Qed.

(** ** Every step *)

Lemma core_refl w w' :
  maxSeries w' = maxSeries w → pending w' = pending w → batch w' = batch w → results w' = results w → fresh w' = fresh w → trace w' = trace w → grows w w' → same_core w w'.
Proof. intros H1 H2 H3 H4 H5 H6 H7. split_and!; [done..|]. rewrite H6. apply same_trace_refl. Qed.

Lemma lock_same s i q p p' w' :
  inv s → threads s !! i = Some (q, p) → locks_flush p' = locks_flush p → flushMu w' = flushMu (writer s) → lock_ok i p' (writer s) w'.
Proof. intros Hi Hs Hp Hm. split; rewrite Hm; [rewrite Hp; by eapply v_holder|done]. Qed.

Lemma lock_take i p w w' : flushMu w = None → flushMu w' = Some i → locks_flush p = true → lock_ok i p w w'.
Proof. intros H1 H2 H3. split; rewrite H2; [done|]. intros j Hne. rewrite H1. split; [congruence|done]. Qed.

Lemma lock_release s i q p p' w' :
  inv s → threads s !! i = Some (q, p) → locks_flush p = true → locks_flush p' = false → flushMu w' = None → lock_ok i p' (writer s) w'.
Proof.
  intros Hi Hs Hp Hp' Hm. split; rewrite Hm; [by rewrite Hp'|]. intros j Hne. apply (v_holder _ Hi _ _ _ Hs) in Hp. rewrite Hp. split; [done|congruence].
Qed.

(** A step of a goroutine that leaves the queue alone. *)
Lemma inv_stay s i q p p' w' :
  inv s → threads s !! i = Some (q, p) → at_backend p = None → at_backend p' = None → same_core (writer s) w' → lock_ok i p' (writer s) w' →
  thread_ok (writer s) i q p' → inv (mkSys w' (<[i := (q, p')]> (threads s))).
Proof.
  intros Hi Hs Hp Hp' Hc Hl Ht. apply inv_move; try done; [intros q0 p0 H; rewrite Hs in H; by injection H as <- <-|].
  destruct Hc as (_ & _ & _ & E4 & _ & Eg & E6). by apply (keeps_thread i (writer s)); [apply keeps_refl|].
Qed.

(** The goroutine goes on in the continuation of its flush. *)
Lemma after_flush w i q p k :
  (p = FlushThen k ∨ p = FlushLocked k ∨ ∃ b series, p = Flushing b series k) → thread_ok w i q p →
  thread_ok w i q k ∧ at_backend k = None ∧ locks_flush k = false.
Proof. intros [->|[->|(b & series & ->)]] [Hs Hq]; cbn in Hs; (destruct k; try done; (split; [split; [done|by destruct q]|done])). Qed.

Ltac stay :=
  eapply inv_stay; try done; try (by apply core_refl; try apply grows_same); try (by split_and!; try done; apply grows_same || apply same_trace_snoc);
  try (by eapply lock_same); try (by eapply lock_release); try (by apply lock_take).

Lemma inv_enter s i q series w' p' :
  inv s → threads s !! i = Some (q, Enter series) → join i series (writer s) = (w', p') → inv (mkSys w' (<[i := (q, p')]> (threads s))).
Proof.
  intros Hi Hs Hj. destruct (v_threads _ Hi _ _ _ Hs) as [_ Hq]. destruct q as [input| | |]; try (by destruct Hq as (_ & _ & [])).
  destruct Hq as (Hne & Hin & Hst). destruct (join_cases i series (writer s)) as [[Hcl E]|[(b & _ & _ & E)|(b & w1 & chunk & rest & p & _ & Hn & -> & E & Hp)]].
  - apply Hi.
  - intros Hb. pose proof (v_open _ Hi) as Ho. by rewrite Hb in Ho.
  - done.
  - rewrite E in Hj. injection Hj as <- <-. stay. split; [done|].
    split; [by eexists|]. by left.
  - rewrite E in Hj. injection Hj as <- <-. stay.
  - rewrite E in Hj. injection Hj as <- <-. by eapply inv_join.
Qed.

Lemma caller_round w i input b chunk rest r :
  caller w i input (Await b chunk rest) → results w !! b = Some r → caller w i input (next_round r chunk rest).
Proof.
  intros (Hin & Hj & Hst) Hr. unfold next_round. destruct (resultFor r chunk) as [e|] eqn:E.
  - split; [by exists rest|]. right; right; right. exists b, chunk. split; [done|by exists r].
  - assert (Hs : stored w i).
    { intros b' c Hj'. destruct (Hst _ _ Hj') as [[= -> ->]|?]; [by exists r|done]. }
    case_bool_decide as Hrest; [subst rest|]; cbn; [by rewrite app_nil_r in Hin|done].
Qed.

Lemma inv_await s i q b chunk rest r :
  inv s → threads s !! i = Some (q, Await b chunk rest) → results (writer s) !! b = Some r →
  inv (mkSys (writer s) (<[i := (q, next_round r chunk rest)]> (threads s))).
Proof.
  intros Hi Hs Hr. destruct (v_threads _ Hi _ _ _ Hs) as [_ Hq]. destruct q as [input| | |]; try (by destruct Hq as (_ & _ & [])).
  pose proof (caller_round _ _ _ _ _ _ _ Hq Hr) as Hc.
  assert (Hn : at_backend (next_round r chunk rest) = None ∧ locks_flush (next_round r chunk rest) = false ∧ shape (next_round r chunk rest)).
  { unfold next_round. destruct (resultFor r chunk); [done|]. by case_bool_decide. }
  destruct Hn as (H1 & H2 & H3). stay.
Qed.

Lemma inv_run s i q p c w' p' :
  inv s → threads s !! i = Some (q, p) → advance i p c (writer s) = Some (w', p') → inv (mkSys w' (<[i := (q, p')]> (threads s))).
Proof.
  intros Hi Hs Ha. pose proof (v_threads _ Hi _ _ _ Hs) as Ht.
  destruct p as [series|k|k|b series k|b chunk rest|series|series| | |b series| |e], c as [|r|]; cbn in Ha; try done.
  - injection Ha as Ha. by eapply inv_enter.
  - destruct (flushMu (writer s)) eqn:Em; [done|]. injection Ha as <- <-. stay.
  - destruct (after_flush _ _ _ (FlushLocked k) k ltac:(by right; left) Ht) as (Hk & Hk1 & Hk2). destruct (batch (writer s)) as [b|] eqn:Eb; injection Ha as <- <-.
    + by eapply inv_take.
    + stay.
  - destruct (after_flush _ _ _ (Flushing b series k) k ltac:(right; right; eauto) Ht) as (Hk & Hk1 & Hk2). injection Ha as <- <-.
    eapply inv_settle; try done. by eapply lock_release.
  - destruct (results (writer s) !! b) eqn:Er; [|done]. injection Ha as <- <-. by eapply inv_await.
  - injection Ha as <- <-. destruct Ht as [_ Hq]. destruct q as [input| | |]; try (by destruct Hq as (_ & _ & [])). destruct Hq as (Hin & _).
    apply inv_move; try done; [intros q0 p0 H; rewrite Hs in H; by injection H as <- <-|apply core_refl; try done; split; [done|cbn; set_solver]|by eapply lock_same|].
    split; [done|]. split; [by eexists|]. right; left. split; [done|]. cbn. set_solver.
  - destruct (flushMu (writer s)) eqn:Em; [done|]. destruct Ht as [_ Hq]. destruct q as [input| | |]; [done|..];
    (destruct (closed (writer s)); [|destruct (globalWriter (writer s))]; injection Ha as <- <-;
     stay).
  - injection Ha as <- <-. destruct Ht as [_ Hq]. destruct q as [input| | |]; [done|..];
    stay.
  - destruct (flushMu (writer s)) eqn:Em; [done|]. destruct Ht as [_ Hq]. destruct q as [input| | |]; [done|..];
    (destruct (closed (writer s)); injection Ha as <- <-;
     stay).
  - destruct Ht as [_ Hq]. destruct q as [input| | |]; [done|..];
    (destruct (batch (writer s)) as [b|] eqn:Eb; injection Ha as <- <-; [by eapply inv_take|]; stay).
  - injection Ha as <- <-. destruct Ht as [_ Hq]. destruct q as [input| | |]; [done|..]; (eapply inv_settle; try done; by eapply lock_same).
  - injection Ha as <- <-. destruct Ht as [_ Hq]. destruct q as [input| | |]; [done|..];
    stay.
Qed.

Lemma sent_absent i t : (∀ b chunk, Joined i b chunk ∉ t) → sent i t = [].
Proof.
  intros H. induction t as [|l t IH]; [done|]. change (l :: t) with ([l] ++ t). unfold sent. rewrite map_app, concat_app. fold (sent i t).
  rewrite IH, app_nil_r; [|intros b c Hin; eapply H; by right]. destruct l as [j b c| | |]; cbn; try done. case_bool_decide as E; [|done].
  subst j. destruct (H b c). by left.
Qed.

Lemma start_ok s i q : inv s → threads s !! i = None → thread_ok (writer s) i q (start q) ∧ at_backend (start q) = None ∧ locks_flush (start q) = false.
Proof.
  intros Hi Hn. assert (Hj : ∀ b chunk, Joined i b chunk ∉ trace (writer s)) by (intros b c; by apply (v_absent _ Hi)).
  pose proof (sent_absent _ _ Hj) as Hs. assert (Hst : stored (writer s) i) by (intros b c Hin; by destruct (Hj b c)).
  destruct q as [input|series| |]; cbn; [unfold Write|unfold WriteGlobal|by split_and!..].
  - case_bool_decide as E; [subst input; split; [|done]; split; [done|]; cbn; by rewrite Hs|].
    destruct (ValidateTenantSeries input) as [e|] eqn:Ev; (split; [|done]); (split; [done|]); cbn; rewrite Hs; [|done].
    split; [by exists input|]. by right; right; left.
  - case_bool_decide; [by split_and!|]. destruct (ValidateGlobalSeries series); by split_and!.
Qed.

Lemma inv_spawn s i q w' :
  inv s → threads s !! i = None → same_core (writer s) w' → flushMu w' = flushMu (writer s) → inv (mkSys w' (<[i := (q, start q)]> (threads s))).
Proof.
  intros Hi Hn Hc Hm. destruct (start_ok s i q Hi Hn) as (Ht & Ha & Hl). apply inv_move; try done.
  - intros q' p' H. by rewrite Hn in H.
  - split; rewrite Hm; [|done]. rewrite Hl. split; [done|]. intros Hf%(v_held _ Hi). rewrite Hn in Hf. by destruct Hf.
  - destruct Hc as (_ & _ & _ & E4 & _ & Eg & E6). by apply (keeps_thread i (writer s)); [apply keeps_refl|].
Qed.

Lemma inv_act s s' a : inv s → act a s = Some s' → inv s'.
Proof.
  intros Hi Ha. destruct a as [i q|i|i c]; cbn in Ha; destruct (threads s !! i) as [[q' p]|] eqn:E; try done.
  - injection Ha as <-. by apply inv_spawn.
  - destruct (timer (writer s)); [|done]. injection Ha as <-. by apply (inv_spawn s i TimerFlush); [| |apply core_refl; try apply grows_same|].
  - destruct (advance i p c (writer s)) as [[w' p']|] eqn:Ead; [|done]. injection Ha as <-. by eapply inv_run.
Qed.

Definition initial (maxSeries : Z) (globalWriter : bool) : Sys := mkSys (NewBatchingWriter maxSeries globalWriter) ∅.

Lemma inv_initial m g : inv (initial m g).
Proof.
  split; cbn; try done.
  - destruct (Z.leb_spec m 0); lia.
  - by intros i b chunk _ ?%elem_of_nil.
  - by intros i b chunk ?%elem_of_nil.
Qed.

Lemma inv_reachable m g s : rtc step (initial m g) s → inv s.
Proof.
  intros H. assert (Hi := inv_initial m g). induction H as [|s1 s2 s3 [a Ha] _ IH]; [done|]. by eapply IH, inv_act.
Qed.

(** ** Closing and waking up *)

Definition closing (p : pc) : bool := match p with CloseDrain | CloseFlushing _ _ | CloseBackend => true | _ => false end.
Definition writing (p : pc) : bool := match p with Flushing _ _ _ | GlobalWriting _ => true | _ => false end.

#[export] Instance closed_label_dec (t : list label) : Decision (ClosedBackend ∈ t).
Proof.
  destruct (existsb (λ l, match l with ClosedBackend => true | _ => false end) t) eqn:E; [left|right].
  - apply existsb_exists in E as (l & Hin%list_elem_of_In & Hl). by destruct l.
  - intros Hin%list_elem_of_In. apply not_true_iff_false in E. apply E, existsb_exists. by exists ClosedBackend.
Defined.

(** Nothing follows the closing of the backend. *)
Definition final (t : list label) : Prop := ∀ t1 t2, t = t1 ++ ClosedBackend :: t2 → t2 = [].

Record ends (s : Sys) : Prop := {
  e_wake : batch (writer s) ≠ None → timer (writer s) = true ∨ ∃ i q p, threads s !! i = Some (q, p) ∧ flusher p = true;
  e_closing i q p : threads s !! i = Some (q, p) → closing p = true → closed (writer s) = true;
  e_writing i q p : threads s !! i = Some (q, p) → writing p = true → closed (writer s) = false;
  e_drained : closed (writer s) = true → batch (writer s) ≠ None → ∃ i q, threads s !! i = Some (q, CloseDrain);
  e_closed : ClosedBackend ∈ trace (writer s) → closed (writer s) = true ∧ batch (writer s) = None ∧
             ∀ i q p, threads s !! i = Some (q, p) → closing p = false;
  e_final : final (trace (writer s))
}.

Lemma final_snoc t l : ClosedBackend ∉ t → final (t ++ [l]).
Proof.
  intros Hn t1 t2 E. destruct t2 as [|x t2 _] using rev_ind; [done|].
  rewrite app_comm_cons, (assoc_L (++)) in E. apply app_inj_tail in E as [-> _]. destruct Hn. apply elem_of_app. right. by left.
Qed.

(** What a step of goroutine [i] to [p'] has to see to. *)
Record closes (s : Sys) (i : nat) (p' : pc) (w' : BatchingWriter) : Prop := {
  c_wake : batch w' ≠ None → timer w' = true ∨ flusher p' = true ∨
    (batch (writer s) ≠ None ∧ timer w' = timer (writer s) ∧ ∀ q p, threads s !! i = Some (q, p) → flusher p = false);
  c_closing : closing p' = true → closed w' = true;
  c_keeps : closed (writer s) = true → closed w' = true;
  c_writing : writing p' = true → closed w' = false;
  c_writers : closed w' = true → closed (writer s) = true ∨ ∀ j q p, threads s !! j = Some (q, p) → writing p = false;
  c_drained : closed w' = true → batch w' ≠ None → p' = CloseDrain ∨
    (closed (writer s) = true ∧ batch (writer s) ≠ None ∧ ∀ q p, threads s !! i = Some (q, p) → p ≠ CloseDrain);
  c_after : ClosedBackend ∈ trace (writer s) → trace w' = trace (writer s) ∧ batch w' = None ∧ closing p' = false;
  c_trace : trace w' = trace (writer s) ∨ ∃ l, trace w' = trace (writer s) ++ [l] ∧
    (l = ClosedBackend → closed w' = true ∧ batch w' = None ∧ closing p' = false ∧ ∀ j q p, threads s !! j = Some (q, p) → j ≠ i → closing p = false)
}.

Lemma ends_closes s i q p' w' : ends s → closes s i p' w' → ends (mkSys w' (<[i := (q, p')]> (threads s))).
Proof.
  intros He Hc. split; cbn [writer threads].
  - intros Hb. destruct (c_wake _ _ _ _ Hc Hb) as [?|[?|(Hb' & Ht & Hf)]]; [by left|right; exists i, q, p'; by rewrite lookup_insert_eq|].
    rewrite Ht. destruct (e_wake _ He Hb') as [?|(j & q' & p & Hj & Hp)]; [by left|right]. exists j, q', p. split; [|done].
    rewrite lookup_insert_ne; [done|]. intros <-. by rewrite (Hf _ _ Hj) in Hp.
  - intros j q' p [[<- [= <- <-]]|[Hne Hj]]%lookup_insert_Some Hp; [by apply (c_closing _ _ _ _ Hc)|]. apply (c_keeps _ _ _ _ Hc). by eapply e_closing.
  - intros j q' p [[<- [= <- <-]]|[Hne Hj]]%lookup_insert_Some Hp; [by apply (c_writing _ _ _ _ Hc)|]. apply not_true_is_false. intros Hcl.
    destruct (c_writers _ _ _ _ Hc Hcl) as [Hw|Hw]; [by rewrite (e_writing _ He _ _ _ Hj Hp) in Hw|by rewrite (Hw _ _ _ Hj) in Hp].
  - intros Hcl Hb. destruct (c_drained _ _ _ _ Hc Hcl Hb) as [->|(H1 & H2 & H3)]; [exists i, q; apply lookup_insert_eq|].
    destruct (e_drained _ He H1 H2) as (j & q' & Hj). exists j, q'. rewrite lookup_insert_ne; [done|]. intros <-. by destruct (H3 _ _ Hj).
  - intros Hin. destruct (decide (ClosedBackend ∈ trace (writer s))) as [Hd|Hd].
    + destruct (c_after _ _ _ _ Hc Hd) as (_ & Hb & Hp). destruct (e_closed _ He Hd) as (H1 & H2 & H3).
      split_and!; [by apply (c_keeps _ _ _ _ Hc)|done|]. by intros j q' p [[<- [= <- <-]]|[Hne Hj]]%lookup_insert_Some; [|eapply H3].
    + destruct (c_trace _ _ _ _ Hc) as [Ht|(l & Ht & Hl)]; rewrite Ht in Hin; [done|]. apply elem_of_app in Hin as [?|Hin%list_elem_of_singleton]; [done|].
      destruct (Hl (eq_sym Hin)) as (H1 & H2 & H3 & H4). split_and!; [done|done|]. by intros j q' p [[<- [= <- <-]]|[Hne Hj]]%lookup_insert_Some; [|eapply H4].
  - destruct (decide (ClosedBackend ∈ trace (writer s))) as [Hd|Hd].
    + destruct (c_after _ _ _ _ Hc Hd) as (-> & _). apply He.
    + destruct (c_trace _ _ _ _ Hc) as [->|(l & -> & _)]; [apply He|by apply final_snoc].
Qed.

(** A step that leaves the queue and the closing alone, and may log something. *)
Lemma closes_same s i q p p' w' :
  ends s → threads s !! i = Some (q, p) →
  batch w' = batch (writer s) → timer w' = timer (writer s) → closed w' = closed (writer s) →
  (flusher p = true → flusher p' = true ∨ batch (writer s) = None) → (closing p' = true → closing p = true) →
  (writing p' = true → closed (writer s) = false) → (p = CloseDrain → batch (writer s) = None) →
  (trace w' = trace (writer s) ∨ ClosedBackend ∉ trace (writer s) ∧ ∃ l, l ≠ ClosedBackend ∧ trace w' = trace (writer s) ++ [l]) →
  closes s i p' w'.
Proof.
  intros He Hs E1 E2 E3 Hf Hc Hw Hd Ht. split; rewrite ?E1, ?E2, ?E3; try done.
  - intros Hb. destruct (flusher p) eqn:Ef; [destruct (Hf eq_refl); [by right; left|done]|]. right; right. split_and!; [done|done|].
    intros q0 p0 H. rewrite Hs in H. by injection H as <- <-.
  - intros Hp. by eapply e_closing, Hc.
  - by left.
  - intros Hcl Hb. right. split_and!; [done|done|]. intros q0 p0 H. rewrite Hs in H. injection H as <- <-. intros ->. by apply Hb, Hd.
  - intros Hin. destruct (e_closed _ He Hin) as (H1 & H2 & H3). split_and!; [by destruct Ht as [?|[? _]]|done|].
    apply not_true_is_false. intros Hp%Hc. by rewrite (H3 _ _ _ Hs) in Hp.
  - destruct Ht as [?|(_ & l & Hl & Ht)]; [by left|right]. exists l. by split.
Qed.

(** Only one goroutine holds flushMu. *)
Lemma one_holder s i j q q' p p' :
  inv s → threads s !! i = Some (q, p) → threads s !! j = Some (q', p') → locks_flush p = true → locks_flush p' = true → i = j.
Proof. intros Hi H1 H2 Hp%(v_holder _ Hi _ _ _ H1) Hp'%(v_holder _ Hi _ _ _ H2). congruence. Qed.

(** The open batch is taken by goroutine [i], which holds flushMu. *)
Lemma closes_take s i q p p' :
  inv s → ends s → threads s !! i = Some (q, p) → locks_flush p = true → batch (writer s) ≠ None →
  p = CloseDrain ∧ writing p' = false ∨ p ≠ CloseDrain ∧ closing p' = false → closes s i p' (take_batch (writer s)).
Proof.
  intros Hi He Hs Hl Hb Hp. split; cbn; try done.
  - destruct Hp as [[-> _]|[_ Hp]]; [intros _; by eapply e_closing|by rewrite Hp].
  - intros Hw. destruct Hp as [[_ Hp]|[Hp _]]; [by rewrite Hp in Hw|]. apply not_true_is_false. intros Hc.
    destruct (e_drained _ He Hc Hb) as (j & q' & Hj). destruct Hp. assert (i = j) as -> by by eapply one_holder. rewrite Hs in Hj. by injection Hj.
  - by left.
  - intros Hin. by destruct (e_closed _ He Hin) as (_ & Hn & _).
  - by left.
Qed.

Lemma closes_join s i series w' p' :
  inv s → ends s → series ≠ [] → (∃ q, threads s !! i = Some (q, Enter series)) → join i series (writer s) = (w', p') → closes s i p' w'.
Proof.
  intros Hi He Hne [q Hs] Hj. destruct (closed (writer s)) eqn:Ec.
  { unfold join in Hj. rewrite Ec in Hj. injection Hj as <- <-. eapply closes_same; try done. by left. }
  assert (Hcb : ClosedBackend ∉ trace (writer s)) by (intros Hin; by rewrite (proj1 (e_closed _ He Hin)) in Ec).
  unfold join in Hj. rewrite Ec in Hj. set (w1 := match batch (writer s) with Some _ => _ | None => _ end) in Hj.
  assert (E : closed w1 = false ∧ trace w1 = trace (writer s) ∧ (batch (writer s) ≠ None ∧ timer w1 = timer (writer s) ∨ timer w1 = true)).
  { unfold w1. destruct (batch (writer s)) eqn:Eb; [|by split_and!; [| |right]]. split_and!; [done|done|left; done]. }
  destruct E as (E1 & E2 & E3). set (b := default O _) in Hj. set (n := Z.to_nat _) in Hj.
  assert (Hsome : closed w' = false ∧ timer w' = timer w1 ∧ closing p' = false ∧ (trace w' = trace (writer s) ∨ ∃ c, trace w' = trace (writer s) ++ [Joined i b c])).
  { destruct (_ <=? 0); injection Hj as <- <-; [by split_and!; [| | |left]|]. cbn. rewrite E2. split_and!; [done|done|by destruct (_ <=? _)|right; by eexists]. }
  destruct Hsome as (H1 & H2 & H3 & H4). split; rewrite ?H1, ?H3; try done.
  - intros _. rewrite H2. destruct E3 as [[Hb ->]|E3]; [right; right|by left]. split_and!; [done|done|]. intros q0 p0 H. rewrite Hs in H. by injection H as <- <-.
  - by rewrite Ec.
  - destruct H4 as [?|[c H4]]; [by left|right; by eexists].
Qed.

Lemma closes_run s i q p c w' p' :
  inv s → ends s → threads s !! i = Some (q, p) → advance i p c (writer s) = Some (w', p') → closes s i p' w'.
Proof.
  intros Hi He Hs Ha. pose proof (v_threads _ Hi _ _ _ Hs) as Ht.
  assert (Hlog : writing p = true ∨ closing p = true → ClosedBackend ∉ trace (writer s)).
  { intros Hp Hin. destruct (e_closed _ He Hin) as (H1 & _ & H3). destruct Hp as [Hp|Hp]; [by rewrite (e_writing _ He _ _ _ Hs Hp) in H1|by rewrite (H3 _ _ _ Hs) in Hp]. }
  destruct p as [series|k|k|b series k|b chunk rest|series|series| | |b series| |e], c as [|r|]; cbn in Ha; try done.
  - injection Ha as Ha. destruct Ht as [_ Hq]. destruct q as [input| | |]; try (by destruct Hq as (_ & _ & [])). destruct Hq as [Hne _]. by eapply closes_join; [| | |eexists|].
  - destruct (flushMu (writer s)); [done|]. injection Ha as <- <-. eapply closes_same; try done; by left.
  - destruct (after_flush _ _ _ (FlushLocked k) k ltac:(by right; left) Ht) as (Hk & Hk1 & Hk2).
    destruct (batch (writer s)) as [b|] eqn:Eb; injection Ha as <- <-; [apply (closes_take _ _ _ _ _ Hi He Hs); [done|by rewrite Eb|by right]|].
    eapply closes_same; try done; [by right| | |by left]; by destruct k.
  - destruct (after_flush _ _ _ (Flushing b series k) k ltac:(right; right; eauto) Ht) as (Hk & Hk1 & Hk2). injection Ha as <- <-.
    eapply closes_same; try done; [by destruct k..|]. right. split; [apply Hlog; by left|by eexists; split; [|reflexivity]].
  - destruct (results (writer s) !! b); [|done]. injection Ha as <- <-. unfold next_round.
    destruct (resultFor _ _); [|case_bool_decide]; (eapply closes_same; try done; by left).
  - injection Ha as <- <-. eapply closes_same; try done; by left.
  - destruct (flushMu (writer s)); [done|]. destruct (closed (writer s)) eqn:Ec; [|destruct (globalWriter (writer s))]; injection Ha as <- <-;
    (eapply closes_same; try done; by left).
  - injection Ha as <- <-. eapply closes_same; try done. right. split; [apply Hlog; by left|by eexists; split; [|reflexivity]].
  - destruct (flushMu (writer s)) eqn:Em; [done|]. destruct (closed (writer s)) eqn:Ec; injection Ha as <- <-; [eapply closes_same; try done; by left|].
    split; cbn; try done.
    + intros Hb. right; right. split_and!; [done|done|]. intros q0 p0 H. rewrite Hs in H. by injection H as <- <-.
    + intros _. right. intros j q' p Hj. apply not_true_is_false. intros Hp. assert (Hl : locks_flush p = true) by by destruct p.
      apply (v_holder _ Hi _ _ _ Hj) in Hl. by rewrite Em in Hl.
    + by left.
    + intros Hin. by rewrite (proj1 (e_closed _ He Hin)) in Ec.
    + by left.
  - destruct (batch (writer s)) as [b|] eqn:Eb; injection Ha as <- <-; [apply (closes_take _ _ _ _ _ Hi He Hs); [done|by rewrite Eb|by left]|].
    eapply closes_same; try done; by left.
  - injection Ha as <- <-. eapply closes_same; try done. right. split; [apply Hlog; by right|by eexists; split; [|reflexivity]].
  - injection Ha as <- <-. assert (Hc : closed (writer s) = true) by by eapply e_closing. assert (Hb : batch (writer s) = None).
    { destruct (batch (writer s)) eqn:Eb; [|done]. destruct (e_drained _ He Hc) as (j & q' & Hj); [by rewrite Eb|].
      assert (i = j) as -> by by eapply one_holder. rewrite Hs in Hj. by injection Hj. }
    assert (Hn : ClosedBackend ∉ trace (writer s)) by (apply Hlog; by right). split; cbn; try done; try (by rewrite ?Hc, ?Hb); [by left|].
    right. exists ClosedBackend. split; [done|]. intros _. split_and!; try done. intros j q' p Hj Hne. apply not_true_is_false. intros Hp.
    destruct Hne. symmetry. eapply one_holder; try done. by destruct p.
Qed.

Lemma closes_spawn s i q w' :
  ends s → threads s !! i = None → batch w' = batch (writer s) → closed w' = closed (writer s) → trace w' = trace (writer s) →
  timer w' = timer (writer s) ∨ flusher (start q) = true → closes s i (start q) w'.
Proof.
  intros He Hn E1 E2 E3 Ht. assert (Hq : closing (start q) = false ∧ writing (start q) = false).
  { destruct q as [series|series| |]; cbn; [unfold Write|unfold WriteGlobal|done..]; (case_bool_decide; [done|]);
    [by destruct (ValidateTenantSeries series)|by destruct (ValidateGlobalSeries series)]. }
  destruct Hq as [Hq1 Hq2]. split; rewrite ?E1, ?E2, ?E3, ?Hq1, ?Hq2; try done.
  - intros Hb. destruct Ht as [->|Ht]; [right; right|by right; left]. split_and!; [done|done|]. intros q0 p0 H. by rewrite Hn in H.
  - by left.
  - intros Hc Hb. right. split_and!; [done|done|]. intros q0 p0 H. by rewrite Hn in H.
  - intros Hin. by destruct (e_closed _ He Hin) as (_ & Hb & _).
  - by left.
Qed.

Lemma ends_act s s' a : inv s → ends s → act a s = Some s' → ends s'.
Proof.
  intros Hi He Ha. destruct a as [i q|i|i c]; cbn in Ha; destruct (threads s !! i) as [[q' p]|] eqn:E; try done.
  - injection Ha as <-. apply ends_closes; [done|]. apply closes_spawn; try done. by left.
  - destruct (timer (writer s)); [|done]. injection Ha as <-. apply (ends_closes s i TimerFlush); [done|]. apply (closes_spawn s i TimerFlush); try done. by right.
  - destruct (advance i p c (writer s)) as [[w' p']|] eqn:Ead; [|done]. injection Ha as <-. apply ends_closes; [done|]. by eapply closes_run.
Qed.

Lemma ends_initial m g : ends (initial m g).
Proof. split; cbn; try done; [by intros ?%elem_of_nil|]. intros t1 t2 E. by destruct t1. Qed.

Lemma ends_reachable m g s : rtc step (initial m g) s → ends s.
Proof.
  intros H. assert (Hi := inv_initial m g). assert (He := ends_initial m g).
  induction H as [|s1 s2 s3 [a Ha] _ IH]; [done|]. apply IH; [by eapply inv_act|by eapply ends_act].
Qed.

Lemma max_act s s' a : act a s = Some s' → maxSeries (writer s') = maxSeries (writer s).
Proof.
  destruct a as [i q|i|i c]; cbn; destruct (threads s !! i) as [[q' p]|]; try done; [by intros [= <-]|by destruct (timer (writer s)); [intros [= <-]|]|].
  destruct (advance i p c (writer s)) as [[w' p']|] eqn:E; [|done]. intros [= <-]. cbn.
  destruct p, c; cbn in E; try done; repeat (case_match; try done); simplify_eq; try done.
  unfold join in *. repeat case_match; simplify_eq; done.
Qed.

Lemma max_kept m g s : rtc step (initial m g) s → maxSeries (writer s) = if m <=? 0 then 500 else m.
Proof.
  intros H. change (if m <=? 0 then 500 else m) with (maxSeries (writer (initial m g))).
  induction H as [|s1 s2 s3 [a Ha] _ IH]; [done|]. rewrite IH. by eapply max_act.
Qed.

(** ** The theorems *)


(** C10. No caller is left waiting: in every reachable state in which some goroutine has not returned,
    a goroutine can go on or the timer of the open batch can fire, without any context being
    cancelled - a batch whose callers wait is open with its timer set or a flush on its way, at the
    backend, or settled. *)
Theorem batching_progress (m : Z) (g : bool) (s : Sys) (i : nat) (q : request) (p : pc) :
  rtc step (initial m g) s → threads s !! i = Some (q, p) → (∀ e, p ≠ Returned e) →
  (∃ j c, c ≠ Cancel ∧ is_Some (act (Run j c) s)) ∨ ∀ j, threads s !! j = None → is_Some (act (Fire j) s).
Proof.
  intros H Hs Hp. pose proof (inv_reachable _ _ _ H) as Hi. pose proof (ends_reachable _ _ _ H) as He.
  assert (Hrun : ∀ j q0 p0 c, threads s !! j = Some (q0, p0) → c ≠ Cancel → is_Some (advance j p0 c (writer s)) → ∃ j c, c ≠ Cancel ∧ is_Some (act (Run j c) s)).
  { intros j q0 p0 c Hj Hc [[w1 p1] Ha]. exists j, c. split; [done|]. cbn. rewrite Hj, Ha. by eexists. }
  destruct (flushMu (writer s)) as [h|] eqn:Em.
  { left. destruct (v_held _ Hi _ Em) as [[q0 p0] Hh]. assert (Hl : locks_flush p0 = true) by by apply (v_holder _ Hi _ _ _ Hh).
    apply (Hrun h q0 p0 (match p0 with FlushLocked _ | CloseDrain => Go | _ => Answer (mkResult ∅ None) end) Hh); [by destruct p0|].
    destruct p0; try done; cbn; try done; by destruct (batch (writer s)). }
  destruct p as [series|k|k|b series k|b chunk rest|series|series| | |b series| |e]; try (by destruct (Hp e)); try (by apply (v_holder _ Hi _ _ _ Hs) in Em).
  all: try (left; apply (Hrun i _ _ Go Hs); [done|cbn; rewrite ?Em; try (by eexists); by repeat case_match]).
  all: try (assert (Hl := proj1 (v_holder _ Hi _ _ _ Hs) eq_refl); by rewrite Em in Hl).
  destruct (results (writer s) !! b) as [r|] eqn:Er; [left; apply (Hrun i _ _ Go Hs); [done|cbn; rewrite Er; by eexists]|].
  assert (Hb : batch (writer s) = Some b).
  { pose proof (v_batches _ Hi b) as Hb. unfold batch_ok in Hb. destruct (v_threads _ Hi _ _ _ Hs) as [_ Hq].
    destruct q as [input| | |]; try (by destruct Hq as (_ & _ & [])). destruct Hq as (_ & Hj & _).
    rewrite bool_decide_true, Er in Hb by (by eapply v_joined). destruct Hb as (_ & _ & [Hb|(j & q' & p' & Hj' & Ha)]); [done|].
    assert (Hl : locks_flush p' = true) by by destruct p'. apply (v_holder _ Hi _ _ _ Hj') in Hl. by rewrite Em in Hl. }
  destruct (e_wake _ He) as [Ht|(j & q' & p' & Hj & Hf)]; [by rewrite Hb| |].
  - right. intros j Hj. cbn. by rewrite Hj, Ht.
  - left. destruct p'; try done; apply (Hrun j _ _ Go Hj); try done; cbn; rewrite ?Em; [done|by destruct (batch (writer s))].
Qed.

(** ** Callers of one batch *)

Lemma resultFor_own r chunk : resultFor r chunk = match own_refusal (fr_fenced r) chunk with Some e => Some e | None => fr_err r end.
Proof.
  unfold resultFor. destruct (Z.ltb_spec 0 (Z.of_nat (size (fr_fenced r)))) as [|Hs]; [done|].
  assert (E : fr_fenced r = ∅) by (apply map_size_empty_inv; lia). rewrite E. by induction chunk.
Qed.

Section Isolation.

(** The database and the backend answer each call by [o]. *)
Context (o : WriterFence.call → WriterFence.answer).

(** What the lookups say of the caller's own series: the refusal of the first one refused. *)
Definition own_verdict (chunk : list Series) : option error :=
  match List.find (λ s, negb (bool_decide (WriterFence.verdict o (tenant_of s) = None))) chunk with
  | Some s => Backend <$> WriterFence.verdict o (tenant_of s)
  | None => None
  end.

Lemma own_refusal_verdict m chunk : (∀ s, s ∈ chunk → m !! tenant_of s = Backend <$> WriterFence.verdict o (tenant_of s)) → own_refusal m chunk = own_verdict chunk.
Proof.
  unfold own_verdict. induction chunk as [|s chunk IH]; intros H; [done|]. cbn. rewrite (H s) by left.
  destruct (WriterFence.verdict o (tenant_of s)) as [e|] eqn:E; cbn; [by rewrite E|]. apply IH. intros s' Hs. apply H. by right.
Qed.

Lemma no_refusal (e : error) chunk : resultFor (mkResult ∅ (Some e)) chunk = Some e.
Proof. done. Qed.

Lemma validate_tenants_named i series : validate_tenants i series = None → ∀ s, s ∈ series → tenant_of s ≠ [].
Proof.
  revert i. induction series as [|x series IH]; intros i H s Hs; [by apply elem_of_nil in Hs|]. cbn in H. case_bool_decide as E; [done|].
  apply elem_of_cons in Hs as [->|Hs]; [|by eapply IH]. intros Hn. rewrite Hn in E. done.
Qed.

(** C9. Callers that share a batch do not share each other's tenants' fate.  When the fenced writer
    takes a batch of many callers' series, whatever the database and the backend answer, one of
    two things happens.  Either the batch fails as a whole and every caller is told so, for a
    reason that is not the lifecycle of anybody's tenant: an identifier in the batch that is not
    a UUID - another caller's too -, a transaction, lease or registry lookup that failed, or a
    backend that did not take the eligible series.  Or each caller is told exactly what the
    lookups say of its own tenants, whatever they say of the others', and the backend got
    exactly the series, in order, of the tenants that may write. *)
Theorem cobatched_isolated (guarded : bool) (next : list Series → prog (option WriterFence.error)) (before chunk after : list Series) :
  chunk ≠ [] → ValidateTenantSeries (before ++ chunk ++ after) = None →
  let all := before ++ chunk ++ after in
  let write eligible := if bool_decide (eligible = []) then mret None else next eligible in
  let r := WriterFence.exec o (WritePartitioned (Some (WriterFence.PostgresFence true guarded)) next all) in
  (∃ e, r.1 = (∅, Some (Backend e)) ∧ WriterFence.batch_failure o tenant_of all write e ∧ resultFor (mkResult r.1.1 r.1.2) chunk = Some (Backend e)) ∨
  ∃ fenced distinct,
    r = ((fenced, None), (WriterFence.Begin :: WriterFence.SetRole :: (if guarded then [WriterFence.Guard] else [])) ++
          ((WriterFence.LockShared <$> distinct) ++ (WriterFence.Lookup <$> distinct) ++
           (WriterFence.exec o (write (List.filter (λ s, bool_decide (WriterFence.verdict o (tenant_of s) = None)) all))).2) ++
          [WriterFence.Commit; WriterFence.Rollback]) ∧
    (∀ id, id ∈ distinct ↔ id ∈ tenant_of <$> all) ∧
    resultFor (mkResult fenced None) chunk = own_verdict chunk.
Proof.
  intros Hne Hv all write r.
  assert (Hall : all ≠ []). { unfold all. destruct before; [by destruct chunk|done]. }
  unfold r, WritePartitioned. rewrite (bool_decide_eq_false_2 _ Hall). fold all in Hv. rewrite Hv, WriterFence.exec_bind. fold write.
  destruct (WriterFence.partition_cases o tenant_of all write guarded WriterFence.MissingTenant Hall) as [(e & E & He)|(m & distinct & E & Hd & Hm)].
  - intros s Hs. by eapply validate_tenants_named.
  - left. exists e. rewrite E. cbn. split_and!; [by rewrite fmap_empty|done|by rewrite fmap_empty].
  - right. rewrite E. cbn [fst snd WriterFence.exec]. eexists _, distinct. rewrite app_nil_r. split_and!; [reflexivity|done|].
    rewrite resultFor_own. cbn. rewrite own_refusal_verdict; [by destruct (own_verdict chunk)|].
    intros s Hs. rewrite lookup_fmap, Hm, bool_decide_true; [done|]. apply list_elem_of_fmap_2. unfold all. set_solver.
Qed.

End Isolation.

(** ** Examples *)

Definition demo_series (tenant : gostring) (n : Z) : Series := mkSeries (str "up") {[TenantLabel := tenant]} n (SpecFloat.S754_zero false).

Definition demo_1 : list Series := demo_series WriterFence.demo_a <$> [1; 2; 3].
Definition demo_2 : list Series := [demo_series WriterFence.demo_b 4].

Definition demo_refusal : error := Backend (WriterFence.TenantWritesFenced WriterFence.demo_b (str "offboarding")).

(** Two callers, batches of two: the second batch holds one series of each, and the fence
    refuses the second caller's tenant. *)
Definition demo_open : list action :=
  [Spawn 0 (AskWrite demo_1); Run 0 Go; Run 0 Go; Run 0 Go; Run 0 (Answer (mkResult ∅ None)); Run 0 Go; Run 0 Go].
Definition demo_rest : list action :=
  [Spawn 1 (AskWrite demo_2); Run 1 Go; Run 1 Go; Run 1 Go; Run 1 (Answer (mkResult {[WriterFence.demo_b := demo_refusal]} None)); Run 0 Go; Run 1 Go;
   Spawn 2 AskClose; Run 2 Go; Run 2 Go; Run 2 (Answer (mkResult ∅ None)); Spawn 3 (AskWrite demo_1); Run 3 Go].

Definition acted (l : list action) (s : Sys) : Sys := default s (acts l s).
Definition playable (l : list action) (s : Sys) : bool := match acts l s with Some _ => true | None => false end.

Lemma acted_steps l s : playable l s = true → rtc step s (acted l s).
Proof. unfold playable, acted. intros H. apply acts_steps with l. by destruct (acts l s). Qed.

Definition demo_waiting : Sys := acted demo_open (initial 2 true).
Definition demo_done : Sys := acted (demo_open ++ demo_rest) (initial 2 true).


Lemma batching_progress_witness :
  (∃ j c, c ≠ Cancel ∧ is_Some (act (Run j c) demo_waiting)) ∨ ∀ j, threads demo_waiting !! j = None → is_Some (act (Fire j) demo_waiting).
Proof.
  apply (batching_progress 2 true demo_waiting 0 (AskWrite demo_1) (Await 1 [demo_series WriterFence.demo_a 3] [])).
  - apply acted_steps. vm_compute. reflexivity.
  - vm_compute. reflexivity.
  - intros e H. discriminate H.
Defined.

(** The second caller is told of its own fenced tenant; the first one's series went through. *)
Lemma cobatched_isolated_witness :
  resultFor (uncurry mkResult (WriterFence.exec (WriterFence.demo_oracle WriterFence.demo_marked WriterFence.Fine)
    (WritePartitioned (Some (WriterFence.PostgresFence true false)) (λ rows, WriterFence.backend (tenant_of <$> rows)) (demo_1 ++ demo_2 ++ []))).1) demo_2
  = Some demo_refusal.
Proof.
  destruct (cobatched_isolated (WriterFence.demo_oracle WriterFence.demo_marked WriterFence.Fine) false (λ rows, WriterFence.backend (tenant_of <$> rows)) demo_1 demo_2 [])
    as [(e & E & _)|(fenced & distinct & E & _ & Hr)].
  - discriminate.
  - vm_compute. reflexivity.
  - exfalso. apply (f_equal (λ p, bool_decide (p.2 = None))) in E. vm_compute in E. discriminate E.
  - rewrite E. cbn [fst uncurry]. rewrite Hr. vm_compute. reflexivity.
Defined.

(** One series whose tenant label is not a UUID passes the writer's validation and fails the whole
    batch: a caller of a valid tenant is answered with the other caller's identifier. *)
Definition demo_malformed : list Series := [demo_series (str "tenant-7") 4].

Example malformed_id_fails_batch :
  ValidateTenantSeries (demo_malformed ++ demo_1) = None ∧
  let r := WriterFence.exec (WriterFence.demo_oracle WriterFence.demo_marked WriterFence.Fine)
    (WritePartitioned (Some (WriterFence.PostgresFence true false)) (λ rows, WriterFence.backend (tenant_of <$> rows)) (demo_malformed ++ demo_1)) in
  resultFor (mkResult r.1.1 r.1.2) demo_1 = Some (Backend (WriterFence.InvalidWriterID (str "tenant-7"))) ∧ r.2 = [].
Proof. split; [vm_compute; reflexivity|]. vm_compute. split; reflexivity. Qed.

End TsdbBatch.
